(* ===== verification/_CoqProject ===== *)
-Q . S2P
Prelude.v
Format.v
Cursor.v
WalRecord.v
WalReplay.v
Durability.v
WalWriter.v
WalConcurrency.v
WalInvariant.v
WalSystem.v
WalLiveness.v
Schema.v
Epoch.v
EpochAlias.v
Manifest.v
ManifestCodec.v
Vfs.v
CrashDirectory.v
ManifestIo.v
Bitmap.v
Dict.v
Columns.v
ColumnsSpec.v
Float.v
Predicate.v
PredicateSpec.v
TopK.v
Tier.v
IngestPayload.v
IngestCodec.v
SegmentLayout.v
SegmentLayoutSpec.v
SegmentColumnsSpec.v
SegmentRebuild.v
SegmentWriter.v
SegmentReader.v
SegmentRows.v
SegmentVectors.v
SegmentHeaderSpec.v
SegmentImage.v
SegmentChunks.v
SegmentDocuments.v
SegmentQuery.v
SegmentRowsSpec.v
SegmentSeal.v
SegmentReadBack.v
StoreErrors.v
Accounted.v
ActiveSegment.v
ActiveSpec.v
ActiveRoom.v
ActiveSteps.v
AtomicBatch.v
AtomicBatchSpec.v
CrashRecovery.v
ActiveIngest.v
ActiveRecovery.v
ActiveReplaySpec.v
ActiveIngestSpec.v
ActiveHistory.v
ActiveTable.v
Snapshot.v
StoreWal.v
Seal.v
SealSpec.v
SealServes.v
SealRecovery.v
Retention.v
EpochTransition.v
EpochTransitionSpec.v
Planner.v
FilteredSearch.v
FilteredSearchSpec.v
FilteredSearchExact.v
WorkCheck.v
Postings.v
PostingsBits.v
PostingsEncode.v
PostingsRead.v
Phrase.v
