(* ===== verification/Prelude.v ===== *)
(** * Zeppelin Embed: a verification library

    Zeppelin Embed is an embedded search store written in Rust.  This library
    models the storage and filtering core of [src/crates/zeppelin-embed/src] in
    the build without the [graph-cypher] and [test-seams] features, and proves
    the properties that core is meant to have.

    ** The program and its model

    Every byte on disk goes through one checksummed frame ([format/]).  Writes are
    appended to a write-ahead log by a group-commit writer shared between threads
    ([wal/]); a manifest ([manifest/]) names the sealed segments, the schema
    ([meta/mod.rs]) and the embedding epochs ([epoch.rs]) of one snapshot and is
    replaced atomically through the file-system seam ([vfs/mod.rs]). Inside a
    segment, metadata lives in typed columns ([meta/columns.rs], [meta/dict.rs])
    beside an alive set ([meta/alive.rs]); queries filter rows with predicates
    ([meta/predicate.rs]) and rank them with bounded collectors ([scan/topk.rs]); a
    filtered query ([planner/]) plans and scores each segment and merges their best
    rows.  A term's occurrences are a posting list, packed in blocks of 128 rows
    ([fts/postings.rs]), and a phrase is a search over such lists ([fts/phrase.rs]),
    both under a callback that may stop the work ([fts/control.rs]). Maintenance
    decides by a pure policy ([tier/policy.rs]) which segments to merge.  A write
    ([ingest/mod.rs]) resolves the revision of each document, applies the batch to a
    copy of the active segment ([ingest/active.rs]), appends it to the log as one
    atomic run of records ([ingest/wal_payload.rs], [ingest/atomic_batch.rs]) and
    publishes the copy; a reopen cuts what a crash left of an append and replays the
    log into a new active segment.  Rows that leave the active segment are sealed
    into immutable segment files ([segment/]): 16 KiB-aligned regions for columns,
    alive rows, vectors, document versions, stored text and metadata, graph and
    postings, behind a checked directory and with a checksum for every 64 KiB.
    Sealing ([ingest/seal.rs]) writes that file, commits a manifest that names it,
    reloads the published snapshot ([lifecycle/snapshot.rs]) and truncates the log;
    retention ([ingest/retention.rs]) drops the segments of an old partition.

    - [Prelude] : bytes, machine integers as [Z] with their checked and
      saturating operations written out, [result] with its bind, slices,
      little-endian encodings, the state-and-error monad [RunE], bisection, shared
      tactics and lemmas.
    - [Format] : [format/mod.rs] (families, registry) and [format/frame.rs]
      (header, [encode_artifact], [decode_artifact]).  The XXH3 hash is the class
      [Xxh3]; [Xxh3Laws] says its values are 64-bit.
    - [Cursor] : the cursor monad the payload decoders share, with the notions of
      reading an encoding back and of yielding well-typed values, and the check of
      [std::str::from_utf8].
    - [WalRecord] : [wal/record.rs] and [wal/header.rs].
    - [WalReplay] : [wal/replay.rs], and [WalReader], [VisibleRecord] and
      [encode_wal_image] of [wal/mod.rs].
    - [Durability] : [lifecycle/durability.rs].
    - [WalWriter] : the writer's state and one definition per critical section of
      [wal/mod.rs] (staging one record or a batch, popping and completing a
      group, flushing, waiting, poisoning, retiring), with the file append, the
      file sync and the directory sync as outcomes that may fail part-way.
    - [WalConcurrency] : threads as program counters between critical sections;
      [exec] runs one action, [step] is the transition relation and [reachable]
      its closure from a created or resumed writer.
    - [WalInvariant], [WalSystem] : the invariant of groups, log and file, its
      preservation by every step, and the theorems it gives; [WalLiveness] : what
      completes, and a schedule that never does.
    - [Schema] : [meta/mod.rs].  [Epoch], [EpochAlias] : [epoch.rs], the alias
      cell as a writer and readers interleaving on four atomic fields.
    - [Manifest], [ManifestCodec] : [manifest/mod.rs] with the segment metadata of
      [segment/mod.rs]; the decoder is a small parser monad over the cursor.
    - [Vfs] : the class of the [Vfs] trait's operations the manifest uses, the laws
      callers rely on, and an instance with inodes, injected faults and crashes, in
      which a barrier only orders writes and a full sync is durable; and the
      replacement of a file (write, sync, rename, sync the directory) as the
      manifest commit and the log repair both do it, with what a crash leaves of it.
      [ManifestIo] : [manifest/io.rs] against that class.  [CrashDirectory] : the
      directory a crash leaves when several files are replaced in turn.
    - [Bitmap] : [meta/bitmap.rs] and [meta/alive.rs]; the [roaring] crate is the
      class [Roaring], [RoaringLaws] its documented set semantics, [gset Z] an
      instance.
    - [Dict] : [meta/dict.rs].  [Columns], [ColumnsSpec] : [meta/columns.rs].
    - [Float] : comparisons of [f64] and [f32] on bit patterns.
    - [Predicate], [PredicateSpec] : [meta/predicate.rs].
    - [TopK] : [scan/topk.rs] and the tie-preserving truncation of
      [scan/mod.rs], with the best of a list under a total order.
    - [Tier] : [tier/policy.rs], [tier/thresholds.rs], the statistics of
      [tier/maintain.rs] and the pass record of [graph/refine.rs].

    - [IngestPayload], [IngestCodec] : [ingest/wal_payload.rs] and the documents of
      [ingest/mod.rs].
    - [SegmentLayout], [SegmentLayoutSpec], [SegmentColumnsSpec], [SegmentRebuild] :
      [segment/layout.rs], its region codecs and the rebuilding of a column store.
    - [SegmentWriter] : [segment/writer.rs].  [SegmentReader], [SegmentRows],
      [SegmentVectors] : [segment/reader.rs], in order the directory and its
      regions, the document rows, and the vector views with the query gates.
    - [SegmentHeaderSpec] : what an accepted directory guarantees.  [SegmentImage],
      [SegmentChunks] : the image the writer lays out, and its reading.
      [SegmentDocuments] : lookups through the identity order of the rows
      (with [with_eligible] of [lifecycle/mod.rs]).  [SegmentQuery] : the gates that
      validate a region once.  [SegmentRowsSpec], [SegmentSeal], [SegmentReadBack] :
      a whole build read back, and its publication under faults.
    - [StoreErrors] : the error variants the modelled parts return.
    - [Accounted] : the capacity-checked vectors of [lifecycle/stats.rs] and the
      offset-delimited row buffers of [ingest/active.rs].
    - [ActiveSegment] : the segment of [ingest/active.rs], its reads and its
      mutations.  [ActiveSpec] says what rows a segment holds; [ActiveRoom] that the
      capacities reserved for a batch cover it; [ActiveSteps] is the abstract replay
      of mutations on rows.
    - [AtomicBatch], [AtomicBatchSpec] : [ingest/atomic_batch.rs], batches as runs of
      framed members; [CrashRecovery] : its log repair and the log part of recovery.
    - [ActiveIngest] : [Store::ingest] and [Store::delete] ([ingest/mod.rs],
      [ingest/revise.rs], the sealed lookups of [ingest/purge.rs]).
    - [ActiveRecovery], [ActiveReplaySpec] : [ActiveState::recover] and its replay.
    - [ActiveIngestSpec], [ActiveHistory], [ActiveTable] : what an accepted write
      logs, histories of writes, and their recovery and reads.
    - [Snapshot] : loading the published snapshot, [lifecycle/snapshot.rs].
      [StoreWal] : the store's log of [ingest/active.rs]: the publication guard,
      retirement, replacement and truncation.  [Seal] : [ingest/seal.rs].
      [SealSpec] follows a seal through the file system; [SealServes] reads the
      segment it wrote; [SealRecovery] reopens the store it leaves.
    - [Retention] : [ingest/retention.rs] and what a drop leaves.
    - [EpochTransition], [EpochTransitionSpec] : [epoch/transition.rs], the switch of
      the published epoch and the drop of another.
    - [Planner] : [planner/mod.rs], [planner/choose.rs], [planner/prune.rs] and the
      plan counters of [lifecycle/stats.rs].  [FilteredSearch] : the exact tier of
      [planner/exec.rs].
      [FilteredSearchSpec] : scoring, merging and what a query should return;
      [FilteredSearchExact] : that it does.
    - [WorkCheck] : the work counter and callback of [fts/control.rs], and a logic of
      runs that succeed or stop at the callback.  [Postings] : [fts/postings.rs];
      [PostingsBits] : its bit packing; [PostingsEncode] : the encoder in closed form
      and the opening of what it wrote; [PostingsRead] : decoding, row lookups and
      impact pairs.  [Phrase] : the search of [fts/phrase.rs] over the posting lists
      of [fts/index.rs].

    ** What the theorems show

    - Log: under every schedule acknowledged records survive a power cut when the
      policy asks for full syncs, and the death of the process always; the file is
      always a prefix of the log's image; batches are all or nothing; one leader at
      a time; retirement never loses a durable-only record; replay is total, sound
      on every input (where it repeats the largest sequence, against its
      documentation, is stated) and exact on every cut of a log; an idle writer's
      commit completes, while one schedule strands it.
    - Store: the manifest codec round-trips and only accepts consistent manifests;
      commit is atomic across faults and crashes, and durable under full syncs;
      sweep and cleanup delete exactly the orphans; frames are canonical; alias
      loads are never torn; schema evolution is exact; digests determine epochs.
    - Metadata and queries: rows are appended whole or not at all and read back;
      predicate evaluation equals the row-by-row semantics on live rows; the
      alive set equals its history; dictionaries round-trip; both top-k
      strategies equal the reference selection.  An exact filtered search over the
      active and the sealed segments returns the best matching rows of the store:
      pruning, the scan branches and the merge lose nothing.
    - Sealing: under full syncs, across I/O faults, cancellation and a crash at any
      point, a seal leaves the old manifest and log, or a store whose manifest names
      a segment that serves every row of the active one and whose log recovers to
      the rest. Retention loses exactly the segments inside the partition it drops,
      and a drop of an epoch exactly those of the epoch; the published epoch only
      changes to one with the same live revisions.
    - Writes: every history of accepted ingests and deletes leaves an active segment
      that answers as a table of its log; after a crash at any byte past the log's
      header, repair and recovery rebuild the segment of exactly the writes left
      whole; the room reserved for a batch is enough, so an accepted batch never
      runs out of it while it is applied or replayed; committed batches are the
      batches kept whole, prepared ones only when decided; payloads round-trip and
      only decode to well-typed mutations.
    - Segments: any build the writer encodes opens and reads back whole; its
      publication is atomic across faults and crashes; an accepted directory is safe
      to read through; document lookups by bisection and merge equal the scan; the
      query accessors that validate once agree with the verifying ones while query
      verification is enabled (it is off by default).
    - Lexical: a posting list encodes, opens and reads back whole and row by row under
      any callback that lets the work go on; the impact pairs of a block bound every
      row of it; decoding the blocks of any bytes that open yields well-formed rows
      or one of the named errors; a phrase search returns exactly the documents in
      which the phrase occurs in order within its slop (never a transposed pair,
      against a remark of its documentation).
    - Policy: merges make progress and refinements end.

    ** Bounds and fuel

    [usize] is 64 bits.  [replay_loop] has fuel the length of the input plus one:
    each round consumes at least one byte, and [replay_trusted_prefix] shows that it
    always answers.  [fill_record] has fuel twice the record's length plus one,
    since a round either writes a byte or opens an empty group; the invariant proof
    shows that it never runs out.  Memory sizes are bounded by [isize_max], as Rust
    bounds allocations.  The loops of the segment reader recurse on the list of
    regions, rows or chunks they walk and need no fuel, those of a query on its rows
    and segments.  [pack_drain] and [unpack_fill] have the number of pending bits as
    fuel and [chunked] the length of its list: each round moves at least one bit or
    one row, and the round trip shows that they are enough.  The counters of a query
    are 64-bit and its theorem asks that the rows it may score fit them.

    ** What is not modelled

    Code outside the model enters as parameters: the XXH3 hash, the [roaring]
    bitmaps, the 4-bit code of a vector ([Quantizer]), its squared norm
    ([SquaredNorm]), the capacity a hash map takes ([HashCapacity]), the reads of a
    sealed segment ([SealedSegment]), the rewrite of sealed segments and the log
    append as the write path sees them ([WriteEffects]), the decision records
    of namespace transactions ([TransactionDecisions]), the row count of a postings
    region ([postings_rows]), the encoded lexical index of a seal
    ([lexical_region]), the address a file is mapped at and the switch of
    query checksums, the score of two vectors ([SquaredL2]) and what the checks of a
    query's control see ([Control]).  What cancel tokens and looks for open snapshot
    views observe is an explicit sequence.

    Error texts and [Display]; memory accounting ([resident_bytes],
    [AccountedCounter]); mutex poisoning by panics; weak memory (the alias cell is
    sequentially consistent here); the graph section of the manifest; the lexical
    index the active segment keeps beside its rows, its purge and its byte budget;
    the decoded caches and the accounted opening of the segment reader, the
    re-indexing of a segment file; the leases and the in-memory import of a
    snapshot; the scan, quantized and graph tiers of a query, its rescoring, its
    lexical filter and its diagnostics; merging and purging; the lexical index with
    its scoring and its sealed region, prepared phrases, the heapsort and the build
    policies of [fts/control.rs]; fusion, quantization kernels and the vector graph;
    the store lifecycle that drives them; the FFI, text, benchmark and Cypher crates
    and the bindings.  Merging and purging would discharge [WriteEffects] with the
    segment writer and the manifest commit modelled here; the floating-point kernels
    and the graph search have no specification beyond the arithmetic itself. *)

From stdpp Require Export base list strings gmap numbers sorting.
From coqutil Require Import Byte Word.LittleEndianList.

Set Default Proof Using "Type".
#[global] Open Scope Z_scope.

(** ** Bytes

    A Rust [u8] is Corelib's 256-constructor [byte]; [Vec<u8>], [&[u8]] and
    [[u8; n]] are lists of it. *)

Abbreviation byte := Corelib.Init.Byte.byte.
Abbreviation bytes := (list Corelib.Init.Byte.byte).

#[export] Instance byte_eq_dec : EqDecision byte.
Proof. refine Byte.byte_eq_dec. Defined.

#[export] Instance byte_countable : Countable byte :=
  inj_countable Byte.to_N Byte.of_N Byte.of_to_N.

(** ** Machine integers

    Every Rust integer is a [Z]; the range it lives in is stated where it
    matters.  The targets of the program are 64-bit, so [usize] is 64 bits
    wide. *)

Definition u8_max : Z := 2 ^ 8 - 1.
Definition u16_max : Z := 2 ^ 16 - 1.
Definition u32_max : Z := 2 ^ 32 - 1.
Definition u64_max : Z := 2 ^ 64 - 1.
Definition usize_max : Z := u64_max.

(** The largest length a Rust slice can have ([isize::MAX] bytes). *)
Definition isize_max : Z := 2 ^ 63 - 1.

Definition is_u16 (z : Z) : Prop := 0 ≤ z ≤ u16_max.
Definition is_u32 (z : Z) : Prop := 0 ≤ z ≤ u32_max.
Definition is_u64 (z : Z) : Prop := 0 ≤ z ≤ u64_max.
Definition is_u128 (z : Z) : Prop := 0 ≤ z ≤ 2 ^ 128 - 1.
Definition is_i64 (z : Z) : Prop := - 2 ^ 63 ≤ z < 2 ^ 63.

(** [checked_add], [saturating_add], [saturating_sub] and [checked_sub] on an
    unsigned type whose largest value is [m]. *)
Definition checked_add (m a b : Z) : option Z :=
  if a + b <=? m then Some (a + b) else None.
Definition saturating_add (m a b : Z) : Z := Z.min m (a + b).
Definition saturating_sub (a b : Z) : Z := Z.max 0 (a - b).
Definition checked_sub (a b : Z) : option Z :=
  if b <=? a then Some (a - b) else None.
Definition checked_mul (m a b : Z) : option Z :=
  if a * b <=? m then Some (a * b) else None.
Definition saturating_mul (m a b : Z) : Z := Z.min m (a * b).

(** [uN::try_from]. *)
Definition try_from (m a : Z) : option Z :=
  if (0 <=? a) && (a <=? m) then Some a else None.

(** ** Results

    [Result<A, E>]; the [?] operator is monadic bind. *)

Inductive result (E A : Type) : Type :=
| Ok (a : A)
| Err (e : E).
Arguments Ok {E A} a.
Arguments Err {E A} e.

#[export] Instance result_ret {E} : MRet (result E) := λ A a, Ok a.
#[export] Instance result_bind {E} : MBind (result E) := λ A B f r,
  match r with Ok a => f a | Err e => Err e end.
#[export] Instance result_fmap {E} : FMap (result E) := λ A B f r,
  match r with Ok a => Ok (f a) | Err e => Err e end.

Definition ok_or {E A} (o : option A) (e : E) : result E A :=
  match o with Some a => Ok a | None => Err e end.
Definition map_err {E F A} (f : E → F) (r : result E A) : result F A :=
  match r with Ok a => Ok a | Err e => Err (f e) end.
Definition ok {E A} (r : result E A) : option A :=
  match r with Ok a => Some a | Err _ => None end.
Definition is_ok {E A} (r : result E A) : bool :=
  match r with Ok _ => true | Err _ => false end.

Lemma bind_Ok {E A B} (f : A → result E B) (a : A) : (Ok a ≫= f) = f a.
Proof. done. Qed.

Lemma bind_Err {E A B} (f : A → result E B) (e : E) : (Err e ≫= f) = Err e.
Proof. done. Qed.

Lemma bind_Ok_inv {E A B} (f : A → result E B) (r : result E A) (b : B) :
  (r ≫= f) = Ok b → ∃ a, r = Ok a ∧ f a = Ok b.
Proof. destruct r as [a|e]; [by exists a | discriminate]. Qed.

Lemma ok_or_Ok {E A} (o : option A) (e : E) a : ok_or o e = Ok a → o = Some a.
Proof. destruct o; [by intros [= <-]|done]. Qed.

(** What a checked operation that succeeded computed. *)
Lemma try_from_Some m a z : try_from m a = Some z → z = a ∧ 0 ≤ a ≤ m.
Proof.
  unfold try_from. destruct (Z.leb_spec 0 a), (Z.leb_spec a m); [|done..].
  intros [= <-]. lia.
Qed.

Lemma checked_add_Some m x y z : checked_add m x y = Some z → z = x + y ∧ z ≤ m.
Proof. unfold checked_add. destruct (Z.leb_spec (x + y) m); [|done]. by intros [= <-]. Qed.

Lemma checked_sub_Some x y z : checked_sub x y = Some z → z = x - y ∧ y ≤ x.
Proof. unfold checked_sub. destruct (Z.leb_spec y x); [|done]. by intros [= <-]. Qed.

Lemma checked_mul_Some m x y z : checked_mul m x y = Some z → z = x * y ∧ z ≤ m.
Proof. unfold checked_mul. destruct (Z.leb_spec (x * y) m); [|done]. by intros [= <-]. Qed.

Lemma try_from_total max x : 0 ≤ x ≤ max → try_from max x = Some x.
Proof. intros [H1 H2]. unfold try_from. by rewrite (proj2 (Z.leb_le _ _) H1), (proj2 (Z.leb_le _ _) H2). Qed.

Lemma checked_add_total max x y : x + y ≤ max → checked_add max x y = Some (x + y).
Proof. intros H. unfold checked_add. by rewrite (proj2 (Z.leb_le _ _) H). Qed.

Lemma checked_mul_total max x y : x * y ≤ max → checked_mul max x y = Some (x * y).
Proof. intros H. unfold checked_mul. by rewrite (proj2 (Z.leb_le _ _) H). Qed.

(** [std::io::ErrorKind], as far as the program distinguishes kinds. *)
Inductive ErrorKind : Type := NotFound | OtherKind.

#[export] Instance ErrorKind_eq_dec : EqDecision ErrorKind.
Proof. solve_decision. Defined.

(** ** Slices

    [len] is [slice.len()].  [slice_to], [slice_from] and [slice_range] are
    [get(..n)], [get(n..)] and [get(a..b)], which answer [None] out of
    bounds. *)

Definition len {A} (l : list A) : Z := Z.of_nat (length l).

Definition slice_to {A} (l : list A) (n : Z) : option (list A) :=
  if (0 <=? n) && (n <=? len l) then Some (take (Z.to_nat n) l) else None.
Definition slice_from {A} (l : list A) (n : Z) : option (list A) :=
  if (0 <=? n) && (n <=? len l) then Some (drop (Z.to_nat n) l) else None.
Definition slice_range {A} (l : list A) (a b : Z) : option (list A) :=
  if (0 <=? a) && (a <=? b) && (b <=? len l)
  then Some (take (Z.to_nat (b - a)) (drop (Z.to_nat a) l)) else None.

Lemma len_nil {A} : len (@nil A) = 0.
Proof. done. Qed.

(** Elements of a list with distinct keys are determined by their key. *)
Lemma NoDup_fmap_elem {A K} (f : A → K) (l : list A) x y :
  NoDup (map f l) → x ∈ l → y ∈ l → f x = f y → x = y.
Proof.
  intros Hn [i Hi]%list_elem_of_lookup_1 [j Hj]%list_elem_of_lookup_1 E.
  assert (i = j) as ->; [|congruence].
  eapply (NoDup_lookup _ i j (f x) Hn); rewrite list_lookup_fmap; [by rewrite Hi|by rewrite Hj, E].
Qed.

Lemma len_cons {A} (x : A) l : len (x :: l) = 1 + len l.
Proof. unfold len. cbn [length]. lia. Qed.

Lemma len_app {A} (l k : list A) : len (l ++ k) = len l + len k.
Proof. unfold len. rewrite length_app. lia. Qed.

Lemma len_nonneg {A} (l : list A) : 0 ≤ len l.
Proof. unfold len. lia. Qed.

Lemma len_map {A B} (f : A → B) l : len (map f l) = len l.
Proof. unfold len. by rewrite List.length_map. Qed.

Lemma len_fmap {A B} (f : A → B) (l : list A) : len (f <$> l) = len l.
Proof. unfold len. by rewrite length_fmap. Qed.

Lemma len_concat_uniform {A B} (f : A → list B) n l :
  Forall (λ a, len (f a) = n) l → len (concat (map f l)) = len l * n.
Proof.
  induction 1 as [|a l Ha _ IH]; [done|]. cbn [map concat]. rewrite len_app, len_cons, IH, Ha. lia.
Qed.

Lemma filter_perm {A} (f : A → bool) (l k : list A) : l ≡ₚ k → List.filter f l ≡ₚ List.filter f k.
Proof.
  induction 1 as [|x l k _ IH|x y l|l k m _ IH1 _ IH2]; cbn; [done| | |by etransitivity].
  - destruct (f x); [by constructor|done].
  - destruct (f x), (f y); try done. constructor.
Qed.

Lemma len_zero_nil {A} (l : list A) : len l = 0 → l = [].
Proof. destruct l; [done|]. rewrite len_cons. pose proof (len_nonneg l). lia. Qed.

Lemma to_nat_len {A} (l : list A) : Z.to_nat (len l) = length l.
Proof. unfold len. lia. Qed.

Lemma slice_to_app {A} (l k : list A) n :
  n = len l → slice_to (l ++ k) n = Some l.
Proof.
  intros ->. unfold slice_to. rewrite len_app.
  pose proof (len_nonneg l); pose proof (len_nonneg k).
  rewrite (proj2 (Z.leb_le 0 (len l))), (proj2 (Z.leb_le (len l) _)) by lia.
  simpl. by rewrite to_nat_len, take_app_length.
Qed.

Lemma slice_from_app {A} (l k : list A) n :
  n = len l → slice_from (l ++ k) n = Some k.
Proof.
  intros ->. unfold slice_from. rewrite len_app.
  pose proof (len_nonneg l); pose proof (len_nonneg k).
  rewrite (proj2 (Z.leb_le 0 (len l))), (proj2 (Z.leb_le (len l) _)) by lia.
  simpl. by rewrite to_nat_len, drop_app_length.
Qed.

Lemma slice_range_app {A} (l m k : list A) a b :
  a = len l → b = len l + len m → slice_range (l ++ m ++ k) a b = Some m.
Proof.
  intros -> ->. unfold slice_range. rewrite !len_app.
  pose proof (len_nonneg l); pose proof (len_nonneg m); pose proof (len_nonneg k).
  rewrite (proj2 (Z.leb_le 0 _)), (proj2 (Z.leb_le (len l) _)),
    (proj2 (Z.leb_le (len l + len m) _)) by lia.
  simpl. replace (len l + len m - len l) with (len m) by lia.
  by rewrite !to_nat_len, drop_app_length, take_app_length.
Qed.

Lemma slice_range_whole {A} (l : list A) : slice_range l 0 (len l) = Some l.
Proof.
  rewrite <- (app_nil_r l) at 1. by apply (slice_range_app []).
Qed.

Lemma slice_from_beyond {A} (l : list A) n : len l < n → slice_from l n = None.
Proof.
  intros Hn. unfold slice_from.
  rewrite (proj2 (Z.leb_gt n (len l))) by lia. by rewrite andb_false_r.
Qed.

Lemma slice_range_beyond {A} (l : list A) a b : len l < b → slice_range l a b = None.
Proof.
  intros Hn. unfold slice_range.
  rewrite (proj2 (Z.leb_gt b (len l))) by lia. by rewrite andb_false_r.
Qed.

Lemma slice_to_Some {A} (l k : list A) n :
  slice_to l n = Some k → 0 ≤ n ≤ len l ∧ k = take (Z.to_nat n) l ∧ len k = n.
Proof.
  unfold slice_to. destruct (Z.leb_spec 0 n), (Z.leb_spec n (len l)); [|done..].
  intros [= <-]. split_and!; [lia|lia|done|]. unfold len in *. rewrite length_take. lia.
Qed.

Lemma slice_from_Some {A} (l k : list A) n :
  slice_from l n = Some k → 0 ≤ n ≤ len l ∧ k = drop (Z.to_nat n) l.
Proof.
  unfold slice_from. destruct (Z.leb_spec 0 n), (Z.leb_spec n (len l)); [|done..].
  by intros [= <-].
Qed.

Lemma slice_range_Some {A} (l k : list A) a b :
  slice_range l a b = Some k →
  0 ≤ a ≤ b ∧ b ≤ len l ∧
  k = take (Z.to_nat (b - a)) (drop (Z.to_nat a) l) ∧ len k = b - a.
Proof.
  unfold slice_range.
  destruct (Z.leb_spec 0 a), (Z.leb_spec a b), (Z.leb_spec b (len l)); [|done..].
  intros [= <-]. split_and!; [lia|lia|lia|done|]. unfold len in *.
  rewrite length_take, length_drop. lia.
Qed.

(** Two adjacent windows of a list are one window. *)
Lemma window_join {A} (l : list A) (a n m : nat) :
  take n (drop a l) ++ take m (drop (a + n) l) = take (n + m) (drop a l).
Proof. rewrite <- drop_drop. apply take_take_drop. Qed.

(** ** Bisection *)

(** [slice::partition_point] between [lo] and [hi]. *)
Fixpoint bisect {A} (fuel : nat) (pred : A → bool) (l : list A) (lo hi : nat) : nat :=
  match fuel with
  | O => lo
  | S fuel =>
      if (lo <? hi)%nat then
        let mid := (lo + (hi - lo) / 2)%nat in
        match l !! mid with
        | Some x => if pred x then bisect fuel pred l (S mid) hi else bisect fuel pred l lo mid
        | None => lo
        end
      else lo
  end.

Definition partition_point {A} (pred : A → bool) (l : list A) : nat :=
  bisect (length l) pred l 0 (length l).

Lemma bisect_spec {A} (pred : A → bool) (l1 l2 : list A) : ∀ fuel lo hi,
  Forall (λ x, pred x = true) l1 → Forall (λ x, pred x = false) l2 →
  (lo ≤ length l1 ≤ hi)%nat → (hi ≤ length (l1 ++ l2))%nat → (hi - lo ≤ fuel)%nat →
  bisect fuel pred (l1 ++ l2) lo hi = length l1.
Proof.
  intros fuel lo hi H1 H2. revert lo hi. induction fuel as [|fuel IH]; intros lo hi Hb Hhi Hf; cbn [bisect]; [lia|].
  destruct (Nat.ltb_spec lo hi) as [Hlt|Hge]; [|lia]. cbv zeta. set (mid := (lo + (hi - lo) / 2)%nat).
  assert (lo ≤ mid < hi)%nat as Hmid.
  { unfold mid. pose proof (Nat.div_lt (hi - lo) 2). lia. }
  destruct (lookup_lt_is_Some_2 (l1 ++ l2) mid ltac:(lia)) as [x Hx]. rewrite Hx.
  destruct (Nat.lt_ge_cases mid (length l1)) as [Hl|Hr].
  - rewrite lookup_app_l in Hx by done. rewrite Forall_lookup in H1. rewrite (H1 _ _ Hx). apply IH; lia.
  - rewrite lookup_app_r in Hx by done. rewrite Forall_lookup in H2. rewrite (H2 _ _ Hx). apply IH; lia.
Qed.

Lemma partition_point_spec {A} (pred : A → bool) (l1 l2 : list A) :
  Forall (λ x, pred x = true) l1 → Forall (λ x, pred x = false) l2 →
  partition_point pred (l1 ++ l2) = length l1.
Proof. intros H1 H2. unfold partition_point. apply bisect_spec; rewrite ?length_app; (done || lia). Qed.

(** A sorted list splits at a downward closed predicate. *)
Lemma prefix_split {A} (R : relation A) (pred : A → bool) l :
  StronglySorted R l → (∀ x y, R x y → pred y = true → pred x = true) →
  l = List.filter pred l ++ List.filter (λ x, negb (pred x)) l.
Proof.
  intros Hs Hp. induction Hs as [|x l Hs IH Hx]; [done|]. cbn [List.filter].
  destruct (pred x) eqn:E; cbn [negb]; [cbn; by rewrite <- IH|].
  assert (∀ y, In y l → pred y = false) as Hl.
  { intros y Hy. rewrite List.Forall_forall in Hx. destruct (pred y) eqn:F; [|done].
    specialize (Hp x y (Hx y Hy) F). congruence. }
  rewrite (forallb_filter_id (λ x, negb (pred x))) by (apply forallb_forall; intros y Hy; by rewrite (Hl y Hy)).
  assert (List.filter pred l = []) as ->; [|done]. destruct (List.filter pred l) as [|y k] eqn:F; [done|].
  assert (In y (List.filter pred l)) as [Hy Hpy]%filter_In by (rewrite F; by left). by rewrite (Hl y Hy) in Hpy.
Qed.

(** Bisecting a sorted list counts the elements of the predicate. *)
Lemma partition_point_sorted {A} (R : relation A) (pred : A → bool) l :
  StronglySorted R l → (∀ x y, R x y → pred y = true → pred x = true) →
  partition_point pred l = length (List.filter pred l).
Proof.
  intros Hs Hp. rewrite (prefix_split R pred l Hs Hp) at 1. apply partition_point_spec; apply List.Forall_forall;
    intros x [_ Hx]%filter_In; [done|]. by apply negb_true_iff in Hx.
Qed.

Lemma partition_point_lookup {A} (R : relation A) (pred : A → bool) l :
  StronglySorted R l → (∀ x y, R x y → pred y = true → pred x = true) →
  drop (partition_point pred l) l = List.filter (λ x, negb (pred x)) l.
Proof.
  intros Hs Hp. rewrite (partition_point_sorted R pred l Hs Hp).
  rewrite (prefix_split R pred l Hs Hp) at 2. apply drop_app_length.
Qed.

(** ** Little-endian encodings: [uN::to_le_bytes] and [uN::from_le_bytes]. *)

Definition u16_le (z : Z) : bytes := le_split 2 z.
Definition u32_le (z : Z) : bytes := le_split 4 z.
Definition u64_le (z : Z) : bytes := le_split 8 z.
Definition u128_le (z : Z) : bytes := le_split 16 z.
Definition u8_byte (z : Z) : byte := byte.of_Z z.
Definition from_le (b : bytes) : Z := le_combine b.

(** [i64::to_le_bytes] is the two's complement pattern. *)
Definition i64_le (z : Z) : bytes := le_split 8 z.
Definition i64_of_u64 (z : Z) : Z := if z <? 2 ^ 63 then z else z - 2 ^ 64.

Lemma len_le_split n z : len (le_split n z) = Z.of_nat n.
Proof. unfold len. by rewrite length_le_split. Qed.

Lemma len_u16_le z : len (u16_le z) = 2.
Proof. apply len_le_split. Qed.
Lemma len_u32_le z : len (u32_le z) = 4.
Proof. apply len_le_split. Qed.
Lemma len_u64_le z : len (u64_le z) = 8.
Proof. apply len_le_split. Qed.
Lemma len_u128_le z : len (u128_le z) = 16.
Proof. apply len_le_split. Qed.
Lemma len_i64_le z : len (i64_le z) = 8.
Proof. apply len_le_split. Qed.

Lemma from_u16_le z : is_u16 z → from_le (u16_le z) = z.
Proof.
  intros H. unfold from_le, u16_le, is_u16, u16_max in *.
  rewrite le_combine_split. apply Z.mod_small. lia.
Qed.

Lemma from_u32_le z : is_u32 z → from_le (u32_le z) = z.
Proof.
  intros H. unfold from_le, u32_le, is_u32, u32_max in *.
  rewrite le_combine_split. apply Z.mod_small. lia.
Qed.

Lemma from_u64_le z : is_u64 z → from_le (u64_le z) = z.
Proof.
  intros H. unfold from_le, u64_le, is_u64, u64_max in *.
  rewrite le_combine_split. apply Z.mod_small. lia.
Qed.

Lemma from_u128_le z : is_u128 z → from_le (u128_le z) = z.
Proof.
  intros H. unfold from_le, u128_le, is_u128 in *.
  rewrite le_combine_split. apply Z.mod_small. lia.
Qed.

Lemma from_i64_le z : is_i64 z → i64_of_u64 (from_le (i64_le z)) = z.
Proof.
  intros H. unfold from_le, i64_le, i64_of_u64, is_i64 in *.
  rewrite le_combine_split.
  change (Z.of_nat 8 * 8) with 64.
  destruct (decide (0 ≤ z)) as [Hz|Hz].
  - rewrite Z.mod_small by lia. destruct (Z.ltb_spec z (2 ^ 63)); lia.
  - rewrite <- (Z.mod_add z 1 (2 ^ 64)), Z.mod_small by lia.
    destruct (Z.ltb_spec (z + 1 * 2 ^ 64) (2 ^ 63)); lia.
Qed.

Lemma from_le_bound b n : len b = n → 0 ≤ from_le b < 2 ^ (8 * n).
Proof. intros <-. apply le_combine_bound. Qed.

Lemma u16_le_from b : len b = 2 → u16_le (from_le b) = b.
Proof. intros H. apply split_le_combine'. unfold len in H. lia. Qed.
Lemma u32_le_from b : len b = 4 → u32_le (from_le b) = b.
Proof. intros H. apply split_le_combine'. unfold len in H. lia. Qed.
Lemma u64_le_from b : len b = 8 → u64_le (from_le b) = b.
Proof. intros H. apply split_le_combine'. unfold len in H. lia. Qed.
Lemma u128_le_from b : len b = 16 → u128_le (from_le b) = b.
Proof. intros H. apply split_le_combine'. unfold len in H. lia. Qed.

#[global] Arguments len : simpl never.
#[global] Arguments slice_to : simpl never.
#[global] Arguments slice_from : simpl never.
#[global] Arguments slice_range : simpl never.
#[global] Arguments Z.add : simpl never.
#[global] Arguments Z.sub : simpl never.
#[global] Arguments Z.mul : simpl never.
#[global] Arguments Z.pow : simpl never.

#[global] Opaque u16_le u32_le u64_le u128_le i64_le from_le.

(** ** Operations on a state that may fail

    A step reads and changes a state [S] and ends with a value or an error [E],
    keeping what it did to the state either way: the shape of a Rust method on
    [&mut self] that returns [Result].  The store's operations run in it over the
    files and the writer, the bounded loops of the lexical code over their work
    check. *)

Definition RunE (S E A : Type) : Type := S → S * result E A.

Declare Scope run_scope.
Delimit Scope run_scope with run.
Bind Scope run_scope with RunE.

Definition run_ret {S E A} (a : A) : RunE S E A := λ s, (s, Ok a).
Definition run_err {S E A} (e : E) : RunE S E A := λ s, (s, Err e).
Definition run_bind {S E A B} (m : RunE S E A) (k : A → RunE S E B) : RunE S E B := λ s,
  match m s with
  | (s, Ok a) => k a s
  | (s, Err e) => (s, Err e)
  end.
(** A pure step, a read of the state, and a change of it. *)
Definition run_lift {S E A} (r : result E A) : RunE S E A := λ s, (s, r).
Definition run_read {S E A} (f : S → result E A) : RunE S E A := λ s, (s, f s).
Definition run_get {S E A} (f : S → A) : RunE S E A := λ s, (s, Ok (f s)).
Definition run_put {S E} (f : S → S) : RunE S E unit := λ s, (f s, Ok tt).
(** The error of a step as another error. *)
Definition run_map_err {S E E' A} (f : E → E') (m : RunE S E A) : RunE S E' A := λ s,
  let '(s, r) := m s in (s, map_err f r).
(** A cleanup that runs when the step fails, and keeps its error. *)
Definition run_on_error {S E A} (m : RunE S E A) (f : S → S) : RunE S E A := λ s,
  match m s with
  | (s, Ok a) => (s, Ok a)
  | (s, Err e) => (f s, Err e)
  end.

Notation "'let!' x ':=' m 'in' k" := (run_bind m%run (λ x, k%run))
  (at level 10, x pattern, m at level 100, k at level 200) : run_scope.

(** ** Automation shared by the components *)

Create HintDb zep discriminated.
Create Rewrite HintDb zep_len.
#[export] Hint Rewrite @len_nil @len_cons @len_app @len_map @len_fmap : zep_len.
#[export] Hint Rewrite len_le_split len_u16_le len_u32_le len_u64_le len_u128_le
  len_i64_le : zep_len.

(** Lengths of concatenations, then linear arithmetic. *)
Ltac len_lia :=
  autorewrite with zep_len in *; try lia;
  repeat match goal with
  | |- context [len ?l] =>
      lazymatch goal with
      | _ : 0 ≤ len l |- _ => fail
      | _ => pose proof (len_nonneg l)
      end
  end; lia.

(** Case analysis on a [Z] comparison that the code branches on. *)
Ltac case_Z :=
  match goal with
  | |- context [Z.ltb ?a ?b] => destruct (Z.ltb_spec a b)
  | |- context [Z.leb ?a ?b] => destruct (Z.leb_spec a b)
  | |- context [Z.eqb ?a ?b] => destruct (Z.eqb_spec a b)
  | H : context [Z.ltb ?a ?b] |- _ => destruct (Z.ltb_spec a b)
  | H : context [Z.leb ?a ?b] |- _ => destruct (Z.leb_spec a b)
  | H : context [Z.eqb ?a ?b] |- _ => destruct (Z.eqb_spec a b)
  end.

(** Decide a comparison whose truth the context knows. *)
Ltac decide_Z :=
  repeat match goal with
  | |- context [Z.ltb ?a ?b] =>
      first [rewrite (proj2 (Z.ltb_lt a b)) by lia
            |rewrite (proj2 (Z.ltb_ge a b)) by lia]
  | |- context [Z.leb ?a ?b] =>
      first [rewrite (proj2 (Z.leb_le a b)) by lia
            |rewrite (proj2 (Z.leb_gt a b)) by lia]
  | |- context [Z.eqb ?a ?b] =>
      first [rewrite (proj2 (Z.eqb_eq a b)) by lia
            |rewrite (proj2 (Z.eqb_neq a b)) by lia]
  end.

(** Split every [Result] bind of a hypothesis that ends in [Ok]. *)
Ltac inv_bind :=
  repeat match goal with
  | H : (_ ≫= _) = Ok _ |- _ =>
      apply bind_Ok_inv in H as (? & ? & H)
  end.

(** Split the first bind of a hypothesis, naming what it bound. *)
Tactic Notation "bind_inv" hyp(H) ident(x) ident(Hx) := apply bind_Ok_inv in H as (x & Hx & H).
Tactic Notation "ok_inv" hyp(H) ident(x) ident(Hx) := bind_inv H x Hx; apply ok_or_Ok in Hx.

(** Step through [Result] and [Option] binds whose scrutinee is known. *)
Ltac rsimpl :=
  cbn [mbind mret fmap option_bind option_fmap result_bind result_ret
       result_fmap ok_or map_err negb andb orb].
Tactic Notation "rsimpl" "in" hyp(H) :=
  cbn [mbind mret fmap option_bind option_fmap result_bind result_ret
       result_fmap ok_or map_err negb andb orb] in H.

(** Closed decidable facts, by evaluation. *)
Ltac by_compute :=
  lazymatch goal with
  | |- _ = _ => vm_compute; reflexivity
  | |- _ ≤ _ => vm_compute; let H := fresh in intro H; discriminate H
  | |- _ < _ => vm_compute; reflexivity
  | |- _ ≠ _ => vm_compute; let H := fresh in intro H; discriminate H
  | |- (_ ≤ _)%nat => apply Nat.leb_le; vm_compute; reflexivity
  | |- Forall _ _ => first [apply List.Forall_nil | apply List.Forall_cons]; by_compute
  | |- True => exact I
  | |- _ => split; by_compute
  end.
