(* ===== verification/Format.v ===== *)
(** * Persisted-format registry and single-block framing

    Models [crates/zeppelin-embed/src/format/mod.rs] (the append-only registry
    of artifact families, their accepted version ranges and the quantization
    scheme identifiers) and [format/frame.rs] (the 32-byte shared header and
    the length-prefixed, doubly checksummed single-block artifact).

    The checksum is the third-party [xxhash-rust] crate: the class [Xxh3] holds
    its one-shot and streaming entry points and [Xxh3Laws] what the program
    relies on (a 64-bit digest, and streaming agreeing with one-shot).
    Human-readable error details are not modelled; every typed field of an
    error is. *)

From S2P Require Import Prelude.

(** ** The xxh3-64 checksum *)

Class Xxh3 : Type := {
  Xxh3State : Type;
  xxh3_64 : bytes → Z;
  xxh3_new : Xxh3State;
  xxh3_update : Xxh3State → bytes → Xxh3State;
  xxh3_digest : Xxh3State → Z;
}.

Class Xxh3Laws (X : Xxh3) : Prop := {
  xxh3_64_u64 : ∀ b, is_u64 (xxh3_64 b);
  xxh3_stream : ∀ chunks,
    xxh3_digest (foldl xxh3_update xxh3_new chunks) = xxh3_64 (concat chunks);
}.

(** A concrete checksum, for evaluating the model: a polynomial hash. *)
Module ToyXxh3.
Definition step (h : Z) (b : byte) : Z :=
  (h * 31 + Z.of_N (Byte.to_N b) + 7) `mod` 2 ^ 64.
Definition hash (b : bytes) : Z := foldl step 0 b.

#[export] Instance toy : Xxh3 := {|
  Xxh3State := Z;
  xxh3_64 := hash;
  xxh3_new := 0;
  xxh3_update := foldl step;
  xxh3_digest := id;
|}.

Lemma hash_u64 (b : bytes) : ∀ h, is_u64 h → is_u64 (foldl step h b).
Proof.
  induction b as [|x b IH]; intros h Hh; [done|]. simpl. apply IH.
  unfold is_u64, u64_max, step.
  pose proof (Z.mod_pos_bound (h * 31 + Z.of_N (Byte.to_N x) + 7) (2 ^ 64)). lia.
Qed.

Lemma hash_stream (chunks : list bytes) : ∀ h,
  foldl (foldl step) h chunks = foldl step h (concat chunks).
Proof.
  induction chunks as [|c chunks IH]; intros h; [done|].
  simpl. by rewrite foldl_app, IH.
Qed.

#[export] Instance toy_laws : Xxh3Laws toy.
Proof.
  split.
  - intros b. by apply hash_u64.
  - intros chunks. apply hash_stream.
Qed.
End ToyXxh3.

(** ** Families *)

Inductive FormatFamily : Type :=
| Frame | Segment | VectorCodes | VectorFactors | VectorRescore | Columns
| Alive | Postings | ChecksumTable | ManifestFamily | Wal | GraphNodeBlocks
| DocumentVersions | StoredMetadata | PurgeIntent | StoredText
| NativeGraphObject | NativeGraphRoot | NativeGraphWal.

#[export] Instance FormatFamily_eq_dec : EqDecision FormatFamily.
Proof. solve_decision. Defined.

Definition family_id (f : FormatFamily) : Z :=
  match f with
  | Frame => 1 | Segment => 2 | VectorCodes => 3 | VectorFactors => 4
  | VectorRescore => 5 | Columns => 6 | Alive => 7 | Postings => 8
  | ChecksumTable => 9 | ManifestFamily => 10 | Wal => 11
  | GraphNodeBlocks => 12 | DocumentVersions => 13 | StoredMetadata => 14
  | PurgeIntent => 15 | StoredText => 16 | NativeGraphObject => 17
  | NativeGraphRoot => 18 | NativeGraphWal => 19
  end.

Definition current_version (f : FormatFamily) : Z :=
  match f with
  | ManifestFamily => 2
  | Frame | Segment | VectorCodes | VectorFactors | VectorRescore | Columns
  | Alive | Postings | ChecksumTable | Wal | GraphNodeBlocks
  | DocumentVersions | StoredMetadata | PurgeIntent | StoredText
  | NativeGraphObject | NativeGraphRoot | NativeGraphWal => 1
  end.

Record FamilySpec : Type := {
  fs_family : FormatFamily;
  fs_current_version : Z;
  fs_minimum_accepted_version : Z;
  fs_maximum_accepted_version : Z;
}.

Inductive RegistryError : Type :=
| UnknownFamily (family : Z)
| UnsupportedVersion (family version minimum maximum : Z)
| RetiredScheme (scheme : Z)
| UnknownScheme (scheme : Z).

Definition FAMILIES : list FamilySpec := [
  {| fs_family := Frame; fs_current_version := 1;
     fs_minimum_accepted_version := 1; fs_maximum_accepted_version := 1 |};
  {| fs_family := Segment; fs_current_version := 1;
     fs_minimum_accepted_version := 1; fs_maximum_accepted_version := 1 |};
  {| fs_family := VectorCodes; fs_current_version := 1;
     fs_minimum_accepted_version := 1; fs_maximum_accepted_version := 1 |};
  {| fs_family := VectorFactors; fs_current_version := 1;
     fs_minimum_accepted_version := 1; fs_maximum_accepted_version := 1 |};
  {| fs_family := VectorRescore; fs_current_version := 1;
     fs_minimum_accepted_version := 1; fs_maximum_accepted_version := 1 |};
  {| fs_family := Columns; fs_current_version := 1;
     fs_minimum_accepted_version := 1; fs_maximum_accepted_version := 1 |};
  {| fs_family := Alive; fs_current_version := 1;
     fs_minimum_accepted_version := 1; fs_maximum_accepted_version := 1 |};
  {| fs_family := Postings; fs_current_version := 1;
     fs_minimum_accepted_version := 1; fs_maximum_accepted_version := 1 |};
  {| fs_family := ChecksumTable; fs_current_version := 1;
     fs_minimum_accepted_version := 1; fs_maximum_accepted_version := 1 |};
  {| fs_family := ManifestFamily; fs_current_version := 2;
     fs_minimum_accepted_version := 2; fs_maximum_accepted_version := 3 |};
  {| fs_family := Wal; fs_current_version := 1;
     fs_minimum_accepted_version := 1; fs_maximum_accepted_version := 1 |};
  {| fs_family := GraphNodeBlocks; fs_current_version := 1;
     fs_minimum_accepted_version := 1; fs_maximum_accepted_version := 1 |};
  {| fs_family := DocumentVersions; fs_current_version := 1;
     fs_minimum_accepted_version := 1; fs_maximum_accepted_version := 1 |};
  {| fs_family := StoredMetadata; fs_current_version := 1;
     fs_minimum_accepted_version := 1; fs_maximum_accepted_version := 1 |};
  {| fs_family := PurgeIntent; fs_current_version := 1;
     fs_minimum_accepted_version := 1; fs_maximum_accepted_version := 1 |};
  {| fs_family := StoredText; fs_current_version := 1;
     fs_minimum_accepted_version := 1; fs_maximum_accepted_version := 1 |};
  {| fs_family := NativeGraphObject; fs_current_version := 1;
     fs_minimum_accepted_version := 1; fs_maximum_accepted_version := 1 |};
  {| fs_family := NativeGraphRoot; fs_current_version := 1;
     fs_minimum_accepted_version := 1; fs_maximum_accepted_version := 1 |};
  {| fs_family := NativeGraphWal; fs_current_version := 1;
     fs_minimum_accepted_version := 1; fs_maximum_accepted_version := 1 |}].

(** [FormatRegistry::families]. *)
Definition families : list FamilySpec := FAMILIES.

(** [FormatRegistry::require]. *)
Definition require (family version : Z) : result RegistryError FamilySpec :=
  spec ← ok_or (List.find (λ c, family_id (fs_family c) =? family) FAMILIES)
           (UnknownFamily family);
  if (version <? fs_minimum_accepted_version spec)
     || (fs_maximum_accepted_version spec <? version)
  then Err (UnsupportedVersion family version
              (fs_minimum_accepted_version spec)
              (fs_maximum_accepted_version spec))
  else Ok spec.

(** [FormatRegistry::require_scheme]. *)
Definition require_scheme (scheme : Z) : result RegistryError unit :=
  match scheme with
  | 0 | 1 | 2 | 4 => Ok tt
  | 3 | 5 => Err (RetiredScheme scheme)
  | _ => Err (UnknownScheme scheme)
  end.

(** ** The shared header *)

Definition FILE_HEADER_LEN : Z := 32.
Definition FILE_TRAILER_LEN : Z := 8.
(** [*b"ZEPEMBED"]. *)
Definition FILE_MAGIC : bytes :=
  [Byte.x5a; Byte.x45; Byte.x50; Byte.x45; Byte.x4d; Byte.x42; Byte.x45; Byte.x44].

Record FileHeader : Type := {
  fh_magic : bytes;
  fh_family : Z;
  fh_version : Z;
  fh_flags : Z;
  fh_header_length : Z;
  fh_file_length : Z;
}.

Inductive FormatCheck : Type :=
| CheckLength | CheckMagic | CheckFamily | CheckVersion | CheckHeaderLength
| CheckFileLength | CheckBlockLength | CheckBlockChecksum | CheckFileChecksum
| CheckObjectIdentity.

Inductive FormatValues : Type :=
| ValuesNone
| ValuesFamily (expected actual : Z)
| ValuesChecksum (expected actual : Z).

Record FormatError : Type := {
  fe_artifact : string;
  fe_check : FormatCheck;
  fe_values : FormatValues;
  fe_version_range : option (Z * Z * Z);
}.

(** [FormatError::new], [wrong_family] and [checksum_mismatch]. *)
Definition format_error (artifact : string) (check : FormatCheck) : FormatError :=
  {| fe_artifact := artifact; fe_check := check;
     fe_values := ValuesNone; fe_version_range := None |}.
Definition wrong_family (artifact : string) (expected actual : Z) : FormatError :=
  {| fe_artifact := artifact; fe_check := CheckFamily;
     fe_values := ValuesFamily expected actual; fe_version_range := None |}.
Definition checksum_mismatch (artifact : string) (check : FormatCheck)
    (expected actual : Z) : FormatError :=
  {| fe_artifact := artifact; fe_check := check;
     fe_values := ValuesChecksum expected actual; fe_version_range := None |}.

Definition registry_error (artifact : string) (error : RegistryError) : FormatError :=
  {| fe_artifact := artifact; fe_check := CheckVersion; fe_values := ValuesNone;
     fe_version_range :=
       match error with
       | UnsupportedVersion _ version minimum maximum =>
           Some (version, minimum, maximum)
       | _ => None
       end |}.

Record DecodedArtifact : Type := {
  da_header : FileHeader;
  da_payload : bytes;
}.

(** [slice::first_chunk::<n>]. *)
Definition first_chunk (n : Z) (b : bytes) : option bytes := slice_to b n.

Definition read_u16 (artifact : string) (b : bytes) (offset : Z)
    : result FormatError Z :=
  raw ← ok_or (tail ← slice_from b offset; first_chunk 2 tail)
          (format_error artifact CheckLength);
  Ok (from_le raw).

Definition read_u32 (artifact : string) (b : bytes) (offset : Z)
    : result FormatError Z :=
  raw ← ok_or (tail ← slice_from b offset; first_chunk 4 tail)
          (format_error artifact CheckLength);
  Ok (from_le raw).

Definition read_u64 (artifact : string) (b : bytes) (offset : Z)
    : result FormatError Z :=
  raw ← ok_or (tail ← slice_from b offset; first_chunk 8 tail)
          (format_error artifact CheckLength);
  Ok (from_le raw).

Definition encode_header (header : FileHeader) : bytes :=
  fh_magic header ++ u16_le (fh_family header) ++ u16_le (fh_version header)
  ++ u32_le (fh_flags header) ++ u64_le (fh_header_length header)
  ++ u64_le (fh_file_length header).

Definition decode_header (artifact : string) (expected_family : FormatFamily)
    (b : bytes) : result FormatError FileHeader :=
  fixed ← ok_or (slice_to b FILE_HEADER_LEN) (format_error artifact CheckLength);
  magic ← ok_or (slice_to fixed 8) (format_error artifact CheckLength);
  if negb (bool_decide (magic = FILE_MAGIC))
  then Err (format_error artifact CheckMagic)
  else
  family ← read_u16 artifact fixed 8;
  if negb (family =? family_id expected_family)
  then Err (wrong_family artifact (family_id expected_family) family)
  else
  version ← read_u16 artifact fixed 10;
  _ ← map_err (registry_error artifact) (require family version);
  flags ← read_u32 artifact fixed 12;
  header_length ← read_u64 artifact fixed 16;
  file_length ← read_u64 artifact fixed 24;
  if header_length <? FILE_HEADER_LEN
  then Err (format_error artifact CheckHeaderLength)
  else Ok {| fh_magic := FILE_MAGIC; fh_family := family; fh_version := version;
             fh_flags := flags; fh_header_length := header_length;
             fh_file_length := file_length |}.

Section Frame.
Context {X : Xxh3}.

Definition encode_artifact_version (family : FormatFamily) (version flags : Z)
    (payload : bytes) : bytes :=
  let block_overhead := 16 in
  let file_length :=
    saturating_add usize_max
      (saturating_add usize_max
         (saturating_add usize_max FILE_HEADER_LEN block_overhead)
         (len payload))
      FILE_TRAILER_LEN in
  let encoded :=
    encode_header {| fh_magic := FILE_MAGIC; fh_family := family_id family;
                     fh_version := version; fh_flags := flags;
                     fh_header_length := FILE_HEADER_LEN;
                     fh_file_length := file_length |}
    ++ u64_le (len payload) ++ payload ++ u64_le (xxh3_64 payload) in
  encoded ++ u64_le (xxh3_64 encoded).

Definition encode_artifact (family : FormatFamily) (flags : Z) (payload : bytes)
    : bytes :=
  encode_artifact_version family (current_version family) flags payload.

Definition decode_artifact (artifact : string) (expected_family : FormatFamily)
    (b : bytes) : result FormatError DecodedArtifact :=
  header ← decode_header artifact expected_family b;
  actual_file_length ← ok_or (try_from u64_max (len b))
                         (format_error artifact CheckFileLength);
  if negb (fh_file_length header =? actual_file_length)
  then Err (format_error artifact CheckFileLength)
  else
  if negb (fh_header_length header =? FILE_HEADER_LEN)
  then Err (format_error artifact CheckHeaderLength)
  else
  trailer_start ← ok_or (checked_sub (len b) FILE_TRAILER_LEN)
                    (format_error artifact CheckLength);
  checksummed ← ok_or (slice_to b trailer_start) (format_error artifact CheckLength);
  expected_file_checksum ← read_u64 artifact b trailer_start;
  let actual_file_checksum := xxh3_64 checksummed in
  if negb (actual_file_checksum =? expected_file_checksum)
  then Err (checksum_mismatch artifact CheckFileChecksum
              expected_file_checksum actual_file_checksum)
  else
  payload_length ← read_u64 artifact b FILE_HEADER_LEN;
  payload_length ← ok_or (try_from usize_max payload_length)
                     (format_error artifact CheckBlockLength);
  let payload_start := saturating_add usize_max FILE_HEADER_LEN 8 in
  payload_end ← ok_or (checked_add usize_max payload_start payload_length)
                  (format_error artifact CheckBlockLength);
  checksum_end ← ok_or (checked_add usize_max payload_end 8)
                   (format_error artifact CheckBlockLength);
  if negb (checksum_end =? trailer_start)
  then Err (format_error artifact CheckBlockLength)
  else
  payload ← ok_or (slice_range b payload_start payload_end)
              (format_error artifact CheckLength);
  expected_block_checksum ← read_u64 artifact b payload_end;
  let actual_block_checksum := xxh3_64 payload in
  if negb (actual_block_checksum =? expected_block_checksum)
  then Err (checksum_mismatch artifact CheckBlockChecksum
              expected_block_checksum actual_block_checksum)
  else Ok {| da_header := header; da_payload := payload |}.
End Frame.

(** ** Reading fields back *)

Lemma read_u16_at a pre v post off :
  is_u16 v → len pre = off → read_u16 a (pre ++ u16_le v ++ post) off = Ok v.
Proof.
  intros Hv <-. unfold read_u16, first_chunk. rewrite slice_from_app by done. simpl.
  rewrite slice_to_app by (by rewrite len_u16_le). simpl. by rewrite from_u16_le.
Qed.

Lemma read_u32_at a pre v post off :
  is_u32 v → len pre = off → read_u32 a (pre ++ u32_le v ++ post) off = Ok v.
Proof.
  intros Hv <-. unfold read_u32, first_chunk. rewrite slice_from_app by done. simpl.
  rewrite slice_to_app by (by rewrite len_u32_le). simpl. by rewrite from_u32_le.
Qed.

Lemma read_u64_at a pre v post off :
  is_u64 v → len pre = off → read_u64 a (pre ++ u64_le v ++ post) off = Ok v.
Proof.
  intros Hv <-. unfold read_u64, first_chunk. rewrite slice_from_app by done. simpl.
  rewrite slice_to_app by (by rewrite len_u64_le). simpl. by rewrite from_u64_le.
Qed.

Lemma read_u64_in a b pre v post off :
  b = pre ++ u64_le v ++ post → is_u64 v → len pre = off → read_u64 a b off = Ok v.
Proof. intros ->. apply read_u64_at. Qed.

Lemma read_u16_Ok a b off v :
  read_u16 a b off = Ok v →
  0 ≤ off ∧ off + 2 ≤ len b ∧ u16_le v = take 2 (drop (Z.to_nat off) b) ∧ is_u16 v.
Proof.
  unfold read_u16, first_chunk. destruct (slice_from b off) as [t|] eqn:Ht; [|done].
  simpl. destruct (slice_to t 2) as [c|] eqn:Hc; [|done]. simpl. intros [= <-].
  apply slice_from_Some in Ht as [Hr ->]. apply slice_to_Some in Hc as (Hr2 & -> & Hl).
  unfold len in Hr2. rewrite length_drop in Hr2. unfold len in Hr.
  split_and!; [lia|unfold len; lia|by apply u16_le_from|].
  pose proof (from_le_bound _ _ Hl). unfold is_u16, u16_max. lia.
Qed.

Lemma read_u32_Ok a b off v :
  read_u32 a b off = Ok v →
  0 ≤ off ∧ off + 4 ≤ len b ∧ u32_le v = take 4 (drop (Z.to_nat off) b) ∧ is_u32 v.
Proof.
  unfold read_u32, first_chunk. destruct (slice_from b off) as [t|] eqn:Ht; [|done].
  simpl. destruct (slice_to t 4) as [c|] eqn:Hc; [|done]. simpl. intros [= <-].
  apply slice_from_Some in Ht as [Hr ->]. apply slice_to_Some in Hc as (Hr2 & -> & Hl).
  unfold len in Hr2. rewrite length_drop in Hr2. unfold len in Hr.
  split_and!; [lia|unfold len; lia|by apply u32_le_from|].
  pose proof (from_le_bound _ _ Hl). unfold is_u32, u32_max. lia.
Qed.

Lemma read_u64_Ok a b off v :
  read_u64 a b off = Ok v →
  0 ≤ off ∧ off + 8 ≤ len b ∧ u64_le v = take 8 (drop (Z.to_nat off) b) ∧ is_u64 v.
Proof.
  unfold read_u64, first_chunk. destruct (slice_from b off) as [t|] eqn:Ht; [|done].
  simpl. destruct (slice_to t 8) as [c|] eqn:Hc; [|done]. simpl. intros [= <-].
  apply slice_from_Some in Ht as [Hr ->]. apply slice_to_Some in Hc as (Hr2 & -> & Hl).
  unfold len in Hr2. rewrite length_drop in Hr2. unfold len in Hr.
  split_and!; [lia|unfold len; lia|by apply u64_le_from|].
  pose proof (from_le_bound _ _ Hl). unfold is_u64, u64_max. lia.
Qed.

Lemma family_id_u16 f : is_u16 (family_id f).
Proof. unfold is_u16, u16_max. destruct f; simpl; lia. Qed.

Lemma len_FILE_MAGIC : len FILE_MAGIC = 8.
Proof. done. Qed.

Lemma len_encode_header h : len (fh_magic h) = 8 → len (encode_header h) = FILE_HEADER_LEN.
Proof. intros H. unfold encode_header, FILE_HEADER_LEN. autorewrite with zep_len. lia. Qed.

(** The header fields that [decode_header] can return for [expected]. *)
Definition header_ok (expected : FormatFamily) (h : FileHeader) : Prop :=
  fh_magic h = FILE_MAGIC ∧ fh_family h = family_id expected
  ∧ is_u16 (fh_version h) ∧ is_ok (require (family_id expected) (fh_version h)) = true
  ∧ is_u32 (fh_flags h) ∧ is_u64 (fh_header_length h) ∧ is_u64 (fh_file_length h)
  ∧ FILE_HEADER_LEN ≤ fh_header_length h.

Lemma decode_encode_header a f h rest :
  header_ok f h → decode_header a f (encode_header h ++ rest) = Ok h.
Proof.
  intros (Hm & Hf & Hv & Hreq & Hfl & Hhl & Hfile & Hmin).
  unfold decode_header.
  rewrite slice_to_app by (rewrite len_encode_header; [done|by rewrite Hm]).
  rsimpl. unfold encode_header. rewrite Hm, Hf.
  rewrite slice_to_app by done. rsimpl.
  rewrite bool_decide_eq_true_2 by done. rsimpl.
  rewrite (read_u16_at a FILE_MAGIC (family_id f) _ 8) by (done || apply family_id_u16). rsimpl.
  rewrite Z.eqb_refl. rsimpl.
  rewrite (app_assoc FILE_MAGIC).
  rewrite (read_u16_at a (FILE_MAGIC ++ u16_le (family_id f)) (fh_version h) _ 10)
    by (done || (rewrite len_app, len_u16_le; done)).
  rsimpl. destruct (require (family_id f) (fh_version h)) as [sp|]; [|done]. rsimpl.
  rewrite (app_assoc (FILE_MAGIC ++ _)).
  rewrite (read_u32_at a ((FILE_MAGIC ++ u16_le _) ++ u16_le _) (fh_flags h) _ 12)
    by (done || (rewrite !len_app, !len_u16_le; done)).
  rsimpl. rewrite (app_assoc ((FILE_MAGIC ++ u16_le _) ++ u16_le _)).
  rewrite (read_u64_at a (((FILE_MAGIC ++ u16_le _) ++ u16_le _) ++ u32_le _)
             (fh_header_length h) _ 16)
    by (done || (rewrite !len_app, !len_u16_le, len_u32_le; done)).
  rsimpl. rewrite (app_assoc (((FILE_MAGIC ++ u16_le _) ++ u16_le _) ++ u32_le _)).
  rewrite <- (app_nil_r (u64_le (fh_file_length h))).
  rewrite (read_u64_at a ((((FILE_MAGIC ++ u16_le _) ++ u16_le _) ++ u32_le _) ++ u64_le _)
             (fh_file_length h) _ 24)
    by (done || (rewrite !len_app, !len_u16_le, len_u32_le, len_u64_le; done)).
  rsimpl. decide_Z. destruct h; simpl in *; by subst.
Qed.

Lemma decode_header_sound a f b h :
  decode_header a f b = Ok h →
  header_ok f h ∧ ∃ rest, b = encode_header h ++ rest.
Proof.
  unfold decode_header. intros H.
  destruct (slice_to b FILE_HEADER_LEN) as [fixed|] eqn:Hfixed; rsimpl in H; [|done].
  destruct (slice_to fixed 8) as [magic|] eqn:Hmagic; rsimpl in H; [|done].
  case_bool_decide as Hm; rsimpl in H; [|done].
  apply bind_Ok_inv in H as (fam & E1 & H).
  destruct (Z.eqb_spec fam (family_id f)) as [->|]; rsimpl in H; [|done].
  apply bind_Ok_inv in H as (ver & E2 & H).
  destruct (require (family_id f) ver) as [sp|] eqn:Hreq; rsimpl in H; [|done].
  apply bind_Ok_inv in H as (flags & E3 & H).
  apply bind_Ok_inv in H as (hlen & E4 & H).
  apply bind_Ok_inv in H as (flen & E5 & H).
  destruct (Z.ltb_spec hlen FILE_HEADER_LEN); [done|]. injection H as <-.
  apply slice_to_Some in Hfixed as (Hlen & -> & Hfl).
  apply slice_to_Some in Hmagic as (_ & Hmag & _). rewrite Hm in Hmag.
  apply read_u16_Ok in E1 as (_ & _ & E1 & _).
  apply read_u16_Ok in E2 as (_ & _ & E2 & ?).
  apply read_u32_Ok in E3 as (_ & _ & E3 & ?).
  apply read_u64_Ok in E4 as (_ & _ & E4 & ?).
  apply read_u64_Ok in E5 as (_ & _ & E5 & ?).
  split.
  { unfold header_ok. simpl. rewrite Hreq. split_and!; done. }
  exists (drop 32 b). unfold encode_header.
  cbn [fh_magic fh_family fh_version fh_flags fh_header_length fh_file_length].
  rewrite E1, E2, E3, E4, E5, Hmag.
  change (Z.to_nat 8) with 8%nat; change (Z.to_nat 10) with (8 + 2)%nat;
  change (Z.to_nat 12) with (8 + 2 + 2)%nat;
  change (Z.to_nat 16) with (8 + 2 + 2 + 4)%nat;
  change (Z.to_nat 24) with (8 + 2 + 2 + 4 + 8)%nat.
  set (fixed := take (Z.to_nat FILE_HEADER_LEN) b).
  rewrite <- (drop_0 fixed) at 1. rewrite !app_assoc.
  rewrite !(window_join fixed 0). simpl Nat.add. rewrite drop_0.
  rewrite take_ge by (unfold len, FILE_HEADER_LEN in *; fold fixed in Hfl; lia).
  symmetry. apply (take_drop 32 b).
Qed.

(** ** The registry *)

Lemma family_registered (f : FormatFamily) :
  ∃ spec,
    List.find (λ c, family_id (fs_family c) =? family_id f) FAMILIES = Some spec
    ∧ fs_family spec = f ∧ fs_current_version spec = current_version f
    ∧ fs_minimum_accepted_version spec ≤ current_version f
      ≤ fs_maximum_accepted_version spec.
Proof. destruct f; eexists; (split; [reflexivity|]); done. Qed.

Lemma family_id_inj (f g : FormatFamily) : family_id f = family_id g → f = g.
Proof. by destruct f, g. Qed.

(** Every format family is registered once with its current version, which the
    registry accepts, and a version is accepted exactly inside the family's range,
    with the range reported otherwise; no two families share an id. *)
Theorem registry_consistent (f : FormatFamily) (version : Z) :
  ∃ spec,
    spec ∈ FAMILIES ∧ fs_family spec = f
    ∧ fs_current_version spec = current_version f
    ∧ require (family_id f) (current_version f) = Ok spec
    ∧ require (family_id f) version =
        (if bool_decide (fs_minimum_accepted_version spec ≤ version
                         ≤ fs_maximum_accepted_version spec)
         then Ok spec
         else Err (UnsupportedVersion (family_id f) version
                     (fs_minimum_accepted_version spec)
                     (fs_maximum_accepted_version spec)))
    ∧ (∀ g, family_id g = family_id f → g = f).
Proof.
  destruct (family_registered f) as (spec & Hfind & Hf & Hc & Hr).
  exists spec. unfold require. rewrite Hfind. rsimpl.
  split_and!; [|done|done| | |intros; by apply family_id_inj].
  - apply list_elem_of_In. by eapply List.find_some.
  - decide_Z. done.
  - case_bool_decide as Hv; [by decide_Z|].
    destruct (Z.ltb_spec version (fs_minimum_accepted_version spec)); [done|].
    decide_Z. done.
Qed.

(** ** Whole artifacts *)

Section FrameTheorems.
Context {X : Xxh3} {L : Xxh3Laws X}.

Definition artifact_header (f : FormatFamily) (version flags : Z) (payload : bytes)
    : FileHeader :=
  {| fh_magic := FILE_MAGIC; fh_family := family_id f; fh_version := version;
     fh_flags := flags; fh_header_length := FILE_HEADER_LEN;
     fh_file_length := 56 + len payload |}.

Lemma encode_artifact_version_eq f version flags payload :
  len payload + 56 ≤ isize_max →
  encode_artifact_version f version flags payload =
  let body := encode_header (artifact_header f version flags payload)
              ++ u64_le (len payload) ++ payload ++ u64_le (xxh3_64 payload) in
  body ++ u64_le (xxh3_64 body).
Proof.
  intros Hl. pose proof (len_nonneg payload). unfold isize_max in Hl.
  unfold encode_artifact_version, artifact_header, saturating_add, usize_max,
    u64_max, FILE_HEADER_LEN, FILE_TRAILER_LEN.
  rewrite !Z.min_r by lia.
  by replace (32 + 16 + len payload + 8) with (56 + len payload) by lia.
Qed.

Lemma artifact_header_ok f version flags payload :
  len payload + 56 ≤ isize_max → is_u16 version → is_u32 flags →
  is_ok (require (family_id f) version) = true →
  header_ok f (artifact_header f version flags payload).
Proof.
  intros Hl Hv Hf Hr. pose proof (len_nonneg payload).
  unfold header_ok, artifact_header, is_u64, u64_max, FILE_HEADER_LEN, isize_max in *.
  cbn [fh_magic fh_family fh_version fh_flags fh_header_length fh_file_length].
  split_and!; done || lia.
Qed.

(** A framed payload decodes to itself. *)
Lemma decode_encode_artifact a f version flags payload :
  len payload + 56 ≤ isize_max → is_u16 version → is_u32 flags →
  is_ok (require (family_id f) version) = true →
  decode_artifact a f (encode_artifact_version f version flags payload) =
  Ok {| da_header := artifact_header f version flags payload;
        da_payload := payload |}.
Proof using L.
  intros Hl Hv Hf Hr. rewrite encode_artifact_version_eq by done. cbv zeta.
  pose proof (artifact_header_ok f version flags payload Hl Hv Hf Hr) as Hh.
  set (h := artifact_header f version flags payload) in *.
  set (body := encode_header h ++ _ ++ payload ++ _).
  assert (len (encode_header h) = 32) as Hlh by (by apply len_encode_header).
  assert (len body = 48 + len payload) as Hlb
    by (unfold body; autorewrite with zep_len; lia).
  pose proof (len_nonneg payload). unfold isize_max in Hl.
  set (file := body ++ u64_le (xxh3_64 body)).
  assert (file = encode_header h ++ u64_le (len payload)
            ++ (payload ++ u64_le (xxh3_64 payload) ++ u64_le (xxh3_64 body))) as F1
    by (unfold file, body; by rewrite <- !app_assoc).
  assert (file = (encode_header h ++ u64_le (len payload)) ++ payload
            ++ (u64_le (xxh3_64 payload) ++ u64_le (xxh3_64 body))) as F2
    by (unfold file, body; by rewrite <- !app_assoc).
  assert (file = (encode_header h ++ u64_le (len payload) ++ payload)
            ++ u64_le (xxh3_64 payload) ++ u64_le (xxh3_64 body)) as F3
    by (unfold file, body; by rewrite <- !app_assoc).
  assert (file = body ++ u64_le (xxh3_64 body) ++ []) as F4
    by (by rewrite app_nil_r).
  assert (len file = 56 + len payload) as Hlf
    by (unfold file; rewrite len_app, len_u64_le; lia).
  unfold decode_artifact.
  replace (decode_header a f file) with (Ok (E:=FormatError) h)
    by (rewrite F1; symmetry; by apply decode_encode_header).
  rsimpl. unfold try_from. rewrite Hlf. unfold usize_max, u64_max. decide_Z. rsimpl.
  change (fh_file_length h) with (56 + len payload).
  change (fh_header_length h) with FILE_HEADER_LEN. decide_Z. rsimpl.
  unfold checked_sub, FILE_TRAILER_LEN. decide_Z. rsimpl.
  replace (slice_to file (56 + len payload - 8)) with (Some body)
    by (symmetry; apply slice_to_app; lia). rsimpl.
  rewrite (read_u64_in a _ _ _ _ (56 + len payload - 8) F4) by (apply xxh3_64_u64 || lia).
  rsimpl. rewrite Z.eqb_refl. rsimpl.
  rewrite (read_u64_in a _ _ _ _ FILE_HEADER_LEN F1)
    by (done || (unfold is_u64, u64_max; lia)).
  rsimpl. decide_Z. rsimpl.
  unfold saturating_add, checked_add, FILE_HEADER_LEN. decide_Z. rsimpl. decide_Z. rsimpl.
  decide_Z. rsimpl. rewrite F2 at 1.
  rewrite slice_range_app by (rewrite len_app, len_u64_le; lia). rsimpl.
  rewrite (read_u64_in a _ _ _ _ (Z.min (2 ^ 64 - 1) (32 + 8) + len payload) F3)
    by (apply xxh3_64_u64 || (rewrite !len_app, len_u64_le; lia)).
  rsimpl. by rewrite Z.eqb_refl.
Qed.

(** Every payload framed at an accepted family version decodes, for that
    family, to a header with that version and flags and to the same payload. *)
Theorem artifact_roundtrip a f version flags payload :
  len payload + 56 ≤ isize_max → is_u16 version → is_u32 flags →
  is_ok (require (family_id f) version) = true →
  decode_artifact a f (encode_artifact_version f version flags payload) =
  Ok {| da_header := artifact_header f version flags payload;
        da_payload := payload |}.
Proof using L. apply decode_encode_artifact. Qed.

(** What the frame decoder has checked when it accepts: the fixed part of the frame, the
    payload and the two checksums, as windows of the input. *)
Definition frame_windows (b : list byte) (h : FileHeader) (payload : list byte) : Prop :=
  let n := Z.to_nat (len payload) in
  let body := take (length b - 8) b in
  fh_header_length h = FILE_HEADER_LEN ∧ fh_file_length h = len b
  ∧ len b = 56 + len payload ∧ is_u64 (len b)
  ∧ u64_le (len payload) = take 8 (drop 32 b)
  ∧ payload = take n (drop 40 b)
  ∧ u64_le (xxh3_64 payload) = take 8 (drop (40 + n) b)
  ∧ u64_le (xxh3_64 body) = take 8 (drop (length b - 8) b).

Lemma decode_artifact_windows a f b d :
  decode_artifact a f b = Ok d →
  decode_header a f b = Ok (da_header d) ∧ frame_windows b (da_header d) (da_payload d).
Proof.
  unfold decode_artifact. intros H.
  apply bind_Ok_inv in H as (h & Hh & H).
  unfold try_from in H. destruct (andb _ _) eqn:Hb in H; rsimpl in H; [|done].
  destruct (Z.eqb_spec (fh_file_length h) (len b)) as [Hfl|]; rsimpl in H; [|done].
  destruct (Z.eqb_spec (fh_header_length h) FILE_HEADER_LEN) as [Hhl|]; rsimpl in H; [|done].
  unfold checked_sub, FILE_TRAILER_LEN in H.
  destruct (Z.leb_spec 8 (len b)); rsimpl in H; [|done].
  destruct (slice_to b (len b - 8)) as [body|] eqn:Hbody; rsimpl in H; [|done].
  apply bind_Ok_inv in H as (cks & Hck & H).
  destruct (Z.eqb_spec (xxh3_64 body) cks) as [<-|]; rsimpl in H; [|done].
  apply bind_Ok_inv in H as (pl & Hpl & H).
  destruct (andb _ _) eqn:Hb2 in H; rsimpl in H; [|done].
  unfold checked_add, saturating_add, usize_max, u64_max, FILE_HEADER_LEN in H.
  replace (Z.min (2 ^ 64 - 1) (32 + 8)) with 40 in H by lia.
  destruct (Z.leb_spec (40 + pl) (2 ^ 64 - 1)); rsimpl in H; [|done].
  destruct (Z.leb_spec (40 + pl + 8) (2 ^ 64 - 1)); rsimpl in H; [|done].
  destruct (Z.eqb_spec (40 + pl + 8) (len b - 8)) as [Hlen|]; rsimpl in H; [|done].
  destruct (slice_range b 40 (40 + pl)) as [payload|] eqn:Hpay; rsimpl in H; [|done].
  apply bind_Ok_inv in H as (bck & Hbck & H).
  destruct (Z.eqb_spec (xxh3_64 payload) bck) as [<-|]; rsimpl in H; [|done].
  injection H as <-. cbn [da_header da_payload]. split; [done|].
  apply slice_to_Some in Hbody as (_ & Hbody & _).
  apply slice_range_Some in Hpay as (_ & _ & Hpay & Hlpay).
  apply read_u64_Ok in Hck as (_ & _ & Hck & _).
  apply read_u64_Ok in Hpl as (_ & _ & Hpl & Hplr).
  apply read_u64_Ok in Hbck as (_ & _ & Hbck & _).
  assert (pl = len payload) as -> by lia.
  pose proof (len_nonneg payload). unfold frame_windows.
  replace (Z.to_nat (len b - 8)) with (length b - 8)%nat in * by (unfold len; lia).
  replace (Z.to_nat (40 + len payload - 40)) with (Z.to_nat (len payload)) in Hpay by lia.
  replace (Z.to_nat (40 + len payload)) with (40 + Z.to_nat (len payload))%nat in Hbck by lia.
  subst body. unfold is_u64. apply andb_prop in Hb as [_ Hb%Z.leb_le].
  split_and!; try done; lia.
Qed.

(** Consecutive windows of the input are the body; the body and the trailer are the input. *)
Lemma frame_windows_bytes b h payload :
  frame_windows b h payload → encode_header h `prefix_of` b → len (encode_header h) = 32 →
  ∃ body, body = encode_header h ++ u64_le (len payload) ++ payload
                 ++ u64_le (xxh3_64 payload)
          ∧ b = body ++ u64_le (xxh3_64 body).
Proof.
  intros (_ & _ & Hlen & _ & Hpl & Hpay & Hbck & Hck) [rest Hrest] Hle.
  exists (take (length b - 8) b). split.
  - assert (encode_header h = take 32 b) as ->
      by (rewrite Hrest; symmetry; apply (take_app_length' _ _ 32); unfold len in Hle; lia).
    rewrite Hpl, Hbck. rewrite Hpay at 1. change 40%nat with (32 + 8)%nat.
    rewrite !app_assoc, !take_take_drop. f_equal.
    pose proof (len_nonneg payload). unfold len in *. lia.
  - rewrite Hck. rewrite <- (take_drop (length b - 8) b) at 1.
    f_equal. rewrite take_ge; [done|]. rewrite length_drop. lia.
Qed.

(** The frame decoder accepts only canonical bytes: whatever it accepts is byte
    for byte the encoding of the version, flags and payload it returns, with a
    checked header and the true file length. *)
Theorem artifact_canonical a f b d :
  decode_artifact a f b = Ok d →
  b = encode_artifact_version f (fh_version (da_header d)) (fh_flags (da_header d))
        (da_payload d)
  ∧ header_ok f (da_header d)
  ∧ fh_header_length (da_header d) = FILE_HEADER_LEN
  ∧ fh_file_length (da_header d) = len b.
Proof.
  intros H. apply decode_artifact_windows in H as [Hh Hw].
  destruct d as [h payload]. cbn [da_header da_payload] in *.
  apply decode_header_sound in Hh as [Hok [rest Hrest]].
  pose proof Hw as (Hhl & Hfl & Hlen & Hu & _). split_and!; [|done..].
  destruct (frame_windows_bytes _ _ _ Hw) as (body & Hbd & Hfull);
    [by exists rest|apply len_encode_header; by destruct Hok as [-> _]|].
  pose proof (len_nonneg payload). unfold is_u64, u64_max in *.
  rewrite Hfull at 1. unfold encode_artifact_version, saturating_add, usize_max, u64_max,
    FILE_HEADER_LEN, FILE_TRAILER_LEN.
  rewrite !Z.min_r by lia. cbv zeta.
  replace (32 + 16 + len payload + 8) with (len b) by lia.
  replace {| fh_magic := FILE_MAGIC; fh_family := family_id f; fh_version := fh_version h;
             fh_flags := fh_flags h; fh_header_length := 32; fh_file_length := len b |}
    with h by (destruct h, Hok as (? & ? & _); simpl in *; unfold FILE_HEADER_LEN in *; congruence).
  by rewrite <- Hbd.
Qed.
End FrameTheorems.

(** ** Witnesses *)

Lemma artifact_roundtrip_witness :
  decode_artifact (X:=ToyXxh3.toy) "manifest.ze" ManifestFamily
    (encode_artifact_version (X:=ToyXxh3.toy) ManifestFamily 3 0
       [Byte.x01; Byte.xff; Byte.x20]) =
  Ok {| da_header := artifact_header ManifestFamily 3 0 [Byte.x01; Byte.xff; Byte.x20];
        da_payload := [Byte.x01; Byte.xff; Byte.x20] |}.
Proof.
  apply (artifact_roundtrip (L:=ToyXxh3.toy_laws) "manifest.ze" ManifestFamily 3 0);
    [unfold isize_max; vm_compute; congruence|split; vm_compute; congruence
    |split; vm_compute; congruence|reflexivity].
Defined.

Lemma artifact_canonical_witness :
  let b := encode_artifact (X:=ToyXxh3.toy) Wal 5 [Byte.x07] in
  ∃ d, decode_artifact (X:=ToyXxh3.toy) "wal" Wal b = Ok d ∧
    b = encode_artifact_version (X:=ToyXxh3.toy) Wal (fh_version (da_header d))
          (fh_flags (da_header d)) (da_payload d).
Proof.
  eexists. split; [vm_compute; reflexivity|].
  eapply (artifact_canonical (X:=ToyXxh3.toy) "wal" Wal). vm_compute. reflexivity.
Defined.
