(* ===== verification/Cursor.v ===== *)
(** * Byte cursors

    The decoders of the program ([ManifestCursor], the WAL payload [Cursor] and
    others) are structs that hold the input and an offset, with methods that
    return a value and advance, or fail.  This file has the shared monad of such
    methods and the library their round trips are proved with.

    [reads p enc v] states that a method [p] placed before the bytes [enc],
    anywhere in an input, returns [v] and stops after them; the proof that a
    decoder reads what an encoder wrote is a composition of such facts. *)

From S2P Require Import Prelude.

Record Cursor : Type := {
  cu_bytes : bytes;
  cu_offset : Z;
}.

(** A cursor method: a state and error monad. *)
Definition CursorM (E A : Type) : Type := Cursor → result E (A * Cursor).

#[export] Instance cursor_ret {E} : MRet (CursorM E) := λ A a c, Ok (a, c).
#[export] Instance cursor_bind {E} : MBind (CursorM E) := λ A B f p c,
  match p c with
  | Ok (a, c) => f a c
  | Err e => Err e
  end.

(** [return Err(..)] and a fallible computation that reads nothing. *)
Definition fail {E A} (e : E) : CursorM E A := λ _, Err e.
Definition lift {E A} (r : result E A) : CursorM E A := λ c,
  match r with Ok a => Ok (a, c) | Err e => Err e end.

(** A method that looks at the cursor before it reads. *)
Definition with_cursor {E A} (f : Cursor → CursorM E A) : CursorM E A := λ c, f c c.

(** The next [length] bytes; the end of the window is computed with
    [checked_add], and a window past the input is refused. *)
Definition cursor_take {E} (overflow truncated : E) (length : Z) : CursorM E bytes := λ c,
  match checked_add usize_max (cu_offset c) length with
  | None => Err overflow
  | Some end_ =>
      match slice_range (cu_bytes c) (cu_offset c) end_ with
      | None => Err truncated
      | Some value => Ok (value, {| cu_bytes := cu_bytes c; cu_offset := end_ |})
      end
  end.

Definition remaining (c : Cursor) : Z := saturating_sub (len (cu_bytes c)) (cu_offset c).

(** A loop that calls a method [n] times. *)
Fixpoint repeat_parser {E A} (n : nat) (p : CursorM E A) : CursorM E (list A) :=
  match n with
  | O => mret []
  | S n => a ← p; rest ← repeat_parser n p; mret (a :: rest)
  end.

(** ** Reading what was written *)

Section Reads.
Context {E : Type}.

Definition reads {A} (p : CursorM E A) (enc : bytes) (v : A) : Prop :=
  ∀ pre rest, len (pre ++ enc ++ rest) ≤ isize_max →
    p {| cu_bytes := pre ++ enc ++ rest; cu_offset := len pre |}
    = Ok (v, {| cu_bytes := pre ++ enc ++ rest; cu_offset := len (pre ++ enc) |}).

Lemma reads_ret {A} (v : A) : reads (mret v) [] v.
Proof. intros pre rest _. by rewrite app_nil_r. Qed.

Lemma reads_bind {A B} (p : CursorM E A) (f : A → CursorM E B) e1 e2 v1 v2 :
  reads p e1 v1 → reads (f v1) e2 v2 → reads (p ≫= f) (e1 ++ e2) v2.
Proof.
  intros H1 H2 pre rest Hl. unfold mbind, cursor_bind.
  specialize (H1 pre (e2 ++ rest)). specialize (H2 (pre ++ e1) rest).
  rewrite <- !app_assoc in *. rewrite H1 by done. by apply H2.
Qed.

(** A step that reads nothing. *)
Lemma reads_bind_nil {A B} (p : CursorM E A) (f : A → CursorM E B) e v1 v2 :
  reads p [] v1 → reads (f v1) e v2 → reads (p ≫= f) e v2.
Proof. apply (reads_bind p f []). Qed.

(** The last step, whose encoding is the whole rest. *)
Lemma reads_bind_ret {A B} (p : CursorM E A) (g : A → B) e v :
  reads p e v → reads (a ← p; mret (g a)) e (g v).
Proof. intros H. rewrite <- (app_nil_r e). eapply reads_bind; [exact H|apply reads_ret]. Qed.

Lemma reads_take o t b n : n = len b → reads (cursor_take o t n) b b.
Proof.
  intros -> pre rest Hl. unfold cursor_take. cbn [cu_offset cu_bytes].
  rewrite !len_app in Hl. pose proof (len_nonneg pre); pose proof (len_nonneg rest).
  unfold checked_add, usize_max, u64_max, isize_max in *. decide_Z.
  rewrite slice_range_app by done. by rewrite len_app.
Qed.

Lemma reads_lift {A} (r : result E A) v : r = Ok v → reads (lift r) [] v.
Proof. intros -> pre rest _. unfold lift. by rewrite app_nil_r. Qed.

Lemma reads_repeat {A} (p : CursorM E A) (enc : A → bytes) vs n :
  n = length vs → Forall (λ v, reads p (enc v) v) vs →
  reads (repeat_parser n p) (concat (map enc vs)) vs.
Proof.
  intros -> H. induction H as [|v vs Hv _ IH]; cbn [repeat_parser length map concat].
  - apply reads_ret.
  - eapply reads_bind; [exact Hv|]. by apply (reads_bind_ret _ (cons v)).
Qed.

(** ** Methods that run to the end of the input *)

Definition reads_end {A} (p : CursorM E A) (enc : bytes) (v : A) : Prop :=
  ∀ pre, len (pre ++ enc) ≤ isize_max →
    p {| cu_bytes := pre ++ enc; cu_offset := len pre |}
    = Ok (v, {| cu_bytes := pre ++ enc; cu_offset := len (pre ++ enc) |}).

Lemma reads_reads_end {A} (p : CursorM E A) enc v : reads p enc v → reads_end p enc v.
Proof. intros H pre Hl. specialize (H pre []). rewrite !app_nil_r in H. by apply H. Qed.

Lemma reads_end_bind {A B} (p : CursorM E A) (f : A → CursorM E B) e1 e2 v1 v2 :
  reads p e1 v1 → reads_end (f v1) e2 v2 → reads_end (p ≫= f) (e1 ++ e2) v2.
Proof.
  intros H1 H2 pre Hl. unfold mbind, cursor_bind.
  rewrite (H1 pre e2) by done. specialize (H2 (pre ++ e1)).
  rewrite <- !app_assoc in *. by apply H2.
Qed.

Lemma reads_end_bind_nil {A B} (p : CursorM E A) (f : A → CursorM E B) e v1 v2 :
  reads p [] v1 → reads_end (f v1) e v2 → reads_end (p ≫= f) e v2.
Proof. apply (reads_end_bind p f []). Qed.

Lemma reads_end_then {A B} (p : CursorM E A) (f : A → CursorM E B) e v1 v2 :
  reads_end p e v1 → (∀ b, f v1 {| cu_bytes := b; cu_offset := len b |}
                           = Ok (v2, {| cu_bytes := b; cu_offset := len b |})) →
  reads_end (p ≫= f) e v2.
Proof.
  intros H1 H2 pre Hl. unfold mbind, cursor_bind. rewrite H1 by done. apply H2.
Qed.
End Reads.

(** ** What a method returns, on any input *)

Section Yields.
Context {E : Type}.

Definition yields {A} (p : CursorM E A) (Q : A → Prop) : Prop :=
  ∀ c v c', p c = Ok (v, c') → Q v.

Lemma yields_true {A} (p : CursorM E A) : yields p (λ _, True).
Proof. done. Qed.

Lemma yields_ret {A} (v : A) (Q : A → Prop) : Q v → yields (mret v) Q.
Proof. by intros H c v' c' [= <- <-]. Qed.

Lemma yields_fail {A} (e : E) (Q : A → Prop) : yields (fail e) Q.
Proof. done. Qed.

Lemma yields_lift {A} (r : result E A) (Q : A → Prop) :
  (∀ v, r = Ok v → Q v) → yields (lift r) Q.
Proof. intros H c v c'. unfold lift. destruct r; [|done]. intros [= <- <-]. by apply H. Qed.

Lemma yields_bind {A B} (p : CursorM E A) (f : A → CursorM E B) (P : A → Prop) (Q : B → Prop) :
  yields p P → (∀ a, P a → yields (f a) Q) → yields (p ≫= f) Q.
Proof.
  intros Hp Hf c v c'. unfold mbind, cursor_bind.
  destruct (p c) as [[a c1]|e] eqn:Hc; [|done]. apply Hf. by eapply Hp.
Qed.

Lemma yields_mono {A} (p : CursorM E A) (P Q : A → Prop) :
  yields p P → (∀ a, P a → Q a) → yields p Q.
Proof. intros Hp H c v c' Hc. by eapply H, Hp. Qed.

Lemma yields_with_cursor {A} (f : Cursor → CursorM E A) (Q : A → Prop) :
  (∀ c, yields (f c) Q) → yields (with_cursor f) Q.
Proof. intros H c v c'. apply H. Qed.

Lemma yields_take o t n : yields (cursor_take (E:=E) o t n) (λ b, len b = n).
Proof.
  intros c v c'. unfold cursor_take, checked_add. destruct (_ <=? _); [|done].
  destruct (slice_range _ _ _) eqn:Hs; [|done]. intros [= <- <-].
  apply slice_range_Some in Hs as (_ & _ & _ & Hs). lia.
Qed.

Lemma yields_repeat {A} (p : CursorM E A) (Q : A → Prop) n :
  yields p Q → yields (repeat_parser n p) (λ vs, length vs = n ∧ Forall Q vs).
Proof.
  intros Hp. induction n as [|n IH]; cbn [repeat_parser].
  - by apply yields_ret.
  - eapply yields_bind; [exact Hp|]. intros a Ha. eapply yields_bind; [exact IH|].
    intros vs [Hl Hvs]. apply yields_ret. split; [cbn; congruence|by constructor].
Qed.
End Yields.

#[export] Hint Resolve reads_ret : zep.

(** One field of a record parser. *)
Ltac read_field := eapply reads_bind; [eauto with zep|]; cbv beta.

(** * UTF-8 validation

    The check [std::str::from_utf8] makes (the well-formed byte sequences of
    Unicode, table 3-7), used wherever the program turns bytes it read into a
    [String]. *)

Definition byte_value (b : byte) : Z := Z.of_N (Byte.to_N b).

(** [lo <= b <= hi]. *)
Definition byte_in (lo hi : Z) (b : byte) : bool :=
  (lo <=? byte_value b) && (byte_value b <=? hi).

(** A continuation byte. *)
Definition continuation (b : byte) : bool := byte_in 128 191 b.

Definition two_byte (b0 b1 : byte) : bool := byte_in 194 223 b0 && continuation b1.

Definition three_byte (b0 b1 b2 : byte) : bool :=
  ((byte_in 224 224 b0 && byte_in 160 191 b1)
   || (byte_in 225 236 b0 && continuation b1)
   || (byte_in 237 237 b0 && byte_in 128 159 b1)
   || (byte_in 238 239 b0 && continuation b1))
  && continuation b2.

Definition four_byte (b0 b1 b2 b3 : byte) : bool :=
  ((byte_in 240 240 b0 && byte_in 144 191 b1)
   || (byte_in 241 243 b0 && continuation b1)
   || (byte_in 244 244 b0 && byte_in 128 143 b1))
  && continuation b2 && continuation b3.

Fixpoint utf8_valid (b : bytes) : bool :=
  match b with
  | [] => true
  | b0 :: r0 =>
      if byte_value b0 <? 128 then utf8_valid r0
      else match r0 with
      | [] => false
      | b1 :: r1 =>
          if two_byte b0 b1 then utf8_valid r1
          else match r1 with
          | [] => false
          | b2 :: r2 =>
              if three_byte b0 b1 b2 then utf8_valid r2
              else match r2 with
              | [] => false
              | b3 :: r3 => four_byte b0 b1 b2 b3 && utf8_valid r3
              end
          end
      end
  end.

(** ASCII text is valid. *)
Lemma utf8_ascii b : Forall (λ x, byte_value x < 128) b → utf8_valid b = true.
Proof.
  induction 1 as [|x b Hx _ IH]; [done|]. cbn [utf8_valid]. decide_Z. done.
Qed.

(** Valid strings concatenate. *)
Lemma utf8_app b c : utf8_valid b = true → utf8_valid c = true → utf8_valid (b ++ c) = true.
Proof.
  intros Hb Hc. remember (length b) as n eqn:Hn. revert b Hn Hb.
  induction n as [n IH] using lt_wf_ind. intros b -> Hb.
  destruct b as [|b0 r0]; [done|]. cbn [utf8_valid app] in *.
  destruct (byte_value b0 <? 128). { apply (IH (length r0)); [cbn; lia|done..]. }
  destruct r0 as [|b1 r1]; [done|]. cbn [app].
  destruct (two_byte b0 b1). { apply (IH (length r1)); [cbn; lia|done..]. }
  destruct r1 as [|b2 r2]; [done|]. cbn [app].
  destruct (three_byte b0 b1 b2). { apply (IH (length r2)); [cbn; lia|done..]. }
  destruct r2 as [|b3 r3]; [done|]. cbn [app].
  apply andb_true_iff in Hb as [H4 Hb]. rewrite H4. apply (IH (length r3)); [cbn; lia|done..].
Qed.
