(* ===== verification/WalRecord.v ===== *)
(** * WAL records and the WAL file header

    Models [crates/zeppelin-embed/src/wal/record.rs] (one record framed as
    [[payload_len:u32, seq:u64, op:u16, payload, checksum:u64]]) and
    [wal/header.rs] (the 32-byte shared header followed by the first sequence
    number), with every error the decoders return.  A [LogSeq] is its [u64]. *)

From S2P Require Import Prelude Format.

(** ** record.rs *)

Definition RECORD_HEADER_LEN : Z := 14.
Definition RECORD_CHECKSUM_LEN : Z := 8.
Definition MIN_RECORD_LEN : Z := RECORD_HEADER_LEN + RECORD_CHECKSUM_LEN.

Record WalRecord : Type := {
  wr_seq : Z;
  wr_op : Z;
  wr_payload : bytes;
}.

Record DecodedRecord : Type := {
  dr_record : WalRecord;
  dr_encoded_len : Z;
}.

Inductive RecordEncodeError : Type :=
| PayloadTooLarge (length : Z).

Inductive RecordError : Type :=
| HeaderTruncated (needed available : Z)
| LengthOverflow (payload_length : Z)
| BodyTruncated (payload_length needed available : Z)
| ChecksumMismatch (expected actual record_length : Z).

#[export] Instance WalRecord_eq_dec : EqDecision WalRecord.
Proof. solve_decision. Defined.

Definition framed_length (e : RecordError) : option Z :=
  match e with
  | ChecksumMismatch _ _ record_length => Some record_length
  | HeaderTruncated _ _ | LengthOverflow _ | BodyTruncated _ _ _ => None
  end.

Definition encoded_record_len (payload_len : Z) : result RecordEncodeError Z :=
  _ ← ok_or (try_from u32_max payload_len) (PayloadTooLarge payload_len);
  Ok (saturating_add usize_max MIN_RECORD_LEN payload_len).

(** [bytes.get(offset..offset.saturating_add(n))] followed by the conversion to
    an [n]-byte array, which fails when the slice is shorter. *)
Definition get_array (b : bytes) (offset n : Z) : option bytes :=
  raw ← slice_range b offset (saturating_add usize_max offset n);
  if len raw =? n then Some raw else None.

Definition record_read_u16 (b : bytes) (offset : Z) : result RecordError Z :=
  raw ← ok_or (get_array b offset 2) (HeaderTruncated RECORD_HEADER_LEN (len b));
  Ok (from_le raw).

Definition record_read_u32 (b : bytes) (offset : Z) : result RecordError Z :=
  raw ← ok_or (get_array b offset 4) (HeaderTruncated RECORD_HEADER_LEN (len b));
  Ok (from_le raw).

Definition record_read_u64 (b : bytes) (offset : Z) : result RecordError Z :=
  raw ← ok_or (get_array b offset 8)
          (BodyTruncated 0 (saturating_add usize_max offset 8) (len b));
  Ok (from_le raw).

Section Record.
Context {X : Xxh3}.

(** Appends one encoded record to [encoded]; the checksum is streamed over
    the same four byte groups that are written. *)
Definition append_record_into (record : WalRecord) (encoded : bytes)
    : result RecordEncodeError bytes :=
  payload_length ← ok_or (try_from u32_max (len (wr_payload record)))
                     (PayloadTooLarge (len (wr_payload record)));
  let payload_length_bytes := u32_le payload_length in
  let sequence_bytes := u64_le (wr_seq record) in
  let operation_bytes := u16_le (wr_op record) in
  let checksum := xxh3_new in
  let checksum := xxh3_update checksum payload_length_bytes in
  let checksum := xxh3_update checksum sequence_bytes in
  let checksum := xxh3_update checksum operation_bytes in
  let checksum := xxh3_update checksum (wr_payload record) in
  let encoded := encoded ++ payload_length_bytes in
  let encoded := encoded ++ sequence_bytes in
  let encoded := encoded ++ operation_bytes in
  let encoded := encoded ++ wr_payload record in
  Ok (encoded ++ u64_le (xxh3_digest checksum)).

(** [encode_record_into] clears its buffer and appends. *)
Definition encode_record_into (record : WalRecord) (_encoded : bytes)
    : result RecordEncodeError bytes :=
  append_record_into record [].

Definition encode_record (record : WalRecord) : result RecordEncodeError bytes :=
  _ ← encoded_record_len (len (wr_payload record));
  encode_record_into record [].

Definition decode_record (b : bytes) : result RecordError DecodedRecord :=
  if len b <? RECORD_HEADER_LEN
  then Err (HeaderTruncated RECORD_HEADER_LEN (len b))
  else
  payload_length ← record_read_u32 b 0;
  payload_length_usize ← ok_or (try_from usize_max payload_length)
                           (LengthOverflow payload_length);
  encoded_len ← ok_or (checked_add usize_max MIN_RECORD_LEN payload_length_usize)
                  (LengthOverflow payload_length);
  if len b <? encoded_len
  then Err (BodyTruncated payload_length encoded_len (len b))
  else
  let payload_end := saturating_add usize_max RECORD_HEADER_LEN payload_length_usize in
  payload ← ok_or (slice_range b RECORD_HEADER_LEN payload_end)
              (BodyTruncated payload_length encoded_len (len b));
  expected ← record_read_u64 b payload_end;
  checksummed ← ok_or (slice_to b payload_end)
                  (BodyTruncated payload_length encoded_len (len b));
  let actual := xxh3_64 checksummed in
  if negb (actual =? expected)
  then Err (ChecksumMismatch expected actual encoded_len)
  else
  seq ← record_read_u64 b 4;
  op ← record_read_u16 b 12;
  Ok {| dr_record := {| wr_seq := seq; wr_op := op; wr_payload := payload |};
        dr_encoded_len := encoded_len |}.
End Record.

(** ** header.rs *)

Definition WAL_HEADER_LEN : Z := FILE_HEADER_LEN + 8.

Record WalHeader : Type := { wh_first_seq : Z }.

Inductive WalHeaderError : Type :=
| HeaderMissing
| HeaderTruncatedAt (needed available : Z)
| WrongMagic (expected actual : bytes)
| WrongFamily (expected actual : Z)
| HeaderUnsupportedVersion (family version minimum maximum : Z)
| InvalidHeaderLength (expected actual : Z)
| NonZeroFileLength (actual : Z)
| InvalidSharedHeader (check : FormatCheck).

Definition encode_wal_header (first_seq : Z) : result RegistryError bytes :=
  let family := Wal in
  spec ← ok_or (List.find (λ c, bool_decide (fs_family c = family)) families)
           (UnknownFamily (family_id family));
  Ok (encode_header {| fh_magic := FILE_MAGIC; fh_family := family_id family;
                       fh_version := fs_current_version spec; fh_flags := 0;
                       fh_header_length := WAL_HEADER_LEN; fh_file_length := 0 |}
      ++ u64_le first_seq).

Definition invalid_shared_header (error : FormatError) : WalHeaderError :=
  InvalidSharedHeader (fe_check error).

Definition decode_wal_header (b : bytes) : result WalHeaderError WalHeader :=
  match b with
  | [] => Err HeaderMissing
  | _ =>
    if len b <? WAL_HEADER_LEN
    then Err (HeaderTruncatedAt WAL_HEADER_LEN (len b))
    else
    actual_magic ← ok_or (slice_to b 8) (HeaderTruncatedAt WAL_HEADER_LEN (len b));
    family ← map_err invalid_shared_header (read_u16 "WAL" b 8);
    version ← map_err invalid_shared_header (read_u16 "WAL" b 10);
    header_length ← map_err invalid_shared_header (read_u64 "WAL" b 16);
    common ← map_err (λ error,
        match fe_check error with
        | CheckMagic => WrongMagic FILE_MAGIC actual_magic
        | CheckFamily => WrongFamily (family_id Wal) family
        | CheckVersion =>
            match require family version with
            | Err (UnsupportedVersion family version minimum maximum) =>
                HeaderUnsupportedVersion family version minimum maximum
            | Ok _ | Err _ => InvalidSharedHeader CheckVersion
            end
        | CheckHeaderLength => InvalidHeaderLength WAL_HEADER_LEN header_length
        | check => InvalidSharedHeader check
        end)
      (decode_header "WAL" Wal b);
    if negb (fh_header_length common =? WAL_HEADER_LEN)
    then Err (InvalidHeaderLength WAL_HEADER_LEN (fh_header_length common))
    else
    if negb (fh_file_length common =? 0)
    then Err (NonZeroFileLength (fh_file_length common))
    else
    first_seq ← map_err invalid_shared_header (read_u64 "WAL" b FILE_HEADER_LEN);
    Ok {| wh_first_seq := first_seq |}
  end.

(** ** Record lemmas *)

Definition record_ok (r : WalRecord) : Prop :=
  is_u64 (wr_seq r) ∧ is_u16 (wr_op r) ∧ len (wr_payload r) ≤ u32_max.

(** The checksummed bytes of a record: everything but the checksum field. *)
Definition record_body (r : WalRecord) : bytes :=
  u32_le (len (wr_payload r)) ++ u64_le (wr_seq r) ++ u16_le (wr_op r) ++ wr_payload r.

Lemma len_record_body r : len (record_body r) = 14 + len (wr_payload r).
Proof. unfold record_body. autorewrite with zep_len. lia. Qed.

Lemma get_array_in b pre m post off n :
  b = pre ++ m ++ post → len pre = off → len m = n → off + n ≤ usize_max →
  get_array b off n = Some m.
Proof.
  intros -> <- <- H. unfold get_array, saturating_add.
  rewrite Z.min_r by lia. rewrite slice_range_app by lia. rsimpl. by rewrite Z.eqb_refl.
Qed.

Lemma get_array_Some b off n m :
  get_array b off n = Some m → 0 ≤ n →
  0 ≤ off ∧ off + n ≤ len b ∧ m = take (Z.to_nat n) (drop (Z.to_nat off) b) ∧ len m = n.
Proof.
  unfold get_array, saturating_add. intros H Hn.
  destruct (slice_range _ _ _) as [k|] eqn:Hk; rsimpl in H; [|done].
  destruct (Z.eqb_spec (len k) n) as [Hl|]; [|done]. injection H as ->.
  apply slice_range_Some in Hk as (Ho & Hb & Hm & Hlm).
  assert (Z.min usize_max (off + n) = off + n) as Hmin by lia. rewrite Hmin in *.
  split_and!; [lia|lia| |done]. rewrite Hm. f_equal. lia.
Qed.

Section RecordLemmas.
Context {X : Xxh3}.

Definition record_bytes (r : WalRecord) : bytes :=
  record_body r ++ u64_le (xxh3_64 (record_body r)).

Lemma len_record_bytes r : len (record_bytes r) = MIN_RECORD_LEN + len (wr_payload r).
Proof.
  unfold record_bytes, MIN_RECORD_LEN, RECORD_HEADER_LEN, RECORD_CHECKSUM_LEN.
  rewrite len_app, len_record_body, len_u64_le. lia.
Qed.

Lemma append_record_into_eq {L : Xxh3Laws X} r enc :
  append_record_into r enc =
  if len (wr_payload r) <=? u32_max then Ok (enc ++ record_bytes r)
  else Err (PayloadTooLarge (len (wr_payload r))).
Proof using Type.
  unfold append_record_into, try_from. pose proof (len_nonneg (wr_payload r)).
  destruct (Z.leb_spec (len (wr_payload r)) u32_max); decide_Z; rsimpl; [|done].
  cbv zeta. f_equal.
  pose proof (xxh3_stream [u32_le (len (wr_payload r)); u64_le (wr_seq r);
                           u16_le (wr_op r); wr_payload r]) as Hs.
  cbn [foldl concat] in Hs. rewrite app_nil_r in Hs. rewrite Hs.
  unfold record_bytes, record_body. by rewrite <- !app_assoc.
Qed.

(** The prefix of a record that holds its fixed header. *)
Lemma decode_record_read_len r b rest :
  len (wr_payload r) ≤ u32_max →
  b = record_body r ++ rest →
  record_read_u32 b 0 = Ok (len (wr_payload r)).
Proof.
  intros Hl ->. unfold record_read_u32.
  rewrite (get_array_in _ [] (u32_le (len (wr_payload r)))
             (u64_le (wr_seq r) ++ u16_le (wr_op r) ++ wr_payload r ++ rest) 0 4).
  - rsimpl. rewrite from_u32_le; [done|]. pose proof (len_nonneg (wr_payload r)). done.
  - unfold record_body. by rewrite <- !app_assoc.
  - done.
  - apply len_u32_le.
  - done.
Qed.

Lemma decode_record_app {L : Xxh3Laws X} r rest :
  record_ok r →
  decode_record (record_bytes r ++ rest) =
  Ok {| dr_record := r; dr_encoded_len := len (record_bytes r) |}.
Proof using Type.
  intros (Hs & Ho & Hp). pose proof (len_nonneg (wr_payload r)).
  pose proof (len_nonneg rest). pose proof (len_record_bytes r) as Hlr.
  unfold MIN_RECORD_LEN, RECORD_HEADER_LEN, RECORD_CHECKSUM_LEN, u32_max in *.
  set (b := record_bytes r ++ rest).
  assert (b = record_body r ++ u64_le (xxh3_64 (record_body r)) ++ rest) as F1
    by (unfold b, record_bytes; by rewrite <- app_assoc).
  assert (b = (u32_le (len (wr_payload r)) ++ u64_le (wr_seq r) ++ u16_le (wr_op r))
              ++ wr_payload r ++ u64_le (xxh3_64 (record_body r)) ++ rest) as F2
    by (rewrite F1; unfold record_body; by rewrite <- !app_assoc).
  assert (b = u32_le (len (wr_payload r)) ++ u64_le (wr_seq r) ++ (u16_le (wr_op r)
              ++ wr_payload r ++ u64_le (xxh3_64 (record_body r)) ++ rest)) as F3
    by (rewrite F2; by rewrite <- !app_assoc).
  assert (b = (u32_le (len (wr_payload r)) ++ u64_le (wr_seq r)) ++ u16_le (wr_op r)
              ++ (wr_payload r ++ u64_le (xxh3_64 (record_body r)) ++ rest)) as F4
    by (rewrite F2; by rewrite <- !app_assoc).
  assert (len b = 22 + len (wr_payload r) + len rest) as Hlb
    by (unfold b; rewrite len_app; lia).
  unfold decode_record, RECORD_HEADER_LEN, MIN_RECORD_LEN, RECORD_HEADER_LEN,
    RECORD_CHECKSUM_LEN. rewrite Hlb. decide_Z.
  rewrite (decode_record_read_len r b _ Hp F1). rsimpl.
  unfold try_from, checked_add, saturating_add, usize_max, u64_max.
  decide_Z. rsimpl. decide_Z. rsimpl. decide_Z. rewrite !Z.min_r by lia.
  rewrite F2 at 1. rewrite slice_range_app by (autorewrite with zep_len; lia). rsimpl.
  unfold record_read_u64.
  rewrite (get_array_in b _ _ _ (14 + len (wr_payload r)) 8 F1)
    by (unfold usize_max, u64_max; rewrite ?len_record_body, ?len_u64_le; lia).
  rsimpl. rewrite from_u64_le by apply xxh3_64_u64.
  rewrite F1 at 1. rewrite slice_to_app by (by rewrite len_record_body). rsimpl.
  rewrite Z.eqb_refl. rsimpl.
  rewrite (get_array_in b _ _ _ 4 8 F3) by (done || apply len_u32_le || apply len_u64_le).
  rsimpl. rewrite from_u64_le by done.
  unfold record_read_u16.
  rewrite (get_array_in b _ _ _ 12 2 F4)
    by (done || apply len_u16_le || (autorewrite with zep_len; lia)).
  rsimpl. rewrite from_u16_le by done. rewrite Hlr. by destruct r.
Qed.

(** A proper prefix of one record is always reported torn. *)
Lemma decode_record_torn r (n : nat) :
  record_ok r → Z.of_nat n < len (record_bytes r) →
  decode_record (take n (record_bytes r)) =
  Err (if Z.of_nat n <? RECORD_HEADER_LEN
       then HeaderTruncated RECORD_HEADER_LEN (Z.of_nat n)
       else BodyTruncated (len (wr_payload r)) (len (record_bytes r)) (Z.of_nat n)).
Proof.
  intros (_ & _ & Hp) Hn. pose proof (len_record_bytes r) as Hlr.
  pose proof (len_nonneg (wr_payload r)).
  assert (len (take n (record_bytes r)) = Z.of_nat n) as Hlt
    by (unfold len in *; rewrite length_take; lia).
  unfold decode_record. rewrite Hlt.
  unfold MIN_RECORD_LEN, RECORD_HEADER_LEN, RECORD_CHECKSUM_LEN, u32_max in *.
  destruct (Z.ltb_spec (Z.of_nat n) 14); [done|].
  assert (record_read_u32 (take n (record_bytes r)) 0 = Ok (len (wr_payload r))) as ->.
  { unfold record_read_u32.
    rewrite (get_array_in _ [] (u32_le (len (wr_payload r)))
               (take (n - 4) (u64_le (wr_seq r) ++ u16_le (wr_op r) ++ wr_payload r
                  ++ u64_le (xxh3_64 (record_body r)))) 0 4);
      [|symmetry; rewrite app_nil_l|done|apply len_u32_le|done].
    - rsimpl. by rewrite from_u32_le.
    - assert (record_bytes r = u32_le (len (wr_payload r)) ++ (u64_le (wr_seq r)
        ++ u16_le (wr_op r) ++ wr_payload r ++ u64_le (xxh3_64 (record_body r)))) as Hr
        by (unfold record_bytes; unfold record_body at 1; by rewrite <- !app_assoc).
      pose proof (len_u32_le (len (wr_payload r))) as H4. unfold len in H4 at 1.
      rewrite Hr, (take_app_ge (u32_le (len (wr_payload r)))) by lia. by rewrite (ltac:(lia) : length (u32_le (len (wr_payload r))) = 4%nat). }
  rsimpl. unfold try_from, checked_add, usize_max, u64_max. decide_Z. rsimpl.
  decide_Z. rsimpl. decide_Z. by rewrite Hlr.
Qed.

(** Only canonical encodings are accepted. *)
Lemma decode_record_sound b d :
  decode_record b = Ok d →
  record_ok (dr_record d) ∧ dr_encoded_len d = len (record_bytes (dr_record d))
  ∧ ∃ rest, b = record_bytes (dr_record d) ++ rest.
Proof.
  unfold decode_record, MIN_RECORD_LEN, RECORD_HEADER_LEN, RECORD_CHECKSUM_LEN. intros H.
  destruct (Z.ltb_spec (len b) 14); [done|].
  apply bind_Ok_inv in H as (pl & Hpl & H).
  unfold record_read_u32 in Hpl. destruct (get_array b 0 4) as [c4|] eqn:H4; [|done].
  rsimpl in Hpl. injection Hpl as Hpl.
  apply get_array_Some in H4 as (_ & _ & H4 & Hl4); [|lia].
  pose proof (from_le_bound _ _ Hl4) as Hb4.
  unfold try_from in H. destruct (andb _ _) eqn:Hb in H; rsimpl in H; [|done].
  unfold checked_add, saturating_add, usize_max, u64_max in H.
  destruct (Z.leb_spec (14 + 8 + pl) (2 ^ 64 - 1)); rsimpl in H; [|done].
  destruct (Z.ltb_spec (len b) (14 + 8 + pl)); [done|].
  rewrite !Z.min_r in H by lia.
  destruct (slice_range b 14 (14 + pl)) as [p|] eqn:Hp; rsimpl in H; [|done].
  apply slice_range_Some in Hp as (_ & _ & Hp & Hlp).
  apply bind_Ok_inv in H as (ck & Hck & H).
  unfold record_read_u64 in Hck, H.
  destruct (get_array b (14 + pl) 8) as [c8|] eqn:H8; [|done].
  rsimpl in Hck. injection Hck as Hck.
  apply get_array_Some in H8 as (_ & _ & H8 & Hl8); [|lia].
  destruct (slice_to b (14 + pl)) as [body|] eqn:Hbody; rsimpl in H; [|done].
  apply slice_to_Some in Hbody as (_ & Hbody & _).
  destruct (Z.eqb_spec (xxh3_64 body) ck) as [Hsum|]; rsimpl in H; [|done].
  destruct (get_array b 4 8) as [cs|] eqn:Hseq; rsimpl in H; [|done].
  apply get_array_Some in Hseq as (_ & _ & Hseq & Hls); [|lia].
  unfold record_read_u16 in H. destruct (get_array b 12 2) as [co|] eqn:Hop; rsimpl in H; [|done].
  apply get_array_Some in Hop as (_ & _ & Hop & Hlo); [|lia].
  injection H as <-. cbn [dr_record dr_encoded_len].
  assert (pl = len p) as -> by lia.
  set (r := {| wr_seq := from_le cs; wr_op := from_le co; wr_payload := p |}).
  assert (record_body r = body) as Hrb.
  { unfold record_body, r. cbn [wr_payload wr_seq wr_op]. rewrite <- Hpl.
    rewrite u32_le_from, u64_le_from, u16_le_from by done.
    rewrite H4, Hseq, Hop, Hbody, Hp at 1.
    change (Z.to_nat 4) with 4%nat; change (Z.to_nat 8) with 8%nat;
    change (Z.to_nat 2) with 2%nat; change (Z.to_nat 12) with (4 + 8)%nat;
    change (Z.to_nat 14) with (4 + 8 + 2)%nat. change (Z.to_nat 0) with 0%nat.
    rewrite drop_0, !app_assoc, !take_take_drop. f_equal. lia. }
  pose proof (from_le_bound _ _ Hls); pose proof (from_le_bound _ _ Hlo).
  split_and!.
  - unfold record_ok, r, is_u64, is_u16, u64_max, u16_max, u32_max.
    cbn [wr_payload wr_seq wr_op]. lia.
  - rewrite len_record_bytes. unfold MIN_RECORD_LEN, RECORD_HEADER_LEN,
      RECORD_CHECKSUM_LEN, r. done.
  - exists (drop (Z.to_nat (22 + len p)) b). unfold record_bytes. rewrite Hrb, Hsum, <- Hck.
    rewrite u64_le_from by done. rewrite H8, Hbody, take_take_drop.
    rewrite <- (take_drop (Z.to_nat (22 + len p)) b) at 1. do 2 f_equal. lia.
Qed.
End RecordLemmas.

(** ** Header lemmas *)

Definition wal_header_fields : FileHeader :=
  {| fh_magic := FILE_MAGIC; fh_family := family_id Wal; fh_version := 1; fh_flags := 0;
     fh_header_length := WAL_HEADER_LEN; fh_file_length := 0 |}.

Definition wal_header_bytes (first_seq : Z) : bytes :=
  encode_header wal_header_fields ++ u64_le first_seq.

Lemma encode_wal_header_eq first_seq :
  encode_wal_header first_seq = Ok (wal_header_bytes first_seq).
Proof. done. Qed.

Lemma len_wal_header_bytes first_seq : len (wal_header_bytes first_seq) = WAL_HEADER_LEN.
Proof. unfold wal_header_bytes. by rewrite len_app, len_u64_le, len_encode_header. Qed.

Lemma wal_header_ok : header_ok Wal wal_header_fields.
Proof. by vm_compute. Qed.

Lemma decode_wal_header_app first_seq rest :
  is_u64 first_seq →
  decode_wal_header (wal_header_bytes first_seq ++ rest) =
  Ok {| wh_first_seq := first_seq |}.
Proof.
  intros Hs. set (b := wal_header_bytes first_seq ++ rest).
  assert (b = encode_header wal_header_fields ++ u64_le first_seq ++ rest) as Hb
    by (unfold b, wal_header_bytes; by rewrite <- app_assoc).
  assert (len b = WAL_HEADER_LEN + len rest) as Hl
    by (unfold b; by rewrite len_app, len_wal_header_bytes).
  pose proof (len_nonneg rest).
  unfold decode_wal_header. destruct b as [|x b'] eqn:Hbeq.
  { rewrite len_nil in Hl. unfold WAL_HEADER_LEN, FILE_HEADER_LEN in Hl. lia. }
  rewrite <- Hbeq in *. rewrite Hl. decide_Z.
  assert (slice_to b 8 = Some FILE_MAGIC) as ->.
  { rewrite Hb. unfold encode_header. rewrite <- app_assoc. by apply slice_to_app. }
  rsimpl.
  assert (∃ v, read_u16 "WAL" b 8 = Ok v) as [v8 ->].
  { eexists. rewrite Hb. apply (read_u16_at "WAL" FILE_MAGIC (family_id Wal)); done. }
  rsimpl.
  assert (∃ v, read_u16 "WAL" b 10 = Ok v) as [v10 ->].
  { eexists. rewrite Hb. unfold encode_header. rewrite <- !app_assoc, (app_assoc FILE_MAGIC).
    apply read_u16_at; [|by autorewrite with zep_len]. done. }
  rsimpl.
  assert (∃ v, read_u64 "WAL" b 16 = Ok v) as [v16 ->].
  { eexists. rewrite Hb. unfold encode_header. rewrite <- !app_assoc, 3!app_assoc.
    apply read_u64_at; [|by autorewrite with zep_len]. done. }
  rsimpl. rewrite Hb, (decode_encode_header "WAL" Wal) by apply wal_header_ok. rsimpl.
  rewrite read_u64_at by done. done.
Qed.

Lemma decode_wal_header_torn first_seq (n : nat) :
  Z.of_nat n < WAL_HEADER_LEN →
  decode_wal_header (take n (wal_header_bytes first_seq)) =
  Err (if bool_decide (n = 0%nat) then HeaderMissing
       else HeaderTruncatedAt WAL_HEADER_LEN (Z.of_nat n)).
Proof.
  intros Hn. pose proof (len_wal_header_bytes first_seq) as Hl.
  assert (len (take n (wal_header_bytes first_seq)) = Z.of_nat n) as Hlt
    by (unfold len in *; rewrite length_take; lia).
  unfold decode_wal_header. destruct (take _ _) as [|x l] eqn:Ht.
  - rewrite len_nil in Hlt. rewrite bool_decide_eq_true_2 by lia. done.
  - rewrite Hlt. decide_Z. rewrite bool_decide_eq_false_2; [done|].
    rewrite len_cons in Hlt. pose proof (len_nonneg l). lia.
Qed.
