(* ===== verification/WalReplay.v ===== *)
(** * Checked WAL replay and recovery

    Models [crates/zeppelin-embed/src/wal/replay.rs] (the trusted-prefix
    replay with its corruption classification) and, from [wal/mod.rs], the
    recovery side: [VisibleRecord], [WalReader], [CleanWalReader] and
    [encode_wal_image].

    The replay loop runs on explicit fuel, one unit per record or final test;
    [replay] supplies one more unit than the image has bytes and
    [replay_loop_total] shows that this never runs out. *)

From S2P Require Import Prelude Format WalRecord.

(** ** replay.rs *)

Inductive CorruptionLocation : Type := Tail | Middle.

Inductive CorruptionReason : Type :=
| ReasonRecord (location : CorruptionLocation) (error : RecordError)
| FirstSequenceMismatch (expected actual : Z) (location : CorruptionLocation)
| SequenceGap (expected actual : Z) (location : CorruptionLocation)
| SequenceRegression (expected actual : Z) (location : CorruptionLocation).

Inductive ReplayTerminator : Type :=
| InvalidHeader (error : WalHeaderError)
| CleanEnd
| CorruptAt (offset : Z) (reason : CorruptionReason).

Record ReplayResult : Type := {
  rr_records : list WalRecord;
  rr_terminator : ReplayTerminator;
}.

(** [.get(offset..).filter(|tail| !tail.is_empty())]. *)
Definition nonempty_from (b : bytes) (offset : Z) : option bytes :=
  match slice_from b offset with
  | Some (x :: l) => Some (x :: l)
  | _ => None
  end.

Section Replay.
Context {X : Xxh3}.

Definition successor_location (b : bytes) (offset : Z) : CorruptionLocation :=
  match (successor ← nonempty_from b offset; ok (decode_record successor)) with
  | Some _ => Middle
  | None => Tail
  end.

Fixpoint replay_loop (fuel : nat) (b : bytes) (offset expected : Z)
    (records : list WalRecord) : option ReplayResult :=
  match fuel with
  | O => None
  | S fuel =>
    match nonempty_from b offset with
    | None => Some {| rr_records := records; rr_terminator := CleanEnd |}
    | Some remaining =>
      match decode_record remaining with
      | Err error =>
          let location :=
            match (length ← framed_length error; checked_add usize_max offset length) with
            | None => Tail
            | Some next => successor_location b next
            end in
          Some {| rr_records := records;
                  rr_terminator := CorruptAt offset (ReasonRecord location error) |}
      | Ok decoded =>
          let next := saturating_add usize_max offset (dr_encoded_len decoded) in
          let actual := wr_seq (dr_record decoded) in
          if negb (actual =? expected) then
            let location := successor_location b next in
            let reason :=
              match records with
              | [] => FirstSequenceMismatch expected actual location
              | _ => if expected <? actual
                     then SequenceGap expected actual location
                     else SequenceRegression expected actual location
              end in
            Some {| rr_records := records; rr_terminator := CorruptAt offset reason |}
          else
            replay_loop fuel b next (saturating_add u64_max expected 1)
              (records ++ [dr_record decoded])
      end
    end
  end.

Definition replay (b : bytes) : option ReplayResult :=
  match decode_wal_header b with
  | Err error =>
      Some {| rr_records := []; rr_terminator := InvalidHeader error |}
  | Ok header =>
      replay_loop (S (length b)) b WAL_HEADER_LEN (wh_first_seq header) []
  end.
End Replay.

(** ** Retained records ([wal/mod.rs]) *)

(** [encoded] is the shared allocation ([Arc<Vec<u8>>]); no operation mutates it
    after publication, so sharing is by value. *)
Record VisibleRecord : Type := {
  vr_seq : Z;
  vr_op : Z;
  vr_encoded : bytes;
  vr_range : Z * Z;
}.

Inductive VisibleRecordError : Type :=
| InvalidEncodedRange (start end_ available : Z)
| VisibleRecordRecord (error : RecordError).

Definition visible_encoded (v : VisibleRecord) : result VisibleRecordError bytes :=
  ok_or (slice_range (vr_encoded v) (vr_range v).1 (vr_range v).2)
    (InvalidEncodedRange (vr_range v).1 (vr_range v).2 (len (vr_encoded v))).

Definition visible_encoded_len (v : VisibleRecord) : Z :=
  saturating_sub (vr_range v).2 (vr_range v).1.

(** ** Recovery *)

Record WalReader : Type := {
  rd_records : list VisibleRecord;
  rd_next_seq : Z;
  rd_durable_end : Z;
  rd_terminator : option ReplayTerminator;
}.

Record CleanWalReader : Type := {
  cl_records : list VisibleRecord;
  cl_next_seq : Z;
  cl_durable_end : option Z;
}.

Inductive WalReadError : Type :=
| ReadIo (kind : ErrorKind)
| ReadHeader (error : WalHeaderError)
| InvalidRecoveredRange (start end_ available : Z).

Inductive WalRecoveryError : Type :=
| MissingFile
| RecoveryInvalidHeader (error : WalHeaderError)
| RecoveryCorruptAt (offset : Z) (reason : CorruptionReason).

(** The running [offset] of [WalReader::open]'s record walk. *)
Fixpoint recovered_ranges (offset : Z) (records : list WalRecord) : list (WalRecord * (Z * Z)) :=
  match records with
  | [] => []
  | record :: records =>
      let encoded_len := saturating_add usize_max MIN_RECORD_LEN (len (wr_payload record)) in
      let end_ := saturating_add usize_max offset encoded_len in
      (record, (offset, end_)) :: recovered_ranges end_ records
  end.

Definition recover_record (b : bytes) (rec : WalRecord * (Z * Z))
    : result WalReadError VisibleRecord :=
  let '(record, (start, end_)) := rec in
  encoded ← ok_or (slice_range b start end_) (InvalidRecoveredRange start end_ (len b));
  Ok {| vr_seq := wr_seq record; vr_op := wr_op record;
        vr_encoded := encoded; vr_range := (0, len encoded) |}.

Inductive WalWriteError : Type :=
| NonEmptyWal (length : Z)
| RecoveredBytesOverflow
| GroupTooLarge (encoded_bytes max_group_bytes : Z)
| SequenceExhausted
| WriteHeader (error : RegistryError)
| WriteRecord (error : RecordEncodeError)
| Poisoned (detail : string)
| Failed (kind : ErrorKind).

Section Recovery.
Context {X : Xxh3}.

(** [VisibleRecord::payload], through [decode_visible]. *)
Definition visible_payload (v : VisibleRecord) : result VisibleRecordError bytes :=
  encoded ← visible_encoded v;
  map_err VisibleRecordRecord ((λ d, wr_payload (dr_record d)) <$> decode_record encoded).

(** [WalReader::open]; [read] is the outcome of [vfs.read(path)].  [None] is
    a replay out of fuel, which [reader_open_ok] excludes. *)
Definition reader_open (read : result ErrorKind bytes)
    : option (result WalReadError WalReader) :=
  match read with
  | Err NotFound =>
      Some (Ok {| rd_records := []; rd_next_seq := 0; rd_durable_end := 0;
                  rd_terminator := None |})
  | Err kind => Some (Err (ReadIo kind))
  | Ok b =>
      replayed ← replay b;
      let terminator := rr_terminator replayed in
      match terminator with
      | InvalidHeader _ =>
          Some (Ok {| rd_records := []; rd_next_seq := 0; rd_durable_end := 0;
                      rd_terminator := Some terminator |})
      | _ => Some (
          header ← map_err ReadHeader (decode_wal_header b);
          records ← mapM (recover_record b)
                      (recovered_ranges WAL_HEADER_LEN (rr_records replayed));
          let durable_end :=
            match last records with
            | None => saturating_sub (wh_first_seq header) 1
            | Some record => vr_seq record
            end in
          let next_seq :=
            match last records with
            | None => wh_first_seq header
            | Some record => saturating_add u64_max (vr_seq record) 1
            end in
          Ok {| rd_records := records; rd_next_seq := next_seq;
                rd_durable_end := durable_end; rd_terminator := Some terminator |})
      end
  end.

Definition into_clean (r : WalReader) : result WalRecoveryError CleanWalReader :=
  match rd_terminator r with
  | Some CleanEnd =>
      Ok {| cl_records := rd_records r; cl_next_seq := rd_next_seq r;
            cl_durable_end := Some (rd_durable_end r) |}
  | Some (InvalidHeader error) => Err (RecoveryInvalidHeader error)
  | Some (CorruptAt offset reason) => Err (RecoveryCorruptAt offset reason)
  | None => Err MissingFile
  end.

(** The loop of [encode_wal_image]. *)
Fixpoint encode_image_records (sequence : Z) (records : list (Z * bytes))
    (encoded : bytes) : result WalWriteError bytes :=
  match records with
  | [] => Ok encoded
  | (op, payload) :: records =>
      encoded ← map_err WriteRecord
        (append_record_into {| wr_seq := sequence; wr_op := op; wr_payload := payload |}
           encoded);
      sequence ← ok_or (checked_add u64_max sequence 1) SequenceExhausted;
      encode_image_records sequence records encoded
  end.

Definition encode_wal_image (first_seq : Z) (records : list (Z * bytes))
    : result WalWriteError bytes :=
  encoded ← map_err WriteHeader (encode_wal_header first_seq);
  encode_image_records first_seq records encoded.
End Recovery.

Definition DEFAULT_MAX_GROUP_BYTES : Z := 1048576.
Definition DEFAULT_MAX_GROUP_BYTES_DURABLE : Z := 16 * 1048576.

(** [WalReader::into_graph_prefix]: a torn final body no longer than one durable
    group is treated as a clean end. *)
Definition into_graph_prefix (r : WalReader) : result WalRecoveryError CleanWalReader :=
  let terminator :=
    match rd_terminator r with
    | Some (CorruptAt _ (ReasonRecord Tail (BodyTruncated _ needed _))) =>
        if needed <=? DEFAULT_MAX_GROUP_BYTES_DURABLE then Some CleanEnd
        else rd_terminator r
    | t => t
    end in
  into_clean {| rd_records := rd_records r; rd_next_seq := rd_next_seq r;
                rd_durable_end := rd_durable_end r; rd_terminator := terminator |}.

(** ** Specification of replay *)

(** Sequence numbers increase by exactly one from [s]. *)
Fixpoint sequenced (s : Z) (rs : list WalRecord) : Prop :=
  match rs with
  | [] => True
  | r :: rs => wr_seq r = s ∧ sequenced (s + 1) rs
  end.

(** What the replay loop asks of sequences: it advances the expected one with
    [saturating_add], so that it takes repetitions of [u64::MAX]. *)
Fixpoint accepted (s : Z) (rs : list WalRecord) : Prop :=
  match rs with
  | [] => True
  | r :: rs => wr_seq r = s ∧ accepted (saturating_add u64_max s 1) rs
  end.

Lemma sequenced_accepted rs : ∀ s, Forall record_ok rs → sequenced s rs → accepted s rs.
Proof.
  induction rs as [|r rs IH]; intros s Hok Hs; [done|]. destruct Hs as [Hr Hs]. split; [done|].
  apply Forall_cons in Hok as [_ Hok]. destruct rs as [|r' rs]; [done|].
  assert (s + 1 ≤ u64_max) as Hle.
  { apply Forall_cons in Hok as [[[_ Hu] _] _]. destruct Hs as [Hr' _]. by rewrite Hr' in Hu. }
  unfold saturating_add. rewrite Z.min_r by done. by apply IH.
Qed.

Lemma accepted_max rs : accepted u64_max rs → Forall (λ r, wr_seq r = u64_max) rs.
Proof. induction rs as [|r rs IH]; intros H; [done|]. destruct H. constructor; [done|by apply IH]. Qed.

(** Accepted records are consecutive up to [u64::MAX], and repeat it from there. *)
Lemma accepted_split rs : ∀ s, is_u64 s → accepted s rs →
  ∃ fresh repeats, rs = fresh ++ repeats ∧ sequenced s fresh
    ∧ Forall (λ r, wr_seq r = u64_max) repeats ∧ (repeats ≠ [] → s + len fresh = u64_max + 1).
Proof.
  induction rs as [|r rs IH]; intros s Hs H; [by exists [], []|]. destruct H as [Hr H].
  unfold is_u64 in *. destruct (decide (s = u64_max)) as [->|Hne].
  - exists [r], rs. split_and!; [done|by split|by apply accepted_max|]. intros _. rewrite len_cons, len_nil. lia.
  - unfold saturating_add in H. rewrite Z.min_r in H by lia.
    destruct (IH (s + 1)) as (fresh & repeats & -> & H1 & H2 & H3); [lia|done|].
    exists (r :: fresh), repeats. split_and!; [done|by split|done|]. intros Hne'. specialize (H3 Hne').
    rewrite len_cons. lia.
Qed.

Lemma nonempty_from_end (b : bytes) n : n = len b → nonempty_from b n = None.
Proof.
  intros ->. unfold nonempty_from. rewrite <- (app_nil_r b) at 1.
  by rewrite slice_from_app.
Qed.

Lemma nonempty_from_app (pre rest : bytes) n :
  n = len pre → rest ≠ [] → nonempty_from (pre ++ rest) n = Some rest.
Proof.
  intros -> Hr. unfold nonempty_from. rewrite slice_from_app by done.
  by destruct rest.
Qed.

Section ReplaySpec.
Context {X : Xxh3}.

Definition records_bytes (rs : list WalRecord) : bytes := concat (map record_bytes rs).

(** The log image of [rs] starting at [first_seq]. *)
Definition wal_image (first_seq : Z) (rs : list WalRecord) : bytes :=
  wal_header_bytes first_seq ++ records_bytes rs.

(** The records that fit completely in the first [budget] bytes. *)
Fixpoint whole_records (budget : Z) (rs : list WalRecord) : list WalRecord :=
  match rs with
  | [] => []
  | r :: rs =>
      if len (record_bytes r) <=? budget
      then r :: whole_records (budget - len (record_bytes r)) rs else []
  end.

(** How replay stops on an image cut after [budget] record bytes. *)
Fixpoint cut_terminator (offset budget : Z) (rs : list WalRecord) : ReplayTerminator :=
  match rs with
  | [] => CleanEnd
  | r :: rs =>
      let n := len (record_bytes r) in
      if n <=? budget then cut_terminator (offset + n) (budget - n) rs
      else if budget =? 0 then CleanEnd
      else CorruptAt offset (ReasonRecord Tail
             (if budget <? RECORD_HEADER_LEN
              then HeaderTruncated RECORD_HEADER_LEN budget
              else BodyTruncated (len (wr_payload r)) n budget))
  end.

Lemma records_bytes_cons r rs :
  records_bytes (r :: rs) = record_bytes r ++ records_bytes rs.
Proof. done. Qed.

Lemma records_bytes_app rs rs' :
  records_bytes (rs ++ rs') = records_bytes rs ++ records_bytes rs'.
Proof. unfold records_bytes. by rewrite map_app, concat_app. Qed.

Lemma len_record_bytes_ge r : 22 ≤ len (record_bytes r).
Proof.
  rewrite len_record_bytes. unfold MIN_RECORD_LEN, RECORD_HEADER_LEN, RECORD_CHECKSUM_LEN.
  pose proof (len_nonneg (wr_payload r)). lia.
Qed.

Lemma len_records_bytes_ge rs : len rs ≤ len (records_bytes rs).
Proof.
  induction rs as [|r rs IH]; [done|]. rewrite records_bytes_cons, len_cons, len_app.
  pose proof (len_record_bytes_ge r). lia.
Qed.

Lemma len_whole_records budget rs :
  0 ≤ budget → len (whole_records budget rs) ≤ budget.
Proof.
  revert budget. induction rs as [|r rs IH]; intros budget Hb; [done|]. cbn [whole_records].
  pose proof (len_record_bytes_ge r). case_Z; [|done]. rewrite len_cons.
  specialize (IH (budget - len (record_bytes r))). lia.
Qed.

Lemma replay_loop_ok {L : Xxh3Laws X} fuel b pre r rest exp acc :
  b = pre ++ record_bytes r ++ rest → record_ok r → wr_seq r = exp → len b ≤ usize_max →
  replay_loop (S fuel) b (len pre) exp acc =
  replay_loop fuel b (len (pre ++ record_bytes r)) (saturating_add u64_max exp 1) (acc ++ [r]).
Proof using Type.
  intros Hb Hr Hs Hl. cbn [replay_loop].
  pose proof (len_record_bytes_ge r) as H22.
  rewrite (ltac:(rewrite Hb; apply nonempty_from_app; [done|]; intros [H0 _]%app_eq_nil;
                 by rewrite H0 in H22)
           : nonempty_from b (len pre) = Some (record_bytes r ++ rest)).
  rewrite decode_record_app by done. cbn [dr_record dr_encoded_len].
  rewrite Hs, Z.eqb_refl. rsimpl.
  assert (saturating_add usize_max (len pre) (len (record_bytes r))
          = len (pre ++ record_bytes r)) as ->; [|done].
  unfold saturating_add. rewrite len_app. rewrite Hb, !len_app in Hl.
  pose proof (len_nonneg rest). lia.
Qed.

Lemma replay_loop_cut {L : Xxh3Laws X} rs : ∀ fuel b pre (m : nat) exp acc,
  b = pre ++ take m (records_bytes rs) → Forall record_ok rs → accepted exp rs →
  len b ≤ usize_max → (length (whole_records (Z.of_nat m) rs) < fuel)%nat →
  (m ≤ length (records_bytes rs))%nat →
  replay_loop fuel b (len pre) exp acc =
  Some {| rr_records := acc ++ whole_records (Z.of_nat m) rs;
          rr_terminator := cut_terminator (len pre) (Z.of_nat m) rs |}.
Proof using Type.
  induction rs as [|r rs IH]; intros fuel b pre m exp acc Hb Hok Hseq Hl Hf Hm.
  { destruct fuel; [simpl in Hf; lia|].
    change (records_bytes []) with (@nil byte) in Hb.
    rewrite take_nil, app_nil_r in Hb. subst b. cbn [replay_loop].
    by rewrite nonempty_from_end, app_nil_r. }
  destruct fuel as [|fuel]; [lia|].
  apply Forall_cons in Hok as [Hr Hok]. destruct Hseq as [Hs Hseq].
  rewrite records_bytes_cons in Hb, Hm. rewrite length_app in Hm.
  cbn [whole_records cut_terminator] in *.
  destruct (Z.leb_spec (len (record_bytes r)) (Z.of_nat m)) as [Hfit|Hcut].
  - assert (Z.of_nat (m - length (record_bytes r)) = Z.of_nat m - len (record_bytes r))
      as Hmr by (unfold len in *; lia).
    rewrite take_app_ge in Hb by (unfold len in Hfit; lia).
    rewrite (replay_loop_ok fuel b pre r _ exp acc Hb Hr Hs Hl).
    rewrite (IH fuel b (pre ++ record_bytes r) (m - length (record_bytes r))%nat
               _ (acc ++ [r])); [|by rewrite Hb, <- app_assoc|done..| |lia];
      [|rewrite Hmr; simpl in Hf; lia].
    rewrite <- app_assoc, len_app, Hmr. done.
  - rewrite take_app_le in Hb by (unfold len in Hcut; lia). rewrite app_nil_r.
    cbn [replay_loop]. destruct m as [|m'].
    { rewrite take_0, app_nil_r in Hb. subst b. by rewrite nonempty_from_end. }
    rewrite Hb at 1. rewrite nonempty_from_app; [|done|].
    2:{ intros H0. apply (f_equal length) in H0. rewrite length_take in H0.
        unfold len in Hcut. change (length []) with 0%nat in H0. lia. }
    rewrite decode_record_torn by done. decide_Z.
    by destruct (Z.of_nat (S m') <? RECORD_HEADER_LEN).
Qed.

(** Replay of an image cut at any byte. *)
Lemma replay_cut_accepted {L : Xxh3Laws X} (first_seq : Z) (rs : list WalRecord) (n : nat) :
  is_u64 first_seq → Forall record_ok rs → accepted first_seq rs →
  len (wal_image first_seq rs) ≤ isize_max → (n ≤ length (wal_image first_seq rs))%nat →
  replay (take n (wal_image first_seq rs)) =
  Some (if Z.of_nat n <? WAL_HEADER_LEN
        then {| rr_records := [];
                rr_terminator := InvalidHeader
                  (if bool_decide (n = 0%nat) then HeaderMissing
                   else HeaderTruncatedAt WAL_HEADER_LEN (Z.of_nat n)) |}
        else {| rr_records := whole_records (Z.of_nat n - WAL_HEADER_LEN) rs;
                rr_terminator :=
                  cut_terminator WAL_HEADER_LEN (Z.of_nat n - WAL_HEADER_LEN) rs |}).
Proof using Type.
  intros Hs Hok Hseq Hl Hn. unfold wal_image in *.
  pose proof (len_wal_header_bytes first_seq) as Hh. unfold replay.
  destruct (Z.ltb_spec (Z.of_nat n) WAL_HEADER_LEN) as [Hlt|Hge].
  { rewrite take_app_le by (unfold len in Hh; lia). by rewrite decode_wal_header_torn. }
  rewrite length_app in Hn. rewrite take_app_ge by (unfold len in Hh; lia).
  rewrite decode_wal_header_app by done. cbn [wh_first_seq].
  set (m := (n - length (wal_header_bytes first_seq))%nat).
  rewrite <- Hh. rewrite (replay_loop_cut rs _ _ (wal_header_bytes first_seq) m);
    [|done..| | |unfold m; lia].
  - rewrite app_nil_l. replace (Z.of_nat m)
      with (Z.of_nat n - len (wal_header_bytes first_seq)) by (unfold m, len in *; lia).
    done.
  - rewrite len_app in *. unfold usize_max, u64_max, isize_max in *.
    pose proof (len_nonneg (records_bytes rs)). unfold len in *.
    rewrite length_take. lia.
  - pose proof (len_whole_records (Z.of_nat m) rs) as Hw. rewrite length_app, length_take.
    unfold len, m in *. lia.
Qed.

Lemma replay_cut {L : Xxh3Laws X} (first_seq : Z) (rs : list WalRecord) (n : nat) :
  is_u64 first_seq → Forall record_ok rs → sequenced first_seq rs →
  len (wal_image first_seq rs) ≤ isize_max → (n ≤ length (wal_image first_seq rs))%nat →
  replay (take n (wal_image first_seq rs)) =
  Some (if Z.of_nat n <? WAL_HEADER_LEN
        then {| rr_records := [];
                rr_terminator := InvalidHeader
                  (if bool_decide (n = 0%nat) then HeaderMissing
                   else HeaderTruncatedAt WAL_HEADER_LEN (Z.of_nat n)) |}
        else {| rr_records := whole_records (Z.of_nat n - WAL_HEADER_LEN) rs;
                rr_terminator :=
                  cut_terminator WAL_HEADER_LEN (Z.of_nat n - WAL_HEADER_LEN) rs |}).
Proof using Type. intros Hs Hok Hseq. by apply replay_cut_accepted, sequenced_accepted. Qed.

Lemma nonempty_from_Some (b rest : bytes) off :
  nonempty_from b off = Some rest →
  0 ≤ off < len b ∧ rest = drop (Z.to_nat off) b ∧ rest ≠ [].
Proof.
  unfold nonempty_from. destruct (slice_from b off) as [[|x l]|] eqn:Hs; [done| |done].
  intros [= <-]. apply slice_from_Some in Hs as [Hr Hl]. split_and!; [lia| |done|done].
  destruct (decide (off = len b)) as [->|]; [|lia].
  rewrite to_nat_len, drop_all in Hl. done.
Qed.

Lemma nonempty_from_None (b : bytes) off :
  nonempty_from b off = None → 0 ≤ off ≤ len b → off = len b.
Proof.
  unfold nonempty_from. intros H Hr. destruct (slice_from b off) as [l|] eqn:Hs.
  - destruct l; [|done]. apply slice_from_Some in Hs as [_ Hl].
    apply (f_equal len) in Hl. unfold len in *. rewrite length_drop in Hl.
    change (length []) with 0%nat in Hl. lia.
  - unfold slice_from in Hs. destruct (Z.leb_spec 0 off), (Z.leb_spec off (len b));
      simpl in Hs; (done || lia).
Qed.

(** What replay says about the bytes after the trusted prefix. *)
Definition stop_justified (t : ReplayTerminator) (off exp : Z) (rest : bytes) : Prop :=
  match t with
  | CleanEnd => rest = []
  | CorruptAt o _ =>
      o = off ∧ rest ≠ [] ∧ ∀ d, decode_record rest = Ok d → wr_seq (dr_record d) ≠ exp
  | InvalidHeader _ => False
  end.

Lemma replay_loop_sound fuel : ∀ b off exp acc res,
  replay_loop fuel b off exp acc = Some res → 0 ≤ off ≤ len b → len b ≤ isize_max →
  is_u64 exp →
  ∃ rs rest,
    rr_records res = acc ++ rs ∧ Forall record_ok rs ∧ accepted exp rs
    ∧ drop (Z.to_nat off) b = records_bytes rs ++ rest
    ∧ stop_justified (rr_terminator res) (off + len (records_bytes rs))
        (Z.min u64_max (exp + len rs)) rest.
Proof.
  induction fuel as [|fuel IH]; intros b off exp acc res H Hoff Hb He; [done|].
  cbn [replay_loop] in H. destruct (nonempty_from b off) as [rem|] eqn:Hrem.
  2:{ injection H as <-. apply nonempty_from_None in Hrem; [|done].
      exists [], []. cbn. rewrite app_nil_r, Hrem, to_nat_len, drop_all. done. }
  apply nonempty_from_Some in Hrem as (Hr & Hrem & Hne).
  destruct (decode_record rem) as [d|e] eqn:Hd.
  2:{ injection H as <-. exists [], rem. rewrite app_nil_r. cbn. split_and!; try done.
      - by rewrite len_nil, Z.add_0_r.
      - intros d' Hd'. by rewrite Hd in Hd'. }
  pose proof (decode_record_sound _ _ Hd) as (Hrok & Hlen & rest & Hrest).
  destruct (Z.eqb_spec (wr_seq (dr_record d)) exp) as [Hs|Hs]; rsimpl in H.
  2:{ injection H as <-. exists [], rem. rewrite app_nil_r. cbn. split_and!; try done.
      - by rewrite len_nil, Z.add_0_r.
      - intros d' Hd'. rewrite Hd in Hd'. injection Hd' as <-.
        pose proof (proj1 Hrok). unfold is_u64, u64_max in *. rewrite len_nil. lia. }
  set (r := dr_record d) in *.
  assert (len rem = len b - off) as Hlrem
    by (rewrite Hrem; unfold len in *; rewrite length_drop; lia).
  rewrite Hrest, len_app in Hlrem. pose proof (len_nonneg rest).
  pose proof (len_record_bytes_ge r).
  assert (saturating_add usize_max off (dr_encoded_len d) = off + len (record_bytes r))
    as Hnext by (rewrite Hlen; unfold saturating_add, usize_max, u64_max, isize_max in *; lia).
  rewrite Hnext in H. apply IH in H as (rs & rest' & G1 & G2 & G3 & G4 & G5);
    [|lia|lia|unfold saturating_add, is_u64, u64_max in *; lia].
  exists (r :: rs), rest'. split_and!.
  - by rewrite G1, <- app_assoc.
  - by constructor.
  - done.
  - rewrite records_bytes_cons, <- app_assoc, <- G4, <- Hrem, Hrest.
    f_equal. replace (Z.to_nat (off + len (record_bytes r)))
      with (Z.to_nat off + length (record_bytes r))%nat by (unfold len; lia).
    by rewrite <- drop_drop, <- Hrem, Hrest, drop_app_length.
  - rewrite records_bytes_cons, len_app, len_cons.
    replace (off + (len (record_bytes r) + len (records_bytes rs)))
      with (off + len (record_bytes r) + len (records_bytes rs)) by lia.
    unfold saturating_add in G5. pose proof (len_nonneg rs).
    replace (Z.min u64_max (exp + (1 + len rs)))
      with (Z.min u64_max (Z.min u64_max (exp + 1) + len rs)) by lia. done.
Qed.

Lemma replay_loop_total fuel : ∀ b off exp acc,
  0 ≤ off ≤ len b → len b < off + Z.of_nat fuel → len b ≤ isize_max →
  ∃ res, replay_loop fuel b off exp acc = Some res.
Proof.
  induction fuel as [|fuel IH]; intros b off exp acc Hoff Hf Hb.
  { cbn [replay_loop]. exfalso. lia. }
  cbn [replay_loop]. destruct (nonempty_from b off) as [rem|] eqn:Hrem; [|by eexists].
  apply nonempty_from_Some in Hrem as (Hr & Hrem & Hne).
  destruct (decode_record rem) as [d|e] eqn:Hd; [|by eexists].
  destruct (wr_seq (dr_record d) =? exp); rsimpl; [|by eexists].
  pose proof (decode_record_sound _ _ Hd) as (_ & Hlen & rest & Hrest).
  pose proof (len_record_bytes_ge (dr_record d)). pose proof (len_nonneg rest).
  assert (len rem = len b - off) as Hlrem
    by (rewrite Hrem; unfold len in *; rewrite length_drop; lia).
  rewrite Hrest, len_app in Hlrem.
  apply IH; unfold saturating_add, usize_max, u64_max, isize_max in *; lia.
Qed.

Lemma decode_wal_header_sound b h :
  decode_wal_header b = Ok h →
  WAL_HEADER_LEN ≤ len b ∧ is_u64 (wh_first_seq h)
  ∧ take 8 b = FILE_MAGIC ∧ u64_le (wh_first_seq h) = take 8 (drop 32 b).
Proof.
  unfold decode_wal_header. destruct b as [|x b'] eqn:Hbeq; [done|]. rewrite <- Hbeq.
  intros H. destruct (Z.ltb_spec (len b) WAL_HEADER_LEN); [done|].
  destruct (slice_to b 8) as [m|] eqn:Hm; rsimpl in H; [|done].
  destruct (read_u16 "WAL" b 8); rsimpl in H; [|done].
  destruct (read_u16 "WAL" b 10); rsimpl in H; [|done].
  destruct (read_u64 "WAL" b 16); rsimpl in H; [|done].
  destruct (decode_header "WAL" Wal b) as [c|] eqn:Hc; rsimpl in H; [|done].
  destruct (fh_header_length c =? WAL_HEADER_LEN); rsimpl in H; [|done].
  destruct (fh_file_length c =? 0); rsimpl in H; [|done].
  destruct (read_u64 "WAL" b FILE_HEADER_LEN) as [s|] eqn:Hs; rsimpl in H; [|done].
  injection H as <-. apply read_u64_Ok in Hs as (_ & _ & Hs & Hr).
  apply decode_header_sound in Hc as ((Hmag & _) & rest & Hb).
  split_and!; [done|done| |done].
  rewrite Hb. unfold encode_header. by rewrite Hmag.
Qed.

(** Replay of arbitrary bytes. *)
Lemma replay_prefix (b : bytes) :
  len b ≤ isize_max →
  match decode_wal_header b with
  | Err e => replay b = Some {| rr_records := []; rr_terminator := InvalidHeader e |}
  | Ok h =>
      ∃ rs rest t,
        replay b = Some {| rr_records := rs; rr_terminator := t |}
        ∧ b = take (Z.to_nat WAL_HEADER_LEN) b ++ records_bytes rs ++ rest
        ∧ Forall record_ok rs ∧ accepted (wh_first_seq h) rs
        ∧ stop_justified t (WAL_HEADER_LEN + len (records_bytes rs))
            (Z.min u64_max (wh_first_seq h + len rs)) rest
  end.
Proof.
  intros Hb. unfold replay. destruct (decode_wal_header b) as [h|e] eqn:Hh; [|done].
  apply decode_wal_header_sound in Hh as (Hl & Hs & _).
  assert (0 ≤ WAL_HEADER_LEN) by done.
  destruct (replay_loop_total (S (length b)) b WAL_HEADER_LEN (wh_first_seq h) [])
    as [res Hres]; [done|unfold len in *; lia|done|].
  destruct (replay_loop_sound _ _ _ _ _ _ Hres) as (rs & rest & G1 & G2 & G3 & G4 & G5);
    [done..|].
  exists rs, rest, (rr_terminator res). rewrite Hres. split_and!; try done.
  - destruct res; simpl in *; by subst.
  - rewrite <- G4. by rewrite take_drop.
Qed.
End ReplaySpec.

(** ** Recovery *)

Section RecoverySpec.
Context {X : Xxh3}.

(** The retained form of a record recovered from the file. *)
Definition recovered_visible (r : WalRecord) : VisibleRecord :=
  {| vr_seq := wr_seq r; vr_op := wr_op r; vr_encoded := record_bytes r;
     vr_range := (0, len (record_bytes r)) |}.

Lemma recover_records_eq rs : ∀ b pre rest,
  b = pre ++ records_bytes rs ++ rest → len b ≤ isize_max →
  mapM (recover_record b) (recovered_ranges (len pre) rs)
  = Ok (map recovered_visible rs).
Proof.
  induction rs as [|r rs IH]; intros b pre rest Hb Hl; [done|].
  rewrite records_bytes_cons in Hb.
  assert (len b = len pre + len (record_bytes r) + len (records_bytes rs) + len rest) as Hlb
    by (rewrite Hb, !len_app; lia).
  pose proof (len_nonneg pre); pose proof (len_nonneg rest);
    pose proof (len_nonneg (records_bytes rs)); pose proof (len_nonneg (wr_payload r)).
  pose proof (len_record_bytes r) as Hlr.
  cbn [recovered_ranges]. unfold saturating_add, usize_max, u64_max, isize_max in *.
  unfold MIN_RECORD_LEN, RECORD_HEADER_LEN, RECORD_CHECKSUM_LEN in *.
  rewrite !Z.min_r by lia.
  replace (len pre + (14 + 8 + len (wr_payload r))) with (len (pre ++ record_bytes r))
    by (rewrite len_app; lia).
  assert (recover_record b (r, (len pre, len (pre ++ record_bytes r)))
          = Ok (recovered_visible r)) as Hrec.
  { unfold recover_record. rewrite (ltac:(rewrite Hb, <- app_assoc; apply slice_range_app;
      [done|by rewrite len_app]) : slice_range b (len pre) (len (pre ++ record_bytes r))
                                   = Some (record_bytes r)). done. }
  cbn [mapM]. rewrite Hrec. rsimpl.
  by rewrite (IH b (pre ++ record_bytes r) rest) by (lia || by rewrite Hb, <- !app_assoc).
Qed.

Lemma visible_payload_recovered {L : Xxh3Laws X} r :
  record_ok r → visible_payload (recovered_visible r) = Ok (wr_payload r).
Proof using Type.
  intros Hr. unfold visible_payload, visible_encoded, recovered_visible.
  cbn [vr_encoded vr_range fst snd].
  rewrite <- (app_nil_r (record_bytes r)) at 1. rewrite <- (app_nil_l (_ ++ [])).
  rewrite slice_range_app by done. rsimpl.
  rewrite <- (app_nil_r (record_bytes r)), decode_record_app by done. done.
Qed.

Lemma last_map {A B} (f : A → B) l : last (map f l) = f <$> last l.
Proof. apply (fmap_last f l). Qed.

Lemma accepted_last s rs r :
  is_u64 s → accepted s rs → last rs = Some r → wr_seq r = Z.min u64_max (s + len rs - 1).
Proof.
  revert s. induction rs as [|x rs IH]; intros s Hs Hseq Hlast; [done|].
  destruct Hseq as [Hx Hseq]. rewrite len_cons. destruct rs as [|y rs].
  - injection Hlast as ->. rewrite len_nil. unfold is_u64, u64_max in *. lia.
  - rewrite last_cons_cons in Hlast. rewrite (IH (saturating_add u64_max s 1)
      ltac:(unfold is_u64, saturating_add, u64_max in *; lia) Hseq Hlast).
    unfold saturating_add. rewrite len_cons in *. pose proof (len_nonneg rs).
    unfold is_u64, u64_max in *. lia.
Qed.

(** Opening a log recovers what replay trusts. *)
Lemma reader_open_ok {L : Xxh3Laws X} (b : bytes) :
  len b ≤ isize_max →
  ∃ res rd,
    replay b = Some res ∧ reader_open (Ok b) = Some (Ok rd)
    ∧ rd_terminator rd = Some (rr_terminator res)
    ∧ rd_records rd = map recovered_visible (rr_records res)
    ∧ Forall (λ r, visible_payload (recovered_visible r) = Ok (wr_payload r)
                   ∧ visible_encoded (recovered_visible r) = Ok (record_bytes r))
        (rr_records res)
    ∧ ∀ h, decode_wal_header b = Ok h →
        rd_next_seq rd = Z.min u64_max (wh_first_seq h + len (rr_records res))
        ∧ rd_durable_end rd =
            (if bool_decide (rr_records res = []) then saturating_sub (wh_first_seq h) 1
             else Z.min u64_max (wh_first_seq h + len (rr_records res) - 1)).
Proof using Type.
  intros Hb. pose proof (replay_prefix b Hb) as Hrep. unfold reader_open.
  destruct (decode_wal_header b) as [h|e] eqn:Hh.
  2:{ rewrite Hrep. rsimpl. eexists _, _. split_and!; [done|done|done|done|by constructor|done]. }
  destruct Hrep as (rs & rest & t & Hrep & Hsplit & Hok & Hseq & Hstop).
  pose proof (decode_wal_header_sound _ _ Hh) as (Hl & Hs & _).
  rewrite Hrep. rsimpl. cbn [rr_terminator rr_records].
  assert (len (take (Z.to_nat WAL_HEADER_LEN) b) = WAL_HEADER_LEN) as Hpre
    by (unfold len, WAL_HEADER_LEN, FILE_HEADER_LEN in *; rewrite length_take; lia).
  assert (∀ e, t ≠ InvalidHeader e) as Ht by (by intros e ->).
  eexists _, _. split; [done|]. split.
  { destruct t; [by destruct (Ht error)| |].
    all: rewrite <- Hpre at 1; rewrite (recover_records_eq rs b _ rest) by done;
      rsimpl; reflexivity. }
  cbn [rd_terminator rd_records rd_next_seq rd_durable_end rr_records rr_terminator].
  split_and!; [done|done| |].
  - eapply Forall_impl; [exact Hok|]. intros r Hr. split.
    + by apply visible_payload_recovered.
    + unfold visible_encoded, recovered_visible. cbn [vr_encoded vr_range fst snd].
      rewrite <- (app_nil_r (record_bytes r)) at 1. rewrite <- (app_nil_l (_ ++ [])).
      by rewrite slice_range_app.
  - intros h' [= <-]. rewrite last_map.
    destruct rs as [|r0 rs0]; [|destruct (last (r0 :: rs0)) as [r|] eqn:Hlast].
    + cbn. rewrite len_nil. unfold is_u64, u64_max in *. split; [lia|done].
    + cbn [fmap option_fmap option_map recovered_visible vr_seq].
      rewrite (accepted_last _ _ _ Hs Hseq Hlast), bool_decide_eq_false_2 by done.
      pose proof (len_nonneg rs0). unfold saturating_add, is_u64, u64_max in *.
      rewrite len_cons. lia.
    + by apply last_None in Hlast.
Qed.
End RecoverySpec.

(** ** Log images *)

(** The records [encode_wal_image] writes: sequence numbers from [s]. *)
Fixpoint number (s : Z) (records : list (Z * bytes)) : list WalRecord :=
  match records with
  | [] => []
  | (op, payload) :: records =>
      {| wr_seq := s; wr_op := op; wr_payload := payload |} :: number (s + 1) records
  end.

Section ImageSpec.
Context {X : Xxh3} {L : Xxh3Laws X}.

Lemma encode_image_records_eq records : ∀ s enc b,
  encode_image_records s records enc = Ok b → 0 ≤ s →
  Forall (λ r, is_u16 r.1) records →
  b = enc ++ records_bytes (number s records)
  ∧ Forall record_ok (number s records) ∧ sequenced s (number s records)
  ∧ (records ≠ [] → s + len records ≤ u64_max).
Proof using L.
  induction records as [|[op payload] records IH]; intros s enc b H Hs Hops.
  { injection H as ->. rewrite app_nil_r. split_and!; done || constructor. }
  cbn [encode_image_records] in H. rewrite append_record_into_eq in H.
  cbn [wr_payload] in H. destruct (Z.leb_spec (len payload) u32_max); rsimpl in H; [|done].
  unfold checked_add in H. destruct (Z.leb_spec (s + 1) u64_max); rsimpl in H; [|done].
  apply Forall_cons in Hops as [Hop Hops].
  apply IH in H as (-> & Hok & Hseq & Hbound); [|lia|done].
  cbn [number]. split_and!.
  - by rewrite records_bytes_cons, <- app_assoc.
  - constructor; [|done]. unfold record_ok, is_u64. cbn. split_and!; (lia || done).
  - by split.
  - intros _. rewrite len_cons. destruct records; [rewrite len_nil; lia|].
    specialize (Hbound ltac:(done)). lia.
Qed.

Lemma encode_image_records_total records : ∀ s enc,
  0 ≤ s → s + len records ≤ u64_max →
  Forall (λ r, len r.2 ≤ u32_max) records →
  is_ok (encode_image_records s records enc) = true.
Proof using L.
  induction records as [|[op payload] records IH]; intros s enc Hs Hb Hp; [done|].
  apply Forall_cons in Hp as [Hp1 Hp]. rewrite len_cons in Hb.
  pose proof (len_nonneg records). simpl in Hp1.
  cbn [encode_image_records]. rewrite append_record_into_eq. cbn [wr_payload].
  decide_Z. rsimpl. unfold checked_add. decide_Z. rsimpl. apply IH; [lia|lia|done].
Qed.

Lemma whole_records_all rs : whole_records (len (records_bytes rs)) rs = rs.
Proof.
  induction rs as [|r rs IH]; [done|]. rewrite records_bytes_cons, len_app.
  pose proof (len_nonneg (records_bytes rs)). cbn [whole_records]. decide_Z.
  by replace (len (record_bytes r) + len (records_bytes rs) - len (record_bytes r))
    with (len (records_bytes rs)) by lia; rewrite IH.
Qed.

Lemma cut_terminator_all rs : ∀ off,
  cut_terminator off (len (records_bytes rs)) rs = CleanEnd.
Proof.
  induction rs as [|r rs IH]; intros off; [done|]. rewrite records_bytes_cons, len_app.
  pose proof (len_nonneg (records_bytes rs)). cbn [cut_terminator]. decide_Z.
  by replace (len (record_bytes r) + len (records_bytes rs) - len (record_bytes r))
    with (len (records_bytes rs)) by lia; rewrite IH.
Qed.

Lemma replay_image_accepted first_seq rs :
  is_u64 first_seq → Forall record_ok rs → accepted first_seq rs →
  len (wal_image first_seq rs) ≤ isize_max →
  replay (wal_image first_seq rs) =
  Some {| rr_records := rs; rr_terminator := CleanEnd |}.
Proof using L.
  intros Hs Hok Hseq Hl.
  rewrite <- (firstn_all (wal_image first_seq rs)) at 1.
  rewrite replay_cut_accepted by done.
  fold (len (wal_image first_seq rs)). unfold wal_image in *.
  rewrite len_app, len_wal_header_bytes in *. pose proof (len_nonneg (records_bytes rs)).
  decide_Z. replace (WAL_HEADER_LEN + len (records_bytes rs) - WAL_HEADER_LEN)
    with (len (records_bytes rs)) by lia.
  by rewrite whole_records_all, cut_terminator_all.
Qed.

Lemma replay_image first_seq rs :
  is_u64 first_seq → Forall record_ok rs → sequenced first_seq rs →
  len (wal_image first_seq rs) ≤ isize_max →
  replay (wal_image first_seq rs) =
  Some {| rr_records := rs; rr_terminator := CleanEnd |}.
Proof using L. intros Hs Hok Hseq. by apply replay_image_accepted, sequenced_accepted. Qed.

Lemma encode_wal_image_ok first_seq records b :
  encode_wal_image first_seq records = Ok b → is_u64 first_seq →
  Forall (λ r, is_u16 r.1) records →
  b = wal_image first_seq (number first_seq records)
  ∧ Forall record_ok (number first_seq records)
  ∧ sequenced first_seq (number first_seq records)
  ∧ (records ≠ [] → first_seq + len records ≤ u64_max).
Proof using L.
  unfold encode_wal_image. rewrite encode_wal_header_eq. rsimpl. intros H Hs Hops.
  by apply encode_image_records_eq in H; [|apply Hs|].
Qed.

(** Records the image starts with are recovered, whatever follows them. *)
Lemma replay_loop_keeps rs : ∀ fuel b pre junk exp acc res,
  b = pre ++ records_bytes rs ++ junk → Forall record_ok rs → accepted exp rs →
  len b ≤ isize_max → replay_loop fuel b (len pre) exp acc = Some res →
  (acc ++ rs) `prefix_of` rr_records res.
Proof using L.
  induction rs as [|r rs IH]; intros fuel b pre junk exp acc res Hb Hok Hseq Hl H.
  { rewrite app_nil_r. clear - H. revert acc exp H. generalize (len pre). revert res.
    induction fuel as [|fuel IHf]; intros res off acc exp H; [done|]. cbn [replay_loop] in H.
    destruct (nonempty_from b off); [|by injection H as <-].
    destruct (decode_record _); [|by injection H as <-].
    destruct (negb _); [by injection H as <-|]. apply IHf in H.
    etrans; [|exact H]. by apply prefix_app_r. }
  destruct fuel as [|fuel]; [done|].
  apply Forall_cons in Hok as [Hr Hok]. destruct Hseq as [Hs Hseq].
  rewrite records_bytes_cons, <- app_assoc in Hb.
  rewrite (replay_loop_ok fuel b pre r _ exp acc Hb Hr Hs) in H
    by (unfold isize_max, usize_max, u64_max in *; lia).
  rewrite (cons_middle r acc rs), app_assoc.
  eapply (IH fuel b (pre ++ record_bytes r)); [|done..|exact H]. by rewrite Hb, <- app_assoc.
Qed.

Lemma replay_keeps first_seq rs junk :
  is_u64 first_seq → Forall record_ok rs → sequenced first_seq rs →
  len (wal_image first_seq rs ++ junk) ≤ isize_max →
  ∃ res, replay (wal_image first_seq rs ++ junk) = Some res ∧ rs `prefix_of` rr_records res.
Proof using L.
  intros Hs Hok Hseq Hl. unfold wal_image in *. rewrite <- app_assoc in *.
  set (b := wal_header_bytes first_seq ++ _) in *.
  assert (decode_wal_header b = Ok {| wh_first_seq := first_seq |}) as Hh
    by (by apply decode_wal_header_app).
  pose proof (replay_prefix b Hl) as Hp. rewrite Hh in Hp.
  destruct Hp as (rs' & rest & t & Hrep & _). eexists. split; [exact Hrep|].
  unfold replay in Hrep. rewrite Hh in Hrep. cbn [wh_first_seq] in Hrep.
  rewrite <- (len_wal_header_bytes first_seq) in Hrep.
  apply (replay_loop_keeps rs) with (junk := junk) in Hrep; [done..|by apply sequenced_accepted|done].
Qed.
End ImageSpec.

(** ** Properties *)

Section Properties.
Context {X : Xxh3} {L : Xxh3Laws X}.

(** C24: Replaying the image of a log whose sequences increase by exactly one, cut
    at any byte, returns exactly the records that fit completely before the cut, and
    a terminator that locates the torn record: the clean end, a truncated record at
    the offset where it starts, or a missing or truncated header. *)
Theorem replay_cut_image (first_seq : Z) (rs : list WalRecord) (n : nat) :
  is_u64 first_seq → Forall record_ok rs → sequenced first_seq rs →
  len (wal_image first_seq rs) ≤ isize_max → (n ≤ length (wal_image first_seq rs))%nat →
  replay (take n (wal_image first_seq rs)) =
  Some (if Z.of_nat n <? WAL_HEADER_LEN
        then {| rr_records := [];
                rr_terminator := InvalidHeader
                  (if bool_decide (n = 0%nat) then HeaderMissing
                   else HeaderTruncatedAt WAL_HEADER_LEN (Z.of_nat n)) |}
        else {| rr_records := whole_records (Z.of_nat n - WAL_HEADER_LEN) rs;
                rr_terminator :=
                  cut_terminator WAL_HEADER_LEN (Z.of_nat n - WAL_HEADER_LEN) rs |}).
Proof using L. apply replay_cut. Qed.

(** C25: Replay is total on every byte string and sound: a bad header is reported
    with no records; otherwise the input is the header, the encodings of the
    returned records, which are well-formed, and a rest that justifies the
    terminator returned. The records increase by exactly one from the sequence of
    the header, up to u64::MAX; past it, against the documentation of the function,
    duplicates do not end the trusted prefix: records that repeat u64::MAX are
    returned too (the witness has such a log). *)
Theorem replay_trusted_prefix (b : bytes) :
  len b ≤ isize_max →
  match decode_wal_header b with
  | Err e => replay b = Some {| rr_records := []; rr_terminator := InvalidHeader e |}
  | Ok h =>
      ∃ fresh repeats rest t, let rs := fresh ++ repeats in
        replay b = Some {| rr_records := rs; rr_terminator := t |}
        ∧ b = take (Z.to_nat WAL_HEADER_LEN) b ++ records_bytes rs ++ rest
        ∧ Forall record_ok rs ∧ sequenced (wh_first_seq h) fresh
        ∧ Forall (λ r, wr_seq r = u64_max) repeats
        ∧ (repeats ≠ [] → wh_first_seq h + len fresh = u64_max + 1)
        ∧ stop_justified t (WAL_HEADER_LEN + len (records_bytes rs))
            (Z.min u64_max (wh_first_seq h + len rs)) rest
  end.
Proof using Type.
  intros Hb. pose proof (replay_prefix b Hb) as H. destruct (decode_wal_header b) as [h|e] eqn:Eh; [|done].
  apply decode_wal_header_sound in Eh as (_ & Hu & _).
  destruct H as (rs & rest & t & H1 & H2 & H3 & H4 & H5).
  destruct (accepted_split rs _ Hu H4) as (fresh & repeats & -> & H6 & H7 & H8).
  exists fresh, repeats, rest, t. by split_and!.
Qed.

(** Opening a log reader on any file content succeeds with the records replay
    trusts, each readable back as its payload and as its encoding, with replay's
    terminator and the next sequence and durable end that follow from the header and
    the records. *)
Theorem reader_open_recovers (b : bytes) :
  len b ≤ isize_max →
  ∃ res rd,
    replay b = Some res ∧ reader_open (Ok b) = Some (Ok rd)
    ∧ rd_terminator rd = Some (rr_terminator res)
    ∧ rd_records rd = map recovered_visible (rr_records res)
    ∧ Forall (λ r, visible_payload (recovered_visible r) = Ok (wr_payload r)
                   ∧ visible_encoded (recovered_visible r) = Ok (record_bytes r))
        (rr_records res)
    ∧ ∀ h, decode_wal_header b = Ok h →
        rd_next_seq rd = Z.min u64_max (wh_first_seq h + len (rr_records res))
        ∧ rd_durable_end rd =
            (if bool_decide (rr_records res = []) then saturating_sub (wh_first_seq h) 1
             else Z.min u64_max (wh_first_seq h + len (rr_records res) - 1)).
Proof using L. apply reader_open_ok. Qed.

(** A complete log image built from a list of operations replays to those
    operations with consecutive sequences and ends cleanly; a non-empty image is
    only built when its sequences fit 64 bits. *)
Theorem encode_wal_image_replays first_seq records b :
  encode_wal_image first_seq records = Ok b →
  is_u64 first_seq → Forall (λ r, is_u16 r.1) records → len b ≤ isize_max →
  replay b = Some {| rr_records := number first_seq records; rr_terminator := CleanEnd |}
  ∧ (records ≠ [] → first_seq + len records ≤ u64_max).
Proof using L.
  intros H Hs Hops Hl. apply encode_wal_image_ok in H as (-> & Hok & Hseq & Hb); [|done..].
  split; [|done]. by apply replay_image.
Qed.

(** A log whose first two records both carry the largest 64-bit sequence
    replays cleanly with both, because the expected sequence saturates: strict
    sequencing does not hold at the top of the range. *)
Theorem replay_accepts_duplicate_max (p q : bytes) (o1 o2 : Z) :
  is_u16 o1 → is_u16 o2 → len p ≤ u32_max → len q ≤ u32_max →
  let r1 := {| wr_seq := u64_max; wr_op := o1; wr_payload := p |} in
  let r2 := {| wr_seq := u64_max; wr_op := o2; wr_payload := q |} in
  replay (wal_image u64_max [r1; r2]) =
  Some {| rr_records := [r1; r2]; rr_terminator := CleanEnd |}.
Proof using L.
  intros Ho1 Ho2 Hp Hq r1 r2. apply replay_image_accepted.
  - done.
  - repeat constructor; cbn; (done || apply Ho1 || apply Ho2).
  - cbn. done.
  - unfold wal_image. rewrite len_app, len_wal_header_bytes, !records_bytes_cons, !len_app,
      !len_record_bytes. cbn [wr_payload r1 r2 records_bytes map concat]. rewrite len_nil.
    unfold u32_max, isize_max, WAL_HEADER_LEN, FILE_HEADER_LEN, MIN_RECORD_LEN,
      RECORD_HEADER_LEN, RECORD_CHECKSUM_LEN in *. lia.
Qed.
End Properties.

(** Two small records, the second cut in its body. *)
Definition sample_log : list WalRecord :=
  [{| wr_seq := 5; wr_op := 1; wr_payload := [Byte.x01] |};
   {| wr_seq := 6; wr_op := 2; wr_payload := [Byte.x02; Byte.x03] |}].

Lemma replay_cut_image_witness :
  replay (X:=ToyXxh3.toy) (take 80 (wal_image (X:=ToyXxh3.toy) 5 sample_log)) =
  Some {| rr_records := take 1 sample_log;
          rr_terminator := CorruptAt 63 (ReasonRecord Tail (BodyTruncated 2 24 17)) |}.
Proof.
  rewrite (replay_cut_image (X:=ToyXxh3.toy) (L:=ToyXxh3.toy_laws) 5 sample_log 80).
  - by_compute.
  - by_compute.
  - by_compute.
  - by_compute.
  - by_compute.
  - by_compute.
Defined.

(** Two records of the largest sequence. *)
Definition repeated_log : list WalRecord :=
  [{| wr_seq := u64_max; wr_op := 1; wr_payload := [] |};
   {| wr_seq := u64_max; wr_op := 2; wr_payload := [Byte.x09] |}].

Lemma replay_trusted_prefix_witness :
  let b := wal_image (X:=ToyXxh3.toy) u64_max repeated_log ++ [Byte.x01] in
  len b ≤ isize_max
  ∧ ∃ fresh repeats rest t,
      replay (X:=ToyXxh3.toy) b = Some {| rr_records := fresh ++ repeats; rr_terminator := t |}
      ∧ b = take 40 b ++ records_bytes (X:=ToyXxh3.toy) (fresh ++ repeats) ++ rest
      ∧ sequenced u64_max fresh ∧ repeats ≠ [].
Proof.
  intros b. assert (len b ≤ isize_max) as H by by_compute. split; [exact H|].
  pose proof (replay_trusted_prefix (X:=ToyXxh3.toy) b H) as Hp.
  rewrite (ltac:(by_compute) : decode_wal_header b = Ok {| wh_first_seq := u64_max |}) in Hp.
  destruct Hp as (fresh & repeats & rest & t & H1 & H2 & _ & H3 & _). exists fresh, repeats, rest, t.
  split_and!; [exact H1|exact H2|exact H3|]. intros ->. rewrite app_nil_r in H1.
  assert (rr_records <$> replay (X:=ToyXxh3.toy) b = Some repeated_log) as E by by_compute.
  rewrite H1 in E. injection E as ->. destruct H3 as (_ & E & _). vm_compute in E. discriminate E.
Defined.

Lemma reader_open_recovers_witness :
  ∃ rd, reader_open (X:=ToyXxh3.toy) (Ok (wal_image (X:=ToyXxh3.toy) 5 sample_log)) = Some (Ok rd)
        ∧ rd_next_seq rd = 7.
Proof.
  destruct (reader_open_recovers (X:=ToyXxh3.toy) (L:=ToyXxh3.toy_laws)
              (wal_image (X:=ToyXxh3.toy) 5 sample_log) ltac:(by_compute))
    as (res & rd & Hr & Ho & _ & _ & _ & Hn).
  exists rd. split; [exact Ho|]. rewrite (proj1 (Hn {| wh_first_seq := 5 |} ltac:(by_compute))).
  rewrite (ltac:(by_compute) : replay (X:=ToyXxh3.toy) (wal_image (X:=ToyXxh3.toy) 5 sample_log)
           = Some {| rr_records := sample_log; rr_terminator := CleanEnd |}) in Hr.
  injection Hr as <-. by_compute.
Defined.

Lemma encode_wal_image_replays_witness :
  ∃ b, encode_wal_image (X:=ToyXxh3.toy) 5 [(1, [Byte.x01]); (2, [Byte.x02; Byte.x03])] = Ok b
       ∧ replay (X:=ToyXxh3.toy) b = Some {| rr_records := sample_log; rr_terminator := CleanEnd |}.
Proof.
  exists (wal_image (X:=ToyXxh3.toy) 5 sample_log). split; [by_compute|].
  apply (encode_wal_image_replays (X:=ToyXxh3.toy) (L:=ToyXxh3.toy_laws) 5
           [(1, [Byte.x01]); (2, [Byte.x02; Byte.x03])]); by_compute.
Defined.

Lemma replay_accepts_duplicate_max_witness :
  replay (X:=ToyXxh3.toy) (wal_image (X:=ToyXxh3.toy) u64_max
    [{| wr_seq := u64_max; wr_op := 1; wr_payload := [] |};
     {| wr_seq := u64_max; wr_op := 2; wr_payload := [Byte.x09] |}])
  = Some {| rr_records := [{| wr_seq := u64_max; wr_op := 1; wr_payload := [] |};
                           {| wr_seq := u64_max; wr_op := 2; wr_payload := [Byte.x09] |}];
            rr_terminator := CleanEnd |}.
Proof.
  apply (replay_accepts_duplicate_max (X:=ToyXxh3.toy) (L:=ToyXxh3.toy_laws) [] [Byte.x09] 1 2);
    by_compute.
Defined.
