(* ===== verification/Durability.v ===== *)
(** * Durability policy

    Models [crates/zeppelin-embed/src/lifecycle/durability.rs] and the
    [SyncKind] of [vfs/mod.rs]: how a store mode and a commit tier resolve to
    the synchronization the WAL and the manifest must issue. *)

From S2P Require Import Prelude.

Inductive SyncKind : Type := Barrier | Full.

#[export] Instance SyncKind_eq_dec : EqDecision SyncKind.
Proof. solve_decision. Defined.

Inductive DurabilityMode : Type := Derived | Durable | Attached.
Inductive CommitTier : Type := TierNone | TierOrdered | TierDurable.

Inductive SyncRequirement : Type :=
| SyncSkip
| SyncWith (kind : SyncKind).

#[export] Instance SyncRequirement_eq_dec : EqDecision SyncRequirement.
Proof. solve_decision. Defined.

Record DurabilityPolicy : Type := {
  data_file_sync : SyncRequirement;
  directory_sync : SyncRequirement;
}.

Inductive DurabilityPolicyError : Type := AttachedNotYetSupported.

Definition policy_new (mode : DurabilityMode) (tier : CommitTier)
    : result DurabilityPolicyError DurabilityPolicy :=
  requirement ← match mode, tier with
    | Attached, _ => Err AttachedNotYetSupported
    | Derived, _ | Durable, TierNone => Ok SyncSkip
    | Durable, TierOrdered => Ok (SyncWith Barrier)
    | Durable, TierDurable => Ok (SyncWith Full)
    end;
  Ok {| data_file_sync := requirement; directory_sync := requirement |}.
