(* ===== verification/WalWriter.v ===== *)
(** * The group-commit WAL writer

    Models the writer half of [crates/zeppelin-embed/src/wal/mod.rs]:
    [WriterState], [Group], [EncodedChunk] and every operation of [WalWriter].

    A method that holds the state mutex for its whole body is one function on
    [WriterState].  A method with several critical sections is split where the
    lock is released: [stage_attempt] is one turn of [stage]'s loop (the
    condition-variable wait is the outcome [StageWait]); [leader_pop],
    [write_group] and [leader_complete] are the three parts of one turn of
    [flush_as_leader]; [flush_begin] and [durable_check] are the locked parts
    of [flush] and [wait_until_durable].  [WalConcurrency.v] interleaves these
    sections; the sequential methods here compose them the way the code does.

    I/O outcomes come from the outside: a group write receives a [GroupIo]
    saying whether the append (and after how many bytes), the file sync and the
    directory sync fail.  Poisoned mutexes (a panic in another thread) and the
    text of an I/O error are not modelled. *)

From S2P Require Import Prelude Format WalRecord WalReplay Durability.

(** ** Data *)

Record EncodedChunk : Type := {
  ch_encoded : bytes;
  ch_range : Z * Z;
}.

Record Group : Type := {
  g_chunks : list EncodedChunk;
  g_encoded_bytes : Z;
  g_records : Z;
  g_last_seq : option Z;
}.

Record CompletedGroup : Type := {
  cg_records : Z;
  cg_encoded_bytes : Z;
}.

Definition GROUP_SIZE_HISTOGRAM_BUCKETS : Z := 18.
Definition RECENT_GROUP_LIMIT : Z := 64.

Record WriterState : Type := {
  ws_next_seq : Z;
  ws_visible : list VisibleRecord;
  ws_retained_bytes : Z;
  ws_durable_end : option Z;
  ws_pending_groups : list Group;
  ws_spare_chunks : list EncodedChunk;
  ws_barrier_in_flight : bool;
  ws_failure : option ErrorKind;
  ws_completed_groups : Z;
  ws_completed_records : Z;
  ws_completed_bytes : Z;
  ws_encoded_buffer_allocations : Z;
  ws_group_size_histogram : list Z;
  ws_recent_groups : list CompletedGroup;
}.

(** The file is its bytes and the length of the prefix that the last successful
    sync covered; [ww_created_directory_sync] is the pending directory sync of
    a freshly created store WAL. *)
Record WalWriter : Type := {
  ww_state : WriterState;
  ww_file : bytes;
  ww_synced : Z;
  ww_created_directory_sync : option SyncKind;
  ww_sync : SyncRequirement;
  ww_max_group_bytes : Z;
  ww_durable_progress : Z;
  ww_io_work : list Z;
}.

(** ** Field updates *)

Definition set_pending (gs : list Group) (s : WriterState) : WriterState :=
  {| ws_next_seq := ws_next_seq s; ws_visible := ws_visible s;
     ws_retained_bytes := ws_retained_bytes s; ws_durable_end := ws_durable_end s;
     ws_pending_groups := gs; ws_spare_chunks := ws_spare_chunks s;
     ws_barrier_in_flight := ws_barrier_in_flight s; ws_failure := ws_failure s;
     ws_completed_groups := ws_completed_groups s;
     ws_completed_records := ws_completed_records s;
     ws_completed_bytes := ws_completed_bytes s;
     ws_encoded_buffer_allocations := ws_encoded_buffer_allocations s;
     ws_group_size_histogram := ws_group_size_histogram s;
     ws_recent_groups := ws_recent_groups s |}.

Definition set_spare (cs : list EncodedChunk) (s : WriterState) : WriterState :=
  {| ws_next_seq := ws_next_seq s; ws_visible := ws_visible s;
     ws_retained_bytes := ws_retained_bytes s; ws_durable_end := ws_durable_end s;
     ws_pending_groups := ws_pending_groups s; ws_spare_chunks := cs;
     ws_barrier_in_flight := ws_barrier_in_flight s; ws_failure := ws_failure s;
     ws_completed_groups := ws_completed_groups s;
     ws_completed_records := ws_completed_records s;
     ws_completed_bytes := ws_completed_bytes s;
     ws_encoded_buffer_allocations := ws_encoded_buffer_allocations s;
     ws_group_size_histogram := ws_group_size_histogram s;
     ws_recent_groups := ws_recent_groups s |}.

Definition set_barrier (b : bool) (s : WriterState) : WriterState :=
  {| ws_next_seq := ws_next_seq s; ws_visible := ws_visible s;
     ws_retained_bytes := ws_retained_bytes s; ws_durable_end := ws_durable_end s;
     ws_pending_groups := ws_pending_groups s; ws_spare_chunks := ws_spare_chunks s;
     ws_barrier_in_flight := b; ws_failure := ws_failure s;
     ws_completed_groups := ws_completed_groups s;
     ws_completed_records := ws_completed_records s;
     ws_completed_bytes := ws_completed_bytes s;
     ws_encoded_buffer_allocations := ws_encoded_buffer_allocations s;
     ws_group_size_histogram := ws_group_size_histogram s;
     ws_recent_groups := ws_recent_groups s |}.

Definition set_failure (f : option ErrorKind) (s : WriterState) : WriterState :=
  {| ws_next_seq := ws_next_seq s; ws_visible := ws_visible s;
     ws_retained_bytes := ws_retained_bytes s; ws_durable_end := ws_durable_end s;
     ws_pending_groups := ws_pending_groups s; ws_spare_chunks := ws_spare_chunks s;
     ws_barrier_in_flight := ws_barrier_in_flight s; ws_failure := f;
     ws_completed_groups := ws_completed_groups s;
     ws_completed_records := ws_completed_records s;
     ws_completed_bytes := ws_completed_bytes s;
     ws_encoded_buffer_allocations := ws_encoded_buffer_allocations s;
     ws_group_size_histogram := ws_group_size_histogram s;
     ws_recent_groups := ws_recent_groups s |}.

(** Publishes one staged record: [visible.push_back] with its byte account. *)
Definition push_visible (v : VisibleRecord) (encoded_len : Z) (s : WriterState)
    : WriterState :=
  {| ws_next_seq := ws_next_seq s; ws_visible := ws_visible s ++ [v];
     ws_retained_bytes := saturating_add usize_max (ws_retained_bytes s) encoded_len;
     ws_durable_end := ws_durable_end s;
     ws_pending_groups := ws_pending_groups s; ws_spare_chunks := ws_spare_chunks s;
     ws_barrier_in_flight := ws_barrier_in_flight s; ws_failure := ws_failure s;
     ws_completed_groups := ws_completed_groups s;
     ws_completed_records := ws_completed_records s;
     ws_completed_bytes := ws_completed_bytes s;
     ws_encoded_buffer_allocations := ws_encoded_buffer_allocations s;
     ws_group_size_histogram := ws_group_size_histogram s;
     ws_recent_groups := ws_recent_groups s |}.

(** Assigns the next sequence and counts one encoded buffer. *)
Definition set_next_seq (n : Z) (s : WriterState) : WriterState :=
  {| ws_next_seq := n; ws_visible := ws_visible s;
     ws_retained_bytes := ws_retained_bytes s; ws_durable_end := ws_durable_end s;
     ws_pending_groups := ws_pending_groups s; ws_spare_chunks := ws_spare_chunks s;
     ws_barrier_in_flight := ws_barrier_in_flight s; ws_failure := ws_failure s;
     ws_completed_groups := ws_completed_groups s;
     ws_completed_records := ws_completed_records s;
     ws_completed_bytes := ws_completed_bytes s;
     ws_encoded_buffer_allocations :=
       saturating_add u64_max (ws_encoded_buffer_allocations s) 1;
     ws_group_size_histogram := ws_group_size_histogram s;
     ws_recent_groups := ws_recent_groups s |}.

Definition set_visible (vs : list VisibleRecord) (retained : Z) (s : WriterState)
    : WriterState :=
  {| ws_next_seq := ws_next_seq s; ws_visible := vs;
     ws_retained_bytes := retained; ws_durable_end := ws_durable_end s;
     ws_pending_groups := ws_pending_groups s; ws_spare_chunks := ws_spare_chunks s;
     ws_barrier_in_flight := ws_barrier_in_flight s; ws_failure := ws_failure s;
     ws_completed_groups := ws_completed_groups s;
     ws_completed_records := ws_completed_records s;
     ws_completed_bytes := ws_completed_bytes s;
     ws_encoded_buffer_allocations := ws_encoded_buffer_allocations s;
     ws_group_size_histogram := ws_group_size_histogram s;
     ws_recent_groups := ws_recent_groups s |}.

Definition with_state (s : WriterState) (w : WalWriter) : WalWriter :=
  {| ww_state := s; ww_file := ww_file w; ww_synced := ww_synced w;
     ww_created_directory_sync := ww_created_directory_sync w;
     ww_sync := ww_sync w; ww_max_group_bytes := ww_max_group_bytes w;
     ww_durable_progress := ww_durable_progress w; ww_io_work := ww_io_work w |}.

(** ** Groups *)

(** [EncodedChunk::bytes]. *)
Definition chunk_bytes (c : EncodedChunk) : option bytes :=
  slice_range (ch_encoded c) (ch_range c).1 (ch_range c).2.

Definition current_group (s : WriterState) : result WalWriteError Group :=
  ok_or (last (ws_pending_groups s)) (Poisoned "pending WAL group").

(** [*pending_groups.back_mut() = g]. *)
Definition set_current_group (g : Group) (s : WriterState) : WriterState :=
  set_pending (removelast (ws_pending_groups s) ++ [g]) s.

(** The chunk vector of a new group is the cleared spare one. *)
Definition push_empty_pending_group (s : WriterState) : WriterState :=
  set_spare []
    (set_pending (ws_pending_groups s ++
       [{| g_chunks := ws_spare_chunks s; g_encoded_bytes := 0; g_records := 0;
           g_last_seq := None |}]) s).

Definition ensure_pending_group (s : WriterState) : WriterState :=
  match ws_pending_groups s with
  | [] => push_empty_pending_group s
  | _ => s
  end.

Definition push_chunk (c : EncodedChunk) (g : Group) : Group :=
  {| g_chunks := g_chunks g ++ [c]; g_encoded_bytes := g_encoded_bytes g;
     g_records := g_records g; g_last_seq := g_last_seq g |}.

Definition set_encoded_bytes (n : Z) (g : Group) : Group :=
  {| g_chunks := g_chunks g; g_encoded_bytes := n;
     g_records := g_records g; g_last_seq := g_last_seq g |}.

(** [group.records += 1; group.last_seq = Some(seq)]. *)
Definition count_record (seq : Z) (g : Group) : Group :=
  {| g_chunks := g_chunks g; g_encoded_bytes := g_encoded_bytes g;
     g_records := saturating_add usize_max (g_records g) 1; g_last_seq := Some seq |}.

(** [GroupSizeHistogram::record]. *)
Definition histogram_record (buckets : list Z) (records : Z) : list Z :=
  let bucket :=
    if records =? 0 then 0
    else Z.min (Z.log2 records) (GROUP_SIZE_HISTOGRAM_BUCKETS - 1) in
  match buckets !! Z.to_nat bucket with
  | Some count => <[Z.to_nat bucket := saturating_add u64_max count 1]> buckets
  | None => buckets
  end.

Definition default_max_group_bytes (policy : DurabilityPolicy) : Z :=
  match data_file_sync policy with
  | SyncWith Full => DEFAULT_MAX_GROUP_BYTES_DURABLE
  | SyncSkip | SyncWith Barrier => DEFAULT_MAX_GROUP_BYTES
  end.

(** ** Construction *)

Definition initial_state (next_seq : Z) (groups : list Group) : WriterState :=
  {| ws_next_seq := next_seq; ws_visible := []; ws_retained_bytes := 0;
     ws_durable_end := None; ws_pending_groups := groups; ws_spare_chunks := [];
     ws_barrier_in_flight := false; ws_failure := None; ws_completed_groups := 0;
     ws_completed_records := 0; ws_completed_bytes := 0;
     ws_encoded_buffer_allocations := 0;
     ws_group_size_histogram := replicate (Z.to_nat GROUP_SIZE_HISTOGRAM_BUCKETS) 0;
     ws_recent_groups := [] |}.

(** [opened] is the outcome of [vfs.open(path)] (the existing length) and
    [opened_append] that of [vfs.open_append(path)]. *)
Definition create_with_max_group_bytes (opened : result ErrorKind Z)
    (opened_append : result ErrorKind unit) (first_seq : Z)
    (policy : DurabilityPolicy) (max_group_bytes : Z) : result WalWriteError WalWriter :=
  _ ← match opened with
      | Ok 0 => Ok tt
      | Ok length => Err (NonEmptyWal length)
      | Err NotFound => Ok tt
      | Err kind => Err (Failed kind)
      end;
  header ← map_err WriteHeader (encode_wal_header first_seq);
  if max_group_bytes <? len header
  then Err (GroupTooLarge (len header) max_group_bytes)
  else
  _ ← map_err Failed opened_append;
  let header_group :=
    {| g_chunks := [{| ch_encoded := header; ch_range := (0, len header) |}];
       g_encoded_bytes := len header; g_records := 0; g_last_seq := None |} in
  Ok {| ww_state := initial_state first_seq [header_group];
        ww_file := []; ww_synced := 0; ww_created_directory_sync := None;
        ww_sync := data_file_sync policy; ww_max_group_bytes := max_group_bytes;
        ww_durable_progress := saturating_sub first_seq 1; ww_io_work := [0; 0; 0; 0] |}.

Definition create (opened : result ErrorKind Z) (opened_append : result ErrorKind unit)
    (first_seq : Z) (policy : DurabilityPolicy) : result WalWriteError WalWriter :=
  create_with_max_group_bytes opened opened_append first_seq policy
    (default_max_group_bytes policy).

Definition create_store_wal (opened : result ErrorKind Z)
    (opened_append : result ErrorKind unit) (first_seq : Z) (policy : DurabilityPolicy)
    : result WalWriteError WalWriter :=
  writer ← create opened opened_append first_seq policy;
  match directory_sync policy with
  | SyncWith kind =>
      Ok {| ww_state := ww_state writer; ww_file := ww_file writer;
            ww_synced := ww_synced writer; ww_created_directory_sync := Some kind;
            ww_sync := ww_sync writer; ww_max_group_bytes := ww_max_group_bytes writer;
            ww_durable_progress := ww_durable_progress writer;
            ww_io_work := ww_io_work writer |}
  | SyncSkip => Ok writer
  end.

(** [try_fold] of [checked_add] over the recovered widths. *)
Fixpoint total_encoded (total : Z) (vs : list VisibleRecord) : option Z :=
  match vs with
  | [] => Some total
  | v :: vs => total ← checked_add usize_max total (visible_encoded_len v);
               total_encoded total vs
  end.

(** [file] is the content [vfs.open_append(path)] opens and [synced] the length of
    its synchronized prefix. *)
Definition resume (recovered : CleanWalReader) (opened_append : result ErrorKind unit)
    (file : bytes) (synced : Z) (policy : DurabilityPolicy)
    : result WalWriteError WalWriter :=
  let max_group_bytes := default_max_group_bytes policy in
  let durable_progress := default 0 (cl_durable_end recovered) in
  retained_bytes ← ok_or (total_encoded 0 (cl_records recovered)) RecoveredBytesOverflow;
  _ ← map_err Failed opened_append;
  let s := initial_state (cl_next_seq recovered) [] in
  Ok {| ww_state :=
          {| ws_next_seq := cl_next_seq recovered; ws_visible := cl_records recovered;
             ws_retained_bytes := retained_bytes;
             ws_durable_end := cl_durable_end recovered;
             ws_pending_groups := []; ws_spare_chunks := [];
             ws_barrier_in_flight := false; ws_failure := None;
             ws_completed_groups := 0; ws_completed_records := 0;
             ws_completed_bytes := 0; ws_encoded_buffer_allocations := 0;
             ws_group_size_histogram := ws_group_size_histogram s;
             ws_recent_groups := [] |};
        ww_file := file; ww_synced := synced; ww_created_directory_sync := None;
        ww_sync := data_file_sync policy; ww_max_group_bytes := max_group_bytes;
        ww_durable_progress := durable_progress; ww_io_work := [0; 0; 0; 0] |}.

(** ** Staging one record *)

Inductive StageOutcome : Type :=
| Staged (seq : Z) (leader : bool)
| StageWait
| StageErr (error : WalWriteError).

Section Staging.
Context {X : Xxh3}.

(** One turn of the loop in [stage], from taking the lock (or waking up with
    it) to returning or waiting again. *)
Definition stage_attempt (max_group_bytes op : Z) (payload : bytes) (encoded_len : Z)
    (s : WriterState) : WriterState * StageOutcome :=
  match ws_failure s with
  | Some kind => (s, StageErr (Failed kind))
  | None =>
    let s := ensure_pending_group s in
    let seq := ws_next_seq s in
    match current_group s with
    | Err e => (s, StageErr e)
    | Ok group =>
      let required := saturating_add usize_max (g_encoded_bytes group) encoded_len in
      let pending_records := g_records group in
      if required <=? max_group_bytes then
        match checked_add u64_max (ws_next_seq s) 1 with
        | None => (s, StageErr SequenceExhausted)
        | Some next_seq =>
          match encode_record_into {| wr_seq := seq; wr_op := op; wr_payload := payload |} [] with
          | Err e => (s, StageErr (WriteRecord e))
          | Ok encoded =>
            let s := set_next_seq next_seq s in
            let group := push_chunk {| ch_encoded := encoded; ch_range := (0, encoded_len) |} group in
            let group := count_record seq (set_encoded_bytes required group) in
            let s := set_current_group group s in
            let s := push_visible {| vr_seq := seq; vr_op := op; vr_encoded := encoded;
                                     vr_range := (0, encoded_len) |} encoded_len s in
            let leader := negb (ws_barrier_in_flight s) in
            let s := if leader then set_barrier true s else s in
            (s, Staged seq leader)
          end
        end
      else if pending_records =? 0 then
        (s, StageErr (GroupTooLarge required max_group_bytes))
      else (s, StageWait)
    end
  end.

(** ** Staging a batch *)

(** The encode loop: every record into one shared allocation. *)
Fixpoint encode_batch (seq : Z) (records : list (Z * bytes)) (storage : bytes)
    : result RecordEncodeError bytes :=
  match records with
  | [] => Ok storage
  | (op, payload) :: records =>
      storage ← append_record_into {| wr_seq := seq; wr_op := op; wr_payload := payload |}
                  storage;
      encode_batch (saturating_add u64_max seq 1) records storage
  end.

(** [while offset < record_end]: fills the current group and opens new ones.
    Each turn either writes at least one byte or opens a group, so twice the
    missing bytes plus one is enough fuel ([fill_record_ok]). *)
Fixpoint fill_record (fuel : nat) (max_group_bytes : Z) (encoded : bytes)
    (record_end offset chunk_start : Z) (s : WriterState)
    : WriterState * result WalWriteError (Z * Z) :=
  match fuel with
  | O => (s, Err (Poisoned "fill loop out of fuel"))
  | S fuel =>
    if offset <? record_end then
      match current_group s with
      | Err e => (s, Err e)
      | Ok group =>
        let available := saturating_sub max_group_bytes (g_encoded_bytes group) in
        if available =? 0 then
          let s := if chunk_start <? offset
            then set_current_group
                   (push_chunk {| ch_encoded := encoded; ch_range := (chunk_start, offset) |}
                      group) s
            else s in
          fill_record fuel max_group_bytes encoded record_end offset offset
            (push_empty_pending_group s)
        else
          let written := Z.min available (saturating_sub record_end offset) in
          let s := set_current_group
            (set_encoded_bytes
               (saturating_add usize_max (g_encoded_bytes group) written) group) s in
          fill_record fuel max_group_bytes encoded record_end
            (saturating_add usize_max offset written) chunk_start s
      end
    else (s, Ok (offset, chunk_start))
  end.

Definition fill_fuel (encoded_len : Z) : nat := S (Z.to_nat (2 * encoded_len)).

(** The placement loop over [(op, encoded_len)]. *)
Fixpoint place_records (max_group_bytes : Z) (encoded : bytes)
    (lengths : list (Z * Z)) (seq offset chunk_start : Z) (s : WriterState)
    : WriterState * result WalWriteError (Z * Z) :=
  match lengths with
  | [] => (s, Ok (offset, chunk_start))
  | (op, encoded_len) :: lengths =>
      let record_start := offset in
      let record_end := saturating_add usize_max offset encoded_len in
      match fill_record (fill_fuel encoded_len) max_group_bytes encoded
              record_end offset chunk_start s with
      | (s, Err e) => (s, Err e)
      | (s, Ok (offset, chunk_start)) =>
          match current_group s with
          | Err e => (s, Err e)
          | Ok group =>
              let s := set_current_group (count_record seq group) s in
              let s := push_visible {| vr_seq := seq; vr_op := op; vr_encoded := encoded;
                                       vr_range := (record_start, record_end) |}
                         encoded_len s in
              place_records max_group_bytes encoded lengths
                (saturating_add u64_max seq 1) offset chunk_start s
          end
      end
  end.

(** [stage_many] (with [append_record_into] as the encoder). *)
Definition stage_many (max_group_bytes : Z) (records : list (Z * bytes)) (s : WriterState)
    : WriterState * result WalWriteError (Z * Z * bool) :=
  match records with
  | [] =>
      match ws_failure s with
      | Some kind => (s, Err (Failed kind))
      | None => (s, Ok (ws_next_seq s, ws_next_seq s, false))
      end
  | _ =>
    match mapM (λ r : Z * bytes,
            encoded_len ← map_err WriteRecord (encoded_record_len (len r.2));
            Ok (r.1, encoded_len)) records with
    | Err e => (s, Err e)
    | Ok encoded_lengths =>
      match List.find (λ r : Z * Z, max_group_bytes <? r.2) encoded_lengths with
      | Some (_, encoded_bytes) => (s, Err (GroupTooLarge encoded_bytes max_group_bytes))
      | None =>
        match ws_failure s with
        | Some kind => (s, Err (Failed kind))
        | None =>
          let s := ensure_pending_group s in
          match head encoded_lengths, last (ws_pending_groups s) with
          | None, _ => (s, Err (Poisoned "non-empty WAL batch"))
          | _, None => (s, Err (Poisoned "pending WAL group"))
          | Some (_, first_encoded_len), Some group =>
            let first_required :=
              saturating_add usize_max (g_encoded_bytes group) first_encoded_len in
            if (g_records group =? 0) && (max_group_bytes <? first_required)
            then (s, Err (GroupTooLarge first_required max_group_bytes))
            else
            let start := ws_next_seq s in
            match checked_add u64_max start (len records) with
            | None => (s, Err SequenceExhausted)
            | Some end_ =>
              match encode_batch start records [] with
              | Err e => (s, Err (WriteRecord e))
              | Ok encoded =>
                match place_records max_group_bytes encoded encoded_lengths start 0 0 s with
                | (s, Err e) => (s, Err e)
                | (s, Ok (offset, chunk_start)) =>
                  match current_group s with
                  | Err e => (s, Err e)
                  | Ok group =>
                    let s := set_current_group
                      (push_chunk {| ch_encoded := encoded;
                                     ch_range := (chunk_start, offset) |} group) s in
                    let s := set_next_seq end_ s in
                    let leader := negb (ws_barrier_in_flight s) in
                    let s := if leader then set_barrier true s else s in
                    (s, Ok (start, end_, leader))
                  end
                end
              end
            end
          end
        end
      end
    end
  end.
End Staging.

(** ** Flushing *)

(** First critical section of a [flush_as_leader] turn. *)
Definition leader_pop (s : WriterState) : WriterState * result WalWriteError (Group * Z) :=
  match ws_pending_groups s with
  | [] => (s, Err (Poisoned "WAL leader found no pending group"))
  | group :: rest =>
      let s := set_pending rest s in
      match g_last_seq group with
      | None => (s, Err (Poisoned "WAL leader found no pending sequence"))
      | Some last_seq => (s, Ok (group, last_seq))
      end
  end.

(** What the outside world does to one group write: the append fails after
    [n] bytes, the file sync fails, the directory sync fails. *)
Record GroupIo : Type := {
  io_append : option (ErrorKind * nat);
  io_file_sync : option ErrorKind;
  io_directory_sync : option ErrorKind;
}.

Definition io_ok : GroupIo :=
  {| io_append := None; io_file_sync := None; io_directory_sync := None |}.

(** [counter.fetch_add(n, Relaxed)] on [io_work[i]] (an atomic, so it wraps). *)
Definition bump (i : nat) (n : Z) (work : list Z) : list Z :=
  match work !! i with
  | Some c => <[i := (c + n) `mod` 2 ^ 64]> work
  | None => work
  end.

Definition with_io (file : bytes) (synced : Z) (dir : option SyncKind) (work : list Z)
    (w : WalWriter) : WalWriter :=
  {| ww_state := ww_state w; ww_file := file; ww_synced := synced;
     ww_created_directory_sync := dir; ww_sync := ww_sync w;
     ww_max_group_bytes := ww_max_group_bytes w;
     ww_durable_progress := ww_durable_progress w; ww_io_work := work |}.

(** [write_group], which runs without the state lock. *)
Definition write_group (io : GroupIo) (group : Group) (w : WalWriter)
    : WalWriter * result ErrorKind unit :=
  match mapM chunk_bytes (g_chunks group) with
  | None => (w, Err OtherKind)
  | Some buffers =>
    let work := bump 0 1 (ww_io_work w) in
    let data := concat buffers in
    match io_append io with
    | Some (kind, n) =>
        (with_io (ww_file w ++ take n data) (ww_synced w)
           (ww_created_directory_sync w) work w, Err kind)
    | None =>
      let file := ww_file w ++ data in
      let work := bump 1 (g_encoded_bytes group) work in
      let '(work, synced, sync_result) :=
        match ww_sync w with
        | SyncSkip => (work, ww_synced w, Ok tt)
        | SyncWith kind =>
            let work := if bool_decide (kind = Full) then bump 2 1 work else work in
            match io_file_sync io with
            | Some error => (work, ww_synced w, Err error)
            | None => (if bool_decide (kind = Full) then bump 3 1 work else work,
                       len file, Ok tt)
            end
        end in
      let w := with_io file synced (ww_created_directory_sync w) work w in
      match sync_result with
      | Err error => (w, Err error)
      | Ok _ =>
        match ww_created_directory_sync w with
        | None => (w, Ok tt)
        | Some _ =>
          match io_directory_sync io with
          | Some error => (w, Err error)
          | None => (with_io file synced None work w, Ok tt)
          end
        end
      end
    end
  end.

Inductive LeaderOutcome : Type :=
| LeaderContinue
| LeaderDone
| LeaderFailed (error : WalWriteError).

(** The success branch of the second critical section: progress and statistics. *)
Definition record_completed (group : Group) (last_seq : Z) (s : WriterState) : WriterState :=
  {| ws_next_seq := ws_next_seq s; ws_visible := ws_visible s;
     ws_retained_bytes := ws_retained_bytes s; ws_durable_end := Some last_seq;
     ws_pending_groups := ws_pending_groups s; ws_spare_chunks := ws_spare_chunks s;
     ws_barrier_in_flight := ws_barrier_in_flight s; ws_failure := ws_failure s;
     ws_completed_groups := saturating_add u64_max (ws_completed_groups s) 1;
     ws_completed_records :=
       saturating_add u64_max (ws_completed_records s) (g_records group);
     ws_completed_bytes :=
       saturating_add u64_max (ws_completed_bytes s) (g_encoded_bytes group);
     ws_encoded_buffer_allocations := ws_encoded_buffer_allocations s;
     ws_group_size_histogram :=
       histogram_record (ws_group_size_histogram s) (g_records group);
     ws_recent_groups :=
       (if len (ws_recent_groups s) =? RECENT_GROUP_LIMIT
        then tail (ws_recent_groups s) else ws_recent_groups s)
       ++ [{| cg_records := g_records group; cg_encoded_bytes := g_encoded_bytes group |}] |}.

(** Second critical section of a turn, with the result of [write_group]. *)
Definition leader_complete (group : Group) (last_seq : Z) (written : result ErrorKind unit)
    (w : WalWriter) : WalWriter * LeaderOutcome :=
  let s := set_spare [] (ww_state w) in
  match written with
  | Ok _ =>
      let s := record_completed group last_seq s in
      let w := {| ww_state := s; ww_file := ww_file w; ww_synced := ww_synced w;
                  ww_created_directory_sync := ww_created_directory_sync w;
                  ww_sync := ww_sync w; ww_max_group_bytes := ww_max_group_bytes w;
                  ww_durable_progress := last_seq; ww_io_work := ww_io_work w |} in
      match ws_pending_groups s with
      | [] => (with_state (set_barrier false s) w, LeaderDone)
      | _ => (w, LeaderContinue)
      end
  | Err kind =>
      (with_state (set_barrier false (set_failure (Some kind) s)) w,
       LeaderFailed (Failed kind))
  end.

(** The locked part of [flush]. *)
Inductive FlushBegin : Type :=
| FlushReturn (r : result WalWriteError unit)
| FlushWait (target : Z) (leader : bool).

Definition flush_begin (s : WriterState) : WriterState * FlushBegin :=
  match ws_failure s with
  | Some kind => (s, FlushReturn (Err (Failed kind)))
  | None =>
    match last (ws_visible s) with
    | None => (s, FlushReturn (Ok tt))
    | Some record =>
      let target := vr_seq record in
      if match ws_durable_end s with Some d => target <=? d | None => false end
      then (s, FlushReturn (Ok tt))
      else if ws_barrier_in_flight s then (s, FlushWait target false)
      else if existsb (λ g, negb (g_records g =? 0)) (ws_pending_groups s)
      then (set_barrier true s, FlushWait target true)
      else (s, FlushReturn (Err (Poisoned
              "non-durable WAL record has neither a pending group nor a leader")))
    end
  end.

(** One turn of [wait_until_durable]: [None] waits. *)
Definition durable_check (seq : Z) (s : WriterState) : option (result WalWriteError unit) :=
  if match ws_durable_end s with Some d => d <? seq | None => true end then
    match ws_failure s with
    | Some kind => Some (Err (Failed kind))
    | None => None
    end
  else Some (Ok tt).

(** [get_or_insert_with] on the failure slot. *)
Definition poison (kind : ErrorKind) (s : WriterState) : WriterState :=
  match ws_failure s with
  | Some _ => s
  | None => set_failure (Some kind) s
  end.

(** ** Reading and retiring *)

Definition visible_records (first_seq limit : Z) (s : WriterState) : list VisibleRecord :=
  take (Z.to_nat limit) (List.filter (λ r, first_seq <=? vr_seq r) (ws_visible s)).

Record WalRetirement : Type := {
  rt_absorbed_through : Z;
  rt_records_released : Z;
  rt_encoded_bytes_released : Z;
  rt_retained_records : Z;
  rt_retained_bytes : Z;
  rt_durable_end : option Z;
}.

Inductive WalRetireError : Type :=
| BeyondDurable (requested : Z) (durable_end : option Z).

(** The guard both critical sections of [retire_visible_through] apply. *)
Definition retire_check (absorbed_through : Z) (s : WriterState) : result WalRetireError unit :=
  if match ws_durable_end s with Some d => d <? absorbed_through | None => true end
  then Err (BeyondDurable absorbed_through (ws_durable_end s))
  else Ok tt.

(** The pop loop: [(retired, kept, retained_bytes)]. *)
Fixpoint retire_loop (absorbed_through : Z) (visible : list VisibleRecord) (retained : Z)
    : list VisibleRecord * list VisibleRecord * Z :=
  match visible with
  | [] => ([], [], retained)
  | record :: rest =>
      if vr_seq record <=? absorbed_through then
        let '(retired, kept, retained) :=
          retire_loop absorbed_through rest
            (saturating_sub retained (visible_encoded_len record)) in
        (record :: retired, kept, retained)
      else ([], visible, retained)
  end.

Definition retire_visible_through (absorbed_through : Z) (s : WriterState)
    : WriterState * result WalRetireError WalRetirement :=
  match retire_check absorbed_through s with
  | Err e => (s, Err e)
  | Ok _ =>
      let '(retired, kept, retained) :=
        retire_loop absorbed_through (ws_visible s) (ws_retained_bytes s) in
      (set_visible kept retained s,
       Ok {| rt_absorbed_through := absorbed_through;
             rt_records_released := len retired;
             rt_encoded_bytes_released :=
               foldl (λ total r, saturating_add usize_max total (visible_encoded_len r))
                 0 retired;
             rt_retained_records := len kept;
             rt_retained_bytes := retained;
             rt_durable_end := ws_durable_end s |})
  end.

Record WalWriterStats : Type := {
  st_completed_groups : Z;
  st_completed_records : Z;
  st_completed_bytes : Z;
  st_group_size_histogram : list Z;
  st_recent_groups : list CompletedGroup;
  st_pending_records : Z;
  st_visible_end : option Z;
  st_durable_end : option Z;
  st_retained_records : Z;
  st_retained_bytes : Z;
  st_encoded_buffer_allocations : Z;
}.

Definition stats (s : WriterState) : WalWriterStats :=
  {| st_completed_groups := ws_completed_groups s;
     st_completed_records := ws_completed_records s;
     st_completed_bytes := ws_completed_bytes s;
     st_group_size_histogram := ws_group_size_histogram s;
     st_recent_groups := ws_recent_groups s;
     st_pending_records :=
       foldl (λ total g, saturating_add usize_max total (g_records g)) 0 (ws_pending_groups s);
     st_visible_end := vr_seq <$> last (ws_visible s);
     st_durable_end := ws_durable_end s;
     st_retained_records := len (ws_visible s);
     st_retained_bytes := ws_retained_bytes s;
     st_encoded_buffer_allocations := ws_encoded_buffer_allocations s |}.

(** Pending bytes (including a fresh header) and the group cap. *)
Definition atomic_run_bound (w : WalWriter) : Z * Z :=
  (foldl (λ sum g, saturating_add usize_max sum (g_encoded_bytes g)) 0
     (ws_pending_groups (ww_state w)),
   ww_max_group_bytes w).
