(* ===== verification/WalConcurrency.v ===== *)
(** * Interleaved WAL writers

    The thread-level model of [WalWriter] ([crates/zeppelin-embed/src/wal/mod.rs]):
    [commit], [commit_durable], [commit_many], [commit_many_durable], [flush],
    [retire_visible_through] and [poison] as small programs whose steps are the
    critical sections of [WalWriter.v], run by any number of threads over one
    shared writer.

    [exec] executes one action of one thread; [step] is its relation and
    [reachable] its closure from a freshly created writer.  The system carries
    two ghost lists that no step reads: [sys_log], every record ever staged, and
    [sys_acked], every sequence a [*_durable] commit or a [flush] reported as
    durable. *)

From S2P Require Import Prelude Format WalRecord WalReplay Durability WalWriter.

(** ** Threads *)

Inductive Value : Type :=
| VSeq (seq : Z)
| VRange (start end_ : Z)
| VUnit
| VRetired (r : result WalRetireError WalRetirement).

(** What a call does once its group is flushed, or at once for a follower. *)
Inductive Cont : Type :=
| KReturn (v : Value)
| KWait (seq : Z) (v : Value).

Inductive Pc : Type :=
| Idle
| Staging (op : Z) (payload : bytes) (encoded_len : Z) (durable : bool)
| LeaderTop (k : Cont)
| LeaderWrite (group : Group) (last_seq : Z) (k : Cont)
| LeaderEnd (group : Group) (last_seq : Z) (written : result ErrorKind unit) (k : Cont)
| WaitingDurable (seq : Z) (v : Value)
| Retiring (absorbed_through : Z)
| Returned (r : result WalWriteError Value).

Inductive Call : Type :=
| Commit (op : Z) (payload : bytes) (durable : bool)
| CommitMany (records : list (Z * bytes)) (durable : bool)
| Flush
| Retire (absorbed_through : Z)
| Poison (kind : ErrorKind).

Record System : Type := {
  sys_writer : WalWriter;
  sys_threads : gmap nat Pc;
  sys_log : list WalRecord;
  sys_acked : list Z;
}.

Inductive Action : Type :=
| Start (t : nat) (c : Call)
| Run (t : nat) (io : GroupIo)
| Collect (t : nat).

Definition pc_of (t : nat) (sys : System) : Pc := default Idle (sys_threads sys !! t).

Definition resume_with (k : Cont) : Pc :=
  match k with
  | KReturn v => Returned (Ok v)
  | KWait seq v => WaitingDurable seq v
  end.

(** [if leader { self.flush_as_leader()? }], then the rest of the call. *)
Definition after_staging (leader : bool) (k : Cont) : Pc :=
  if leader then LeaderTop k else resume_with k.

Definition goto (t : nat) (pc : Pc) (w : WalWriter) (log : list WalRecord)
    (acked : list Z) (sys : System) : System :=
  {| sys_writer := w; sys_threads := <[t := pc]> (sys_threads sys);
     sys_log := log; sys_acked := acked |}.

Section Exec.
Context {X : Xxh3}.

Definition exec_commit_many (t : nat) (records : list (Z * bytes)) (durable : bool)
    (sys : System) : System :=
  let w := sys_writer sys in
  match stage_many (ww_max_group_bytes w) records (ww_state w) with
  | (s, Err e) => goto t (Returned (Err e)) (with_state s w) (sys_log sys) (sys_acked sys) sys
  | (s, Ok (start, end_, leader)) =>
      let k := if durable && negb (start =? end_)
               then KWait (saturating_sub end_ 1) (VRange start end_)
               else KReturn (VRange start end_) in
      goto t (after_staging leader k) (with_state s w)
        (sys_log sys ++ number start records) (sys_acked sys) sys
  end.

Definition exec_stage (t : nat) (op : Z) (payload : bytes) (encoded_len : Z)
    (durable : bool) (sys : System) : System :=
  let w := sys_writer sys in
  match stage_attempt (ww_max_group_bytes w) op payload encoded_len (ww_state w) with
  | (s, StageErr e) =>
      goto t (Returned (Err e)) (with_state s w) (sys_log sys) (sys_acked sys) sys
  | (s, StageWait) =>
      goto t (Staging op payload encoded_len durable) (with_state s w)
        (sys_log sys) (sys_acked sys) sys
  | (s, Staged seq leader) =>
      let k := if durable then KWait seq (VSeq seq) else KReturn (VSeq seq) in
      goto t (after_staging leader k) (with_state s w)
        (sys_log sys ++ [{| wr_seq := seq; wr_op := op; wr_payload := payload |}])
        (sys_acked sys) sys
  end.

Definition exec_start (t : nat) (c : Call) (sys : System) : System :=
  let w := sys_writer sys in
  match c with
  | Commit op payload durable =>
      let pc := match encoded_record_len (len payload) with
                | Err e => Returned (Err (WriteRecord e))
                | Ok encoded_len => Staging op payload encoded_len durable
                end in
      goto t pc w (sys_log sys) (sys_acked sys) sys
  | CommitMany records durable => exec_commit_many t records durable sys
  | Flush =>
      match flush_begin (ww_state w) with
      | (s, FlushReturn (Ok _)) =>
          goto t (Returned (Ok VUnit)) (with_state s w) (sys_log sys) (sys_acked sys) sys
      | (s, FlushReturn (Err e)) =>
          goto t (Returned (Err e)) (with_state s w) (sys_log sys) (sys_acked sys) sys
      | (s, FlushWait target leader) =>
          goto t (after_staging leader (KWait target VUnit)) (with_state s w)
            (sys_log sys) (sys_acked sys) sys
      end
  | Retire n =>
      let pc := match retire_check n (ww_state w) with
                | Err e => Returned (Ok (VRetired (Err e)))
                | Ok _ => Retiring n
                end in
      goto t pc w (sys_log sys) (sys_acked sys) sys
  | Poison kind =>
      goto t (Returned (Ok VUnit)) (with_state (poison kind (ww_state w)) w)
        (sys_log sys) (sys_acked sys) sys
  end.

(** One step of a running call; [None] when the thread is blocked or has
    nothing to run. *)
Definition exec_run (t : nat) (io : GroupIo) (sys : System) : option System :=
  let w := sys_writer sys in
  let log := sys_log sys in
  let acked := sys_acked sys in
  match pc_of t sys with
  | Idle | Returned _ => None
  | Staging op payload encoded_len durable =>
      Some (exec_stage t op payload encoded_len durable sys)
  | LeaderTop k =>
      Some (match leader_pop (ww_state w) with
            | (s, Err e) => goto t (Returned (Err e)) (with_state s w) log acked sys
            | (s, Ok (group, last_seq)) =>
                goto t (LeaderWrite group last_seq k) (with_state s w) log acked sys
            end)
  | LeaderWrite group last_seq k =>
      let '(w, written) := write_group io group w in
      Some (goto t (LeaderEnd group last_seq written k) w log acked sys)
  | LeaderEnd group last_seq written k =>
      Some (match leader_complete group last_seq written w with
            | (w, LeaderContinue) => goto t (LeaderTop k) w log acked sys
            | (w, LeaderDone) => goto t (resume_with k) w log acked sys
            | (w, LeaderFailed e) => goto t (Returned (Err e)) w log acked sys
            end)
  | WaitingDurable seq v =>
      match durable_check seq (ww_state w) with
      | None => None
      | Some (Ok _) => Some (goto t (Returned (Ok v)) w log (acked ++ [seq]) sys)
      | Some (Err e) => Some (goto t (Returned (Err e)) w log acked sys)
      end
  | Retiring n =>
      let '(s, r) := retire_visible_through n (ww_state w) in
      Some (goto t (Returned (Ok (VRetired r))) (with_state s w) log acked sys)
  end.

Definition exec (a : Action) (sys : System) : option System :=
  match a with
  | Start t c =>
      match pc_of t sys with
      | Idle => Some (exec_start t c sys)
      | _ => None
      end
  | Run t io => exec_run t io sys
  | Collect t =>
      match pc_of t sys with
      | Returned _ =>
          Some (goto t Idle (sys_writer sys) (sys_log sys) (sys_acked sys) sys)
      | _ => None
      end
  end.

(** A schedule, for evaluating concrete interleavings. *)
Fixpoint exec_all (actions : list Action) (sys : System) : option System :=
  match actions with
  | [] => Some sys
  | a :: actions => sys ← exec a sys; exec_all actions sys
  end.

(** What the type system and the allocator guarantee of a call's arguments:
    operation codes are [u16], and an encoded batch is one allocation, so it
    has at most [isize::MAX] bytes. *)
Definition batch_ok (records : list (Z * bytes)) : Prop :=
  Forall (λ r, is_u16 r.1) records ∧ len (records_bytes (number 0 records)) ≤ isize_max.

Definition action_ok (a : Action) : Prop :=
  match a with
  | Start _ (Commit op _ _) => is_u16 op
  | Start _ (CommitMany records _) => batch_ok records
  | _ => True
  end.

Inductive step : System → System → Prop :=
| step_exec a sys sys' : action_ok a → exec a sys = Some sys' → step sys sys'.
End Exec.

Definition start_system (w : WalWriter) (log : list WalRecord) : System :=
  {| sys_writer := w; sys_threads := ∅; sys_log := log; sys_acked := [] |}.

(** Every state some interleaving reaches, either from a writer created over a
    new or empty WAL path, or from one resumed over a clean log image that is
    on disk. *)
Inductive reachable {X : Xxh3} (first_seq max : Z) (policy : DurabilityPolicy)
    : System → Prop :=
| reachable_create w :
    create_with_max_group_bytes (Ok 0) (Ok tt) first_seq policy max = Ok w →
    reachable first_seq max policy (start_system w [])
| reachable_resume rs rd cl w :
    Forall record_ok rs → sequenced first_seq rs → first_seq + len rs ≤ u64_max →
    reader_open (Ok (wal_image first_seq rs)) = Some (Ok rd) → into_clean rd = Ok cl →
    resume cl (Ok tt) (wal_image first_seq rs) (len (wal_image first_seq rs)) policy = Ok w →
    max = default_max_group_bytes policy →
    reachable first_seq max policy (start_system w rs)
| reachable_step sys sys' :
    reachable first_seq max policy sys → step sys sys' →
    reachable first_seq max policy sys'.

(** ** Runs *)

Lemma reachable_exec_all {X : Xxh3} first max policy actions : ∀ sys sys',
  reachable first max policy sys → Forall action_ok actions →
  exec_all actions sys = Some sys' → reachable first max policy sys'.
Proof.
  induction actions as [|a actions IH]; intros sys sys' Hr Ha H.
  { cbn in H. by injection H as <-. }
  apply Forall_cons in Ha as [Ha1 Ha]. cbn [exec_all] in H.
  destruct (exec a sys) as [sys1|] eqn:E; [|done]. cbn in H.
  apply (IH sys1); [|done|done]. eapply reachable_step; [done|]. by econstructor.
Qed.

(** ** A leader stranded by a rejected record *)

Module Stall.
Definition max : Z := 64.
Definition skip : DurabilityPolicy :=
  {| data_file_sync := SyncSkip; directory_sync := SyncSkip |}.
Definition small : bytes := [Byte.x01].
Definition huge : bytes := replicate 50 Byte.x00.

(** Thread 1 commits a small record and is writing its group when thread 2
    commits a record that exceeds the group bound; thread 1 then finishes its
    group and looks for the next one. *)
Definition schedule : list Action := [
  Start 1 (Commit 1 small true); Run 1 io_ok; Run 1 io_ok; Run 1 io_ok;
  Start 2 (Commit 2 huge true); Run 2 io_ok;
  Run 1 io_ok; Run 1 io_ok;
  Collect 1; Collect 2;
  Start 3 (Commit 3 small true); Run 3 io_ok].

Definition outcome : option System :=
  match create_with_max_group_bytes (Ok 0) (Ok tt) 1 skip max with
  | Ok w => exec_all (X:=ToyXxh3.toy) schedule (start_system w [])
  | Err _ => None
  end.
End Stall.
