(* ===== verification/WalInvariant.v ===== *)
(** * Invariants of the WAL writer state

    The state invariant of [WriterState] ([st_inv]) and its preservation by
    every critical section of [WalWriter.v].

    The invariant ties the state to a ghost log, the list of every record staged
    so far: the bytes already handed to a leader ([base]) followed by the bytes
    of the pending groups are exactly the log image of the ghost log, each group
    stays within the byte bound, and the sequence a group reports as its last is
    a record that ends inside the group. *)

From S2P Require Import Prelude Format WalRecord WalReplay Durability WalWriter WalConcurrency.

(** ** Bytes of chunks and groups *)

Definition chunk_data (c : EncodedChunk) : bytes := default [] (chunk_bytes c).
Definition group_bytes (g : Group) : bytes := concat (map chunk_data (g_chunks g)).
Definition groups_bytes (gs : list Group) : bytes := concat (map group_bytes gs).

Lemma groups_bytes_app gs gs' :
  groups_bytes (gs ++ gs') = groups_bytes gs ++ groups_bytes gs'.
Proof. unfold groups_bytes. by rewrite map_app, concat_app. Qed.

Lemma groups_bytes_one g : groups_bytes [g] = group_bytes g.
Proof. unfold groups_bytes. simpl. apply app_nil_r. Qed.

Lemma group_bytes_push c g : group_bytes (push_chunk c g) = group_bytes g ++ chunk_data c.
Proof.
  unfold group_bytes, push_chunk. cbn [g_chunks]. rewrite map_app, concat_app. simpl.
  by rewrite app_nil_r.
Qed.

Lemma chunks_buffers cs :
  Forall (λ c, is_Some (chunk_bytes c)) cs →
  mapM chunk_bytes cs = Some (map chunk_data cs).
Proof.
  induction 1 as [|c cs [b Hb] _ IH]; [done|]. cbn [mapM]. rewrite Hb. rsimpl.
  rewrite IH. rsimpl. cbn [map]. unfold chunk_data. by rewrite Hb.
Qed.

(** ** Where a record ends in the log *)

Section EndOff.
Context {X : Xxh3}.

(** The file offset at which the record with sequence [q] ends. *)
Definition end_off (first : Z) (log : list WalRecord) (q : Z) : Z :=
  WAL_HEADER_LEN + len (records_bytes (take (Z.to_nat (q - first + 1)) log)).

Lemma end_off_app first log more q :
  q < first + len log → end_off first (log ++ more) q = end_off first log q.
Proof.
  intros H. unfold end_off. rewrite take_app_le; [done|]. unfold len in H. lia.
Qed.

Lemma end_off_last first log q :
  q = first + len log - 1 → end_off first log q = len (wal_image first log).
Proof.
  intros ->. unfold end_off, wal_image. rewrite len_app, len_wal_header_bytes.
  rewrite take_ge; [done|]. unfold len. lia.
Qed.

Lemma end_off_mono first log q q' : q ≤ q' → end_off first log q ≤ end_off first log q'.
Proof.
  intros H. unfold end_off.
  rewrite <- (take_drop (Z.to_nat (q - first + 1)) (take (Z.to_nat (q' - first + 1)) log)).
  rewrite take_take, Nat.min_l, records_bytes_app, len_app by lia.
  pose proof (len_nonneg (records_bytes (drop (Z.to_nat (q - first + 1))
                                          (take (Z.to_nat (q' - first + 1)) log)))). lia.
Qed.

Lemma sequenced_app s rs rs' :
  sequenced s rs → sequenced (s + len rs) rs' → sequenced s (rs ++ rs').
Proof.
  revert s. induction rs as [|r rs IH]; intros s H H'.
  { by rewrite len_nil, Z.add_0_r in H'. }
  rewrite len_cons in *. destruct H as [Hr H]. split; [done|].
  apply IH; [done|]. by replace (s + 1 + len rs) with (s + (1 + len rs)) by lia.
Qed.

Lemma sequenced_number s records : sequenced s (number s records).
Proof. revert s. induction records as [|[op p] records IH]; intros s; [done|]. split; [done|apply IH]. Qed.

Lemma len_number s records : len (number s records) = len records.
Proof.
  revert s. induction records as [|[op p] records IH]; intros s; [done|].
  cbn [number]. by rewrite !len_cons, IH.
Qed.
End EndOff.

(** ** Groups that tile the log *)

Section GroupInv.
Context {X : Xxh3}.
Context (first max : Z).

(** A group starting at file offset [B], after a group whose last sequence is
    [fl]. *)
Record group_ok (log : list WalRecord) (B fl : Z) (g : Group) : Prop := {
  go_chunks : Forall (λ c, is_Some (chunk_bytes c)) (g_chunks g);
  go_len : g_encoded_bytes g = len (group_bytes g);
  go_max : g_encoded_bytes g ≤ max;
  go_last : match g_last_seq g with
            | None => g_records g = 0
            | Some l => 0 < g_records g ∧ fl < l ∧ first ≤ l < first + len log
                        ∧ end_off first log l ≤ B + len (group_bytes g)
            end;
}.

Definition floor_after (fl : Z) (gs : list Group) : Z :=
  foldl (λ fl g, default fl (g_last_seq g)) fl gs.

Fixpoint groups_ok (log : list WalRecord) (B fl : Z) (gs : list Group) : Prop :=
  match gs with
  | [] => True
  | g :: gs =>
      group_ok log B fl g
      ∧ groups_ok log (B + len (group_bytes g)) (default fl (g_last_seq g)) gs
  end.

Lemma groups_ok_snoc log B fl gs g :
  groups_ok log B fl (gs ++ [g]) ↔
  groups_ok log B fl gs
  ∧ group_ok log (B + len (groups_bytes gs)) (floor_after fl gs) g.
Proof.
  revert B fl. induction gs as [|h gs IH]; intros B fl.
  { cbn [app groups_ok floor_after foldl]. change (groups_bytes []) with (@nil byte).
    rewrite len_nil, Z.add_0_r. tauto. }
  cbn [app groups_ok]. rewrite IH. unfold floor_after. cbn [foldl].
  change (groups_bytes (h :: gs)) with (group_bytes h ++ groups_bytes gs).
  rewrite len_app. replace (B + (len (group_bytes h) + len (groups_bytes gs)))
    with (B + len (group_bytes h) + len (groups_bytes gs)) by lia. tauto.
Qed.

Lemma group_ok_log log more B fl g : group_ok log B fl g → group_ok (log ++ more) B fl g.
Proof.
  intros [H1 H2 H3 H4]. split; [done..|]. destruct (g_last_seq g) as [l|]; [|done].
  destruct H4 as (? & ? & ? & ?). rewrite end_off_app, len_app by lia.
  pose proof (len_nonneg more). split_and!; (done || lia).
Qed.

Lemma groups_ok_log log more gs : ∀ B fl,
  groups_ok log B fl gs → groups_ok (log ++ more) B fl gs.
Proof.
  induction gs as [|g gs IH]; intros B fl H; [done|]. destruct H as [H1 H2].
  split; [by apply group_ok_log|by apply IH].
Qed.

Lemma floor_after_le log gs : ∀ B fl,
  groups_ok log B fl gs → fl < first + len log →
  fl ≤ floor_after fl gs < first + len log.
Proof.
  induction gs as [|g gs IH]; intros B fl H Hfl; [unfold floor_after; simpl; lia|].
  destruct H as [Hg H]. destruct Hg as [_ _ _ Hl]. apply IH in H; unfold floor_after in *;
    cbn [foldl]; destruct (g_last_seq g) as [l|]; simpl in *; lia.
Qed.

(** An empty group may follow any group. *)
Lemma group_ok_empty log B fl :
  0 ≤ max →
  group_ok log B fl {| g_chunks := []; g_encoded_bytes := 0; g_records := 0; g_last_seq := None |}.
Proof. intros H. split; done || constructor. Qed.

(** Appending one valid chunk that ends with the last record of the log. *)
Lemma group_ok_push log B fl g c n :
  group_ok log B fl g → is_Some (chunk_bytes c) → n = g_encoded_bytes g + len (chunk_data c) →
  n ≤ max → group_ok log B fl (set_encoded_bytes n (push_chunk c g)).
Proof.
  intros [H1 H2 H3 H4] Hc -> Hm. split; cbn [g_chunks g_encoded_bytes g_last_seq g_records
    set_encoded_bytes push_chunk].
  - by apply Forall_app_2; [|repeat constructor].
  - change (group_bytes _) with (group_bytes (push_chunk c g)).
    rewrite group_bytes_push, len_app. lia.
  - done.
  - destruct (g_last_seq g) as [l|]; [|done].
    change (group_bytes (set_encoded_bytes _ _)) with (group_bytes (push_chunk c g)).
    rewrite group_bytes_push, len_app. pose proof (len_nonneg (chunk_data c)).
    destruct H4 as (?&?&?&?). split_and!; (done || lia).
Qed.

(** Counting the last record of the log in a group that its bytes fill. *)
Lemma group_ok_count log B fl g r :
  group_ok log B fl g → 0 ≤ first → fl < first + len log →
  len (wal_image first (log ++ [r])) ≤ B + len (group_bytes g) →
  group_ok (log ++ [r]) B fl (count_record (first + len log) g).
Proof.
  intros [H1 H2 H3 H4] Hf Hfl Hend. split; cbn [g_chunks g_encoded_bytes g_last_seq
    g_records count_record]; [done..|].
  change (group_bytes (count_record _ g)) with (group_bytes g).
  assert (len (log ++ [r]) = len log + 1) as Hlog by (rewrite len_app; done).
  rewrite end_off_last, Hlog by lia.
  assert (0 ≤ g_records g) by (destruct (g_last_seq g); lia).
  pose proof (len_nonneg log).
  split_and!; [unfold saturating_add, usize_max, u64_max; lia|lia|lia|lia|done].
Qed.
End GroupInv.

(** ** The state invariant *)

Section StateInv.
Context {X : Xxh3}.
Context (first max : Z).

(** A visible entry shows exactly its record. *)
Definition vis_ok (r : WalRecord) (v : VisibleRecord) : Prop :=
  vr_seq v = wr_seq r ∧ vr_op v = wr_op r ∧ visible_encoded v = Ok (record_bytes r).

(** Entries leave the visible queue only from the front, and only once durable. *)
Definition vis_inv (log : list WalRecord) (s : WriterState) : Prop :=
  ∃ n : nat, (n ≤ length log)%nat
    ∧ Forall2 vis_ok (drop n log) (ws_visible s)
    ∧ ws_retained_bytes s = len (records_bytes (drop n log))
    ∧ (n = 0%nat ∨ ∃ d, ws_durable_end s = Some d ∧ first + Z.of_nat n - 1 ≤ d).

(** A group without a last sequence holds no bytes; the one exception is the
    group of the header before the first record. *)
Definition counted (g : Group) : Prop := g_last_seq g = None → group_bytes g = [].
Definition all_counted (log : list WalRecord) (gs : list Group) : Prop :=
  Forall counted (removelast gs) ∧ (log ≠ [] → Forall counted gs).

Lemma all_counted_snoc log gs g :
  Forall counted gs → g_last_seq g ≠ None → all_counted log (gs ++ [g]).
Proof.
  intros H1 H2. unfold all_counted. rewrite removelast_last. split; [done|].
  intros _. apply Forall_app_2; [done|]. apply Forall_singleton. intros E. by destruct H2.
Qed.

Record st_inv (log : list WalRecord) (base : bytes) (fl : Z) (s : WriterState) : Prop := {
  si_first : 1 ≤ first;
  si_next : ws_next_seq s = first + len log;
  si_bound : first + len log ≤ u64_max;
  si_ok : Forall record_ok log;
  si_seq : sequenced first log;
  si_bytes : base ++ groups_bytes (ws_pending_groups s) = wal_image first log;
  si_groups : groups_ok first max log (len base) fl (ws_pending_groups s);
  si_counted : all_counted log (ws_pending_groups s);
  si_spare : ws_spare_chunks s = [];
  si_floor : first - 1 ≤ fl < first + len log;
  si_durable : ∀ d, ws_durable_end s = Some d → first - 1 ≤ d ≤ fl;
  si_vis : vis_inv log s;
}.

(** The fields no staging step touches. *)
Definition frame (s s' : WriterState) : Prop :=
  ws_durable_end s' = ws_durable_end s ∧ ws_failure s' = ws_failure s.

Lemma frame_refl s : frame s s.
Proof. done. Qed.

(** Replacing the pending groups (and the barrier bit) by ones that tile the
    same bytes keeps the invariant. *)
Lemma st_inv_pending log base fl s s' gs :
  st_inv log base fl s → ws_next_seq s' = ws_next_seq s → ws_visible s' = ws_visible s →
  ws_retained_bytes s' = ws_retained_bytes s → ws_spare_chunks s' = [] →
  frame s s' → ws_pending_groups s' = gs →
  base ++ groups_bytes gs = wal_image first log →
  groups_ok first max log (len base) fl gs → all_counted log gs → st_inv log base fl s'.
Proof.
  intros [H1 H2 H3 H4 H5 H6 H7 Hct H8 H9 H10 H11] E1 E2 E3 E4 [E5 E6] E7 Hb Hg Hc.
  split; rewrite ?E1, ?E2, ?E3, ?E4, ?E5, ?E6, ?E7; try done.
  unfold vis_inv in *. by rewrite E2, E3, E5.
Qed.

Lemma st_inv_ensure log base fl s :
  st_inv log base fl s → 0 ≤ max → st_inv log base fl (ensure_pending_group s).
Proof.
  intros H Hmax. unfold ensure_pending_group.
  destruct (ws_pending_groups s) as [|g gs] eqn:Hp; [|done].
  pose proof (si_spare _ _ _ _ H) as Hsp. pose proof (si_bytes _ _ _ _ H) as Hb.
  eapply st_inv_pending; [exact H|done..| | |].
  - unfold push_empty_pending_group. cbn. rewrite Hp, Hsp in *. done.
  - cbn. rewrite Hp, Hsp. split; [|done]. by apply group_ok_empty.
  - cbn. rewrite Hp, Hsp. split; [done|]. intros _. by apply Forall_singleton.
Qed.

Lemma ensure_pending_last s :
  ∃ gs g, ws_pending_groups (ensure_pending_group s) = gs ++ [g].
Proof.
  unfold ensure_pending_group. destruct (ws_pending_groups s) as [|g gs] eqn:Hp.
  - eexists [], _. cbn. by rewrite Hp.
  - rewrite Hp. destruct (exists_last (l := g :: gs)) as (l & x & ->); [done|]. by exists l, x.
Qed.

Lemma ensure_pending_frame s :
  frame s (ensure_pending_group s)
  ∧ ws_visible (ensure_pending_group s) = ws_visible s
  ∧ ws_next_seq (ensure_pending_group s) = ws_next_seq s
  ∧ ws_barrier_in_flight (ensure_pending_group s) = ws_barrier_in_flight s.
Proof. unfold ensure_pending_group. by destruct (ws_pending_groups s). Qed.

Lemma current_group_snoc s gs g :
  ws_pending_groups s = gs ++ [g] → current_group s = Ok g.
Proof. intros H. unfold current_group. by rewrite H, last_snoc. Qed.

Lemma set_current_group_snoc s gs g g' :
  ws_pending_groups s = gs ++ [g] →
  set_current_group g' s = set_pending (gs ++ [g']) s.
Proof. intros H. unfold set_current_group. by rewrite H, removelast_last. Qed.

Lemma vis_inv_push log s s' r v :
  vis_inv log s → vis_ok r v → len (wal_image first (log ++ [r])) ≤ isize_max →
  ws_visible s' = ws_visible s ++ [v] →
  ws_retained_bytes s' =
    saturating_add usize_max (ws_retained_bytes s) (len (record_bytes r)) →
  ws_durable_end s' = ws_durable_end s → vis_inv (log ++ [r]) s'.
Proof.
  intros (n & Hn & Hf & Hret & Hd) Hv Hl E2 E3 E5. exists n. rewrite E2, E3, E5.
  rewrite drop_app_le by done. split_and!; [| | |done].
  - rewrite length_app. simpl. lia.
  - apply Forall2_app; [done|by apply Forall2_cons].
  - rewrite Hret, records_bytes_app, len_app, records_bytes_cons.
    rewrite len_app. change (len (records_bytes [])) with 0.
    unfold saturating_add. rewrite Z.min_r; [lia|].
    unfold wal_image in Hl. rewrite records_bytes_app, !len_app, records_bytes_cons in Hl.
    rewrite <- (take_drop n log), records_bytes_app, !len_app in Hl.
    pose proof (len_nonneg (records_bytes (take n log))).
    pose proof (len_nonneg (wal_header_bytes first)).
    pose proof (len_nonneg (records_bytes [])).
    unfold isize_max, usize_max, u64_max in *. lia.
Qed.

(** Publishing the next record of the log, with [gs] tiling the longer log. *)
Lemma st_inv_publish log base fl s s' r v gs :
  st_inv log base fl s → record_ok r → wr_seq r = first + len log →
  first + len log + 1 ≤ u64_max → len (wal_image first (log ++ [r])) ≤ isize_max →
  ws_next_seq s' = first + len log + 1 → ws_visible s' = ws_visible s ++ [v] →
  ws_retained_bytes s' =
    saturating_add usize_max (ws_retained_bytes s) (len (record_bytes r)) →
  ws_spare_chunks s' = [] → frame s s' → ws_pending_groups s' = gs → vis_ok r v →
  base ++ groups_bytes gs = wal_image first (log ++ [r]) →
  groups_ok first max (log ++ [r]) (len base) fl gs → all_counted (log ++ [r]) gs →
  st_inv (log ++ [r]) base fl s'.
Proof.
  intros [H1 H2 H3 H4 H5 H6 H7 Hct H8 H9 H10 H11] Hr Hs Hb Hl E1 E2 E3 E4 [E5 E6] E7 Hv Hby
    Hg Hc.
  assert (len (log ++ [r]) = len log + 1) as Hll by (rewrite len_app; done).
  split; rewrite ?E1, ?E4, ?E5, ?E7, ?Hll; try done; try lia.
  - apply Forall_app_2; [done|by apply Forall_singleton].
  - apply sequenced_app; [done|]. by split.
  - by apply (vis_inv_push log s s' r v).
Qed.
End StateInv.

(** ** Staging one record *)

Section StageInv.
Context {X : Xxh3} {L : Xxh3Laws X}.
Context (first max : Z) (Hmax : WAL_HEADER_LEN ≤ max < usize_max).

(** A rejected or waiting caller leaves every observable field alone. *)
Definition untouched (s s' : WriterState) : Prop :=
  frame s s' ∧ ws_visible s' = ws_visible s ∧ ws_next_seq s' = ws_next_seq s
  ∧ ws_barrier_in_flight s' = ws_barrier_in_flight s.

Lemma untouched_refl s : untouched s s.
Proof using Type. done. Qed.

(** What a staging step that published [rs] guarantees. *)
Definition published (log rs : list WalRecord) (base : bytes) (fl : Z)
    (s s' : WriterState) (leader : bool) : Prop :=
  ws_failure s = None ∧ frame s s' ∧ leader = negb (ws_barrier_in_flight s)
  ∧ ws_barrier_in_flight s' = true
  ∧ (len (wal_image first (log ++ rs)) ≤ isize_max → st_inv first max (log ++ rs) base fl s').

Definition stage_post (log : list WalRecord) (base : bytes) (fl op : Z) (payload : bytes)
    (s : WriterState) (res : WriterState * StageOutcome) : Prop :=
  match res with
  | (s', Staged seq leader) =>
      seq = first + len log
      ∧ published log [{| wr_seq := seq; wr_op := op; wr_payload := payload |}]
          base fl s s' leader
  | (s', _) => st_inv first max log base fl s' ∧ untouched s s'
  end.

Lemma encoded_record_len_Ok n m :
  encoded_record_len n = Ok m → 0 ≤ n ≤ u32_max ∧ m = MIN_RECORD_LEN + n.
Proof using Type.
  unfold encoded_record_len, try_from. destruct (Z.leb_spec 0 n), (Z.leb_spec n u32_max);
    rsimpl; [|done..]. intros [= <-]. split; [done|].
  unfold saturating_add, usize_max, u64_max, u32_max, MIN_RECORD_LEN, RECORD_HEADER_LEN,
    RECORD_CHECKSUM_LEN in *. lia.
Qed.

Lemma whole_chunk (b : bytes) n :
  n = len b → chunk_bytes {| ch_encoded := b; ch_range := (0, n) |} = Some b.
Proof using Type.
  intros ->. unfold chunk_bytes. apply slice_range_whole.
Qed.

(** The current group after it takes one whole record. *)
Lemma stage_group_ok log base fl s gs g r n :
  st_inv first max log base fl s → ws_pending_groups s = gs ++ [g] →
  wr_seq r = first + len log → n = g_encoded_bytes g + len (record_bytes r) → n ≤ max →
  let g' := count_record (wr_seq r) (set_encoded_bytes n
              (push_chunk {| ch_encoded := record_bytes r;
                             ch_range := (0, len (record_bytes r)) |} g)) in
  base ++ groups_bytes (gs ++ [g']) = wal_image first (log ++ [r])
  ∧ groups_ok first max (log ++ [r]) (len base) fl (gs ++ [g']).
Proof using Type.
  intros H Hp Hs Hn Hm g'. pose proof (si_groups _ _ _ _ _ _ H) as Hg.
  pose proof (si_bytes _ _ _ _ _ _ H) as Hb. rewrite Hp in Hg, Hb.
  rewrite groups_bytes_app, groups_bytes_one in Hb.
  assert (group_bytes g' = group_bytes g ++ record_bytes r) as Hg'.
  { unfold g'. change (group_bytes (count_record _ (set_encoded_bytes _ ?h))) with (group_bytes h).
    rewrite group_bytes_push. f_equal. unfold chunk_data. by rewrite whole_chunk. }
  assert (base ++ groups_bytes (gs ++ [g']) = wal_image first (log ++ [r])) as Himg.
  { rewrite groups_bytes_app, groups_bytes_one, Hg', !app_assoc.
    rewrite <- (app_assoc base), Hb. unfold wal_image.
    rewrite records_bytes_app, records_bytes_cons, <- !app_assoc. do 2 f_equal.
    by rewrite app_nil_r. }
  split; [done|]. apply groups_ok_snoc in Hg as [Hgs Hg]. apply groups_ok_snoc.
  split; [by apply groups_ok_log|].
  pose proof (si_first _ _ _ _ _ _ H). pose proof (si_floor _ _ _ _ _ _ H).
  pose proof (floor_after_le _ _ _ _ _ _ Hgs ltac:(lia)).
  unfold g'. rewrite Hs. apply group_ok_count; [|lia|lia|].
  - apply group_ok_push; [done| | |done].
    + by rewrite whole_chunk.
    + unfold chunk_data. by rewrite whole_chunk.
  - rewrite <- Himg, groups_bytes_app, groups_bytes_one, !len_app.
    change (group_bytes (set_encoded_bytes _ ?h)) with (group_bytes h).
    rewrite Hg', group_bytes_push, !len_app. unfold chunk_data. rewrite whole_chunk by done.
    simpl. lia.
Qed.

Lemma stage_attempt_inv log base fl s op payload encoded_len :
  st_inv first max log base fl s → is_u16 op →
  encoded_record_len (len payload) = Ok encoded_len →
  stage_post log base fl op payload s (stage_attempt max op payload encoded_len s).
Proof using L Hmax.
  intros Hinv Hop Hlen. apply encoded_record_len_Ok in Hlen as [Hpl ->].
  unfold stage_attempt. destruct (ws_failure s) as [k|] eqn:Hfail; [done|].
  assert (0 ≤ max) as Hm0 by (unfold WAL_HEADER_LEN, FILE_HEADER_LEN in Hmax; lia).
  pose proof (st_inv_ensure _ _ _ _ _ _ Hinv Hm0) as Hens.
  destruct (ensure_pending_last s) as (gs & g & Hp).
  destruct (ensure_pending_frame s) as (Hfr & Hv & Hn & Hbar).
  set (s1 := ensure_pending_group s) in *. cbv zeta.
  rewrite (current_group_snoc _ _ _ Hp).
  set (r := {| wr_seq := ws_next_seq s1; wr_op := op; wr_payload := payload |}).
  pose proof (len_record_bytes r) as Hlr. cbn [wr_payload r] in Hlr. rewrite <- Hlr.
  pose proof (si_next _ _ _ _ _ _ Hens) as Hnext.
  pose proof (si_groups _ _ _ _ _ _ Hens) as Hgs. rewrite Hp in Hgs.
  apply groups_ok_snoc in Hgs as [_ Hg]. pose proof (go_len _ _ _ _ _ _ Hg).
  pose proof (go_max _ _ _ _ _ _ Hg). pose proof (len_nonneg (group_bytes g)).
  pose proof (len_nonneg (record_bytes r)).
  destruct (Z.leb_spec (saturating_add usize_max (g_encoded_bytes g) (len (record_bytes r))) max)
    as [Hreq|Hreq]; [|by destruct (g_records g =? 0)].
  assert (saturating_add usize_max (g_encoded_bytes g) (len (record_bytes r))
          = g_encoded_bytes g + len (record_bytes r)) as Hsat
    by (unfold saturating_add in *; lia).
  unfold checked_add. destruct (Z.leb_spec (ws_next_seq s1 + 1) u64_max) as [Hb|Hb]; [|done].
  unfold encode_record_into. fold r. rewrite append_record_into_eq.
  change (wr_payload r) with payload. rewrite (proj2 (Z.leb_le (len payload) u32_max)) by lia.
  rewrite app_nil_l.
  rewrite (set_current_group_snoc _ gs g) by done.
  cbn [stage_post]. split; [lia|].
  split_and!; [done|by destruct (ws_barrier_in_flight s1) eqn:E; cbn; rewrite E
    |cbn; by rewrite Hbar|by destruct (ws_barrier_in_flight s1) eqn:E; cbn; rewrite E|].
  intros Himg. fold r in Himg.
  destruct (stage_group_ok _ _ _ _ gs g r _ Hens Hp Hnext eq_refl ltac:(lia)) as [G1 G2].
  assert (record_ok r) as Hrok.
  { pose proof (si_first _ _ _ _ _ _ Hens). pose proof (len_nonneg log).
    unfold record_ok, is_u64. cbn [r wr_seq wr_op wr_payload]. split_and!; (done || lia). }
  eapply (st_inv_publish first max log base fl s1 _ r
            {| vr_seq := wr_seq r; vr_op := op; vr_encoded := record_bytes r;
               vr_range := (0, len (record_bytes r)) |}); [exact Hens|..|exact G1|exact G2|];
    try done; try lia;
    try (by destruct (ws_barrier_in_flight s1) eqn:E; cbn; rewrite E).
  all: cbn [ws_barrier_in_flight push_visible set_pending set_next_seq].
  all: try (destruct (negb _); cbn; rewrite <- ?Hsat; by rewrite ?Hnext).
  - destruct (negb _); cbn; apply (si_spare _ _ _ _ _ _ Hens).
  - unfold vis_ok, visible_encoded. cbn. split_and!; [done|done|].
    by rewrite slice_range_whole.
  - apply all_counted_snoc; [|done]. pose proof (si_counted _ _ _ _ _ _ Hens) as [Hc _].
    by rewrite Hp, removelast_last in Hc.
Qed.
End StageInv.

(** ** Windows of the shared batch allocation *)

Definition window {A} (l : list A) (a b : Z) : list A :=
  take (Z.to_nat (b - a)) (drop (Z.to_nat a) l).

Lemma window_app {A} (l : list A) a b c :
  0 ≤ a ≤ b → b ≤ c → window l a b ++ window l b c = window l a c.
Proof.
  intros Hab Hbc. unfold window.
  replace (Z.to_nat b) with (Z.to_nat a + Z.to_nat (b - a))%nat by lia.
  rewrite window_join. f_equal. lia.
Qed.

Lemma window_empty {A} (l : list A) a : window l a a = [].
Proof. unfold window. by rewrite Z.sub_diag. Qed.

Lemma len_window {A} (l : list A) a b :
  0 ≤ a ≤ b → b ≤ len l → len (window l a b) = b - a.
Proof. intros. unfold window, len in *. rewrite length_take, length_drop. lia. Qed.

Lemma window_mid {A} (l m k : list A) a b :
  a = len l → b = len l + len m → window (l ++ m ++ k) a b = m.
Proof.
  intros -> ->. pose proof (slice_range_app l m k _ _ eq_refl eq_refl) as H.
  apply slice_range_Some in H as (_ & _ & H & _). by symmetry.
Qed.

Lemma slice_range_window {A} (l : list A) a b :
  0 ≤ a ≤ b → b ≤ len l → slice_range l a b = Some (window l a b).
Proof.
  intros H1 H2. unfold slice_range.
  by rewrite (proj2 (Z.leb_le 0 a)), (proj2 (Z.leb_le a b)), (proj2 (Z.leb_le b (len l))) by lia.
Qed.

(** ** Staging a batch *)

Section BatchInv.
Context {X : Xxh3} {L : Xxh3Laws X}.
Context (first max : Z) (Hmax : WAL_HEADER_LEN ≤ max < usize_max).
Context (base : bytes) (fl : Z) (encoded : bytes).
Context (Henc : len encoded ≤ isize_max).

Definition batch_chunk (a b : Z) : EncodedChunk := {| ch_encoded := encoded; ch_range := (a, b) |}.

Lemma batch_chunk_data a b :
  0 ≤ a ≤ b → b ≤ len encoded →
  chunk_bytes (batch_chunk a b) = Some (window encoded a b)
  ∧ chunk_data (batch_chunk a b) = window encoded a b.
Proof using Type.
  intros H1 H2. unfold chunk_data.
  assert (chunk_bytes (batch_chunk a b) = Some (window encoded a b)) as ->
    by (unfold chunk_bytes; by apply slice_range_window). done.
Qed.

(** The current group as it will be once the window it has reserved is pushed
    as a chunk. *)
Definition virt (chunk_start offset : Z) (g : Group) : Group :=
  push_chunk (batch_chunk chunk_start offset) g.

(** The groups plus the reserved window hold the log and [part] more bytes. *)
Record fill_inv (log : list WalRecord) (part : bytes) (cs off : Z)
    (gs : list Group) (g : Group) : Prop := {
  fi_range : 0 ≤ cs ≤ off;
  fi_end : off ≤ len encoded;
  fi_bytes : base ++ groups_bytes (gs ++ [virt cs off g]) = wal_image first log ++ part;
  fi_groups : groups_ok first max log (len base) fl (gs ++ [virt cs off g]);
  fi_counted : Forall counted gs;
}.

Lemma group_bytes_virt cs off g :
  0 ≤ cs ≤ off → off ≤ len encoded →
  group_bytes (virt cs off g) = group_bytes g ++ window encoded cs off.
Proof using Type.
  intros. unfold virt. rewrite group_bytes_push. f_equal. by apply batch_chunk_data.
Qed.

Lemma fill_write log part cs off gs g w :
  fill_inv log part cs off gs g → 0 ≤ w → off + w ≤ len encoded →
  g_encoded_bytes g + w ≤ max →
  fill_inv log (part ++ window encoded off (off + w)) cs (off + w) gs
    (set_encoded_bytes (g_encoded_bytes g + w) g).
Proof using Type.
  intros [H1 H2 H3 H4 H5] Hw Hoff Hm.
  assert (group_bytes (virt cs (off + w) (set_encoded_bytes (g_encoded_bytes g + w) g))
          = group_bytes (virt cs off g) ++ window encoded off (off + w)) as Hv.
  { rewrite !group_bytes_virt by lia. rewrite <- app_assoc, window_app by lia. done. }
  split; [lia|lia| | |done].
  - rewrite groups_bytes_app, groups_bytes_one in *. by rewrite Hv, !app_assoc, <- H3, <- !app_assoc.
  - apply groups_ok_snoc in H4 as [G1 [G2 G3 G4 G5]]. apply groups_ok_snoc. split; [done|].
    pose proof (len_window encoded off (off + w) ltac:(lia) ltac:(lia)) as Hlw.
    split; rewrite ?Hv, ?len_app; cbn [g_chunks g_encoded_bytes g_last_seq g_records virt
      push_chunk set_encoded_bytes] in *.
    + apply Forall_app in G2 as [G2 _]. apply Forall_app_2; [done|]. apply Forall_singleton.
      by rewrite (proj1 (batch_chunk_data cs (off + w) ltac:(lia) ltac:(lia))).
    + lia.
    + done.
    + destruct (g_last_seq g); [|done]. destruct G5 as (?&?&?&?). split_and!; (done || lia).
Qed.

(** Opening a new group: the reserved window becomes a chunk, or nothing was
    reserved. *)
Lemma fill_open log part cs off gs g :
  fill_inv log part cs off gs g → g_last_seq g ≠ None →
  fill_inv log part off off
    (gs ++ [if cs <? off then virt cs off g else g])
    {| g_chunks := []; g_encoded_bytes := 0; g_records := 0; g_last_seq := None |}.
Proof using Hmax.
  intros [H1 H2 H3 H4 H5] Hlast. set (g' := if cs <? off then _ else _).
  set (e := {| g_chunks := [] |}).
  assert (group_bytes g' = group_bytes (virt cs off g)) as Hg'.
  { unfold g'. destruct (Z.ltb_spec cs off); [done|]. replace off with cs by lia.
    by rewrite group_bytes_virt, window_empty, app_nil_r by lia. }
  assert (group_bytes (virt off off e) = []) as He
    by (rewrite group_bytes_virt, window_empty by lia; done).
  split; [lia|done| | |].
  3:{ apply Forall_app_2; [done|]. apply Forall_singleton. intros Hn. destruct Hlast.
      unfold g' in Hn. by destruct (cs <? off). }
  - rewrite groups_bytes_app, groups_bytes_one, He, app_nil_r.
    rewrite groups_bytes_app, groups_bytes_one in *. by rewrite Hg'.
  - apply groups_ok_snoc in H4 as [G1 G2]. apply groups_ok_snoc. split.
    + apply groups_ok_snoc. split; [done|]. destruct G2 as [G2 G3 G4 G5].
      split; rewrite ?Hg'; unfold g'; destruct (cs <? off); try done.
      cbn [virt push_chunk g_chunks] in G2. by apply Forall_app in G2 as [G2 _].
    + assert (0 ≤ max) by (unfold WAL_HEADER_LEN, FILE_HEADER_LEN in Hmax; lia).
      change (virt off off e) with (set_encoded_bytes 0 (virt off off e)).
      unfold virt. destruct (batch_chunk_data off off ltac:(lia) ltac:(lia)) as [D1 D2].
      apply group_ok_push; [by apply group_ok_empty|by rewrite D1| |done].
      by rewrite D2, window_empty.
Qed.

Lemma fill_record_ok fuel : ∀ s log part cs off gs g record_end,
  fill_inv log part cs off gs g →
  ws_pending_groups s = gs ++ [g] → ws_spare_chunks s = [] →
  off ≤ record_end ≤ len encoded → record_end - off ≤ max →
  (g_last_seq g ≠ None ∨ g_encoded_bytes g + (record_end - off) ≤ max) →
  2 * (record_end - off) + (if g_encoded_bytes g =? max then 1 else 0) ≤ Z.of_nat fuel →
  1 ≤ Z.of_nat fuel →
  ∃ gs' g' cs',
    fill_record fuel max encoded record_end off cs s
    = (set_pending (gs' ++ [g']) s, Ok (record_end, cs'))
    ∧ fill_inv log (part ++ window encoded off record_end) cs' record_end gs' g'.
Proof using Hmax Henc.
  induction fuel as [|fuel IH]; intros s log part cs off gs g record_end Hinv Hp Hsp Hre Hrm Hfit Hf1 Hf2;
    [lia|]. cbn [fill_record].
  destruct (Z.ltb_spec off record_end) as [Hlt|Hge].
  2:{ replace record_end with off by lia. exists gs, g, cs. rewrite <- Hp, window_empty, app_nil_r.
      by destruct s. }
  rewrite (current_group_snoc _ _ _ Hp).
  pose proof (fi_groups _ _ _ _ _ _ Hinv) as Hg. apply groups_ok_snoc in Hg as [_ Hg].
  pose proof (go_max _ _ _ _ _ _ Hg) as Hgm. pose proof (go_len _ _ _ _ _ _ Hg) as Hgl.
  cbn [virt push_chunk g_encoded_bytes] in Hgm, Hgl.
  pose proof (len_nonneg (group_bytes (virt cs off g))).
  pose proof (fi_range _ _ _ _ _ _ Hinv).
  assert (saturating_sub max (g_encoded_bytes g) = max - g_encoded_bytes g) as ->
    by (unfold saturating_sub; lia).
  destruct (Z.eqb_spec (max - g_encoded_bytes g) 0) as [Hz|Hz].
  - rewrite (proj2 (Z.eqb_eq _ _)) in Hf1 by lia.
    set (s1 := push_empty_pending_group _).
    assert (s1 = set_pending ((gs ++ [if cs <? off then virt cs off g else g])
              ++ [{| g_chunks := []; g_encoded_bytes := 0; g_records := 0;
                     g_last_seq := None |}]) s) as Hs1.
    { unfold s1, push_empty_pending_group. destruct (cs <? off).
      - rewrite (set_current_group_snoc _ _ _ _ Hp). cbn. rewrite Hsp. by destruct s; cbn in *; subst.
      - rewrite Hp, Hsp. by destruct s; cbn in *; subst. }
    assert (g_last_seq g ≠ None) as Hlast by (destruct Hfit; [done|lia]).
    destruct (IH s1 log part off off _ _ record_end (fill_open _ _ _ _ _ _ Hinv Hlast))
      as (gs' & g' & cs' & E & Hi); [by rewrite Hs1|by rewrite Hs1|lia|lia|right; cbn; lia| |lia|].
    { unfold WAL_HEADER_LEN, FILE_HEADER_LEN in Hmax. cbn [g_encoded_bytes].
      rewrite (proj2 (Z.eqb_neq _ _)) by lia. lia. }
    exists gs', g', cs'. rewrite E, Hs1. done.
  - rewrite (proj2 (Z.eqb_neq (g_encoded_bytes g) max)) in Hf1 by lia.
    assert (saturating_sub record_end off = record_end - off) as ->
      by (unfold saturating_sub; lia).
    set (w := Z.min _ _). assert (0 < w ≤ record_end - off) as Hw by lia.
    assert (∀ a, 0 ≤ a ≤ isize_max → saturating_add usize_max a w = a + w) as Hsat
      by (intros a Ha; unfold saturating_add, usize_max, u64_max, isize_max in *; lia).
    assert (g_encoded_bytes g + w ≤ max) as Hgw by lia.
    assert (saturating_add usize_max (g_encoded_bytes g) w = g_encoded_bytes g + w) as ->
      by (unfold saturating_add; lia).
    rewrite Hsat by lia.
    rewrite (set_current_group_snoc _ _ _ _ Hp).
    destruct (IH (set_pending (gs ++ [set_encoded_bytes (g_encoded_bytes g + w) g]) s)
                log _ cs (off + w) _ _ record_end
                (fill_write _ _ _ _ _ _ w Hinv ltac:(lia) ltac:(lia) Hgw))
      as (gs' & g' & cs' & E & Hi); [done|done|lia|lia| | |lia|].
    { destruct Hfit; [by left|right]. cbn. lia. }
    { destruct (_ =? max); lia. }
    exists gs', g', cs'. split; [by rewrite E|].
    by rewrite <- app_assoc, window_app in Hi by lia.
Qed.

(** The record whose bytes are complete is counted in the current group. *)
Lemma fill_count log r cs off gs g :
  fill_inv log (record_bytes r) cs off gs g → 1 ≤ first → first - 1 ≤ fl < first + len log →
  fill_inv (log ++ [r]) [] cs off gs (count_record (first + len log) g).
Proof using Type.
  intros [H1 H2 H3 H4 H5] Hf Hfl.
  assert (wal_image first log ++ record_bytes r = wal_image first (log ++ [r])) as Himg.
  { unfold wal_image. rewrite records_bytes_app, records_bytes_cons, <- !app_assoc.
    by rewrite app_nil_r. }
  split; [done|done| | |done].
  - rewrite app_nil_r, <- Himg, <- H3.
    by rewrite !groups_bytes_app, !groups_bytes_one.
  - apply groups_ok_snoc in H4 as [G1 G2]. apply groups_ok_snoc. split; [by apply groups_ok_log|].
    pose proof (floor_after_le _ _ _ _ _ _ G1 ltac:(lia)).
    apply (group_ok_count first max log _ _ (virt cs off g) r G2); [lia|lia|].
    rewrite <- Himg, <- H3, !groups_bytes_app, groups_bytes_one, !len_app. lia.
Qed.

Definition encoded_lengths (records : list (Z * bytes)) : list (Z * Z) :=
  map (λ r, (r.1, MIN_RECORD_LEN + len r.2)) records.

Lemma place_records_ok records : ∀ s log cs off gs g pre,
  fill_inv log [] cs off gs g → ws_pending_groups s = gs ++ [g] → ws_spare_chunks s = [] →
  1 ≤ first → first - 1 ≤ fl < first + len log →
  encoded = pre ++ records_bytes (number (first + len log) records) → len pre = off →
  first + len log + len records ≤ u64_max →
  (len (wal_image first (log ++ number (first + len log) records)) ≤ isize_max →
   vis_inv first log s) →
  Forall (λ r, MIN_RECORD_LEN + len r.2 ≤ max) records →
  match records with
  | [] => g_last_seq g ≠ None
  | r :: _ => g_last_seq g ≠ None ∨ g_encoded_bytes g + (MIN_RECORD_LEN + len r.2) ≤ max
  end →
  ∃ s' gs' g' cs',
    place_records max encoded (encoded_lengths records) (first + len log) off cs s
    = (s', Ok (len encoded, cs'))
    ∧ fill_inv (log ++ number (first + len log) records) [] cs' (len encoded) gs' g'
    ∧ g_last_seq g' ≠ None
    ∧ ws_pending_groups s' = gs' ++ [g'] ∧ ws_spare_chunks s' = []
    ∧ frame s s' ∧ ws_barrier_in_flight s' = ws_barrier_in_flight s
    ∧ (len (wal_image first (log ++ number (first + len log) records)) ≤ isize_max →
       vis_inv first (log ++ number (first + len log) records) s').
Proof using Hmax Henc.
  induction records as [|[op payload] records IH];
    intros s log cs off gs g pre Hi Hp Hsp Hf Hfl He Hoff Hb Hvis Hlens Hfit.
  { cbn [number encoded_lengths map place_records] in *. change (records_bytes []) with (@nil byte) in He.
    rewrite app_nil_r in *. subst pre off. by exists s, gs, g, cs. }
  cbn [encoded_lengths map place_records number fst snd] in *.
  set (r := {| wr_seq := first + len log; wr_op := op; wr_payload := payload |}) in *.
  rewrite records_bytes_cons in He. rewrite len_cons in Hb. pose proof (len_nonneg records).
  pose proof (len_record_bytes r) as Hlr. cbn [r wr_payload] in Hlr. rewrite <- Hlr.
  pose proof (len_nonneg (record_bytes r)). pose proof (len_nonneg pre).
  apply Forall_cons in Hlens as [Hlen1 Hlens]. cbn [snd] in Hlen1, Hfit. rewrite <- Hlr in Hlen1, Hfit.
  set (rest := records_bytes (number (first + len log + 1) records)) in *.
  assert (off + len (record_bytes r) ≤ len encoded) as Hre
    by (rewrite He, !len_app; pose proof (len_nonneg rest); lia).
  assert (saturating_add usize_max off (len (record_bytes r)) = off + len (record_bytes r))
    as -> by (unfold saturating_add, usize_max, u64_max, isize_max in *; lia).
  assert (window encoded off (off + len (record_bytes r)) = record_bytes r) as Hwin
    by (rewrite He; apply window_mid; lia).
  destruct (fill_record_ok (fill_fuel (len (record_bytes r))) s log [] cs off gs g
              (off + len (record_bytes r)) Hi Hp Hsp)
    as (gs1 & g1 & cs1 & E1 & Hi1); [lia|lia|destruct Hfit; [by left|right; lia]
      |unfold fill_fuel; destruct (_ =? max); lia|unfold fill_fuel; lia|].
  rewrite E1. rewrite app_nil_l, Hwin in Hi1.
  rewrite (current_group_snoc _ gs1 g1) by done.
  rewrite (set_current_group_snoc _ gs1 g1) by done.
  pose proof (fill_count _ _ _ _ _ _ Hi1 Hf Hfl) as Hi2.
  assert (log ++ r :: number (first + len log + 1) records
          = (log ++ [r]) ++ number (first + len (log ++ [r])) records) as Hsplit.
  { rewrite <- app_assoc, len_app, len_cons, len_nil. simpl.
    by replace (first + (len log + (1 + 0))) with (first + len log + 1) by lia. }
  assert (len (log ++ [r]) = len log + 1) as Hll by (rewrite len_app; done).
  rewrite Hsplit in *.
  assert (saturating_add u64_max (first + len log) 1 = first + len (log ++ [r])) as ->
    by (unfold saturating_add; lia).
  set (v := {| vr_seq := first + len log |}). set (s1 := push_visible _ _ _).
  destruct (IH s1 (log ++ [r]) cs1 (off + len (record_bytes r)) gs1
              (count_record (first + len log) g1) (pre ++ record_bytes r))
    as (s' & gs' & g' & cs' & E & Hi' & Hl' & Hp' & Hsp' & [Hfr1 Hfr2] & Hbar & Hvis');
    [done|done|done|done|lia| |by rewrite len_app, Hoff|lia| |done| |].
  { rewrite Hll, <- app_assoc. rewrite He. unfold rest.
    by replace (first + len log + 1) with (first + (len log + 1)) by lia. }
  { intros Himg. apply (vis_inv_push first log s s1 r v); try done; [by apply Hvis| |].
    - unfold vis_ok, visible_encoded. cbn [v r vr_seq vr_op vr_encoded vr_range wr_seq wr_op fst snd].
      split_and!; [done|done|]. rewrite slice_range_window by lia. by rewrite Hwin.
    - unfold wal_image in *. rewrite len_app in Himg |- *.
      rewrite (records_bytes_app (log ++ [r])), len_app in Himg.
      pose proof (len_nonneg (records_bytes (number (first + len (log ++ [r])) records))). lia. }
  { destruct records; [done|by left]. }
  exists s', gs', g', cs'. split_and!; done.
Qed.
End BatchInv.

Section StageManyInv.
Context {X : Xxh3} {L : Xxh3Laws X}.
Context (first max : Z) (Hmax : WAL_HEADER_LEN ≤ max < usize_max).

Lemma len_records_bytes_number s s' records :
  len (records_bytes (number s records)) = len (records_bytes (number s' records)).
Proof.
  revert s s'. induction records as [|[op p] records IH]; intros s s'; [done|].
  cbn [number]. rewrite !records_bytes_cons, !len_app, !len_record_bytes.
  cbn [wr_payload]. by rewrite (IH (s + 1) (s' + 1)).
Qed.

Lemma mapM_encoded_lengths records ls :
  mapM (λ r : Z * bytes,
          encoded_len ← map_err WriteRecord (encoded_record_len (len r.2));
          Ok (r.1, encoded_len)) records = Ok ls →
  ls = encoded_lengths records ∧ Forall (λ r, len r.2 ≤ u32_max) records.
Proof.
  revert ls. induction records as [|[op p] records IH]; intros ls H.
  { cbn [mapM] in H. injection H as <-. by split. }
  cbn [mapM] in H. destruct (encoded_record_len (len (op, p).2)) as [n|] eqn:Hn; rsimpl in H; [|done].
  destruct (mapM _ records) as [ls'|] eqn:Hls; rsimpl in H; [|done]. injection H as <-.
  destruct (IH _ eq_refl) as [-> Hf]. apply encoded_record_len_Ok in Hn as [Hp ->].
  split; [done|]. constructor; [lia|done].
Qed.

Lemma encode_batch_ok records : ∀ s storage,
  Forall (λ r, len r.2 ≤ u32_max) records → s + len records ≤ u64_max →
  encode_batch s records storage = Ok (storage ++ records_bytes (number s records)).
Proof using L.
  induction records as [|[op p] records IH]; intros s storage Hf Hb.
  { cbn [encode_batch number]. by rewrite app_nil_r. }
  apply Forall_cons in Hf as [Hp Hf]. rewrite len_cons in Hb. pose proof (len_nonneg records).
  cbn [encode_batch number]. rewrite append_record_into_eq. cbn [wr_payload snd] in *.
  rewrite (proj2 (Z.leb_le _ _)) by lia. rsimpl.
  assert (saturating_add u64_max s 1 = s + 1) as -> by (unfold saturating_add; lia).
  rewrite IH by (done || lia). by rewrite records_bytes_cons, app_assoc.
Qed.

Lemma records_ok_number s records :
  0 ≤ s → s + len records ≤ u64_max → Forall (λ r, is_u16 r.1) records →
  Forall (λ r, len r.2 ≤ u32_max) records → Forall record_ok (number s records).
Proof.
  revert s. induction records as [|[op p] records IH]; intros s Hs Hb Ho Hp; [constructor|].
  apply Forall_cons in Ho as [Ho1 Ho]. apply Forall_cons in Hp as [Hp1 Hp].
  rewrite len_cons in Hb. pose proof (len_nonneg records). cbn [number]. constructor.
  - unfold record_ok, is_u64. cbn in *. split_and!; (done || lia).
  - apply IH; (done || lia).
Qed.

Definition stage_many_post (log : list WalRecord) (base : bytes) (fl : Z)
    (records : list (Z * bytes)) (s : WriterState)
    (res : WriterState * result WalWriteError (Z * Z * bool)) : Prop :=
  match res with
  | (s', Err _) => st_inv first max log base fl s' ∧ untouched s s'
  | (s', Ok (start, end_, leader)) =>
      start = first + len log ∧ end_ = start + len records
      ∧ match records with
        | [] => s' = s ∧ leader = false
        | _ => published first max log (number start records) base fl s s' leader
        end
  end.

(** The state a successful batch leaves, from the placement loop's result. *)
Lemma stage_many_finish log base fl s s1 s' records encoded gs g cs :
  st_inv first max log base fl s → 1 ≤ first →
  first + len log + len records ≤ u64_max → batch_ok records →
  Forall (λ r, len r.2 ≤ u32_max) records →
  let rs := number (first + len log) records in
  fill_inv first max base fl encoded (log ++ rs) [] cs (len encoded) gs g →
  g_last_seq g ≠ None → vis_inv first (log ++ rs) s1 → frame s s1 → ws_spare_chunks s1 = [] →
  ws_pending_groups s' = gs ++ [virt encoded cs (len encoded) g] →
  ws_spare_chunks s' = ws_spare_chunks s1 → frame s1 s' →
  ws_visible s' = ws_visible s1 → ws_retained_bytes s' = ws_retained_bytes s1 →
  ws_next_seq s' = first + len log + len records →
  st_inv first max (log ++ rs) base fl s'.
Proof.
  intros [H1 H2 H3 H4 H5 H6 H7 Hct H8 H9 H10 H11] Hf Hb [Hops _] Hlens rs Hi Hlast Hvis [F1 F2] Hsp
    E1 E2 [F3 F4] E3 E4 E5.
  pose proof (len_number (first + len log) records) as Hln. fold rs in Hln.
  pose proof (len_nonneg records). pose proof (len_nonneg log).
  split; rewrite ?E1, ?E2, ?E5, ?len_app, ?Hln, ?F3, ?F1; try done; try lia.
  - apply Forall_app_2; [done|]. apply records_ok_number; (done || lia).
  - apply sequenced_app; [done|]. apply sequenced_number.
  - rewrite (fi_bytes _ _ _ _ _ _ _ _ _ _ _ Hi). apply app_nil_r.
  - apply (fi_groups _ _ _ _ _ _ _ _ _ _ _ Hi).
  - apply all_counted_snoc; [apply (fi_counted _ _ _ _ _ _ _ _ _ _ _ Hi)|done].
  - unfold vis_inv in *. by rewrite E3, E4, F3.
Qed.

Lemma fill_inv_start log base fl s gs g encoded :
  st_inv first max log base fl s → ws_pending_groups s = gs ++ [g] →
  fill_inv first max base fl encoded log [] 0 0 gs g.
Proof.
  intros H Hp. pose proof (len_nonneg encoded).
  pose proof (si_groups _ _ _ _ _ _ H) as Hg. pose proof (si_bytes _ _ _ _ _ _ H) as Hb.
  rewrite Hp in Hg, Hb.
  destruct (batch_chunk_data encoded 0 0 ltac:(lia) ltac:(lia)) as [D1 D2].
  split; [lia|lia| | |].
  3:{ pose proof (si_counted _ _ _ _ _ _ H) as [Hc _]. by rewrite Hp, removelast_last in Hc. }
  - rewrite app_nil_r, <- Hb, !groups_bytes_app, !groups_bytes_one.
    by rewrite group_bytes_virt, window_empty, app_nil_r by lia.
  - apply groups_ok_snoc in Hg as [G1 G2]. apply groups_ok_snoc. split; [done|].
    change (virt encoded 0 0 g) with (set_encoded_bytes (g_encoded_bytes g) (virt encoded 0 0 g)).
    apply group_ok_push; [done|by rewrite D1| |apply (go_max _ _ _ _ _ _ G2)].
    rewrite D2, window_empty, len_nil. lia.
Qed.

(** The locked part of [stage_many] once its guards have passed. *)
Lemma stage_many_place log base fl s gs g records :
  st_inv first max log base fl s → batch_ok records →
  Forall (λ r, len r.2 ≤ u32_max) records → first + len log + len records ≤ u64_max →
  ws_pending_groups s = gs ++ [g] →
  Forall (λ r, MIN_RECORD_LEN + len r.2 ≤ max) records →
  match records with
  | [] => False
  | r :: _ => g_last_seq g ≠ None ∨ g_encoded_bytes g + (MIN_RECORD_LEN + len r.2) ≤ max
  end →
  let encoded := records_bytes (number (first + len log) records) in
  ∃ s1 gs1 g1 cs1,
    place_records max encoded (encoded_lengths records) (first + len log) 0 0 s
    = (s1, Ok (len encoded, cs1))
    ∧ fill_inv first max base fl encoded (log ++ number (first + len log) records) []
        cs1 (len encoded) gs1 g1 ∧ g_last_seq g1 ≠ None
    ∧ ws_pending_groups s1 = gs1 ++ [g1] ∧ ws_spare_chunks s1 = []
    ∧ frame s s1 ∧ ws_barrier_in_flight s1 = ws_barrier_in_flight s
    ∧ (len (wal_image first (log ++ number (first + len log) records)) ≤ isize_max →
       vis_inv first (log ++ number (first + len log) records) s1).
Proof using L Hmax.
  intros H [Hops Hsz] Hlens Hb Hp Hml Hfit encoded.
  apply (place_records_ok first max Hmax base fl encoded) with (gs := gs) (g := g) (pre := []);
    try done.
  - unfold encoded. by rewrite (len_records_bytes_number _ 0).
  - by apply (fill_inv_start log base fl s).
  - apply (si_spare _ _ _ _ _ _ H).
  - apply (si_first _ _ _ _ _ _ H).
  - apply (si_floor _ _ _ _ _ _ H).
  - intros _. apply (si_vis _ _ _ _ _ _ H).
  - by destruct records.
Qed.

(** The oversize guard: [find] answers [None] when every record fits a group. *)
Lemma find_oversize_None records :
  List.find (λ r : Z * Z, max <? r.2) (encoded_lengths records) = None →
  Forall (λ r, MIN_RECORD_LEN + len r.2 ≤ max) records.
Proof.
  induction records as [|r records IH]; intros H; [constructor|].
  cbn [encoded_lengths map List.find snd] in H. destruct (Z.ltb_spec max (MIN_RECORD_LEN + len r.2)); [done|].
  constructor; [lia|by apply IH].
Qed.

Lemma stage_many_inv log base fl s records :
  st_inv first max log base fl s → batch_ok records →
  stage_many_post log base fl records s (stage_many max records s).
Proof using L Hmax.
  intros Hinv Hbatch. unfold stage_many.
  destruct records as [|r0 records0] eqn:Hrec.
  { destruct (ws_failure s); [done|]. cbn [stage_many_post].
    rewrite (si_next _ _ _ _ _ _ Hinv), len_nil. split_and!; (done || lia). }
  rewrite <- Hrec in *. assert (records ≠ []) as Hne by (by rewrite Hrec). clear Hrec r0 records0.
  destruct (mapM _ records) as [ls|e] eqn:Hls; [|done].
  apply mapM_encoded_lengths in Hls as [-> Hlens].
  destruct (List.find _ _) as [[o n]|] eqn:Hfind; [done|].
  apply find_oversize_None in Hfind.
  destruct (ws_failure s) as [k|] eqn:Hfail; [done|].
  assert (0 ≤ max) as Hm0 by (unfold WAL_HEADER_LEN, FILE_HEADER_LEN in Hmax; lia).
  pose proof (st_inv_ensure _ _ _ _ _ _ Hinv Hm0) as Hens.
  destruct (ensure_pending_last s) as (gs & g & Hp).
  destruct (ensure_pending_frame s) as (Hfr & Hv & Hn & Hbar).
  set (s0 := ensure_pending_group s) in *. cbv zeta.
  destruct records as [|[op p] records1] eqn:Hrec; [done|].
  cbn [encoded_lengths map head fst snd]. fold (encoded_lengths records1).
  rewrite Hp, last_snoc. destruct (_ && _) eqn:Hguard; [done|].
  assert (g_last_seq g ≠ None ∨ g_encoded_bytes g + (MIN_RECORD_LEN + len p) ≤ max) as Hfit.
  { pose proof (si_groups _ _ _ _ _ _ Hens) as Hgs. rewrite Hp in Hgs.
    apply groups_ok_snoc in Hgs as [_ Hg]. pose proof (go_last _ _ _ _ _ _ Hg) as Hgl.
    destruct (g_last_seq g); [by left|right]. rewrite Hgl in Hguard. cbn [Z.eqb andb] in Hguard.
    apply Z.ltb_ge in Hguard. unfold saturating_add in Hguard. lia. }
  change ((op, MIN_RECORD_LEN + len p) :: encoded_lengths records1)
    with (encoded_lengths ((op, p) :: records1)).
  rewrite <- Hrec in *.
  pose proof (si_next _ _ _ _ _ _ Hens) as Hnext. rewrite Hnext.
  unfold checked_add. destruct (Z.leb_spec (first + len log + len records) u64_max) as [Hb|]; [|done].
  rewrite encode_batch_ok, app_nil_l by done.
  destruct (stage_many_place _ _ _ _ _ _ _ Hens Hbatch Hlens Hb Hp Hfind)
    as (s1 & gs1 & g1 & cs1 & E & Hi & Hl1 & Hp1 & Hsp1 & [F1 F2] & Hb1 & Hvis).
  { by rewrite Hrec. }
  rewrite E, (current_group_snoc _ _ _ Hp1), (set_current_group_snoc _ _ _ _ Hp1).
  cbn [stage_many_post]. split_and!; [done|done|].
  assert (∀ P Q : Prop, Q → match records with [] => P | _ => Q end) as Hm by (by rewrite Hrec).
  apply Hm. clear Hm Hrec.
  assert (ws_barrier_in_flight s1 = ws_barrier_in_flight s) as Hb2 by (by rewrite Hb1).
  cbn [ws_barrier_in_flight set_next_seq set_pending]. rewrite Hb2.
  destruct Hfr as [F3 F4].
  split_and!; [done| |done| |].
  - split; destruct (ws_barrier_in_flight s); cbn; congruence.
  - destruct (ws_barrier_in_flight s) eqn:E2; cbn; congruence.
  - intros Himg. eapply (stage_many_finish log base fl s0 s1);
      [exact Hens|apply (si_first _ _ _ _ _ _ Hens)|exact Hb|exact Hbatch|exact Hlens|exact Hi
      |exact Hl1|exact (Hvis Himg)|done|done|..];
      destruct (ws_barrier_in_flight s); done.
Qed.
End StageManyInv.
