(* ===== verification/WalSystem.v ===== *)
(** * Safety of the interleaved WAL writer

    The invariant of every state any number of threads can reach
    ([sys_inv_reachable]) and what it gives: at most one leader, a file that is
    always a prefix of the log image, byte-bounded groups, durable
    acknowledgements that survive any crash, and retirement that releases only
    durable records. *)

From S2P Require Import Prelude Format WalRecord WalReplay Durability WalWriter WalConcurrency WalInvariant.

(** ** Retirement *)

Definition visible_total (vs : list VisibleRecord) : Z :=
  foldr (λ v n, visible_encoded_len v + n) 0 vs.

Lemma visible_total_nonneg vs : 0 ≤ visible_total vs.
Proof.
  induction vs as [|v vs IH]; [done|]. unfold visible_total, visible_encoded_len in *.
  cbn [foldr]. unfold saturating_sub in *. lia.
Qed.

Lemma retire_loop_spec a vs : ∀ retained retired kept retained',
  retire_loop a vs retained = (retired, kept, retained') → retained = visible_total vs →
  vs = retired ++ kept ∧ Forall (λ v, vr_seq v ≤ a) retired
  ∧ (∀ v, head kept = Some v → a < vr_seq v) ∧ retained' = visible_total kept.
Proof.
  induction vs as [|v vs IH]; intros retained retired kept retained' H Hr.
  { injection H as <- <- <-. by rewrite Hr. }
  cbn [retire_loop] in H. destruct (Z.leb_spec (vr_seq v) a).
  - destruct (retire_loop a vs _) as [[re ke] ret] eqn:E. injection H as <- <- <-.
    apply IH in E as (-> & Hf & Hk & ->).
    + split_and!; [done|by constructor|done|done].
    + rewrite Hr. unfold saturating_sub. pose proof (visible_total_nonneg vs).
      unfold visible_total in *. cbn [foldr]. lia.
  - injection H as <- <- <-. split_and!; [done|constructor| |done].
    intros v' [= <-]. done.
Qed.

Section RetireInv.
Context {X : Xxh3}.

Lemma vis_ok_len r v : vis_ok r v → visible_encoded_len v = len (record_bytes r).
Proof.
  intros (_ & _ & H). unfold visible_encoded in H.
  destruct (slice_range _ _ _) as [b|] eqn:E; [|done]. injection H as ->.
  apply slice_range_Some in E as (? & ? & _ & ->). unfold visible_encoded_len, saturating_sub. lia.
Qed.

Lemma vis_total rs vs :
  Forall2 vis_ok rs vs → visible_total vs = len (records_bytes rs).
Proof.
  induction 1 as [|r v rs vs Hv _ IH]; [done|].
  unfold visible_total in *. cbn [foldr]. rewrite records_bytes_cons, len_app, IH.
  by rewrite (vis_ok_len r v).
Qed.

Lemma sequenced_lookup s rs i r :
  sequenced s rs → rs !! i = Some r → wr_seq r = s + Z.of_nat i.
Proof.
  revert s i. induction rs as [|x rs IH]; intros s i Hs Hi; [done|].
  destruct Hs as [Hx Hs]. destruct i as [|i].
  - injection Hi as ->. lia.
  - rewrite (IH (s + 1) i Hs) by (done || lia). lia.
Qed.

Lemma retire_inv first max log base fl s a :
  st_inv first max log base fl s →
  st_inv first max log base fl (retire_visible_through a s).1.
Proof.
  intros H. unfold retire_visible_through.
  destruct (retire_check a s) as [[]|e] eqn:Hc; [|done].
  destruct (retire_loop a _ _) as [[retired kept] retained] eqn:E. cbn [fst].
  destruct (si_vis _ _ _ _ _ _ H) as (n & Hn & Hf & Hret & Hd).
  apply retire_loop_spec in E as (Hvs & Hle & _ & Hret'); [|by rewrite (vis_total _ _ Hf)].
  rewrite Hvs in Hf. apply Forall2_app_inv_r in Hf as (rs1 & rs2 & F1 & F2 & Hdrop).
  assert (rs2 = drop (n + length rs1) log) as Hrs2.
  { rewrite <- drop_drop, Hdrop. by rewrite drop_app_length. }
  pose proof (f_equal length Hdrop) as Hlen. rewrite length_drop, length_app in Hlen.
  destruct H as [H1 H2 H3 H4 H5 H6 H7 Hct H8 H9 H10 H11]. split; try done.
  exists (n + length rs1)%nat. cbn [set_visible ws_visible ws_retained_bytes ws_durable_end].
  rewrite <- Hrs2. split_and!; [lia|done|by rewrite Hret', (vis_total _ _ F2)|].
  destruct (decide (rs1 = [])) as [->|Hne]; [by rewrite Nat.add_0_r|]. right.
  unfold retire_check in Hc. destruct (ws_durable_end s) as [d|]; [|done].
  destruct (Z.ltb_spec d a); [done|]. exists d. split; [done|].
  destruct (exists_last Hne) as (l & x & ->).
  apply Forall2_app_inv_l in F1 as (vs1 & vs2 & _ & F1 & ->).
  apply Forall2_cons_inv_l in F1 as (v & ? & (Hv & _) & Hnil & ->).
  apply Forall_app in Hle as [_ Hle]. apply Forall_cons in Hle as [Hle _].
  assert (log !! (n + length l)%nat = Some x) as Hlk.
  { rewrite <- lookup_drop, Hdrop, <- app_assoc. by apply list_lookup_middle. }
  apply (sequenced_lookup first) in Hlk; [|done]. rewrite length_app. simpl. lia.
Qed.

Lemma retire_same a s :
  let s' := (retire_visible_through a s).1 in
  frame s s' ∧ ws_barrier_in_flight s' = ws_barrier_in_flight s
  ∧ ws_pending_groups s' = ws_pending_groups s ∧ ws_next_seq s' = ws_next_seq s.
Proof.
  unfold retire_visible_through. destruct (retire_check a s); [|done].
  by destruct (retire_loop _ _ _) as [[? ?] ?].
Qed.
End RetireInv.

(** ** The system invariant *)

Definition is_leader (pc : Pc) : bool :=
  match pc with
  | LeaderTop _ | LeaderWrite _ _ _ | LeaderEnd _ _ _ _ => true
  | _ => false
  end.

Definition pc_args_ok (pc : Pc) : Prop :=
  match pc with
  | Staging op payload n _ => is_u16 op ∧ encoded_record_len (len payload) = Ok n
  | _ => True
  end.

Section SysInv.
Context {X : Xxh3}.
Context (first max : Z) (policy : DurabilityPolicy).

Definition synced_to (w : WalWriter) (off : Z) : Prop :=
  off ≤ len (ww_file w) ∧ (ww_sync w ≠ SyncSkip → off ≤ ww_synced w).

(** A group in flight: its last record is new and ends inside [base]. *)
Definition in_flight (log : list WalRecord) (base : bytes) (fl l : Z) (s : WriterState)
    : Prop :=
  first ≤ l ≤ fl ∧ (∀ d, ws_durable_end s = Some d → d < l)
  ∧ end_off first log l ≤ len base.

(** What a leader at each point knows of the file. *)
Definition pc_inv (log : list WalRecord) (base : bytes) (fl : Z) (w : WalWriter) (pc : Pc)
    : Prop :=
  match pc with
  | LeaderTop _ => ww_file w = base ∧ log ≠ []
  | LeaderWrite g l _ =>
      ww_file w ++ group_bytes g = base
      ∧ Forall (λ c, is_Some (chunk_bytes c)) (g_chunks g)
      ∧ in_flight log base fl l (ww_state w)
  | LeaderEnd _ l (Ok _) _ =>
      ww_file w = base ∧ in_flight log base fl l (ww_state w)
      ∧ synced_to w (end_off first log l)
  | LeaderEnd _ _ (Err _) _ => ww_file w `prefix_of` base
  | _ => True
  end.

Record sys_inv (base : bytes) (fl : Z) (sys : System) : Prop := {
  in_state : st_inv first max (sys_log sys) base fl (ww_state (sys_writer sys));
  in_max : ww_max_group_bytes (sys_writer sys) = max;
  in_sync : ww_sync (sys_writer sys) = data_file_sync policy;
  in_pcs : ∀ t pc, sys_threads sys !! t = Some pc →
    pc_inv (sys_log sys) base fl (sys_writer sys) pc ∧ pc_args_ok pc
    ∧ (is_leader pc = true → ws_barrier_in_flight (ww_state (sys_writer sys)) = true);
  in_one : ∀ t t' pc pc',
    sys_threads sys !! t = Some pc → sys_threads sys !! t' = Some pc' →
    is_leader pc = true → is_leader pc' = true → t = t';
  in_idle : (∀ t pc, sys_threads sys !! t = Some pc → is_leader pc = false) →
    ww_file (sys_writer sys) = base
    ∨ (ws_failure (ww_state (sys_writer sys)) ≠ None
       ∧ ww_file (sys_writer sys) `prefix_of` base);
  in_prefix : ww_file (sys_writer sys) `prefix_of` base;
  in_synced : 0 ≤ ww_synced (sys_writer sys) ≤ len (ww_file (sys_writer sys));
  in_durable : ∀ d, ws_durable_end (ww_state (sys_writer sys)) = Some d →
    synced_to (sys_writer sys) (end_off first (sys_log sys) d);
  in_acked : ∀ q, q ∈ sys_acked sys →
    ∃ d, ws_durable_end (ww_state (sys_writer sys)) = Some d ∧ q ≤ d;
}.

Lemma pc_inv_log log more base fl w s' pc :
  pc_inv log base fl w pc → fl < first + len log →
  ws_durable_end s' = ws_durable_end (ww_state w) →
  pc_inv (log ++ more) base fl (with_state s' w) pc.
Proof.
  intros H Hfl Hd. assert (∀ l, in_flight log base fl l (ww_state w) →
    in_flight (log ++ more) base fl l s') as Hin.
  { intros l (A & B & C). unfold in_flight. rewrite Hd, end_off_app by lia. done. }
  destruct pc as [| |k|g l k|g l [[]|e] k| | |]; try done.
  - destruct H as [A B]. split; [done|]. by intros [-> _]%app_eq_nil.
  - destruct H as (A & B & C). split_and!; [done|done|by apply Hin].
  - destruct H as (A & B & C). split_and!; [done|by apply Hin|].
    rewrite end_off_app by (destruct B; lia). done.
Qed.

(** A step of a thread that is not the leader: the file stays, the log may
    grow, and the thread may become leader when there was none. *)
Lemma sys_inv_follower base fl sys t pc' s' more acked :
  sys_inv base fl sys → is_leader (pc_of t sys) = false →
  let s := ww_state (sys_writer sys) in
  let log' := sys_log sys ++ more in
  st_inv first max log' base fl s' →
  ws_durable_end s' = ws_durable_end s →
  (ws_failure s' = ws_failure s ∨ ws_failure s' ≠ None) →
  ws_barrier_in_flight s' = ws_barrier_in_flight s || is_leader pc' →
  (is_leader pc' = true → (∃ k, pc' = LeaderTop k) ∧ log' ≠ []
                          ∧ ws_barrier_in_flight s = false ∧ ws_failure s = None) →
  pc_args_ok pc' →
  (∀ q, q ∈ acked → ∃ d, ws_durable_end s = Some d ∧ q ≤ d) →
  sys_inv base fl (goto t pc' (with_state s' (sys_writer sys)) log' acked sys).
Proof.
  intros Hi Hpc s log' Hst Hd Hfail Hbar Hlead Hargs Hack.
  pose proof (si_floor _ _ _ _ _ _ (in_state _ _ _ Hi)) as Hfl.
  pose proof (si_durable _ _ _ _ _ _ (in_state _ _ _ Hi)) as Hdl.
  assert (is_leader pc' = true → ∀ t0 pc0, sys_threads sys !! t0 = Some pc0 →
    is_leader pc0 = false) as Hnone.
  { intros E t0 pc0 H0. destruct (Hlead E) as (_ & _ & Hb & _).
    destruct (is_leader pc0) eqn:E0; [|done].
    destruct (in_pcs _ _ _ Hi _ _ H0) as (_ & _ & H1). unfold s in Hb. rewrite H1 in Hb; done. }
  split; cbn [goto sys_log sys_writer sys_threads sys_acked with_state ww_state
    ww_max_group_bytes ww_sync ww_file ww_synced].
  - done.
  - apply Hi.
  - apply Hi.
  - intros t0 pc0 H0. apply lookup_insert_Some in H0 as [[-> ->]|[Hne H0]].
    + split_and!; [|done|intros E; rewrite Hbar, E; apply orb_true_r].
      destruct (is_leader pc0) eqn:E.
      * destruct (Hlead eq_refl) as ((k & ->) & Hne & _ & Hf). cbn.
        destruct (in_idle _ _ _ Hi (Hnone eq_refl)) as [?|[Hf' _]]; done.
      * by destruct pc0.
    + destruct (in_pcs _ _ _ Hi _ _ H0) as (A & B & C). split_and!; [|done|].
      * apply pc_inv_log; (done || lia).
      * intros E. rewrite Hbar. unfold s. by rewrite (C E).
  - intros t1 t2 pc1 pc2 H1 H2 L1 L2.
    apply lookup_insert_Some in H1 as [[-> ->]|[N1 H1]];
      apply lookup_insert_Some in H2 as [[-> ->]|[N2 H2]]; [done| | |].
    + by rewrite (Hnone L1 _ _ H2) in L2.
    + by rewrite (Hnone L2 _ _ H1) in L1.
    + by apply (in_one _ _ _ Hi _ _ _ _ H1 H2).
  - intros Hno. destruct (in_idle _ _ _ Hi) as [?|[Hf ?]].
    + intros t0 pc0 H0. destruct (decide (t0 = t)) as [->|Hne].
      * unfold pc_of in Hpc. by rewrite H0 in Hpc.
      * apply (Hno t0). by rewrite lookup_insert_ne.
    + by left.
    + right. split; [|done]. destruct Hfail as [->|]; done.
  - apply Hi.
  - apply Hi.
  - intros d E. rewrite Hd in E. unfold log'. rewrite end_off_app by (specialize (Hdl d E); lia).
    apply (in_durable _ _ _ Hi _ E).
  - intros q Hq. rewrite Hd. by apply Hack.
Qed.

(** A step of the leader: every other thread is a follower. *)
Lemma sys_inv_leader base fl base' fl' sys t pc' w' :
  sys_inv base fl sys → is_leader (pc_of t sys) = true →
  let w := sys_writer sys in
  st_inv first max (sys_log sys) base' fl' (ww_state w') →
  ww_max_group_bytes w' = ww_max_group_bytes w → ww_sync w' = ww_sync w →
  pc_inv (sys_log sys) base' fl' w' pc' → pc_args_ok pc' →
  (is_leader pc' = true → ws_barrier_in_flight (ww_state w') = true) →
  (is_leader pc' = false → ww_file w' = base'
     ∨ (ws_failure (ww_state w') ≠ None ∧ ww_file w' `prefix_of` base')) →
  ww_file w' `prefix_of` base' →
  0 ≤ ww_synced w' ≤ len (ww_file w') →
  (∀ d, ws_durable_end (ww_state w') = Some d →
     synced_to w' (end_off first (sys_log sys) d)) →
  (∀ d, ws_durable_end (ww_state w) = Some d →
     ∃ d', ws_durable_end (ww_state w') = Some d' ∧ d ≤ d') →
  sys_inv base' fl' (goto t pc' w' (sys_log sys) (sys_acked sys) sys).
Proof.
  intros Hi Hpc w Hst Hm Hs Hp Ha Hb Hidle Hpre Hsy Hd Hmono.
  assert (∀ t0 pc0, sys_threads sys !! t0 = Some pc0 → t ≠ t0 → is_leader pc0 = false) as Hother.
  { intros t0 pc0 H0 Hne. destruct (is_leader pc0) eqn:E; [|done]. destruct Hne.
    unfold pc_of in Hpc. destruct (sys_threads sys !! t) as [pc|] eqn:Ht; [|done].
    by apply (in_one _ _ _ Hi _ _ _ _ Ht H0). }
  split; cbn [goto sys_log sys_writer sys_threads sys_acked].
  - done.
  - rewrite Hm. apply Hi.
  - rewrite Hs. apply Hi.
  - intros t0 pc0 H0. apply lookup_insert_Some in H0 as [[-> ->]|[Hne H0]]; [done|].
    destruct (in_pcs _ _ _ Hi _ _ H0) as (A & B & C). pose proof (Hother _ _ H0 Hne) as E.
    split_and!; [by destruct pc0|done|by rewrite E].
  - intros t1 t2 pc1 pc2 H1 H2 L1 L2.
    apply lookup_insert_Some in H1 as [[-> ->]|[N1 H1]];
      apply lookup_insert_Some in H2 as [[-> ->]|[N2 H2]]; [done| | |].
    + by rewrite (Hother _ _ H2 N2) in L2.
    + by rewrite (Hother _ _ H1 N1) in L1.
    + by rewrite (Hother _ _ H2 N2) in L2.
  - intros Hno. apply Hidle. apply (Hno t). by rewrite lookup_insert_eq.
  - done.
  - done.
  - done.
  - intros q Hq. destruct (in_acked _ _ _ Hi q Hq) as (d & E & Hle).
    destruct (Hmono d E) as (d' & E' & Hle'). exists d'. split; [done|lia].
Qed.
End SysInv.

(** ** Every step preserves the invariant *)

Lemma with_state_id w : with_state (ww_state w) w = w.
Proof. by destruct w. Qed.

Section Steps.
Context {X : Xxh3} {L : Xxh3Laws X}.
Context (first max : Z) (policy : DurabilityPolicy).
Context (Hmax : WAL_HEADER_LEN ≤ max < usize_max).

Local Abbreviation inv := (sys_inv first max policy).

(** A follower step that touches neither the log nor the shared state. *)
Lemma inv_move base fl sys t pc' acked :
  inv base fl sys → is_leader (pc_of t sys) = false → is_leader pc' = false → pc_args_ok pc' →
  (∀ q, q ∈ acked →
     ∃ d, ws_durable_end (ww_state (sys_writer sys)) = Some d ∧ q ≤ d) →
  inv base fl (goto t pc' (sys_writer sys) (sys_log sys) acked sys).
Proof using Type.
  intros Hi Hpc Hpc' Ha Hack.
  rewrite <- (app_nil_r (sys_log sys)) at 1. rewrite <- (with_state_id (sys_writer sys)) at 1.
  apply sys_inv_follower; try done.
  - rewrite app_nil_r. apply Hi.
  - by left.
  - by rewrite Hpc', orb_false_r.
  - by rewrite Hpc'.
Qed.

(** A follower step that changes the shared state but not the log. *)
Lemma inv_state base fl sys t pc' s' :
  inv base fl sys → is_leader (pc_of t sys) = false → is_leader pc' = false → pc_args_ok pc' →
  let s := ww_state (sys_writer sys) in
  st_inv first max (sys_log sys) base fl s' → ws_durable_end s' = ws_durable_end s →
  (ws_failure s' = ws_failure s ∨ ws_failure s' ≠ None) →
  ws_barrier_in_flight s' = ws_barrier_in_flight s →
  inv base fl (goto t pc' (with_state s' (sys_writer sys)) (sys_log sys) (sys_acked sys) sys).
Proof using Type.
  intros Hi Hpc Hpc' Ha s Hst Hd Hf Hb.
  rewrite <- (app_nil_r (sys_log sys)) at 1. apply sys_inv_follower; try done.
  - by rewrite app_nil_r.
  - by rewrite Hpc', orb_false_r.
  - by rewrite Hpc'.
  - apply Hi.
Qed.

(** A follower step that publishes records. *)
Lemma inv_publish base fl sys t s' rs leader k :
  inv base fl sys → is_leader (pc_of t sys) = false → rs ≠ [] →
  published first max (sys_log sys) rs base fl (ww_state (sys_writer sys)) s' leader →
  len (wal_image first (sys_log sys ++ rs)) ≤ isize_max →
  inv base fl (goto t (after_staging leader k) (with_state s' (sys_writer sys))
                 (sys_log sys ++ rs) (sys_acked sys) sys).
Proof using Type.
  intros Hi Hpc Hrs (Hf & [Hd Hf'] & Hl & Hb & Hst) Himg.
  assert (pc_args_ok (after_staging leader k)) by (by destruct leader, k).
  apply sys_inv_follower; try done.
  - by apply Hst.
  - by left.
  - rewrite Hb, Hl. unfold after_staging, resume_with.
    by destruct (ws_barrier_in_flight _).
  - intros E. destruct leader; [|by destruct k]. split_and!; [by eexists| | |done].
    + intros [_ ?]%app_eq_nil. done.
    + by destruct (ws_barrier_in_flight _).
  - apply Hi.
Qed.

Lemma inv_stage base fl sys t op payload n durable :
  inv base fl sys → pc_of t sys = Staging op payload n durable →
  let sys' := exec_stage t op payload n durable sys in
  len (wal_image first (sys_log sys')) ≤ isize_max → inv base fl sys'.
Proof using L Hmax.
  intros Hi Hpc sys'. unfold sys', exec_stage. cbv zeta.
  assert (pc_args_ok (Staging op payload n durable)) as Hargs.
  { unfold pc_of in Hpc. destruct (sys_threads sys !! t) as [pc|] eqn:Ht; [|done].
    cbn in Hpc. subst pc. apply (in_pcs _ _ _ _ _ _ Hi _ _ Ht). }
  destruct Hargs as [Hop Hn].
  pose proof (stage_attempt_inv first max Hmax _ _ _ _ op payload n (in_state _ _ _ _ _ _ Hi) Hop Hn)
    as Hpost.
  assert (is_leader (pc_of t sys) = false) as Hnl by (by rewrite Hpc).
  rewrite (in_max _ _ _ _ _ _ Hi).
  destruct (stage_attempt _ _ _ _ _) as [s' [seq leader| |e]]; cbn [stage_post] in Hpost.
  - destruct Hpost as [_ Hp]. intros Himg. by apply inv_publish.
  - destruct Hpost as (Hst & (Hd & Hf) & _ & _ & Hb). intros _.
    apply inv_state; try done. by left.
  - destruct Hpost as (Hst & (Hd & Hf) & _ & _ & Hb). intros _.
    apply inv_state; try done. by left.
Qed.

Lemma inv_commit_many base fl sys t records durable :
  inv base fl sys → pc_of t sys = Idle → batch_ok records →
  let sys' := exec_commit_many t records durable sys in
  len (wal_image first (sys_log sys')) ≤ isize_max → inv base fl sys'.
Proof using L Hmax.
  intros Hi Hpc Hb sys'. unfold sys', exec_commit_many. cbv zeta.
  assert (is_leader (pc_of t sys) = false) as Hnl by (by rewrite Hpc).
  pose proof (stage_many_inv first max Hmax _ _ _ _ records (in_state _ _ _ _ _ _ Hi) Hb) as Hpost.
  rewrite (in_max _ _ _ _ _ _ Hi).
  destruct (stage_many _ _ _) as [s' [[[start end_] leader]|e]]; cbn [stage_many_post] in Hpost.
  - destruct Hpost as (-> & -> & Hp). intros Himg. destruct records as [|r records].
    + destruct Hp as [-> ->]. rewrite len_nil, Z.add_0_r, Z.eqb_refl, andb_false_r in *.
      cbn [number] in *. rewrite app_nil_r in *. rewrite with_state_id.
      apply inv_move; try done. apply Hi.
    + by apply inv_publish; destruct r.
  - destruct Hpost as (Hst & (Hd & Hf) & _ & _ & Hb'). intros _.
    apply inv_state; try done. by left.
Qed.

Lemma st_inv_same log base fl s s' :
  st_inv first max log base fl s → ws_next_seq s' = ws_next_seq s →
  ws_visible s' = ws_visible s → ws_retained_bytes s' = ws_retained_bytes s →
  ws_durable_end s' = ws_durable_end s → ws_pending_groups s' = ws_pending_groups s →
  ws_spare_chunks s' = ws_spare_chunks s → st_inv first max log base fl s'.
Proof using Type.
  intros [H1 H2 H3 H4 H5 H6 H7 Hct H8 H9 H10 H11] E1 E2 E3 E4 E5 E6.
  split; rewrite ?E1, ?E4, ?E5, ?E6; try done. unfold vis_inv. by rewrite E2, E3, E4.
Qed.

Lemma flush_begin_log base fl sys t l :
  inv base fl sys →
  (flush_begin (ww_state (sys_writer sys))).2 = FlushWait t l → sys_log sys ≠ [].
Proof using Type.
  intros Hi E Hlog. destruct (si_vis _ _ _ _ _ _ (in_state _ _ _ _ _ _ Hi)) as (n & _ & Hf & _).
  rewrite Hlog, drop_nil in Hf. apply Forall2_nil_inv_l in Hf.
  unfold flush_begin in E. destruct (ws_failure _); [done|]. by rewrite Hf in E.
Qed.

Lemma inv_flush base fl sys t :
  inv base fl sys → pc_of t sys = Idle → inv base fl (exec_start t Flush sys).
Proof using Type.
  intros Hi Hpc. assert (is_leader (pc_of t sys) = false) as Hnl by (by rewrite Hpc).
  pose proof (in_state _ _ _ _ _ _ Hi) as Hst.
  cbn [exec_start]. pose proof (flush_begin_log base fl sys) as Hlog. unfold flush_begin in *.
  destruct (ws_failure _) eqn:Hf.
  { rewrite with_state_id. apply inv_move; try done. apply Hi. }
  destruct (last _) as [v|].
  2:{ rewrite with_state_id. apply inv_move; try done. apply Hi. }
  destruct (match ws_durable_end _ with Some d => _ | None => _ end).
  { rewrite with_state_id. apply inv_move; try done. apply Hi. }
  destruct (ws_barrier_in_flight _) eqn:Hb.
  { rewrite with_state_id. apply inv_move; try done. apply Hi. }
  destruct (existsb _ _).
  2:{ rewrite with_state_id. apply inv_move; try done. apply Hi. }
  specialize (Hlog _ _ Hi eq_refl).
  rewrite <- (app_nil_r (sys_log sys)) at 1. apply sys_inv_follower; try done.
  - rewrite app_nil_r. by apply (st_inv_same _ _ _ _ _ Hst).
  - by left.
  - by rewrite orb_true_r.
  - intros _. rewrite app_nil_r. split_and!; [by eexists|done|done|done].
  - apply Hi.
Qed.

Lemma inv_start base fl sys t c :
  inv base fl sys → pc_of t sys = Idle → action_ok (Start t c) →
  let sys' := exec_start t c sys in
  len (wal_image first (sys_log sys')) ≤ isize_max → inv base fl sys'.
Proof using L Hmax.
  intros Hi Hpc Ha sys' Himg. assert (is_leader (pc_of t sys) = false) as Hnl by (by rewrite Hpc).
  unfold sys'. destruct c as [op payload durable|records durable| |n|kind].
  - cbn [exec_start]. destruct (encoded_record_len (len payload)) as [n|e] eqn:En;
      (apply inv_move; [done|done|done|by try split|apply Hi]).
  - by apply inv_commit_many.
  - by apply inv_flush.
  - cbn [exec_start]. destruct (retire_check n _); (apply inv_move; try done; apply Hi).
  - cbn [exec_start]. pose proof (in_state _ _ _ _ _ _ Hi) as Hst.
    apply inv_state; try done; unfold poison;
      destruct (ws_failure (ww_state (sys_writer sys))) eqn:Hf; try done;
      (by left) || (by right) || by apply (st_inv_same _ _ _ _ _ Hst).
Qed.

Lemma write_group_spec io g w w' r :
  write_group io g w = (w', r) → Forall (λ c, is_Some (chunk_bytes c)) (g_chunks g) →
  0 ≤ ww_synced w ≤ len (ww_file w) →
  ww_state w' = ww_state w ∧ ww_max_group_bytes w' = ww_max_group_bytes w
  ∧ ww_sync w' = ww_sync w
  ∧ (∃ n, ww_file w' = ww_file w ++ take n (group_bytes g))
  ∧ ww_synced w ≤ ww_synced w' ≤ len (ww_file w')
  ∧ (r = Ok tt → ww_file w' = ww_file w ++ group_bytes g
                 ∧ (ww_sync w ≠ SyncSkip → ww_synced w' = len (ww_file w'))).
Proof using Type.
  intros H Hc Hs. unfold write_group in H. rewrite (chunks_buffers _ Hc) in H.
  change (concat (map chunk_data (g_chunks g))) with (group_bytes g) in H.
  assert (∀ b, len (ww_file w) ≤ len (ww_file w ++ b)) as Hlen by (intros b; len_lia).
  pose proof (Hlen (group_bytes g)) as Hg.
  assert (∃ n, ww_file w ++ group_bytes g = ww_file w ++ take n (group_bytes g)) as Hall
    by (exists (length (group_bytes g)); by rewrite firstn_all).
  destruct (io_append io) as [[kind n]|].
  { injection H as <- <-. cbn. pose proof (Hlen (take n (group_bytes g))).
    split_and!; [done..|by exists n|lia|lia|done]. }
  destruct (ww_sync w) as [|kind] eqn:Hsync; [|destruct (io_file_sync io)].
  all: cbv zeta in H; cbn [with_io ww_created_directory_sync] in H;
    try (injection H as <- <-; cbn; split_and!; first [done|lia]);
    (destruct (ww_created_directory_sync w); [destruct (io_directory_sync io)|]);
    injection H as <- <-; cbn; rewrite ?Hsync; split_and!; first [done|lia].
Qed.

Lemma synced_to_mono w w' off :
  synced_to w off → ww_sync w' = ww_sync w → len (ww_file w) ≤ len (ww_file w') →
  ww_synced w ≤ ww_synced w' → synced_to w' off.
Proof using Type.
  intros [H1 H2] E1 E2 E3. split; [lia|]. intros Hs. rewrite E1 in Hs. specialize (H2 Hs). lia.
Qed.

(** The invariant after the leader takes its group off the queue. *)
Lemma st_inv_pop log base fl s g rest l :
  st_inv first max log base fl s → ws_pending_groups s = g :: rest → log ≠ [] →
  g_last_seq g = l →
  st_inv first max log (base ++ group_bytes g) (default fl l) (set_pending rest s).
Proof using Type.
  intros [H1 H2 H3 H4 H5 H6 H7 Hct H8 H9 H10 H11] Hp Hlog Hl. rewrite Hp in *.
  destruct H7 as [Hg Hgs]. rewrite Hl in Hgs. pose proof (go_last _ _ _ _ _ _ Hg) as Hlast.
  rewrite Hl in Hlast. destruct Hct as [_ Hct]. specialize (Hct Hlog).
  apply Forall_cons in Hct as [_ Hct].
  split; cbn [ws_next_seq ws_pending_groups ws_spare_chunks ws_durable_end set_pending]; try done.
  - by rewrite <- app_assoc.
  - by rewrite len_app.
  - split; [|done]. destruct (decide (rest = [])) as [->|Hne]; [constructor|].
    rewrite (app_removelast_last g Hne) in Hct. by apply Forall_app in Hct as [Hct _].
  - destruct l as [l|]; cbn [default id]; [|done]. destruct Hlast as (_ & _ & Hr & _). lia.
  - intros d Hd. specialize (H10 d Hd). destruct l as [l|]; cbn; lia.
Qed.

Lemma leader_pc base fl sys t pc :
  inv base fl sys → pc_of t sys = pc → is_leader pc = true →
  pc_inv first (sys_log sys) base fl (sys_writer sys) pc
  ∧ ws_barrier_in_flight (ww_state (sys_writer sys)) = true.
Proof using Type.
  intros Hi Hpc Hl. unfold pc_of in Hpc. destruct (sys_threads sys !! t) as [pc0|] eqn:Ht;
    cbn in Hpc; subst; [|done].
  destruct (in_pcs _ _ _ _ _ _ Hi _ _ Ht) as (A & _ & B). split; [done|by apply B].
Qed.

Lemma inv_leader_top base fl sys t k io sys' :
  inv base fl sys → pc_of t sys = LeaderTop k → exec_run t io sys = Some sys' →
  ∃ base' fl', inv base' fl' sys'.
Proof using Type.
  intros Hi Hpc. unfold exec_run. rewrite Hpc. intros [= <-].
  destruct (leader_pc _ _ _ _ _ Hi Hpc eq_refl) as [[Hfile Hlog] Hbar].
  pose proof (in_state _ _ _ _ _ _ Hi) as Hst. unfold leader_pop.
  assert (is_leader (pc_of t sys) = true) as Hl by (by rewrite Hpc).
  destruct (ws_pending_groups _) as [|g rest] eqn:Hp.
  { exists base, fl. eapply sys_inv_leader; try done; try apply Hi; [by left|by (intros d ?; exists d)]. }
  pose proof (st_inv_pop _ _ _ _ _ _ (g_last_seq g) Hst Hp Hlog eq_refl) as Hpop.
  destruct (g_last_seq g) as [l|] eqn:Hlast; cbn [default id] in Hpop.
  - exists (base ++ group_bytes g), l.
    pose proof (si_groups _ _ _ _ _ _ Hst) as Hg. rewrite Hp in Hg. destruct Hg as [Hg _].
    pose proof (go_last _ _ _ _ _ _ Hg) as Hgl. rewrite Hlast in Hgl.
    destruct Hgl as (_ & Hfl & Hr & Hend).
    eapply sys_inv_leader; try done; try apply Hi.
    + cbn. rewrite Hfile. split_and!; [done|apply (go_chunks _ _ _ _ _ _ Hg)|].
      split_and!; [lia|lia| |by rewrite len_app]. intros d Hd.
      pose proof (si_durable _ _ _ _ _ _ Hst d Hd). lia.
    + cbn. rewrite Hfile. by apply prefix_app_r.
    + by (intros d ?; exists d).
  - pose proof (si_counted _ _ _ _ _ _ Hst) as [_ Hc]. specialize (Hc Hlog).
    rewrite Hp in Hc. apply Forall_cons in Hc as [Hc _]. rewrite (Hc Hlast), app_nil_r in Hpop.
    exists base, fl. eapply sys_inv_leader; try done; try apply Hi; [by left|by (intros d ?; exists d)].
Qed.

Lemma inv_leader_write base fl sys t g l k io sys' :
  inv base fl sys → pc_of t sys = LeaderWrite g l k → exec_run t io sys = Some sys' →
  ∃ base' fl', inv base' fl' sys'.
Proof using Type.
  intros Hi Hpc. unfold exec_run. rewrite Hpc.
  destruct (write_group io g (sys_writer sys)) as [w' r] eqn:Hw. intros [= <-].
  destruct (leader_pc _ _ _ _ _ Hi Hpc eq_refl) as [(Hfile & Hc & Hin) Hbar].
  pose proof (in_state _ _ _ _ _ _ Hi) as Hst. pose proof (in_synced _ _ _ _ _ _ Hi) as Hsy.
  apply write_group_spec in Hw as (E1 & E2 & E3 & (n & E4) & E5 & E6); [|done|done].
  assert (ww_file w' `prefix_of` base) as Hpre.
  { rewrite E4, <- Hfile. apply prefix_app. exists (drop n (group_bytes g)). by rewrite take_drop. }
  assert (len (ww_file (sys_writer sys)) ≤ len (ww_file w')) as Hlen by (rewrite E4; len_lia).
  exists base, fl. eapply sys_inv_leader; try done; rewrite ?E1; try done.
  - by rewrite Hpc.
  - destruct r as [[]|e]; cbn; [|done]. destruct (E6 eq_refl) as [F1 F2].
    assert (ww_file w' = base) as Hb by (by rewrite F1). rewrite E1.
    split_and!; [done|done|]. destruct Hin as (_ & _ & Hend).
    split; [by rewrite Hb|]. intros Hs. rewrite E3 in Hs. rewrite (F2 Hs). by rewrite Hb.
  - lia.
  - intros d Hd. eapply synced_to_mono; [by apply (in_durable _ _ _ _ _ _ Hi)|done|done|lia].
  - by (intros d ?; exists d).
Qed.

Lemma inv_leader_end base fl sys t g l r k io sys' :
  inv base fl sys → pc_of t sys = LeaderEnd g l r k → exec_run t io sys = Some sys' →
  ∃ base' fl', inv base' fl' sys'.
Proof using Type.
  intros Hi Hpc. unfold exec_run. rewrite Hpc. intros [= <-].
  destruct (leader_pc _ _ _ _ _ Hi Hpc eq_refl) as [Hinv Hbar].
  pose proof (in_state _ _ _ _ _ _ Hi) as Hst.
  pose proof (si_spare _ _ _ _ _ _ Hst) as Hsp. unfold leader_complete. exists base, fl.
  assert (is_leader (pc_of t sys) = true) as Hl by (by rewrite Hpc).
  destruct r as [[]|kind].
  2:{ eapply sys_inv_leader; try done; try apply Hi.
      - by apply (st_inv_same _ _ _ _ _ Hst).
      - by right.
      - by (intros d ?; exists d). }
  destruct Hinv as (Hfile & (Hr & Hd & Hend) & Hsync).
  set (s' := record_completed g l _).
  assert (st_inv first max (sys_log sys) base fl s') as Hst'.
  { destruct Hst as [H1 H2 H3 H4 H5 H6 H7 Hct H8 H9 H10 H11]. split; try done.
    - cbn. intros d [= <-]. lia.
    - destruct H11 as (n & A & B & C & D). exists n. split_and!; [done..|].
      destruct D as [D|(d & D & D')]; [by left|right]. exists l. split; [done|].
      specialize (Hd d D). lia. }
  assert (∀ w', ws_durable_end (ww_state w') = Some l → ww_file w' = ww_file (sys_writer sys) →
    ww_synced w' = ww_synced (sys_writer sys) → ww_sync w' = ww_sync (sys_writer sys) →
    ∀ d, ws_durable_end (ww_state w') = Some d →
      synced_to w' (end_off first (sys_log sys) d)) as Hsy.
  { intros w' F1 F2 F3 F4 d Hd'. rewrite F1 in Hd'. injection Hd' as <-.
    unfold synced_to in *. by rewrite F2, F3, F4. }
  assert (sys_log sys ≠ []) as Hlog.
  { intros E. pose proof (si_floor _ _ _ _ _ _ Hst). rewrite E, len_nil in *. lia. }
  assert (∀ d, ws_durable_end (ww_state (sys_writer sys)) = Some d → d ≤ l) as Hmono
    by (intros d Hd'; specialize (Hd d Hd'); lia).
  destruct (ws_pending_groups s') eqn:Hp.
  - eapply sys_inv_leader; try done; try apply Hi.
    + by apply (st_inv_same _ _ _ _ _ Hst').
    + by destruct k.
    + by destruct k.
    + by destruct k.
    + by left.
    + by apply Hsy.
    + intros d Hd'. exists l. split; [done|]. by apply Hmono.
  - eapply sys_inv_leader; try done; try apply Hi.
    + by apply Hsy.
    + intros d Hd'. exists l. split; [done|]. by apply Hmono.
Qed.

Lemma exec_log a sys sys' :
  exec a sys = Some sys' → ∃ more, sys_log sys' = sys_log sys ++ more.
Proof using Type.
  assert (∃ more, sys_log sys = sys_log sys ++ more) as Hnil by (exists []; by rewrite app_nil_r).
  intros H. destruct a as [t c|t io|t]; cbn [exec] in H.
  - destruct (pc_of t sys); try done. injection H as <-.
    destruct c; cbn [exec_start]; try done.
    + unfold exec_commit_many. destruct (stage_many _ _ _) as [? [[[? ?] ?]|]]; [by eexists|done].
    + by destruct (flush_begin _) as [? [[]|]].
  - unfold exec_run in H. destruct (pc_of t sys); try done.
    + injection H as <-. unfold exec_stage.
      destruct (stage_attempt _ _ _ _ _) as [? []]; [by eexists|done..].
    + injection H as <-. by destruct (leader_pop _) as [? [[]|]].
    + destruct (write_group _ _ _) as [? ?]. by injection H as <-.
    + injection H as <-. by destruct (leader_complete _ _ _ _) as [? []].
    + destruct (durable_check _ _) as [[]|]; [|by injection H as <-|done]. by injection H as <-.
    + destruct (retire_visible_through _ _) as [? ?]. by injection H as <-.
  - destruct (pc_of t sys); try done. by injection H as <-.
Qed.

Lemma inv_waiting base fl sys t q v io sys' :
  inv base fl sys → pc_of t sys = WaitingDurable q v → exec_run t io sys = Some sys' →
  inv base fl sys'.
Proof using Type.
  intros Hi Hpc. unfold exec_run, durable_check. rewrite Hpc.
  assert (is_leader (pc_of t sys) = false) as Hnl by (by rewrite Hpc).
  destruct (match ws_durable_end _ with Some d => d <? q | None => true end) eqn:E.
  - destruct (ws_failure _); [|done]. intros [= <-]. apply inv_move; try done. apply Hi.
  - intros [= <-]. apply inv_move; try done. intros q' [Hq|Hq]%elem_of_app.
    + by apply (in_acked _ _ _ _ _ _ Hi).
    + apply list_elem_of_singleton in Hq as ->. destruct (ws_durable_end _) as [d|]; [|done].
      exists d. apply Z.ltb_ge in E. done.
Qed.

Lemma inv_exec base fl a sys sys' :
  inv base fl sys → action_ok a → exec a sys = Some sys' →
  len (wal_image first (sys_log sys')) ≤ isize_max → ∃ base' fl', inv base' fl' sys'.
Proof using L Hmax.
  intros Hi Ha H Himg. destruct a as [t c|t io|t]; cbn [exec] in H.
  - destruct (pc_of t sys) eqn:Hpc; try done. injection H as <-.
    exists base, fl. by apply inv_start.
  - pose proof H as Hrun. unfold exec_run in H. destruct (pc_of t sys) eqn:Hpc; try done.
    + injection H as <-. exists base, fl. by apply inv_stage.
    + by eapply inv_leader_top.
    + by eapply inv_leader_write.
    + by eapply inv_leader_end.
    + exists base, fl. by eapply inv_waiting.
    + destruct (retire_visible_through _ _) as [s' r] eqn:Hr. injection H as <-.
      exists base, fl. pose proof (in_state _ _ _ _ _ _ Hi) as Hst.
      pose proof (retire_inv _ _ _ _ _ _ absorbed_through Hst) as Hst'.
      destruct (retire_same absorbed_through (ww_state (sys_writer sys))) as ((Hd & Hf) & Hb & _).
      rewrite Hr in *. cbn [fst] in *.
      apply inv_state; first [done|by rewrite Hpc|by left].
  - destruct (pc_of t sys) eqn:Hpc; try done. injection H as <-. exists base, fl.
    apply inv_move; try done; [by rewrite Hpc|apply Hi].
Qed.

Lemma inv_create w :
  is_u64 first → 1 ≤ first → first ≤ u64_max →
  create_with_max_group_bytes (Ok 0) (Ok tt) first policy max = Ok w →
  inv [] (first - 1) (start_system w []).
Proof using Hmax.
  intros Hu Hf Hfm H. unfold create_with_max_group_bytes in H.
  rewrite encode_wal_header_eq in H. rsimpl in H.
  rewrite len_wal_header_bytes in H. destruct (Z.ltb_spec max WAL_HEADER_LEN); [lia|].
  injection H as <-.
  assert (group_bytes {| g_chunks := [{| ch_encoded := wal_header_bytes first;
                                          ch_range := (0, WAL_HEADER_LEN) |}];
                         g_encoded_bytes := WAL_HEADER_LEN; g_records := 0;
                         g_last_seq := None |} = wal_header_bytes first) as Hg.
  { unfold group_bytes, chunk_data. cbn [g_chunks map concat].
    rewrite whole_chunk by (by rewrite len_wal_header_bytes). apply app_nil_r. }
  split; cbn [start_system sys_writer sys_log sys_threads sys_acked ww_state ww_file ww_synced
    ww_max_group_bytes ww_sync]; try done; try (intros ? ? ?; by rewrite lookup_empty).
  - split; cbn [initial_state ws_next_seq ws_pending_groups ws_spare_chunks ws_durable_end];
      try done; try (rewrite len_nil; lia).
    + split; [|done]. split; cbn [g_chunks g_encoded_bytes g_last_seq];
        [|by rewrite Hg, len_wal_header_bytes|lia|done].
      apply Forall_singleton. by rewrite whole_chunk by (by rewrite len_wal_header_bytes).
    + exists 0%nat. split_and!; [lia|constructor|done|by left].
  - by left.
  - intros q Hq. by apply elem_of_nil in Hq.
Qed.

Lemma total_encoded_Some n vs m :
  total_encoded n vs = Some m → m = n + visible_total vs.
Proof using Type.
  revert n. induction vs as [|v vs IH]; intros n H; unfold visible_total in *; cbn in *.
  { injection H as <-. lia. }
  destruct (checked_add _ _ _) as [n'|] eqn:E; [|done]. cbn in H. apply IH in H as ->.
  unfold checked_add in E. destruct (_ <=? _); [|done]. injection E as <-. lia.
Qed.

Lemma recovered_vis_ok rs : Forall2 vis_ok rs (map recovered_visible rs).
Proof using Type.
  induction rs as [|r rs IH]; [constructor|]. cbn [map]. constructor; [|done].
  unfold vis_ok, visible_encoded, recovered_visible. cbn. split_and!; [done|done|].
  by rewrite slice_range_whole.
Qed.

(** What a clean image reads back as. *)
Lemma reader_open_image rs rd cl :
  is_u64 first → 1 ≤ first → Forall record_ok rs → sequenced first rs →
  first + len rs ≤ u64_max → len (wal_image first rs) ≤ isize_max →
  reader_open (Ok (wal_image first rs)) = Some (Ok rd) → into_clean rd = Ok cl →
  cl_records cl = map recovered_visible rs ∧ cl_next_seq cl = first + len rs
  ∧ cl_durable_end cl = Some (first + len rs - 1).
Proof using L.
  intros Hu Hf Hok Hseq Hb Hl Hopen Hclean.
  destruct (reader_open_ok _ Hl) as (res & rd' & Hr & Ho & Ht & Hrec & _ & Hn).
  rewrite replay_image in Hr by done. injection Hr as <-. rewrite Ho in Hopen.
  injection Hopen as ->. unfold into_clean in Hclean. rewrite Ht in Hclean. cbn in Hclean.
  injection Hclean as <-. cbn [cl_records cl_next_seq cl_durable_end]. cbn [rr_records] in *.
  assert (decode_wal_header (wal_image first rs) = Ok {| wh_first_seq := first |}) as Hh
    by (unfold wal_image; by apply decode_wal_header_app).
  destruct (Hn _ Hh) as [H1 H2]. cbn [wh_first_seq] in *. pose proof (len_nonneg rs).
  split_and!; [done|rewrite H1; lia|]. f_equal. rewrite H2.
  destruct (bool_decide_reflect (rs = [])) as [->|]; [rewrite len_nil; unfold saturating_sub|];
    lia.
Qed.

Lemma inv_resume rs rd cl w :
  is_u64 first → 1 ≤ first → Forall record_ok rs → sequenced first rs →
  first + len rs ≤ u64_max → len (wal_image first rs) ≤ isize_max →
  reader_open (Ok (wal_image first rs)) = Some (Ok rd) → into_clean rd = Ok cl →
  resume cl (Ok tt) (wal_image first rs) (len (wal_image first rs)) policy = Ok w →
  max = default_max_group_bytes policy →
  inv (wal_image first rs) (first + len rs - 1) (start_system w rs).
Proof using L.
  intros Hu Hf Hok Hseq Hb Hl Hopen Hclean H Hm. pose proof (len_nonneg rs).
  destruct (reader_open_image _ _ _ Hu Hf Hok Hseq Hb Hl Hopen Hclean) as (E1 & E2 & E3).
  unfold resume in H. destruct (total_encoded _ _) as [n|] eqn:Ht; rsimpl in H; [|done].
  injection H as <-. apply total_encoded_Some in Ht.
  assert (synced_to {| ww_state := initial_state 0 []; ww_file := wal_image first rs;
    ww_synced := len (wal_image first rs); ww_created_directory_sync := None;
    ww_sync := data_file_sync policy; ww_max_group_bytes := 0; ww_durable_progress := 0;
    ww_io_work := [] |} (end_off first rs (first + len rs - 1))) as Hs.
  { unfold synced_to. cbn. rewrite end_off_last by lia. done. }
  split; cbn [start_system sys_writer sys_log sys_threads sys_acked ww_state ww_file ww_synced
    ww_max_group_bytes ww_sync]; try done; try (intros ? ? ?; by rewrite lookup_empty).
  - split; cbn [initial_state ws_next_seq ws_pending_groups ws_spare_chunks ws_durable_end];
      try done; try lia.
    + by rewrite app_nil_r.
    + rewrite E3. intros d [= <-]. lia.
    + exists 0%nat. cbn [ws_visible ws_retained_bytes]. rewrite drop_0, E1.
      split_and!; [lia|apply recovered_vis_ok| |by left].
      rewrite Ht, E1. by rewrite (vis_total _ _ (recovered_vis_ok rs)).
  - by left.
  - cbn. rewrite E3. intros d [= <-]. exact Hs.
  - intros q Hq. by apply elem_of_nil in Hq.
Qed.
End Steps.

Section Reachable.
Context {X : Xxh3} {L : Xxh3Laws X}.

Lemma reachable_max first max policy sys :
  reachable first max policy sys → WAL_HEADER_LEN ≤ max.
Proof using Type.
  induction 1 as [w H|rs rd cl w _ _ _ _ _ _ ->|]; [| |done].
  - unfold create_with_max_group_bytes in H. rewrite encode_wal_header_eq in H. rsimpl in H.
    rewrite len_wal_header_bytes in H. destruct (Z.ltb_spec max WAL_HEADER_LEN); done.
  - unfold default_max_group_bytes. by destruct (data_file_sync policy) as [|[]].
Qed.

(** Every reachable state satisfies the invariant, as long as the log fits in
    memory. *)
Lemma sys_inv_reachable first max policy sys :
  reachable first max policy sys → is_u64 first → 1 ≤ first → max < usize_max →
  len (wal_image first (sys_log sys)) ≤ isize_max →
  ∃ base fl, sys_inv first max policy base fl sys.
Proof using L.
  intros Hr Hu Hf Hm. pose proof (reachable_max _ _ _ _ Hr) as Hm'.
  induction Hr as [w H|rs rd cl w H1 H2 H3 H4 H5 H6 H7|sys sys' Hr IH Hs]; intros Hl.
  - eexists _, _. apply inv_create; (done || apply Hu).
  - eexists _, _. by eapply inv_resume.
  - destruct Hs as [a sys sys' Ha He]. destruct (exec_log _ _ _ He) as [more Hlog].
    destruct IH as (base & fl & Hi).
    + unfold wal_image in *. rewrite Hlog, records_bytes_app, !len_app in Hl. rewrite len_app.
      pose proof (len_nonneg (records_bytes more)). lia.
    + by eapply inv_exec.
Qed.
End Reachable.

(** ** What the invariant gives *)

Section Consequences.
Context {X : Xxh3} {L : Xxh3Laws X}.

Lemma whole_records_prefix rs : ∀ budget, whole_records budget rs `prefix_of` rs.
Proof using Type.
  induction rs as [|r rs IH]; intros budget; cbn [whole_records]; [done|].
  destruct (_ <=? _); [by apply prefix_cons|apply prefix_nil].
Qed.

Lemma sys_inv_image first max policy base fl sys :
  sys_inv first max policy base fl sys →
  ww_file (sys_writer sys) `prefix_of` wal_image first (sys_log sys).
Proof using Type.
  intros Hi. etrans; [apply (in_prefix _ _ _ _ _ _ Hi)|].
  rewrite <- (si_bytes _ _ _ _ _ _ (in_state _ _ _ _ _ _ Hi)). by apply prefix_app_r.
Qed.

(** A file that holds the image of the first [k] records starts with it. *)
Lemma image_take_prefix first log (k : nat) (file : bytes) (keep : nat) :
  file `prefix_of` wal_image first log →
  WAL_HEADER_LEN + len (records_bytes (take k log)) ≤ Z.of_nat keep →
  (keep ≤ length file)%nat →
  ∃ rest, take keep file = wal_image first (take k log) ++ rest.
Proof using Type.
  intros [suf Hp] Hk Hlen.
  assert (wal_image first log = wal_image first (take k log) ++ records_bytes (drop k log)) as Hi.
  { unfold wal_image. by rewrite <- app_assoc, <- records_bytes_app, take_drop. }
  assert (take keep file = take keep (wal_image first log)) as ->
    by (rewrite Hp, take_app_le by done; done).
  rewrite Hi, take_app_ge; [by eexists|].
  unfold wal_image. rewrite length_app. pose proof (len_wal_header_bytes first).
  unfold len in *. lia.
Qed.

(** The process dies, or the machine loses power. *)
Inductive Crash : Type := ApplicationCrash | PowerCut.

(** The first bytes of the log file a crash must keep. The page cache keeps every
    written byte across an application crash; a power cut keeps what reached
    media, and only a full sync promises that: a barrier orders, and its tail may
    be lost like that of a skipped sync. *)
Definition kept (crash : Crash) (w : WalWriter) : Z :=
  match crash, ww_sync w with
  | ApplicationCrash, _ => len (ww_file w)
  | PowerCut, SyncWith Full => ww_synced w
  | PowerCut, (SyncWith Barrier | SyncSkip) => 0
  end.

(** What a crash can leave of the log file: the bytes it must keep, possibly more
    of the file, and then arbitrary bytes. *)
Definition crash_image (crash : Crash) (w : WalWriter) (b : bytes) : Prop :=
  ∃ (keep : nat) junk,
    b = take keep (ww_file w) ++ junk ∧ (keep ≤ length (ww_file w))%nat
    ∧ kept crash w ≤ Z.of_nat keep.

(** The crashes against which the writer's policy protects. *)
Definition protected (crash : Crash) (w : WalWriter) : Prop :=
  match crash with
  | ApplicationCrash => True
  | PowerCut => ww_sync w = SyncWith Full
  end.

Lemma synced_to_keep crash w off :
  synced_to w off → protected crash w → off ≤ kept crash w.
Proof using Type.
  intros [H1 H2] Hp. destruct crash; cbn [kept protected] in *; [done|].
  rewrite Hp in *. by apply H2.
Qed.

Lemma vis_ok_payloads rs vs :
  Forall record_ok rs → Forall2 vis_ok rs vs →
  Forall2 (λ r v, vr_seq v = wr_seq r ∧ vr_op v = wr_op r
                  ∧ visible_payload v = Ok (wr_payload r)) rs vs.
Proof using L.
  intros Hok Hf. induction Hf as [|r v rs vs (H1 & H2 & H3) Hf IH]; [constructor|].
  apply Forall_cons in Hok as [Hr Hok]. constructor; [|by apply IH]. split_and!; [done|done|].
  unfold visible_payload. rewrite H3. rsimpl.
  by rewrite <- (app_nil_r (record_bytes r)), decode_record_app.
Qed.

Lemma sequenced_take s rs n : sequenced s rs → sequenced s (take n rs).
Proof using Type.
  revert s n. induction rs as [|r rs IH]; intros s n H; destruct n; try done.
  destruct H. cbn [take sequenced]. split; [done|by apply IH].
Qed.
End Consequences.

Section Properties.
Context {X : Xxh3} {L : Xxh3Laws X}.
Context (first max : Z) (policy : DurabilityPolicy) (sys : System).
Context (Hreach : reachable first max policy sys).
Context (Hfirst : is_u64 first) (Hone : 1 ≤ first) (Hmax : max < usize_max).
Context (Hmem : len (wal_image first (sys_log sys)) ≤ isize_max).

Local Abbreviation w := (sys_writer sys).
Local Abbreviation st := (ww_state (sys_writer sys)).

(** C1: Acknowledged records survive crashes. In every reachable state of the WAL
    writer shared by any number of threads, once a durable call has returned success
    for sequence q, every byte image a crash may leave of the log file replays to a
    list that starts with every logged record up to q. This holds for a power cut
    under full syncs (the synced bytes kept, later bytes kept in part, arbitrary
    junk after them), and for the death of the process, which keeps the written
    bytes, under every policy; against a power cut under barriers or skipped syncs
    nothing is promised. *)
Theorem acked_records_survive_crash (q : Z) (crash : Crash) (b : bytes) :
  q ∈ sys_acked sys → protected crash w → crash_image crash w b → len b ≤ isize_max →
  ∃ res, replay b = Some res
         ∧ take (Z.to_nat (q - first + 1)) (sys_log sys) `prefix_of` rr_records res
         ∧ q < first + len (sys_log sys).
Proof using All.
  intros Hq Hprot (keep & junk & -> & Hkeep & Hsync) Hb.
  destruct (sys_inv_reachable _ _ _ _ Hreach Hfirst Hone Hmax Hmem) as (base & fl & Hi).
  destruct (in_acked _ _ _ _ _ _ Hi q Hq) as (d & Hd & Hqd).
  pose proof (in_state _ _ _ _ _ _ Hi) as Hst.
  pose proof (synced_to_keep crash _ _ (in_durable _ _ _ _ _ _ Hi d Hd) Hprot) as Hend.
  pose proof (end_off_mono first (sys_log sys) q d Hqd). unfold end_off in *.
  destruct (image_take_prefix first (sys_log sys) (Z.to_nat (q - first + 1)) (ww_file w) keep)
    as [rest Hrest]; [by eapply sys_inv_image|lia|done|].
  rewrite Hrest, <- app_assoc in Hb |- *.
  destruct (replay_keeps first (take (Z.to_nat (q - first + 1)) (sys_log sys)) (rest ++ junk))
    as (res & Hres & Hpre); [done|by apply Forall_take, (si_ok _ _ _ _ _ _ Hst)
    |by apply sequenced_take, (si_seq _ _ _ _ _ _ Hst)|done|].
  exists res. split_and!; [done|done|].
  pose proof (si_durable _ _ _ _ _ _ Hst d Hd). pose proof (si_floor _ _ _ _ _ _ Hst). lia.
Qed.

(** C4: In every reachable state the log file is a byte prefix of the image of the
    log (header, then the records in sequence order), and replaying it gives exactly
    the records the file holds completely, whatever appends failed part-way. *)
Theorem wal_file_replays_log_prefix :
  ww_file w `prefix_of` wal_image first (sys_log sys)
  ∧ ∃ res, replay (ww_file w) = Some res
           ∧ rr_records res `prefix_of` sys_log sys
           ∧ (WAL_HEADER_LEN ≤ len (ww_file w) →
              rr_records res
              = whole_records (len (ww_file w) - WAL_HEADER_LEN) (sys_log sys)).
Proof using All.
  destruct (sys_inv_reachable _ _ _ _ Hreach Hfirst Hone Hmax Hmem) as (base & fl & Hi).
  pose proof (sys_inv_image _ _ _ _ _ _ Hi) as Hpre. split; [done|].
  pose proof (in_state _ _ _ _ _ _ Hi) as Hst. destruct Hpre as [suf Hpre].
  assert (ww_file w = take (length (ww_file w)) (wal_image first (sys_log sys))) as Hfile
    by (by rewrite Hpre, take_app_length).
  assert (length (ww_file w) ≤ length (wal_image first (sys_log sys)))%nat as Hle
    by (rewrite Hpre, length_app; lia).
  pose proof (replay_cut first (sys_log sys) (length (ww_file w)) Hfirst
    (si_ok _ _ _ _ _ _ Hst) (si_seq _ _ _ _ _ _ Hst) Hmem Hle) as Hr.
  rewrite <- Hfile in Hr. eexists. split; [exact Hr|].
  change (Z.of_nat (length (ww_file w))) with (len (ww_file w)).
  destruct (Z.ltb_spec (len (ww_file w)) WAL_HEADER_LEN); cbn [rr_records].
  - split; [apply prefix_nil|]. lia.
  - split; [apply whole_records_prefix|done].
Qed.

(** In every reachable state at most one thread is writing a group, the barrier
    flag is set while it does, and every pending group counts exactly the bytes it
    holds and stays within the configured maximum. *)
Theorem one_leader :
  (∀ t t' pc pc', sys_threads sys !! t = Some pc → sys_threads sys !! t' = Some pc' →
     is_leader pc = true → is_leader pc' = true → t = t')
  ∧ (∀ t pc, sys_threads sys !! t = Some pc → is_leader pc = true →
       ws_barrier_in_flight st = true)
  ∧ Forall (λ g, g_encoded_bytes g = len (group_bytes g) ∧ g_encoded_bytes g ≤ max)
      (ws_pending_groups st).
Proof using All.
  destruct (sys_inv_reachable _ _ _ _ Hreach Hfirst Hone Hmax Hmem) as (base & fl & Hi).
  split_and!.
  - apply (in_one _ _ _ _ _ _ Hi).
  - intros t pc Ht. apply (in_pcs _ _ _ _ _ _ Hi _ _ Ht).
  - pose proof (si_groups _ _ _ _ _ _ (in_state _ _ _ _ _ _ Hi)) as Hg. revert Hg.
    generalize (len base), fl. induction (ws_pending_groups st) as [|g gs IH];
      intros B f Hg; [constructor|]. destruct Hg as [[_ H1 H2 _] Hg].
    constructor; [done|]. by eapply IH.
Qed.

(** C27: In every reachable state the visible records are exactly the log from some
    point on, payloads included, the retained byte count is their encoded size, the
    next sequence is the end of the log, and only durable records have been retired. *)
Theorem visible_is_unretired_log :
  ∃ n : nat,
    Forall2 (λ r v, vr_seq v = wr_seq r ∧ vr_op v = wr_op r
                    ∧ visible_payload v = Ok (wr_payload r))
      (drop n (sys_log sys)) (ws_visible st)
    ∧ ws_retained_bytes st = len (records_bytes (drop n (sys_log sys)))
    ∧ ws_next_seq st = first + len (sys_log sys)
    ∧ (n = 0%nat ∨ ∃ d, ws_durable_end st = Some d ∧ first + Z.of_nat n - 1 ≤ d).
Proof using All.
  destruct (sys_inv_reachable _ _ _ _ Hreach Hfirst Hone Hmax Hmem) as (base & fl & Hi).
  pose proof (in_state _ _ _ _ _ _ Hi) as Hst.
  destruct (si_vis _ _ _ _ _ _ Hst) as (n & _ & Hf & Hret & Hd). exists n.
  split_and!; [|done|apply (si_next _ _ _ _ _ _ Hst)|done].
  apply vis_ok_payloads; [by apply Forall_drop, (si_ok _ _ _ _ _ _ Hst)|done].
Qed.

(** C26: From every reachable state, staging a batch is all or nothing: on error the
    visible records, the next sequence, the durable end and the pending bytes are
    unchanged; on success the batch takes the next consecutive sequences and exactly
    its encoded bytes are appended to the pending groups. *)
Theorem staging_all_or_nothing (records : list (Z * bytes)) :
  batch_ok records →
  match stage_many max records st with
  | (s', Err _) =>
      ws_visible s' = ws_visible st ∧ ws_next_seq s' = ws_next_seq st
      ∧ ws_durable_end s' = ws_durable_end st
      ∧ groups_bytes (ws_pending_groups s') = groups_bytes (ws_pending_groups st)
  | (s', Ok (start, end_, _)) =>
      start = ws_next_seq st ∧ end_ = start + len records
      ∧ (len (wal_image first (sys_log sys ++ number start records)) ≤ isize_max →
         ws_next_seq s' = end_
         ∧ groups_bytes (ws_pending_groups s')
           = groups_bytes (ws_pending_groups st) ++ records_bytes (number start records))
  end.
Proof using All.
  intros Hb. destruct (sys_inv_reachable _ _ _ _ Hreach Hfirst Hone Hmax Hmem) as (base & fl & Hi).
  pose proof (in_state _ _ _ _ _ _ Hi) as Hst.
  pose proof (stage_many_inv first max (conj (reachable_max _ _ _ _ Hreach) Hmax)
                _ _ _ _ records Hst Hb) as Hpost.
  pose proof (si_bytes _ _ _ _ _ _ Hst) as Hbytes.
  destruct (stage_many _ _ _) as [s' [[[start end_] leader]|e]]; cbn [stage_many_post] in Hpost.
  - destruct Hpost as (-> & -> & Hp). rewrite (si_next _ _ _ _ _ _ Hst).
    split_and!; [done|done|]. intros Himg. destruct records as [|r records].
    { destruct Hp as [-> _]. rewrite len_nil, (si_next _ _ _ _ _ _ Hst), app_nil_r. lia || split; [lia|done]. }
    destruct Hp as (_ & _ & _ & _ & Hst'). specialize (Hst' Himg).
    rewrite (si_next _ _ _ _ _ _ Hst'), len_app, len_number. split; [lia|].
    apply (app_inv_head base). rewrite (si_bytes _ _ _ _ _ _ Hst'), app_assoc, Hbytes.
    unfold wal_image. by rewrite records_bytes_app, app_assoc.
  - destruct Hpost as (Hst' & (Hd & _) & Hv & Hn & _). split_and!; [done..|].
    apply (app_inv_head base). by rewrite Hbytes, (si_bytes _ _ _ _ _ _ Hst').
Qed.
End Properties.

(** ** A concrete run

    Thread 1 commits one record durably.  Thread 2 then commits a batch of two,
    and its append fails after five bytes, which leaves the file torn and the
    writer failed. *)

Module Demo.
Definition max : Z := 4096.
Definition policy : DurabilityPolicy :=
  {| data_file_sync := SyncWith Full; directory_sync := SyncWith Full |}.
Definition torn : GroupIo :=
  {| io_append := Some (OtherKind, 5%nat); io_file_sync := None; io_directory_sync := None |}.
Definition batch : list (Z * bytes) := [(2, [Byte.x02]); (3, [])].
Definition schedule : list Action := [
  Start 1 (Commit 7 [Byte.x01] true); Run 1 io_ok; Run 1 io_ok; Run 1 io_ok; Run 1 io_ok;
  Run 1 io_ok;
  Start 2 (CommitMany batch true); Run 2 io_ok; Run 2 torn; Run 2 io_ok].

Definition fallback : System :=
  {| sys_writer := {| ww_state := initial_state 1 []; ww_file := []; ww_synced := 0;
       ww_created_directory_sync := None; ww_sync := SyncSkip; ww_max_group_bytes := 0;
       ww_durable_progress := 0; ww_io_work := [] |};
     sys_threads := ∅; sys_log := []; sys_acked := [] |}.

Definition system : System :=
  match create_with_max_group_bytes (Ok 0) (Ok tt) 1 policy max with
  | Ok w => default fallback (exec_all (X:=ToyXxh3.toy) schedule (start_system w []))
  | Err _ => fallback
  end.

Lemma system_reachable : reachable (X:=ToyXxh3.toy) 1 max policy system.
Proof.
  unfold system. destruct (create_with_max_group_bytes _ _ _ _ _) as [w|] eqn:E.
  - destruct (exec_all schedule (start_system w [])) as [sys|] eqn:Es.
    + eapply (reachable_exec_all (X:=ToyXxh3.toy)); [by apply reachable_create| |exact Es].
      by_compute.
    + exfalso. apply (f_equal is_ok) in E as E'.
      assert (match create_with_max_group_bytes (Ok 0) (Ok tt) 1 policy max with
              | Ok w => is_Some (exec_all (X:=ToyXxh3.toy) schedule (start_system w []))
              | Err _ => False
              end) as H by (vm_compute; by eexists).
      rewrite E, Es in H. by destruct H.
  - exfalso. assert (is_ok (create_with_max_group_bytes (Ok 0) (Ok tt) 1 policy max) = true) as H
      by by_compute. by rewrite E in H.
Qed.
End Demo.

Lemma acked_records_survive_crash_witness :
  1 ∈ sys_acked Demo.system
  ∧ ∃ res, replay (X:=ToyXxh3.toy) (take 63 (ww_file (sys_writer Demo.system)) ++ [Byte.xff])
           = Some res
           ∧ take 1 (sys_log Demo.system) `prefix_of` rr_records res.
Proof.
  assert (1 ∈ sys_acked Demo.system) as Hq by (vm_compute; constructor).
  split; [exact Hq|].
  destruct (acked_records_survive_crash (X:=ToyXxh3.toy) (L:=ToyXxh3.toy_laws) 1 Demo.max
    Demo.policy Demo.system Demo.system_reachable ltac:(by_compute) ltac:(by_compute)
    ltac:(by_compute) ltac:(by_compute) 1 PowerCut
    (take 63 (ww_file (sys_writer Demo.system)) ++ [Byte.xff]) Hq ltac:(by_compute)) as (res & H1 & H2 & _).
  - exists 63%nat, [Byte.xff]. split; [reflexivity|]. split; [by_compute|].
    vm_compute. intros H. discriminate H.
  - by_compute.
  - exists res. split; [exact H1|exact H2].
Defined.

Lemma wal_file_replays_log_prefix_witness :
  ww_file (sys_writer Demo.system) `prefix_of` wal_image (X:=ToyXxh3.toy) 1 (sys_log Demo.system)
  ∧ len (ww_file (sys_writer Demo.system)) = 68.
Proof.
  split; [|by_compute].
  apply (wal_file_replays_log_prefix (X:=ToyXxh3.toy) (L:=ToyXxh3.toy_laws) 1 Demo.max
    Demo.policy Demo.system Demo.system_reachable); by_compute.
Defined.

Lemma one_leader_witness :
  Forall (λ g, g_encoded_bytes g = len (group_bytes g) ∧ g_encoded_bytes g ≤ Demo.max)
    (ws_pending_groups (ww_state (sys_writer Demo.system))).
Proof.
  apply (one_leader (X:=ToyXxh3.toy) (L:=ToyXxh3.toy_laws) 1 Demo.max
    Demo.policy Demo.system Demo.system_reachable); by_compute.
Defined.

Lemma visible_is_unretired_log_witness :
  ∃ n : nat,
    Forall2 (λ r v, vr_seq v = wr_seq r ∧ vr_op v = wr_op r
                    ∧ visible_payload (X:=ToyXxh3.toy) v = Ok (wr_payload r))
      (drop n (sys_log Demo.system)) (ws_visible (ww_state (sys_writer Demo.system))).
Proof.
  destruct (visible_is_unretired_log (X:=ToyXxh3.toy) (L:=ToyXxh3.toy_laws) 1 Demo.max
    Demo.policy Demo.system Demo.system_reachable) as (n & H & _); [by_compute..|].
  exists n. exact H.
Defined.

Lemma staging_all_or_nothing_witness :
  ws_visible (stage_many (X:=ToyXxh3.toy) Demo.max Demo.batch
                (ww_state (sys_writer Demo.system))).1
  = ws_visible (ww_state (sys_writer Demo.system)).
Proof.
  pose proof (staging_all_or_nothing (X:=ToyXxh3.toy) (L:=ToyXxh3.toy_laws) 1 Demo.max
    Demo.policy Demo.system Demo.system_reachable ltac:(by_compute) ltac:(by_compute)
    ltac:(by_compute) ltac:(by_compute) Demo.batch ltac:(by_compute)) as H.
  destruct (stage_many _ _ _) as [s' [[[a b] l]|e]] eqn:E.
  - exfalso. assert (is_ok (stage_many (X:=ToyXxh3.toy) Demo.max Demo.batch
      (ww_state (sys_writer Demo.system))).2 = false) as H' by by_compute.
    rewrite E in H'. discriminate H'.
  - apply H.
Defined.
