(* ===== verification/WalLiveness.v ===== *)
(** * Progress of the WAL writer

    Two results about [crates/zeppelin-embed/src/wal/mod.rs] that are not
    invariants.  An idle writer completes a durable commit in one group
    ([idle_commit_completes]).  A record that is rejected as too large while
    another thread's group is in flight leaves an empty group behind; the leader
    stops on it without clearing [barrier_in_flight], and later durable commits
    wait forever ([rejected_record_strands_writer]). *)

From S2P Require Import Prelude Format WalRecord WalReplay Durability WalWriter WalConcurrency WalInvariant WalSystem.

(** ** What staging never touches *)

(** Durability, failure and the barrier bit. *)
Definition same_control (s s' : WriterState) : Prop :=
  frame s s' ∧ ws_barrier_in_flight s' = ws_barrier_in_flight s.

#[export] Instance same_control_preorder : PreOrder same_control.
Proof.
  split; [done|]. intros s1 s2 s3 [[A1 A2] A3] [[B1 B2] B3].
  split_and!; [split|]; congruence.
Qed.

Lemma fill_record_control fuel max encoded record_end : ∀ off cs s s' r,
  fill_record fuel max encoded record_end off cs s = (s', r) → same_control s s'.
Proof.
  induction fuel as [|fuel IH]; intros off cs s s' r H; cbn [fill_record] in H.
  { by injection H as <- _. }
  destruct (off <? record_end); [|by injection H as <- _].
  destruct (current_group s); [|by injection H as <- _].
  destruct (_ =? 0); apply IH in H; (etrans; [|exact H]); [|done].
  by destruct (cs <? off).
Qed.

Lemma place_records_control max encoded lengths : ∀ seq off cs s s' r,
  place_records max encoded lengths seq off cs s = (s', r) → same_control s s'.
Proof.
  induction lengths as [|[op n] lengths IH]; intros seq off cs s s' r H; cbn [place_records] in H.
  { by injection H as <- _. }
  destruct (fill_record _ _ _ _ _ _ _) as [s1 [[off' cs']|e]] eqn:E;
    apply fill_record_control in E; [|by injection H as <- _].
  destruct (current_group s1); [|by injection H as <- _].
  apply IH in H. etrans; [exact E|]. etrans; [|exact H]. done.
Qed.

Section Control.
Context {X : Xxh3}.

(** With the barrier in flight, staging never makes a leader. *)
Lemma stage_attempt_follower max op payload n s s' o :
  stage_attempt max op payload n s = (s', o) → ws_barrier_in_flight s = true →
  same_control s s' ∧ ∀ seq leader, o = Staged seq leader → leader = false.
Proof.
  intros H Hb. destruct (ensure_pending_frame s) as (Hf & _ & _ & Hb').
  assert (same_control s (ensure_pending_group s)) as Hens by done.
  unfold stage_attempt in H. destruct (ws_failure s); [by injection H as <- <-|].
  destruct (current_group _); [|by injection H as <- <-].
  destruct (_ <=? max); [|destruct (_ =? 0); by injection H as <- <-].
  destruct (checked_add _ _ _); [|by injection H as <- <-].
  destruct (encode_record_into _ _); [|by injection H as <- <-].
  cbn [ws_barrier_in_flight push_visible set_current_group set_pending set_next_seq] in H.
  rewrite Hb', Hb in H. injection H as <- <-. split; [|by intros seq leader [= _ <-]].
  etrans; [exact Hens|]. done.
Qed.

Lemma stage_many_follower max records s s' r :
  stage_many max records s = (s', r) → ws_barrier_in_flight s = true →
  same_control s s' ∧ ∀ start end_ leader, r = Ok (start, end_, leader) → leader = false.
Proof.
  intros H Hb. destruct (ensure_pending_frame s) as (Hf & _ & _ & Hb').
  assert (same_control s (ensure_pending_group s)) as Hens by done.
  unfold stage_many in H. destruct records as [|r0 records0] eqn:Hr.
  { destruct (ws_failure s); injection H as <- <-; [done|]. split; [done|].
    by intros ? ? ? [= _ _ <-]. }
  destruct (mapM _ _) as [ls|]; [|by injection H as <- <-].
  destruct (List.find _ _) as [[? ?]|]; [by injection H as <- <-|].
  destruct (ws_failure s); [by injection H as <- <-|].
  destruct (head ls) as [[? ?]|]; [|by injection H as <- <-].
  destruct (last _); [|by injection H as <- <-].
  destruct (_ && _); [by injection H as <- <-|].
  destruct (checked_add _ _ _); [|by injection H as <- <-].
  destruct (encode_batch _ _ _); [|by injection H as <- <-].
  destruct (place_records _ _ _ _ _ _ _) as [s1 [[off cs]|e]] eqn:E;
    apply place_records_control in E;
    [|injection H as <- <-; split; [by etrans|done]].
  assert (same_control s s1) as Hs1 by (by etrans).
  destruct (current_group s1); [|injection H as <- <-; split; [by etrans|done]].
  cbn [ws_barrier_in_flight set_current_group set_pending set_next_seq] in H.
  rewrite (proj2 Hs1), Hb in H. injection H as <- <-.
  split; [|by intros ? ? ? [= _ _ <-]]. etrans; [exact Hs1|]. done.
Qed.
End Control.

(** ** A stranded writer *)

Definition not_poison (a : Action) : Prop :=
  match a with Start _ (Poison _) => False | _ => True end.

(** The barrier is claimed, but no thread leads. *)
Record stranded (d q : Z) (t : nat) (v : Value) (sys : System) : Prop := {
  sd_barrier : ws_barrier_in_flight (ww_state (sys_writer sys)) = true;
  sd_failure : ws_failure (ww_state (sys_writer sys)) = None;
  sd_durable : ws_durable_end (ww_state (sys_writer sys)) = Some d;
  sd_none : ∀ t' pc, sys_threads sys !! t' = Some pc → is_leader pc = false;
  sd_waits : sys_threads sys !! t = Some (WaitingDurable q v);
}.

Section Stranded.
Context {X : Xxh3}.
Context (d q : Z) (t : nat) (v : Value) (Hdq : d < q).

Lemma stranded_goto sys t' pc s log acked :
  stranded d q t v sys → t' ≠ t → is_leader pc = false →
  same_control (ww_state (sys_writer sys)) s →
  stranded d q t v (goto t' pc (with_state s (sys_writer sys)) log acked sys).
Proof.
  intros [H1 H2 H3 H4 H5] Hne Hpc [[E1 E2] E3].
  split; cbn [goto sys_writer with_state ww_state sys_threads]; [congruence..| |].
  - intros t0 pc0 H0. apply lookup_insert_Some in H0 as [[-> ->]|[_ H0]]; [done|by eapply H4].
  - by rewrite lookup_insert_ne.
Qed.

Lemma stranded_move sys t' pc log acked :
  stranded d q t v sys → t' ≠ t → is_leader pc = false →
  stranded d q t v (goto t' pc (sys_writer sys) log acked sys).
Proof.
  intros H Hne Hpc. pose proof (stranded_goto sys t' pc _ log acked H Hne Hpc (reflexivity _)) as H'.
  by rewrite with_state_id in H'.
Qed.

Lemma stranded_start sys t' c :
  stranded d q t v sys → t' ≠ t → not_poison (Start t' c) →
  stranded d q t v (exec_start t' c sys).
Proof.
  intros Hs Hne Hp. pose proof (sd_barrier _ _ _ _ _ Hs) as Hb. destruct c as [op p du|rs du| |n|k];
    [| | | |done]; cbn [exec_start].
  - destruct (encoded_record_len _); by apply stranded_move.
  - unfold exec_commit_many. destruct (stage_many _ _ _) as [s' [[[a b] l]|e]] eqn:E;
      apply stage_many_follower in E as [E1 E2]; try done; [|by apply stranded_goto].
    rewrite (E2 _ _ _ eq_refl). apply stranded_goto; [done|done| |done].
    unfold after_staging. by destruct (du && _).
  - unfold flush_begin. rewrite (sd_failure _ _ _ _ _ Hs), Hb.
    destruct (last _); [|by apply stranded_goto].
    destruct (match ws_durable_end _ with Some d => _ | None => _ end); by apply stranded_goto.
  - destruct (retire_check n _); by apply stranded_move.
Qed.

Lemma stranded_run sys t' io sys' :
  stranded d q t v sys → exec_run t' io sys = Some sys' → stranded d q t v sys'.
Proof using Hdq.
  intros Hs H. pose proof (sd_barrier _ _ _ _ _ Hs) as Hb.
  destruct (decide (t' = t)) as [->|Hne].
  { unfold exec_run, pc_of in H. rewrite (sd_waits _ _ _ _ _ Hs) in H. cbn in H.
    unfold durable_check in H. rewrite (sd_durable _ _ _ _ _ Hs), (sd_failure _ _ _ _ _ Hs) in H.
    by rewrite (proj2 (Z.ltb_lt d q)) in H. }
  pose proof (sd_none _ _ _ _ _ Hs t') as Hno. unfold exec_run, pc_of in H.
  destruct (sys_threads sys !! t') as [pc|]; [|done]. specialize (Hno pc eq_refl).
  destruct pc as [|op p n du| | | |q' v'|n|r]; try done; cbn [default id] in H.
  - injection H as <-. unfold exec_stage.
    destruct (stage_attempt _ _ _ _ _) as [s' [seq l| |e]] eqn:E;
      apply stage_attempt_follower in E as [E1 E2]; try done; [|by apply stranded_goto..].
    rewrite (E2 _ _ eq_refl). apply stranded_goto; [done|done|by destruct du|done].
  - destruct (durable_check _ _) as [[]|]; [| |done]; injection H as <-; by apply stranded_move.
  - destruct (retire_same n (ww_state (sys_writer sys))) as (Hf & Hb' & _).
    destruct (retire_visible_through _ _) as [s' r]. injection H as <-.
    by apply stranded_goto.
Qed.

Lemma stranded_exec_all actions : ∀ sys sys',
  stranded d q t v sys → Forall not_poison actions → exec_all actions sys = Some sys' →
  stranded d q t v sys'.
Proof using Hdq.
  induction actions as [|a actions IH]; intros sys sys' Hs Hp H.
  { cbn in H. by injection H as <-. }
  apply Forall_cons in Hp as [Hp1 Hp]. cbn [exec_all] in H.
  destruct (exec a sys) as [sys1|] eqn:E; [|done]. cbn in H. apply (IH sys1); [|done|done].
  destruct a as [t' c|t' io|t']; cbn [exec] in E.
  - destruct (decide (t' = t)) as [->|Hne].
    { unfold pc_of in E. by rewrite (sd_waits _ _ _ _ _ Hs) in E. }
    destruct (pc_of t' sys); try done. injection E as <-. by apply stranded_start.
  - by eapply stranded_run.
  - destruct (decide (t' = t)) as [->|Hne].
    { unfold pc_of in E. by rewrite (sd_waits _ _ _ _ _ Hs) in E. }
    destruct (pc_of t' sys); try done. injection E as <-. by apply stranded_move.
Qed.
End Stranded.

Section StallProof.
Let X := ToyXxh3.toy.

Definition no_leader (sys : System) : bool :=
  forallb (λ p : nat * Pc, negb (is_leader p.2)) (map_to_list (sys_threads sys)).

Lemma no_leader_spec sys t pc :
  no_leader sys = true → sys_threads sys !! t = Some pc → is_leader pc = false.
Proof.
  intros H Ht. unfold no_leader in H. rewrite forallb_forall in H.
  apply elem_of_map_to_list in Ht. specialize (H (t, pc)).
  apply negb_true_iff. apply H. by apply list_elem_of_In.
Qed.

(** The control fields of the state the schedule ends in, and thread 1's
    error for a commit that is durable. *)
Lemma stall_outcome :
  ∃ sys, Stall.outcome = Some sys
    ∧ ws_barrier_in_flight (ww_state (sys_writer sys)) = true
    ∧ ws_failure (ww_state (sys_writer sys)) = None
    ∧ ws_durable_end (ww_state (sys_writer sys)) = Some 1
    ∧ no_leader sys = true
    ∧ sys_threads sys !! 3%nat = Some (WaitingDurable 2 (VSeq 2)).
Proof.
  destruct Stall.outcome as [sys|] eqn:E.
  - exists sys. split; [reflexivity|].
    assert (match Stall.outcome with
            | Some sys => ws_barrier_in_flight (ww_state (sys_writer sys)) = true
                ∧ ws_failure (ww_state (sys_writer sys)) = None
                ∧ ws_durable_end (ww_state (sys_writer sys)) = Some 1
                ∧ no_leader sys = true
                ∧ sys_threads sys !! 3%nat = Some (WaitingDurable 2 (VSeq 2))
            | None => False
            end) as H by (vm_compute; repeat split).
    rewrite E in H. exact H.
  - exfalso. assert (match Stall.outcome with Some _ => True | None => False end) as H
      by (vm_compute; exact I). rewrite E in H. exact H.
Qed.

(** C37: There is a schedule from a fresh writer in which an oversized record is
    rejected while a leader is writing; the empty group it leaves makes the leader
    return with the barrier flag set, and a later durable commit then waits forever
    under every schedule that does not poison the writer. *)
Theorem rejected_record_strands_writer :
  ∃ sys, Stall.outcome = Some sys
    ∧ reachable (X:=X) 1 Stall.max Stall.skip sys
    ∧ ws_failure (ww_state (sys_writer sys)) = None
    ∧ pc_of 3 sys = WaitingDurable 2 (VSeq 2)
    ∧ ∀ actions sys', Forall not_poison actions → exec_all (X:=X) actions sys = Some sys' →
        pc_of 3 sys' = WaitingDurable 2 (VSeq 2).
Proof.
  destruct stall_outcome as (sys & E & Hb & Hf & Hd & Hn & Ht). exists sys.
  assert (stranded 1 2 3 (VSeq 2) sys) as Hs.
  { split; [exact Hb|exact Hf|exact Hd| |exact Ht]. intros t' pc. by apply no_leader_spec. }
  split; [exact E|]. split; [|split; [exact Hf|]; split; [by unfold pc_of; rewrite Ht|]].
  - unfold Stall.outcome in E.
    destruct (create_with_max_group_bytes _ _ _ _ _) as [w|] eqn:Ew; [|done].
    eapply reachable_exec_all; [by apply reachable_create| |exact E]. by_compute.
  - intros actions sys' Ha H. unfold pc_of.
    by rewrite (sd_waits _ _ _ _ _ (stranded_exec_all 1 2 3 (VSeq 2) ltac:(lia) _ _ _ Hs Ha H)).
Qed.
End StallProof.

(** ** An idle writer commits *)

Section IdleCommit.
Context {X : Xxh3} {L : Xxh3Laws X}.

(** The actions of one thread running a durable commit alone. *)
Definition commit_run (t : nat) (op : Z) (payload : bytes) : list Action :=
  [Start t (Commit op payload true); Run t io_ok; Run t io_ok; Run t io_ok; Run t io_ok;
   Run t io_ok].

(** A record that fits goes into the only group and makes its caller leader. *)
Lemma stage_attempt_idle max op payload s :
  ws_failure s = None → ws_barrier_in_flight s = false →
  (length (ws_pending_groups s) ≤ 1)%nat → len payload ≤ u32_max →
  Forall (λ g, 0 ≤ g_encoded_bytes g
               ∧ g_encoded_bytes g + (MIN_RECORD_LEN + len payload) ≤ max)
    (ws_pending_groups s) →
  MIN_RECORD_LEN + len payload ≤ max → max < usize_max → ws_next_seq s < u64_max →
  ∃ s' g,
    stage_attempt max op payload (MIN_RECORD_LEN + len payload) s
    = (s', Staged (ws_next_seq s) true)
    ∧ ws_pending_groups s' = [g] ∧ g_last_seq g = Some (ws_next_seq s).
Proof using L.
  intros Hf Hb Hp Hl Hg Hfit Hm Hn. unfold stage_attempt. rewrite Hf.
  destruct (ensure_pending_frame s) as (_ & _ & Hn' & Hb').
  assert (∃ g, ws_pending_groups (ensure_pending_group s) = [g]
               ∧ 0 ≤ g_encoded_bytes g
               ∧ g_encoded_bytes g + (MIN_RECORD_LEN + len payload) ≤ max) as (g & Eg & G1 & G2).
  { unfold ensure_pending_group. destruct (ws_pending_groups s) as [|g [|]] eqn:Hps.
    - eexists. cbn. rewrite Hps. split; [done|]. cbn. lia.
    - exists g. apply Forall_cons in Hg as [[G1 G2] _]. by rewrite Hps.
    - simpl in Hp. lia. }
  set (s1 := ensure_pending_group s) in *. cbv zeta.
  rewrite (current_group_snoc _ [] g) by done. pose proof (len_nonneg payload).
  unfold saturating_add at 1. rewrite Z.min_r by lia.
  rewrite (proj2 (Z.leb_le _ _)) by lia. unfold checked_add. rewrite Hn'.
  rewrite (proj2 (Z.leb_le (ws_next_seq s + 1) u64_max)) by lia.
  unfold encode_record_into. rewrite append_record_into_eq. cbn [wr_payload].
  rewrite (proj2 (Z.leb_le (len payload) u32_max)) by lia.
  rewrite (set_current_group_snoc _ [] g) by done.
  cbn [ws_barrier_in_flight push_visible set_pending set_next_seq]. rewrite Hb', Hb. cbn [negb].
  eexists _, _. split; [reflexivity|]. by cbn.
Qed.

Lemma write_group_io_ok g w :
  Forall (λ c, is_Some (chunk_bytes c)) (g_chunks g) →
  ∃ w', write_group io_ok g w = (w', Ok tt) ∧ ww_state w' = ww_state w.
Proof using Type.
  intros Hc. unfold write_group. rewrite (chunks_buffers _ Hc). cbn [io_ok io_append].
  destruct (ww_sync w) as [|k]; cbn [io_file_sync with_io ww_created_directory_sync];
    (destruct (ww_created_directory_sync w); cbn [io_directory_sync];
     eexists; split; reflexivity).
Qed.

(** Executing an action of a thread whose program counter is known. *)
Lemma pc_of_goto t pc w log acked sys : pc_of t (goto t pc w log acked sys) = pc.
Proof using Type. unfold pc_of, goto. cbn. by rewrite lookup_insert_eq. Qed.

Lemma exec_all_step a actions sys sys1 :
  exec a sys = Some sys1 → exec_all (a :: actions) sys = exec_all actions sys1.
Proof using Type. intros H. cbn [exec_all]. by rewrite H. Qed.

(** From the leader's first step to its return: one group is written. *)
Lemma lead_one_group sys t g q v :
  pc_of t sys = LeaderTop (KWait q v) →
  ws_pending_groups (ww_state (sys_writer sys)) = [g] → g_last_seq g = Some q →
  Forall (λ c, is_Some (chunk_bytes c)) (g_chunks g) →
  ∃ sys', exec_all [Run t io_ok; Run t io_ok; Run t io_ok; Run t io_ok] sys = Some sys'
    ∧ pc_of t sys' = Returned (Ok v)
    ∧ ws_durable_end (ww_state (sys_writer sys')) = Some q
    ∧ sys_acked sys' = sys_acked sys ++ [q] ∧ sys_log sys' = sys_log sys.
Proof using Type.
  intros Hpc Hp Hq Hc.
  set (w1 := with_state (set_pending [] (ww_state (sys_writer sys))) (sys_writer sys)).
  destruct (write_group_io_ok g w1 Hc) as (w2 & Ew & Es).
  rewrite (exec_all_step _ _ _ (goto t (LeaderWrite g q (KWait q v)) w1 (sys_log sys)
                                  (sys_acked sys) sys)).
  2:{ cbn [exec]. unfold exec_run. rewrite Hpc. unfold leader_pop. by rewrite Hp, Hq. }
  erewrite exec_all_step.
  2:{ cbn [exec]. unfold exec_run. rewrite pc_of_goto. cbn [goto sys_writer sys_log sys_acked].
      rewrite Ew. reflexivity. }
  erewrite exec_all_step.
  2:{ cbn [exec]. unfold exec_run. rewrite pc_of_goto. cbn [goto sys_writer sys_log sys_acked].
      unfold leader_complete. rewrite Es.
      cbn [w1 with_state ww_state ws_pending_groups record_completed set_spare set_pending].
      reflexivity. }
  erewrite exec_all_step.
  2:{ cbn [exec]. unfold exec_run. rewrite pc_of_goto. cbn [goto sys_writer sys_log sys_acked].
      cbn [resume_with]. unfold durable_check.
      cbn [with_state ww_state set_barrier record_completed ws_durable_end].
      rewrite Z.ltb_irrefl. reflexivity. }
  eexists. split; [reflexivity|]. rewrite pc_of_goto. split_and!; done.
Qed.
End IdleCommit.

(** C28: From every reachable state in which no leader is active, nothing has failed
    and at most one group is pending, a durable commit of a record that fits the
    pending group returns its sequence in the scheduled number of steps, with the
    durable end at that sequence. *)
Theorem idle_commit_completes {X : Xxh3} {L : Xxh3Laws X} (first max : Z)
    (policy : DurabilityPolicy) (sys : System) (t : nat) (op : Z) (payload : bytes) :
  reachable first max policy sys → is_u64 first → 1 ≤ first → max < usize_max →
  let s := ww_state (sys_writer sys) in
  let r := {| wr_seq := ws_next_seq s; wr_op := op; wr_payload := payload |} in
  len (wal_image first (sys_log sys ++ [r])) ≤ isize_max →
  pc_of t sys = Idle → ws_failure s = None → ws_barrier_in_flight s = false →
  (length (ws_pending_groups s) ≤ 1)%nat → is_u16 op →
  len (groups_bytes (ws_pending_groups s)) + (MIN_RECORD_LEN + len payload) ≤ max →
  len payload ≤ u32_max → ws_next_seq s < u64_max →
  ∃ sys', exec_all (commit_run t op payload) sys = Some sys'
    ∧ pc_of t sys' = Returned (Ok (VSeq (ws_next_seq s)))
    ∧ ws_durable_end (ww_state (sys_writer sys')) = Some (ws_next_seq s)
    ∧ ws_next_seq s ∈ sys_acked sys' ∧ sys_log sys' = sys_log sys ++ [r].
Proof.
  intros Hr Hu Hf Hm s r Himg Hpc Hfail Hbar Hp Hop Hfit Hl Hn.
  assert (len (wal_image first (sys_log sys)) ≤ isize_max) as Hmem.
  { unfold wal_image in *. rewrite records_bytes_app, !len_app in Himg. rewrite len_app.
    pose proof (len_nonneg (records_bytes [r])). lia. }
  destruct (sys_inv_reachable _ _ _ _ Hr Hu Hf Hm Hmem) as (base & fl & Hi).
  pose proof (in_state _ _ _ _ _ _ Hi) as Hst. fold s in Hst. pose proof (len_nonneg payload).
  assert (Forall (λ g, 0 ≤ g_encoded_bytes g
                       ∧ g_encoded_bytes g + (MIN_RECORD_LEN + len payload) ≤ max)
            (ws_pending_groups s)) as Hgs.
  { destruct (ws_pending_groups s) as [|g [|]] eqn:Hps; [constructor| |simpl in Hp; lia].
    apply Forall_singleton. pose proof (si_groups _ _ _ _ _ _ Hst) as Hg. rewrite Hps in Hg.
    destruct Hg as [Hg _]. rewrite (go_len _ _ _ _ _ _ Hg). rewrite groups_bytes_one in Hfit.
    pose proof (len_nonneg (group_bytes g)). lia. }
  assert (encoded_record_len (len payload) = Ok (MIN_RECORD_LEN + len payload)) as Hlen.
  { unfold encoded_record_len, try_from. decide_Z. rsimpl. f_equal.
    unfold saturating_add, usize_max, u64_max, u32_max, MIN_RECORD_LEN, RECORD_HEADER_LEN,
      RECORD_CHECKSUM_LEN in *. lia. }
  pose proof (len_nonneg (groups_bytes (ws_pending_groups s))).
  destruct (stage_attempt_idle max op payload s) as (s' & g & Est & Ep & Eq); try done; [lia|].
  pose proof (stage_attempt_inv first max (conj (reachable_max _ _ _ _ Hr) Hm) _ _ _ _ op payload _
                Hst Hop Hlen) as Hpost.
  rewrite Est in Hpost. destruct Hpost as (_ & _ & _ & _ & _ & Hst'). specialize (Hst' Himg).
  assert (Forall (λ c, is_Some (chunk_bytes c)) (g_chunks g)) as Hc.
  { pose proof (si_groups _ _ _ _ _ _ Hst') as Hg. rewrite Ep in Hg. destruct Hg as [Hg _].
    apply (go_chunks _ _ _ _ _ _ Hg). }
  unfold commit_run.
  erewrite exec_all_step.
  2:{ cbn [exec]. rewrite Hpc. cbn [exec_start]. rewrite Hlen. reflexivity. }
  erewrite exec_all_step.
  2:{ cbn [exec]. unfold exec_run. rewrite pc_of_goto. unfold exec_stage.
      cbn [goto sys_writer sys_log sys_acked]. rewrite (in_max _ _ _ _ _ _ Hi). fold s.
      rewrite Est. cbn [after_staging]. reflexivity. }
  set (sys1 := goto t _ _ _ _ _).
  destruct (lead_one_group sys1 t g (ws_next_seq s) (VSeq (ws_next_seq s)))
    as (sys' & E & E1 & E2 & E3 & E4); [apply pc_of_goto|done|done|done|].
  exists sys'. split; [exact E|]. split_and!; [done|done| |done].
  rewrite E3. apply elem_of_app. right. by apply list_elem_of_singleton.
Qed.

(** A freshly created writer is idle. *)
Definition fresh_system : System :=
  match create_with_max_group_bytes (Ok 0) (Ok tt) 1 Demo.policy Demo.max with
  | Ok w => start_system w []
  | Err _ => Demo.fallback
  end.

Lemma fresh_reachable : reachable (X:=ToyXxh3.toy) 1 Demo.max Demo.policy fresh_system.
Proof.
  unfold fresh_system. destruct (create_with_max_group_bytes _ _ _ _ _) as [w|] eqn:E.
  - by apply reachable_create.
  - exfalso. assert (is_ok (create_with_max_group_bytes (Ok 0) (Ok tt) 1 Demo.policy Demo.max)
      = true) as H by by_compute. by rewrite E in H.
Qed.

Lemma idle_commit_completes_witness :
  ∃ sys', exec_all (X:=ToyXxh3.toy) (commit_run 4 9 [Byte.x05]) fresh_system = Some sys'
          ∧ pc_of 4 sys' = Returned (Ok (VSeq 1)).
Proof.
  destruct (idle_commit_completes (X:=ToyXxh3.toy) (L:=ToyXxh3.toy_laws) 1 Demo.max Demo.policy
    fresh_system 4 9 [Byte.x05] fresh_reachable) as (sys' & H1 & H2 & _); [by_compute..|].
  exists sys'. split; [exact H1|]. rewrite H2. by_compute.
Defined.
