(* ===== verification/Schema.v ===== *)
(** * Collection schemas

    Models [crates/zeppelin-embed/src/meta/mod.rs]: column identifiers, types
    and definitions, [Schema::new] with its duplicate checks, and
    [Schema::additive_evolution], which decides whether a declared schema
    extends a persisted one.

    A Rust [String] is the list of its UTF-8 bytes. *)

From S2P Require Import Prelude.

(** ** Data *)

(** [ColumnId] is a transparent wrapper of a [u32]. *)
Abbreviation ColumnId := Z (only parsing).
Definition TIMESTAMP_COLUMN : ColumnId := 0.

Inductive ColumnType : Type := U64 | Id128 | I64 | F64 | Bool | DictionaryString | RawString.

#[export] Instance ColumnType_eq_dec : EqDecision ColumnType.
Proof. solve_decision. Defined.

Record ColumnDefinition : Type := {
  cd_id : ColumnId;
  cd_name : bytes;
  cd_column_type : ColumnType;
  cd_nullable : bool;
}.

#[export] Instance ColumnDefinition_eq_dec : EqDecision ColumnDefinition.
Proof. solve_decision. Defined.

Inductive SchemaError : Type :=
| ReservedTimestampId
| ReservedTimestampName
| DuplicateColumnId (id : ColumnId)
| DuplicateColumnName (name : bytes).

Inductive SchemaConflict : Type :=
| Removed (persisted : ColumnDefinition)
| Changed (persisted declared : ColumnDefinition)
| AddedNotNullable (declared : ColumnDefinition).

Record Schema : Type := { sc_columns : list ColumnDefinition }.

#[export] Instance Schema_eq_dec : EqDecision Schema.
Proof. solve_decision. Defined.

(** ** Operations *)

(** The bytes of ["ts"]. *)
Definition ts_name : bytes := [Byte.x74; Byte.x73].

Definition timestamp_definition : ColumnDefinition :=
  {| cd_id := TIMESTAMP_COLUMN; cd_name := ts_name; cd_column_type := I64; cd_nullable := false |}.

Definition timestamp_only : Schema := {| sc_columns := [timestamp_definition] |}.

(** The validation loop of [Schema::new]; [before] is
    [user_columns.iter().take(position)]. *)
Fixpoint check_user_columns (before cols : list ColumnDefinition) : result SchemaError unit :=
  match cols with
  | [] => Ok tt
  | definition :: cols =>
      if cd_id definition =? TIMESTAMP_COLUMN then Err ReservedTimestampId
      else if bool_decide (cd_name definition = ts_name) then Err ReservedTimestampName
      else match List.find (λ candidate, (cd_id candidate =? cd_id definition)
                              || bool_decide (cd_name candidate = cd_name definition)) before with
           | Some duplicate =>
               if cd_id duplicate =? cd_id definition
               then Err (DuplicateColumnId (cd_id definition))
               else Err (DuplicateColumnName (cd_name definition))
           | None => check_user_columns (before ++ [definition]) cols
           end
  end.

Definition schema_new (user_columns : list ColumnDefinition) : result SchemaError Schema :=
  _ ← check_user_columns [] user_columns;
  Ok {| sc_columns := sc_columns timestamp_only ++ user_columns |}.

(** [Schema::column]. *)
Definition schema_column (s : Schema) (id : ColumnId) : option ColumnDefinition :=
  List.find (λ definition, cd_id definition =? id) (sc_columns s).

Definition user_column_count (s : Schema) : Z := saturating_sub (len (sc_columns s)) 1.

(** The first loop of [additive_evolution]: every persisted column is declared
    unchanged. *)
Fixpoint check_persisted (declared : Schema) (columns : list ColumnDefinition)
    : result SchemaConflict unit :=
  match columns with
  | [] => Ok tt
  | persisted :: columns =>
      match schema_column declared (cd_id persisted) with
      | None => Err (Removed persisted)
      | Some candidate =>
          if bool_decide (candidate ≠ persisted) then Err (Changed persisted candidate)
          else check_persisted declared columns
      end
  end.

(** The second loop: the declared columns the persisted schema lacks. *)
Fixpoint added_columns (persisted : Schema) (columns : list ColumnDefinition)
    : result SchemaConflict (list ColumnDefinition) :=
  match columns with
  | [] => Ok []
  | candidate :: columns =>
      match schema_column persisted (cd_id candidate) with
      | None =>
          if negb (cd_nullable candidate) then Err (AddedNotNullable candidate)
          else added ← added_columns persisted columns; Ok (candidate :: added)
      | Some _ => added_columns persisted columns
      end
  end.

Definition additive_evolution (self declared : Schema)
    : result SchemaConflict (option Schema) :=
  _ ← check_persisted declared (sc_columns self);
  added ← added_columns self (sc_columns declared);
  match added with
  | [] => Ok None
  | _ => Ok (Some {| sc_columns := sc_columns self ++ added |})
  end.

(** ** Well-formed schemas *)

(** What [Schema::new] establishes. *)
Record schema_ok (s : Schema) : Prop := {
  so_ts : ∃ cols, sc_columns s = timestamp_definition :: cols;
  so_ids : NoDup (map cd_id (sc_columns s));
  so_names : NoDup (map cd_name (sc_columns s));
}.

Lemma find_duplicate_None before d :
  List.find (λ candidate, (cd_id candidate =? cd_id d)
               || bool_decide (cd_name candidate = cd_name d)) before = None ↔
  (cd_id d ∉ map cd_id before) ∧ (cd_name d ∉ map cd_name before).
Proof.
  induction before as [|x before IH]; simpl.
  { split; [|done]. intros _. split; apply not_elem_of_nil. }
  rewrite !not_elem_of_cons. destruct (Z.eqb_spec (cd_id x) (cd_id d)) as [->|Hi]; simpl.
  { split; [done|]. by intros [[? _] _]. }
  destruct (bool_decide_reflect (cd_name x = cd_name d)) as [->|Hn]; simpl.
  { split; [done|]. by intros [_ [? _]]. }
  rewrite IH. split; [intros [? ?]; split; split; congruence|]. intros [[? ?] [? ?]]. done.
Qed.

Lemma check_user_columns_Ok cols : ∀ before,
  NoDup (map cd_id before) → NoDup (map cd_name before) →
  check_user_columns before cols = Ok tt ↔
  NoDup (map cd_id (before ++ cols)) ∧ NoDup (map cd_name (before ++ cols))
  ∧ Forall (λ d, cd_id d ≠ TIMESTAMP_COLUMN ∧ cd_name d ≠ ts_name) cols.
Proof.
  induction cols as [|d cols IH]; intros before Hid Hnm; cbn [check_user_columns].
  { rewrite app_nil_r. split; [done|]. done. }
  rewrite Forall_cons. destruct (Z.eqb_spec (cd_id d) TIMESTAMP_COLUMN) as [E|E].
  { split; [done|]. by intros (_ & _ & [? _] & _). }
  destruct (bool_decide_reflect (cd_name d = ts_name)) as [E'|E'].
  { split; [done|]. by intros (_ & _ & [_ ?] & _). }
  pose proof (find_duplicate_None before d) as Hfind.
  destruct (List.find _ before) as [x|].
  - split; [by destruct (_ =? _)|]. intros (H1 & H2 & _). exfalso.
    rewrite map_app in H1, H2. apply NoDup_app in H1 as (_ & H1 & _).
    apply NoDup_app in H2 as (_ & H2 & _).
    assert (Some x = None) as [=]; apply Hfind. split; intros Hin.
    + apply (H1 _ Hin). simpl. left.
    + apply (H2 _ Hin). simpl. left.
  - destruct (proj1 Hfind eq_refl) as [Hi Hn]. rewrite IH.
    + rewrite <- !app_assoc. cbn [app]. tauto.
    + rewrite map_app. apply NoDup_app. split_and!; [done| |apply NoDup_singleton].
      intros x Hx Hy. simpl in Hy. apply list_elem_of_singleton in Hy. by subst.
    + rewrite map_app. apply NoDup_app. split_and!; [done| |apply NoDup_singleton].
      intros x Hx Hy. simpl in Hy. apply list_elem_of_singleton in Hy. by subst.
Qed.

Lemma schema_new_ok cols s :
  schema_new cols = Ok s → schema_ok s ∧ sc_columns s = timestamp_definition :: cols.
Proof.
  unfold schema_new. destruct (check_user_columns [] cols) as [[]|] eqn:E; [|done].
  rsimpl. intros [= <-]. apply check_user_columns_Ok in E as (H1 & H2 & H3); [|constructor..].
  simpl in *. split; [|done]. split; cbn [sc_columns map].
  - by eexists.
  - constructor; [|done]. intros Hin. apply list_elem_of_In, in_map_iff in Hin as (d & Hd & Hin).
    apply list_elem_of_In in Hin. rewrite Forall_forall in H3. by destruct (H3 _ Hin).
  - constructor; [|done]. intros Hin. apply list_elem_of_In, in_map_iff in Hin as (d & Hd & Hin).
    apply list_elem_of_In in Hin. rewrite Forall_forall in H3. by destruct (H3 _ Hin).
Qed.

(** ** Looking columns up *)

Lemma schema_column_Some s id c :
  schema_column s id = Some c → c ∈ sc_columns s ∧ cd_id c = id.
Proof.
  unfold schema_column. intros H. apply List.find_some in H as [H1 H2].
  split; [by apply list_elem_of_In|]. by apply Z.eqb_eq.
Qed.

Lemma schema_column_None s id :
  schema_column s id = None ↔ (id ∉ map cd_id (sc_columns s)).
Proof.
  unfold schema_column. destruct s as [cols]. cbn [sc_columns].
  induction cols as [|c cols IH]; cbn [List.find map].
  { split; [intros _; apply not_elem_of_nil|done]. }
  rewrite not_elem_of_cons. destruct (Z.eqb_spec (cd_id c) id) as [->|Hne].
  - split; [done|]. by intros [? _].
  - rewrite IH. split; [by split|]. by intros [_ ?].
Qed.

Lemma elem_of_ids c cols : c ∈ cols → cd_id c ∈ map cd_id cols.
Proof. intros H. apply list_elem_of_In, in_map, list_elem_of_In, H. Qed.

Lemma ids_elem_of id cols : id ∈ map cd_id cols → ∃ c, c ∈ cols ∧ cd_id c = id.
Proof.
  intros H. apply list_elem_of_In, in_map_iff in H as (c & Hc & Hin).
  exists c. by rewrite list_elem_of_In.
Qed.

(** In a schema without duplicate identifiers, the identifier decides the column. *)
Lemma ids_inj cols c c' :
  NoDup (map cd_id cols) → c ∈ cols → c' ∈ cols → cd_id c = cd_id c' → c = c'.
Proof.
  induction cols as [|x cols IH]; cbn [map]; intros Hn Hc Hc' E.
  { by apply elem_of_nil in Hc. }
  apply NoDup_cons in Hn as [Hx Hn]. rewrite elem_of_cons in Hc, Hc'.
  destruct Hc as [->|Hc], Hc' as [->|Hc']; [done| | |by apply IH].
  - destruct Hx. rewrite E. by apply elem_of_ids.
  - destruct Hx. rewrite <- E. by apply elem_of_ids.
Qed.

Lemma schema_column_In s c :
  NoDup (map cd_id (sc_columns s)) → c ∈ sc_columns s → schema_column s (cd_id c) = Some c.
Proof.
  intros Hn Hc. destruct (schema_column s (cd_id c)) as [c'|] eqn:E.
  - apply schema_column_Some in E as [H1 H2]. f_equal. by apply (ids_inj (sc_columns s)).
  - apply schema_column_None in E. destruct E. by apply elem_of_ids.
Qed.

(** ** The two loops of [additive_evolution] *)

Lemma check_persisted_spec declared cols :
  match check_persisted declared cols with
  | Ok _ => ∀ c, c ∈ cols → c ∈ sc_columns declared
  | Err (Removed c) => c ∈ cols ∧ (cd_id c ∉ map cd_id (sc_columns declared))
  | Err (Changed c c') =>
      c ∈ cols ∧ c' ∈ sc_columns declared ∧ cd_id c' = cd_id c ∧ c' ≠ c
  | Err (AddedNotNullable _) => False
  end.
Proof.
  induction cols as [|p cols IH]; cbn [check_persisted].
  { intros c Hc. by apply elem_of_nil in Hc. }
  destruct (schema_column declared (cd_id p)) as [c'|] eqn:E.
  - apply schema_column_Some in E as [H1 H2].
    destruct (bool_decide_reflect (c' ≠ p)) as [Hne|Heq].
    { split_and!; [left|done|done|done]. }
    assert (c' = p) as -> by (by apply dec_stable).
    destruct (check_persisted declared cols) as [u|[c|c c''|c]]; [| | |done].
    + intros c [->|Hc]%elem_of_cons; [done|by apply IH].
    + destruct IH. split; [by right|done].
    + destruct IH as (? & ? & ?). split_and!; [by right|done|tauto|tauto].
  - apply schema_column_None in E. split; [left|done].
Qed.

Lemma added_columns_spec persisted cols :
  match added_columns persisted cols with
  | Ok added =>
      added = filter (λ c, cd_id c ∉ map cd_id (sc_columns persisted)) cols
      ∧ Forall (λ c, cd_nullable c = true) added
  | Err (AddedNotNullable c) =>
      c ∈ cols ∧ (cd_id c ∉ map cd_id (sc_columns persisted)) ∧ cd_nullable c = false
  | Err _ => False
  end.
Proof.
  induction cols as [|c cols IH]; cbn [added_columns]; [done|].
  rewrite filter_cons. destruct (schema_column persisted (cd_id c)) as [c'|] eqn:E.
  - assert (cd_id c ∈ map cd_id (sc_columns persisted)) as Hin.
    { apply schema_column_Some in E as [H1 <-]. by apply elem_of_ids. }
    rewrite decide_False by auto.
    destruct (added_columns persisted cols) as [a|[]]; try done.
    destruct IH as (?&?&?). split_and!; [by right|done|done].
  - apply schema_column_None in E. rewrite decide_True by done.
    destruct (cd_nullable c) eqn:Hn; cbn [negb]; [|by split_and!; [left|..]].
    destruct (added_columns persisted cols) as [a|[]]; rsimpl; try done.
    + destruct IH as [-> Hf]. split; [done|by constructor].
    + destruct IH as (?&?&?). split_and!; [by right|done|done].
Qed.

(** The persisted columns and the added ones are the declared ones. *)
Lemma evolution_permutation p d :
  schema_ok p → schema_ok d → (∀ c, c ∈ sc_columns p → c ∈ sc_columns d) →
  sc_columns p ++ filter (λ c, cd_id c ∉ map cd_id (sc_columns p)) (sc_columns d)
  ≡ₚ sc_columns d.
Proof.
  intros [_ Hp _] [_ Hd _] Hsub.
  apply NoDup_Permutation.
  - apply NoDup_app. split_and!.
    + by apply (NoDup_fmap_1 cd_id).
    + intros c Hc Hf. apply list_elem_of_filter in Hf as [Hf _]. destruct Hf. by apply elem_of_ids.
    + apply NoDup_filter. by apply (NoDup_fmap_1 cd_id).
  - by apply (NoDup_fmap_1 cd_id).
  - intros c. rewrite elem_of_app, list_elem_of_filter. split.
    + intros [Hc|[_ Hc]]; [by apply Hsub|done].
    + intros Hc. destruct (decide (cd_id c ∈ map cd_id (sc_columns p))) as [Hin|Hin]; [|by right].
      left. apply ids_elem_of in Hin as (c' & Hc' & E).
      by rewrite <- (ids_inj _ _ _ Hd (Hsub _ Hc') Hc E).
Qed.

(** Reconciling a declared schema with a persisted one is exact on every
    branch: no change when both have the same columns, otherwise the persisted
    columns followed by the new nullable ones, a valid schema again, or the removed,
    changed or non-nullable added column that prevents it. *)
Theorem additive_evolution_spec (p d : Schema) :
  schema_ok p → schema_ok d →
  match additive_evolution p d with
  | Ok None => sc_columns p ≡ₚ sc_columns d
  | Ok (Some e) =>
      schema_ok e ∧ sc_columns e ≡ₚ sc_columns d
      ∧ ∃ added, sc_columns e = sc_columns p ++ added ∧ added ≠ []
                 ∧ Forall (λ c, cd_nullable c = true) added
  | Err (Removed c) => c ∈ sc_columns p ∧ (cd_id c ∉ map cd_id (sc_columns d))
  | Err (Changed c c') =>
      c ∈ sc_columns p ∧ c' ∈ sc_columns d ∧ cd_id c' = cd_id c ∧ c' ≠ c
  | Err (AddedNotNullable c) =>
      c ∈ sc_columns d ∧ (cd_id c ∉ map cd_id (sc_columns p)) ∧ cd_nullable c = false
  end.
Proof.
  intros Hp Hd. unfold additive_evolution.
  pose proof (check_persisted_spec d (sc_columns p)) as H1.
  destruct (check_persisted d (sc_columns p)) as [u|[c|c c'|c]]; rsimpl; [|done..].
  pose proof (added_columns_spec p (sc_columns d)) as H2.
  destruct (added_columns p (sc_columns d)) as [added|[c|c c'|c]]; rsimpl; [|done..].
  destruct H2 as [Ha Hn]. pose proof (evolution_permutation p d Hp Hd H1) as Hperm.
  rewrite <- Ha in Hperm. destruct added as [|a added].
  { by rewrite app_nil_r in Hperm. }
  split_and!; [|done|by exists (a :: added)].
  split; cbn [sc_columns].
  - destruct (so_ts _ Hp) as [cols ->]. by eexists.
  - apply (Permutation_map cd_id) in Hperm. rewrite Hperm. apply Hd.
  - apply (Permutation_map cd_name) in Hperm. rewrite Hperm. apply Hd.
Qed.

(** A schema is accepted exactly when its column ids and names are distinct and
    none takes the reserved timestamp id or name; the accepted schema is well-formed
    and is the timestamp column followed by the given columns. *)
Theorem schema_new_validates (cols : list ColumnDefinition) :
  (∀ s, schema_new cols = Ok s →
     schema_ok s ∧ sc_columns s = timestamp_definition :: cols
     ∧ user_column_count s = len cols)
  ∧ (is_ok (schema_new cols) = true ↔
     NoDup (map cd_id cols) ∧ NoDup (map cd_name cols)
     ∧ Forall (λ d, cd_id d ≠ TIMESTAMP_COLUMN ∧ cd_name d ≠ ts_name) cols).
Proof.
  split.
  - intros s H. apply schema_new_ok in H as [H1 H2]. split_and!; [done|done|].
    unfold user_column_count. rewrite H2, len_cons. pose proof (len_nonneg cols).
    unfold saturating_sub. lia.
  - unfold schema_new. rewrite <- (check_user_columns_Ok cols []) by constructor.
    destruct (check_user_columns [] cols) as [[]|]; done.
Qed.

(** A declared schema that adds one nullable column and lists its columns in
    another order. *)
Definition sample_persisted : Schema :=
  {| sc_columns := [timestamp_definition;
       {| cd_id := 1; cd_name := [Byte.x61]; cd_column_type := U64; cd_nullable := false |}] |}.
Definition sample_declared : Schema :=
  {| sc_columns := [timestamp_definition;
       {| cd_id := 2; cd_name := [Byte.x62]; cd_column_type := Bool; cd_nullable := true |};
       {| cd_id := 1; cd_name := [Byte.x61]; cd_column_type := U64; cd_nullable := false |}] |}.

Lemma sample_schemas_ok : schema_ok sample_persisted ∧ schema_ok sample_declared.
Proof.
  split.
  - apply (schema_new_ok (tail (sc_columns sample_persisted))). reflexivity.
  - apply (schema_new_ok (tail (sc_columns sample_declared))). reflexivity.
Qed.

Lemma additive_evolution_spec_witness :
  ∃ e, additive_evolution sample_persisted sample_declared = Ok (Some e) ∧ schema_ok e
       ∧ sc_columns e ≡ₚ sc_columns sample_declared.
Proof.
  destruct sample_schemas_ok as [Hp Hd].
  pose proof (additive_evolution_spec sample_persisted sample_declared Hp Hd) as H.
  eexists. split; [reflexivity|].
  rewrite (eq_refl : additive_evolution sample_persisted sample_declared
    = Ok (Some {| sc_columns := sc_columns sample_persisted ++
                    [{| cd_id := 2; cd_name := [Byte.x62]; cd_column_type := Bool;
                        cd_nullable := true |}] |})) in H.
  split; apply H.
Defined.
