(* ===== verification/Epoch.v ===== *)
(** * Embedding epochs

    Models [crates/zeppelin-embed/src/epoch.rs]: the identity of an embedding
    interpretation ([EmbeddingTower], [EmbeddingEpoch], [EpochId::of] over the
    canonical digest input) and [EpochMeta] of [manifest/mod.rs].  The digest
    input is shown to be injective, so two different epochs share an identifier
    only if xxh3-64 collides.

    [EpochAliasCell] is modelled in [EpochAlias.v]. *)

From S2P Require Import Prelude Format.

(** ** Data *)

Abbreviation EpochId := Z (only parsing).
Abbreviation TokenizerEpoch := Z (only parsing).

Inductive Normalization : Type := NormalizationNone | L2.
Inductive EmbeddingRuntime : Type := CoreMl | Mlx | CpuReference.
Inductive ComputeUnits : Type := Cpu | CpuAndGpu | CpuAndNeuralEngine | AllUnits.

#[export] Instance Normalization_eq_dec : EqDecision Normalization.
Proof. solve_decision. Defined.
#[export] Instance EmbeddingRuntime_eq_dec : EqDecision EmbeddingRuntime.
Proof. solve_decision. Defined.
#[export] Instance ComputeUnits_eq_dec : EqDecision ComputeUnits.
Proof. solve_decision. Defined.

(** The [repr(u16)] discriminants. *)
Definition normalization_id (n : Normalization) : Z :=
  match n with NormalizationNone => 0 | L2 => 1 end.
Definition runtime_id (r : EmbeddingRuntime) : Z :=
  match r with CoreMl => 1 | Mlx => 2 | CpuReference => 3 end.
Definition compute_units_id (c : ComputeUnits) : Z :=
  match c with Cpu => 1 | CpuAndGpu => 2 | CpuAndNeuralEngine => 3 | AllUnits => 4 end.

Record EmbeddingTower : Type := {
  tw_model_id : bytes;
  tw_model_version : bytes;
  tw_weights_digest : bytes;
  tw_dims : Z;
  tw_normalization : Normalization;
  tw_prompt_prefix : bytes;
  tw_max_tokens : Z;
  tw_runtime : EmbeddingRuntime;
  tw_compute_units : ComputeUnits;
  tw_os_build : option bytes;
}.

#[export] Instance EmbeddingTower_eq_dec : EqDecision EmbeddingTower.
Proof. solve_decision. Defined.

Record EmbeddingEpoch : Type := {
  ee_document : EmbeddingTower;
  ee_query : EmbeddingTower;
  ee_alignment_digest : bytes;
}.

#[export] Instance EmbeddingEpoch_eq_dec : EqDecision EmbeddingEpoch.
Proof. solve_decision. Defined.

Record EpochIdentity : Type := {
  ei_embedding : EpochId;
  ei_tokenizer : TokenizerEpoch;
}.

#[export] Instance EpochIdentity_eq_dec : EqDecision EpochIdentity.
Proof. solve_decision. Defined.

(** [manifest::EpochMeta]. *)
Record EpochMeta : Type := {
  em_id : EpochId;
  em_embedding : EmbeddingEpoch;
  em_tokenizer : TokenizerEpoch;
}.

#[export] Instance EpochMeta_eq_dec : EqDecision EpochMeta.
Proof. solve_decision. Defined.

Record StoreEpoch : Type := {
  se_embedding : EmbeddingEpoch;
  se_tokenizer : TokenizerEpoch;
}.

Inductive EpochMetaError : Type :=
| EmbeddingDigestMismatch (declared actual : EpochId).

(** ** The canonical digest input *)

(** [b"ZEEMBEP2"]. *)
Definition EPOCH_MAGIC : bytes :=
  [Byte.x5a; Byte.x45; Byte.x45; Byte.x4d; Byte.x42; Byte.x45; Byte.x50; Byte.x32].

Definition push_bytes (buffer value : bytes) : bytes :=
  buffer ++ u32_le (default u32_max (try_from u32_max (len value))) ++ value.

Definition push_tower (input : bytes) (tower : EmbeddingTower) : bytes :=
  let input := push_bytes input (tw_model_id tower) in
  let input := push_bytes input (tw_model_version tower) in
  let input := push_bytes input (tw_weights_digest tower) in
  let input := input ++ u32_le (tw_dims tower) in
  let input := input ++ u16_le (normalization_id (tw_normalization tower)) in
  let input := push_bytes input (tw_prompt_prefix tower) in
  let input := input ++ u32_le (tw_max_tokens tower) in
  let input := input ++ u16_le (runtime_id (tw_runtime tower)) in
  let input := input ++ u16_le (compute_units_id (tw_compute_units tower)) in
  match tw_os_build tower with
  | Some build => push_bytes (input ++ [Byte.x01]) build
  | None => input ++ [Byte.x00]
  end.

Definition canonical_digest_input (epoch : EmbeddingEpoch) : bytes :=
  let input := EPOCH_MAGIC in
  let input := push_tower input (ee_document epoch) in
  let input := push_tower input (ee_query epoch) in
  push_bytes input (ee_alignment_digest epoch).

Section EpochOps.
Context {X : Xxh3}.

(** [EpochId::of]. *)
Definition epoch_id_of (epoch : EmbeddingEpoch) : EpochId :=
  xxh3_64 (canonical_digest_input epoch).

(** [StoreEpoch::identity]. *)
Definition store_identity (epoch : StoreEpoch) : EpochIdentity :=
  {| ei_embedding := epoch_id_of (se_embedding epoch); ei_tokenizer := se_tokenizer epoch |}.

(** [EpochIdentity::from_meta]. *)
Definition identity_from_meta (meta : EpochMeta) : result EpochMetaError EpochIdentity :=
  let actual := epoch_id_of (em_embedding meta) in
  if negb (actual =? em_id meta)
  then Err (EmbeddingDigestMismatch (em_id meta) actual)
  else Ok {| ei_embedding := em_id meta; ei_tokenizer := em_tokenizer meta |}.

(** [EpochMeta::from(&StoreEpoch)]. *)
Definition meta_of_store_epoch (epoch : StoreEpoch) : EpochMeta :=
  {| em_id := ei_embedding (store_identity epoch); em_embedding := se_embedding epoch;
     em_tokenizer := se_tokenizer epoch |}.
End EpochOps.

(** ** Injectivity *)

(** Field ranges: the widths of the Rust types, and byte fields short enough for
    their length prefix. *)
Record tower_ok (t : EmbeddingTower) : Prop := {
  to_model_id : len (tw_model_id t) ≤ u32_max;
  to_model_version : len (tw_model_version t) ≤ u32_max;
  to_weights : len (tw_weights_digest t) ≤ u32_max;
  to_dims : is_u32 (tw_dims t);
  to_prompt : len (tw_prompt_prefix t) ≤ u32_max;
  to_max_tokens : is_u32 (tw_max_tokens t);
  to_os_build : ∀ b, tw_os_build t = Some b → len b ≤ u32_max;
}.

Record epoch_ok (e : EmbeddingEpoch) : Prop := {
  eo_document : tower_ok (ee_document e);
  eo_query : tower_ok (ee_query e);
  eo_alignment : len (ee_alignment_digest e) ≤ u32_max;
}.

(** Equal concatenations with heads of equal length have equal heads. *)
Lemma app_inj_len {A} (a a' b b' : list A) :
  a ++ b = a' ++ b' → len a = len a' → a = a' ∧ b = b'.
Proof. intros H Hl. apply app_inj_1; [unfold len in Hl; lia|done]. Qed.

Lemma u32_head_inj a a' r r' :
  is_u32 a → is_u32 a' → u32_le a ++ r = u32_le a' ++ r' → a = a' ∧ r = r'.
Proof.
  intros Ha Ha' H. apply app_inj_len in H as [H1 H2]; [|by rewrite !len_u32_le].
  split; [|done]. by rewrite <- (from_u32_le a), <- (from_u32_le a'), H1.
Qed.

Lemma u16_head_inj a a' r r' :
  is_u16 a → is_u16 a' → u16_le a ++ r = u16_le a' ++ r' → a = a' ∧ r = r'.
Proof.
  intros Ha Ha' H. apply app_inj_len in H as [H1 H2]; [|by rewrite !len_u16_le].
  split; [|done]. by rewrite <- (from_u16_le a), <- (from_u16_le a'), H1.
Qed.

(** A length-prefixed field, as the bytes appended. *)
Definition field (v : bytes) : bytes := u32_le (len v) ++ v.

Lemma push_bytes_field buffer v : len v ≤ u32_max → push_bytes buffer v = buffer ++ field v.
Proof.
  intros H. unfold push_bytes, field, try_from. pose proof (len_nonneg v). decide_Z. done.
Qed.

Lemma field_head_inj v v' r r' :
  len v ≤ u32_max → len v' ≤ u32_max → field v ++ r = field v' ++ r' → v = v' ∧ r = r'.
Proof.
  intros Hv Hv' H. unfold field in H. rewrite <- !app_assoc in H.
  pose proof (len_nonneg v); pose proof (len_nonneg v').
  apply u32_head_inj in H as [Hl H]; [|done..]. by apply app_inj_len in H.
Qed.

Definition os_bytes (o : option bytes) : bytes :=
  match o with Some b => Byte.x01 :: field b | None => [Byte.x00] end.

Definition tower_bytes (t : EmbeddingTower) : bytes :=
  field (tw_model_id t) ++ field (tw_model_version t) ++ field (tw_weights_digest t)
  ++ u32_le (tw_dims t) ++ u16_le (normalization_id (tw_normalization t))
  ++ field (tw_prompt_prefix t) ++ u32_le (tw_max_tokens t)
  ++ u16_le (runtime_id (tw_runtime t)) ++ u16_le (compute_units_id (tw_compute_units t))
  ++ os_bytes (tw_os_build t).

Lemma push_tower_bytes input t : tower_ok t → push_tower input t = input ++ tower_bytes t.
Proof.
  intros [H1 H2 H3 H4 H5 H6 H7]. unfold push_tower, tower_bytes. cbv zeta.
  rewrite !push_bytes_field by done.
  destruct (tw_os_build t) as [b|] eqn:E; cbn [os_bytes].
  - rewrite push_bytes_field by (by apply H7). by rewrite <- !app_assoc.
  - by rewrite <- !app_assoc.
Qed.

Lemma os_bytes_inj o o' r r' :
  (∀ b, o = Some b → len b ≤ u32_max) → (∀ b, o' = Some b → len b ≤ u32_max) →
  os_bytes o ++ r = os_bytes o' ++ r' → o = o' ∧ r = r'.
Proof.
  intros H H' E. destruct o as [b|], o' as [b'|]; cbn [os_bytes app] in E; try done.
  - apply (f_equal (@tail byte)) in E. cbn [tail] in E. apply field_head_inj in E as [-> ->]; [done|by apply H|by apply H'].
  - apply (f_equal (@tail byte)) in E. by cbn [tail] in E.
Qed.

Lemma normalization_id_inj a b : normalization_id a = normalization_id b → a = b.
Proof. by destruct a, b. Qed.
Lemma runtime_id_inj a b : runtime_id a = runtime_id b → a = b.
Proof. by destruct a, b. Qed.
Lemma compute_units_id_inj a b : compute_units_id a = compute_units_id b → a = b.
Proof. by destruct a, b. Qed.

Lemma normalization_id_u16 a : is_u16 (normalization_id a).
Proof. by destruct a. Qed.
Lemma runtime_id_u16 a : is_u16 (runtime_id a).
Proof. by destruct a. Qed.
Lemma compute_units_id_u16 a : is_u16 (compute_units_id a).
Proof. by destruct a. Qed.

#[export] Hint Resolve normalization_id_u16 runtime_id_u16 compute_units_id_u16 : zep.

Lemma tower_bytes_inj t t' r r' :
  tower_ok t → tower_ok t' → tower_bytes t ++ r = tower_bytes t' ++ r' → t = t' ∧ r = r'.
Proof.
  intros [H1 H2 H3 H4 H5 H6 H7] [G1 G2 G3 G4 G5 G6 G7] E.
  unfold tower_bytes in E. rewrite <- !app_assoc in E.
  apply field_head_inj in E as [E1 E]; [|done..].
  apply field_head_inj in E as [E2 E]; [|done..].
  apply field_head_inj in E as [E3 E]; [|done..].
  apply u32_head_inj in E as [E4 E]; [|done..].
  apply u16_head_inj in E as [E5 E]; [|auto with zep..].
  apply field_head_inj in E as [E6 E]; [|done..].
  apply u32_head_inj in E as [E7 E]; [|done..].
  apply u16_head_inj in E as [E8 E]; [|auto with zep..].
  apply u16_head_inj in E as [E9 E]; [|auto with zep..].
  apply os_bytes_inj in E as [E10 E]; [|done..].
  apply normalization_id_inj in E5. apply runtime_id_inj in E8. apply compute_units_id_inj in E9.
  split; [|done]. destruct t, t'; cbn in *. by subst.
Qed.

Lemma digest_input_bytes e :
  epoch_ok e →
  canonical_digest_input e
  = EPOCH_MAGIC ++ tower_bytes (ee_document e) ++ tower_bytes (ee_query e)
    ++ field (ee_alignment_digest e).
Proof.
  intros [H1 H2 H3]. unfold canonical_digest_input.
  rewrite !push_tower_bytes, push_bytes_field by done. by rewrite <- !app_assoc.
Qed.

(** The byte string an embedding epoch is digested from determines the epoch:
    two well-formed epochs with the same digest input are equal, so epoch ids differ
    unless the hash collides. *)
Theorem digest_input_injective (e e' : EmbeddingEpoch) :
  epoch_ok e → epoch_ok e' →
  canonical_digest_input e = canonical_digest_input e' → e = e'.
Proof.
  intros H H' E. rewrite !digest_input_bytes in E by done.
  destruct H as [H1 H2 H3], H' as [G1 G2 G3].
  apply app_inv_head in E.
  apply tower_bytes_inj in E as [E1 E]; [|done..].
  apply tower_bytes_inj in E as [E2 E]; [|done..].
  rewrite <- (app_nil_r (field (ee_alignment_digest e))),
    <- (app_nil_r (field (ee_alignment_digest e'))) in E.
  apply field_head_inj in E as [E3 _]; [|done..].
  destruct e, e'; cbn in *. by subst.
Qed.

Definition sample_tower : EmbeddingTower :=
  {| tw_model_id := [Byte.x6d]; tw_model_version := [Byte.x31];
     tw_weights_digest := [Byte.x01; Byte.x02]; tw_dims := 384; tw_normalization := L2;
     tw_prompt_prefix := []; tw_max_tokens := 512; tw_runtime := CoreMl;
     tw_compute_units := AllUnits; tw_os_build := Some [Byte.x32] |}.
Definition sample_epoch : EmbeddingEpoch :=
  {| ee_document := sample_tower; ee_query := sample_tower; ee_alignment_digest := [Byte.xaa] |}.

Lemma sample_tower_ok : tower_ok sample_tower.
Proof. split; try by_compute. intros b [= <-]. by_compute. Qed.

Lemma sample_epoch_ok : epoch_ok sample_epoch.
Proof. split; [apply sample_tower_ok..|by_compute]. Qed.

Lemma digest_input_injective_witness :
  canonical_digest_input sample_epoch = canonical_digest_input sample_epoch
  ∧ sample_epoch = sample_epoch.
Proof.
  split; [reflexivity|].
  apply (digest_input_injective sample_epoch sample_epoch sample_epoch_ok sample_epoch_ok).
  reflexivity.
Defined.
