(* ===== verification/EpochAlias.v ===== *)
(** * The published epoch alias

    Models [EpochAliasCell] of [crates/zeppelin-embed/src/epoch.rs]: a sequence
    lock that publishes the alias to readers that take no lock.  One writer
    (stores are serialized by the store's publication lock) and any number of
    readers run interleaved, one atomic access per step.

    Steps are sequentially consistent: the relaxed ordering of the data loads is
    not modelled.  The counter wraps at 2^64 as [fetch_add] does; the theorems
    assume fewer than 2^63 stores. *)

From S2P Require Import Prelude Format Epoch.

(** ** Data *)

Record Cell : Type := {
  ce_sequence : Z;
  ce_embedding : Z;
  ce_tokenizer : Z;
  ce_present : bool;
}.

(** [identity.map_or((false, 0, 0), ..)]. *)
Definition unpack (identity : option EpochIdentity) : bool * Z * Z :=
  match identity with
  | Some identity => (true, ei_embedding identity, ei_tokenizer identity)
  | None => (false, 0, 0)
  end.

(** [EpochAliasCell::new]. *)
Definition cell_new (identity : option EpochIdentity) : Cell :=
  let '(present, embedding, tokenizer) := unpack identity in
  {| ce_sequence := 0; ce_embedding := embedding; ce_tokenizer := tokenizer;
     ce_present := present |}.

(** [fetch_add(1)] on the sequence. *)
Definition bump_sequence (c : Cell) : Cell :=
  {| ce_sequence := (ce_sequence c + 1) `mod` 2 ^ 64; ce_embedding := ce_embedding c;
     ce_tokenizer := ce_tokenizer c; ce_present := ce_present c |}.
Definition set_embedding (z : Z) (c : Cell) : Cell :=
  {| ce_sequence := ce_sequence c; ce_embedding := z;
     ce_tokenizer := ce_tokenizer c; ce_present := ce_present c |}.
Definition set_tokenizer (z : Z) (c : Cell) : Cell :=
  {| ce_sequence := ce_sequence c; ce_embedding := ce_embedding c;
     ce_tokenizer := z; ce_present := ce_present c |}.
Definition set_present (b : bool) (c : Cell) : Cell :=
  {| ce_sequence := ce_sequence c; ce_embedding := ce_embedding c;
     ce_tokenizer := ce_tokenizer c; ce_present := b |}.

(** Where the writer is in [store]. *)
Inductive WriterPc : Type :=
| WIdle
| WBegun (identity : option EpochIdentity)
| WEmbedding (identity : option EpochIdentity)
| WTokenizer (identity : option EpochIdentity)
| WPresent (identity : option EpochIdentity).

(** Where a reader is in its turn of [load]'s loop, with the locals it holds. *)
Inductive ReaderPc : Type :=
| RStart
| RPresent (before : Z)
| REmbedding (before : Z) (present : bool)
| RTokenizer (before : Z) (present : bool) (embedding : Z)
| RCheck (before : Z) (present : bool) (embedding tokenizer : Z)
| RDone (identity : option EpochIdentity).

(** [al_history] is a ghost: every value the cell has published, the initial one
    first. *)
Record AliasSystem : Type := {
  al_cell : Cell;
  al_writer : WriterPc;
  al_readers : gmap nat ReaderPc;
  al_history : list (option EpochIdentity);
}.

(** ** Steps *)

(** One atomic access of [store]. *)
Definition writer_step (c : Cell) (pc : WriterPc) : Cell * WriterPc :=
  match pc with
  | WIdle => (c, WIdle)
  | WBegun i => (set_embedding (unpack i).1.2 c, WEmbedding i)
  | WEmbedding i => (set_tokenizer (unpack i).2 c, WTokenizer i)
  | WTokenizer i => (set_present (unpack i).1.1 c, WPresent i)
  | WPresent i => (bump_sequence c, WIdle)
  end.

(** One atomic access of [load]; a reader that saw an odd or a changed sequence
    starts over. *)
Definition reader_step (c : Cell) (pc : ReaderPc) : ReaderPc :=
  match pc with
  | RStart => if Z.even (ce_sequence c) then RPresent (ce_sequence c) else RStart
  | RPresent before => REmbedding before (ce_present c)
  | REmbedding before present => RTokenizer before present (ce_embedding c)
  | RTokenizer before present embedding => RCheck before present embedding (ce_tokenizer c)
  | RCheck before present embedding tokenizer =>
      if before =? ce_sequence c
      then RDone (if present
                  then Some {| ei_embedding := embedding; ei_tokenizer := tokenizer |}
                  else None)
      else RStart
  | RDone identity => RDone identity
  end.

Inductive AliasStep : AliasSystem → AliasSystem → Prop :=
| alias_store_begin sys i :
    al_writer sys = WIdle →
    AliasStep sys {| al_cell := bump_sequence (al_cell sys); al_writer := WBegun i;
                     al_readers := al_readers sys; al_history := al_history sys |}
| alias_store sys c pc :
    al_writer sys ≠ WIdle → writer_step (al_cell sys) (al_writer sys) = (c, pc) →
    AliasStep sys {| al_cell := c; al_writer := pc; al_readers := al_readers sys;
                     al_history :=
                       match al_writer sys with
                       | WPresent i => al_history sys ++ [i]
                       | _ => al_history sys
                       end |}
| alias_load_begin sys t :
    AliasStep sys {| al_cell := al_cell sys; al_writer := al_writer sys;
                     al_readers := <[t := RStart]> (al_readers sys);
                     al_history := al_history sys |}
| alias_load sys t pc :
    al_readers sys !! t = Some pc →
    AliasStep sys {| al_cell := al_cell sys; al_writer := al_writer sys;
                     al_readers := <[t := reader_step (al_cell sys) pc]> (al_readers sys);
                     al_history := al_history sys |}.

Inductive alias_reachable (initial : option EpochIdentity) : AliasSystem → Prop :=
| alias_start :
    alias_reachable initial {| al_cell := cell_new initial; al_writer := WIdle;
                               al_readers := ∅; al_history := [initial] |}
| alias_next sys sys' :
    alias_reachable initial sys → AliasStep sys sys' → alias_reachable initial sys'.

(** ** The invariant *)

(** The cell holds exactly [i]. *)
Definition holds (c : Cell) (i : option EpochIdentity) : Prop :=
  ce_present c = (unpack i).1.1 ∧ ce_embedding c = (unpack i).1.2
  ∧ ce_tokenizer c = (unpack i).2.

(** What the writer has stored so far of the value it is publishing. *)
Definition writer_ok (sys : AliasSystem) : Prop :=
  let c := al_cell sys in
  match al_writer sys with
  | WIdle => ∃ i, last (al_history sys) = Some i ∧ holds c i
  | WBegun _ => True
  | WEmbedding i => ce_embedding c = (unpack i).1.2
  | WTokenizer i => ce_embedding c = (unpack i).1.2 ∧ ce_tokenizer c = (unpack i).2
  | WPresent i => holds c i
  end.

(** The sequence counts two per publication, one more while a store runs. *)
Definition sequence_ok (sys : AliasSystem) : Prop :=
  ce_sequence (al_cell sys)
  = 2 * (len (al_history sys) - 1) + (match al_writer sys with WIdle => 0 | _ => 1 end).

(** A reader whose [before] is still the sequence holds fields of the value
    published then. *)
Definition reader_ok (sys : AliasSystem) (pc : ReaderPc) : Prop :=
  let s := ce_sequence (al_cell sys) in
  let at_ before (P : option EpochIdentity → Prop) :=
    Z.even before = true ∧ before ≤ s
    ∧ (before = s → ∃ i, last (al_history sys) = Some i ∧ P i) in
  match pc with
  | RStart => True
  | RPresent before => at_ before (λ _, True)
  | REmbedding before p => at_ before (λ i, p = (unpack i).1.1)
  | RTokenizer before p e => at_ before (λ i, p = (unpack i).1.1 ∧ e = (unpack i).1.2)
  | RCheck before p e t =>
      at_ before (λ i, p = (unpack i).1.1 ∧ e = (unpack i).1.2 ∧ t = (unpack i).2)
  | RDone i => i ∈ al_history sys
  end.

Record alias_inv (sys : AliasSystem) : Prop := {
  ai_history : al_history sys ≠ [];
  ai_sequence : sequence_ok sys;
  ai_writer : writer_ok sys;
  ai_readers : ∀ t pc, al_readers sys !! t = Some pc → reader_ok sys pc;
}.

(** An even sequence means no store is running. *)
Lemma even_idle sys :
  sequence_ok sys → Z.even (ce_sequence (al_cell sys)) = true → al_writer sys = WIdle.
Proof.
  unfold sequence_ok. intros -> H. rewrite Z.even_add, Z.even_mul in H.
  by destruct (al_writer sys).
Qed.

Lemma bump_small c : 0 ≤ ce_sequence c < 2 ^ 64 - 1 →
  ce_sequence (bump_sequence c) = ce_sequence c + 1.
Proof. intros H. cbn. apply Z.mod_small. lia. Qed.

(** A reader's knowledge survives any step that does not return the sequence to
    its [before]. *)
Lemma reader_ok_mono sys sys' pc :
  reader_ok sys pc → ce_sequence (al_cell sys) ≤ ce_sequence (al_cell sys') →
  al_history sys `prefix_of` al_history sys' →
  (ce_sequence (al_cell sys') = ce_sequence (al_cell sys) → al_history sys' = al_history sys) →
  reader_ok sys' pc.
Proof.
  intros H Hs Hh Heq.
  assert (∀ before (P : option EpochIdentity → Prop),
    Z.even before = true ∧ before ≤ ce_sequence (al_cell sys)
    ∧ (before = ce_sequence (al_cell sys) → ∃ i, last (al_history sys) = Some i ∧ P i) →
    Z.even before = true ∧ before ≤ ce_sequence (al_cell sys')
    ∧ (before = ce_sequence (al_cell sys') → ∃ i, last (al_history sys') = Some i ∧ P i)) as Hm.
  { intros before P (A & B & C). split_and!; [done|lia|]. intros ->.
    rewrite Heq by lia. apply C. lia. }
  destruct pc; cbn [reader_ok] in *; [done|by apply Hm..|].
  destruct Hh as [k ->]. by apply elem_of_app; left.
Qed.

Lemma alias_inv_start initial :
  alias_inv {| al_cell := cell_new initial; al_writer := WIdle; al_readers := ∅;
               al_history := [initial] |}.
Proof.
  split; cbn.
  - done.
  - unfold sequence_ok, cell_new. cbn. destruct (unpack initial) as [[? ?] ?]. done.
  - unfold writer_ok. cbn. exists initial. split; [done|]. unfold holds, cell_new.
    by destruct (unpack initial) as [[? ?] ?].
  - intros t pc H. by rewrite lookup_empty in H.
Qed.

Lemma sequence_bound sys :
  alias_inv sys → len (al_history sys) < 2 ^ 63 →
  0 ≤ ce_sequence (al_cell sys) < 2 ^ 64 - 1.
Proof.
  intros [Hh Hs _ _] Hb. unfold sequence_ok in Hs.
  assert (1 ≤ len (al_history sys)).
  { destruct (al_history sys); [done|]. rewrite len_cons. pose proof (len_nonneg l). lia. }
  destruct (al_writer sys); lia.
Qed.

Lemma alias_inv_store_begin sys i :
  alias_inv sys → len (al_history sys) < 2 ^ 63 → al_writer sys = WIdle →
  alias_inv {| al_cell := bump_sequence (al_cell sys); al_writer := WBegun i;
               al_readers := al_readers sys; al_history := al_history sys |}.
Proof.
  intros Hi Hb Hw. pose proof (bump_small _ (sequence_bound _ Hi Hb)) as Hbump.
  destruct Hi as [Hh Hs Hwr Hr]. split; [done| |done|].
  - unfold sequence_ok in *. rewrite Hw in Hs. cbn [al_cell al_writer al_history]. lia.
  - intros t pc Ht. apply (reader_ok_mono sys); [by eapply Hr|cbn [al_cell]; lia|done|].
    cbn [al_cell]. lia.
Qed.

Lemma alias_inv_store sys c pc :
  alias_inv sys → len (al_history sys) < 2 ^ 63 → al_writer sys ≠ WIdle →
  writer_step (al_cell sys) (al_writer sys) = (c, pc) →
  alias_inv {| al_cell := c; al_writer := pc; al_readers := al_readers sys;
               al_history := match al_writer sys with
                             | WPresent i => al_history sys ++ [i]
                             | _ => al_history sys
                             end |}.
Proof.
  intros Hi Hb Hw Hstep. pose proof (bump_small _ (sequence_bound _ Hi Hb)) as Hbump.
  destruct Hi as [Hh Hs Hwr Hr]. unfold sequence_ok, writer_ok in *.
  destruct (al_writer sys) as [|i|i|i|i] eqn:E; [done|..]; injection Hstep as <- <-.
  all: split; [try done; by intros [? _]%app_eq_nil|unfold sequence_ok; cbn [al_cell al_writer al_history];
    rewrite ?len_app; try done|unfold writer_ok; cbn [al_cell al_writer al_history]; try done|].
  all: try (intros t pc Ht; apply (reader_ok_mono sys); [by eapply Hr|cbn [al_cell]; first [done|lia]
    |cbn [al_history]; first [done|by apply prefix_app_r]|cbn [al_cell]; first [done|lia]]).
  - rewrite len_cons, len_nil. lia.
  - exists i. rewrite last_snoc. done.
Qed.

Lemma alias_inv_load sys t pc :
  alias_inv sys → al_readers sys !! t = Some pc →
  alias_inv {| al_cell := al_cell sys; al_writer := al_writer sys;
               al_readers := <[t := reader_step (al_cell sys) pc]> (al_readers sys);
               al_history := al_history sys |}.
Proof.
  intros [Hh Hs Hwr Hr] Ht. split; [done|done|done|]. cbn [al_readers].
  intros t' pc' H'. apply lookup_insert_Some in H' as [[-> <-]|[_ H']]; [|by eapply Hr].
  specialize (Hr _ _ Ht).
  assert (Z.even (ce_sequence (al_cell sys)) = true →
          ∃ i, last (al_history sys) = Some i ∧ holds (al_cell sys) i) as Hidle.
  { intros He. apply even_idle in He; [|done]. unfold writer_ok in Hwr. by rewrite He in Hwr. }
  destruct pc as [|b|b p|b p e|b p e k|i]; cbn [reader_step reader_ok al_cell al_history] in *.
  - destruct (Z.even _) eqn:He; [|done]. cbn [reader_ok al_cell al_history].
    split_and!; [done|lia|]. intros _. destruct (Hidle eq_refl) as (i & Hi & _). by exists i.
  - destruct Hr as (A & B & C). split_and!; [done|done|]. intros E. rewrite E in A.
    destruct (Hidle A) as (i & Hi & (P & _)). by exists i.
  - destruct Hr as (A & B & C). split_and!; [done|done|]. intros E. rewrite E in A.
    destruct (Hidle A) as (i & Hi & (P & Q & _)). destruct (C E) as (i' & Hi' & ->).
    rewrite Hi in Hi'. injection Hi' as <-. by exists i.
  - destruct Hr as (A & B & C). split_and!; [done|done|]. intros E. rewrite E in A.
    destruct (Hidle A) as (i & Hi & (P & Q & R)). destruct (C E) as (i' & Hi' & -> & ->).
    rewrite Hi in Hi'. injection Hi' as <-. by exists i.
  - destruct Hr as (A & B & C). destruct (Z.eqb_spec b (ce_sequence (al_cell sys))) as [E|]; [|done].
    destruct (C E) as (i & Hi & -> & -> & ->). cbn [reader_ok al_history].
    apply last_Some_elem_of in Hi. destruct i as [[e t0]|]; done.
  - done.
Qed.

Lemma alias_inv_reachable initial sys :
  alias_reachable initial sys → len (al_history sys) < 2 ^ 63 → alias_inv sys.
Proof.
  induction 1 as [|sys sys' _ IH Hs]; intros Hb; [apply alias_inv_start|].
  destruct Hs as [sys i Hw|sys c pc Hw Hst|sys t|sys t pc Ht]; cbn [al_history] in Hb.
  - by apply alias_inv_store_begin; [apply IH|..].
  - assert (len (al_history sys) < 2 ^ 63) as Hb'
      by (destruct (al_writer sys); try done; rewrite len_app in Hb; len_lia).
    by apply alias_inv_store; [apply IH|..].
  - destruct (IH Hb) as [Hh Hs Hwr Hr]. split; [done..|]. cbn [al_readers].
    intros t' pc' H'. apply lookup_insert_Some in H' as [[-> <-]|[_ H']]; [done|by eapply Hr].
  - by apply alias_inv_load; [apply IH|].
Qed.

(** C35: Under sequentially consistent interleavings of one writer and any number of
    readers, every load of the epoch alias returns an identity that was stored
    whole, and a load that runs while no store is in progress returns the latest one
    in five steps. *)
Theorem alias_load_never_torn (initial : option EpochIdentity) (sys : AliasSystem) :
  alias_reachable initial sys → len (al_history sys) < 2 ^ 63 →
  (∀ t i, al_readers sys !! t = Some (RDone i) → i ∈ al_history sys)
  ∧ (al_writer sys = WIdle →
     ∃ i, last (al_history sys) = Some i
          ∧ Nat.iter 5 (reader_step (al_cell sys)) RStart = RDone i).
Proof.
  intros Hr Hb. pose proof (alias_inv_reachable _ _ Hr Hb) as Hi. split.
  - intros t i Ht. apply (ai_readers _ Hi _ _ Ht).
  - intros Hw. destruct Hi as [Hh Hs Hwr _]. unfold writer_ok in Hwr. rewrite Hw in Hwr.
    destruct Hwr as (i & Hl & (P & Q & R)). exists i. split; [done|].
    unfold sequence_ok in Hs. rewrite Hw in Hs.
    assert (Z.even (ce_sequence (al_cell sys)) = true) as He
      by (rewrite Hs, Z.even_add, Z.even_mul; done).
    cbn [Nat.iter nat_rect reader_step]. rewrite He. cbn [reader_step].
    rewrite Z.eqb_refl, P, Q, R. by destruct i as [[]|].
Qed.

(** Two stores, a reader started during the first and finished after it. *)
Definition sample_identity : EpochIdentity := {| ei_embedding := 7; ei_tokenizer := 9 |}.

Lemma alias_load_never_torn_witness :
  ∃ sys, alias_reachable None sys ∧ al_writer sys = WIdle
         ∧ ∃ i, last (al_history sys) = Some i
                ∧ Nat.iter 5 (reader_step (al_cell sys)) RStart = RDone i.
Proof.
  set (s0 := {| al_cell := cell_new None; al_writer := WIdle; al_readers := ∅;
                al_history := [None] |}).
  assert (alias_reachable None s0) as H0 by apply alias_start.
  assert (H1 := alias_next _ _ _ H0 (alias_store_begin s0 (Some sample_identity) eq_refl)).
  eassert (alias_reachable None _) as H2
    by (eapply alias_next; [exact H1|eapply alias_store; [discriminate|reflexivity]]).
  eassert (alias_reachable None _) as H3
    by (eapply alias_next; [exact H2|eapply alias_store; [discriminate|reflexivity]]).
  eassert (alias_reachable None _) as H4
    by (eapply alias_next; [exact H3|eapply alias_store; [discriminate|reflexivity]]).
  eassert (alias_reachable None _) as H5
    by (eapply alias_next; [exact H4|eapply alias_store; [discriminate|reflexivity]]).
  eexists. split; [exact H5|]. split; [reflexivity|].
  apply (alias_load_never_torn None _ H5); by_compute.
Defined.
