(* ===== verification/Manifest.v ===== *)
(** * The manifest codec

    Models [crates/zeppelin-embed/src/manifest/mod.rs] (the build without the
    [graph-cypher] feature): [Manifest], [encode_manifest], [decode_manifest]
    with its [ManifestCursor], and [validate_epoch_references]; and
    [SegmentMeta] and [ClusteringKeyRange] of [segment/mod.rs].

    A [Decode] error carries the constant part of its message; the values the
    code interpolates into it are not modelled. *)

From S2P Require Import Prelude Format Cursor Schema Epoch.

(** ** Data *)

(** [segment::ClusteringKeyRange]. *)
Inductive ClusteringKeyRange : Type :=
| Unstamped
| EmptyRange
| Bounded (min_ts max_ts : Z).

#[export] Instance ClusteringKeyRange_eq_dec : EqDecision ClusteringKeyRange.
Proof. solve_decision. Defined.

(** [segment::SegmentMeta]; a [SegmentId] is its 16 bytes. *)
Record SegmentMeta : Type := {
  sm_id : bytes;
  sm_row_count : Z;
  sm_scheme : Z;
  sm_dims : Z;
  sm_file_size : Z;
  sm_epoch_id : option EpochId;
  sm_clustering_key_range : ClusteringKeyRange;
}.

#[export] Instance SegmentMeta_eq_dec : EqDecision SegmentMeta.
Proof. solve_decision. Defined.

(** [SegmentMeta::same_segment_file]. *)
Definition same_segment_file (a b : SegmentMeta) : bool :=
  bool_decide (sm_id a = sm_id b) && (sm_row_count a =? sm_row_count b)
  && (sm_scheme a =? sm_scheme b) && (sm_dims a =? sm_dims b)
  && (sm_file_size a =? sm_file_size b).

Record Manifest : Type := {
  mf_generation : Z;
  mf_log_seq : Z;
  mf_segments : list SegmentMeta;
  mf_epochs : list EpochMeta;
  mf_epoch_alias : option EpochIdentity;
  mf_schema : Schema;
}.

#[export] Instance Manifest_eq_dec : EqDecision Manifest.
Proof. solve_decision. Defined.

(** [Segment] stands for the nested [SegmentError]. *)
Inductive ManifestError : Type :=
| ManifestIo (path : string) (kind : ErrorKind)
| ManifestFormat (error : FormatError)
| ManifestDecode (detail : string)
| GraphUnsupportedBuild
| AheadOfLog (snapshot durable : Z)
| ManifestSegment
| UnknownEpochAlias (alias : EpochIdentity)
| UnknownSegmentEpoch (segment : bytes) (epoch : EpochId).

(** ** Epoch references *)

Section Validate.
Context {X : Xxh3}.

(** The registry loop: [identities] is the set built so far. *)
Fixpoint collect_identities (identities : list EpochIdentity) (epochs : list EpochMeta)
    : result ManifestError (list EpochIdentity) :=
  match epochs with
  | [] => Ok identities
  | epoch :: epochs =>
      identity ← map_err (λ _, ManifestDecode "persisted embedding epoch id does not match")
                   (identity_from_meta epoch);
      if bool_decide (identity ∈ identities)
      then Err (ManifestDecode "duplicate epoch registry identity")
      else collect_identities (identities ++ [identity]) epochs
  end.

Definition check_alias (identities : list EpochIdentity) (alias : option EpochIdentity)
    : result ManifestError unit :=
  match alias with
  | Some alias =>
      if bool_decide (alias ∈ identities) then Ok tt else Err (UnknownEpochAlias alias)
  | None =>
      match identities with
      | [] => Ok tt
      | _ => Err (ManifestDecode "non-empty epoch registry has no published alias")
      end
  end.

Fixpoint check_segments (identities : list EpochIdentity) (segments : list SegmentMeta)
    : result ManifestError unit :=
  match segments with
  | [] => Ok tt
  | segment :: segments =>
      _ ← match sm_epoch_id segment with
          | Some epoch =>
              if existsb (λ identity, ei_embedding identity =? epoch) identities
              then Ok tt else Err (UnknownSegmentEpoch (sm_id segment) epoch)
          | None =>
              match identities with
              | [] => Ok tt
              | _ => Err (ManifestDecode "segment has no embedding epoch tag")
              end
          end;
      check_segments identities segments
  end.

Definition validate_epoch_references (manifest : Manifest) : result ManifestError unit :=
  identities ← collect_identities [] (mf_epochs manifest);
  _ ← check_alias identities (mf_epoch_alias manifest);
  check_segments identities (mf_segments manifest).
End Validate.

(** ** Encoding *)

(** [b"TSR1"]. *)
Definition CLUSTERING_RANGE_EXTENSION_MAGIC : bytes :=
  [Byte.x54; Byte.x53; Byte.x52; Byte.x31].
Definition CLUSTERING_RANGE_RECORD_LEN : Z := 24.

(** [[0_u8; n]]. *)
Definition zeros (n : nat) : bytes := replicate n Byte.x00.

Definition append_u32_len (length : Z) (output : bytes) : result ManifestError bytes :=
  value ← ok_or (try_from u32_max length) (ManifestDecode "length exceeds u32");
  Ok (output ++ u32_le value).

Definition append_bytes (value output : bytes) : result ManifestError bytes :=
  output ← append_u32_len (len value) output;
  Ok (output ++ value).

Definition append_optional_identity (identity : option EpochIdentity) (output : bytes) : bytes :=
  let '(tag, embedding, tokenizer) :=
    match identity with
    | Some identity => (Byte.x01, ei_embedding identity, ei_tokenizer identity)
    | None => (Byte.x00, 0, 0)
    end in
  output ++ [tag] ++ zeros 7 ++ u64_le embedding ++ u64_le tokenizer.

Definition append_optional_epoch_id (epoch : option EpochId) (output : bytes) : bytes :=
  let '(tag, value) :=
    match epoch with Some epoch => (Byte.x01, epoch) | None => (Byte.x00, 0) end in
  output ++ [tag] ++ zeros 7 ++ u64_le value.

Definition append_segment (segment : SegmentMeta) (output : bytes) : bytes :=
  append_optional_epoch_id (sm_epoch_id segment)
    (output ++ sm_id segment ++ u32_le (sm_row_count segment) ++ u16_le (sm_scheme segment)
     ++ u16_le 0 ++ u32_le (sm_dims segment) ++ u64_le (sm_file_size segment)).

Definition append_embedding_tower (tower : EmbeddingTower) (output : bytes)
    : result ManifestError bytes :=
  output ← append_bytes (tw_model_id tower) output;
  output ← append_bytes (tw_model_version tower) output;
  output ← append_bytes (tw_weights_digest tower) output;
  let output := output ++ u32_le (tw_dims tower)
                  ++ u16_le (normalization_id (tw_normalization tower)) in
  output ← append_bytes (tw_prompt_prefix tower) output;
  let output := output ++ u32_le (tw_max_tokens tower)
                  ++ u16_le (runtime_id (tw_runtime tower))
                  ++ u16_le (compute_units_id (tw_compute_units tower)) in
  match tw_os_build tower with
  | Some build => append_bytes build (output ++ [Byte.x01] ++ zeros 3)
  | None => Ok (output ++ [Byte.x00] ++ zeros 3)
  end.

Definition append_embedding_epoch (epoch : EmbeddingEpoch) (output : bytes)
    : result ManifestError bytes :=
  output ← append_embedding_tower (ee_document epoch) output;
  output ← append_embedding_tower (ee_query epoch) output;
  append_bytes (ee_alignment_digest epoch) output.

Definition append_epoch (epoch : EpochMeta) (output : bytes) : result ManifestError bytes :=
  append_embedding_epoch (em_embedding epoch)
    (output ++ u64_le (em_id epoch) ++ u64_le (em_tokenizer epoch)).

Definition column_type_id (column_type : ColumnType) : Z :=
  match column_type with
  | Id128 => 7 | U64 => 1 | I64 => 2 | F64 => 3 | Bool => 4
  | DictionaryString => 5 | RawString => 6
  end.

Definition column_type_from_id (id : Z) : result ManifestError ColumnType :=
  match id with
  | 7 => Ok Id128 | 1 => Ok U64 | 2 => Ok I64 | 3 => Ok F64 | 4 => Ok Bool
  | 5 => Ok DictionaryString | 6 => Ok RawString
  | _ => Err (ManifestDecode "unknown column type")
  end.

Definition append_definition (definition : ColumnDefinition) (output : bytes)
    : result ManifestError bytes :=
  append_bytes (cd_name definition)
    (output ++ u32_le (cd_id definition) ++ u16_le (column_type_id (cd_column_type definition))
     ++ u16_le (if cd_nullable definition then 1 else 0)).

Definition append_range (segment : SegmentMeta) (output : bytes) : result ManifestError bytes :=
  '(tag, min_ts, max_ts) ←
    match sm_clustering_key_range segment with
    | Unstamped => Ok (Byte.x00, 0, 0)
    | EmptyRange => Ok (Byte.x01, 0, 0)
    | Bounded min_ts max_ts =>
        if max_ts <? min_ts then Err (ManifestDecode "segment clustering range is inverted")
        else Ok (Byte.x02, min_ts, max_ts)
    end;
  Ok (output ++ [tag] ++ zeros 7 ++ i64_le min_ts ++ i64_le max_ts).

(** A [for] loop that appends each item. *)
Fixpoint append_all {A} (append : A → bytes → result ManifestError bytes) (items : list A)
    (output : bytes) : result ManifestError bytes :=
  match items with
  | [] => Ok output
  | item :: items => output ← append item output; append_all append items output
  end.

Definition append_clustering_ranges (segments : list SegmentMeta) (output : bytes)
    : result ManifestError bytes :=
  if forallb (λ segment, bool_decide (sm_clustering_key_range segment = Unstamped)) segments
  then Ok output
  else
  output ← append_u32_len (len segments) (output ++ CLUSTERING_RANGE_EXTENSION_MAGIC);
  append_all append_range segments output.

Section Encode.
Context {X : Xxh3}.

Definition encode_manifest (manifest : Manifest) : result ManifestError bytes :=
  _ ← validate_epoch_references manifest;
  let payload := u64_le (mf_generation manifest) ++ u64_le (mf_log_seq manifest) in
  payload ← append_u32_len (len (mf_segments manifest)) payload;
  payload ← append_u32_len (len (mf_epochs manifest)) payload;
  payload ← append_u32_len (user_column_count (mf_schema manifest)) payload;
  let payload := payload ++ u32_le 0 in
  let payload := append_optional_identity (mf_epoch_alias manifest) payload in
  let payload := foldl (λ payload segment, append_segment segment payload) payload
                   (mf_segments manifest) in
  payload ← append_all append_epoch (mf_epochs manifest) payload;
  payload ← append_all append_definition (drop 1 (sc_columns (mf_schema manifest))) payload;
  payload ← append_clustering_ranges (mf_segments manifest) payload;
  Ok (encode_artifact_version ManifestFamily 2 0 payload).
End Encode.

(** ** The cursor *)

Abbreviation Parser := (CursorM ManifestError).

(** [ManifestCursor { bytes, position: 0 }]. *)
Definition ManifestCursor (payload : bytes) : Cursor :=
  {| cu_bytes := payload; cu_offset := 0 |}.

Definition c_take (length : Z) : Parser bytes :=
  cursor_take (ManifestDecode "payload offset overflow") (ManifestDecode "payload truncated")
    length.

Definition c_u8 : Parser byte :=
  raw ← c_take 1; lift (ok_or (head raw) (ManifestDecode "invalid u8")).
Definition c_u16 : Parser Z := raw ← c_take 2; mret (from_le raw).
Definition c_u32 : Parser Z := raw ← c_take 4; mret (from_le raw).
Definition c_u64 : Parser Z := raw ← c_take 8; mret (from_le raw).
Definition c_i64 : Parser Z := raw ← c_take 8; mret (i64_of_u64 (from_le raw)).

(** [self.take(n)?.iter().any(|byte| *byte != 0)] as a guard. *)
Definition c_reserved (n : Z) (detail : string) : Parser unit :=
  raw ← c_take n;
  if existsb (λ b, negb (bool_decide (b = Byte.x00))) raw then fail (ManifestDecode detail)
  else mret tt.

Definition c_usize_from_u32 : Parser Z :=
  n ← c_u32; lift (ok_or (try_from usize_max n) (ManifestDecode "u32 length exceeds usize")).

Definition c_string : Parser bytes :=
  length ← c_usize_from_u32;
  raw ← c_take length;
  if utf8_valid raw then mret raw else fail (ManifestDecode "invalid UTF-8").

Definition c_bytes : Parser bytes := length ← c_usize_from_u32; c_take length.

Definition c_finish : Parser unit := λ c,
  if cu_offset c =? len (cu_bytes c) then Ok (tt, c)
  else Err (ManifestDecode "trailing payload bytes").

Definition c_optional_identity : Parser (option EpochIdentity) :=
  tag ← c_u8;
  _ ← c_reserved 7 "epoch alias reserved bytes are non-zero";
  embedding ← c_u64;
  tokenizer ← c_u64;
  match tag with
  | Byte.x00 =>
      if (embedding =? 0) && (tokenizer =? 0) then mret None
      else fail (ManifestDecode "absent epoch alias carries non-zero identity bytes")
  | Byte.x01 => mret (Some {| ei_embedding := embedding; ei_tokenizer := tokenizer |})
  | _ => fail (ManifestDecode "unknown epoch alias presence tag")
  end.

Definition c_optional_epoch_id : Parser (option EpochId) :=
  tag ← c_u8;
  _ ← c_reserved 7 "segment epoch reserved bytes are non-zero";
  epoch ← c_u64;
  match tag with
  | Byte.x00 =>
      if epoch =? 0 then mret None
      else fail (ManifestDecode "absent segment epoch tag carries a non-zero id")
  | Byte.x01 => mret (Some epoch)
  | _ => fail (ManifestDecode "unknown segment epoch presence tag")
  end.

Definition c_embedding_tower : Parser EmbeddingTower :=
  model_id ← c_string;
  model_version ← c_string;
  weights_digest ← c_bytes;
  dims ← c_u32;
  normalization ← c_u16;
  normalization ← match normalization with
    | 0 => mret NormalizationNone
    | 1 => mret L2
    | _ => fail (ManifestDecode "unknown embedding normalization")
    end;
  prompt_prefix ← c_string;
  max_tokens ← c_u32;
  runtime ← c_u16;
  runtime ← match runtime with
    | 1 => mret CoreMl
    | 2 => mret Mlx
    | 3 => mret CpuReference
    | _ => fail (ManifestDecode "unknown embedding runtime")
    end;
  compute_units ← c_u16;
  compute_units ← match compute_units with
    | 1 => mret Cpu
    | 2 => mret CpuAndGpu
    | 3 => mret CpuAndNeuralEngine
    | 4 => mret AllUnits
    | _ => fail (ManifestDecode "unknown embedding compute units")
    end;
  os_tag ← c_u8;
  _ ← c_reserved 3 "embedding OS-build reserved bytes are non-zero";
  os_build ← match os_tag with
    | Byte.x00 => mret None
    | Byte.x01 => build ← c_string; mret (Some build)
    | _ => fail (ManifestDecode "unknown embedding OS-build presence tag")
    end;
  mret {| tw_model_id := model_id; tw_model_version := model_version;
          tw_weights_digest := weights_digest; tw_dims := dims;
          tw_normalization := normalization; tw_prompt_prefix := prompt_prefix;
          tw_max_tokens := max_tokens; tw_runtime := runtime;
          tw_compute_units := compute_units; tw_os_build := os_build |}.

Definition c_embedding_epoch : Parser EmbeddingEpoch :=
  document ← c_embedding_tower;
  query ← c_embedding_tower;
  alignment_digest ← c_bytes;
  mret {| ee_document := document; ee_query := query; ee_alignment_digest := alignment_digest |}.

(** ** Decoding *)

Definition c_segment : Parser SegmentMeta :=
  id ← c_take 16;
  row_count ← c_u32;
  scheme ← c_u16;
  _ ← lift (map_err (λ _, ManifestDecode "scheme") (require_scheme scheme));
  reserved ← c_u16;
  if negb (reserved =? 0) then fail (ManifestDecode "segment reserved field is non-zero")
  else
  dims ← c_u32;
  file_size ← c_u64;
  epoch_id ← c_optional_epoch_id;
  mret {| sm_id := id; sm_row_count := row_count; sm_scheme := scheme; sm_dims := dims;
          sm_file_size := file_size; sm_epoch_id := epoch_id;
          sm_clustering_key_range := Unstamped |}.

Definition c_epoch : Parser EpochMeta :=
  id ← c_u64;
  tokenizer ← c_u64;
  embedding ← c_embedding_epoch;
  mret {| em_id := id; em_embedding := embedding; em_tokenizer := tokenizer |}.

Definition c_definition : Parser ColumnDefinition :=
  id ← c_u32;
  type_id ← c_u16;
  column_type ← lift (column_type_from_id type_id);
  flag ← c_u16;
  nullable ← match flag with
    | 0 => mret false
    | 1 => mret true
    | _ => fail (ManifestDecode "invalid nullable flag")
    end;
  name ← c_string;
  mret {| cd_id := id; cd_name := name; cd_column_type := column_type;
          cd_nullable := nullable |}.

(** One segment's turn of the range loop. *)
Definition c_range (segment : SegmentMeta) : Parser SegmentMeta :=
  tag ← c_u8;
  _ ← c_reserved 7 "clustering range reserved bytes are non-zero";
  min_ts ← c_i64;
  max_ts ← c_i64;
  range ← match tag with
    | Byte.x00 =>
        if (min_ts =? 0) && (max_ts =? 0) then mret Unstamped
        else fail (ManifestDecode "clustering range tag requires zero bounds")
    | Byte.x01 =>
        if (min_ts =? 0) && (max_ts =? 0) then mret EmptyRange
        else fail (ManifestDecode "clustering range tag requires zero bounds")
    | Byte.x02 =>
        if min_ts <=? max_ts then mret (Bounded min_ts max_ts)
        else fail (ManifestDecode "clustering range is inverted")
    | _ => fail (ManifestDecode "unknown clustering range tag")
    end;
  mret {| sm_id := sm_id segment; sm_row_count := sm_row_count segment;
          sm_scheme := sm_scheme segment; sm_dims := sm_dims segment;
          sm_file_size := sm_file_size segment; sm_epoch_id := sm_epoch_id segment;
          sm_clustering_key_range := range |}.

Fixpoint c_ranges (segments : list SegmentMeta) : Parser (list SegmentMeta) :=
  match segments with
  | [] => mret []
  | segment :: segments =>
      segment ← c_range segment; segments ← c_ranges segments; mret (segment :: segments)
  end.

Definition decode_clustering_ranges (segments : list SegmentMeta) : Parser (list SegmentMeta) :=
  magic ← c_take (len CLUSTERING_RANGE_EXTENSION_MAGIC);
  if negb (bool_decide (magic = CLUSTERING_RANGE_EXTENSION_MAGIC))
  then fail (ManifestDecode "unknown manifest extension after schema")
  else
  count ← c_usize_from_u32;
  if negb (count =? len segments)
  then fail (ManifestDecode "clustering range count does not match segment count")
  else
  expected_bytes ← lift (ok_or (checked_mul usize_max count CLUSTERING_RANGE_RECORD_LEN)
                           (ManifestDecode "clustering range bytes overflow"));
  with_cursor (λ c,
    if remaining c <? expected_bytes
    then fail (ManifestDecode "clustering range extension is truncated")
    else c_ranges segments).

(** [tail.starts_with(&MAGIC)] on the bytes after the cursor. *)
Definition at_extension (c : Cursor) : bool :=
  match slice_from (cu_bytes c) (cu_offset c) with
  | Some tail =>
      bool_decide (take (length CLUSTERING_RANGE_EXTENSION_MAGIC) tail
                   = CLUSTERING_RANGE_EXTENSION_MAGIC)
  | None => false
  end.

(** The payload, up to the schema validation. *)
Definition c_manifest : Parser (Z * Z * list SegmentMeta * list EpochMeta
                                * option EpochIdentity * list ColumnDefinition) :=
  generation ← c_u64;
  log_seq ← c_u64;
  segment_count ← c_usize_from_u32;
  epoch_count ← c_usize_from_u32;
  schema_count ← c_usize_from_u32;
  reserved ← c_u32;
  if negb (reserved =? 0) then fail (ManifestDecode "manifest reserved field is non-zero")
  else
  epoch_alias ← c_optional_identity;
  segments ← repeat_parser (Z.to_nat segment_count) c_segment;
  epochs ← repeat_parser (Z.to_nat epoch_count) c_epoch;
  definitions ← repeat_parser (Z.to_nat schema_count) c_definition;
  segments ← with_cursor (λ c, if at_extension c then decode_clustering_ranges segments
                               else mret segments);
  _ ← c_finish;
  mret (generation, log_seq, segments, epochs, epoch_alias, definitions).

Section Decode.
Context {X : Xxh3}.

Definition decode_manifest (artifact : string) (b : bytes) : result ManifestError Manifest :=
  framed ← map_err ManifestFormat (decode_artifact artifact ManifestFamily b);
  if negb (fh_flags (da_header framed) =? 0)
  then Err (ManifestDecode "manifest flags are non-zero")
  else
  if fh_version (da_header framed) =? 3 then Err GraphUnsupportedBuild
  else
  '((generation, log_seq, segments, epochs, epoch_alias, definitions), _) ←
    c_manifest (ManifestCursor (da_payload framed));
  schema ← map_err (λ _, ManifestDecode "schema") (schema_new definitions);
  let manifest := {| mf_generation := generation; mf_log_seq := log_seq;
                     mf_segments := segments; mf_epochs := epochs;
                     mf_epoch_alias := epoch_alias; mf_schema := schema |} in
  _ ← validate_epoch_references manifest;
  Ok manifest.
End Decode.
