(* ===== verification/ManifestCodec.v ===== *)
(** * Round trip of the manifest codec

    [encode_manifest] followed by [decode_manifest] returns the manifest, for
    every manifest whose fields have their Rust types' ranges and whose epoch
    references validate ([manifest_roundtrip]).. *)

From S2P Require Import Prelude Format Cursor Schema Epoch Manifest.

(** ** Reading what was written *)

Lemma reads_u8 b : reads c_u8 [b] b.
Proof. eapply (reads_bind _ _ [b] []); [by apply reads_take|by apply reads_lift]. Qed.

Lemma reads_u16 z : is_u16 z → reads c_u16 (u16_le z) z.
Proof.
  intros H. rewrite <- (from_u16_le z H) at 2. unfold c_u16.
  apply (reads_bind_ret _ from_le). apply reads_take. by rewrite len_u16_le.
Qed.

Lemma reads_u32 z : is_u32 z → reads c_u32 (u32_le z) z.
Proof.
  intros H. rewrite <- (from_u32_le z H) at 2. unfold c_u32.
  apply (reads_bind_ret _ from_le). apply reads_take. by rewrite len_u32_le.
Qed.

Lemma reads_u64 z : is_u64 z → reads c_u64 (u64_le z) z.
Proof.
  intros H. rewrite <- (from_u64_le z H) at 2. unfold c_u64.
  apply (reads_bind_ret _ from_le). apply reads_take. by rewrite len_u64_le.
Qed.

Lemma reads_i64 z : is_i64 z → reads c_i64 (i64_le z) z.
Proof.
  intros H. rewrite <- (from_i64_le z H) at 2. unfold c_i64.
  apply (reads_bind_ret _ (λ raw, i64_of_u64 (from_le raw))). apply reads_take.
  by rewrite len_i64_le.
Qed.

Lemma reads_usize z : is_u32 z → reads c_usize_from_u32 (u32_le z) z.
Proof.
  intros H. unfold c_usize_from_u32. rewrite <- (app_nil_r (u32_le z)).
  eapply reads_bind; [by apply reads_u32|]. apply reads_lift.
  unfold try_from, is_u32, u32_max, usize_max, u64_max in *. decide_Z. done.
Qed.

Lemma reads_zeros n k detail : Z.of_nat k = n → reads (c_reserved n detail) (zeros k) tt.
Proof.
  intros H. unfold c_reserved. rewrite <- (app_nil_r (zeros k)).
  eapply reads_bind.
  - apply reads_take. unfold zeros, len. by rewrite length_replicate.
  - assert (existsb (λ b, negb (bool_decide (b = Byte.x00))) (zeros k) = false) as ->.
    { clear H. induction k; [done|]. cbn. by rewrite bool_decide_true. }
    apply reads_ret.
Qed.

Lemma reads_string v : len v ≤ u32_max → utf8_valid v = true → reads c_string (field v) v.
Proof.
  intros Hl Hu. unfold c_string, field. pose proof (len_nonneg v).
  eapply reads_bind; [by apply reads_usize|]. rewrite <- (app_nil_r v) at 2.
  eapply reads_bind; [by apply reads_take|]. rewrite Hu. apply reads_ret.
Qed.

Lemma reads_bytes v : len v ≤ u32_max → reads c_bytes (field v) v.
Proof.
  intros Hl. unfold c_bytes, field. pose proof (len_nonneg v).
  eapply reads_bind; [by apply reads_usize|]. by apply reads_take.
Qed.

#[export] Hint Resolve reads_u8 reads_u16 reads_u32 reads_u64 reads_i64 reads_usize reads_string
  reads_bytes : zep.

(** ** Ranges of the fields *)

Record segment_ok (s : SegmentMeta) : Prop := {
  sg_id : len (sm_id s) = 16;
  sg_row_count : is_u32 (sm_row_count s);
  sg_scheme : is_u16 (sm_scheme s);
  sg_known : require_scheme (sm_scheme s) = Ok tt;
  sg_dims : is_u32 (sm_dims s);
  sg_size : is_u64 (sm_file_size s);
  sg_epoch : ∀ e, sm_epoch_id s = Some e → is_u64 e;
  sg_range : match sm_clustering_key_range s with
             | Bounded lo hi => is_i64 lo ∧ is_i64 hi ∧ lo ≤ hi
             | _ => True
             end;
}.

Definition tower_utf8 (t : EmbeddingTower) : Prop :=
  utf8_valid (tw_model_id t) = true ∧ utf8_valid (tw_model_version t) = true
  ∧ utf8_valid (tw_prompt_prefix t) = true
  ∧ ∀ b, tw_os_build t = Some b → utf8_valid b = true.

Record epoch_meta_ok (e : EpochMeta) : Prop := {
  mo_id : is_u64 (em_id e);
  mo_tokenizer : is_u64 (em_tokenizer e);
  mo_embedding : epoch_ok (em_embedding e);
  mo_document : tower_utf8 (ee_document (em_embedding e));
  mo_query : tower_utf8 (ee_query (em_embedding e));
}.

Record definition_ok (d : ColumnDefinition) : Prop := {
  do_id : is_u32 (cd_id d);
  do_name : len (cd_name d) ≤ u32_max;
  do_utf8 : utf8_valid (cd_name d) = true;
}.

Record manifest_ok (m : Manifest) : Prop := {
  ma_generation : is_u64 (mf_generation m);
  ma_log_seq : is_u64 (mf_log_seq m);
  ma_segments : Forall segment_ok (mf_segments m);
  ma_segment_count : len (mf_segments m) ≤ u32_max;
  ma_epochs : Forall epoch_meta_ok (mf_epochs m);
  ma_epoch_count : len (mf_epochs m) ≤ u32_max;
  ma_alias : ∀ i, mf_epoch_alias m = Some i → is_u64 (ei_embedding i) ∧ is_u64 (ei_tokenizer i);
  ma_schema : ∃ cols, schema_new cols = Ok (mf_schema m);
  ma_columns : Forall definition_ok (sc_columns (mf_schema m));
  ma_column_count : len (sc_columns (mf_schema m)) ≤ u32_max;
}.

(** ** The encodings *)

Definition alias_bytes (i : option EpochIdentity) : bytes := append_optional_identity i [].
Definition segment_bytes (s : SegmentMeta) : bytes := append_segment s [].

Definition manifest_tower_bytes (t : EmbeddingTower) : bytes :=
  field (tw_model_id t) ++ field (tw_model_version t) ++ field (tw_weights_digest t)
  ++ u32_le (tw_dims t) ++ u16_le (normalization_id (tw_normalization t))
  ++ field (tw_prompt_prefix t) ++ u32_le (tw_max_tokens t)
  ++ u16_le (runtime_id (tw_runtime t)) ++ u16_le (compute_units_id (tw_compute_units t))
  ++ match tw_os_build t with
     | Some b => [Byte.x01] ++ zeros 3 ++ field b
     | None => [Byte.x00] ++ zeros 3 ++ []
     end.

Definition epoch_bytes (e : EpochMeta) : bytes :=
  u64_le (em_id e) ++ u64_le (em_tokenizer e)
  ++ manifest_tower_bytes (ee_document (em_embedding e))
  ++ manifest_tower_bytes (ee_query (em_embedding e))
  ++ field (ee_alignment_digest (em_embedding e)).

Definition definition_bytes (d : ColumnDefinition) : bytes :=
  u32_le (cd_id d) ++ u16_le (column_type_id (cd_column_type d))
  ++ u16_le (if cd_nullable d then 1 else 0) ++ field (cd_name d).

Definition range_bytes (s : SegmentMeta) : bytes :=
  match sm_clustering_key_range s with
  | Unstamped => [Byte.x00] ++ zeros 7 ++ i64_le 0 ++ i64_le 0
  | EmptyRange => [Byte.x01] ++ zeros 7 ++ i64_le 0 ++ i64_le 0
  | Bounded lo hi => [Byte.x02] ++ zeros 7 ++ i64_le lo ++ i64_le hi
  end.

Definition all_unstamped (segments : list SegmentMeta) : bool :=
  forallb (λ s, bool_decide (sm_clustering_key_range s = Unstamped)) segments.

Definition extension_bytes (segments : list SegmentMeta) : bytes :=
  if all_unstamped segments then []
  else CLUSTERING_RANGE_EXTENSION_MAGIC ++ u32_le (len segments)
       ++ concat (map range_bytes segments).

Definition manifest_payload (m : Manifest) : bytes :=
  u64_le (mf_generation m) ++ u64_le (mf_log_seq m) ++ u32_le (len (mf_segments m))
  ++ u32_le (len (mf_epochs m)) ++ u32_le (len (drop 1 (sc_columns (mf_schema m))))
  ++ u32_le 0 ++ alias_bytes (mf_epoch_alias m)
  ++ concat (map segment_bytes (mf_segments m)) ++ concat (map epoch_bytes (mf_epochs m))
  ++ concat (map definition_bytes (drop 1 (sc_columns (mf_schema m))))
  ++ extension_bytes (mf_segments m).

(** ** Every record is read back *)

Lemma reads_alias i :
  (∀ j, i = Some j → is_u64 (ei_embedding j) ∧ is_u64 (ei_tokenizer j)) →
  reads c_optional_identity (alias_bytes i) i.
Proof.
  intros H. unfold c_optional_identity, alias_bytes, append_optional_identity.
  destruct i as [[e t]|]; cbn [ei_embedding ei_tokenizer app].
  - destruct (H _ eq_refl) as [He Ht]. cbn [ei_embedding ei_tokenizer] in *.
    apply (reads_bind _ _ [Byte.x01]) with (v1 := Byte.x01); [apply reads_u8|].
    eapply reads_bind; [by apply reads_zeros|]. read_field.
    rewrite <- (app_nil_r (u64_le t)). read_field. apply reads_ret.
  - apply (reads_bind _ _ [Byte.x00]) with (v1 := Byte.x00); [apply reads_u8|].
    eapply reads_bind; [by apply reads_zeros|].
    eapply reads_bind; [by apply reads_u64|].
    rewrite <- (app_nil_r (u64_le 0)). eapply reads_bind; [by apply reads_u64|]. apply reads_ret.
Qed.

Lemma reads_epoch_id e :
  (∀ z, e = Some z → is_u64 z) →
  reads c_optional_epoch_id (append_optional_epoch_id e []) e.
Proof.
  intros H. unfold c_optional_epoch_id, append_optional_epoch_id.
  destruct e as [z|]; cbn [app].
  - specialize (H _ eq_refl).
    apply (reads_bind _ _ [Byte.x01]) with (v1 := Byte.x01); [apply reads_u8|].
    eapply reads_bind; [by apply reads_zeros|].
    rewrite <- (app_nil_r (u64_le z)). read_field. apply reads_ret.
  - apply (reads_bind _ _ [Byte.x00]) with (v1 := Byte.x00); [apply reads_u8|].
    eapply reads_bind; [by apply reads_zeros|].
    rewrite <- (app_nil_r (u64_le 0)). eapply reads_bind; [by apply reads_u64|]. apply reads_ret.
Qed.

(** A segment is read back without its clustering range, which the extension
    carries. *)
Definition unstamp (s : SegmentMeta) : SegmentMeta :=
  {| sm_id := sm_id s; sm_row_count := sm_row_count s; sm_scheme := sm_scheme s;
     sm_dims := sm_dims s; sm_file_size := sm_file_size s; sm_epoch_id := sm_epoch_id s;
     sm_clustering_key_range := Unstamped |}.

Lemma reads_segment s : segment_ok s → reads c_segment (segment_bytes s) (unstamp s).
Proof.
  intros [H1 H2 H3 H4 H5 H6 H7 _]. unfold c_segment, segment_bytes, append_segment.
  assert (append_optional_epoch_id (sm_epoch_id s)
    ([] ++ sm_id s ++ u32_le (sm_row_count s) ++ u16_le (sm_scheme s) ++ u16_le 0
       ++ u32_le (sm_dims s) ++ u64_le (sm_file_size s))
    = sm_id s ++ u32_le (sm_row_count s) ++ u16_le (sm_scheme s) ++ u16_le 0
       ++ u32_le (sm_dims s) ++ u64_le (sm_file_size s)
       ++ append_optional_epoch_id (sm_epoch_id s) []) as ->.
  { unfold append_optional_epoch_id. destruct (sm_epoch_id s); by rewrite <- !app_assoc. }
  eapply reads_bind; [by apply reads_take|]. read_field. read_field.
  eapply reads_bind_nil; [apply reads_lift; by rewrite H4|].
  eapply reads_bind; [by apply reads_u16|]. cbn [Z.eqb negb]. read_field. read_field.
  eapply (reads_bind_ret c_optional_epoch_id (λ epoch_id, {| sm_id := sm_id s;
    sm_row_count := sm_row_count s; sm_scheme := sm_scheme s; sm_dims := sm_dims s;
    sm_file_size := sm_file_size s; sm_epoch_id := epoch_id;
    sm_clustering_key_range := Unstamped |})). by apply reads_epoch_id.
Qed.

Lemma reads_normalization n :
  reads (match normalization_id n with
         | 0 => mret NormalizationNone
         | 1 => mret L2
         | _ => fail (ManifestDecode "unknown embedding normalization")
         end) [] n.
Proof. destruct n; apply reads_ret. Qed.

Lemma reads_runtime n :
  reads (match runtime_id n with
         | 1 => mret CoreMl
         | 2 => mret Mlx
         | 3 => mret CpuReference
         | _ => fail (ManifestDecode "unknown embedding runtime")
         end) [] n.
Proof. destruct n; apply reads_ret. Qed.

Lemma reads_compute_units n :
  reads (match compute_units_id n with
         | 1 => mret Cpu
         | 2 => mret CpuAndGpu
         | 3 => mret CpuAndNeuralEngine
         | 4 => mret AllUnits
         | _ => fail (ManifestDecode "unknown embedding compute units")
         end) [] n.
Proof. destruct n; apply reads_ret. Qed.

Lemma reads_tower t :
  tower_ok t → tower_utf8 t → reads c_embedding_tower (manifest_tower_bytes t) t.
Proof.
  intros [H1 H2 H3 H4 H5 H6 H7] (U1 & U2 & U3 & U4).
  unfold c_embedding_tower, manifest_tower_bytes.
  do 4 read_field. read_field. eapply reads_bind_nil; [apply reads_normalization|].
  do 2 read_field. read_field. eapply reads_bind_nil; [apply reads_runtime|].
  read_field. eapply reads_bind_nil; [apply reads_compute_units|].
  destruct t as [a b c d e f g h i [os|]]; cbn [tw_os_build] in *.
  - eapply reads_bind; [apply reads_u8|]. eapply reads_bind; [by apply reads_zeros|].
    rewrite <- (app_nil_r (field os)). eapply reads_bind; [|apply reads_ret].
    apply (reads_bind_ret _ Some). apply reads_string; [by apply H7|by apply U4].
  - eapply reads_bind; [apply reads_u8|]. eapply reads_bind; [by apply reads_zeros|].
    eapply reads_bind_nil; apply reads_ret.
Qed.

Lemma reads_epoch e : epoch_meta_ok e → reads c_epoch (epoch_bytes e) e.
Proof.
  intros [H1 H2 [H3 H4 H5] H6 H7]. unfold c_epoch, epoch_bytes.
  read_field. read_field. destruct e as [id [d q al] tk]; cbn in *.
  apply (reads_bind_ret c_embedding_epoch (λ em, {| em_id := id; em_embedding := em;
    em_tokenizer := tk |})).
  unfold c_embedding_epoch. eapply reads_bind; [by apply reads_tower|].
  eapply reads_bind; [by apply reads_tower|].
  apply (reads_bind_ret c_bytes (λ a, {| ee_document := d; ee_query := q;
    ee_alignment_digest := a |})). by apply reads_bytes.
Qed.

Lemma column_type_roundtrip t : column_type_from_id (column_type_id t) = Ok t.
Proof. by destruct t. Qed.

Lemma reads_definition d : definition_ok d → reads c_definition (definition_bytes d) d.
Proof.
  intros [H1 H2 H3]. unfold c_definition, definition_bytes. read_field.
  eapply reads_bind; [apply reads_u16; by destruct (cd_column_type d)|].
  eapply reads_bind_nil; [apply reads_lift, column_type_roundtrip|].
  eapply reads_bind; [apply reads_u16; by destruct (cd_nullable d)|].
  eapply (reads_bind_nil _ _ _ (cd_nullable d)); [destruct (cd_nullable d); apply reads_ret|].
  destruct d as [i n t b]. cbn in *.
  apply (reads_bind_ret c_string (λ name, {| cd_id := i; cd_name := name;
    cd_column_type := t; cd_nullable := b |})). by apply reads_string.
Qed.

Lemma reads_range s : segment_ok s → reads (c_range (unstamp s)) (range_bytes s) s.
Proof.
  intros [_ _ _ _ _ _ _ H]. unfold c_range, range_bytes.
  destruct s as [a b c d e f [| |lo hi]]; cbn [sm_clustering_key_range] in *.
  - eapply reads_bind; [apply reads_u8|]. eapply reads_bind; [by apply reads_zeros|].
    eapply reads_bind; [by apply reads_i64|]. rewrite <- (app_nil_r (i64_le 0)).
    eapply reads_bind; [by apply reads_i64|]. eapply reads_bind_nil; apply reads_ret.
  - eapply reads_bind; [apply reads_u8|]. eapply reads_bind; [by apply reads_zeros|].
    eapply reads_bind; [by apply reads_i64|]. rewrite <- (app_nil_r (i64_le 0)).
    eapply reads_bind; [by apply reads_i64|]. eapply reads_bind_nil; apply reads_ret.
  - destruct H as (H1 & H2 & H3).
    eapply reads_bind; [apply reads_u8|]. eapply reads_bind; [by apply reads_zeros|].
    eapply reads_bind; [by apply reads_i64|]. rewrite <- (app_nil_r (i64_le hi)).
    eapply reads_bind; [by apply reads_i64|].
    eapply (reads_bind_nil _ _ _ (Bounded lo hi)); [decide_Z|]; apply reads_ret.
Qed.

Lemma reads_ranges ss :
  Forall segment_ok ss → reads (c_ranges (map unstamp ss)) (concat (map range_bytes ss)) ss.
Proof.
  induction 1 as [|s ss Hs _ IH]; cbn [map c_ranges concat]; [apply reads_ret|].
  eapply reads_bind; [by apply reads_range|]. by apply (reads_bind_ret _ (cons s)).
Qed.

Lemma len_range_bytes s : len (range_bytes s) = 24.
Proof.
  unfold range_bytes. destruct (sm_clustering_key_range s); rewrite !len_app, !len_i64_le; done.
Qed.

Lemma len_ranges ss : len (concat (map range_bytes ss)) = 24 * len ss.
Proof.
  induction ss as [|s ss IH]; [done|]. cbn [map concat].
  rewrite len_app, IH, len_range_bytes, len_cons. lia.
Qed.

(** The extension, or its absence at the end of the payload. *)
Lemma unstamp_all ss : all_unstamped ss = true → map unstamp ss = ss.
Proof.
  induction ss as [|s ss IH]; cbn [all_unstamped forallb map]; [done|].
  intros [H1 H2]%andb_true_iff. fold (all_unstamped ss) in H2. rewrite IH by done. f_equal.
  apply bool_decide_eq_true in H1. destruct s. cbn in *. by subst.
Qed.

Lemma reads_extension_body ss :
  Forall segment_ok ss → len ss ≤ u32_max →
  reads (decode_clustering_ranges (map unstamp ss))
    (CLUSTERING_RANGE_EXTENSION_MAGIC ++ u32_le (len ss) ++ concat (map range_bytes ss)) ss.
Proof.
  intros Hs Hl. unfold decode_clustering_ranges. pose proof (len_nonneg ss).
  eapply reads_bind; [by apply reads_take|]. rewrite bool_decide_true by done. cbn [negb].
  eapply reads_bind; [by apply reads_usize|]. rewrite len_map, Z.eqb_refl. cbn [negb].
  eapply reads_bind_nil.
  { apply reads_lift. unfold checked_mul, CLUSTERING_RANGE_RECORD_LEN, usize_max, u64_max,
      u32_max in *. by rewrite (proj2 (Z.leb_le _ _)) by lia. }
  intros pre rest Hb. unfold with_cursor, remaining. cbn [cu_bytes cu_offset].
  unfold saturating_sub, CLUSTERING_RANGE_RECORD_LEN.
  rewrite (proj2 (Z.ltb_ge _ _)).
  - by apply reads_ranges.
  - rewrite !len_app, len_ranges. pose proof (len_nonneg rest). lia.
Qed.

Lemma reads_extension ss :
  Forall segment_ok ss → len ss ≤ u32_max →
  reads_end (with_cursor (λ c, if at_extension c then decode_clustering_ranges (map unstamp ss)
                               else mret (map unstamp ss))) (extension_bytes ss) ss.
Proof.
  intros Hs Hl pre Hb. unfold extension_bytes in *. destruct (all_unstamped ss) eqn:E.
  - unfold with_cursor, at_extension. cbn [cu_bytes cu_offset].
    rewrite slice_from_app by done. cbn [take length CLUSTERING_RANGE_EXTENSION_MAGIC].
    rewrite bool_decide_false by done. rewrite app_nil_r. by rewrite unstamp_all.
  - unfold with_cursor, at_extension. cbn [cu_bytes cu_offset].
    rewrite slice_from_app by done. rewrite take_app_length, bool_decide_true by done.
    by apply (reads_reads_end _ _ _ (reads_extension_body ss Hs Hl)).
Qed.

Lemma reads_segments ss :
  Forall segment_ok ss →
  reads (repeat_parser (length ss) c_segment) (concat (map segment_bytes ss)) (map unstamp ss).
Proof.
  induction 1 as [|s ss Hs _ IH]; cbn [repeat_parser length map concat]; [apply reads_ret|].
  eapply reads_bind; [by apply reads_segment|]. by apply (reads_bind_ret _ (cons (unstamp s))).
Qed.

Lemma reads_manifest m :
  manifest_ok m →
  reads_end c_manifest (manifest_payload m)
    (mf_generation m, mf_log_seq m, mf_segments m, mf_epochs m, mf_epoch_alias m,
     drop 1 (sc_columns (mf_schema m))).
Proof.
  intros [H1 H2 H3 H4 H5 H6 H7 H8 H9 H10]. unfold c_manifest, manifest_payload.
  set (cols := drop 1 (sc_columns (mf_schema m))).
  assert (len cols ≤ u32_max) as Hc.
  { unfold cols, len in *. rewrite length_drop. lia. }
  pose proof (len_nonneg (mf_segments m)); pose proof (len_nonneg (mf_epochs m));
    pose proof (len_nonneg cols).
  eapply reads_end_bind; [by apply reads_u64|]. eapply reads_end_bind; [by apply reads_u64|].
  eapply reads_end_bind; [by apply reads_usize|]. eapply reads_end_bind; [by apply reads_usize|].
  eapply reads_end_bind; [by apply reads_usize|]. eapply reads_end_bind; [by apply reads_u32|].
  cbn [Z.eqb negb]. eapply reads_end_bind; [by apply reads_alias|].
  rewrite !to_nat_len.
  eapply reads_end_bind; [by apply reads_segments|].
  eapply reads_end_bind.
  { apply reads_repeat; [done|]. eapply Forall_impl; [exact H5|]. apply reads_epoch. }
  eapply reads_end_bind.
  { apply reads_repeat; [done|]. eapply Forall_impl; [by apply Forall_drop|]. apply reads_definition. }
  eapply reads_end_then; [by apply reads_extension|].
  intros b. unfold mbind, cursor_bind, c_finish. cbn [cu_offset cu_bytes]. by rewrite Z.eqb_refl.
Qed.

(** ** What the encoder writes *)

Lemma append_u32_len_eq n out :
  0 ≤ n ≤ u32_max → append_u32_len n out = Ok (out ++ u32_le n).
Proof. intros H. unfold append_u32_len, try_from. decide_Z. done. Qed.

Lemma append_bytes_eq v out : len v ≤ u32_max → append_bytes v out = Ok (out ++ field v).
Proof.
  intros H. unfold append_bytes. pose proof (len_nonneg v). rewrite append_u32_len_eq by done.
  rsimpl. unfold field. by rewrite app_assoc.
Qed.

Lemma append_tower_eq t out :
  tower_ok t → append_embedding_tower t out = Ok (out ++ manifest_tower_bytes t).
Proof.
  intros [H1 H2 H3 H4 H5 H6 H7]. unfold append_embedding_tower, manifest_tower_bytes.
  rewrite append_bytes_eq by done. rsimpl. rewrite append_bytes_eq by done. rsimpl.
  rewrite append_bytes_eq by done. rsimpl. cbv zeta. rewrite append_bytes_eq by done. rsimpl.
  destruct (tw_os_build t) as [b|] eqn:E.
  - rewrite append_bytes_eq by (by apply H7). by rewrite <- !app_assoc.
  - by rewrite app_nil_r, <- !app_assoc.
Qed.

Lemma append_all_eq {A} (f : A → bytes → result ManifestError bytes) (enc : A → bytes) l :
  Forall (λ a, ∀ out, f a out = Ok (out ++ enc a)) l →
  ∀ out, append_all f l out = Ok (out ++ concat (map enc l)).
Proof.
  induction 1 as [|a l Ha _ IH]; intros out; cbn [append_all map concat].
  - by rewrite app_nil_r.
  - rewrite Ha. rsimpl. by rewrite IH, app_assoc.
Qed.

Lemma append_epoch_eq e out : epoch_meta_ok e → append_epoch e out = Ok (out ++ epoch_bytes e).
Proof.
  intros [H1 H2 [H3 H4 H5] H6 H7]. unfold append_epoch, append_embedding_epoch, epoch_bytes.
  rewrite append_tower_eq by done. rsimpl. rewrite append_tower_eq by done. rsimpl.
  rewrite append_bytes_eq by done. by rewrite <- !app_assoc.
Qed.

Lemma append_definition_eq d out :
  definition_ok d → append_definition d out = Ok (out ++ definition_bytes d).
Proof.
  intros [H1 H2 H3]. unfold append_definition, definition_bytes.
  rewrite append_bytes_eq by done. by rewrite <- !app_assoc.
Qed.

Lemma append_range_eq s out : segment_ok s → append_range s out = Ok (out ++ range_bytes s).
Proof.
  intros [_ _ _ _ _ _ _ H]. unfold append_range, range_bytes.
  destruct (sm_clustering_key_range s) as [| |lo hi]; rsimpl; [done..|].
  rewrite (proj2 (Z.ltb_ge _ _)) by lia. done.
Qed.

Lemma append_segments_eq ss out :
  foldl (λ payload segment, append_segment segment payload) out ss
  = out ++ concat (map segment_bytes ss).
Proof.
  revert out. induction ss as [|s ss IH]; intros out; cbn [foldl map concat].
  { by rewrite app_nil_r. }
  rewrite IH, app_assoc. f_equal. unfold segment_bytes, append_segment, append_optional_epoch_id.
  destruct (sm_epoch_id s); by rewrite <- !app_assoc.
Qed.

Lemma append_ranges_eq ss out :
  Forall segment_ok ss → len ss ≤ u32_max →
  append_clustering_ranges ss out = Ok (out ++ extension_bytes ss).
Proof.
  intros Hs Hl. unfold append_clustering_ranges, extension_bytes, all_unstamped.
  destruct (forallb _ ss); [by rewrite app_nil_r|]. pose proof (len_nonneg ss).
  rewrite append_u32_len_eq by done. rsimpl.
  rewrite (append_all_eq _ range_bytes).
  - by rewrite <- !app_assoc.
  - eapply Forall_impl; [exact Hs|]. intros s Hs' out'. by apply append_range_eq.
Qed.

Section Roundtrip.
Context {X : Xxh3} {L : Xxh3Laws X}.

Lemma encode_manifest_eq m :
  manifest_ok m → validate_epoch_references m = Ok tt →
  encode_manifest m = Ok (encode_artifact_version ManifestFamily 2 0 (manifest_payload m)).
Proof using Type.
  intros [H1 H2 H3 H4 H5 H6 H7 [cols H8] H9 H10] Hv. unfold encode_manifest. rewrite Hv. rsimpl.
  pose proof (len_nonneg (mf_segments m)); pose proof (len_nonneg (mf_epochs m)).
  apply schema_new_ok in H8 as [_ Hcols].
  assert (user_column_count (mf_schema m) = len (drop 1 (sc_columns (mf_schema m)))) as ->.
  { unfold user_column_count, saturating_sub. rewrite Hcols. pose proof (len_nonneg cols).
    change (drop 1 (timestamp_definition :: cols)) with cols. rewrite len_cons. lia. }
  assert (len (drop 1 (sc_columns (mf_schema m))) ≤ u32_max) as Hc
    by (unfold len in *; rewrite length_drop; lia).
  pose proof (len_nonneg (drop 1 (sc_columns (mf_schema m)))).
  rewrite append_u32_len_eq by done. rsimpl. rewrite append_u32_len_eq by done. rsimpl.
  rewrite append_u32_len_eq by done. rsimpl. cbv zeta. rewrite append_segments_eq.
  rewrite (append_all_eq _ epoch_bytes)
    by (eapply Forall_impl; [exact H5|]; intros e He out; by apply append_epoch_eq).
  rsimpl. rewrite (append_all_eq _ definition_bytes)
    by (eapply Forall_impl; [by apply (Forall_drop _ 1)|]; intros d Hd out;
        by apply append_definition_eq).
  rsimpl. rewrite append_ranges_eq by done. rsimpl. do 2 f_equal. unfold manifest_payload.
  unfold alias_bytes, append_optional_identity.
  destruct (mf_epoch_alias m) as [[]|]; by rewrite <- !app_assoc.
Qed.

Lemma decode_encode_manifest (artifact : string) (m : Manifest) :
  manifest_ok m → validate_epoch_references m = Ok tt →
  len (manifest_payload m) + 56 ≤ isize_max →
  ∃ b, encode_manifest m = Ok b ∧ decode_manifest artifact b = Ok m.
Proof using L.
  intros Hm Hv Hl. eexists. split; [by apply encode_manifest_eq|].
  unfold decode_manifest. rewrite decode_encode_artifact by done. rsimpl.
  cbn [da_header da_payload artifact_header fh_flags fh_version]. rsimpl. cbn [Z.eqb negb].
  pose proof (reads_manifest m Hm [] ltac:(rewrite app_nil_l; lia)) as Hr.
  rewrite app_nil_l in Hr. change (len []) with 0 in Hr.
  change (2 =? 3) with false. cbn iota. unfold ManifestCursor. rewrite Hr. rsimpl.
  destruct (ma_schema _ Hm) as [cols Hs]. pose proof (schema_new_ok _ _ Hs) as [_ Hcols].
  assert (drop 1 (sc_columns (mf_schema m)) = cols) as -> by (by rewrite Hcols).
  rewrite Hs. rsimpl. destruct m. cbn in *. by rewrite Hv.
Qed.

(** C32: Every well-formed manifest whose epoch references are consistent encodes,
    and the encoding decodes to the same manifest: segments, epochs, alias, schema
    and clustering ranges included. *)
Theorem manifest_roundtrip (artifact : string) (m : Manifest) :
  manifest_ok m → validate_epoch_references m = Ok tt →
  len (manifest_payload m) + 56 ≤ isize_max →
  ∃ b, encode_manifest m = Ok b ∧ decode_manifest artifact b = Ok m.
Proof using L. apply decode_encode_manifest. Qed.
End Roundtrip.

(** ** Epoch references *)

Section References.
Context {X : Xxh3}.

Definition meta_identity (e : EpochMeta) : EpochIdentity :=
  {| ei_embedding := em_id e; ei_tokenizer := em_tokenizer e |}.

(** What a manifest's registry, alias and segment tags promise each other. *)
Record references_ok (m : Manifest) : Prop := {
  ro_digests : Forall (λ e, em_id e = epoch_id_of (em_embedding e)) (mf_epochs m);
  ro_distinct : NoDup (map meta_identity (mf_epochs m));
  ro_alias : match mf_epoch_alias m with
             | Some alias => alias ∈ map meta_identity (mf_epochs m)
             | None => mf_epochs m = []
             end;
  ro_segments : Forall (λ s, match sm_epoch_id s with
                             | Some e => ∃ meta, meta ∈ mf_epochs m ∧ em_id meta = e
                             | None => mf_epochs m = []
                             end) (mf_segments m);
}.

Lemma collect_identities_spec epochs : ∀ seen out,
  collect_identities seen epochs = Ok out ↔
  out = seen ++ map meta_identity epochs
  ∧ Forall (λ e, em_id e = epoch_id_of (em_embedding e)) epochs
  ∧ NoDup (map meta_identity epochs)
  ∧ Forall (λ e, meta_identity e ∉ seen) epochs.
Proof.
  induction epochs as [|e epochs IH]; intros seen out; cbn [collect_identities map].
  { rewrite app_nil_r. split; [|by intros [-> _]]. intros [= <-].
    split_and!; [done|constructor|constructor|constructor]. }
  rewrite !Forall_cons, NoDup_cons. unfold identity_from_meta.
  destruct (Z.eqb_spec (epoch_id_of (em_embedding e)) (em_id e)) as [E|E]; rsimpl.
  2:{ split; [done|]. intros (_ & [H _] & _). by rewrite H in E. }
  fold (meta_identity e). destruct (bool_decide_reflect (meta_identity e ∈ seen)) as [Hin|Hin].
  { split; [done|]. by intros (_ & _ & _ & [? _]). }
  rewrite IH, <- app_assoc. cbn [app]. split.
  - intros (-> & H1 & H2 & H3). split_and!; try done.
    + intros Hm. apply list_elem_of_In, in_map_iff in Hm as (e' & He' & Hm).
      apply list_elem_of_In in Hm. rewrite Forall_forall in H3. specialize (H3 _ Hm).
      destruct H3. rewrite He'. apply elem_of_app. right. by apply list_elem_of_singleton.
    + eapply Forall_impl; [exact H3|]. intros e' Hn Hm. destruct Hn. apply elem_of_app. by left.
  - intros (-> & [_ H1] & [H2 H3] & [_ H4]). split_and!; try done.
    rewrite Forall_forall in *. intros e' He' [Hm|Hm]%elem_of_app; [by eapply H4|].
    apply list_elem_of_singleton in Hm. destruct H2. rewrite <- Hm.
    by apply list_elem_of_In, in_map, list_elem_of_In.
Qed.

Lemma check_alias_spec ids alias :
  check_alias ids alias = Ok tt ↔
  match alias with Some a => a ∈ ids | None => ids = [] end.
Proof.
  unfold check_alias. destruct alias as [a|]; [|by destruct ids].
  by destruct (bool_decide_reflect (a ∈ ids)).
Qed.

Lemma check_segments_spec epochs segments :
  check_segments (map meta_identity epochs) segments = Ok tt ↔
  Forall (λ s, match sm_epoch_id s with
               | Some e => ∃ meta, meta ∈ epochs ∧ em_id meta = e
               | None => epochs = []
               end) segments.
Proof.
  induction segments as [|s segments IH]; cbn [check_segments].
  { split; [constructor|done]. }
  rewrite Forall_cons, <- IH. destruct (sm_epoch_id s) as [e|].
  - assert (existsb (λ identity, ei_embedding identity =? e) (map meta_identity epochs) = true
            ↔ ∃ meta, meta ∈ epochs ∧ em_id meta = e) as Hex.
    { rewrite existsb_exists. split.
      - intros (i & Hi & E). apply in_map_iff in Hi as (m & <- & Hm). exists m.
        rewrite list_elem_of_In. split; [done|]. by apply Z.eqb_eq in E.
      - intros (m & Hm & E). exists (meta_identity m). rewrite list_elem_of_In in Hm.
        split; [by apply in_map|]. by apply Z.eqb_eq. }
    destruct (existsb _ _); rsimpl; [|split; [done|intros [H _]; by apply Hex in H]].
    split; [|by intros [_ ?]]. intros H. split; [by apply Hex|done].
  - destruct epochs; cbn [map]; rsimpl; [|by split; [|intros []]]. split; [done|by intros [_ ?]].
Qed.

Lemma validate_references_spec m :
  validate_epoch_references m = Ok tt ↔ references_ok m.
Proof.
  unfold validate_epoch_references. split.
  - intros H. apply bind_Ok_inv in H as (ids & Hc & H). apply bind_Ok_inv in H as ([] & Ha & H).
    apply collect_identities_spec in Hc as (-> & H1 & H2 & _). rewrite app_nil_l in *.
    apply check_alias_spec in Ha. apply check_segments_spec in H. split; [done..| |done].
    destruct (mf_epoch_alias m); [done|]. by destruct (mf_epochs m).
  - intros [H1 H2 H3 H4].
    assert (collect_identities [] (mf_epochs m) = Ok (map meta_identity (mf_epochs m))) as ->.
    { apply collect_identities_spec. split_and!; [done|done|done|].
      apply Forall_forall. intros e _. apply not_elem_of_nil. }
    rsimpl. rewrite (proj2 (check_alias_spec _ _)).
    + rsimpl. by apply check_segments_spec.
    + destruct (mf_epoch_alias m); [done|]. by rewrite H3.
Qed.

(** C33: Every manifest the decoder accepts, from any bytes, has a schema that
    satisfies the schema rules and epoch references that resolve: distinct
    registered identities whose digests match, a registered alias, and segments
    tagged with registered epochs. *)
Theorem decoded_manifest_consistent (artifact : string) (b : bytes) (m : Manifest) :
  decode_manifest artifact b = Ok m → references_ok m ∧ schema_ok (mf_schema m).
Proof.
  unfold decode_manifest. intros H.
  apply bind_Ok_inv in H as (framed & _ & H).
  destruct (negb _); [done|]. destruct (_ =? 3); [done|].
  apply bind_Ok_inv in H as ([[[[[[g l] ss] es] al] ds] c] & _ & H).
  apply bind_Ok_inv in H as (sc & Hs & H). apply bind_Ok_inv in H as ([] & Hv & H).
  injection H as <-. apply validate_references_spec in Hv. split; [done|].
  destruct (schema_new ds) as [s|] eqn:E; [|done]. injection Hs as <-.
  by apply schema_new_ok in E as [? _].
Qed.
End References.

(** ** A concrete manifest *)

Module SampleManifest.
Definition tokenizer : Z := 11.
Definition identity : EpochIdentity :=
  {| ei_embedding := epoch_id_of (X:=ToyXxh3.toy) sample_epoch; ei_tokenizer := tokenizer |}.
Definition manifest : Manifest :=
  {| mf_generation := 3; mf_log_seq := 42;
     mf_segments := [
       {| sm_id := zeros 16; sm_row_count := 5; sm_scheme := 1; sm_dims := 384;
          sm_file_size := 4096; sm_epoch_id := Some (ei_embedding identity);
          sm_clustering_key_range := Bounded (-7) 9 |};
       {| sm_id := replicate 16 Byte.x01; sm_row_count := 0; sm_scheme := 0; sm_dims := 384;
          sm_file_size := 128; sm_epoch_id := Some (ei_embedding identity);
          sm_clustering_key_range := EmptyRange |}];
     mf_epochs := [{| em_id := ei_embedding identity; em_embedding := sample_epoch;
                      em_tokenizer := tokenizer |}];
     mf_epoch_alias := Some identity;
     mf_schema := sample_persisted |}.

Lemma some_ind {A} (z : A) (P : A → Prop) e : P z → Some z = Some e → P e.
Proof. by intros H [= <-]. Qed.

Lemma some_u64 z e : is_u64 z → Some z = Some e → is_u64 e.
Proof. apply (some_ind z is_u64 e). Qed.

Lemma identity_u64 : is_u64 (ei_embedding identity).
Proof. by_compute. Qed.

#[local] Opaque epoch_id_of.

Lemma tower_is_utf8 : tower_utf8 sample_tower.
Proof. split_and!; try by_compute. intros b [= <-]. by_compute. Qed.

Lemma segments_ok : Forall segment_ok (mf_segments manifest).
Proof.
  repeat apply List.Forall_cons; try apply List.Forall_nil.
  all: split; [by_compute..| |by_compute || exact I].
  all: intros e He; exact (some_u64 _ _ identity_u64 He).
Qed.

Lemma manifest_is_ok : manifest_ok manifest.
Proof.
  split; [by_compute|by_compute|apply segments_ok|by_compute| |by_compute| | | |by_compute].
  - apply Forall_singleton. split; [apply identity_u64|by_compute|apply sample_epoch_ok
      |apply tower_is_utf8|apply tower_is_utf8].
  - intros i Hi. exact (some_ind _ (λ i, is_u64 (ei_embedding i) ∧ is_u64 (ei_tokenizer i)) _
      (conj identity_u64 (ltac:(by_compute) : is_u64 tokenizer)) Hi).
  - by exists (tail (sc_columns sample_persisted)).
  - repeat apply List.Forall_cons; try apply List.Forall_nil; split; by_compute.
Qed.
End SampleManifest.

Lemma manifest_roundtrip_witness :
  ∃ b, encode_manifest (X:=ToyXxh3.toy) SampleManifest.manifest = Ok b
       ∧ decode_manifest (X:=ToyXxh3.toy) "manifest.ze" b = Ok SampleManifest.manifest.
Proof.
  apply (manifest_roundtrip (X:=ToyXxh3.toy) (L:=ToyXxh3.toy_laws));
    [apply SampleManifest.manifest_is_ok|by_compute|by_compute].
Defined.

Lemma decoded_manifest_consistent_witness :
  ∃ b, decode_manifest (X:=ToyXxh3.toy) "manifest.ze" b = Ok SampleManifest.manifest
       ∧ references_ok (X:=ToyXxh3.toy) SampleManifest.manifest.
Proof.
  set (b := encode_artifact_version (X:=ToyXxh3.toy) ManifestFamily 2 0
              (manifest_payload SampleManifest.manifest)).
  assert (decode_manifest (X:=ToyXxh3.toy) "manifest.ze" b = Ok SampleManifest.manifest) as H
    by by_compute.
  exists b. split; [exact H|].
  exact (proj1 (decoded_manifest_consistent (X:=ToyXxh3.toy) "manifest.ze" b _ H)).
Defined.
