(* ===== verification/Vfs.v ===== *)
(** * The file-system seam

    Models the [Vfs] trait of [crates/zeppelin-embed/src/vfs/mod.rs], restricted
    to the operations the modelled parts use and to one store directory: [Vfs] is the
    interface, [VfsLaws] what its documentation promises about names and
    lengths, and [Fs] an implementation with inodes, injected faults and a crash
    relation.

    In [Fs], a file write settles only through a sync of that file, and a
    directory change only through a sync of the directory: a crash exposes any
    directory state since the last directory sync and arbitrary content for
    every file not synced since its last write.  What has settled is ordered
    before every later operation; it is durable only after a [Full] sync.  A
    [Barrier] sync leaves what a crash could expose just before it exposed (a
    power cut may lose all that follows the last full sync), so every barrier
    keeps a [Stage] of the past, and a full sync, which flushes what was ordered
    before it too, forgets them. *)

From S2P Require Import Prelude Durability.

(** A path the manifest code builds: the store directory or a file in it. *)
Inductive Path : Type :=
| Directory
| File (name : string).

#[export] Instance Path_eq_dec : EqDecision Path.
Proof. solve_decision. Defined.

(** Both syncs of the policy are full ones: the policy of the durable tier. *)
Definition full_sync (policy : DurabilityPolicy) : Prop :=
  data_file_sync policy = SyncWith Full ∧ directory_sync policy = SyncWith Full.

Lemma full_sync_data policy : full_sync policy → data_file_sync policy ≠ SyncSkip.
Proof. by intros [-> _]. Qed.

(** ** The interface *)

Class Vfs (S : Type) : Type := {
  v_open : string → S → result ErrorKind Z;
  v_read : string → S → result ErrorKind bytes;
  v_list : S → result ErrorKind (list string);
  v_write : string → bytes → S → S * result ErrorKind unit;
  v_sync : Path → SyncKind → S → S * result ErrorKind unit;
  v_rename : string → string → S → S * result ErrorKind unit;
  v_delete : string → S → S * result ErrorKind unit;
  (** The content of the file [open_for_map] opens. *)
  v_open_for_map : string → S → result ErrorKind bytes;
  v_read_range : string → Z → Z → S → result ErrorKind bytes;
  v_open_append : string → S → S * result ErrorKind unit;
}.

(** What callers rely on, over the abstract content [v_files]. *)
Class VfsLaws (S : Type) `{Vfs S} : Type := {
  v_files : S → gmap string bytes;
  v_open_ok : ∀ p s n, v_open p s = Ok n → ∃ b, v_files s !! p = Some b ∧ n = len b;
  v_list_ok : ∀ s l, v_list s = Ok l →
    NoDup l ∧ ∀ p, p ∈ l ↔ is_Some (v_files s !! p);
  v_delete_ok : ∀ p s s', v_delete p s = (s', Ok tt) → v_files s' = delete p (v_files s);
  v_delete_err : ∀ p s s' e, v_delete p s = (s', Err e) →
    v_files s' = v_files s ∨ v_files s' = delete p (v_files s);
  v_sync_files : ∀ p k s, v_files (v_sync p k s).1 = v_files s;
}.

(** ** An implementation with faults and crashes *)

(** [in_synced]: no write since the last sync of either kind. *)
Record Inode : Type := {
  in_data : bytes;
  in_synced : bool;
}.

(** What a crash may expose of one stretch between barriers: its files, and its
    directory states, the last one first. *)
Record Stage : Type := {
  st_inodes : gmap nat Inode;
  st_dirs : list (gmap string nat);
}.

(** A failing operation reports [f_kind] after [f_progress] of its effect: bytes
    of a write, or zero and non-zero for not done and done. *)
Record Fault : Type := {
  f_kind : ErrorKind;
  f_progress : nat;
}.

Record Fs : Type := {
  fs_inodes : gmap nat Inode;
  fs_dir : gmap string nat;
  (** The directory states since the last directory sync, the current one first. *)
  fs_dirs : list (gmap string nat);
  (** The stages closed by barriers since the last full sync. *)
  fs_past : list Stage;
  fs_next : nat;
  (** The outcome of each coming mutating operation; none means success. *)
  fs_faults : list (option Fault);
}.

Definition next_fault (fs : Fs) : option Fault * Fs :=
  match fs_faults fs with
  | [] => (None, fs)
  | f :: rest =>
      (f, {| fs_inodes := fs_inodes fs; fs_dir := fs_dir fs; fs_dirs := fs_dirs fs; fs_past := fs_past fs;
             fs_next := fs_next fs; fs_faults := rest |})
  end.

Definition set_inode (i : nat) (n : Inode) (fs : Fs) : Fs :=
  {| fs_inodes := <[i := n]> (fs_inodes fs); fs_dir := fs_dir fs; fs_dirs := fs_dirs fs; fs_past := fs_past fs;
     fs_next := fs_next fs; fs_faults := fs_faults fs |}.

(** A directory change: the new state joins the ones a crash may expose. *)
Definition set_dir (d : gmap string nat) (fs : Fs) : Fs :=
  {| fs_inodes := fs_inodes fs; fs_dir := d; fs_dirs := d :: fs_dirs fs; fs_past := fs_past fs;
     fs_next := fs_next fs; fs_faults := fs_faults fs |}.

(** Truncates or creates the file and stores unsynced bytes. *)
Definition put_file (name : string) (data : bytes) (fs : Fs) : Fs :=
  match fs_dir fs !! name with
  | Some i => set_inode i {| in_data := data; in_synced := false |} fs
  | None =>
      let i := fs_next fs in
      let fs := set_inode i {| in_data := data; in_synced := false |} fs in
      let fs := set_dir (<[name := i]> (fs_dir fs)) fs in
      {| fs_inodes := fs_inodes fs; fs_dir := fs_dir fs; fs_dirs := fs_dirs fs; fs_past := fs_past fs;
         fs_next := S i; fs_faults := fs_faults fs |}
  end.

Definition file_data (name : string) (fs : Fs) : option bytes :=
  i ← fs_dir fs !! name; n ← fs_inodes fs !! i; Some (in_data n).

Definition fs_files (fs : Fs) : gmap string bytes :=
  omap (λ i, n ← fs_inodes fs !! i; Some (in_data n)) (fs_dir fs).

Definition fs_write (name : string) (data : bytes) (fs : Fs) : Fs * result ErrorKind unit :=
  let '(fault, fs) := next_fault fs in
  match fault with
  | None => (put_file name data fs, Ok tt)
  | Some f => (put_file name (take (f_progress f) data) fs, Err (f_kind f))
  end.

Definition stage_of (fs : Fs) : Stage :=
  {| st_inodes := fs_inodes fs; st_dirs := fs_dirs fs |}.

(** The past after a sync: what comes before a barrier may still be all that
    reaches media, a full sync is durable. *)
Definition past_after (kind : SyncKind) (fs : Fs) : list Stage :=
  match kind with
  | Barrier => stage_of fs :: fs_past fs
  | Full => []
  end.

Definition set_past (past : list Stage) (fs : Fs) : Fs :=
  {| fs_inodes := fs_inodes fs; fs_dir := fs_dir fs; fs_dirs := fs_dirs fs; fs_past := past;
     fs_next := fs_next fs; fs_faults := fs_faults fs |}.

Definition fs_sync (p : Path) (kind : SyncKind) (fs : Fs) : Fs * result ErrorKind unit :=
  let '(fault, fs) := next_fault fs in
  match fault with
  | Some f => (fs, Err (f_kind f))
  | None =>
      match p with
      | Directory =>
          ({| fs_inodes := fs_inodes fs; fs_dir := fs_dir fs; fs_dirs := [fs_dir fs];
              fs_past := past_after kind fs; fs_next := fs_next fs; fs_faults := fs_faults fs |}, Ok tt)
      | File name =>
          match fs_dir fs !! name with
          | None => (fs, Err NotFound)
          | Some i =>
              match fs_inodes fs !! i with
              | None => (fs, Err NotFound)
              | Some n =>
                  (set_inode i {| in_data := in_data n; in_synced := true |}
                     (set_past (past_after kind fs) fs), Ok tt)
              end
          end
      end
  end.

Definition fs_rename (from to : string) (fs : Fs) : Fs * result ErrorKind unit :=
  let '(fault, fs) := next_fault fs in
  match fs_dir fs !! from with
  | None => (fs, Err NotFound)
  | Some i =>
      let moved := set_dir (<[to := i]> (delete from (fs_dir fs))) fs in
      match fault with
      | None => (moved, Ok tt)
      | Some f => (match f_progress f with O => fs | S _ => moved end, Err (f_kind f))
      end
  end.

Definition fs_delete (name : string) (fs : Fs) : Fs * result ErrorKind unit :=
  let '(fault, fs) := next_fault fs in
  match fs_dir fs !! name with
  | None => (fs, Err NotFound)
  | Some _ =>
      let gone := set_dir (delete name (fs_dir fs)) fs in
      match fault with
      | None => (gone, Ok tt)
      | Some f => (match f_progress f with O => fs | S _ => gone end, Err (f_kind f))
      end
  end.

(** Opens or creates the file. *)
Definition fs_open_append (name : string) (fs : Fs) : Fs * result ErrorKind unit :=
  let '(fault, fs) := next_fault fs in
  match fault with
  | Some f => (fs, Err (f_kind f))
  | None => (match fs_dir fs !! name with Some _ => fs | None => put_file name [] fs end, Ok tt)
  end.

(** At most [length] bytes from [offset] on. *)
Definition read_part (offset length : Z) (b : bytes) : bytes :=
  take (Z.to_nat length) (drop (Z.to_nat offset) b).

#[export] Instance fs_vfs : Vfs Fs := {|
  v_open name fs := ok_or ((λ b, len b) <$> fs_files fs !! name) NotFound;
  v_read name fs := ok_or (fs_files fs !! name) NotFound;
  v_list fs := Ok ((map_to_list (fs_files fs)).*1);
  v_write := fs_write;
  v_sync := fs_sync;
  v_rename := fs_rename;
  v_delete := fs_delete;
  v_open_for_map name fs := ok_or (fs_files fs !! name) NotFound;
  v_read_range name offset length fs := ok_or (read_part offset length <$> fs_files fs !! name) NotFound;
  v_open_append := fs_open_append;
|}.

Lemma next_fault_same fs :
  let fs' := (next_fault fs).2 in
  fs_inodes fs' = fs_inodes fs ∧ fs_dir fs' = fs_dir fs ∧ fs_dirs fs' = fs_dirs fs
  ∧ fs_next fs' = fs_next fs ∧ fs_past fs' = fs_past fs.
Proof. unfold next_fault. by destruct (fs_faults fs). Qed.

Lemma fs_files_set_dir d fs : fs_files (set_dir d fs) = omap (λ i, n ← fs_inodes fs !! i; Some (in_data n)) d.
Proof. done. Qed.

#[export] Instance fs_laws : VfsLaws Fs.
Proof.
  refine {| v_files := fs_files |}.
  - intros p s n H. cbn in H. destruct (fs_files s !! p) as [b|]; [|done].
    cbn in H. injection H as <-. by exists b.
  - intros s l H. injection H as <-. split; [apply NoDup_fst_map_to_list|].
    intros p. rewrite list_elem_of_fmap. split.
    + intros ([q b] & -> & Hin). apply elem_of_map_to_list in Hin. by eexists.
    + intros [b Hb]. exists (p, b). split; [done|]. by apply elem_of_map_to_list.
  - intros p s s' H. cbn in H. unfold fs_delete in H.
    destruct (next_fault s) as [f s1] eqn:E. pose proof (next_fault_same s) as (E1 & E2 & _).
    rewrite E in E1, E2. cbn [snd] in E1, E2. destruct (fs_dir s1 !! p); [|done].
    destruct f; [done|]. injection H as <-. rewrite fs_files_set_dir, E1, E2.
    unfold fs_files. by rewrite omap_delete.
  - intros p s s' e H. cbn in H. unfold fs_delete in H.
    destruct (next_fault s) as [f s1] eqn:E. pose proof (next_fault_same s) as (E1 & E2 & _).
    rewrite E in E1, E2. cbn [snd] in E1, E2.
    assert (fs_files s1 = fs_files s) as Hs by (unfold fs_files; by rewrite E1, E2).
    destruct (fs_dir s1 !! p); [|injection H as <- _; by left].
    destruct f as [[k [|?]]|]; [| |done]; injection H as <- _; [by left|right].
    cbn [f_progress]. rewrite fs_files_set_dir, E1, E2. unfold fs_files. by rewrite omap_delete.
  - intros p k s. cbn. unfold fs_sync.
    destruct (next_fault s) as [f s1] eqn:E. pose proof (next_fault_same s) as (E1 & E2 & _).
    rewrite E in E1, E2. cbn [snd] in E1, E2.
    assert (fs_files s1 = fs_files s) as Hs by (unfold fs_files; by rewrite E1, E2).
    destruct f; [done|]. destruct p as [|name]; [done|].
    destruct (fs_dir s1 !! name) as [i|]; [|done].
    destruct (fs_inodes s1 !! i) as [n|] eqn:Ei; [|done]. cbn [fst]. rewrite <- Hs.
    unfold fs_files. cbn. apply map_eq. intros q. rewrite !lookup_omap.
    destruct (fs_dir s1 !! q) as [j|]; [|done]. cbn.
    destruct (decide (i = j)) as [<-|Hij]; [by rewrite lookup_insert_eq, Ei|].
    by rewrite lookup_insert_ne.
Defined.

(** ** Crashes *)

(** What a crash leaves of a stage: one of its directory states, synced files
    intact. *)
Record crashed_at (s : Stage) (fs' : Fs) : Prop := {
  cr_dir : fs_dir fs' ∈ st_dirs s;
  cr_inodes : ∀ i n, st_inodes s !! i = Some n → in_synced n = true →
                fs_inodes fs' !! i = Some n;
}.

(** A crash may fall back to any stage since the last full sync. *)
Definition crashed (fs fs' : Fs) : Prop :=
  ∃ s, s ∈ stage_of fs :: fs_past fs ∧ crashed_at s fs'.

Lemma crashed_now fs : fs_dir fs ∈ fs_dirs fs → crashed fs fs.
Proof. intros H. exists (stage_of fs). split; [left|]. by split. Qed.

(** A barrier makes nothing durable: it leaves every crash image of the time
    before it possible. *)
Lemma barrier_keeps_crashes p fs fs' :
  crashed fs fs' → crashed (fs_sync p Barrier fs).1 fs'.
Proof.
  intros Hc. assert (crashed (next_fault fs).2 fs') as (st & Hs & Hat).
  { unfold crashed, stage_of in *. by destruct (next_fault_same fs) as (-> & _ & -> & _ & ->). }
  unfold fs_sync. destruct (next_fault fs) as [[f|] fs1]; cbn [fst snd] in *; [by exists st|].
  destruct p as [|name]; [by exists st; split; [right|]|].
  destruct (fs_dir fs1 !! name) as [i|]; [|by exists st].
  destruct (fs_inodes fs1 !! i) as [n|]; [|by exists st]. exists st. by split; [right|].
Qed.

(** * Replacing a file atomically

    The store replaces its manifest and its log by writing a temporary file,
    syncing it, renaming it over the target and syncing the directory.  The
    invariant here bounds what the target name can read as after a crash at any
    point of that protocol, in the file-system model of [Vfs]; the manifest
    commit and the log repair are its clients. *)

Section Interface.
Context {S : Type} `{Vfs S}.

(** A sync the policy may skip. *)
Definition sync_if (requirement : SyncRequirement) (p : Path) (s : S)
    : S * result ErrorKind unit :=
  match requirement with
  | SyncSkip => (s, Ok tt)
  | SyncWith kind => v_sync p kind s
  end.
End Interface.

Section Replace.
Context (temp target : string) (Hne : temp ≠ target).

(** In every directory state of a stage, the target name is one of [candidates]
    (absent, or synced content). *)
Definition target_among (candidates : list (option bytes)) (s : Stage) : Prop :=
  ∀ d, d ∈ st_dirs s →
    match d !! target with
    | None => None ∈ candidates
    | Some i => ∃ n, st_inodes s !! i = Some n ∧ in_synced n = true
                     ∧ Some (in_data n) ∈ candidates
    end.

(** So it is in all a crash may expose, and the temporary name never shares the
    target's inode. *)
Record replace_inv (candidates : list (option bytes)) (fs : Fs) : Prop := {
  ri_current : fs_dir fs ∈ fs_dirs fs;
  ri_target : target_among candidates (stage_of fs);
  ri_temp : ∀ i d, fs_dir fs !! temp = Some i → d ∈ fs_dirs fs →
    d !! target ≠ Some i;
  ri_fresh : ∀ d p i, d ∈ fs_dirs fs → d !! p = Some i → (i < fs_next fs)%nat;
  ri_past : Forall (target_among candidates) (fs_past fs);
}.

Lemma target_among_weaken C C' s :
  target_among C s → (∀ c, c ∈ C → c ∈ C') → target_among C' s.
Proof using Type.
  intros H HC d Hd. specialize (H d Hd). destruct (d !! target) as [i|]; [|by apply HC].
  destruct H as (n & ? & ? & ?). exists n. split_and!; [done|done|by apply HC].
Qed.

(** The past a sync leaves. *)
Lemma target_past C kind fs : replace_inv C fs → Forall (target_among C) (past_after kind fs).
Proof using Type. intros [_ H2 _ _ H5]. destruct kind; [by constructor|constructor]. Qed.

Lemma replace_inv_same C fs fs' :
  replace_inv C fs → fs_inodes fs' = fs_inodes fs → fs_dir fs' = fs_dir fs →
  fs_dirs fs' = fs_dirs fs → fs_next fs' = fs_next fs → fs_past fs' = fs_past fs → replace_inv C fs'.
Proof using Type.
  intros [H1 H2 H3 H4 H5] E1 E2 E3 E4 E5. unfold stage_of in H2.
  split; unfold stage_of; rewrite ?E1, ?E2, ?E3, ?E4, ?E5; done.
Qed.

Lemma replace_inv_fault C fs : replace_inv C fs → replace_inv C (next_fault fs).2.
Proof using Type. intros H. destruct (next_fault_same fs) as (?&?&?&?&?). by eapply replace_inv_same. Qed.

Lemma replace_inv_weaken C C' fs :
  replace_inv C fs → (∀ c, c ∈ C → c ∈ C') → replace_inv C' fs.
Proof using Type.
  intros [H1 H2 H3 H4 H5] HC. split; try done; [by eapply target_among_weaken|].
  eapply Forall_impl; [exact H5|]. intros s Hs. by eapply target_among_weaken.
Qed.

(** Rewriting the temporary file leaves the target alone. *)
Lemma replace_inv_put C fs data :
  replace_inv C fs →
  let fs' := put_file temp data fs in
  replace_inv C fs'
  ∧ ∃ i, fs_dir fs' !! temp = Some i
         ∧ fs_inodes fs' !! i = Some {| in_data := data; in_synced := false |}.
Proof using Hne.
  intros [H1 H2 H3 H4 H5]. unfold put_file.
  destruct (fs_dir fs !! temp) as [i|] eqn:Ht.
  - split; [|exists i; cbn; by rewrite lookup_insert_eq]. split; cbn; try done.
    + intros d Hd. specialize (H2 d Hd). specialize (H3 i d eq_refl Hd). cbn in *.
      destruct (d !! target) as [j|]; [|done]. rewrite lookup_insert_ne by congruence. done.
    + intros j d Hj. rewrite Ht in Hj. injection Hj as <-. by apply H3.
  - cbn. split; [|exists (fs_next fs); by rewrite !lookup_insert_eq].
    assert (∀ d, d ∈ <[temp := fs_next fs]> (fs_dir fs) :: fs_dirs fs →
      ∃ d0, d0 ∈ fs_dirs fs ∧ d !! target = d0 !! target) as Hd0.
    { intros d [->|Hd]%elem_of_cons; [|by exists d]. exists (fs_dir fs). split; [done|].
      by rewrite lookup_insert_ne. }
    split; cbn.
    + left.
    + intros d Hd. destruct (Hd0 d Hd) as (d0 & Hin & ->). specialize (H2 d0 Hin). cbn in *.
      destruct (d0 !! target) as [j|] eqn:Hj; [|done].
      specialize (H4 _ _ _ Hin Hj). rewrite lookup_insert_ne by lia. done.
    + intros i d Hi Hd Heq. rewrite lookup_insert_eq in Hi. injection Hi as <-.
      destruct (Hd0 d Hd) as (d0 & Hin & E). rewrite E in Heq.
      specialize (H4 _ _ _ Hin Heq). lia.
    + intros d p i [->|Hd]%elem_of_cons Hi.
      * apply lookup_insert_Some in Hi as [[_ <-]|[_ Hi]]; [lia|].
        specialize (H4 _ _ _ H1 Hi). lia.
      * specialize (H4 _ _ _ Hd Hi). lia.
    + done.
Qed.

(** The temporary file holds [b], synced. *)
Definition temp_ready (b : bytes) (fs : Fs) : Prop :=
  ∃ i, fs_dir fs !! temp = Some i
       ∧ fs_inodes fs !! i = Some {| in_data := b; in_synced := true |}.

Lemma replace_inv_sync_temp C fs kind fs' r :
  replace_inv C fs → fs_sync (File temp) kind fs = (fs', r) →
  replace_inv C fs'
  ∧ (r = Ok tt → ∀ b s, (∃ i, fs_dir fs !! temp = Some i
                   ∧ fs_inodes fs !! i = Some {| in_data := b; in_synced := s |}) →
     temp_ready b fs').
Proof using Type.
  intros Hi H. unfold fs_sync in H. apply replace_inv_fault in Hi as Hf.
  destruct (next_fault_same fs) as (E1 & E2 & _). destruct (next_fault fs) as [f fs1].
  cbn [snd] in *. destruct f; [injection H as <- <-; by split|].
  destruct (fs_dir fs1 !! temp) as [i|] eqn:Ht; [|injection H as <- <-; by split].
  destruct (fs_inodes fs1 !! i) as [n|] eqn:Hn; injection H as <- <-; [|by split]. split.
  - pose proof (target_past C kind fs1 Hf) as Hp. destruct Hf as [H1 H2 H3 H4 H5]. split; cbn; try done.
    intros d Hd. specialize (H2 d Hd). specialize (H3 i d Ht Hd). cbn in *.
    destruct (d !! target) as [j|]; [|done]. by rewrite lookup_insert_ne by congruence.
  - intros _ b s (j & Hj & Hb). rewrite <- E2, Ht in Hj. injection Hj as <-.
    rewrite <- E1, Hn in Hb. injection Hb as ->. exists i. cbn.
    rewrite lookup_insert_eq. by split.
Qed.

Lemma replace_inv_rename C b fs fs' r :
  replace_inv C fs → temp_ready b fs →
  fs_rename temp target fs = (fs', r) →
  replace_inv (Some b :: C) fs'
  ∧ (r = Ok tt → ∃ i, fs_dir fs' !! target = Some i
       ∧ fs_inodes fs' !! i = Some {| in_data := b; in_synced := true |}
       ∧ fs_dir fs' !! temp = None).
Proof using Hne.
  intros Hi (i & Ht & Hn) H. unfold fs_rename in H. apply replace_inv_fault in Hi as Hf.
  destruct (next_fault_same fs) as (E1 & E2 & _). destruct (next_fault fs) as [f fs1].
  cbn [snd] in *. rewrite E2, Ht in H. rewrite <- E1 in Hn. rewrite <- E2 in Ht.
  assert (replace_inv (Some b :: C) fs1) as Hw.
  { eapply replace_inv_weaken; [exact Hf|]. intros c Hc. by right. }
  set (moved := set_dir _ _) in H.
  assert (fs_dir moved !! target = Some i) as Hm by (cbn; by rewrite lookup_insert_eq).
  assert (fs_dir moved !! temp = None) as Hm'
    by (cbn; rewrite lookup_insert_ne by done; by rewrite lookup_delete_eq).
  assert (replace_inv (Some b :: C) moved) as Hmv.
  { destruct Hw as [H1 H2 H3 H4 H5]. split.
    - left.
    - intros d [->|Hd]%elem_of_cons; [|by apply H2].
      change (fs_dir moved !! target) with (fs_dir moved !! target) in Hm.
      cbn in Hm. rewrite Hm. eexists. split; [exact Hn|]. split; [done|left].
    - intros j d Hj. by rewrite Hm' in Hj.
    - intros d p j [->|Hd]%elem_of_cons Hj; [|by eapply H4]. cbn.
      apply lookup_insert_Some in Hj as [[_ <-]|[_ Hj]]; [by eapply H4|].
      apply lookup_delete_Some in Hj as [_ Hj]. rewrite <- E2 in Hj. by eapply H4.
    - done. }
  destruct f as [[k [|n]]|]; injection H as <- <-; [by split..|]. split; [done|].
  intros _. exists i. by split_and!.
Qed.

Lemma replace_inv_sync_dir C b fs kind fs' r :
  replace_inv C fs → fs_sync Directory kind fs = (fs', r) →
  replace_inv C fs'
  ∧ (r = Ok tt → ∀ i, fs_dir fs !! target = Some i →
     fs_inodes fs !! i = Some {| in_data := b; in_synced := true |} →
     fs_dir fs !! temp = None → kind = Full → replace_inv [Some b] fs').
Proof using Type.
  intros Hi H. unfold fs_sync in H. apply replace_inv_fault in Hi as Hf.
  destruct (next_fault_same fs) as (E1 & E2 & _). destruct (next_fault fs) as [f fs1].
  cbn [snd] in *. destruct f; injection H as <- <-; [by split|].
  pose proof (target_past C kind fs1 Hf) as Hp. destruct Hf as [H1 H2 H3 H4 H5]. split.
  - split; cbn; [| | | |done].
    + left.
    + intros d ->%list_elem_of_singleton. by apply H2.
    + intros i d Hi' ->%list_elem_of_singleton. by apply H3.
    + intros d p i ->%list_elem_of_singleton. by apply H4.
  - intros _ i Hm Hn Ht ->. rewrite <- E2 in Hm, Ht. rewrite <- E1 in Hn. split; cbn; [| | | |constructor].
    + left.
    + cbn. intros d ->%list_elem_of_singleton. rewrite Hm. eexists. split; [exact Hn|]. split; [done|left].
    + intros j d Hj. by rewrite Ht in Hj.
    + intros d p j ->%list_elem_of_singleton. by apply H4.
Qed.

(** What a reader finds after a crash. *)
Lemma read_after_crash C fs fs' :
  replace_inv C fs → crashed fs fs' →
  ∃ c, c ∈ C ∧ v_read target fs' = ok_or c NotFound.
Proof using Type.
  intros Hi (s & Hs & Hd & Hn). assert (target_among C s) as H.
  { apply elem_of_cons in Hs as [->|Hs]; [apply Hi|].
    pose proof (ri_past _ _ Hi) as Hp. rewrite Forall_forall in Hp. by apply Hp. }
  specialize (H _ Hd). cbn. unfold fs_files. rewrite lookup_omap.
  destruct (fs_dir fs' !! target) as [i|]; cbn.
  - destruct H as (n & Hget & Hsync & Hc). exists (Some (in_data n)). split; [done|].
    by rewrite (Hn _ _ Hget Hsync).
  - by exists None.
Qed.

(** The whole protocol on a synced temporary, from the write on. *)
Lemma replace_inv_write C b fs fs' r :
  replace_inv C fs → fs_write temp b fs = (fs', r) →
  replace_inv C fs' ∧ (r = Ok tt → ∃ i, fs_dir fs' !! temp = Some i
    ∧ fs_inodes fs' !! i = Some {| in_data := b; in_synced := false |}).
Proof using Hne.
  intros Hi H. unfold fs_write in H. apply replace_inv_fault in Hi as Hf.
  destruct (next_fault fs) as [[f|] fs0]; injection H as <- <-;
    (split; [by apply replace_inv_put|]); [done|]. intros _. by eapply replace_inv_put.
Qed.

(** Reading back the temporary. *)
Lemma temp_reads b s fs :
  (∃ i, fs_dir fs !! temp = Some i
        ∧ fs_inodes fs !! i = Some {| in_data := b; in_synced := s |}) →
  v_read temp fs = Ok b.
Proof using Type.
  intros (i & Ht & Hn). cbn. unfold fs_files. rewrite lookup_omap, Ht. cbn. by rewrite Hn.
Qed.

(** Writing and syncing the temporary. *)
Lemma replace_prepare C b fs fs1 kind fs2 r :
  replace_inv C fs → v_write temp b fs = (fs1, Ok tt) → v_sync (File temp) kind fs1 = (fs2, r) →
  replace_inv C fs2 ∧ (r = Ok tt → temp_ready b fs2).
Proof using Hne.
  intros Hi H1 H2. cbn in H1, H2. destruct (replace_inv_write C b fs fs1 _ Hi H1) as [Hi1 Hput].
  destruct (replace_inv_sync_temp C fs1 kind fs2 r Hi1 H2) as [Hi2 Hready].
  split; [done|]. intros ->. by apply (Hready eq_refl b false), Hput.
Qed.

(** Renaming it over the target and syncing the directory. *)
Lemma replace_finish C b fs fs1 requirement fs2 r :
  replace_inv C fs → temp_ready b fs → v_rename temp target fs = (fs1, Ok tt) →
  sync_if requirement Directory fs1 = (fs2, r) →
  replace_inv (Some b :: C) fs2
  ∧ (r = Ok tt → v_read target fs2 = Ok b ∧ (requirement = SyncWith Full → replace_inv [Some b] fs2)).
Proof using Hne.
  intros Hi Hr H1 H2. cbn in H1. destruct (replace_inv_rename C b fs fs1 _ Hi Hr H1) as [Hi1 Hdone].
  destruct (Hdone eq_refl) as (i & Hm & Hn & Ht).
  assert (v_read target fs1 = Ok b) as Hread.
  { cbn. unfold fs_files. rewrite lookup_omap, Hm. cbn. by rewrite Hn. }
  destruct requirement as [|kind]; cbn [sync_if] in H2; [injection H2 as <- <-; by split|].
  cbn in H2. destruct (replace_inv_sync_dir _ b fs1 kind fs2 r Hi1 H2) as [Hi2 Hfin].
  split; [done|]. intros ->. split; [|intros [= ->]; by apply (Hfin eq_refl i)].
  rewrite <- Hread. pose proof (v_sync_files Directory kind fs1) as Hf. cbn in Hf. rewrite H2 in Hf. cbn in *. by rewrite Hf.
Qed.
End Replace.

(** The target of a directory on media. *)
Lemma target_reads temp target C fs :
  replace_inv temp target C fs → ∃ c, c ∈ C ∧ v_read target fs = ok_or c NotFound.
Proof.
  intros Hi. apply (read_after_crash temp target C fs fs Hi). apply crashed_now, Hi.
Qed.
