(* ===== verification/CrashDirectory.v ===== *)
(** * What a crash shows of a directory

    [Vfs] follows one name through the replacement of its file.  The
    store replaces several files in turn (a segment, then the manifest that
    names it, then the log), and what makes that safe is which combinations of
    them a crash can show.  Here a directory state is seen as a [view] of its
    visible names; [directory_inv] bounds the views a crash may expose, and each
    operation of the file-system model has a lemma that says how it changes the
    current view and that bound.  Names that start with a dot are temporary:
    their content is nobody's business. *)

From S2P Require Import Prelude Durability Vfs.

(** Absent; present with unsynced content; present with content on media. *)
Definition view : Type := string → option (option bytes).

Definition hidden (name : string) : bool := String.prefix "." name.

Definition inode_view (inodes : gmap nat Inode) (i : nat) : option bytes :=
  n ← inodes !! i; if in_synced n then Some (in_data n) else None.

Definition shown_in (inodes : gmap nat Inode) (d : gmap string nat) : view :=
  λ name, i ← d !! name; Some (inode_view inodes i).

Definition shown (fs : Fs) (d : gmap string nat) : view := shown_in (fs_inodes fs) d.

Definition agree (v w : view) : Prop := ∀ name, hidden name = false → v name = w name.

Definition put (name : string) (b : bytes) (v : view) : view :=
  λ other, if decide (other = name) then Some (Some b) else v other.

Definition remove (name : string) (v : view) : view :=
  λ other, if decide (other = name) then None else v other.

#[export] Instance agree_equivalence : Equivalence agree.
Proof.
  split; [done|intros v w H n Hn; by rewrite H|intros v w u H1 H2 n Hn; by rewrite H1, H2].
Qed.

#[export] Instance put_proper name b : Proper (agree ==> agree) (put name b).
Proof. intros v w H n Hn. unfold put. destruct (decide _); [done|by apply H]. Qed.

#[export] Instance remove_proper name : Proper (agree ==> agree) (remove name).
Proof. intros v w H n Hn. unfold remove. destruct (decide _); [done|by apply H]. Qed.

Lemma put_eq name b v : put name b v name = Some (Some b).
Proof. unfold put. by rewrite decide_True. Qed.

Lemma put_ne name b v other : other ≠ name → put name b v other = v other.
Proof. intros H. unfold put. by rewrite decide_False. Qed.

Lemma remove_ne name v other : other ≠ name → remove name v other = v other.
Proof. intros H. unfold remove. by rewrite decide_False. Qed.

(** Every directory state of a stage shows a view in [exposed]. *)
Definition stage_among (exposed : view → Prop) (s : Stage) : Prop :=
  ∀ d, d ∈ st_dirs s → ∃ v, exposed v ∧ agree (shown_in (st_inodes s) d) v.

(** The current directory shows [cur], and every directory state a crash may
    expose shows a view in [exposed].  The file of a temporary name has no
    visible name in any of them. *)
Record directory_inv (cur : view) (exposed : view → Prop) (fs : Fs) : Prop := {
  di_current : fs_dir fs ∈ fs_dirs fs;
  di_view : agree (shown fs (fs_dir fs)) cur;
  di_exposed : ∀ d, d ∈ fs_dirs fs → ∃ v, exposed v ∧ agree (shown fs d) v;
  di_hidden : ∀ temp i d name, hidden temp = true → fs_dir fs !! temp = Some i →
    d ∈ fs_dirs fs → d !! name = Some i → hidden name = true;
  di_single : ∀ temp i name, hidden temp = true → fs_dir fs !! temp = Some i →
    fs_dir fs !! name = Some i → name = temp;
  di_fresh : ∀ d name i, d ∈ fs_dirs fs → d !! name = Some i → (i < fs_next fs)%nat;
  di_past : Forall (stage_among exposed) (fs_past fs);
}.

Section Steps.
Implicit Types (cur v : view) (P : view → Prop) (fs : Fs).

Lemma directory_inv_same cur P fs fs' :
  directory_inv cur P fs → fs_inodes fs' = fs_inodes fs → fs_dir fs' = fs_dir fs →
  fs_dirs fs' = fs_dirs fs → fs_next fs' = fs_next fs → fs_past fs' = fs_past fs → directory_inv cur P fs'.
Proof.
  intros [H1 H2 H3 H4 H6 H5 H7] E1 E2 E3 E4 E5.
  assert (∀ d, shown fs' d = shown fs d) as Es by (intros d; unfold shown; by rewrite E1).
  split; rewrite ?E2, ?E3, ?E4, ?E5; try done; [by rewrite Es|]. intros d Hd. rewrite Es. by apply H3.
Qed.

Lemma directory_inv_fault cur P fs : directory_inv cur P fs → directory_inv cur P (next_fault fs).2.
Proof. intros H. destruct (next_fault_same fs) as (?&?&?&?&?). by eapply directory_inv_same. Qed.

(** Views only count up to [agree]. *)
Lemma directory_inv_agree cur cur' P Q fs :
  directory_inv cur P fs → agree cur cur' → (∀ v, P v → ∃ w, Q w ∧ agree v w) → directory_inv cur' Q fs.
Proof.
  intros [H1 H2 H3 H4 H6 H5 H7] Hc H. assert (∀ s, stage_among P s → stage_among Q s) as Hs.
  { intros s Hs d Hd. destruct (Hs d Hd) as (v & (w & Hw & Hvw)%H & Ha). exists w. split; [done|by rewrite Ha]. }
  split; try done; [by rewrite H2|by apply (Hs (stage_of fs))|]. by eapply Forall_impl.
Qed.

Lemma directory_inv_weaken cur P Q fs :
  directory_inv cur P fs → (∀ v, P v → Q v) → directory_inv cur Q fs.
Proof. intros Hi H. eapply directory_inv_agree; [done|done|]. intros v Hv. exists v. split; [by apply H|done]. Qed.

(** The past a sync leaves. *)
Lemma directory_past cur P kind fs : directory_inv cur P fs → Forall (stage_among P) (past_after kind fs).
Proof. intros [_ _ H3 _ _ _ H7]. destruct kind; [by constructor|constructor]. Qed.

Lemma directory_inv_set_past cur P past fs :
  directory_inv cur P fs → Forall (stage_among P) past → directory_inv cur P (set_past past fs).
Proof. intros [H1 H2 H3 H4 H6 H5 H7] Hp. by split. Qed.

(** A new current directory, over unchanged files. *)
Lemma directory_inv_set_dir cur cur' P fs d :
  directory_inv cur P fs → agree (shown fs d) cur' →
  (∀ temp i, hidden temp = true → d !! temp = Some i → fs_dir fs !! temp = Some i) →
  (∀ name i, d !! name = Some i → hidden name = false → ∃ other, fs_dir fs !! other = Some i) →
  (∀ temp i name, hidden temp = true → d !! temp = Some i → d !! name = Some i → name = temp) →
  directory_inv cur' (λ v, P v ∨ v = cur') (set_dir d fs).
Proof.
  intros [H1 H2 H3 H4 H6 H5 H7] Ha Ht Hn Hh. split; cbn.
  - left.
  - exact Ha.
  - intros d' [->|Hd']%elem_of_cons; [exists cur'; by split; [right|]|].
    destruct (H3 d' Hd') as (v & ? & ?). exists v. by split; [left|].
  - intros temp i d' name Hte Hi [->|Hd']%elem_of_cons Hname; [by rewrite (Hh temp i name)|].
    by eapply (H4 temp i d' name); [|apply Ht| |].
  - exact Hh.
  - intros d' name i [->|Hd']%elem_of_cons Hi; [|by eapply H5].
    destruct (hidden name) eqn:E; [by eapply (H5 (fs_dir fs) name), Ht|].
    destruct (Hn name i Hi E) as [other Ho]. by eapply H5.
  - eapply Forall_impl; [exact H7|]. intros s Hs d' Hd'. destruct (Hs d' Hd') as (v & ? & ?).
    exists v. by split; [left|].
Qed.

(** Rewriting one file that only temporary names have. *)
Lemma directory_inv_set_inode cur P fs i n :
  directory_inv cur P fs →
  (∀ d name, d ∈ fs_dirs fs → d !! name = Some i → hidden name = true) →
  directory_inv cur P (set_inode i n fs).
Proof.
  intros [H1 H2 H3 H4 H6 H5 H7] Hi.
  assert (∀ d, d ∈ fs_dirs fs → agree (shown (set_inode i n fs) d) (shown fs d)) as Hs.
  { intros d Hd name Hname. unfold shown, shown_in, inode_view. destruct (d !! name) as [j|] eqn:Ej; [|done]. cbn.
    rewrite lookup_insert_ne; [done|]. intros ->. by rewrite (Hi d name Hd Ej) in Hname. }
  split; cbn; try done.
  - etransitivity; [by apply Hs|done].
  - intros d Hd. destruct (H3 d Hd) as (v & Hv & Ha). exists v. split; [done|]. etransitivity; [by apply Hs|done].
Qed.

(** The temporary name has a file with this content. *)
Definition holds_file (temp : string) (b : bytes) (synced : bool) (fs : Fs) : Prop :=
  ∃ i, fs_dir fs !! temp = Some i ∧ fs_inodes fs !! i = Some {| in_data := b; in_synced := synced |}.

Lemma put_temporary cur P fs temp data :
  hidden temp = true → directory_inv cur P fs →
  directory_inv cur P (put_file temp data fs) ∧ holds_file temp data false (put_file temp data fs).
Proof.
  intros Ht Hi. unfold put_file. destruct (fs_dir fs !! temp) as [i|] eqn:E.
  - split; [|exists i; cbn; by rewrite lookup_insert_eq].
    apply directory_inv_set_inode; [done|]. intros d name Hd Hname. by eapply (di_hidden _ _ _ Hi temp i).
  - split; [|exists (fs_next fs); cbn; by rewrite !lookup_insert_eq].
    destruct (directory_inv_set_inode cur P fs (fs_next fs) {| in_data := data; in_synced := false |} Hi)
      as [H1 H2 H3 H4 H6 H5 H7].
    { intros d name Hd Hname. pose proof (di_fresh _ _ _ Hi d name _ Hd Hname). lia. }
    set (fs' := set_inode _ _ fs) in *.
    assert (agree (shown fs' (<[temp := fs_next fs]> (fs_dir fs))) (shown fs' (fs_dir fs))) as Ha.
    { intros name Hname. unfold shown, shown_in. rewrite lookup_insert_ne; [done|]. intros <-. congruence. }
    split; cbn.
    + left.
    + etransitivity; [exact Ha|exact H2].
    + intros d [->|Hd]%elem_of_cons; [|by apply H3]. destruct (H3 _ H1) as (v & Hv & Hv').
      exists v. split; [done|]. etransitivity; [exact Ha|exact Hv'].
    + intros t i d name Hte Hi' [->|Hd]%elem_of_cons Hname.
      * apply lookup_insert_Some in Hname as [[<- _]|[_ Hname]]; [done|].
        apply lookup_insert_Some in Hi' as [[_ <-]|[_ Hi']]; [|by eapply (H4 t i)].
        pose proof (di_fresh _ _ _ Hi _ _ _ (di_current _ _ _ Hi) Hname). lia.
      * apply lookup_insert_Some in Hi' as [[_ <-]|[_ Hi']]; [|by eapply (H4 t i)].
        pose proof (di_fresh _ _ _ Hi _ _ _ Hd Hname). lia.
    + intros t i name Hte Hi' Hname. apply lookup_insert_Some in Hi' as [[<- <-]|[_ Hi']];
        apply lookup_insert_Some in Hname as [[<- E']|[_ Hname]]; try done; [| |by eapply H6].
      * pose proof (di_fresh _ _ _ Hi _ _ _ (di_current _ _ _ Hi) Hname). lia.
      * subst i. pose proof (di_fresh _ _ _ Hi _ _ _ (di_current _ _ _ Hi) Hi'). lia.
    + intros d name i [->|Hd]%elem_of_cons Hname; [|specialize (H5 d name i Hd Hname); cbn in H5; lia].
      apply lookup_insert_Some in Hname as [[_ <-]|[_ Hname]]; [lia|].
      specialize (H5 _ name i H1 Hname). cbn in H5. lia.
    + exact H7.
Qed.

Lemma write_temporary cur P fs temp b fs' r :
  hidden temp = true → directory_inv cur P fs → v_write temp b fs = (fs', r) →
  directory_inv cur P fs' ∧ (r = Ok tt → holds_file temp b false fs').
Proof.
  intros Ht Hi H. cbn in H. unfold fs_write in H. apply directory_inv_fault in Hi.
  destruct (next_fault fs) as [[f|] fs0]; injection H as <- <-.
  - by split; [apply (put_temporary cur P)|].
  - split; [by apply (put_temporary cur P)|]. intros _. by eapply put_temporary.
Qed.

Lemma sync_temporary cur P fs temp b kind fs' r :
  hidden temp = true → directory_inv cur P fs → holds_file temp b false fs →
  v_sync (File temp) kind fs = (fs', r) →
  directory_inv cur P fs' ∧ (r = Ok tt → holds_file temp b true fs').
Proof.
  intros Ht Hi (i & Hd & Hn) H. cbn in H. unfold fs_sync in H. apply directory_inv_fault in Hi.
  destruct (next_fault_same fs) as (E1 & E2 & _). destruct (next_fault fs) as [f fs0]. cbn [snd] in *.
  destruct f; [by injection H as <- <-|]. rewrite E2, Hd, E1, Hn in H. injection H as <- <-. split.
  - apply directory_inv_set_inode; [apply directory_inv_set_past; [done|by eapply directory_past]|].
    intros d name Hin Hname. eapply (di_hidden _ _ _ Hi temp i); [done| |done|done]. by rewrite E2.
  - intros _. exists i. cbn. by rewrite E2, Hd, lookup_insert_eq.
Qed.

Lemma rename_temporary cur P fs temp target b fs' r :
  hidden temp = true → hidden target = false → directory_inv cur P fs → holds_file temp b true fs →
  v_rename temp target fs = (fs', r) →
  directory_inv cur P fs' ∧ r ≠ Ok tt
  ∨ directory_inv (put target b cur) (λ v, P v ∨ v = put target b cur) fs'.
Proof.
  intros Ht Hf Hi (i & Hd & Hn) H. cbn in H. unfold fs_rename in H. apply directory_inv_fault in Hi.
  destruct (next_fault_same fs) as (E1 & E2 & _). destruct (next_fault fs) as [f fs0]. cbn [snd] in *.
  rewrite <- E2 in Hd. rewrite <- E1 in Hn. rewrite Hd in H.
  assert (directory_inv (put target b cur) (λ v, P v ∨ v = put target b cur)
            (set_dir (<[target := i]> (delete temp (fs_dir fs0))) fs0)) as Hmoved.
  { apply (directory_inv_set_dir cur); [done| | | |].
    - rewrite <- (di_view _ _ _ Hi). intros name Hname. unfold shown, shown_in, put. destruct (decide (name = target)) as [->|Hne].
      + rewrite lookup_insert_eq. cbn. unfold inode_view. by rewrite Hn.
      + rewrite lookup_insert_ne by done. rewrite lookup_delete_ne; [done|]. intros ->. congruence.
    - intros t j Hte Hj. apply lookup_insert_Some in Hj as [[<- _]|[_ Hj]]; [congruence|].
      by apply lookup_delete_Some in Hj as [_ Hj].
    - intros name j Hj Hname. apply lookup_insert_Some in Hj as [[_ <-]|[_ Hj]]; [by exists temp|].
      apply lookup_delete_Some in Hj as [_ Hj]. by exists name.
    - intros t j name Hte Hj Hname. apply lookup_insert_Some in Hj as [[<- _]|[_ Hj]]; [congruence|].
      apply lookup_delete_Some in Hj as [Hne Hj]. apply lookup_insert_Some in Hname as [[_ <-]|[_ Hname]].
      + destruct Hne. exact (di_single _ _ _ Hi t i temp Hte Hj Hd).
      + apply lookup_delete_Some in Hname as [_ Hname]. exact (di_single _ _ _ Hi t j name Hte Hj Hname). }
  destruct f as [[k [|p]]|]; injection H as <- <-; [left; by split|by right|by right].
Qed.

Lemma sync_directory cur P fs kind fs' r :
  directory_inv cur P fs → v_sync Directory kind fs = (fs', r) →
  directory_inv cur P fs' ∧ (r = Ok tt → kind = Full → directory_inv cur (λ v, v = cur) fs').
Proof.
  intros Hi H. cbn in H. unfold fs_sync in H. apply directory_inv_fault in Hi.
  destruct (next_fault fs) as [f fs0]. cbn [snd] in *. destruct f; injection H as <- <-; [by split|].
  pose proof (directory_past _ _ kind _ Hi) as Hp. destruct Hi as [H1 H2 H3 H4 H6 H5 H7].
  assert (∀ Q : view → Prop, (∃ v, Q v ∧ agree (shown fs0 (fs_dir fs0)) v) →
    Forall (stage_among Q) (past_after kind fs0) →
    directory_inv cur Q {| fs_inodes := fs_inodes fs0; fs_dir := fs_dir fs0; fs_dirs := [fs_dir fs0];
      fs_past := past_after kind fs0; fs_next := fs_next fs0; fs_faults := fs_faults fs0 |}) as Hq.
  { intros Q HQ HQp. split; cbn; [left|done| | |done| |done].
    - by intros d ->%list_elem_of_singleton.
    - intros t i d name Ht Hi ->%list_elem_of_singleton. by eapply H4.
    - intros d name i ->%list_elem_of_singleton. by eapply H5. }
  split; [by apply Hq; [apply H3|]|]. intros _ ->. apply Hq; [by exists cur|constructor].
Qed.

(** Deleting a file: not done and reported, or done. *)
Lemma delete_name cur P fs name fs' r :
  directory_inv cur P fs → v_delete name fs = (fs', r) →
  directory_inv cur P fs' ∧ r ≠ Ok tt
  ∨ directory_inv (remove name cur) (λ v, P v ∨ v = remove name cur) fs'.
Proof.
  intros Hi H. cbn in H. unfold fs_delete in H. apply directory_inv_fault in Hi.
  destruct (next_fault fs) as [f fs0]. cbn [snd] in *.
  destruct (fs_dir fs0 !! name) as [i|] eqn:Ei; [|injection H as <- <-; by left].
  assert (directory_inv (remove name cur) (λ v, P v ∨ v = remove name cur)
            (set_dir (delete name (fs_dir fs0)) fs0)) as Hgone.
  { apply (directory_inv_set_dir cur); [done| | | |].
    - rewrite <- (di_view _ _ _ Hi). intros other Ho. unfold shown, shown_in, remove.
      destruct (decide (other = name)) as [->|Hne]; [by rewrite lookup_delete_eq|by rewrite lookup_delete_ne].
    - intros t j _ Hj. by apply lookup_delete_Some in Hj as [_ Hj].
    - intros other j Hj _. apply lookup_delete_Some in Hj as [_ Hj]. by exists other.
    - intros t j other Ht [_ Hj]%lookup_delete_Some [_ Hj']%lookup_delete_Some. by eapply di_single. }
  destruct f as [[k [|p]]|]; injection H as <- <-; [left; by split|by right|by right].
Qed.

(** *** Reads *)

Lemma shown_reads fs name b : shown fs (fs_dir fs) name = Some (Some b) → fs_files fs !! name = Some b.
Proof.
  unfold shown, shown_in, inode_view, fs_files. rewrite lookup_omap. destruct (fs_dir fs !! name) as [i|]; [|done]. cbn.
  destruct (fs_inodes fs !! i) as [n|]; [|done]. cbn. destruct (in_synced n); congruence.
Qed.

Lemma shown_absent fs name : shown fs (fs_dir fs) name = None → fs_files fs !! name = None.
Proof. unfold shown, shown_in, fs_files. rewrite lookup_omap. by destruct (fs_dir fs !! name). Qed.

Lemma view_reads cur P fs name b :
  directory_inv cur P fs → hidden name = false → cur name = Some (Some b) →
  v_read name fs = Ok b ∧ v_open name fs = Ok (len b).
Proof.
  intros Hi Hn Hc. cbn. rewrite (shown_reads fs name b); [done|]. by rewrite (di_view _ _ _ Hi name Hn).
Qed.

Lemma view_absent cur P fs name :
  directory_inv cur P fs → hidden name = false → cur name = None →
  v_read name fs = Err NotFound ∧ v_open name fs = Err NotFound.
Proof.
  intros Hi Hn Hc. cbn. rewrite (shown_absent fs name); [done|]. by rewrite (di_view _ _ _ Hi name Hn).
Qed.

Lemma file_reads fs temp b synced : holds_file temp b synced fs → v_read temp fs = Ok b.
Proof. intros (i & Hd & Hn). cbn. unfold fs_files. rewrite lookup_omap, Hd. cbn. by rewrite Hn. Qed.

(** A crash leaves one of the exposed views. *)
Lemma crash_shows cur P fs fs' :
  directory_inv cur P fs → crashed fs fs' →
  ∃ v, P v ∧ (∀ name b, hidden name = false → v name = Some (Some b) → v_read name fs' = Ok b)
           ∧ (∀ name, hidden name = false → v name = None → v_read name fs' = Err NotFound).
Proof.
  intros Hi (s & Hs & Hd & Hn). assert (stage_among P s) as Hst.
  { apply elem_of_cons in Hs as [->|Hs]; [exact (di_exposed _ _ _ Hi)|].
    pose proof (di_past _ _ _ Hi) as Hp. rewrite Forall_forall in Hp. by apply Hp. }
  destruct (Hst _ Hd) as (v & Hv & Ha). exists v. split; [done|].
  split; intros name.
  - intros b Hname Hb. rewrite <- (Ha name Hname) in Hb. cbn. rewrite (shown_reads fs' name b); [done|].
    unfold shown, shown_in, inode_view in *. destruct (fs_dir fs' !! name) as [i|]; [|done]. cbn in *.
    destruct (st_inodes s !! i) as [n|] eqn:Ei; [|done]. cbn in Hb.
    destruct (in_synced n) eqn:Es; [|done]. rewrite (Hn i n Ei Es). cbn. by rewrite Es.
  - intros Hname Hb. rewrite <- (Ha name Hname) in Hb. cbn. rewrite (shown_absent fs' name); [done|].
    unfold shown, shown_in in *. by destruct (fs_dir fs' !! name).
Qed.
End Steps.

(** ** Replacing a file *)

(** The outcome of replacing [target]: before or after, and for good once it has
    succeeded with a full sync of the directory. *)
Definition replaced (target : string) (b : bytes) (cur : view) (P : view → Prop) (synced success : Prop)
    (fs : Fs) : Prop :=
  let after := put target b cur in
  (directory_inv cur (λ v, P v ∨ v = after) fs ∨ directory_inv after (λ v, P v ∨ v = after) fs)
  ∧ (success → directory_inv after (λ v, P v ∨ v = after) fs ∧ (synced → directory_inv after (λ v, v = after) fs)).

Lemma not_replaced target b cur P synced (success : Prop) fs :
  directory_inv cur P fs → ¬ success → replaced target b cur P synced success fs.
Proof.
  intros Hi Hd. split; [|done]. left. eapply directory_inv_weaken; [done|]. intros v Hv. by left.
Qed.

Lemma replaced_success target b cur P synced (success success' : Prop) fs :
  replaced target b cur P synced success fs → (success' → success) → replaced target b cur P synced success' fs.
Proof. intros [H1 H2] H. split; [done|]. intros Hs. by apply H2, H. Qed.

(** The directory sync after the rename. *)
Lemma replaced_sync target b cur P fs requirement fs' r :
  directory_inv (put target b cur) (λ v, P v ∨ v = put target b cur) fs →
  sync_if requirement Directory fs = (fs', r) →
  replaced target b cur P (requirement = SyncWith Full) (r = Ok tt) fs'.
Proof.
  intros Hi H. destruct requirement as [|kind]; cbn [sync_if] in H.
  - injection H as <- <-. split; [by right|]. by split.
  - destruct (sync_directory _ _ _ _ _ _ Hi H) as [Hi2 Hok]. split; [by right|]. intros ->.
    split; [done|]. intros [= ->]. by apply Hok.
Qed.

(** From a synced temporary on. *)
Lemma replace_target temp target b cur P fs fs1 r1 :
  hidden temp = true → hidden target = false → directory_inv cur P fs → holds_file temp b true fs →
  v_rename temp target fs = (fs1, r1) →
  (r1 ≠ Ok tt → ∀ synced success, ¬ success → replaced target b cur P synced success fs1)
  ∧ (r1 = Ok tt → directory_inv (put target b cur) (λ v, P v ∨ v = put target b cur) fs1).
Proof.
  intros Ht Hf Hi Hh Hr. destruct (rename_temporary cur P fs temp target b fs1 r1 Ht Hf Hi Hh Hr) as [[Hi1 Hne]|Hi1].
  - split; [|done]. intros _ synced success Hd. by apply not_replaced.
  - split; [|done]. intros _ synced success Hd. split; [by right|done].
Qed.

(** Opening a file of the current directory for appending. *)
Lemma open_append_present cur P fs name fs' r :
  directory_inv cur P fs → hidden name = false → is_Some (cur name) →
  v_open_append name fs = (fs', r) → directory_inv cur P fs'.
Proof.
  intros Hi Hn [c Hc] H. cbn in H. unfold fs_open_append in H. apply directory_inv_fault in Hi.
  destruct (next_fault fs) as [f fs0]. cbn [snd] in *. destruct f; [by injection H as <- _|].
  rewrite <- (di_view _ _ _ Hi name Hn) in Hc. unfold shown, shown_in in Hc.
  destruct (fs_dir fs0 !! name); [|done]. by injection H as <- _.
Qed.
