(* ===== verification/ManifestIo.v ===== *)
(** * Committing, loading and sweeping manifests

    Models [crates/zeppelin-embed/src/manifest/io.rs] over the [Vfs] interface:
    [commit_manifest] (temporary file, file sync, rename, directory sync),
    [load_manifest] with its log guard, [sweep_orphans] and
    [cleanup_store_orphans]; and [SegmentId::file_name] of [segment/mod.rs].

    [open_manifest] is modelled in [Snapshot], with the segment headers it
    validates; [cleanup_store_orphans]' [before_unlink] hook, which returns
    nothing, is left out. *)

From S2P Require Import Prelude Format Durability Schema Epoch Manifest ManifestCodec Vfs.

Definition MANIFEST_FILE : string := "manifest.ze".
Definition MANIFEST_TEMP_FILE : string := ".manifest.ze.tmp".

(** ** File names *)

Definition starts_with (prefix name : string) : bool := String.prefix prefix name.
Definition ends_with (suffix name : string) : bool :=
  String.prefix (String.rev suffix) (String.rev name).

Definition is_segment_file (name : string) : bool :=
  starts_with "segment-" name && ends_with ".zseg" name.

Definition hex_digit (z : Z) : string :=
  match z with
  | 0 => "0" | 1 => "1" | 2 => "2" | 3 => "3" | 4 => "4" | 5 => "5" | 6 => "6" | 7 => "7"
  | 8 => "8" | 9 => "9" | 10 => "a" | 11 => "b" | 12 => "c" | 13 => "d" | 14 => "e" | _ => "f"
  end.

(** [{byte:02x}]. *)
Definition hex_byte (b : byte) : string :=
  let z := Z.of_N (Byte.to_N b) in hex_digit (z / 16) +:+ hex_digit (z mod 16).

(** [SegmentId::file_name]. *)
Definition segment_file_name (id : bytes) : string :=
  "segment-" +:+ foldr (λ b name, hex_byte b +:+ name) ".zseg" id.

Definition is_eligible_store_orphan (name : string) (reachable_segments : list string)
    (graph_enabled : bool) : bool :=
  let unreferenced_final :=
    starts_with "segment-" name && ends_with ".zseg" name
    && negb (bool_decide (name ∈ reachable_segments)) in
  let segment_temporary := starts_with ".segment-" name && ends_with ".zseg.tmp" name in
  let graph_orphan :=
    negb graph_enabled && starts_with "graph-" name && ends_with ".zgraph" name in
  unreferenced_final || segment_temporary || String.eqb name MANIFEST_TEMP_FILE || graph_orphan.

(** ** Operations *)

Record OrphanCleanupReport : Type := {
  oc_reclaimed_bytes : Z;
  oc_deleted_paths : list string;
  oc_retained_eligible_paths : list string;
  oc_directory_synced : bool;
}.

Section Io.
Context {X : Xxh3} {S : Type} `{Vfs S}.

Definition commit_manifest (manifest : Manifest) (policy : DurabilityPolicy) (s : S)
    : S * result ManifestError unit :=
  match encode_manifest manifest with
  | Err e => (s, Err e)
  | Ok b =>
    match v_write MANIFEST_TEMP_FILE b s with
    | (s, Err k) => (s, Err (ManifestIo MANIFEST_TEMP_FILE k))
    | (s, Ok _) =>
      match sync_if (data_file_sync policy) (File MANIFEST_TEMP_FILE) s with
      | (s, Err k) => (s, Err (ManifestIo MANIFEST_TEMP_FILE k))
      | (s, Ok _) =>
        match v_rename MANIFEST_TEMP_FILE MANIFEST_FILE s with
        | (s, Err k) => (s, Err (ManifestIo MANIFEST_FILE k))
        | (s, Ok _) =>
          match sync_if (directory_sync policy) Directory s with
          | (s, Err k) => (s, Err (ManifestIo "." k))
          | (s, Ok _) => (s, Ok tt)
          end
        end
      end
    end
  end.

Definition load_manifest (path : string) (durable_log_end : Z) (s : S)
    : result ManifestError Manifest :=
  b ← map_err (ManifestIo path) (v_read path s);
  manifest ← decode_manifest path b;
  if durable_log_end <? mf_log_seq manifest
  then Err (AheadOfLog (mf_log_seq manifest) durable_log_end)
  else Ok manifest.

(** The loop of [sweep_orphans]. *)
Fixpoint sweep_loop (reachable exclusions : list string) (paths : list string)
    (reclaimed : Z) (s : S) : S * result ManifestError Z :=
  match paths with
  | [] => (s, Ok reclaimed)
  | path :: paths =>
      if negb (is_segment_file path) || bool_decide (path ∈ reachable)
         || bool_decide (path ∈ exclusions)
      then sweep_loop reachable exclusions paths reclaimed s
      else
      match v_open path s with
      | Err k => (s, Err (ManifestIo path k))
      | Ok length =>
          match v_delete path s with
          | (s, Err k) => (s, Err (ManifestIo path k))
          | (s, Ok _) =>
              sweep_loop reachable exclusions paths (saturating_add u64_max reclaimed length) s
          end
      end
  end.

Definition sweep_orphans (manifest : Manifest) (writing_exclusions : list string) (s : S)
    : S * result ManifestError Z :=
  let reachable := map (λ segment, segment_file_name (sm_id segment)) (mf_segments manifest) in
  match v_list s with
  | Err k => (s, Err (ManifestIo "." k))
  | Ok paths => sweep_loop reachable writing_exclusions paths 0 s
  end.

(** The loop of [cleanup_store_orphans]. *)
Fixpoint cleanup_loop (reachable_segments : list string) (graph_enabled : bool)
    (paths : list string) (reclaimed : Z) (deleted retained : list string) (s : S)
    : S * result ManifestError (Z * list string * list string) :=
  match paths with
  | [] => (s, Ok (reclaimed, deleted, retained))
  | path :: paths =>
      if negb (is_eligible_store_orphan path reachable_segments graph_enabled)
      then cleanup_loop reachable_segments graph_enabled paths reclaimed deleted retained s
      else
      match v_open path s with
      | Err k => (s, Err (ManifestIo path k))
      | Ok length =>
          match v_delete path s with
          | (s, Err k) => (s, Err (ManifestIo path k))
          | (s, Ok _) =>
              match v_open path s with
              | Err NotFound =>
                  match checked_add u64_max reclaimed length with
                  | None => (s, Err (ManifestIo "." OtherKind))
                  | Some reclaimed =>
                      cleanup_loop reachable_segments graph_enabled paths reclaimed
                        (deleted ++ [path]) retained s
                  end
              | Ok _ =>
                  cleanup_loop reachable_segments graph_enabled paths reclaimed deleted
                    (retained ++ [path]) s
              | Err k => (s, Err (ManifestIo path k))
              end
          end
      end
  end.

(** [paths.sort_unstable()]. *)
Definition sort_paths (paths : list string) : list string :=
  merge_sort (λ a b, Is_true (String.leb a b)) paths.

Definition cleanup_store_orphans (reachable_segments : list string) (graph_enabled : bool) (policy : DurabilityPolicy)
    (s : S) : S * result ManifestError OrphanCleanupReport :=
  match v_list s with
  | Err k => (s, Err (ManifestIo "." k))
  | Ok paths =>
      match cleanup_loop reachable_segments graph_enabled (sort_paths paths) 0 [] [] s with
      | (s, Err e) => (s, Err e)
      | (s, Ok (reclaimed, deleted, retained)) =>
          let report synced := {| oc_reclaimed_bytes := reclaimed;
            oc_deleted_paths := deleted; oc_retained_eligible_paths := retained;
            oc_directory_synced := synced |} in
          match deleted, directory_sync policy with
          | _ :: _, SyncWith kind =>
              match v_sync Directory kind s with
              | (s, Err k) => (s, Err (ManifestIo "." k))
              | (s, Ok _) => (s, Ok (report true))
              end
          | _, _ => (s, Ok (report false))
          end
      end
  end.
End Io.

(** ** The commit protocol survives crashes *)

Abbreviation commit_inv := (replace_inv MANIFEST_TEMP_FILE MANIFEST_FILE).

Section CommitProof.
Context {X : Xxh3} {L : Xxh3Laws X}.

Lemma commit_manifest_inv C fs m policy b fs' r :
  commit_inv C fs → data_file_sync policy ≠ SyncSkip → encode_manifest m = Ok b →
  commit_manifest m policy fs = (fs', r) →
  commit_inv (Some b :: C) fs'
  ∧ (r = Ok tt → directory_sync policy = SyncWith Full → commit_inv [Some b] fs').
Proof using Type.
  intros Hi Hd He H. unfold commit_manifest in H. rewrite He in H.
  assert (MANIFEST_TEMP_FILE ≠ MANIFEST_FILE) as Hne by done.
  assert (∀ fs1, commit_inv C fs1 → commit_inv (Some b :: C) fs1) as Hw.
  { intros fs1 H1. eapply replace_inv_weaken; [exact H1|]. intros c Hc. by right. }
  destruct (v_write MANIFEST_TEMP_FILE b fs) as [fs1 r1] eqn:E1.
  destruct r1 as [[]|k].
  2:{ injection H as <- <-. split; [|done]. apply Hw. by eapply replace_inv_write. }
  destruct (data_file_sync policy) as [|kind]; [done|]. cbn [sync_if] in H.
  destruct (v_sync (File MANIFEST_TEMP_FILE) kind fs1) as [fs2 r2] eqn:E2.
  destruct (replace_prepare _ _ Hne C b fs fs1 kind fs2 r2 Hi E1 E2) as [Hi2 Hready].
  destruct r2 as [[]|k]; [|injection H as <- <-; split; [by apply Hw|done]].
  specialize (Hready eq_refl).
  destruct (v_rename MANIFEST_TEMP_FILE MANIFEST_FILE fs2) as [fs3 r3] eqn:E3.
  destruct r3 as [[]|k].
  2:{ injection H as <- <-. split; [|done]. by eapply replace_inv_rename. }
  destruct (sync_if (directory_sync policy) Directory fs3) as [fs4 r4] eqn:E4.
  destruct (replace_finish _ _ Hne C b fs2 fs3 _ fs4 r4 Hi2 Hready E3 E4) as [Hi4 Hfin].
  destruct r4 as [[]|k]; injection H as <- <-; [|by split]. split; [done|].
  intros _ Hds. by apply (Hfin eq_refl).
Qed.

(** C23: Committing a manifest is crash-atomic under injected I/O faults: when the
    policy orders the data file before the rename (a barrier or a full sync), after
    any crash the manifest name reads as one of the earlier contents or as the
    complete new encoding. Once the commit has returned success under full syncs of
    file and directory, it is durable: every crash leaves a store that loads the new
    manifest (or refuses it as ahead of the log). A barrier promises no durability:
    under it a crash may still show an earlier content. *)
Theorem manifest_commit_atomic (old : list (option bytes)) (fs fs' fs'' : Fs) (m : Manifest)
    (policy : DurabilityPolicy) (r : result ManifestError unit) :
  manifest_ok m → validate_epoch_references m = Ok tt →
  len (manifest_payload m) + 56 ≤ isize_max →
  commit_inv old fs → data_file_sync policy ≠ SyncSkip →
  commit_manifest m policy fs = (fs', r) → crashed fs' fs'' →
  (∃ c, (c ∈ old ∨ c = ok (encode_manifest m)) ∧ v_read MANIFEST_FILE fs'' = ok_or c NotFound)
  ∧ (r = Ok tt → full_sync policy → ∀ durable_log_end,
     load_manifest MANIFEST_FILE durable_log_end fs''
     = if durable_log_end <? mf_log_seq m then Err (AheadOfLog (mf_log_seq m) durable_log_end)
       else Ok m).
Proof using L.
  intros Hm Hv Hl Hi Hd Hc Hcr.
  pose proof (decode_encode_manifest MANIFEST_FILE m Hm Hv Hl) as (b & He & Hdec).
  rewrite He. destruct (commit_manifest_inv old fs m policy b fs' r Hi Hd He Hc) as [H1 H2]. split.
  - destruct (read_after_crash _ _ _ _ _ H1 Hcr) as (c & Hin & Hr). exists c. split; [|done].
    apply elem_of_cons in Hin as [->|Hin]; [by right|by left].
  - intros Hr [_ Hds] end_. destruct (read_after_crash _ _ _ _ _ (H2 Hr Hds) Hcr) as (c & Hin & Hrd).
    apply list_elem_of_singleton in Hin as ->. unfold load_manifest. rewrite Hrd. rsimpl.
    by rewrite Hdec.
Qed.
End CommitProof.

(** ** Sweeping deletes only orphans *)

Section Sweep.
Context {X : Xxh3} {S : Type} `{VfsLaws S}.

Definition sweepable (reachable exclusions : list string) (p : string) : bool :=
  is_segment_file p && negb (bool_decide (p ∈ reachable)) && negb (bool_decide (p ∈ exclusions)).

(** The bytes of the files in [l]. *)
Definition files_total (files : gmap string bytes) (l : list string) : Z :=
  foldr (λ p n, len (default [] (files !! p)) + n) 0 l.

Lemma files_total_delete files p l :
  p ∉ l → files_total (delete p files) l = files_total files l.
Proof.
  induction l as [|q l IH]; intros Hp; [done|]. apply not_elem_of_cons in Hp as [Hq Hp].
  unfold files_total in *. cbn [foldr]. by rewrite IH, lookup_delete_ne.
Qed.

Lemma files_total_nonneg files l : 0 ≤ files_total files l.
Proof.
  induction l as [|q l IH]; [done|]. unfold files_total in *. cbn [foldr].
  pose proof (len_nonneg (default [] (files !! q))). lia.
Qed.

Lemma sweep_loop_spec reachable exclusions paths : ∀ reclaimed s s' r,
  sweep_loop reachable exclusions paths reclaimed s = (s', r) → NoDup paths →
  0 ≤ reclaimed ≤ u64_max →
  (∀ p, sweepable reachable exclusions p = false → v_files s' !! p = v_files s !! p)
  ∧ ∀ n, r = Ok n →
      v_files s' = filter (λ pb, ¬ (pb.1 ∈ filter (sweepable reachable exclusions) paths))
                     (v_files s)
      ∧ n = Z.min u64_max (reclaimed + files_total (v_files s)
                              (filter (sweepable reachable exclusions) paths)).
Proof.
  induction paths as [|p paths IH]; intros reclaimed s s' r Hs Hnd Hr; cbn [sweep_loop] in Hs.
  { injection Hs as <- <-. split; [done|]. intros n [= <-]. split.
    - symmetry. apply map_filter_id. intros i x _ Hin. by apply elem_of_nil in Hin.
    - cbn. lia. }
  apply NoDup_cons in Hnd as [Hp Hnd]. rewrite filter_cons.
  assert (negb (is_segment_file p) || bool_decide (p ∈ reachable) || bool_decide (p ∈ exclusions)
          = negb (sweepable reachable exclusions p)) as Hcond.
  { unfold sweepable. by destruct (is_segment_file p), (bool_decide (p ∈ reachable)),
      (bool_decide (p ∈ exclusions)). }
  rewrite Hcond in Hs. destruct (sweepable reachable exclusions p) eqn:Esw; cbn [negb] in Hs.
  2:{ rewrite decide_False by (intros []). by apply IH in Hs. }
  rewrite decide_True by exact I.
  destruct (v_open p s) as [length|k] eqn:Eo; [|injection Hs as <- <-; by split].
  apply v_open_ok in Eo as (b & Hb & ->).
  destruct (v_delete p s) as [s1 [[]|k]] eqn:Ed.
  2:{ injection Hs as <- <-. split; [|done]. intros q Hq. apply v_delete_err in Ed as [->| ->]; [done|].
      rewrite lookup_delete_ne; [done|]. intros ->. by rewrite Esw in Hq. }
  apply v_delete_ok in Ed. pose proof (len_nonneg b).
  apply IH in Hs as [IH1 IH2]; [|done|unfold saturating_add, u64_max in *; lia]. split.
  - intros q Hq. rewrite IH1 by done. rewrite Ed, lookup_delete_ne; [done|].
    intros ->. by rewrite Esw in Hq.
  - intros n Hn. destruct (IH2 n Hn) as [E1 E2]. split.
    + rewrite E1, Ed. apply map_eq. intros q. apply option_eq. intros x.
      rewrite !map_lookup_filter_Some, lookup_delete_Some, not_elem_of_cons. cbn [fst].
      naive_solver.
    + rewrite E2, Ed. rewrite files_total_delete.
      * unfold files_total at 2. cbn [foldr]. rewrite Hb. cbn [default].
        fold (files_total (v_files s) (filter (sweepable reachable exclusions) paths)).
        pose proof (files_total_nonneg (v_files s) (filter (sweepable reachable exclusions) paths)).
        unfold saturating_add, u64_max in *. cbn [id]. lia.
      * intros Hin. apply list_elem_of_filter in Hin as [_ Hin]. done.
Qed.

(** Sweeping orphans under any file-system behaviour the interface allows
    leaves every file that is not a segment file, is referenced by the manifest or
    is excluded as it was, and after a successful sweep no other segment file is
    left. *)
Theorem sweep_deletes_only_orphans (m : Manifest) (exclusions : list string) (s s' : S)
    (r : result ManifestError Z) :
  sweep_orphans m exclusions s = (s', r) →
  let reachable := map (λ segment, segment_file_name (sm_id segment)) (mf_segments m) in
  (∀ p, is_segment_file p = false ∨ p ∈ reachable ∨ p ∈ exclusions →
     v_files s' !! p = v_files s !! p)
  ∧ ∀ n, r = Ok n → ∀ p, is_segment_file p = true → p ∉ reachable → p ∉ exclusions →
      v_files s' !! p = None.
Proof.
  intros Hs reachable. unfold sweep_orphans in Hs. fold reachable in Hs.
  destruct (v_list s) as [paths|k] eqn:El; [|injection Hs as <- <-; by split].
  apply v_list_ok in El as [Hnd Hin].
  apply sweep_loop_spec in Hs as [H1 H2]; [|done|unfold u64_max; lia]. split.
  - intros p Hp. apply H1. unfold sweepable.
    destruct Hp as [->|[Hp|Hp]]; [done| |].
    + rewrite (bool_decide_true _ Hp). by rewrite andb_false_r.
    + rewrite (bool_decide_true (p ∈ exclusions)) by done. by rewrite andb_false_r.
  - intros n Hn p Hseg Hr He. destruct (H2 n Hn) as [-> _].
    apply eq_None_not_Some. intros [b Hb]. apply map_lookup_filter_Some in Hb as [Hb Hnin].
    apply Hnin. cbn [fst]. apply list_elem_of_filter. split.
    + unfold sweepable. rewrite Hseg, !bool_decide_false by done. done.
    + apply Hin. by eexists.
Qed.

(** The cleanup loop, from the state it starts in: what it deletes, and what
    it reports. *)
Lemma cleanup_loop_spec reachable graph paths : ∀ reclaimed deleted retained s s' r,
  cleanup_loop reachable graph paths reclaimed deleted retained s = (s', r) → NoDup paths →
  let eligible := filter (λ p, is_eligible_store_orphan p reachable graph) paths in
  (∀ p, v_files s' !! p = v_files s !! p
        ∨ is_eligible_store_orphan p reachable graph = true ∧ v_files s' !! p = None)
  ∧ ∀ total gone kept, r = Ok (total, gone, kept) →
      (∀ p, p ∈ eligible → v_files s' !! p = None)
      ∧ gone = deleted ++ eligible ∧ kept = retained
      ∧ total = reclaimed + files_total (v_files s) eligible.
Proof.
  induction paths as [|p paths IH]; intros reclaimed deleted retained s s' r Hs Hnd;
    cbn [cleanup_loop] in Hs.
  { injection Hs as <- <-. split; [by left|]. intros total gone kept [= <- <- <-].
    split_and!; [by intros p Hp%elem_of_nil|by rewrite app_nil_r|done|]. cbn. lia. }
  apply NoDup_cons in Hnd as [Hp Hnd]. cbn zeta. rewrite filter_cons.
  destruct (is_eligible_store_orphan p reachable graph) eqn:Ee; cbn [negb] in Hs.
  2:{ rewrite decide_False by (intros []). by apply IH in Hs. }
  rewrite decide_True by exact I.
  destruct (v_open p s) as [length|k] eqn:Eo; [|injection Hs as <- <-; split; [by left|done]].
  apply v_open_ok in Eo as (b & Hb & ->).
  assert (∀ s1, v_files s1 = delete p (v_files s) → ∀ q, v_files s1 !! q = v_files s !! q
            ∨ is_eligible_store_orphan q reachable graph = true ∧ v_files s1 !! q = None)
    as Hother.
  { intros s1 -> q. destruct (decide (p = q)) as [<-|Hq].
    - right. by rewrite lookup_delete_eq.
    - left. by rewrite lookup_delete_ne. }
  destruct (v_delete p s) as [s1 [[]|k]] eqn:Ed.
  2:{ injection Hs as <- <-. split; [|done].
      apply v_delete_err in Ed as [->|Ed]; [by left|]. by apply Hother. }
  apply v_delete_ok in Ed.
  destruct (v_open p s1) as [n|[]] eqn:Eo1.
  { apply v_open_ok in Eo1 as (b1 & Hb1 & _). by rewrite Ed, lookup_delete_eq in Hb1. }
  2:{ injection Hs as <- <-. split; [|done]. by apply Hother. }
  unfold checked_add in Hs. destruct (_ <=? u64_max).
  2:{ injection Hs as <- <-. split; [|done]. by apply Hother. }
  apply IH in Hs as [IH1 IH2]; [|done]. split.
  - intros q. destruct (IH1 q) as [->|?]; [by apply Hother|by right].
  - intros total gone kept Hr. destruct (IH2 total gone kept Hr) as (Hgone & -> & -> & ->).
    split_and!; [|by rewrite <- app_assoc|done|].
    + intros q [->|Hq]%elem_of_cons; [|by apply Hgone].
      destruct (IH1 p) as [->|[_ ?]]; [|done]. by rewrite Ed, lookup_delete_eq.
    + rewrite Ed, files_total_delete by (intros [_ Hin]%list_elem_of_filter; done).
      unfold files_total at 2. cbn [foldr]. rewrite Hb. cbn [default].
      fold (files_total (v_files s)
        (filter (λ p, is_eligible_store_orphan p reachable graph) paths)). cbn. lia.
Qed.

Lemma files_total_perm files l l' : l ≡ₚ l' → files_total files l = files_total files l'.
Proof. unfold files_total. induction 1; cbn; lia. Qed.

(** C34: The store-open cleanup never touches a file outside its eligible names;
    when it succeeds it has deleted exactly the eligible files present, reports
    them, their total size and no retained ones, and has synced the directory
    exactly when something was deleted and the policy asks for it. *)
Theorem cleanup_removes_exactly_orphans (reachable : list string) (graph : bool)
    (policy : DurabilityPolicy) (s s' : S) (r : result ManifestError OrphanCleanupReport) :
  cleanup_store_orphans reachable graph policy s = (s', r) →
  (∀ p, is_eligible_store_orphan p reachable graph = false →
     v_files s' !! p = v_files s !! p)
  ∧ ∀ report, r = Ok report →
      (∀ p, p ∈ oc_deleted_paths report ↔
            is_Some (v_files s !! p) ∧ is_eligible_store_orphan p reachable graph = true)
      ∧ (∀ p, p ∈ oc_deleted_paths report → v_files s' !! p = None)
      ∧ oc_retained_eligible_paths report = []
      ∧ oc_reclaimed_bytes report = files_total (v_files s) (oc_deleted_paths report)
      ∧ oc_directory_synced report
        = bool_decide (oc_deleted_paths report ≠ [] ∧ directory_sync policy ≠ SyncSkip).
Proof.
  unfold cleanup_store_orphans. intros Hs.
  destruct (v_list s) as [paths|k] eqn:El; [|injection Hs as <- <-; by split].
  apply v_list_ok in El as [Hnd Hin].
  assert (sort_paths paths ≡ₚ paths) as Hperm by apply merge_sort_Permutation.
  destruct (cleanup_loop _ _ _ _ _ _ s) as [s1 r1] eqn:Ec.
  apply cleanup_loop_spec in Ec as [Hother Hok]; [|by rewrite Hperm].
  assert (v_files s' = v_files s1) as Hfiles.
  { destruct r1 as [[[total gone] kept]|e]; [|by injection Hs as <- _].
    destruct gone as [|g gone]; [by injection Hs as <- _|].
    destruct (directory_sync policy) as [|kind]; [by injection Hs as <- _|].
    pose proof (v_sync_files Directory kind s1) as Hv.
    destruct (v_sync Directory kind s1) as [s2 [[]|k]]; by injection Hs as <- _. }
  rewrite Hfiles. split.
  { intros p Hp. destruct (Hother p) as [?|[Hp' _]]; [done|]. by rewrite Hp in Hp'. }
  intros report ->. destruct r1 as [[[total gone] kept]|e]; [|done].
  destruct (Hok total gone kept eq_refl) as (Hgone & Hdel & -> & Htot). cbn [app] in Hdel.
  assert (oc_deleted_paths report = gone ∧ oc_retained_eligible_paths report = []
          ∧ oc_reclaimed_bytes report = total
          ∧ oc_directory_synced report
            = bool_decide (gone ≠ [] ∧ directory_sync policy ≠ SyncSkip)) as (-> & -> & -> & ->).
  { destruct gone as [|g gone].
    { inversion Hs; subst. split_and!; try done; symmetry; by apply bool_decide_eq_false_2; intros []. }
    destruct (directory_sync policy) as [|kind].
    { inversion Hs; subst. split_and!; try done; symmetry; by apply bool_decide_eq_false_2; intros []. }
    destruct (v_sync Directory kind s1) as [s2 [[]|k]]; [|done].
    inversion Hs; subst. split_and!; try done; symmetry; by apply bool_decide_eq_true_2. }
  split_and!; [|by rewrite Hdel|done|by rewrite Htot, Hdel|done].
  intros p. rewrite Hdel, list_elem_of_filter, Hperm, Hin, Is_true_true. tauto.
Qed.
End Sweep.

(** ** A concrete store directory *)

Module SampleStore.
Definition policy : DurabilityPolicy :=
  {| data_file_sync := SyncWith Full; directory_sync := SyncWith Full |}.

(** An empty directory, on media. *)
Definition empty : Fs :=
  {| fs_inodes := ∅; fs_dir := ∅; fs_dirs := [∅]; fs_past := []; fs_next := 0; fs_faults := [] |}.

Lemma empty_inv : commit_inv [None] empty.
Proof.
  split; cbn.
  - left.
  - intros d ->%list_elem_of_singleton. rewrite lookup_empty. left.
  - intros i d Hi. by rewrite lookup_empty in Hi.
  - intros d p i ->%list_elem_of_singleton Hi. by rewrite lookup_empty in Hi.
  - constructor.
Qed.

Definition committed : Fs * result ManifestError unit :=
  commit_manifest (X:=ToyXxh3.toy) SampleManifest.manifest policy empty.

(** An orphan beside an unrelated file. *)
Definition littered : Fs :=
  put_file "segment-00.zseg" [Byte.x01; Byte.x02] (put_file "notes.txt" [Byte.x03] empty).
End SampleStore.

Lemma manifest_commit_atomic_witness :
  load_manifest (X:=ToyXxh3.toy) MANIFEST_FILE 42 SampleStore.committed.1
  = Ok SampleManifest.manifest.
Proof.
  assert (crashed SampleStore.committed.1 SampleStore.committed.1) as Hc.
  { apply crashed_now. vm_compute. left. }
  destruct (manifest_commit_atomic (X:=ToyXxh3.toy) (L:=ToyXxh3.toy_laws) [None]
    SampleStore.empty SampleStore.committed.1 SampleStore.committed.1 SampleManifest.manifest
    SampleStore.policy SampleStore.committed.2 SampleManifest.manifest_is_ok
    ltac:(by_compute) ltac:(by_compute) SampleStore.empty_inv ltac:(by_compute)
    (surjective_pairing SampleStore.committed) Hc) as [_ H].
  rewrite H; [|by_compute|split; reflexivity]. vm_compute. reflexivity.
Defined.

Lemma sweep_deletes_only_orphans_witness :
  v_files (sweep_orphans SampleManifest.manifest [] SampleStore.littered).1 !! "notes.txt"
  = v_files SampleStore.littered !! "notes.txt".
Proof.
  apply (sweep_deletes_only_orphans SampleManifest.manifest [] SampleStore.littered
    (sweep_orphans SampleManifest.manifest [] SampleStore.littered).1
    (sweep_orphans SampleManifest.manifest [] SampleStore.littered).2 (surjective_pairing _)).
  left. reflexivity.
Defined.

Lemma cleanup_removes_exactly_orphans_witness :
  let r := cleanup_store_orphans [] false SampleStore.policy SampleStore.littered in
  v_files r.1 !! "notes.txt" = Some [Byte.x03] ∧ v_files r.1 !! "segment-00.zseg" = None.
Proof.
  intros r.
  pose proof (cleanup_removes_exactly_orphans [] false SampleStore.policy SampleStore.littered
    r.1 r.2 (surjective_pairing r)) as [Hkeep _].
  split; [|by vm_compute]. rewrite Hkeep by reflexivity. by vm_compute.
Defined.
