(* ===== verification/Bitmap.v ===== *)
(** * Document bitmaps and the alive set

    [meta/bitmap.rs] wraps the [roaring] crate and [meta/alive.rs] keeps, per
    segment, the disjoint sets of live and tombstoned rows.  The crate's bitmap
    is the class [Roaring], what the code relies on is [RoaringLaws]: a bitmap
    is a set of [u32] identifiers ([rb_set]) and every operation is the set
    operation its documentation names.  stdpp's [gset Z] is an instance. *)

From stdpp Require Import sorting.
From S2P Require Import Prelude.

(** ** The [roaring] crate *)

Class Roaring (B : Type) : Type := {
  rb_empty : B;
  rb_collect : list Z → B;
  rb_insert : Z → B → B * bool;
  rb_remove : Z → B → B * bool;
  rb_contains : Z → B → bool;
  rb_len : B → Z;
  rb_is_empty : B → bool;
  rb_iter : B → list Z;
  rb_union : B → B → B;
  rb_intersection : B → B → B;
  rb_difference : B → B → B;
  rb_is_subset : B → B → bool;
}.

Class RoaringLaws (B : Type) `{Roaring B} : Type := {
  rb_set : B → gset Z;
  rb_set_empty : rb_set rb_empty = ∅;
  rb_set_collect l : rb_set (rb_collect l) = list_to_set l;
  rb_set_insert x b : rb_set (rb_insert x b).1 = {[x]} ∪ rb_set b;
  rb_insert_new x b : (rb_insert x b).2 = bool_decide (x ∉ rb_set b);
  rb_set_remove x b : rb_set (rb_remove x b).1 = rb_set b ∖ {[x]};
  rb_remove_present x b : (rb_remove x b).2 = bool_decide (x ∈ rb_set b);
  rb_contains_spec x b : rb_contains x b = bool_decide (x ∈ rb_set b);
  rb_len_spec b : rb_len b = Z.of_nat (size (rb_set b));
  rb_is_empty_spec b : rb_is_empty b = bool_decide (rb_set b = ∅);
  rb_iter_set b : list_to_set (rb_iter b) = rb_set b;
  rb_iter_sorted b : StronglySorted Z.lt (rb_iter b);
  rb_set_union a b : rb_set (rb_union a b) = rb_set a ∪ rb_set b;
  rb_set_intersection a b : rb_set (rb_intersection a b) = rb_set a ∩ rb_set b;
  rb_set_difference a b : rb_set (rb_difference a b) = rb_set a ∖ rb_set b;
  rb_is_subset_spec a b : rb_is_subset a b = bool_decide (rb_set a ⊆ rb_set b);
}.

(** *** Sets of integers are such bitmaps *)

#[export] Instance gset_roaring : Roaring (gset Z) := {|
  rb_empty := ∅;
  rb_collect := list_to_set;
  rb_insert x b := ({[x]} ∪ b, bool_decide (x ∉ b));
  rb_remove x b := (b ∖ {[x]}, bool_decide (x ∈ b));
  rb_contains x b := bool_decide (x ∈ b);
  rb_len b := Z.of_nat (size b);
  rb_is_empty b := bool_decide (b = ∅);
  rb_iter b := merge_sort Z.le (elements b);
  rb_union := (∪);
  rb_intersection := (∩);
  rb_difference := (∖);
  rb_is_subset a b := bool_decide (a ⊆ b);
|}.

Lemma sorted_nodup_lt (l : list Z) : StronglySorted Z.le l → NoDup l → StronglySorted Z.lt l.
Proof.
  induction 1 as [|x l Hs IH Hx]; intros Hnd; [constructor|].
  apply NoDup_cons in Hnd as [Hn Hnd]. constructor; [by apply IH|].
  rewrite Forall_forall in *. intros y Hy. specialize (Hx y Hy).
  assert (x ≠ y) by (intros ->; done). lia.
Qed.

#[export] Instance gset_roaring_laws : RoaringLaws (gset Z).
Proof.
  refine {| rb_set b := b |}; try (intros; reflexivity).
  - intros b. apply set_eq. intros x. cbn. rewrite elem_of_list_to_set.
    by rewrite (merge_sort_Permutation Z.le), elem_of_elements.
  - intros b. cbn. apply sorted_nodup_lt.
    + apply (StronglySorted_merge_sort Z.le).
    + rewrite (merge_sort_Permutation Z.le). apply NoDup_elements.
Defined.

(** ** [meta/bitmap.rs] *)

(** [0..n]. *)
Definition row_ids (n : Z) : list Z := seqZ 0 n.

Record DocBitmap (B : Type) : Type := { db_inner : B }.
Arguments Build_DocBitmap {B} db_inner.
Arguments db_inner {B} d.

Section DocBitmap.
Context {B : Type} `{Roaring B}.

Definition bitmap_new : DocBitmap B := {| db_inner := rb_empty |}.

Definition bitmap_full (row_count : Z) : DocBitmap B :=
  {| db_inner := rb_collect (row_ids row_count) |}.

Definition from_ids (ids : list Z) : DocBitmap B := {| db_inner := rb_collect ids |}.

Definition bitmap_insert (document : Z) (d : DocBitmap B) : DocBitmap B * bool :=
  let '(inner, new) := rb_insert document (db_inner d) in ({| db_inner := inner |}, new).

Definition bitmap_remove (document : Z) (d : DocBitmap B) : DocBitmap B * bool :=
  let '(inner, present) := rb_remove document (db_inner d) in ({| db_inner := inner |}, present).

Definition contains (document : Z) (d : DocBitmap B) : bool := rb_contains document (db_inner d).

Definition cardinality (d : DocBitmap B) : Z := rb_len (db_inner d).

Definition is_empty (d : DocBitmap B) : bool := rb_is_empty (db_inner d).

Definition bitmap_iter (d : DocBitmap B) : list Z := rb_iter (db_inner d).

(** [inner.range(row_count..).next()]. *)
Definition first_at_or_after (row_count : Z) (d : DocBitmap B) : option Z :=
  head (filter (λ id, row_count ≤ id) (rb_iter (db_inner d))).

Definition union_with (d other : DocBitmap B) : DocBitmap B :=
  {| db_inner := rb_union (db_inner d) (db_inner other) |}.

Definition intersect_with (d other : DocBitmap B) : DocBitmap B :=
  {| db_inner := rb_intersection (db_inner d) (db_inner other) |}.

Definition subtract (d other : DocBitmap B) : DocBitmap B :=
  {| db_inner := rb_difference (db_inner d) (db_inner other) |}.

Definition is_subset (d other : DocBitmap B) : bool :=
  rb_is_subset (db_inner d) (db_inner other).
End DocBitmap.

(** ** [meta/alive.rs] *)

Record AliveError : Type := { ae_document : Z; ae_row_count : Z }.

Record AliveSet (B : Type) : Type := {
  as_row_count : Z;
  as_alive : DocBitmap B;
  as_tombstones : DocBitmap B;
}.
Arguments Build_AliveSet {B} as_row_count as_alive as_tombstones.
Arguments as_row_count {B} a.
Arguments as_alive {B} a.
Arguments as_tombstones {B} a.

Section Alive.
Context {B : Type} `{Roaring B}.

Definition alive_new (row_count : Z) : AliveSet B :=
  {| as_row_count := row_count;
     as_alive := bitmap_full row_count;
     as_tombstones := bitmap_new |}.

Definition tombstone (document : Z) (s : AliveSet B)
    : AliveSet B * result AliveError bool :=
  if as_row_count s <=? document
  then (s, Err {| ae_document := document; ae_row_count := as_row_count s |})
  else
    let '(alive, changed) := bitmap_remove document (as_alive s) in
    let tombstones :=
      if changed then (bitmap_insert document (as_tombstones s)).1 else as_tombstones s in
    ({| as_row_count := as_row_count s; as_alive := alive; as_tombstones := tombstones |},
     Ok changed).

Definition is_alive (document : Z) (s : AliveSet B) : bool := contains document (as_alive s).
Definition live_count (s : AliveSet B) : Z := cardinality (as_alive s).
Definition tombstone_count (s : AliveSet B) : Z := cardinality (as_tombstones s).
Definition iter_alive (s : AliveSet B) : list Z := bitmap_iter (as_alive s).

Definition retain (rows : DocBitmap B) (s : AliveSet B) : AliveSet B :=
  let removed := subtract (as_alive s) rows in
  {| as_row_count := as_row_count s;
     as_alive := intersect_with (as_alive s) rows;
     as_tombstones := union_with (as_tombstones s) removed |}.

(** The three assertions of [debug_assert_consistent]. *)
Definition consistent (s : AliveSet B) : bool :=
  (live_count s + tombstone_count s =? as_row_count s)
  && forallb (λ id, negb (contains id (as_tombstones s))) (bitmap_iter (as_alive s))
  && forallb (λ id, id <? as_row_count s) (bitmap_iter (as_tombstones s)).

(** The operations that change an alive set, as a history. *)
Inductive AliveOp : Type :=
| OpTombstone (document : Z)
| OpRetain (rows : DocBitmap B).

Definition alive_op (s : AliveSet B) (o : AliveOp) : AliveSet B :=
  match o with
  | OpTombstone document => (tombstone document s).1
  | OpRetain rows => retain rows s
  end.

Definition alive_after (row_count : Z) (ops : list AliveOp) : AliveSet B :=
  foldl alive_op (alive_new row_count) ops.
End Alive.

(** ** Lemmas *)

Lemma row_ids_elem n x : x ∈ row_ids n ↔ 0 ≤ x < n.
Proof. unfold row_ids. rewrite elem_of_seqZ. lia. Qed.

Section BitmapLemmas.
Context {B : Type} `{RoaringLaws B}.

Definition db_set (d : DocBitmap B) : gset Z := rb_set (db_inner d).

Lemma db_set_new : db_set bitmap_new = ∅.
Proof. apply rb_set_empty. Qed.
Lemma db_set_full n : db_set (bitmap_full n) = list_to_set (row_ids n).
Proof. apply rb_set_collect. Qed.
Lemma db_set_insert x d : db_set (bitmap_insert x d).1 = {[x]} ∪ db_set d.
Proof.
  unfold db_set, bitmap_insert. pose proof (rb_set_insert x (db_inner d)).
  by destruct (rb_insert x (db_inner d)).
Qed.
Lemma db_remove x d :
  ∃ d', bitmap_remove x d = (d', bool_decide (x ∈ db_set d)) ∧ db_set d' = db_set d ∖ {[x]}.
Proof.
  unfold db_set, bitmap_remove. pose proof (rb_set_remove x (db_inner d)).
  pose proof (rb_remove_present x (db_inner d)).
  destruct (rb_remove x (db_inner d)) as [i p]. cbn in *. subst. by eexists.
Qed.
Lemma db_set_union a b : db_set (union_with a b) = db_set a ∪ db_set b.
Proof. apply rb_set_union. Qed.
Lemma db_set_intersect a b : db_set (intersect_with a b) = db_set a ∩ db_set b.
Proof. apply rb_set_intersection. Qed.
Lemma db_set_subtract a b : db_set (subtract a b) = db_set a ∖ db_set b.
Proof. apply rb_set_difference. Qed.
Lemma db_contains x d : contains x d = bool_decide (x ∈ db_set d).
Proof. apply rb_contains_spec. Qed.
Lemma db_is_empty d : is_empty d = bool_decide (db_set d = ∅).
Proof. apply rb_is_empty_spec. Qed.
Lemma db_cardinality d : cardinality d = Z.of_nat (size (db_set d)).
Proof. apply rb_len_spec. Qed.
Lemma db_iter_elem x d : x ∈ bitmap_iter d ↔ x ∈ db_set d.
Proof. unfold db_set. by rewrite <- rb_iter_set, elem_of_list_to_set. Qed.
Lemma db_iter_sorted d : StronglySorted Z.lt (bitmap_iter d).
Proof. apply rb_iter_sorted. Qed.
End BitmapLemmas.
(** The rewrite rules that turn a bitmap computation into set algebra. *)
Create Rewrite HintDb bitmap.
#[export] Hint Rewrite @db_set_new @db_set_full @db_set_insert @db_set_union @db_set_intersect
  @db_set_subtract : bitmap.

(** ** The alive set *)

Section AliveLemmas.
Context {B : Type} `{RoaringLaws B}.

(** Every row is either alive or tombstoned. *)
Record alive_ok (s : AliveSet B) : Prop := {
  al_count : 0 ≤ as_row_count s;
  al_disjoint : db_set (as_alive s) ## db_set (as_tombstones s);
  al_union : db_set (as_alive s) ∪ db_set (as_tombstones s)
             = list_to_set (row_ids (as_row_count s));
}.

Lemma alive_new_ok n : 0 ≤ n → alive_ok (alive_new n).
Proof.
  intros Hn. split; cbn [alive_new as_row_count as_alive as_tombstones]; [done| |].
  - rewrite db_set_new. set_solver.
  - rewrite db_set_new, db_set_full. set_solver.
Qed.

Lemma alive_row s x : alive_ok s → x ∈ db_set (as_alive s) → 0 ≤ x < as_row_count s.
Proof.
  intros [Hn Hd Hu] Hx. apply row_ids_elem. rewrite <- (elem_of_list_to_set (C:=gset Z)).
  rewrite <- Hu. set_solver.
Qed.

(** [tombstone] on every branch. *)
Lemma tombstone_spec d s :
  alive_ok s →
  ∃ s', tombstone d s
        = (s', if d <? as_row_count s then Ok (is_alive d s)
               else Err {| ae_document := d; ae_row_count := as_row_count s |})
        ∧ alive_ok s' ∧ as_row_count s' = as_row_count s
        ∧ db_set (as_alive s') = db_set (as_alive s) ∖ {[d]}
        ∧ (as_row_count s ≤ d → s' = s).
Proof.
  intros Hs. unfold tombstone, is_alive. rewrite Z.leb_antisym.
  destruct (Z.ltb_spec d (as_row_count s)) as [Hd|Hd]; cbn [negb].
  - destruct (db_remove d (as_alive s)) as (a & E & Ha). rewrite E, db_contains.
    eexists. split; [reflexivity|]. cbn [as_row_count as_alive as_tombstones].
    split_and!; [|done|done|lia]. destruct Hs as [Hn Hdis Hu].
    case_bool_decide as Hin; split; cbn [as_row_count as_alive as_tombstones]; try done.
    + rewrite Ha, db_set_insert. set_solver.
    + rewrite Ha, db_set_insert, <- Hu. apply set_eq. intros x.
      destruct (decide (x = d)); set_solver.
    + rewrite Ha. set_solver.
    + rewrite Ha, <- Hu. set_solver.
  - exists s. split_and!; [done|done|done| |done].
    assert (d ∉ db_set (as_alive s)) by (intros Hx; apply (alive_row s) in Hx; [lia|done]).
    set_solver.
Qed.

Lemma retain_ok rows s :
  alive_ok s →
  alive_ok (retain rows s)
  ∧ db_set (as_alive (retain rows s)) = db_set (as_alive s) ∩ db_set rows.
Proof.
  intros [Hn Hd Hu]. unfold retain. split; [split|]; cbn; autorewrite with bitmap.
  - done.
  - set_solver.
  - rewrite <- Hu. apply set_eq. intros x. destruct (decide (x ∈ db_set rows)); set_solver.
  - done.
Qed.

(** The rows a history of operations leaves alive. *)
Definition survives (x : Z) (o : AliveOp) : Prop :=
  match o with
  | OpTombstone document => x ≠ document
  | OpRetain rows => x ∈ db_set rows
  end.

Lemma alive_op_ok s o :
  alive_ok s →
  alive_ok (alive_op s o) ∧ as_row_count (alive_op s o) = as_row_count s
  ∧ ∀ x, x ∈ db_set (as_alive (alive_op s o)) ↔ x ∈ db_set (as_alive s) ∧ survives x o.
Proof.
  intros Hs. destruct o as [d|rows]; cbn [alive_op survives].
  - destruct (tombstone_spec d s Hs) as (s' & E & Hok & Hn & Ha & _). rewrite E. cbn [fst].
    split_and!; [done|done|]. intros x. rewrite Ha. set_solver.
  - destruct (retain_ok rows s Hs) as [Hok Ha]. split_and!; [done|done|].
    intros x. rewrite Ha. set_solver.
Qed.

Lemma alive_ops_ok ops s :
  alive_ok s →
  alive_ok (foldl alive_op s ops) ∧ as_row_count (foldl alive_op s ops) = as_row_count s
  ∧ ∀ x, x ∈ db_set (as_alive (foldl alive_op s ops))
         ↔ x ∈ db_set (as_alive s) ∧ Forall (survives x) ops.
Proof.
  revert s. induction ops as [|o ops IH]; intros s Hs; cbn [foldl].
  { split_and!; [done|done|]. intros x. rewrite Forall_nil. tauto. }
  destruct (alive_op_ok s o Hs) as (Hok & Hn & Hx). destruct (IH _ Hok) as (Hok' & Hn' & Hx').
  split_and!; [done|congruence|]. intros x. rewrite Hx', Hx, Forall_cons. tauto.
Qed.

(** The debug assertions hold in every well-formed state. *)
Lemma alive_consistent s : alive_ok s → consistent s = true.
Proof.
  intros [Hn Hd Hu]. unfold consistent, live_count, tombstone_count. rewrite !db_cardinality.
  rewrite !andb_true_iff. split_and!.
  - apply Z.eqb_eq. rewrite <- Nat2Z.inj_add, <- size_union by done. rewrite Hu.
    rewrite size_list_to_set by apply NoDup_seqZ. unfold row_ids. rewrite length_seqZ. lia.
  - apply forallb_forall. intros x Hx%list_elem_of_In%db_iter_elem.
    rewrite db_contains, bool_decide_eq_false_2; [done|set_solver].
  - apply forallb_forall. intros x Hx%list_elem_of_In%db_iter_elem. apply Z.ltb_lt.
    assert (x ∈ row_ids (as_row_count s)) as Hr%row_ids_elem; [|lia].
    rewrite <- (elem_of_list_to_set (C:=gset Z)), <- Hu. set_solver.
Qed.

(** After any history of tombstone and retain operations the alive set passes
    its own consistency assertions, its counters add up to the row count, its live
    rows, iterated in ascending order, are exactly the rows no operation removed,
    and tombstone answers whether the row was alive or reports a row outside the
    segment. *)
Theorem alive_set_tracks_history (row_count : Z) (ops : list AliveOp) :
  0 ≤ row_count →
  let s := alive_after row_count ops in
  consistent s = true
  ∧ live_count s + tombstone_count s = row_count
  ∧ (∀ x, is_alive x s = true ↔ 0 ≤ x < row_count ∧ Forall (survives x) ops)
  ∧ StronglySorted Z.lt (iter_alive s)
  ∧ (∀ x, x ∈ iter_alive s ↔ is_alive x s = true)
  ∧ ∀ d, (tombstone d s).2
         = if d <? row_count then Ok (is_alive d s)
           else Err {| ae_document := d; ae_row_count := row_count |}.
Proof.
  intros Hn s. destruct (alive_ops_ok ops _ (alive_new_ok row_count Hn)) as (Hok & Hc & Hx).
  fold (alive_after row_count ops) in Hok, Hc, Hx. fold s in Hok, Hc, Hx.
  change (as_row_count (alive_new row_count)) with row_count in Hc.
  pose proof (alive_consistent s Hok) as Hcon.
  assert (∀ x, is_alive x s = true ↔ x ∈ db_set (as_alive s)) as Ha.
  { intros x. unfold is_alive. rewrite db_contains. apply bool_decide_eq_true. }
  split_and!; [done| | | | |].
  - unfold consistent in Hcon. rewrite !andb_true_iff, Z.eqb_eq, Hc in Hcon. apply Hcon.
  - intros x. rewrite Ha, Hx. cbn [alive_new as_alive]. rewrite db_set_full, elem_of_list_to_set.
    by rewrite row_ids_elem.
  - apply db_iter_sorted.
  - intros x. rewrite Ha. apply db_iter_elem.
  - intros d. destruct (tombstone_spec d s Hok) as (s' & E & _). by rewrite E, Hc.
Qed.
End AliveLemmas.

Lemma alive_set_tracks_history_witness :
  let ops := [OpTombstone 1; OpTombstone 9; OpRetain (from_ids [0; 1; 3])] in
  let s := alive_after (B:=gset Z) 4 ops in
  iter_alive s = [0; 3] ∧ live_count s + tombstone_count s = 4.
Proof.
  intros ops s. split; [by vm_compute|].
  apply (alive_set_tracks_history (B:=gset Z) 4 ops). lia.
Defined.
