(* ===== verification/Dict.v ===== *)
(** * String storage and segment-local dictionaries ([meta/dict.rs])

    A [StringStorage] is a contiguous byte array with an array of end offsets;
    a [DictionaryBuilder] interns strings into it, handing out dense codes.  A
    Rust [&str] is a byte list that [utf8_valid] accepts. *)

From S2P Require Import Prelude Cursor.

Inductive DictionaryError : Type := CardinalityOverflow | StringStorageOverflow.

#[export] Instance DictionaryError_eq_dec : EqDecision DictionaryError.
Proof. solve_decision. Defined.

(** ** Codes *)

Inductive CodeWidth : Type := WidthU16 | WidthU32.

Inductive DictionaryCodes : Type :=
| CodesU16 (codes : list Z)
| CodesU32 (codes : list Z).

Definition code_width_for_cardinality (cardinality : Z) : result DictionaryError CodeWidth :=
  if cardinality <=? u16_max then Ok WidthU16
  else if cardinality <=? u32_max then Ok WidthU32
  else Err CardinalityOverflow.

Definition codes_width (c : DictionaryCodes) : CodeWidth :=
  match c with CodesU16 _ => WidthU16 | CodesU32 _ => WidthU32 end.

Definition codes_len (c : DictionaryCodes) : Z :=
  match c with CodesU16 codes => len codes | CodesU32 codes => len codes end.

Definition codes_get (c : DictionaryCodes) (row : Z) : option Z :=
  match c with
  | CodesU16 codes => codes !! Z.to_nat row
  | CodesU32 codes => codes !! Z.to_nat row
  end.

Definition codes_iter (c : DictionaryCodes) : list Z :=
  match c with CodesU16 codes => codes | CodesU32 codes => codes end.

(** [codes.into_iter().map(u16::try_from).collect()]. *)
Definition codes_from_u32 (codes : list Z) (cardinality : Z)
    : result DictionaryError DictionaryCodes :=
  width ← code_width_for_cardinality cardinality;
  match width with
  | WidthU16 =>
      narrowed ← ok_or (mapM (try_from u16_max) codes) CardinalityOverflow;
      Ok (CodesU16 narrowed)
  | WidthU32 => Ok (CodesU32 codes)
  end.

(** ** Storage *)

Record StringStorage : Type := {
  ss_offsets : list Z;
  ss_bytes : bytes;
}.

Definition storage_new : StringStorage := {| ss_offsets := [0]; ss_bytes := [] |}.

Definition can_push (value : bytes) (s : StringStorage) : result DictionaryError unit :=
  new_length ← ok_or (checked_add usize_max (len (ss_bytes s)) (len value)) StringStorageOverflow;
  match try_from u32_max new_length with
  | Some _ => Ok tt
  | None => Err StringStorageOverflow
  end.

(** The bytes are extended before the offset conversion that may still fail. *)
Definition storage_push (value : bytes) (s : StringStorage)
    : StringStorage * result DictionaryError unit :=
  match can_push value s with
  | Err e => (s, Err e)
  | Ok _ =>
      let b := ss_bytes s ++ value in
      match try_from u32_max (len b) with
      | None => ({| ss_offsets := ss_offsets s; ss_bytes := b |}, Err StringStorageOverflow)
      | Some offset => ({| ss_offsets := ss_offsets s ++ [offset]; ss_bytes := b |}, Ok tt)
      end
  end.

Definition storage_len (s : StringStorage) : Z := saturating_sub (len (ss_offsets s)) 1.

Definition storage_get (s : StringStorage) (position : Z) : option bytes :=
  start ← ss_offsets s !! Z.to_nat position;
  end_ ← ss_offsets s !! Z.to_nat (saturating_add usize_max position 1);
  b ← slice_range (ss_bytes s) start end_;
  if utf8_valid b then Some b else None.

(** ** Dictionaries *)

Record StringDictionary : Type := { sd_values : StringStorage }.

Definition dictionary_len (d : StringDictionary) : Z := storage_len (sd_values d).

Definition dictionary_get (d : StringDictionary) (code : Z) : option bytes :=
  storage_get (sd_values d) code.

(** [offsets.windows(2).enumerate().find_map(..)]: there is one window per
    stored string, and none at all for fewer than two offsets. *)
Definition dictionary_find (d : StringDictionary) (needle : bytes) : option Z :=
  let windows := (length (ss_offsets (sd_values d)) - 1)%nat in
  List.find (λ position, bool_decide (storage_get (sd_values d) position = Some needle))
    (seqZ 0 (Z.of_nat windows)) ≫= try_from u32_max.

Record DictionaryBuilder : Type := {
  dn_lookup : gmap bytes Z;
  dn_values : StringStorage;
}.

Definition dictionary_builder_new : DictionaryBuilder :=
  {| dn_lookup := ∅; dn_values := storage_new |}.

Definition lookup_len (b : DictionaryBuilder) : Z := Z.of_nat (size (dn_lookup b)).

Definition can_intern (value : bytes) (b : DictionaryBuilder) : result DictionaryError unit :=
  match dn_lookup b !! value with
  | Some _ => Ok tt
  | None =>
      let cardinality :=
        saturating_add u64_max (default u64_max (try_from u64_max (lookup_len b))) 1 in
      _ ← code_width_for_cardinality cardinality;
      can_push value (dn_values b)
  end.

Definition intern (value : bytes) (b : DictionaryBuilder)
    : DictionaryBuilder * result DictionaryError Z :=
  match dn_lookup b !! value with
  | Some code => (b, Ok code)
  | None =>
      match can_intern value b with
      | Err e => (b, Err e)
      | Ok _ =>
          match try_from u32_max (lookup_len b) with
          | None => (b, Err CardinalityOverflow)
          | Some code =>
              match storage_push value (dn_values b) with
              | (values, Err e) => ({| dn_lookup := dn_lookup b; dn_values := values |}, Err e)
              | (values, Ok _) =>
                  ({| dn_lookup := <[value := code]> (dn_lookup b); dn_values := values |},
                   Ok code)
              end
          end
      end
  end.

Definition builder_cardinality (b : DictionaryBuilder) : Z :=
  default u64_max (try_from u64_max (lookup_len b)).

Definition dictionary_finish (b : DictionaryBuilder) : StringDictionary :=
  {| sd_values := dn_values b |}.

(** Interning a sequence of values, as a caller's loop does. *)
Fixpoint intern_all (values : list bytes) (b : DictionaryBuilder)
    : DictionaryBuilder * result DictionaryError (list Z) :=
  match values with
  | [] => (b, Ok [])
  | v :: rest =>
      match intern v b with
      | (b', Err e) => (b', Err e)
      | (b', Ok code) =>
          match intern_all rest b' with
          | (b'', Err e) => (b'', Err e)
          | (b'', Ok codes) => (b'', Ok (code :: codes))
          end
      end
  end.

(** ** What a storage holds *)

(** End offsets of the strings [vs] laid out from offset [start]. *)
Fixpoint offsets_from (start : Z) (vs : list bytes) : list Z :=
  start :: match vs with
           | [] => []
           | v :: rest => offsets_from (start + len v) rest
           end.

(** The storage holds exactly the strings [vs]. *)
Record storage_holds (vs : list bytes) (s : StringStorage) : Prop := {
  sh_offsets : ss_offsets s = offsets_from 0 vs;
  sh_bytes : ss_bytes s = concat vs;
  sh_utf8 : Forall (λ v, utf8_valid v = true) vs;
  sh_len : len (concat vs) ≤ u32_max;
}.

Lemma length_offsets_from start vs : length (offsets_from start vs) = S (length vs).
Proof. revert start. induction vs; intros start; cbn; [done|]. by rewrite IHvs. Qed.

Lemma offsets_from_snoc start vs v :
  offsets_from start (vs ++ [v]) = offsets_from start vs ++ [start + len (concat vs) + len v].
Proof.
  revert start. induction vs as [|w vs IH]; intros start; cbn.
  - by rewrite Z.add_0_r.
  - rewrite IH, len_app. do 2 f_equal. f_equal. lia.
Qed.

Lemma offsets_from_lookup start vs (i : nat) :
  (i ≤ length vs)%nat →
  offsets_from start vs !! i = Some (start + len (concat (take i vs))).
Proof.
  revert start i. induction vs as [|v vs IH]; intros start [|i] Hi; cbn in *; try lia.
  - by rewrite Z.add_0_r.
  - by rewrite Z.add_0_r.
  - rewrite IH by lia. rewrite len_app. f_equal. lia.
Qed.

Lemma storage_new_holds : storage_holds [] storage_new.
Proof. split; [done|done|apply Forall_nil_2|by vm_compute]. Qed.

Lemma can_push_spec v vs s :
  storage_holds vs s → len (ss_bytes s) + len v ≤ usize_max →
  can_push v s = if len (concat vs) + len v <=? u32_max then Ok tt else Err StringStorageOverflow.
Proof.
  intros [_ Hb _ _] Hu. rewrite Hb in Hu. unfold can_push, checked_add, try_from.
  rewrite Hb. destruct (Z.leb_spec (len (concat vs) + len v) usize_max); [|lia].
  cbn [ok_or mbind result_bind]. pose proof (len_nonneg (concat vs)). pose proof (len_nonneg v).
  destruct (Z.leb_spec 0 (len (concat vs) + len v)); [|lia]. cbn [andb].
  by destruct (Z.leb_spec (len (concat vs) + len v) u32_max).
Qed.

(** Pushing after a successful check succeeds and appends the string. *)
Lemma storage_push_ok v vs s :
  storage_holds vs s → utf8_valid v = true → can_push v s = Ok tt →
  ∃ s', storage_push v s = (s', Ok tt) ∧ storage_holds (vs ++ [v]) s'.
Proof.
  intros [Ho Hb Hu Hl] Hv Hc. unfold storage_push. rewrite Hc.
  unfold can_push, checked_add in Hc. rewrite Hb in Hc.
  destruct (_ <=? usize_max); [|done]. cbn [ok_or mbind result_bind] in Hc.
  rewrite Hb, len_app. unfold try_from in *.
  destruct (_ && _) eqn:E in Hc; [|done]. rewrite E.
  apply andb_true_iff in E as [_ E%Z.leb_le].
  eexists. split; [reflexivity|]. split; cbn.
  - by rewrite Ho, offsets_from_snoc.
  - by rewrite concat_app, concat_cons, concat_nil, app_nil_r.
  - apply Forall_app; split; [done|by constructor].
  - rewrite concat_app, concat_cons, concat_nil, app_nil_r, len_app. lia.
Qed.

Lemma storage_len_spec vs s : storage_holds vs s → storage_len s = len vs.
Proof.
  intros [Ho _ _ _]. unfold storage_len, saturating_sub, len. rewrite Ho, length_offsets_from. lia.
Qed.

Lemma storage_get_spec vs s (i : Z) :
  storage_holds vs s → 0 ≤ i → len vs ≤ u32_max → storage_get s i = vs !! Z.to_nat i.
Proof.
  intros [Ho Hb Hu Hl] Hi Hn. unfold storage_get, saturating_add. rewrite Ho, Hb.
  destruct (vs !! Z.to_nat i) as [v|] eqn:E.
  - pose proof (lookup_lt_Some _ _ _ E) as Hlt.
    assert (i < len vs) by (unfold len; lia).
    rewrite Z.min_r by (unfold usize_max, u64_max, u32_max in *; lia).
    rewrite !offsets_from_lookup by lia. cbn [mbind option_bind].
    replace (Z.to_nat (i + 1)) with (S (Z.to_nat i)) by lia.
    rewrite (take_S_r _ _ _ E), concat_app, concat_cons, concat_nil, app_nil_r, len_app.
    rewrite <- (take_drop_middle _ _ _ E) at 1.
    rewrite concat_app, concat_cons.
    rewrite (slice_range_app (concat (take (Z.to_nat i) vs)) v) by lia. cbn [mbind option_bind].
    rewrite Forall_lookup in Hu. by rewrite (Hu _ _ E).
  - apply lookup_ge_None in E.
    assert (offsets_from 0 vs !! Z.to_nat (Z.min usize_max (i + 1)) = None) as ->.
    { apply lookup_ge_None. rewrite length_offsets_from. unfold len in Hn.
      unfold usize_max, u64_max, u32_max in *. lia. }
    by destruct (_ !! _).
Qed.

(** ** What a builder has interned *)

(** The builder holds the distinct strings [vs], the code of each being its
    position. *)
Record dict_holds (vs : list bytes) (b : DictionaryBuilder) : Prop := {
  dh_values : storage_holds vs (dn_values b);
  dh_lookup : ∀ v c, dn_lookup b !! v = Some c ↔ 0 ≤ c ∧ vs !! Z.to_nat c = Some v;
  dh_size : lookup_len b = len vs;
  dh_bound : len vs ≤ u32_max;
}.

Lemma dictionary_builder_new_holds : dict_holds [] dictionary_builder_new.
Proof.
  split; [apply storage_new_holds| |done|by vm_compute].
  intros v c. cbn. rewrite lookup_empty. split; [done|]. intros [_ E]. done.
Qed.

Lemma can_intern_bound vs v b :
  dict_holds vs b → dn_lookup b !! v = None → can_intern v b = Ok tt →
  len vs + 1 ≤ u32_max ∧ can_push v (dn_values b) = Ok tt.
Proof.
  intros [_ _ Hs Hb] E Hc. unfold can_intern in Hc. rewrite E, Hs in Hc. pose proof (len_nonneg vs).
  unfold try_from, saturating_add in Hc.
  destruct (Z.leb_spec 0 (len vs)); [|lia].
  destruct (Z.leb_spec (len vs) u64_max); [|unfold u64_max, u32_max in *; lia].
  cbn [andb default] in Hc. apply bind_Ok_inv in Hc as (w & Hw & Hc). split; [|done].
  unfold code_width_for_cardinality in Hw. cbn [from_option id] in Hw.
  rewrite Z.min_r in Hw by (unfold u64_max, u32_max in *; lia).
  destruct (Z.leb_spec (len vs + 1) u16_max); [unfold u16_max, u32_max in *; lia|].
  by destruct (Z.leb_spec (len vs + 1) u32_max).
Qed.

Lemma lookup_position vs b v :
  dict_holds vs b → (dn_lookup b !! v = None ↔ v ∉ vs).
Proof.
  intros [_ Hl _ _]. split.
  - intros E (i & Hi)%list_elem_of_lookup.
    assert (dn_lookup b !! v = Some (Z.of_nat i)) as E'; [|congruence].
    apply Hl. rewrite Nat2Z.id. split; [lia|done].
  - intros Hn. destruct (dn_lookup b !! v) as [c|] eqn:E; [|done].
    apply Hl in E as [_ E]. apply list_elem_of_lookup_2 in E. done.
Qed.

(** Interning: a known string keeps its code, a new one gets the next; a
    refused one changes nothing. *)
Lemma intern_spec vs v b :
  dict_holds vs b → utf8_valid v = true →
  match intern v b with
  | (b', Ok c) => can_intern v b = Ok tt ∧ ∃ vs', vs `prefix_of` vs' ∧ dict_holds vs' b' ∧ 0 ≤ c
                  ∧ vs' !! Z.to_nat c = Some v ∧ (v ∈ vs → b' = b)
                  ∧ (v ∉ vs → vs' = vs ++ [v])
  | (b', Err e) => b' = b ∧ can_intern v b = Err e
  end.
Proof.
  intros Hd Hv. unfold intern. destruct (dn_lookup b !! v) as [c|] eqn:E.
  - split; [by unfold can_intern; rewrite E|]. exists vs. pose proof E as E'.
    apply (dh_lookup _ _ Hd) in E' as [Hc Hi].
    split_and!; [done|done|done|done|done|]. intros Hn. by apply list_elem_of_lookup_2 in Hi.
  - destruct (can_intern v b) as [[]|e] eqn:Hc; [|done].
    destruct (can_intern_bound vs v b Hd E Hc) as [Hn Hp].
    rewrite (dh_size _ _ Hd). unfold try_from. pose proof (len_nonneg vs).
    destruct (Z.leb_spec 0 (len vs)); [|lia]. destruct (Z.leb_spec (len vs) u32_max); [|lia].
    cbn [andb].
    destruct (storage_push_ok v vs _ (dh_values _ _ Hd) Hv Hp) as (s' & Es & Hs). rewrite Es.
    split; [done|]. exists (vs ++ [v]).
    assert ((vs ++ [v]) !! Z.to_nat (len vs) = Some v) as Hlast.
    { rewrite to_nat_len. by rewrite list_lookup_middle. }
    apply (lookup_position _ _ _ Hd) in E as Hnew.
    split_and!; [by apply prefix_app_r| |done|done|done|done].
    split; cbn [dn_values dn_lookup]; [done| | |rewrite len_app, len_cons, len_nil; lia].
    + intros w c. destruct (decide (w = v)) as [->|Hw].
      * rewrite lookup_insert_eq. split; [intros [= <-]; done|].
        intros [Hc0 [Hi|[Hi [Hz _]%list_lookup_singleton_Some]]%lookup_app_Some].
        { by apply list_elem_of_lookup_2 in Hi. }
        f_equal. unfold len. lia.
      * rewrite lookup_insert_ne by done. rewrite (dh_lookup _ _ Hd).
        split; intros [Hc0 Hi]; split; try done.
        -- by apply lookup_app_l_Some.
        -- apply lookup_app_Some in Hi as [Hi|[_ Hi]]; [done|].
           apply list_lookup_singleton_Some in Hi as [_ ->]. done.
    + unfold lookup_len in *. cbn [dn_lookup]. rewrite map_size_insert_None by done.
      pose proof (dh_size _ _ Hd) as Hsz. unfold lookup_len in Hsz.
      rewrite len_app, len_cons, len_nil. lia.
Qed.

Lemma intern_all_spec values vs b :
  dict_holds vs b → Forall (λ v, utf8_valid v = true) values →
  match intern_all values b with
  | (b', Ok codes) => ∃ vs', vs `prefix_of` vs' ∧ dict_holds vs' b'
                      ∧ Forall2 (λ v c, 0 ≤ c ∧ vs' !! Z.to_nat c = Some v) values codes
  | (b', Err _) => ∃ vs', vs `prefix_of` vs' ∧ dict_holds vs' b'
  end.
Proof.
  revert vs b. induction values as [|v rest IH]; intros vs b Hd Hu; cbn [intern_all].
  { exists vs. split_and!; [done|done|constructor]. }
  apply Forall_cons in Hu as [Hv Hu]. pose proof (intern_spec vs v b Hd Hv) as Hi.
  destruct (intern v b) as [b1 [c|e]]; cycle 1.
  { destruct Hi as [-> _]. by exists vs. }
  destruct Hi as (_ & vs1 & Hp & Hd1 & Hc & Hlk & _). specialize (IH vs1 b1 Hd1 Hu).
  destruct (intern_all rest b1) as [b2 [codes|e]].
  - destruct IH as (vs2 & Hp2 & Hd2 & Hf). exists vs2.
    split_and!; [by transitivity vs1|done|]. constructor; [|done]. split; [done|].
    by apply (prefix_lookup_Some vs1).
  - destruct IH as (vs2 & Hp2 & Hd2). exists vs2. split; [by transitivity vs1|done].
Qed.

Lemma dict_holds_NoDup vs b : dict_holds vs b → NoDup vs.
Proof.
  intros Hd. apply NoDup_alt. intros i j v Hi Hj.
  assert (∀ k, vs !! k = Some v → dn_lookup b !! v = Some (Z.of_nat k)) as Hk.
  { intros k Hk. apply (dh_lookup _ _ Hd). rewrite Nat2Z.id. split; [lia|done]. }
  apply Hk in Hi, Hj. apply Nat2Z.inj. congruence.
Qed.

Lemma dictionary_get_spec vs b c :
  dict_holds vs b → 0 ≤ c → dictionary_get (dictionary_finish b) c = vs !! Z.to_nat c.
Proof.
  intros Hd Hc. unfold dictionary_get. cbn [dictionary_finish sd_values].
  apply storage_get_spec; [apply Hd|done|apply Hd].
Qed.

(** [find] answers the position of the string, when it is there. *)
Lemma dictionary_find_spec vs b v c :
  dict_holds vs b →
  dictionary_find (dictionary_finish b) v = Some c ↔ 0 ≤ c ∧ vs !! Z.to_nat c = Some v.
Proof.
  intros Hd. unfold dictionary_find. cbn [dictionary_finish sd_values].
  rewrite (sh_offsets _ _ (dh_values _ _ Hd)), length_offsets_from.
  replace (Z.of_nat (S (length vs) - 1)) with (len vs) by (unfold len; lia).
  pose proof (dh_bound _ _ Hd) as Hb.
  assert (∀ i, 0 ≤ i → storage_get (dn_values b) i = vs !! Z.to_nat i) as Hget.
  { intros i Hi. apply storage_get_spec; [apply Hd|done|done]. }
  split.
  - intros (i & Hf & Ht)%bind_Some. apply List.find_some in Hf as [Hin He].
    apply list_elem_of_In, elem_of_seqZ in Hin. apply bool_decide_eq_true in He.
    rewrite Hget in He by lia. unfold try_from in Ht.
    destruct (_ && _); [|done]. injection Ht as <-. split; [lia|done].
  - intros [Hc Hv]. pose proof (lookup_lt_Some _ _ _ Hv) as Hlt.
    apply bind_Some. destruct (List.find _ _) as [i|] eqn:Hf.
    + apply List.find_some in Hf as [Hin He].
      apply list_elem_of_In, elem_of_seqZ in Hin. apply bool_decide_eq_true in He.
      rewrite Hget in He by lia.
      pose proof (NoDup_lookup _ _ _ _ (dict_holds_NoDup _ _ Hd) He Hv).
      assert (i = c) as -> by lia. exists c. split; [done|].
      unfold try_from. destruct (Z.leb_spec 0 c); [|lia]. unfold len in *.
      by destruct (Z.leb_spec c u32_max); [|lia].
    + exfalso.
      assert (In c (seqZ 0 (len vs))) as Hin.
      { apply list_elem_of_In, elem_of_seqZ. unfold len. lia. }
      pose proof (List.find_none _ _ Hf c Hin) as He. apply bool_decide_eq_false in He.
      by rewrite Hget in He.
Qed.

Lemma dict_cardinality vs b : dict_holds vs b → builder_cardinality b = len vs.
Proof.
  intros Hd. unfold builder_cardinality. rewrite (dh_size _ _ Hd). unfold try_from.
  pose proof (len_nonneg vs). pose proof (dh_bound _ _ Hd).
  destruct (Z.leb_spec 0 (len vs)); [|lia].
  by destruct (Z.leb_spec (len vs) u64_max); [|unfold u64_max, u32_max in *; lia].
Qed.

(** Packing keeps every code: the width chosen for the cardinality holds every
    code below it, and the placeholder 0. *)
Lemma codes_from_u32_ok codes n :
  Forall (λ c, 0 ≤ c < Z.max 1 n) codes → n ≤ u32_max →
  ∃ packed, codes_from_u32 codes n = Ok packed ∧ codes_iter packed = codes.
Proof.
  intros Hc Hn. unfold codes_from_u32, code_width_for_cardinality.
  destruct (Z.leb_spec n u16_max).
  - cbn [mbind result_bind]. assert (mapM (try_from u16_max) codes = Some codes) as ->.
    { apply mapM_Some. apply Forall2_same_length_lookup_2; [done|].
      intros i x y Hx Hy. assert (x = y) as <- by congruence.
      rewrite Forall_lookup in Hc. apply Hc in Hx. unfold try_from.
      destruct (Z.leb_spec 0 x); [|lia]. destruct (Z.leb_spec x u16_max); [done|].
      unfold u16_max in *. lia. }
    by eexists.
  - destruct (Z.leb_spec n u32_max); [|lia]. by eexists.
Qed.

(** Interning a sequence of strings gives codes that decode to the strings and
    that lookup by string finds again, equal strings sharing a code; the codes are
    dense below the cardinality and survive packing at the width chosen for it. *)
Theorem dictionary_roundtrip (values : list bytes) (b : DictionaryBuilder) (codes : list Z) :
  Forall (λ v, utf8_valid v = true) values →
  intern_all values dictionary_builder_new = (b, Ok codes) →
  let d := dictionary_finish b in
  map (dictionary_get d) codes = map Some values
  ∧ map (dictionary_find d) values = map Some codes
  ∧ dictionary_len d = builder_cardinality b
  ∧ Forall (λ c, 0 ≤ c < dictionary_len d) codes
  ∧ ∃ packed, codes_from_u32 codes (builder_cardinality b) = Ok packed
              ∧ codes_iter packed = codes.
Proof.
  intros Hu E d. pose proof (intern_all_spec values [] _ dictionary_builder_new_holds Hu) as H.
  rewrite E in H. destruct H as (vs & _ & Hd & Hf).
  assert (dictionary_len d = len vs) as Hlen by apply storage_len_spec, Hd.
  rewrite (dict_cardinality _ _ Hd), Hlen.
  assert (Forall (λ c, 0 ≤ c < len vs) codes) as Hcodes.
  { clear E. induction Hf as [|v c values codes [Hc Hl] _ IH]; [constructor|].
    apply Forall_cons in Hu as [_ Hu]. constructor; [|by apply IH].
    apply lookup_lt_Some in Hl. unfold len. lia. }
  split_and!; [| |done|done|].
  - clear E. induction Hf as [|v c values codes [Hc Hl] _ IH]; [done|]. cbn [map].
    apply Forall_cons in Hu as [_ Hu]. apply Forall_cons in Hcodes as [_ Hcodes].
    rewrite IH by done. f_equal. unfold d. by rewrite (dictionary_get_spec _ _ _ Hd Hc).
  - clear E. induction Hf as [|v c values codes Hcl _ IH]; [done|]. cbn [map].
    apply Forall_cons in Hu as [_ Hu]. apply Forall_cons in Hcodes as [_ Hcodes].
    rewrite IH by done. f_equal. unfold d. by apply (dictionary_find_spec _ _ _ _ Hd).
  - apply codes_from_u32_ok; [|apply Hd]. eapply Forall_impl; [done|]. cbn. lia.
Qed.

Lemma dictionary_roundtrip_witness :
  let values := [[Byte.x61]; [Byte.x62; Byte.x63]; [Byte.x61]; []] in
  let r := intern_all values dictionary_builder_new in
  r.2 = Ok [0; 1; 0; 2]
  ∧ map (dictionary_get (dictionary_finish r.1)) [0; 1; 0; 2] = map Some values.
Proof.
  intros values r. split; [by vm_compute|].
  apply (dictionary_roundtrip values r.1 [0; 1; 0; 2]); [by repeat constructor|by vm_compute].
Defined.
