(* ===== verification/Columns.v ===== *)
(** * Typed columns and the row builder ([meta/columns.rs])

    A [ColumnStoreBuilder] appends rows to one physical array per schema
    column; [finish] seals them into an immutable [ColumnStore].  Arrays of
    [u64], [DocId], [i64] and [f64] are lists of [Z], an [f64] being its
    64 bits.  The limits of the [test-seams] feature are not part of the
    program and are left out. *)

From S2P Require Import Prelude Cursor Schema Bitmap Dict.

(** ** Values *)

Inductive ColumnValue : Type :=
| VU64 (z : Z)
| VId128 (z : Z)
| VI64 (z : Z)
| VF64 (bits : Z)
| VBool (b : bool)
| VString (s : bytes).

#[export] Instance ColumnValue_eq_dec : EqDecision ColumnValue.
Proof. solve_decision. Defined.

Definition compatible_with (v : ColumnValue) (t : ColumnType) : bool :=
  match v, t with
  | VId128 _, Id128 => true
  | VU64 _, U64 => true
  | VI64 _, I64 => true
  | VF64 _, F64 => true
  | VBool _, Bool => true
  | VString _, (DictionaryString | RawString) => true
  | _, _ => false
  end.

Definition value_type (v : ColumnValue) : ColumnType :=
  match v with
  | VId128 _ => Id128
  | VU64 _ => U64
  | VI64 _ => I64
  | VF64 _ => F64
  | VBool _ => Bool
  | VString _ => RawString
  end.

Record ColumnInput : Type := {
  ci_column : ColumnId;
  ci_value : ColumnValue;
}.

Inductive BuildError : Type :=
| UnknownColumn (column : ColumnId)
| DuplicateColumnInput (column : ColumnId)
| MissingRequiredColumn (column : ColumnId)
| TimestampProvidedAsInput
| TypeMismatch (column : ColumnId) (expected actual : ColumnType)
| TooManyRows
| DictionaryFailure (e : DictionaryError).

(** ** Sealed columns *)

Record NumericColumn (B : Type) : Type := {
  nc_values : list Z;
  nc_present : DocBitmap B;
}.
Arguments Build_NumericColumn {B} nc_values nc_present.
Arguments nc_values {B} n.
Arguments nc_present {B} n.

Record BoolColumn (B : Type) : Type := {
  bc_values : list Z;
  bc_present : DocBitmap B;
}.
Arguments Build_BoolColumn {B} bc_values bc_present.
Arguments bc_values {B} b.
Arguments bc_present {B} b.

Record DictionaryColumn (B : Type) : Type := {
  dc_codes : DictionaryCodes;
  dc_dictionary : StringDictionary;
  dc_present : DocBitmap B;
}.
Arguments Build_DictionaryColumn {B} dc_codes dc_dictionary dc_present.
Arguments dc_codes {B} d.
Arguments dc_dictionary {B} d.
Arguments dc_present {B} d.

Record RawStringColumn (B : Type) : Type := {
  rc_values : StringStorage;
  rc_present : DocBitmap B;
}.
Arguments Build_RawStringColumn {B} rc_values rc_present.
Arguments rc_values {B} r.
Arguments rc_present {B} r.

Inductive Column (B : Type) : Type :=
| ColU64 (c : NumericColumn B)
| ColId128 (c : NumericColumn B)
| ColI64 (c : NumericColumn B)
| ColF64 (c : NumericColumn B)
| ColBool (c : BoolColumn B)
| ColDictionaryString (c : DictionaryColumn B)
| ColRawString (c : RawStringColumn B).
Arguments ColU64 {B} c.
Arguments ColId128 {B} c.
Arguments ColI64 {B} c.
Arguments ColF64 {B} c.
Arguments ColBool {B} c.
Arguments ColDictionaryString {B} c.
Arguments ColRawString {B} c.

Record ColumnStore (B : Type) : Type := {
  cs_schema : Schema;
  cs_columns : list (Column B);
  cs_row_count : Z;
}.
Arguments Build_ColumnStore {B} cs_schema cs_columns cs_row_count.
Arguments cs_schema {B} c.
Arguments cs_columns {B} c.
Arguments cs_row_count {B} c.

Section Sealed.
Context {B : Type} `{Roaring B}.

Definition numeric_get (c : NumericColumn B) (row : Z) : option Z :=
  if negb (contains row (nc_present c)) then None else nc_values c !! Z.to_nat row.

Definition bool_get (c : BoolColumn B) (row : Z) : option bool :=
  if negb (contains row (bc_present c)) then None
  else (λ value, negb (value =? 0)) <$> bc_values c !! Z.to_nat row.

Definition dictionary_column_get (c : DictionaryColumn B) (row : Z) : option bytes :=
  if negb (contains row (dc_present c)) then None
  else code ← codes_get (dc_codes c) row; dictionary_get (dc_dictionary c) code.

Definition raw_string_get (c : RawStringColumn B) (row : Z) : option bytes :=
  if negb (contains row (rc_present c)) then None else storage_get (rc_values c) row.

Definition physical_get (c : RawStringColumn B) (position : Z) : option bytes :=
  storage_get (rc_values c) position.

Definition column_type (c : Column B) : ColumnType :=
  match c with
  | ColId128 _ => Id128
  | ColU64 _ => U64
  | ColI64 _ => I64
  | ColF64 _ => F64
  | ColBool _ => Bool
  | ColDictionaryString _ => DictionaryString
  | ColRawString _ => RawString
  end.

Definition column_len (c : Column B) : Z :=
  match c with
  | ColU64 c | ColId128 c | ColI64 c | ColF64 c => len (nc_values c)
  | ColBool c => len (bc_values c)
  | ColDictionaryString c => codes_len (dc_codes c)
  | ColRawString c => storage_len (rc_values c)
  end.

Definition column_present (c : Column B) : DocBitmap B :=
  match c with
  | ColU64 c | ColId128 c | ColI64 c | ColF64 c => nc_present c
  | ColBool c => bc_present c
  | ColDictionaryString c => dc_present c
  | ColRawString c => rc_present c
  end.

(** [schema.columns().iter().zip(&columns).find_map(..)]. *)
Definition store_column (s : ColumnStore B) (id : ColumnId) : option (Column B) :=
  snd <$> List.find (λ pair, cd_id pair.1 =? id) (zip (sc_columns (cs_schema s)) (cs_columns s)).

Definition store_timestamp (s : ColumnStore B) (row : Z) : option Z :=
  match store_column s TIMESTAMP_COLUMN with
  | Some (ColI64 c) => numeric_get c row
  | _ => None
  end.

Definition store_timestamps (s : ColumnStore B) : list Z :=
  match store_column s TIMESTAMP_COLUMN with
  | Some (ColI64 c) => nc_values c
  | _ => []
  end.

(** The value of a cell, through the accessor of the column's type. *)
Definition column_value (c : Column B) (row : Z) : option ColumnValue :=
  match c with
  | ColU64 c => VU64 <$> numeric_get c row
  | ColId128 c => VId128 <$> numeric_get c row
  | ColI64 c => VI64 <$> numeric_get c row
  | ColF64 c => VF64 <$> numeric_get c row
  | ColBool c => VBool <$> bool_get c row
  | ColDictionaryString c => VString <$> dictionary_column_get c row
  | ColRawString c => VString <$> raw_string_get c row
  end.
End Sealed.

(** ** Builders *)

Inductive BuilderColumn (B : Type) : Type :=
| BuildU64 (values : list Z) (present : DocBitmap B)
| BuildId128 (values : list Z) (present : DocBitmap B)
| BuildI64 (values : list Z) (present : DocBitmap B)
| BuildF64 (values : list Z) (present : DocBitmap B)
| BuildBool (values : list Z) (present : DocBitmap B)
| BuildDictionary (codes : list Z) (dictionary : DictionaryBuilder) (present : DocBitmap B)
| BuildRawString (values : StringStorage) (present : DocBitmap B).
Arguments BuildU64 {B} values present.
Arguments BuildId128 {B} values present.
Arguments BuildI64 {B} values present.
Arguments BuildF64 {B} values present.
Arguments BuildBool {B} values present.
Arguments BuildDictionary {B} codes dictionary present.
Arguments BuildRawString {B} values present.

Record ColumnStoreBuilder (B : Type) : Type := {
  cb_schema : Schema;
  cb_columns : list (BuilderColumn B);
  cb_row_count : Z;
}.
Arguments Build_ColumnStoreBuilder {B} cb_schema cb_columns cb_row_count.
Arguments cb_schema {B} c.
Arguments cb_columns {B} c.
Arguments cb_row_count {B} c.

Definition find_input (inputs : list ColumnInput) (column : ColumnId) : option ColumnInput :=
  List.find (λ input, ci_column input =? column) inputs.

(** [Option::is_none]. *)
Definition is_none {A} (o : option A) : bool := match o with Some _ => false | None => true end.

(** The value a row gives to a schema column. *)
Definition row_value (timestamp : Z) (inputs : list ColumnInput) (d : ColumnDefinition)
    : option ColumnValue :=
  if cd_id d =? TIMESTAMP_COLUMN then Some (VI64 timestamp)
  else ci_value <$> find_input inputs (cd_id d).

(** [u8::from(bool)]. *)
Definition bool_byte (b : bool) : Z := if b then 1 else 0.

Section Build.
Context {B : Type} `{Roaring B}.

Definition builder_column_new (t : ColumnType) : BuilderColumn B :=
  match t with
  | Id128 => BuildId128 [] bitmap_new
  | U64 => BuildU64 [] bitmap_new
  | I64 => BuildI64 [] bitmap_new
  | F64 => BuildF64 [] bitmap_new
  | Bool => BuildBool [] bitmap_new
  | DictionaryString => BuildDictionary [] dictionary_builder_new bitmap_new
  | RawString => BuildRawString storage_new bitmap_new
  end.

Definition builder_column_type (c : BuilderColumn B) : ColumnType :=
  match c with
  | BuildId128 _ _ => Id128
  | BuildU64 _ _ => U64
  | BuildI64 _ _ => I64
  | BuildF64 _ _ => F64
  | BuildBool _ _ => Bool
  | BuildDictionary _ _ _ => DictionaryString
  | BuildRawString _ _ => RawString
  end.

Definition preflight (c : BuilderColumn B) (value : option ColumnValue)
    : result DictionaryError unit :=
  match c, value with
  | BuildDictionary _ dictionary _, Some (VString v) => can_intern v dictionary
  | BuildRawString values _, Some (VString v) => can_push v values
  | BuildRawString values _, None => can_push [] values
  | _, _ => Ok tt
  end.

Definition mark (row : Z) (present : DocBitmap B) : DocBitmap B := (bitmap_insert row present).1.

(** [BuilderColumn::push]; a failing dictionary or storage call may already
    have changed what it owns. *)
Definition builder_column_push (row : Z) (column : ColumnId) (value : option ColumnValue)
    (c : BuilderColumn B) : BuilderColumn B * result BuildError unit :=
  match c, value with
  | BuildId128 values present, Some (VId128 v) =>
      (BuildId128 (values ++ [v]) (mark row present), Ok tt)
  | BuildU64 values present, Some (VU64 v) =>
      (BuildU64 (values ++ [v]) (mark row present), Ok tt)
  | BuildId128 values present, None => (BuildId128 (values ++ [0]) present, Ok tt)
  | BuildU64 values present, None => (BuildU64 (values ++ [0]) present, Ok tt)
  | BuildI64 values present, Some (VI64 v) =>
      (BuildI64 (values ++ [v]) (mark row present), Ok tt)
  | BuildI64 values present, None => (BuildI64 (values ++ [0]) present, Ok tt)
  | BuildF64 values present, Some (VF64 v) =>
      (BuildF64 (values ++ [v]) (mark row present), Ok tt)
  | BuildF64 values present, None => (BuildF64 (values ++ [0]) present, Ok tt)
  | BuildBool values present, Some (VBool v) =>
      (BuildBool (values ++ [bool_byte v]) (mark row present), Ok tt)
  | BuildBool values present, None => (BuildBool (values ++ [0]) present, Ok tt)
  | BuildDictionary codes dictionary present, Some (VString v) =>
      match intern v dictionary with
      | (dictionary', Ok code) =>
          (BuildDictionary (codes ++ [code]) dictionary' (mark row present), Ok tt)
      | (dictionary', Err e) =>
          (BuildDictionary codes dictionary' present, Err (DictionaryFailure e))
      end
  | BuildDictionary codes dictionary present, None =>
      (BuildDictionary (codes ++ [0]) dictionary present, Ok tt)
  | BuildRawString values present, Some (VString v) =>
      match storage_push v values with
      | (values', Ok _) => (BuildRawString values' (mark row present), Ok tt)
      | (values', Err e) => (BuildRawString values' present, Err (DictionaryFailure e))
      end
  | BuildRawString values present, None =>
      match storage_push [] values with
      | (values', Ok _) => (BuildRawString values' present, Ok tt)
      | (values', Err e) => (BuildRawString values' present, Err (DictionaryFailure e))
      end
  | c, Some v => (c, Err (TypeMismatch column (builder_column_type c) (value_type v)))
  end.

Definition builder_column_finish (c : BuilderColumn B) : result DictionaryError (Column B) :=
  match c with
  | BuildId128 values present =>
      Ok (ColId128 {| nc_values := values; nc_present := present |})
  | BuildU64 values present => Ok (ColU64 {| nc_values := values; nc_present := present |})
  | BuildI64 values present => Ok (ColI64 {| nc_values := values; nc_present := present |})
  | BuildF64 values present => Ok (ColF64 {| nc_values := values; nc_present := present |})
  | BuildBool values present => Ok (ColBool {| bc_values := values; bc_present := present |})
  | BuildDictionary codes dictionary present =>
      packed ← codes_from_u32 codes (builder_cardinality dictionary);
      Ok (ColDictionaryString {| dc_codes := packed;
                                 dc_dictionary := dictionary_finish dictionary;
                                 dc_present := present |})
  | BuildRawString values present =>
      Ok (ColRawString {| rc_values := values; rc_present := present |})
  end.

Definition builder_new (schema : Schema) : ColumnStoreBuilder B :=
  {| cb_schema := schema;
     cb_columns := map (λ d, builder_column_new (cd_column_type d)) (sc_columns schema);
     cb_row_count := 0 |}.

(** The first loop of [validate_inputs]; [before] are the inputs already
    seen. *)
Fixpoint validate_each (schema : Schema) (before inputs : list ColumnInput)
    : result BuildError unit :=
  match inputs with
  | [] => Ok tt
  | input :: rest =>
      if ci_column input =? TIMESTAMP_COLUMN then Err TimestampProvidedAsInput
      else if existsb (λ candidate, ci_column candidate =? ci_column input) before
      then Err (DuplicateColumnInput (ci_column input))
      else
        definition ← ok_or (schema_column schema (ci_column input))
                       (UnknownColumn (ci_column input));
        if negb (compatible_with (ci_value input) (cd_column_type definition))
        then Err (TypeMismatch (ci_column input) (cd_column_type definition)
                    (value_type (ci_value input)))
        else validate_each schema (before ++ [input]) rest
  end.

(** The second loop: every required column is supplied. *)
Fixpoint check_required (inputs : list ColumnInput) (columns : list ColumnDefinition)
    : result BuildError unit :=
  match columns with
  | [] => Ok tt
  | d :: rest =>
      if cd_id d =? TIMESTAMP_COLUMN then check_required inputs rest
      else if negb (cd_nullable d) && is_none (find_input inputs (cd_id d))
      then Err (MissingRequiredColumn (cd_id d))
      else check_required inputs rest
  end.

Definition validate_inputs (schema : Schema) (inputs : list ColumnInput)
    : result BuildError unit :=
  _ ← validate_each schema [] inputs;
  check_required inputs (sc_columns schema).

Fixpoint preflight_row (timestamp : Z) (inputs : list ColumnInput)
    (columns : list (ColumnDefinition * BuilderColumn B)) : result BuildError unit :=
  match columns with
  | [] => Ok tt
  | (definition, builder) :: rest =>
      _ ← map_err DictionaryFailure (preflight builder (row_value timestamp inputs definition));
      preflight_row timestamp inputs rest
  end.

(** The second pass; the columns already pushed keep what was pushed when a
    later one fails. *)
Fixpoint push_columns (row timestamp : Z) (inputs : list ColumnInput)
    (definitions : list ColumnDefinition) (columns : list (BuilderColumn B))
    : list (BuilderColumn B) * result BuildError unit :=
  match definitions, columns with
  | d :: definitions, c :: columns =>
      match builder_column_push row (cd_id d) (row_value timestamp inputs d) c with
      | (c', Err e) => (c' :: columns, Err e)
      | (c', Ok _) =>
          let '(columns', r) := push_columns row timestamp inputs definitions columns in
          (c' :: columns', r)
      end
  | _, columns => (columns, Ok tt)
  end.

Definition push_row (timestamp : Z) (inputs : list ColumnInput) (b : ColumnStoreBuilder B)
    : ColumnStoreBuilder B * result BuildError Z :=
  if cb_row_count b =? u32_max then (b, Err TooManyRows)
  else
    match validate_inputs (cb_schema b) inputs with
    | Err e => (b, Err e)
    | Ok _ =>
        match preflight_row timestamp inputs (zip (sc_columns (cb_schema b)) (cb_columns b)) with
        | Err e => (b, Err e)
        | Ok _ =>
            let row := cb_row_count b in
            let '(columns, r) :=
              push_columns row timestamp inputs (sc_columns (cb_schema b)) (cb_columns b) in
            match r with
            | Err e => ({| cb_schema := cb_schema b; cb_columns := columns;
                           cb_row_count := row |}, Err e)
            | Ok _ => ({| cb_schema := cb_schema b; cb_columns := columns;
                          cb_row_count := saturating_add u32_max row 1 |}, Ok row)
            end
        end
    end.

(** [into_iter().map(BuilderColumn::finish).collect()]. *)
Fixpoint finish_columns (columns : list (BuilderColumn B))
    : result DictionaryError (list (Column B)) :=
  match columns with
  | [] => Ok []
  | c :: rest =>
      column ← builder_column_finish c;
      columns' ← finish_columns rest;
      Ok (column :: columns')
  end.

Definition finish (b : ColumnStoreBuilder B) : result BuildError (ColumnStore B) :=
  columns ← map_err DictionaryFailure (finish_columns (cb_columns b));
  Ok {| cs_schema := cb_schema b; cs_columns := columns; cs_row_count := cb_row_count b |}.
End Build.
