(* ===== verification/ColumnsSpec.v ===== *)
(** * Column stores hold the rows that were pushed

    The invariant that ties the physical arrays of [Columns] to the logical
    cells they hold, and the theorems it gives: a rejected row changes nothing,
    sealing always succeeds, and every cell reads back. *)

From S2P Require Import Prelude Cursor Schema Bitmap Dict Columns.

(** ** Cells *)

Abbreviation cell := (option ColumnValue).

(** A row as the caller supplies it. *)
Abbreviation Row := (Z * list ColumnInput)%type.

Definition value_utf8 (v : ColumnValue) : Prop :=
  match v with VString s => utf8_valid s = true | _ => True end.

Definition row_cells (rows : list Row) (d : ColumnDefinition) : list cell :=
  map (λ r, row_value r.1 r.2 d) rows.

(** How a typed array of integers stores a value. *)
Definition number_of (t : ColumnType) (v : ColumnValue) : option Z :=
  match t, v with
  | U64, VU64 z | Id128, VId128 z | I64, VI64 z | F64, VF64 z => Some z
  | Bool, VBool b => Some (bool_byte b)
  | _, _ => None
  end.

Definition stores_number (t : ColumnType) (c : cell) (z : Z) : Prop :=
  match c with Some v => number_of t v = Some z | None => z = 0 end.

Definition stores_code (vs : list bytes) (c : cell) (code : Z) : Prop :=
  match c with
  | Some (VString s) => 0 ≤ code ∧ vs !! Z.to_nat code = Some s
  | Some _ => False
  | None => code = 0
  end.

Definition cell_text (c : cell) : bytes := match c with Some (VString s) => s | _ => [] end.

Definition is_text (c : cell) : Prop :=
  match c with Some (VString _) | None => True | _ => False end.

(** A value a column of type [t] may receive. *)
Definition cell_ok (t : ColumnType) (c : cell) : Prop :=
  match c with Some v => compatible_with v t = true ∧ value_utf8 v | None => True end.

Section Holds.
Context {B : Type} `{RoaringLaws B}.

(** The presence bitmap marks exactly the rows with a value. *)
Definition present_holds (cells : list cell) (p : DocBitmap B) : Prop :=
  ∀ x, x ∈ db_set p ↔ 0 ≤ x ∧ ∃ v, cells !! Z.to_nat x = Some (Some v).

Definition builder_present (c : BuilderColumn B) : DocBitmap B :=
  match c with
  | BuildU64 _ p | BuildId128 _ p | BuildI64 _ p | BuildF64 _ p | BuildBool _ p
  | BuildDictionary _ _ p | BuildRawString _ p => p
  end.

Definition builder_column_holds (cells : list cell) (c : BuilderColumn B) : Prop :=
  present_holds cells (builder_present c)
  ∧ match c with
    | BuildU64 values _ => Forall2 (stores_number U64) cells values
    | BuildId128 values _ => Forall2 (stores_number Id128) cells values
    | BuildI64 values _ => Forall2 (stores_number I64) cells values
    | BuildF64 values _ => Forall2 (stores_number F64) cells values
    | BuildBool values _ => Forall2 (stores_number Bool) cells values
    | BuildDictionary codes d _ =>
        ∃ vs, dict_holds vs d ∧ Forall2 (stores_code vs) cells codes
    | BuildRawString storage _ =>
        storage_holds (map cell_text cells) storage ∧ Forall is_text cells
    end.

Definition column_holds (cells : list cell) (c : Column B) : Prop :=
  present_holds cells (column_present c)
  ∧ match c with
    | ColU64 n => Forall2 (stores_number U64) cells (nc_values n)
    | ColId128 n => Forall2 (stores_number Id128) cells (nc_values n)
    | ColI64 n => Forall2 (stores_number I64) cells (nc_values n)
    | ColF64 n => Forall2 (stores_number F64) cells (nc_values n)
    | ColBool n => Forall2 (stores_number Bool) cells (bc_values n)
    | ColDictionaryString d =>
        ∃ vs b, dict_holds vs b ∧ dc_dictionary d = dictionary_finish b
                ∧ Forall2 (stores_code vs) cells (codes_iter (dc_codes d))
    | ColRawString r =>
        storage_holds (map cell_text cells) (rc_values r) ∧ Forall is_text cells
    end.

(** *** Presence *)

Lemma present_nil : present_holds [] bitmap_new.
Proof. intros x. rewrite db_set_new. split; [set_solver|]. by intros [_ [v Hv]]. Qed.

Lemma present_snoc_Some cells p v :
  present_holds cells p → present_holds (cells ++ [Some v]) (mark (len cells) p).
Proof.
  intros Hp x. unfold mark. rewrite db_set_insert, elem_of_union, elem_of_singleton, (Hp x).
  split.
  - intros [->|[Hx [w Hw]]].
    + split; [apply len_nonneg|]. exists v. by rewrite to_nat_len, list_lookup_middle.
    + split; [done|]. exists w. by apply lookup_app_l_Some.
  - intros [Hx [w [Hw|[Hge [Hz _]%list_lookup_singleton_Some]]%lookup_app_Some]].
    + right. eauto.
    + left. unfold len. lia.
Qed.

Lemma present_snoc_None cells p :
  present_holds cells p → present_holds (cells ++ [None]) p.
Proof.
  intros Hp x. rewrite (Hp x). split; intros [Hx [w Hw]]; split; try done; exists w.
  - by apply lookup_app_l_Some.
  - apply lookup_app_Some in Hw as [Hw|[_ [_ Hw]%list_lookup_singleton_Some]]; done.
Qed.

Lemma present_contains cells p row :
  present_holds cells p → 0 ≤ row →
  contains row p = negb (is_none (mjoin (cells !! Z.to_nat row))).
Proof.
  intros Hp Hr. rewrite db_contains. destruct (cells !! Z.to_nat row) as [[v|]|] eqn:E; cbn.
  - apply bool_decide_eq_true, Hp. eauto.
  - apply bool_decide_eq_false. rewrite (Hp row). naive_solver congruence.
  - apply bool_decide_eq_false. rewrite (Hp row). naive_solver congruence.
Qed.

(** *** Pushing a value *)

Lemma builder_column_new_holds t :
  builder_column_holds [] (builder_column_new t) ∧ builder_column_type (builder_column_new (B:=B) t) = t.
Proof.
  split; [|by destruct t]. split; [destruct t; apply present_nil|].
  destruct t; cbn; try constructor.
  - exists []. split; [apply dictionary_builder_new_holds|constructor].
  - apply storage_new_holds.
  - constructor.
Qed.

Lemma codes_prefix vs vs' cells codes :
  vs `prefix_of` vs' → Forall2 (stores_code vs) cells codes → Forall2 (stores_code vs') cells codes.
Proof.
  intros Hp Hf. apply (Forall2_impl _ _ _ _ Hf). intros [[]|] c; cbn; try done.
  intros [Hc Hl]. split; [done|]. by apply (prefix_lookup_Some vs).
Qed.

Lemma numbers_snoc t cells values c z :
  Forall2 (stores_number t) cells values → stores_number t c z →
  Forall2 (stores_number t) (cells ++ [c]) (values ++ [z]).
Proof. intros Hf Hc. apply Forall2_app; [done|by constructor]. Qed.

(** After its check, a push into a column cannot fail. *)
Lemma builder_column_push_ok cells c id value :
  builder_column_holds cells c → cell_ok (builder_column_type c) value →
  preflight c value = Ok tt →
  ∃ c', builder_column_push (len cells) id value c = (c', Ok tt)
        ∧ builder_column_type c' = builder_column_type c
        ∧ builder_column_holds (cells ++ [value]) c'.
Proof.
  intros [Hp Hc] Hv Hf.
  destruct c as [values p|values p|values p|values p|values p|codes d p|st p];
    cbn [builder_present] in Hp.
  1-5: destruct value as [[z|z|z|z|b|s]|]; cbn in Hv; try (by destruct Hv);
    eexists; (split; [reflexivity|]); (split; [reflexivity|]);
    (split; [by (apply present_snoc_Some || apply present_snoc_None)|
             by apply numbers_snoc]).
  - destruct Hc as (vs & Hd & Hcodes).
    destruct value as [[z|z|z|z|b|s]|]; cbn in Hv; try (by destruct Hv).
    + cbn [preflight] in Hf. destruct Hv as [_ Hu]. pose proof (intern_spec vs s d Hd Hu) as Hi.
      cbn [builder_column_push]. destruct (intern s d) as [d' [code|e]]; cycle 1.
      { destruct Hi as [_ Hi]. congruence. }
      destruct Hi as (_ & vs' & Hpre & Hd' & Hc0 & Hlk & _).
      eexists. split; [reflexivity|]. split; [reflexivity|].
      split; [by apply present_snoc_Some|]. exists vs'. split; [done|].
      apply Forall2_app; [by apply (codes_prefix vs)|]. by constructor.
    + eexists. split; [reflexivity|]. split; [reflexivity|].
      split; [by apply present_snoc_None|]. exists vs. split; [done|].
      apply Forall2_app; [done|by constructor].
  - destruct Hc as [Hs Ht].
    destruct value as [[z|z|z|z|b|s]|]; cbn in Hv; try (by destruct Hv); cbn [preflight] in Hf.
    + destruct Hv as [_ Hu]. destruct (storage_push_ok s _ st Hs Hu Hf) as (st' & E & Hs').
      cbn [builder_column_push]. rewrite E. eexists. split; [reflexivity|]. split; [reflexivity|].
      split; [by apply present_snoc_Some|]. rewrite map_app. split; [done|].
      apply Forall_app; split; [done|by constructor].
    + destruct (storage_push_ok [] _ st Hs eq_refl Hf) as (st' & E & Hs').
      cbn [builder_column_push]. rewrite E. eexists. split; [reflexivity|]. split; [reflexivity|].
      split; [by apply present_snoc_None|]. rewrite map_app. split; [done|].
      apply Forall_app; split; [done|by constructor].
Qed.

(** *** Sealing *)

Lemma codes_in_range vs cells codes :
  Forall2 (stores_code vs) cells codes → Forall (λ c, 0 ≤ c < Z.max 1 (len vs)) codes.
Proof.
  induction 1 as [|c z cells codes Hc _ IH]; constructor; [|done].
  destruct c as [[]|]; cbn in Hc; try done; [|lia].
  destruct Hc as [Hz0 Hl%lookup_lt_Some]. unfold len. lia.
Qed.

Lemma builder_column_finish_ok cells c :
  builder_column_holds cells c →
  ∃ c', builder_column_finish c = Ok c' ∧ column_type c' = builder_column_type c
        ∧ column_holds cells c'.
Proof.
  intros [Hp Hc].
  destruct c as [values p|values p|values p|values p|values p|codes d p|st p].
  1-5: eexists; (split; [reflexivity|]); (split; [reflexivity|]); by split.
  - destruct Hc as (vs & Hd & Hcodes). cbn [builder_column_finish].
    rewrite (dict_cardinality _ _ Hd).
    destruct (codes_from_u32_ok codes (len vs)) as (packed & E & Hi);
      [by apply (codes_in_range vs cells)|apply Hd|].
    rewrite E. eexists. split; [reflexivity|]. split; [reflexivity|]. split; [done|].
    exists vs, d. cbn. by rewrite Hi.
  - eexists. split; [reflexivity|]. split; [reflexivity|]. by split.
Qed.

(** *** Reading *)

Lemma column_len_spec cells c : column_holds cells c → column_len c = len cells.
Proof.
  intros [_ Hc]. destruct c as [n|n|n|n|n|d|r]; cbn [column_len];
    try (apply Forall2_length in Hc; unfold len; lia).
  - destruct Hc as (vs & b & _ & _ & Hf). apply Forall2_length in Hf.
    unfold codes_len, codes_iter, len in *. destruct (dc_codes d); lia.
  - destruct Hc as [Hs _]. by rewrite (storage_len_spec _ _ Hs), len_map.
Qed.

Lemma number_lookup t cells values (row : nat) :
  Forall2 (stores_number t) cells values →
  match cells !! row with
  | Some (Some v) => ∃ z, values !! row = Some z ∧ number_of t v = Some z
  | Some None => values !! row = Some 0
  | None => values !! row = None
  end.
Proof.
  intros Hf. destruct (cells !! row) as [c|] eqn:E.
  - destruct (Forall2_lookup_l _ _ _ _ _ Hf E) as (z & Hz & Hc).
    destruct c as [v|]; cbn in Hc; [by exists z|]. by subst.
  - apply lookup_ge_None. apply lookup_ge_None in E. apply Forall2_length in Hf. lia.
Qed.

(** Reading a cell gives the value it was given. *)
Lemma column_value_spec cells c row :
  column_holds cells c → 0 ≤ row → len cells ≤ u32_max →
  column_value c row = mjoin (cells !! Z.to_nat row).
Proof.
  intros [Hp Hc] Hr Hn. pose proof (present_contains cells _ row Hp Hr) as Hk.
  destruct c as [n|n|n|n|n|d|r]; cbn [column_value column_present] in *;
    unfold numeric_get, bool_get, dictionary_column_get, raw_string_get; rewrite Hk.
  1-5: pose proof (number_lookup _ _ _ (Z.to_nat row) Hc) as Hl;
    destruct (cells !! Z.to_nat row) as [[[]|]|]; cbn; try done;
    destruct Hl as (z' & -> & Hz); cbn in Hz; try done; injection Hz as <-; try done.
  - by destruct b.
  - destruct Hc as (vs & b & Hd & -> & Hf).
    destruct (cells !! Z.to_nat row) as [[v|]|] eqn:E; cbn; [|done..].
    destruct (Forall2_lookup_l _ _ _ _ _ Hf E) as (z & Hz & Hs).
    destruct v; cbn in Hs; try done. destruct Hs as [Hz0 Hl].
    assert (codes_get (dc_codes d) row = Some z) as ->.
    { unfold codes_get, codes_iter in *. by destruct (dc_codes d). }
    cbn [mbind option_bind]. by rewrite (dictionary_get_spec _ _ _ Hd Hz0), Hl.
  - destruct Hc as [Hs Ht]. rewrite (storage_get_spec _ _ row Hs Hr) by (by rewrite len_map).
    change (map cell_text cells) with (cell_text <$> cells). rewrite list_lookup_fmap. destruct (cells !! Z.to_nat row) as [[v|]|] eqn:E; cbn; [|done..].
    rewrite Forall_lookup in Ht. specialize (Ht _ _ E). by destruct v.
Qed.
End Holds.

(** ** Input validation *)

(** The inputs the builder accepts for a row of the schema. *)
Record row_valid (schema : Schema) (inputs : list ColumnInput) : Prop := {
  rv_distinct : NoDup (map ci_column inputs);
  rv_known : Forall (λ i, ci_column i ≠ TIMESTAMP_COLUMN
               ∧ ∃ d, schema_column schema (ci_column i) = Some d
                      ∧ compatible_with (ci_value i) (cd_column_type d) = true) inputs;
  rv_required : Forall (λ d, cd_id d ≠ TIMESTAMP_COLUMN → cd_nullable d = false →
                  is_none (find_input inputs (cd_id d)) = false) (sc_columns schema);
}.

Lemma existsb_column inputs c :
  existsb (λ candidate, ci_column candidate =? c) inputs = true ↔ c ∈ map ci_column inputs.
Proof.
  rewrite existsb_exists, list_elem_of_In, in_map_iff. split.
  - intros (i & Hi & E%Z.eqb_eq). by exists i.
  - intros (i & E & Hi). exists i. split; [done|]. by apply Z.eqb_eq.
Qed.

Lemma validate_each_spec schema before inputs :
  is_ok (validate_each schema before inputs) = true ↔
  Forall (λ i, ci_column i ≠ TIMESTAMP_COLUMN
     ∧ ∃ d, schema_column schema (ci_column i) = Some d
            ∧ compatible_with (ci_value i) (cd_column_type d) = true) inputs
  ∧ NoDup (map ci_column inputs)
  ∧ ∀ c, c ∈ map ci_column inputs → c ∉ map ci_column before.
Proof.
  revert before. induction inputs as [|i rest IH]; intros before; cbn [validate_each map].
  { split; [|done]. intros _. split_and!; [constructor|constructor|]. intros c Hc. by apply elem_of_nil in Hc. }
  rewrite Forall_cons, NoDup_cons.
  destruct (Z.eqb_spec (ci_column i) TIMESTAMP_COLUMN) as [Ht|Ht].
  { split; [done|]. by intros [[[Hn _] _] _]. }
  destruct (existsb _ before) eqn:Ee.
  { split; [done|]. intros (_ & _ & Hb). apply existsb_column in Ee.
    by destruct (Hb (ci_column i)); [left|]. }
  assert (ci_column i ∉ map ci_column before) as Hnb.
  { intros Hin%existsb_column. congruence. }
  destruct (schema_column schema (ci_column i)) as [d|] eqn:Es; cbn [ok_or mbind result_bind].
  2: { split; [done|]. by intros [[[_ (d & Hd & _)] _] _]. }
  destruct (compatible_with _ _) eqn:Ec; cbn [negb]; cycle 1.
  { split; [done|]. intros [[[_ (d' & Hd & Hc)] _] _]. congruence. }
  rewrite IH, map_app. cbn [map]. split.
  - intros (Hf & Hnd & Hb). split_and!; [done|by eauto|done| |done|].
    + intros Hin. apply Hb in Hin. apply Hin, elem_of_app. right. by left.
    + intros c [->|Hc]%elem_of_cons; [done|]. apply Hb in Hc. by rewrite not_elem_of_app in Hc; destruct Hc.
  - intros ([[_ _] Hf] & [Hn Hnd] & Hb). split_and!; [done|done|].
    intros c Hc. rewrite not_elem_of_app, list_elem_of_singleton. split; [apply Hb; by right|].
    by intros ->.
Qed.

Lemma check_required_spec inputs columns :
  is_ok (check_required inputs columns) = true ↔
  Forall (λ d, cd_id d ≠ TIMESTAMP_COLUMN → cd_nullable d = false →
            is_none (find_input inputs (cd_id d)) = false) columns.
Proof.
  induction columns as [|d rest IH]; cbn [check_required]; [by rewrite Forall_nil|].
  rewrite Forall_cons, <- IH.
  destruct (Z.eqb_spec (cd_id d) TIMESTAMP_COLUMN); [tauto|].
  destruct (cd_nullable d); cbn [negb andb]; [naive_solver|].
  destruct (is_none _); naive_solver.
Qed.

(** [validate_inputs] accepts exactly the valid rows. *)
Lemma validate_inputs_spec schema inputs :
  is_ok (validate_inputs schema inputs) = true ↔ row_valid schema inputs.
Proof.
  unfold validate_inputs. pose proof (validate_each_spec schema [] inputs) as Hv.
  pose proof (check_required_spec inputs (sc_columns schema)) as Hr.
  destruct (validate_each schema [] inputs) as [[]|e]; cbn [mbind result_bind].
  - destruct Hv as [Hv _]. destruct (Hv eq_refl) as (Hk & Hnd & _). rewrite Hr.
    split; [by split|]. by intros [].
  - split; [done|]. intros [Hnd Hk _]. destruct Hv as [_ Hv]. apply Hv. split_and!; [done|done|].
    intros c _. apply not_elem_of_nil.
Qed.

Lemma find_input_Some inputs c i :
  find_input inputs c = Some i → i ∈ inputs ∧ ci_column i = c.
Proof.
  intros [Hi E]%List.find_some. apply list_elem_of_In in Hi. by apply Z.eqb_eq in E.
Qed.

Lemma schema_column_unique schema d d' :
  schema_ok schema → d ∈ sc_columns schema → schema_column schema (cd_id d) = Some d' → d' = d.
Proof.
  intros Hs Hd [Hd' E]%List.find_some. apply list_elem_of_In in Hd'. apply Z.eqb_eq in E.
  apply list_elem_of_lookup in Hd as [i Hi], Hd' as [j Hj].
  assert (j = i) as ->; [|congruence].
  apply (NoDup_lookup _ j i (cd_id d) (so_ids _ Hs));
    [rewrite <- E|]; change (map cd_id) with (fmap (M:=list) cd_id);
    rewrite list_lookup_fmap; by rewrite ?Hi, ?Hj.
Qed.

(** A valid row gives every column a value of its type. *)
Lemma row_value_ok schema ts inputs d :
  schema_ok schema → row_valid schema inputs → Forall (λ i, value_utf8 (ci_value i)) inputs →
  d ∈ sc_columns schema → cell_ok (cd_column_type d) (row_value ts inputs d).
Proof.
  intros Hs Hv Hu Hd. unfold row_value. destruct (Z.eqb_spec (cd_id d) TIMESTAMP_COLUMN) as [E|E].
  - destruct (so_ts _ Hs) as [cols Hc].
    assert (timestamp_definition = d) as <-; [|done].
    apply (schema_column_unique schema d timestamp_definition Hs Hd).
    unfold schema_column. rewrite Hc, E. done.
  - destruct (find_input inputs (cd_id d)) as [i|] eqn:Ei; [|done]. cbn.
    apply find_input_Some in Ei as [Hi Ec]. pose proof (rv_known _ _ Hv) as Hk.
    rewrite Forall_forall in Hk, Hu. destruct (Hk i Hi) as (_ & d' & Hd' & Hcomp). split; [|by apply Hu].
    rewrite Ec in Hd'. by rewrite (schema_column_unique schema d d' Hs Hd Hd') in Hcomp.
Qed.

(** ** The builder *)

Section Builder.
Context {B : Type} `{RoaringLaws B}.

(** The builder holds exactly the rows [rows]. *)
Record builder_holds (schema : Schema) (rows : list Row) (b : ColumnStoreBuilder B) : Prop := {
  bh_schema : cb_schema b = schema;
  bh_count : cb_row_count b = len rows;
  bh_bound : len rows ≤ u32_max;
  bh_columns : Forall2 (λ d c, builder_column_type c = cd_column_type d
                               ∧ builder_column_holds (row_cells rows d) c)
                 (sc_columns schema) (cb_columns b);
}.

Lemma builder_new_holds schema : builder_holds schema [] (builder_new schema).
Proof.
  split; [done|done|by vm_compute|]. cbn [builder_new cb_columns].
  apply Forall2_fmap_r, Forall_Forall2_diag, Forall_forall. intros d _.
  destruct (builder_column_new_holds (B:=B) (cd_column_type d)). by split.
Qed.

Lemma preflight_row_Ok ts inputs ds cs :
  length ds = length cs →
  preflight_row ts inputs (zip ds cs) = Ok tt →
  Forall2 (λ d c, preflight (B:=B) c (row_value ts inputs d) = Ok tt) ds cs.
Proof.
  revert cs. induction ds as [|d ds IH]; intros [|c cs] Hl; cbn; try done.
  intros Hp. apply bind_Ok_inv in Hp as ([] & Hc & Hp). constructor; [|apply IH; [by injection Hl|done]].
  by destruct (preflight c _) as [[]|].
Qed.

(** The second pass over checked columns succeeds for every column. *)
Lemma push_columns_ok ts inputs rows ds cs :
  Forall2 (λ d c, builder_column_type c = cd_column_type d
                  ∧ builder_column_holds (row_cells rows d) c) ds cs →
  Forall2 (λ d c, preflight c (row_value ts inputs d) = Ok tt) ds cs →
  Forall (λ d, cell_ok (cd_column_type d) (row_value ts inputs d)) ds →
  ∃ cs', push_columns (B:=B) (len rows) ts inputs ds cs = (cs', Ok tt)
         ∧ Forall2 (λ d c, builder_column_type c = cd_column_type d
                           ∧ builder_column_holds (row_cells (rows ++ [(ts, inputs)]) d) c) ds cs'.
Proof.
  intros Hf. induction Hf as [|d c ds cs [Ht Hc] _ IH]; intros Hp Hv; cbn [push_columns].
  { by exists []. }
  inversion Hp as [|? ? ? ? Hp1 Hp2]; subst. apply Forall_cons in Hv as [Hv1 Hv2].
  destruct (IH Hp2 Hv2) as (cs' & E & Hf'). rewrite <- Ht in Hv1.
  destruct (builder_column_push_ok _ c (cd_id d) _ Hc Hv1 Hp1) as (c' & Ec & Htc & Hc').
  replace (len (row_cells rows d)) with (len rows) in Ec by (symmetry; apply len_map).
  rewrite Ec, E. eexists. split; [reflexivity|]. constructor; [|done].
  split; [congruence|]. unfold row_cells in *. by rewrite map_app.
Qed.

(** [push_row] on every branch: a row is appended whole, or nothing changes. *)
Lemma push_row_spec schema rows b ts inputs :
  schema_ok schema → builder_holds schema rows b →
  Forall (λ i, value_utf8 (ci_value i)) inputs →
  match push_row ts inputs b with
  | (b', Ok row) => row = len rows ∧ builder_holds schema (rows ++ [(ts, inputs)]) b'
                    ∧ row_valid schema inputs
  | (b', Err e) =>
      b' = b ∧ (row_valid schema inputs →
                e = TooManyRows ∧ len rows = u32_max ∨ ∃ d, e = DictionaryFailure d)
  end.
Proof.
  intros Hs [Hsc Hn Hb Hc] Hu. unfold push_row. rewrite Hsc, Hn.
  destruct (Z.eqb_spec (len rows) u32_max) as [Em|Em].
  { split; [done|]. intros _. by left. }
  pose proof (validate_inputs_spec schema inputs) as Hv.
  destruct (validate_inputs schema inputs) as [[]|e]; cycle 1.
  { split; [done|]. intros Hr. by apply Hv in Hr. }
  apply proj1 in Hv. specialize (Hv eq_refl).
  destruct (preflight_row _ _ _) as [[]|e] eqn:Ep; cycle 1.
  { split; [done|]. intros _. right. clear -Ep.
    induction (zip _ _) as [|[d c] l IH]; cbn in Ep; [done|].
    destruct (preflight c _) as [[]|de]; cbn in Ep; [by apply IH|]. injection Ep as <-. by eexists. }
  apply preflight_row_Ok in Ep; [|by apply Forall2_length in Hc].
  destruct (push_columns_ok ts inputs rows _ _ Hc Ep) as (cs' & E & Hf).
  { apply Forall_forall. intros d Hd. by apply (row_value_ok schema). }
  rewrite E. split_and!; [done| |done].
  assert (len (rows ++ [(ts, inputs)]) = len rows + 1) as Hlen
    by (rewrite len_app, len_cons, len_nil; lia).
  split; cbn [cb_schema cb_columns cb_row_count]; [done| |lia|done].
  unfold saturating_add. lia.
Qed.

(** Sealing always succeeds. *)
Lemma finish_columns_ok rows ds cs :
  Forall2 (λ d c, builder_column_type c = cd_column_type d
                  ∧ builder_column_holds (row_cells rows d) c) ds cs →
  ∃ cs', finish_columns (B:=B) cs = Ok cs'
         ∧ Forall2 (λ d c, column_type c = cd_column_type d ∧ column_holds (row_cells rows d) c)
             ds cs'.
Proof.
  induction 1 as [|d c ds cs [Ht Hc] _ (cs' & E & IH)]; cbn [finish_columns].
  { exists []. split; [done|constructor]. }
  destruct (builder_column_finish_ok _ c Hc) as (c' & Ec & Htc & Hc').
  rewrite Ec. cbn [mbind result_bind]. rewrite E. eexists. split; [reflexivity|].
  constructor; [|done]. split; [congruence|done].
Qed.

(** The sealed store holds exactly the rows [rows]. *)
Record store_holds (schema : Schema) (rows : list Row) (s : ColumnStore B) : Prop := {
  th_schema : cs_schema s = schema;
  th_count : cs_row_count s = len rows;
  th_bound : len rows ≤ u32_max;
  th_columns : Forall2 (λ d c, column_type c = cd_column_type d
                               ∧ column_holds (row_cells rows d) c)
                 (sc_columns schema) (cs_columns s);
}.

Lemma finish_ok schema rows b :
  builder_holds schema rows b → ∃ s, finish b = Ok s ∧ store_holds schema rows s.
Proof.
  intros [Hsc Hn Hb Hc]. unfold finish. destruct (finish_columns_ok rows _ _ Hc) as (cs & E & Hf).
  rewrite E. eexists. split; [reflexivity|]. by split.
Qed.

(** The column of a schema definition. *)
Lemma store_column_spec schema rows s id :
  store_holds schema rows s →
  match store_column s id with
  | Some c => ∃ d, schema_column schema id = Some d ∧ column_type c = cd_column_type d
                   ∧ column_holds (row_cells rows d) c
  | None => schema_column schema id = None
  end.
Proof.
  intros [Hsc _ _ Hc]. unfold store_column, schema_column. rewrite Hsc.
  induction Hc as [|d c ds cs [Ht Hh] _ IH]; cbn; [done|].
  destruct (cd_id d =? id); cbn; [by exists d|done].
Qed.

(** Attempting a sequence of rows, keeping those the builder accepts. *)
Fixpoint push_rows (attempts : list Row) (b : ColumnStoreBuilder B)
    : ColumnStoreBuilder B * list Row :=
  match attempts with
  | [] => (b, [])
  | r :: rest =>
      match push_row r.1 r.2 b with
      | (b', Ok _) => let '(b'', accepted) := push_rows rest b' in (b'', r :: accepted)
      | (b', Err _) => push_rows rest b'
      end
  end.

Lemma push_rows_spec schema attempts rows b :
  schema_ok schema → builder_holds schema rows b →
  Forall (λ r, Forall (λ i, value_utf8 (ci_value i)) r.2) attempts →
  let '(b', accepted) := push_rows attempts b in builder_holds schema (rows ++ accepted) b'.
Proof.
  intros Hs. revert rows b. induction attempts as [|[ts inputs] rest IH]; intros rows b Hb Hu;
    cbn [push_rows fst snd].
  { by rewrite app_nil_r. }
  apply Forall_cons in Hu as [Hi Hu]. pose proof (push_row_spec schema rows b ts inputs Hs Hb Hi) as Hp.
  destruct (push_row ts inputs b) as [b' [row|e]].
  - destruct Hp as (_ & Hb' & _). specialize (IH _ b' Hb' Hu).
    destruct (push_rows rest b') as [b'' accepted]. by rewrite <- app_assoc in IH.
  - destruct Hp as [-> _]. by apply IH.
Qed.

(** The timestamp column holds the timestamps, in order. *)
Lemma timestamps_spec schema rows s :
  schema_ok schema → store_holds schema rows s → store_timestamps s = map fst rows.
Proof.
  intros Hs Hh. pose proof (store_column_spec _ _ s TIMESTAMP_COLUMN Hh) as Hc.
  destruct (so_ts _ Hs) as [cols Hcols].
  assert (schema_column schema TIMESTAMP_COLUMN = Some timestamp_definition) as Ed
    by (unfold schema_column; by rewrite Hcols).
  unfold store_timestamps. rewrite Ed in Hc.
  destruct (store_column s TIMESTAMP_COLUMN) as [c|]; [|done].
  destruct Hc as (d & [= <-] & Ht & _ & Hv).
  destruct c as [n|n|n|n|n|n|n]; cbn in Ht; try done. clear -Hv.
  unfold row_cells in Hv. generalize dependent (nc_values n).
  induction rows as [|r rows IH]; intros l Hv; inversion Hv as [|? z ? l' Hz Hl]; subst; [done|].
  cbn [map]. rewrite (IH l') by done. f_equal. cbn in Hz. by injection Hz.
Qed.

(** C29: Appending a row after any history of attempts either appends the whole row
    to every column and returns its index, and then the inputs were valid for the
    schema, or leaves the builder unchanged; a valid row is only refused for lack of
    row ids or string storage. *)
Theorem push_row_atomic (schema : Schema) (attempts : list Row) (ts : Z)
    (inputs : list ColumnInput) :
  schema_ok schema →
  Forall (λ r, Forall (λ i, value_utf8 (ci_value i)) r.2) ((ts, inputs) :: attempts) →
  let '(b, accepted) := push_rows attempts (builder_new schema) in
  match push_row ts inputs b with
  | (b', Ok row) => row = len accepted ∧ builder_holds schema (accepted ++ [(ts, inputs)]) b'
                    ∧ row_valid schema inputs
  | (b', Err e) =>
      b' = b ∧ (row_valid schema inputs →
                e = TooManyRows ∧ len accepted = u32_max ∨ ∃ d, e = DictionaryFailure d)
  end.
Proof.
  intros Hs [Hi Hu]%Forall_cons.
  pose proof (push_rows_spec schema attempts [] _ Hs (builder_new_holds schema) Hu) as Hb.
  destruct (push_rows attempts _) as [b accepted]. by apply push_row_spec.
Qed.

(** Sealing a builder always succeeds, and in the sealed store every column has
    its declared type, one entry per accepted row, and reads back in each row
    exactly the value (or the absence of one) the row supplied; the timestamp
    side-array is the rows' timestamps in order. *)
Theorem column_store_reads_back (schema : Schema) (attempts : list Row) :
  schema_ok schema →
  Forall (λ r, Forall (λ i, value_utf8 (ci_value i)) r.2) attempts →
  let '(b, accepted) := push_rows attempts (builder_new schema) in
  ∃ s, finish b = Ok s ∧ cs_row_count s = len accepted
       ∧ store_timestamps s = map fst accepted
       ∧ ∀ d, d ∈ sc_columns schema →
           ∃ c, store_column s (cd_id d) = Some c ∧ column_type c = cd_column_type d
                ∧ column_len c = len accepted
                ∧ ∀ (i : nat) r, accepted !! i = Some r →
                    column_value c (Z.of_nat i) = row_value r.1 r.2 d.
Proof.
  intros Hs Hu.
  pose proof (push_rows_spec schema attempts [] _ Hs (builder_new_holds schema) Hu) as Hb.
  destruct (push_rows attempts _) as [b accepted]. cbn [app] in Hb.
  destruct (finish_ok _ _ _ Hb) as (s & E & Hh). exists s. split_and!; [done|apply Hh| |].
  - by apply (timestamps_spec schema).
  - intros d Hd. pose proof (store_column_spec _ _ s (cd_id d) Hh) as Hc.
    destruct (store_column s (cd_id d)) as [c|]; cycle 1.
    { apply list_elem_of_In in Hd. pose proof (List.find_none _ _ Hc d Hd) as Hx.
      cbn beta in Hx. by rewrite Z.eqb_refl in Hx. }
    destruct Hc as (d' & Ed & Ht & Hc). apply (schema_column_unique _ _ _ Hs Hd) in Ed as ->.
    exists c. split_and!; [done|done| |].
    + rewrite (column_len_spec _ _ Hc). apply len_map.
    + intros i r Hr. assert (len (row_cells accepted d) ≤ u32_max) as Hn.
      { unfold row_cells. rewrite len_map. apply Hh. }
      rewrite (column_value_spec _ _ _ Hc (Nat2Z.is_nonneg i) Hn).
      rewrite Nat2Z.id. unfold row_cells. change (map ?f) with (fmap (M:=list) f).
      by rewrite list_lookup_fmap, Hr.
Qed.
End Builder.

(** ** Witnesses *)

Module SampleColumns.
Definition tag : ColumnDefinition :=
  {| cd_id := 1; cd_name := [Byte.x61]; cd_column_type := DictionaryString; cd_nullable := true |}.
Definition size_ : ColumnDefinition :=
  {| cd_id := 2; cd_name := [Byte.x62]; cd_column_type := U64; cd_nullable := false |}.
Definition schema : Schema := {| sc_columns := [timestamp_definition; tag; size_] |}.

Definition input (column : ColumnId) (value : ColumnValue) : ColumnInput :=
  {| ci_column := column; ci_value := value |}.

(** The second attempt omits the required column. *)
Definition attempts : list Row := [
  (10, [input 2 (VU64 7); input 1 (VString [Byte.x78])]);
  (11, [input 1 (VString [Byte.x79])]);
  (12, [input 2 (VU64 9)])].
Definition accepted : list Row := [
  (10, [input 2 (VU64 7); input 1 (VString [Byte.x78])]);
  (12, [input 2 (VU64 9)])].

Lemma schema_is_ok : schema_ok schema.
Proof. apply (schema_new_ok [tag; size_]). reflexivity. Qed.

Lemma attempts_utf8 : Forall (λ r, Forall (λ i, value_utf8 (ci_value i)) r.2) attempts.
Proof. by repeat constructor. Qed.

Lemma attempts_accepted :
  (push_rows attempts (builder_new (B:=gset Z) schema)).2 = accepted.
Proof. by vm_compute. Qed.
End SampleColumns.

Lemma push_row_atomic_witness :
  let b := (push_rows SampleColumns.attempts (builder_new (B:=gset Z) SampleColumns.schema)).1 in
  push_row 13 [SampleColumns.input 1 (VU64 3)] b
  = (b, Err (TypeMismatch 1 DictionaryString U64))
  ∧ (push_row 13 [SampleColumns.input 1 (VU64 3)] b).1 = b.
Proof.
  intros b. split; [by vm_compute|].
  pose proof (push_row_atomic (B:=gset Z) SampleColumns.schema SampleColumns.attempts 13
    [SampleColumns.input 1 (VU64 3)] SampleColumns.schema_is_ok) as Hp.
  assert (Forall (λ r, Forall (λ i, value_utf8 (ci_value i)) r.2)
    ((13, [SampleColumns.input 1 (VU64 3)]) :: SampleColumns.attempts)) as Hu
    by (repeat constructor).
  specialize (Hp Hu). subst b. destruct (push_rows _ _) as [b accepted]. cbn [fst] in *.
  destruct (push_row _ _ _) as [b' [row|e]]; [|apply Hp]. cbn [fst].
  exfalso. destruct Hp as (_ & _ & [_ _ Hr]). 
  apply Forall_inv_tail, Forall_inv_tail, Forall_inv in Hr.
  by specialize (Hr ltac:(done) eq_refl).
Defined.

Lemma column_store_reads_back_witness :
  ∃ s, finish (push_rows SampleColumns.attempts
                 (builder_new (B:=gset Z) SampleColumns.schema)).1 = Ok s
       ∧ store_timestamps s = [10; 12].
Proof.
  pose proof (column_store_reads_back (B:=gset Z) SampleColumns.schema SampleColumns.attempts
    SampleColumns.schema_is_ok SampleColumns.attempts_utf8) as Hc.
  pose proof SampleColumns.attempts_accepted as Ha.
  destruct (push_rows _ _) as [b accepted]. cbn [fst snd] in *. subst accepted.
  destruct Hc as (s & E & _ & Ht & _). by exists s.
Defined.
