(* ===== verification/Float.v ===== *)
(** * IEEE-754 comparisons on bit patterns

    The program only ever compares floats, so an [f64] or [f32] is its bit
    pattern, a [Z] below [2 ^ 64] or [2 ^ 32].  The operators [==], [<] and
    [<=] are false as soon as an operand is a NaN and identify the two zeros;
    [total_cmp] orders every bit pattern. *)

From S2P Require Import Prelude.

(** ** [f64] *)

(** The exponent bits are all ones and the fraction is not zero. *)
Definition f64_magnitude (bits : Z) : Z := Z.land bits (2 ^ 63 - 1).
Definition f64_is_nan (bits : Z) : bool := 2047 * 2 ^ 52 <? f64_magnitude bits.

(** Sign and magnitude as one integer: the order of the values of two floats
    that are not NaN. *)
Definition f64_key (bits : Z) : Z :=
  if Z.testbit bits 63 then - f64_magnitude bits else f64_magnitude bits.

Definition f64_ordered (a b : Z) : bool := negb (f64_is_nan a) && negb (f64_is_nan b).
Definition f64_eq (a b : Z) : bool := f64_ordered a b && (f64_key a =? f64_key b).
Definition f64_lt (a b : Z) : bool := f64_ordered a b && (f64_key a <? f64_key b).
Definition f64_le (a b : Z) : bool := f64_ordered a b && (f64_key a <=? f64_key b).

Lemma f64_nan_compares (a b : Z) :
  f64_is_nan a = true → f64_eq a b = false ∧ f64_lt a b = false ∧ f64_le a b = false
  ∧ f64_lt b a = false ∧ f64_le b a = false.
Proof.
  intros Hn. unfold f64_eq, f64_lt, f64_le, f64_ordered. rewrite Hn. cbn [negb andb].
  by rewrite andb_false_r.
Qed.

(** 0.0 and -0.0 are equal; 1.0 < infinity; a NaN equals nothing. *)
Lemma f64_samples :
  f64_eq 0 (2 ^ 63) = true ∧ f64_lt 0x3FF0000000000000 0x7FF0000000000000 = true
  ∧ f64_is_nan 0x7FF0000000000000 = false ∧ f64_is_nan 0x7FF8000000000000 = true
  ∧ f64_lt 0xBFF0000000000000 0 = true ∧ f64_eq 0x7FF8000000000000 0x7FF8000000000000 = false.
Proof. by vm_compute. Qed.

(** ** [f32::total_cmp]

    [left ^= (((left >> 31) as u32) >> 1) as i32], and the same for the right
    operand, then a comparison of the [i32]s. *)
Definition i32_of_bits (bits : Z) : Z := if bits <? 2 ^ 31 then bits else bits - 2 ^ 32.

Definition f32_total_key (bits : Z) : Z :=
  let left := i32_of_bits bits in
  let mask := Z.shiftr (Z.land (Z.shiftr left 31) (2 ^ 32 - 1)) 1 in
  Z.lxor left mask.

Definition f32_total_cmp (a b : Z) : comparison :=
  Z.compare (f32_total_key a) (f32_total_key b).

(** [f32::is_finite]: the exponent bits are not all ones. *)
Definition f32_is_finite (bits : Z) : bool := Z.land bits (2 ^ 31 - 1) <? 255 * 2 ^ 23.

(** -NaN < -1.0 < -0.0 < 0.0 < 1.0 < infinity < NaN. *)
Lemma f32_total_samples :
  Forall (λ p, f32_total_cmp p.1 p.2 = Lt)
    [(0xFFC00000, 0xBF800000); (0xBF800000, 0x80000000); (0x80000000, 0);
     (0, 0x3F800000); (0x3F800000, 0x7F800000); (0x7F800000, 0x7FC00000)].
Proof. repeat constructor. Qed.

(** The order is total: distinct bit patterns never compare equal. *)
Lemma f32_total_key_inj a b : is_u32 a → is_u32 b → f32_total_key a = f32_total_key b → a = b.
Proof.
  assert (∀ bits, is_u32 bits →
    (bits < 2 ^ 31 ∧ f32_total_key bits = bits)
    ∨ (2 ^ 31 ≤ bits ∧ f32_total_key bits = Z.lxor (bits - 2 ^ 32) (2 ^ 31 - 1))) as Hkey.
  { intros bits Hb. unfold f32_total_key, i32_of_bits. unfold is_u32, u32_max in Hb.
    destruct (Z.ltb_spec bits (2 ^ 31)); [left|right]; (split; [done|]).
    - assert (Z.shiftr bits 31 = 0) as ->
        by (rewrite Z.shiftr_div_pow2 by lia; apply Z.div_small; lia).
      apply Z.lxor_0_r.
    - assert (Z.shiftr (bits - 2 ^ 32) 31 = -1) as ->; [|done].
      rewrite Z.shiftr_div_pow2 by lia. symmetry.
      apply Z.div_unique with (r := bits - 2 ^ 32 + 2 ^ 31); lia. }
  assert (∀ bits, is_u32 bits → Z.lxor (bits - 2 ^ 32) (2 ^ 31 - 1) < 0) as Hneg.
  { intros bits Hb. unfold is_u32, u32_max in Hb. apply Z.lt_nge. rewrite Z.lxor_nonneg. lia. }
  intros Ha Hb E. pose proof (Hneg a Ha). pose proof (Hneg b Hb). unfold is_u32 in *.
  destruct (Hkey a Ha) as [[? Ea]|[? Ea]], (Hkey b Hb) as [[? Eb]|[? Eb]];
    rewrite Ea, Eb in E; try lia.
  assert (a - 2 ^ 32 = b - 2 ^ 32); [|lia].
  apply Z.lxor_eq. apply (f_equal (λ z, Z.lxor z (2 ^ 31 - 1))) in E.
  rewrite !Z.lxor_assoc, Z.lxor_nilpotent, !Z.lxor_0_r in E. rewrite E. apply Z.lxor_nilpotent.
Qed.
