(* ===== verification/Predicate.v ===== *)
(** * Structured predicates ([meta/predicate.rs])

    The closed predicate language and its evaluation into bitmaps over sealed
    columns, with the evaluation order and the early exits of the code: a
    conjunction is evaluated in the order of estimated cardinality, inside the
    rows its earlier members kept; a disjunction inside the rows not yet
    matched. *)

From S2P Require Import Prelude Schema Bitmap Dict Columns Float.

(** ** The language *)

Inductive PredicateValue : Type :=
| PU64 (z : Z)
| PId128 (z : Z)
| PI64 (z : Z)
| PF64 (bits : Z)
| PBool (b : bool)
| PString (s : bytes).

Definition predicate_value_type (v : PredicateValue) : ColumnType :=
  match v with
  | PId128 _ => Id128
  | PU64 _ => U64
  | PI64 _ => I64
  | PF64 _ => F64
  | PBool _ => Bool
  | PString _ => RawString
  end.

Record RangeBound : Type := {
  rb_value : PredicateValue;
  rb_inclusive : bool;
}.

Record RangePredicate : Type := {
  rp_column : ColumnId;
  rp_lower : option RangeBound;
  rp_upper : option RangeBound;
}.

Inductive Predicate : Type :=
| PEq (column : ColumnId) (value : PredicateValue)
| PIn (column : ColumnId) (values : list PredicateValue)
| PRange (range : RangePredicate)
| PExists (column : ColumnId)
| PIsNull (column : ColumnId)
| PAnd (children : list Predicate)
| POr (children : list Predicate)
| PNot (child : Predicate).

Inductive EvalError : Type :=
| RowCountMismatch (columns alive : Z)
| EvalUnknownColumn (column : ColumnId)
| EvalTypeMismatch (column : ColumnId) (expected actual : ColumnType)
| RangeRequiresNumericColumn (column : ColumnId).

(** ** Comparisons

    What the generic helpers use of [T: PartialOrd]. *)
Record PartialOrd : Type := {
  po_eq : Z → Z → bool;
  po_lt : Z → Z → bool;
  po_le : Z → Z → bool;
}.

Definition int_ord : PartialOrd := {| po_eq := Z.eqb; po_lt := Z.ltb; po_le := Z.leb |}.
Definition f64_ord : PartialOrd := {| po_eq := f64_eq; po_lt := f64_lt; po_le := f64_le |}.

Definition lower_matches (ord : PartialOrd) (value : Z) (bound : option (Z * bool)) : bool :=
  match bound with
  | None => true
  | Some (endpoint, inclusive) =>
      if inclusive then po_le ord endpoint value else po_lt ord endpoint value
  end.

Definition upper_matches (ord : PartialOrd) (value : Z) (bound : option (Z * bool)) : bool :=
  match bound with
  | None => true
  | Some (endpoint, inclusive) =>
      if inclusive then po_le ord value endpoint else po_lt ord value endpoint
  end.

Definition type_error (column : ColumnId) (expected : ColumnType) (value : PredicateValue)
    : EvalError :=
  EvalTypeMismatch column expected (predicate_value_type value).

Definition u64_bound (column : ColumnId) (bound : option RangeBound)
    : result EvalError (option (Z * bool)) :=
  match bound with
  | None => Ok None
  | Some b => match rb_value b with
              | PU64 value => Ok (Some (value, rb_inclusive b))
              | _ => Err (type_error column U64 (rb_value b))
              end
  end.

Definition i64_bound (column : ColumnId) (bound : option RangeBound)
    : result EvalError (option (Z * bool)) :=
  match bound with
  | None => Ok None
  | Some b => match rb_value b with
              | PI64 value => Ok (Some (value, rb_inclusive b))
              | _ => Err (type_error column I64 (rb_value b))
              end
  end.

Definition f64_bound (column : ColumnId) (bound : option RangeBound)
    : result EvalError (option (Z * bool)) :=
  match bound with
  | None => Ok None
  | Some b => match rb_value b with
              | PF64 value => Ok (Some (value, rb_inclusive b))
              | _ => Err (type_error column F64 (rb_value b))
              end
  end.

(** A stable sort, as [slice::sort_by_key]. *)
Fixpoint insert_by_key {A} (key : A → Z) (x : A) (l : list A) : list A :=
  match l with
  | [] => [x]
  | y :: rest => if key x <=? key y then x :: l else y :: insert_by_key key x rest
  end.
Definition sort_by_key {A} (key : A → Z) (l : list A) : list A :=
  foldr (insert_by_key key) [] l.

Definition div_ceil (a b : Z) : Z := (a + b - 1) / b.

Section Eval.
Context {B : Type} `{Roaring B}.

Definition get_column (columns : ColumnStore B) (id : ColumnId) : result EvalError (Column B) :=
  ok_or (store_column columns id) (EvalUnknownColumn id).

Definition ensure_type (id : ColumnId) (column : Column B) (query : PredicateValue)
    : result EvalError unit :=
  match column_type column, query with
  | Id128, PId128 _ | U64, PU64 _ | I64, PI64 _ | F64, PF64 _ | Bool, PBool _
  | (DictionaryString | RawString), PString _ => Ok tt
  | expected, _ => Err (EvalTypeMismatch id expected (predicate_value_type query))
  end.

(** The scan loops: [for (position, value) in values.iter().enumerate()],
    leaving when the position no longer fits a [u32] and inserting the rows
    that pass the test. *)
Fixpoint collect_rows {A} (test : Z → A → bool) (position : Z) (values : list A)
    (result : DocBitmap B) : DocBitmap B :=
  match values with
  | [] => result
  | value :: rest =>
      match try_from u32_max position with
      | None => result
      | Some row =>
          collect_rows test (position + 1) rest
            (if test row value then (bitmap_insert row result).1 else result)
      end
  end.

Definition eval_values_eq (ord : PartialOrd) (values : list Z) (present scope : DocBitmap B)
    (query : Z) : DocBitmap B :=
  collect_rows (λ row value, contains row scope && contains row present && po_eq ord value query)
    0 values bitmap_new.

Definition eval_dictionary_eq (column : DictionaryColumn B) (query : bytes)
    (scope : DocBitmap B) : DocBitmap B :=
  match dictionary_find (dc_dictionary column) query with
  | None => bitmap_new
  | Some query_code =>
      collect_rows (λ row code, contains row scope && contains row (dc_present column)
                                && (code =? query_code))
        0 (codes_iter (dc_codes column)) bitmap_new
  end.

(** [for position in 0..column.len()]. *)
Definition eval_raw_string_eq (column : RawStringColumn B) (query : bytes)
    (scope : DocBitmap B) : DocBitmap B :=
  collect_rows (λ row position, contains row scope && contains row (rc_present column)
                  && bool_decide (physical_get column position = Some query))
    0 (seqZ 0 (storage_len (rc_values column))) bitmap_new.

Definition eval_eq (id : ColumnId) (query : PredicateValue) (columns : ColumnStore B)
    (scope : DocBitmap B) : result EvalError (DocBitmap B) :=
  column ← get_column columns id;
  _ ← ensure_type id column query;
  Ok match column, query with
     | ColId128 c, PId128 q => eval_values_eq int_ord (nc_values c) (nc_present c) scope q
     | ColU64 c, PU64 q => eval_values_eq int_ord (nc_values c) (nc_present c) scope q
     | ColI64 c, PI64 q => eval_values_eq int_ord (nc_values c) (nc_present c) scope q
     | ColF64 c, PF64 q => eval_values_eq f64_ord (nc_values c) (nc_present c) scope q
     | ColBool c, PBool q =>
         eval_values_eq int_ord (bc_values c) (bc_present c) scope (bool_byte q)
     | ColDictionaryString c, PString q => eval_dictionary_eq c q scope
     | ColRawString c, PString q => eval_raw_string_eq c q scope
     | _, _ => bitmap_new
     end.

Fixpoint ensure_types (id : ColumnId) (column : Column B) (queries : list PredicateValue)
    : result EvalError unit :=
  match queries with
  | [] => Ok tt
  | query :: rest => _ ← ensure_type id column query; ensure_types id column rest
  end.

Definition query_text (q : PredicateValue) : option bytes :=
  match q with PString s => Some s | _ => None end.

(** The loop of [eval_in] over the queries of a column that is not a raw
    string column. *)
Fixpoint union_queries (id : ColumnId) (queries : list PredicateValue)
    (columns : ColumnStore B) (scope result : DocBitmap B)
    : Prelude.result EvalError (DocBitmap B) :=
  match queries with
  | [] => Ok result
  | query :: rest =>
      matched ← eval_eq id query columns scope;
      union_queries id rest columns scope (union_with result matched)
  end.

Definition eval_in (id : ColumnId) (queries : list PredicateValue) (columns : ColumnStore B)
    (scope : DocBitmap B) : result EvalError (DocBitmap B) :=
  column ← get_column columns id;
  _ ← ensure_types id column queries;
  match column with
  | ColRawString c =>
      match queries with
      | [] => Ok bitmap_new
      | _ =>
          let members : gset bytes := list_to_set (omap query_text queries) in
          Ok (collect_rows
                (λ row position, contains row scope && contains row (rc_present c)
                   && match physical_get c position with
                      | Some value => bool_decide (value ∈ members)
                      | None => false
                      end)
                0 (seqZ 0 (storage_len (rc_values c))) bitmap_new)
      end
  | _ => union_queries id queries columns scope bitmap_new
  end.

Definition eval_ordered_range (values : list Z) (present scope : DocBitmap B)
    (lower upper : option (Z * bool)) : DocBitmap B :=
  collect_rows (λ row value, contains row scope && contains row present
                  && lower_matches int_ord value lower && upper_matches int_ord value upper)
    0 values bitmap_new.

Definition nan_bound (bound : option (Z * bool)) : bool :=
  match bound with Some (value, _) => f64_is_nan value | None => false end.

Definition eval_f64_range (values : list Z) (present scope : DocBitmap B)
    (lower upper : option (Z * bool)) : DocBitmap B :=
  if nan_bound lower || nan_bound upper then bitmap_new
  else
    collect_rows (λ row value, negb (f64_is_nan value) && contains row scope
                    && contains row present && lower_matches f64_ord value lower
                    && upper_matches f64_ord value upper)
      0 values bitmap_new.

Definition eval_range (range : RangePredicate) (columns : ColumnStore B) (scope : DocBitmap B)
    : result EvalError (DocBitmap B) :=
  column ← get_column columns (rp_column range);
  match column with
  | ColU64 c =>
      lower ← u64_bound (rp_column range) (rp_lower range);
      upper ← u64_bound (rp_column range) (rp_upper range);
      Ok (eval_ordered_range (nc_values c) (nc_present c) scope lower upper)
  | ColI64 c =>
      lower ← i64_bound (rp_column range) (rp_lower range);
      upper ← i64_bound (rp_column range) (rp_upper range);
      Ok (eval_ordered_range (nc_values c) (nc_present c) scope lower upper)
  | ColF64 c =>
      lower ← f64_bound (rp_column range) (rp_lower range);
      upper ← f64_bound (rp_column range) (rp_upper range);
      Ok (eval_f64_range (nc_values c) (nc_present c) scope lower upper)
  | ColId128 _ | ColBool _ | ColDictionaryString _ | ColRawString _ =>
      Err (RangeRequiresNumericColumn (rp_column range))
  end.

Fixpoint estimate_cardinality (predicate : Predicate) (columns : ColumnStore B)
    (scope : DocBitmap B) : Z :=
  let scope_count := cardinality scope in
  match predicate with
  | PEq _ _ => div_ceil scope_count 16
  | PIn _ values =>
      Z.min (div_ceil (saturating_mul u64_max scope_count
                         (default u64_max (try_from u64_max (len values)))) 16) scope_count
  | PRange _ => scope_count / 2
  | PExists column =>
      match store_column columns column with
      | None => scope_count
      | Some column => cardinality (intersect_with (column_present column) scope)
      end
  | PIsNull column =>
      match store_column columns column with
      | None => scope_count
      | Some column => cardinality (subtract scope (column_present column))
      end
  | PAnd children =>
      match map (λ child, estimate_cardinality child columns scope) children with
      | [] => scope_count
      | first :: rest => foldl Z.min first rest
      end
  | POr children =>
      Z.min (foldl (saturating_add u64_max) 0
               (map (λ child, estimate_cardinality child columns scope) children)) scope_count
  | PNot _ => scope_count / 2
  end.

(** A child of a conjunction or disjunction, to be evaluated in some scope. *)
Definition Evaluator : Type := DocBitmap B → result EvalError (DocBitmap B).

(** The loop of [eval_and] over the ordered children. *)
Fixpoint and_loop (ordered : list Evaluator) (result : DocBitmap B)
    : Prelude.result EvalError (DocBitmap B) :=
  match ordered with
  | [] => Ok result
  | child :: rest =>
      if is_empty result then Ok result
      else next ← child result; and_loop rest next
  end.

(** [eval_and]; each child comes with its estimate in the scope. *)
Definition eval_and (children : list (Z * Evaluator)) (scope : DocBitmap B)
    : result EvalError (DocBitmap B) :=
  and_loop (map snd (sort_by_key fst children)) scope.

(** The loop of the [Or] arm. *)
Fixpoint or_loop (children : list Evaluator) (scope result : DocBitmap B)
    : Prelude.result EvalError (DocBitmap B) :=
  match children with
  | [] => Ok result
  | child :: rest =>
      let remaining := subtract scope result in
      if is_empty remaining then Ok result
      else
        child_result ← child remaining;
        or_loop rest scope (union_with result child_result)
  end.

Fixpoint evaluate_in_scope (predicate : Predicate) (columns : ColumnStore B)
    (scope : DocBitmap B) : result EvalError (DocBitmap B) :=
  match predicate with
  | PEq column value => eval_eq column value columns scope
  | PIn column values => eval_in column values columns scope
  | PRange range => eval_range range columns scope
  | PExists column =>
      column ← get_column columns column;
      Ok (intersect_with (column_present column) scope)
  | PIsNull column =>
      column ← get_column columns column;
      Ok (subtract scope (column_present column))
  | PAnd children =>
      eval_and (map (λ child, (estimate_cardinality child columns scope,
                               evaluate_in_scope child columns)) children) scope
  | POr children =>
      or_loop (map (λ child, evaluate_in_scope child columns) children) scope bitmap_new
  | PNot child =>
      child_result ← evaluate_in_scope child columns scope;
      Ok (subtract scope child_result)
  end.

Definition evaluate (predicate : Predicate) (columns : ColumnStore B) (alive : AliveSet B)
    : result EvalError (DocBitmap B) :=
  if negb (cs_row_count columns =? as_row_count alive)
  then Err (RowCountMismatch (cs_row_count columns) (as_row_count alive))
  else evaluate_in_scope predicate columns (as_alive alive).
End Eval.
