(* ===== verification/PredicateSpec.v ===== *)
(** * Predicate evaluation is exact

    A reference semantics of the predicate language on logical rows, and the
    theorem that [evaluate] returns exactly the live rows it selects, over any
    column store the builder can produce.  The order of a conjunction's
    members, the narrowing scopes and the early exits never show. *)

From S2P Require Import Prelude Cursor Schema Bitmap Dict Columns ColumnsSpec Float Predicate.

(** ** Reference semantics *)

Definition value_eq (v : ColumnValue) (q : PredicateValue) : bool :=
  match v, q with
  | VU64 a, PU64 b | VId128 a, PId128 b | VI64 a, PI64 b => a =? b
  | VF64 a, PF64 b => f64_eq a b
  | VBool a, PBool b => eqb a b
  | VString a, PString b => bool_decide (a = b)
  | _, _ => false
  end.

(** A bound on the value of a cell; [le] and [lt] compare the cell on the left. *)
Definition above (v : ColumnValue) (b : RangeBound) : bool :=
  match v, rb_value b with
  | VU64 a, PU64 e | VI64 a, PI64 e => if rb_inclusive b then e <=? a else e <? a
  | VF64 a, PF64 e => if rb_inclusive b then f64_le e a else f64_lt e a
  | _, _ => false
  end.
Definition below (v : ColumnValue) (b : RangeBound) : bool :=
  match v, rb_value b with
  | VU64 a, PU64 e | VI64 a, PI64 e => if rb_inclusive b then a <=? e else a <? e
  | VF64 a, PF64 e => if rb_inclusive b then f64_le a e else f64_lt a e
  | _, _ => false
  end.

(** A NaN lies in no range. *)
Definition rangeable (v : ColumnValue) : bool :=
  match v with VU64 _ | VI64 _ => true | VF64 a => negb (f64_is_nan a) | _ => false end.

Definition in_range (v : ColumnValue) (r : RangePredicate) : bool :=
  rangeable v && from_option (above v) true (rp_lower r) && from_option (below v) true (rp_upper r).

Definition on_value (f : ColumnValue → bool) (c : cell) : bool :=
  match c with Some v => f v | None => false end.

(** Does a row, given by the cells of its columns, satisfy the predicate? *)
Fixpoint matches (cells : ColumnId → cell) (p : Predicate) : bool :=
  match p with
  | PEq column q => on_value (λ v, value_eq v q) (cells column)
  | PIn column qs => on_value (λ v, existsb (value_eq v) qs) (cells column)
  | PRange r => on_value (λ v, in_range v r) (cells (rp_column r))
  | PExists column => negb (is_none (cells column))
  | PIsNull column => is_none (cells column)
  | PAnd children => forallb (matches cells) children
  | POr children => existsb (matches cells) children
  | PNot child => negb (matches cells child)
  end.

(** Predicates that name known columns with values of their type. *)
Definition query_compatible (t : ColumnType) (q : PredicateValue) : bool :=
  match t, q with
  | Id128, PId128 _ | U64, PU64 _ | I64, PI64 _ | F64, PF64 _ | Bool, PBool _
  | (DictionaryString | RawString), PString _ => true
  | _, _ => false
  end.

Definition bound_compatible (t : ColumnType) (b : RangeBound) : bool :=
  match t, rb_value b with
  | U64, PU64 _ | I64, PI64 _ | F64, PF64 _ => true
  | _, _ => false
  end.

Definition numeric_type (t : ColumnType) : bool :=
  match t with U64 | I64 | F64 => true | _ => false end.

Definition typed_as (schema : Schema) (column : ColumnId) (f : ColumnType → bool) : bool :=
  from_option (λ d, f (cd_column_type d)) false (schema_column schema column).

Fixpoint well_typed (schema : Schema) (p : Predicate) : bool :=
  match p with
  | PEq column q => typed_as schema column (λ t, query_compatible t q)
  | PIn column qs => typed_as schema column (λ t, forallb (query_compatible t) qs)
  | PRange r =>
      typed_as schema (rp_column r)
        (λ t, numeric_type t && from_option (bound_compatible t) true (rp_lower r)
              && from_option (bound_compatible t) true (rp_upper r))
  | PExists column | PIsNull column => typed_as schema column (λ _, true)
  | PAnd children | POr children => forallb (well_typed schema) children
  | PNot child => well_typed schema child
  end.

(** Induction over the nested syntax. *)
Fixpoint Predicate_nested_ind (P : Predicate → Prop)
    (Heq : ∀ c q, P (PEq c q)) (Hin : ∀ c qs, P (PIn c qs)) (Hrange : ∀ r, P (PRange r))
    (Hexists : ∀ c, P (PExists c)) (Hnull : ∀ c, P (PIsNull c))
    (Hand : ∀ l, Forall P l → P (PAnd l)) (Hor : ∀ l, Forall P l → P (POr l))
    (Hnot : ∀ p, P p → P (PNot p)) (p : Predicate) : P p :=
  let rec := Predicate_nested_ind P Heq Hin Hrange Hexists Hnull Hand Hor Hnot in
  let all := fix all (l : list Predicate) : Forall P l :=
    match l with
    | [] => List.Forall_nil P
    | q :: l => List.Forall_cons P q l (rec q) (all l)
    end in
  match p with
  | PEq c q => Heq c q
  | PIn c qs => Hin c qs
  | PRange r => Hrange r
  | PExists c => Hexists c
  | PIsNull c => Hnull c
  | PAnd l => Hand l (all l)
  | POr l => Hor l (all l)
  | PNot q => Hnot q (rec q)
  end.

(** ** Sorting *)

Lemma insert_by_key_perm {A} (key : A → Z) x l : insert_by_key key x l ≡ₚ x :: l.
Proof.
  induction l as [|y l IH]; cbn; [done|]. destruct (_ <=? _); [done|].
  rewrite IH. apply Permutation_swap.
Qed.

Lemma sort_by_key_perm {A} (key : A → Z) l : sort_by_key key l ≡ₚ l.
Proof.
  induction l as [|x l IH]; cbn; [done|]. fold (sort_by_key key l).
  by rewrite insert_by_key_perm, IH.
Qed.

(** Sorting decorated elements is decorating the sorted elements. *)
Lemma sort_by_key_map {A C} (key : A → Z) (f : A → C) l :
  map snd (sort_by_key fst (map (λ x, (key x, f x)) l)) = map f (sort_by_key key l).
Proof.
  assert (sort_by_key fst (map (λ x, (key x, f x)) l)
          = map (λ x, (key x, f x)) (sort_by_key key l)) as ->.
  { induction l as [|x l IH]; cbn; [done|]. fold (sort_by_key key l).
    unfold sort_by_key in IH at 1. rewrite IH. clear IH.
    induction (sort_by_key key l) as [|y k IH]; cbn; [done|].
    destruct (_ <=? _); cbn; [done|]. by rewrite IH. }
  by rewrite map_map.
Qed.

Lemma andb_assoc_r (a b c : bool) : a && b && c = a && (b && c).
Proof. symmetry. apply andb_assoc. Qed.

Lemma and_iff_distr (P Q R : Prop) : (P → Q ↔ R) → P ∧ Q ↔ P ∧ R.
Proof. tauto. Qed.

(** ** Scan loops *)

Section Scans.
Context {B : Type} `{RoaringLaws B}.

Lemma collect_rows_spec {A} (test : Z → A → bool) values pos (acc : DocBitmap B) x :
  0 ≤ pos → pos + len values ≤ u32_max + 1 →
  x ∈ db_set (collect_rows test pos values acc) ↔
  x ∈ db_set acc
  ∨ pos ≤ x ∧ ∃ v, values !! Z.to_nat (x - pos) = Some v ∧ test x v = true.
Proof.
  revert pos acc. induction values as [|v rest IH]; intros pos acc Hp Hl; cbn [collect_rows].
  { split; [by left|]. intros [?|(_ & w & Hw & _)]; [done|]. done. }
  rewrite len_cons in Hl. pose proof (len_nonneg rest). unfold try_from.
  destruct (Z.leb_spec 0 pos); [|lia]. destruct (Z.leb_spec pos u32_max); [|lia]. cbn [andb].
  rewrite IH by lia. clear IH.
  assert (x ∈ db_set (if test pos v then (bitmap_insert pos acc).1 else acc)
          ↔ x ∈ db_set acc ∨ x = pos ∧ test x v = true) as ->.
  { destruct (test pos v) eqn:E; [rewrite db_set_insert; set_solver|].
    split; [by left|]. intros [?|[-> ?]]; [done|congruence]. }
  destruct (decide (x = pos)) as [->|Hne].
  - rewrite Z.sub_diag. cbn [Z.to_nat lookup list_lookup]. split.
    + intros [[?|[_ ?]]|[? _]]; [by left| |lia]. right. split; [lia|]. eauto.
    + intros [?|(_ & w & [= ->] & ?)]; [by left; left|]. left. by right.
  - split.
    + intros [[?|[? _]]|(? & w & Hw & ?)]; [by left|done|]. right. split; [lia|]. exists w.
      replace (Z.to_nat (x - pos)) with (S (Z.to_nat (x - (pos + 1)))) by lia. done.
    + intros [?|(? & w & Hw & ?)]; [by left; left|]. right. split; [lia|]. exists w.
      replace (Z.to_nat (x - pos)) with (S (Z.to_nat (x - (pos + 1)))) in Hw by lia. done.
Qed.

(** A scan of a whole array, inside a scope and over the present rows. *)
Lemma scan_spec {A} (test : Z → A → bool) values (x : Z) :
  len values ≤ u32_max →
  x ∈ db_set (collect_rows test 0 values (bitmap_new (B:=B))) ↔
  0 ≤ x ∧ ∃ v, values !! Z.to_nat x = Some v ∧ test x v = true.
Proof.
  intros Hl. rewrite collect_rows_spec by lia. rewrite db_set_new, Z.sub_0_r.
  split; [|by right]. intros [Hx|?]; [set_solver|done].
Qed.

Lemma seqZ_position n (x : Z) : 0 ≤ x → seqZ 0 n !! Z.to_nat x = (if x <? n then Some x else None).
Proof.
  intros Hx. destruct (Z.ltb_spec x n).
  - apply lookup_seqZ. lia.
  - apply lookup_seqZ_ge. lia.
Qed.

Lemma collect_rows_ext {A} (test test' : Z → A → bool) pos values (acc : DocBitmap B) :
  (∀ row v, test row v = test' row v) →
  collect_rows test pos values acc = collect_rows test' pos values acc.
Proof using Type.
  intros He. revert pos acc. induction values as [|v rest IH]; intros pos acc; cbn; [done|].
  destruct (try_from _ _); [|done]. by rewrite IH, He.
Qed.

Variable (cells : list cell).
Hypothesis Hcells : len cells ≤ u32_max.

(** Scanning an integer array tests the value of the cell. *)
Lemma number_scan t values p (test : Z → bool) (cell_test : ColumnValue → bool)
    (scope : DocBitmap B) x :
  Forall2 (stores_number t) cells values → present_holds cells p →
  (∀ v z, number_of t v = Some z → test z = cell_test v) →
  x ∈ db_set (collect_rows (λ row value, contains row scope && contains row p && test value)
                0 values bitmap_new) ↔
  x ∈ db_set scope ∧ 0 ≤ x ∧ ∃ v, cells !! Z.to_nat x = Some (Some v) ∧ cell_test v = true.
Proof using Hcells.
  intros Hf Hp Ht. rewrite scan_spec; cycle 1.
  { apply Forall2_length in Hf. unfold len in *. lia. }
  pose proof (number_lookup t cells values (Z.to_nat x) Hf) as Hl. split.
  - intros (Hx & z & Hz & Hr). rewrite !andb_true_iff, !db_contains, !bool_decide_eq_true in Hr.
    destruct Hr as [[Hs [_ [v Hv]]%Hp] Hr].
    rewrite Hv in Hl. destruct Hl as (z' & Hz' & Hn). split_and!; [done|done|].
    exists v. split; [done|]. rewrite <- (Ht v z'); [|done]. congruence.
  - intros (Hs & Hx & v & Hv & Hr). rewrite Hv in Hl. destruct Hl as (z & Hz & Hn).
    split; [done|]. exists z. rewrite !andb_true_iff, !db_contains, !bool_decide_eq_true.
    split_and!; [done|done| |by rewrite (Ht v z)]. apply Hp. eauto.
Qed.

(** Scanning a raw string column tests the text of the cell. *)
Lemma text_scan (c : RawStringColumn B) (test : option bytes → bool) (scope : DocBitmap B) x :
  column_holds cells (ColRawString c) →
  x ∈ db_set (collect_rows (λ row position, contains row scope && contains row (rc_present c)
                  && test (physical_get c position))
                0 (seqZ 0 (storage_len (rc_values c))) bitmap_new) ↔
  x ∈ db_set scope ∧ 0 ≤ x
  ∧ ∃ s, cells !! Z.to_nat x = Some (Some (VString s)) ∧ test (Some s) = true.
Proof using Hcells.
  intros Hc. pose proof (column_len_spec _ _ Hc) as Hlen. cbn [column_len] in Hlen.
  pose proof Hc as [Hp [Hs Ht]]. cbn [column_present] in Hp. rewrite Hlen.
  rewrite scan_spec by (unfold len in *; rewrite length_seqZ; lia).
  assert (∀ s, 0 ≤ x → cells !! Z.to_nat x = Some (Some (VString s)) →
               physical_get c x = Some s) as Hget.
  { intros s Hx Hv. unfold physical_get. rewrite (storage_get_spec _ _ x Hs Hx) by (by rewrite len_map).
    change (map cell_text cells) with (cell_text <$> cells). by rewrite list_lookup_fmap, Hv. }
  split.
  - intros (Hx & y & Hy & Hr). rewrite seqZ_position in Hy by done.
    destruct (x <? len cells); [injection Hy as <-|done].
    rewrite !andb_true_iff, !db_contains, !bool_decide_eq_true in Hr.
    destruct Hr as [[Hsc [_ [v Hv]]%Hp] Hr].
    rewrite Forall_lookup in Ht. specialize (Ht _ _ Hv). destruct v; try done.
    rewrite (Hget _ Hx Hv) in Hr. eauto.
  - intros (Hsc & Hx & s & Hv & Hr). split; [done|]. exists x.
    apply lookup_lt_Some in Hv as Hlt. rewrite seqZ_position by done.
    destruct (Z.ltb_spec x (len cells)); [|unfold len in *; lia]. split; [done|].
    rewrite !andb_true_iff, !db_contains, !bool_decide_eq_true, (Hget _ Hx Hv).
    split_and!; [done| |done]. apply Hp. eauto.
Qed.

(** Scanning a dictionary column by code tests the text of the cell. *)
Lemma dictionary_scan (c : DictionaryColumn B) (query : bytes) (scope : DocBitmap B) x :
  column_holds cells (ColDictionaryString c) →
  x ∈ db_set (eval_dictionary_eq c query scope) ↔
  x ∈ db_set scope ∧ 0 ≤ x ∧ cells !! Z.to_nat x = Some (Some (VString query)).
Proof using Hcells.
  intros [Hp (vs & b & Hd & Ed & Hf)]. cbn [column_present] in Hp.
  assert (∀ s code, 0 ≤ code → vs !! Z.to_nat code = Some s →
            s = query ↔ dictionary_find (dc_dictionary c) query = Some code) as Hfind.
  { intros s code H0' Hs. rewrite Ed, (dictionary_find_spec _ _ _ _ Hd).
    split; [intros ->; done|]. intros [_ E]. congruence. }
  unfold eval_dictionary_eq. destruct (dictionary_find _ query) as [qc|] eqn:Eq; cycle 1.
  - rewrite db_set_new. split; [set_solver|]. intros (_ & Hx & Hv).
    destruct (Forall2_lookup_l _ _ _ _ _ Hf Hv) as (code & _ & [Hc0 Hs]).
    by pose proof (proj1 (Hfind query code Hc0 Hs) eq_refl).
  - rewrite scan_spec by (apply Forall2_length in Hf; unfold len in *; lia). split.
    + intros (Hx & code & Hcode & Hr).
      rewrite !andb_true_iff, !db_contains, !bool_decide_eq_true in Hr.
      destruct Hr as [[Hsc [_ [v Hv]]%Hp] ->%Z.eqb_eq].
      destruct (Forall2_lookup_l _ _ _ _ _ Hf Hv) as (code' & Hcode' & Hs).
      assert (code' = qc) as -> by congruence.
      destruct v; cbn in Hs; try done. destruct Hs as [Hc0 Hs].
      pose proof (proj2 (Hfind s qc Hc0 Hs) eq_refl) as ->. done.
    + intros (Hsc & Hx & Hv). split; [done|].
      destruct (Forall2_lookup_l _ _ _ _ _ Hf Hv) as (code & Hcode & [Hc0 Hs]).
      exists code. split; [done|].
      rewrite !andb_true_iff, !db_contains, !bool_decide_eq_true.
      pose proof (proj1 (Hfind query code Hc0 Hs) eq_refl) as E. 
      split_and!; [done|apply Hp; eauto|]. apply Z.eqb_eq. congruence.
Qed.
End Scans.

(** ** Leaves *)

Lemma ensure_type_spec {B} (id : ColumnId) (c : Column B) q :
  is_ok (ensure_type id c q) = query_compatible (column_type c) q.
Proof. unfold ensure_type, query_compatible. by destruct (column_type c), q. Qed.

Lemma ensure_types_spec {B} (id : ColumnId) (c : Column B) qs :
  is_ok (ensure_types id c qs) = forallb (query_compatible (column_type c)) qs.
Proof.
  induction qs as [|q qs IH]; cbn [ensure_types forallb]; [done|].
  rewrite <- (ensure_type_spec id), <- IH. by destruct (ensure_type id c q) as [[]|].
Qed.

(** What a typed bound says about a value. *)
Definition bound_of (bound : option RangeBound) : option (Z * bool) :=
  b ← bound;
  match rb_value b with
  | PU64 z | PI64 z | PF64 z => Some (z, rb_inclusive b)
  | _ => None
  end.

Lemma u64_bound_spec id bound :
  (∃ e, u64_bound id bound = Err e) ∧ from_option (bound_compatible U64) true bound = false
  ∨ u64_bound id bound = Ok (bound_of bound) ∧ from_option (bound_compatible U64) true bound = true
    ∧ ∀ z, lower_matches int_ord z (bound_of bound) = from_option (above (VU64 z)) true bound
           ∧ upper_matches int_ord z (bound_of bound) = from_option (below (VU64 z)) true bound.
Proof. destruct bound as [[[] i]|]; cbn; eauto 6. Qed.

Lemma i64_bound_spec id bound :
  (∃ e, i64_bound id bound = Err e) ∧ from_option (bound_compatible I64) true bound = false
  ∨ i64_bound id bound = Ok (bound_of bound) ∧ from_option (bound_compatible I64) true bound = true
    ∧ ∀ z, lower_matches int_ord z (bound_of bound) = from_option (above (VI64 z)) true bound
           ∧ upper_matches int_ord z (bound_of bound) = from_option (below (VI64 z)) true bound.
Proof. destruct bound as [[[] i]|]; cbn; eauto 6. Qed.

Lemma f64_bound_spec id bound :
  (∃ e, f64_bound id bound = Err e) ∧ from_option (bound_compatible F64) true bound = false
  ∨ f64_bound id bound = Ok (bound_of bound) ∧ from_option (bound_compatible F64) true bound = true
    ∧ ∀ z, lower_matches f64_ord z (bound_of bound) = from_option (above (VF64 z)) true bound
           ∧ upper_matches f64_ord z (bound_of bound) = from_option (below (VF64 z)) true bound.
Proof. destruct bound as [[[] i]|]; cbn; eauto 6. Qed.

(** No value compares with a NaN bound. *)
Lemma nan_bound_matches z bound :
  nan_bound bound = true →
  lower_matches f64_ord z bound = false ∧ upper_matches f64_ord z bound = false.
Proof.
  destruct bound as [[e i]|]; cbn; [|done]. intros Hn.
  destruct (f64_nan_compares e z Hn) as (_ & H1 & H2 & H3 & H4). by destruct i.
Qed.

Section Leaves.
Context {B : Type} `{RoaringLaws B}.
Variable (cells : list cell).
Hypothesis Hcells : len cells ≤ u32_max.

(** The rows of the scope whose value passes a test. *)
Definition selects (scope : DocBitmap B) (test : ColumnValue → bool) (b : DocBitmap B) : Prop :=
  ∀ x, x ∈ db_set b ↔
       x ∈ db_set scope ∧ 0 ≤ x ∧ ∃ v, cells !! Z.to_nat x = Some (Some v) ∧ test v = true.

Lemma eval_values_eq_selects ord t values p scope q query :
  Forall2 (stores_number t) cells values → present_holds cells p →
  (∀ v z, number_of t v = Some z → po_eq ord z query = value_eq v q) →
  selects scope (λ v, value_eq v q) (eval_values_eq ord values p scope query).
Proof using Hcells.
  intros Hf Hp Ht x. unfold eval_values_eq.
  by apply (number_scan cells Hcells t values p (λ z, po_eq ord z query)).
Qed.

Lemma eval_eq_selects c id q s scope :
  store_column s id = Some c → column_holds cells c →
  query_compatible (column_type c) q = true →
  ∃ b, eval_eq id q s scope = Ok b ∧ selects scope (λ v, value_eq v q) b.
Proof using Hcells.
  intros Hc Hh Hq. unfold eval_eq, get_column. rewrite Hc. cbn [ok_or mbind result_bind].
  pose proof (ensure_type_spec id c q) as He. rewrite Hq in He.
  destruct (ensure_type id c q) as [[]|]; [|done]. cbn [mbind result_bind].
  eexists. split; [reflexivity|]. pose proof Hh as [Hp Hv].
  destruct c as [n|n|n|n|n|d|r], q; cbn [column_type query_compatible] in Hq; try done;
    cbn [column_present] in Hp; try (eapply eval_values_eq_selects; [done|done|]).
  - by intros [] z'; cbn; intros [= ->].
  - by intros [] z'; cbn; intros [= ->].
  - by intros [] z'; cbn; intros [= ->].
  - by intros [] z'; cbn; intros [= ->].
  - intros [] z'; cbn; intros [= <-]. by destruct b, b0.
  - intros x. rewrite (dictionary_scan cells Hcells d s0 scope x Hh).
    split; intros (Hs & Hx & Hr); (split_and!; [done|done|]).
    + exists (VString s0). split; [done|]. by apply bool_decide_eq_true.
    + destruct Hr as (v & Hv' & Ht). destruct v; try done. by apply bool_decide_eq_true in Ht as ->.
  - intros x. unfold eval_raw_string_eq.
    pose proof (text_scan cells Hcells r (λ o, bool_decide (o = Some s0)) scope x Hh) as Hscan.
    etransitivity; [exact Hscan|]. clear Hscan.
    split; intros (Hs & Hx & Hr); (split_and!; [done|done|]); destruct Hr as (v & Hv' & Ht).
    + exists (VString v). split; [done|]. apply bool_decide_eq_true in Ht.
      apply bool_decide_eq_true. congruence.
    + destruct v; try done. exists s1. split; [done|].
      apply bool_decide_eq_true in Ht as ->. by apply bool_decide_eq_true.
Qed.

(** [eval_in] is the union over its values. *)
Lemma union_queries_selects c id qs s scope acc test :
  store_column s id = Some c → column_holds cells c →
  forallb (query_compatible (column_type c)) qs = true → selects scope test acc →
  ∃ b, union_queries id qs s scope acc = Ok b
       ∧ selects scope (λ v, test v || existsb (value_eq v) qs) b.
Proof using Hcells.
  intros Hc Hh. revert acc test. induction qs as [|q qs IH]; intros acc test Hq Ha;
    cbn [union_queries existsb].
  - exists acc. split; [done|]. intros x. rewrite (Ha x). setoid_rewrite orb_false_r. done.
  - cbn [forallb] in Hq. apply andb_true_iff in Hq as [Hq1 Hq].
    destruct (eval_eq_selects c id q s scope Hc Hh Hq1) as (m & Em & Hm). rewrite Em.
    cbn [mbind result_bind].
    destruct (IH (union_with acc m) (λ v, test v || value_eq v q)) as (b & Eb & Hb); [done| |].
    { intros x. rewrite db_set_union, elem_of_union, (Ha x), (Hm x).
      setoid_rewrite orb_true_iff. naive_solver. }
    exists b. split; [done|]. intros x. rewrite (Hb x). by setoid_rewrite orb_assoc.
Qed.

Lemma eval_in_selects c id qs s scope :
  store_column s id = Some c → column_holds cells c →
  forallb (query_compatible (column_type c)) qs = true →
  ∃ b, eval_in id qs s scope = Ok b ∧ selects scope (λ v, existsb (value_eq v) qs) b.
Proof using Hcells.
  intros Hc Hh Hq. unfold eval_in, get_column. rewrite Hc. cbn [ok_or mbind result_bind].
  pose proof (ensure_types_spec id c qs) as He. rewrite Hq in He.
  destruct (ensure_types id c qs) as [[]|]; [|done]. cbn [mbind result_bind].
  assert (selects scope (λ _, false) bitmap_new) as Hnew.
  { intros x. rewrite db_set_new. split; [set_solver|]. naive_solver. }
  destruct c as [n|n|n|n|n|d|r];
    try by apply (union_queries_selects _ id qs s scope bitmap_new (λ _, false) Hc Hh Hq).
  assert (∀ v, existsb (value_eq (VString v)) qs
               = bool_decide (v ∈ (list_to_set (omap query_text qs) : gset bytes))) as Hmem.
  { intros v. apply eq_bool_prop_intro. rewrite !Is_true_true, existsb_exists, bool_decide_eq_true.
    rewrite elem_of_list_to_set, list_elem_of_omap. split.
    - intros (q & Hin%list_elem_of_In & He'). destruct q; try done.
      apply bool_decide_eq_true in He' as ->. by exists (PString s0).
    - intros (q & Hin & Et). destruct q; try done. injection Et as ->.
      exists (PString v). split; [by apply list_elem_of_In|]. by apply bool_decide_eq_true. }
  destruct qs as [|q0 qs'] eqn:Eqs; [by exists bitmap_new|]. rewrite <- Eqs in *.
  eexists. split; [reflexivity|]. intros x.
  pose proof (text_scan cells Hcells r
    (λ o, match o with
          | Some value => bool_decide (value ∈ (list_to_set (omap query_text qs) : gset bytes))
          | None => false end) scope x Hh) as Hscan.
  etransitivity; [exact Hscan|]. clear Hscan.
  destruct Hh as [_ [_ Htext]].
  split; intros (Hs & Hx & v & Hv & Ht); (split_and!; [done|done|]).
  - exists (VString v). split; [done|]. by rewrite Hmem.
  - rewrite Forall_lookup in Htext. specialize (Htext _ _ Hv). destruct v as [| | | | |v]; try done.
    exists v. split; [done|]. by rewrite <- Hmem.
Qed.

Lemma ordered_range_selects t values p r scope :
  Forall2 (stores_number t) cells values → present_holds cells p →
  (∀ v z, number_of t v = Some z →
     lower_matches int_ord z (bound_of (rp_lower r))
     && upper_matches int_ord z (bound_of (rp_upper r)) = in_range v r) →
  selects scope (λ v, in_range v r)
    (eval_ordered_range values p scope (bound_of (rp_lower r)) (bound_of (rp_upper r))).
Proof using Hcells.
  intros Hf Hp Ht x. unfold eval_ordered_range.
  rewrite (collect_rows_ext _ (λ row z, contains row scope && contains row p
    && (lower_matches int_ord z (bound_of (rp_lower r))
        && upper_matches int_ord z (bound_of (rp_upper r))))) by (intros; apply andb_assoc_r).
  by apply (number_scan cells Hcells t values p (λ z, _ && _)).
Qed.

(** [is_ok (eval_range ..)] is the type check, and the rows are those in range. *)
Lemma eval_range_selects c r s scope :
  store_column s (rp_column r) = Some c → column_holds cells c →
  match eval_range r s scope with
  | Ok b => selects scope (λ v, in_range v r) b
  | Err _ =>
      numeric_type (column_type c) && from_option (bound_compatible (column_type c)) true (rp_lower r)
      && from_option (bound_compatible (column_type c)) true (rp_upper r) = false
  end.
Proof using Hcells.
  intros Hc [Hp Hv]. unfold eval_range, get_column. rewrite Hc. cbn [ok_or mbind result_bind].
  destruct c as [n|n|n|n|n|d|t]; try done; cbn [column_present] in Hp;
    cbn [column_type numeric_type andb].
  - destruct (u64_bound_spec (rp_column r) (rp_lower r)) as [[[e ->] ->]|(-> & -> & Hlo)]; [done|].
    destruct (u64_bound_spec (rp_column r) (rp_upper r)) as [[[e ->] ->]|(-> & -> & Hup)]; [done|].
    apply (ordered_range_selects U64); [done|done|].
    intros [] z'; cbn [number_of]; intros [= ->]. unfold in_range.
    by rewrite (proj1 (Hlo _)), (proj2 (Hup _)).
  - destruct (i64_bound_spec (rp_column r) (rp_lower r)) as [[[e ->] ->]|(-> & -> & Hlo)]; [done|].
    destruct (i64_bound_spec (rp_column r) (rp_upper r)) as [[[e ->] ->]|(-> & -> & Hup)]; [done|].
    apply (ordered_range_selects I64); [done|done|].
    intros [] z'; cbn [number_of]; intros [= ->]. unfold in_range.
    by rewrite (proj1 (Hlo _)), (proj2 (Hup _)).
  - destruct (f64_bound_spec (rp_column r) (rp_lower r)) as [[[e ->] ->]|(-> & -> & Hlo)]; [done|].
    destruct (f64_bound_spec (rp_column r) (rp_upper r)) as [[[e ->] ->]|(-> & -> & Hup)]; [done|].
    cbn [mbind result_bind]. intros x.
    assert (∀ v z, number_of F64 v = Some z →
      negb (f64_is_nan z) && (lower_matches f64_ord z (bound_of (rp_lower r))
        && upper_matches f64_ord z (bound_of (rp_upper r))) = in_range v r) as Htest.
    { intros [] z'; cbn [number_of]; intros [= ->]. unfold in_range. cbn [rangeable].
      by rewrite (proj1 (Hlo _)), (proj2 (Hup _)), andb_assoc. }
    unfold eval_f64_range. destruct (_ || _) eqn:En.
    + rewrite db_set_new. split; [set_solver|]. intros (_ & _ & v & Hv' & Hr). exfalso.
      pose proof (number_lookup _ _ _ (Z.to_nat x) Hv) as Hl. rewrite Hv' in Hl.
      destruct Hl as (z & _ & Hz). rewrite <- (Htest v z Hz) in Hr.
      rewrite !andb_true_iff in Hr. destruct Hr as (_ & Hl & Hu).
      apply orb_true_iff in En as [En|En]; destruct (nan_bound_matches z _ En); congruence.
    + rewrite (collect_rows_ext _ (λ row z, contains row scope && contains row (nc_present n)
        && (negb (f64_is_nan z) && (lower_matches f64_ord z (bound_of (rp_lower r))
            && upper_matches f64_ord z (bound_of (rp_upper r)))))).
      2: { intros row z. by destruct (f64_is_nan z), (contains row scope), (contains row (nc_present n)). }
      by apply (number_scan cells Hcells F64 (nc_values n) (nc_present n)
                  (λ z, negb (f64_is_nan z) && (_ && _))).
Qed.
End Leaves.

(** ** Evaluation *)

(** The cells of a row, by column. *)
Definition cells_of (schema : Schema) (r : Row) (id : ColumnId) : cell :=
  d ← schema_column schema id; row_value r.1 r.2 d.

Section Evaluation.
Context {B : Type} `{RoaringLaws B}.
Variables (schema : Schema) (rows : list Row) (s : ColumnStore B).
Hypothesis Hstore : store_holds schema rows s.

Definition in_universe (scope : DocBitmap B) : Prop :=
  ∀ x, x ∈ db_set scope → 0 ≤ x < len rows.

Definition matches_row (p : Predicate) (x : Z) : bool :=
  from_option (λ r, matches (cells_of schema r) p) false (rows !! Z.to_nat x).

(** What an evaluator of the predicate does in every scope. *)
Definition exact (p : Predicate) (f : Evaluator (B:=B)) : Prop :=
  ∀ scope, in_universe scope →
    match f scope with
    | Ok b => ∀ x, x ∈ db_set b ↔ x ∈ db_set scope ∧ matches_row p x = true
    | Err _ => well_typed schema p = false
    end.

Lemma row_lookup scope x :
  in_universe scope → x ∈ db_set scope → ∃ r, rows !! Z.to_nat x = Some r.
Proof using Type.
  intros Hu Hx. apply Hu in Hx. apply lookup_lt_is_Some. unfold len in Hx. lia.
Qed.

(** A selection on the cells of a column is a selection on rows. *)
Lemma selects_rows d id p test scope b :
  in_universe scope → schema_column schema id = Some d →
  (∀ r, matches (cells_of schema r) p = on_value test (cells_of schema r id)) →
  selects (row_cells rows d) scope test b →
  ∀ x, x ∈ db_set b ↔ x ∈ db_set scope ∧ matches_row p x = true.
Proof using Hstore.
  intros Hu Hd Hm Hs x. rewrite (Hs x). apply and_iff_distr. intros Hx.
  destruct (row_lookup scope x Hu Hx) as [r Hr]. apply Hu in Hx. unfold matches_row.
  rewrite Hr. cbn [from_option]. rewrite Hm. unfold cells_of. rewrite Hd. cbn [mbind option_bind].
  unfold row_cells. change (map ?f rows) with (f <$> rows).
  rewrite list_lookup_fmap, Hr. cbn [fmap option_fmap option_map].
  destruct (row_value r.1 r.2 d) as [v|]; cbn; naive_solver lia.
Qed.

Lemma cells_bound d : len (row_cells rows d) ≤ u32_max.
Proof using Hstore. unfold row_cells. rewrite len_map. apply Hstore. Qed.

Lemma exact_eq id q : exact (PEq id q) (evaluate_in_scope (PEq id q) s).
Proof using Hstore.
  intros scope Hu. cbn [evaluate_in_scope well_typed]. unfold typed_as.
  pose proof (store_column_spec _ _ s id Hstore) as Hc.
  destruct (store_column s id) as [c|] eqn:Ec; cycle 1.
  { unfold eval_eq, get_column. rewrite Ec, Hc. done. }
  destruct Hc as (d & Hd & Ht & Hh). rewrite Hd. cbn [from_option]. rewrite <- Ht.
  destruct (query_compatible (column_type c) q) eqn:Eq.
  - destruct (eval_eq_selects _ (cells_bound d) c id q s scope Ec Hh Eq) as (b & -> & Hb).
    by apply (selects_rows d id _ (λ v, value_eq v q)).
  - unfold eval_eq, get_column. rewrite Ec. cbn [ok_or mbind result_bind].
    pose proof (ensure_type_spec id c q) as He. rewrite Eq in He.
    by destruct (ensure_type id c q).
Qed.

Lemma exact_in id qs : exact (PIn id qs) (evaluate_in_scope (PIn id qs) s).
Proof using Hstore.
  intros scope Hu. cbn [evaluate_in_scope well_typed]. unfold typed_as.
  pose proof (store_column_spec _ _ s id Hstore) as Hc.
  destruct (store_column s id) as [c|] eqn:Ec; cycle 1.
  { unfold eval_in, get_column. rewrite Ec, Hc. done. }
  destruct Hc as (d & Hd & Ht & Hh). rewrite Hd. cbn [from_option]. rewrite <- Ht.
  destruct (forallb (query_compatible (column_type c)) qs) eqn:Eq.
  - destruct (eval_in_selects _ (cells_bound d) c id qs s scope Ec Hh Eq) as (b & -> & Hb).
    by apply (selects_rows d id _ (λ v, existsb (value_eq v) qs)).
  - unfold eval_in, get_column. rewrite Ec. cbn [ok_or mbind result_bind].
    pose proof (ensure_types_spec id c qs) as He. rewrite Eq in He.
    by destruct (ensure_types id c qs).
Qed.

Lemma exact_range r : exact (PRange r) (evaluate_in_scope (PRange r) s).
Proof using Hstore.
  intros scope Hu. cbn [evaluate_in_scope well_typed]. unfold typed_as.
  pose proof (store_column_spec _ _ s (rp_column r) Hstore) as Hc.
  destruct (store_column s (rp_column r)) as [c|] eqn:Ec; cycle 1.
  { unfold eval_range, get_column. rewrite Ec, Hc. done. }
  destruct Hc as (d & Hd & Ht & Hh). rewrite Hd. cbn [from_option]. rewrite <- Ht.
  pose proof (eval_range_selects _ (cells_bound d) c r s scope Ec Hh) as Hr.
  destruct (eval_range r s scope); [|done].
  by apply (selects_rows d (rp_column r) _ (λ v, in_range v r)).
Qed.

(** The presence bitmap of a column, on rows. *)
Lemma present_rows id :
  match get_column s id with
  | Ok c => typed_as schema id (λ _, true) = true
            ∧ ∀ scope x, in_universe scope → x ∈ db_set scope →
                ∃ r, rows !! Z.to_nat x = Some r
                     ∧ (x ∈ db_set (column_present c) ↔ is_none (cells_of schema r id) = false)
  | Err _ => typed_as schema id (λ _, true) = false
  end.
Proof using Hstore.
  unfold get_column, typed_as. pose proof (store_column_spec _ _ s id Hstore) as Hc.
  destruct (store_column s id) as [c|]; cbn [ok_or]; [|by rewrite Hc].
  destruct Hc as (d & Hd & _ & [Hp _]). rewrite Hd. split; [done|]. intros scope x Hu Hx.
  destruct (row_lookup scope x Hu Hx) as [r Hr]. exists r. split; [done|].
  rewrite (Hp x). apply Hu in Hx. unfold cells_of. rewrite Hd. cbn [mbind option_bind].
  unfold row_cells. change (map ?f rows) with (f <$> rows). rewrite list_lookup_fmap, Hr.
  cbn [fmap option_fmap option_map].
  destruct (row_value r.1 r.2 d) as [v|]; cbn; naive_solver lia.
Qed.

Lemma exact_exists id : exact (PExists id) (evaluate_in_scope (PExists id) s).
Proof using Hstore.
  intros scope Hu. cbn [evaluate_in_scope well_typed]. pose proof (present_rows id) as Hp.
  destruct (get_column s id) as [c|]; [|done]. cbn [mbind result_bind]. intros x.
  rewrite db_set_intersect, elem_of_intersection.
  rewrite (Logic.and_comm (x ∈ db_set (column_present c))). apply and_iff_distr. intros Hx.
  destruct Hp as [_ Hp]. destruct (Hp scope x Hu Hx) as (r & Hr & ->). unfold matches_row.
  rewrite Hr. cbn. by destruct (is_none _).
Qed.

Lemma exact_null id : exact (PIsNull id) (evaluate_in_scope (PIsNull id) s).
Proof using Hstore.
  intros scope Hu. cbn [evaluate_in_scope well_typed]. pose proof (present_rows id) as Hp.
  destruct (get_column s id) as [c|]; [|done]. cbn [mbind result_bind]. intros x.
  rewrite db_set_subtract, elem_of_difference. apply and_iff_distr. intros Hx.
  destruct Hp as [_ Hp]. destruct (Hp scope x Hu Hx) as (r & Hr & ->). unfold matches_row.
  rewrite Hr. cbn. by destruct (is_none _).
Qed.

(** A conjunction may be evaluated in any order. *)
Lemma and_loop_exact ps :
  Forall (λ p, exact p (evaluate_in_scope p s)) ps →
  exact (PAnd ps) (and_loop (map (λ p, evaluate_in_scope p s) ps)).
Proof using Hstore.
  induction 1 as [|p ps Hp _ IH]; intros scope Hu; cbn [and_loop map].
  { intros x. split; [|tauto]. intros Hx. split; [done|].
    destruct (row_lookup scope x Hu Hx) as [r Hr]. unfold matches_row. by rewrite Hr. }
  rewrite db_is_empty. case_bool_decide as He.
  { intros x. rewrite He. set_solver. }
  pose proof (Hp scope Hu) as Hps. destruct (evaluate_in_scope p s scope) as [b|e]; cycle 1.
  { cbn. by rewrite Hps. }
  cbn [mbind result_bind]. specialize (IH b).
  assert (in_universe b) as Hub by (intros x [Hx _]%Hps; by apply Hu). specialize (IH Hub).
  destruct (and_loop _ b) as [b'|e]; cycle 1.
  { cbn in IH |- *. by rewrite IH, andb_false_r. }
  intros x. rewrite (IH x), (Hps x). unfold matches_row.
  destruct (rows !! Z.to_nat x) as [r|]; cbn [from_option matches forallb]; [|naive_solver].
  rewrite andb_true_iff. tauto.
Qed.

Lemma or_loop_exact ps :
  Forall (λ p, exact p (evaluate_in_scope p s)) ps →
  ∀ scope acc test, in_universe scope →
  (∀ x, x ∈ db_set acc ↔ x ∈ db_set scope ∧ test x = true) →
  match or_loop (map (λ p, evaluate_in_scope p s) ps) scope acc with
  | Ok b => ∀ x, x ∈ db_set b ↔
              x ∈ db_set scope ∧ (test x = true ∨ matches_row (POr ps) x = true)
  | Err _ => well_typed schema (POr ps) = false
  end.
Proof using Hstore.
  induction 1 as [|p ps Hp _ IH]; intros scope acc test Hu Hacc; cbn [or_loop map].
  { intros x. rewrite (Hacc x). unfold matches_row. destruct (rows !! _); cbn; naive_solver. }
  rewrite db_is_empty. case_bool_decide as He.
  { intros x. rewrite (Hacc x). split; [tauto|]. intros [Hx _]. split; [done|].
    destruct (decide (x ∈ db_set acc)) as [Ha|Ha]; [by apply Hacc in Ha as [_ ?]|].
    assert (x ∈ db_set (subtract scope acc)) by (rewrite db_set_subtract; set_solver).
    set_solver. }
  assert (in_universe (subtract scope acc)) as Hur.
  { intros x. rewrite db_set_subtract, elem_of_difference. intros [Hx _]. by apply Hu. }
  pose proof (Hp _ Hur) as Hps. destruct (evaluate_in_scope p s _) as [b|e]; cycle 1.
  { cbn. by rewrite Hps. }
  cbn [mbind result_bind].
  specialize (IH scope (union_with acc b) (λ x, test x || matches_row p x) Hu).
  destruct (or_loop _ _ _) as [b'|e]; cycle 1.
  { cbn [well_typed forallb] in *. rewrite IH; [by rewrite andb_false_r|].
    intros x. rewrite db_set_union, elem_of_union, (Hps x), db_set_subtract, elem_of_difference,
      (Hacc x), orb_true_iff. destruct (test x); naive_solver. }
  intros x. rewrite IH; cycle 1.
  { intros y. rewrite db_set_union, elem_of_union, (Hps y), db_set_subtract, elem_of_difference,
      (Hacc y), orb_true_iff. destruct (test y); naive_solver. }
  unfold matches_row. destruct (rows !! Z.to_nat x) as [r|]; cbn [from_option matches existsb].
  - rewrite !orb_true_iff. tauto.
  - rewrite orb_false_r. tauto.
Qed.

(** Exactness in every scope, by induction on the predicate. *)
Lemma evaluate_in_scope_exact p : exact p (evaluate_in_scope p s).
Proof using Hstore.
  induction p as [c q|c qs|r|c|c|l IH|l IH|p IH] using Predicate_nested_ind.
  - apply exact_eq.
  - apply exact_in.
  - apply exact_range.
  - apply exact_exists.
  - apply exact_null.
  - intros scope Hu. cbn [evaluate_in_scope]. unfold eval_and.
    rewrite (sort_by_key_map (λ p, estimate_cardinality p s scope) (λ p, evaluate_in_scope p s)).
    pose proof (sort_by_key_perm (λ p, estimate_cardinality p s scope) l) as Hperm.
    set (l' := sort_by_key _ l) in *. rewrite <- Hperm in IH.
    pose proof (and_loop_exact l' IH scope Hu) as Ha.
    assert (∀ f, forallb f l' = forallb f l) as Hf.
    { intros f. apply eq_bool_prop_intro. rewrite !Is_true_true, !forallb_forall.
      setoid_rewrite <- list_elem_of_In. by setoid_rewrite Hperm. }
    destruct (and_loop _ scope) as [b|e]; cbn [well_typed] in *; [|by rewrite <- Hf].
    intros x. rewrite (Ha x). unfold matches_row. cbn [matches].
    destruct (rows !! Z.to_nat x); cbn; [by rewrite Hf|done].
  - intros scope Hu. cbn [evaluate_in_scope].
    pose proof (or_loop_exact l IH scope bitmap_new (λ _, false) Hu) as Ho.
    assert (∀ x, x ∈ db_set (bitmap_new (B:=B)) ↔ x ∈ db_set scope ∧ false = true) as Hn.
    { intros x. rewrite db_set_new. set_solver. }
    specialize (Ho Hn). destruct (or_loop _ _ _); [|done]. intros x. rewrite (Ho x). naive_solver.
  - intros scope Hu. specialize (IH scope Hu). cbn [evaluate_in_scope well_typed].
    destruct (evaluate_in_scope p s scope) as [b|e]; [|done]. cbn [mbind result_bind].
    intros x. rewrite db_set_subtract, elem_of_difference, (IH x). apply and_iff_distr. intros Hx.
    destruct (row_lookup scope x Hu Hx) as [r Hr]. unfold matches_row. rewrite Hr. cbn.
    destruct (matches _ p); naive_solver.
Qed.
End Evaluation.

(** ** Exactness *)

Section Exact.
Context {B : Type} `{RoaringLaws B}.

(** C5: Over every column store the builder can produce and every history of
    tombstones and retains, evaluating a predicate either reports an ill-typed
    predicate or returns exactly the live rows the row-by-row reference semantics
    selects: the cost-ordered conjunctions, narrowing scopes and early exits never
    show, and a well-typed predicate never fails. *)
Theorem evaluate_exact (schema : Schema) (attempts : list Row) (ops : list (AliveOp (B:=B)))
    (p : Predicate) :
  schema_ok schema →
  Forall (λ r, Forall (λ i, value_utf8 (ci_value i)) r.2) attempts →
  let '(b, accepted) := push_rows attempts (builder_new schema) in
  ∃ s, finish b = Ok s
       ∧ let alive := alive_after (len accepted) ops in
         match evaluate p s alive with
         | Ok selected =>
             ∀ x, contains x selected = true ↔
                  is_alive x alive = true
                  ∧ ∃ r, accepted !! Z.to_nat x = Some r ∧ matches (cells_of schema r) p = true
         | Err _ => well_typed schema p = false
         end.
Proof.
  intros Hs Hu.
  pose proof (push_rows_spec schema attempts [] _ Hs (builder_new_holds schema) Hu) as Hb.
  destruct (push_rows attempts _) as [b accepted]. cbn [app] in Hb.
  destruct (finish_ok _ _ _ Hb) as (s & E & Hh). exists s. split; [done|]. cbn zeta.
  destruct (alive_ops_ok ops _ (alive_new_ok (len accepted) (len_nonneg accepted)))
    as (Hok & Hc & _).
  fold (alive_after (len accepted) ops) in Hok, Hc. set (alive := alive_after _ ops) in *.
  change (as_row_count (alive_new (len accepted))) with (len accepted) in Hc.
  unfold evaluate. rewrite (th_count _ _ _ Hh), Hc, Z.eqb_refl. cbn [negb].
  assert (in_universe accepted (as_alive alive)) as Huniv.
  { intros x Hx. rewrite <- Hc. by apply alive_row. }
  pose proof (evaluate_in_scope_exact schema accepted s Hh p _ Huniv) as He.
  destruct (evaluate_in_scope p s (as_alive alive)) as [sel|e]; [|done].
  intros x. unfold is_alive. rewrite !db_contains, !bool_decide_eq_true, (He x).
  apply and_iff_distr. intros Hx. unfold matches_row.
  destruct (accepted !! Z.to_nat x); cbn; naive_solver.
Qed.
End Exact.

(** ** Witness *)

Definition sample_query : Predicate :=
  PAnd [POr [PEq 1 (PString [Byte.x78]); PIsNull 1];
        PRange {| rp_column := 2; rp_lower := Some {| rb_value := PU64 7; rb_inclusive := true |};
                  rp_upper := None |};
        PNot (PIn 2 [PU64 9; PU64 10])].

Lemma evaluate_exact_witness :
  let r := push_rows SampleColumns.attempts (builder_new (B:=gset Z) SampleColumns.schema) in
  ∃ s, finish r.1 = Ok s
       ∧ match evaluate sample_query s (alive_after (len r.2) [OpTombstone 1]) with
         | Ok selected => contains 0 selected
         | Err _ => false
         end = true.
Proof.
  intros r.
  pose proof (evaluate_exact (B:=gset Z) SampleColumns.schema SampleColumns.attempts
    [OpTombstone 1] sample_query SampleColumns.schema_is_ok SampleColumns.attempts_utf8) as He.
  pose proof SampleColumns.attempts_accepted as Ha. fold r in He, Ha.
  destruct r as [b accepted]. cbn [fst snd] in *. subst accepted.
  destruct He as (s & E & He). exists s. split; [exact E|]. cbn zeta in He.
  destruct (evaluate _ _ _) as [selected|e]; [|by vm_compute in He].
  apply He. split; [by vm_compute|]. eexists. split; [reflexivity|by vm_compute].
Defined.
