(* ===== verification/TopK.v ===== *)
(** * Bounded exact top-k selection ([scan/topk.rs])

    A scan offers one candidate per eligible row; the collectors keep the best
    [limit] of them and every candidate tied with the last one kept.  A score
    is the bit pattern of an [f32], compared with [total_cmp].

    The standard library's [BinaryHeap] is a list in descending order, whose
    head is what [peek] and [pop] see; the collectors only ever sort what they
    take out of it.  Memory accounting ([AccountedCounter]) is not modelled: the
    reservation of a slot in the tie buffer is a parameter that may fail. *)

From stdpp Require Import sorting.
From S2P Require Import Prelude Float.

(** ** The best of several lists

    Keeping the best [k] of a list and dropping the rest before it is merged with
    others never changes the best [k] of the whole, when an element is dropped
    only with [k] kept ones before it. *)


(** ** Lexicographic keys *)

Fixpoint lex_cmp (a b : list Z) : comparison :=
  match a, b with
  | [], [] => Eq
  | [], _ => Lt
  | _, [] => Gt
  | x :: a, y :: b => match x ?= y with Eq => lex_cmp a b | c => c end
  end.

Lemma lex_cmp_refl a : lex_cmp a a = Eq.
Proof. induction a as [|x a IH]; cbn; [done|]. by rewrite Z.compare_refl. Qed.

Lemma lex_cmp_antisym a : ∀ b, lex_cmp b a = CompOpp (lex_cmp a b).
Proof.
  induction a as [|x a IH]; intros [|y b]; cbn; [done..|]. rewrite (Z.compare_antisym x y).
  destruct (x ?= y); cbn; [apply IH|done..].
Qed.

Lemma lex_cmp_trans a : ∀ b c, lex_cmp a b ≠ Gt → lex_cmp b c ≠ Gt → lex_cmp a c ≠ Gt.
Proof.
  induction a as [|x a IH]; intros [|y b] [|z c] H1 H2; cbn in *; try done.
  destruct (Z.compare_spec x y), (Z.compare_spec y z), (Z.compare_spec x z); try done; try lia. by eapply IH.
Qed.

(** ** Filters *)

Section Filters.
Context {A : Type} (P Q : A → Prop) {HP : ∀ x, Decision (P x)} {HQ : ∀ x, Decision (Q x)}.
Implicit Types (l : list A).

Lemma keep_all l : (∀ x, x ∈ l → P x) → filter P l = l.
Proof.
  induction l as [|x l IH]; intros H; [done|]. rewrite filter_cons, decide_True by (apply H; left).
  rewrite IH; [done|]. intros y Hy. apply H. by right.
Qed.

Lemma keep_none l : (∀ x, x ∈ l → ¬ P x) → filter P l = [].
Proof.
  induction l as [|x l IH]; intros H; [done|]. rewrite filter_cons, decide_False by (apply H; left).
  apply IH. intros y Hy. apply H. by right.
Qed.

Lemma keep_same l : (∀ x, x ∈ l → P x ↔ Q x) → filter P l = filter Q l.
Proof.
  induction l as [|x l IH]; intros H; [done|]. rewrite !filter_cons, IH by (intros; apply H; by right).
  pose proof (H x ltac:(left)). destruct (decide (P x)), (decide (Q x)); (done || tauto).
Qed.

Lemma keep_fewer l : (∀ x, x ∈ l → P x → Q x) → (length (filter P l) ≤ length (filter Q l))%nat.
Proof.
  induction l as [|x l IH]; intros H; [done|]. rewrite !filter_cons.
  pose proof (H x ltac:(left)). specialize (IH (λ y Hy, H y (list_elem_of_further _ _ _ Hy))).
  destruct (decide (P x)), (decide (Q x)); cbn [length]; (lia || tauto).
Qed.

Lemma keep_sorted (R : relation A) l : StronglySorted R l → StronglySorted R (filter P l).
Proof.
  induction 1 as [|x l _ IH Hx]; [constructor|]. rewrite filter_cons. destruct (decide (P x)); [|done].
  constructor; [done|]. rewrite Forall_forall in *. intros y [_ Hy]%list_elem_of_filter. by apply Hx.
Qed.
End Filters.

(** ** Ranks *)

Section Ranks.
Context {A : Type} (before : relation A) `{!RelDecision before, !Total before, !Transitive before}.
Implicit Types (l : list A).

(** Elements that precede [c] and do not tie with it. *)
Definition rank (c : A) l : nat := length (filter (λ d, ¬ before c d) l).

(** No two elements of the list tie. *)
Definition distinct l : Prop := NoDup l ∧ ∀ a b, a ∈ l → b ∈ l → before a b → before b a → a = b.

Lemma rank_perm c l1 l2 : l1 ≡ₚ l2 → rank c l1 = rank c l2.
Proof. intros H. unfold rank. by rewrite H. Qed.

Lemma distinct_perm l1 l2 : l1 ≡ₚ l2 → distinct l1 → distinct l2.
Proof using. intros Hp [H1 H2]. split; [by rewrite <- Hp|]. intros a b. rewrite <- !Hp. apply H2. Qed.

Lemma distinct_app_l l1 l2 : distinct (l1 ++ l2) → distinct l1.
Proof using. intros [H1 H2]. apply NoDup_app in H1 as (H1 & _ & _). split; [done|]. intros a b Ha Hb. apply H2; apply elem_of_app; by left. Qed.

Lemma before_refl a : before a a.
Proof using Type*. by destruct (total before a a). Qed.

Lemma sorted_sort l : StronglySorted before (merge_sort before l).
Proof using Type*. apply StronglySorted_merge_sort; apply _. Qed.

Lemma sort_of_perm l1 l2 : distinct l1 → l1 ≡ₚ l2 → merge_sort before l1 = merge_sort before l2.
Proof using Type*.
  intros Hd Hp. apply (StronglySorted_unique_strong before); [|apply sorted_sort..|by rewrite !merge_sort_Permutation].
  intros a b. rewrite !merge_sort_Permutation, <- Hp. intros Ha Hb. by apply Hd.
Qed.

Lemma filter_take_sorted (P : A → Prop) {HP : ∀ x, Decision (P x)} n l :
  (∀ y, y ∈ take n l → P y) → (∀ y, y ∈ drop n l → ¬ P y) → filter P l = take n l.
Proof.
  intros H1 H2. rewrite <- (take_drop n l) at 1. rewrite filter_app.
  rewrite (keep_all P (take n l)), (keep_none P (drop n l)) by done. apply app_nil_r.
Qed.

(** Of a sorted list, the first [k] are those of rank below [k]. *)
Lemma top_is_rank k l :
  distinct l → take k (merge_sort before l) = filter (λ c, (rank c l < k)%nat) (merge_sort before l).
Proof using Type*.
  intros Hd. symmetry. pose proof (sorted_sort l) as Hs.
  assert (∀ c, rank c l = rank c (merge_sort before l)) as Er by (intros c; apply rank_perm; by rewrite merge_sort_Permutation).
  assert (distinct (merge_sort before l)) as Hd' by (eapply distinct_perm; [|exact Hd]; by rewrite merge_sort_Permutation).
  set (s := merge_sort before l) in *. clearbody s. rewrite <- (take_drop k s) in Hs.
  apply StronglySorted_app in Hs as (Hcross & Ht & _).
  apply filter_take_sorted; intros c Hc; rewrite Er; unfold rank; rewrite <- (take_drop k s), filter_app, length_app.
  - rewrite (keep_none _ (drop k s)).
    2:{ intros d Hdr Hn. apply Hn. by apply Hcross. }
    assert (length (filter (λ d, ¬ before c d) (take k s)) < length (take k s))%nat as Hlt.
    { eapply length_filter_lt; [exact Hc|]. intros Hn. apply Hn, before_refl. }
    rewrite length_take in Hlt. cbn [length]. lia.
  - rewrite keep_all, length_take.
    + assert (drop k s ≠ []) as Hne by (intros E; rewrite E in Hc; by apply elem_of_nil in Hc).
      assert (k < length s)%nat; [|lia]. apply Nat.nle_gt. intros Hle. by apply Hne, drop_ge.
    + intros d Hdt Hb. pose proof (Hcross d c Hdt Hc) as Hb'.
      destruct Hd' as [Hnd Hanti]. assert (c = d) as ->.
      { apply Hanti; [| |done..]; rewrite <- (take_drop k s), elem_of_app; auto. }
      rewrite <- (take_drop k s) in Hnd. apply NoDup_app in Hnd as (_ & Hdis & _). by eapply Hdis.
Qed.

(** Dropping elements that have [k] kept ones before them. *)
Lemma top_drop k kept dropped rest :
  distinct ((kept ++ dropped) ++ rest) →
  (∀ d, d ∈ dropped → (k ≤ rank d kept)%nat) →
  take k (merge_sort before ((kept ++ dropped) ++ rest)) = take k (merge_sort before (kept ++ rest)).
Proof using Type*.
  intros Hd Hdom.
  assert ((kept ++ dropped) ++ rest ≡ₚ (kept ++ rest) ++ dropped) as Hp by solve_Permutation.
  pose proof (distinct_perm _ _ Hp Hd) as Hd'. pose proof (distinct_app_l _ _ Hd') as Hk.
  rewrite (sort_of_perm _ _ Hd Hp). rewrite !top_is_rank by done.
  set (all := (kept ++ rest) ++ dropped) in *.
  assert (∀ c, rank c all = (rank c (kept ++ rest) + rank c dropped)%nat) as Eall.
  { intros c. unfold rank, all. by rewrite filter_app, length_app. }
  assert (∀ c, rank c (kept ++ rest) = (rank c kept + rank c rest)%nat) as Ekr.
  { intros c. unfold rank. by rewrite filter_app, length_app. }
  assert (∀ c, (rank c (kept ++ rest) < k)%nat → rank c dropped = 0%nat) as Hzero.
  { intros c Hc. unfold rank. rewrite keep_none; [done|]. intros d Hdr Hn.
    specialize (Hdom d Hdr). assert (rank d kept ≤ rank c kept)%nat; [|rewrite Ekr in Hc; lia].
    unfold rank. apply keep_fewer. intros e _ He Hb. apply He. destruct (total before c d) as [H|H]; [done|]. by etrans. }
  assert (∀ c, c ∈ all → (rank c all < k)%nat ↔ (rank c (kept ++ rest) < k)%nat ∧ c ∈ kept ++ rest) as Hiff.
  { intros c Hc. rewrite Eall. split; [|intros [H _]; rewrite (Hzero c H); lia].
    intros H. split; [lia|]. unfold all in Hc. apply elem_of_app in Hc as [Hc|Hc]; [done|].
    specialize (Hdom c Hc). rewrite Ekr in H. lia. }
  apply (StronglySorted_unique_strong before).
  - intros a b Ha Hb. apply list_elem_of_filter in Ha as [_ Ha], Hb as [_ Hb].
    rewrite merge_sort_Permutation in Ha, Hb. apply Hd'; [done|]. unfold all. set_solver.
  - apply keep_sorted, sorted_sort.
  - apply keep_sorted, sorted_sort.
  - rewrite !merge_sort_Permutation.
    assert (∀ (P : A → Prop) {HP : ∀ x, Decision (P x)}, filter P all = filter P (kept ++ rest) ++ filter P dropped)
      as Esplit by (intros P HP; apply filter_app).
    rewrite Esplit, (keep_none _ dropped).
    2:{ intros d Hdr. rewrite Eall, Ekr. specialize (Hdom d Hdr). lia. }
    rewrite app_nil_r. erewrite keep_same; [reflexivity|].
    intros c Hc. rewrite Hiff by (unfold all; set_solver). tauto.
Qed.
End Ranks.

Record ScanCandidate : Type := {
  sc_row_id : Z;
  sc_score : Z;
}.

#[export] Instance ScanCandidate_eq_dec : EqDecision ScanCandidate.
Proof. solve_decision. Defined.

(** [HeapCandidate::cmp], which is also the order of [sort_candidates]: higher
    scores first, then lower row ids. *)
Definition candidate_cmp (self other : ScanCandidate) : comparison :=
  match f32_total_cmp (sc_score other) (sc_score self) with
  | Eq => sc_row_id self ?= sc_row_id other
  | c => c
  end.

Definition before (a b : ScanCandidate) : Prop := candidate_cmp a b ≠ Gt.

#[export] Instance before_dec a b : Decision (before a b).
Proof. unfold before. solve_decision. Defined.

Definition sort_candidates (candidates : list ScanCandidate) : list ScanCandidate :=
  merge_sort before candidates.

(** ** The heap *)

Fixpoint heap_push (x : ScanCandidate) (heap : list ScanCandidate) : list ScanCandidate :=
  match heap with
  | [] => [x]
  | y :: rest =>
      match candidate_cmp x y with
      | Lt => y :: heap_push x rest
      | _ => x :: heap
      end
  end.

(** ** [BoundedTopK] *)

Record BoundedTopK : Type := {
  tk_limit : Z;
  tk_heap : list ScanCandidate;
  tk_boundary : list ScanCandidate;
}.

Definition topk_new (limit : Z) : BoundedTopK :=
  {| tk_limit := limit; tk_heap := []; tk_boundary := [] |}.

(** [total_cmp(..).is_eq()]. *)
Definition same_score (a b : Z) : bool :=
  match f32_total_cmp a b with Eq => true | _ => false end.

Section Push.
Context {E : Type} (reserve : list ScanCandidate → result E unit).

Definition with_heap (heap : list ScanCandidate) (t : BoundedTopK) : BoundedTopK :=
  {| tk_limit := tk_limit t; tk_heap := heap; tk_boundary := tk_boundary t |}.
Definition with_boundary (boundary : list ScanCandidate) (t : BoundedTopK) : BoundedTopK :=
  {| tk_limit := tk_limit t; tk_heap := tk_heap t; tk_boundary := boundary |}.

Definition push_with_reserve (candidate : ScanCandidate) (t : BoundedTopK)
    : BoundedTopK * result E unit :=
  if tk_limit t =? 0 then (t, Ok tt)
  else if len (tk_heap t) <? tk_limit t
  then (with_heap (heap_push candidate (tk_heap t)) t, Ok tt)
  else
    match tk_heap t with
    | [] => (with_heap (heap_push candidate []) t, Ok tt)
    | worst :: rest =>
        match f32_total_cmp (sc_score candidate) (sc_score worst) with
        | Lt => (t, Ok tt)
        | Eq =>
            match reserve (tk_boundary t) with
            | Err e => (t, Err e)
            | Ok _ => (with_boundary (tk_boundary t ++ [candidate]) t, Ok tt)
            end
        | Gt =>
            let heap := heap_push candidate rest in
            let t1 := with_heap heap t in
            match heap with
            | [] => (with_boundary [] t1, Ok tt)
            | new_worst :: _ =>
                let kept boundary :=
                  List.filter (λ tied, same_score (sc_score tied) (sc_score new_worst))
                    boundary in
                if same_score (sc_score worst) (sc_score new_worst) then
                  match reserve (tk_boundary t) with
                  | Err e => (t1, Err e)
                  | Ok _ => (with_boundary (kept (tk_boundary t ++ [worst])) t1, Ok tt)
                  end
                else (with_boundary (kept (tk_boundary t)) t1, Ok tt)
            end
        end
    end.
End Push.

(** [push]: a reservation that cannot fail. *)
Definition topk_push (t : BoundedTopK) (candidate : ScanCandidate) : BoundedTopK :=
  (push_with_reserve (E:=Empty_set) (λ _, Ok tt) candidate t).1.

Definition into_sorted_with_ties (t : BoundedTopK) : list ScanCandidate :=
  sort_candidates (tk_heap t ++ tk_boundary t).

Definition into_sorted (t : BoundedTopK) : list ScanCandidate :=
  take (Z.to_nat (tk_limit t)) (into_sorted_with_ties t).

(** ** [ExactTopK] *)

Inductive ExactTopK : Type :=
| ExactHeap (heap : BoundedTopK)
| ExactUnordered (limit capacity : Z) (candidates : list ScanCandidate).

(** The strategy is chosen by the exact number of eligible rows. *)
Definition exact_new (limit eligible : Z) : ExactTopK :=
  let limit := Z.min limit eligible in
  if eligible <=? saturating_mul usize_max limit 2
  then ExactUnordered limit eligible []
  else ExactHeap (topk_new limit).

(** [None] is the allocation error of a full unordered buffer. *)
Definition exact_push (t : ExactTopK) (candidate : ScanCandidate) : option ExactTopK :=
  match t with
  | ExactHeap heap => Some (ExactHeap (topk_push heap candidate))
  | ExactUnordered limit capacity candidates =>
      if len candidates =? capacity then None
      else Some (ExactUnordered limit capacity (candidates ++ [candidate]))
  end.

(** The element [select_nth_unstable_by] leaves at [index] has the score of
    the one a full sort would put there. *)
Definition select_nth_score (index : Z) (candidates : list ScanCandidate) : option Z :=
  sc_score <$> sort_candidates candidates !! Z.to_nat index.

Definition exact_into_sorted_with_ties (t : ExactTopK) : list ScanCandidate :=
  match t with
  | ExactHeap heap => into_sorted_with_ties heap
  | ExactUnordered limit _ candidates =>
      sort_candidates
        (if limit =? 0 then []
         else if limit <? len candidates then
           match select_nth_score (limit - 1) candidates with
           | None => candidates
           | Some score =>
               List.filter (λ c, match f32_total_cmp (sc_score c) score with
                                 | Lt => false
                                 | _ => true
                                 end) candidates
           end
         else candidates)
  end.

(** ** [truncate_to_k_with_score_ties] ([scan/mod.rs]) *)

(** The candidates after the [k]-th that still have its score. *)
Fixpoint tied_prefix (boundary_score : Z) (l : list ScanCandidate) : nat :=
  match l with
  | [] => 0
  | c :: rest => if same_score (sc_score c) boundary_score
                 then S (tied_prefix boundary_score rest) else 0
  end.

Definition truncate_to_k_with_score_ties (candidates : list ScanCandidate) (k : Z)
    : list ScanCandidate :=
  if k =? 0 then []
  else if len candidates <=? k then candidates
  else
    match candidates !! Z.to_nat (saturating_sub k 1) with
    | None => take (Z.to_nat k) candidates
    | Some boundary =>
        take (Z.to_nat k + tied_prefix (sc_score boundary) (drop (Z.to_nat k) candidates))
          candidates
    end.

(** ** Reference: the candidates beaten by fewer than [k] others *)

Definition key (c : ScanCandidate) : Z := f32_total_key (sc_score c).

Definition better_count (c : ScanCandidate) (l : list ScanCandidate) : Z :=
  len (List.filter (λ d, key c <? key d) l).

Definition top_with_ties (k : Z) (l : list ScanCandidate) : list ScanCandidate :=
  sort_candidates (List.filter (λ c, better_count c l <? k) l).

(** ** The order *)

Definition scores_ok (l : list ScanCandidate) : Prop := Forall (λ c, is_u32 (sc_score c)) l.

Lemma before_spec a b :
  before a b ↔ key b < key a ∨ key a = key b ∧ sc_row_id a ≤ sc_row_id b.
Proof.
  unfold before, candidate_cmp, f32_total_cmp, key.
  destruct (Z.compare_spec (f32_total_key (sc_score b)) (f32_total_key (sc_score a))) as [E|E|E];
    cbn.
  - fold (sc_row_id a ≤ sc_row_id b). lia.
  - split; [by left|done].
  - split; [done|lia].
Qed.

#[export] Instance before_total : Total before.
Proof. intros a b. rewrite !before_spec. lia. Qed.

#[export] Instance before_trans : Transitive before.
Proof. intros a b c. rewrite !before_spec. lia. Qed.

Lemma before_antisym a b :
  is_u32 (sc_score a) → is_u32 (sc_score b) → before a b → before b a → a = b.
Proof.
  intros Ha Hb. rewrite !before_spec. intros H1 H2.
  assert (key a = key b) as Hk by lia. assert (sc_row_id a = sc_row_id b) as Hr by lia.
  apply f32_total_key_inj in Hk; [|done..]. destruct a, b; cbn in *. congruence.
Qed.

Lemma sort_perm l : sort_candidates l ≡ₚ l.
Proof. apply merge_sort_Permutation. Qed.

Lemma sort_sorted l : StronglySorted before (sort_candidates l).
Proof. apply (StronglySorted_merge_sort before). Qed.

(** A sorted list of candidates is determined by its elements. *)
Lemma sorted_unique l1 l2 :
  scores_ok l1 → StronglySorted before l1 → StronglySorted before l2 → l1 ≡ₚ l2 → l1 = l2.
Proof.
  intros Hok H1 H2 Hp. apply (StronglySorted_unique_strong before); [|done..].
  unfold scores_ok in Hok. rewrite Forall_forall in Hok.
  intros x y Hx Hy. apply before_antisym; apply Hok; [done|by rewrite Hp].
Qed.

Lemma sort_unique l1 l2 : scores_ok l1 → l1 ≡ₚ l2 → sort_candidates l1 = sort_candidates l2.
Proof.
  intros Hok Hp. apply sorted_unique; [|apply sort_sorted..|].
  - unfold scores_ok. by rewrite sort_perm.
  - by rewrite !sort_perm.
Qed.

(** Sorting splits at a score: everything above comes first. *)
Lemma sort_app l1 l2 :
  scores_ok (l1 ++ l2) → (∀ a b, a ∈ l1 → b ∈ l2 → key b < key a) →
  sort_candidates (l1 ++ l2) = sort_candidates l1 ++ sort_candidates l2.
Proof.
  intros Hok Hlt. apply sorted_unique; [unfold scores_ok; by rewrite sort_perm|apply sort_sorted| |].
  - apply StronglySorted_app. split_and!; [|apply sort_sorted..].
    intros a b Ha Hb. rewrite sort_perm in Ha, Hb. apply before_spec. left. by apply Hlt.
  - by rewrite !sort_perm.
Qed.

Lemma same_score_spec a b : same_score a b = true ↔ f32_total_key a = f32_total_key b.
Proof.
  unfold same_score, f32_total_cmp.
  destruct (Z.compare_spec (f32_total_key a) (f32_total_key b)); split; (done || lia).
Qed.

(** ** The heap *)

Lemma heap_push_perm x heap : heap_push x heap ≡ₚ x :: heap.
Proof.
  induction heap as [|y rest IH]; cbn; [done|]. destruct (candidate_cmp x y); [done| |done].
  rewrite IH. apply Permutation_swap.
Qed.

Lemma heap_push_sorted x heap :
  StronglySorted (flip before) heap → StronglySorted (flip before) (heap_push x heap).
Proof.
  induction 1 as [|y rest Hs IH Hy]; cbn; [by repeat constructor|].
  assert (candidate_cmp x y ≠ Lt → before y x) as Hyx.
  { intros Hn. rewrite before_spec. unfold candidate_cmp, f32_total_cmp, key in *.
    destruct (Z.compare_spec (f32_total_key (sc_score y)) (f32_total_key (sc_score x)));
      [|done|lia]. destruct (Z.compare_spec (sc_row_id x) (sc_row_id y)); (done || lia). }
  destruct (candidate_cmp x y) eqn:E.
  - constructor; [by constructor|]. specialize (Hyx ltac:(done)). constructor; [done|].
    apply (Forall_impl _ _ _ Hy). intros z Hz. unfold flip in *. by transitivity y.
  - constructor; [done|]. rewrite heap_push_perm. constructor; [|done].
    unfold flip, before. congruence.
  - constructor; [by constructor|]. specialize (Hyx ltac:(done)). constructor; [done|].
    apply (Forall_impl _ _ _ Hy). intros z Hz. unfold flip in *. by transitivity y.
Qed.

(** The head of the heap has the lowest score. *)
Lemma heap_worst w rest x :
  StronglySorted (flip before) (w :: rest) → x ∈ w :: rest → key w ≤ key x.
Proof.
  intros Hs Hx. apply elem_of_cons in Hx as [->|Hx]; [lia|].
  apply StronglySorted_inv in Hs as [_ Hs]. rewrite Forall_forall in Hs.
  specialize (Hs x Hx). unfold flip in Hs. apply before_spec in Hs. lia.
Qed.

Lemma filter_all {A} (f : A → bool) l : (∀ x, x ∈ l → f x = true) → List.filter f l = l.
Proof.
  induction l as [|x l IH]; intros Hf; cbn; [done|].
  rewrite (Hf x) by (by left). rewrite IH; [done|]. intros y Hy. apply Hf. by right.
Qed.

Lemma filter_none {A} (f : A → bool) l : (∀ x, x ∈ l → f x = false) → List.filter f l = [].
Proof.
  induction l as [|x l IH]; intros Hf; cbn; [done|].
  rewrite (Hf x) by (by left). rewrite IH; [done|]. intros y Hy. apply Hf. by right.
Qed.

(** ** What a collector has kept

    [ds] are the candidates it has dropped: each is beaten by every candidate
    in the full heap. *)
Record topk_inv (limit : Z) (cs : list ScanCandidate) (t : BoundedTopK) : Prop := {
  ti_limit : tk_limit t = limit;
  ti_sorted : StronglySorted (flip before) (tk_heap t);
  ti_len : len (tk_heap t) ≤ limit;
  ti_split : ∃ ds, cs ≡ₚ tk_heap t ++ tk_boundary t ++ ds
    ∧ (len (tk_heap t) < limit → tk_boundary t = [] ∧ ds = [])
    ∧ ∀ w rest, tk_heap t = w :: rest →
        Forall (λ b, key b = key w) (tk_boundary t) ∧ Forall (λ d, key d < key w) ds;
}.

Lemma topk_new_inv limit : 0 < limit → topk_inv limit [] (topk_new limit).
Proof.
  intros Hl. split; cbn; [done|constructor|rewrite len_nil; lia|]. exists []. split_and!; done.
Qed.

(** Replacing the worst candidate of a full heap. *)
Lemma evict_inv limit cs t c w rest :
  topk_inv limit cs t → tk_heap t = w :: rest → len (tk_heap t) = limit → key w < key c →
  topk_inv limit (cs ++ [c]) (topk_push t c).
Proof.
  intros [Hlim Hs Hlen (ds & Hp & _ & Hw)] Eh Hfull Hlt.
  destruct (Hw w rest Eh) as [Hb Hd].
  assert (f32_total_cmp (sc_score c) (sc_score w) = Gt) as Ec by (by apply Z.compare_gt_iff).
  unfold topk_push, push_with_reserve. rewrite Hlim.
  destruct (Z.eqb_spec limit 0) as [E0|E0].
  { rewrite Eh, len_cons in Hfull. pose proof (len_nonneg rest). lia. }
  destruct (Z.ltb_spec (len (tk_heap t)) limit); [lia|]. rewrite Eh, Ec.
  rewrite Eh in Hs. pose proof (heap_push_sorted c rest (proj1 (StronglySorted_inv Hs))) as Hs'.
  assert (Hmem : ∀ x, x ∈ heap_push c rest → key w ≤ key x).
  { intros x Hx. rewrite heap_push_perm in Hx. apply elem_of_cons in Hx as [->|Hx]; [lia|].
    apply (heap_worst w rest x Hs). by right. }
  assert (Hlen' : len (heap_push c rest) = limit).
  { rewrite Eh in Hfull. unfold len in *. rewrite heap_push_perm. cbn [length] in *. lia. }
  assert (Hall : cs ++ [c] ≡ₚ heap_push c rest ++ [w] ++ tk_boundary t ++ ds).
  { rewrite Hp, Eh, heap_push_perm. cbn [app]. rewrite <- Permutation_cons_append.
    rewrite <- Permutation_middle. apply Permutation_swap. }
  destruct (heap_push c rest) as [|nw r'] eqn:En; [rewrite len_nil in Hlen'; lia|].
  pose proof (Hmem nw (list_elem_of_here _ _)) as Hnw. destruct (same_score _ _) eqn:Es.
  - apply same_score_spec in Es. fold (key w) in Es. fold (key nw) in Es. cbn [fst].
    rewrite filter_all; cycle 1.
    { intros x. rewrite elem_of_app, list_elem_of_singleton, same_score_spec. fold (key x). fold (key nw).
      rewrite Forall_forall in Hb. intros [Hx%Hb| ->]; congruence. }
    split; cbn [tk_limit tk_heap tk_boundary with_boundary with_heap]; [done|done|lia|]. exists ds.
    split_and!; [|lia|].
    + rewrite Hall. apply Permutation_app_head. by rewrite <- app_assoc, Permutation_app_swap_app.
    + intros w' rest' [= <- <-]. split; [apply Forall_app; split|].
      * apply (Forall_impl _ _ _ Hb). intros x ->. done.
      * by repeat constructor.
      * apply (Forall_impl _ _ _ Hd). intros x. lia.
  - assert (key w ≠ key nw) as Hne.
    { intros E. apply same_score_spec in E. congruence. }
    cbn [fst]. rewrite filter_none; cycle 1.
    { intros x Hx. rewrite Forall_forall in Hb. specialize (Hb x Hx).
      apply not_true_iff_false. rewrite same_score_spec. fold (key x). fold (key nw). congruence. }
    split; cbn [tk_limit tk_heap tk_boundary with_boundary with_heap]; [done|done|lia|].
    exists ([w] ++ tk_boundary t ++ ds). split_and!; [done|lia|].
    intros w' rest' [= <- <-]. split; [constructor|]. rewrite !Forall_app. split_and!.
    + repeat constructor. lia.
    + apply (Forall_impl _ _ _ Hb). intros x. lia.
    + apply (Forall_impl _ _ _ Hd). intros x. lia.
Qed.

Lemma topk_push_inv limit cs t c :
  0 < limit → topk_inv limit cs t → topk_inv limit (cs ++ [c]) (topk_push t c).
Proof.
  intros Hpos Hi. pose proof Hi as [Hlim Hs Hlen (ds & Hp & Hshort & Hw)].
  destruct (decide (len (tk_heap t) < limit)) as [Hlt|Hge].
  - destruct (Hshort Hlt) as [Eb ->]. unfold topk_push, push_with_reserve. rewrite Hlim.
    destruct (Z.eqb_spec limit 0); [lia|]. destruct (Z.ltb_spec (len (tk_heap t)) limit); [|lia].
    rewrite Eb, !app_nil_r in Hp.
    split; cbn [fst tk_limit tk_heap tk_boundary with_heap]; [done|by apply heap_push_sorted| |].
    + unfold len in *. rewrite heap_push_perm. cbn. lia.
    + exists []. rewrite Eb. split_and!; [|done|].
      * by rewrite !app_nil_r, heap_push_perm, Hp, <- Permutation_cons_append.
      * intros w rest _. split; constructor.
  - destruct (tk_heap t) as [|w rest] eqn:Eh; [rewrite len_nil in Hge; lia|].
    destruct (Hw w rest eq_refl) as [Hb Hd].
    destruct (Z.compare_spec (key c) (key w)) as [E|E|E].
    + unfold topk_push, push_with_reserve. rewrite Hlim.
      destruct (Z.eqb_spec limit 0); [lia|]. rewrite Eh.
      destruct (Z.ltb_spec (len (w :: rest)) limit); [lia|].
      assert (f32_total_cmp (sc_score c) (sc_score w) = Eq) as -> by (by apply Z.compare_eq_iff).
      split; cbn [fst tk_limit tk_heap tk_boundary with_boundary]; rewrite ?Eh; [done|done|done|].
      exists ds. split_and!; [|lia|].
      * rewrite Hp, <- !app_assoc. do 2 apply Permutation_app_head. apply Permutation_app_comm.
      * intros w' rest' [= <- <-]. split; [|done]. apply Forall_app. split; [done|by repeat constructor].
    + unfold topk_push, push_with_reserve. rewrite Hlim.
      destruct (Z.eqb_spec limit 0); [lia|]. rewrite Eh.
      destruct (Z.ltb_spec (len (w :: rest)) limit); [lia|].
      assert (f32_total_cmp (sc_score c) (sc_score w) = Lt) as -> by (by apply Z.compare_lt_iff).
      split; cbn [fst]; rewrite ?Eh; [done|done|done|].
      exists (ds ++ [c]). split_and!; [|lia|].
      * by rewrite Hp, !app_assoc.
      * intros w' rest' [= <- <-]. split; [done|]. apply Forall_app. split; [done|by repeat constructor].
    + apply (evict_inv limit cs t c w rest); [done|done|rewrite Eh; lia|done].
Qed.

(** ** Counting better candidates *)

Lemma better_count_perm c l l' : l ≡ₚ l' → better_count c l = better_count c l'.
Proof. intros Hp. unfold better_count, len. by rewrite (filter_perm _ _ _ Hp). Qed.

Lemma better_count_app c l l' : better_count c (l ++ l') = better_count c l + better_count c l'.
Proof. unfold better_count. by rewrite List.filter_app, len_app. Qed.

Lemma better_count_le c l : 0 ≤ better_count c l ≤ len l.
Proof. unfold better_count, len. pose proof (List.filter_length_le (λ d, key c <? key d) l). lia. Qed.

Lemma better_count_all c l : (∀ d, d ∈ l → key c < key d) → better_count c l = len l.
Proof. intros Hl. unfold better_count. rewrite filter_all; [done|]. intros d Hd. by apply Z.ltb_lt, Hl. Qed.

Lemma better_count_none c l : (∀ d, d ∈ l → key d ≤ key c) → better_count c l = 0.
Proof. intros Hl. unfold better_count. rewrite filter_none; [done|]. intros d Hd. by apply Z.ltb_ge, Hl. Qed.

Lemma better_count_self c l : c ∈ l → better_count c l < len l.
Proof.
  intros (l1 & l2 & ->)%list_elem_of_split. rewrite better_count_app, len_app, len_cons.
  change (c :: l2) with ([c] ++ l2). rewrite better_count_app.
  rewrite (better_count_none c [c]) by (intros d ->%list_elem_of_singleton; lia).
  pose proof (better_count_le c l1). pose proof (better_count_le c l2). lia.
Qed.

(** What the collector holds is what fewer than [limit] candidates beat. *)
Lemma topk_inv_kept limit cs t :
  0 < limit → topk_inv limit cs t →
  tk_heap t ++ tk_boundary t ≡ₚ List.filter (λ c, better_count c cs <? limit) cs.
Proof.
  intros Hpos [Hlim Hs Hlen (ds & Hp & Hshort & Hw)].
  destruct (decide (len (tk_heap t) < limit)) as [Hlt|Hge].
  - destruct (Hshort Hlt) as [Eb ->]. rewrite Eb, !app_nil_r in *. rewrite filter_all; [done|].
    intros x _. apply Z.ltb_lt. rewrite (better_count_perm _ _ _ Hp).
    pose proof (better_count_le x (tk_heap t)). lia.
  - destruct (tk_heap t) as [|w rest] eqn:Eh; [rewrite len_nil in Hge; lia|].
    destruct (Hw w rest eq_refl) as [Hb Hd]. rewrite Forall_forall in Hb, Hd.
    assert (∀ x, key w ≤ key x → better_count x cs < limit) as Hin.
    { intros x Hx. rewrite (better_count_perm _ _ _ Hp).
      change (w :: rest) with ([w] ++ rest). rewrite !better_count_app.
      rewrite (better_count_none x [w]) by (intros d ->%list_elem_of_singleton; lia).
      rewrite (better_count_none x (tk_boundary t)) by (intros d ->%Hb; lia).
      rewrite (better_count_none x ds) by (intros d Hd'%Hd; lia).
      pose proof (better_count_le x rest). rewrite len_cons in Hlen. lia. }
    rewrite (filter_perm _ _ _ Hp), !List.filter_app.
    rewrite (filter_none _ ds), (filter_all _ (tk_boundary t)), (filter_all _ (w :: rest)).
    + by rewrite app_nil_r.
    + intros x Hx. apply Z.ltb_lt, Hin. by apply (heap_worst w rest).
    + intros x Hx. apply Z.ltb_lt, Hin. rewrite (Hb x Hx). lia.
    + intros d Hd'. apply Z.ltb_ge. rewrite (better_count_perm _ _ _ Hp), better_count_app.
      rewrite (better_count_all d (w :: rest)); [|].
      * pose proof (better_count_le d (tk_boundary t ++ ds)). lia.
      * intros y Hy. specialize (Hd d Hd'). pose proof (heap_worst w rest y Hs Hy). lia.
Qed.

Definition collect (limit : Z) (cs : list ScanCandidate) : BoundedTopK :=
  foldl topk_push (topk_new limit) cs.

Lemma collect_inv limit cs : 0 < limit → topk_inv limit cs (collect limit cs).
Proof.
  intros Hpos. unfold collect. induction cs as [|c cs IH] using rev_ind.
  { by apply topk_new_inv. }
  rewrite foldl_app. cbn. by apply topk_push_inv.
Qed.

Lemma collect_zero cs : collect 0 cs = topk_new 0.
Proof. unfold collect. induction cs; cbn; done. Qed.

Lemma top_with_ties_zero cs : top_with_ties 0 cs = [].
Proof.
  unfold top_with_ties. rewrite filter_none; [done|].
  intros c _. apply Z.ltb_ge. apply better_count_le.
Qed.

Lemma collect_ties limit cs :
  0 ≤ limit → scores_ok cs → into_sorted_with_ties (collect limit cs) = top_with_ties limit cs.
Proof.
  intros Hl Hok. destruct (decide (limit = 0)) as [->|].
  { by rewrite collect_zero, top_with_ties_zero. }
  pose proof (collect_inv limit cs ltac:(lia)) as Hi.
  pose proof (topk_inv_kept limit cs _ ltac:(lia) Hi) as Hk.
  unfold into_sorted_with_ties, top_with_ties. apply sort_unique; [|done].
  unfold scores_ok in *. rewrite Hk. rewrite Forall_forall in *.
  intros c Hc. apply Hok. apply list_elem_of_In. apply list_elem_of_In in Hc.
  by apply List.filter_In in Hc as [? _].
Qed.

(** The [k] best are the first [k] of the sorted candidates. *)
Lemma collect_sorted limit cs :
  0 ≤ limit → scores_ok cs →
  into_sorted (collect limit cs) = take (Z.to_nat limit) (sort_candidates cs).
Proof.
  intros Hl Hok. unfold into_sorted. destruct (decide (limit = 0)) as [->|].
  { by rewrite collect_zero. }
  destruct (collect_inv limit cs ltac:(lia)) as [Hlim Hs Hlen (ds & Hp & Hshort & Hw)].
  rewrite Hlim. unfold into_sorted_with_ties. set (t := collect limit cs) in *.
  rewrite app_assoc in Hp. rewrite (sort_unique cs _ Hok Hp).
  destruct (decide (len (tk_heap t) < limit)) as [Hlt|Hge].
  { destruct (Hshort Hlt) as [_ ->]. by rewrite app_nil_r. }
  destruct (tk_heap t) as [|w rest] eqn:Eh; [rewrite len_nil in Hge; lia|].
  destruct (Hw w rest eq_refl) as [Hb Hd]. rewrite Forall_forall in Hb, Hd.
  rewrite (sort_app (_ ++ _) ds).
  - rewrite take_app_le; [done|]. rewrite sort_perm, length_app. unfold len in Hge. lia.
  - unfold scores_ok. by rewrite <- Hp.
  - intros a b Ha%elem_of_app Hb'%Hd.
    destruct Ha as [Ha|Ha]; [pose proof (heap_worst w rest a Hs Ha); lia|].
    rewrite (Hb a Ha). lia.
Qed.

(** ** Selecting from a sorted list *)

Lemma filter_take {A} (f : A → bool) (n : nat) l :
  (∀ x, x ∈ take n l → f x = true) → (∀ x, x ∈ drop n l → f x = false) →
  List.filter f l = take n l.
Proof.
  intros Ht Hd. rewrite <- (take_drop n l) at 1. rewrite List.filter_app.
  by rewrite (filter_all _ _ Ht), (filter_none _ _ Hd), app_nil_r.
Qed.

Lemma sorted_split (l : list ScanCandidate) (i : nat) x :
  StronglySorted before l → l !! i = Some x →
  (∀ y, y ∈ take (S i) l → key x ≤ key y) ∧ (∀ y, y ∈ drop i l → key y ≤ key x).
Proof.
  intros Hs Hx. rewrite <- (take_drop_middle l i x Hx) in Hs.
  apply StronglySorted_app in Hs as (Hlt & Hs1 & Hs2).
  apply StronglySorted_inv in Hs2 as [_ Hgt]. rewrite Forall_forall in Hgt. split.
  - intros y. rewrite (take_S_r _ _ _ Hx), elem_of_app, list_elem_of_singleton.
    intros [Hy| ->]; [|lia]. specialize (Hlt y x Hy (list_elem_of_here _ _)).
    apply before_spec in Hlt. lia.
  - intros y. rewrite (drop_S _ _ _ Hx). intros [->|Hy]%elem_of_cons; [lia|].
    specialize (Hgt y Hy). apply before_spec in Hgt. lia.
Qed.

(** A candidate is beaten by fewer than [k] others iff it is not beaten by the
    [k]-th of the sorted list. *)
Lemma better_count_nth (l : list ScanCandidate) (i : nat) x c :
  StronglySorted before l → l !! i = Some x →
  (better_count c l <? Z.of_nat (S i)) = negb (key c <? key x).
Proof.
  intros Hs Hx. destruct (sorted_split l i x Hs Hx) as [Ht Hd].
  pose proof (lookup_lt_Some _ _ _ Hx) as Hlt.
  destruct (Z.ltb_spec (key c) (key x)) as [Hc|Hc]; cbn [negb].
  - apply Z.ltb_ge. rewrite <- (take_drop (S i) l), better_count_app.
    rewrite (better_count_all c (take (S i) l)) by (intros y Hy%Ht; lia).
    pose proof (better_count_le c (drop (S i) l)). unfold len. rewrite length_take. lia.
  - apply Z.ltb_lt. rewrite <- (take_drop i l), better_count_app.
    rewrite (better_count_none c (drop i l)) by (intros y Hy%Hd; lia).
    pose proof (better_count_le c (take i l)). unfold len in *. rewrite length_take in *. lia.
Qed.

(** Filtering commutes with sorting. *)
Lemma filter_sort (f : ScanCandidate → bool) l :
  scores_ok l → List.filter f (sort_candidates l) = sort_candidates (List.filter f l).
Proof.
  intros Hok. apply sorted_unique.
  - unfold scores_ok in *. rewrite Forall_forall in *. intros c Hc. apply Hok.
    apply list_elem_of_In, List.filter_In in Hc as [Hc _]. apply list_elem_of_In in Hc.
    by rewrite sort_perm in Hc.
  - generalize (sort_sorted l). generalize (sort_candidates l). clear. intros l Hs.
    induction Hs as [|x l _ IH Hx]; cbn; [constructor|]. destruct (f x); [|done].
    constructor; [done|]. rewrite Forall_forall in *. intros y Hy. apply Hx.
    apply list_elem_of_In. apply list_elem_of_In in Hy. by apply List.filter_In in Hy as [? _].
  - apply sort_sorted.
  - by rewrite (filter_perm _ _ _ (sort_perm l)), sort_perm.
Qed.

Lemma filter_ext_bool {A} (f g : A → bool) l : (∀ x, f x = g x) → List.filter f l = List.filter g l.
Proof. intros E. apply List.filter_ext. done. Qed.

(** The unordered buffer keeps the same candidates. *)
Lemma unordered_ties limit capacity cs :
  0 ≤ limit → scores_ok cs →
  exact_into_sorted_with_ties (ExactUnordered limit capacity cs) = top_with_ties limit cs.
Proof.
  intros Hl Hok. cbn [exact_into_sorted_with_ties].
  destruct (Z.eqb_spec limit 0) as [->|]; [by rewrite top_with_ties_zero|].
  unfold top_with_ties. destruct (Z.ltb_spec limit (len cs)) as [Hlt|Hge]; cycle 1.
  { rewrite filter_all; [done|]. intros c Hc%better_count_self. apply Z.ltb_lt. lia. }
  unfold select_nth_score.
  destruct (sort_candidates cs !! Z.to_nat (limit - 1)) as [x|] eqn:Ex; cycle 1.
  { apply lookup_ge_None in Ex. rewrite sort_perm in Ex. unfold len in Hlt. lia. }
  cbn [fmap option_fmap option_map]. f_equal. apply filter_ext_bool. intros c.
  rewrite (better_count_perm c cs (sort_candidates cs)) by (by rewrite sort_perm).
  replace limit with (Z.of_nat (S (Z.to_nat (limit - 1)))) at 1 by lia.
  rewrite (better_count_nth _ _ x c (sort_sorted cs) Ex). unfold f32_total_cmp, key.
  destruct (Z.compare_spec (f32_total_key (sc_score c)) (f32_total_key (sc_score x))) as [E|E|E];
    destruct (Z.ltb_spec (f32_total_key (sc_score c)) (f32_total_key (sc_score x))); (done || lia).
Qed.

(** Pushing every eligible candidate. *)
Fixpoint exact_collect (t : ExactTopK) (cs : list ScanCandidate) : option ExactTopK :=
  match cs with
  | [] => Some t
  | c :: rest => t' ← exact_push t c; exact_collect t' rest
  end.

Lemma exact_collect_heap t cs :
  exact_collect (ExactHeap t) cs = Some (ExactHeap (foldl topk_push t cs)).
Proof. revert t. induction cs as [|c cs IH]; intros t; cbn; [done|]. apply IH. Qed.

Lemma exact_collect_unordered limit capacity before cs :
  len before + len cs ≤ capacity →
  exact_collect (ExactUnordered limit capacity before) cs
  = Some (ExactUnordered limit capacity (before ++ cs)).
Proof.
  revert before. induction cs as [|c cs IH]; intros before Hc; cbn [exact_collect exact_push].
  { by rewrite app_nil_r. }
  rewrite len_cons in Hc. pose proof (len_nonneg cs).
  destruct (Z.eqb_spec (len before) capacity); [lia|]. cbn [mbind option_bind].
  rewrite IH by (rewrite len_app, len_cons, len_nil; lia). by rewrite <- app_assoc.
Qed.

(** A limit above the number of candidates keeps them all. *)
Lemma top_with_ties_cap limit n cs :
  0 ≤ limit → len cs ≤ n → top_with_ties (Z.min limit n) cs = top_with_ties limit cs.
Proof.
  intros Hl Hn. unfold top_with_ties. destruct (Z.le_gt_cases limit n).
  { by rewrite Z.min_l. }
  rewrite !filter_all; [done| |]; intros c Hc%better_count_self; apply Z.ltb_lt; lia.
Qed.

Lemma tied_prefix_spec x l :
  StronglySorted before (x :: l) →
  (∀ y, y ∈ take (tied_prefix (sc_score x) l) l → key y = key x)
  ∧ (∀ y, y ∈ drop (tied_prefix (sc_score x) l) l → key y < key x).
Proof.
  induction l as [|c l IH]; intros Hs; cbn [tied_prefix].
  { split; intros y Hy; by apply elem_of_nil in Hy. }
  apply StronglySorted_inv in Hs as [Hs Hx]. apply Forall_cons in Hx as [Hxc Hx].
  destruct (same_score (sc_score c) (sc_score x)) eqn:E.
  - apply same_score_spec in E. fold (key c) (key x) in E.
    apply StronglySorted_inv in Hs as [Hs Hc]. destruct IH as [IH1 IH2]; [by constructor|].
    cbn [take drop]. split; [|done]. intros y [->|Hy]%elem_of_cons; [done|]. by apply IH1.
  - assert (key c ≠ key x) as Hne.
    { intros Ek. apply same_score_spec in Ek. congruence. }
    cbn [take drop]. split; [by intros y Hy%elem_of_nil|].
    apply before_spec in Hxc. intros y [->|Hy]%elem_of_cons; [lia|].
    apply StronglySorted_inv in Hs as [_ Hc]. rewrite Forall_forall in Hc.
    specialize (Hc y Hy). apply before_spec in Hc. lia.
Qed.

(** Truncating a sorted list without splitting a tie. *)
Lemma truncate_ties k cs :
  0 ≤ k → scores_ok cs →
  truncate_to_k_with_score_ties (sort_candidates cs) k = top_with_ties k cs.
Proof.
  intros Hk Hok. unfold truncate_to_k_with_score_ties.
  destruct (Z.eqb_spec k 0) as [->|]; [by rewrite top_with_ties_zero|].
  unfold top_with_ties. rewrite <- filter_sort by done.
  assert (len (sort_candidates cs) = len cs) as Hlen by (unfold len; by rewrite sort_perm).
  destruct (Z.leb_spec (len (sort_candidates cs)) k) as [Hle|Hlt].
  { rewrite filter_all; [done|]. intros c Hc. rewrite sort_perm in Hc.
    apply better_count_self in Hc. apply Z.ltb_lt. lia. }
  unfold saturating_sub. rewrite Z.max_r by lia.
  destruct (sort_candidates cs !! Z.to_nat (k - 1)) as [x|] eqn:Ex; cycle 1.
  { apply lookup_ge_None in Ex. unfold len in Hlt. lia. }
  assert (Hnth : ∀ c, (better_count c cs <? k) = negb (key c <? key x)).
  { intros c. rewrite (better_count_perm c cs (sort_candidates cs)) by (by rewrite sort_perm).
    replace k with (Z.of_nat (S (Z.to_nat (k - 1)))) at 1 by lia.
    by apply better_count_nth; [apply sort_sorted|]. }
  pose proof (sort_sorted cs) as Hs. destruct (sorted_split _ _ _ Hs Ex) as [Ht _].
  replace (S (Z.to_nat (k - 1))) with (Z.to_nat k) in Ht by lia.
  assert (StronglySorted before (x :: drop (Z.to_nat k) (sort_candidates cs))) as Hx.
  { rewrite <- (take_drop_middle _ _ _ Ex) in Hs. apply StronglySorted_app in Hs as (_ & _ & Hs).
    by replace (S (Z.to_nat (k - 1))) with (Z.to_nat k) in Hs by lia. }
  destruct (tied_prefix_spec x _ Hx) as [Ht1 Ht2].
  set (tied := tied_prefix _ _) in *. symmetry. apply filter_take.
  - intros y Hy. rewrite Hnth, negb_true_iff, Z.ltb_ge.
    rewrite <- (take_drop (Z.to_nat k) (sort_candidates cs)), take_app_add' in Hy
      by (rewrite length_take; unfold len in *; lia).
    apply elem_of_app in Hy as [Hy|Hy]; [by apply Ht|]. rewrite (Ht1 y Hy). lia.
  - intros y Hy. rewrite Hnth, negb_false_iff, Z.ltb_lt.
    rewrite <- drop_drop in Hy. by apply Ht2.
Qed.

(** ** Theorems *)

(** C30: The bounded heap collector, fed candidates in any order, returns exactly
    the candidates that fewer than k others beat (the k best and every tie of the
    last), sorted by score and row id, its exact-k form is the first k of the full
    sort, and truncating a sorted list at a tie gives the same list. *)
Theorem bounded_topk_exact (limit : Z) (cs : list ScanCandidate) :
  0 ≤ limit → scores_ok cs →
  into_sorted_with_ties (collect limit cs) = top_with_ties limit cs
  ∧ into_sorted (collect limit cs) = take (Z.to_nat limit) (sort_candidates cs)
  ∧ truncate_to_k_with_score_ties (sort_candidates cs) limit = top_with_ties limit cs.
Proof.
  intros Hl Hok. split_and!; [by apply collect_ties|by apply collect_sorted|by apply truncate_ties].
Qed.

(** The exact collector never runs out of space for the rows it was sized for,
    and its two strategies, the heap and the unordered buffer, both return the
    reference top-k with ties. *)
Theorem exact_topk_strategies_agree (limit eligible : Z) (cs : list ScanCandidate) :
  0 ≤ limit → len cs ≤ eligible → scores_ok cs →
  ∃ t, exact_collect (exact_new limit eligible) cs = Some t
       ∧ exact_into_sorted_with_ties t = top_with_ties limit cs.
Proof.
  intros Hl He Hok. pose proof (len_nonneg cs). unfold exact_new.
  rewrite <- (top_with_ties_cap limit eligible) by lia. destruct (_ <=? _).
  - rewrite exact_collect_unordered by (rewrite len_nil; lia). eexists. split; [reflexivity|].
    apply unordered_ties; [lia|done].
  - rewrite exact_collect_heap. eexists. split; [reflexivity|].
    apply (collect_ties (Z.min limit eligible)); [lia|done].
Qed.

(** *** Witnesses *)

Definition sample_candidates : list ScanCandidate :=
  map (λ p, {| sc_row_id := p.1; sc_score := p.2 |})
    [(0, 0x3F800000); (1, 0x40000000); (2, 0x3F800000); (3, 0xBF800000); (4, 0x3F800000)].

Lemma sample_scores_ok : scores_ok sample_candidates.
Proof. repeat constructor; cbn; by_compute. Qed.

Lemma bounded_topk_exact_witness :
  map sc_row_id (into_sorted (collect 2 sample_candidates)) = [1; 0]
  ∧ map sc_row_id (into_sorted_with_ties (collect 2 sample_candidates)) = [1; 0; 2; 4]
  ∧ into_sorted_with_ties (collect 2 sample_candidates) = top_with_ties 2 sample_candidates.
Proof.
  split; [by vm_compute|]. split; [by vm_compute|].
  apply (bounded_topk_exact 2 sample_candidates); [lia|exact sample_scores_ok].
Defined.

Lemma exact_topk_strategies_agree_witness :
  exact_new 1 5 = ExactHeap (topk_new 1) ∧ exact_new 3 5 = ExactUnordered 3 5 []
  ∧ ∃ t, exact_collect (exact_new 3 5) sample_candidates = Some t
         ∧ exact_into_sorted_with_ties t = top_with_ties 3 sample_candidates.
Proof.
  split; [by vm_compute|]. split; [by vm_compute|].
  apply (exact_topk_strategies_agree 3 5 sample_candidates);
    [lia|by vm_compute|exact sample_scores_ok].
Defined.
