(* ===== verification/Tier.v ===== *)
(** * Tier policy ([tier/policy.rs], [tier/thresholds.rs])

    The pure decisions of background maintenance: when a sealed segment earns a
    graph, when segments are merged, and which refinement a graph gets next.
    [consolidation_store_stats] ([tier/maintain.rs]) derives the store-wide
    inputs from the published segments; a segment is seen through its metadata
    and whether it carries a graph. *)

From S2P Require Import Prelude.

Inductive SegmentTier : Type := ActiveScan | SealedScan | SealedGraph.

#[export] Instance SegmentTier_eq_dec : EqDecision SegmentTier.
Proof. solve_decision. Defined.

Record TierThresholds : Type := { tt_graph_min_rows : Z }.

Definition MEASURED_TIER_THRESHOLDS : TierThresholds := {| tt_graph_min_rows := 30000 |}.

Definition for_bucket (_dimensions _scheme : Z) : TierThresholds := MEASURED_TIER_THRESHOLDS.

Record SegmentStats : Type := {
  sg_tier : SegmentTier;
  sg_row_count : Z;
  sg_dimensions : Z;
  sg_scheme : Z;
}.

Record StoreStats : Type := {
  st_graph_segment_count : Z;
  st_total_graph_rows : Z;
  st_largest_graph_segment_rows : Z;
  st_scan_segment_count : Z;
  st_total_scan_rows : Z;
  st_scan_graph_min_rows : Z;
}.

Definition CONSOLIDATE_MIN_SEGMENTS : Z := 3.
Definition CONSOLIDATE_DOMINANT_TENTHS : Z := 7.

Inductive StorePlan : Type := StoreStay | Consolidate | ConsolidateScan.

(** The products are taken in [u128], where they cannot overflow. *)
Definition decide_store (store : StoreStats) : StorePlan :=
  if CONSOLIDATE_MIN_SEGMENTS <=? st_graph_segment_count store then Consolidate
  else if (st_graph_segment_count store =? 2)
          && (st_largest_graph_segment_rows store * 10
              <? st_total_graph_rows store * CONSOLIDATE_DOMINANT_TENTHS)
  then Consolidate
  else if (2 <=? st_scan_segment_count store) && negb (st_scan_graph_min_rows store =? 0)
          && (st_scan_graph_min_rows store <=? st_total_scan_rows store)
  then ConsolidateScan
  else StoreStay.

Inductive TierPlan : Type :=
| TierStay (tier : SegmentTier)
| Transition (from to : SegmentTier).

Definition decide_with_thresholds (segment : SegmentStats) (thresholds : TierThresholds)
    : TierPlan :=
  match sg_tier segment with
  | ActiveScan => TierStay ActiveScan
  | SealedGraph => TierStay SealedGraph
  | SealedScan =>
      if tt_graph_min_rows thresholds <=? sg_row_count segment
      then Transition SealedScan SealedGraph
      else TierStay SealedScan
  end.

Definition decide (segment : SegmentStats) (_store : StoreStats) : TierPlan :=
  decide_with_thresholds segment (for_bucket (sg_dimensions segment) (sg_scheme segment)).

(** ** Refinement passes ([graph/refine.rs]) *)

Inductive RefinementPass : Type :=
| Renumber | AlphaReprune | SeedRefit | NeighborReorder | ConnectivityRepair.

Definition pass_index (p : RefinementPass) : Z :=
  match p with
  | Renumber => 0
  | AlphaReprune => 1
  | SeedRefit => 2
  | NeighborReorder => 3
  | ConnectivityRepair => 4
  end.

Definition ALL_PASSES : list RefinementPass := [Renumber; AlphaReprune; SeedRefit; NeighborReorder].

Definition pass_bit (p : RefinementPass) : Z := Z.shiftl 1 (pass_index p).

Definition passes_contains (applied : Z) (p : RefinementPass) : bool :=
  negb (Z.land applied (pass_bit p) =? 0).

Definition passes_with (applied : Z) (p : RefinementPass) : Z := Z.lor applied (pass_bit p).

Definition KNOWN_BITS : Z := Z.shiftl 1 5 - 1.

(** [bits & !KNOWN_BITS == 0]. *)
Definition passes_from_bits (bits : Z) : option Z :=
  if Z.ldiff bits KNOWN_BITS =? 0 then Some bits else None.

Inductive RefinementPlan : Type :=
| RefinementStay
| RefinementApply (pass : RefinementPass).

Definition decide_refinement (applied : Z) : RefinementPlan :=
  match List.find (λ pass, negb (passes_contains applied pass)) ALL_PASSES with
  | None => RefinementStay
  | Some pass => RefinementApply pass
  end.

(** ** Store statistics ([tier/maintain.rs]) *)

Record SegmentView : Type := {
  sv_has_graph : bool;
  sv_row_count : Z;
  sv_dims : Z;
  sv_scheme : Z;
}.

Inductive MaintenanceError : Type := ArithmeticOverflow.

Definition sum_rows (segments : list SegmentView) : option Z :=
  foldl (λ total s, t ← total; checked_add u64_max t (sv_row_count s)) (Some 0) segments.

Definition consolidation_store_stats (inputs : list SegmentView)
    (thresholds : option TierThresholds) : result MaintenanceError StoreStats :=
  let graphs := List.filter sv_has_graph inputs in
  let scans := List.filter (λ s, negb (sv_has_graph s)) inputs in
  graph_segment_count ← ok_or (try_from u32_max (len graphs)) ArithmeticOverflow;
  scan_segment_count ← ok_or (try_from u32_max (len scans)) ArithmeticOverflow;
  total_graph_rows ← ok_or (sum_rows graphs) ArithmeticOverflow;
  total_scan_rows ← ok_or (sum_rows scans) ArithmeticOverflow;
  Ok {| st_graph_segment_count := graph_segment_count;
        st_total_graph_rows := total_graph_rows;
        st_largest_graph_segment_rows :=
          match map sv_row_count graphs with
          | [] => 0
          | first :: rest => foldl Z.max first rest
          end;
        st_scan_segment_count := scan_segment_count;
        st_total_scan_rows := total_scan_rows;
        st_scan_graph_min_rows :=
          match thresholds with
          | Some t => tt_graph_min_rows t
          | None =>
              match List.find (λ s, negb (sv_has_graph s)) inputs with
              | Some s => tt_graph_min_rows (for_bucket (sv_dims s) (sv_scheme s))
              | None => 0
              end
          end |}.

(** ** Lemmas *)

Definition graphs_of (inputs : list SegmentView) : list SegmentView :=
  List.filter sv_has_graph inputs.
Definition scans_of (inputs : list SegmentView) : list SegmentView :=
  List.filter (λ s, negb (sv_has_graph s)) inputs.

Definition total_rows (l : list SegmentView) : Z := foldr (λ s t, sv_row_count s + t) 0 l.

Definition rows_ok (l : list SegmentView) : Prop := Forall (λ s, is_u32 (sv_row_count s)) l.

Lemma total_rows_bound l : rows_ok l → 0 ≤ total_rows l ≤ len l * u32_max.
Proof.
  induction 1 as [|s l Hs _ IH]; cbn [total_rows foldr]; [by vm_compute|].
  fold (total_rows l). rewrite len_cons. unfold is_u32 in Hs. lia.
Qed.

Lemma sum_rows_from l acc :
  rows_ok l → 0 ≤ acc → acc + len l * u32_max ≤ u64_max →
  foldl (λ total s, t ← total; checked_add u64_max t (sv_row_count s)) (Some acc) l
  = Some (acc + total_rows l).
Proof.
  intros Hl. revert acc. induction Hl as [|s l Hs _ IH]; intros acc Ha Hb; cbn [foldl total_rows foldr].
  { f_equal. lia. }
  fold (total_rows l). rewrite len_cons in Hb. unfold is_u32 in Hs. pose proof (len_nonneg l).
  cbn [mbind option_bind]. unfold checked_add at 2.
  destruct (Z.leb_spec (acc + sv_row_count s) u64_max); [|unfold u32_max in *; nia].
  rewrite IH by (unfold u32_max in *; lia). f_equal. lia.
Qed.

Lemma filter_rows_ok f l : rows_ok l → rows_ok (List.filter f l).
Proof.
  unfold rows_ok. rewrite !Forall_forall. intros Hl s Hs. apply Hl.
  apply list_elem_of_In. apply list_elem_of_In in Hs. by apply List.filter_In in Hs as [? _].
Qed.

Lemma filter_len_le {A} (f : A → bool) l : len (List.filter f l) ≤ len l.
Proof. unfold len. pose proof (List.filter_length_le f l). lia. Qed.

(** The statistics exist for every realistic store and count what they say. *)
Lemma store_stats_ok inputs thresholds :
  rows_ok inputs → len inputs ≤ u32_max →
  ∃ st, consolidation_store_stats inputs thresholds = Ok st
        ∧ st_graph_segment_count st = len (graphs_of inputs)
        ∧ st_scan_segment_count st = len (scans_of inputs)
        ∧ st_total_graph_rows st = total_rows (graphs_of inputs)
        ∧ st_total_scan_rows st = total_rows (scans_of inputs)
        ∧ st_largest_graph_segment_rows st
          = match map sv_row_count (graphs_of inputs) with
            | [] => 0
            | first :: rest => foldl Z.max first rest
            end
        ∧ (scans_of inputs ≠ [] →
           st_scan_graph_min_rows st
           = tt_graph_min_rows (default MEASURED_TIER_THRESHOLDS thresholds)).
Proof.
  intros Hr Hn. unfold consolidation_store_stats. fold (graphs_of inputs) (scans_of inputs).
  assert (∀ f, try_from u32_max (len (List.filter f inputs)) = Some (len (List.filter f inputs)))
    as Htry.
  { intros f. unfold try_from. pose proof (len_nonneg (List.filter f inputs)).
    pose proof (filter_len_le f inputs). destruct (Z.leb_spec 0 (len (List.filter f inputs))); [|lia].
    by destruct (Z.leb_spec (len (List.filter f inputs)) u32_max); [|lia]. }
  assert (∀ f, sum_rows (List.filter f inputs) = Some (total_rows (List.filter f inputs))) as Hsum.
  { intros f. unfold sum_rows. rewrite sum_rows_from; [by rewrite Z.add_0_l|by apply filter_rows_ok|lia|].
    pose proof (filter_len_le f inputs). unfold u32_max, u64_max in *. nia. }
  unfold graphs_of, scans_of. rewrite !Htry, !Hsum. cbn [ok_or mbind result_bind].
  eexists. split; [reflexivity|].
  cbn [st_graph_segment_count st_scan_segment_count st_total_graph_rows st_total_scan_rows
       st_largest_graph_segment_rows st_scan_graph_min_rows].
  split_and!; try done. intros Hne. destruct thresholds as [t|]; [done|].
  destruct (List.find _ inputs) as [v|] eqn:Ef; [done|]. exfalso. apply Hne.
  pose proof (List.find_none _ _ Ef) as Hnone. clear -Hnone.
  induction inputs as [|v inputs IH]; [done|]. cbn [List.filter].
  rewrite (Hnone v (or_introl eq_refl)). apply IH. intros x Hx. apply Hnone. by right.
Qed.

Lemma largest_two (a b : SegmentView) :
  foldl Z.max (sv_row_count a) [sv_row_count b] = Z.max (sv_row_count a) (sv_row_count b).
Proof. done. Qed.

(** ** Theorems *)

(** For every realistic set of published segments the consolidation statistics
    exist, and the plan follows the policy: a merge always has at least two inputs
    (so each merge shrinks the set), two graph segments are merged exactly when
    neither holds seventy percent of the rows, and a planned scan merge yields a
    segment that earns a graph. *)
Theorem consolidation_makes_progress (inputs : list SegmentView)
    (thresholds : option TierThresholds) :
  rows_ok inputs → len inputs ≤ u32_max →
  ∃ st, consolidation_store_stats inputs thresholds = Ok st
        ∧ match decide_store st with
          | Consolidate =>
              2 ≤ len (graphs_of inputs)
              ∧ (∀ a b, graphs_of inputs = [a; b] →
                   10 * sv_row_count a < 7 * total_rows (graphs_of inputs)
                   ∧ 10 * sv_row_count b < 7 * total_rows (graphs_of inputs))
          | ConsolidateScan =>
              2 ≤ len (scans_of inputs) ∧ len (graphs_of inputs) ≤ 2
              ∧ (∀ segment, sg_tier segment = SealedScan →
                   sg_row_count segment = total_rows (scans_of inputs) →
                   decide_with_thresholds segment (default MEASURED_TIER_THRESHOLDS thresholds)
                   = Transition SealedScan SealedGraph)
          | StoreStay =>
              len (graphs_of inputs) ≤ 2
              ∧ (∀ a b, graphs_of inputs = [a; b] →
                   7 * total_rows (graphs_of inputs) ≤ 10 * Z.max (sv_row_count a) (sv_row_count b))
              ∧ (2 ≤ len (scans_of inputs) → st_scan_graph_min_rows st ≠ 0 →
                 total_rows (scans_of inputs) < st_scan_graph_min_rows st)
          end.
Proof.
  intros Hr Hn. destruct (store_stats_ok inputs thresholds Hr Hn) as (st & E & Hg & Hs & Htg & Hts & Hl & Hmin).
  exists st. split; [done|]. unfold decide_store, CONSOLIDATE_MIN_SEGMENTS, CONSOLIDATE_DOMINANT_TENTHS.
  rewrite Hg, Hs, Htg, Hts, Hl.
  assert (2 ≤ len (scans_of inputs) → st_scan_graph_min_rows st ≤ total_rows (scans_of inputs) →
    ∀ segment, sg_tier segment = SealedScan → sg_row_count segment = total_rows (scans_of inputs) →
    decide_with_thresholds segment (default MEASURED_TIER_THRESHOLDS thresholds)
    = Transition SealedScan SealedGraph) as Hearn.
  { intros Hscans Hle segment Ht Hrows. unfold decide_with_thresholds. rewrite Ht, Hrows.
    rewrite <- Hmin by (intros Hnil; rewrite Hnil in Hscans; by apply Hscans).
    by destruct (Z.leb_spec (st_scan_graph_min_rows st) (total_rows (scans_of inputs))); [|lia]. }
  assert (∀ a b, graphs_of inputs = [a; b] → len (graphs_of inputs) = 2) as H2.
  { intros a b ->. done. }
  destruct (Z.leb_spec 3 (len (graphs_of inputs))) as [H3|H3].
  { split; [lia|]. intros a b Eg. specialize (H2 a b Eg). lia. }
  destruct (Z.eqb_spec (len (graphs_of inputs)) 2) as [E2|E2]; cbn [andb].
  - destruct (graphs_of inputs) as [|a [|b [|c l]]] eqn:Eg; try (unfold len in E2; cbn in E2; lia).
    cbn [map]. rewrite largest_two. destruct (Z.ltb_spec (Z.max (sv_row_count a) (sv_row_count b) * 10)
      (total_rows [a; b] * 7)) as [Hd|Hd].
    + split; [lia|]. intros a' b' [= <- <-]. lia.
    + destruct (Z.leb_spec 2 (len (scans_of inputs))), (Z.eqb_spec (st_scan_graph_min_rows st) 0),
        (Z.leb_spec (st_scan_graph_min_rows st) (total_rows (scans_of inputs))); cbn [andb negb];
        split_and!; try lia; try (by apply Hearn); intros a' b' [= <- <-]; lia.
  - destruct (Z.leb_spec 2 (len (scans_of inputs))), (Z.eqb_spec (st_scan_graph_min_rows st) 0),
      (Z.leb_spec (st_scan_graph_min_rows st) (total_rows (scans_of inputs))); cbn [andb negb];
      split_and!; try lia; try (by apply Hearn); intros a b Eg; specialize (H2 a b Eg); lia.
Qed.

(** Following the refinement plan. *)
Fixpoint refine (steps : nat) (applied : Z) : Z * list RefinementPass :=
  match steps with
  | O => (applied, [])
  | S n => match decide_refinement applied with
           | RefinementStay => (applied, [])
           | RefinementApply p =>
               let '(final, done) := refine n (passes_with applied p) in (final, p :: done)
           end
  end.

Lemma contains_testbit applied p : passes_contains applied p = Z.testbit applied (pass_index p).
Proof.
  unfold passes_contains, pass_bit. rewrite Z.shiftl_1_l.
  assert (0 ≤ pass_index p) by (by destruct p).
  destruct (Z.testbit applied (pass_index p)) eqn:E.
  - apply negb_true_iff, Z.eqb_neq. intros Hz. apply (f_equal (λ z, Z.testbit z (pass_index p))) in Hz.
    by rewrite Z.land_spec, E, Z.pow2_bits_true, Z.testbit_0_l in Hz.
  - apply negb_false_iff, Z.eqb_eq. apply Z.bits_inj'. intros n Hn. rewrite Z.land_spec, Z.testbit_0_l.
    destruct (Z.eq_dec n (pass_index p)) as [->|]; [by rewrite E|].
    by rewrite Z.pow2_bits_false, andb_false_r.
Qed.

Lemma contains_with applied p q :
  passes_contains (passes_with applied p) q
  = passes_contains applied q || (pass_index p =? pass_index q).
Proof.
  rewrite !contains_testbit. unfold passes_with, pass_bit. rewrite Z.lor_spec, Z.shiftl_1_l.
  by rewrite Z.pow2_bits_eqb by (by destruct p).
Qed.

(** C36: Following the refinement plan applies exactly the missing catalog passes,
    each once and in catalog order, and then stays; the stamps of other passes are
    untouched. *)
Theorem refinement_schedule (applied : Z) :
  let missing := List.filter (λ p, negb (passes_contains applied p)) ALL_PASSES in
  let '(final, done) := refine 5 applied in
  done = missing
  ∧ decide_refinement final = RefinementStay
  ∧ (∀ p, passes_contains final p
          = passes_contains applied p || bool_decide (pass_index p ≤ 3))
  ∧ (decide_refinement applied = RefinementStay ↔ missing = []).
Proof.
  cbn zeta. unfold refine, decide_refinement, ALL_PASSES. cbn [List.find List.filter].
  destruct (passes_contains applied Renumber) eqn:E0,
    (passes_contains applied AlphaReprune) eqn:E1, (passes_contains applied SeedRefit) eqn:E2,
    (passes_contains applied NeighborReorder) eqn:E3; cbn [negb];
    repeat (rewrite ?contains_with, ?E0, ?E1, ?E2, ?E3;
            cbn [pass_index Z.eqb Pos.eqb orb negb List.find]);
    (split_and!; [done| | |done]);
    rewrite ?contains_with, ?E0, ?E1, ?E2, ?E3; cbn [pass_index Z.eqb Pos.eqb orb negb];
    try done; intros p; destruct p; rewrite ?contains_with, ?E0, ?E1, ?E2, ?E3; cbn;
    by destruct (passes_contains applied ConnectivityRepair).
Qed.

Lemma consolidation_makes_progress_witness :
  let view g n := {| sv_has_graph := g; sv_row_count := n; sv_dims := 128; sv_scheme := 1 |} in
  let inputs := [view true 40000; view true 40000; view false 10] in
  ∃ st, consolidation_store_stats inputs None = Ok st ∧ decide_store st = Consolidate
        ∧ 2 ≤ len (graphs_of inputs).
Proof.
  intros view inputs.
  destruct (consolidation_makes_progress inputs None) as (st & E & Hp);
    [repeat constructor; cbn; by_compute|by_compute|].
  exists st. split; [exact E|]. injection E as <-. split; [by vm_compute|]. apply Hp.
Defined.
