(* ===== verification/IngestPayload.v ===== *)
(** * WAL mutation payloads

    Models [crates/zeppelin-embed/src/ingest/wal_payload.rs] (the build without
    the [graph-cypher] feature, in which operation 10 is unknown) and the
    document types of [ingest/mod.rs]: what the ingest path writes into the
    payload of a WAL record, and the decoders replay reads it back with.

    A [DocId] is its [u128], a [Revision] its [u64], an [f32] its bit pattern and
    a [String] its UTF-8 bytes.  [try_reserve_exact] succeeds: running out of
    memory is not modelled. *)

From S2P Require Import Prelude Cursor Schema Float Columns Predicate.

(** ** Documents ([ingest/mod.rs]) *)

Abbreviation DocId := Z (only parsing).
Abbreviation Revision := Z (only parsing).

Record DocumentVersion : Type := {
  dv_doc_id : DocId;
  dv_revision : Revision;
}.

#[export] Instance DocumentVersion_eq_dec : EqDecision DocumentVersion.
Proof. solve_decision. Defined.

Inductive ExpectedRevision : Type :=
| Exactly (revision : Revision)
| Absent.

#[export] Instance ExpectedRevision_eq_dec : EqDecision ExpectedRevision.
Proof. solve_decision. Defined.

Record IngestDocument : Type := {
  id_version : DocumentVersion;
  id_expected_revision : option ExpectedRevision;
  id_vector : list Z;
  id_timestamp : Z;
  id_timestamp_present : bool;
  id_metadata : bytes;
  id_metadata_present : bool;
  id_text : option bytes;
  id_columns : list (ColumnId * PredicateValue);
  id_columns_present : bool;
}.

Definition document_new (version : DocumentVersion) (vector : list Z) : IngestDocument :=
  {| id_version := version; id_expected_revision := None; id_vector := vector;
     id_timestamp := 0; id_timestamp_present := false;
     id_metadata := []; id_metadata_present := false; id_text := None;
     id_columns := []; id_columns_present := false |}.

Definition with_timestamp (timestamp : Z) (d : IngestDocument) : IngestDocument :=
  {| id_version := id_version d; id_expected_revision := id_expected_revision d;
     id_vector := id_vector d; id_timestamp := timestamp; id_timestamp_present := true;
     id_metadata := id_metadata d; id_metadata_present := id_metadata_present d;
     id_text := id_text d; id_columns := id_columns d;
     id_columns_present := id_columns_present d |}.

Definition with_metadata (metadata : bytes) (d : IngestDocument) : IngestDocument :=
  {| id_version := id_version d; id_expected_revision := id_expected_revision d;
     id_vector := id_vector d; id_timestamp := id_timestamp d;
     id_timestamp_present := id_timestamp_present d;
     id_metadata := metadata; id_metadata_present := true;
     id_text := id_text d; id_columns := id_columns d;
     id_columns_present := id_columns_present d |}.

Definition with_text (text : bytes) (d : IngestDocument) : IngestDocument :=
  {| id_version := id_version d; id_expected_revision := id_expected_revision d;
     id_vector := id_vector d; id_timestamp := id_timestamp d;
     id_timestamp_present := id_timestamp_present d;
     id_metadata := id_metadata d; id_metadata_present := id_metadata_present d;
     id_text := Some text; id_columns := id_columns d;
     id_columns_present := id_columns_present d |}.

Definition with_columns (columns : list (ColumnId * PredicateValue)) (d : IngestDocument)
    : IngestDocument :=
  {| id_version := id_version d; id_expected_revision := id_expected_revision d;
     id_vector := id_vector d; id_timestamp := id_timestamp d;
     id_timestamp_present := id_timestamp_present d;
     id_metadata := id_metadata d; id_metadata_present := id_metadata_present d;
     id_text := id_text d; id_columns := columns; id_columns_present := true |}.

Definition with_expected_revision (expected : ExpectedRevision) (d : IngestDocument)
    : IngestDocument :=
  {| id_version := id_version d; id_expected_revision := Some expected;
     id_vector := id_vector d; id_timestamp := id_timestamp d;
     id_timestamp_present := id_timestamp_present d;
     id_metadata := id_metadata d; id_metadata_present := id_metadata_present d;
     id_text := id_text d; id_columns := id_columns d;
     id_columns_present := id_columns_present d |}.

(** The borrowed inputs the row builder takes. *)
Definition column_inputs (columns : list (ColumnId * PredicateValue)) : list ColumnInput :=
  map (λ '(column, value),
         {| ci_column := column;
            ci_value := match value with
                        | PId128 v => VId128 v
                        | PU64 v => VU64 v
                        | PI64 v => VI64 v
                        | PF64 v => VF64 v
                        | PBool v => VBool v
                        | PString v => VString v
                        end |}) columns.

(** ** Operation ids and field bits *)

Definition UPSERT_V1 : Z := 1.
Definition DELETE_V1 : Z := 2.
Definition METADATA_EDIT_V1 : Z := 3.
Definition UPSERT_WITH_TIMESTAMP_V1 : Z := 4.
Definition UPSERT_WITH_METADATA_V1 : Z := 5.
Definition UPSERT_WITH_TIMESTAMP_AND_METADATA_V1 : Z := 6.
Definition UPSERT_V2 : Z := 7.
Definition UPSERT_V2_BATCH_MEMBER : Z := 8.
Definition PREPARED_MUTATION_V1 : Z := 9.
Definition GRAPH_COMMIT_V1 : Z := 10.
Definition MIXED_BATCH_MEMBER_V1 : Z := 11.

Definition UPSERT_V2_VECTOR : Z := Z.shiftl 1 0.
Definition UPSERT_V2_TEXT : Z := Z.shiftl 1 1.
Definition UPSERT_V2_TIMESTAMP : Z := Z.shiftl 1 2.
Definition UPSERT_V2_METADATA : Z := Z.shiftl 1 3.
Definition UPSERT_V2_TYPED_COLUMNS : Z := Z.shiftl 1 4.

Definition UPSERT_V2_KNOWN_FIELDS : Z :=
  Z.lor (Z.lor (Z.lor (Z.lor UPSERT_V2_VECTOR UPSERT_V2_TEXT) UPSERT_V2_TIMESTAMP)
           UPSERT_V2_METADATA) UPSERT_V2_TYPED_COLUMNS.

Definition PAYLOAD_VERSION : Z := 1.
Definition COMMON_HEADER_LEN : Z := 4.
Definition DOCUMENT_VERSION_LEN : Z := 24.
Definition UPSERT_PREFIX_LEN : Z := COMMON_HEADER_LEN + DOCUMENT_VERSION_LEN + 4.
Definition TIMESTAMPED_UPSERT_PREFIX_LEN : Z :=
  COMMON_HEADER_LEN + DOCUMENT_VERSION_LEN + 8 + 4.
Definition METADATA_UPSERT_PREFIX_LEN : Z :=
  COMMON_HEADER_LEN + DOCUMENT_VERSION_LEN + 4 + 4.
Definition TIMESTAMPED_METADATA_UPSERT_PREFIX_LEN : Z :=
  COMMON_HEADER_LEN + DOCUMENT_VERSION_LEN + 8 + 4 + 4.
Definition DELETE_PREFIX_LEN : Z := COMMON_HEADER_LEN + 4.
Definition METADATA_PREFIX_LEN : Z :=
  COMMON_HEADER_LEN + DOCUMENT_VERSION_LEN + 4 + 1 + 3 + 4.

Definition VALUE_NULL : byte := Byte.x00.
Definition VALUE_U64 : byte := Byte.x01.
Definition VALUE_I64 : byte := Byte.x02.
Definition VALUE_F64 : byte := Byte.x03.
Definition VALUE_BOOL : byte := Byte.x04.
Definition VALUE_STRING : byte := Byte.x05.
Definition VALUE_ID128 : byte := Byte.x06.

Inductive PayloadError : Type :=
| PayloadUnknownOperation (op : Z)
| PayloadTransactionBinding
| PayloadLengthOverflow
| PayloadTruncated
| PayloadVersion (version : Z)
| PayloadFlags (flags : Z)
| PayloadReserved (value : Z)
| PayloadEmptyVector
| PayloadEmptyDelete
| PayloadNonFiniteVector (index : Z)
| PayloadValueKind (kind : byte)
| PayloadValueLength (kind : byte) (expected actual : Z)
| PayloadBoolean (value : byte)
| PayloadUtf8
| PayloadTrailingBytes (count : Z)
| PayloadFieldBitmap (bitmap : Z)
| PayloadLexical (detail : string)
| PayloadColumns (detail : string)
| PayloadBatchPosition (index count : Z)
| PayloadOrphanBatchMember (index count : Z).

Inductive MetadataValue : Type :=
| MNull
| MU64 (z : Z)
| MId128 (z : Z)
| MI64 (z : Z)
| MF64 (bits : Z)
| MBool (b : bool)
| MString (s : bytes).

Record MetadataEdit : Type := {
  me_version : DocumentVersion;
  me_column : ColumnId;
  me_value : MetadataValue;
}.

Inductive MutationPayload : Type :=
| MixedBatchMember (index count op : Z) (mutation : MutationPayload)
| Upsert (document : IngestDocument)
| Delete (doc_ids : list DocId)
| EditMetadata (edit : MetadataEdit)
| BatchMember (index count : Z) (document : IngestDocument).

(** ** Encoding *)

(** [vector.iter().position(|value| !value.is_finite())]. *)
Fixpoint first_non_finite (index : Z) (vector : list Z) : option Z :=
  match vector with
  | [] => None
  | value :: vector =>
      if f32_is_finite value then first_non_finite (index + 1) vector else Some index
  end.

Definition validate_vector (vector : list Z) : result PayloadError unit :=
  match vector with
  | [] => Err PayloadEmptyVector
  | _ => match first_non_finite 0 vector with
         | Some index => Err (PayloadNonFiniteVector index)
         | None => Ok tt
         end
  end.

Definition append_header (payload : bytes) : bytes :=
  payload ++ u16_le PAYLOAD_VERSION ++ u16_le 0.

Definition append_version (payload : bytes) (version : DocumentVersion) : bytes :=
  payload ++ u128_le (dv_doc_id version) ++ u64_le (dv_revision version).

(** [for value in vector { payload.extend_from_slice(&value.to_bits().to_le_bytes()) }]. *)
Definition vector_bytes (vector : list Z) : bytes := concat (map u32_le vector).

Definition append_length_prefixed (b output : bytes) : result PayloadError bytes :=
  length ← ok_or (try_from u32_max (len b)) PayloadLengthOverflow;
  Ok (output ++ u32_le length ++ b).

Definition predicate_to_metadata (value : PredicateValue) : MetadataValue :=
  match value with
  | PId128 v => MId128 v
  | PU64 v => MU64 v
  | PI64 v => MI64 v
  | PF64 v => MF64 v
  | PBool v => MBool v
  | PString v => MString v
  end.

Definition encode_metadata_value (value : MetadataValue)
    : result PayloadError (byte * bytes) :=
  match value with
  | MNull => Ok (VALUE_NULL, [])
  | MId128 v => Ok (VALUE_ID128, u128_le v)
  | MU64 v => Ok (VALUE_U64, u64_le v)
  | MI64 v => Ok (VALUE_I64, i64_le v)
  | MF64 v => Ok (VALUE_F64, u64_le v)
  | MBool v => Ok (VALUE_BOOL, [if v then Byte.x01 else Byte.x00])
  | MString v =>
      _ ← ok_or (try_from u32_max (len v)) PayloadLengthOverflow;
      Ok (VALUE_STRING, v)
  end.

Fixpoint append_typed_columns (columns : list (ColumnId * PredicateValue)) (output : bytes)
    : result PayloadError bytes :=
  match columns with
  | [] => Ok output
  | (column, value) :: columns =>
      '(kind, body) ← encode_metadata_value (predicate_to_metadata value);
      let output := output ++ u32_le column ++ [kind] ++ replicate 3 Byte.x00 in
      output ← append_length_prefixed body output;
      append_typed_columns columns output
  end.

Definition encode_typed_columns (columns : list (ColumnId * PredicateValue)) (output : bytes)
    : result PayloadError bytes :=
  count ← ok_or (try_from u32_max (len columns)) PayloadLengthOverflow;
  append_typed_columns columns (output ++ u32_le count).

Definition encode_column_values (columns : list (ColumnId * PredicateValue))
    : result PayloadError bytes := encode_typed_columns columns [].

Definition upsert_v2_bitmap (d : IngestDocument) : Z :=
  let bitmap := UPSERT_V2_VECTOR in
  let bitmap := match id_text d with
                | Some _ => Z.lor bitmap UPSERT_V2_TEXT | None => bitmap end in
  let bitmap := if id_timestamp_present d then Z.lor bitmap UPSERT_V2_TIMESTAMP else bitmap in
  let bitmap := if id_metadata_present d then Z.lor bitmap UPSERT_V2_METADATA else bitmap in
  if id_columns_present d then Z.lor bitmap UPSERT_V2_TYPED_COLUMNS else bitmap.

Definition encode_upsert_v2 (d : IngestDocument) : result PayloadError bytes :=
  let bitmap := upsert_v2_bitmap d in
  _ ← validate_vector (id_vector d);
  dims ← ok_or (try_from u32_max (len (id_vector d))) PayloadLengthOverflow;
  let payload := append_version (u32_le bitmap) (id_version d) in
  let payload := payload ++ u32_le dims ++ vector_bytes (id_vector d) in
  payload ← match id_text d with
            | Some text => append_length_prefixed text payload
            | None => Ok payload
            end;
  let payload := if id_timestamp_present d then payload ++ i64_le (id_timestamp d)
                 else payload in
  payload ← (if id_metadata_present d then append_length_prefixed (id_metadata d) payload
             else Ok payload);
  if id_columns_present d then encode_typed_columns (id_columns d) payload else Ok payload.

Definition encode_upsert_body (d : IngestDocument) (timestamp : option Z)
    (include_metadata : bool) : result PayloadError bytes :=
  if bool_decide (id_vector d = []) then Err PayloadEmptyVector
  else
  dims ← ok_or (try_from u32_max (len (id_vector d))) PayloadLengthOverflow;
  match first_non_finite 0 (id_vector d) with
  | Some index => Err (PayloadNonFiniteVector index)
  | None =>
  vector_len ← ok_or (checked_mul usize_max (len (id_vector d)) 4) PayloadLengthOverflow;
  let prefix := match timestamp, include_metadata with
                | None, false => UPSERT_PREFIX_LEN
                | Some _, false => TIMESTAMPED_UPSERT_PREFIX_LEN
                | None, true => METADATA_UPSERT_PREFIX_LEN
                | Some _, true => TIMESTAMPED_METADATA_UPSERT_PREFIX_LEN
                end in
  _ ← ok_or (value ← checked_add usize_max prefix
                       (if include_metadata then len (id_metadata d) else 0);
             checked_add usize_max value vector_len) PayloadLengthOverflow;
  let payload := append_version (append_header []) (id_version d) in
  let payload := match timestamp with
                 | Some timestamp => payload ++ i64_le timestamp | None => payload end in
  payload ← (if include_metadata
             then metadata_len ← ok_or (try_from u32_max (len (id_metadata d)))
                                   PayloadLengthOverflow;
                  Ok (payload ++ u32_le metadata_len)
             else Ok payload);
  let payload := payload ++ u32_le dims in
  let payload := if include_metadata then payload ++ id_metadata d else payload in
  Ok (payload ++ vector_bytes (id_vector d))
  end.

Definition encode_upsert (d : IngestDocument) := encode_upsert_body d None false.
Definition encode_upsert_with_timestamp (d : IngestDocument) :=
  encode_upsert_body d (Some (id_timestamp d)) false.
Definition encode_upsert_with_metadata (d : IngestDocument) := encode_upsert_body d None true.
Definition encode_upsert_with_timestamp_and_metadata (d : IngestDocument) :=
  encode_upsert_body d (Some (id_timestamp d)) true.

Definition encode_delete (doc_ids : list DocId) : result PayloadError bytes :=
  if bool_decide (doc_ids = []) then Err PayloadEmptyDelete
  else
  count ← ok_or (try_from u32_max (len doc_ids)) PayloadLengthOverflow;
  body_bytes ← ok_or (checked_mul usize_max (len doc_ids) 16) PayloadLengthOverflow;
  _ ← ok_or (checked_add usize_max DELETE_PREFIX_LEN body_bytes) PayloadLengthOverflow;
  Ok (append_header [] ++ u32_le count ++ concat (map u128_le doc_ids)).

Definition encode_metadata_edit (edit : MetadataEdit) : result PayloadError bytes :=
  '(kind, body) ← encode_metadata_value (me_value edit);
  value_len ← ok_or (try_from u32_max (len body)) PayloadLengthOverflow;
  _ ← ok_or (checked_add usize_max METADATA_PREFIX_LEN (len body)) PayloadLengthOverflow;
  Ok (append_version (append_header []) (me_version edit) ++ u32_le (me_column edit)
      ++ [kind] ++ replicate 3 Byte.x00 ++ u32_le value_len ++ body).

Definition validate_batch_position (index count : Z) : result PayloadError unit :=
  if (count <? 2) || (count <=? index) then Err (PayloadBatchPosition index count) else Ok tt.

Definition encode_upsert_v2_batch_member (index count : Z) (upsert_v2 : bytes)
    : result PayloadError bytes :=
  _ ← validate_batch_position index count;
  Ok (u32_le index ++ u32_le count ++ upsert_v2).

Definition validate_mixed_operation (op : Z) : result PayloadError unit :=
  if (op =? DELETE_V1) || (op =? UPSERT_V2) || (op =? GRAPH_COMMIT_V1) then Ok tt
  else Err (PayloadUnknownOperation op).

Definition encode_mixed_batch_member (index count op : Z) (inner : bytes)
    : result PayloadError bytes :=
  _ ← validate_batch_position index count;
  _ ← validate_mixed_operation op;
  _ ← ok_or (checked_add usize_max (len inner) 10) PayloadLengthOverflow;
  Ok (u32_le index ++ u32_le count ++ u16_le op ++ inner).

(** ** The cursor *)

Abbreviation PayloadM := (CursorM PayloadError).

(** [Cursor::new]. *)
Definition payload_cursor (b : bytes) : Cursor := {| cu_bytes := b; cu_offset := 0 |}.

Definition read_bytes (length : Z) : PayloadM bytes :=
  cursor_take PayloadLengthOverflow PayloadTruncated length.

(** [<[u8; n]>::try_from]. *)
Definition read_array (n : Z) (b : bytes) : result PayloadError bytes :=
  if len b =? n then Ok b else Err PayloadTruncated.

Definition take_array (n : Z) : PayloadM bytes :=
  raw ← read_bytes n; lift (read_array n raw).

Definition p_u8 : PayloadM byte :=
  raw ← take_array 1; lift (ok_or (head raw) PayloadTruncated).
Definition p_u16 : PayloadM Z := raw ← take_array 2; mret (from_le raw).
Definition p_u24 : PayloadM Z :=
  raw ← take_array 3;
  match raw with
  | [low; middle; high] =>
      mret (Z.lor (Z.lor (byte_value low) (Z.shiftl (byte_value middle) 8))
              (Z.shiftl (byte_value high) 16))
  | _ => fail PayloadTruncated
  end.
Definition p_u32 : PayloadM Z := raw ← take_array 4; mret (from_le raw).
Definition p_u64 : PayloadM Z := raw ← take_array 8; mret (from_le raw).
Definition p_i64 : PayloadM Z := raw ← take_array 8; mret (i64_of_u64 (from_le raw)).
Definition p_u128 : PayloadM Z := raw ← take_array 16; mret (from_le raw).

(** [usize::try_from(cursor.read_u32()?)]. *)
Definition p_length : PayloadM Z :=
  n ← p_u32; lift (ok_or (try_from usize_max n) PayloadLengthOverflow).

Definition read_length_prefixed : PayloadM bytes := length ← p_length; read_bytes length.

Definition read_string : PayloadM bytes :=
  raw ← read_length_prefixed; if utf8_valid raw then mret raw else fail PayloadUtf8.

Definition require_header : PayloadM unit :=
  version ← p_u16;
  if negb (version =? PAYLOAD_VERSION) then fail (PayloadVersion version)
  else
  flags ← p_u16;
  if negb (flags =? 0) then fail (PayloadFlags flags) else mret tt.

Definition read_version : PayloadM DocumentVersion :=
  doc_id ← p_u128; revision ← p_u64;
  mret {| dv_doc_id := doc_id; dv_revision := revision |}.

Definition require_remaining (length : Z) : PayloadM unit :=
  with_cursor (λ c, if remaining c <? length then fail PayloadTruncated else mret tt).

Definition finish_payload : PayloadM unit :=
  with_cursor (λ c, if remaining c =? 0 then mret tt
                    else fail (PayloadTrailingBytes (remaining c))).

(** A decoder that starts a cursor on its input and drops it at the end. *)
Definition run_payload {A} (p : PayloadM A) (b : bytes) : result PayloadError A :=
  fst <$> p (payload_cursor b).

(** ** Decoding *)

Definition require_value_len (kind : byte) (body : bytes) (expected : Z)
    : result PayloadError unit :=
  if len body =? expected then Ok tt else Err (PayloadValueLength kind expected (len body)).

Definition decode_metadata_value (kind : byte) (body : bytes)
    : result PayloadError MetadataValue :=
  if bool_decide (kind = VALUE_NULL) then
    _ ← require_value_len kind body 0; Ok MNull
  else if bool_decide (kind = VALUE_ID128) then
    _ ← require_value_len kind body 16;
    raw ← read_array 16 body; Ok (MId128 (from_le raw))
  else if bool_decide (kind = VALUE_U64) then
    _ ← require_value_len kind body 8;
    raw ← read_array 8 body; Ok (MU64 (from_le raw))
  else if bool_decide (kind = VALUE_I64) then
    _ ← require_value_len kind body 8;
    raw ← read_array 8 body; Ok (MI64 (i64_of_u64 (from_le raw)))
  else if bool_decide (kind = VALUE_F64) then
    _ ← require_value_len kind body 8;
    raw ← read_array 8 body; Ok (MF64 (from_le raw))
  else if bool_decide (kind = VALUE_BOOL) then
    _ ← require_value_len kind body 1;
    value ← ok_or (head body) PayloadTruncated;
    match value with
    | Byte.x00 => Ok (MBool false)
    | Byte.x01 => Ok (MBool true)
    | _ => Err (PayloadBoolean value)
    end
  else if bool_decide (kind = VALUE_STRING) then
    if utf8_valid body then Ok (MString body) else Err PayloadUtf8
  else Err (PayloadValueKind kind).

Definition metadata_to_predicate (value : MetadataValue) : result PayloadError PredicateValue :=
  match value with
  | MNull => Err (PayloadValueKind VALUE_NULL)
  | MId128 v => Ok (PId128 v)
  | MU64 v => Ok (PU64 v)
  | MI64 v => Ok (PI64 v)
  | MF64 v => Ok (PF64 v)
  | MBool v => Ok (PBool v)
  | MString v => Ok (PString v)
  end.

Definition decode_typed_column : PayloadM (ColumnId * PredicateValue) :=
  column ← p_u32;
  kind ← p_u8;
  reserved ← p_u24;
  if negb (reserved =? 0) then fail (PayloadReserved reserved)
  else
  body ← read_length_prefixed;
  value ← lift (value ← decode_metadata_value kind body; metadata_to_predicate value);
  mret (column, value).

Definition decode_typed_columns : PayloadM (list (ColumnId * PredicateValue)) :=
  count ← p_length;
  repeat_parser (Z.to_nat count) decode_typed_column.

Definition decode_column_values (encoded : bytes)
    : result PayloadError (list (ColumnId * PredicateValue)) :=
  run_payload (columns ← decode_typed_columns; _ ← finish_payload; mret columns) encoded.

(** [for index in 0..dims] over the coordinates. *)
Fixpoint read_coordinates (n : nat) (index : Z) : PayloadM (list Z) :=
  match n with
  | O => mret []
  | S n =>
      value ← p_u32;
      if negb (f32_is_finite value) then fail (PayloadNonFiniteVector index)
      else
      rest ← read_coordinates n (index + 1);
      mret (value :: rest)
  end.

(** [if bitmap & bit != 0 { Some(..) } else { None }]. *)
Definition field_of {A} (bitmap bit : Z) (p : PayloadM A) : PayloadM (option A) :=
  if Z.land bitmap bit =? 0 then mret None else a ← p; mret (Some a).

Definition read_vector : PayloadM (list Z) :=
  dims ← p_length;
  if dims =? 0 then fail PayloadEmptyVector else read_coordinates (Z.to_nat dims) 0.

(** [if let Some(value) = value { document = document.with(value) }]. *)
Definition apply_field {A} (f : A → IngestDocument → IngestDocument) (value : option A)
    (d : IngestDocument) : IngestDocument :=
  match value with Some value => f value d | None => d end.

Definition read_upsert_v2 : PayloadM IngestDocument :=
  bitmap ← p_u32;
  let reserved := Z.ldiff bitmap UPSERT_V2_KNOWN_FIELDS in
  if negb (reserved =? 0) then fail (PayloadFieldBitmap reserved)
  else
  version ← read_version;
  vector ← field_of bitmap UPSERT_V2_VECTOR read_vector;
  text ← field_of bitmap UPSERT_V2_TEXT read_string;
  timestamp ← field_of bitmap UPSERT_V2_TIMESTAMP p_i64;
  metadata ← field_of bitmap UPSERT_V2_METADATA read_length_prefixed;
  columns ← field_of bitmap UPSERT_V2_TYPED_COLUMNS decode_typed_columns;
  _ ← finish_payload;
  mret (apply_field with_columns columns
          (apply_field with_metadata metadata
             (apply_field with_timestamp timestamp
                (apply_field with_text text
                   (document_new version (default [] vector)))))).

Definition decode_upsert_v2 (payload : bytes) : result PayloadError IngestDocument :=
  run_payload read_upsert_v2 payload.

Definition read_upsert_body (has_timestamp has_metadata : bool) : PayloadM IngestDocument :=
  _ ← require_header;
  version ← read_version;
  timestamp ← (if has_timestamp then p_i64 else mret 0);
  metadata_len ← (if has_metadata then p_length else mret 0);
  dims ← p_length;
  if dims =? 0 then fail PayloadEmptyVector
  else
  body_bytes ← lift (ok_or (checked_mul usize_max dims 4) PayloadLengthOverflow);
  needed ← lift (ok_or (checked_add usize_max metadata_len body_bytes) PayloadLengthOverflow);
  _ ← require_remaining needed;
  metadata ← read_bytes metadata_len;
  vector ← read_coordinates (Z.to_nat dims) 0;
  _ ← finish_payload;
  let document := document_new version vector in
  let document := if has_timestamp then with_timestamp timestamp document else document in
  mret (if has_metadata then with_metadata metadata document else document).

Definition decode_upsert_body (payload : bytes) (has_timestamp has_metadata : bool)
    : result PayloadError IngestDocument :=
  run_payload (read_upsert_body has_timestamp has_metadata) payload.

Definition decode_upsert (payload : bytes) := decode_upsert_body payload false false.
Definition decode_upsert_with_timestamp (payload : bytes) :=
  decode_upsert_body payload true false.
Definition decode_upsert_with_metadata (payload : bytes) :=
  decode_upsert_body payload false true.
Definition decode_upsert_with_timestamp_and_metadata (payload : bytes) :=
  decode_upsert_body payload true true.

Definition read_delete : PayloadM (list DocId) :=
  _ ← require_header;
  count ← p_length;
  if count =? 0 then fail PayloadEmptyDelete
  else
  body_bytes ← lift (ok_or (checked_mul usize_max count 16) PayloadLengthOverflow);
  _ ← require_remaining body_bytes;
  doc_ids ← repeat_parser (Z.to_nat count) p_u128;
  _ ← finish_payload;
  mret doc_ids.

Definition decode_delete (payload : bytes) : result PayloadError (list DocId) :=
  run_payload read_delete payload.

Definition read_metadata_edit : PayloadM MetadataEdit :=
  _ ← require_header;
  version ← read_version;
  column ← p_u32;
  kind ← p_u8;
  reserved ← p_u24;
  if negb (reserved =? 0) then fail (PayloadReserved reserved)
  else
  value_len ← p_length;
  body ← read_bytes value_len;
  value ← lift (decode_metadata_value kind body);
  _ ← finish_payload;
  mret {| me_version := version; me_column := column; me_value := value |}.

Definition decode_metadata_edit (payload : bytes) : result PayloadError MetadataEdit :=
  run_payload read_metadata_edit payload.

Definition decode_upsert_v2_batch_member (payload : bytes)
    : result PayloadError (Z * Z * IngestDocument) :=
  '(index, count) ← run_payload
      (index ← p_u32; count ← p_u32;
       _ ← lift (validate_batch_position index count);
       mret (index, count)) payload;
  body ← ok_or (slice_from payload 8) PayloadTruncated;
  (λ document, (index, count, document)) <$> decode_upsert_v2 body.

(** [decode_mixed_batch_member] and [decode_mutation] call each other; the
    recursion ends after one level, since [validate_mixed_operation] refuses a
    member inside a member.  Both are written over the decoder of the other, and
    [decode_mutation_mixed] is the equation of the source. *)
Definition decode_mixed_with (decode : Z → bytes → result PayloadError MutationPayload)
    (payload : bytes) : result PayloadError MutationPayload :=
  '(index, count, op) ← run_payload
      (index ← p_u32; count ← p_u32;
       _ ← lift (validate_batch_position index count);
       op ← p_u16;
       _ ← lift (validate_mixed_operation op);
       mret (index, count, op)) payload;
  inner ← ok_or (slice_from payload 10) PayloadTruncated;
  MixedBatchMember index count op <$> decode op inner.

Definition decode_mutation_with (mixed : bytes → result PayloadError MutationPayload)
    (op : Z) (payload : bytes) : result PayloadError MutationPayload :=
  if op =? MIXED_BATCH_MEMBER_V1 then mixed payload
  else if op =? UPSERT_V1 then Upsert <$> decode_upsert payload
  else if op =? DELETE_V1 then Delete <$> decode_delete payload
  else if op =? METADATA_EDIT_V1 then EditMetadata <$> decode_metadata_edit payload
  else if op =? UPSERT_WITH_TIMESTAMP_V1 then Upsert <$> decode_upsert_with_timestamp payload
  else if op =? UPSERT_WITH_METADATA_V1 then Upsert <$> decode_upsert_with_metadata payload
  else if op =? UPSERT_WITH_TIMESTAMP_AND_METADATA_V1
       then Upsert <$> decode_upsert_with_timestamp_and_metadata payload
  else if op =? UPSERT_V2 then Upsert <$> decode_upsert_v2 payload
  else if op =? UPSERT_V2_BATCH_MEMBER
       then (λ '(index, count, document), BatchMember index count document)
              <$> decode_upsert_v2_batch_member payload
  else Err (PayloadUnknownOperation op).

Definition decode_mixed_batch_member : bytes → result PayloadError MutationPayload :=
  decode_mixed_with
    (decode_mutation_with (λ _, Err (PayloadUnknownOperation MIXED_BATCH_MEMBER_V1))).

Definition decode_mutation : Z → bytes → result PayloadError MutationPayload :=
  decode_mutation_with decode_mixed_batch_member.

(** ** Prepared transactions *)

Record TransactionBinding : Type := {
  tb_transaction : Z;
  tb_participant : Z;
  tb_first_seq : Z;
  tb_last_seq : Z;
  tb_manifest_digest : Z;
  tb_final_generation : Z;
}.

#[export] Instance TransactionBinding_eq_dec : EqDecision TransactionBinding.
Proof. solve_decision. Defined.

Definition member_count (b : TransactionBinding) : result PayloadError Z :=
  if (tb_transaction b =? 0) || (tb_participant b =? 0) || (tb_first_seq b =? 0)
     || (tb_final_generation b =? 0)
  then Err PayloadTransactionBinding
  else ok_or (n ← checked_sub (tb_last_seq b) (tb_first_seq b);
              n ← checked_add u64_max n 1;
              try_from u32_max n) PayloadTransactionBinding.

Definition binding_encode (b : TransactionBinding) : result PayloadError bytes :=
  _ ← member_count b;
  Ok (u128_le (tb_transaction b) ++ u128_le (tb_participant b)
      ++ u64_le (tb_first_seq b) ++ u64_le (tb_last_seq b)
      ++ u64_le (tb_manifest_digest b) ++ u64_le (tb_final_generation b)).

Definition read_binding : PayloadM TransactionBinding :=
  transaction ← p_u128;
  participant ← p_u128;
  first_seq ← p_u64;
  last_seq ← p_u64;
  manifest_digest ← p_u64;
  final_generation ← p_u64;
  let binding := {| tb_transaction := transaction; tb_participant := participant;
                    tb_first_seq := first_seq; tb_last_seq := last_seq;
                    tb_manifest_digest := manifest_digest;
                    tb_final_generation := final_generation |} in
  _ ← finish_payload;
  mret binding.

Definition binding_decode (b : bytes) : result PayloadError TransactionBinding :=
  binding ← run_payload read_binding b;
  _ ← member_count binding;
  Ok binding.

Record PreparedMutation : Type := {
  pm_binding : TransactionBinding;
  pm_index : Z;
  pm_count : Z;
  pm_op : Z;
  pm_mutation : MutationPayload;
}.

Definition standalone_mutation (op : Z) (b : bytes) : result PayloadError MutationPayload :=
  if negb ((UPSERT_V1 <=? op) && (op <=? UPSERT_V2)) then Err (PayloadUnknownOperation op)
  else decode_mutation op b.

Definition encode_prepared (binding : TransactionBinding) (index count op : Z) (body : bytes)
    : result PayloadError bytes :=
  members ← member_count binding;
  if negb (count =? members) || (count <=? index) then Err (PayloadBatchPosition index count)
  else
  _ ← standalone_mutation op body;
  _ ← ok_or (checked_add usize_max (len body) 78) PayloadLengthOverflow;
  encoded ← binding_encode binding;
  Ok (append_header [] ++ encoded ++ u32_le index ++ u32_le count ++ u16_le op ++ body).

Definition read_prepared : PayloadM PreparedMutation :=
  _ ← require_header;
  raw ← read_bytes 64;
  binding ← lift (binding_decode raw);
  index ← p_u32;
  count ← p_u32;
  members ← lift (member_count binding);
  if negb (count =? members) || (count <=? index) then fail (PayloadBatchPosition index count)
  else
  op ← p_u16;
  body ← with_cursor (λ c, read_bytes (remaining c));
  mutation ← lift (standalone_mutation op body);
  mret {| pm_binding := binding; pm_index := index; pm_count := count; pm_op := op;
          pm_mutation := mutation |}.

Definition decode_prepared (b : bytes) : result PayloadError PreparedMutation :=
  run_payload read_prepared b.

Inductive TransactionDecision : Type := Committed | Undecided | Mismatch.

#[export] Instance TransactionDecision_eq_dec : EqDecision TransactionDecision.
Proof. solve_decision. Defined.

Definition transaction_decision (prepared : TransactionBinding)
    (selected : option TransactionBinding) : TransactionDecision :=
  match selected with
  | None => if is_ok (member_count prepared) then Undecided else Mismatch
  | Some binding =>
      if is_ok (member_count prepared) && bool_decide (binding = prepared) then Committed
      else Mismatch
  end.

(** [ingest::encode_persisted_upsert]. *)
Definition encode_persisted_upsert (d : IngestDocument) : result PayloadError (Z * bytes) :=
  payload ← encode_upsert_v2 d; Ok (UPSERT_V2, payload).
