(* ===== verification/IngestCodec.v ===== *)
(** * Round trip and typing of the WAL payload codec

    Every payload an encoder of [IngestPayload] returns is decoded to the
    mutation it was made from ([mutation_payload_roundtrip]), and whatever the
    decoder accepts, from any bytes, is well-formed
    ([decoded_mutation_well_typed]). *)

From S2P Require Import Prelude Cursor Schema Float Columns Predicate IngestPayload.

(** ** Well-formed values *)

Definition version_ok (v : DocumentVersion) : Prop :=
  is_u128 (dv_doc_id v) ∧ is_u64 (dv_revision v).

Definition metadata_value_ok (v : MetadataValue) : Prop :=
  match v with
  | MU64 z | MF64 z => is_u64 z
  | MId128 z => is_u128 z
  | MI64 z => is_i64 z
  | MString s => utf8_valid s = true
  | MNull | MBool _ => True
  end.

Definition column_ok (c : ColumnId * PredicateValue) : Prop :=
  is_u32 c.1 ∧ metadata_value_ok (predicate_to_metadata c.2).

Definition coordinate_ok (bits : Z) : Prop := is_u32 bits ∧ f32_is_finite bits = true.

(** A document as the constructors of [IngestDocument] build it: an absent field
    has its default value. *)
Record document_ok (d : IngestDocument) : Prop := {
  dk_version : version_ok (id_version d);
  dk_vector : Forall coordinate_ok (id_vector d);
  dk_timestamp : is_i64 (id_timestamp d);
  dk_no_timestamp : id_timestamp_present d = false → id_timestamp d = 0;
  dk_no_metadata : id_metadata_present d = false → id_metadata d = [];
  dk_text : ∀ t, id_text d = Some t → utf8_valid t = true;
  dk_columns : Forall column_ok (id_columns d);
  dk_no_columns : id_columns_present d = false → id_columns d = [];
}.

Definition edit_ok (e : MetadataEdit) : Prop :=
  version_ok (me_version e) ∧ is_u32 (me_column e) ∧ metadata_value_ok (me_value e).

Definition position_ok (index count : Z) : Prop :=
  is_u32 index ∧ is_u32 count ∧ 2 ≤ count ∧ index < count.

Fixpoint mutation_ok (m : MutationPayload) : Prop :=
  match m with
  | MixedBatchMember index count op m => position_ok index count ∧ is_u16 op ∧ mutation_ok m
  | Upsert d => document_ok d ∧ id_expected_revision d = None
  | Delete ids => ids ≠ [] ∧ Forall is_u128 ids
  | EditMetadata e => edit_ok e
  | BatchMember index count d =>
      position_ok index count ∧ document_ok d ∧ id_expected_revision d = None
  end.

Definition binding_ok (b : TransactionBinding) : Prop :=
  is_u128 (tb_transaction b) ∧ is_u128 (tb_participant b) ∧ is_u64 (tb_first_seq b)
  ∧ is_u64 (tb_last_seq b) ∧ is_u64 (tb_manifest_digest b) ∧ is_u64 (tb_final_generation b).

(** ** Reading fields *)

Lemma reads_take_array b n : len b = n → reads (take_array n) b b.
Proof.
  intros <-. unfold take_array, read_bytes. rewrite <- (app_nil_r b) at 2.
  eapply reads_bind; [by apply reads_take|]. apply reads_lift.
  unfold read_array. by rewrite Z.eqb_refl.
Qed.

(** A little-endian field: [n] bytes and a conversion. *)
Lemma reads_le {A} (g : bytes → A) b n v :
  len b = n → g b = v → reads (raw ← take_array n; mret (g raw)) b v.
Proof. intros Hb <-. apply reads_bind_ret. by apply reads_take_array. Qed.

Lemma reads_p_u8 b : reads p_u8 [b] b.
Proof.
  eapply (reads_bind _ _ [b] []); [by apply reads_take_array|by apply reads_lift].
Qed.

Lemma reads_p_u16 z : is_u16 z → reads p_u16 (u16_le z) z.
Proof. intros H. apply (reads_le from_le); [apply len_u16_le|by apply from_u16_le]. Qed.
Lemma reads_p_u32 z : is_u32 z → reads p_u32 (u32_le z) z.
Proof. intros H. apply (reads_le from_le); [apply len_u32_le|by apply from_u32_le]. Qed.
Lemma reads_p_u64 z : is_u64 z → reads p_u64 (u64_le z) z.
Proof. intros H. apply (reads_le from_le); [apply len_u64_le|by apply from_u64_le]. Qed.
Lemma reads_p_u128 z : is_u128 z → reads p_u128 (u128_le z) z.
Proof. intros H. apply (reads_le from_le); [apply len_u128_le|by apply from_u128_le]. Qed.
Lemma reads_p_i64 z : is_i64 z → reads p_i64 (i64_le z) z.
Proof.
  intros H. apply (reads_le (λ raw, i64_of_u64 (from_le raw)));
    [apply len_i64_le|by apply from_i64_le].
Qed.

Lemma reads_p_u24_zero : reads p_u24 (replicate 3 Byte.x00) 0.
Proof.
  unfold p_u24. rewrite <- (app_nil_r (replicate 3 Byte.x00)).
  eapply reads_bind; [by apply reads_take_array|]. apply reads_ret.
Qed.

Lemma reads_p_length z : is_u32 z → reads p_length (u32_le z) z.
Proof.
  intros H. unfold p_length. rewrite <- (app_nil_r (u32_le z)).
  eapply reads_bind; [by apply reads_p_u32|]. apply reads_lift.
  unfold try_from, is_u32, u32_max, usize_max, u64_max in *. decide_Z. done.
Qed.

(** A length-prefixed byte string. *)
Definition prefixed (b : bytes) : bytes := u32_le (len b) ++ b.

Lemma len_u32 {A} (l : list A) : len l ≤ u32_max → is_u32 (len l).
Proof. pose proof (len_nonneg l). unfold is_u32. lia. Qed.

Lemma reads_prefixed b : len b ≤ u32_max → reads read_length_prefixed (prefixed b) b.
Proof.
  intros H%len_u32. unfold read_length_prefixed, prefixed.
  eapply reads_bind; [by apply reads_p_length|]. by apply reads_take.
Qed.

Lemma reads_string_field b :
  len b ≤ u32_max → utf8_valid b = true → reads read_string (prefixed b) b.
Proof.
  intros H Hu. unfold read_string. rewrite <- (app_nil_r (prefixed b)).
  eapply reads_bind; [by apply reads_prefixed|]. rewrite Hu. apply reads_ret.
Qed.

Lemma reads_header : reads require_header (append_header []) tt.
Proof.
  unfold require_header, append_header. cbn [app].
  eapply reads_bind; [by apply reads_p_u16|]. cbn [Z.eqb negb PAYLOAD_VERSION].
  rewrite <- (app_nil_r (u16_le 0)).
  eapply reads_bind; [by apply reads_p_u16|]. apply reads_ret.
Qed.

Definition version_bytes (v : DocumentVersion) : bytes := append_version [] v.

Lemma reads_version v : version_ok v → reads read_version (version_bytes v) v.
Proof.
  intros [H1 H2]. unfold read_version, version_bytes, append_version. cbn [app].
  eapply reads_bind; [by apply reads_p_u128|].
  rewrite <- (app_nil_r (u64_le _)). eapply reads_bind; [by apply reads_p_u64|].
  destruct v. apply reads_ret.
Qed.

Lemma append_version_eq payload v : append_version payload v = payload ++ version_bytes v.
Proof. done. Qed.

Lemma reads_coordinates vector : ∀ index,
  Forall coordinate_ok vector →
  reads (read_coordinates (length vector) index) (vector_bytes vector) vector.
Proof.
  unfold vector_bytes. induction vector as [|v vector IH]; intros index H.
  - apply reads_ret.
  - apply Forall_cons in H as [[Hv Hf] H]. cbn [length read_coordinates map concat].
    eapply reads_bind; [by apply reads_p_u32|]. rewrite Hf. cbn [negb].
    by apply (reads_bind_ret _ (cons v)), IH.
Qed.

#[export] Hint Resolve reads_p_u8 reads_p_u16 reads_p_u32 reads_p_u64 reads_p_u128 reads_p_i64
  reads_p_u24_zero reads_p_length reads_prefixed reads_string_field reads_header reads_version
  len_u32 : zep.

(** Fixed-width items one after the other. *)
Lemma len_concat_width {A} (f : A → bytes) n ls :
  (∀ a, len (f a) = n) → len (concat (map f ls)) = len ls * n.
Proof.
  intros Hf. induction ls as [|z ls IH]; [done|]. cbn [map concat].
  rewrite len_app, Hf, len_cons, IH. lia.
Qed.

Lemma len_vector_bytes vector : len (vector_bytes vector) = len vector * 4.
Proof. apply len_concat_width, len_u32_le. Qed.

(** The end of the payload. *)
Lemma finish_at_end b :
  finish_payload {| cu_bytes := b; cu_offset := len b |}
  = Ok (tt, {| cu_bytes := b; cu_offset := len b |}).
Proof.
  unfold finish_payload, with_cursor, remaining, saturating_sub. cbn [cu_bytes cu_offset].
  by rewrite Z.sub_diag.
Qed.

(** [p] then [finish] then a result: the shape of every payload decoder. *)
Lemma reads_end_finish {A B} (p : PayloadM A) (g : A → B) e v :
  reads p e v → reads_end (a ← p; _ ← finish_payload; mret (g a)) e (g v).
Proof.
  intros H. eapply reads_end_then; [by apply reads_reads_end|].
  intros b. unfold mbind, cursor_bind. by rewrite finish_at_end.
Qed.

Lemma run_reads_end {A} (p : PayloadM A) b v :
  reads_end p b v → len b ≤ isize_max → run_payload p b = Ok v.
Proof.
  intros H Hl. specialize (H [] Hl). rewrite app_nil_l in H. change (len []) with 0 in H.
  unfold run_payload, payload_cursor. by rewrite H.
Qed.

Lemma run_yields {A} (p : PayloadM A) b v (Q : A → Prop) :
  run_payload p b = Ok v → yields p Q → Q v.
Proof.
  unfold run_payload. intros H Hp. destruct (p _) as [[a c]|e] eqn:E; [|done].
  injection H as <-. by eapply Hp.
Qed.

(** A step that only looks at the cursor. *)
Lemma reads_end_look {A B} (p : PayloadM A) (f : A → PayloadM B) e v1 v2 :
  (∀ pre, len (pre ++ e) ≤ isize_max →
    p {| cu_bytes := pre ++ e; cu_offset := len pre |}
    = Ok (v1, {| cu_bytes := pre ++ e; cu_offset := len pre |})) →
  reads_end (f v1) e v2 → reads_end (p ≫= f) e v2.
Proof. intros H1 H2 pre Hl. unfold mbind, cursor_bind. rewrite H1 by done. by apply H2. Qed.

Lemma require_remaining_ok n e pre :
  n ≤ len e →
  require_remaining n {| cu_bytes := pre ++ e; cu_offset := len pre |}
  = Ok (tt, {| cu_bytes := pre ++ e; cu_offset := len pre |}).
Proof.
  intros H. unfold require_remaining, with_cursor, remaining, saturating_sub.
  cbn [cu_bytes cu_offset]. rewrite len_app. pose proof (len_nonneg pre).
  pose proof (len_nonneg e). decide_Z. done.
Qed.

(** ** What the encoders return *)

(** Every length check that passed, as a fact. *)
Ltac inv_checks :=
  repeat match goal with
  | H : (_ ≫= _) = Ok _ |- _ => apply bind_Ok_inv in H as (? & ? & H)
  | H : ok_or (try_from _ _) _ = Ok _ |- _ =>
      apply ok_or_Ok, try_from_Some in H as [-> ?]
  | H : Ok _ = Ok ?x |- _ => is_var x; injection H as <-
  end.

Lemma append_length_prefixed_Ok b out r :
  append_length_prefixed b out = Ok r → r = out ++ prefixed b ∧ len b ≤ u32_max.
Proof. intros H. unfold append_length_prefixed in H. inv_checks. by split; [|lia]. Qed.

Lemma encode_metadata_value_len v k b :
  encode_metadata_value v = Ok (k, b) → len b ≤ u32_max.
Proof.
  destruct v; intros H; unfold encode_metadata_value in H; inv_checks;
    injection H as <- <-; autorewrite with zep_len; unfold u32_max in *; lia.
Qed.

Lemma metadata_value_roundtrip v k b :
  encode_metadata_value v = Ok (k, b) → metadata_value_ok v → decode_metadata_value k b = Ok v.
Proof.
  destruct v; intros H Hok; unfold encode_metadata_value in H; inv_checks;
    injection H as <- <-; unfold decode_metadata_value; cbn [metadata_value_ok] in Hok;
    repeat (rewrite bool_decide_false by done); rewrite bool_decide_true by done;
    unfold require_value_len, read_array; autorewrite with zep_len; rewrite ?Z.eqb_refl; rsimpl.
  - done.
  - by rewrite from_u64_le.
  - by rewrite from_u128_le.
  - by rewrite from_i64_le.
  - by rewrite from_u64_le.
  - by destruct b0.
  - by rewrite Hok.
Qed.

Lemma predicate_metadata_roundtrip v :
  metadata_to_predicate (predicate_to_metadata v) = Ok v.
Proof. by destruct v. Qed.

Lemma append_typed_columns_Ok columns : ∀ out r,
  append_typed_columns columns out = Ok r → Forall column_ok columns →
  ∃ enc, r = out ++ enc
         ∧ reads (repeat_parser (length columns) decode_typed_column) enc columns.
Proof.
  induction columns as [|[column value] columns IH]; intros out r H Hok.
  - injection H as <-. exists []. split; [by rewrite app_nil_r|]. apply reads_ret.
  - apply Forall_cons in Hok as [[Hc Hv] Hok]. cbn [append_typed_columns] in H.
    apply bind_Ok_inv in H as ([kind body] & Henc & H).
    apply bind_Ok_inv in H as (out' & Hp & H).
    apply append_length_prefixed_Ok in Hp as [-> Hl].
    apply IH in H as (enc & -> & Hr); [|done].
    exists ((u32_le column ++ [kind] ++ replicate 3 Byte.x00 ++ prefixed body) ++ enc).
    split; [by rewrite <- !app_assoc|]. cbn [length repeat_parser].
    eapply reads_bind; [|by apply (reads_bind_ret _ (cons (column, value)))].
    unfold decode_typed_column. cbn [fst snd] in *.
    read_field. read_field. read_field. cbn [Z.eqb negb].
    rewrite <- (app_nil_r (prefixed body)). read_field.
    eapply reads_bind_nil; [|apply reads_ret]. apply reads_lift.
    rewrite (metadata_value_roundtrip _ _ _ Henc Hv). apply predicate_metadata_roundtrip.
Qed.

Lemma encode_typed_columns_Ok columns out r :
  encode_typed_columns columns out = Ok r → Forall column_ok columns →
  ∃ enc, r = out ++ enc ∧ reads decode_typed_columns enc columns.
Proof.
  intros H Hok. unfold encode_typed_columns in H. inv_checks.
  apply append_typed_columns_Ok in H as (enc & -> & Hr); [|done].
  exists (u32_le (len columns) ++ enc). split; [by rewrite <- app_assoc|].
  unfold decode_typed_columns. eapply reads_bind; [by apply reads_p_length|].
  by rewrite to_nat_len.
Qed.

(** ** The bitmap upsert *)

(** What is persisted of a document: everything but its precondition. *)
Definition persisted (d : IngestDocument) : IngestDocument :=
  {| id_version := id_version d; id_expected_revision := None; id_vector := id_vector d;
     id_timestamp := id_timestamp d; id_timestamp_present := id_timestamp_present d;
     id_metadata := id_metadata d; id_metadata_present := id_metadata_present d;
     id_text := id_text d; id_columns := id_columns d;
     id_columns_present := id_columns_present d |}.

Definition has_bit (bitmap bit : Z) : bool := negb (Z.land bitmap bit =? 0).

(** The bitmap names exactly the fields the document has, and no other bit. *)
Lemma upsert_v2_bitmap_bits d :
  is_u32 (upsert_v2_bitmap d)
  ∧ Z.ldiff (upsert_v2_bitmap d) UPSERT_V2_KNOWN_FIELDS = 0
  ∧ has_bit (upsert_v2_bitmap d) UPSERT_V2_VECTOR = true
  ∧ has_bit (upsert_v2_bitmap d) UPSERT_V2_TEXT = bool_decide (is_Some (id_text d))
  ∧ has_bit (upsert_v2_bitmap d) UPSERT_V2_TIMESTAMP = id_timestamp_present d
  ∧ has_bit (upsert_v2_bitmap d) UPSERT_V2_METADATA = id_metadata_present d
  ∧ has_bit (upsert_v2_bitmap d) UPSERT_V2_TYPED_COLUMNS = id_columns_present d.
Proof.
  unfold upsert_v2_bitmap.
  destruct (id_text d), (id_timestamp_present d), (id_metadata_present d),
    (id_columns_present d); by_compute.
Qed.

Lemma reads_field {A} bitmap bit (p : PayloadM A) enc v :
  (has_bit bitmap bit = true → reads p enc v) →
  reads (field_of bitmap bit p)
    (if has_bit bitmap bit then enc else []) (if has_bit bitmap bit then Some v else None).
Proof.
  unfold has_bit, field_of. destruct (Z.land bitmap bit =? 0); cbn [negb]; intros H.
  - apply reads_ret.
  - by apply (reads_bind_ret _ Some), H.
Qed.

Lemma validate_vector_Ok vector :
  validate_vector vector = Ok tt → vector ≠ [] ∧ first_non_finite 0 vector = None.
Proof. unfold validate_vector. destruct vector; [done|]. by case_match. Qed.

Lemma reads_vector vector :
  vector ≠ [] → len vector ≤ u32_max → Forall coordinate_ok vector →
  reads read_vector (u32_le (len vector) ++ vector_bytes vector) vector.
Proof.
  intros Hn Hl Hok. unfold read_vector. eapply reads_bind; [eauto with zep|].
  destruct (Z.eqb_spec (len vector) 0) as [H%len_zero_nil|]; [done|].
  rewrite to_nat_len. by apply reads_coordinates.
Qed.

(** One optional field: the encoder appends [enc] exactly when the bit is set. *)
Lemma reads_present {A} bitmap bit (p : PayloadM A) enc v :
  has_bit bitmap bit = true → reads p enc v → reads (field_of bitmap bit p) enc (Some v).
Proof. intros Hb H. pose proof (reads_field bitmap bit p enc v (λ _, H)) as Hr. by rewrite Hb in Hr. Qed.

Lemma reads_absent {A} bitmap bit (p : PayloadM A) :
  has_bit bitmap bit = false → reads (field_of bitmap bit p) [] None.
Proof.
  unfold has_bit, field_of. intros H%negb_false_iff. rewrite H. apply reads_ret.
Qed.

Section UpsertV2.
Context (d : IngestDocument) (Hd : document_ok d).
Let bitmap := upsert_v2_bitmap d.

Lemma text_field payload r :
  match id_text d with
  | Some text => append_length_prefixed text payload | None => Ok payload end = Ok r →
  ∃ enc, r = payload ++ enc ∧ reads (field_of bitmap UPSERT_V2_TEXT read_string) enc (id_text d).
Proof using Hd.
  pose proof (upsert_v2_bitmap_bits d) as (_ & _ & _ & Hb & _). fold bitmap in Hb.
  pose proof (dk_text _ Hd) as Ht. destruct (id_text d) as [text|]; intros H.
  - apply append_length_prefixed_Ok in H as [-> Hl]. exists (prefixed text). split; [done|].
    apply reads_present; [by rewrite Hb|]. by apply reads_string_field; [|apply Ht].
  - injection H as <-. exists []. rewrite app_nil_r. split; [done|]. by apply reads_absent.
Qed.

Lemma timestamp_field payload :
  ∃ enc, (if id_timestamp_present d then payload ++ i64_le (id_timestamp d) else payload)
         = payload ++ enc
  ∧ reads (field_of bitmap UPSERT_V2_TIMESTAMP p_i64) enc
      (if id_timestamp_present d then Some (id_timestamp d) else None).
Proof using Hd.
  pose proof (upsert_v2_bitmap_bits d) as (_ & _ & _ & _ & Hb & _). fold bitmap in Hb.
  destruct (id_timestamp_present d).
  - exists (i64_le (id_timestamp d)). split; [done|]. apply reads_present; [done|].
    apply reads_p_i64, Hd.
  - exists []. rewrite app_nil_r. split; [done|]. by apply reads_absent.
Qed.

Lemma metadata_field payload r :
  (if id_metadata_present d then append_length_prefixed (id_metadata d) payload
   else Ok payload) = Ok r →
  ∃ enc, r = payload ++ enc
  ∧ reads (field_of bitmap UPSERT_V2_METADATA read_length_prefixed) enc
      (if id_metadata_present d then Some (id_metadata d) else None).
Proof using Type.
  pose proof (upsert_v2_bitmap_bits d) as (_ & _ & _ & _ & _ & Hb & _). fold bitmap in Hb.
  destruct (id_metadata_present d); intros H.
  - apply append_length_prefixed_Ok in H as [-> Hl]. eexists. split; [done|].
    apply reads_present; [done|]. by apply reads_prefixed.
  - injection H as <-. exists []. rewrite app_nil_r. split; [done|]. by apply reads_absent.
Qed.

Lemma columns_field payload r :
  (if id_columns_present d then encode_typed_columns (id_columns d) payload else Ok payload)
    = Ok r →
  ∃ enc, r = payload ++ enc
  ∧ reads (field_of bitmap UPSERT_V2_TYPED_COLUMNS decode_typed_columns) enc
      (if id_columns_present d then Some (id_columns d) else None).
Proof using Hd.
  pose proof (upsert_v2_bitmap_bits d) as (_ & _ & _ & _ & _ & _ & Hb). fold bitmap in Hb.
  destruct (id_columns_present d); intros H.
  - apply encode_typed_columns_Ok in H as (enc & -> & Hr); [|apply Hd].
    exists enc. split; [done|]. by apply reads_present.
  - injection H as <-. exists []. rewrite app_nil_r. split; [done|]. by apply reads_absent.
Qed.

(** The fields read back, put together by the builder methods. *)
Lemma persisted_fields :
  apply_field with_columns (if id_columns_present d then Some (id_columns d) else None)
    (apply_field with_metadata (if id_metadata_present d then Some (id_metadata d) else None)
       (apply_field with_timestamp
          (if id_timestamp_present d then Some (id_timestamp d) else None)
          (apply_field with_text (id_text d)
             (document_new (id_version d) (default [] (Some (id_vector d)))))))
  = persisted d.
Proof using Hd.
  destruct d as [v e vec ts tp md mp t c cp], Hd as [_ _ _ Hts Hmd _ _ Hc].
  unfold persisted. cbn in *.
  destruct t, tp, mp, cp; cbn; rewrite ?Hts, ?Hmd, ?Hc by done; done.
Qed.

Lemma upsert_v2_reads b : encode_upsert_v2 d = Ok b → reads_end read_upsert_v2 b (persisted d).
Proof using Hd.
  intros H. unfold encode_upsert_v2 in H. fold bitmap in H.
  apply bind_Ok_inv in H as ([] & Hvec%validate_vector_Ok & H).
  apply bind_Ok_inv in H as (dims & Hdims%ok_or_Ok%try_from_Some & H).
  destruct Hvec as [Hne _], Hdims as [-> Hl].
  apply bind_Ok_inv in H as (p1 & (et & -> & Ht)%text_field & H).
  edestruct timestamp_field as (es & Es & Hs). rewrite Es in H. clear Es.
  apply bind_Ok_inv in H as (p3 & (em & -> & Hm)%metadata_field & H).
  apply columns_field in H as (ec & -> & Hc).
  pose proof (upsert_v2_bitmap_bits d) as (Hu & Hk & Hb & _). fold bitmap in Hu, Hk, Hb.
  rewrite append_version_eq, <- !app_assoc, (app_assoc (u32_le (len _))).
  unfold read_upsert_v2. eapply reads_end_bind; [by apply reads_p_u32|].
  cbv zeta. rewrite Hk. cbn [Z.eqb negb].
  eapply reads_end_bind; [apply reads_version, Hd|].
  eapply reads_end_bind.
  { apply reads_present; [done|]. apply reads_vector; [done|lia|apply Hd]. }
  eapply reads_end_bind; [exact Ht|]. eapply reads_end_bind; [exact Hs|].
  eapply reads_end_bind; [exact Hm|].
  rewrite <- persisted_fields. apply (reads_end_finish _ (λ columns,
    apply_field with_columns columns _)). exact Hc.
Qed.
End UpsertV2.

(** ** The fixed-layout payloads *)

Definition upsert_v1_document (d : IngestDocument) (ts md : bool) : IngestDocument :=
  let document := document_new (id_version d) (id_vector d) in
  let document := if ts then with_timestamp (id_timestamp d) document else document in
  if md then with_metadata (id_metadata d) document else document.

Lemma upsert_body_reads d (ts md : bool) b :
  document_ok d →
  encode_upsert_body d (if ts then Some (id_timestamp d) else None) md = Ok b →
  reads_end (read_upsert_body ts md) b (upsert_v1_document d ts md).
Proof.
  intros Hd H. unfold encode_upsert_body in H. case_bool_decide as Hne; [done|].
  apply bind_Ok_inv in H as (dims & Hdims%ok_or_Ok%try_from_Some & H).
  destruct Hdims as [-> Hl]. case_match; [done|].
  apply bind_Ok_inv in H as (vl & Hvl%ok_or_Ok & H).
  apply bind_Ok_inv in H as (cap & _ & H).
  set (tb := if ts then i64_le (id_timestamp d) else []).
  set (mb := if md then u32_le (len (id_metadata d)) else []).
  set (body := (if md then id_metadata d else []) ++ vector_bytes (id_vector d)).
  assert ((md = true → len (id_metadata d) ≤ u32_max)
    ∧ b = append_header [] ++ version_bytes (id_version d) ++ tb ++ mb
          ++ u32_le (len (id_vector d)) ++ body) as [Hml ->].
  { destruct ts, md; inv_checks; (split; [intros; lia || done|]);
      unfold tb, mb, body; by rewrite !append_version_eq, <- ?app_assoc. }
  clear H. unfold read_upsert_body.
  eapply reads_end_bind; [apply reads_header|].
  eapply reads_end_bind; [apply reads_version, Hd|].
  eapply (reads_end_bind _ _ tb _ (if ts then id_timestamp d else 0)).
  { destruct ts; [apply reads_p_i64, Hd|apply reads_ret]. }
  eapply (reads_end_bind _ _ mb _ (if md then len (id_metadata d) else 0)).
  { destruct md; [by apply reads_p_length, len_u32, Hml|apply reads_ret]. }
  eapply reads_end_bind; [by apply reads_p_length|].
  destruct (Z.eqb_spec (len (id_vector d)) 0) as [Hz%len_zero_nil|_]; [done|].
  rewrite Hvl. eapply reads_end_bind_nil; [by apply reads_lift|].
  assert (vl = len (vector_bytes (id_vector d))) as ->.
  { rewrite len_vector_bytes. unfold checked_mul in Hvl. case_match; [|done].
    by injection Hvl as <-. }
  set (mdb := if md then id_metadata d else []) in *.
  replace (if md then len (id_metadata d) else 0) with (len mdb) by (by destruct md).
  assert (len mdb ≤ u32_max) by (destruct md; [by apply Hml|done]).
  assert (len (vector_bytes (id_vector d)) ≤ 4 * u32_max) by (rewrite len_vector_bytes; lia).
  unfold checked_add, usize_max, u32_max, u64_max in *. rewrite (proj2 (Z.leb_le _ _)) by lia.
  eapply reads_end_bind_nil; [by apply reads_lift|].
  eapply reads_end_look.
  { intros pre _. apply require_remaining_ok. unfold body. by rewrite len_app. }
  unfold body. eapply reads_end_bind; [by apply reads_take|]. rewrite to_nat_len.
  replace (upsert_v1_document d ts md) with
    (let document := document_new (id_version d) (id_vector d) in
     let document := if ts then with_timestamp (if ts then id_timestamp d else 0) document
                     else document in
     if md then with_metadata mdb document else document) by (by destruct ts, md).
  apply (reads_end_finish _ (λ vector, let document := document_new (id_version d) vector in _)).
  apply reads_coordinates, Hd.
Qed.

Lemma delete_reads ids b :
  encode_delete ids = Ok b → Forall is_u128 ids → reads_end read_delete b ids.
Proof.
  intros H Hok. unfold encode_delete in H. case_bool_decide as Hne; [done|].
  apply bind_Ok_inv in H as (count & Hc%ok_or_Ok%try_from_Some & H). destruct Hc as [-> Hl].
  apply bind_Ok_inv in H as (bb & Hbb%ok_or_Ok & H). inv_checks.
  unfold read_delete. eapply reads_end_bind; [apply reads_header|].
  eapply reads_end_bind; [by apply reads_p_length|].
  destruct (Z.eqb_spec (len ids) 0) as [Hz%len_zero_nil|_]; [done|].
  rewrite Hbb. eapply reads_end_bind_nil; [by apply reads_lift|].
  eapply reads_end_look.
  { intros pre _. apply require_remaining_ok. rewrite (len_concat_width _ 16) by apply len_u128_le.
    unfold checked_mul in Hbb. case_match; [|done]. injection Hbb as <-. lia. }
  apply (reads_end_finish _ (λ x, x)). rewrite to_nat_len.
  apply reads_repeat; [done|]. eapply Forall_impl; [exact Hok|]. intros z. apply reads_p_u128.
Qed.

Lemma metadata_edit_reads e b :
  encode_metadata_edit e = Ok b → edit_ok e → reads_end read_metadata_edit b e.
Proof.
  intros H (Hv & Hc & Hm). unfold encode_metadata_edit in H.
  apply bind_Ok_inv in H as ([kind body] & Henc & H).
  apply bind_Ok_inv in H as (vl & Hvl%ok_or_Ok%try_from_Some & H). destruct Hvl as [-> Hl].
  apply bind_Ok_inv in H as (? & _ & H). injection H as <-.
  rewrite append_version_eq, <- !app_assoc. unfold read_metadata_edit.
  eapply reads_end_bind; [apply reads_header|].
  eapply reads_end_bind; [by apply reads_version|].
  eapply reads_end_bind; [by apply reads_p_u32|].
  eapply (reads_end_bind _ _ [kind]); [apply reads_p_u8|].
  eapply (reads_end_bind _ _ (replicate 3 Byte.x00)); [apply reads_p_u24_zero|].
  cbn [Z.eqb negb].
  eapply reads_end_bind; [by apply reads_p_length|].
  rewrite <- (app_nil_r body) at 2. eapply reads_end_bind; [by apply reads_take|].
  rewrite (metadata_value_roundtrip _ _ _ Henc Hm). destruct e as [v c m].
  apply (reads_end_finish (lift (Ok m)) (λ value, Build_MetadataEdit v c value)).
  by apply reads_lift.
Qed.

(** ** Every payload kind *)

(** The encoder calls of the program, with the mutation each stands for. *)
Inductive encodes : Z → bytes → MutationPayload → Prop :=
| encodes_upsert d b :
    document_ok d → encode_upsert d = Ok b →
    encodes UPSERT_V1 b (Upsert (upsert_v1_document d false false))
| encodes_upsert_timestamp d b :
    document_ok d → encode_upsert_with_timestamp d = Ok b →
    encodes UPSERT_WITH_TIMESTAMP_V1 b (Upsert (upsert_v1_document d true false))
| encodes_upsert_metadata d b :
    document_ok d → encode_upsert_with_metadata d = Ok b →
    encodes UPSERT_WITH_METADATA_V1 b (Upsert (upsert_v1_document d false true))
| encodes_upsert_timestamp_metadata d b :
    document_ok d → encode_upsert_with_timestamp_and_metadata d = Ok b →
    encodes UPSERT_WITH_TIMESTAMP_AND_METADATA_V1 b (Upsert (upsert_v1_document d true true))
| encodes_upsert_v2 d b :
    document_ok d → encode_upsert_v2 d = Ok b → encodes UPSERT_V2 b (Upsert (persisted d))
| encodes_delete ids b :
    Forall is_u128 ids → encode_delete ids = Ok b → encodes DELETE_V1 b (Delete ids)
| encodes_metadata_edit e b :
    edit_ok e → encode_metadata_edit e = Ok b → encodes METADATA_EDIT_V1 b (EditMetadata e)
| encodes_batch_member index count d upsert b :
    is_u32 index → is_u32 count → document_ok d → encode_upsert_v2 d = Ok upsert →
    encode_upsert_v2_batch_member index count upsert = Ok b →
    encodes UPSERT_V2_BATCH_MEMBER b (BatchMember index count (persisted d))
| encodes_mixed index count op inner m b :
    is_u32 index → is_u32 count → encodes op inner m →
    encode_mixed_batch_member index count op inner = Ok b →
    encodes MIXED_BATCH_MEMBER_V1 b (MixedBatchMember index count op m).

(** A decoder that reads a prefix and looks at the rest by offset. *)
Lemma run_reads {A} (p : PayloadM A) enc rest v :
  reads p enc v → len (enc ++ rest) ≤ isize_max → run_payload p (enc ++ rest) = Ok v.
Proof.
  intros H Hl. specialize (H [] rest Hl). rewrite app_nil_l in H.
  unfold run_payload, payload_cursor. change (len []) with 0 in H. by rewrite H.
Qed.

Lemma mixed_operation_Ok op u :
  validate_mixed_operation op = Ok u →
  op = DELETE_V1 ∨ op = UPSERT_V2 ∨ op = GRAPH_COMMIT_V1.
Proof.
  unfold validate_mixed_operation. destruct (Z.eqb_spec op DELETE_V1); [by left|].
  destruct (Z.eqb_spec op UPSERT_V2); [by right; left|].
  destruct (Z.eqb_spec op GRAPH_COMMIT_V1); [by right; right|done].
Qed.

(** The recursion of the source: the operation inside a member is never a member. *)
Lemma decode_mutation_mixed payload :
  decode_mutation MIXED_BATCH_MEMBER_V1 payload = decode_mixed_with decode_mutation payload.
Proof.
  unfold decode_mutation at 1, decode_mutation_with, decode_mixed_batch_member, decode_mixed_with.
  rewrite Z.eqb_refl.
  destruct (run_payload _ _) as [[[index count] op]|e] eqn:Hrun; [|done]. rsimpl.
  destruct (slice_from payload 10) as [inner|]; [|done]. rsimpl. f_equal.
  assert (∃ u, validate_mixed_operation op = Ok u) as [u Hop%mixed_operation_Ok].
  { eapply run_yields in Hrun;
      [|do 4 (eapply yields_bind; [apply yields_true|intros ? _]);
        eapply (yields_bind _ _ (λ _, ∃ u, validate_mixed_operation _ = Ok u));
        [apply yields_lift; intros u Hu; by exists u|intros _ H;
         apply (yields_ret _ (λ r, ∃ u, validate_mixed_operation r.2 = Ok u)); exact H]].
    exact Hrun. }
  unfold decode_mutation, decode_mutation_with.
  destruct Hop as [-> | [-> | ->]]; reflexivity.
Qed.

Lemma batch_position_Ok index count u :
  validate_batch_position index count = Ok u → 2 ≤ count ∧ index < count.
Proof.
  unfold validate_batch_position.
  destruct (Z.ltb_spec count 2), (Z.leb_spec count index); try done; lia.
Qed.

(** The two-field prefix of a batch member. *)
Lemma decode_member_prefix index count upsert b :
  is_u32 index → is_u32 count → encode_upsert_v2_batch_member index count upsert = Ok b →
  len b ≤ isize_max →
  decode_upsert_v2_batch_member b
  = (λ document, (index, count, document)) <$> decode_upsert_v2 upsert.
Proof.
  intros Hi Hc H Hl. unfold encode_upsert_v2_batch_member in H.
  apply bind_Ok_inv in H as ([] & Hp & H). injection H as <-.
  unfold decode_upsert_v2_batch_member. rewrite (app_assoc (u32_le index)).
  rewrite (run_reads _ _ _ (index, count)); [| |by rewrite <- app_assoc].
  - rsimpl. by rewrite slice_from_app by (autorewrite with zep_len; lia).
  - read_field. rewrite <- (app_nil_r (u32_le count)). read_field.
    rewrite Hp. eapply reads_bind_nil; [by apply reads_lift|apply reads_ret].
Qed.

Lemma decode_encodes op b m : encodes op b m → len b ≤ isize_max → decode_mutation op b = Ok m.
Proof.
  induction 1 as [d b Hd E|d b Hd E|d b Hd E|d b Hd E|d b Hd E|ids b Hd E|e b Hd E
    |index count d upsert b Hi Hn Hd E E'|index count op inner m b Hi Hn He IH E]; intros Hl.
  1-4: match type of E with
       | encode_upsert _ = _ => apply (upsert_body_reads d false false) in E
       | encode_upsert_with_timestamp _ = _ => apply (upsert_body_reads d true false) in E
       | encode_upsert_with_metadata _ = _ => apply (upsert_body_reads d false true) in E
       | _ => apply (upsert_body_reads d true true) in E
       end; [|done]; apply run_reads_end in E; [|done];
       match type of E with
       | ?x = Ok ?y => change (Upsert <$> x = Ok (Upsert y))
       end; by rewrite E.
  - apply upsert_v2_reads in E; [|done]. apply run_reads_end in E; [|done].
    change (Upsert <$> run_payload read_upsert_v2 b = Ok (Upsert (persisted d))). by rewrite E.
  - apply delete_reads in E; [|done]. apply run_reads_end in E; [|done].
    change (Delete <$> run_payload read_delete b = Ok (Delete ids)). by rewrite E.
  - apply metadata_edit_reads in E; [|done]. apply run_reads_end in E; [|done].
    change (EditMetadata <$> run_payload read_metadata_edit b = Ok (EditMetadata e)).
    by rewrite E.
  - apply upsert_v2_reads in E; [|done].
    assert (len upsert ≤ isize_max).
    { apply bind_Ok_inv in E' as (_ & _ & E'). injection E' as <-.
      rewrite !len_app, !len_u32_le in Hl. lia. }
    apply run_reads_end in E; [|done].
    change ((λ '(index, count, document), BatchMember index count document)
              <$> decode_upsert_v2_batch_member b = Ok (BatchMember index count (persisted d))).
    rewrite (decode_member_prefix index count upsert) by done.
    unfold decode_upsert_v2. by rewrite E.
  - rewrite decode_mutation_mixed. unfold encode_mixed_batch_member in E.
    apply bind_Ok_inv in E as ([] & Hp & E). apply bind_Ok_inv in E as ([] & Ho & E).
    apply bind_Ok_inv in E as (? & _ & E). injection E as <-.
    assert (is_u16 op) by (by destruct (mixed_operation_Ok _ _ Ho) as [-> | [-> | ->]]).
    unfold decode_mixed_with. rewrite (app_assoc (u32_le index)), (app_assoc (_ ++ _)).
    rewrite (run_reads _ _ _ (index, count, op)); [| |by rewrite <- !app_assoc].
    + rsimpl. rewrite slice_from_app by (autorewrite with zep_len; lia). rsimpl.
      rewrite IH; [done|]. rewrite !len_app, !len_u32_le, len_u16_le in Hl. lia.
    + rewrite <- app_assoc. read_field. read_field. rewrite Hp.
      eapply reads_bind_nil; [by apply reads_lift|].
      rewrite <- (app_nil_r (u16_le op)). read_field. rewrite Ho.
      eapply reads_bind_nil; [by apply reads_lift|apply reads_ret].
Qed.

(** ** Prepared members *)

Lemma reads_binding b : binding_ok b → ∃ enc,
  reads_end read_binding enc b ∧ len enc = 64
  ∧ ∀ r, binding_encode b = Ok r → r = enc.
Proof.
  intros (H1 & H2 & H3 & H4 & H5 & H6). eexists. split_and!;
    [|shelve|intros r H; apply bind_Ok_inv in H as (? & _ & H); injection H as <-; reflexivity].
  - unfold read_binding. do 5 (eapply reads_end_bind; [eauto with zep|]).
    destruct b as [t p f l m g].
    apply (reads_end_finish _ (Build_TransactionBinding t p f l m)). eauto with zep.
  Unshelve. by autorewrite with zep_len.
Qed.

Lemma prepared_roundtrip binding index count op body m b :
  binding_ok binding → is_u32 index → is_u32 count → encodes op body m →
  encode_prepared binding index count op body = Ok b → len b ≤ isize_max →
  decode_prepared b = Ok {| pm_binding := binding; pm_index := index; pm_count := count;
                            pm_op := op; pm_mutation := m |}.
Proof.
  intros Hb Hi Hc He H Hl. unfold encode_prepared in H.
  apply bind_Ok_inv in H as (members & Hm & H).
  destruct (negb _ || _) eqn:Hpos; [done|].
  apply bind_Ok_inv in H as (m' & Hs & H). apply bind_Ok_inv in H as (? & _ & H).
  apply bind_Ok_inv in H as (enc & Henc & H). injection H as <-.
  destruct (reads_binding binding Hb) as (enc' & Hr & H64 & Heq).
  apply Heq in Henc as <-. clear Heq.
  assert (is_u16 op ∧ m' = m) as [Ho ->].
  { unfold standalone_mutation in Hs.
    destruct (negb ((UPSERT_V1 <=? op) && (op <=? UPSERT_V2))) eqn:Hop; [done|].
    apply negb_false_iff, andb_prop in Hop as [H1%Z.leb_le H2%Z.leb_le].
    unfold UPSERT_V1, UPSERT_V2 in *. split; [unfold is_u16, u16_max; lia|].
    rewrite (decode_encodes _ _ _ He) in Hs; [by injection Hs as <-|].
    rewrite !len_app in Hl. pose proof (len_nonneg enc). pose proof (len_nonneg (append_header [])).
    rewrite !len_u32_le, len_u16_le in Hl. lia. }
  apply run_reads_end; [|done]. unfold read_prepared.
  eapply reads_end_bind; [apply reads_header|].
  eapply reads_end_bind; [by apply reads_take|].
  eapply reads_end_bind_nil.
  { apply reads_lift. unfold binding_decode.
    rewrite (run_reads_end _ _ _ Hr) by (unfold isize_max; lia). rsimpl. by rewrite Hm. }
  do 2 (eapply reads_end_bind; [eauto with zep|]). rewrite Hm.
  eapply reads_end_bind_nil; [by apply reads_lift|]. rewrite Hpos.
  eapply reads_end_bind; [eauto with zep|].
  intros pre Hpre. unfold mbind, cursor_bind, with_cursor.
  assert (remaining {| cu_bytes := pre ++ body; cu_offset := len pre |} = len body) as ->.
  { unfold remaining, saturating_sub. cbn [cu_bytes cu_offset]. rewrite len_app.
    pose proof (len_nonneg body). lia. }
  unfold read_bytes. rewrite (reads_reads_end _ _ _ (reads_take _ _ body _ eq_refl) pre Hpre).
  by rewrite Hs.
Qed.

(** ** Typing: what the decoders return is well-formed *)

Lemma yields_take_array n : yields (take_array n) (λ b, len b = n).
Proof.
  eapply yields_bind; [apply yields_take|]. intros b Hb. apply yields_lift.
  unfold read_array. intros v H. case_match; [|done]. by injection H as <-.
Qed.

(** A little-endian field has the range of its width. *)
Lemma yields_le (g : bytes → Z) n (Q : Z → Prop) :
  (∀ b, len b = n → Q (g b)) → yields (raw ← take_array n; mret (g raw)) Q.
Proof. intros H. eapply yields_bind; [apply yields_take_array|]. intros b Hb. by apply yields_ret, H. Qed.

Lemma yields_p_u16 : yields p_u16 is_u16.
Proof.
  apply (yields_le from_le). intros b Hb%from_le_bound. unfold is_u16, u16_max. lia.
Qed.
Lemma yields_p_u32 : yields p_u32 is_u32.
Proof.
  apply (yields_le from_le). intros b Hb%from_le_bound. unfold is_u32, u32_max. lia.
Qed.
Lemma yields_p_u64 : yields p_u64 is_u64.
Proof.
  apply (yields_le from_le). intros b Hb%from_le_bound. unfold is_u64, u64_max. lia.
Qed.
Lemma yields_p_u128 : yields p_u128 is_u128.
Proof. apply (yields_le from_le). intros b Hb%from_le_bound. unfold is_u128. lia. Qed.

Lemma i64_of_u64_range b : len b = 8 → is_i64 (i64_of_u64 (from_le b)).
Proof.
  intros Hb%from_le_bound. unfold i64_of_u64, is_i64.
  destruct (Z.ltb_spec (from_le b) (2 ^ 63)); lia.
Qed.

Lemma yields_p_i64 : yields p_i64 is_i64.
Proof. apply (yields_le (λ raw, i64_of_u64 (from_le raw))), i64_of_u64_range. Qed.

Lemma yields_string : yields read_string (λ b, utf8_valid b = true).
Proof.
  eapply yields_bind; [apply yields_true|]. intros b _.
  destruct (utf8_valid b) eqn:E; [by apply yields_ret|apply yields_fail].
Qed.

Lemma yields_version : yields read_version version_ok.
Proof.
  eapply yields_bind; [apply yields_p_u128|]. intros i Hi.
  eapply yields_bind; [apply yields_p_u64|]. intros r Hr. by apply yields_ret.
Qed.

Lemma yields_coordinates n : ∀ index,
  yields (read_coordinates n index) (λ v, length v = n ∧ Forall coordinate_ok v).
Proof.
  induction n as [|n IH]; intros index; cbn [read_coordinates]; [by apply yields_ret|].
  eapply yields_bind; [apply yields_p_u32|]. intros v Hv.
  destruct (f32_is_finite v) eqn:Hf; [|apply yields_fail]. cbn [negb].
  eapply yields_bind; [apply IH|]. intros vs [Hl Hvs]. apply yields_ret.
  split; [cbn; congruence|by constructor].
Qed.

Lemma yields_vector : yields read_vector (Forall coordinate_ok).
Proof.
  eapply yields_bind; [apply yields_true|]. intros n _.
  destruct (n =? 0); [apply yields_fail|].
  eapply yields_mono; [apply yields_coordinates|]. by intros v [_ H].
Qed.

Lemma yields_field {A} bitmap bit (p : PayloadM A) (Q : A → Prop) :
  yields p Q → yields (field_of bitmap bit p) (λ o, ∀ v, o = Some v → Q v).
Proof.
  intros H. unfold field_of. destruct (_ =? 0); [by apply yields_ret|].
  eapply yields_bind; [exact H|]. intros a Ha. apply yields_ret. by intros v [= <-].
Qed.

Lemma read_array_Ok n b raw : read_array n b = Ok raw → len raw = n.
Proof. unfold read_array. destruct (Z.eqb_spec (len b) n); [|done]. by intros [= <-]. Qed.

Lemma decode_metadata_value_ok k b v : decode_metadata_value k b = Ok v → metadata_value_ok v.
Proof.
  unfold decode_metadata_value. intros H.
  repeat match type of H with
  | (if bool_decide ?P then _ else _) = _ => destruct (bool_decide P)
  end; inv_checks; try done;
    repeat match goal with
    | E : read_array _ _ = Ok _ |- _ => apply read_array_Ok in E
    end; cbn [metadata_value_ok].
  - pose proof (from_le_bound _ _ H1). unfold is_u128. lia.
  - pose proof (from_le_bound _ _ H1). unfold is_u64, u64_max. lia.
  - by apply i64_of_u64_range.
  - pose proof (from_le_bound _ _ H1). unfold is_u64, u64_max. lia.
  - destruct x0; try done; by injection H as <-.
  - destruct (utf8_valid b) eqn:Hu; [|done]. by injection H as <-.
Qed.

Lemma metadata_predicate_ok m v :
  metadata_to_predicate m = Ok v → metadata_value_ok m → metadata_value_ok (predicate_to_metadata v).
Proof. destruct m; intros H; cbn in H; simplify_eq; done. Qed.

Lemma yields_typed_columns : yields decode_typed_columns (Forall column_ok).
Proof.
  eapply yields_bind; [apply yields_true|]. intros n _.
  eapply yields_mono; [apply yields_repeat|by intros vs [_ H]].
  unfold decode_typed_column. eapply yields_bind; [apply yields_p_u32|]. intros column Hc.
  do 2 (eapply yields_bind; [apply yields_true|intros ? _]).
  destruct (negb _); [apply yields_fail|].
  eapply yields_bind; [apply yields_true|intros body _].
  eapply yields_bind; [apply yields_lift|intros v Hv; apply yields_ret; split; [exact Hc|exact Hv]].
  intros v H. apply bind_Ok_inv in H as (m & Hm%decode_metadata_value_ok & Hp).
  cbn [fst snd]. by eapply metadata_predicate_ok.
Qed.

(** A document put together from decoded fields. *)
Lemma assembled_ok version vector text timestamp metadata columns :
  version_ok version → Forall coordinate_ok vector →
  (∀ t, text = Some t → utf8_valid t = true) → (∀ t, timestamp = Some t → is_i64 t) →
  (∀ c, columns = Some c → Forall column_ok c) →
  let d := apply_field with_columns columns
             (apply_field with_metadata metadata
                (apply_field with_timestamp timestamp
                   (apply_field with_text text (document_new version vector)))) in
  document_ok d ∧ id_expected_revision d = None.
Proof.
  intros Hv Hvec Ht Hs Hc. cbv zeta.
  destruct text, timestamp, metadata, columns;
    (split; [split|]); cbn; try done; try (by apply Hs); try (by apply Hc);
    intros ? [= <-]; by apply Ht.
Qed.

Lemma yields_upsert_v2 :
  yields read_upsert_v2 (λ d, document_ok d ∧ id_expected_revision d = None).
Proof.
  unfold read_upsert_v2. eapply yields_bind; [apply yields_true|]. intros bitmap _. cbv zeta.
  destruct (negb _); [apply yields_fail|].
  eapply yields_bind; [apply yields_version|]. intros version Hv.
  eapply yields_bind; [apply yields_field, yields_vector|]. intros vector Hvec.
  eapply yields_bind; [apply yields_field, yields_string|]. intros text Ht.
  eapply yields_bind; [apply yields_field, yields_p_i64|]. intros ts Hts.
  eapply yields_bind; [apply yields_true|]. intros md _.
  eapply yields_bind; [apply yields_field, yields_typed_columns|]. intros cs Hcs.
  eapply yields_bind; [apply yields_true|]. intros _ _. apply yields_ret.
  apply assembled_ok; try done. destruct vector; [by apply Hvec|constructor].
Qed.

Lemma yields_upsert_body ts md :
  yields (read_upsert_body ts md) (λ d, document_ok d ∧ id_expected_revision d = None).
Proof.
  unfold read_upsert_body. eapply yields_bind; [apply yields_true|]. intros _ _.
  eapply yields_bind; [apply yields_version|]. intros version Hv.
  eapply (yields_bind _ _ (λ t, ts = true → is_i64 t)).
  { destruct ts; [|by apply yields_ret]. eapply yields_mono; [apply yields_p_i64|done]. }
  intros t Ht. do 2 (eapply yields_bind; [apply yields_true|intros ? _]).
  destruct (_ =? 0); [apply yields_fail|].
  do 4 (eapply yields_bind; [apply yields_true|intros ? _]).
  eapply yields_bind; [apply yields_coordinates|]. intros vector [_ Hvec].
  eapply yields_bind; [apply yields_true|]. intros _ _. apply yields_ret. cbv zeta.
  assert (∀ t', (if ts then Some t else None) = Some t' → is_i64 t') as Hts.
  { destruct ts; [|done]. intros t' [= <-]. by apply Ht. }
  destruct (assembled_ok version vector None (if ts then Some t else None)
    (if md then Some a4 else None) None Hv Hvec) as [H1 H2]; [done..|].
  by destruct ts, md.
Qed.

Lemma yields_delete : yields read_delete (λ ids, ids ≠ [] ∧ Forall is_u128 ids).
Proof.
  unfold read_delete. eapply yields_bind; [apply yields_true|]. intros _ _.
  eapply (yields_bind _ _ is_u32).
  { eapply yields_bind; [apply yields_p_u32|]. intros n Hn. apply yields_lift.
    by intros v [-> _]%ok_or_Ok%try_from_Some. }
  intros count Hc. destruct (Z.eqb_spec count 0) as [|Hne]; [apply yields_fail|].
  do 2 (eapply yields_bind; [apply yields_true|intros ? _]).
  eapply yields_bind; [apply yields_repeat, yields_p_u128|]. intros ids [Hl Hids].
  eapply yields_bind; [apply yields_true|]. intros _ _. apply yields_ret. split; [|done].
  intros ->. unfold is_u32 in Hc. cbn in Hl. lia.
Qed.

Lemma yields_metadata_edit : yields read_metadata_edit edit_ok.
Proof.
  unfold read_metadata_edit. eapply yields_bind; [apply yields_true|]. intros _ _.
  eapply yields_bind; [apply yields_version|]. intros version Hv.
  eapply yields_bind; [apply yields_p_u32|]. intros column Hc.
  do 2 (eapply yields_bind; [apply yields_true|intros ? _]).
  destruct (negb _); [apply yields_fail|].
  do 2 (eapply yields_bind; [apply yields_true|intros ? _]).
  eapply yields_bind; [apply yields_lift, decode_metadata_value_ok|]. intros v Hval.
  eapply yields_bind; [apply yields_true|]. intros _ _. by apply yields_ret.
Qed.

Lemma fmap_Ok_inv {E A B} (f : A → B) (r : result E A) b :
  f <$> r = Ok b → ∃ a, r = Ok a ∧ b = f a.
Proof. destruct r as [a|]; [|done]. intros [= <-]. by exists a. Qed.

(** The position checked in front of a member. *)
Lemma yields_position {A} (f : Z → Z → PayloadM A) (Q : A → Prop) :
  (∀ index count, position_ok index count → yields (f index count) Q) →
  yields (index ← p_u32; count ← p_u32; _ ← lift (validate_batch_position index count);
          f index count) Q.
Proof.
  intros H. eapply yields_bind; [apply yields_p_u32|]. intros index Hi.
  eapply yields_bind; [apply yields_p_u32|]. intros count Hc.
  eapply (yields_bind _ _ (λ _, 2 ≤ count ∧ index < count)).
  { apply yields_lift. intros u Hu. by eapply batch_position_Ok. }
  intros _ [H1 H2]. by apply H.
Qed.

Lemma decode_batch_member_ok b index count d :
  decode_upsert_v2_batch_member b = Ok (index, count, d) →
  position_ok index count ∧ document_ok d ∧ id_expected_revision d = None.
Proof.
  unfold decode_upsert_v2_batch_member. intros H.
  apply bind_Ok_inv in H as ([i n] & Hrun & H).
  apply bind_Ok_inv in H as (body & _ & H).
  apply fmap_Ok_inv in H as (d' & Hd & [= -> -> ->]).
  split; [|exact (run_yields _ _ _ _ Hd yields_upsert_v2)].
  apply (run_yields _ _ _ (λ p, position_ok p.1 p.2) Hrun).
  apply (yields_position (λ i n, mret (i, n))). intros index count Hp. by apply yields_ret.
Qed.

Lemma decode_plain_ok mixed op b m :
  (∀ b m, mixed b = Ok m → mutation_ok m) → decode_mutation_with mixed op b = Ok m →
  mutation_ok m.
Proof.
  intros Hmixed. unfold decode_mutation_with. intros H.
  repeat match type of H with
  | (if ?c then _ else _) = _ => destruct c
  end; try exact (Hmixed _ _ H); try done;
    apply fmap_Ok_inv in H as (v & Hv & ->); cbn [mutation_ok].
  1,4-6: exact (run_yields _ _ _ _ Hv (yields_upsert_body _ _)).
  - exact (run_yields _ _ _ _ Hv yields_delete).
  - exact (run_yields _ _ _ _ Hv yields_metadata_edit).
  - exact (run_yields _ _ _ _ Hv yields_upsert_v2).
  - destruct v as [[index count] d]. by apply decode_batch_member_ok in Hv.
Qed.

Lemma decode_mutation_ok op b m : decode_mutation op b = Ok m → mutation_ok m.
Proof.
  apply decode_plain_ok. clear. intros b m. unfold decode_mixed_batch_member, decode_mixed_with.
  intros H. apply bind_Ok_inv in H as ([[index count] op] & Hrun & H).
  apply bind_Ok_inv in H as (inner & _ & H). apply fmap_Ok_inv in H as (m' & Hm & ->).
  apply decode_plain_ok in Hm; [|done]. cbn [mutation_ok].
  cut (position_ok index count ∧ is_u16 op); [naive_solver|].
  apply (run_yields _ _ _ (λ p, position_ok p.1.1 p.1.2 ∧ is_u16 p.2) Hrun).
  apply (yields_position (λ i n, op ← p_u16; _ ← lift (validate_mixed_operation op);
                                 mret (i, n, op))).
  intros i n Hp. eapply yields_bind; [apply yields_p_u16|]. intros o Ho.
  eapply yields_bind; [apply yields_true|]. intros _ _. by apply yields_ret.
Qed.

Lemma yields_binding : yields read_binding binding_ok.
Proof.
  unfold read_binding.
  do 2 (eapply yields_bind; [apply yields_p_u128|intros ? ?]).
  do 4 (eapply yields_bind; [apply yields_p_u64|intros ? ?]).
  eapply yields_bind; [apply yields_true|]. intros _ _. by apply yields_ret.
Qed.

Definition prepared_ok (p : PreparedMutation) : Prop :=
  binding_ok (pm_binding p) ∧ member_count (pm_binding p) = Ok (pm_count p)
  ∧ 0 ≤ pm_index p < pm_count p ∧ UPSERT_V1 ≤ pm_op p ≤ UPSERT_V2
  ∧ mutation_ok (pm_mutation p).

Lemma yields_prepared : yields read_prepared prepared_ok.
Proof.
  unfold read_prepared. do 2 (eapply yields_bind; [apply yields_true|intros ? _]).
  eapply (yields_bind _ _ binding_ok).
  { apply yields_lift. intros v H. apply bind_Ok_inv in H as (b & Hb & H).
    apply bind_Ok_inv in H as (? & _ & H). injection H as <-.
    exact (run_yields _ _ _ _ Hb yields_binding). }
  intros binding Hb.
  eapply yields_bind; [apply yields_p_u32|]. intros index Hi.
  eapply yields_bind; [apply yields_p_u32|]. intros count Hc.
  eapply (yields_bind _ _ (λ n, member_count binding = Ok n)); [by apply yields_lift|].
  intros members Hm.
  destruct (Z.eqb_spec count members) as [->|]; [|apply yields_fail]. cbn [negb orb].
  destruct (Z.leb_spec members index) as [|Hlt]; [apply yields_fail|].
  do 2 (eapply yields_bind; [apply yields_true|intros ? _]).
  eapply (yields_bind _ _ (λ m, UPSERT_V1 ≤ a1 ≤ UPSERT_V2 ∧ mutation_ok m)).
  { apply yields_lift. unfold standalone_mutation. intros m H. destruct (negb _) eqn:Hop; [done|].
    apply negb_false_iff, andb_prop in Hop as [H1%Z.leb_le H2%Z.leb_le].
    split; [done|]. by eapply decode_mutation_ok. }
  intros m [Hop Hm']. apply yields_ret. unfold is_u32 in Hi. by split_and!; cbn; try lia.
Qed.

(** ** The properties *)

(** C38: Every payload an encoder of the log produces from well-typed values
    (upserts of every version, deletes, metadata edits, batch members and mixed
    members, nested ones included) decodes to the mutation it encodes, an upsert
    without the fields its version does not carry and without its revision
    condition; a prepared record decodes to its binding, index, count, operation and
    mutation. The payload need only fit in memory. *)
Theorem mutation_payload_roundtrip :
  (∀ op b m, encodes op b m → len b ≤ isize_max → decode_mutation op b = Ok m)
  ∧ (∀ binding index count op body m b,
       binding_ok binding → is_u32 index → is_u32 count → encodes op body m →
       encode_prepared binding index count op body = Ok b → len b ≤ isize_max →
       decode_prepared b = Ok {| pm_binding := binding; pm_index := index;
                                 pm_count := count; pm_op := op; pm_mutation := m |}).
Proof. split; [apply decode_encodes|apply prepared_roundtrip]. Qed.

(** C39: Whatever bytes a payload decoder accepts, the mutation it returns is
    well-typed: ids and revisions within their widths, finite vector coordinates,
    valid UTF-8 text, typed column and metadata values, no values behind an absent
    flag, no revision condition, non-empty deletes, and member indices below a count
    of at least two (for a prepared record, below the count its binding gives). *)
Theorem decoded_mutation_well_typed :
  (∀ op b m, decode_mutation op b = Ok m → mutation_ok m)
  ∧ (∀ b p, decode_prepared b = Ok p → prepared_ok p).
Proof.
  split; [apply decode_mutation_ok|]. intros b p H.
  exact (run_yields _ _ _ _ H yields_prepared).
Qed.

(** ** Witnesses *)

Module SamplePayload.
Definition version : DocumentVersion := {| dv_doc_id := 2 ^ 100; dv_revision := 3 |}.
(** 1.0 and -2.0. *)
Definition vector : list Z := [0x3F800000; 0xC0000000].
Definition document : IngestDocument :=
  with_columns [(1, PU64 9); (4, PString [Byte.x61])]
    (with_timestamp (-5) (with_text [Byte.x68; Byte.x69]
       (with_expected_revision Absent (document_new version vector)))).

Definition encoded : bytes :=
  match encode_upsert_v2 document with Ok b => b | Err _ => [] end.
Definition mixed : bytes :=
  match encode_mixed_batch_member 1 2 UPSERT_V2 encoded with Ok b => b | Err _ => [] end.

Lemma document_is_ok : document_ok document.
Proof.
  split; cbn; try done.
  - by repeat constructor.
  - intros t [= <-]. done.
  - by repeat constructor.
Qed.

Lemma encodes_sample : encodes UPSERT_V2 encoded (Upsert (persisted document)).
Proof. apply encodes_upsert_v2; [apply document_is_ok|]. by vm_compute. Qed.
End SamplePayload.

Lemma mutation_payload_roundtrip_witness :
  decode_mutation MIXED_BATCH_MEMBER_V1 SamplePayload.mixed
  = Ok (MixedBatchMember 1 2 UPSERT_V2 (Upsert (persisted SamplePayload.document))).
Proof.
  apply (proj1 mutation_payload_roundtrip).
  - apply (encodes_mixed 1 2 UPSERT_V2 SamplePayload.encoded);
      [done|done|apply SamplePayload.encodes_sample|by vm_compute].
  - by vm_compute.
Defined.

Lemma decoded_mutation_well_typed_witness :
  mutation_ok (Upsert (persisted SamplePayload.document)).
Proof. by apply (proj1 decoded_mutation_well_typed UPSERT_V2 SamplePayload.encoded). Defined.
