(* ===== verification/SegmentLayout.v ===== *)
(** * Segment regions: kinds, geometry and the alive and column codecs

    Models [crates/zeppelin-embed/src/segment/layout.rs] and the errors of
    [segment/mod.rs].  A segment file is a header, a directory of regions and
    the regions; this file has the region kinds and entries, the vector header,
    and the codecs of the alive and columns regions.  The text of an error is
    left out, its typed fields are kept. *)

From S2P Require Import Prelude Format Cursor Schema Bitmap Dict Columns.

(** ** Kinds *)

Definition REGION_ALIGNMENT : Z := 16 * 1024.
Definition CHECKSUM_CHUNK_BYTES : Z := 64 * 1024.
Definition SEGMENT_PREFIX_LEN : Z := 32.
Definition REGION_ENTRY_LEN : Z := 32.
Definition VECTOR_HEADER_LEN : Z := 32.

Inductive RegionKind : Type :=
| RegionColumns | RegionAlive | RegionVectorCodes | RegionVectorFactors | RegionVectorRescore
| RegionPostings | RegionGraphNodeBlocks | RegionGraphColocatedCodes | RegionSignPlane
| RegionPdxClusteredBlocks | RegionChecksumTable | RegionDocumentVersions
| RegionStoredMetadata | RegionStoredText | RegionVectorSpaceN.

#[export] Instance RegionKind_eq_dec : EqDecision RegionKind.
Proof. solve_decision. Defined.

Definition region_id (kind : RegionKind) : Z :=
  match kind with
  | RegionColumns => 1 | RegionAlive => 2 | RegionVectorCodes => 3 | RegionVectorFactors => 4
  | RegionVectorRescore => 5 | RegionPostings => 6 | RegionGraphNodeBlocks => 7
  | RegionGraphColocatedCodes => 8 | RegionSignPlane => 9 | RegionPdxClusteredBlocks => 10
  | RegionChecksumTable => 11 | RegionDocumentVersions => 12 | RegionStoredMetadata => 13
  | RegionStoredText => 14 | RegionVectorSpaceN => 4096
  end.

Definition region_from_id (id : Z) : option RegionKind :=
  match id with
  | 1 => Some RegionColumns | 2 => Some RegionAlive | 3 => Some RegionVectorCodes
  | 4 => Some RegionVectorFactors | 5 => Some RegionVectorRescore | 6 => Some RegionPostings
  | 7 => Some RegionGraphNodeBlocks | 8 => Some RegionGraphColocatedCodes
  | 9 => Some RegionSignPlane | 10 => Some RegionPdxClusteredBlocks
  | 11 => Some RegionChecksumTable | 12 => Some RegionDocumentVersions
  | 13 => Some RegionStoredMetadata | 14 => Some RegionStoredText
  | 4096 => Some RegionVectorSpaceN
  | _ => None
  end.

Definition region_family (kind : RegionKind) : option FormatFamily :=
  match kind with
  | RegionColumns => Some Columns
  | RegionAlive => Some Alive
  | RegionVectorCodes => Some VectorCodes
  | RegionVectorFactors => Some VectorFactors
  | RegionVectorRescore => Some VectorRescore
  | RegionPostings => Some Postings
  | RegionGraphNodeBlocks => Some GraphNodeBlocks
  | RegionDocumentVersions => Some DocumentVersions
  | RegionStoredMetadata => Some StoredMetadata
  | RegionStoredText => Some StoredText
  | RegionChecksumTable => Some ChecksumTable
  | RegionGraphColocatedCodes | RegionSignPlane | RegionPdxClusteredBlocks
  | RegionVectorSpaceN => None
  end.

Record RegionEntry : Type := {
  re_kind : Z;
  re_version : Z;
  re_reserved : Z;
  re_offset : Z;
  re_length : Z;
  re_checksum : Z;
}.

Record VectorHeader : Type := {
  vh_scheme : Z;
  vh_vector_space_id : Z;
  vh_dims : Z;
  vh_row_stride_bytes : Z;
  vh_factor_stride_bytes : Z;
  vh_transform_kind : Z;
  vh_transform_seed : Z;
  vh_row_count : Z;
  vh_reserved : Z;
}.

(** ** Errors ([segment/mod.rs]) *)

Inductive MetadataDecodeProvenance : Type :=
| ColumnsPresenceTail (column_id row_count byte_offset observed_byte allowed_mask : Z)
| ColumnsDictionaryCode (column_id row byte_offset code dictionary_cardinality : Z)
| ColumnsRawStringLength (column_id row byte_offset declared_bytes available_bytes : Z)
| AliveBitmapTruncation (row_count byte_offset declared_bytes observed_bytes : Z).

Inductive SegmentError : Type :=
| SegmentIo (path : string) (kind : ErrorKind)
| SegmentFormat (error : FormatError)
| SegmentWrongObject (artifact : string) (expected actual : bytes)
| SegmentMissingRegion (kind : RegionKind)
| SegmentGeometry
| SegmentColumns
| SegmentAlive
| SegmentMetadataSemantic (provenance : MetadataDecodeProvenance)
| SegmentGraph
| SegmentPostings.

(** ** Geometry *)

Definition vector_header_validate (h : VectorHeader) : result SegmentError unit :=
  _ ← map_err (λ _, SegmentGeometry) (require_scheme (vh_scheme h));
  if negb (vh_vector_space_id h =? 0) then Err SegmentGeometry
  else if negb (vh_transform_kind h =? 0) || negb (vh_transform_seed h =? 0) then Err SegmentGeometry
  else if negb (vh_reserved h =? 0) then Err SegmentGeometry
  else Ok tt.

Definition align_up (value alignment : Z) : result SegmentError Z :=
  let adjustment := saturating_sub alignment 1 in
  rounded ← ok_or (checked_add usize_max value adjustment) SegmentGeometry;
  Ok (rounded / alignment * alignment).

(** [usize::div_ceil]. *)
Definition div_up (a b : Z) : Z := (a + b - 1) / b.

(** ** The cursor *)

Definition SegmentM : Type → Type := CursorM SegmentError.

Definition segment_cursor (b : bytes) : Cursor := {| cu_bytes := b; cu_offset := 0 |}.

Definition s_take (length : Z) : SegmentM bytes := cursor_take SegmentColumns SegmentColumns length.
Definition s_u8 : SegmentM byte := raw ← s_take 1; lift (ok_or (head raw) SegmentColumns).
Definition s_u16 : SegmentM Z := raw ← s_take 2; mret (from_le raw).
Definition s_u32 : SegmentM Z := raw ← s_take 4; mret (from_le raw).
Definition s_u64 : SegmentM Z := raw ← s_take 8; mret (from_le raw).
Definition s_u128 : SegmentM Z := raw ← s_take 16; mret (from_le raw).
Definition s_i64 : SegmentM Z := raw ← s_take 8; mret (i64_of_u64 (from_le raw)).
Definition s_usize : SegmentM Z := n ← s_u32; lift (ok_or (try_from usize_max n) SegmentColumns).
Definition s_position : SegmentM Z :=
  with_cursor (λ c, lift (ok_or (try_from u64_max (cu_offset c)) SegmentColumns)).
Definition s_finish (error : SegmentError) : SegmentM unit :=
  with_cursor (λ c, if cu_offset c =? len (cu_bytes c) then mret tt else fail error).

Definition run_segment {A} (p : SegmentM A) (b : bytes) : result SegmentError A :=
  fst <$> p (segment_cursor b).

(** [std::str::from_utf8]. *)
Definition s_utf8 (raw : bytes) : SegmentM bytes :=
  if utf8_valid raw then mret raw else fail SegmentColumns.

(** A cursor method whose errors are renamed. *)
Definition s_map_err {A} (f : SegmentError → SegmentError) (p : SegmentM A) : SegmentM A :=
  λ c, map_err f (p c).

(** ** The vector header *)

Definition encode_vector_header (h : VectorHeader) : bytes :=
  u16_le (vh_scheme h) ++ u16_le (vh_vector_space_id h) ++ u32_le (vh_dims h)
  ++ u32_le (vh_row_stride_bytes h) ++ u16_le (vh_factor_stride_bytes h)
  ++ u16_le (vh_transform_kind h) ++ u64_le (vh_transform_seed h)
  ++ u32_le (vh_row_count h) ++ u32_le (vh_reserved h).

Definition read_vector_header : SegmentM VectorHeader :=
  scheme ← s_u16; vector_space_id ← s_u16; dims ← s_u32; row_stride_bytes ← s_u32;
  factor_stride_bytes ← s_u16; transform_kind ← s_u16; transform_seed ← s_u64;
  row_count ← s_u32; reserved ← s_u32;
  mret {| vh_scheme := scheme; vh_vector_space_id := vector_space_id; vh_dims := dims;
          vh_row_stride_bytes := row_stride_bytes;
          vh_factor_stride_bytes := factor_stride_bytes;
          vh_transform_kind := transform_kind; vh_transform_seed := transform_seed;
          vh_row_count := row_count; vh_reserved := reserved |}.

Definition decode_vector_header (b : bytes) : result SegmentError VectorHeader :=
  header ← run_segment read_vector_header b;
  _ ← vector_header_validate header;
  Ok header.

(** ** Bit maps *)

(** [*value |= 1 << (row % 8)] in byte [row / 8], when the map has that byte. *)
Definition set_bit (bits : bytes) (row : Z) : bytes :=
  alter (λ value, u8_byte (Z.lor (byte_value value) (Z.shiftl 1 (row mod 8))))
    (Z.to_nat (row / 8)) bits.

Definition bits_of (byte_len : Z) (rows : list Z) : bytes :=
  foldl set_bit (replicate (Z.to_nat byte_len) Byte.x00) rows.

Definition bit_at (bits : bytes) (row : Z) : bool :=
  match bits !! Z.to_nat (row / 8) with
  | Some value => negb (Z.land (byte_value value) (Z.shiftl 1 (row mod 8)) =? 0)
  | None => false
  end.

(** [(1 << used) - 1]: the bits of the last byte that rows own. *)
Definition allowed_mask (row_count : Z) : Z := Z.shiftl 1 (row_count mod 8) - 1.

(** The last byte has a bit set that no row owns. *)
Definition tail_bits (row_count : Z) (bits : bytes) : option Z :=
  if row_count mod 8 =? 0 then None
  else match last bits with
       | Some value =>
           if Z.ldiff (byte_value value) (allowed_mask row_count) =? 0 then None
           else Some (byte_value value)
       | None => None
       end.

(** ** The alive region *)

Section Alive.
Context {B : Type} `{Roaring B}.

Definition encode_alive (alive : AliveSet B) : bytes :=
  let byte_len := div_up (as_row_count alive) 8 in
  let bits := bits_of byte_len (iter_alive alive) in
  u32_le (as_row_count alive) ++ u32_le (len bits) ++ bits.

Definition alive_cursor_error (error : SegmentError) : SegmentError :=
  match error with SegmentColumns => SegmentAlive | other => other end.

(** The bit map, after its declared length was checked. *)
Definition read_alive_bits (row_count declared_bytes byte_len : Z) : SegmentM bytes :=
  byte_offset ← s_map_err alive_cursor_error s_position;
  with_cursor (λ c,
    if remaining c <? byte_len
    then observed_bytes ← lift (ok_or (try_from u32_max (remaining c)) SegmentAlive);
         fail (SegmentMetadataSemantic
                 (AliveBitmapTruncation row_count byte_offset declared_bytes observed_bytes))
    else s_map_err alive_cursor_error (s_take byte_len)).

Definition read_alive : SegmentM (Z * bytes) :=
  row_count ← s_map_err alive_cursor_error s_u32;
  declared_bytes ← s_map_err alive_cursor_error s_u32;
  byte_len ← lift (ok_or (try_from usize_max declared_bytes) SegmentAlive);
  if negb (byte_len =? div_up row_count 8) then fail SegmentAlive
  else
  bits ← read_alive_bits row_count declared_bytes byte_len;
  _ ← s_finish SegmentAlive;
  if bool_decide (is_Some (tail_bits row_count bits)) then fail SegmentAlive
  else mret (row_count, bits).

(** The loop that tombstones every row whose bit is clear. *)
Fixpoint bury_rows (bits : bytes) (rows : list Z) (alive : AliveSet B)
    : result SegmentError (AliveSet B) :=
  match rows with
  | [] => Ok alive
  | row :: rows =>
      if bit_at bits row then bury_rows bits rows alive
      else match tombstone row alive with
           | (alive, Ok _) => bury_rows bits rows alive
           | (_, Err _) => Err SegmentAlive
           end
  end.

Definition decode_alive (b : bytes) : result SegmentError (AliveSet B) :=
  '(row_count, bits) ← run_segment read_alive b;
  bury_rows bits (row_ids row_count) (alive_new row_count).
End Alive.

(** ** The columns region: encoding *)

Definition region_type_id (t : ColumnType) : Z :=
  match t with
  | Id128 => 7 | U64 => 1 | I64 => 2 | F64 => 3 | Bool => 4 | DictionaryString => 5
  | RawString => 6
  end.

Definition region_type_from_id (id : Z) : result SegmentError ColumnType :=
  match id with
  | 7 => Ok Id128 | 1 => Ok U64 | 2 => Ok I64 | 3 => Ok F64 | 4 => Ok Bool
  | 5 => Ok DictionaryString | 6 => Ok RawString
  | _ => Err SegmentColumns
  end.

Definition encode_string (value : bytes) : result SegmentError bytes :=
  length ← ok_or (try_from u32_max (len value)) SegmentColumns;
  Ok (u32_le length ++ value).

Definition encode_definition (d : ColumnDefinition) : result SegmentError bytes :=
  name_length ← ok_or (try_from u32_max (len (cd_name d))) SegmentColumns;
  Ok (u32_le (cd_id d) ++ u16_le (region_type_id (cd_column_type d))
      ++ u16_le (bool_byte (cd_nullable d)) ++ u32_le name_length ++ cd_name d).

(** A loop that appends what each element encodes to. *)
Definition encode_each {E A} (f : A → result E bytes) (l : list A) : result E bytes :=
  (λ l, concat l) <$> mapM f l.

Section EncodeColumns.
Context {B : Type} `{Roaring B}.

Definition encode_presence (column : Column B) (row_count : Z) : bytes :=
  bits_of (div_up row_count 8) (bitmap_iter (column_present column)).

Definition encode_code (width : CodeWidth) (code : Z) : bytes :=
  match width with WidthU16 => u16_le code | WidthU32 => u32_le code end.

Definition encode_dictionary (values : DictionaryColumn B) (row_count : Z)
    : result SegmentError bytes :=
  dictionary_length ← ok_or (try_from u32_max (dictionary_len (dc_dictionary values))) SegmentColumns;
  entries ← encode_each (λ code,
              value ← ok_or (dictionary_get (dc_dictionary values) code) SegmentColumns;
              encode_string value) (row_ids dictionary_length);
  let width := codes_width (dc_codes values) in
  Ok (u32_le dictionary_length ++ entries
      ++ u16_le (match width with WidthU16 => 2 | WidthU32 => 4 end) ++ u16_le 0
      ++ concat (map (λ row, encode_code width (default 0 (codes_get (dc_codes values) row)))
                   (row_ids row_count))).

Definition encode_region_values (column : Column B) (row_count : Z) : result SegmentError bytes :=
  match column with
  | ColId128 values =>
      Ok (concat (map (λ row, u128_le (default 0 (numeric_get values row))) (row_ids row_count)))
  | ColU64 values =>
      Ok (concat (map (λ row, u64_le (default 0 (numeric_get values row))) (row_ids row_count)))
  | ColI64 values =>
      Ok (concat (map (λ row, i64_le (default 0 (numeric_get values row))) (row_ids row_count)))
  | ColF64 values =>
      Ok (concat (map (λ row, u64_le (default 0 (numeric_get values row))) (row_ids row_count)))
  | ColBool values =>
      Ok (map (λ row, u8_byte (bool_byte (default false (bool_get values row)))) (row_ids row_count))
  | ColDictionaryString values => encode_dictionary values row_count
  | ColRawString values =>
      encode_each (λ row, encode_string (default [] (raw_string_get values row))) (row_ids row_count)
  end.

Definition encode_column (store : ColumnStore B) (d : ColumnDefinition) : result SegmentError bytes :=
  column ← ok_or (store_column store (cd_id d)) SegmentColumns;
  let presence := encode_presence column (cs_row_count store) in
  values ← encode_region_values column (cs_row_count store);
  Ok (u32_le (len presence) ++ presence ++ values).

Definition encode_columns (store : ColumnStore B) : result SegmentError bytes :=
  let columns := sc_columns (cs_schema store) in
  definitions ← encode_each encode_definition columns;
  values ← encode_each (encode_column store) columns;
  Ok (u32_le (cs_row_count store) ++ u32_le (len columns) ++ definitions ++ values).
End EncodeColumns.

(** ** The columns region: decoding *)

Inductive DecodedValues : Type :=
| DecodedU64 (values : list Z)
| DecodedId128 (values : list Z)
| DecodedI64 (values : list Z)
| DecodedF64 (values : list Z)
| DecodedBool (values : list bool)
| DecodedString (values : list bytes).

Record DecodedColumn : Type := {
  dl_definition : ColumnDefinition;
  dl_present : bytes;
  dl_values : DecodedValues;
}.

Definition read_nullable : SegmentM bool :=
  flag ← s_u16;
  match flag with
  | 0 => mret false
  | 1 => mret true
  | _ => fail SegmentColumns
  end.

Definition read_definition : SegmentM ColumnDefinition :=
  id ← s_u32;
  type_id ← s_u16;
  t ← lift (region_type_from_id type_id);
  nullable ← read_nullable;
  name_length ← s_usize;
  raw ← s_take name_length;
  name ← s_utf8 raw;
  mret {| cd_id := id; cd_name := name; cd_column_type := t; cd_nullable := nullable |}.

(** The first definition is the canonical timestamp column. *)
Definition canonical_timestamp (definitions : list ColumnDefinition) : result SegmentError unit :=
  timestamp ← ok_or (head definitions) SegmentColumns;
  if negb (cd_id timestamp =? TIMESTAMP_COLUMN)
     || negb (bool_decide (cd_name timestamp = ts_name))
     || negb (bool_decide (cd_column_type timestamp = I64)) || cd_nullable timestamp
  then Err SegmentColumns
  else Ok tt.

Definition validate_presence_tail (column_id row_count byte_offset : Z) (bits : bytes)
    : result SegmentError unit :=
  match tail_bits row_count bits with
  | Some observed_byte =>
      last_offset ← ok_or (checked_add u64_max byte_offset (saturating_sub (len bits) 1))
                      SegmentColumns;
      Err (SegmentMetadataSemantic
             (ColumnsPresenceTail column_id row_count last_offset observed_byte
                (allowed_mask row_count)))
  | None => Ok tt
  end.

Definition read_bool : SegmentM bool :=
  value ← s_u8;
  match byte_value value with
  | 0 => mret false
  | 1 => mret true
  | _ => fail SegmentColumns
  end.

(** One dictionary string; a length beyond the whole region is refused before
    it is taken. *)
Definition read_entry : SegmentM bytes :=
  declared_bytes ← s_u32;
  length ← lift (ok_or (try_from usize_max declared_bytes) SegmentColumns);
  with_cursor (λ c,
    if (remaining c <? length) && (len (cu_bytes c) <? length) then fail SegmentColumns
    else raw ← s_take length; s_utf8 raw).

Definition read_code (width : Z) : SegmentM Z :=
  match width with
  | 2 => s_u16
  | 4 => s_u32
  | _ => fail SegmentColumns
  end.

(** The value of one row of a dictionary column. *)
Definition read_code_value (column_id width dictionary_cardinality : Z) (present : bytes)
    (dictionary : list bytes) (row : Z) : SegmentM bytes :=
  byte_offset ← s_position;
  code ← read_code width;
  if bit_at present row
  then lift (ok_or (dictionary !! Z.to_nat code)
               (SegmentMetadataSemantic
                  (ColumnsDictionaryCode column_id row byte_offset code dictionary_cardinality)))
  else if negb (code =? 0) then fail SegmentColumns
  else mret [].

Definition read_dictionary (column_id row_count : Z) (present : bytes) : SegmentM (list bytes) :=
  dictionary_cardinality ← s_u32;
  dictionary_length ← lift (ok_or (try_from usize_max dictionary_cardinality) SegmentColumns);
  _ ← with_cursor (λ c,
        if (4 <=? remaining c) && (remaining c / 4 <? dictionary_length) then fail SegmentColumns
        else mret tt);
  dictionary ← repeat_parser (Z.to_nat dictionary_length) read_entry;
  width ← s_u16;
  reserved ← s_u16;
  if negb (reserved =? 0) then fail SegmentColumns
  else mapM (read_code_value column_id width dictionary_cardinality present dictionary)
         (row_ids row_count).

Definition decode_raw_string (column_id row : Z) : SegmentM bytes :=
  byte_offset ← s_position;
  declared_bytes ← s_u32;
  length ← lift (ok_or (try_from usize_max declared_bytes) SegmentColumns);
  with_cursor (λ c,
    if remaining c <? length
    then fail (SegmentMetadataSemantic
                 (ColumnsRawStringLength column_id row byte_offset declared_bytes (remaining c)))
    else raw ← s_take length; s_utf8 raw).

Definition decode_region_values (column_id : Z) (t : ColumnType) (row_count : Z) (present : bytes)
    : SegmentM DecodedValues :=
  let rows := Z.to_nat row_count in
  match t with
  | Id128 => values ← repeat_parser rows s_u128; mret (DecodedId128 values)
  | U64 => values ← repeat_parser rows s_u64; mret (DecodedU64 values)
  | I64 => values ← repeat_parser rows s_i64; mret (DecodedI64 values)
  | F64 => values ← repeat_parser rows s_u64; mret (DecodedF64 values)
  | Bool => values ← repeat_parser rows read_bool; mret (DecodedBool values)
  | DictionaryString =>
      values ← read_dictionary column_id row_count present; mret (DecodedString values)
  | RawString =>
      values ← mapM (decode_raw_string column_id) (row_ids row_count); mret (DecodedString values)
  end.

Definition read_column (row_count : Z) (d : ColumnDefinition) : SegmentM DecodedColumn :=
  presence_length ← s_usize;
  if negb (presence_length =? div_up row_count 8) then fail SegmentColumns
  else
  presence_offset ← s_position;
  present ← s_take presence_length;
  _ ← lift (validate_presence_tail (cd_id d) row_count presence_offset present);
  values ← decode_region_values (cd_id d) (cd_column_type d) row_count present;
  mret {| dl_definition := d; dl_present := present; dl_values := values |}.

Definition read_columns : SegmentM (Z * list DecodedColumn) :=
  row_count ← s_u32;
  column_count ← s_usize;
  if column_count =? 0 then fail SegmentColumns
  else
  definitions ← repeat_parser (Z.to_nat column_count) read_definition;
  _ ← lift (canonical_timestamp definitions);
  decoded ← mapM (read_column row_count) definitions;
  _ ← s_finish SegmentColumns;
  mret (row_count, decoded).

Definition decoded_value (values : DecodedValues) (row : Z) : result SegmentError ColumnValue :=
  ok_or match values with
        | DecodedId128 values => VId128 <$> values !! Z.to_nat row
        | DecodedU64 values => VU64 <$> values !! Z.to_nat row
        | DecodedI64 values => VI64 <$> values !! Z.to_nat row
        | DecodedF64 values => VF64 <$> values !! Z.to_nat row
        | DecodedBool values => VBool <$> values !! Z.to_nat row
        | DecodedString values => VString <$> values !! Z.to_nat row
        end SegmentColumns.

Definition decoded_timestamp (decoded : list DecodedColumn) (row : Z) : result SegmentError Z :=
  ok_or (column ← head decoded;
         match dl_values column with
         | DecodedI64 values => values !! Z.to_nat row
         | _ => None
         end) SegmentColumns.

(** The inputs of one row: the columns after the timestamp that have it. *)
Fixpoint decoded_inputs (decoded : list DecodedColumn) (row : Z)
    : result SegmentError (list ColumnInput) :=
  match decoded with
  | [] => Ok []
  | column :: decoded =>
      if negb (bit_at (dl_present column) row) then decoded_inputs decoded row
      else
      value ← decoded_value (dl_values column) row;
      inputs ← decoded_inputs decoded row;
      Ok ({| ci_column := cd_id (dl_definition column); ci_value := value |} :: inputs)
  end.

(** The segment's schema, or the collection's when it only adds to it. *)
Definition decoded_schema (decoded : list DecodedColumn) (collection : option Schema)
    : result SegmentError Schema :=
  schema ← map_err (λ _, SegmentColumns) (schema_new (map dl_definition (drop 1 decoded)));
  match collection with
  | None => Ok schema
  | Some collection =>
      _ ← map_err (λ _, SegmentColumns) (additive_evolution schema collection);
      Ok collection
  end.

Section DecodeColumns.
Context {B : Type} `{Roaring B}.

Fixpoint rebuild_rows (decoded : list DecodedColumn) (rows : list Z) (builder : ColumnStoreBuilder B)
    : result SegmentError (ColumnStoreBuilder B) :=
  match rows with
  | [] => Ok builder
  | row :: rows =>
      timestamp ← decoded_timestamp decoded row;
      inputs ← decoded_inputs (drop 1 decoded) row;
      match push_row timestamp inputs builder with
      | (builder, Ok _) => rebuild_rows decoded rows builder
      | (_, Err _) => Err SegmentColumns
      end
  end.

Definition decode_columns (b : bytes) (collection : option Schema)
    : result SegmentError (ColumnStore B) :=
  '(row_count, decoded) ← run_segment read_columns b;
  schema ← decoded_schema decoded collection;
  builder ← rebuild_rows decoded (row_ids row_count) (builder_new schema);
  map_err (λ _, SegmentColumns) (finish builder).
End DecodeColumns.
