(* ===== verification/SegmentLayoutSpec.v ===== *)
(** * The alive and columns regions read back

    Bit maps hold the rows they were made from; the alive region decodes to the
    same live rows and the columns region to a store with the same cells, also
    against a collection schema that added columns. *)

From coqutil Require Import Byte.
From S2P Require Import Prelude Format Cursor Schema Bitmap Dict Columns ColumnsSpec SegmentLayout.

(** ** Bytes and bits *)

Lemma byte_value_range b : 0 ≤ byte_value b < 256.
Proof. unfold byte_value. destruct b; vm_compute; split; congruence. Qed.

Lemma byte_value_u8 z : 0 ≤ z < 256 → byte_value (u8_byte z) = z.
Proof.
  intros Hz. unfold byte_value, u8_byte. change (Z.of_N (Byte.to_N ?b)) with (byte.unsigned b).
  rewrite byte.unsigned_of_Z. unfold byte.wrap. by rewrite Z.mod_small.
Qed.

Lemma shiftl_one k : 0 ≤ k → Z.shiftl 1 k = 2 ^ k.
Proof. intros Hk. by rewrite Z.shiftl_mul_pow2, Z.mul_1_l. Qed.

(** [v & (1 << k) != 0]. *)
Lemma land_bit v k : 0 ≤ k → negb (Z.land v (Z.shiftl 1 k) =? 0) = Z.testbit v k.
Proof.
  intros Hk. rewrite shiftl_one by done. destruct (Z.testbit v k) eqn:E.
  - apply negb_true_iff, Z.eqb_neq. intros Hz.
    assert (Z.testbit (Z.land v (2 ^ k)) k = true) as Ht
      by (rewrite Z.land_spec, E, Z.pow2_bits_true by done; done).
    rewrite Hz in Ht. by rewrite Z.bits_0 in Ht.
  - apply negb_false_iff, Z.eqb_eq. apply Z.bits_inj'. intros n Hn.
    rewrite Z.land_spec, Z.bits_0, Z.pow2_bits_eqb by done.
    destruct (Z.eqb_spec k n) as [<-|]; [by rewrite E|by rewrite andb_false_r].
Qed.

Lemma lor_bit_range v k : 0 ≤ v < 256 → 0 ≤ k < 8 → 0 ≤ Z.lor v (Z.shiftl 1 k) < 256.
Proof.
  intros Hv Hk. rewrite shiftl_one by lia.
  assert (0 ≤ 2 ^ k) by (apply Z.pow_nonneg; lia).
  split; [apply Z.lor_nonneg; lia|].
  destruct (Z.eq_dec (Z.lor v (2 ^ k)) 0) as [->|Hne]; [lia|].
  apply Z.log2_lt_pow2 with (b := 8); [|]; [assert (0 ≤ Z.lor v (2 ^ k)) by (apply Z.lor_nonneg; lia); lia|].
  rewrite Z.log2_lor by lia. rewrite Z.log2_pow2 by lia. apply Z.max_lub_lt; [|lia].
  destruct (Z.eq_dec v 0) as [->|]; [done|]. apply Z.log2_lt_pow2; lia.
Qed.

Lemma bit_at_test bits row :
  bit_at bits row = match bits !! Z.to_nat (row / 8) with
                    | Some value => Z.testbit (byte_value value) (row mod 8)
                    | None => false
                    end.
Proof.
  unfold bit_at. destruct (bits !! _); [|done]. apply land_bit. apply Z.mod_pos_bound. lia.
Qed.

Lemma bit_at_set bits row r :
  0 ≤ row → 0 ≤ r → r / 8 < len bits →
  bit_at (set_bit bits row) r = bool_decide (r = row) || bit_at bits r.
Proof.
  intros Hrow Hr Hl. rewrite !bit_at_test. unfold set_bit.
  assert (0 ≤ r / 8 ∧ 0 ≤ row / 8) as [H1 H2] by (split; apply Z.div_pos; lia).
  destruct (decide (row / 8 = r / 8)) as [E|E].
  - rewrite E, list_lookup_alter_eq.
    destruct (lookup_lt_is_Some_2 bits (Z.to_nat (r / 8))) as [v Hv]; [unfold len in Hl; lia|].
    rewrite Hv. cbn [fmap option_fmap option_map].
    pose proof (Z.mod_pos_bound row 8 ltac:(lia)). pose proof (Z.mod_pos_bound r 8 ltac:(lia)).
    rewrite byte_value_u8 by (apply lor_bit_range; [apply byte_value_range|done]).
    rewrite Z.lor_spec, shiftl_one, Z.pow2_bits_eqb by lia. rewrite orb_comm. f_equal.
    pose proof (Z.div_mod row 8 ltac:(lia)). pose proof (Z.div_mod r 8 ltac:(lia)).
    case_bool_decide; destruct (Z.eqb_spec (row mod 8) (r mod 8)); done || lia.
  - rewrite list_lookup_alter_ne by lia. rewrite bool_decide_eq_false_2; [done|]. by intros ->.
Qed.

Lemma len_set_bit bits row : len (set_bit bits row) = len bits.
Proof. unfold len, set_bit. by rewrite length_alter. Qed.

Lemma foldl_set_bit rows : ∀ bits,
  Forall (λ row, 0 ≤ row) rows →
  len (foldl set_bit bits rows) = len bits
  ∧ ∀ r, 0 ≤ r → r / 8 < len bits →
      bit_at (foldl set_bit bits rows) r = bool_decide (r ∈ rows) || bit_at bits r.
Proof.
  induction rows as [|row rows IH]; intros bits Hf; cbn [foldl].
  { split; [done|]. intros r _ _. by rewrite bool_decide_eq_false_2 by apply not_elem_of_nil. }
  apply Forall_cons in Hf as [Hrow Hf]. destruct (IH (set_bit bits row) Hf) as [Hl Hb].
  rewrite len_set_bit in Hl, Hb. split; [done|]. intros r Hr Hlt.
  rewrite Hb, bit_at_set by done. rewrite orb_assoc. f_equal.
  rewrite <- bool_decide_or. apply bool_decide_ext. rewrite elem_of_cons. tauto.
Qed.

Lemma bit_at_zero n r : 0 ≤ r → bit_at (replicate n Byte.x00) r = false.
Proof.
  intros Hr. rewrite bit_at_test. destruct (replicate _ _ !! _) as [v|] eqn:E; [|done].
  apply lookup_replicate in E as [-> _]. by rewrite Z.testbit_0_l.
Qed.

(** The map of a set of rows. *)
Lemma bits_of_spec n rows :
  0 ≤ n → Forall (λ row, 0 ≤ row) rows →
  len (bits_of n rows) = n
  ∧ ∀ r, 0 ≤ r → r / 8 < n → bit_at (bits_of n rows) r = bool_decide (r ∈ rows).
Proof.
  intros Hn Hf. unfold bits_of. destruct (foldl_set_bit rows (replicate (Z.to_nat n) Byte.x00) Hf) as [Hl Hb].
  assert (len (replicate (Z.to_nat n) Byte.x00) = n) as E by (unfold len; rewrite length_replicate; lia).
  rewrite E in *. split; [done|]. intros r Hr Hlt. by rewrite Hb, bit_at_zero, orb_false_r by done.
Qed.

Lemma div_up_bound n r : 0 ≤ r < n → r / 8 < div_up n 8.
Proof. intros Hr. unfold div_up. apply Z.div_lt_upper_bound; [lia|].
  pose proof (Z.div_mod (n + 8 - 1) 8 ltac:(lia)). pose proof (Z.mod_pos_bound (n + 8 - 1) 8 ltac:(lia)). lia.
Qed.

Lemma div_up_nonneg n : 0 ≤ n → 0 ≤ div_up n 8.
Proof. intros Hn. unfold div_up. apply Z.div_pos; lia. Qed.

Lemma div_up_rest n : 0 ≤ n → n mod 8 ≠ 0 → n = 8 * (div_up n 8 - 1) + n mod 8.
Proof.
  intros Hn Hm. pose proof (Z.div_mod n 8 ltac:(lia)). pose proof (Z.mod_pos_bound n 8 ltac:(lia)).
  unfold div_up. assert ((n + 8 - 1) / 8 = n / 8 + 1) as ->; [|lia].
  symmetry. apply (Z.div_unique _ _ _ (n mod 8 - 1)); lia.
Qed.

(** No bit of the map is outside the rows. *)
Lemma tail_bits_of n rows :
  Forall (λ row, 0 ≤ row < n) rows → 0 ≤ n → tail_bits n (bits_of (div_up n 8) rows) = None.
Proof.
  intros Hf Hn. unfold tail_bits. destruct (Z.eqb_spec (n mod 8) 0) as [|Hm]; [done|].
  pose proof (div_up_rest n Hn Hm) as Hrest. pose proof (Z.mod_pos_bound n 8 ltac:(lia)) as Hb.
  assert (Forall (λ row, 0 ≤ row) rows) as Hf' by (eapply Forall_impl; [exact Hf|]; cbn; lia).
  destruct (bits_of_spec (div_up n 8) rows (div_up_nonneg n Hn) Hf') as [Hl Hbit].
  destruct (last _) as [v|] eqn:E; [|done]. rewrite last_lookup in E.
  rewrite (proj2 (Z.eqb_eq _ 0)); [done|]. apply Z.bits_inj'. intros k Hk.
  rewrite Z.ldiff_spec, Z.bits_0. unfold allowed_mask. rewrite shiftl_one by lia.
  replace (2 ^ (n mod 8) - 1) with (Z.ones (n mod 8)) by (rewrite Z.ones_equiv; lia).
  rewrite Z.testbit_ones by lia.
  destruct (Z.ltb_spec k (n mod 8)); [by rewrite (proj2 (Z.leb_le 0 k) Hk), andb_false_r|].
  rewrite andb_false_r. cbn [negb]. rewrite andb_true_r.
  destruct (Z.ltb_spec k 8) as [Hk8|Hk8]; cycle 1.
  { destruct (Z.eq_dec (byte_value v) 0) as [->|Hne]; [by rewrite Z.bits_0|].
    pose proof (byte_value_range v). apply Z.bits_above_log2; [lia|].
    apply Z.lt_le_trans with 8; [|done]. apply Z.log2_lt_pow2; lia. }
  set (r := 8 * (div_up n 8 - 1) + k).
  assert (r / 8 = div_up n 8 - 1 ∧ r mod 8 = k) as [Hq Hmod].
  { subst r. split; [symmetry; apply (Z.div_unique _ _ _ k); lia|symmetry; apply (Z.mod_unique _ _ (div_up n 8 - 1)); lia]. }
  pose proof (Hbit r ltac:(lia) ltac:(lia)) as Hr. rewrite bit_at_test, Hq, Hmod in Hr.
  replace (Z.to_nat (div_up n 8 - 1)) with (pred (length (bits_of (div_up n 8) rows))) in Hr
    by (unfold len in Hl; lia).
  rewrite E in Hr. rewrite Hr. apply bool_decide_eq_false. intros Hin.
  rewrite Forall_forall in Hf. specialize (Hf r Hin). lia.
Qed.

(** ** Reading fields *)

(** The last step that reads. *)
Lemma reads_bind_last {E A C} (p : CursorM E A) (f : A → CursorM E C) e v1 v2 :
  reads p e v1 → reads (f v1) [] v2 → reads (p ≫= f) e v2.
Proof. intros H1 H2. rewrite <- (app_nil_r e). by eapply reads_bind. Qed.

Lemma reads_s_take b n : n = len b → reads (s_take n) b b.
Proof. apply reads_take. Qed.

Lemma reads_fixed {A} n (b : bytes) (g : bytes → A) v :
  len b = n → g b = v → reads (raw ← s_take n; mret (g raw)) b v.
Proof. intros Hl <-. by apply (reads_bind_ret _ g), reads_s_take. Qed.

Lemma reads_s_u16 z : is_u16 z → reads s_u16 (u16_le z) z.
Proof. intros Hz. apply reads_fixed; [apply len_u16_le|by apply from_u16_le]. Qed.
Lemma reads_s_u32 z : is_u32 z → reads s_u32 (u32_le z) z.
Proof. intros Hz. apply reads_fixed; [apply len_u32_le|by apply from_u32_le]. Qed.
Lemma reads_s_u64 z : is_u64 z → reads s_u64 (u64_le z) z.
Proof. intros Hz. apply reads_fixed; [apply len_u64_le|by apply from_u64_le]. Qed.
Lemma reads_s_u128 z : is_u128 z → reads s_u128 (u128_le z) z.
Proof. intros Hz. apply reads_fixed; [apply len_u128_le|by apply from_u128_le]. Qed.
Lemma reads_s_i64 z : is_i64 z → reads s_i64 (i64_le z) z.
Proof. intros Hz. apply reads_fixed; [apply len_i64_le|by apply from_i64_le]. Qed.

Lemma try_usize z : is_u32 z → try_from usize_max z = Some z.
Proof. unfold is_u32, try_from, usize_max, u64_max, u32_max. intros Hz. by decide_Z. Qed.

Lemma reads_s_usize z : is_u32 z → reads s_usize (u32_le z) z.
Proof.
  intros Hz. rewrite <- (app_nil_r (u32_le z)). eapply reads_bind; [by apply reads_s_u32|].
  apply reads_lift. by rewrite try_usize.
Qed.

Lemma reads_s_u8 b : reads s_u8 [b] b.
Proof.
  rewrite <- (app_nil_r [b]). eapply reads_bind; [by apply reads_s_take|]. by apply reads_lift.
Qed.

Lemma reads_s_utf8 b : utf8_valid b = true → reads (s_utf8 b) [] b.
Proof. intros Hu. unfold s_utf8. rewrite Hu. apply reads_ret. Qed.

(** The position is only part of error values. *)
Lemma reads_s_position {A} (f : Z → SegmentM A) e v :
  (∀ position, reads (f position) e v) → reads (position ← s_position; f position) e v.
Proof.
  intros Hf pre rest Hl. unfold mbind, cursor_bind, s_position, with_cursor. cbn [cu_offset].
  pose proof (len_nonneg pre). rewrite !len_app in Hl. pose proof (len_nonneg e). pose proof (len_nonneg rest).
  unfold try_from. unfold isize_max, u64_max in *. decide_Z. rsimpl. unfold lift.
  apply Hf. rewrite !len_app. unfold isize_max. lia.
Qed.

(** A check of the cursor that what follows passes. *)
Lemma reads_with_cursor {A} (f : Cursor → SegmentM A) e v :
  (∀ pre rest, len (pre ++ e ++ rest) ≤ isize_max →
     f {| cu_bytes := pre ++ e ++ rest; cu_offset := len pre |}
       {| cu_bytes := pre ++ e ++ rest; cu_offset := len pre |}
     = Ok (v, {| cu_bytes := pre ++ e ++ rest; cu_offset := len (pre ++ e) |})) →
  reads (with_cursor f) e v.
Proof. intros H pre rest Hl. by apply H. Qed.

Lemma remaining_at pre e rest :
  remaining {| cu_bytes := pre ++ e ++ rest; cu_offset := len pre |} = len e + len rest.
Proof.
  unfold remaining, saturating_sub. cbn [cu_bytes cu_offset]. rewrite !len_app.
  pose proof (len_nonneg e); pose proof (len_nonneg rest). lia.
Qed.

(** A bound on what is left that the encoding itself meets. *)
Lemma reads_guard {A} (f : Cursor → SegmentM A) (p : SegmentM A) e v :
  (∀ pre rest, f {| cu_bytes := pre ++ e ++ rest; cu_offset := len pre |} = p) →
  reads p e v → reads (with_cursor f) e v.
Proof. intros Hf Hp. apply reads_with_cursor. intros pre rest Hl. rewrite Hf. by apply Hp. Qed.

Lemma reads_map_err {A} g (p : SegmentM A) e v : reads p e v → reads (s_map_err g p) e v.
Proof. intros H pre rest Hl. unfold s_map_err. by rewrite H. Qed.

Lemma reads_mapM {A C} (f : A → SegmentM C) (enc : A → bytes) (g : A → C) l :
  Forall (λ a, reads (f a) (enc a) (g a)) l →
  reads (mapM f l) (concat (map enc l)) (map g l).
Proof.
  induction 1 as [|a l Ha _ IH]; cbn [mapM map concat]; [apply reads_ret|].
  eapply reads_bind; [exact Ha|]. by apply (reads_bind_ret _ (cons (g a))).
Qed.

(** A decoder that runs to the end of its input. *)
Lemma run_segment_end {A} (p : SegmentM A) e v :
  reads_end p e v → len e ≤ isize_max → run_segment p e = Ok v.
Proof.
  intros Hp Hl. unfold run_segment, segment_cursor. specialize (Hp [] Hl). cbn [app] in Hp.
  change 0 with (len (@nil byte)). by rewrite Hp.
Qed.

#[export] Hint Resolve reads_s_u16 reads_s_u32 reads_s_u64 reads_s_u128 reads_s_i64 reads_s_usize
  reads_s_u8 reads_s_utf8 : zep.

(** ** The vector header *)

Record vector_header_ok (h : VectorHeader) : Prop := {
  vk_valid : vector_header_validate h = Ok tt;
  vk_scheme : is_u16 (vh_scheme h);
  vk_dims : is_u32 (vh_dims h);
  vk_row_stride : is_u32 (vh_row_stride_bytes h);
  vk_factor_stride : is_u16 (vh_factor_stride_bytes h);
  vk_row_count : is_u32 (vh_row_count h);
}.

Lemma vector_header_validate_Ok h :
  vector_header_validate h = Ok tt →
  vh_vector_space_id h = 0 ∧ vh_transform_kind h = 0 ∧ vh_transform_seed h = 0 ∧ vh_reserved h = 0.
Proof.
  unfold vector_header_validate. intros H. apply bind_Ok_inv in H as (u & _ & H).
  destruct (Z.eqb_spec (vh_vector_space_id h) 0); [|done].
  destruct (Z.eqb_spec (vh_transform_kind h) 0); [|done].
  destruct (Z.eqb_spec (vh_transform_seed h) 0); [|done].
  by destruct (Z.eqb_spec (vh_reserved h) 0).
Qed.

Lemma reads_vector_header h : vector_header_ok h → reads read_vector_header (encode_vector_header h) h.
Proof.
  intros [Hv Hs Hd Hr Hf Hn]. destruct (vector_header_validate_Ok h Hv) as (E1 & E2 & E3 & E4).
  unfold read_vector_header, encode_vector_header. rewrite E1, E2, E3, E4.
  assert (is_u16 0 ∧ is_u32 0 ∧ is_u64 0) as (H16 & H32 & H64) by (by vm_compute).
  do 8 read_field. rewrite <- (app_nil_r (u32_le 0)). read_field.
  destruct h; cbn in *; subst. apply reads_ret.
Qed.

Lemma len_vector_header h : len (encode_vector_header h) = VECTOR_HEADER_LEN.
Proof. unfold encode_vector_header. autorewrite with zep_len. done. Qed.

Lemma decode_vector_header_ok h rest :
  vector_header_ok h → len (encode_vector_header h ++ rest) ≤ isize_max →
  decode_vector_header (encode_vector_header h ++ rest) = Ok h.
Proof.
  intros Hh Hl. unfold decode_vector_header, run_segment, segment_cursor.
  pose proof (reads_vector_header h Hh [] rest Hl) as E. cbn [app] in E.
  change 0 with (len (@nil byte)). rewrite E. cbn [fst fmap result_fmap]. rewrite bind_Ok.
  by rewrite (vk_valid _ Hh).
Qed.

(** ** The alive region *)

Section AliveRegion.
Context {B : Type} {R : Roaring B} {RL : RoaringLaws B}.

(** The alive sets with the same rows, live and dead. *)
Definition same_alive (a b : AliveSet B) : Prop :=
  as_row_count a = as_row_count b ∧ db_set (as_alive a) = db_set (as_alive b).

Lemma bury_rows_ok bits rows : ∀ s,
  alive_ok s → Forall (λ row, row < as_row_count s) rows →
  ∃ s', bury_rows bits rows s = Ok s' ∧ alive_ok s' ∧ as_row_count s' = as_row_count s
        ∧ ∀ x, x ∈ db_set (as_alive s') ↔ x ∈ db_set (as_alive s) ∧ (x ∈ rows → bit_at bits x = true).
Proof.
  induction rows as [|row rows IH]; intros s Hs Hf; cbn [bury_rows].
  { exists s. split_and!; [done..|]. intros x. split; [|by intros [? _]]. intros Hx. split; [done|].
    by intros ?%not_elem_of_nil. }
  apply Forall_cons in Hf as [Hr Hf]. destruct (bit_at bits row) eqn:Eb.
  - destruct (IH s Hs Hf) as (s' & -> & Hok & Hn & Hx). exists s'. split_and!; [done..|].
    intros x. rewrite Hx, elem_of_cons. split; [|naive_solver].
    intros [Ha Hb]. split; [done|]. intros [->|Hin]; [done|by apply Hb].
  - destruct (tombstone_spec row s Hs) as (s1 & E & Hok1 & Hn1 & Ha1 & _). rewrite E.
    rewrite (proj2 (Z.ltb_lt _ _) Hr). destruct (IH s1 Hok1) as (s' & -> & Hok & Hn & Hx);
      [by rewrite Hn1|]. exists s'. split_and!; [done|done|congruence|].
    intros x. rewrite Hx, Ha1, elem_of_cons. split.
    + intros [Hin Hb]. split; [set_solver|]. intros [->|Hin']; [set_solver|by apply Hb].
    + intros [Hin Hb]. split; [|naive_solver]. apply elem_of_difference. split; [done|].
      intros ->%elem_of_singleton. rewrite Hb in Eb; [done|by left].
Qed.

Lemma iter_alive_range s : alive_ok s → Forall (λ row, 0 ≤ row < as_row_count s) (iter_alive s).
Proof.
  intros Hs. apply Forall_forall. intros x Hx. apply (alive_row s); [done|]. by apply db_iter_elem.
Qed.

Lemma reads_alive_bits row_count declared bits :
  reads (read_alive_bits row_count declared (len bits)) bits bits.
Proof.
  intros pre rest Hl. unfold read_alive_bits. unfold mbind at 1, cursor_bind at 1.
  unfold s_map_err at 1, s_position, with_cursor at 1. cbn [cu_offset].
  pose proof (len_nonneg pre). pose proof (len_nonneg bits). pose proof (len_nonneg rest).
  assert (try_from u64_max (len pre) = Some (len pre)) as ->.
  { unfold try_from. rewrite !len_app in Hl. unfold isize_max, u64_max in *. by decide_Z. }
  unfold lift. rsimpl. unfold with_cursor. rewrite remaining_at. decide_Z.
  exact (reads_map_err _ _ _ _ (reads_s_take bits _ eq_refl) pre rest Hl).
Qed.

(** The alive region decodes to the set it was made from. *)
Lemma alive_region_roundtrip s :
  alive_ok s → as_row_count s ≤ u32_max →
  ∃ s', decode_alive (encode_alive s) = Ok s' ∧ alive_ok s' ∧ same_alive s' s.
Proof.
  intros Hs Hn. pose proof (al_count _ Hs) as Hn0. pose proof (iter_alive_range s Hs) as Hr.
  set (n := as_row_count s) in *. set (bits := bits_of (div_up n 8) (iter_alive s)).
  assert (Forall (λ row, 0 ≤ row) (iter_alive s)) as Hr0 by (eapply Forall_impl; [exact Hr|]; cbn; lia).
  destruct (bits_of_spec (div_up n 8) _ (div_up_nonneg n Hn0) Hr0) as [Hlen Hbit]. fold bits in Hlen, Hbit.
  assert (div_up n 8 ≤ u32_max) as Hd.
  { unfold div_up. apply Z.div_le_upper_bound; [lia|]. unfold u32_max in *. lia. }
  pose proof (div_up_nonneg n Hn0) as Hd0.
  assert (reads_end read_alive (encode_alive s) (n, bits)) as E.
  { unfold encode_alive, read_alive. fold n. change (bits_of (div_up n 8) (iter_alive s)) with bits.
    eapply reads_end_bind; [by apply reads_map_err, reads_s_u32|]. cbv beta.
    eapply reads_end_bind; [apply reads_map_err, reads_s_u32; by rewrite Hlen|]. cbv beta.
    eapply reads_end_bind_nil; [apply reads_lift; rewrite try_usize by (by rewrite Hlen); reflexivity|].
    cbv beta. rewrite Hlen, Z.eqb_refl. cbn [negb]. rewrite <- Hlen.
    eapply reads_end_then; [apply reads_reads_end, reads_alive_bits|]. intros b.
    unfold mbind, cursor_bind, s_finish, with_cursor. cbn [cu_offset cu_bytes]. rewrite Z.eqb_refl.
    subst bits. by rewrite (tail_bits_of n _ Hr Hn0). }
  unfold decode_alive. rewrite (run_segment_end _ _ _ E), bind_Ok.
  2:{ unfold encode_alive. autorewrite with zep_len. change (bits_of _ _) with bits. rewrite Hlen.
      unfold isize_max, u32_max in *. lia. }
  destruct (bury_rows_ok bits (row_ids n) (alive_new n)) as (s' & -> & Hok & Hn' & Hx);
    [by apply alive_new_ok|apply Forall_forall; intros x Hx%row_ids_elem; cbn; lia|].
  exists s'. split_and!; [done|done|]. split; [done|]. apply set_eq. intros x. rewrite Hx.
  cbn [alive_new as_alive]. rewrite db_set_full, elem_of_list_to_set, !row_ids_elem. split.
  - intros [Hin Hb]. specialize (Hb Hin). rewrite Hbit in Hb by (try apply div_up_bound; lia).
    apply bool_decide_eq_true in Hb. by apply db_iter_elem.
  - intros Hin. pose proof (alive_row s x Hs Hin) as Hxr. split; [done|]. intros _.
    rewrite Hbit by (try apply div_up_bound; lia). apply bool_decide_eq_true. by apply db_iter_elem.
Qed.
End AliveRegion.
