(* ===== verification/SegmentColumnsSpec.v ===== *)
(** * The columns region reads back

    A sealed column store encodes, and the region decodes to a store in which
    every cell reads the same; against a collection schema that adds nullable
    columns, those read as absent. *)

From S2P Require Import Prelude Format Cursor Schema Bitmap Dict Columns ColumnsSpec SegmentLayout SegmentLayoutSpec.

(** ** Cells of a row range *)

Lemma row_ids_lookup n (i : nat) : (i < Z.to_nat n)%nat → row_ids n !! i = Some (Z.of_nat i).
Proof. intros Hi. unfold row_ids. rewrite lookup_seqZ. split; [done|lia]. Qed.

Lemma length_row_ids n : length (row_ids n) = Z.to_nat n.
Proof. apply length_seqZ. Qed.

(** A loop over row numbers is a loop over what the rows hold. *)
Lemma map_row_ids {A C} (cells : list A) (f : Z → C) (g : A → C) :
  (∀ i c, cells !! i = Some c → f (Z.of_nat i) = g c) → map f (row_ids (len cells)) = map g cells.
Proof.
  intros Hfg. apply list_eq. intros i. change (map ?h) with (fmap (M:=list) h).
  rewrite !list_lookup_fmap. destruct (cells !! i) as [c|] eqn:E.
  - rewrite row_ids_lookup by (rewrite to_nat_len; by apply lookup_lt_Some in E).
    cbn. by rewrite (Hfg _ _ E).
  - rewrite (proj2 (lookup_ge_None _ _)); [done|]. rewrite length_row_ids, to_nat_len.
    by apply lookup_ge_None.
Qed.

Lemma mapM_Ok_map {E A C} (f : A → result E C) (g : A → C) l :
  Forall (λ a, f a = Ok (g a)) l → mapM f l = Ok (map g l).
Proof. induction 1 as [|a l Ha _ IH]; [done|]. cbn [mapM map]. rewrite Ha, bind_Ok. by rewrite IH. Qed.

Lemma encode_each_Ok {E A} (f : A → result E bytes) (g : A → bytes) l :
  Forall (λ a, f a = Ok (g a)) l → encode_each f l = Ok (concat (map g l)).
Proof. intros Hf. unfold encode_each. by rewrite (mapM_Ok_map f g l Hf). Qed.

Lemma Forall_row_ids {A} (cells : list A) (P : Z → Prop) :
  (∀ i c, cells !! i = Some c → P (Z.of_nat i)) → Forall P (row_ids (len cells)).
Proof.
  intros Hp. apply Forall_forall. intros x Hx%row_ids_elem.
  destruct (lookup_lt_is_Some_2 cells (Z.to_nat x)) as [c Hc]; [unfold len in Hx; lia|].
  specialize (Hp _ _ Hc). by rewrite Z2Nat.id in Hp by lia.
Qed.

(** ** Values and how a region holds them *)

(** A value within the width of its type. *)
Definition value_range (v : ColumnValue) : Prop :=
  match v with
  | VU64 z | VF64 z => is_u64 z
  | VId128 z => is_u128 z
  | VI64 z => is_i64 z
  | VBool _ => True
  | VString s => utf8_valid s = true
  end.

Definition cell_range (c : cell) : Prop := match c with Some v => value_range v | None => True end.

Definition cell_number (c : cell) : Z :=
  match c with Some (VU64 z | VF64 z | VId128 z | VI64 z) => z | _ => 0 end.
Definition cell_flag (c : cell) : bool := match c with Some (VBool b) => b | _ => false end.

(** The dense values a region stores for a column. *)
Definition dense (t : ColumnType) (cells : list cell) : DecodedValues :=
  match t with
  | U64 => DecodedU64 (map cell_number cells)
  | Id128 => DecodedId128 (map cell_number cells)
  | I64 => DecodedI64 (map cell_number cells)
  | F64 => DecodedF64 (map cell_number cells)
  | Bool => DecodedBool (map cell_flag cells)
  | DictionaryString | RawString => DecodedString (map cell_text cells)
  end.

Lemma dense_value t cells (i : nat) v :
  cells !! i = Some (Some v) → compatible_with v t = true →
  decoded_value (dense t cells) (Z.of_nat i) = Ok v.
Proof.
  intros Hc Hv. unfold decoded_value.
  destruct t, v; try discriminate Hv; cbn [dense]; rewrite Nat2Z.id;
    change (map ?h) with (fmap (M:=list) h); by rewrite list_lookup_fmap, Hc.
Qed.

Definition string_image (v : bytes) : bytes := u32_le (len v) ++ v.

Lemma encode_string_ok v : len v ≤ u32_max → encode_string v = Ok (string_image v).
Proof.
  intros Hv. unfold encode_string, try_from. pose proof (len_nonneg v). by decide_Z.
Qed.

Lemma len_string_image v : len (string_image v) = 4 + len v.
Proof. unfold string_image. rewrite len_app, len_u32_le. done. Qed.

Lemma concat_le {A} (l : list (list A)) v : v ∈ l → len v ≤ len (concat l).
Proof.
  intros Hv. induction l as [|w l IH]; [by apply not_elem_of_nil in Hv|]. cbn [concat]. rewrite len_app.
  pose proof (len_nonneg w). pose proof (len_nonneg (concat l)).
  apply elem_of_cons in Hv as [->|Hv]; [lia|]. specialize (IH Hv). lia.
Qed.

Lemma storage_holds_small vs s v : storage_holds vs s → v ∈ vs → len v ≤ u32_max ∧ utf8_valid v = true.
Proof.
  intros Hs Hv. split.
  - etransitivity; [by apply concat_le|apply Hs].
  - pose proof (sh_utf8 _ _ Hs) as Hu. rewrite Forall_forall in Hu. by apply Hu.
Qed.

(** The bytes of a string after its length. *)
Lemma reads_region_string v (p : Cursor → SegmentM bytes) :
  utf8_valid v = true →
  (∀ pre rest, p {| cu_bytes := pre ++ v ++ rest; cu_offset := len pre |}
               = (raw ← s_take (len v); s_utf8 raw)) →
  reads (with_cursor p) v v.
Proof.
  intros Hu Hp. eapply reads_guard; [exact Hp|]. rewrite <- (app_nil_r v) at 2.
  eapply reads_bind; [by apply reads_s_take|]. by apply reads_s_utf8.
Qed.

Lemma reads_entry v :
  len v ≤ u32_max → utf8_valid v = true → reads read_entry (string_image v) v.
Proof.
  intros Hl Hu. assert (is_u32 (len v)) as Hw by (split; [apply len_nonneg|done]).
  unfold read_entry, string_image. eapply reads_bind; [by apply reads_s_u32|]. cbv beta.
  eapply reads_bind_nil; [apply reads_lift; rewrite try_usize by done; reflexivity|]. cbv beta.
  apply reads_region_string; [done|]. intros pre rest. rewrite remaining_at.
  pose proof (len_nonneg rest). by decide_Z.
Qed.

Lemma reads_raw_string id row v :
  len v ≤ u32_max → utf8_valid v = true → reads (decode_raw_string id row) (string_image v) v.
Proof.
  intros Hl Hu. assert (is_u32 (len v)) as Hw by (split; [apply len_nonneg|done]).
  unfold decode_raw_string. apply reads_s_position. intros position.
  unfold string_image. eapply reads_bind; [by apply reads_s_u32|]. cbv beta.
  eapply reads_bind_nil; [apply reads_lift; rewrite try_usize by done; reflexivity|]. cbv beta.
  apply reads_region_string; [done|]. intros pre rest. rewrite remaining_at.
  pose proof (len_nonneg rest). by decide_Z.
Qed.

Lemma reads_bool b : reads read_bool [u8_byte (bool_byte b)] b.
Proof.
  unfold read_bool. rewrite <- (app_nil_r [_]). eapply reads_bind; [apply reads_s_u8|]. cbv beta.
  rewrite byte_value_u8 by (by destruct b). destruct b; apply reads_ret.
Qed.

(** A guard that the rest of the encoding passes. *)
Lemma reads_guard_then {A} (f : Cursor → SegmentM unit) (k : SegmentM A) e v :
  (∀ pre rest, f {| cu_bytes := pre ++ e ++ rest; cu_offset := len pre |} = mret tt) →
  reads k e v → reads (_ ← with_cursor f; k) e v.
Proof.
  intros Hf Hk pre rest Hl. unfold mbind, cursor_bind, with_cursor. rewrite Hf. by apply Hk.
Qed.

(** ** One column *)

Section Column.
Context {B : Type} {R : Roaring B} {RL : RoaringLaws B}.

(** Codes fit the width they are stored in. *)
Definition codes_packed (c : DictionaryCodes) : Prop :=
  match c with CodesU16 codes => Forall is_u16 codes | CodesU32 codes => Forall is_u32 codes end.

Definition column_packed (c : Column B) : Prop :=
  match c with ColDictionaryString d => codes_packed (dc_codes d) | _ => True end.

(** The bit map marks the rows that have a value. *)
Definition marks (cells : list cell) (present : bytes) : Prop :=
  ∀ i c, cells !! i = Some c → bit_at present (Z.of_nat i) = negb (is_none c).

Lemma presence_marks cells c :
  column_holds cells c → len cells ≤ u32_max →
  marks cells (encode_presence c (len cells))
  ∧ len (encode_presence c (len cells)) = div_up (len cells) 8
  ∧ tail_bits (len cells) (encode_presence c (len cells)) = None.
Proof.
  intros [Hp _] Hn. pose proof (len_nonneg cells) as Hn0.
  assert (Forall (λ row, 0 ≤ row < len cells) (bitmap_iter (column_present c))) as Hr.
  { apply Forall_forall. intros x Hx%db_iter_elem. apply Hp in Hx as (Hx & v & Hv%lookup_lt_Some).
    unfold len. lia. }
  assert (Forall (λ row, 0 ≤ row) (bitmap_iter (column_present c))) as Hr0
    by (eapply Forall_impl; [exact Hr|]; cbn; lia).
  destruct (bits_of_spec _ _ (div_up_nonneg _ Hn0) Hr0) as [Hl Hb].
  split_and!; [|exact Hl|by apply tail_bits_of].
  intros i x Hi. unfold encode_presence. rewrite Hb; [|lia|].
  2:{ apply div_up_bound. apply lookup_lt_Some in Hi. unfold len. lia. }
  destruct x as [v|]; cbn [is_none negb].
  - apply bool_decide_eq_true. apply db_iter_elem, Hp. rewrite Nat2Z.id. split; [lia|by exists v].
  - apply bool_decide_eq_false. intros Hin%db_iter_elem. apply Hp in Hin as (_ & v & Hv).
    rewrite Nat2Z.id in Hv. congruence.
Qed.

(** What the accessor of a column reads in a row. *)
Lemma cell_at cells c (i : nat) x :
  column_holds cells c → len cells ≤ u32_max → cells !! i = Some x →
  column_value c (Z.of_nat i) = x.
Proof.
  intros Hc Hn Hi. rewrite (column_value_spec _ _ _ Hc) by (done || lia). by rewrite Nat2Z.id, Hi.
Qed.

(** A column of fixed-width numbers. *)
Lemma numbers_read cells (values : NumericColumn B) (con : Z → ColumnValue) (le : Z → bytes)
    (p : SegmentM Z) :
  (∀ i x, cells !! i = Some x → con <$> numeric_get values (Z.of_nat i) = x) →
  (∀ z, cell_number (Some (con z)) = z) → reads p (le 0) 0 →
  (∀ z, value_range (con z) → reads p (le z) z) → Forall cell_range cells →
  reads (repeat_parser (Z.to_nat (len cells)) p)
    (concat (map (λ row, le (default 0 (numeric_get values row))) (row_ids (len cells))))
    (map cell_number cells).
Proof.
  intros Hget Hcon H0 Hread Hr.
  rewrite (map_row_ids cells _ (λ c, le (cell_number c))).
  2:{ intros i x Hi. specialize (Hget i x Hi). f_equal.
      destruct (numeric_get values (Z.of_nat i)) as [z|]; cbn in Hget; subst x; [|done].
      cbn [default]. by rewrite Hcon. }
  rewrite <- (map_map cell_number le). apply reads_repeat.
  { rewrite length_map. apply to_nat_len. }
  apply Forall_fmap. apply Forall_forall. intros x Hx. cbn.
  apply list_elem_of_lookup in Hx as [i Hi]. specialize (Hget i x Hi).
  destruct (numeric_get values (Z.of_nat i)) as [z|]; cbn in Hget; subst x; [|done].
  rewrite Hcon. apply Hread. rewrite Forall_lookup in Hr. exact (Hr _ _ Hi).
Qed.

Lemma dictionary_codes_read cells (d : DictionaryColumn B) vs id present :
  Forall2 (stores_code vs) cells (codes_iter (dc_codes d)) → codes_packed (dc_codes d) →
  marks cells present →
  reads (mapM (read_code_value id (match codes_width (dc_codes d) with WidthU16 => 2 | WidthU32 => 4 end)
                 (len vs) present vs) (row_ids (len cells)))
    (concat (map (λ row, encode_code (codes_width (dc_codes d)) (default 0 (codes_get (dc_codes d) row)))
               (row_ids (len cells))))
    (map cell_text cells).
Proof.
  intros Hf Hp Hm.
  rewrite <- (map_row_ids cells (λ row, cell_text (mjoin (cells !! Z.to_nat row)))).
  2:{ intros i x Hi. by rewrite Nat2Z.id, Hi. }
  apply reads_mapM, Forall_row_ids. intros i x Hi. rewrite Nat2Z.id, Hi. cbn [mjoin option_join].
  destruct (Forall2_lookup_l _ _ _ _ _ Hf Hi) as (code & Hcode & Hs).
  assert (codes_get (dc_codes d) (Z.of_nat i) = Some code) as ->.
  { unfold codes_get, codes_iter in *. rewrite Nat2Z.id. by destruct (dc_codes d). }
  cbn [default]. unfold read_code_value. apply reads_s_position. intros position.
  assert (reads (read_code (match codes_width (dc_codes d) with WidthU16 => 2 | WidthU32 => 4 end))
            (encode_code (codes_width (dc_codes d)) code) code) as Hread.
  { unfold codes_iter in Hcode. unfold codes_packed in Hp. destruct (dc_codes d) as [codes|codes]; cbn;
      rewrite Forall_lookup in Hp; eauto with zep. }
  rewrite <- (app_nil_r (encode_code _ _)). eapply reads_bind; [exact Hread|]. cbv beta.
  rewrite (Hm i x Hi). destruct x as [v|]; cbn [is_none negb].
  - destruct v as [z|z|z|z|b|s]; try done. destruct Hs as [_ Hs]. cbn in Hs. apply reads_lift. by rewrite Hs.
  - cbn in Hs. subst code. apply reads_ret.
Qed.

Lemma len_concat_strings vs : len vs * 4 ≤ len (concat (map string_image vs)).
Proof.
  induction vs as [|v vs IH]; [done|]. cbn [map concat].
  rewrite len_app, len_string_image, len_cons. pose proof (len_nonneg v). lia.
Qed.

Lemma dictionary_read cells (d : DictionaryColumn B) id present :
  column_holds cells (ColDictionaryString d) → codes_packed (dc_codes d) → marks cells present →
  ∃ enc, encode_dictionary d (len cells) = Ok enc
         ∧ reads (read_dictionary id (len cells) present) enc (map cell_text cells).
Proof.
  intros [_ (vs & b & Hd & Hfin & Hf)] Hp Hm. pose proof (dh_bound _ _ Hd) as Hn.
  assert (is_u32 (len vs)) as Hu by (split; [apply len_nonneg|done]).
  assert (dictionary_len (dc_dictionary d) = len vs) as Hlen.
  { rewrite Hfin. apply storage_len_spec, Hd. }
  unfold encode_dictionary. rewrite Hlen. unfold try_from at 1.
  destruct Hu as [Hu0 Hu1]. decide_Z. cbn [andb ok_or]. rewrite bind_Ok.
  rewrite (encode_each_Ok _ (λ code, string_image (default [] (vs !! Z.to_nat code)))).
  2:{ apply Forall_row_ids. intros i v Hi. rewrite Hfin, (dictionary_get_spec _ _ _ Hd) by lia.
      rewrite Nat2Z.id, Hi. cbn [ok_or]. rewrite bind_Ok. apply encode_string_ok.
      by eapply storage_holds_small; [apply Hd|eapply list_elem_of_lookup_2]. }
  rewrite (map_row_ids vs _ string_image) by (intros i v Hi; by rewrite Nat2Z.id, Hi).
  rewrite bind_Ok. eexists. split; [reflexivity|]. unfold read_dictionary.
  eapply reads_bind; [by apply reads_s_u32|]. cbv beta.
  eapply reads_bind_nil; [apply reads_lift; rewrite try_usize by done; reflexivity|]. cbv beta.
  apply reads_guard_then.
  { intros pre rest. rewrite remaining_at. pose proof (len_concat_strings vs). pose proof (len_nonneg rest).
    rewrite !len_app, !len_u16_le. match goal with |- context [concat (map ?g (row_ids ?n))] =>
      pose proof (len_nonneg (concat (map g (row_ids n)))); set (k := len (concat (map g (row_ids n)))) in * end.
    rewrite (proj2 (Z.ltb_ge _ (len vs))); [by rewrite andb_false_r|].
    apply Z.div_le_lower_bound; lia. }
  rewrite to_nat_len. eapply reads_bind.
  { apply (reads_repeat read_entry string_image vs); [done|]. apply Forall_forall. intros v Hv.
    destruct (storage_holds_small vs _ v (dh_values _ _ Hd) Hv). by apply reads_entry. }
  cbv beta. eapply reads_bind; [apply reads_s_u16; by destruct (codes_width _)|]. cbv beta.
  eapply reads_bind; [by apply reads_s_u16|]. cbv beta. change (negb (0 =? 0)) with false. cbn iota.
  by apply dictionary_codes_read.
Qed.

(** A column encodes, and its values read back. *)
Lemma column_values_read cells c id present :
  column_holds cells c → column_packed c → marks cells present →
  Forall cell_range cells → len cells ≤ u32_max →
  ∃ enc, encode_region_values c (len cells) = Ok enc
         ∧ reads (decode_region_values id (column_type c) (len cells) present) enc
             (dense (column_type c) cells).
Proof.
  intros Hc Hp Hm Hr Hn. pose proof (cell_at cells c) as Hat.
  assert (∀ i x, cells !! i = Some x → column_value c (Z.of_nat i) = x) as Hget by eauto. clear Hat.
  destruct c as [n|n|n|n|n|d|r]; cbn [encode_region_values decode_region_values column_type dense column_value] in *.
  1-4: eexists; (split; [reflexivity|]).
  - apply (reads_bind_ret _ DecodedU64), (numbers_read _ _ VU64);
      [exact Hget|done|by apply reads_s_u64|intros z; apply reads_s_u64|exact Hr].
  - apply (reads_bind_ret _ DecodedId128), (numbers_read _ _ VId128);
      [exact Hget|done|by apply reads_s_u128|intros z; apply reads_s_u128|exact Hr].
  - apply (reads_bind_ret _ DecodedI64), (numbers_read _ _ VI64);
      [exact Hget|done|by apply reads_s_i64|intros z; apply reads_s_i64|exact Hr].
  - apply (reads_bind_ret _ DecodedF64), (numbers_read _ _ VF64);
      [exact Hget|done|by apply reads_s_u64|intros z; apply reads_s_u64|exact Hr].
  - eexists. split; [reflexivity|]. apply (reads_bind_ret _ DecodedBool).
    rewrite (map_row_ids cells _ (λ c, u8_byte (bool_byte (cell_flag c)))).
    2:{ intros i x Hi. specialize (Hget i x Hi). do 2 f_equal.
        destruct (bool_get n (Z.of_nat i)) as [z|]; cbn in Hget; by subst x. }
    rewrite <- (map_map cell_flag (λ b, u8_byte (bool_byte b))).
    assert (∀ l, map (λ b, u8_byte (bool_byte b)) l = concat (map (λ b, [u8_byte (bool_byte b)]) l)) as ->
      by (induction l as [|b l IH]; cbn; [done|by rewrite IH]).
    apply reads_repeat; [rewrite length_map; apply to_nat_len|].
    apply Forall_forall. intros b _. apply reads_bool.
  - destruct (dictionary_read cells d id present Hc Hp Hm) as (enc & E & Hread).
    exists enc. split; [done|]. by apply (reads_bind_ret _ DecodedString).
  - destruct Hc as [_ [Hs Ht]].
    assert (∀ i x, cells !! i = Some x → default [] (raw_string_get r (Z.of_nat i)) = cell_text x) as Htext.
    { intros i x Hi. specialize (Hget i x Hi).
      destruct (raw_string_get r (Z.of_nat i)) as [s|]; cbn in Hget; by subst x. }
    assert (∀ i x, cells !! i = Some x → len (cell_text x) ≤ u32_max ∧ utf8_valid (cell_text x) = true) as Hsm.
    { intros i x Hi. eapply storage_holds_small; [exact Hs|].
      change (map cell_text cells) with (cell_text <$> cells). apply list_elem_of_fmap.
      exists x. split; [done|]. by eapply list_elem_of_lookup_2. }
    rewrite (encode_each_Ok _ (λ row, string_image (cell_text (mjoin (cells !! Z.to_nat row))))).
    2:{ apply Forall_row_ids. intros i x Hi. rewrite (Htext i x Hi), Nat2Z.id, Hi.
        apply encode_string_ok. by eapply Hsm. }
    eexists. split; [reflexivity|]. apply (reads_bind_ret _ DecodedString).
    rewrite <- (map_row_ids cells (λ row, cell_text (mjoin (cells !! Z.to_nat row))));
      [|intros i x Hi; by rewrite Nat2Z.id, Hi].
    apply reads_mapM, Forall_row_ids. intros i x Hi. rewrite Nat2Z.id, Hi.
    apply reads_raw_string; by eapply Hsm.
Qed.

(** The decoded form of a column. *)
Definition decoded_of (d : ColumnDefinition) (cells : list cell) (column : DecodedColumn) : Prop :=
  dl_definition column = d ∧ marks cells (dl_present column)
  ∧ dl_values column = dense (cd_column_type d) cells.

Lemma column_read cells c d store :
  column_holds cells c → column_packed c → Forall cell_range cells → len cells ≤ u32_max →
  column_type c = cd_column_type d → store_column store (cd_id d) = Some c →
  cs_row_count store = len cells →
  ∃ enc column, encode_column store d = Ok enc ∧ reads (read_column (len cells) d) enc column
                ∧ decoded_of d cells column.
Proof.
  intros Hc Hp Hr Hn Ht Hs Hcount. destruct (presence_marks cells c Hc Hn) as (Hm & Hl & Htail).
  set (present := encode_presence c (len cells)) in *.
  destruct (column_values_read cells c (cd_id d) present Hc Hp Hm Hr Hn) as (values & Ev & Hread).
  pose proof (len_nonneg cells) as Hn0. pose proof (div_up_nonneg _ Hn0) as Hd0.
  assert (is_u32 (len present)) as Hu.
  { split; [apply len_nonneg|]. rewrite Hl. unfold div_up. apply Z.div_le_upper_bound; [lia|].
    unfold u32_max in *. lia. }
  unfold encode_column. rewrite Hs, Hcount. cbn [ok_or]. rewrite bind_Ok. fold present.
  rewrite Ev, bind_Ok. eexists.
  exists {| dl_definition := d; dl_present := present; dl_values := dense (cd_column_type d) cells |}.
  split; [reflexivity|]. split; [|by split_and!].
  unfold read_column. eapply reads_bind; [by apply reads_s_usize|]. cbv beta.
  rewrite Hl, Z.eqb_refl. cbn [negb]. rewrite <- Hl. apply reads_s_position. intros position.
  eapply reads_bind; [by apply reads_s_take|]. cbv beta.
  eapply reads_bind_nil; [apply reads_lift; unfold validate_presence_tail; by rewrite Htail|]. cbv beta.
  rewrite <- Ht. by apply (reads_bind_ret _ (λ v, {| dl_definition := d; dl_present := present; dl_values := v |})).
Qed.
End Column.

(** ** The region *)

(** A schema whose definitions fit the widths of the region. *)
Record schema_encodes (schema : Schema) : Prop := {
  se_count : len (sc_columns schema) ≤ u32_max;
  se_definitions : Forall (λ d, is_u32 (cd_id d) ∧ len (cd_name d) ≤ u32_max
                                ∧ utf8_valid (cd_name d) = true) (sc_columns schema);
}.

Lemma region_type_roundtrip t : region_type_from_id (region_type_id t) = Ok t.
Proof. by destruct t. Qed.

Lemma definition_read d :
  is_u32 (cd_id d) → len (cd_name d) ≤ u32_max → utf8_valid (cd_name d) = true →
  ∃ enc, encode_definition d = Ok enc ∧ reads read_definition enc d.
Proof.
  intros Hi Hl Hu. assert (is_u32 (len (cd_name d))) as Hw by (split; [apply len_nonneg|done]).
  unfold encode_definition, try_from. destruct Hw as [Hw0 Hw1]. decide_Z. cbn [andb ok_or]. rewrite bind_Ok.
  eexists. split; [reflexivity|]. unfold read_definition.
  eapply reads_bind; [by apply reads_s_u32|]. cbv beta.
  eapply reads_bind; [apply reads_s_u16; by destruct (cd_column_type d)|]. cbv beta.
  eapply reads_bind_nil; [apply reads_lift, region_type_roundtrip|]. cbv beta.
  eapply (reads_bind _ _ _ _ (cd_nullable d)).
  { unfold read_nullable. rewrite <- (app_nil_r (u16_le _)).
    eapply reads_bind; [apply reads_s_u16; by destruct (cd_nullable d)|]. cbv beta.
    destruct (cd_nullable d); apply reads_ret. }
  eapply reads_bind; [by apply reads_s_usize|]. cbv beta.
  eapply reads_bind_last; [by apply reads_s_take|]. cbv beta.
  eapply reads_bind_nil; [by apply reads_s_utf8|]. cbv beta.
  destruct d; apply reads_ret.
Qed.

(** A loop of encoders and the loop of their decoders. *)
Lemma encode_each_reads {A C} (f : A → result SegmentError bytes) (p : A → SegmentM C) (P : A → C → Prop) l :
  Forall (λ a, ∃ enc v, f a = Ok enc ∧ reads (p a) enc v ∧ P a v) l →
  ∃ enc vs, encode_each f l = Ok enc ∧ reads (mapM p l) enc vs ∧ Forall2 P l vs.
Proof.
  induction 1 as [|a l (enc & v & E & Hr & Hp) _ (encs & vs & Es & Hrs & Hps)].
  { exists [], []. split_and!; [done|apply reads_ret|constructor]. }
  exists (enc ++ encs), (v :: vs). split_and!; [|cbn [mapM]|by constructor].
  - unfold encode_each in *. cbn [mapM]. rewrite E, bind_Ok.
    destruct (mapM f l) as [k|e]; [|done]. cbn in Es |- *. by injection Es as <-.
  - eapply reads_bind; [exact Hr|]. by apply (reads_bind_ret _ (cons v)).
Qed.

(** The same parser for every element. *)
Lemma repeat_mapM {A C} (p : SegmentM C) (l : list A) : repeat_parser (length l) p = mapM (λ _, p) l.
Proof. induction l as [|a l IH]; [done|]. cbn [length repeat_parser mapM]. by rewrite IH. Qed.

Lemma same_list {A} (l k : list A) : Forall2 (λ a v, v = a) l k → k = l.
Proof. induction 1; congruence. Qed.

Lemma canonical_ok schema : schema_ok schema → canonical_timestamp (sc_columns schema) = Ok tt.
Proof. intros Hs. destruct (so_ts _ Hs) as [cols ->]. done. Qed.

Section Region.
Context {B : Type} {R : Roaring B} {RL : RoaringLaws B}.

(** The cells of every row are within their widths. *)
Definition rows_range (schema : Schema) (rows : list Row) : Prop :=
  Forall (λ d, Forall cell_range (row_cells rows d)) (sc_columns schema).

Lemma columns_region_read schema rows (s : ColumnStore B) :
  schema_ok schema → schema_encodes schema → store_holds schema rows s →
  Forall column_packed (cs_columns s) → rows_range schema rows →
  ∃ b decoded, encode_columns s = Ok b ∧ reads_end read_columns b (len rows, decoded)
    ∧ Forall2 (λ d column, decoded_of d (row_cells rows d) column) (sc_columns schema) decoded.
Proof.
  intros Hs [Hcount Hdefs] Hh Hp Hr. destruct (Hh) as [Hsch Hn Hbound Hcols].
  assert (∀ d, len (row_cells rows d) = len rows) as Hlen by (intros d; apply len_map).
  destruct (encode_each_reads encode_definition (λ _, read_definition) (λ d v, v = d) (sc_columns schema))
    as (denc & ds & Ed & Hrd & ->%same_list).
  { eapply Forall_impl; [exact Hdefs|]. intros d (Hi & Hl & Hu).
    destruct (definition_read d Hi Hl Hu) as (enc & E & Hrd). by exists enc, d. }
  destruct (encode_each_reads (encode_column s) (read_column (len rows))
              (λ d column, decoded_of d (row_cells rows d) column) (sc_columns schema))
    as (cenc & decoded & Ec & Hrc & Hdec).
  { apply Forall_forall. intros d Hd. pose proof (store_column_spec _ _ s (cd_id d) Hh) as Hc.
    destruct (store_column s (cd_id d)) as [c|] eqn:Es; cycle 1.
    { apply list_elem_of_In in Hd. pose proof (List.find_none _ _ Hc d Hd) as Hx. cbn in Hx.
      by rewrite Z.eqb_refl in Hx. }
    destruct Hc as (d' & Ed' & Ht & Hc). apply (schema_column_unique _ _ _ Hs Hd) in Ed' as ->.
    unfold rows_range in Hr. rewrite Forall_forall in Hr. specialize (Hr d Hd).
    assert (column_packed c) as Hpc.
    { rewrite Forall_forall in Hp. apply Hp. unfold store_column in Es.
      destruct (List.find _ _) as [[d0 c0]|] eqn:Ef; [|done]. injection Es as ->.
      apply List.find_some in Ef as [Hin _]. apply list_elem_of_In in Hin. by apply elem_of_zip_r in Hin. }
    rewrite <- (Hlen d). apply (column_read _ c); try done; rewrite Hlen; done. }
  unfold encode_columns. rewrite Hsch, Ed, bind_Ok, Ec, bind_Ok, Hn.
  eexists. exists decoded. split; [reflexivity|]. split; [|exact Hdec].
  unfold read_columns. pose proof (len_nonneg rows). pose proof (len_nonneg (sc_columns schema)).
  eapply reads_end_bind; [apply reads_s_u32; split; lia|]. cbv beta.
  eapply reads_end_bind; [apply reads_s_usize; split; lia|]. cbv beta.
  destruct (so_ts _ Hs) as [cols Hcs].
  rewrite (proj2 (Z.eqb_neq (len (sc_columns schema)) 0))
    by (rewrite Hcs, len_cons; pose proof (len_nonneg cols); lia).
  rewrite to_nat_len, repeat_mapM. eapply reads_end_bind; [exact Hrd|]. cbv beta.
  eapply reads_end_bind_nil; [by apply reads_lift, canonical_ok|]. cbv beta.
  eapply reads_end_then; [apply reads_reads_end; exact Hrc|]. intros b.
  unfold mbind, cursor_bind, s_finish, with_cursor. cbn [cu_offset cu_bytes]. by rewrite Z.eqb_refl.
Qed.
End Region.
