(* ===== verification/SegmentRebuild.v ===== *)
(** * Rebuilding a column store from its region

    [decode_columns] pushes the decoded rows into a new builder.  Every push
    succeeds, since the strings of the store already fitted one dictionary or
    storage, so the rebuilt store has the rows of the original. *)

From S2P Require Import Prelude Format Cursor Schema Bitmap Dict Columns ColumnsSpec SegmentLayout SegmentLayoutSpec SegmentColumnsSpec.

(** ** Room for strings *)

(** Strings that one dictionary or storage can hold together. *)
Definition strings_fit (vs : list bytes) : Prop :=
  NoDup vs ∧ len vs ≤ u32_max ∧ len (concat vs) ≤ u32_max.

Definition column_room (t : ColumnType) (all : list cell) : Prop :=
  match t with
  | DictionaryString => ∃ vs, strings_fit vs ∧ ∀ s, Some (VString s) ∈ all → s ∈ vs
  | RawString => len (concat (map cell_text all)) ≤ u32_max
  | _ => True
  end.

Lemma len_concat_perm {A} (l k : list (list A)) : l ≡ₚ k → len (concat l) = len (concat k).
Proof. induction 1; cbn [concat]; rewrite ?len_app in *; lia. Qed.

Lemma concat_submseteq {A} (l k : list (list A)) : l ⊆+ k → len (concat l) ≤ len (concat k).
Proof.
  intros [m Hp%len_concat_perm]%submseteq_Permutation.
  rewrite Hp, concat_app, len_app. pose proof (len_nonneg (concat m)). lia.
Qed.

(** Distinct strings taken from a set that fits. *)
Lemma strings_fit_subset ws vs :
  strings_fit vs → NoDup ws → (∀ s, s ∈ ws → s ∈ vs) → len ws ≤ u32_max ∧ len (concat ws) ≤ u32_max.
Proof.
  intros (Hnd & Hl & Hc) Hw Hsub. assert (ws ⊆+ vs) as Hs by (by apply NoDup_submseteq).
  split; [|etransitivity; [by apply concat_submseteq|done]].
  apply submseteq_length in Hs. unfold len in *. lia.
Qed.

Lemma dict_holds_unique vs vs' b : dict_holds vs b → dict_holds vs' b → vs = vs'.
Proof.
  intros H1 H2. apply list_eq. intros i. apply option_eq. intros v.
  pose proof (dh_lookup _ _ H1 v (Z.of_nat i)) as E1. pose proof (dh_lookup _ _ H2 v (Z.of_nat i)) as E2.
  rewrite Nat2Z.id in E1, E2. pose proof (Nat2Z.is_nonneg i). tauto.
Qed.

Section Used.
Context {B : Type} {R : Roaring B} {RL : RoaringLaws B}.

(** A builder's dictionary has only strings some cell uses. *)
Definition dict_used (cells : list cell) (c : BuilderColumn B) : Prop :=
  match c with
  | BuildDictionary _ d _ => ∀ vs, dict_holds vs d → Forall (λ s, Some (VString s) ∈ cells) vs
  | _ => True
  end.

Lemma dict_used_new t : dict_used [] (builder_column_new t).
Proof.
  destruct t; cbn; try done. intros vs Hv.
  rewrite (dict_holds_unique _ _ _ Hv dictionary_builder_new_holds). constructor.
Qed.

Lemma dict_used_push cells c id value c' :
  builder_column_holds cells c → cell_ok (builder_column_type c) value → dict_used cells c →
  builder_column_push (len cells) id value c = (c', Ok tt) → dict_used (cells ++ [value]) c'.
Proof.
  intros [_ Hc] Hv Hu Hp. destruct c as [l p|l p|l p|l p|l p|codes d p|st p].
  1-5,7: destruct value as [[]|]; cbn in Hp;
    first [by injection Hp as <-|done|destruct (storage_push _ _) as [? []]; by try injection Hp as <-].
  destruct Hc as (vs & Hd & _). cbn in Hu. pose proof (Hu vs Hd) as Hf.
  assert (∀ ws, Forall (λ s, Some (VString s) ∈ cells) ws →
            Forall (λ s, Some (VString s) ∈ cells ++ [value]) ws) as Hmono.
  { intros ws Hw. eapply Forall_impl; [exact Hw|]. intros s Hs. apply elem_of_app. by left. }
  destruct value as [[z|z|z|z|b|s]|]; cbn in Hv; try (by destruct Hv); cbn [builder_column_push] in Hp.
  - destruct Hv as [_ Hutf]. pose proof (intern_spec vs s d Hd Hutf) as Hi.
    destruct (intern s d) as [d' [code|e]]; [|done]. injection Hp as <-.
    destruct Hi as (_ & vs' & _ & Hd' & _ & _ & Hin & Hnew). intros ws Hw.
    destruct (decide (s ∈ vs)) as [Hs|Hs].
    + rewrite (Hin Hs) in Hw. rewrite (dict_holds_unique _ _ _ Hw Hd). by apply Hmono.
    + rewrite (dict_holds_unique _ _ _ Hw Hd'), (Hnew Hs). apply Forall_app. split; [by apply Hmono|].
      constructor; [|constructor]. apply elem_of_app. right. by apply list_elem_of_singleton.
  - injection Hp as <-. intros ws Hw. apply Hmono. by apply Hu.
Qed.

(** A column with room takes the next cell. *)
Lemma preflight_fits cells c value rest all :
  builder_column_holds cells c → dict_used cells c → cell_ok (builder_column_type c) value →
  all = cells ++ value :: rest → column_room (builder_column_type c) all →
  preflight c value = Ok tt.
Proof.
  intros [_ Hc] Hu Hv -> Hroom. destruct c as [l p|l p|l p|l p|l p|codes d p|st p]; try done.
  - destruct Hc as (ws & Hd & _). destruct value as [[z|z|z|z|b|s]|]; try done. cbn [preflight].
    destruct Hroom as (vs & Hfit & Hall). destruct (dn_lookup d !! s) as [code|] eqn:E.
    { unfold can_intern. by rewrite E. }
    apply (lookup_position ws d s Hd) in E as Hs.
    assert (NoDup (ws ++ [s])) as Hnd.
    { apply NoDup_app. split_and!; [by eapply dict_holds_NoDup| |apply NoDup_singleton].
      intros x Hx Hx'%list_elem_of_singleton. by subst x. }
    destruct (strings_fit_subset (ws ++ [s]) vs Hfit Hnd) as [Hl Hcat].
    { intros x [Hx|Hx%list_elem_of_singleton]%elem_of_app; apply Hall; [|subst x].
      - apply elem_of_app. left. specialize (Hu ws Hd). rewrite Forall_forall in Hu. by apply Hu.
      - apply elem_of_app. right. by left. }
    rewrite len_app, len_cons, (len_nil (A:=bytes)) in Hl.
    rewrite concat_app, len_app, concat_cons, concat_nil, app_nil_r in Hcat.
    unfold can_intern. rewrite E, (dh_size _ _ Hd). unfold try_from, saturating_add, code_width_for_cardinality.
    pose proof (len_nonneg ws). unfold u64_max, u32_max, u16_max in *. decide_Z. cbn [andb default].
    change (id (len ws)) with (len ws). rewrite Z.min_r by lia.
    assert (can_push s (dn_values d) = Ok tt) as ->.
    { rewrite (can_push_spec s ws) by (apply Hd || (rewrite (sh_bytes _ _ (dh_values _ _ Hd)); unfold usize_max, u64_max; lia)).
      unfold u32_max. by decide_Z. }
    by destruct (_ <=? _); [|decide_Z].
  - destruct Hc as [Hs _]. cbn in Hroom. rewrite map_app, concat_app, len_app in Hroom. cbn [map concat] in Hroom.
    rewrite len_app in Hroom. pose proof (len_nonneg (concat (map cell_text rest))).
    pose proof (len_nonneg (concat (map cell_text cells))).
    assert (∀ v, len v = len (cell_text value) → can_push v st = Ok tt) as Hcan.
    { intros v Hlen. rewrite (can_push_spec v _ _ Hs);
        [|rewrite (sh_bytes _ _ Hs); unfold usize_max, u64_max, u32_max in *; lia].
      by decide_Z. }
    destruct value as [[z|z|z|z|b|s]|]; cbn in Hv; try (by destruct Hv); by apply Hcan.
Qed.
End Used.

(** ** Decoded rows *)

(** The inputs a region gives for a row: one per column that has a value. *)
Definition region_input (r : Row) (d : ColumnDefinition) : option ColumnInput :=
  (λ v, {| ci_column := cd_id d; ci_value := v |}) <$> row_value r.1 r.2 d.

Definition region_row (schema : Schema) (r : Row) : Row :=
  (r.1, omap (region_input r) (drop 1 (sc_columns schema))).

Lemma row_cells_lookup rows d (i : nat) r :
  rows !! i = Some r → row_cells rows d !! i = Some (row_value r.1 r.2 d).
Proof.
  intros Hi. unfold row_cells. change (map ?h) with (fmap (M:=list) h). by rewrite list_lookup_fmap, Hi.
Qed.

Lemma decoded_inputs_ok rows (i : nat) r ds decoded :
  rows !! i = Some r → Forall (λ d, cell_ok (cd_column_type d) (row_value r.1 r.2 d)) ds →
  Forall2 (λ d column, decoded_of d (row_cells rows d) column) ds decoded →
  decoded_inputs decoded (Z.of_nat i) = Ok (omap (region_input r) ds).
Proof.
  intros Hi Hok Hf. induction Hf as [|d column ds decoded (Hd & Hm & Hv) _ IH]; [done|].
  apply Forall_cons in Hok as [Hc Hok]. cbn [decoded_inputs omap list_omap].
  pose proof (row_cells_lookup rows d i r Hi) as Hcell. rewrite (Hm i _ Hcell). rewrite (IH Hok).
  unfold region_input at 3. destruct (row_value r.1 r.2 d) as [v|] eqn:E; [|done].
  cbn [is_none negb fmap option_fmap option_map]. destruct Hc as [Hc _].
  rewrite Hv, (dense_value _ _ i v Hcell Hc), !bind_Ok. by rewrite Hd.
Qed.

Lemma decoded_timestamp_ok rows (i : nat) r ds decoded :
  rows !! i = Some r →
  Forall2 (λ d column, decoded_of d (row_cells rows d) column) (timestamp_definition :: ds) decoded →
  decoded_timestamp decoded (Z.of_nat i) = Ok r.1.
Proof.
  intros Hi Hf. inversion Hf as [|? column ? ? (Hd & Hm & Hv)]; subst. unfold decoded_timestamp.
  cbn [head mbind option_bind]. rewrite Hv. cbn [timestamp_definition cd_column_type dense]. rewrite Nat2Z.id.
  change (map ?h) with (fmap (M:=list) h). by rewrite list_lookup_fmap, (row_cells_lookup _ _ _ _ Hi).
Qed.

(** ** Schemas that add columns *)

(** Every column of the segment is a column of the target, and the others are
    nullable. *)
Record extends (schema target : Schema) : Prop := {
  ex_kept : ∀ d, d ∈ sc_columns schema → d ∈ sc_columns target;
  ex_added : ∀ d, d ∈ sc_columns target → d ∉ sc_columns schema →
    cd_nullable d = true ∧ cd_id d ∉ map cd_id (sc_columns schema);
}.

Lemma extends_refl schema : extends schema schema.
Proof. by split. Qed.

Lemma extends_evolution schema target o :
  schema_ok schema → schema_ok target → additive_evolution schema target = Ok o → extends schema target.
Proof.
  intros Hs Ht E. unfold additive_evolution in E. apply bind_Ok_inv in E as (u & E1 & E).
  apply bind_Ok_inv in E as (added & E2 & _).
  pose proof (check_persisted_spec target (sc_columns schema)) as H1. rewrite E1 in H1.
  pose proof (added_columns_spec schema (sc_columns target)) as H2. rewrite E2 in H2.
  destruct H2 as [Ha Hn]. rewrite Forall_forall in Hn. split; [exact H1|]. intros d Hd Hnot.
  assert (cd_id d ∉ map cd_id (sc_columns schema)) as Hid.
  { intros (c & Hc & Ec)%ids_elem_of. apply Hnot.
    by rewrite <- (ids_inj _ _ _ (so_ids _ Ht) (H1 _ Hc) Hd Ec). }
  split; [|exact Hid]. apply Hn. rewrite Ha. by apply list_elem_of_filter.
Qed.

(** ** The inputs of a rebuilt row *)

Lemma find_region_none r ds c : c ∉ map cd_id ds → find_input (omap (region_input r) ds) c = None.
Proof.
  intros Hc. induction ds as [|d ds IH]; [done|]. cbn [map] in Hc.
  apply not_elem_of_cons in Hc as [Hc Hc']. cbn [omap list_omap]. unfold region_input at 1.
  destruct (row_value _ _ d); cbn; [|by apply IH].
  rewrite (proj2 (Z.eqb_neq _ _)) by done. by apply IH.
Qed.

(** Inputs of distinct columns are found by their column. *)
Lemma find_region_input r ds d :
  NoDup (map cd_id ds) → d ∈ ds →
  find_input (omap (region_input r) ds) (cd_id d) = region_input r d.
Proof.
  intros Hnd Hd. induction ds as [|d' ds IH]; [by apply not_elem_of_nil in Hd|].
  cbn [map] in Hnd. apply NoDup_cons in Hnd as [Hn Hnd]. cbn [omap list_omap].
  apply elem_of_cons in Hd as [->|Hd].
  - assert (find_input (omap (region_input r) ds) (cd_id d') = None) as Hnone by (by apply find_region_none).
    destruct (region_input r d') as [x|] eqn:E; [|exact Hnone]. cbn. unfold region_input in E.
    destruct (row_value _ _ d'); [|done]. injection E as <-. cbn. by rewrite Z.eqb_refl.
  - assert (cd_id d' ≠ cd_id d) as Hne by (intros E; apply Hn; rewrite E; by apply elem_of_ids).
    unfold region_input at 1. destruct (row_value _ _ d') as [v|]; cbn; [|by apply IH].
    rewrite (proj2 (Z.eqb_neq _ _)) by done. by apply IH.
Qed.

Lemma region_columns_sublist r ds : map ci_column (omap (region_input r) ds) `sublist_of` map cd_id ds.
Proof.
  induction ds as [|d ds IH]; [done|]. cbn [omap list_omap map]. unfold region_input at 1.
  destruct (row_value _ _ d); cbn [fmap option_fmap option_map map]; by constructor.
Qed.

Lemma region_input_in r (ds : list ColumnDefinition) i :
  i ∈ omap (region_input r) ds → ∃ d, d ∈ ds ∧ row_value r.1 r.2 d = Some (ci_value i) ∧ ci_column i = cd_id d.
Proof.
  intros (d & Hd & E)%list_elem_of_omap. exists d. unfold region_input in E.
  destruct (row_value _ _ d); [|done]. injection E as <-. done.
Qed.

(** A row of the segment's schema, as the builder accepted it. *)
Definition row_accepted (schema : Schema) (r : Row) : Prop :=
  row_valid schema r.2 ∧ Forall (λ i, value_utf8 (ci_value i)) r.2.

(** The cell a rebuilt row has in a column. *)
Definition region_cell (schema : Schema) (r : Row) (d : ColumnDefinition) : cell :=
  if decide (d ∈ sc_columns schema) then row_value r.1 r.2 d else None.

Section Evolution.
Context (schema target : Schema).
Hypothesis Hschema : schema_ok schema.
Hypothesis Htarget : schema_ok target.
Hypothesis Hext : extends schema target.

Lemma user_columns d :
  d ∈ drop 1 (sc_columns schema) ↔ d ∈ sc_columns schema ∧ cd_id d ≠ TIMESTAMP_COLUMN.
Proof using Hschema.
  pose proof (so_ids _ Hschema) as Hnd. destruct (so_ts _ Hschema) as [cols Hc]. rewrite Hc in *.
  cbn [drop map] in *. apply NoDup_cons in Hnd as [Hn _]. rewrite drop_0, elem_of_cons. split.
  - intros Hd. split; [by right|]. intros E. apply Hn. change (cd_id timestamp_definition) with TIMESTAMP_COLUMN.
    rewrite <- E. by apply elem_of_ids.
  - by intros [[->|Hd] Hne].
Qed.

Lemma user_columns_NoDup : NoDup (map cd_id (drop 1 (sc_columns schema))).
Proof using Hschema.
  pose proof (so_ids _ Hschema) as Hnd. destruct (so_ts _ Hschema) as [cols Hc]. rewrite Hc in *.
  by apply NoDup_cons in Hnd as [_ Hnd].
Qed.

Lemma timestamp_column_in d :
  d ∈ sc_columns target → cd_id d = TIMESTAMP_COLUMN → d ∈ sc_columns schema.
Proof using Hschema Htarget Hext.
  intros Hd E. destruct (so_ts _ Hschema) as [cols Hc].
  assert (timestamp_definition ∈ sc_columns schema) as Hts by (rewrite Hc; by left).
  by rewrite <- (ids_inj _ _ _ (so_ids _ Htarget) (ex_kept _ _ Hext _ Hts) Hd (eq_sym E)).
Qed.

Lemma region_row_value r d :
  d ∈ sc_columns target →
  row_value (region_row schema r).1 (region_row schema r).2 d = region_cell schema r d.
Proof using Hschema Htarget Hext.
  intros Hd. unfold region_row, region_cell. cbn [fst snd]. unfold row_value at 1.
  destruct (Z.eqb_spec (cd_id d) TIMESTAMP_COLUMN) as [E|E].
  { rewrite decide_True by (by apply timestamp_column_in). unfold row_value. by rewrite E. }
  destruct (decide (d ∈ sc_columns schema)) as [Hin|Hin].
  - rewrite find_region_input; [|exact user_columns_NoDup|by apply user_columns].
    unfold region_input. by destruct (row_value _ _ d).
  - rewrite find_region_none; [done|]. intros (c & [Hc _]%user_columns & Ec)%ids_elem_of.
    destruct (ex_added _ _ Hext d Hd Hin) as [_ Hid]. apply Hid. rewrite <- Ec. by apply elem_of_ids.
Qed.

Lemma region_row_cell_ok r d :
  row_accepted schema r → d ∈ sc_columns target → cell_ok (cd_column_type d) (region_cell schema r d).
Proof using Hschema.
  intros [Hv Hu] Hd. unfold region_cell. destruct (decide _); [|done]. by apply (row_value_ok schema).
Qed.

(** A rebuilt row is a valid row of the target. *)
Lemma region_row_accepted r : row_accepted schema r → row_accepted target (region_row schema r).
Proof using Hschema Htarget Hext.
  intros [Hv Hu].
  assert (∀ i, i ∈ (region_row schema r).2 → ∃ d, d ∈ sc_columns schema ∧ cd_id d ≠ TIMESTAMP_COLUMN
            ∧ ci_column i = cd_id d ∧ cell_ok (cd_column_type d) (Some (ci_value i))) as Hin.
  { intros i (d & [Hd Hne]%user_columns & Ev & Ec)%region_input_in. exists d. split_and!; try done.
    rewrite <- Ev. by apply (row_value_ok schema). }
  split; [split|].
  - eapply sublist_NoDup; [exact user_columns_NoDup|apply region_columns_sublist].
  - apply Forall_forall. intros i (d & Hd & Hne & -> & Hc & _)%Hin. split; [done|]. exists d.
    split; [|done]. apply schema_column_In; [apply Htarget|by apply Hext].
  - apply Forall_forall. intros d Hd Hne Hreq.
    destruct (decide (d ∈ sc_columns schema)) as [Hk|Hk].
    2:{ destruct (ex_added _ _ Hext d Hd Hk). congruence. }
    cbn [region_row snd]. rewrite find_region_input; [|exact user_columns_NoDup|by apply user_columns].
    pose proof (rv_required _ _ Hv) as Hr. rewrite Forall_forall in Hr. specialize (Hr d Hk Hne Hreq).
    unfold region_input, row_value. rewrite (proj2 (Z.eqb_neq _ _)) by done.
    by destruct (find_input _ _).
  - apply Forall_forall. intros i (d & _ & _ & _ & _ & Hu')%Hin. exact Hu'.
Qed.
End Evolution.

(** ** Pushing the rebuilt rows *)

Section Push.
Context {B : Type} {R : Roaring B} {RL : RoaringLaws B}.

Lemma preflight_row_all ts inputs ds (cs : list (BuilderColumn B)) :
  Forall2 (λ d c, preflight c (row_value ts inputs d) = Ok tt) ds cs →
  preflight_row ts inputs (zip ds cs) = Ok tt.
Proof.
  induction 1 as [|d c ds cs E _ IH]; [done|]. cbn [zip zip_with preflight_row]. by rewrite E.
Qed.

Lemma push_columns_used ts inputs rows ds (cs cs' : list (BuilderColumn B)) :
  Forall2 (λ d c, builder_column_type c = cd_column_type d
                  ∧ builder_column_holds (row_cells rows d) c) ds cs →
  Forall2 (λ d c, dict_used (row_cells rows d) c) ds cs →
  Forall (λ d, cell_ok (cd_column_type d) (row_value ts inputs d)) ds →
  push_columns (len rows) ts inputs ds cs = (cs', Ok tt) →
  Forall2 (λ d c, dict_used (row_cells (rows ++ [(ts, inputs)]) d) c) ds cs'.
Proof.
  intros Hf. revert cs'. induction Hf as [|d c ds cs [Ht Hc] _ IH]; intros cs' Hu Hv Hp; cbn [push_columns] in Hp.
  { injection Hp as <-. constructor. }
  inversion Hu as [|? ? ? ? Hu1 Hu2]; subst. apply Forall_cons in Hv as [Hv1 Hv2]. rewrite <- Ht in Hv1.
  destruct (builder_column_push _ _ _ c) as [c' [[]|e]] eqn:E; [|done].
  destruct (push_columns _ _ _ ds cs) as [cs1 r] eqn:Es. injection Hp as <- ->.
  constructor; [|by apply IH]. unfold row_cells in *. rewrite map_app.
  apply (dict_used_push _ c (cd_id d)); try done. by rewrite len_map.
Qed.

(** The builder holds the rows and its dictionaries only what they use. *)
Definition rebuilding (target : Schema) (rows : list Row) (b : ColumnStoreBuilder B) : Prop :=
  builder_holds target rows b
  ∧ Forall2 (λ d c, dict_used (row_cells rows d) c) (sc_columns target) (cb_columns b).

Lemma rebuilding_new target : rebuilding target [] (builder_new target).
Proof.
  split; [apply builder_new_holds|]. cbn [builder_new cb_columns].
  apply Forall2_fmap_r, Forall_Forall2_diag, Forall_forall. intros d _. apply dict_used_new.
Qed.

Definition rows_room (target : Schema) (all : list Row) : Prop :=
  len all ≤ u32_max
  ∧ Forall (λ d, column_room (cd_column_type d) (row_cells all d)) (sc_columns target).

Lemma row_cells_app rows more d : row_cells (rows ++ more) d = row_cells rows d ++ row_cells more d.
Proof. apply map_app. Qed.

(** A row with room is accepted. *)
Lemma push_with_room target rows r rest b :
  schema_ok target → rebuilding target rows b → row_accepted target r →
  rows_room target (rows ++ r :: rest) →
  ∃ b' row, push_row r.1 r.2 b = (b', Ok row) ∧ rebuilding target (rows ++ [r]) b'.
Proof.
  intros Ht [Hb Hu] [Hv Hutf] [Hn Hroom]. pose proof (push_row_spec target rows b r.1 r.2 Ht Hb Hutf) as Hp.
  destruct Hb as [Hsc Hcount Hbound Hc]. rewrite len_app, len_cons in Hn. pose proof (len_nonneg rest) as Hr0.
  assert (Forall (λ d, cell_ok (cd_column_type d) (row_value r.1 r.2 d)) (sc_columns target)) as Hcells.
  { apply Forall_forall. intros d Hd. by apply (row_value_ok target). }
  assert (Forall2 (λ d c, preflight c (row_value r.1 r.2 d) = Ok tt) (sc_columns target) (cb_columns b)) as Hpre.
  { rewrite Forall2_lookup in Hc, Hu |- *. intros i. specialize (Hc i). specialize (Hu i).
    rewrite Forall_lookup in Hcells, Hroom. specialize (Hcells i). specialize (Hroom i).
    destruct Hc as [d c [Htype Hc]|]; [|constructor]. constructor.
    inversion Hu as [? ? Hu1|]; subst. specialize (Hcells d eq_refl). specialize (Hroom d eq_refl).
    rewrite <- Htype in Hcells, Hroom. rewrite row_cells_app in Hroom.
    by apply (preflight_fits (row_cells rows d) c _ (row_cells rest d) _ Hc Hu1 Hcells eq_refl). }
  unfold push_row in *. rewrite Hsc, Hcount in *. rewrite (proj2 (Z.eqb_neq _ _)) in * by lia.
  apply validate_inputs_spec in Hv. destruct (validate_inputs target r.2) as [[]|]; [|done].
  rewrite (preflight_row_all _ _ _ _ Hpre) in *.
  destruct (push_columns _ _ _ _ _) as [cs' res] eqn:E.
  destruct (push_columns_ok r.1 r.2 rows _ _ Hc Hpre Hcells) as (cs1 & E1 & _).
  rewrite E in E1. injection E1 as -> ->. destruct Hp as (_ & Hb' & _).
  eexists _, _. split; [reflexivity|]. destruct r as [ts inputs]. split; [exact Hb'|]. cbn [cb_columns].
  by apply (push_columns_used ts inputs rows _ (cb_columns b)).
Qed.

(** All rows with room together are accepted, one by one. *)
Lemma rebuild_rows_ok target decoded (all : list Row) :
  schema_ok target → rows_room target all → Forall (row_accepted target) all →
  (∀ (i : nat) r, all !! i = Some r →
     decoded_timestamp decoded (Z.of_nat i) = Ok r.1
     ∧ decoded_inputs (drop 1 decoded) (Z.of_nat i) = Ok r.2) →
  ∃ b, rebuild_rows decoded (row_ids (len all)) (builder_new target) = Ok b ∧ rebuilding target all b.
Proof.
  intros Ht Hroom Hacc Hdec. unfold row_ids.
  enough (∀ rest rows b, rows ++ rest = all → rebuilding target rows b →
    ∃ b', rebuild_rows decoded (seqZ (len rows) (len rest)) b = Ok b'
          ∧ rebuilding target all b') as Hgen.
  { apply (Hgen all [] (builder_new target) eq_refl (rebuilding_new target)). }
  induction rest as [|r rest IH]; intros rows b Hall Hb.
  { rewrite app_nil_r in Hall. subst rows. by exists b. }
  assert (all !! length rows = Some r) as Hr by (rewrite <- Hall; by apply list_lookup_middle).
  rewrite len_cons, seqZ_cons by (pose proof (len_nonneg rest); lia). cbn [rebuild_rows].
  destruct (Hdec _ _ Hr) as [E1 E2]. fold (len rows) in E1, E2. rewrite E1, E2, !bind_Ok. rewrite <- Hall in Hroom.
  assert (row_accepted target r) as Hra by (rewrite Forall_lookup in Hacc; by apply (Hacc _ _ Hr)).
  destruct (push_with_room target rows r rest b Ht Hb Hra Hroom) as (b' & row & -> & Hb').
  destruct (IH (rows ++ [r]) b') as (b'' & E & Hb''); [by rewrite <- app_assoc|done|].
  exists b''. split; [|done]. rewrite len_app, len_cons, (len_nil (A:=Row)) in E.
  replace (Z.succ (len rows)) with (len rows + (1 + 0)) by lia.
  replace (Z.pred (1 + len rest)) with (len rest) by lia. exact E.
Qed.
End Push.

(** ** The room the store leaves *)

Section Room.
Context {B : Type} {R : Roaring B} {RL : RoaringLaws B}.

Lemma stored_string vs cells codes s :
  Forall2 (stores_code vs) cells codes → Some (VString s) ∈ cells → s ∈ vs.
Proof.
  intros Hf (i & Hi)%list_elem_of_lookup. destruct (Forall2_lookup_l _ _ _ _ _ Hf Hi) as (z & _ & _ & Hs).
  by eapply list_elem_of_lookup_2.
Qed.

(** The cells of a sealed column have room in a new one. *)
Lemma column_holds_room cells (c : Column B) : column_holds cells c → column_room (column_type c) cells.
Proof.
  intros [_ Hc]. destruct c as [n|n|n|n|n|d|r]; try done; cbn [column_type column_room].
  - destruct Hc as (vs & b & Hd & _ & Hf). exists vs. split; [|intros s; by apply stored_string with (codes_iter (dc_codes d))].
    split_and!; [by eapply dict_holds_NoDup|apply Hd|]. apply (sh_len _ _ (dh_values _ _ Hd)).
  - destruct Hc as [Hs _]. apply (sh_len _ _ Hs).
Qed.

(** A column no row has a value in has room. *)
Lemma none_room t (cells : list cell) : Forall (λ c, c = None) cells → column_room t cells.
Proof.
  intros Hn. destruct t; try done; cbn [column_room].
  - exists []. split; [by repeat constructor|]. intros s Hs. rewrite Forall_forall in Hn. by specialize (Hn _ Hs).
  - assert (concat (map cell_text cells) = []) as ->; [|done].
    induction Hn as [|c cells -> _ IH]; [done|]. exact IH.
Qed.
End Room.

(** ** Sealing packs the codes *)

Section Packed.
Context {B : Type} {R : Roaring B} {RL : RoaringLaws B}.

Lemma codes_from_u32_packed codes n packed :
  Forall (λ c, 0 ≤ c < Z.max 1 n) codes → n ≤ u32_max → codes_from_u32 codes n = Ok packed →
  codes_packed packed.
Proof.
  intros Hc Hn. unfold codes_from_u32, code_width_for_cardinality. destruct (Z.leb_spec n u16_max).
  - cbn [mbind result_bind]. destruct (mapM _ codes) as [l|] eqn:E; [|done]. intros [= <-]. cbn [codes_packed].
    apply mapM_Some in E. apply Forall_lookup. intros i z Hz.
    destruct (Forall2_lookup_r _ _ _ _ _ E Hz) as (x & _ & Ex). unfold try_from in Ex.
    destruct (Z.leb_spec 0 x), (Z.leb_spec x u16_max); cbn in Ex; try done. injection Ex as <-. done.
  - destruct (Z.leb_spec n u32_max); [|lia]. cbn [mbind result_bind]. intros [= <-].
    eapply Forall_impl; [exact Hc|]. cbn. unfold is_u32, u32_max, u16_max in *. lia.
Qed.

Lemma finish_columns_packed rows ds (cs : list (BuilderColumn B)) cs' :
  Forall2 (λ d c, builder_column_type c = cd_column_type d
                  ∧ builder_column_holds (row_cells rows d) c) ds cs →
  finish_columns cs = Ok cs' → Forall column_packed cs'.
Proof.
  intros Hf. revert cs'. induction Hf as [|d c ds cs [_ [_ Hc]] _ IH]; intros cs' E; cbn [finish_columns] in E.
  { injection E as <-. constructor. }
  apply bind_Ok_inv in E as (column & Ec & E). apply bind_Ok_inv in E as (rest & Er & E). injection E as <-.
  constructor; [|by apply IH]. destruct c as [l p|l p|l p|l p|l p|codes dict p|st p]; cbn in Ec;
    try (by injection Ec as <-).
  apply bind_Ok_inv in Ec as (packed & Ep & Ec). injection Ec as <-. cbn [column_packed dc_codes].
  destruct Hc as (vs & Hd & Hcodes). rewrite (dict_cardinality _ _ Hd) in Ep.
  apply (codes_from_u32_packed codes (len vs)); [by eapply codes_in_range|apply Hd|done].
Qed.

(** What a row is, once the builder has accepted it. *)
Definition row_in_range (r : Row) : Prop :=
  is_i64 r.1 ∧ Forall (λ i, value_range (ci_value i)) r.2.

Lemma push_rows_accepted schema attempts rows (b : ColumnStoreBuilder B) :
  schema_ok schema → builder_holds schema rows b →
  Forall (λ r, Forall (λ i, value_utf8 (ci_value i)) r.2) attempts →
  Forall (λ r, row_accepted schema r ∧ r ∈ attempts) (push_rows attempts b).2.
Proof.
  intros Hs. revert rows b. induction attempts as [|[ts inputs] rest IH]; intros rows b Hb Hu; cbn [push_rows fst snd].
  { constructor. }
  apply Forall_cons in Hu as [Hi Hu]. pose proof (push_row_spec schema rows b ts inputs Hs Hb Hi) as Hp.
  assert (∀ rows' b', builder_holds schema rows' b' →
    Forall (λ r, row_accepted schema r ∧ r ∈ (ts, inputs) :: rest) (push_rows rest b').2) as IH'.
  { intros rows' b' Hb'. eapply Forall_impl; [by apply (IH rows' b')|]. intros r [Hr Hin]. split; [done|by right]. }
  destruct (push_row ts inputs b) as [b' [row|e]].
  - destruct Hp as (_ & Hb' & Hv). specialize (IH' _ b' Hb').
    destruct (push_rows rest b') as [b'' accepted]. constructor; [|exact IH'].
    split; [by split|by left].
  - destruct Hp as [-> _]. by apply (IH' rows).
Qed.

Lemma row_range_cells schema rows : Forall row_in_range rows → rows_range schema rows.
Proof.
  intros Hr. apply Forall_forall. intros d _. unfold row_cells. apply Forall_map.
  eapply Forall_impl; [exact Hr|]. intros [ts inputs] [Hts Hin]. cbn [fst snd] in *. unfold row_value.
  destruct (_ =? _); [done|]. destruct (find_input inputs (cd_id d)) as [i|] eqn:E; [|done].
  apply find_input_Some in E as [Hi _]. rewrite Forall_forall in Hin. by apply Hin.
Qed.
End Packed.

(** ** The region rebuilds the store *)

Section Rebuild.
Context {B : Type} {R : Roaring B} {RL : RoaringLaws B}.

(** The schema a region is decoded to. *)
Definition decoded_to (schema : Schema) (collection : option Schema) : Schema :=
  default schema collection.

(** The collection's schema, when there is one, only adds to the segment's. *)
Definition collection_ok (schema : Schema) (collection : option Schema) : Prop :=
  match collection with
  | None => True
  | Some target => schema_ok target ∧ is_ok (additive_evolution schema target) = true
  end.

Lemma decoded_to_extends schema collection :
  schema_ok schema → collection_ok schema collection →
  schema_ok (decoded_to schema collection) ∧ extends schema (decoded_to schema collection).
Proof.
  intros Hs. destruct collection as [target|]; cbn; [|intros _; split; [done|apply extends_refl]].
  intros [Ht Ha]. split; [done|]. destruct (additive_evolution schema target) as [o|] eqn:E; [|done].
  by apply (extends_evolution schema target o).
Qed.

Lemma schema_new_tail schema :
  schema_ok schema → schema_new (drop 1 (sc_columns schema)) = Ok schema.
Proof.
  intros [[cols Hc] Hids Hnames]. unfold schema_new. rewrite Hc in *. cbn [drop map] in *.
  rewrite drop_0. apply NoDup_cons in Hids as [Hi Hids]. apply NoDup_cons in Hnames as [Hn Hnames].
  assert (check_user_columns [] cols = Ok tt) as ->; [|destruct schema; cbn in Hc; by subst].
  apply check_user_columns_Ok; [constructor..|]. split_and!; try done. apply Forall_forall. intros d Hd. split.
  - intros E. apply Hi. cbn. rewrite <- E. by apply elem_of_ids.
  - intros E. apply Hn. cbn. rewrite <- E. apply list_elem_of_In, in_map, list_elem_of_In, Hd.
Qed.

Lemma decoded_definitions rows ds decoded :
  Forall2 (λ d column, decoded_of d (row_cells rows d) column) ds decoded → map dl_definition decoded = ds.
Proof. induction 1 as [|d column ds decoded [E _] _ IH]; [done|]. cbn [map]. by rewrite E, IH. Qed.

Lemma decoded_schema_ok schema collection rows decoded :
  schema_ok schema → collection_ok schema collection →
  Forall2 (λ d column, decoded_of d (row_cells rows d) column) (sc_columns schema) decoded →
  decoded_schema decoded collection = Ok (decoded_to schema collection).
Proof.
  intros Hs Hc Hd%decoded_definitions. unfold decoded_schema.
  assert (map dl_definition (drop 1 decoded) = drop 1 (sc_columns schema)) as ->
    by (rewrite <- Hd; by destruct decoded).
  rewrite schema_new_tail by done. cbn [map_err]. rewrite bind_Ok.
  destruct collection as [target|]; [|done]. destruct Hc as [_ Ha].
  by destruct (additive_evolution schema target).
Qed.

(** The rebuilt rows have room in the target. *)
Lemma rebuilt_rows_room schema target rows (s : ColumnStore B) :
  schema_ok schema → schema_ok target → extends schema target → store_holds schema rows s →
  rows_room target (map (region_row schema) rows).
Proof.
  intros Hs Ht He Hh. split; [rewrite len_map; apply Hh|]. apply Forall_forall. intros d Hd.
  assert (row_cells (map (region_row schema) rows) d = map (λ r, region_cell schema r d) rows) as ->.
  { unfold row_cells. rewrite map_map. apply map_ext. intros r. by apply (region_row_value schema target). }
  unfold region_cell. destruct (decide (d ∈ sc_columns schema)) as [Hin|Hin].
  - pose proof (th_columns _ _ _ Hh) as Hc. apply list_elem_of_lookup in Hin as [i Hi].
    destruct (Forall2_lookup_l _ _ _ _ _ Hc Hi) as (c & _ & <- & Hch). by apply column_holds_room.
  - apply none_room, Forall_map, Forall_forall. done.
Qed.

Lemma decode_columns_ok schema collection rows (s : ColumnStore B) decoded region :
  schema_ok schema → collection_ok schema collection → store_holds schema rows s →
  Forall (row_accepted schema) rows → reads_end read_columns region (len rows, decoded) →
  len region ≤ isize_max →
  Forall2 (λ d column, decoded_of d (row_cells rows d) column) (sc_columns schema) decoded →
  ∃ s', decode_columns (B:=B) region collection = Ok s'
        ∧ store_holds (decoded_to schema collection) (map (region_row schema) rows) s'.
Proof.
  intros Hs Hcol Hh Hacc Hread Hl Hd. destruct (decoded_to_extends schema collection Hs Hcol) as [Ht He].
  unfold decode_columns. rewrite (run_segment_end _ _ _ Hread Hl), bind_Ok.
  rewrite (decoded_schema_ok schema collection rows) by done. rewrite bind_Ok.
  destruct (rebuild_rows_ok (B:=B) (decoded_to schema collection) decoded (map (region_row schema) rows))
    as (b & E & Hb & _).
  - done.
  - by apply (rebuilt_rows_room schema _ rows s).
  - apply Forall_map. eapply Forall_impl; [exact Hacc|]. intros r. by apply region_row_accepted.
  - intros i r Hr. change (map ?f) with (fmap (M:=list) f) in Hr. apply list_lookup_fmap_Some in Hr as (r0 & -> & Hr0).
    destruct (so_ts _ Hs) as [cols Hts]. split.
    { rewrite Hts in Hd. by apply (decoded_timestamp_ok rows i r0 cols). }
    cbn [region_row snd]. apply (decoded_inputs_ok rows i r0); [done| |by apply Forall2_drop].
    apply Forall_drop, Forall_forall. intros d Hdin. rewrite Forall_lookup in Hacc.
    destruct (Hacc _ _ Hr0) as [Hv Hu]. by apply (row_value_ok schema).
  - rewrite len_map in E. rewrite E, bind_Ok. destruct (finish_ok _ _ _ Hb) as (s' & -> & Hh'). by exists s'.
Qed.

(** The store a region decodes to: the rows the builder accepted, in the
    segment's own schema or in a collection schema that adds nullable columns; every
    column reads the value the row gave it, an added column none. *)
Definition columns_restored (schema : Schema) (collection : option Schema) (accepted : list Row)
    (s : ColumnStore B) : Prop :=
  cs_schema s = decoded_to schema collection
  ∧ cs_row_count s = len accepted
  ∧ store_timestamps s = map fst accepted
  ∧ ∀ d, d ∈ sc_columns (decoded_to schema collection) →
      ∃ c, store_column s (cd_id d) = Some c ∧ column_type c = cd_column_type d
           ∧ ∀ (i : nat) r, accepted !! i = Some r → column_value c (Z.of_nat i) = region_cell schema r d.

(** A sealed column region rebuilds the store it was written from. *)
Lemma columns_region_restores (schema : Schema) (collection : option Schema) (attempts : list Row) :
  schema_ok schema → schema_encodes schema → collection_ok schema collection →
  Forall row_in_range attempts →
  let '(b, accepted) := push_rows attempts (builder_new (B:=B) schema) in
  ∃ s region, finish b = Ok s ∧ encode_columns s = Ok region ∧ cs_row_count s = len accepted ∧ len accepted ≤ u32_max
    ∧ (len region ≤ isize_max →
       ∃ s', decode_columns (B:=B) region collection = Ok s' ∧ columns_restored schema collection accepted s').
Proof.
  intros Hs Hse Hcol Hrange.
  assert (Forall (λ r, Forall (λ i, value_utf8 (ci_value i)) r.2) attempts) as Hu.
  { eapply Forall_impl; [exact Hrange|]. intros r [_ Hr]. eapply Forall_impl; [exact Hr|].
    intros [c []]; done. }
  pose proof (push_rows_spec schema attempts [] _ Hs (builder_new_holds (B:=B) schema) Hu) as Hb.
  pose proof (push_rows_accepted schema attempts [] _ Hs (builder_new_holds (B:=B) schema) Hu) as Hacc.
  destruct (push_rows attempts _) as [b accepted]. cbn [app snd] in Hb, Hacc.
  destruct (finish_ok _ _ _ Hb) as (s & E & Hh).
  assert (Forall column_packed (cs_columns s)) as Hpacked.
  { unfold finish in E. destruct (finish_columns (cb_columns b)) as [cs|] eqn:Ef; [|done].
    injection E as <-. apply (finish_columns_packed accepted _ _ _ (bh_columns _ _ _ Hb) Ef). }
  assert (rows_range schema accepted) as Hrr.
  { apply row_range_cells, Forall_forall. intros r Hr. rewrite Forall_forall in Hacc, Hrange.
    by apply Hrange, Hacc. }
  destruct (columns_region_read schema accepted s Hs Hse Hh Hpacked Hrr) as (region & decoded & Ee & Hread & Hd).
  exists s, region. split_and!; [done|done|apply Hh|pose proof (th_bound _ _ _ Hh); lia|]. intros Hl.
  destruct (decode_columns_ok schema collection accepted s decoded region) as (s' & Es & Hh'); try done.
  { eapply Forall_impl; [exact Hacc|]. by intros r []. }
  destruct (decoded_to_extends schema collection Hs Hcol) as [Ht He].
  exists s'. split; [done|]. split_and!; [apply Hh'|by rewrite (th_count _ _ _ Hh'), len_map| |].
  { rewrite (timestamps_spec _ _ _ Ht Hh'), map_map. done. }
  intros d Hdin. pose proof (store_column_spec _ _ s' (cd_id d) Hh') as Hc.
  rewrite (schema_column_In _ _ (so_ids _ Ht) Hdin) in Hc.
  destruct (store_column s' (cd_id d)) as [c|]; [|done]. destruct Hc as (d' & [= <-] & Hty & Hc).
  exists c. split_and!; [done|done|]. intros i r Hi.
  rewrite <- (region_row_value schema _ Hs Ht He r d Hdin).
  eapply cell_at; [exact Hc|unfold row_cells; rewrite !len_map; apply Hh|].
  apply row_cells_lookup. change (map ?f) with (fmap (M:=list) f). by rewrite list_lookup_fmap, Hi.
Qed.
End Rebuild.

(** ** Witness *)

Module SampleRegion.
Definition note : ColumnDefinition :=
  {| cd_id := 3; cd_name := [Byte.x63]; cd_column_type := RawString; cd_nullable := true |}.
(** The collection has added a column since the segment was sealed. *)
Definition collection : Schema :=
  {| sc_columns := [timestamp_definition; SampleColumns.tag; SampleColumns.size_; note] |}.

Lemma collection_is_ok : collection_ok SampleColumns.schema (Some collection).
Proof.
  split; [|by vm_compute]. apply (schema_new_ok [SampleColumns.tag; SampleColumns.size_; note]). reflexivity.
Qed.

Lemma schema_fits : schema_encodes SampleColumns.schema.
Proof. split; [by vm_compute|]. repeat constructor; by vm_compute. Qed.

Lemma attempts_range : Forall row_in_range SampleColumns.attempts.
Proof. repeat constructor; by vm_compute. Qed.
End SampleRegion.
