(* ===== verification/SegmentWriter.v ===== *)
(** * Assembling and publishing a segment

    Models [crates/zeppelin-embed/src/segment/writer.rs]: the encoders of the
    row-aligned regions, the directory and its offsets, the checksum table, the
    whole image with its header and trailer, and [publish_segment], which writes
    it under a temporary name, reads it back, syncs and renames it.

    A segment id is its 16 bytes and an [f32] its bits.  The node blocks of a
    graph arrive encoded, and decoding a postings region is a parameter that
    gives its row count: neither codec is part of this development. *)

From S2P Require Import Prelude Format Cursor Durability Schema Manifest Vfs ManifestIo Bitmap Dict Columns SegmentLayout.

(** ** What a segment is built from *)

Record Bit4Factors : Type := {
  b4_scale : Z;
  b4_normalized_norm : Z;
  b4_normalized_correction : Z;
}.

Definition persisted_fields (f : Bit4Factors) : list Z :=
  [b4_scale f; b4_normalized_norm f; b4_normalized_correction f].

Record Int8Factors : Type := {
  i8_scale : Z;
  i8_offset : Z;
}.

Inductive SegmentFactors : Type :=
| FactorsF32
| FactorsBit4 (factors : list Bit4Factors)
| FactorsInt8 (factors : list Int8Factors).

Record SegmentBuild (B : Type) : Type := {
  sb_id : bytes;
  sb_scheme : Z;
  sb_dims : Z;
  sb_codes : bytes;
  sb_factors : SegmentFactors;
  sb_rescore : list Z;
  sb_columns : ColumnStore B;
  sb_alive : AliveSet B;
}.
Arguments Build_SegmentBuild {B} sb_id sb_scheme sb_dims sb_codes sb_factors sb_rescore sb_columns sb_alive.
Arguments sb_id {B} s.
Arguments sb_scheme {B} s.
Arguments sb_dims {B} s.
Arguments sb_codes {B} s.
Arguments sb_factors {B} s.
Arguments sb_rescore {B} s.
Arguments sb_columns {B} s.
Arguments sb_alive {B} s.

Record SegmentDocumentVersions : Type := {
  sd_doc_ids : list Z;
  sd_revisions : list Z;
}.

Record SegmentStoredMetadata : Type := {
  sx_end_offsets : list Z;
  sx_bytes : bytes;
}.

Record SegmentStoredText : Type := {
  st_present : bytes;
  st_end_offsets : list Z;
  st_bytes : bytes;
}.

(** [SegmentPostings::bytes]. *)
Record SegmentPayloads : Type := {
  pl_documents : SegmentDocumentVersions;
  pl_metadata : option SegmentStoredMetadata;
  pl_text : option SegmentStoredText;
  pl_postings : option bytes;
}.

Record RegionBytes : Type := {
  rb_kind : RegionKind;
  rb_family : FormatFamily;
  rb_bytes : bytes;
}.

Record SegmentCopiedRegion : Type := {
  cr_kind : Z;
  cr_version : Z;
  cr_bytes : bytes;
}.

(** ** Row-aligned regions *)

(** The last of a list of end offsets, when none is smaller than the one
    before. *)
Fixpoint monotonic_end (previous : Z) (ends : list Z) : option Z :=
  match ends with
  | [] => Some previous
  | last_end :: ends => if last_end <? previous then None else monotonic_end last_end ends
  end.

Definition encode_stored_metadata (metadata : SegmentStoredMetadata) (rows : Z)
    : result SegmentError bytes :=
  if negb (len (sx_end_offsets metadata) =? rows) then Err SegmentGeometry
  else
  previous ← ok_or (monotonic_end 0 (sx_end_offsets metadata)) SegmentGeometry;
  byte_len ← ok_or (try_from u64_max (len (sx_bytes metadata))) SegmentGeometry;
  if negb (previous =? byte_len) then Err SegmentGeometry
  else
  offset_count ← ok_or (checked_add usize_max rows 1) SegmentGeometry;
  _ ← ok_or (value ← checked_add usize_max 8 (saturating_mul usize_max offset_count 8);
             checked_add usize_max value (len (sx_bytes metadata))) SegmentGeometry;
  row_count ← ok_or (try_from u32_max rows) SegmentGeometry;
  Ok (u32_le row_count ++ u32_le 0 ++ u64_le 0
      ++ concat (map u64_le (sx_end_offsets metadata)) ++ sx_bytes metadata).

(** The loop over the rows of a text region; it returns the last end offset. *)
Fixpoint check_text_rows (payload : bytes) (previous : Z) (rows : list (byte * Z))
    : result SegmentError Z :=
  match rows with
  | [] => Ok previous
  | (present, row_end) :: rows =>
      if 1 <? byte_value present then Err SegmentGeometry
      else if row_end <? previous then Err SegmentGeometry
      else if (byte_value present =? 0) && negb (row_end =? previous) then Err SegmentGeometry
      else
      start ← ok_or (try_from usize_max previous) SegmentGeometry;
      finish ← ok_or (try_from usize_max row_end) SegmentGeometry;
      row_bytes ← ok_or (slice_range payload start finish) SegmentGeometry;
      if (byte_value present =? 1) && negb (utf8_valid row_bytes) then Err SegmentGeometry
      else check_text_rows payload row_end rows
  end.

(** The rows whose presence byte is one, in order. *)
Definition present_rows (present : bytes) : list Z :=
  filter (λ row, byte_value <$> present !! Z.to_nat row = Some 1) (row_ids (len present)).

Definition encode_stored_text (text : SegmentStoredText) (rows : Z) : result SegmentError bytes :=
  if negb (len (st_present text) =? rows) || negb (len (st_end_offsets text) =? rows)
  then Err SegmentGeometry
  else
  previous ← check_text_rows (st_bytes text) 0 (zip (st_present text) (st_end_offsets text));
  byte_len ← ok_or (try_from u64_max (len (st_bytes text))) SegmentGeometry;
  if negb (previous =? byte_len) then Err SegmentGeometry
  else
  let bitmap_len := div_up rows 8 in
  _ ← ok_or (value ← checked_add usize_max 8 bitmap_len;
             value ← checked_add usize_max value (saturating_mul usize_max rows 8);
             checked_add usize_max value (len (st_bytes text))) SegmentGeometry;
  row_count ← ok_or (try_from u32_max rows) SegmentGeometry;
  Ok (u32_le row_count ++ u32_le 0 ++ bits_of bitmap_len (present_rows (st_present text))
      ++ concat (map u64_le (st_end_offsets text)) ++ st_bytes text).

Definition encode_document_versions (documents : SegmentDocumentVersions) (rows : Z)
    : result SegmentError bytes :=
  if negb (len (sd_doc_ids documents) =? rows) || negb (len (sd_revisions documents) =? rows)
  then Err SegmentGeometry
  else
  _ ← ok_or (checked_mul usize_max rows 24) SegmentGeometry;
  Ok (concat (map (λ '(doc_id, revision), u128_le doc_id ++ u64_le revision)
                (zip (sd_doc_ids documents) (sd_revisions documents)))).

(** The row stride, the factor stride and the factor records. *)
Definition encode_factors (scheme dims : Z) (factors : SegmentFactors) (rows : Z)
    : result SegmentError (Z * Z * bytes) :=
  match factors with
  | FactorsF32 =>
      if negb (scheme =? 0) then Err SegmentGeometry
      else
      row_stride ← ok_or (checked_mul usize_max dims 4) SegmentGeometry;
      Ok (row_stride, 0, [])
  | FactorsBit4 factors =>
      if negb (scheme =? 4) then Err SegmentGeometry
      else if negb (len factors =? rows) then Err SegmentGeometry
      else Ok (div_up dims 2, 12, concat (map (λ f, concat (map u32_le (persisted_fields f))) factors))
  | FactorsInt8 factors =>
      if negb (scheme =? 2) then Err SegmentGeometry
      else if negb (len factors =? rows) then Err SegmentGeometry
      else Ok (dims, 8, concat (map (λ f, u32_le (i8_scale f) ++ u32_le (i8_offset f)) factors))
  end.

(** ** The directory *)

(** [FormatRegistry::families().iter().find(..)]. *)
Definition registered_version (family : FormatFamily) : result SegmentError Z :=
  ok_or (fs_current_version <$> List.find (λ spec, bool_decide (fs_family spec = family)) families)
    SegmentGeometry.

(** The offset after a region of the given length, aligned. *)
Definition offset_after (offset length : Z) : result SegmentError Z :=
  region_end ← ok_or (checked_add usize_max offset length) SegmentGeometry;
  align_up region_end REGION_ALIGNMENT.

(** [FILE_HEADER_LEN + SEGMENT_PREFIX_LEN + region_count * REGION_ENTRY_LEN + 8]. *)
Definition segment_header_length (region_count : Z) : result SegmentError Z :=
  ok_or (value ← checked_add usize_max FILE_HEADER_LEN SEGMENT_PREFIX_LEN;
         value ← checked_add usize_max value (saturating_mul usize_max region_count REGION_ENTRY_LEN);
         checked_add usize_max value 8) SegmentGeometry.

Section Encode.
Context {X : Xxh3}.

Definition region_entry (kind version offset : Z) (data : bytes) : result SegmentError RegionEntry :=
  length ← ok_or (try_from u64_max (len data)) SegmentGeometry;
  Ok {| re_kind := kind; re_version := version; re_reserved := 0; re_offset := offset;
        re_length := length; re_checksum := xxh3_64 data |}.

(** The first loop: one entry per built region. *)
Fixpoint region_entries (next_offset : Z) (entries : list RegionEntry) (regions : list RegionBytes)
    : result SegmentError (Z * list RegionEntry) :=
  match regions with
  | [] => Ok (next_offset, entries)
  | region :: regions =>
      version ← registered_version (rb_family region);
      entry ← region_entry (region_id (rb_kind region)) version next_offset (rb_bytes region);
      next_offset ← offset_after next_offset (len (rb_bytes region));
      region_entries next_offset (entries ++ [entry]) regions
  end.

(** The second loop: the copied regions, none of a kind already present. *)
Fixpoint copied_entries (next_offset : Z) (entries : list RegionEntry)
    (copied : list SegmentCopiedRegion) : result SegmentError (Z * list RegionEntry) :=
  match copied with
  | [] => Ok (next_offset, entries)
  | region :: copied =>
      if (cr_kind region =? region_id RegionChecksumTable)
         || existsb (λ entry, re_kind entry =? cr_kind region) entries
      then Err SegmentGeometry
      else
      entry ← region_entry (cr_kind region) (cr_version region) next_offset (cr_bytes region);
      next_offset ← offset_after next_offset (len (cr_bytes region));
      copied_entries next_offset (entries ++ [entry]) copied
  end.

(** [slice::chunks]; every chunk but the last has [n] elements. *)
Fixpoint chunks_fuel (fuel : nat) (n : nat) (data : bytes) : list bytes :=
  match fuel, data with
  | S fuel, _ :: _ => take n data :: chunks_fuel fuel n (drop n data)
  | _, _ => []
  end.

Definition chunks (n : Z) (data : bytes) : list bytes :=
  chunks_fuel (length data) (Z.to_nat n) data.

(** The table entries of one region. *)
Definition checksum_entries (kind : Z) (data : bytes) : bytes :=
  concat (imap (λ chunk_index chunk,
                  u16_le kind ++ u16_le 0 ++ u32_le (Z.of_nat chunk_index) ++ u64_le (xxh3_64 chunk))
            (chunks CHECKSUM_CHUNK_BYTES data)).

Definition encode_checksum_table (regions : list RegionBytes) (copied : list SegmentCopiedRegion)
    : bytes :=
  let entry_count :=
    foldr Z.add 0 (map (λ region, div_up (len (rb_bytes region)) CHECKSUM_CHUNK_BYTES) regions
                   ++ map (λ region, div_up (len (cr_bytes region)) CHECKSUM_CHUNK_BYTES) copied) in
  u32_le entry_count ++ u32_le CHECKSUM_CHUNK_BYTES
  ++ concat (map (λ region, checksum_entries (region_id (rb_kind region)) (rb_bytes region)) regions)
  ++ concat (map (λ region, checksum_entries (cr_kind region) (cr_bytes region)) copied).

Definition encode_entry (entry : RegionEntry) : bytes :=
  u16_le (re_kind entry) ++ u16_le (re_version entry) ++ u32_le (re_reserved entry)
  ++ u64_le (re_offset entry) ++ u64_le (re_length entry) ++ u64_le (re_checksum entry).

(** [Vec::resize] with zeros. *)
Definition resize_zeros (n : Z) (output : bytes) : bytes := resize (Z.to_nat n) Byte.x00 output.

(** Appending regions at the offsets of their entries ([zip]). *)
Fixpoint append_regions (output : bytes) (regions : list bytes) (entries : list RegionEntry)
    : result SegmentError bytes :=
  match regions, entries with
  | region :: regions, entry :: entries =>
      offset ← ok_or (try_from usize_max (re_offset entry)) SegmentGeometry;
      if negb (len output =? offset) then Err SegmentGeometry
      else
      aligned ← align_up (len (output ++ region)) REGION_ALIGNMENT;
      append_regions (resize_zeros aligned (output ++ region)) regions entries
  | _, _ => Ok output
  end.

(** The fields of [encode_regions]' output before the directory. *)
Definition segment_prefix (id : bytes) (row_count scheme dims region_count header_length file_length : Z)
    : bytes :=
  FILE_MAGIC ++ u16_le (family_id Segment) ++ u16_le 1 ++ u32_le 0
  ++ u64_le header_length ++ u64_le file_length
  ++ id ++ u32_le row_count ++ u16_le region_count ++ u16_le 0
  ++ u16_le scheme ++ u16_le 0 ++ u32_le dims.

(** The regions' part of the image, after the header. *)
Definition append_body (output : bytes) (regions : list RegionBytes)
    (copied : list SegmentCopiedRegion) (entries : list RegionEntry) (checksum_table : bytes)
    : result SegmentError bytes :=
  first_offset ← ok_or (entry ← head entries; try_from usize_max (re_offset entry)) SegmentGeometry;
  output ← append_regions (resize_zeros first_offset output) (map rb_bytes regions) entries;
  output ← append_regions output (map cr_bytes copied) (drop (length regions) entries);
  checksum_entry ← ok_or (last entries) SegmentGeometry;
  checksum_offset ← ok_or (try_from usize_max (re_offset checksum_entry)) SegmentGeometry;
  if negb (len output =? checksum_offset) then Err SegmentGeometry
  else Ok (output ++ checksum_table).

Definition encode_regions (id : bytes) (row_count scheme dims : Z) (regions : list RegionBytes)
    (copied : list SegmentCopiedRegion) : result SegmentError bytes :=
  let region_count :=
    saturating_add usize_max (saturating_add usize_max (len regions) (len copied)) 1 in
  header_length ← segment_header_length region_count;
  next_offset ← align_up header_length REGION_ALIGNMENT;
  '(next_offset, entries) ← region_entries next_offset [] regions;
  '(next_offset, entries) ← copied_entries next_offset entries copied;
  let checksum_table := encode_checksum_table regions copied in
  version ← registered_version ChecksumTable;
  let entries :=
    entries ++ [{| re_kind := region_id RegionChecksumTable; re_version := version; re_reserved := 0;
                   re_offset := next_offset; re_length := len checksum_table;
                   re_checksum := xxh3_64 checksum_table |}] in
  file_without_trailer ← ok_or (checked_add usize_max next_offset (len checksum_table)) SegmentGeometry;
  file_length ← ok_or (checked_add usize_max file_without_trailer FILE_TRAILER_LEN) SegmentGeometry;
  let output := segment_prefix id row_count scheme dims region_count header_length file_length
                ++ concat (map encode_entry entries) in
  let output := output ++ u64_le (xxh3_64 output) in
  if negb (len output =? header_length) then Err SegmentGeometry
  else
  output ← append_body output regions copied entries checksum_table;
  let output := output ++ u64_le (xxh3_64 output) in
  if negb (len output =? file_length) then Err SegmentGeometry
  else Ok output.

(** ** The whole segment *)

Section Build.
Context {B : Type} `{Roaring B}.
(** [SealedSegment::decode_region], reduced to the row count it yields. *)
Context (postings_rows : bytes → result SegmentError Z).

Definition vector_header (scheme dims row_stride factor_stride row_count : Z) : VectorHeader :=
  {| vh_scheme := scheme; vh_vector_space_id := 0; vh_dims := dims;
     vh_row_stride_bytes := row_stride; vh_factor_stride_bytes := factor_stride;
     vh_transform_kind := 0; vh_transform_seed := 0; vh_row_count := row_count; vh_reserved := 0 |}.

(** The regions of the vectors: factors, codes and rescore source. *)
Definition vector_regions (build : SegmentBuild B) : result SegmentError (list RegionBytes) :=
  let row_count := cs_row_count (sb_columns build) in
  _ ← map_err (λ _, SegmentGeometry) (require_scheme (sb_scheme build));
  dims ← ok_or (try_from usize_max (sb_dims build)) SegmentGeometry;
  let rows := row_count in
  '(row_stride, factor_stride, factor_bytes) ←
    encode_factors (sb_scheme build) (sb_dims build) (sb_factors build) rows;
  expected_codes ← ok_or (checked_mul usize_max row_stride rows) SegmentGeometry;
  if negb (len (sb_codes build) =? expected_codes) then Err SegmentGeometry
  else
  expected_rescore ← ok_or (checked_mul usize_max dims rows) SegmentGeometry;
  if negb (len (sb_rescore build) =? expected_rescore) then Err SegmentGeometry
  else
  row_stride ← ok_or (try_from u32_max row_stride) SegmentGeometry;
  let common_header := vector_header (sb_scheme build) (sb_dims build) row_stride factor_stride row_count in
  _ ← vector_header_validate common_header;
  rescore_stride ← ok_or (checked_mul usize_max dims 4) SegmentGeometry;
  rescore_stride ← ok_or (try_from u32_max rescore_stride) SegmentGeometry;
  let rescore_header := vector_header 0 (sb_dims build) rescore_stride 0 row_count in
  Ok [{| rb_kind := RegionVectorFactors; rb_family := VectorFactors;
         rb_bytes := encode_vector_header common_header ++ factor_bytes |};
      {| rb_kind := RegionVectorCodes; rb_family := VectorCodes;
         rb_bytes := encode_vector_header common_header ++ sb_codes build |};
      {| rb_kind := RegionVectorRescore; rb_family := VectorRescore;
         rb_bytes := encode_vector_header rescore_header ++ concat (map u32_le (sb_rescore build)) |}].

(** A region that is there when its source is. *)
Definition optional_region {A} (kind : RegionKind) (family : FormatFamily)
    (encode : A → result SegmentError bytes) (source : option A)
    : result SegmentError (list RegionBytes) :=
  match source with
  | None => Ok []
  | Some source =>
      data ← encode source;
      Ok [{| rb_kind := kind; rb_family := family; rb_bytes := data |}]
  end.

(** Postings are copied as they are, after their rows were counted. *)
Definition check_postings (row_count : Z) (postings : bytes) : result SegmentError bytes :=
  rows ← postings_rows postings;
  if negb (rows =? row_count) then Err SegmentGeometry else Ok postings.

Definition encode_segment_inner (build : SegmentBuild B) (graph_bytes : option bytes)
    (document_versions : option SegmentDocumentVersions)
    (stored_metadata : option SegmentStoredMetadata) (stored_text : option SegmentStoredText)
    (postings : option bytes) (copied_regions : list SegmentCopiedRegion)
    : result SegmentError bytes :=
  let row_count := cs_row_count (sb_columns build) in
  if negb (as_row_count (sb_alive build) =? row_count) then Err SegmentGeometry
  else
  vectors ← vector_regions build;
  columns ← encode_columns (sb_columns build);
  let regions :=
    [{| rb_kind := RegionColumns; rb_family := Format.Columns; rb_bytes := columns |};
     {| rb_kind := RegionAlive; rb_family := Alive; rb_bytes := encode_alive (sb_alive build) |}]
    ++ vectors in
  graph ← optional_region RegionGraphNodeBlocks GraphNodeBlocks Ok graph_bytes;
  documents ← optional_region RegionDocumentVersions DocumentVersions
                (λ documents, encode_document_versions documents row_count) document_versions;
  metadata ← optional_region RegionStoredMetadata StoredMetadata
               (λ metadata, encode_stored_metadata metadata row_count) stored_metadata;
  text ← optional_region RegionStoredText StoredText
           (λ text, encode_stored_text text row_count) stored_text;
  posting ← optional_region RegionPostings Postings (check_postings row_count) postings;
  encode_regions (sb_id build) row_count (sb_scheme build) (sb_dims build)
    (regions ++ graph ++ documents ++ metadata ++ text ++ posting) copied_regions.

Definition encode_segment (build : SegmentBuild B) : result SegmentError bytes :=
  encode_segment_inner build None None None None None [].

(** ** Publication *)

Context {S : Type} `{Vfs S}.

(** [temporary_path]. *)
Definition segment_temporary (id : bytes) : string :=
  String.append "." (String.append (segment_file_name id) ".tmp").

Definition publish_segment (build : SegmentBuild B) (policy : DurabilityPolicy) (b : bytes) (s : S)
    : S * result SegmentError SegmentMeta :=
  let final := segment_file_name (sb_id build) in
  let temporary := segment_temporary (sb_id build) in
  match v_write temporary b s with
  | (s, Err k) => (s, Err (SegmentIo temporary k))
  | (s, Ok _) =>
    match v_read temporary s with
    | Err k => (s, Err (SegmentIo temporary k))
    | Ok observed =>
      if negb (bool_decide (observed = b))
      then (s, Err (SegmentFormat (format_error temporary
                      (if negb (len observed =? len b) then CheckFileLength else CheckFileChecksum))))
      else
      match sync_if (data_file_sync policy) (File temporary) s with
      | (s, Err k) => (s, Err (SegmentIo temporary k))
      | (s, Ok _) =>
        match v_rename temporary final s with
        | (s, Err k) => (s, Err (SegmentIo final k))
        | (s, Ok _) =>
          match sync_if (directory_sync policy) Directory s with
          | (s, Err k) => (s, Err (SegmentIo "." k))
          | (s, Ok _) =>
              (s, Ok {| sm_id := sb_id build; sm_row_count := cs_row_count (sb_columns build);
                        sm_scheme := sb_scheme build; sm_dims := sb_dims build;
                        sm_file_size := len b; sm_epoch_id := None;
                        sm_clustering_key_range := Unstamped |})
          end
        end
      end
    end
  end.

(** Encoding and publishing; nothing is written when encoding fails. *)
Definition publish_encoded (build : SegmentBuild B) (policy : DurabilityPolicy)
    (encoded : result SegmentError bytes) (s : S) : S * result SegmentError SegmentMeta :=
  match encoded with
  | Err e => (s, Err e)
  | Ok b => publish_segment build policy b s
  end.

Definition write_segment (build : SegmentBuild B) (policy : DurabilityPolicy) (s : S)
    : S * result SegmentError SegmentMeta :=
  publish_encoded build policy (encode_segment build) s.

Definition write_segment_with_documents (build : SegmentBuild B)
    (documents : SegmentDocumentVersions) (policy : DurabilityPolicy) (s : S)
    : S * result SegmentError SegmentMeta :=
  publish_encoded build policy
    (encode_segment_inner build None (Some documents) None None None []) s.

Definition write_segment_with_documents_and_metadata (build : SegmentBuild B)
    (documents : SegmentDocumentVersions) (metadata : SegmentStoredMetadata)
    (policy : DurabilityPolicy) (s : S) : S * result SegmentError SegmentMeta :=
  publish_encoded build policy
    (encode_segment_inner build None (Some documents) (Some metadata) None None []) s.

Definition write_segment_with_documents_and_text (build : SegmentBuild B)
    (documents : SegmentDocumentVersions) (text : SegmentStoredText)
    (policy : DurabilityPolicy) (s : S) : S * result SegmentError SegmentMeta :=
  publish_encoded build policy
    (encode_segment_inner build None (Some documents) None (Some text) None []) s.

Definition write_segment_with_documents_and_postings (build : SegmentBuild B)
    (documents : SegmentDocumentVersions) (postings : bytes)
    (policy : DurabilityPolicy) (s : S) : S * result SegmentError SegmentMeta :=
  publish_encoded build policy
    (encode_segment_inner build None (Some documents) None None (Some postings) []) s.

Definition write_segment_with_postings (build : SegmentBuild B) (postings : bytes)
    (policy : DurabilityPolicy) (s : S) : S * result SegmentError SegmentMeta :=
  publish_encoded build policy
    (encode_segment_inner build None None None None (Some postings) []) s.

Definition write_segment_with_documents_metadata_and_postings (build : SegmentBuild B)
    (documents : SegmentDocumentVersions) (metadata : SegmentStoredMetadata) (postings : bytes)
    (policy : DurabilityPolicy) (s : S) : S * result SegmentError SegmentMeta :=
  publish_encoded build policy
    (encode_segment_inner build None (Some documents) (Some metadata) None (Some postings) []) s.

Definition write_segment_with_documents_payloads (build : SegmentBuild B)
    (payloads : SegmentPayloads) (policy : DurabilityPolicy) (s : S)
    : S * result SegmentError SegmentMeta :=
  publish_encoded build policy
    (encode_segment_inner build None (Some (pl_documents payloads)) (pl_metadata payloads)
       (pl_text payloads) (pl_postings payloads) []) s.
End Build.
End Encode.
