(* ===== verification/SegmentReader.v ===== *)
(** * Opening a segment and reading its regions

    Models [crates/zeppelin-embed/src/segment/reader.rs]: the header and
    directory parser with its bounds checks, the checksummed access to regions
    and to their chunks, the validation of a whole image, and the row-aligned
    regions: document versions, stored metadata and stored text.

    The mapping is its bytes.  A [OnceLock] the reader keeps is an [option] in
    its state; a method that fills one returns the reader with it set.  The
    reader is the one [SegmentReader::open] makes, without an accounting. *)

From stdpp Require Import pretty.
From S2P Require Import Prelude Format Cursor Schema Manifest ManifestIo Bitmap Dict Columns SegmentLayout.

Definition MAX_SEGMENT_HEADER_BYTES : Z := 1024 * 1024.

(** ** The header *)

Record ParsedHeader : Type := {
  ph_meta : SegmentMeta;
  ph_header_length : Z;
  ph_entries : list RegionEntry;
}.

Definition seg_u16 (artifact : string) (b : bytes) (offset : Z) : result SegmentError Z :=
  map_err SegmentFormat (read_u16 artifact b offset).
Definition seg_u32 (artifact : string) (b : bytes) (offset : Z) : result SegmentError Z :=
  map_err SegmentFormat (read_u32 artifact b offset).
Definition seg_u64 (artifact : string) (b : bytes) (offset : Z) : result SegmentError Z :=
  map_err SegmentFormat (read_u64 artifact b offset).

(** A [FormatError::new] as the error of an operation. *)
Definition seg_format (artifact : string) (check : FormatCheck) : SegmentError :=
  SegmentFormat (format_error artifact check).

Definition validate_bounded_header_length (artifact : string) (header_length actual_file_length : Z)
    : result SegmentError unit :=
  if negb ((FILE_HEADER_LEN + SEGMENT_PREFIX_LEN + 8 <=? header_length)
           && (header_length <=? MAX_SEGMENT_HEADER_BYTES))
  then Err (seg_format artifact CheckHeaderLength)
  else
  file_length ← ok_or (try_from usize_max actual_file_length) SegmentGeometry;
  if saturating_sub file_length FILE_TRAILER_LEN <? header_length
  then Err (seg_format artifact CheckHeaderLength)
  else Ok tt.

Definition validate_entry (artifact : string) (entry : RegionEntry) (header_length file_length : Z)
    : result SegmentError unit :=
  offset ← ok_or (try_from usize_max (re_offset entry)) SegmentGeometry;
  length ← ok_or (try_from usize_max (re_length entry)) SegmentGeometry;
  minimum ← align_up header_length REGION_ALIGNMENT;
  if (offset <? minimum) || negb (offset mod REGION_ALIGNMENT =? 0) then Err SegmentGeometry
  else
  region_end ← ok_or (checked_add usize_max offset length) SegmentGeometry;
  file_length ← ok_or (try_from usize_max file_length) SegmentGeometry;
  maximum ← ok_or (checked_sub file_length FILE_TRAILER_LEN) SegmentGeometry;
  if maximum <? region_end then Err (seg_format artifact CheckBlockLength) else Ok tt.

(** The inner loop: one entry against those after it. *)
Fixpoint overlaps_none (entry : RegionEntry) (entry_end : Z) (others : list RegionEntry)
    : result SegmentError unit :=
  match others with
  | [] => Ok tt
  | other :: others =>
      other_end ← ok_or (checked_add u64_max (re_offset other) (re_length other)) SegmentGeometry;
      if (re_offset entry <? other_end) && (re_offset other <? entry_end) then Err SegmentGeometry
      else overlaps_none entry entry_end others
  end.

Fixpoint validate_non_overlapping (entries : list RegionEntry) : result SegmentError unit :=
  match entries with
  | [] => Ok tt
  | entry :: entries =>
      entry_end ← ok_or (checked_add u64_max (re_offset entry) (re_length entry)) SegmentGeometry;
      _ ← overlaps_none entry entry_end entries;
      validate_non_overlapping entries
  end.

Definition read_region_entry (artifact : string) (header_bytes : bytes) (offset : Z)
    : result SegmentError RegionEntry :=
  kind ← seg_u16 artifact header_bytes offset;
  version ← seg_u16 artifact header_bytes (saturating_add usize_max offset 2);
  reserved ← seg_u32 artifact header_bytes (saturating_add usize_max offset 4);
  region_offset ← seg_u64 artifact header_bytes (saturating_add usize_max offset 8);
  length ← seg_u64 artifact header_bytes (saturating_add usize_max offset 16);
  checksum ← seg_u64 artifact header_bytes (saturating_add usize_max offset 24);
  Ok {| re_kind := kind; re_version := version; re_reserved := reserved;
        re_offset := region_offset; re_length := length; re_checksum := checksum |}.

(** A known kind of a registered family has an accepted version. *)
Definition require_region_version (artifact : string) (entry : RegionEntry)
    : result SegmentError unit :=
  match region_from_id (re_kind entry) ≫= region_family with
  | Some family =>
      _ ← map_err (λ e, SegmentFormat (registry_error artifact e))
            (require (family_id family) (re_version entry));
      Ok tt
  | None => Ok tt
  end.

(** The directory loop: the entries from [position] on, after [entries]. *)
Fixpoint read_directory (artifact : string) (header_bytes : bytes)
    (header_length file_length : Z) (count : nat) (position : Z) (entries : list RegionEntry)
    : result SegmentError (list RegionEntry) :=
  match count with
  | O => Ok entries
  | S count =>
      offset ← ok_or (checked_add usize_max (saturating_add usize_max FILE_HEADER_LEN SEGMENT_PREFIX_LEN)
                        (saturating_mul usize_max position REGION_ENTRY_LEN)) SegmentGeometry;
      entry ← read_region_entry artifact header_bytes offset;
      if negb (re_reserved entry =? 0) then Err SegmentGeometry
      else if existsb (λ existing, re_kind existing =? re_kind entry) entries then Err SegmentGeometry
      else
      _ ← validate_entry artifact entry header_length file_length;
      _ ← require_region_version artifact entry;
      read_directory artifact header_bytes header_length file_length count (position + 1)
        (entries ++ [entry])
  end.

(** The fixed header, and the whole header it declares. *)
Definition bounded_header (artifact : string) (b : bytes) (actual_file_length : Z)
    : result SegmentError (Z * bytes) :=
  fixed ← map_err SegmentFormat (decode_header artifact Segment b);
  if negb (fh_file_length fixed =? actual_file_length) then Err (seg_format artifact CheckFileLength)
  else
  header_length ← ok_or (try_from usize_max (fh_header_length fixed)) SegmentGeometry;
  _ ← validate_bounded_header_length artifact header_length actual_file_length;
  header_bytes ← ok_or (slice_to b header_length) (seg_format artifact CheckLength);
  Ok (header_length, header_bytes).

Definition preflight_region_count (artifact : string) (b : bytes) (actual_file_length : Z)
    : result SegmentError Z :=
  '(_, header_bytes) ← bounded_header artifact b actual_file_length;
  seg_u16 artifact header_bytes (saturating_add usize_max FILE_HEADER_LEN 20).

Section Reader.
Context {X : Xxh3}.

(** The checksum over the header up to its last eight bytes. *)
Definition check_header_checksum (artifact : string) (header_bytes : bytes) (header_length : Z)
    : result SegmentError unit :=
  let checksum_offset := saturating_sub header_length 8 in
  expected_checksum ← seg_u64 artifact header_bytes checksum_offset;
  checksum_bytes ← ok_or (slice_to header_bytes checksum_offset) (seg_format artifact CheckLength);
  if negb (xxh3_64 checksum_bytes =? expected_checksum)
  then Err (seg_format artifact CheckBlockChecksum)
  else Ok tt.

Definition parse_segment_header (artifact : string) (b : bytes) (actual_file_length : Z)
    (expected_id : bytes) : result SegmentError ParsedHeader :=
  '(header_length, header_bytes) ← bounded_header artifact b actual_file_length;
  actual_id ← ok_or (slice_range header_bytes FILE_HEADER_LEN (saturating_add usize_max FILE_HEADER_LEN 16))
                (seg_format artifact CheckLength);
  if negb (bool_decide (actual_id = expected_id))
  then Err (SegmentWrongObject artifact expected_id actual_id)
  else
  row_count ← seg_u32 artifact header_bytes (saturating_add usize_max FILE_HEADER_LEN 16);
  region_count ← seg_u16 artifact header_bytes (saturating_add usize_max FILE_HEADER_LEN 20);
  reserved ← seg_u16 artifact header_bytes (saturating_add usize_max FILE_HEADER_LEN 22);
  if negb (reserved =? 0) then Err SegmentGeometry
  else
  scheme ← seg_u16 artifact header_bytes (saturating_add usize_max FILE_HEADER_LEN 24);
  _ ← map_err (λ _, SegmentGeometry) (require_scheme scheme);
  padding ← seg_u16 artifact header_bytes (saturating_add usize_max FILE_HEADER_LEN 26);
  if negb (padding =? 0) then Err SegmentGeometry
  else
  dims ← seg_u32 artifact header_bytes (saturating_add usize_max FILE_HEADER_LEN 28);
  expected_header_length ←
    ok_or (value ← checked_add usize_max FILE_HEADER_LEN SEGMENT_PREFIX_LEN;
           value ← checked_add usize_max value (saturating_mul usize_max region_count REGION_ENTRY_LEN);
           checked_add usize_max value 8) SegmentGeometry;
  if negb (header_length =? expected_header_length) then Err (seg_format artifact CheckHeaderLength)
  else
  _ ← check_header_checksum artifact header_bytes header_length;
  entries ← read_directory artifact header_bytes header_length actual_file_length
              (Z.to_nat region_count) 0 [];
  _ ← validate_non_overlapping entries;
  Ok {| ph_meta := {| sm_id := actual_id; sm_row_count := row_count; sm_scheme := scheme;
                      sm_dims := dims; sm_file_size := actual_file_length; sm_epoch_id := None;
                      sm_clustering_key_range := Unstamped |};
        ph_header_length := header_length;
        ph_entries := entries |}.

(** ** The whole image *)

(** The trailer's checksum over everything before it; an absent or wrong trailer
    is reported of [file], a misplaced one of [artifact]. *)
Definition check_trailer (file artifact : string) (b : bytes) : result SegmentError unit :=
  trailer ← ok_or (checked_sub (len b) FILE_TRAILER_LEN) (seg_format file CheckLength);
  expected ← seg_u64 artifact b trailer;
  checksummed ← ok_or (slice_to b trailer) (seg_format artifact CheckLength);
  if negb (xxh3_64 checksummed =? expected) then Err (seg_format file CheckFileChecksum)
  else Ok tt.

(** [format!("segment-bytes:region-{}", kind)]. *)
Definition region_artifact (prefix : string) (kind : Z) : string :=
  String.append prefix (String.append "region-" (pretty kind)).

Fixpoint check_regions (b : bytes) (entries : list RegionEntry) : result SegmentError unit :=
  match entries with
  | [] => Ok tt
  | entry :: entries =>
      start ← ok_or (try_from usize_max (re_offset entry)) SegmentGeometry;
      length ← ok_or (try_from usize_max (re_length entry)) SegmentGeometry;
      region_end ← ok_or (checked_add usize_max start length) SegmentGeometry;
      region ← ok_or (slice_range b start region_end) (seg_format "segment-bytes" CheckBlockLength);
      if negb (xxh3_64 region =? re_checksum entry)
      then Err (seg_format (region_artifact "segment-bytes:" (re_kind entry)) CheckBlockChecksum)
      else check_regions b entries
  end.

Definition validate_segment_bytes (b : bytes) : result SegmentError SegmentMeta :=
  id ← ok_or (slice_range b FILE_HEADER_LEN (saturating_add usize_max FILE_HEADER_LEN 16))
         (seg_format "segment-bytes" CheckLength);
  actual_length ← ok_or (try_from u64_max (len b)) SegmentGeometry;
  parsed ← parse_segment_header "segment-bytes" b actual_length id;
  _ ← check_regions b (ph_entries parsed);
  _ ← check_trailer "segment-bytes" "segment-bytes" b;
  Ok (ph_meta parsed).

(** ** The reader *)

Inductive DocumentVersionValidationError : Type :=
| ValidationGeometry
| ValidationChecksum.

(** What query paths have verified once ([OnceLock<()>] flags), and the words of
    the bit set of rescore chunks whose checksum was verified. *)
Record QueryGates : Type := {
  qg_stored_text : bool;
  qg_stored_metadata : bool;
  qg_vector_codes : bool;
  qg_vector_factors : bool;
  qg_rescore_chunks : list Z;
}.

Record SegmentReader : Type := {
  sr_mapping : bytes;
  sr_meta : SegmentMeta;
  sr_header_length : Z;
  sr_entries : list RegionEntry;
  sr_document_versions_validation : option (result DocumentVersionValidationError unit);
  sr_collection_schema : option Schema;
  sr_document_version_index_cache : option (list Z);
  sr_gates : QueryGates;
}.

(** One bit per 64-KiB chunk of the rescore region, in 64-bit words. *)
Definition rescore_validation_words (entries : list RegionEntry) : result SegmentError Z :=
  match List.find (λ entry, re_kind entry =? region_id RegionVectorRescore) entries with
  | None => Ok 0
  | Some entry =>
      length ← ok_or (try_from usize_max (re_length entry)) SegmentGeometry;
      Ok (div_up (div_up length CHECKSUM_CHUNK_BYTES) 64)
  end.

Definition closed_gates (words : Z) : QueryGates :=
  {| qg_stored_text := false; qg_stored_metadata := false; qg_vector_codes := false;
     qg_vector_factors := false; qg_rescore_chunks := replicate (Z.to_nat words) 0 |}.

(** [SegmentReader::open] on a mapped file. *)
Definition segment_open (artifact : string) (mapping : bytes) (expected_id : bytes)
    : result SegmentError SegmentReader :=
  parsed ← parse_segment_header artifact mapping (len mapping) expected_id;
  words ← rescore_validation_words (ph_entries parsed);
  Ok {| sr_mapping := mapping; sr_meta := ph_meta parsed; sr_header_length := ph_header_length parsed;
        sr_entries := ph_entries parsed; sr_document_versions_validation := None;
        sr_collection_schema := None; sr_document_version_index_cache := None;
        sr_gates := closed_gates words |}.

Definition with_collection_schema (r : SegmentReader) (schema : Schema) : SegmentReader :=
  {| sr_mapping := sr_mapping r; sr_meta := sr_meta r; sr_header_length := sr_header_length r;
     sr_entries := sr_entries r;
     sr_document_versions_validation := sr_document_versions_validation r;
     sr_collection_schema := Some schema;
     sr_document_version_index_cache := sr_document_version_index_cache r;
     sr_gates := sr_gates r |}.

(** [OnceLock::get_or_init] and [OnceLock::set]. *)
Definition set_validation (v : result DocumentVersionValidationError unit) (r : SegmentReader)
    : SegmentReader :=
  {| sr_mapping := sr_mapping r; sr_meta := sr_meta r; sr_header_length := sr_header_length r;
     sr_entries := sr_entries r; sr_document_versions_validation := Some v;
     sr_collection_schema := sr_collection_schema r;
     sr_document_version_index_cache := sr_document_version_index_cache r;
     sr_gates := sr_gates r |}.
Definition set_index (index : list Z) (r : SegmentReader) : SegmentReader :=
  {| sr_mapping := sr_mapping r; sr_meta := sr_meta r; sr_header_length := sr_header_length r;
     sr_entries := sr_entries r;
     sr_document_versions_validation := sr_document_versions_validation r;
     sr_collection_schema := sr_collection_schema r;
     sr_document_version_index_cache := Some index;
     sr_gates := sr_gates r |}.
Definition set_gates (gates : QueryGates) (r : SegmentReader) : SegmentReader :=
  {| sr_mapping := sr_mapping r; sr_meta := sr_meta r; sr_header_length := sr_header_length r;
     sr_entries := sr_entries r;
     sr_document_versions_validation := sr_document_versions_validation r;
     sr_collection_schema := sr_collection_schema r;
     sr_document_version_index_cache := sr_document_version_index_cache r;
     sr_gates := gates |}.

Definition unknown_region_ids (r : SegmentReader) : list Z :=
  omap (λ entry, match region_from_id (re_kind entry) with
                 | None => Some (re_kind entry)
                 | Some _ => None
                 end) (sr_entries r).

Definition find_entry (r : SegmentReader) (kind : Z) : option RegionEntry :=
  List.find (λ entry, re_kind entry =? kind) (sr_entries r).

Definition reader_entry (r : SegmentReader) (kind : RegionKind) : result SegmentError RegionEntry :=
  ok_or (find_entry r (region_id kind)) (SegmentMissingRegion kind).

(** [region_slice_unaccounted]. *)
Definition region_slice (r : SegmentReader) (entry : RegionEntry) : result SegmentError bytes :=
  start ← ok_or (try_from usize_max (re_offset entry)) SegmentGeometry;
  length ← ok_or (try_from usize_max (re_length entry)) SegmentGeometry;
  region_end ← ok_or (checked_add usize_max start length) SegmentGeometry;
  ok_or (slice_range (sr_mapping r) start region_end) SegmentGeometry.

(** [Display for SegmentId]: the id in hexadecimal. *)
Definition segment_id_text (r : SegmentReader) : string :=
  foldr (λ b s, String.append (hex_byte b) s) EmptyString (sm_id (sr_meta r)).

(** ["segment:{id}:{kind:?}"]: the id and the name of the kind. *)
Definition segment_artifact (r : SegmentReader) (suffix : string) : string :=
  String.append "segment:" (String.append (segment_id_text r) (String.append ":" suffix)).

Definition region_name (kind : RegionKind) : string :=
  match kind with
  | RegionColumns => "Columns" | RegionAlive => "Alive" | RegionVectorCodes => "VectorCodes"
  | RegionVectorFactors => "VectorFactors" | RegionVectorRescore => "VectorRescore"
  | RegionPostings => "Postings" | RegionGraphNodeBlocks => "GraphNodeBlocks"
  | RegionGraphColocatedCodes => "GraphColocatedCodes" | RegionSignPlane => "SignPlane"
  | RegionPdxClusteredBlocks => "PdxClusteredBlocks" | RegionChecksumTable => "ChecksumTable"
  | RegionDocumentVersions => "DocumentVersions" | RegionStoredMetadata => "StoredMetadata"
  | RegionStoredText => "StoredText" | RegionVectorSpaceN => "VectorSpaceN"
  end.

(** The bytes of an entry, after their checksum. *)
Definition checked_slice (r : SegmentReader) (artifact : string) (entry : RegionEntry)
    : result SegmentError bytes :=
  data ← region_slice r entry;
  let actual := xxh3_64 data in
  if negb (actual =? re_checksum entry)
  then Err (SegmentFormat (checksum_mismatch artifact CheckBlockChecksum (re_checksum entry) actual))
  else Ok data.

Definition region (r : SegmentReader) (kind : RegionKind) : result SegmentError bytes :=
  entry ← reader_entry r kind;
  checked_slice r (segment_artifact r (region_name kind)) entry.

Definition region_by_id (r : SegmentReader) (kind : Z) : result SegmentError bytes :=
  entry ← ok_or (find_entry r kind) SegmentGeometry;
  checked_slice r (segment_artifact r (region_artifact "" kind)) entry.

(** *** Chunks *)

(** One entry of the checksum table; the shared cursor reports truncation as a
    [Columns] error. *)
Definition read_checksum_entry : SegmentM (Z * Z * Z * Z) :=
  entry_kind ← s_u16;
  reserved ← s_u16;
  entry_chunk ← s_u32;
  checksum ← s_u64;
  if negb (reserved =? 0) then fail SegmentGeometry
  else mret (entry_kind, reserved, entry_chunk, checksum).

(** The checksum of the last entry for the chunk. *)
Definition find_checksum (kind chunk_index : Z) (entries : list (Z * Z * Z * Z)) : option Z :=
  foldl (λ found '(entry_kind, _, entry_chunk, checksum),
           if (entry_kind =? kind) && (entry_chunk =? chunk_index) then Some checksum else found)
    None entries.

Definition read_checksum_table (kind chunk_index : Z) : SegmentM Z :=
  count ← s_u32;
  chunk_size ← s_u32;
  if negb (chunk_size =? CHECKSUM_CHUNK_BYTES) then fail SegmentGeometry
  else
  entries ← repeat_parser (Z.to_nat count) read_checksum_entry;
  _ ← s_finish SegmentGeometry;
  lift (ok_or (find_checksum kind chunk_index entries) SegmentGeometry).

Definition chunk_checksum (r : SegmentReader) (kind : RegionKind) (chunk_index : Z)
    : result SegmentError Z :=
  table ← region r RegionChecksumTable;
  run_segment (read_checksum_table (region_id kind) chunk_index) table.

Definition region_chunk (r : SegmentReader) (kind : RegionKind) (chunk_index : Z)
    : result SegmentError bytes :=
  entry ← reader_entry r kind;
  data ← region_slice r entry;
  start ← ok_or (checked_mul usize_max chunk_index CHECKSUM_CHUNK_BYTES) SegmentGeometry;
  let chunk_end := Z.min (saturating_add usize_max start CHECKSUM_CHUNK_BYTES) (len data) in
  chunk ← ok_or (slice_range data start chunk_end) SegmentGeometry;
  if bool_decide (chunk = []) then Err SegmentGeometry
  else
  expected ← chunk_checksum r kind chunk_index;
  let actual := xxh3_64 chunk in
  if negb (actual =? expected)
  then Err (SegmentFormat (checksum_mismatch
              (segment_artifact r (String.append (region_name kind) (String.append ":chunk-" (pretty chunk_index))))
              CheckBlockChecksum expected actual))
  else Ok chunk.

(** *** The decoded regions *)

(** [validate_all]: every region, then the trailer. *)
Fixpoint check_entries (r : SegmentReader) (entries : list RegionEntry) : result SegmentError unit :=
  match entries with
  | [] => Ok tt
  | entry :: entries =>
      data ← region_slice r entry;
      if negb (xxh3_64 data =? re_checksum entry)
      then Err (seg_format (segment_artifact r (region_artifact "" (re_kind entry))) CheckBlockChecksum)
      else check_entries r entries
  end.

Definition validate_all (r : SegmentReader) : result SegmentError unit :=
  _ ← check_entries r (sr_entries r);
  check_trailer (String.append "segment: " (segment_id_text r)) "segment" (sr_mapping r).

Section Decoded.
Context {B : Type} `{Roaring B}.

Definition reader_columns (r : SegmentReader) : result SegmentError (ColumnStore B) :=
  data ← region r RegionColumns;
  columns ← decode_columns data (sr_collection_schema r);
  if negb (cs_row_count columns =? sm_row_count (sr_meta r)) then Err SegmentGeometry
  else Ok columns.

Definition reader_alive (r : SegmentReader) : result SegmentError (AliveSet B) :=
  data ← region r RegionAlive;
  alive ← decode_alive data;
  if negb (as_row_count alive =? sm_row_count (sr_meta r)) then Err SegmentGeometry
  else Ok alive.
End Decoded.
End Reader.
