(* ===== verification/SegmentRows.v ===== *)
(** * Row-aligned regions of a reader

    Models the part of [crates/zeppelin-embed/src/segment/reader.rs] that reads
    the regions with one record per row: document versions with the lookups
    through the identity-ordered permutation of rows, stored metadata and stored
    text.  A slice comparison is lexicographic; [sort_unstable_by] with a total
    order that separates all elements is a sort; [partition_point] bisects. *)

From S2P Require Import Prelude Format Cursor Schema Manifest Bitmap Dict Columns IngestPayload SegmentLayout SegmentReader.

(** ** Standard library *)

(** [Ord for [u8]]. *)
Fixpoint bytes_compare (a b : bytes) : comparison :=
  match a, b with
  | [], [] => Eq
  | [], _ :: _ => Lt
  | _ :: _, [] => Gt
  | x :: a, y :: b =>
      match byte_value x ?= byte_value y with
      | Eq => bytes_compare a b
      | other => other
      end
  end.

Definition bytes_lt (a b : bytes) : bool := match bytes_compare a b with Lt => true | _ => false end.
Definition bytes_le (a b : bytes) : bool := match bytes_compare a b with Gt => false | _ => true end.

(** [chunks_exact(n)]: the whole chunks only. *)
Fixpoint chunks_exact_fuel (fuel n : nat) (data : bytes) : list bytes :=
  match fuel with
  | O => []
  | S fuel =>
      if (n <=? length data)%nat then take n data :: chunks_exact_fuel fuel n (drop n data) else []
  end.

Definition chunks_exact (n : Z) (data : bytes) : list bytes :=
  chunks_exact_fuel (length data) (Z.to_nat n) data.

(** [Iterator::position]. *)
Fixpoint position_from {A} (start : Z) (pred : A → bool) (l : list A) : option Z :=
  match l with
  | [] => None
  | x :: l => if pred x then Some start else position_from (start + 1) pred l
  end.

(** ** Document versions *)

Definition DOCUMENT_VERSION_BYTES : Z := 24.

Definition encode_document_version (version : DocumentVersion) : bytes :=
  u128_le (dv_doc_id version) ++ u64_le (dv_revision version).

Definition document_version_entry (data : bytes) (row : Z) : bytes :=
  default [] (start ← checked_mul usize_max row DOCUMENT_VERSION_BYTES;
              entry_end ← checked_add usize_max start DOCUMENT_VERSION_BYTES;
              slice_range data start entry_end).

Definition document_id_entry (data : bytes) (row : Z) : bytes :=
  default [] (slice_to (document_version_entry data row) 16).

Section Documents.
Context {X : Xxh3}.

(** The closure of [get_or_init]: slice, checksum and length. *)
Definition validate_document_versions (r : SegmentReader) (entry : RegionEntry)
    : result DocumentVersionValidationError unit :=
  data ← map_err (λ _, ValidationGeometry) (region_slice r entry);
  if negb (xxh3_64 data =? re_checksum entry) then Err ValidationChecksum
  else
  expected ← ok_or (checked_mul usize_max (sm_row_count (sr_meta r)) 24) ValidationGeometry;
  if negb (len data =? expected) then Err ValidationGeometry else Ok tt.

Definition into_segment_error (r : SegmentReader) (e : DocumentVersionValidationError) : SegmentError :=
  match e with
  | ValidationGeometry => SegmentGeometry
  | ValidationChecksum => seg_format (segment_artifact r "document-versions") CheckBlockChecksum
  end.

Definition document_versions_region (r : SegmentReader)
    : SegmentReader * result SegmentError (option bytes) :=
  match find_entry r (region_id RegionDocumentVersions) with
  | None => (r, Ok None)
  | Some entry =>
      let validation := default (validate_document_versions r entry) (sr_document_versions_validation r) in
      let r := set_validation validation r in
      (r, _ ← map_err (into_segment_error r) validation;
          data ← region_slice r entry;
          Ok (Some data))
  end.

(** A query that needs the region: nothing for a segment without one. *)
Definition with_documents {A} (absent : A) (f : SegmentReader → bytes → SegmentReader * result SegmentError A)
    (r : SegmentReader) : SegmentReader * result SegmentError A :=
  match document_versions_region r with
  | (r, Err e) => (r, Err e)
  | (r, Ok None) => (r, Ok absent)
  | (r, Ok (Some data)) => f r data
  end.

Definition decode_version (data : bytes) (row : Z) : result SegmentError DocumentVersion :=
  start ← ok_or (checked_mul usize_max row 24) SegmentGeometry;
  doc_end ← ok_or (checked_add usize_max start 16) SegmentGeometry;
  revision_end ← ok_or (checked_add usize_max doc_end 8) SegmentGeometry;
  doc_id ← ok_or (from_le <$> slice_range data start doc_end) SegmentGeometry;
  revision ← ok_or (from_le <$> slice_range data doc_end revision_end) SegmentGeometry;
  Ok {| dv_doc_id := doc_id; dv_revision := revision |}.

Definition document_version (row : Z)
    : SegmentReader → SegmentReader * result SegmentError (option DocumentVersion) :=
  with_documents None (λ r data, (r, Some <$> decode_version data row)).

Definition row_for_document_version (version : DocumentVersion)
    : SegmentReader → SegmentReader * result SegmentError (option Z) :=
  with_documents None (λ r data,
    (r, Ok (position_from 0 (λ entry, bool_decide (entry = encode_document_version version))
              (chunks_exact DOCUMENT_VERSION_BYTES data)))).

(** The order of the permutation: by identity bytes, then by row. *)
Definition version_row_le (data : bytes) (left right : Z) : Prop :=
  match bytes_compare (document_version_entry data left) (document_version_entry data right) with
  | Lt => True
  | Eq => left ≤ right
  | Gt => False
  end.

#[export] Instance version_row_le_dec data : RelDecision (version_row_le data).
Proof. intros x y. unfold version_row_le. destruct (bytes_compare _ _); apply _. Defined.

Definition document_version_order (row_count : Z) (data : bytes) : list Z :=
  merge_sort (version_row_le data) (row_ids row_count).

Definition query_document_version_index (r : SegmentReader) (data : bytes) : SegmentReader * list Z :=
  match sr_document_version_index_cache r with
  | Some index => (r, index)
  | None =>
      let index := document_version_order (sm_row_count (sr_meta r)) data in
      (set_index index r, index)
  end.

Definition query_row_for_document_version (version : DocumentVersion)
    : SegmentReader → SegmentReader * result SegmentError (option Z) :=
  with_documents None (λ r data,
    let '(r, index) := query_document_version_index r data in
    let needle := encode_document_version version in
    let position := partition_point (λ row, bytes_lt (document_version_entry data row) needle) index in
    (r, Ok (row ← index !! position;
            if bool_decide (document_version_entry data row = needle) then Some row else None))).

Definition query_rows_with_doc_id (doc_id : Z)
    : SegmentReader → SegmentReader * result SegmentError (list Z) :=
  with_documents [] (λ r data,
    let '(r, index) := query_document_version_index r data in
    let needle := u128_le doc_id in
    let start := partition_point (λ row, bytes_lt (document_id_entry data row) needle) index in
    let range_end := partition_point (λ row, bytes_le (document_id_entry data row) needle) index in
    (r, matching ← ok_or (slice_range index (Z.of_nat start) (Z.of_nat range_end)) SegmentGeometry;
        Ok (merge_sort Z.le matching))).

Section Eligible.
Context {B : Type} `{Roaring B}.

(** Live rows of a document ([query_rows_for_doc_id]); [alive] is what
    [query_alive] gives. *)
Definition query_rows_for_doc_id (doc_id : Z) (alive : result SegmentError (AliveSet B)) (r : SegmentReader)
    : SegmentReader * result SegmentError (list Z) :=
  let '(r, matching) := query_rows_with_doc_id doc_id r in
  (r, matching ← matching;
      alive ← alive;
      Ok (List.filter (λ row, is_alive row alive) matching)).

Definition insert_all (rows : list Z) (bitmap : DocBitmap B) : DocBitmap B :=
  foldl (λ bitmap row, (bitmap_insert row bitmap).1) bitmap rows.

Fixpoint rows_of_ids (ids : list Z) (rows : DocBitmap B) (r : SegmentReader)
    : SegmentReader * result SegmentError (DocBitmap B) :=
  match ids with
  | [] => (r, Ok rows)
  | id :: ids =>
      match query_rows_with_doc_id id r with
      | (r, Err e) => (r, Err e)
      | (r, Ok matching) => rows_of_ids ids (insert_all matching rows) r
      end
  end.

(** [while needles.peek().is_some_and(|needle| needle < id) { needles.next(); }]. *)
Fixpoint skip_below (id : bytes) (needles : list bytes) : list bytes :=
  match needles with
  | needle :: needles' => if bytes_lt needle id then skip_below id needles' else needles
  | [] => []
  end.

Fixpoint merge_ids (data : bytes) (index : list Z) (needles : list bytes) (rows : DocBitmap B)
    : DocBitmap B :=
  match index with
  | [] => rows
  | row :: index =>
      let id := document_id_entry data row in
      match skip_below id needles with
      | [] => rows
      | (needle :: _) as needles =>
          merge_ids data index needles
            (if bool_decide (needle = id) then (bitmap_insert row rows).1 else rows)
      end
  end.

Definition query_rows_for_eligible_ids (ids : list Z) (byte_order : list bytes)
    : SegmentReader → SegmentReader * result SegmentError (DocBitmap B) :=
  if len ids <? 1000 then rows_of_ids ids bitmap_new
  else
  with_documents bitmap_new (λ r data,
    let '(r, index) := query_document_version_index r data in
    (r, Ok (merge_ids data index byte_order bitmap_new))).
End Eligible.
End Documents.

(** ** Stored metadata *)

Record StoredMetadataRows : Type := {
  sv_offsets : bytes;
  sv_bytes : bytes;
  sv_row_count : Z;
}.

(** The [u64] at byte [index] of the offsets, as a [usize]. *)
Definition offset_at (offsets : bytes) (index : Z) : option Z :=
  index_end ← checked_add usize_max index 8;
  raw ← slice_range offsets index index_end;
  try_from usize_max (from_le raw).

Definition metadata_row (v : StoredMetadataRows) (row : Z) : option bytes :=
  if sv_row_count v <=? row then None
  else
  start_index ← checked_mul usize_max row 8;
  next ← checked_add usize_max row 1;
  end_index ← checked_mul usize_max next 8;
  start ← offset_at (sv_offsets v) start_index;
  row_end ← offset_at (sv_offsets v) end_index;
  slice_range (sv_bytes v) start row_end.

(** [region.get(a..b)] of four bytes as a [u32]. *)
Definition region_u32 (data : bytes) (start finish : Z) : result SegmentError Z :=
  ok_or (from_le <$> slice_range data start finish) SegmentGeometry.

Definition stored_metadata_view (data : bytes) (header_rows : Z)
    : result SegmentError StoredMetadataRows :=
  declared_rows ← region_u32 data 0 4;
  reserved ← region_u32 data 4 8;
  if negb (declared_rows =? header_rows) || negb (reserved =? 0) then Err SegmentGeometry
  else
  let row_count := declared_rows in
  offset_bytes ← ok_or (count ← checked_add usize_max row_count 1; checked_mul usize_max count 8)
                   SegmentGeometry;
  offsets_end ← ok_or (checked_add usize_max 8 offset_bytes) SegmentGeometry;
  offsets ← ok_or (slice_range data 8 offsets_end) SegmentGeometry;
  payload ← ok_or (slice_from data offsets_end) SegmentGeometry;
  Ok {| sv_offsets := offsets; sv_bytes := payload; sv_row_count := row_count |}.

(** The walk over all rows; it returns the length of their values. *)
Fixpoint walk_metadata (v : StoredMetadataRows) (previous : Z) (rows : list Z)
    : result SegmentError Z :=
  match rows with
  | [] => Ok previous
  | row :: rows =>
      value ← ok_or (metadata_row v row) SegmentGeometry;
      previous ← ok_or (checked_add usize_max previous (len value)) SegmentGeometry;
      walk_metadata v previous rows
  end.

Section Stored.
Context {X : Xxh3}.

Definition stored_metadata (r : SegmentReader) : result SegmentError (option StoredMetadataRows) :=
  match find_entry r (region_id RegionStoredMetadata) with
  | None => Ok None
  | Some _ =>
      data ← region r RegionStoredMetadata;
      view ← stored_metadata_view data (sm_row_count (sr_meta r));
      first ← ok_or (from_le <$> slice_to (sv_offsets view) 8) SegmentGeometry;
      if negb (first =? 0) then Err SegmentGeometry
      else
      previous ← walk_metadata view 0 (row_ids (sv_row_count view));
      if negb (previous =? len (sv_bytes view)) then Err SegmentGeometry
      else Ok (Some view)
  end.
End Stored.

(** ** Stored text *)

Record StoredTextRows : Type := {
  tv_present : bytes;
  tv_offsets : bytes;
  tv_bytes : bytes;
  tv_row_count : Z;
}.

(** [None] for an invalid row, [Some None] for an absent text. *)
Definition text_row (v : StoredTextRows) (row : Z) : option (option bytes) :=
  if tv_row_count v <=? row then None
  else
  end_index ← checked_mul usize_max row 8;
  row_end ← offset_at (tv_offsets v) end_index;
  start ← (if row =? 0 then Some 0
           else previous ← checked_sub row 1;
                start_index ← checked_mul usize_max previous 8;
                offset_at (tv_offsets v) start_index);
  value ← tv_present v !! Z.to_nat (row / 8);
  if Z.land (byte_value value) (Z.shiftl 1 (row mod 8)) =? 0
  then (if start =? row_end then Some None else None)
  else
  text ← slice_range (tv_bytes v) start row_end;
  if utf8_valid text then Some (Some text) else None.

Definition stored_text_view (data : bytes) (header_rows : Z) : result SegmentError StoredTextRows :=
  declared_rows ← region_u32 data 0 4;
  reserved ← region_u32 data 4 8;
  if negb (declared_rows =? header_rows) || negb (reserved =? 0) then Err SegmentGeometry
  else
  let row_count := declared_rows in
  bitmap_end ← ok_or (checked_add usize_max 8 (div_up row_count 8)) SegmentGeometry;
  offsets_len ← ok_or (checked_mul usize_max row_count 8) SegmentGeometry;
  offsets_end ← ok_or (checked_add usize_max bitmap_end offsets_len) SegmentGeometry;
  present ← ok_or (slice_range data 8 bitmap_end) SegmentGeometry;
  offsets ← ok_or (slice_range data bitmap_end offsets_end) SegmentGeometry;
  payload ← ok_or (slice_from data offsets_end) SegmentGeometry;
  if bool_decide (is_Some (tail_bits row_count present)) then Err SegmentGeometry
  else Ok {| tv_present := present; tv_offsets := offsets; tv_bytes := payload;
             tv_row_count := row_count |}.

Fixpoint walk_text (v : StoredTextRows) (previous : Z) (rows : list Z) : result SegmentError Z :=
  match rows with
  | [] => Ok previous
  | row :: rows =>
      value ← ok_or (text_row v row) SegmentGeometry;
      end_index ← ok_or (checked_mul usize_max row 8) SegmentGeometry;
      row_end ← ok_or (offset_at (tv_offsets v) end_index) SegmentGeometry;
      if (row_end <? previous) || (len (tv_bytes v) <? row_end) then Err SegmentGeometry
      else if is_none value && negb (row_end =? previous) then Err SegmentGeometry
      else walk_text v row_end rows
  end.

Section StoredText.
Context {X : Xxh3}.

Definition stored_text (r : SegmentReader) : result SegmentError (option StoredTextRows) :=
  match find_entry r (region_id RegionStoredText) with
  | None => Ok None
  | Some _ =>
      data ← region r RegionStoredText;
      view ← stored_text_view data (sm_row_count (sr_meta r));
      previous ← walk_text view 0 (row_ids (tv_row_count view));
      if negb (previous =? len (tv_bytes view)) then Err SegmentGeometry
      else Ok (Some view)
  end.
End StoredText.

(** ** Eligible document ids ([lifecycle/mod.rs]) *)

Definition ELIGIBLE_BYTE_ORDER_MIN_IDS : Z := 1000.

Record EligibleIds : Type := {
  ei_numeric : list Z;
  ei_byte_order : list bytes;
}.

(** [Vec::dedup]: of equal neighbours the first stays. *)
Fixpoint dedup (l : list Z) : list Z :=
  match l with
  | x :: ((y :: _) as rest) => if x =? y then dedup rest else x :: dedup rest
  | _ => l
  end.

(** [slice::binary_search(x).is_ok()]. *)
Definition binary_contains (l : list Z) (x : Z) : bool :=
  match l !! partition_point (λ y, y <? x) l with Some y => y =? x | None => false end.

Definition bytes_order (a b : bytes) : Prop := bytes_le a b = true.

#[export] Instance bytes_order_dec : RelDecision bytes_order.
Proof. intros a b. unfold bytes_order. apply _. Defined.

(** [QueryFilter::with_eligible] on the filter's ids. *)
Definition with_eligible (existing : option EligibleIds) (ids : list Z) : EligibleIds :=
  let ids := dedup (merge_sort Z.le ids) in
  let ids := match existing with
             | Some existing => List.filter (binary_contains (ei_numeric existing)) ids
             | None => ids
             end in
  {| ei_numeric := ids;
     ei_byte_order := if ELIGIBLE_BYTE_ORDER_MIN_IDS <=? len ids
                      then merge_sort bytes_order (map u128_le ids)
                      else [] |}.
