(* ===== verification/SegmentVectors.v ===== *)
(** * Vector regions and the query paths of a reader

    Models the part of [crates/zeppelin-embed/src/segment/reader.rs] that serves
    vectors (codes, factors and exact-rescore rows, cast from the mapping) and
    the query-path twins of the verifying accessors, which verify a region once
    per reader, or a 64-KiB chunk of the rescore region once, and afterwards
    serve it without hashing.

    [address] is where the file is mapped; whether query paths verify checksums
    at all is the process-wide setting [enabled] ([query_checksums_enabled]).  The
    target is little-endian. *)

From S2P Require Import Prelude Format Cursor Schema Manifest ManifestIo Bitmap Dict Columns SegmentLayout SegmentWriter SegmentReader SegmentRows.

(** ** Casting *)

(** A record type of the format: its size, its alignment and its value in
    little-endian bytes. *)
Record Plain (T : Type) : Type := {
  pt_size : Z;
  pt_align : Z;
  pt_read : bytes → T;
}.
Arguments pt_size {T} p.
Arguments pt_align {T} p.
Arguments pt_read {T} p b.

Definition plain_f32 : Plain Z := {| pt_size := 4; pt_align := 4; pt_read := from_le |}.
(** [i8] codes by their byte. *)
Definition plain_i8 : Plain Z := {| pt_size := 1; pt_align := 1; pt_read := from_le |}.

(** The [k]th [f32] field of a record. *)
Definition f32_field (k : nat) (b : bytes) : Z := from_le (take 4 (drop (k * 4) b)).

Definition plain_bit4_factors : Plain Bit4Factors :=
  {| pt_size := 12; pt_align := 4;
     pt_read b := {| b4_scale := f32_field 0 b; b4_normalized_norm := f32_field 1 b;
                     b4_normalized_correction := f32_field 2 b |} |}.
Definition plain_int8_factors : Plain Int8Factors :=
  {| pt_size := 8; pt_align := 4;
     pt_read b := {| i8_scale := f32_field 0 b; i8_offset := f32_field 1 b |} |}.

(** The slice at [pointer] as [count] values. *)
Definition cast_slice {T} (t : Plain T) (pointer : Z) (b : bytes) (count : Z)
    : result SegmentError (list T) :=
  expected ← ok_or (checked_mul usize_max count (pt_size t)) SegmentGeometry;
  if negb (len b =? expected) then Err SegmentGeometry
  else if negb (pointer mod pt_align t =? 0) then Err SegmentGeometry
  else Ok (map (pt_read t) (chunks_exact (pt_size t) b)).

Section Vectors.
Context {X : Xxh3}.
Context (address : Z) (enabled : bool).

(** ** Payloads *)

(** What both accessors do with the bytes of a vector region: its header and
    the payload after it, with the address of the payload. *)
Definition vector_payload_of (r : SegmentReader) (kind : RegionKind) (entry : RegionEntry) (data : bytes)
    : result SegmentError (VectorHeader * Z * bytes) :=
  header_bytes ← ok_or (slice_to data VECTOR_HEADER_LEN) SegmentGeometry;
  header ← decode_vector_header header_bytes;
  if negb (vh_dims header =? sm_dims (sr_meta r))
     || negb (vh_row_count header =? sm_row_count (sr_meta r))
     || (negb (bool_decide (kind = RegionVectorRescore))
         && negb (vh_scheme header =? sm_scheme (sr_meta r)))
  then Err SegmentGeometry
  else
  payload ← ok_or (slice_from data VECTOR_HEADER_LEN) SegmentGeometry;
  Ok (header, address + re_offset entry + VECTOR_HEADER_LEN, payload).

Definition vector_payload (r : SegmentReader) (kind : RegionKind)
    : result SegmentError (VectorHeader * Z * bytes) :=
  entry ← reader_entry r kind;
  data ← region r kind;
  vector_payload_of r kind entry data.

Definition vector_payload_unchecked (r : SegmentReader) (kind : RegionKind)
    : result SegmentError (VectorHeader * Z * bytes) :=
  entry ← reader_entry r kind;
  data ← region_slice r entry;
  vector_payload_of r kind entry data.

(** ** The typed views of a payload *)

Definition bit4_codes_from (r : SegmentReader) (p : VectorHeader * Z * bytes) : result SegmentError bytes :=
  let '(header, _, payload) := p in
  if negb (sm_scheme (sr_meta r) =? 4) then Err SegmentGeometry
  else
  let stride := div_up (sm_dims (sr_meta r)) 2 in
  expected ← ok_or (checked_mul usize_max stride (sm_row_count (sr_meta r))) SegmentGeometry;
  if negb (vh_row_stride_bytes header =? stride) || negb (len payload =? expected)
  then Err SegmentGeometry
  else Ok payload.

Definition f32_codes_from (r : SegmentReader) (p : VectorHeader * Z * bytes)
    : result SegmentError (list Z) :=
  let '(header, pointer, payload) := p in
  if negb (sm_scheme (sr_meta r) =? 0) then Err SegmentGeometry
  else
  expected ← ok_or (checked_mul usize_max (sm_dims (sr_meta r)) (sm_row_count (sr_meta r))) SegmentGeometry;
  expected_bytes ← ok_or (checked_mul usize_max expected 4) SegmentGeometry;
  expected_stride ← ok_or (checked_mul usize_max (sm_dims (sr_meta r)) 4) SegmentGeometry;
  if negb (vh_row_stride_bytes header =? expected_stride) || negb (len payload =? expected_bytes)
  then Err SegmentGeometry
  else cast_slice plain_f32 pointer payload expected.

Definition int8_codes_from (r : SegmentReader) (p : VectorHeader * Z * bytes)
    : result SegmentError (list Z) :=
  let '(header, pointer, payload) := p in
  if negb (sm_scheme (sr_meta r) =? 2) then Err SegmentGeometry
  else
  expected ← ok_or (checked_mul usize_max (sm_dims (sr_meta r)) (sm_row_count (sr_meta r))) SegmentGeometry;
  if negb (vh_row_stride_bytes header =? sm_dims (sr_meta r)) || negb (len payload =? expected)
  then Err SegmentGeometry
  else cast_slice plain_i8 pointer payload expected.

Definition bit4_factors_from (r : SegmentReader) (p : VectorHeader * Z * bytes)
    : result SegmentError (list Bit4Factors) :=
  let '(header, pointer, payload) := p in
  if negb (sm_scheme (sr_meta r) =? 4) then Err SegmentGeometry
  else if negb (vh_factor_stride_bytes header =? 12) then Err SegmentGeometry
  else cast_slice plain_bit4_factors pointer payload (sm_row_count (sr_meta r)).

Definition int8_factors_from (r : SegmentReader) (p : VectorHeader * Z * bytes)
    : result SegmentError (list Int8Factors) :=
  let '(header, pointer, payload) := p in
  if negb (sm_scheme (sr_meta r) =? 2) then Err SegmentGeometry
  else if negb (vh_factor_stride_bytes header =? 8) then Err SegmentGeometry
  else cast_slice plain_int8_factors pointer payload (sm_row_count (sr_meta r)).

Definition rescore_f32_from (r : SegmentReader) (p : VectorHeader * Z * bytes)
    : result SegmentError (list Z) :=
  let '(header, pointer, payload) := p in
  if negb (vh_scheme header =? 0) then Err SegmentGeometry
  else
  count ← ok_or (checked_mul usize_max (sm_row_count (sr_meta r)) (sm_dims (sr_meta r))) SegmentGeometry;
  cast_slice plain_f32 pointer payload count.

(** ** Verifying accessors *)

Definition bit4_codes (r : SegmentReader) : result SegmentError bytes :=
  vector_payload r RegionVectorCodes ≫= bit4_codes_from r.
Definition f32_codes (r : SegmentReader) : result SegmentError (list Z) :=
  vector_payload r RegionVectorCodes ≫= f32_codes_from r.
Definition int8_codes (r : SegmentReader) : result SegmentError (list Z) :=
  vector_payload r RegionVectorCodes ≫= int8_codes_from r.
Definition bit4_factors (r : SegmentReader) : result SegmentError (list Bit4Factors) :=
  vector_payload r RegionVectorFactors ≫= bit4_factors_from r.
Definition int8_factors (r : SegmentReader) : result SegmentError (list Int8Factors) :=
  vector_payload r RegionVectorFactors ≫= int8_factors_from r.
Definition rescore_f32 (r : SegmentReader) : result SegmentError (list Z) :=
  vector_payload r RegionVectorRescore ≫= rescore_f32_from r.

(** ** Gates *)

(** The flag of a region the query paths verify whole. *)
Inductive Gate : Type := GateText | GateMetadata | GateCodes | GateFactors.

Definition gate_open (g : Gate) (gates : QueryGates) : bool :=
  match g with
  | GateText => qg_stored_text gates
  | GateMetadata => qg_stored_metadata gates
  | GateCodes => qg_vector_codes gates
  | GateFactors => qg_vector_factors gates
  end.

(** [OnceLock::set]. *)
Definition open_gate (g : Gate) (gates : QueryGates) : QueryGates :=
  {| qg_stored_text := match g with GateText => true | _ => qg_stored_text gates end;
     qg_stored_metadata := match g with GateMetadata => true | _ => qg_stored_metadata gates end;
     qg_vector_codes := match g with GateCodes => true | _ => qg_vector_codes gates end;
     qg_vector_factors := match g with GateFactors => true | _ => qg_vector_factors gates end;
     qg_rescore_chunks := qg_rescore_chunks gates |}.

Definition validate_vector_region_once (kind : RegionKind) (g : Gate) (r : SegmentReader)
    : SegmentReader * result SegmentError unit :=
  if gate_open g (sr_gates r) || negb enabled then (r, Ok tt)
  else match region r kind with
       | Err e => (r, Err e)
       | Ok _ => (set_gates (open_gate g (sr_gates r)) r, Ok tt)
       end.

(** A query: verify once, then read without hashing. *)
Definition query_vectors {A} (kind : RegionKind) (g : Gate)
    (from : SegmentReader → VectorHeader * Z * bytes → result SegmentError A) (r : SegmentReader)
    : SegmentReader * result SegmentError A :=
  match validate_vector_region_once kind g r with
  | (r, Err e) => (r, Err e)
  | (r, Ok _) => (r, vector_payload_unchecked r kind ≫= from r)
  end.

Definition query_bit4_codes := query_vectors RegionVectorCodes GateCodes bit4_codes_from.
Definition query_f32_codes := query_vectors RegionVectorCodes GateCodes f32_codes_from.
Definition query_int8_codes := query_vectors RegionVectorCodes GateCodes int8_codes_from.
Definition query_bit4_factors := query_vectors RegionVectorFactors GateFactors bit4_factors_from.
Definition query_int8_factors_slice := query_vectors RegionVectorFactors GateFactors int8_factors_from.

(** *** Stored rows *)

(** [query_stored_text] and [query_stored_metadata]. *)
Definition query_stored {V} (kind : RegionKind) (g : Gate)
    (view : bytes → Z → result SegmentError V) (verified : SegmentReader → result SegmentError (option V))
    (r : SegmentReader) : SegmentReader * result SegmentError (option V) :=
  if gate_open g (sr_gates r) || negb enabled
  then (r, match find_entry r (region_id kind) with
           | None => Ok None
           | Some entry =>
               data ← region_slice r entry;
               Some <$> view data (sm_row_count (sr_meta r))
           end)
  else match verified r with
       | Err e => (r, Err e)
       | Ok None => (r, Ok None)
       | Ok (Some v) => (set_gates (open_gate g (sr_gates r)) r, Ok (Some v))
       end.

Definition query_stored_text := query_stored RegionStoredText GateText stored_text_view stored_text.
Definition query_stored_metadata :=
  query_stored RegionStoredMetadata GateMetadata stored_metadata_view stored_metadata.

(** *** Chunks of the rescore region *)

Definition chunk_mask (chunk : Z) : Z := Z.shiftl 1 (chunk mod 64).

(** The loop over the chunks of a byte range, with the words of the bit set. *)
Fixpoint validate_chunks (r : SegmentReader) (validated : list Z) (chunks : list Z)
    : list Z * result SegmentError unit :=
  match chunks with
  | [] => (validated, Ok tt)
  | chunk :: chunks =>
      match validated !! Z.to_nat (chunk / 64) with
      | None => (validated, Err SegmentGeometry)
      | Some state =>
          if negb (Z.land state (chunk_mask chunk) =? 0) then validate_chunks r validated chunks
          else match chunk_index ← ok_or (try_from u32_max chunk) SegmentGeometry;
                     region_chunk r RegionVectorRescore chunk_index with
               | Err e => (validated, Err e)
               | Ok _ =>
                   validate_chunks r
                     (<[Z.to_nat (chunk / 64) := Z.lor state (chunk_mask chunk)]> validated) chunks
               end
      end
  end.

Definition with_chunks (validated : list Z) (r : SegmentReader) : SegmentReader :=
  set_gates {| qg_stored_text := qg_stored_text (sr_gates r);
               qg_stored_metadata := qg_stored_metadata (sr_gates r);
               qg_vector_codes := qg_vector_codes (sr_gates r);
               qg_vector_factors := qg_vector_factors (sr_gates r);
               qg_rescore_chunks := validated |} r.

(** [first..=last]. *)
Definition chunk_range (first last : Z) : list Z := seqZ first (last - first + 1).

Definition rescore_range (r : SegmentReader) (start length : Z) : result SegmentError Z :=
  entry ← reader_entry r RegionVectorRescore;
  region_length ← ok_or (try_from usize_max (re_length entry)) SegmentGeometry;
  range_end ← ok_or (checked_add usize_max start length) SegmentGeometry;
  if region_length <? range_end then Err SegmentGeometry else Ok range_end.

Definition validate_rescore_byte_range (start length : Z) (r : SegmentReader)
    : SegmentReader * result SegmentError unit :=
  match rescore_range r start length with
  | Err e => (r, Err e)
  | Ok range_end =>
      if (length =? 0) || negb enabled then (r, Ok tt)
      else
      let first_chunk := start / CHECKSUM_CHUNK_BYTES in
      let last_chunk := saturating_sub range_end 1 / CHECKSUM_CHUNK_BYTES in
      let '(validated, res) :=
        validate_chunks r (qg_rescore_chunks (sr_gates r)) (chunk_range first_chunk last_chunk) in
      (with_chunks validated r, res)
  end.

Fixpoint validate_rows_loop (row_bytes : Z) (rows : list Z) (r : SegmentReader)
    : SegmentReader * result SegmentError unit :=
  match rows with
  | [] => (r, Ok tt)
  | row :: rows =>
      if sm_row_count (sr_meta r) <=? row then (r, Err SegmentGeometry)
      else match offset ← checked_mul usize_max row row_bytes; checked_add usize_max offset VECTOR_HEADER_LEN with
           | None => (r, Err SegmentGeometry)
           | Some start =>
               match validate_rescore_byte_range start row_bytes r with
               | (r, Err e) => (r, Err e)
               | (r, Ok _) => validate_rows_loop row_bytes rows r
               end
           end
  end.

Definition validate_rescore_rows (rows : list Z) (r : SegmentReader)
    : SegmentReader * result SegmentError unit :=
  match checked_mul usize_max (sm_dims (sr_meta r)) 4 with
  | None => (r, Err SegmentGeometry)
  | Some row_bytes => validate_rows_loop row_bytes rows r
  end.

Definition query_rescore_f32 (r : SegmentReader) : SegmentReader * result SegmentError (list Z) :=
  match validate_rescore_byte_range 0 VECTOR_HEADER_LEN r with
  | (r, Err e) => (r, Err e)
  | (r, Ok _) => (r, vector_payload_unchecked r RegionVectorRescore ≫= rescore_f32_from r)
  end.
End Vectors.
