(* ===== verification/SegmentHeaderSpec.v ===== *)
(** * What an accepted segment header guarantees

    Every region of a directory the parser accepts is aligned, lies between the
    header and the trailer, and overlaps no other; reading one never leaves the
    mapping. *)

From S2P Require Import Prelude Format Cursor Schema Manifest ManifestIo Bitmap Dict Columns SegmentLayout SegmentReader.

(** A region within its file. *)
Definition region_bounded (header_length file_length : Z) (entry : RegionEntry) : Prop :=
  re_offset entry mod REGION_ALIGNMENT = 0
  ∧ header_length ≤ re_offset entry ∧ 0 ≤ re_length entry
  ∧ re_offset entry + re_length entry ≤ file_length - FILE_TRAILER_LEN.

(** Two regions that share no byte. *)
Definition regions_disjoint (a b : RegionEntry) : Prop :=
  re_offset a + re_length a ≤ re_offset b ∨ re_offset b + re_length b ≤ re_offset a.

Lemma align_up_ge v n : 0 ≤ v → align_up v REGION_ALIGNMENT = Ok n → v ≤ n ∧ n mod REGION_ALIGNMENT = 0.
Proof.
  intros Hv H. unfold align_up in H. ok_inv H rounded Hr. apply checked_add_Some in Hr as [-> _].
  injection H as <-. unfold saturating_sub, REGION_ALIGNMENT in *. split.
  - pose proof (Z.mod_bound_pos (v + Z.max 0 (16 * 1024 - 1)) (16 * 1024)). pose proof (Z.div_mod (v + Z.max 0 (16 * 1024 - 1)) (16 * 1024)). lia.
  - apply Z.mod_mul. lia.
Qed.

Lemma validate_entry_Ok a e header_length file_length :
  0 ≤ header_length → validate_entry a e header_length file_length = Ok tt →
  region_bounded header_length file_length e.
Proof.
  intros Hh H. unfold validate_entry in H. ok_inv H offset Ho. apply try_from_Some in Ho as [-> Ho].
  ok_inv H length Hl. apply try_from_Some in Hl as [-> Hl]. bind_inv H minimum Hm.
  apply align_up_ge in Hm as [Hm _]; [|done].
  destruct (Z.ltb_spec (re_offset e) minimum); [done|]. cbn [orb] in H.
  destruct (Z.eqb_spec (re_offset e mod REGION_ALIGNMENT) 0) as [Hal|]; [|done]. cbn [negb] in H.
  ok_inv H region_end He. apply checked_add_Some in He as [-> He].
  ok_inv H fl Hf. apply try_from_Some in Hf as [-> Hf].
  ok_inv H maximum Hx. apply checked_sub_Some in Hx as [-> Hx].
  destruct (Z.ltb_spec (file_length - FILE_TRAILER_LEN) (re_offset e + re_length e)); [done|].
  unfold region_bounded. split_and!; lia.
Qed.

Lemma read_directory_Ok a hb header_length file_length count : ∀ position entries out,
  0 ≤ header_length →
  read_directory a hb header_length file_length count position entries = Ok out →
  Forall (region_bounded header_length file_length) entries → NoDup (map re_kind entries) →
  Forall (region_bounded header_length file_length) out ∧ NoDup (map re_kind out)
  ∧ length out = (length entries + count)%nat.
Proof.
  induction count as [|count IH]; intros position entries out Hh H Hb Hnd; cbn [read_directory] in H.
  { injection H as <-. by rewrite Nat.add_0_r. }
  ok_inv H offset Ho. bind_inv H entry He. destruct (re_reserved entry =? 0); [|done]. cbn [negb] in H.
  destruct (existsb _ entries) eqn:Ex; [done|]. bind_inv H u Hv. destruct u. bind_inv H u Hr.
  apply validate_entry_Ok in Hv; [|done]. apply IH in H as (H1 & H2 & H3); [|done| |].
  - split_and!; [done|done|]. rewrite H3, length_app. cbn. lia.
  - apply Forall_app. split; [done|by apply Forall_singleton].
  - rewrite map_app. apply NoDup_app. split_and!; [done| |apply NoDup_singleton].
    intros k Hk ->%list_elem_of_singleton. apply list_elem_of_In, in_map_iff in Hk as (e & E & Hin).
    assert (existsb (λ existing, re_kind existing =? re_kind entry) entries = true) as Ht; [|congruence].
    apply existsb_exists. exists e. split; [done|]. by apply Z.eqb_eq.
Qed.

Lemma overlaps_none_Ok e others :
  overlaps_none e (re_offset e + re_length e) others = Ok tt → Forall (regions_disjoint e) others.
Proof.
  induction others as [|other others IH]; intros H; cbn [overlaps_none] in H; constructor.
  - ok_inv H other_end Ho. apply checked_add_Some in Ho as [-> _]. unfold regions_disjoint.
    destruct (Z.ltb_spec (re_offset e) (re_offset other + re_length other)); [|lia]. cbn [andb] in H.
    destruct (Z.ltb_spec (re_offset other) (re_offset e + re_length e)); [done|lia].
  - ok_inv H other_end Ho. destruct (_ && _); [done|]. by apply IH.
Qed.

Lemma validate_non_overlapping_Ok entries :
  validate_non_overlapping entries = Ok tt → ForallOrdPairs regions_disjoint entries.
Proof.
  induction entries as [|e entries IH]; intros H; cbn [validate_non_overlapping] in H; constructor.
  - ok_inv H e_end He. apply checked_add_Some in He as [-> _]. bind_inv H u Hu. destruct u.
    apply List.Forall_forall. intros x Hx. apply overlaps_none_Ok in Hu. rewrite Forall_forall in Hu.
    by apply Hu, list_elem_of_In.
  - ok_inv H e_end He. bind_inv H u Hu. by apply IH.
Qed.

(** The header length a region count implies. *)
Lemma directory_length count :
  0 ≤ count ≤ u16_max →
  (value ← checked_add usize_max FILE_HEADER_LEN SEGMENT_PREFIX_LEN;
   value ← checked_add usize_max value (saturating_mul usize_max count REGION_ENTRY_LEN);
   checked_add usize_max value 8)
  = Some (FILE_HEADER_LEN + SEGMENT_PREFIX_LEN + count * REGION_ENTRY_LEN + 8).
Proof.
  intros Hc. unfold checked_add, saturating_mul, usize_max, u64_max, u16_max, FILE_HEADER_LEN,
    SEGMENT_PREFIX_LEN, REGION_ENTRY_LEN in *.
  rewrite Z.min_r by lia. do 3 (decide_Z; cbn [mbind option_bind]). done.
Qed.

Section Bounds.
Context {X : Xxh3}.

Lemma bounded_header_Ok a b n header_length header_bytes :
  bounded_header a b n = Ok (header_length, header_bytes) →
  header_bytes = take (Z.to_nat header_length) b ∧ len header_bytes = header_length
  ∧ FILE_HEADER_LEN + SEGMENT_PREFIX_LEN + 8 ≤ header_length ≤ MAX_SEGMENT_HEADER_BYTES
  ∧ header_length ≤ n - FILE_TRAILER_LEN ∧ is_u64 n.
Proof.
  intros H. unfold bounded_header in H. bind_inv H fixed Hf. destruct (_ =? _); [|done]. cbn [negb] in H.
  ok_inv H hl Hh. apply try_from_Some in Hh as [-> Hh]. bind_inv H u Hu. destruct u.
  ok_inv H hb Hb. injection H as <- <-. apply slice_to_Some in Hb as (Hr & -> & Hl).
  unfold validate_bounded_header_length in Hu.
  destruct (Z.leb_spec (FILE_HEADER_LEN + SEGMENT_PREFIX_LEN + 8) (fh_header_length fixed)); [|done].
  destruct (Z.leb_spec (fh_header_length fixed) MAX_SEGMENT_HEADER_BYTES); [|done]. cbn [andb negb] in Hu.
  ok_inv Hu fl Hfl. apply try_from_Some in Hfl as [-> Hfl].
  destruct (Z.ltb_spec (saturating_sub n FILE_TRAILER_LEN) (fh_header_length fixed)); [done|].
  unfold saturating_sub, FILE_TRAILER_LEN, FILE_HEADER_LEN, SEGMENT_PREFIX_LEN in *. split_and!; try done; lia.
Qed.

(** What parsing a header establishes. *)
Lemma parse_segment_header_Ok a b n id p :
  parse_segment_header a b n id = Ok p →
  sm_id (ph_meta p) = id ∧ sm_file_size (ph_meta p) = n ∧ is_u64 n
  ∧ ph_header_length p = FILE_HEADER_LEN + SEGMENT_PREFIX_LEN + len (ph_entries p) * REGION_ENTRY_LEN + 8
  ∧ ph_header_length p ≤ Z.min MAX_SEGMENT_HEADER_BYTES (len b)
  ∧ Forall (region_bounded (ph_header_length p) n) (ph_entries p)
  ∧ NoDup (map re_kind (ph_entries p)) ∧ ForallOrdPairs regions_disjoint (ph_entries p).
Proof.
  intros H. unfold parse_segment_header in H. bind_inv H hdr Hh. destruct hdr as [hl hb].
  apply bounded_header_Ok in Hh as (Hb & Hl & Hmin & Hmax & Hn).
  ok_inv H actual Ha. destruct (bool_decide_reflect (actual = id)) as [->|]; [|done]. cbn [negb] in H.
  bind_inv H rows Hr. bind_inv H count Hc. bind_inv H reserved Hres. destruct (reserved =? 0); [|done].
  cbn [negb] in H. bind_inv H scheme Hs. bind_inv H u Hu. bind_inv H padding Hp. destruct (padding =? 0); [|done].
  cbn [negb] in H. bind_inv H dims Hd. ok_inv H ehl He.
  destruct (Z.eqb_spec hl ehl) as [->|]; [|done]. cbn [negb] in H. bind_inv H u' Hu'. bind_inv H entries Hdir.
  bind_inv H u'' Ho. destruct u''. injection H as <-. cbn [ph_meta ph_entries ph_header_length sm_id sm_file_size].
  apply read_directory_Ok in Hdir as (Hbd & Hnd & Hlen); [|unfold FILE_HEADER_LEN, SEGMENT_PREFIX_LEN in *; lia|constructor|constructor].
  cbn [length Nat.add] in Hlen.
  assert (0 ≤ count ≤ u16_max) as Hcount.
  { unfold seg_u16 in Hc. destruct (read_u16 a hb _) as [v|] eqn:E; [|done]. injection Hc as ->.
    by apply read_u16_Ok in E as (_ & _ & _ & Hv). }
  assert (ehl = FILE_HEADER_LEN + SEGMENT_PREFIX_LEN + count * REGION_ENTRY_LEN + 8) as Eh.
  { rewrite directory_length in He by done. by injection He as <-. }
  assert (len entries = count) as Hle by (unfold len; lia).
  assert (len hb ≤ len b) as Hbl by (rewrite Hb; unfold len; rewrite length_take; lia).
  split_and!; try done; [by rewrite Hle|lia|].
  by apply validate_non_overlapping_Ok.
Qed.

Lemma region_slice_bounded r e hl :
  0 ≤ hl → region_bounded hl (len (sr_mapping r)) e → len (sr_mapping r) ≤ isize_max →
  region_slice r e
  = Ok (take (Z.to_nat (re_length e)) (drop (Z.to_nat (re_offset e)) (sr_mapping r))).
Proof.
  intros Hh (Hal & Hoff & Hlen & Hend) Hm. unfold region_slice, FILE_TRAILER_LEN in *.
  unfold try_from, checked_add, slice_range, usize_max, u64_max, isize_max in *.
  decide_Z. cbn [andb ok_or]. rewrite bind_Ok. decide_Z. cbn [andb ok_or]. rewrite bind_Ok.
  decide_Z. cbn [ok_or]. rewrite bind_Ok. decide_Z. cbn [andb ok_or]. do 3 f_equal. lia.
Qed.

(** C31: A directory that opening a segment accepts is safe to read through: region
    kinds are unique; every region starts on a 16 KiB boundary after the header,
    ends before the trailer and shares no byte with another; so the slice of any
    entry is inside the mapping and has the declared length. *)
Theorem open_segment_regions_safe (artifact : string) (mapping id : bytes) (r : SegmentReader) :
  segment_open artifact mapping id = Ok r → len mapping ≤ isize_max →
  sm_id (sr_meta r) = id ∧ sm_file_size (sr_meta r) = len mapping
  ∧ NoDup (map re_kind (sr_entries r))
  ∧ (∀ e, e ∈ sr_entries r →
       re_offset e mod REGION_ALIGNMENT = 0
       ∧ FILE_HEADER_LEN + SEGMENT_PREFIX_LEN + len (sr_entries r) * REGION_ENTRY_LEN + 8 ≤ re_offset e
       ∧ re_offset e + re_length e ≤ len mapping - FILE_TRAILER_LEN
       ∧ ∃ data, region_slice r e = Ok data ∧ len data = re_length e)
  ∧ (∀ i j e e', i ≠ j → sr_entries r !! i = Some e → sr_entries r !! j = Some e' → regions_disjoint e e').
Proof.
  intros H Hm. unfold segment_open in H. bind_inv H p Hp. bind_inv H w Hw. injection H as <-.
  apply parse_segment_header_Ok in Hp as (Hid & Hfs & _ & Hhl & _ & Hbd & Hnd & Hdis).
  cbn [sr_meta sr_entries sr_mapping]. assert (0 ≤ ph_header_length p) as Hpos.
  { rewrite Hhl. pose proof (len_nonneg (ph_entries p)). unfold FILE_HEADER_LEN, SEGMENT_PREFIX_LEN, REGION_ENTRY_LEN. lia. }
  split_and!; try done.
  - intros e He. rewrite Forall_forall in Hbd. destruct (Hbd e He) as (Hal & Hoff & Hlen & Hend).
    split_and!; [done|lia|done|]. eexists.
    split; [apply (region_slice_bounded _ e (ph_header_length p)); [done|by split_and!|done]|].
    unfold FILE_TRAILER_LEN, len in *. rewrite length_take, length_drop. cbn [sr_mapping]. lia.
  - intros i j e e' Hij Hi Hj. clear -Hdis Hij Hi Hj.
    revert i j Hij Hi Hj. induction Hdis as [|x l Hx _ IH]; intros i j Hij Hi Hj; [done|].
    rewrite List.Forall_forall in Hx. unfold regions_disjoint in *.
    destruct i as [|i], j as [|j]; cbn in Hi, Hj; [done| | |by apply (IH i j); [lia|..]].
    + injection Hi as <-. by apply Hx, list_elem_of_In, list_elem_of_lookup_2 with j.
    + injection Hj as <-. destruct (Hx e); [by apply list_elem_of_In, list_elem_of_lookup_2 with i|by right|by left].
Qed.
End Bounds.
