(* ===== verification/SegmentImage.v ===== *)
(** * A segment image reads back

    The image [encode_regions] writes is the one the reader expects: its header
    parses to the directory the writer laid out, and every region slice is the
    region that was written, under the checksum recorded for it. *)

From S2P Require Import Prelude Format Cursor Schema Manifest ManifestIo Bitmap Dict Columns SegmentLayout SegmentWriter SegmentReader SegmentHeaderSpec.

(** ** The layout, without its failures *)

(** A region of the image: kind, version and bytes. *)
Record item : Type := { it_kind : Z; it_version : Z; it_data : bytes }.

Definition aligned (n : Z) : Z := (n + (REGION_ALIGNMENT - 1)) / REGION_ALIGNMENT * REGION_ALIGNMENT.

Definition after (off : Z) (data : bytes) : Z := aligned (off + len data).

Fixpoint end_offset (off : Z) (items : list item) : Z :=
  match items with [] => off | i :: items => end_offset (after off (it_data i)) items end.

Section Layout.
Context {X : Xxh3}.

Definition place_entry (off : Z) (i : item) : RegionEntry :=
  {| re_kind := it_kind i; re_version := it_version i; re_reserved := 0; re_offset := off;
     re_length := len (it_data i); re_checksum := xxh3_64 (it_data i) |}.

Fixpoint place (off : Z) (items : list item) : list RegionEntry :=
  match items with [] => [] | i :: items => place_entry off i :: place (after off (it_data i)) items end.

Definition zero_bytes (n : Z) : bytes := replicate (Z.to_nat n) Byte.x00.

(** The regions, each padded to the next boundary. *)
Fixpoint body (off : Z) (items : list item) : bytes :=
  match items with
  | [] => []
  | i :: items => it_data i ++ zero_bytes (after off (it_data i) - (off + len (it_data i)))
                  ++ body (after off (it_data i)) items
  end.

Lemma aligned_ge n : n ≤ aligned n < n + REGION_ALIGNMENT ∧ aligned n mod REGION_ALIGNMENT = 0.
Proof.
  unfold aligned, REGION_ALIGNMENT. split; [|apply Z.mod_mul; lia].
  pose proof (Z.div_mod (n + (16 * 1024 - 1)) (16 * 1024)).
  pose proof (Z.mod_pos_bound (n + (16 * 1024 - 1)) (16 * 1024)). lia.
Qed.

Lemma aligned_multiple n : n mod REGION_ALIGNMENT = 0 → aligned n = n.
Proof.
  intros Hn. destruct (aligned_ge n) as [Hr Hm]. unfold REGION_ALIGNMENT in *.
  apply Z.mod_divide in Hn as [k ->]; [|lia]. apply Z.mod_divide in Hm as [j Hj]; [|lia]. rewrite Hj in Hr |- *. lia.
Qed.

Lemma align_up_aligned n : 0 ≤ n → n + REGION_ALIGNMENT ≤ usize_max → align_up n REGION_ALIGNMENT = Ok (aligned n).
Proof.
  intros H0 Hn. unfold align_up, aligned, saturating_sub, checked_add.
  replace (Z.max 0 (REGION_ALIGNMENT - 1)) with (REGION_ALIGNMENT - 1) by done.
  unfold REGION_ALIGNMENT in *. by decide_Z.
Qed.

Lemma after_ge off data : off ≤ after off data.
Proof. pose proof (len_nonneg data). destruct (aligned_ge (off + len data)). unfold after. lia. Qed.

Lemma end_offset_ge items : ∀ off, off ≤ end_offset off items.
Proof.
  induction items as [|i items IH]; intros off; cbn; [done|].
  pose proof (after_ge off (it_data i)). specialize (IH (after off (it_data i))). lia.
Qed.

Lemma end_offset_mod items : ∀ off, off mod REGION_ALIGNMENT = 0 → end_offset off items mod REGION_ALIGNMENT = 0.
Proof. induction items as [|i items IH]; intros off Ho; cbn; [done|]. apply IH, aligned_ge. Qed.

Lemma end_offset_app items more off : end_offset off (items ++ more) = end_offset (end_offset off items) more.
Proof. revert off. induction items; intros off; cbn; auto. Qed.

Lemma place_app items more off : place off (items ++ more) = place off items ++ place (end_offset off items) more.
Proof. revert off. induction items as [|i items IH]; intros off; cbn; [done|]. by rewrite IH. Qed.

Lemma body_app items more off : body off (items ++ more) = body off items ++ body (end_offset off items) more.
Proof.
  revert off. induction items as [|i items IH]; intros off; cbn; [done|]. by rewrite IH, <- !app_assoc.
Qed.

Lemma len_zero_bytes n : 0 ≤ n → len (zero_bytes n) = n.
Proof. intros Hn. unfold len, zero_bytes. rewrite length_replicate. lia. Qed.

Lemma len_body items : ∀ off, len (body off items) = end_offset off items - off.
Proof.
  induction items as [|i items IH]; intros off; cbn [body end_offset]; [rewrite (len_nil (A:=byte)); lia|].
  destruct (aligned_ge (off + len (it_data i))) as [Ha _]. fold (after off (it_data i)) in Ha.
  rewrite !len_app, IH, len_zero_bytes; lia.
Qed.

Lemma length_place items : ∀ off, length (place off items) = length items.
Proof. induction items as [|i items IH]; intros off; cbn; [done|]. by rewrite IH. Qed.

Lemma offset_after_ok off data :
  0 ≤ off → after off data + REGION_ALIGNMENT ≤ isize_max → offset_after off (len data) = Ok (after off data).
Proof.
  intros H0 Hb. pose proof (len_nonneg data). destruct (aligned_ge (off + len data)) as [Ha _].
  unfold after, offset_after, checked_add in *. unfold REGION_ALIGNMENT, usize_max, u64_max, isize_max in *.
  decide_Z. cbn [ok_or]. rewrite bind_Ok. apply align_up_aligned; unfold REGION_ALIGNMENT, usize_max, u64_max; lia.
Qed.

Lemma region_entry_ok kind version off data :
  len data ≤ isize_max →
  region_entry kind version off data
  = Ok (place_entry off {| it_kind := kind; it_version := version; it_data := data |}).
Proof.
  intros Hl. pose proof (len_nonneg data). unfold region_entry, try_from, isize_max, u64_max in *. by decide_Z.
Qed.

(** *** The loops of the writer *)

Definition region_item (r : RegionBytes) : item :=
  {| it_kind := region_id (rb_kind r); it_version := current_version (rb_family r); it_data := rb_bytes r |}.
Definition copied_item (r : SegmentCopiedRegion) : item :=
  {| it_kind := cr_kind r; it_version := cr_version r; it_data := cr_bytes r |}.

Lemma registered_version_ok f : registered_version f = Ok (current_version f).
Proof. by destruct f. Qed.

Lemma region_entries_ok regions : ∀ off entries,
  0 ≤ off → end_offset off (map region_item regions) + REGION_ALIGNMENT ≤ isize_max →
  region_entries off entries regions
  = Ok (end_offset off (map region_item regions), entries ++ place off (map region_item regions)).
Proof.
  induction regions as [|r regions IH]; intros off entries H0 Hb; cbn [region_entries map place end_offset].
  { by rewrite app_nil_r. }
  cbn [map end_offset] in Hb. pose proof (end_offset_ge (map region_item regions) (after off (rb_bytes r))) as Hge.
  pose proof (after_ge off (rb_bytes r)). cbn [region_item it_data] in *.
  assert (len (rb_bytes r) ≤ isize_max) as Hl.
  { destruct (aligned_ge (off + len (rb_bytes r))) as [Ha _]. fold (after off (rb_bytes r)) in Ha.
    unfold REGION_ALIGNMENT in *. lia. }
  rewrite registered_version_ok, bind_Ok, region_entry_ok by done. rewrite bind_Ok, offset_after_ok by lia.
  rewrite bind_Ok, IH by lia. by rewrite <- app_assoc.
Qed.

Lemma copied_entries_ok copied : ∀ off entries,
  0 ≤ off → end_offset off (map copied_item copied) + REGION_ALIGNMENT ≤ isize_max →
  NoDup (map re_kind entries ++ map cr_kind copied) →
  region_id RegionChecksumTable ∉ map cr_kind copied →
  copied_entries off entries copied
  = Ok (end_offset off (map copied_item copied), entries ++ place off (map copied_item copied)).
Proof.
  induction copied as [|r copied IH]; intros off entries H0 Hb Hnd Hct; cbn [copied_entries map place end_offset].
  { by rewrite app_nil_r. }
  cbn [map end_offset] in *. pose proof (end_offset_ge (map copied_item copied) (after off (cr_bytes r))) as Hge.
  pose proof (after_ge off (cr_bytes r)). cbn [copied_item it_data] in *.
  assert (len (cr_bytes r) ≤ isize_max) as Hl.
  { destruct (aligned_ge (off + len (cr_bytes r))) as [Ha _]. fold (after off (cr_bytes r)) in Ha.
    unfold REGION_ALIGNMENT in *. lia. }
  apply not_elem_of_cons in Hct as [Hc1 Hct]. rewrite (proj2 (Z.eqb_neq _ _)) by done. cbn [orb].
  assert (existsb (λ entry, re_kind entry =? cr_kind r) entries = false) as ->.
  { apply not_true_is_false. intros (e & He & Ek%Z.eqb_eq)%existsb_exists.
    apply NoDup_app in Hnd as (_ & Hd & _). apply (Hd (cr_kind r)); [|by left].
    rewrite <- Ek. by apply list_elem_of_In, in_map. }
  rewrite region_entry_ok by done. rewrite bind_Ok, offset_after_ok by lia. rewrite bind_Ok, IH; [|lia|lia| |done].
  - by rewrite <- app_assoc.
  - rewrite map_app, <- app_assoc. exact Hnd.
Qed.

Lemma resize_zeros_pad n (output : bytes) :
  len output ≤ n → resize_zeros n output = output ++ zero_bytes (n - len output).
Proof.
  intros Hn. unfold resize_zeros, zero_bytes. rewrite resize_ge by (unfold len in Hn; lia). do 2 f_equal.
  unfold len. lia.
Qed.

Lemma append_regions_ok items : ∀ off output rest,
  len output = off → off mod REGION_ALIGNMENT = 0 → end_offset off items + REGION_ALIGNMENT ≤ isize_max →
  append_regions output (map it_data items) (place off items ++ rest) = Ok (output ++ body off items).
Proof.
  induction items as [|i items IH]; intros off output rest Hl Hal Hb; cbn [map append_regions body place app].
  { by rewrite app_nil_r. }
  cbn [end_offset] in Hb. pose proof (end_offset_ge items (after off (it_data i))) as Hge.
  pose proof (after_ge off (it_data i)). pose proof (len_nonneg output). pose proof (len_nonneg (it_data i)).
  destruct (aligned_ge (off + len (it_data i))) as [Ha Ham]. fold (after off (it_data i)) in Ha, Ham.
  cbn [place_entry re_offset]. unfold try_from. unfold usize_max, u64_max, isize_max in *. decide_Z. cbn [andb ok_or].
  rewrite bind_Ok. rewrite (proj2 (Z.eqb_eq (len output) off)) by done. cbn [negb].
  rewrite len_app, Hl, align_up_aligned by (unfold usize_max, u64_max, REGION_ALIGNMENT in *; lia).
  rewrite bind_Ok. fold (after off (it_data i)). rewrite resize_zeros_pad by (rewrite len_app; lia).
  rewrite IH; [|rewrite !len_app, len_zero_bytes; lia|done|done].
  rewrite len_app, Hl, <- !app_assoc. done.
Qed.
(** *** Where the regions are *)

Lemma place_offsets items : ∀ off,
  off mod REGION_ALIGNMENT = 0 →
  Forall (λ e, off ≤ re_offset e ∧ re_offset e mod REGION_ALIGNMENT = 0 ∧ 0 ≤ re_length e
               ∧ re_offset e + re_length e ≤ end_offset off items) (place off items).
Proof.
  induction items as [|i items IH]; intros off Ho; cbn [place end_offset]; constructor.
  - pose proof (end_offset_ge items (after off (it_data i))). pose proof (len_nonneg (it_data i)).
    destruct (aligned_ge (off + len (it_data i))) as [Ha _]. fold (after off (it_data i)) in Ha.
    cbn [place_entry re_offset re_length]. split_and!; (done || lia).
  - pose proof (after_ge off (it_data i)). eapply Forall_impl; [apply IH, aligned_ge|].
    cbn. intros e (? & ? & ? & ?). split_and!; (done || lia).
Qed.

(** The place of an item, and its bytes in the body. *)
Lemma place_lookup items : ∀ off (n : nat) i,
  items !! n = Some i → place off items !! n = Some (place_entry (end_offset off (take n items)) i).
Proof.
  induction items as [|x items IH]; intros off [|n] i Hi; cbn in *; try done; [congruence|]. by apply IH.
Qed.

Lemma overlaps_none_after e others :
  Forall (λ o, re_offset e + re_length e ≤ re_offset o ∧ re_offset o + re_length o ≤ u64_max) others →
  overlaps_none e (re_offset e + re_length e) others = Ok tt.
Proof.
  induction 1 as [|o others [Ho Hb] _ IH]; cbn [overlaps_none]; [done|]. unfold checked_add. decide_Z. cbn [ok_or].
  rewrite bind_Ok, andb_false_r. exact IH.
Qed.

Lemma place_non_overlapping items : ∀ off limit,
  off mod REGION_ALIGNMENT = 0 → limit ≤ u64_max →
  Forall (λ e, re_offset e + re_length e ≤ limit) (place off items) →
  validate_non_overlapping (place off items) = Ok tt.
Proof.
  induction items as [|i items IH]; intros off limit Ho Hl Hf; cbn [place validate_non_overlapping]; [done|].
  cbn [place] in Hf. apply Forall_cons in Hf as [Hi Hf]. cbn [place_entry re_offset re_length] in *.
  unfold checked_add. decide_Z. cbn [ok_or]. rewrite bind_Ok.
  destruct (aligned_ge (off + len (it_data i))) as [Ha Ham]. fold (after off (it_data i)) in Ha, Ham.
  change off with (re_offset (place_entry off i)) at 2. change (len (it_data i)) with (re_length (place_entry off i)) at 1.
  rewrite overlaps_none_after, bind_Ok; [by apply (IH _ limit)|].
  pose proof (place_offsets items (after off (it_data i)) Ham) as Hp. rewrite Forall_forall in Hp, Hf |- *.
  intros e He. specialize (Hp e He). specialize (Hf e He). cbn [place_entry re_offset re_length] in *. lia.
Qed.

Lemma validate_entry_ok a e hl fl :
  0 ≤ hl → hl + REGION_ALIGNMENT ≤ isize_max → aligned hl ≤ re_offset e → re_offset e mod REGION_ALIGNMENT = 0 →
  0 ≤ re_length e → re_offset e + re_length e ≤ fl - FILE_TRAILER_LEN → fl ≤ isize_max →
  validate_entry a e hl fl = Ok tt.
Proof.
  intros H0 Hh Ho Hm Hl He Hf. destruct (aligned_ge hl) as [Ha _]. unfold validate_entry.
  rewrite align_up_aligned by (try done; unfold usize_max, u64_max, isize_max in *; lia).
  unfold try_from, checked_add, checked_sub, usize_max, u64_max, isize_max, FILE_TRAILER_LEN in *.
  decide_Z. cbn [andb ok_or]. rewrite bind_Ok. decide_Z. cbn [andb ok_or]. rewrite bind_Ok, bind_Ok.
  decide_Z. cbn [orb negb ok_or]. rewrite !bind_Ok. cbn [ok_or]. decide_Z. cbn [ok_or]. rewrite ?bind_Ok. by decide_Z.
Qed.
End Layout.

Lemma try_usize_big z : 0 ≤ z ≤ isize_max → try_from usize_max z = Some z.
Proof. intros Hz. unfold try_from, usize_max, u64_max, isize_max in *. by decide_Z. Qed.

(** ** The image *)

Section Image.
Context {X : Xxh3} {L : Xxh3Laws X}.
Context (id : bytes) (row_count scheme dims : Z) (regions : list RegionBytes)
  (copied : list SegmentCopiedRegion).

Definition image_items : list item := map region_item regions ++ map copied_item copied.
Definition table_item : item :=
  {| it_kind := region_id RegionChecksumTable; it_version := current_version ChecksumTable;
     it_data := encode_checksum_table regions copied |}.
Definition image_all : list item := image_items ++ [table_item].
Definition image_header_length : Z :=
  FILE_HEADER_LEN + SEGMENT_PREFIX_LEN + len image_all * REGION_ENTRY_LEN + 8.
Definition image_first : Z := aligned image_header_length.
Definition image_entries : list RegionEntry := place image_first image_all.
Definition image_file_length : Z :=
  end_offset image_first image_items + len (it_data table_item) + FILE_TRAILER_LEN.
Definition image_directory : bytes :=
  segment_prefix id row_count scheme dims (len image_all) image_header_length image_file_length
  ++ concat (map encode_entry image_entries).
Definition image_header : bytes := image_directory ++ u64_le (xxh3_64 image_directory).
Definition image_regions : bytes :=
  image_header ++ zero_bytes (image_first - image_header_length)
  ++ body image_first image_items ++ it_data table_item.
Definition segment_image : bytes := image_regions ++ u64_le (xxh3_64 image_regions).

(** Regions a segment may have: known widths, one of each kind, and a directory
    and a file within the bounds of the format. *)
Record image_ok : Prop := {
  im_id : len id = 16;
  im_rows : is_u32 row_count;
  im_scheme : require_scheme scheme = Ok tt;
  im_dims : is_u32 dims;
  im_kinds : NoDup (map it_kind image_all);
  im_widths : Forall (λ i, is_u16 (it_kind i) ∧ is_u16 (it_version i)) image_items;
  im_versions : ∀ a off, Forall (λ i, require_region_version a (place_entry off i) = Ok tt) image_items;
  im_header : image_header_length ≤ MAX_SEGMENT_HEADER_BYTES;
  im_file : image_file_length + REGION_ALIGNMENT ≤ isize_max;
}.

Hypothesis Hok : image_ok.

Lemma image_sizes :
  0 ≤ image_header_length ≤ image_first ∧ image_first mod REGION_ALIGNMENT = 0
  ∧ image_first ≤ end_offset image_first image_items ∧ 1 ≤ len image_all ≤ u16_max
  ∧ end_offset image_first image_items + REGION_ALIGNMENT ≤ isize_max.
Proof using Hok.
  destruct (aligned_ge image_header_length) as [Ha Hm]. fold image_first in Ha, Hm.
  pose proof (end_offset_ge image_items image_first). pose proof (im_header Hok) as Hh. pose proof (im_file Hok) as Hf.
  pose proof (len_nonneg image_items). pose proof (len_nonneg (it_data table_item)).
  assert (len image_all = len image_items + 1) as Hall by (unfold image_all; rewrite len_app; done).
  unfold image_header_length, image_file_length, MAX_SEGMENT_HEADER_BYTES, FILE_HEADER_LEN, SEGMENT_PREFIX_LEN,
    REGION_ENTRY_LEN, FILE_TRAILER_LEN, u16_max in *. split_and!; try done; lia.
Qed.

Lemma len_entry e : len (encode_entry e) = REGION_ENTRY_LEN.
Proof using. unfold encode_entry. by autorewrite with zep_len. Qed.

Lemma len_entries es : len (concat (map encode_entry es)) = len es * REGION_ENTRY_LEN.
Proof using.
  induction es as [|e es IH]; [done|]. cbn [map concat]. rewrite len_app, IH, len_entry, len_cons. lia.
Qed.

Lemma len_prefix count hl fl :
  len id = 16 → len (segment_prefix id row_count scheme dims count hl fl) = FILE_HEADER_LEN + SEGMENT_PREFIX_LEN.
Proof using. intros Hid. unfold segment_prefix. autorewrite with zep_len. rewrite len_FILE_MAGIC, Hid. done. Qed.

Lemma len_image_header : len image_header = image_header_length.
Proof using Hok.
  unfold image_header, image_directory. rewrite !len_app, len_u64_le, len_prefix, len_entries by apply Hok.
  unfold image_entries. unfold len at 1. rewrite length_place. unfold image_header_length, len. lia.
Qed.

(** The offsets of the two loops. *)
Lemma image_offsets :
  end_offset image_first image_items
  = end_offset (end_offset image_first (map region_item regions)) (map copied_item copied)
  ∧ image_first ≤ end_offset image_first (map region_item regions) ≤ end_offset image_first image_items.
Proof using.
  unfold image_items. rewrite end_offset_app.
  pose proof (end_offset_ge (map copied_item copied) (end_offset image_first (map region_item regions))).
  pose proof (end_offset_ge (map region_item regions) image_first). lia.
Qed.

Lemma kinds_of_place items : ∀ off, map re_kind (place off items) = map it_kind items.
Proof using. induction items as [|i items IH]; intros off; cbn; [done|]. by rewrite IH. Qed.

Lemma image_copied_kinds :
  NoDup (map re_kind (place image_first (map region_item regions)) ++ map cr_kind copied)
  ∧ region_id RegionChecksumTable ∉ map cr_kind copied.
Proof using Hok.
  pose proof (im_kinds Hok) as Hk. unfold image_all, image_items in Hk. rewrite !map_app in Hk.
  apply NoDup_app in Hk as (Hk & Hd & _). rewrite (map_map copied_item) in Hk, Hd. rewrite kinds_of_place.
  split; [exact Hk|]. intros Hin. apply (Hd (region_id RegionChecksumTable)); [|by left].
  apply elem_of_app. by right.
Qed.

Lemma image_layout :
  ('(next_offset, entries) ← region_entries image_first [] regions;
   copied_entries next_offset entries copied)
  = Ok (end_offset image_first image_items, place image_first image_items).
Proof using Hok.
  destruct image_sizes as (Hhl & Hal & Hfirst & Hcount & Hend). destruct image_offsets as (Eo & Hg1 & Hg2).
  destruct image_copied_kinds as [Hk Hct]. rewrite region_entries_ok by lia. rewrite bind_Ok. cbn [app].
  rewrite copied_entries_ok by (done || lia). rewrite <- Eo. do 2 f_equal.
  symmetry. apply place_app.
Qed.

Lemma image_body :
  append_body image_header regions copied image_entries (it_data table_item) = Ok image_regions.
Proof using Hok.
  destruct image_sizes as (Hhl & Hal & Hfirst & Hcount & Hend). destruct image_offsets as (Eo & Hg1 & Hg2).
  assert (image_entries = place image_first image_items
          ++ [place_entry (end_offset image_first image_items) table_item]) as Ees
    by (unfold image_entries, image_all; by rewrite place_app).
  assert (image_entries = place image_first (map region_item regions)
          ++ place (end_offset image_first (map region_item regions)) (map copied_item copied)
          ++ [place_entry (end_offset image_first image_items) table_item]) as Ees'.
  { rewrite Ees. unfold image_items at 1. by rewrite place_app, <- app_assoc. }
  assert (ok_or (entry ← head image_entries; try_from usize_max (re_offset entry)) SegmentGeometry = Ok image_first) as Hhead.
  { unfold image_entries, image_all. destruct image_items as [|i l]; cbn [app place head mbind option_bind place_entry re_offset];
      unfold try_from, usize_max, u64_max, isize_max, REGION_ALIGNMENT in *; by decide_Z. }
  unfold append_body. rewrite Hhead, bind_Ok.
  rewrite resize_zeros_pad by (rewrite len_image_header; lia). rewrite len_image_header.
  set (out := image_header ++ zero_bytes (image_first - image_header_length)).
  assert (len out = image_first) as Hout.
  { unfold out. rewrite len_app, len_image_header, len_zero_bytes; lia. }
  replace (map rb_bytes regions) with (map it_data (map region_item regions)) by (by rewrite map_map).
  rewrite Ees' at 1. rewrite (append_regions_ok _ image_first) by (done || lia). rewrite bind_Ok.
  rewrite Ees' at 1. replace (length regions) with (length (place image_first (map region_item regions)))
    by (by rewrite length_place, length_map).
  rewrite drop_app_length.
  replace (map cr_bytes copied) with (map it_data (map copied_item copied)) by (by rewrite map_map).
  rewrite (append_regions_ok _ (end_offset image_first (map region_item regions)));
    [|rewrite len_app, len_body; lia|by apply end_offset_mod|lia].
  rewrite bind_Ok. assert (last image_entries = Some (place_entry (end_offset image_first image_items) table_item)) as ->
    by (rewrite Ees; apply last_snoc).
  cbn [ok_or]. rewrite bind_Ok. cbn [place_entry re_offset]. rewrite <- app_assoc, <- body_app. fold image_items.
  pose proof (len_body image_items image_first) as Hlb.
  unfold try_from, usize_max, u64_max, isize_max, REGION_ALIGNMENT in *. decide_Z. cbn [andb ok_or]. rewrite bind_Ok.
  rewrite len_app. decide_Z. cbn [negb]. unfold image_regions, out. by rewrite <- !app_assoc.
Qed.

Lemma len_image_regions : len image_regions = image_file_length - FILE_TRAILER_LEN.
Proof using Hok.
  destruct image_sizes as (Hhl & _). unfold image_regions, image_file_length.
  rewrite !len_app, len_image_header, len_body, len_zero_bytes by lia. lia.
Qed.

Lemma len_segment_image : len segment_image = image_file_length.
Proof using Hok.
  unfold segment_image. rewrite len_app, len_image_regions, len_u64_le. unfold FILE_TRAILER_LEN. lia.
Qed.

Lemma encode_regions_image : encode_regions id row_count scheme dims regions copied = Ok segment_image.
Proof using Hok.
  destruct image_sizes as (Hhl & Hal & Hfirst & Hcount & Hend).
  pose proof (im_file Hok) as Hfile. pose proof (len_nonneg (it_data table_item)) as Ht0.
  assert (saturating_add usize_max (saturating_add usize_max (len regions) (len copied)) 1 = len image_all) as Hall.
  { unfold image_all, image_items in *. rewrite !len_app, !len_map in *. pose proof (len_nonneg regions).
    pose proof (len_nonneg copied). unfold saturating_add, usize_max, u64_max, u16_max in *.
    rewrite len_cons, (len_nil (A:=item)) in *. lia. }
  assert (align_up image_header_length REGION_ALIGNMENT = Ok image_first) as Hfst.
  { apply align_up_aligned; [lia|]. unfold usize_max, u64_max, isize_max in *. lia. }
  unfold encode_regions. rewrite Hall. unfold segment_header_length. rewrite directory_length by lia.
  fold image_header_length. cbn [ok_or]. rewrite bind_Ok, Hfst, bind_Ok. generalize image_layout.
  destruct (region_entries image_first [] regions) as [[next es]|e]; [|done]. rewrite !bind_Ok. intros Hlay.
  rewrite Hlay, bind_Ok, registered_version_ok, bind_Ok.
  set (ces := [ {| re_kind := _; re_version := _; re_reserved := _; re_offset := _; re_length := _; re_checksum := _ |} ]).
  assert (place image_first image_items ++ ces = image_entries) as ->
    by (symmetry; apply (place_app image_items [table_item])).
  change (encode_checksum_table regions copied) with (it_data table_item).
  assert (checked_add usize_max (end_offset image_first image_items) (len (it_data table_item))
          = Some (image_file_length - FILE_TRAILER_LEN)) as ->.
  { unfold checked_add, image_file_length, FILE_TRAILER_LEN, usize_max, u64_max, isize_max, REGION_ALIGNMENT in *.
    decide_Z. f_equal. lia. }
  cbn [ok_or]. rewrite bind_Ok.
  assert (checked_add usize_max (image_file_length - FILE_TRAILER_LEN) FILE_TRAILER_LEN = Some image_file_length) as ->.
  { unfold checked_add, FILE_TRAILER_LEN, usize_max, u64_max, isize_max, REGION_ALIGNMENT in *. decide_Z. f_equal. lia. }
  cbn [ok_or]. rewrite bind_Ok. fold image_directory. fold image_header.
  rewrite len_image_header, Z.eqb_refl. cbn [negb]. rewrite image_body, bind_Ok. fold segment_image.
  by rewrite len_segment_image, Z.eqb_refl.
Qed.

(** *** Reading the header *)

Definition image_fixed : FileHeader :=
  {| fh_magic := FILE_MAGIC; fh_family := family_id Segment; fh_version := 1; fh_flags := 0;
     fh_header_length := image_header_length; fh_file_length := image_file_length |}.

(** The prefix after the fixed header. *)
Definition image_prefix : bytes :=
  id ++ u32_le row_count ++ u16_le (len image_all) ++ u16_le 0 ++ u16_le scheme ++ u16_le 0 ++ u32_le dims.

Lemma image_header_parts :
  image_header = encode_header image_fixed ++ image_prefix ++ concat (map encode_entry image_entries)
                 ++ u64_le (xxh3_64 image_directory).
Proof using.
  unfold image_header, image_directory, segment_prefix, image_prefix, encode_header. cbn. by rewrite <- !app_assoc.
Qed.

Lemma image_fixed_ok : header_ok Segment image_fixed.
Proof using Hok.
  destruct image_sizes as (Hhl & _ & Hg & Hcount & _). pose proof (im_file Hok) as Hf. pose proof (im_header Hok) as Hh.
  pose proof (len_nonneg (it_data table_item)).
  assert (0 ≤ image_file_length ≤ u64_max) as Hfl
    by (unfold image_file_length, FILE_TRAILER_LEN, u64_max, isize_max, REGION_ALIGNMENT in *; lia).
  assert (FILE_HEADER_LEN ≤ image_header_length ≤ u64_max) as Hhd
    by (unfold image_header_length, MAX_SEGMENT_HEADER_BYTES, FILE_HEADER_LEN, SEGMENT_PREFIX_LEN, REGION_ENTRY_LEN, u64_max in *; lia).
  unfold header_ok, image_fixed, is_u64. cbn. split_and!; try done; lia.
Qed.

(** Where a field of the header is. *)
Lemma seg_u16_at a b pre v post off :
  b = pre ++ u16_le v ++ post → is_u16 v → off = len pre → seg_u16 a b off = Ok v.
Proof using. intros -> Hv ->. unfold seg_u16. by rewrite read_u16_at. Qed.
Lemma seg_u32_at a b pre v post off :
  b = pre ++ u32_le v ++ post → is_u32 v → off = len pre → seg_u32 a b off = Ok v.
Proof using. intros -> Hv ->. unfold seg_u32. by rewrite read_u32_at. Qed.
Lemma seg_u64_at a b pre v post off :
  b = pre ++ u64_le v ++ post → is_u64 v → off = len pre → seg_u64 a b off = Ok v.
Proof using. intros -> Hv ->. unfold seg_u64. by rewrite read_u64_at. Qed.

(** An entry within its widths. *)
Definition entry_ok (e : RegionEntry) : Prop :=
  is_u16 (re_kind e) ∧ is_u16 (re_version e) ∧ re_reserved e = 0
  ∧ is_u64 (re_offset e) ∧ is_u64 (re_length e) ∧ is_u64 (re_checksum e).

Lemma read_region_entry_at a b pre e post off :
  b = pre ++ encode_entry e ++ post → entry_ok e → off = len pre → off + 32 ≤ usize_max →
  read_region_entry a b off = Ok e.
Proof using.
  intros -> (Hk & Hv & Hr & Ho & Hl & Hc) -> Hoff. unfold read_region_entry, encode_entry, saturating_add.
  pose proof (len_nonneg pre). rewrite !Z.min_r by lia. rewrite <- !app_assoc.
  rewrite (seg_u16_at a _ pre (re_kind e)
             (u16_le (re_version e) ++ u32_le (re_reserved e) ++ u64_le (re_offset e) ++ u64_le (re_length e)
              ++ u64_le (re_checksum e) ++ post) (len pre)) by done. rewrite bind_Ok.
  rewrite (seg_u16_at a _ (pre ++ u16_le (re_kind e)) (re_version e)
             (u32_le (re_reserved e) ++ u64_le (re_offset e) ++ u64_le (re_length e) ++ u64_le (re_checksum e) ++ post) (len pre + 2));
    [|by rewrite <- !app_assoc|done|rewrite !len_app, !len_u16_le; lia]. rewrite bind_Ok.
  rewrite (seg_u32_at a _ (pre ++ u16_le (re_kind e) ++ u16_le (re_version e)) (re_reserved e)
             (u64_le (re_offset e) ++ u64_le (re_length e) ++ u64_le (re_checksum e) ++ post) (len pre + 4));
    [|by rewrite <- !app_assoc|by rewrite Hr|rewrite !len_app, !len_u16_le; lia]. rewrite bind_Ok.
  rewrite (seg_u64_at a _ (pre ++ u16_le (re_kind e) ++ u16_le (re_version e) ++ u32_le (re_reserved e)) (re_offset e)
             (u64_le (re_length e) ++ u64_le (re_checksum e) ++ post) (len pre + 8));
    [|by rewrite <- !app_assoc|done|rewrite !len_app, !len_u16_le, len_u32_le; lia]. rewrite bind_Ok.
  rewrite (seg_u64_at a _ (pre ++ u16_le (re_kind e) ++ u16_le (re_version e) ++ u32_le (re_reserved e) ++ u64_le (re_offset e))
             (re_length e) (u64_le (re_checksum e) ++ post) (len pre + 16));
    [|by rewrite <- !app_assoc|done|rewrite !len_app, !len_u16_le, len_u32_le, len_u64_le; lia]. rewrite bind_Ok.
  rewrite (seg_u64_at a _ (pre ++ u16_le (re_kind e) ++ u16_le (re_version e) ++ u32_le (re_reserved e) ++ u64_le (re_offset e)
             ++ u64_le (re_length e)) (re_checksum e) post (len pre + 24));
    [|by rewrite <- !app_assoc|done|rewrite !len_app, !len_u16_le, len_u32_le, !len_u64_le; lia]. rewrite bind_Ok.
  by destruct e.
Qed.

(** The directory loop reads what was written. *)
Lemma read_directory_at a hl fl es : ∀ b pre done_ post,
  b = pre ++ concat (map encode_entry es) ++ post →
  len pre = FILE_HEADER_LEN + SEGMENT_PREFIX_LEN + len done_ * REGION_ENTRY_LEN →
  len (done_ ++ es) ≤ u16_max → NoDup (map re_kind (done_ ++ es)) →
  Forall (λ e, entry_ok e ∧ validate_entry a e hl fl = Ok tt ∧ require_region_version a e = Ok tt) es →
  read_directory a b hl fl (length es) (len done_) done_ = Ok (done_ ++ es).
Proof using.
  induction es as [|e es IH]; intros b pre done_ post Hb Hpre Hn Hnd Hes; cbn [length read_directory].
  { by rewrite app_nil_r. }
  apply Forall_cons in Hes as [(He & Hve & Hre) Hes]. pose proof (len_nonneg done_) as Hd0. pose proof (len_nonneg es) as He0.
  rewrite len_app, len_cons in Hn. unfold saturating_add, saturating_mul.
  unfold FILE_HEADER_LEN, SEGMENT_PREFIX_LEN, REGION_ENTRY_LEN, u16_max, usize_max, u64_max in *.
  rewrite !Z.min_r by lia. unfold checked_add. decide_Z. cbn [ok_or]. rewrite bind_Ok.
  rewrite (read_region_entry_at a b pre e (concat (map encode_entry es) ++ post)); [|by rewrite Hb; cbn; rewrite <- app_assoc|done|lia|unfold usize_max, u64_max; lia].
  rewrite bind_Ok. destruct He as (Hk & Hv & Hr & Ho & Hl & Hc). rewrite Hr, Z.eqb_refl. cbn [negb].
  assert (existsb (λ existing, re_kind existing =? re_kind e) done_ = false) as ->.
  { apply not_true_is_false. intros (x & Hx & Ek%Z.eqb_eq)%existsb_exists. rewrite map_app in Hnd.
    apply NoDup_app in Hnd as (_ & Hd & _). apply (Hd (re_kind e)); [|by left].
    rewrite <- Ek. by apply list_elem_of_In, in_map. }
  rewrite Hve, bind_Ok, Hre, bind_Ok.
  replace (len done_ + 1) with (len (done_ ++ [e])) by (rewrite len_app; done).
  rewrite (IH b (pre ++ encode_entry e) (done_ ++ [e]) post);
    [by rewrite <- app_assoc|by rewrite Hb; cbn; rewrite <- !app_assoc| | |by rewrite <- app_assoc|done].
  - rewrite !len_app, len_entry, Hpre, len_cons, (len_nil (A:=RegionEntry)). unfold REGION_ENTRY_LEN. lia.
  - rewrite <- app_assoc. cbn [app]. rewrite len_app, len_cons. lia.
Qed.

Lemma slice_image_header : slice_to segment_image image_header_length = Some image_header.
Proof using Hok.
  unfold segment_image, image_regions. rewrite <- !app_assoc. rewrite slice_to_app; [done|]. by rewrite len_image_header.
Qed.

Lemma bounded_header_image a :
  bounded_header a segment_image image_file_length = Ok (image_header_length, image_header).
Proof using Hok.
  destruct image_sizes as (Hhl & _ & Hg & Hcount & _). pose proof (im_file Hok) as Hf. pose proof (im_header Hok) as Hh.
  pose proof (len_nonneg (it_data table_item)).
  assert (decode_header a Segment segment_image = Ok image_fixed) as Hdec.
  { unfold segment_image, image_regions. rewrite image_header_parts, <- !app_assoc.
    apply decode_encode_header, image_fixed_ok. }
  unfold bounded_header. rewrite Hdec. cbn [map_err]. rewrite bind_Ok. cbn [image_fixed fh_file_length fh_header_length].
  rewrite Z.eqb_refl. cbn [negb]. rewrite try_usize_big by (unfold isize_max, MAX_SEGMENT_HEADER_BYTES in *; lia).
  cbn [ok_or]. rewrite bind_Ok. assert (validate_bounded_header_length a image_header_length image_file_length = Ok tt) as ->.
  { unfold validate_bounded_header_length, image_file_length, image_header_length in *.
    unfold FILE_HEADER_LEN, SEGMENT_PREFIX_LEN, REGION_ENTRY_LEN, FILE_TRAILER_LEN in *. decide_Z. cbn [andb negb].
    rewrite try_usize_big by (unfold REGION_ALIGNMENT in *; lia). cbn [ok_or]. rewrite bind_Ok.
    unfold saturating_sub. by decide_Z. }
  by rewrite bind_Ok, slice_image_header.
Qed.

(** The entries satisfy every check of the directory loop. *)
Lemma image_entries_checked a :
  Forall (λ e, entry_ok e ∧ validate_entry a e image_header_length image_file_length = Ok tt
               ∧ require_region_version a e = Ok tt) image_entries.
Proof using Hok L.
  destruct image_sizes as (Hhl & Hal & Hg & Hcount & Hend). pose proof (im_file Hok) as Hf.
  pose proof (len_nonneg (it_data table_item)) as Ht0.
  assert (∀ off i, is_u16 (it_kind i) → is_u16 (it_version i) → image_first ≤ off → off mod REGION_ALIGNMENT = 0 →
    off + len (it_data i) ≤ image_file_length - FILE_TRAILER_LEN → require_region_version a (place_entry off i) = Ok tt →
    entry_ok (place_entry off i) ∧ validate_entry a (place_entry off i) image_header_length image_file_length = Ok tt
    ∧ require_region_version a (place_entry off i) = Ok tt) as Hone.
  { intros off i Hk Hv Ho Hm He Hr. pose proof (len_nonneg (it_data i)). split_and!; [| |done].
    - unfold entry_ok. cbn [place_entry re_kind re_version re_reserved re_offset re_length re_checksum].
      unfold FILE_TRAILER_LEN, isize_max, REGION_ALIGNMENT in *.
      split_and!; try done; try apply xxh3_64_u64; unfold is_u64, u64_max; lia.
    - apply validate_entry_ok; cbn [place_entry re_offset re_length]; try done;
        unfold isize_max, REGION_ALIGNMENT, FILE_TRAILER_LEN in *; lia. }
  unfold image_entries, image_all. rewrite place_app. apply Forall_app. split.
  - pose proof (place_offsets image_items image_first Hal) as Hp. apply Forall_lookup. intros n e He.
    destruct (lookup_lt_is_Some_2 image_items n) as [i Hi].
    { apply lookup_lt_Some in He. by rewrite length_place in He. }
    rewrite (place_lookup _ _ _ _ Hi) in He. injection He as <-.
    rewrite Forall_lookup in Hp. specialize (Hp n _ (place_lookup _ _ _ _ Hi)).
    cbn [place_entry re_offset re_length] in Hp. destruct Hp as (Hp1 & Hp2 & Hp3 & Hp4).
    pose proof (im_widths Hok) as Hw. rewrite Forall_lookup in Hw. destruct (Hw n i Hi) as [Hk Hv].
    pose proof (im_versions Hok a (end_offset image_first (take n image_items))) as Hr. rewrite Forall_lookup in Hr.
    apply Hone; try done; [unfold image_file_length; lia|by apply (Hr n)].
  - constructor; [|constructor]. apply Hone; try done; [by apply end_offset_mod|unfold image_file_length; lia].
Qed.

Definition image_meta : SegmentMeta :=
  {| sm_id := id; sm_row_count := row_count; sm_scheme := scheme; sm_dims := dims;
     sm_file_size := image_file_length; sm_epoch_id := None; sm_clustering_key_range := Unstamped |}.

Lemma header_checksum_image a : check_header_checksum a image_header image_header_length = Ok tt.
Proof using Hok L.
  assert (len image_directory = image_header_length - 8) as Hl.
  { pose proof len_image_header as H. unfold image_header in H. rewrite len_app, len_u64_le in H. lia. }
  pose proof (len_nonneg image_directory). unfold check_header_checksum, saturating_sub. rewrite Z.max_r by lia.
  rewrite (seg_u64_at a image_header image_directory (xxh3_64 image_directory) []);
    [|unfold image_header; by rewrite app_nil_r|apply xxh3_64_u64|done].
  rewrite bind_Ok. unfold image_header. rewrite slice_to_app by done. cbn [ok_or]. rewrite bind_Ok, Z.eqb_refl. done.
Qed.

(** The fields of the prefix. *)
Lemma image_prefix_fields a :
  slice_range image_header 32 48 = Some id
  ∧ seg_u32 a image_header 48 = Ok row_count ∧ seg_u16 a image_header 52 = Ok (len image_all)
  ∧ seg_u16 a image_header 54 = Ok 0 ∧ seg_u16 a image_header 56 = Ok scheme
  ∧ seg_u16 a image_header 58 = Ok 0 ∧ seg_u32 a image_header 60 = Ok dims.
Proof using Hok.
  destruct image_sizes as (_ & _ & _ & Hcount & _). pose proof (im_id Hok) as Hid.
  assert (is_u16 scheme) as Hs.
  { pose proof (im_scheme Hok) as H. unfold require_scheme in H. unfold is_u16, u16_max.
    destruct scheme as [|p|p]; [lia| |done]. do 3 (destruct p as [p|p|]; try done; try lia). }
  assert (len (encode_header image_fixed) = 32) as Hh by (by apply len_encode_header).
  set (h := encode_header image_fixed) in *.
  set (rest := concat (map encode_entry image_entries) ++ u64_le (xxh3_64 image_directory)).
  assert (image_header = h ++ id ++ u32_le row_count ++ u16_le (len image_all) ++ u16_le 0 ++ u16_le scheme
          ++ u16_le 0 ++ u32_le dims ++ rest) as E.
  { rewrite image_header_parts. unfold image_prefix. by rewrite <- !app_assoc. }
  split_and!.
  - rewrite E. apply slice_range_app; lia.
  - eapply (seg_u32_at a _ (h ++ id)); [by rewrite E, <- !app_assoc|apply Hok|rewrite len_app; lia].
  - eapply (seg_u16_at a _ (h ++ id ++ u32_le row_count)); [by rewrite E, <- !app_assoc|split; lia|len_lia].
  - eapply (seg_u16_at a _ (h ++ id ++ u32_le row_count ++ u16_le (len image_all)));
      [by rewrite E, <- !app_assoc|done|len_lia].
  - eapply (seg_u16_at a _ (h ++ id ++ u32_le row_count ++ u16_le (len image_all) ++ u16_le 0));
      [by rewrite E, <- !app_assoc|done|len_lia].
  - eapply (seg_u16_at a _ (h ++ id ++ u32_le row_count ++ u16_le (len image_all) ++ u16_le 0 ++ u16_le scheme));
      [by rewrite E, <- !app_assoc|done|len_lia].
  - eapply (seg_u32_at a _ (h ++ id ++ u32_le row_count ++ u16_le (len image_all) ++ u16_le 0 ++ u16_le scheme ++ u16_le 0));
      [by rewrite E, <- !app_assoc|apply Hok|len_lia].
Qed.

Lemma parse_segment_image a :
  parse_segment_header a segment_image image_file_length id
  = Ok {| ph_meta := image_meta; ph_header_length := image_header_length; ph_entries := image_entries |}.
Proof using Hok L.
  destruct image_sizes as (Hhl & Hal & Hg & Hcount & Hend).
  destruct (image_prefix_fields a) as (E1 & E2 & E3 & E4 & E5 & E6 & E7).
  unfold parse_segment_header. rewrite bounded_header_image, bind_Ok.
  change (saturating_add usize_max FILE_HEADER_LEN 16) with 48.
  change (saturating_add usize_max FILE_HEADER_LEN 20) with 52.
  change (saturating_add usize_max FILE_HEADER_LEN 22) with 54.
  change (saturating_add usize_max FILE_HEADER_LEN 24) with 56.
  change (saturating_add usize_max FILE_HEADER_LEN 26) with 58.
  change (saturating_add usize_max FILE_HEADER_LEN 28) with 60.
  change (slice_range image_header FILE_HEADER_LEN 48) with (slice_range image_header 32 48). rewrite E1. cbn [ok_or]. rewrite bind_Ok, bool_decide_eq_true_2 by done. cbn [negb].
  rewrite E2, bind_Ok, E3, bind_Ok, E4, bind_Ok. cbn [Z.eqb negb]. rewrite E5, bind_Ok, (im_scheme Hok). cbn [map_err].
  rewrite bind_Ok, E6, bind_Ok. cbn [Z.eqb negb]. rewrite E7, bind_Ok, directory_length by lia. fold image_header_length.
  cbn [ok_or]. rewrite bind_Ok, Z.eqb_refl. cbn [negb]. rewrite header_checksum_image, bind_Ok.
  assert (read_directory a image_header image_header_length image_file_length (Z.to_nat (len image_all)) 0 []
          = Ok image_entries) as ->.
  { replace (Z.to_nat (len image_all)) with (length image_entries) by (unfold image_entries; rewrite length_place, to_nat_len; done).
    apply (read_directory_at a _ _ image_entries image_header (encode_header image_fixed ++ image_prefix) []
             (u64_le (xxh3_64 image_directory))).
    - by rewrite image_header_parts, <- !app_assoc.
    - rewrite len_app, len_encode_header by done. unfold image_prefix. autorewrite with zep_len. rewrite (im_id Hok). done.
    - cbn [app]. unfold image_entries, len. rewrite length_place. unfold len in Hcount. lia.
    - cbn [app]. unfold image_entries. rewrite kinds_of_place. apply Hok.
    - apply image_entries_checked. }
  rewrite bind_Ok. assert (validate_non_overlapping image_entries = Ok tt) as ->; [|done].
  apply (place_non_overlapping _ _ isize_max Hal); [by vm_compute|].
  eapply Forall_impl; [apply (image_entries_checked a)|]. cbn. intros e (_ & Hv & _).
  apply validate_entry_Ok in Hv as (_ & _ & _ & Hv); [|lia]. pose proof (im_file Hok).
  unfold FILE_TRAILER_LEN, REGION_ALIGNMENT in *. lia.
Qed.

(** *** Reading the regions *)

Lemma body_split off items (n : nat) i :
  items !! n = Some i → ∃ post, body off items = body off (take n items) ++ it_data i ++ post.
Proof using.
  intros Hi. assert (items = take n items ++ i :: drop (S n) items) as E by (symmetry; by apply take_drop_middle).
  eexists. rewrite E at 1. rewrite body_app. cbn [body]. reflexivity.
Qed.

(** Every region lies in the image at the offset of its entry. *)
Lemma image_slice (n : nat) i :
  image_all !! n = Some i →
  ∃ pre post, segment_image = pre ++ it_data i ++ post ∧ len pre = end_offset image_first (take n image_all).
Proof using Hok.
  intros Hi. destruct image_sizes as (Hhl & Hal & Hg & Hcount & Hend).
  assert (len (image_header ++ zero_bytes (image_first - image_header_length)) = image_first) as Hpre.
  { rewrite len_app, len_image_header, len_zero_bytes; lia. }
  unfold segment_image, image_regions. unfold image_all in Hi |- *.
  apply lookup_app_Some in Hi as [Hi|[Hn Hi]].
  - destruct (body_split image_first image_items n i Hi) as (post & E). rewrite E, <- !app_assoc.
    apply lookup_lt_Some in Hi as Hlt. rewrite take_app_le by lia.
    eexists (image_header ++ zero_bytes _ ++ body image_first (take n image_items)), _.
    split; [by rewrite <- !app_assoc|]. rewrite app_assoc, len_app, Hpre, len_body. lia.
  - apply list_lookup_singleton_Some in Hi as [Hz <-]. replace n with (length image_items) by lia.
    rewrite take_app_length.
    exists (image_header ++ zero_bytes (image_first - image_header_length) ++ body image_first image_items),
      (u64_le (xxh3_64 (image_header ++ zero_bytes (image_first - image_header_length)
         ++ body image_first image_items ++ it_data table_item))).
    split; [by rewrite <- !app_assoc|]. rewrite app_assoc, len_app, Hpre, len_body. lia.
Qed.

Definition image_words : Z :=
  match rescore_validation_words image_entries with Ok words => words | Err _ => 0 end.

Definition image_reader : SegmentReader :=
  {| sr_mapping := segment_image; sr_meta := image_meta; sr_header_length := image_header_length;
     sr_entries := image_entries; sr_document_versions_validation := None;
     sr_collection_schema := None; sr_document_version_index_cache := None;
     sr_gates := closed_gates image_words |}.


Lemma image_len_bound : len segment_image ≤ isize_max.
Proof using Hok. rewrite len_segment_image. pose proof (im_file Hok). unfold REGION_ALIGNMENT in *. lia. Qed.

Lemma image_slice_range (n : nat) i :
  image_all !! n = Some i →
  let off := end_offset image_first (take n image_all) in
  slice_range segment_image off (off + len (it_data i)) = Some (it_data i) ∧ 0 ≤ off
  ∧ off + len (it_data i) ≤ isize_max.
Proof using Hok.
  intros Hi off. destruct (image_slice n i Hi) as (pre & post & E & Hl). fold off in Hl.
  pose proof image_len_bound as Hb. rewrite E, !len_app in Hb. pose proof (len_nonneg pre). pose proof (len_nonneg post).
  split_and!; [|lia|lia]. rewrite E. apply slice_range_app; lia.
Qed.

Lemma image_region_slice (n : nat) i (r : SegmentReader) :
  sr_mapping r = segment_image → image_all !! n = Some i →
  region_slice r (place_entry (end_offset image_first (take n image_all)) i) = Ok (it_data i).
Proof using Hok.
  intros Hm Hi. destruct (image_slice_range n i Hi) as (Es & H0 & Hb). pose proof (len_nonneg (it_data i)).
  unfold region_slice. cbn [place_entry re_offset re_length]. rewrite !try_usize_big by lia. cbn [ok_or].
  rewrite !bind_Ok. unfold checked_add. unfold usize_max, u64_max, isize_max in *. decide_Z. cbn [ok_or].
  by rewrite bind_Ok, Hm, Es.
Qed.

Lemma find_kind (es : list RegionEntry) e :
  NoDup (map re_kind es) → e ∈ es → List.find (λ entry, re_kind entry =? re_kind e) es = Some e.
Proof using.
  induction es as [|x es IH]; intros Hnd He; [by apply not_elem_of_nil in He|].
  cbn [map] in Hnd. apply NoDup_cons in Hnd as [Hx Hnd]. cbn [List.find]. apply elem_of_cons in He as [->|He].
  { by rewrite Z.eqb_refl. }
  rewrite (proj2 (Z.eqb_neq _ _)); [by apply IH|]. intros E. apply Hx. rewrite E.
  by apply list_elem_of_In, in_map, list_elem_of_In.
Qed.

Lemma image_find_entry (n : nat) i (r : SegmentReader) :
  sr_entries r = image_entries → image_all !! n = Some i →
  find_entry r (it_kind i) = Some (place_entry (end_offset image_first (take n image_all)) i).
Proof using Hok.
  intros Hr Hi. unfold find_entry. rewrite Hr.
  change (it_kind i) with (re_kind (place_entry (end_offset image_first (take n image_all)) i)).
  apply find_kind; [unfold image_entries; rewrite kinds_of_place; apply Hok|].
  eapply list_elem_of_lookup_2. by apply place_lookup.
Qed.

(** Reading a region, by its kind or by its number. *)
Lemma image_checked_slice (n : nat) i (r : SegmentReader) artifact :
  sr_mapping r = segment_image → image_all !! n = Some i →
  checked_slice r artifact (place_entry (end_offset image_first (take n image_all)) i) = Ok (it_data i).
Proof using Hok.
  intros Hm Hi. unfold checked_slice. rewrite (image_region_slice n i r Hm Hi), bind_Ok.
  cbn [place_entry re_checksum]. by rewrite Z.eqb_refl.
Qed.

Lemma image_region kind i (r : SegmentReader) :
  sr_mapping r = segment_image → sr_entries r = image_entries → i ∈ image_all → it_kind i = region_id kind →
  region r kind = Ok (it_data i).
Proof using Hok.
  intros Hm He (n & Hi)%list_elem_of_lookup Hk. unfold region, reader_entry.
  rewrite <- Hk, (image_find_entry n i r He Hi). cbn [ok_or]. rewrite bind_Ok. by apply image_checked_slice.
Qed.

Lemma image_region_by_id i (r : SegmentReader) :
  sr_mapping r = segment_image → sr_entries r = image_entries → i ∈ image_all →
  region_by_id r (it_kind i) = Ok (it_data i).
Proof using Hok.
  intros Hm He (n & Hi)%list_elem_of_lookup. unfold region_by_id.
  rewrite (image_find_entry n i r He Hi). cbn [ok_or]. rewrite bind_Ok. by apply image_checked_slice.
Qed.

(** *** Validating the whole image *)

Lemma image_entry_data e :
  e ∈ image_entries →
  ∃ n i, image_all !! n = Some i ∧ e = place_entry (end_offset image_first (take n image_all)) i.
Proof using.
  intros (n & He)%list_elem_of_lookup. destruct (lookup_lt_is_Some_2 image_all n) as [i Hi].
  { apply lookup_lt_Some in He. unfold image_entries in He. by rewrite length_place in He. }
  exists n, i. split; [done|]. unfold image_entries in He. rewrite (place_lookup _ _ _ _ Hi) in He. congruence.
Qed.

(** A region of a mapped file has a [usize] length. *)
Lemma image_words_ok : rescore_validation_words image_entries = Ok image_words.
Proof using Hok.
  unfold image_words, rescore_validation_words. destruct (List.find _ image_entries) as [e|] eqn:E; [|done].
  apply List.find_some in E as [He%list_elem_of_In _]. destruct (image_entry_data e He) as (n & i & Hi & ->).
  pose proof (image_region_slice n i image_reader eq_refl Hi) as Hs. unfold region_slice in Hs.
  ok_inv Hs start Hstart. ok_inv Hs length Hlength. by rewrite Hlength.
Qed.

Lemma open_image a : segment_open a segment_image id = Ok image_reader.
Proof using Hok L.
  unfold segment_open. rewrite len_segment_image, parse_segment_image, bind_Ok. cbn [ph_entries].
  by rewrite image_words_ok.
Qed.

Lemma check_regions_image : check_regions segment_image image_entries = Ok tt.
Proof using Hok.
  assert (Forall (λ e, e ∈ image_entries) image_entries) as Hf by (by apply Forall_forall).
  revert Hf. generalize image_entries at 2 3. intros es Hf. induction Hf as [|e es He _ IH]; [done|].
  cbn [check_regions]. destruct (image_entry_data e He) as (n & i & Hi & ->).
  destruct (image_slice_range n i Hi) as (Es & H0 & Hb). pose proof (len_nonneg (it_data i)).
  cbn [place_entry re_offset re_length re_checksum]. rewrite !try_usize_big by lia. cbn [ok_or]. rewrite !bind_Ok.
  unfold checked_add. unfold usize_max, u64_max, isize_max in *. decide_Z. cbn [ok_or]. rewrite bind_Ok, Es. cbn [ok_or].
  by rewrite bind_Ok, Z.eqb_refl.
Qed.

Lemma check_entries_image (r : SegmentReader) :
  sr_mapping r = segment_image → check_entries r image_entries = Ok tt.
Proof using Hok.
  intros Hm. assert (Forall (λ e, e ∈ image_entries) image_entries) as Hf by (by apply Forall_forall).
  revert Hf. generalize image_entries at 2 3. intros es Hf. induction Hf as [|e es He _ IH]; [done|].
  cbn [check_entries]. destruct (image_entry_data e He) as (n & i & Hi & ->).
  rewrite (image_region_slice n i r Hm Hi), bind_Ok. cbn [place_entry re_checksum]. by rewrite Z.eqb_refl.
Qed.

Lemma check_trailer_image file a : check_trailer file a segment_image = Ok tt.
Proof using Hok L.
  pose proof len_image_regions as Hl. pose proof (len_nonneg image_regions). unfold check_trailer, checked_sub.
  rewrite len_segment_image. decide_Z. cbn [ok_or]. rewrite bind_Ok.
  rewrite (seg_u64_at a segment_image image_regions (xxh3_64 image_regions) []);
    [|unfold segment_image; by rewrite app_nil_r|apply xxh3_64_u64|done].
  rewrite bind_Ok. unfold segment_image. rewrite slice_to_app by done. cbn [ok_or]. by rewrite bind_Ok, Z.eqb_refl.
Qed.

Lemma validate_all_image : validate_all image_reader = Ok tt.
Proof using Hok L.
  unfold validate_all. cbn [image_reader sr_entries sr_mapping]. rewrite check_entries_image by done.
  rewrite bind_Ok. apply check_trailer_image.
Qed.

Lemma validate_segment_image : validate_segment_bytes segment_image = Ok image_meta.
Proof using Hok L.
  unfold validate_segment_bytes. change (saturating_add usize_max FILE_HEADER_LEN 16) with 48.
  assert (slice_range segment_image FILE_HEADER_LEN 48 = Some id) as ->.
  { destruct (image_prefix_fields "segment-bytes") as (E & _). apply slice_range_Some in E as (_ & Hb & E & _).
    unfold segment_image, image_regions. rewrite <- !app_assoc. unfold slice_range, FILE_HEADER_LEN.
    rewrite len_app. rewrite (proj2 (Z.leb_le 48 _)) by (match goal with |- _ ≤ _ + len ?l => pose proof (len_nonneg l); lia end).
    cbn [Z.leb Z.compare Pos.compare Pos.compare_cont andb]. f_equal. unfold len in Hb. rewrite E.
    rewrite drop_app_le by lia. rewrite take_app_le by (rewrite length_drop; lia). done. }
  cbn [ok_or]. rewrite bind_Ok, len_segment_image. pose proof image_len_bound as Hb. rewrite len_segment_image in Hb.
  pose proof (len_nonneg segment_image) as H0. rewrite len_segment_image in H0.
  assert (try_from u64_max image_file_length = Some image_file_length) as -> by (by apply try_usize_big).
  cbn [ok_or]. rewrite bind_Ok, parse_segment_image, bind_Ok. cbn [ph_entries ph_meta].
  by rewrite check_regions_image, bind_Ok, check_trailer_image, bind_Ok.
Qed.
End Image.
