(* ===== verification/SegmentChunks.v ===== *)
(** * Reading a segment chunk by chunk

    The checksum table of an image covers every 64 KiB chunk of every region:
    reading a chunk returns its bytes, checked against the entry the writer
    recorded for it. *)

From S2P Require Import Prelude Format Cursor Schema Manifest ManifestIo Bitmap Dict Columns SegmentLayout SegmentLayoutSpec SegmentWriter SegmentReader SegmentHeaderSpec SegmentImage.

(** ** Chunks of a region *)

Lemma chunks_fuel_lookup (n : nat) (k : nat) : ∀ fuel data,
  (0 < n)%nat → (length data ≤ fuel)%nat → (k * n < length data)%nat →
  chunks_fuel fuel n data !! k = Some (take n (drop (k * n) data)).
Proof.
  induction k as [|k IH]; intros [|fuel] data Hn Hf Hk; [lia| |lia|].
  - destruct data as [|x data]; [cbn in Hk; lia|]. done.
  - destruct data as [|x data]; [cbn in Hk; lia|]. cbn [chunks_fuel].
    change ((take n (x :: data) :: chunks_fuel fuel n (drop n (x :: data))) !! S k)
      with (chunks_fuel fuel n (drop n (x :: data)) !! k).
    rewrite IH; [|done|rewrite length_drop; cbn in *; lia|rewrite length_drop; cbn in *; lia].
    by rewrite drop_drop.
Qed.

Lemma div_up_zero n : 0 < n → div_up 0 n = 0.
Proof. intros Hn. unfold div_up. apply Z.div_small. lia. Qed.

Lemma length_chunks_fuel (n : nat) : ∀ fuel data,
  (0 < n)%nat → (length data ≤ fuel)%nat →
  Z.of_nat (length (chunks_fuel fuel n data)) = div_up (len data) (Z.of_nat n).
Proof.
  induction fuel as [|fuel IH]; intros data Hn Hf.
  { assert (data = []) as -> by (apply nil_length_inv; lia). rewrite (len_nil (A:=byte)), div_up_zero; [done|lia]. }
  destruct data as [|x data].
  { rewrite (len_nil (A:=byte)), div_up_zero; [done|lia]. }
  cbn [chunks_fuel length]. rewrite Nat2Z.inj_succ, IH; [|done|rewrite length_drop; cbn in *; lia].
  set (l := x :: data) in *. assert (0 < len l) as Hl by (unfold l; rewrite len_cons; pose proof (len_nonneg data); lia).
  unfold div_up. destruct (Z.le_gt_cases (Z.of_nat n) (len l)) as [Hle|Hgt].
  - assert (len (drop n l) = len l - Z.of_nat n) as -> by (unfold len in *; rewrite length_drop; lia).
    replace (len l + Z.of_nat n - 1) with (len l - Z.of_nat n + Z.of_nat n - 1 + 1 * Z.of_nat n) by lia.
    rewrite Z.div_add by lia. lia.
  - assert (drop n l = []) as -> by (apply drop_ge; unfold len in *; lia).
    rewrite (len_nil (A:=byte)), Z.div_small by lia. symmetry.
    rewrite <- (Z.div_unique _ _ 1 (len l - 1)); lia.
Qed.

Lemma chunk_size_nat : (0 < Z.to_nat CHECKSUM_CHUNK_BYTES)%nat.
Proof. unfold CHECKSUM_CHUNK_BYTES. lia. Qed.

Lemma len_chunks data : len (chunks CHECKSUM_CHUNK_BYTES data) = div_up (len data) CHECKSUM_CHUNK_BYTES.
Proof.
  unfold chunks, len at 1. rewrite length_chunks_fuel by (done || apply chunk_size_nat). by rewrite Z2Nat.id.
Qed.

Lemma chunks_lookup data index :
  0 ≤ index → index * CHECKSUM_CHUNK_BYTES < len data →
  chunks CHECKSUM_CHUNK_BYTES data !! Z.to_nat index
  = Some (take (Z.to_nat CHECKSUM_CHUNK_BYTES) (drop (Z.to_nat (index * CHECKSUM_CHUNK_BYTES)) data)).
Proof.
  intros Hi Hl. unfold chunks. rewrite chunks_fuel_lookup.
  - do 3 f_equal. unfold CHECKSUM_CHUNK_BYTES. lia.
  - apply chunk_size_nat.
  - done.
  - unfold CHECKSUM_CHUNK_BYTES, len in *. lia.
Qed.

(** ** The table *)

Section Table.
Context {X : Xxh3} {L : Xxh3Laws X}.

Abbreviation table_entry := (Z * Z * Z * Z)%type.

Definition chunk_entries (kind : Z) (data : bytes) : list table_entry :=
  imap (λ index chunk, (kind, 0, Z.of_nat index, xxh3_64 chunk)) (chunks CHECKSUM_CHUNK_BYTES data).

Definition table_entries (items : list item) : list table_entry :=
  concat (map (λ i, chunk_entries (it_kind i) (it_data i)) items).

Definition encode_table_entry (e : table_entry) : bytes :=
  let '(kind, reserved, index, checksum) := e in
  u16_le kind ++ u16_le reserved ++ u32_le index ++ u64_le checksum.

Lemma checksum_entries_encode kind data :
  checksum_entries kind data = concat (map encode_table_entry (chunk_entries kind data)).
Proof.
  unfold checksum_entries, chunk_entries. f_equal. change (map ?f) with (fmap (M:=list) f). by rewrite fmap_imap.
Qed.

Lemma len_chunk_entries kind data : len (chunk_entries kind data) = div_up (len data) CHECKSUM_CHUNK_BYTES.
Proof. unfold chunk_entries, len at 1. rewrite length_imap. apply len_chunks. Qed.

Definition chunk_total (items : list item) : Z :=
  foldr Z.add 0 (map (λ i, div_up (len (it_data i)) CHECKSUM_CHUNK_BYTES) items).

Lemma len_table_entries items : len (table_entries items) = chunk_total items.
Proof.
  unfold table_entries, chunk_total. induction items as [|i items IH]; [done|]. cbn [map concat foldr].
  by rewrite len_app, IH, len_chunk_entries.
Qed.

Lemma concat_map_app {A} (f : A → bytes) l k : concat (map f (l ++ k)) = concat (map f l) ++ concat (map f k).
Proof. by rewrite map_app, concat_app. Qed.

Lemma table_image regions copied :
  let items := image_items regions copied in
  encode_checksum_table regions copied
  = u32_le (chunk_total items) ++ u32_le CHECKSUM_CHUNK_BYTES
    ++ concat (map encode_table_entry (table_entries items)).
Proof.
  cbv zeta. unfold encode_checksum_table.
  assert (∀ items, concat (map encode_table_entry (table_entries items))
          = concat (map (λ i, checksum_entries (it_kind i) (it_data i)) items)) as Hc.
  { unfold table_entries. induction items as [|i items IH]; [done|]. cbn [map concat].
    by rewrite concat_map_app, IH, checksum_entries_encode. }
  rewrite Hc. unfold image_items, chunk_total. rewrite concat_map_app, map_app, !map_map. done.
Qed.

(** The last entry of a key is its only value. *)
Lemma find_checksum_unique kind index v (entries : list table_entry) :
  Forall (λ '(k, _, c, w), k = kind → c = index → w = v) entries →
  (kind, 0, index, v) ∈ entries → find_checksum kind index entries = Some v.
Proof.
  unfold find_checksum. intros Hf Hin. induction entries as [|e entries IH] using rev_ind.
  { by apply not_elem_of_nil in Hin. }
  rewrite foldl_app. cbn [foldl]. apply Forall_app in Hf as [Hf [He _]%Forall_cons].
  destruct e as [[[k r] c] w]. destruct (Z.eqb_spec k kind) as [->|Hk], (Z.eqb_spec c index) as [->|Hc]; cbn [andb].
  { by rewrite (He eq_refl eq_refl). }
  all: apply IH; [done|]; apply elem_of_app in Hin as [Hin|Hin%list_elem_of_singleton]; [done|congruence].
Qed.

Lemma chunk_entries_elem kind data k r c w :
  (k, r, c, w) ∈ chunk_entries kind data →
  k = kind ∧ r = 0 ∧ 0 ≤ c < len (chunks CHECKSUM_CHUNK_BYTES data)
  ∧ ∃ chunk, chunks CHECKSUM_CHUNK_BYTES data !! Z.to_nat c = Some chunk ∧ w = xxh3_64 chunk.
Proof.
  intros (j & Hj)%list_elem_of_lookup. unfold chunk_entries in Hj. rewrite list_lookup_imap in Hj.
  destruct (chunks _ data !! j) as [chunk|] eqn:E; [|done]. cbn in Hj. injection Hj as <- <- <- <-.
  apply lookup_lt_Some in E as Hlt. split_and!; [done|done|lia|unfold len; lia|]. exists chunk. by rewrite Nat2Z.id.
Qed.

Lemma elem_of_table items e :
  e ∈ table_entries items → ∃ i, i ∈ items ∧ e ∈ chunk_entries (it_kind i) (it_data i).
Proof.
  unfold table_entries. intros He. apply list_elem_of_In, in_concat in He as (l & Hl & He).
  apply in_map_iff in Hl as (i & <- & Hi). exists i. by rewrite !list_elem_of_In.
Qed.

Lemma find_checksum_table items i index chunk :
  NoDup (map it_kind items) → i ∈ items → 0 ≤ index →
  chunks CHECKSUM_CHUNK_BYTES (it_data i) !! Z.to_nat index = Some chunk →
  find_checksum (it_kind i) index (table_entries items) = Some (xxh3_64 chunk).
Proof.
  intros Hnd Hi H0 Hc. apply find_checksum_unique.
  - apply Forall_forall. intros [[[k r] c] w] (i' & Hi' & He)%elem_of_table Ek Ec.
    apply chunk_entries_elem in He as (-> & _ & _ & chunk' & Hc' & ->). subst c.
    assert (i' = i) as ->; [|congruence].
    apply list_elem_of_lookup in Hi as (n & Hn), Hi' as (n' & Hn').
    assert (n' = n) as ->; [|congruence].
    eapply (NoDup_lookup (map it_kind items)); [done|..]; change (map ?f) with (fmap (M:=list) f);
      rewrite list_lookup_fmap; [by rewrite Hn'|by rewrite Hn, Ek].
  - unfold table_entries. apply list_elem_of_In, in_concat. eexists. split.
    { apply in_map_iff. exists i. split; [done|]. by apply list_elem_of_In. }
    apply list_elem_of_In. apply (list_elem_of_lookup_2 _ (Z.to_nat index)). unfold chunk_entries.
    rewrite list_lookup_imap, Hc. cbn. rewrite Z2Nat.id by done. done.
Qed.

(** *** Reading it *)

Lemma reads_checksum_entry k c w :
  is_u16 k → is_u32 c → is_u64 w →
  reads read_checksum_entry (encode_table_entry (k, 0, c, w)) (k, 0, c, w).
Proof.
  intros Hk Hc Hw. unfold read_checksum_entry, encode_table_entry.
  eapply reads_bind; [by apply reads_s_u16|]. cbv beta. eapply reads_bind; [by apply reads_s_u16|]. cbv beta.
  eapply reads_bind; [by apply reads_s_u32|]. cbv beta. eapply reads_bind_last; [by apply reads_s_u64|]. cbv beta.
  apply reads_ret.
Qed.

Lemma reads_table items kind index v :
  Forall (λ i, is_u16 (it_kind i)) items → chunk_total items ≤ u32_max →
  find_checksum kind index (table_entries items) = Some v →
  reads_end (read_checksum_table kind index)
    (u32_le (chunk_total items) ++ u32_le CHECKSUM_CHUNK_BYTES
     ++ concat (map encode_table_entry (table_entries items))) v.
Proof.
  intros Hk Ht Hf. pose proof (len_nonneg (table_entries items)) as H0. rewrite len_table_entries in H0.
  unfold read_checksum_table. eapply reads_end_bind; [by apply reads_s_u32|]. cbv beta.
  eapply reads_end_bind; [by apply reads_s_u32|]. cbv beta. rewrite Z.eqb_refl. cbn [negb].
  eapply reads_end_then; [apply reads_reads_end, (reads_repeat _ encode_table_entry)|].
  - rewrite <- len_table_entries. by rewrite to_nat_len.
  - apply Forall_forall. intros [[[k r] c] w] He. apply elem_of_table in He as (i & Hi & He).
    pose proof (chunk_entries_elem _ _ _ _ _ _ He) as (-> & -> & Hc & chunk & _ & ->).
    rewrite Forall_forall in Hk. apply reads_checksum_entry; [by apply Hk| |apply xxh3_64_u64].
    assert (div_up (len (it_data i)) CHECKSUM_CHUNK_BYTES ≤ chunk_total items) as Hle.
    { clear -Hi. unfold chunk_total. induction items as [|x items IH]; [by apply not_elem_of_nil in Hi|]. cbn [map foldr].
      assert (∀ l, 0 ≤ foldr Z.add 0 (map (λ i, div_up (len (it_data i)) CHECKSUM_CHUNK_BYTES) l)) as Hn.
      { induction l as [|y l IHl]; cbn [map foldr]; [done|].
        rewrite <- len_chunks. pose proof (len_nonneg (chunks CHECKSUM_CHUNK_BYTES (it_data y))). lia. }
      specialize (Hn items). apply elem_of_cons in Hi as [->|Hi]; [lia|]. specialize (IH Hi).
      rewrite <- (len_chunks (it_data x)). pose proof (len_nonneg (chunks CHECKSUM_CHUNK_BYTES (it_data x))). lia. }
    rewrite <- len_chunks in Hle. split; lia.
  - intros b. unfold mbind, cursor_bind, s_finish, with_cursor. cbn [cu_offset cu_bytes]. rewrite Z.eqb_refl.
    unfold mret, cursor_ret, lift. by rewrite Hf.
Qed.
End Table.

(** ** Chunks of an image *)

Section ImageChunks.
Context {X : Xxh3} {L : Xxh3Laws X}.
Context (id : bytes) (row_count scheme dims : Z) (regions : list RegionBytes)
  (copied : list SegmentCopiedRegion).
Hypothesis Hok : image_ok id row_count scheme dims regions copied.

Abbreviation image := (segment_image id row_count scheme dims regions copied).
Abbreviation reader := (image_reader id row_count scheme dims regions copied).

Lemma chunk_checksum_image kind i index chunk :
  i ∈ image_items regions copied → it_kind i = region_id kind → 0 ≤ index →
  chunk_total (image_items regions copied) ≤ u32_max →
  chunks CHECKSUM_CHUNK_BYTES (it_data i) !! Z.to_nat index = Some chunk →
  chunk_checksum reader kind index = Ok (xxh3_64 chunk).
Proof using Hok L.
  intros Hi Hk H0 Ht Hc. unfold chunk_checksum.
  rewrite (image_region _ _ _ _ _ _ Hok RegionChecksumTable (table_item regions copied) reader);
    [|done|done|by apply elem_of_app; right; apply list_elem_of_singleton|done].
  rewrite bind_Ok. cbn [table_item it_data]. rewrite table_image. apply run_segment_end.
  - apply reads_table; [|done|].
    + eapply Forall_impl; [apply (im_widths _ _ _ _ _ _ Hok)|]. by intros x [].
    + rewrite <- Hk. apply find_checksum_table; [|done..]. pose proof (im_kinds _ _ _ _ _ _ Hok) as Hn.
      unfold image_all in Hn. rewrite map_app in Hn. by apply NoDup_app in Hn as (Hn & _).
  - rewrite <- table_image. pose proof (image_len_bound _ _ _ _ _ _ Hok) as Hb.
    assert (encode_checksum_table regions copied = it_data (table_item regions copied)) as -> by done.
    destruct (image_slice _ _ _ _ _ _ Hok (length (image_items regions copied)) (table_item regions copied)) as (pre & post & E & _).
    { unfold image_all. rewrite lookup_app_r by done. by rewrite Nat.sub_diag. }
    rewrite E, !len_app in Hb. pose proof (len_nonneg pre). pose proof (len_nonneg post). lia.
Qed.

Lemma region_chunk_image kind i index :
  i ∈ image_items regions copied → it_kind i = region_id kind → 0 ≤ index →
  index * CHECKSUM_CHUNK_BYTES < len (it_data i) → chunk_total (image_items regions copied) ≤ u32_max →
  region_chunk reader kind index
  = Ok (take (Z.to_nat CHECKSUM_CHUNK_BYTES) (drop (Z.to_nat (index * CHECKSUM_CHUNK_BYTES)) (it_data i))).
Proof using Hok L.
  intros Hi Hk H0 Hl Ht. pose proof (chunks_lookup (it_data i) index H0 Hl) as Hc.
  pose proof (chunk_checksum_image kind i index _ Hi Hk H0 Ht Hc) as Hsum.
  set (chunk := take _ _) in *. apply list_elem_of_lookup in Hi as Hi'. destruct Hi' as (n & Hn).
  assert (image_all regions copied !! n = Some i) as Ha by (by apply lookup_app_l_Some).
  destruct (image_slice_range _ _ _ _ _ _ Hok n i Ha) as (_ & Hoff & Hbound).
  unfold region_chunk, reader_entry. rewrite <- Hk, (image_find_entry _ _ _ _ _ _ Hok n i) by done.
  cbn [ok_or]. rewrite bind_Ok, (image_region_slice _ _ _ _ _ _ Hok n i) by done. rewrite bind_Ok.
  unfold checked_mul, saturating_add. unfold CHECKSUM_CHUNK_BYTES, isize_max, usize_max, u64_max in *.
  decide_Z. cbn [ok_or]. rewrite bind_Ok.
  assert (slice_range (it_data i) (index * (64 * 1024))
            (Z.min (Z.min (2 ^ 64 - 1) (index * (64 * 1024) + 64 * 1024)) (len (it_data i))) = Some chunk) as ->.
  { unfold slice_range. decide_Z. cbn [andb]. f_equal. unfold chunk.
    destruct (Z.le_gt_cases (index * (64 * 1024) + 64 * 1024) (len (it_data i))) as [Hle|Hgt].
    - rewrite Z.min_l by lia. do 2 f_equal. lia.
    - rewrite Z.min_r by lia. rewrite !take_ge; [done|rewrite length_drop; unfold len in *; lia..]. }
  cbn [ok_or]. rewrite bind_Ok, bool_decide_eq_false_2.
  2:{ intros E. apply (f_equal (@length _)) in E. unfold chunk in E. rewrite length_take, length_drop in E.
      cbn in E. unfold len in Hl. lia. }
  rewrite Hsum, bind_Ok, Z.eqb_refl. done.
Qed.
End ImageChunks.

Section ReadsBack.
Context {X : Xxh3} {L : Xxh3Laws X}.

(** A segment image reads back: laying out any admissible regions succeeds, the
    bytes open under their id with the metadata they were written with, pass the
    validation of the file with and without a mapping, and every region (built or
    copied, by its kind, by its number or in 64 KiB chunks against the checksum
    table) is returned exactly as it was given. *)
Theorem segment_image_reads_back (id : bytes) (row_count scheme dims : Z) (regions : list RegionBytes)
    (copied : list SegmentCopiedRegion) (artifact : string) :
  image_ok id row_count scheme dims regions copied →
  ∃ image r, encode_regions id row_count scheme dims regions copied = Ok image
    ∧ segment_open artifact image id = Ok r
    ∧ sr_meta r = {| sm_id := id; sm_row_count := row_count; sm_scheme := scheme; sm_dims := dims;
                     sm_file_size := len image; sm_epoch_id := None; sm_clustering_key_range := Unstamped |}
    ∧ validate_all r = Ok tt ∧ validate_segment_bytes image = Ok (sr_meta r)
    ∧ (∀ g, g ∈ regions → region r (rb_kind g) = Ok (rb_bytes g)
         ∧ (chunk_total (image_items regions copied) ≤ u32_max →
            ∀ index, 0 ≤ index → index * CHECKSUM_CHUNK_BYTES < len (rb_bytes g) →
            region_chunk r (rb_kind g) index
            = Ok (take (Z.to_nat CHECKSUM_CHUNK_BYTES)
                    (drop (Z.to_nat (index * CHECKSUM_CHUNK_BYTES)) (rb_bytes g)))))
    ∧ (∀ g, g ∈ copied → region_by_id r (cr_kind g) = Ok (cr_bytes g)).
Proof using L.
  intros Hok. exists (segment_image id row_count scheme dims regions copied),
    (image_reader id row_count scheme dims regions copied).
  assert (∀ g, g ∈ regions → region_item g ∈ image_items regions copied) as Hr.
  { intros g Hg. apply elem_of_app. left. apply list_elem_of_In, in_map, list_elem_of_In, Hg. }
  assert (∀ g, g ∈ copied → copied_item g ∈ image_items regions copied) as Hc.
  { intros g Hg. apply elem_of_app. right. apply list_elem_of_In, in_map, list_elem_of_In, Hg. }
  split_and!.
  - by apply encode_regions_image.
  - by apply open_image.
  - cbn [image_reader sr_meta]. unfold image_meta. by rewrite len_segment_image.
  - by apply validate_all_image.
  - by apply validate_segment_image.
  - intros g Hg. split.
    + apply (image_region _ _ _ _ _ _ Hok (rb_kind g) (region_item g)); try done.
      apply elem_of_app. left. by apply Hr.
    + intros Ht index H0 Hl. by apply (region_chunk_image _ _ _ _ _ _ Hok (rb_kind g) (region_item g)); try apply Hr.
  - intros g Hg. apply (image_region_by_id _ _ _ _ _ _ Hok (copied_item g)); try done.
    apply elem_of_app. left. by apply Hc.
Qed.
End ReadsBack.

(** ** Witness *)

Module SampleImage.
Import ToyXxh3.

Definition id : bytes := replicate 16 Byte.x07.
(** An alive region of one row, and a region of a kind of a later format. *)
Definition alive : RegionBytes :=
  {| rb_kind := RegionAlive; rb_family := Alive; rb_bytes := u32_le 1 ++ u32_le 1 ++ [Byte.x01] |}.
Definition later : SegmentCopiedRegion :=
  {| cr_kind := 77; cr_version := 3; cr_bytes := [Byte.x61; Byte.x62] |}.

Lemma sample_ok : image_ok id 1 4 8 [alive] [later].
Proof.
  split; try by vm_compute.
  - apply (bool_decide_unpack _). by vm_compute.
  - repeat constructor; by vm_compute.
  - intros a off. repeat constructor; by vm_compute.
Qed.
End SampleImage.

Lemma segment_image_reads_back_witness :
  ∃ image r, encode_regions (X:=ToyXxh3.toy) SampleImage.id 1 4 8 [SampleImage.alive] [SampleImage.later] = Ok image
    ∧ segment_open (X:=ToyXxh3.toy) "s" image SampleImage.id = Ok r
    ∧ region (X:=ToyXxh3.toy) r RegionAlive = Ok (rb_bytes SampleImage.alive)
    ∧ region_chunk (X:=ToyXxh3.toy) r RegionAlive 0 = Ok (rb_bytes SampleImage.alive)
    ∧ region_by_id (X:=ToyXxh3.toy) r 77 = Ok [Byte.x61; Byte.x62].
Proof.
  destruct (segment_image_reads_back (X:=ToyXxh3.toy) (L:=ToyXxh3.toy_laws) SampleImage.id 1 4 8
    [SampleImage.alive] [SampleImage.later] "s" SampleImage.sample_ok)
    as (image & r & E1 & E2 & _ & _ & _ & Hr & Hc).
  exists image, r. destruct (Hr SampleImage.alive) as [Ha Hch]; [by apply list_elem_of_singleton|].
  split_and!; [done|done|done| |].
  - rewrite Hch; [by vm_compute|by vm_compute|done|by vm_compute].
  - apply (Hc SampleImage.later). by apply list_elem_of_singleton.
Defined.

Lemma open_segment_regions_safe_witness :
  ∃ image r, segment_open (X:=ToyXxh3.toy) "s" image SampleImage.id = Ok r
    ∧ len (sr_entries r) = 3 ∧ NoDup (map re_kind (sr_entries r)).
Proof.
  pose proof (open_image (L:=ToyXxh3.toy_laws) _ _ _ _ _ _ SampleImage.sample_ok "s") as E.
  pose proof (image_len_bound _ _ _ _ _ _ SampleImage.sample_ok) as Hb.
  eexists _, _. split; [exact E|]. split; [cbn [image_reader sr_entries]; unfold len, image_entries; by rewrite length_place|].
  by destruct (open_segment_regions_safe (X:=ToyXxh3.toy) "s" _ _ _ E Hb) as (_ & _ & Hn & _).
Defined.
