(* ===== verification/SegmentDocuments.v ===== *)
(** * Finding documents in a segment

    The identity-ordered permutation of rows answers the same lookups as a scan:
    the first row of an exact version, the rows of a document id, and the rows
    of a set of ids, whether found one by one or by one merge pass. *)

From S2P Require Import Prelude Format Cursor Schema Manifest ManifestIo Bitmap Dict Columns IngestPayload SegmentLayout SegmentLayoutSpec SegmentReader SegmentRows.

(** ** The order of byte strings *)

Lemma byte_value_inj x y : byte_value x = byte_value y → x = y.
Proof.
  intros E. unfold byte_value in E. apply N2Z.inj in E.
  pose proof (Byte.of_to_N x) as Hx. pose proof (Byte.of_to_N y) as Hy. rewrite E in Hx. congruence.
Qed.

Lemma bytes_compare_Eq a b : bytes_compare a b = Eq ↔ a = b.
Proof.
  revert b. induction a as [|x a IH]; intros [|y b]; cbn; try done.
  destruct (Z.compare_spec (byte_value x) (byte_value y)) as [E|E|E].
  - apply byte_value_inj in E as ->. rewrite IH. split; [by intros ->|by intros [= ->]].
  - split; [done|]. intros [= -> ->]. lia.
  - split; [done|]. intros [= -> ->]. lia.
Qed.

Lemma bytes_compare_antisym a b : bytes_compare b a = CompOpp (bytes_compare a b).
Proof.
  revert b. induction a as [|x a IH]; intros [|y b]; cbn; try done.
  rewrite (Z.compare_antisym (byte_value x)). destruct (byte_value x ?= byte_value y); cbn; [apply IH|done..].
Qed.

Lemma bytes_compare_trans a b c :
  bytes_compare a b = Lt → bytes_compare b c = Lt → bytes_compare a c = Lt.
Proof.
  revert b c. induction a as [|x a IH]; intros [|y b] [|z c]; cbn; try done.
  destruct (Z.compare_spec (byte_value x) (byte_value y)) as [E|E|E]; try done;
    destruct (Z.compare_spec (byte_value y) (byte_value z)) as [E'|E'|E']; try done; intros H1 H2.
  - rewrite (proj2 (Z.compare_eq_iff _ _)) by lia. by eapply IH.
  - by rewrite (proj2 (Z.compare_lt_iff _ _)) by lia.
  - by rewrite (proj2 (Z.compare_lt_iff _ _)) by lia.
  - by rewrite (proj2 (Z.compare_lt_iff _ _)) by lia.
Qed.

(** Prefixes of ordered strings are ordered. *)
Lemma bytes_compare_take n a b :
  bytes_compare a b ≠ Gt → bytes_compare (take n a) (take n b) ≠ Gt.
Proof.
  revert a b. induction n as [|n IH]; intros [|x a] [|y b]; cbn; try done.
  destruct (byte_value x ?= byte_value y); try done. apply IH.
Qed.

#[export] Instance bytes_order_trans : Transitive bytes_order.
Proof.
  intros a b c. unfold bytes_order, bytes_le. destruct (bytes_compare a b) eqn:E1; [| |done].
  - apply bytes_compare_Eq in E1 as ->. done.
  - destruct (bytes_compare b c) eqn:E2; [| |done]; intros _ _.
    + apply bytes_compare_Eq in E2 as <-. by rewrite E1.
    + by rewrite (bytes_compare_trans a b c).
Qed.

#[export] Instance bytes_order_total : Total bytes_order.
Proof.
  intros a b. unfold bytes_order, bytes_le. rewrite (bytes_compare_antisym a b).
  destruct (bytes_compare a b); cbn; [by left|by left|by right].
Qed.

Lemma bytes_lt_not_le a b : bytes_lt a b = negb (bytes_le b a).
Proof. unfold bytes_lt, bytes_le. rewrite (bytes_compare_antisym a b). by destruct (bytes_compare a b). Qed.

Lemma bytes_order_antisym a b : bytes_order a b → bytes_order b a → a = b.
Proof.
  unfold bytes_order, bytes_le. rewrite (bytes_compare_antisym a b).
  destruct (bytes_compare a b) eqn:E; try done. by apply bytes_compare_Eq in E.
Qed.

(** ** The order of rows *)

Section Order.
Context (data : bytes).

Lemma version_row_le_spec x y :
  version_row_le data x y ↔
  bytes_order (document_version_entry data x) (document_version_entry data y)
  ∧ (document_version_entry data x = document_version_entry data y → x ≤ y).
Proof.
  unfold version_row_le, bytes_order, bytes_le.
  destruct (bytes_compare _ _) eqn:E.
  - apply bytes_compare_Eq in E. naive_solver.
  - split; [|done]. intros _. split; [done|]. intros Eq. apply bytes_compare_Eq in Eq. congruence.
  - naive_solver.
Qed.

#[export] Instance version_row_le_trans : Transitive (version_row_le data).
Proof.
  intros x y z. rewrite !version_row_le_spec. intros [H1 H2] [H3 H4]. split; [by etransitivity|].
  intros E. rewrite E in H1. pose proof (bytes_order_antisym _ _ H3 H1) as E'.
  specialize (H4 E'). rewrite E' in H2. specialize (H2 E). lia.
Qed.

#[export] Instance version_row_le_total : Total (version_row_le data).
Proof.
  intros x y. rewrite !version_row_le_spec.
  destruct (decide (document_version_entry data x = document_version_entry data y)) as [E|E].
  - rewrite E. destruct (Z.le_ge_cases x y); [left|right]; (split; [|done]); by destruct (total bytes_order (document_version_entry data y) (document_version_entry data y)).
  - destruct (total bytes_order (document_version_entry data x) (document_version_entry data y)) as [H|H];
      [left|right]; (split; [done|]); [done|]. by intros E'.
Qed.

Lemma order_sorted n : StronglySorted (version_row_le data) (document_version_order n data).
Proof. apply (StronglySorted_merge_sort _). Qed.

Lemma order_perm n : document_version_order n data ≡ₚ row_ids n.
Proof. apply merge_sort_Permutation. Qed.
End Order.

(** ** Bisection *)

(** Between the partition points of [p] and of a weaker [q]. *)
Lemma partition_range {A} (R : relation A) (p q : A → bool) l :
  StronglySorted R l → (∀ x y, R x y → p y = true → p x = true) → (∀ x y, R x y → q y = true → q x = true) →
  (∀ x, p x = true → q x = true) →
  slice_range l (Z.of_nat (partition_point p l)) (Z.of_nat (partition_point q l))
  = Some (List.filter (λ x, q x && negb (p x)) l).
Proof.
  intros Hs Hp Hq Hpq. pose proof (partition_point_lookup R p l Hs Hp) as Hd.
  rewrite !(partition_point_sorted R) in * by done.
  assert (List.filter q l = List.filter p l ++ List.filter (λ x, q x && negb (p x)) l) as Eq.
  { assert (List.filter q l = List.filter q (List.filter p l) ++ List.filter q (List.filter (λ x, negb (p x)) l)) as ->
      by (rewrite <- List.filter_app; by rewrite <- (prefix_split R p l Hs Hp)).
    f_equal.
    - apply forallb_filter_id, forallb_forall. intros x [_ Hx]%filter_In. by apply Hpq.
    - clear. induction l as [|x l IH]; [done|]. cbn [List.filter]. destruct (p x); cbn [negb List.filter].
      + by rewrite andb_false_r.
      + rewrite andb_true_r. destruct (q x); by rewrite IH. }
  rewrite Eq, (prefix_split R q l Hs Hq) at 1. rewrite Eq, <- app_assoc.
  apply slice_range_app; unfold len; rewrite ?length_app; lia.
Qed.

(** ** The rows of a region *)

Lemma from_le_u128 b : len b = 16 → is_u128 (from_le b).
Proof. intros H. pose proof (from_le_bound b 16 H). unfold is_u128. lia. Qed.

Lemma u128_le_inj x y : is_u128 x → is_u128 y → u128_le x = u128_le y → x = y.
Proof. intros Hx Hy E. rewrite <- (from_u128_le x Hx), <- (from_u128_le y Hy). by rewrite E. Qed.

Lemma encode_version_inj v w :
  is_u128 (dv_doc_id v) → is_u64 (dv_revision v) → is_u128 (dv_doc_id w) → is_u64 (dv_revision w) →
  encode_document_version v = encode_document_version w → v = w.
Proof.
  intros Hv1 Hv2 Hw1 Hw2 E. unfold encode_document_version in E.
  apply app_inj_1 in E as [E1 E2]; [|pose proof (len_u128_le (dv_doc_id v)); pose proof (len_u128_le (dv_doc_id w)); unfold len in *; lia].
  destruct v as [d e], w as [d' e']. cbn in *. f_equal; [by apply u128_le_inj|].
  rewrite <- (from_u64_le e Hv2), <- (from_u64_le e' Hw2). by rewrite E2.
Qed.

Lemma position_from_spec {A} (pred : A → bool) (l : list A) : ∀ start,
  match position_from start pred l with
  | Some k => ∃ i x, k = start + Z.of_nat i ∧ l !! i = Some x ∧ pred x = true
                     ∧ ∀ j y, (j < i)%nat → l !! j = Some y → pred y = false
  | None => Forall (λ x, pred x = false) l
  end.
Proof.
  induction l as [|x l IH]; intros start; cbn [position_from]; [constructor|].
  destruct (pred x) eqn:E.
  { exists 0%nat, x. split_and!; [lia|done|done|]. lia. }
  specialize (IH (start + 1)). destruct (position_from (start + 1) pred l) as [k|]; [|by constructor].
  destruct IH as (i & y & -> & Hi & Hy & Hb). exists (S i), y. split_and!; [lia|done|done|].
  intros [|j] z Hj Hz; cbn in Hz; [congruence|]. apply (Hb j); [lia|done].
Qed.

Lemma chunks_exact_lookup (m : nat) : ∀ fuel (d : bytes) (k : nat),
  (0 < m)%nat → (length d ≤ fuel)%nat → (length d = (length d / m) * m)%nat →
  chunks_exact_fuel fuel m d !! k = if (k <? length d / m)%nat then Some (take m (drop (k * m) d)) else None.
Proof.
  induction fuel as [|fuel IH]; intros d k Hm Hf Hd; cbn [chunks_exact_fuel].
  { assert (length d = 0)%nat as E by lia. by rewrite E, Nat.Div0.div_0_l. }
  destruct (Nat.leb_spec m (length d)) as [Hle|Hgt].
  - assert (length (drop m d) / m = length d / m - 1)%nat as Hq.
    { rewrite length_drop. replace (length d) with (length d - m + 1 * m)%nat at 2 by lia. rewrite Nat.div_add by lia. lia. }
    assert (1 ≤ length d / m)%nat as H1 by (apply Nat.div_le_lower_bound; lia).
    destruct k as [|k].
    { by rewrite (proj2 (Nat.ltb_lt 0 _)) by lia. }
    change ((take m d :: chunks_exact_fuel fuel m (drop m d)) !! S k) with (chunks_exact_fuel fuel m (drop m d) !! k).
    rewrite IH; [|done|rewrite length_drop; lia|rewrite Hq, length_drop; nia].
    rewrite Hq, drop_drop. destruct (Nat.ltb_spec k (length d / m - 1)), (Nat.ltb_spec (S k) (length d / m)); (done || lia).
  - rewrite Nat.div_small in Hd |- * by done. by destruct k.
Qed.

Lemma seqZ_sorted (k : nat) : ∀ m, StronglySorted Z.le (seqZ m (Z.of_nat k)).
Proof.
  induction k as [|k IH]; intros m; [constructor|]. rewrite seqZ_cons by lia.
  replace (Z.pred (Z.of_nat (S k))) with (Z.of_nat k) by lia. constructor; [apply IH|].
  apply List.Forall_forall. intros x Hx. apply list_elem_of_In, elem_of_seqZ in Hx. lia.
Qed.

Lemma row_ids_sorted n : StronglySorted Z.le (row_ids n).
Proof.
  unfold row_ids. destruct (Z.le_gt_cases 0 n) as [Hn|Hn].
  - replace n with (Z.of_nat (Z.to_nat n)) by lia. apply seqZ_sorted.
  - rewrite seqZ_nil by lia. constructor.
Qed.

Lemma filter_sorted {A} (R : relation A) f l : StronglySorted R l → StronglySorted R (List.filter f l).
Proof.
  induction 1 as [|x l Hs IH Hx]; cbn; [constructor|]. destruct (f x); [|done]. constructor; [done|].
  apply List.Forall_forall. intros y [Hy _]%filter_In. rewrite List.Forall_forall in Hx. by apply Hx.
Qed.

(** Rows by the bytes of their document ids. *)
Definition id_le (data : bytes) (x y : Z) : Prop :=
  bytes_order (document_id_entry data x) (document_id_entry data y).

(** ** Eligible ids *)

Lemma dedup_cons x y (l : list Z) : dedup (x :: y :: l) = if x =? y then dedup (y :: l) else x :: dedup (y :: l).
Proof. done. Qed.

Lemma dedup_elem (l : list Z) x : x ∈ dedup l ↔ x ∈ l.
Proof.
  induction l as [|y [|z l] IH]; [done|done|]. rewrite dedup_cons. destruct (Z.eqb_spec y z) as [->|Hne].
  - rewrite IH. rewrite !elem_of_cons. tauto.
  - rewrite !elem_of_cons in *. rewrite IH. tauto.
Qed.

Lemma dedup_sorted (l : list Z) : StronglySorted Z.le l → StronglySorted Z.lt (dedup l).
Proof.
  induction 1 as [|y l Hs IH Hy]; [constructor|]. destruct l as [|z l]; [by repeat constructor|].
  rewrite dedup_cons. destruct (Z.eqb_spec y z) as [->|Hne]; [done|]. constructor; [done|].
  apply Forall_forall. intros x Hx. rewrite dedup_elem in Hx. rewrite Forall_forall in Hy.
  assert (z ≤ x) as Hz; [|pose proof (Hy z (list_elem_of_here z l)); lia].
  apply elem_of_cons in Hx as [->|Hx]; [lia|]. inversion Hs as [|? ? _ Hall]; subst.
  rewrite Forall_forall in Hall. by apply Hall.
Qed.

Lemma binary_contains_spec l x : StronglySorted Z.lt l → binary_contains l x = bool_decide (x ∈ l).
Proof.
  intros Hs. unfold binary_contains.
  pose proof (partition_point_lookup Z.lt (λ y, y <? x) l Hs ltac:(intros a b; rewrite !Z.ltb_lt; lia)) as Hd.
  set (k := partition_point _ l) in *. set (rest := List.filter _ l) in Hd.
  assert (l !! k = rest !! 0%nat) as -> by (rewrite <- Hd, lookup_drop; f_equal; lia).
  assert (∀ y, y ∈ rest ↔ y ∈ l ∧ x ≤ y) as Hrest.
  { intros y. unfold rest. rewrite list_elem_of_In, filter_In, <- list_elem_of_In.
    by rewrite negb_true_iff, Z.ltb_ge. }
  assert (StronglySorted Z.lt rest) as Hsr by (apply filter_sorted, Hs). clear Hd. clearbody rest.
  destruct rest as [|y rest]; cbn [lookup list_lookup].
  { symmetry. apply bool_decide_eq_false_2. intros Hx. apply (not_elem_of_nil x), Hrest. split; [done|lia]. }
  destruct (proj1 (Hrest y)) as [Hy Hxy]; [by left|]. destruct (Z.eqb_spec y x) as [->|Hne].
  { by rewrite bool_decide_eq_true_2. }
  symmetry. apply bool_decide_eq_false_2. intros Hx. assert (x ∈ y :: rest) as Hin by (apply Hrest; split; [done|lia]).
  apply elem_of_cons in Hin as [->|Hin]; [done|]. inversion Hsr as [|? ? _ Hall]; subst.
  rewrite Forall_forall in Hall. specialize (Hall x Hin). lia.
Qed.

(** What [query_rows_for_eligible_ids] relies on. *)
Definition eligible_ok (e : EligibleIds) : Prop :=
  StronglySorted Z.lt (ei_numeric e)
  ∧ (1000 ≤ len (ei_numeric e) → ei_byte_order e = merge_sort bytes_order (map u128_le (ei_numeric e))).

Lemma with_eligible_ok existing ids :
  match existing with Some e => eligible_ok e | None => True end →
  eligible_ok (with_eligible existing ids)
  ∧ ∀ x, x ∈ ei_numeric (with_eligible existing ids)
         ↔ x ∈ ids ∧ match existing with Some e => x ∈ ei_numeric e | None => True end.
Proof.
  intros He. assert (StronglySorted Z.lt (dedup (merge_sort Z.le ids))) as Hs
    by apply dedup_sorted, (StronglySorted_merge_sort Z.le).
  assert (∀ x, x ∈ dedup (merge_sort Z.le ids) ↔ x ∈ ids) as Hm
    by (intros x; by rewrite dedup_elem, merge_sort_Permutation).
  unfold with_eligible, eligible_ok, ELIGIBLE_BYTE_ORDER_MIN_IDS. cbn [ei_numeric ei_byte_order].
  split; [split|].
  - destruct existing; [by apply filter_sorted|done].
  - intros Hl. by rewrite (proj2 (Z.leb_le _ _) Hl).
  - intros x. destruct existing as [e|]; [|rewrite Hm; tauto]. destruct He as [He _].
    rewrite list_elem_of_In, filter_In, <- list_elem_of_In, Hm, binary_contains_spec, bool_decide_eq_true by done. tauto.
Qed.

(** The ids of a filter narrowed by each restriction in turn. *)
Definition eligible_of (restrictions : list (list Z)) : option EligibleIds :=
  foldl (λ e ids, Some (with_eligible e ids)) None restrictions.

Lemma eligible_of_snoc rs ids : eligible_of (rs ++ [ids]) = Some (with_eligible (eligible_of rs) ids).
Proof. unfold eligible_of. by rewrite foldl_app. Qed.

Lemma eligible_of_spec rs :
  match eligible_of rs with
  | Some e => eligible_ok e ∧ ∀ x, x ∈ ei_numeric e ↔ Forall (λ ids, x ∈ ids) rs
  | None => rs = []
  end.
Proof.
  induction rs as [|ids rs IH] using rev_ind; [done|]. rewrite eligible_of_snoc.
  destruct (with_eligible_ok (eligible_of rs) ids) as [Hok Hx]; [destruct (eligible_of rs); by try apply IH|].
  split; [done|]. intros x. rewrite Hx, Forall_app, Forall_singleton.
  destruct (eligible_of rs) as [e|]; [|subst rs; rewrite Forall_nil; tauto]. destruct IH as [_ IH]. rewrite IH. tauto.
Qed.

(** *** Rows into a bitmap *)

Section Bitmaps.
Context {B : Type} {R : Roaring B} {L : RoaringLaws B}.

Lemma insert_all_set rows (bitmap : DocBitmap B) :
  db_set (insert_all rows bitmap) = list_to_set rows ∪ db_set bitmap.
Proof.
  revert bitmap. induction rows as [|x rows IH]; intros bitmap; [set_solver|].
  unfold insert_all in *. cbn [foldl]. rewrite IH, db_set_insert. set_solver.
Qed.

(** Skipping drops only needles below the id. *)
Lemma skip_below_spec id needles :
  StronglySorted bytes_order needles →
  StronglySorted bytes_order (skip_below id needles)
  ∧ (∀ b, bytes_order id b → b ∈ needles ↔ b ∈ skip_below id needles)
  ∧ match skip_below id needles with b :: _ => bytes_order id b | [] => True end.
Proof.
  induction 1 as [|b needles Hs IH Hb]; [by repeat constructor|]. cbn [skip_below].
  destruct (bytes_lt b id) eqn:E.
  - destruct IH as (IH1 & IH2 & IH3). split_and!; [done| |done]. intros c Hc. rewrite elem_of_cons, IH2 by done.
    split; [intros [->|]; [|done]|by right]. rewrite bytes_lt_not_le, negb_true_iff in E.
    unfold bytes_order in Hc. by rewrite E in Hc.
  - split_and!; [by constructor|done|]. rewrite bytes_lt_not_le, negb_false_iff in E. done.
Qed.

Lemma merge_ids_set data index : ∀ needles (rows : DocBitmap B),
  StronglySorted (id_le data) index → StronglySorted bytes_order needles →
  ∀ x, x ∈ db_set (merge_ids data index needles rows)
       ↔ x ∈ db_set rows ∨ x ∈ index ∧ document_id_entry data x ∈ needles.
Proof using L.
  induction index as [|row index IH]; intros needles rows Hi Hs x; cbn [merge_ids]; [set_solver|].
  inversion Hi as [|? ? Hi' Hrow]; subst. pose proof (proj1 (Forall_forall _ _) Hrow) as Hr. set (id := document_id_entry data row).
  destruct (skip_below_spec id needles Hs) as (Hs' & Hk & Hh).
  assert (∀ y, y ∈ row :: index → bytes_order id (document_id_entry data y)) as Hge.
  { intros y [->|Hy]%elem_of_cons; [by destruct (total bytes_order id id)|by apply (Hr y)]. }
  destruct (skip_below id needles) as [|b rest] eqn:E.
  - split; [by left|]. intros [|[Hx Hn]]; [done|]. apply Hk in Hn; [|by apply Hge]. by apply not_elem_of_nil in Hn.
  - assert (∀ y, y ∈ row :: index → document_id_entry data y ∈ needles ↔ document_id_entry data y ∈ b :: rest) as Hky
      by (intros y Hy; apply Hk, Hge, Hy).
    assert (id ∈ needles ↔ b = id) as Hid.
    { pose proof (Hky row ltac:(by left)) as Hk0. fold id in Hk0. rewrite Hk0, elem_of_cons. split; [|by left]. intros [->|Hin]; [done|].
      apply bytes_order_antisym; [|done]. inversion Hs' as [|? ? _ Hall]; subst. by apply (proj1 (Forall_forall _ _) Hall). }
    rewrite IH by done.
    assert (x ∈ db_set (if bool_decide (b = id) then (bitmap_insert row rows).1 else rows)
            ↔ x ∈ db_set rows ∨ x = row ∧ b = id) as ->.
    { case_bool_decide; rewrite ?db_set_insert, ?elem_of_union, ?elem_of_singleton; tauto. }
    assert (x ∈ index → document_id_entry data x ∈ b :: rest ↔ document_id_entry data x ∈ needles) as Hx
      by (intros Hx; symmetry; apply Hky; by right).
    assert (x = row → document_id_entry data x ∈ needles ↔ b = id) as Hr' by (intros ->; exact Hid).
    rewrite (elem_of_cons index). tauto.
Qed.
End Bitmaps.

Section Region.
Context (data : bytes) (n : Z).
Hypothesis Hn : 0 ≤ n ≤ u32_max.
Hypothesis Hlen : len data = n * 24.

(** The version a row holds. *)
Definition row_version (row : Z) : DocumentVersion :=
  {| dv_doc_id := from_le (take 16 (document_version_entry data row));
     dv_revision := from_le (drop 16 (document_version_entry data row)) |}.

Lemma entry_slice row :
  0 ≤ row < n → document_version_entry data row = take 24 (drop (Z.to_nat (row * 24)) data)
                ∧ len (document_version_entry data row) = 24.
Proof using Hn Hlen.
  intros Hr. unfold document_version_entry, checked_mul, checked_add, DOCUMENT_VERSION_BYTES.
  unfold usize_max, u64_max, u32_max in *. decide_Z. cbn [mbind option_bind]. decide_Z. cbn [mbind option_bind].
  destruct (slice_range data (row * 24) (row * 24 + 24)) as [k|] eqn:E.
  - apply slice_range_Some in E as (_ & _ & -> & Hl). cbn [default]. split; [|unfold id; lia].
    unfold id. do 2 f_equal. lia.
  - unfold slice_range in E. exfalso. revert E. by decide_Z.
Qed.

Lemma id_entry row : 0 ≤ row < n → document_id_entry data row = u128_le (dv_doc_id (row_version row)).
Proof using Hn Hlen.
  intros Hr. destruct (entry_slice row Hr) as [_ Hl]. unfold document_id_entry, row_version. cbn [dv_doc_id].
  unfold slice_to. rewrite Hl. cbn [Z.leb Z.compare Pos.compare Pos.compare_cont andb default]. unfold id.
  rewrite u128_le_from; [done|]. unfold len in *. rewrite length_take. lia.
Qed.

Lemma version_entry row : 0 ≤ row < n → document_version_entry data row = encode_document_version (row_version row).
Proof using Hn Hlen.
  intros Hr. destruct (entry_slice row Hr) as [_ Hl]. unfold encode_document_version, row_version. cbn [dv_doc_id dv_revision].
  rewrite u128_le_from, u64_le_from; [by rewrite take_drop|unfold len in *; rewrite ?length_take, ?length_drop; lia..].
Qed.

Lemma row_version_range row : 0 ≤ row < n → is_u128 (dv_doc_id (row_version row)) ∧ is_u64 (dv_revision (row_version row)).
Proof using Hn Hlen.
  intros Hr. destruct (entry_slice row Hr) as [_ Hl]. unfold row_version. cbn [dv_doc_id dv_revision]. split.
  - apply from_le_u128. unfold len in *. rewrite length_take. lia.
  - assert (len (drop 16 (document_version_entry data row)) = 8) as Hd by (unfold len in *; rewrite length_drop; lia).
    pose proof (from_le_bound _ 8 Hd). unfold is_u64, u64_max. lia.
Qed.

Lemma decode_version_row row : 0 ≤ row < n → decode_version data row = Ok (row_version row).
Proof using Hn Hlen.
  intros Hr. destruct (entry_slice row Hr) as [He Hl]. unfold decode_version, checked_mul, checked_add.
  unfold usize_max, u64_max, u32_max in *. decide_Z. cbn [ok_or]. rewrite bind_Ok. decide_Z. cbn [ok_or]. rewrite bind_Ok.
  decide_Z. cbn [ok_or]. rewrite bind_Ok. unfold slice_range. decide_Z. cbn [andb fmap option_fmap option_map ok_or].
  rewrite !bind_Ok. unfold row_version. rewrite He. do 3 f_equal.
  - rewrite take_take. f_equal. lia.
  - rewrite skipn_firstn_comm, drop_drop. f_equal; [lia|]. f_equal. lia.
Qed.

Lemma order_elem row : row ∈ document_version_order n data ↔ 0 ≤ row < n.
Proof using Type. by rewrite (order_perm data n), row_ids_elem. Qed.

(** *** An exact version *)

Lemma chunks_of_region (k : nat) :
  chunks_exact DOCUMENT_VERSION_BYTES data !! k
  = if decide (Z.of_nat k < n) then Some (document_version_entry data (Z.of_nat k)) else None.
Proof using Hn Hlen.
  unfold chunks_exact, DOCUMENT_VERSION_BYTES. change (Z.to_nat 24) with 24%nat.
  assert (length data / 24 = Z.to_nat n)%nat as Hq.
  { unfold len in Hlen. replace (length data) with (Z.to_nat n * 24)%nat by lia. by rewrite Nat.div_mul. }
  rewrite chunks_exact_lookup by (rewrite ?Hq; unfold len in Hlen; lia). rewrite Hq.
  case_decide as Hk; [rewrite (proj2 (Nat.ltb_lt _ _)) by lia|by rewrite (proj2 (Nat.ltb_ge _ _)) by lia].
  destruct (entry_slice (Z.of_nat k)) as [-> _]; [lia|]. do 3 f_equal. lia.
Qed.

(** The first row of a version, by a scan. *)
Definition first_row (v : DocumentVersion) : option Z :=
  position_from 0 (λ entry, bool_decide (entry = encode_document_version v))
    (chunks_exact DOCUMENT_VERSION_BYTES data).

Lemma first_row_spec v :
  match first_row v with
  | Some row => 0 ≤ row < n ∧ document_version_entry data row = encode_document_version v
                ∧ ∀ r, 0 ≤ r < row → document_version_entry data r ≠ encode_document_version v
  | None => ∀ r, 0 ≤ r < n → document_version_entry data r ≠ encode_document_version v
  end.
Proof using Hn Hlen.
  unfold first_row. pose proof (position_from_spec (λ entry, bool_decide (entry = encode_document_version v))
    (chunks_exact DOCUMENT_VERSION_BYTES data) 0) as Hp.
  assert (∀ r, 0 ≤ r < n → chunks_exact DOCUMENT_VERSION_BYTES data !! Z.to_nat r
                           = Some (document_version_entry data r)) as Hr.
  { intros r Hr. rewrite chunks_of_region, Z2Nat.id by lia. by rewrite decide_True by lia. }
  destruct (position_from _ _ _) as [row|].
  - destruct Hp as (i & x & -> & Hi & Hx & Hb). cbn [Z.add]. rewrite chunks_of_region in Hi.
    case_decide as Hin; [|done]. injection Hi as <-. apply bool_decide_eq_true in Hx.
    split_and!; [lia|lia|done|]. intros r Hlt E. specialize (Hb (Z.to_nat r) _ ltac:(lia) (Hr r ltac:(lia))).
    by apply bool_decide_eq_false in Hb.
  - intros r Hin E. rewrite Forall_lookup in Hp. specialize (Hp _ _ (Hr r Hin)). by apply bool_decide_eq_false in Hp.
Qed.

(** The order is downward closed below a version and below an id. *)
Lemma lt_needle_closed needle x y :
  version_row_le data x y → bytes_lt (document_version_entry data y) needle = true →
  bytes_lt (document_version_entry data x) needle = true.
Proof using Type.
  intros [Ho _]%version_row_le_spec. rewrite !bytes_lt_not_le, !negb_true_iff. intros H.
  apply not_true_is_false. intros H'. rewrite <- not_true_iff_false in H. apply H.
  by apply (bytes_order_trans _ (document_version_entry data x)).
Qed.

Lemma id_order x y :
  0 ≤ x < n → 0 ≤ y < n → version_row_le data x y → bytes_order (document_id_entry data x) (document_id_entry data y).
Proof using Hn Hlen.
  intros Hx Hy [Ho _]%version_row_le_spec. destruct (entry_slice x Hx) as [_ Lx], (entry_slice y Hy) as [_ Ly].
  unfold document_id_entry, slice_to. rewrite Lx, Ly. cbn [Z.leb Z.compare Pos.compare Pos.compare_cont andb default].
  unfold bytes_order, bytes_le in *. unfold id. change (Z.to_nat 16) with 16%nat.
  pose proof (bytes_compare_take 16 (document_version_entry data x) (document_version_entry data y)) as Ht.
  destruct (bytes_compare (take 16 _) (take 16 _)); [done|done|]. exfalso.
  destruct (bytes_compare (document_version_entry data x) _); [| |done]; by apply Ht.
Qed.

(** Bisecting the permutation finds the row of the scan. *)
Lemma index_version_lookup v :
  let index := document_version_order n data in
  let needle := encode_document_version v in
  (row ← index !! partition_point (λ row, bytes_lt (document_version_entry data row) needle) index;
   if bool_decide (document_version_entry data row = needle) then Some row else None) = first_row v.
Proof using Hn Hlen.
  cbv zeta. set (index := document_version_order n data). set (needle := encode_document_version v).
  pose proof (order_sorted data n) as Hs. fold index in Hs.
  pose proof (partition_point_lookup _ _ index Hs (lt_needle_closed needle)) as Hd.
  set (k := partition_point _ index) in *. set (rest := List.filter _ index) in Hd.
  assert (∀ row, row ∈ rest ↔ 0 ≤ row < n ∧ bytes_order needle (document_version_entry data row)) as Hrest.
  { intros row. unfold rest. rewrite list_elem_of_In, filter_In, <- list_elem_of_In. unfold index. rewrite order_elem.
    by rewrite bytes_lt_not_le, negb_involutive. }
  assert (StronglySorted (version_row_le data) rest) as Hsr.
  { rewrite <- Hd. clear -Hs. revert Hs. generalize index k. intros l j Hs. revert j.
    induction Hs as [|x l Hs IH Hx]; intros [|j]; cbn; try constructor; (done || apply IH). }
  assert (index !! k = head rest) as ->.
  { rewrite <- Hd. clear. generalize index k. intros l j. revert j. induction l; intros [|j]; cbn; auto. }
  pose proof (first_row_spec v) as Hf. fold needle in Hf. destruct (first_row v) as [row|].
  - destruct Hf as (Hr & He & Hmin). assert (row ∈ rest) as Hin.
    { apply Hrest. split; [done|]. rewrite He. by destruct (total bytes_order needle needle). }
    destruct rest as [|h t]; [by apply not_elem_of_nil in Hin|]. cbn [head mbind option_bind].
    destruct (proj1 (Hrest h)) as [Hh Hhn]; [by left|].
    assert (h = row) as ->; [|by rewrite bool_decide_eq_true_2].
    apply elem_of_cons in Hin as [|Hin]; [done|]. inversion Hsr as [|? ? _ Hall]; subst.
    rewrite List.Forall_forall in Hall. apply list_elem_of_In in Hin. specialize (Hall row Hin).
    apply version_row_le_spec in Hall as [Ho Htie]. rewrite He in Ho, Htie.
    pose proof (bytes_order_antisym _ _ Ho Hhn) as E. specialize (Htie E).
    destruct (Z.eq_dec h row); [done|]. exfalso. apply (Hmin h); [lia|done].
  - destruct (head rest) as [h|] eqn:Eh; [|done]. cbn [mbind option_bind].
    destruct rest as [|h' t]; [done|]. injection Eh as ->. destruct (proj1 (Hrest h)) as [Hh _]; [by left|].
    rewrite bool_decide_eq_false_2; [done|]. by apply Hf.
Qed.

(** *** The rows of an id *)

Definition rows_of_id (doc_id : Z) : list Z :=
  List.filter (λ row, dv_doc_id (row_version row) =? doc_id) (row_ids n).

(** The permutation restricted to document ids. *)
Lemma index_id_sorted : StronglySorted (id_le data) (document_version_order n data).
Proof using Hn Hlen.
  pose proof (order_sorted data n) as Hs.
  assert (∀ x, In x (document_version_order n data) → 0 ≤ x < n) as Hin
    by (intros x Hx; by apply order_elem, list_elem_of_In).
  revert Hin. induction Hs as [|x l Hs IH Hx]; intros Hin; constructor.
  - apply IH. intros y Hy. apply Hin. by right.
  - apply List.Forall_forall. intros y Hy. rewrite List.Forall_forall in Hx.
    apply id_order; [apply Hin; by left|apply Hin; by right|by apply Hx].
Qed.

Lemma index_id_lookup doc_id :
  is_u128 doc_id →
  let index := document_version_order n data in
  let needle := u128_le doc_id in
  (matching ← ok_or (slice_range index
       (Z.of_nat (partition_point (λ row, bytes_lt (document_id_entry data row) needle) index))
       (Z.of_nat (partition_point (λ row, bytes_le (document_id_entry data row) needle) index))) SegmentGeometry;
   Ok (merge_sort Z.le matching)) = Ok (rows_of_id doc_id).
Proof using Hn Hlen.
  intros Hid. cbv zeta. set (index := document_version_order n data). set (needle := u128_le doc_id).
  pose proof index_id_sorted as HsR. fold index in HsR.
  rewrite (partition_range (id_le data) _ _ index HsR).
  - cbn [ok_or]. rewrite bind_Ok. f_equal. apply (StronglySorted_unique Z.le).
    + apply (StronglySorted_merge_sort Z.le).
    + apply filter_sorted, row_ids_sorted.
    + rewrite merge_sort_Permutation. unfold rows_of_id.
      unfold index. rewrite (filter_perm _ _ _ (order_perm data n)). erewrite (filter_ext_in (λ x, _ && _)); [reflexivity|].
      intros row Hrow. apply list_elem_of_In, row_ids_elem in Hrow. rewrite bytes_lt_not_le, negb_involutive.
      rewrite (id_entry row Hrow). destruct (row_version_range row Hrow) as [Hv _].
      destruct (Z.eqb_spec (dv_doc_id (row_version row)) doc_id) as [->|Hne].
      { unfold needle. destruct (total bytes_order (u128_le doc_id) (u128_le doc_id)) as [E|E]; by rewrite E. }
      apply not_true_is_false. intros [H1 H2]%andb_true_iff. apply Hne.
      apply u128_le_inj; [done|done|]. by apply bytes_order_antisym.
  - intros x y Hxy. rewrite !bytes_lt_not_le, !negb_true_iff, <- !not_true_iff_false. intros H H'. apply H.
    by apply (bytes_order_trans _ (document_id_entry data x)).
  - intros x y Hxy H. by apply (bytes_order_trans _ (document_id_entry data y)).
  - intros x. unfold bytes_lt, bytes_le. by destruct (bytes_compare _ _).
Qed.

(** The rows of a set of ids, by one merge pass. *)
Lemma merge_ids_rows {B} {R : Roaring B} {L : RoaringLaws B} ids x :
  Forall is_u128 ids →
  x ∈ db_set (merge_ids data (document_version_order n data) (merge_sort bytes_order (map u128_le ids)) bitmap_new)
  ↔ 0 ≤ x < n ∧ dv_doc_id (row_version x) ∈ ids.
Proof using Hn Hlen.
  intros Hids. rewrite merge_ids_set; [|apply index_id_sorted|apply (StronglySorted_merge_sort bytes_order)].
  rewrite db_set_new, order_elem, merge_sort_Permutation. change (map u128_le ids) with (u128_le <$> ids).
  rewrite list_elem_of_fmap, elem_of_empty. split.
  - intros [[]|[Hx (id & E & Hid)]]. split; [done|]. rewrite id_entry in E by done.
    apply u128_le_inj in E as ->; [done|apply row_version_range, Hx|]. rewrite Forall_forall in Hids. by apply Hids.
  - intros [Hx Hid]. right. split; [done|]. eexists. split; [by apply id_entry|done].
Qed.

Lemma rows_of_id_elem id x : x ∈ rows_of_id id ↔ 0 ≤ x < n ∧ dv_doc_id (row_version x) = id.
Proof using Hn.
  unfold rows_of_id. rewrite list_elem_of_In, filter_In, <- list_elem_of_In, row_ids_elem, Z.eqb_eq. done.
Qed.
End Region.

(** ** Queries of a reader *)

Section Queries.
Context {X : Xxh3}.

(** A reader whose document-versions region is [data]: present, with its
    checksum and one entry per row; what the two caches hold is what they would
    be filled with. *)
Record documents_ready (data : bytes) (r : SegmentReader) : Prop := {
  dr_entry : ∃ entry, find_entry r (region_id RegionDocumentVersions) = Some entry
                      ∧ region_slice r entry = Ok data ∧ re_checksum entry = xxh3_64 data;
  dr_rows : 0 ≤ sm_row_count (sr_meta r) ≤ u32_max;
  dr_len : len data = sm_row_count (sr_meta r) * 24;
  dr_validation : from_option (λ v, v = Ok tt) True (sr_document_versions_validation r);
  dr_index : from_option (λ index, index = document_version_order (sm_row_count (sr_meta r)) data) True
               (sr_document_version_index_cache r);
}.

(** A query on a ready reader reads the region, and leaves a ready reader. *)
Lemma with_documents_ready {A} absent (f : SegmentReader → bytes → SegmentReader * result SegmentError A) data r :
  documents_ready data r →
  ∃ r', documents_ready data r' ∧ sr_meta r' = sr_meta r ∧ with_documents absent f r = f r' data.
Proof.
  intros [(entry & Hf & Hs & Hc) Hn Hl Hv Hi]. exists (set_validation (Ok tt) r).
  assert (validate_document_versions r entry = Ok tt) as Hok.
  { unfold validate_document_versions. rewrite Hs. cbn [map_err]. rewrite bind_Ok, Hc, Z.eqb_refl. cbn [negb].
    unfold checked_mul. rewrite (proj2 (Z.leb_le _ _)) by (unfold u32_max, usize_max, u64_max in *; lia). cbn [ok_or].
    by rewrite bind_Ok, Hl, Z.eqb_refl. }
  split_and!; [|done|].
  - split; [by exists entry|done|done|done|done].
  - unfold with_documents, document_versions_region. rewrite Hf.
    assert (default (validate_document_versions r entry) (sr_document_versions_validation r) = Ok tt) as ->
      by (destruct (sr_document_versions_validation r); cbn in *; congruence).
    cbn [map_err]. rewrite bind_Ok. change (region_slice (set_validation (Ok tt) r) entry) with (region_slice r entry).
    by rewrite Hs, bind_Ok.
Qed.

Lemma query_index_ready data r :
  documents_ready data r →
  ∃ r', documents_ready data r' ∧ sr_meta r' = sr_meta r
        ∧ query_document_version_index r data = (r', document_version_order (sm_row_count (sr_meta r)) data).
Proof.
  intros Hr. pose proof Hr as [He Hn Hl Hv Hi]. unfold query_document_version_index.
  destruct (sr_document_version_index_cache r) as [index|] eqn:Ei.
  - exists r. split_and!; [done|done|]. by cbn in Hi; subst index.
  - eexists. split_and!; [| |reflexivity]; [|done]. by split.
Qed.

(** A query that answers [a] on a ready reader and leaves it ready. *)
Definition answers {A} (data : bytes) (r : SegmentReader)
    (query : SegmentReader → SegmentReader * result SegmentError A) (a : A) : Prop :=
  (query r).2 = Ok a ∧ documents_ready data (query r).1 ∧ sr_meta (query r).1 = sr_meta r.

Lemma scan_answers data r v :
  documents_ready data r → answers data r (row_for_document_version v) (first_row data v).
Proof.
  intros Hr. unfold answers, row_for_document_version.
  destruct (with_documents_ready None (λ r data, (r, Ok (position_from 0
     (λ entry, bool_decide (entry = encode_document_version v)) (chunks_exact DOCUMENT_VERSION_BYTES data)))) data r Hr)
    as (r' & Hr' & Hm & E). rewrite E. done.
Qed.

Lemma version_answers data r row :
  documents_ready data r → 0 ≤ row < sm_row_count (sr_meta r) →
  answers data r (document_version row) (Some (row_version data row)).
Proof.
  intros Hr Hrow. unfold answers, document_version.
  destruct (with_documents_ready None (λ r data, (r, Some <$> decode_version data row)) data r Hr)
    as (r' & Hr' & Hm & E). rewrite E. cbn [fst snd]. split_and!; [|done|done].
  destruct Hr as [_ Hn Hl _ _]. by rewrite (decode_version_row data _ Hn Hl row Hrow).
Qed.

Lemma lookup_answers data r v :
  documents_ready data r → answers data r (query_row_for_document_version v) (first_row data v).
Proof.
  intros Hr. unfold answers, query_row_for_document_version.
  match goal with |- context [with_documents None ?f r] =>
    destruct (with_documents_ready None f data r Hr) as (r' & Hr' & Hm & E) end.
  rewrite E. destruct (query_index_ready data r' Hr') as (r'' & Hr'' & Hm' & E'). rewrite E'. cbn [fst snd].
  destruct Hr' as [_ Hn Hl _ _]. pose proof (index_version_lookup data _ Hn Hl v) as Hx. cbv zeta in Hx.
  rewrite Hx. split_and!; [done|done|congruence].
Qed.

Lemma id_answers data r id :
  documents_ready data r → is_u128 id →
  answers data r (query_rows_with_doc_id id) (rows_of_id data (sm_row_count (sr_meta r)) id).
Proof.
  intros Hr Hid. unfold answers, query_rows_with_doc_id.
  match goal with |- context [with_documents [] ?f r] =>
    destruct (with_documents_ready [] f data r Hr) as (r' & Hr' & Hm & E) end.
  rewrite E. destruct (query_index_ready data r' Hr') as (r'' & Hr'' & Hm' & E'). rewrite E'. cbn [fst snd].
  destruct Hr' as [_ Hn Hl _ _]. pose proof (index_id_lookup data _ Hn Hl id Hid) as Hx. cbv zeta in Hx.
  rewrite Hx, Hm. split_and!; [done|done|congruence].
Qed.

Section Rows.
Context {B : Type} {R : Roaring B} {L : RoaringLaws B}.

(** The rows of the ids, id by id. *)
Lemma rows_of_ids_spec data ids : ∀ r (rows : DocBitmap B),
  documents_ready data r → Forall is_u128 ids →
  ∃ rows', answers data r (rows_of_ids ids rows) rows'
    ∧ ∀ x, x ∈ db_set rows' ↔ x ∈ db_set rows
           ∨ 0 ≤ x < sm_row_count (sr_meta r) ∧ dv_doc_id (row_version data x) ∈ ids.
Proof using L.
  unfold answers. induction ids as [|id ids IH]; intros r rows Hr Hids; cbn [rows_of_ids].
  { exists rows. split; [done|]. set_solver. }
  apply Forall_cons in Hids as [Hid Hids]. destruct (id_answers data r id Hr Hid) as (E & Hr' & Hm).
  destruct (query_rows_with_doc_id id r) as [r' found]. cbn [fst snd] in *. subst found.
  destruct (IH r' (insert_all (rows_of_id data (sm_row_count (sr_meta r)) id) rows) Hr' Hids)
    as (rows' & (Ha & Hb & Hc) & Hx).
  exists rows'. split_and!; [done|done|congruence|]. intros x. rewrite Hx, insert_all_set, elem_of_union.
  rewrite elem_of_list_to_set, (rows_of_id_elem data _ (dr_rows _ _ Hr)), elem_of_cons, Hm. tauto.
Qed.

(** The rows of the ids, by the pass that [query_rows_for_eligible_ids] picks. *)
Lemma eligible_answers data r e :
  documents_ready data r → eligible_ok e → Forall is_u128 (ei_numeric e) →
  ∃ rows : DocBitmap B, answers data r (query_rows_for_eligible_ids (ei_numeric e) (ei_byte_order e)) rows
    ∧ ∀ x, x ∈ db_set rows ↔ 0 ≤ x < sm_row_count (sr_meta r) ∧ dv_doc_id (row_version data x) ∈ ei_numeric e.
Proof using L.
  intros Hr [_ He] Hids. unfold query_rows_for_eligible_ids. destruct (Z.ltb_spec (len (ei_numeric e)) 1000) as [|Hbig].
  - destruct (rows_of_ids_spec data (ei_numeric e) r bitmap_new Hr Hids) as (rows & Ha & Hx).
    exists rows. split; [done|]. intros x. rewrite Hx, db_set_new. set_solver.
  - unfold answers. match goal with |- context [with_documents bitmap_new ?f r] =>
      destruct (with_documents_ready bitmap_new f data r Hr) as (r' & Hr' & Hm & E) end.
    rewrite E. destruct (query_index_ready data r' Hr') as (r'' & Hr'' & Hm' & E'). rewrite E'. cbn [fst snd].
    eexists. split; [split_and!; [reflexivity|done|congruence]|]. rewrite Hm, (He Hbig). intros x.
    destruct Hr as [_ Hn Hl _ _]. by apply merge_ids_rows.
Qed.

(** The rows of an exact version: the first one that has it. *)
Definition first_with_version (data : bytes) (n : Z) (v : DocumentVersion) (found : option Z) : Prop :=
  match found with
  | Some row => 0 ≤ row < n ∧ row_version data row = v ∧ ∀ before, 0 ≤ before < row → row_version data before ≠ v
  | None => ∀ row, 0 ≤ row < n → row_version data row ≠ v
  end.

Lemma first_row_version data n v :
  0 ≤ n ≤ u32_max → len data = n * 24 → is_u128 (dv_doc_id v) → is_u64 (dv_revision v) →
  first_with_version data n v (first_row data v).
Proof.
  intros Hn Hl Hv1 Hv2. assert (∀ row, 0 ≤ row < n →
    document_version_entry data row = encode_document_version v ↔ row_version data row = v) as Hr.
  { intros row Hrow. rewrite (version_entry data n Hn Hl row Hrow). split; [|by intros ->].
    destruct (row_version_range data n Hn Hl row Hrow). by apply encode_version_inj. }
  pose proof (first_row_spec data n Hn Hl v) as Hf. unfold first_with_version.
  destruct (first_row data v) as [row|].
  - destruct Hf as (Hrow & E & Hb). split_and!; [lia|lia|by apply Hr|]. intros before Hbefore E'.
    apply (Hb before Hbefore). apply Hr; [lia|done].
  - intros row Hrow E. apply (Hf row Hrow). by apply Hr.
Qed.
End Rows.

(** C21: Finding documents in a sealed segment through the identity-ordered
    permutation of its rows answers what a scan of the rows answers, whether the
    permutation and the validation of the region are cached or not. The bisection
    for an exact version and the scan both return its first row; the rows of a
    document id come in ascending order; and the rows of a filter narrowed by any
    number of id restrictions are those whose id is in every restriction, both below
    1000 ids (one bisection each) and from there on (one merge pass over sorted
    ids). Every query leaves a reader in the same condition. *)
Theorem document_lookups_agree {B} {R : Roaring B} {L : RoaringLaws B} data r restrictions :
  documents_ready data r → Forall (Forall is_u128) restrictions →
  let n := sm_row_count (sr_meta r) in
  (∀ v, is_u128 (dv_doc_id v) → is_u64 (dv_revision v) →
     ∃ found, answers data r (query_row_for_document_version v) found
              ∧ answers data r (row_for_document_version v) found
              ∧ first_with_version data n v found)
  ∧ (∀ row, 0 ≤ row < n → answers data r (document_version row) (Some (row_version data row)))
  ∧ (∀ id, is_u128 id →
       answers data r (query_rows_with_doc_id id)
         (List.filter (λ row, dv_doc_id (row_version data row) =? id) (row_ids n)))
  ∧ (∀ e, eligible_of restrictions = Some e →
       ∃ rows : DocBitmap B, answers data r (query_rows_for_eligible_ids (ei_numeric e) (ei_byte_order e)) rows
         ∧ ∀ x, x ∈ db_set rows
                ↔ 0 ≤ x < n ∧ Forall (λ ids, dv_doc_id (row_version data x) ∈ ids) restrictions).
Proof.
  intros Hr Hids. cbv zeta. split_and!.
  - intros v Hv1 Hv2. exists (first_row data v). split_and!; [by apply lookup_answers|by apply scan_answers|].
    by apply first_row_version; [apply Hr|apply Hr|done|done].
  - intros row Hrow. by apply version_answers.
  - intros id Hid. by apply id_answers.
  - intros e He. pose proof (eligible_of_spec restrictions) as Hs. rewrite He in Hs. destruct Hs as [Hok Hx].
    assert (Forall is_u128 (ei_numeric e)) as Hu.
    { destruct restrictions as [|ids rest]; [done|]. apply Forall_forall. intros x Hin%Hx.
      apply Forall_cons in Hin as [Hin _]. apply Forall_cons in Hids as [Hids _].
      by apply (proj1 (Forall_forall _ _) Hids). }
    destruct (eligible_answers data r e Hr Hok Hu) as (rows & Ha & Hrows).
    exists rows. split; [done|]. intros x. by rewrite Hrows, Hx.
Qed.
End Queries.

(** ** A segment of three rows, two of them of one document *)

Module SampleDocuments.
Definition version (id revision : Z) : DocumentVersion := {| dv_doc_id := id; dv_revision := revision |}.
Definition data : bytes := concat (map encode_document_version [version 9 1; version 300 4; version 9 2]).

Definition reader : SegmentReader :=
  {| sr_mapping := data;
     sr_meta := {| sm_id := replicate 16 Byte.x07; sm_row_count := 3; sm_scheme := 8; sm_dims := 4; sm_file_size := 72;
                sm_epoch_id := None; sm_clustering_key_range := Unstamped |};
     sr_header_length := 0;
     sr_entries := [{| re_kind := 12; re_version := 1; re_reserved := 0; re_offset := 0; re_length := 72; 
                      re_checksum := @xxh3_64 ToyXxh3.toy data |}];
     sr_document_versions_validation := None; sr_collection_schema := None;
     sr_document_version_index_cache := None; sr_gates := closed_gates 0 |}.

Lemma reader_ready : documents_ready (X:=ToyXxh3.toy) data reader.
Proof.
  split; [|cbn; unfold u32_max; lia|by vm_compute|done|done].
  eexists. split; [reflexivity|]. split; [by vm_compute|reflexivity].
Qed.
End SampleDocuments.

Lemma document_lookups_agree_witness :
  (query_rows_with_doc_id (X:=ToyXxh3.toy) 9 SampleDocuments.reader).2 = Ok [0; 2]
  ∧ (query_row_for_document_version (X:=ToyXxh3.toy) (SampleDocuments.version 9 2) SampleDocuments.reader).2 = Ok (Some 2).
Proof.
  destruct (document_lookups_agree (X:=ToyXxh3.toy) (B:=gset Z) SampleDocuments.data SampleDocuments.reader []
    SampleDocuments.reader_ready ltac:(constructor)) as (H1 & _ & H3 & _). split.
  - destruct (H3 9 ltac:(by vm_compute)) as [E _]. rewrite E. by vm_compute.
  - destruct (H1 (SampleDocuments.version 9 2) ltac:(by vm_compute) ltac:(by vm_compute)) as (found & [E _] & _ & Hf).
    rewrite E. destruct found as [row|]; [|exfalso; apply (Hf 2); [cbn; lia|by vm_compute]].
    destruct Hf as (Hrow & Ev & _). change (sm_row_count _) with 3 in Hrow. clear -Hrow Ev.
    assert (row = 0 ∨ row = 1 ∨ row = 2) as Hcases by (clear -Hrow; lia).
    destruct Hcases as [E0|[E0|E0]]; rewrite E0 in *; [vm_compute in Ev; discriminate Ev|vm_compute in Ev; discriminate Ev|reflexivity].
Defined.
