(* ===== verification/SegmentQuery.v ===== *)
(** * Query paths serve what was verified

    The query-path accessors of a reader agree with the verifying ones, and a
    gate or a chunk bit is only ever set for bytes whose checksum was verified. *)

From S2P Require Import Prelude Format Cursor Schema Manifest ManifestIo Bitmap Dict Columns SegmentLayout SegmentLayoutSpec SegmentWriter SegmentReader SegmentRows SegmentVectors.

Section Query.
Context {X : Xxh3}.
Context (address : Z).

(** ** Sound gates *)

(** The bit of a chunk in the words of the reader. *)
Definition chunk_bit (words : list Z) (chunk : Z) : bool :=
  match words !! Z.to_nat (chunk / 64) with
  | Some state => Z.testbit state (chunk mod 64)
  | None => false
  end.

(** Whatever query paths consider verified was verified. *)
Record gates_sound (r : SegmentReader) : Prop := {
  gs_codes : qg_vector_codes (sr_gates r) = true → ∃ data, region r RegionVectorCodes = Ok data;
  gs_factors : qg_vector_factors (sr_gates r) = true → ∃ data, region r RegionVectorFactors = Ok data;
  gs_text : qg_stored_text (sr_gates r) = true → ∃ v, stored_text r = Ok (Some v);
  gs_metadata : qg_stored_metadata (sr_gates r) = true → ∃ v, stored_metadata r = Ok (Some v);
  gs_chunks : ∀ chunk, 0 ≤ chunk → chunk_bit (qg_rescore_chunks (sr_gates r)) chunk = true →
                ∃ data, region_chunk r RegionVectorRescore chunk = Ok data;
}.

Lemma gates_sound_closed r words : sr_gates r = closed_gates words → gates_sound r.
Proof.
  intros E. split; rewrite E; try done. intros chunk _ H. exfalso. unfold chunk_bit in H. cbn [closed_gates qg_rescore_chunks] in H.
  destruct (replicate _ _ !! _) as [w|] eqn:Ew; [|done]. apply lookup_replicate in Ew as [-> _].
  by rewrite Z.testbit_0_l in H.
Qed.

(** A query path against its verifying accessor: it keeps the gates sound, when
    checksums are on it answers the same, and when they are off (the default) it
    still returns the value whenever verification would succeed, but may also serve
    bytes that the verifying accessor rejects; it then marks nothing as verified. *)
Definition agrees {A} (enabled : bool) (r : SegmentReader)
    (query : SegmentReader → SegmentReader * result SegmentError A)
    (verified : SegmentReader → result SegmentError A) : Prop :=
  gates_sound (query r).1
  ∧ (enabled = true → (query r).2 = verified r)
  ∧ (∀ a, verified r = Ok a → (query r).2 = Ok a)
  ∧ (enabled = false → (query r).1 = r).

(** ** Verified once *)

(** A verified region is its slice. *)
Lemma region_is_slice r kind data :
  region r kind = Ok data → ∃ entry, reader_entry r kind = Ok entry ∧ region_slice r entry = Ok data.
Proof.
  intros H. unfold region in H. bind_inv H entry He. exists entry. split; [done|].
  unfold checked_slice in H. bind_inv H d Hd. destruct (negb _); [done|]. congruence.
Qed.

Lemma payload_unchecked r kind data :
  region r kind = Ok data → vector_payload address r kind = vector_payload_unchecked address r kind.
Proof.
  intros H. destruct (region_is_slice r kind data H) as (entry & He & Hs).
  unfold vector_payload, vector_payload_unchecked. by rewrite He, !bind_Ok, H, Hs, !bind_Ok.
Qed.

Lemma payload_err r kind e : region r kind = Err e → vector_payload address r kind = Err e.
Proof.
  intros H. unfold vector_payload. unfold region in H. destruct (reader_entry r kind) as [entry|e'] eqn:He.
  - rewrite bind_Ok. assert (region r kind = Err e) as -> by (unfold region; by rewrite He). done.
  - by injection H as ->.
Qed.

(** The gate of a vector region and its soundness. *)
Definition gate_fact (g : Gate) (kind : RegionKind) : Prop :=
  g = GateCodes ∧ kind = RegionVectorCodes ∨ g = GateFactors ∧ kind = RegionVectorFactors.

Lemma open_gate_sound g kind r data :
  gate_fact g kind → gates_sound r → region r kind = Ok data →
  gates_sound (set_gates (open_gate g (sr_gates r)) r).
Proof. intros [[-> ->]|[-> ->]] [H1 H2 H3 H4 H5] H; split; cbn; try done; intros _; by exists data. Qed.

Lemma gate_open_region g kind r :
  gate_fact g kind → gates_sound r → gate_open g (sr_gates r) = true → ∃ data, region r kind = Ok data.
Proof. intros [[-> ->]|[-> ->]] [H1 H2 H3 H4 H5] H; cbn in H; auto. Qed.

(** A query path that verifies returns what the verifying accessor returns; one
    that does not returns its value when there is one. *)
Lemma query_vectors_agree {A} enabled kind g
    (from : SegmentReader → VectorHeader * Z * bytes → result SegmentError A) r :
  gate_fact g kind → (∀ gates, from (set_gates gates r) = from r) → gates_sound r →
  agrees enabled r (query_vectors address enabled kind g from) (λ r, vector_payload address r kind ≫= from r).
Proof.
  intros Hg Hfrom Hs. unfold agrees, query_vectors, validate_vector_region_once.
  assert (∀ gates, vector_payload_unchecked address (set_gates gates r) kind = vector_payload_unchecked address r kind) as Hset by done.
  destruct (gate_open g (sr_gates r)) eqn:Eg.
  { cbn [orb fst snd]. destruct (gate_open_region g kind r Hg Hs Eg) as [data Hd]. rewrite (payload_unchecked r kind data Hd).
    split_and!; [done|done| |done]. by intros a ->. }
  destruct enabled; cbn [orb negb].
  - destruct (region r kind) as [data|e] eqn:E; cbn [fst snd].
    + rewrite Hset, Hfrom, (payload_unchecked r kind data E). split_and!; [|done|by intros a ->|done].
      by apply (open_gate_sound g kind r data).
    + rewrite (payload_err r kind e E). split_and!; [done|done| |done]. intros a H. done.
  - cbn [fst snd]. split_and!; [done|done| |done]. intros a H. destruct (region r kind) as [data|e] eqn:E.
    + by rewrite <- (payload_unchecked r kind data E).
    + by rewrite (payload_err r kind e E) in H.
Qed.

(** ** Stored rows *)

(** What a verifying accessor of stored rows established. *)
Definition verified_view {V} (kind : RegionKind) (view : bytes → Z → result SegmentError V)
    (verified : SegmentReader → result SegmentError (option V)) (r : SegmentReader) : Prop :=
  ∀ found, verified r = Ok found →
    match found with
    | None => find_entry r (region_id kind) = None
    | Some v => ∃ entry data, find_entry r (region_id kind) = Some entry
                              ∧ region_slice r entry = Ok data
                              ∧ view data (sm_row_count (sr_meta r)) = Ok v
    end.

Lemma region_find r kind data :
  region r kind = Ok data →
  ∃ entry, find_entry r (region_id kind) = Some entry ∧ region_slice r entry = Ok data.
Proof.
  intros H. destruct (region_is_slice r kind data H) as (entry & He & Hs). exists entry. split; [|done].
  unfold reader_entry in He. by apply ok_or_Ok in He.
Qed.

Lemma stored_text_view_ok r : verified_view RegionStoredText stored_text_view stored_text r.
Proof.
  intros found H. unfold stored_text in H. destruct (find_entry r _) as [e|] eqn:Ee; [|by injection H as <-].
  bind_inv H data Hd. bind_inv H v Hv. bind_inv H n Hn. destruct (negb _); [done|]. injection H as <-.
  destruct (region_find r _ data Hd) as (entry & He & Hs). rewrite Ee in He. exists entry, data. done.
Qed.

Lemma stored_metadata_view_ok r : verified_view RegionStoredMetadata stored_metadata_view stored_metadata r.
Proof.
  intros found H. unfold stored_metadata in H. destruct (find_entry r _) as [e|] eqn:Ee; [|by injection H as <-].
  bind_inv H data Hd. bind_inv H v Hv. bind_inv H first Hf. destruct (negb _); [done|].
  bind_inv H n Hn. destruct (negb _); [done|]. injection H as <-.
  destruct (region_find r _ data Hd) as (entry & He & Hs). rewrite Ee in He. exists entry, data. done.
Qed.

Lemma query_stored_agree {V} enabled kind g view (verified : SegmentReader → result SegmentError (option V)) r :
  verified_view kind view verified r → gates_sound r →
  (gate_open g (sr_gates r) = true → ∃ v, verified r = Ok (Some v)) →
  (∀ v, verified r = Ok (Some v) → gates_sound (set_gates (open_gate g (sr_gates r)) r)) →
  agrees enabled r (query_stored enabled kind g view verified) verified.
Proof.
  intros Hv Hs Hopen Hset. unfold agrees, query_stored.
  assert (∀ a, verified r = Ok a →
    match find_entry r (region_id kind) with
    | None => Ok None
    | Some entry => data ← region_slice r entry; Some <$> view data (sm_row_count (sr_meta r))
    end = Ok a) as Hread.
  { intros a Ha. specialize (Hv a Ha). destruct a as [v|]; [|by rewrite Hv].
    destruct Hv as (entry & data & -> & Hd & Hview). by rewrite Hd, bind_Ok, Hview. }
  destruct (gate_open g (sr_gates r)) eqn:Eg; cbn [orb fst snd].
  { destruct (Hopen eq_refl) as [v E]. split_and!; [done|intros _; rewrite E; by apply Hread|done|done]. }
  destruct enabled; cbn [orb negb]; [|by split_and!].
  destruct (verified r) as [[v|]|e] eqn:E; cbn [fst snd]; split_and!; (done || by eapply Hset).
Qed.

(** ** Rescore chunks *)

Definition words_sound (r : SegmentReader) (words : list Z) : Prop :=
  ∀ chunk, 0 ≤ chunk → chunk_bit words chunk = true →
    ∃ data, region_chunk r RegionVectorRescore chunk = Ok data.

Lemma set_chunk_bit words chunk state other :
  0 ≤ chunk → 0 ≤ other → words !! Z.to_nat (chunk / 64) = Some state →
  chunk_bit (<[Z.to_nat (chunk / 64) := Z.lor state (chunk_mask chunk)]> words) other
  = (bool_decide (other = chunk) || chunk_bit words other).
Proof.
  intros Hc Ho Hs. unfold chunk_bit. apply lookup_lt_Some in Hs as Hlt.
  pose proof (Z_div_mod_eq_full chunk 64). pose proof (Z_div_mod_eq_full other 64).
  pose proof (Z.mod_pos_bound chunk 64). pose proof (Z.mod_pos_bound other 64).
  pose proof (Z.div_pos chunk 64). pose proof (Z.div_pos other 64).
  destruct (decide (other / 64 = chunk / 64)) as [E|E].
  - rewrite E, list_lookup_insert_eq, Hs by done. rewrite Z.lor_spec, orb_comm. f_equal.
    unfold chunk_mask. rewrite shiftl_one, Z.pow2_bits_eqb by lia.
    destruct (Z.eqb_spec (chunk mod 64) (other mod 64)), (decide (other = chunk));
      rewrite ?bool_decide_eq_true_2, ?bool_decide_eq_false_2 by done; (done || lia).
  - rewrite list_lookup_insert_ne by lia. rewrite bool_decide_eq_false_2; [done|]. intros ->. lia.
Qed.

(** A chunk is skipped only when it was verified before. *)
Lemma validate_chunks_sound r chunks : ∀ words,
  Forall (λ chunk, 0 ≤ chunk) chunks → words_sound r words →
  words_sound r (validate_chunks r words chunks).1
  ∧ ((validate_chunks r words chunks).2 = Ok tt →
     Forall (λ chunk, ∃ data, region_chunk r RegionVectorRescore chunk = Ok data) chunks).
Proof.
  induction chunks as [|chunk chunks IH]; intros words Hpos Hw; cbn [validate_chunks]; [done|].
  apply Forall_cons in Hpos as [H0 Hpos].
  destruct (words !! Z.to_nat (chunk / 64)) as [state|] eqn:Es; [|done].
  unfold chunk_mask at 1 3. rewrite land_bit by (apply Z.mod_pos_bound; lia).
  destruct (Z.testbit state (chunk mod 64)) eqn:Et.
  - destruct (IH words Hpos Hw) as [Hw' Hok]. split; [done|]. intros E. constructor; [|by apply Hok].
    apply Hw; [done|]. unfold chunk_bit. by rewrite Es.
  - destruct (ok_or _ _ ≫= _) as [data|e] eqn:E; [|done]. ok_inv E index Hi. apply try_from_Some in Hi as [-> _].
    destruct (IH (<[Z.to_nat (chunk / 64) := Z.lor state (chunk_mask chunk)]> words)) as [Hw' Hok]; [done| |].
    { intros other Ho. rewrite (set_chunk_bit _ _ _ _ H0 Ho Es). case_bool_decide as Heq; [|by apply Hw].
      intros _. subst other. by exists data. }
    split; [done|]. intros E'. constructor; [by exists data|by apply Hok].
Qed.

Lemma with_chunks_sound r words : gates_sound r → words_sound r words → gates_sound (with_chunks words r).
Proof. intros [H1 H2 H3 H4 H5] Hw. by split. Qed.

(** The bytes of a range, each in a verified chunk. *)
Definition range_verified (r : SegmentReader) (start length : Z) : Prop :=
  ∀ byte, start ≤ byte < start + length →
    ∃ data, region_chunk r RegionVectorRescore (byte / CHECKSUM_CHUNK_BYTES) = Ok data.

Lemma byte_range_sound enabled start length r :
  gates_sound r → 0 ≤ start → 0 ≤ length →
  ∃ gates, (validate_rescore_byte_range enabled start length r).1 = set_gates gates r
    ∧ gates_sound (set_gates gates r)
    ∧ (enabled = true → (validate_rescore_byte_range enabled start length r).2 = Ok tt →
       range_verified r start length).
Proof.
  intros Hs H0 Hl. unfold validate_rescore_byte_range.
  assert (r = set_gates (sr_gates r) r) as Er by (by destruct r).
  destruct (rescore_range r start length) as [range_end|e] eqn:Er'.
  2:{ exists (sr_gates r). cbn [fst snd]. rewrite <- Er. by split_and!. }
  destruct (length =? 0) eqn:E0; cbn [orb].
  { exists (sr_gates r). cbn [fst snd]. rewrite <- Er. split_and!; [done|done|]. intros _ _ byte Hb. lia. }
  destruct enabled; cbn [negb].
  2:{ exists (sr_gates r). cbn [fst snd]. rewrite <- Er. by split_and!. }
  assert (range_end = start + length) as ->.
  { unfold rescore_range in Er'. bind_inv Er' e He. ok_inv Er' n Hn. ok_inv Er' x Hx.
    apply checked_add_Some in Hx as [-> _]. destruct (_ <? _); [done|]. by injection Er' as <-. }
  apply Z.eqb_neq in E0. set (cs := chunk_range _ _).
  assert (∀ c, c ∈ cs ↔ start / CHECKSUM_CHUNK_BYTES ≤ c ≤ (start + length - 1) / CHECKSUM_CHUNK_BYTES) as Hcs.
  { intros c. unfold cs, chunk_range, saturating_sub. rewrite elem_of_seqZ, Z.max_r by lia. lia. }
  destruct (validate_chunks_sound r cs (qg_rescore_chunks (sr_gates r))) as [Hw Hok].
  { apply Forall_forall. intros c Hc%Hcs. pose proof (Z.div_pos start CHECKSUM_CHUNK_BYTES H0 ltac:(done)). lia. }
  { exact (gs_chunks r Hs). }
  destruct (validate_chunks r _ cs) as [words res]. cbn [fst snd] in *.
  eexists. split; [reflexivity|]. split; [by apply with_chunks_sound|]. intros _ ->.
  intros byte Hb. specialize (Hok eq_refl). rewrite Forall_forall in Hok. apply Hok, Hcs.
  split; apply Z.div_le_mono; (done || lia).
Qed.

Lemma rows_loop_sound enabled row_bytes rows : ∀ r,
  gates_sound r → 0 ≤ row_bytes → Forall (λ row, 0 ≤ row) rows →
  ∃ gates, (validate_rows_loop enabled row_bytes rows r).1 = set_gates gates r
    ∧ gates_sound (set_gates gates r)
    ∧ (enabled = true → (validate_rows_loop enabled row_bytes rows r).2 = Ok tt →
       Forall (λ row, row < sm_row_count (sr_meta r)
                      ∧ range_verified r (VECTOR_HEADER_LEN + row * row_bytes) row_bytes) rows).
Proof.
  induction rows as [|row rows IH]; intros r Hs Hb Hrows; cbn [validate_rows_loop];
    (assert (r = set_gates (sr_gates r) r) as Er by (by destruct r)).
  { exists (sr_gates r). cbn [fst snd]. rewrite <- Er. by split_and!. }
  apply Forall_cons in Hrows as [H0 Hrows]. destruct (Z.leb_spec (sm_row_count (sr_meta r)) row) as [Hle|Hlt].
  { exists (sr_gates r). cbn [fst snd]. rewrite <- Er. by split_and!. }
  destruct (checked_mul usize_max row row_bytes ≫= _) as [start|] eqn:Em.
  2:{ exists (sr_gates r). cbn [fst snd]. rewrite <- Er. by split_and!. }
  apply bind_Some in Em as (offset & Em & Ea). apply checked_mul_Some in Em as [-> _].
  apply checked_add_Some in Ea as [Es _]. change VECTOR_HEADER_LEN with 32 in *.
  destruct (byte_range_sound enabled start row_bytes r Hs) as (gates & E & Hs' & Hv); [nia|done|].
  destruct (validate_rescore_byte_range enabled start row_bytes r) as [r' res]. cbn [fst snd] in *. subst r'.
  destruct res as [[]|e]; [|by exists gates].
  destruct (IH (set_gates gates r) Hs' Hb Hrows) as (gates' & E' & Hs'' & Hv'). exists gates'.
  split_and!; [done|done|]. intros Hen Hok. constructor; [|by apply Hv'].
  split; [done|]. replace (32 + row * row_bytes) with start by lia. by apply Hv.
Qed.

(** C22: Query paths serve verified bytes when query verification is enabled. On a
    reader whose gates are sound (a freshly opened one is) and with verification
    enabled, every query accessor returns exactly what the verifying accessor it
    stands for returns: vector codes and factors of each scheme, stored text and
    stored metadata; and validating rescore rows succeeds only when the rows exist
    and every byte of them lies in a chunk whose checksum matches the table. With
    verification off, which is the default, an accessor still returns the verified
    value whenever there is one, but it may also serve bytes the verifying one would
    reject; it then changes no gate, so that nothing counts as verified. All of
    them, failing or not, leave sound gates. *)
Theorem query_paths_serve_verified enabled r rows :
  gates_sound r → Forall (λ row, 0 ≤ row) rows → 0 ≤ sm_dims (sr_meta r) →
  agrees enabled r (query_bit4_codes address enabled) (bit4_codes address)
  ∧ agrees enabled r (query_f32_codes address enabled) (f32_codes address)
  ∧ agrees enabled r (query_int8_codes address enabled) (int8_codes address)
  ∧ agrees enabled r (query_bit4_factors address enabled) (bit4_factors address)
  ∧ agrees enabled r (query_int8_factors_slice address enabled) (int8_factors address)
  ∧ agrees enabled r (query_stored_text enabled) stored_text
  ∧ agrees enabled r (query_stored_metadata enabled) stored_metadata
  ∧ gates_sound (validate_rescore_rows enabled rows r).1
  ∧ gates_sound (query_rescore_f32 address enabled r).1
  ∧ (enabled = true → (validate_rescore_rows enabled rows r).2 = Ok tt →
     Forall (λ row, row < sm_row_count (sr_meta r)
               ∧ range_verified r (VECTOR_HEADER_LEN + row * (sm_dims (sr_meta r) * 4)) (sm_dims (sr_meta r) * 4)) rows).
Proof.
  intros Hs Hrows Hd. split_and!.
  - apply query_vectors_agree; [by left|done|done].
  - apply query_vectors_agree; [by left|done|done].
  - apply query_vectors_agree; [by left|done|done].
  - apply query_vectors_agree; [by right|done|done].
  - apply query_vectors_agree; [by right|done|done].
  - apply query_stored_agree; [apply stored_text_view_ok|done|apply Hs|].
    intros v Hv. destruct Hs as [H1 H2 H3 H4 H5]. split; [done|done|by intros _; exists v|done|done].
  - apply query_stored_agree; [apply stored_metadata_view_ok|done|apply Hs|].
    intros v Hv. destruct Hs as [H1 H2 H3 H4 H5]. split; [done|done|done|by intros _; exists v|done].
  - unfold validate_rescore_rows. destruct (checked_mul _ _ _) as [row_bytes|] eqn:E; [|done].
    apply checked_mul_Some in E as [-> _].
    destruct (rows_loop_sound enabled (sm_dims (sr_meta r) * 4) rows r Hs) as (gates & -> & Hg & _); (done || lia).
  - unfold query_rescore_f32. destruct (byte_range_sound enabled 0 VECTOR_HEADER_LEN r Hs) as (gates & E & Hg & _); [done|done|].
    destruct (validate_rescore_byte_range enabled 0 VECTOR_HEADER_LEN r) as [r' [[]|e]]; cbn [fst snd] in *; by subst r'.
  - unfold validate_rescore_rows. destruct (checked_mul _ _ _) as [row_bytes|] eqn:E; [|done].
    apply checked_mul_Some in E as [-> _].
    destruct (rows_loop_sound enabled (sm_dims (sr_meta r) * 4) rows r Hs) as (gates & _ & _ & Hv); (done || lia).
Qed.
End Query.

(** ** A segment with one exact-rescore row of two coordinates *)

Module SampleRescore.
Definition hash (b : bytes) : Z := @xxh3_64 ToyXxh3.toy b.

Definition rescore : bytes :=
  encode_vector_header (vector_header 0 2 8 0 1) ++ u32_le 1065353216 ++ u32_le 0.
Definition table : bytes :=
  u32_le 1 ++ u32_le CHECKSUM_CHUNK_BYTES ++ u16_le 5 ++ u16_le 0 ++ u32_le 0 ++ u64_le (hash rescore).

Definition reader : SegmentReader :=
  {| sr_mapping := rescore ++ table;
     sr_meta := {| sm_id := replicate 16 Byte.x07; sm_row_count := 1; sm_scheme := 4; sm_dims := 2;
                   sm_file_size := 64; sm_epoch_id := None; sm_clustering_key_range := Unstamped |};
     sr_header_length := 0;
     sr_entries := [{| re_kind := 5; re_version := 1; re_reserved := 0; re_offset := 0; re_length := 40;
                       re_checksum := hash rescore |};
                    {| re_kind := 11; re_version := 1; re_reserved := 0; re_offset := 40; re_length := 24;
                       re_checksum := hash table |}];
     sr_document_versions_validation := None; sr_collection_schema := None;
     sr_document_version_index_cache := None; sr_gates := closed_gates 1 |}.
End SampleRescore.

Lemma query_paths_serve_verified_witness :
  (validate_rescore_rows (X:=ToyXxh3.toy) true [0] SampleRescore.reader).2 = Ok tt
  ∧ ∃ data, region_chunk (X:=ToyXxh3.toy) SampleRescore.reader RegionVectorRescore 0 = Ok data.
Proof.
  assert ((validate_rescore_rows (X:=ToyXxh3.toy) true [0] SampleRescore.reader).2 = Ok tt) as E by (by vm_compute).
  split; [exact E|].
  destruct (query_paths_serve_verified (X:=ToyXxh3.toy) 0 true SampleRescore.reader [0]
    (gates_sound_closed (X:=ToyXxh3.toy) SampleRescore.reader 1 eq_refl) ltac:(by repeat constructor) ltac:(cbn; lia))
    as (_ & _ & _ & _ & _ & _ & _ & _ & _ & H).
  specialize (H eq_refl E). apply Forall_cons in H as [[_ H] _]. exact (H 32 ltac:(split; by vm_compute)).
Defined.
