(* ===== verification/SegmentRowsSpec.v ===== *)
(** * Row regions read back

    What the writer encodes into the document-version, stored-metadata and
    stored-text regions, row by row, is what the reader's views return. *)

From S2P Require Import Prelude Format Cursor Schema Manifest ManifestIo Bitmap Dict Columns IngestPayload SegmentLayout SegmentLayoutSpec SegmentWriter SegmentReader SegmentRows SegmentVectors SegmentDocuments SegmentQuery.

Lemma slice_range_head {A} (l k : list A) b : b = len l → slice_range (l ++ k) 0 b = Some l.
Proof. intros ->. by apply (slice_range_app []). Qed.

(** ** Records of one width *)

Lemma concat_slice {A} (f : A → bytes) m l (k : nat) x :
  Forall (λ a, len (f a) = m) l → l !! k = Some x →
  slice_range (concat (map f l)) (Z.of_nat k * m) (Z.of_nat k * m + m) = Some (f x).
Proof.
  intros Hf Hk. rewrite <- (take_drop_middle l k x Hk), map_app, concat_app. cbn [map concat].
  assert (len (concat (map f (take k l))) = Z.of_nat k * m) as Hl.
  { rewrite (len_concat_uniform f m) by (by apply Forall_take). apply lookup_lt_Some in Hk.
    unfold len. rewrite length_take. nia. }
  rewrite Forall_forall in Hf. pose proof (Hf x ltac:(by eapply list_elem_of_lookup_2)).
  apply slice_range_app; lia.
Qed.

Lemma chunks_exact_concat {A} (f : A → bytes) (m : nat) l : ∀ fuel,
  (0 < m)%nat → Forall (λ a, length (f a) = m) l → (length (concat (map f l)) ≤ fuel)%nat →
  chunks_exact_fuel fuel m (concat (map f l)) = map f l.
Proof.
  intros fuel Hm Hf. revert fuel. induction Hf as [|a l Ha _ IH]; intros [|fuel] Hl; cbn [map concat chunks_exact_fuel].
  - done.
  - by rewrite (proj2 (Nat.leb_gt m _)) by (cbn; lia).
  - cbn [map concat] in Hl. rewrite length_app in Hl. lia.
  - cbn [map concat] in Hl. rewrite length_app in *. rewrite (proj2 (Nat.leb_le m _)) by lia.
    rewrite take_app_length', drop_app_length' by done. f_equal. apply IH. lia.
Qed.

(** ** Document versions *)

Definition versions_of (d : SegmentDocumentVersions) : list DocumentVersion :=
  zip_with (λ id revision, {| dv_doc_id := id; dv_revision := revision |}) (sd_doc_ids d) (sd_revisions d).

Definition documents_in_range (d : SegmentDocumentVersions) : Prop :=
  Forall is_u128 (sd_doc_ids d) ∧ Forall is_u64 (sd_revisions d).

Lemma encode_version_len v : len (encode_document_version v) = 24.
Proof. unfold encode_document_version. by rewrite len_app, len_u128_le, len_u64_le. Qed.

Lemma encode_document_versions_inv d rows data :
  encode_document_versions d rows = Ok data →
  data = concat (map encode_document_version (versions_of d)) ∧ len (versions_of d) = rows
  ∧ len data = rows * 24.
Proof.
  intros H. unfold encode_document_versions in H.
  destruct (Z.eqb_spec (len (sd_doc_ids d)) rows) as [H1|]; [|done].
  destruct (Z.eqb_spec (len (sd_revisions d)) rows) as [H2|]; [|done]. cbn [negb orb] in H.
  ok_inv H n Hn. injection H as <-.
  assert (map (λ '(doc_id, revision), u128_le doc_id ++ u64_le revision) (zip (sd_doc_ids d) (sd_revisions d))
          = map encode_document_version (versions_of d)) as ->.
  { unfold versions_of. clear. generalize (sd_doc_ids d) (sd_revisions d). intros xs.
    induction xs as [|x xs IH]; intros [|y ys]; try reflexivity. cbn [zip_with map]. by rewrite IH. }
  assert (len (versions_of d) = rows) as Hl.
  { unfold versions_of, len. rewrite length_zip_with. unfold len in *. lia. }
  split_and!; [done|done|]. rewrite (len_concat_uniform _ 24), Hl; [done|].
  apply Forall_forall. intros v _. apply encode_version_len.
Qed.

Lemma versions_in_range d v :
  documents_in_range d → v ∈ versions_of d → is_u128 (dv_doc_id v) ∧ is_u64 (dv_revision v).
Proof.
  intros [H1 H2] Hv. unfold versions_of in Hv. apply elem_of_lookup_zip_with in Hv as (i & x & y & -> & Hx & Hy).
  rewrite Forall_lookup in H1, H2. cbn. split; [by eapply H1|by eapply H2].
Qed.

Lemma row_version_encoded d rows data (k : nat) v :
  encode_document_versions d rows = Ok data → documents_in_range d → rows ≤ u32_max →
  versions_of d !! k = Some v → row_version data (Z.of_nat k) = v.
Proof.
  intros H Hd Hr Hk. destruct (encode_document_versions_inv d rows data H) as (-> & Hl & Hlen).
  assert (0 ≤ Z.of_nat k < rows) as Hk' by (apply lookup_lt_Some in Hk; unfold len in Hl; lia).
  pose proof (concat_slice encode_document_version 24 (versions_of d) k v
    ltac:(apply Forall_forall; intros; apply encode_version_len) Hk) as Hs.
  assert (document_version_entry (concat (map encode_document_version (versions_of d))) (Z.of_nat k)
          = encode_document_version v) as E.
  { unfold document_version_entry, checked_mul, checked_add, DOCUMENT_VERSION_BYTES.
    unfold usize_max, u64_max, u32_max in *. decide_Z. cbn [mbind option_bind]. decide_Z. cbn [mbind option_bind].
    by rewrite Hs. }
  destruct (versions_in_range d v Hd ltac:(by eapply list_elem_of_lookup_2)) as [H1 H2].
  unfold row_version. rewrite E. unfold encode_document_version.
  rewrite take_app_length', drop_app_length' by (pose proof (len_u128_le (dv_doc_id v)); unfold len in *; lia).
  rewrite from_u128_le, from_u64_le by done. by destruct v.
Qed.

(** ** Offsets *)

(** The value of row [k] of a payload cut at ascending end offsets. *)
Definition stored_value (ends : list Z) (payload : bytes) (k : nat) : option bytes :=
  start ← (0 :: ends) !! k;
  finish ← ends !! k;
  slice_range payload start finish.

Lemma monotonic_end_spec ends : ∀ previous finish,
  monotonic_end previous ends = Some finish →
  (∀ (i : nat) a b, (previous :: ends) !! i = Some a → ends !! i = Some b → a ≤ b)
  ∧ (previous :: ends) !! length ends = Some finish
  ∧ Forall (λ e, previous ≤ e ≤ finish) (previous :: ends).
Proof.
  induction ends as [|e ends IH]; intros previous finish H; cbn [monotonic_end] in H.
  { injection H as <-. split_and!; [done|done|]. repeat constructor; lia. }
  destruct (Z.ltb_spec e previous); [done|]. destruct (IH e finish H) as (Hm & Hl & Hf).
  split_and!; [|done|].
  - intros [|i] a b Ha Hb; cbn in Ha, Hb; [injection Ha as <-; injection Hb as <-; lia|by apply (Hm i)].
  - apply Forall_cons. split; [|eapply Forall_impl; [exact Hf|]; cbn; lia].
    apply Forall_cons in Hf as [He _]. lia.
Qed.

Lemma concat_u64_slice offs (i : nat) o :
  offs !! i = Some o →
  slice_range (concat (map u64_le offs)) (Z.of_nat i * 8) (Z.of_nat i * 8 + 8) = Some (u64_le o).
Proof. intros H. apply concat_slice; [|done]. apply Forall_forall. intros x _. apply len_u64_le. Qed.

Lemma offset_at_concat offs (i : nat) o :
  offs !! i = Some o → is_u64 o → Z.of_nat i * 8 + 8 ≤ usize_max →
  offset_at (concat (map u64_le offs)) (Z.of_nat i * 8) = Some o.
Proof.
  intros H Ho Hi. unfold offset_at, checked_add. rewrite (proj2 (Z.leb_le _ _)) by done. cbn [mbind option_bind].
  rewrite (concat_u64_slice offs i o H). cbn [mbind option_bind]. rewrite from_u64_le by done.
  unfold try_from, is_u64, usize_max in *. by rewrite (proj2 (Z.leb_le 0 o)), (proj2 (Z.leb_le o u64_max)) by lia.
Qed.

(** The two words before the rows. *)
Lemma row_header rows rest :
  is_u32 rows →
  region_u32 (u32_le rows ++ u32_le 0 ++ rest) 0 4 = Ok rows
  ∧ region_u32 (u32_le rows ++ u32_le 0 ++ rest) 4 8 = Ok 0.
Proof.
  intros Hr. unfold region_u32. split.
  - rewrite (slice_range_head (u32_le rows)) by (by rewrite len_u32_le). cbn [fmap option_fmap option_map ok_or].
    by rewrite from_u32_le.
  - rewrite (slice_range_app (u32_le rows) (u32_le 0)) by (by rewrite ?len_u32_le).
    cbn [fmap option_fmap option_map ok_or]. by rewrite from_u32_le.
Qed.

(** ** Stored metadata *)

Section Metadata.
Context (ends : list Z) (payload : bytes).
Hypothesis Hmono : monotonic_end 0 ends = Some (len payload).
Hypothesis Hpay : len payload ≤ u64_max.
Hypothesis Hrows : len ends ≤ u32_max.

Lemma ends_u64 (i : nat) o : (0 :: ends) !! i = Some o → is_u64 o.
Proof using Hmono Hpay.
  intros H. destruct (monotonic_end_spec ends 0 _ Hmono) as (_ & _ & Hf). rewrite Forall_lookup in Hf.
  specialize (Hf i o H). unfold is_u64. lia.
Qed.

Lemma stored_value_ok (k : nat) b :
  ends !! k = Some b →
  ∃ a v, (0 :: ends) !! k = Some a ∧ stored_value ends payload k = Some v ∧ len v = b - a
         ∧ slice_range payload a b = Some v.
Proof using Hmono.
  intros Hb. destruct (monotonic_end_spec ends 0 _ Hmono) as (Hm & Hl & Hf).
  destruct (lookup_lt_is_Some_2 (0 :: ends) k) as [a Ha]; [apply lookup_lt_Some in Hb; cbn; lia|].
  specialize (Hm k a b Ha Hb). rewrite Forall_lookup in Hf. pose proof (Hf k a Ha) as Hfa.
  pose proof (Hf (S k) b Hb) as Hfb.
  destruct (slice_range payload a b) as [v|] eqn:E; cycle 1.
  { unfold slice_range in E. exfalso. revert E. by decide_Z. }
  exists a, v. split_and!; [done| |by apply slice_range_Some in E as (_ & _ & _ & ?)|done].
  unfold stored_value. by rewrite Ha, Hb; cbn [mbind option_bind].
Qed.

Definition metadata_view : StoredMetadataRows :=
  {| sv_offsets := concat (map u64_le (0 :: ends)); sv_bytes := payload; sv_row_count := len ends |}.

Lemma metadata_row_value (k : nat) :
  (k < length ends)%nat → metadata_row metadata_view (Z.of_nat k) = stored_value ends payload k.
Proof using Hmono Hpay Hrows.
  intros Hk. destruct (lookup_lt_is_Some_2 ends k Hk) as [b Hb].
  destruct (stored_value_ok k b Hb) as (a & v & Ha & Hv & _ & Hs).
  unfold metadata_row. cbn [metadata_view sv_row_count sv_offsets sv_bytes].
  unfold u32_max, len in Hrows. unfold checked_mul, checked_add, usize_max, u64_max, len. decide_Z.
  cbn [mbind option_bind]. decide_Z. cbn [mbind option_bind]. decide_Z. cbn [mbind option_bind].
  rewrite (offset_at_concat (0 :: ends) k a Ha (ends_u64 k a Ha)) by (unfold usize_max, u64_max; lia).
  cbn [mbind option_bind]. replace ((Z.of_nat k + 1) * 8) with (Z.of_nat (S k) * 8) by lia.
  rewrite (offset_at_concat (0 :: ends) (S k) b Hb (ends_u64 (S k) b Hb)) by (unfold usize_max, u64_max; lia).
  cbn [mbind option_bind]. by rewrite Hs, Hv.
Qed.

Lemma walk_metadata_ok (m : nat) : ∀ (k : nat) a,
  (k + m = length ends)%nat → (0 :: ends) !! k = Some a →
  walk_metadata metadata_view a (seqZ (Z.of_nat k) (Z.of_nat m)) = Ok (len payload).
Proof using Hmono Hpay Hrows.
  induction m as [|m IH]; intros k a Hk Ha.
  - cbn [Z.of_nat seqZ]. destruct (monotonic_end_spec ends 0 _ Hmono) as (_ & Hl & _).
    replace k with (length ends) in Ha by lia. rewrite Hl in Ha. by injection Ha as <-.
  - rewrite seqZ_cons by lia. cbn [walk_metadata]. destruct (lookup_lt_is_Some_2 ends k ltac:(lia)) as [b Hb].
    destruct (stored_value_ok k b Hb) as (a' & v & Ha' & Hv & Hl & _). assert (a' = a) as -> by congruence.
    rewrite metadata_row_value, Hv by lia. cbn [ok_or]. rewrite bind_Ok, Hl.
    unfold checked_add. replace (a + (b - a)) with b by lia.
    pose proof (ends_u64 (S k) b Hb) as [_ Hb64]. unfold usize_max.
    rewrite (proj2 (Z.leb_le b u64_max)) by done. cbn [ok_or]. rewrite bind_Ok.
    replace (Z.succ (Z.of_nat k)) with (Z.of_nat (S k)) by lia.
    replace (Z.pred (Z.of_nat (S m))) with (Z.of_nat m) by lia. apply IH; [lia|done].
Qed.
End Metadata.

Lemma encode_stored_metadata_inv m rows data :
  encode_stored_metadata m rows = Ok data →
  len (sx_end_offsets m) = rows ∧ rows ≤ u32_max
  ∧ monotonic_end 0 (sx_end_offsets m) = Some (len (sx_bytes m)) ∧ len (sx_bytes m) ≤ u64_max
  ∧ data = u32_le rows ++ u32_le 0 ++ concat (map u64_le (0 :: sx_end_offsets m)) ++ sx_bytes m.
Proof.
  intros H. unfold encode_stored_metadata in H.
  destruct (Z.eqb_spec (len (sx_end_offsets m)) rows) as [Hr|]; [|done]. cbn [negb] in H.
  ok_inv H previous Hp. ok_inv H byte_len Hb. apply try_from_Some in Hb as [-> Hb].
  destruct (Z.eqb_spec previous (len (sx_bytes m))) as [->|]; [|done]. cbn [negb] in H.
  ok_inv H oc Hoc. ok_inv H cap Hcap. ok_inv H rc Hrc. apply try_from_Some in Hrc as [-> Hrc].
  injection H as <-. split_and!; [done|lia|done|lia|]. cbn [map concat]. by rewrite <- !app_assoc.
Qed.

Lemma stored_metadata_view_encoded m rows data :
  encode_stored_metadata m rows = Ok data → len data ≤ isize_max →
  stored_metadata_view data rows = Ok (metadata_view (sx_end_offsets m) (sx_bytes m)).
Proof.
  intros H Hd. destruct (encode_stored_metadata_inv m rows data H) as (Hr & Hru & Hm & Hb & ->).
  set (offsets := concat (map u64_le (0 :: sx_end_offsets m))) in *.
  assert (len offsets = (rows + 1) * 8) as Ho.
  { unfold offsets. rewrite (len_concat_uniform _ 8), len_cons, Hr; [lia|]. apply Forall_forall. intros x _. apply len_u64_le. }
  pose proof (len_nonneg (sx_end_offsets m)) as H0. pose proof (len_nonneg (sx_bytes m)) as Hb0.
  destruct (row_header rows (offsets ++ sx_bytes m)) as [E1 E2]; [unfold is_u32; lia|].
  unfold stored_metadata_view. rewrite E1, bind_Ok, E2, bind_Ok, Z.eqb_refl. cbn [negb orb]. rewrite Z.eqb_refl. cbn [negb].
  unfold checked_add, checked_mul. unfold usize_max, u64_max, u32_max in *. decide_Z. cbn [mbind option_bind]. decide_Z.
  cbn [ok_or]. rewrite bind_Ok. decide_Z. cbn [ok_or]. rewrite bind_Ok.
  rewrite app_assoc, (slice_range_app _ offsets) by (rewrite ?len_app, ?len_u32_le; lia). cbn [ok_or]. rewrite bind_Ok.
  rewrite app_assoc, (slice_from_app _ (sx_bytes m)) by (rewrite !len_app, ?len_u32_le; lia). cbn [ok_or]. rewrite bind_Ok.
  by rewrite <- Hr.
Qed.

(** ** Stored text *)

Definition text_value (present : bytes) (ends : list Z) (payload : bytes) (k : nat) : option bytes :=
  p ← present !! k;
  if byte_value p =? 1 then stored_value ends payload k else None.

(** The checks of the writer, row by row. *)
Lemma check_text_rows_spec payload : ∀ present ends previous finish,
  length present = length ends → check_text_rows payload previous (zip present ends) = Ok finish →
  monotonic_end previous ends = Some finish
  ∧ ∀ (k : nat) p a b, present !! k = Some p → (previous :: ends) !! k = Some a → ends !! k = Some b →
      byte_value p = 0 ∧ a = b
      ∨ byte_value p = 1 ∧ ∃ v, slice_range payload a b = Some v ∧ utf8_valid v = true.
Proof.
  induction present as [|p present IH]; intros [|e ends] previous finish Hl H; try done.
  { cbn in H. injection H as <-. split; [done|]. intros k ? ? ? Hk. done. }
  cbn [zip zip_with check_text_rows] in H. destruct (Z.ltb_spec 1 (byte_value p)) as [|Hp]; [done|].
  destruct (Z.ltb_spec e previous) as [|He]; [done|].
  destruct ((byte_value p =? 0) && negb (e =? previous)) eqn:E0; [done|].
  ok_inv H start Hs. apply try_from_Some in Hs as [-> Hs]. ok_inv H fin Hf. apply try_from_Some in Hf as [-> Hf].
  ok_inv H v Hv. destruct ((byte_value p =? 1) && negb (utf8_valid v)) eqn:E1; [done|].
  destruct (IH ends e finish ltac:(cbn in Hl; lia) H) as [Hm Hr]. split.
  { cbn [monotonic_end]. by rewrite (proj2 (Z.ltb_ge e previous)). }
  intros [|k] q a b Hq Ha Hb; cbn in Hq, Ha, Hb; [|by apply (Hr k q a b)].
  injection Hq as <-. injection Ha as <-. injection Hb as <-. pose proof (byte_value_range p).
  assert (byte_value p = 0 ∨ byte_value p = 1) as [Ep|Ep] by lia; rewrite Ep in E0, E1; cbn [Z.eqb Pos.eqb andb] in E0, E1.
  - left. split; [done|]. rewrite negb_false_iff, Z.eqb_eq in E0. lia.
  - right. split; [done|]. exists v. split; [done|]. by apply negb_false_iff in E1.
Qed.

Lemma present_rows_elem present (k : nat) p :
  present !! k = Some p → Z.of_nat k ∈ present_rows present ↔ byte_value p = 1.
Proof.
  intros Hp. unfold present_rows. rewrite list_elem_of_filter, row_ids_elem, Nat2Z.id, Hp.
  apply lookup_lt_Some in Hp. unfold len. cbn. split; [by intros [[=] _]|]. intros ->. split; [done|lia].
Qed.

Lemma present_rows_range present : Forall (λ row, 0 ≤ row < len present) (present_rows present).
Proof.
  apply Forall_forall. intros row. unfold present_rows. rewrite list_elem_of_filter, row_ids_elem. by intros [_ ?].
Qed.

Lemma encode_stored_text_inv t rows data :
  encode_stored_text t rows = Ok data →
  len (st_present t) = rows ∧ len (st_end_offsets t) = rows ∧ rows ≤ u32_max
  ∧ check_text_rows (st_bytes t) 0 (zip (st_present t) (st_end_offsets t)) = Ok (len (st_bytes t))
  ∧ len (st_bytes t) ≤ u64_max
  ∧ data = u32_le rows ++ u32_le 0 ++ bits_of (div_up rows 8) (present_rows (st_present t))
           ++ concat (map u64_le (st_end_offsets t)) ++ st_bytes t.
Proof.
  intros H. unfold encode_stored_text in H.
  destruct (Z.eqb_spec (len (st_present t)) rows) as [H1|]; [|done].
  destruct (Z.eqb_spec (len (st_end_offsets t)) rows) as [H2|]; [|done]. cbn [negb orb] in H.
  bind_inv H previous Hp. ok_inv H byte_len Hb. apply try_from_Some in Hb as [-> Hb].
  destruct (Z.eqb_spec previous (len (st_bytes t))) as [->|]; [|done]. cbn [negb] in H.
  ok_inv H cap Hcap. ok_inv H rc Hrc. apply try_from_Some in Hrc as [-> Hrc].
  injection H as <-. split_and!; try done; lia.
Qed.

Section Text.
Context (present : bytes) (ends : list Z) (payload : bytes).
Hypothesis Hcheck : check_text_rows payload 0 (zip present ends) = Ok (len payload).
Hypothesis Hlen : length present = length ends.
Hypothesis Hpay : len payload ≤ u64_max.
Hypothesis Hrows : len ends ≤ u32_max.

Let Hmono : monotonic_end 0 ends = Some (len payload).
Proof. by destruct (check_text_rows_spec payload present ends 0 _ Hlen Hcheck). Qed.

Definition text_view : StoredTextRows :=
  {| tv_present := bits_of (div_up (len ends) 8) (present_rows present);
     tv_offsets := concat (map u64_le ends); tv_bytes := payload; tv_row_count := len ends |}.

(** The bit of a row is its presence byte. *)
Lemma present_bit (k : nat) p :
  present !! k = Some p →
  ∃ value, tv_present text_view !! Z.to_nat (Z.of_nat k / 8) = Some value
    ∧ (Z.land (byte_value value) (Z.shiftl 1 (Z.of_nat k mod 8)) =? 0) = negb (byte_value p =? 1).
Proof using Hlen.
  intros Hp. apply lookup_lt_Some in Hp as Hk. set (n := div_up (len ends) 8).
  assert (0 ≤ len ends) as Hn0 by apply len_nonneg.
  assert (Forall (λ row, 0 ≤ row) (present_rows present)) as Hf
    by (eapply Forall_impl; [apply present_rows_range|]; cbn; lia).
  destruct (bits_of_spec n (present_rows present) (div_up_nonneg _ Hn0) Hf) as [Hl Hb].
  assert (Z.of_nat k / 8 < n) as Hlt by (apply div_up_bound; unfold len; lia).
  specialize (Hb (Z.of_nat k) ltac:(lia) Hlt). unfold bit_at in Hb.
  change (tv_present text_view) with (bits_of n (present_rows present)).
  assert (0 ≤ Z.of_nat k / 8) by (apply Z.div_pos; lia).
  destruct (lookup_lt_is_Some_2 (bits_of n (present_rows present)) (Z.to_nat (Z.of_nat k / 8))) as [value Hv];
    [unfold len in Hl; lia|].
  exists value. split; [done|]. rewrite Hv in Hb. rewrite <- (negb_involutive (_ =? 0)), Hb. f_equal.
  destruct (Z.eqb_spec (byte_value p) 1) as [E|E].
  - apply bool_decide_eq_true_2. by apply (present_rows_elem present k p Hp).
  - apply bool_decide_eq_false_2. by rewrite (present_rows_elem present k p Hp).
Qed.

Lemma text_start (k : nat) a :
  (k < length ends)%nat → (0 :: ends) !! k = Some a →
  (if Z.of_nat k =? 0 then Some 0
   else previous ← checked_sub (Z.of_nat k) 1; start_index ← checked_mul usize_max previous 8;
        offset_at (tv_offsets text_view) start_index) = Some a.
Proof using Hcheck Hlen Hpay Hrows.
  intros Hk Ha. destruct k as [|k]; [done|]. rewrite (proj2 (Z.eqb_neq _ 0)) by lia.
  unfold u32_max, len in Hrows. unfold checked_sub, checked_mul, usize_max, u64_max. decide_Z. cbn [mbind option_bind].
  decide_Z. cbn [mbind option_bind]. replace (Z.of_nat (S k) - 1) with (Z.of_nat k) by lia.
  apply (offset_at_concat ends k a Ha); [by apply (ends_u64 ends payload Hmono Hpay (S k))|unfold usize_max, u64_max; lia].
Qed.

Lemma text_row_value (k : nat) :
  (k < length ends)%nat → text_row text_view (Z.of_nat k) = Some (text_value present ends payload k).
Proof using Hcheck Hlen Hpay Hrows.
  intros Hk. destruct (lookup_lt_is_Some_2 ends k Hk) as [b Hb].
  destruct (lookup_lt_is_Some_2 present k ltac:(lia)) as [p Hp].
  destruct (stored_value_ok ends payload Hmono k b Hb) as (a & v & Ha & Hv & _ & Hs).
  pose proof (offset_at_concat ends k b Hb (ends_u64 ends payload Hmono Hpay (S k) b Hb)) as Eo.
  change (concat (map u64_le ends)) with (tv_offsets text_view) in Eo.
  unfold text_row. change (tv_row_count text_view) with (len ends). change (tv_bytes text_view) with payload.
  unfold u32_max, len in Hrows. rewrite (proj2 (Z.leb_gt _ _)) by (unfold len; lia).
  assert (checked_mul usize_max (Z.of_nat k) 8 = Some (Z.of_nat k * 8)) as ->
    by (unfold checked_mul; by rewrite (proj2 (Z.leb_le _ _)) by (unfold usize_max, u64_max; lia)).
  cbn [mbind option_bind]. rewrite Eo by (unfold usize_max, u64_max; lia).
  cbn [mbind option_bind]. pose proof (text_start k a Hk Ha) as Est. cbn [mbind option_bind] in Est. rewrite Est.
  destruct (present_bit k p Hp) as (value & Hval & Hbit). rewrite Hval. cbn [mbind option_bind].
  rewrite Hbit. unfold text_value. rewrite Hp. cbn [mbind option_bind].
  destruct (check_text_rows_spec payload present ends 0 _ Hlen Hcheck) as [_ Hr].
  destruct (Hr k p a b Hp Ha Hb) as [[-> ->]|[-> (w & Hw & Hu)]]; cbn [Z.eqb Pos.eqb negb].
  - by rewrite Z.eqb_refl.
  - rewrite Hw. cbn [mbind option_bind]. rewrite Hu. congruence.
Qed.

Lemma walk_text_ok (m : nat) : ∀ (k : nat) a,
  (k + m = length ends)%nat → (0 :: ends) !! k = Some a →
  walk_text text_view a (seqZ (Z.of_nat k) (Z.of_nat m)) = Ok (len payload).
Proof using Hcheck Hlen Hpay Hrows.
  induction m as [|m IH]; intros k a Hk Ha.
  - destruct (monotonic_end_spec ends 0 _ Hmono) as (_ & Hl & _).
    replace k with (length ends) in Ha by lia. rewrite Hl in Ha. by injection Ha as <-.
  - rewrite seqZ_cons by lia. cbn [walk_text]. destruct (lookup_lt_is_Some_2 ends k ltac:(lia)) as [b Hb].
    rewrite text_row_value by lia. cbn [ok_or]. rewrite bind_Ok. unfold checked_mul.
    pose proof Hrows as Hrows'. unfold u32_max, len in Hrows'.
    rewrite (proj2 (Z.leb_le _ _)) by (unfold usize_max, u64_max; lia). cbn [ok_or]. rewrite bind_Ok.
    cbn [text_view tv_offsets tv_bytes].
    rewrite (offset_at_concat ends k b Hb (ends_u64 ends payload Hmono Hpay (S k) b Hb)) by (unfold usize_max, u64_max; lia).
    cbn [ok_or]. rewrite bind_Ok. destruct (monotonic_end_spec ends 0 _ Hmono) as (Hm & _ & Hf).
    specialize (Hm k a b Ha Hb). rewrite Forall_lookup in Hf. pose proof (Hf (S k) b Hb).
    rewrite (proj2 (Z.ltb_ge b a)), (proj2 (Z.ltb_ge _ b)) by lia. cbn [orb].
    assert (is_none (text_value present ends payload k) && negb (b =? a) = false) as ->.
    { destruct (lookup_lt_is_Some_2 present k ltac:(lia)) as [p Hp].
      destruct (check_text_rows_spec payload present ends 0 _ Hlen Hcheck) as [_ Hr].
      destruct (stored_value_ok ends payload Hmono k b Hb) as (a' & v & Ha' & Hv & _).
      unfold text_value. rewrite Hp. cbn [mbind option_bind].
      destruct (Hr k p a b Hp Ha Hb) as [[-> ->]|[-> _]]; cbn [Z.eqb Pos.eqb]; [by rewrite Z.eqb_refl|by rewrite Hv]. }
    replace (Z.succ (Z.of_nat k)) with (Z.of_nat (S k)) by lia.
    replace (Z.pred (Z.of_nat (S m))) with (Z.of_nat m) by lia. apply IH; [lia|done].
Qed.
End Text.

Lemma stored_text_view_encoded t rows data :
  encode_stored_text t rows = Ok data → len data ≤ isize_max →
  stored_text_view data rows = Ok (text_view (st_present t) (st_end_offsets t) (st_bytes t)).
Proof.
  intros H Hd. destruct (encode_stored_text_inv t rows data H) as (Hp & Hr & Hru & Hc & Hb & ->).
  set (bits := bits_of _ _) in *. set (offsets := concat (map u64_le (st_end_offsets t))) in *.
  pose proof (len_nonneg (st_end_offsets t)) as H0. pose proof (len_nonneg (st_bytes t)) as Hb0.
  assert (len offsets = rows * 8) as Ho.
  { unfold offsets. rewrite (len_concat_uniform _ 8), Hr; [lia|]. apply Forall_forall. intros x _. apply len_u64_le. }
  assert (len bits = div_up rows 8) as Hl.
  { apply bits_of_spec; [apply div_up_nonneg; lia|]. eapply Forall_impl; [apply present_rows_range|]. cbn. lia. }
  rewrite !len_app, !len_u32_le in Hd. pose proof (div_up_nonneg rows ltac:(lia)) as Hd0.
  destruct (row_header rows (bits ++ offsets ++ st_bytes t)) as [E1 E2]; [unfold is_u32; lia|].
  unfold stored_text_view. rewrite E1, bind_Ok, E2, bind_Ok, Z.eqb_refl. cbn [negb orb]. rewrite Z.eqb_refl. cbn [negb].
  unfold checked_add, checked_mul. unfold usize_max, u64_max, isize_max, u32_max in *. decide_Z. cbn [ok_or]. rewrite bind_Ok.
  decide_Z. cbn [ok_or]. rewrite bind_Ok. decide_Z. cbn [ok_or]. rewrite bind_Ok.
  rewrite app_assoc, (slice_range_app _ bits _ 8) by (rewrite ?len_app, ?len_u32_le; lia). cbn [ok_or]. rewrite bind_Ok.
  rewrite app_assoc, (slice_range_app _ offsets) by (rewrite ?len_app, ?len_u32_le; lia). cbn [ok_or]. rewrite bind_Ok.
  rewrite app_assoc, (slice_from_app _ (st_bytes t)) by (rewrite !len_app, ?len_u32_le; lia). cbn [ok_or]. rewrite bind_Ok.
  rewrite bool_decide_eq_false_2; [unfold text_view; by rewrite Hr|].
  unfold bits. rewrite tail_bits_of; [|rewrite <- Hp; apply present_rows_range|lia]. by intros [].
Qed.

(** ** The verifying accessors *)

Section Accessors.
Context {X : Xxh3}.

Lemma stored_metadata_reads r m data :
  region r RegionStoredMetadata = Ok data → encode_stored_metadata m (sm_row_count (sr_meta r)) = Ok data →
  len data ≤ isize_max →
  stored_metadata r = Ok (Some (metadata_view (sx_end_offsets m) (sx_bytes m)))
  ∧ ∀ k : nat, (k < length (sx_end_offsets m))%nat →
      metadata_row (metadata_view (sx_end_offsets m) (sx_bytes m)) (Z.of_nat k)
      = stored_value (sx_end_offsets m) (sx_bytes m) k.
Proof.
  intros Hr He Hl. destruct (encode_stored_metadata_inv m _ data He) as (Hn & Hu & Hm & Hb & _).
  rewrite <- Hn in Hu. split; [|intros k Hk; by apply metadata_row_value].
  destruct (region_find r _ data Hr) as (entry & Hf & _). unfold stored_metadata. rewrite Hf, Hr, bind_Ok.
  rewrite (stored_metadata_view_encoded m _ data He Hl), bind_Ok.
  assert (slice_to (sv_offsets (metadata_view (sx_end_offsets m) (sx_bytes m))) 8 = Some (u64_le 0)) as ->
    by (cbn [metadata_view sv_offsets map concat]; apply slice_to_app; by rewrite len_u64_le).
  cbn [fmap option_fmap option_map ok_or]. rewrite bind_Ok, from_u64_le by done. cbn [Z.eqb negb].
  change (sv_row_count (metadata_view _ _)) with (len (sx_end_offsets m)).
  pose proof (walk_metadata_ok (sx_end_offsets m) (sx_bytes m) Hm Hb Hu (length (sx_end_offsets m)) 0 0 eq_refl eq_refl) as Hw.
  change (Z.of_nat 0) with 0 in Hw. change (Z.of_nat (length (sx_end_offsets m))) with (len (sx_end_offsets m)) in Hw.
  unfold row_ids. rewrite Hw, bind_Ok. cbn [metadata_view sv_bytes]. by rewrite Z.eqb_refl.
Qed.

Lemma stored_text_reads r t data :
  region r RegionStoredText = Ok data → encode_stored_text t (sm_row_count (sr_meta r)) = Ok data →
  len data ≤ isize_max →
  stored_text r = Ok (Some (text_view (st_present t) (st_end_offsets t) (st_bytes t)))
  ∧ ∀ k : nat, (k < length (st_end_offsets t))%nat →
      text_row (text_view (st_present t) (st_end_offsets t) (st_bytes t)) (Z.of_nat k)
      = Some (text_value (st_present t) (st_end_offsets t) (st_bytes t) k).
Proof.
  intros Hr He Hl. destruct (encode_stored_text_inv t _ data He) as (Hp & Hn & Hu & Hc & Hb & _).
  assert (length (st_present t) = length (st_end_offsets t)) as Hlen by (unfold len in *; lia).
  rewrite <- Hn in Hu. split; [|intros k Hk; by apply text_row_value].
  destruct (region_find r _ data Hr) as (entry & Hf & _). unfold stored_text. rewrite Hf, Hr, bind_Ok.
  rewrite (stored_text_view_encoded t _ data He Hl), bind_Ok. change (tv_row_count (text_view _ _ _)) with (len (st_end_offsets t)).
  pose proof (walk_text_ok _ _ _ Hc Hlen Hb Hu (length (st_end_offsets t)) 0 0 eq_refl eq_refl) as Hw.
  change (Z.of_nat 0) with 0 in Hw. change (Z.of_nat (length (st_end_offsets t))) with (len (st_end_offsets t)) in Hw.
  unfold row_ids. rewrite Hw, bind_Ok. cbn [text_view tv_bytes]. by rewrite Z.eqb_refl.
Qed.

Lemma documents_ready_fresh r d data :
  region r RegionDocumentVersions = Ok data → encode_document_versions d (sm_row_count (sr_meta r)) = Ok data →
  0 ≤ sm_row_count (sr_meta r) ≤ u32_max →
  sr_document_versions_validation r = None → sr_document_version_index_cache r = None →
  documents_ready data r.
Proof.
  intros Hr He Hn Hv Hi. destruct (encode_document_versions_inv d _ data He) as (_ & _ & Hl).
  split; [|done|done|by rewrite Hv|by rewrite Hi].
  destruct (region_find r _ data Hr) as (entry & Hf & Hs). exists entry. split_and!; [done|done|].
  unfold region in Hr. bind_inv Hr e He'. unfold reader_entry in He'. rewrite Hf in He'. injection He' as <-.
  unfold checked_slice in Hr. rewrite Hs, bind_Ok in Hr. destruct (Z.eqb_spec (xxh3_64 data) (re_checksum entry)); [done|].
  done.
Qed.
End Accessors.
