(* ===== verification/SegmentSeal.v ===== *)
(** * The image of a built segment

    What [encode_segment_inner] puts into a file that it builds from scratch:
    which regions, in which order, with which bytes; and that the file is a
    well-formed image that [segment_open] accepts. *)

From S2P Require Import Prelude Format Cursor Schema Manifest ManifestIo Bitmap Dict Columns SegmentLayout SegmentLayoutSpec SegmentWriter SegmentReader SegmentRows SegmentHeaderSpec SegmentImage.

(** ** The size of an encoded file *)

Lemma align_up_inv n m : align_up n REGION_ALIGNMENT = Ok m → m = aligned n.
Proof. intros H. unfold align_up in H. ok_inv H r Hr. apply checked_add_Some in Hr as [-> _]. by injection H as <-. Qed.

Section Size.
Context {X : Xxh3}.

Lemma region_entries_inv regions : ∀ off entries off' entries',
  region_entries off entries regions = Ok (off', entries') →
  off' = end_offset off (map region_item regions).
Proof.
  induction regions as [|g regions IH]; intros off entries off' entries' H; cbn [region_entries] in H.
  { by injection H as <- _. }
  bind_inv H v Hv. bind_inv H e He. bind_inv H next Hn. cbn [map end_offset].
  apply IH in H. rewrite H. f_equal. unfold offset_after in Hn. ok_inv Hn x Hx. apply checked_add_Some in Hx as [-> _].
  by apply align_up_inv in Hn.
Qed.

Lemma encode_regions_length id rows scheme dims regions image :
  encode_regions id rows scheme dims regions [] = Ok image → len regions ≤ u16_max →
  len image = image_file_length regions [].
Proof.
  intros H Hc. unfold encode_regions in H. pose proof (len_nonneg regions) as H0.
  assert (saturating_add usize_max (saturating_add usize_max (len regions) (len (@nil SegmentCopiedRegion))) 1
          = len (image_all regions [])) as Hall.
  { unfold image_all, image_items, len in *. rewrite !length_app, !length_map. cbn [length].
    unfold saturating_add, usize_max, u64_max, u16_max in *. lia. }
  rewrite Hall in H. bind_inv H hl Hhl. bind_inv H first Hf. apply align_up_inv in Hf as ->.
  assert (hl = image_header_length regions []) as ->.
  { unfold segment_header_length, checked_add in Hhl. unfold image_header_length.
    revert Hhl. rewrite <- Hall. unfold saturating_mul, saturating_add, len. cbn [length].
    unfold usize_max, u64_max, u16_max, FILE_HEADER_LEN, SEGMENT_PREFIX_LEN, REGION_ENTRY_LEN, len in *. decide_Z.
    cbn [mbind option_bind]. decide_Z. cbn [mbind option_bind]. decide_Z. cbn [ok_or]. intros [= <-]. lia. }
  fold (image_first regions []) in H. bind_inv H p Hp. destruct p as [next entries].
  apply region_entries_inv in Hp as ->. cbn [copied_entries] in H. rewrite bind_Ok in H.
  bind_inv H v Hv. ok_inv H fw Hfw. apply checked_add_Some in Hfw as [-> _]. ok_inv H fl Hfl. apply checked_add_Some in Hfl as [-> _].
  destruct (negb _); [done|]. bind_inv H out Hout.
  match type of H with (if negb (?l =? ?n) then _ else _) = _ => destruct (Z.eqb_spec l n) as [E|]; [|done] end.
  injection H as <-. rewrite E. unfold image_file_length, image_items. by rewrite app_nil_r.
Qed.
End Size.

(** ** Known regions *)

(** The kinds a build writes, in their order. *)
Definition built_kinds : list RegionKind :=
  [RegionColumns; RegionAlive; RegionVectorFactors; RegionVectorCodes; RegionVectorRescore;
   RegionGraphNodeBlocks; RegionDocumentVersions; RegionStoredMetadata; RegionStoredText; RegionPostings].

Definition built_regions (regions : list RegionBytes) : Prop :=
  sublist (map rb_kind regions) built_kinds
  ∧ Forall (λ g, region_family (rb_kind g) = Some (rb_family g)) regions.

Section Built.
Context {X : Xxh3}.

Lemma built_image_ok id rows scheme dims regions image :
  encode_regions id rows scheme dims regions [] = Ok image → built_regions regions →
  len id = 16 → is_u32 rows → require_scheme scheme = Ok tt → is_u32 dims →
  len image + REGION_ALIGNMENT ≤ isize_max →
  image_ok id rows scheme dims regions [].
Proof.
  intros H [Hsub Hfam] Hid Hrows Hs Hd Hl.
  assert (len regions ≤ 10) as Hcount.
  { apply sublist_length in Hsub. rewrite length_map in Hsub. unfold len. cbn in Hsub. lia. }
  pose proof (encode_regions_length id rows scheme dims regions image H ltac:(unfold u16_max; lia)) as Hlen.
  assert (Forall (λ k, k ∈ built_kinds) (map rb_kind regions)) as Hin.
  { apply Forall_forall. intros k Hk. eapply elem_of_sublist; [done|]. done. }
  split; try done.
  - unfold image_all, image_items. cbn [map]. rewrite app_nil_r, map_app, map_map. cbn [map table_item it_kind].
    change (map (λ g, it_kind (region_item g)) regions) with (map (λ g, region_id (rb_kind g)) regions).
    rewrite <- (map_map rb_kind region_id).
    apply (sublist_NoDup _ (map region_id (built_kinds ++ [RegionChecksumTable]))).
    { apply (bool_decide_unpack _). by vm_compute. }
    rewrite map_app. cbn [map]. apply sublist_app; [|done]. clear -Hsub.
    induction Hsub; cbn [map]; by constructor.
  - unfold image_items. cbn [map]. rewrite app_nil_r. apply Forall_forall. intros i Hi.
    apply list_elem_of_In, in_map_iff in Hi as (g & <- & Hg%list_elem_of_In). cbn [region_item it_kind it_version].
    split; [destruct (rb_kind g)|destruct (rb_family g)]; by vm_compute.
  - intros a off. unfold image_items. cbn [map]. rewrite app_nil_r. apply Forall_forall. intros i Hi.
    apply list_elem_of_In, in_map_iff in Hi as (g & <- & Hg%list_elem_of_In).
    rewrite Forall_forall in Hfam. specialize (Hfam g Hg). unfold require_region_version, place_entry, region_item.
    cbn [re_kind re_version it_kind it_version]. rewrite Forall_forall in Hin.
    assert (rb_kind g ∈ built_kinds) as Hk by (apply Hin, list_elem_of_In, in_map, list_elem_of_In, Hg).
    destruct (rb_kind g); cbn [region_family] in Hfam; try done; injection Hfam as <-; by vm_compute.
  - unfold image_header_length, image_all, image_items. cbn [map]. rewrite app_nil_r, len_app, len_map.
    rewrite len_cons, len_nil. unfold FILE_HEADER_LEN, SEGMENT_PREFIX_LEN, REGION_ENTRY_LEN, MAX_SEGMENT_HEADER_BYTES. lia.
  - lia.
Qed.
End Built.

(** ** The regions of a build *)

(** The bytes of an optional region, when its source is there. *)
Definition optional_bytes {A} (encode : A → result SegmentError bytes) (source : option A) (found : option bytes) : Prop :=
  match source with
  | None => found = None
  | Some source => ∃ data, encode source = Ok data ∧ found = Some data
  end.

Definition optional_list (kind : RegionKind) (family : FormatFamily) (found : option bytes) : list RegionBytes :=
  match found with
  | None => []
  | Some data => [{| rb_kind := kind; rb_family := family; rb_bytes := data |}]
  end.

Lemma optional_region_inv {A} kind family encode (source : option A) regions :
  optional_region kind family encode source = Ok regions →
  ∃ found, optional_bytes encode source found ∧ regions = optional_list kind family found.
Proof.
  unfold optional_region. destruct source as [source|]; intros H.
  - bind_inv H data Hd. injection H as <-. exists (Some data). by split; [exists data|].
  - injection H as <-. by exists None.
Qed.

Lemma optional_region_ok {A} kind family encode (source : option A) found :
  optional_bytes encode source found → optional_region kind family encode source = Ok (optional_list kind family found).
Proof.
  unfold optional_bytes, optional_region. destruct source as [source|]; [|by intros ->].
  intros (data & E & ->). by rewrite E, bind_Ok.
Qed.

Lemma optional_list_built kind family found :
  region_family kind = Some family →
  sublist (map rb_kind (optional_list kind family found)) [kind]
  ∧ Forall (λ g, region_family (rb_kind g) = Some (rb_family g)) (optional_list kind family found).
Proof. intros Hk. destruct found; cbn; split; repeat constructor; done. Qed.

(** An optional region read back: absent without a source, else the encoding of
    the source. *)
Definition optional_read {X : Xxh3} {A} (kind : RegionKind) (encode : A → result SegmentError bytes)
    (source : option A) (r : SegmentReader) : Prop :=
  match source with
  | None => find_entry r (region_id kind) = None
  | Some source => ∃ data, encode source = Ok data ∧ region r kind = Ok data
  end.

Section Build.
Context {X : Xxh3} {L : Xxh3Laws X}.
Context {B : Type} {R : Roaring B}.
Context (postings_rows : bytes → result SegmentError Z).
Context (build : SegmentBuild B) (graph : option bytes) (documents : option SegmentDocumentVersions)
  (metadata : option SegmentStoredMetadata) (text : option SegmentStoredText) (postings : option bytes)
  (image : bytes).

Definition seal_rows : Z := cs_row_count (sb_columns build).

(** What opening the encoded file gives access to. *)
Record sealed_reader (r : SegmentReader) : Prop := {
  sl_open : ∀ a, segment_open a image (sb_id build) = Ok r;
  sl_mapping : sr_mapping r = image;
  sl_meta : sr_meta r = {| sm_id := sb_id build; sm_row_count := seal_rows; sm_scheme := sb_scheme build;
                           sm_dims := sb_dims build; sm_file_size := len image; sm_epoch_id := None;
                           sm_clustering_key_range := Unstamped |};
  sl_fresh : sr_document_versions_validation r = None ∧ sr_document_version_index_cache r = None
             ∧ sr_collection_schema r = None;
  sl_gates : ∃ words, sr_gates r = closed_gates words;
  sl_valid : validate_all r = Ok tt;
  sl_columns : ∃ data, encode_columns (sb_columns build) = Ok data ∧ region r RegionColumns = Ok data;
  sl_alive : as_row_count (sb_alive build) = seal_rows ∧ region r RegionAlive = Ok (encode_alive (sb_alive build));
  sl_vectors : ∃ vectors, vector_regions build = Ok vectors
                          ∧ Forall (λ g, region r (rb_kind g) = Ok (rb_bytes g)) vectors;
  sl_graph : optional_read RegionGraphNodeBlocks Ok graph r;
  sl_documents : optional_read RegionDocumentVersions (λ d, encode_document_versions d seal_rows) documents r;
  sl_metadata : optional_read RegionStoredMetadata (λ m, encode_stored_metadata m seal_rows) metadata r;
  sl_text : optional_read RegionStoredText (λ t, encode_stored_text t seal_rows) text r;
  sl_postings : optional_read RegionPostings (check_postings postings_rows seal_rows) postings r;
}.

(** A kind the image has no item of is not found. *)
Lemma image_absent id rows scheme dims regions kind :
  region_id kind ∉ map it_kind (image_all regions []) →
  find_entry (image_reader id rows scheme dims regions []) (region_id kind) = None.
Proof using.
  intros Hk. unfold find_entry. destruct (List.find _ _) as [e|] eqn:E; [|done]. exfalso.
  apply List.find_some in E as [He Ek%Z.eqb_eq]. apply Hk. rewrite <- Ek.
  cbn [image_reader sr_entries] in He. unfold image_entries in He. rewrite <- (kinds_of_place _ (image_first regions [])).
  by apply list_elem_of_In, in_map.
Qed.

Lemma optional_read_image id rows scheme dims regions {A} kind family encode (source : option A) found :
  image_ok id rows scheme dims regions [] → optional_bytes encode source found →
  (∀ g, g ∈ optional_list kind family found → g ∈ regions) →
  (found = None → region_id kind ∉ map it_kind (image_all regions [])) →
  optional_read kind encode source (image_reader id rows scheme dims regions []).
Proof using.
  intros Hok Hf Hin Habs. unfold optional_read, optional_bytes in *. destruct source as [source|].
  - destruct Hf as (data & He & ->). exists data. split; [done|].
    pose proof (Hin _ ltac:(by left)) as Hg. set (g := {| rb_kind := kind; rb_family := family; rb_bytes := data |}) in Hg.
    apply (image_region _ _ _ _ _ _ Hok kind (region_item g)); [done|done| |done].
    apply elem_of_app. left. apply elem_of_app. left. by apply list_elem_of_In, in_map, list_elem_of_In.
  - by apply image_absent, Habs.
Qed.

(** The regions in the order of the file. *)
Definition sealed_regions (columns : bytes) (vectors : list RegionBytes)
    (g d m t p : option bytes) : list RegionBytes :=
  ([{| rb_kind := RegionColumns; rb_family := Format.Columns; rb_bytes := columns |};
    {| rb_kind := RegionAlive; rb_family := Alive; rb_bytes := encode_alive (sb_alive build) |}] ++ vectors)
  ++ optional_list RegionGraphNodeBlocks GraphNodeBlocks g
  ++ optional_list RegionDocumentVersions DocumentVersions d
  ++ optional_list RegionStoredMetadata StoredMetadata m
  ++ optional_list RegionStoredText StoredText t
  ++ optional_list RegionPostings Postings p.

Lemma encode_segment_inner_inv :
  encode_segment_inner postings_rows build graph documents metadata text postings [] = Ok image →
  as_row_count (sb_alive build) = seal_rows
  ∧ ∃ vectors columns g d m t p,
      vector_regions build = Ok vectors ∧ encode_columns (sb_columns build) = Ok columns
      ∧ optional_bytes Ok graph g
      ∧ optional_bytes (λ d, encode_document_versions d seal_rows) documents d
      ∧ optional_bytes (λ m, encode_stored_metadata m seal_rows) metadata m
      ∧ optional_bytes (λ t, encode_stored_text t seal_rows) text t
      ∧ optional_bytes (check_postings postings_rows seal_rows) postings p
      ∧ encode_regions (sb_id build) seal_rows (sb_scheme build) (sb_dims build)
          (sealed_regions columns vectors g d m t p) [] = Ok image.
Proof using.
  intros H. unfold encode_segment_inner in H. destruct (Z.eqb_spec (as_row_count (sb_alive build)) (cs_row_count (sb_columns build))) as [Ea|]; [|done].
  cbn [negb] in H. split; [done|]. bind_inv H vectors Hv. bind_inv H columns Hc.
  bind_inv H gs Hg. apply optional_region_inv in Hg as (g & Hg & ->).
  bind_inv H ds Hd. apply optional_region_inv in Hd as (d & Hd & ->).
  bind_inv H ms Hm. apply optional_region_inv in Hm as (m & Hm & ->).
  bind_inv H ts Ht. apply optional_region_inv in Ht as (t & Ht & ->).
  bind_inv H ps Hp. apply optional_region_inv in Hp as (p & Hp & ->).
  exists vectors, columns, g, d, m, t, p. by split_and!.
Qed.

(** Conversely, parts that encode are assembled into one file. *)
Lemma encode_segment_inner_parts vectors columns g d m t p :
  as_row_count (sb_alive build) = seal_rows →
  vector_regions build = Ok vectors → encode_columns (sb_columns build) = Ok columns →
  optional_bytes Ok graph g →
  optional_bytes (λ d, encode_document_versions d seal_rows) documents d →
  optional_bytes (λ m, encode_stored_metadata m seal_rows) metadata m →
  optional_bytes (λ t, encode_stored_text t seal_rows) text t →
  optional_bytes (check_postings postings_rows seal_rows) postings p →
  encode_segment_inner postings_rows build graph documents metadata text postings []
  = encode_regions (sb_id build) seal_rows (sb_scheme build) (sb_dims build)
      (sealed_regions columns vectors g d m t p) [].
Proof using.
  intros Ha Hv Hc Hg Hd Hm Ht Hp. unfold encode_segment_inner. unfold seal_rows in *.
  rewrite Ha, Z.eqb_refl, Hv, bind_Ok, Hc, bind_Ok. cbn [negb].
  rewrite (optional_region_ok _ _ _ _ _ Hg), bind_Ok, (optional_region_ok _ _ _ _ _ Hd), bind_Ok.
  rewrite (optional_region_ok _ _ _ _ _ Hm), bind_Ok, (optional_region_ok _ _ _ _ _ Ht), bind_Ok.
  by rewrite (optional_region_ok _ _ _ _ _ Hp), bind_Ok.
Qed.

(** *** Vectors *)

Lemma vector_regions_inv vectors :
  vector_regions build = Ok vectors →
  require_scheme (sb_scheme build) = Ok tt
  ∧ ∃ row_stride factor_stride factor_bytes,
      encode_factors (sb_scheme build) (sb_dims build) (sb_factors build) seal_rows
        = Ok (row_stride, factor_stride, factor_bytes)
      ∧ len (sb_codes build) = row_stride * seal_rows
      ∧ len (sb_rescore build) = sb_dims build * seal_rows
      ∧ 0 ≤ row_stride ≤ u32_max ∧ 0 ≤ sb_dims build * 4 ≤ u32_max
      ∧ vectors =
        [{| rb_kind := RegionVectorFactors; rb_family := VectorFactors;
            rb_bytes := encode_vector_header
              (vector_header (sb_scheme build) (sb_dims build) row_stride factor_stride seal_rows) ++ factor_bytes |};
         {| rb_kind := RegionVectorCodes; rb_family := VectorCodes;
            rb_bytes := encode_vector_header
              (vector_header (sb_scheme build) (sb_dims build) row_stride factor_stride seal_rows) ++ sb_codes build |};
         {| rb_kind := RegionVectorRescore; rb_family := VectorRescore;
            rb_bytes := encode_vector_header (vector_header 0 (sb_dims build) (sb_dims build * 4) 0 seal_rows)
                        ++ concat (map u32_le (sb_rescore build)) |}].
Proof using.
  intros H. unfold vector_regions in H. bind_inv H u Hs.
  assert (require_scheme (sb_scheme build) = Ok tt) as Hscheme.
  { destruct (require_scheme (sb_scheme build)) as [[]|]; done. }
  split; [done|]. ok_inv H dims Hd. apply try_from_Some in Hd as [-> Hd]. bind_inv H f Hf. destruct f as [[rs fs] fb].
  ok_inv H ec Hec. apply checked_mul_Some in Hec as [-> _].
  destruct (Z.eqb_spec (len (sb_codes build)) (rs * cs_row_count (sb_columns build))) as [Hc|]; [|done]. cbn [negb] in H.
  ok_inv H er Her. apply checked_mul_Some in Her as [-> _].
  destruct (Z.eqb_spec (len (sb_rescore build)) (sb_dims build * cs_row_count (sb_columns build))) as [Hr|]; [|done]. cbn [negb] in H.
  ok_inv H rs' Hrs. apply try_from_Some in Hrs as [-> Hrs]. bind_inv H u' Hv. ok_inv H st Hst. apply checked_mul_Some in Hst as [-> _].
  ok_inv H st' Hst'. apply try_from_Some in Hst' as [-> Hst']. injection H as <-.
  exists rs, fs, fb. by split_and!; (done || lia).
Qed.

Definition kind_of_found (kind : RegionKind) (found : option bytes) : list RegionKind :=
  match found with None => [] | Some _ => [kind] end.

Lemma found_sublist kind found : sublist (kind_of_found kind found) [kind].
Proof using. destruct found; repeat constructor. Qed.

Definition sealed_kinds (g d m t p : option bytes) : list RegionKind :=
  [RegionColumns; RegionAlive; RegionVectorFactors; RegionVectorCodes; RegionVectorRescore]
  ++ kind_of_found RegionGraphNodeBlocks g ++ kind_of_found RegionDocumentVersions d
  ++ kind_of_found RegionStoredMetadata m ++ kind_of_found RegionStoredText t ++ kind_of_found RegionPostings p.

Lemma sealed_regions_kinds columns vectors g d m t p :
  map rb_kind vectors = [RegionVectorFactors; RegionVectorCodes; RegionVectorRescore] →
  map rb_kind (sealed_regions columns vectors g d m t p) = sealed_kinds g d m t p.
Proof using.
  intros Hv. unfold sealed_regions, sealed_kinds. rewrite !map_app, Hv. cbn [map rb_kind app].
  by destruct g, d, m, t, p.
Qed.

Lemma image_all_kinds regions :
  map it_kind (image_all regions []) = map region_id (map rb_kind regions ++ [RegionChecksumTable]).
Proof using.
  unfold image_all, image_items. cbn [map]. rewrite app_nil_r, !map_app, !map_map. done.
Qed.

Lemma sealed_built columns vectors g d m t p :
  vector_regions build = Ok vectors → built_regions (sealed_regions columns vectors g d m t p).
Proof using.
  intros Hv. apply vector_regions_inv in Hv as (_ & rs & fs & fb & _ & _ & _ & _ & _ & ->). split.
  - rewrite sealed_regions_kinds by done. unfold sealed_kinds, built_kinds. repeat apply sublist_skip.
    change [RegionGraphNodeBlocks; RegionDocumentVersions; RegionStoredMetadata; RegionStoredText; RegionPostings]
      with ([RegionGraphNodeBlocks] ++ [RegionDocumentVersions] ++ [RegionStoredMetadata] ++ [RegionStoredText] ++ [RegionPostings]).
    do 4 (apply sublist_app; [apply found_sublist|]). apply found_sublist.
  - unfold sealed_regions. rewrite !Forall_app. split_and!; [by repeat constructor|by repeat constructor|..];
      by apply optional_list_built.
Qed.

(** ** Opening the file *)

Lemma sealed_reader_opens :
  encode_segment_inner postings_rows build graph documents metadata text postings [] = Ok image →
  len (sb_id build) = 16 → is_u32 seal_rows → is_u32 (sb_dims build) → len image + REGION_ALIGNMENT ≤ isize_max →
  ∃ r, sealed_reader r.
Proof using L.
  intros H Hid Hrows Hdims Hl. destruct (encode_segment_inner_inv H)
    as (Halive & vectors & columns & g & d & m & t & p & Hv & Hc & Hg & Hd & Hm & Ht & Hp & He).
  destruct (vector_regions_inv vectors Hv) as (Hs & rs & fs & fb & _ & _ & _ & _ & _ & Ev).
  set (regions := sealed_regions columns vectors g d m t p) in *.
  pose proof (built_image_ok _ _ _ _ regions image He (sealed_built _ _ _ _ _ _ _ Hv) Hid Hrows Hs Hdims Hl) as Hok.
  pose proof (encode_regions_image _ _ _ _ _ _ Hok) as Ei. rewrite He in Ei. injection Ei as Ei.
  set (r := image_reader (sb_id build) seal_rows (sb_scheme build) (sb_dims build) regions []).
  assert (∀ g, g ∈ regions → region r (rb_kind g) = Ok (rb_bytes g)) as Hr.
  { intros x Hx. apply (image_region _ _ _ _ _ _ Hok (rb_kind x) (region_item x)); [done|done| |done].
    apply elem_of_app. left. apply elem_of_app. left. by apply list_elem_of_In, in_map, list_elem_of_In. }
  assert (map it_kind (image_all regions []) = map region_id (sealed_kinds g d m t p ++ [RegionChecksumTable])) as Hk.
  { rewrite image_all_kinds. unfold regions. rewrite sealed_regions_kinds; [done|]. by rewrite Ev. }
  exists r. split.
  - intros a. rewrite Ei. by apply open_image.
  - by rewrite Ei.
  - cbn [r image_reader sr_meta]. unfold image_meta. by rewrite Ei, len_segment_image.
  - done.
  - by eexists.
  - by apply validate_all_image.
  - exists columns. split; [done|]. apply (Hr {| rb_kind := RegionColumns; rb_family := Format.Columns; rb_bytes := columns |}).
    by left.
  - split; [done|]. apply (Hr {| rb_kind := RegionAlive; rb_family := Alive; rb_bytes := encode_alive (sb_alive build) |}).
    right. by left.
  - exists vectors. split; [done|]. apply Forall_forall. intros x Hx. apply Hr. unfold regions, sealed_regions.
    rewrite !elem_of_app. by left; right.
  - apply (optional_read_image _ _ _ _ _ _ GraphNodeBlocks _ _ g Hok Hg).
    + intros x Hx. unfold regions, sealed_regions. rewrite !elem_of_app. tauto.
    + intros ->. rewrite Hk. apply (bool_decide_unpack _). by destruct d, m, t, p; vm_compute.
  - apply (optional_read_image _ _ _ _ _ _ DocumentVersions _ _ d Hok Hd).
    + intros x Hx. unfold regions, sealed_regions. rewrite !elem_of_app. tauto.
    + intros ->. rewrite Hk. apply (bool_decide_unpack _). by destruct g, m, t, p; vm_compute.
  - apply (optional_read_image _ _ _ _ _ _ StoredMetadata _ _ m Hok Hm).
    + intros x Hx. unfold regions, sealed_regions. rewrite !elem_of_app. tauto.
    + intros ->. rewrite Hk. apply (bool_decide_unpack _). by destruct g, d, t, p; vm_compute.
  - apply (optional_read_image _ _ _ _ _ _ StoredText _ _ t Hok Ht).
    + intros x Hx. unfold regions, sealed_regions. rewrite !elem_of_app. tauto.
    + intros ->. rewrite Hk. apply (bool_decide_unpack _). by destruct g, d, m, p; vm_compute.
  - apply (optional_read_image _ _ _ _ _ _ Postings _ _ p Hok Hp).
    + intros x Hx. unfold regions, sealed_regions. rewrite !elem_of_app. tauto.
    + intros ->. rewrite Hk. apply (bool_decide_unpack _). by destruct g, d, m, t; vm_compute.
Qed.
End Build.
