(* ===== verification/SegmentReadBack.v ===== *)
(** * A sealed segment reads back

    The whole path of a sealed segment: build, encode, open, read.  Every reader
    returns what the builder was given. *)

From S2P Require Import Prelude Format Cursor Schema Manifest ManifestIo Bitmap Dict Columns ColumnsSpec IngestPayload SegmentLayout SegmentLayoutSpec SegmentColumnsSpec SegmentRebuild SegmentWriter SegmentReader SegmentRows SegmentVectors SegmentHeaderSpec SegmentImage SegmentDocuments SegmentQuery SegmentRowsSpec SegmentSeal Durability Vfs.

Lemma checked_mul_fits m x y : x * y ≤ m → checked_mul m x y = Some (x * y).
Proof. intros H. unfold checked_mul. by rewrite (proj2 (Z.leb_le _ _) H). Qed.

(** ** Casting *)

Lemma cast_slice_raw {T} (t : Plain T) pointer b count :
  len b = count * pt_size t → count * pt_size t ≤ usize_max → pointer mod pt_align t = 0 →
  cast_slice t pointer b count = Ok (map (pt_read t) (chunks_exact (pt_size t) b)).
Proof.
  intros Hl Hc Hp. unfold cast_slice, checked_mul. rewrite (proj2 (Z.leb_le _ _)) by done. cbn [ok_or].
  by rewrite bind_Ok, Hl, Z.eqb_refl, Hp.
Qed.

Lemma cast_slice_concat {T} (t : Plain T) (f : T → bytes) pointer (l : list T) :
  0 < pt_size t → len l * pt_size t ≤ usize_max → pointer mod pt_align t = 0 →
  Forall (λ x, len (f x) = pt_size t ∧ pt_read t (f x) = x) l →
  cast_slice t pointer (concat (map f l)) (len l) = Ok l.
Proof.
  intros Hs Hc Hp Hl.
  assert (Forall (λ x, len (f x) = pt_size t) l) as Hf by (eapply Forall_impl; [exact Hl|]; by intros ? []).
  rewrite cast_slice_raw; [|by apply len_concat_uniform|done|done].
  unfold chunks_exact. rewrite (chunks_exact_concat f (Z.to_nat (pt_size t)) l); [|lia| |done].
  - f_equal. rewrite map_map. rewrite <- (map_id l) at 2. apply map_ext_in. intros x Hx.
    rewrite Forall_forall in Hl. by apply Hl, list_elem_of_In.
  - eapply Forall_impl; [exact Hf|]. unfold len. cbn. lia.
Qed.

(** ** Factors in range *)

Definition factors_in_range (f : SegmentFactors) : Prop :=
  match f with
  | FactorsF32 => True
  | FactorsBit4 l => Forall (λ x, Forall is_u32 (persisted_fields x)) l
  | FactorsInt8 l => Forall (λ x, is_u32 (i8_scale x) ∧ is_u32 (i8_offset x)) l
  end.

(** What fits the format of a segment. *)
Record build_in_range {B} `{Roaring B} `{!RoaringLaws B} (build : SegmentBuild B) : Prop := {
  br_id : len (sb_id build) = 16;
  br_dims : is_u32 (sb_dims build);
  br_rescore : Forall is_u32 (sb_rescore build);
  br_factors : factors_in_range (sb_factors build);
  br_alive : alive_ok (sb_alive build);
}.

Lemma f32_field_at (k : nat) pre x post :
  length pre = (k * 4)%nat → is_u32 x → f32_field k (pre ++ u32_le x ++ post) = x.
Proof.
  intros Hp Hx. unfold f32_field. rewrite drop_app_length' by done.
  rewrite take_app_length' by (pose proof (len_u32_le x); unfold len in *; lia). by apply from_u32_le.
Qed.

Lemma length_u32_le x : length (u32_le x) = 4%nat.
Proof. pose proof (len_u32_le x). unfold len in *. lia. Qed.

Lemma bit4_record x :
  Forall is_u32 (persisted_fields x) →
  len (concat (map u32_le (persisted_fields x))) = 12
  ∧ pt_read plain_bit4_factors (concat (map u32_le (persisted_fields x))) = x.
Proof.
  intros H. unfold persisted_fields in *. apply Forall_cons in H as [H1 H]. apply Forall_cons in H as [H2 H].
  apply Forall_cons in H as [H3 _]. cbn [map concat]. split; [by rewrite !len_app, !len_u32_le|].
  destruct x as [a b c]. cbn in *. f_equal.
  - by apply (f32_field_at 0 []).
  - apply (f32_field_at 1 (u32_le a)); [apply length_u32_le|done].
  - rewrite app_assoc. apply (f32_field_at 2 (u32_le a ++ u32_le b)); [|done]. by rewrite length_app, !length_u32_le.
Qed.

Lemma int8_record x :
  is_u32 (i8_scale x) ∧ is_u32 (i8_offset x) →
  len (u32_le (i8_scale x) ++ u32_le (i8_offset x)) = 8
  ∧ pt_read plain_int8_factors (u32_le (i8_scale x) ++ u32_le (i8_offset x)) = x.
Proof.
  intros [H1 H2]. split; [by rewrite len_app, !len_u32_le|]. destruct x as [a b]. cbn in *. f_equal.
  - by apply (f32_field_at 0 []).
  - rewrite <- (app_nil_r (u32_le b)). apply (f32_field_at 1 (u32_le a)); [apply length_u32_le|done].
Qed.

(** ** Vector payloads *)

Section Payload.
Context {X : Xxh3}.

Lemma region_len r kind data : region r kind = Ok data → len data ≤ len (sr_mapping r).
Proof.
  intros H. destruct (region_is_slice r kind data H) as (e & _ & Hs). unfold region_slice in Hs.
  ok_inv Hs start H1. ok_inv Hs n H2. ok_inv Hs fin H3. apply ok_or_Ok in Hs.
  apply slice_range_Some in Hs as (Ha & Hb & _ & Hl). lia.
Qed.

Lemma payload_reads address r kind h payload :
  region r kind = Ok (encode_vector_header h ++ payload) → len (sr_mapping r) ≤ isize_max → vector_header_ok h →
  vh_dims h = sm_dims (sr_meta r) → vh_row_count h = sm_row_count (sr_meta r) →
  (kind = RegionVectorRescore ∨ vh_scheme h = sm_scheme (sr_meta r)) →
  ∃ entry, reader_entry r kind = Ok entry
    ∧ vector_payload address r kind = Ok (h, address + re_offset entry + VECTOR_HEADER_LEN, payload).
Proof.
  intros Hr Hm Hh Hd Hn Hs. destruct (region_is_slice r kind _ Hr) as (entry & He & _). exists entry. split; [done|].
  pose proof (region_len r kind _ Hr) as Hl. unfold vector_payload, vector_payload_of. rewrite He, bind_Ok, Hr, bind_Ok.
  rewrite slice_to_app by (by rewrite len_vector_header). cbn [ok_or]. rewrite bind_Ok.
  rewrite <- (app_nil_r (encode_vector_header h)) at 1.
  rewrite decode_vector_header_ok, bind_Ok; [|done|rewrite app_nil_r; rewrite len_app in Hl; pose proof (len_nonneg payload); lia].
  rewrite Hd, Hn, !Z.eqb_refl. cbn [negb orb].
  assert (negb (bool_decide (kind = RegionVectorRescore)) && negb (vh_scheme h =? sm_scheme (sr_meta r)) = false) as ->.
  { destruct Hs as [->| ->]; [by rewrite bool_decide_eq_true_2|]. by rewrite Z.eqb_refl, andb_false_r. }
  rewrite slice_from_app by (by rewrite len_vector_header). by cbn [ok_or]; rewrite bind_Ok.
Qed.

(** Entries of an opened segment start on a boundary. *)
Lemma opened_entry_aligned a image id r kind entry :
  segment_open a image id = Ok r → reader_entry r kind = Ok entry → re_offset entry mod 4 = 0.
Proof.
  intros H He. unfold segment_open in H. bind_inv H p Hp. bind_inv H w Hw. injection H as <-.
  apply parse_segment_header_Ok in Hp as (_ & _ & _ & _ & _ & Hb & _). unfold reader_entry in He. apply ok_or_Ok in He.
  unfold find_entry in He. cbn [sr_entries] in He. apply List.find_some in He as [He%list_elem_of_In _].
  rewrite Forall_forall in Hb. destruct (Hb entry He) as (Hal & _). unfold REGION_ALIGNMENT in Hal.
  pose proof (Z_div_mod_eq_full (re_offset entry) (16 * 1024)). rewrite Hal in *.
  replace (re_offset entry) with (re_offset entry / (16 * 1024) * 4096 * 4) by lia. by apply Z_mod_mult.
Qed.
End Payload.

(** ** Reading a sealed segment *)

(** The vectors, as each scheme serves them. *)
Definition vectors_read {X : Xxh3} {B} (address : Z) (build : SegmentBuild B) (r : SegmentReader) : Prop :=
  rescore_f32 address r = Ok (sb_rescore build)
  ∧ match sb_factors build with
    | FactorsF32 => f32_codes address r = Ok (map from_le (chunks_exact 4 (sb_codes build)))
    | FactorsBit4 factors => bit4_codes address r = Ok (sb_codes build) ∧ bit4_factors address r = Ok factors
    | FactorsInt8 factors =>
        int8_codes address r = Ok (map from_le (chunks_exact 1 (sb_codes build)))
        ∧ int8_factors address r = Ok factors
    end.

Section Sealed.
Context {X : Xxh3} {B : Type} {R : Roaring B} {RL : RoaringLaws B}.
Context (postings_rows : bytes → result SegmentError Z).
Context (build : SegmentBuild B) (graph : option bytes) (documents : option SegmentDocumentVersions)
  (metadata : option SegmentStoredMetadata) (text : option SegmentStoredText) (postings : option bytes)
  (image : bytes) (r : SegmentReader) (address : Z).
Hypothesis Hr : sealed_reader postings_rows build graph documents metadata text postings image r.
Hypothesis Hb : build_in_range build.
Hypothesis Hrows : is_u32 (seal_rows build).
Hypothesis Himage : len image ≤ isize_max.
Hypothesis Haddress : address mod 4 = 0.

Lemma payload_aligned kind entry :
  reader_entry r kind = Ok entry → (address + re_offset entry + VECTOR_HEADER_LEN) mod 4 = 0.
Proof using Hr Haddress.
  intros He. pose proof (opened_entry_aligned "" image (sb_id build) r kind entry (sl_open _ _ _ _ _ _ _ _ _ Hr "") He) as Ho.
  unfold VECTOR_HEADER_LEN. rewrite Zplus_mod, (Zplus_mod address), Haddress, Ho. done.
Qed.

Lemma sealed_fields :
  sm_dims (sr_meta r) = sb_dims build ∧ sm_row_count (sr_meta r) = seal_rows build
  ∧ sm_scheme (sr_meta r) = sb_scheme build ∧ len (sr_mapping r) ≤ isize_max.
Proof using Hr Himage.
  rewrite (sl_meta _ _ _ _ _ _ _ _ _ Hr). cbn. split_and!; [done|done|done|].
  by rewrite (sl_mapping _ _ _ _ _ _ _ _ _ Hr).
Qed.

Lemma sealed_header_ok scheme stride factor_stride :
  require_scheme scheme = Ok tt → is_u32 stride → is_u16 factor_stride →
  vector_header_ok (vector_header scheme (sb_dims build) stride factor_stride (seal_rows build)).
Proof using Hb Hrows.
  intros Hs H1 H2. split; [| |apply Hb|exact H1|exact H2|exact Hrows].
  - unfold vector_header_validate. cbn [vh_scheme vector_header]. by rewrite Hs.
  - cbn [vh_scheme vector_header]. clear -Hs. unfold require_scheme in Hs. unfold is_u16, u16_max.
    repeat (match type of Hs with context [match ?s with _ => _ end] => destruct s end; try done; try lia).
Qed.

(** No product of the counts overflows. *)
Lemma sealed_products :
  sb_dims build * 4 ≤ u32_max →
  0 ≤ seal_rows build * 12 ≤ usize_max ∧ 0 ≤ sb_dims build * seal_rows build
  ∧ sb_dims build * seal_rows build * 4 ≤ usize_max.
Proof using Hb Hrows.
  intros H4. destruct Hb as [_ [Hd0 _] _ _ _]. destruct Hrows as [Hn0 Hn1].
  unfold usize_max, u64_max, u32_max in *. split_and!; [lia|lia|nia|].
  assert (sb_dims build * 4 * seal_rows build ≤ 4294967295 * 4294967295) by (apply Z.mul_le_mono_nonneg; lia). lia.
Qed.

Lemma sealed_rescore :
  region r RegionVectorRescore
    = Ok (encode_vector_header (vector_header 0 (sb_dims build) (sb_dims build * 4) 0 (seal_rows build))
          ++ concat (map u32_le (sb_rescore build))) →
  len (sb_rescore build) = sb_dims build * seal_rows build → 0 ≤ sb_dims build * 4 ≤ u32_max →
  rescore_f32 address r = Ok (sb_rescore build).
Proof using Hr Hb Hrows Himage Haddress.
  intros Hre Hl H4. destruct sealed_fields as (Ed & En & _ & Hm). destruct (sealed_products ltac:(lia)) as (_ & P0 & P1).
  destruct (payload_reads address r _ _ _ Hre Hm) as (e & He & Hp); [by apply sealed_header_ok|done|done|by left|].
  unfold rescore_f32. rewrite Hp, bind_Ok. unfold rescore_f32_from. cbn [vh_scheme vector_header Z.eqb negb].
  unfold checked_mul. rewrite Ed, En. rewrite (proj2 (Z.leb_le _ _)) by lia. cbn [ok_or].
  rewrite bind_Ok. replace (seal_rows build * sb_dims build) with (len (sb_rescore build)) by lia.
  apply cast_slice_concat; [done|cbn [plain_f32 pt_size]; lia|by apply payload_aligned in He|].
  eapply Forall_impl; [apply Hb|]. intros x Hx. cbn. split; [apply len_u32_le|by apply from_u32_le].
Qed.

(** The payloads of codes and factors, with their headers and addresses. *)
Record coded_payloads (rs fs : Z) (fb : bytes) (pc pf : Z) : Prop := {
  cp_factors : encode_factors (sb_scheme build) (sb_dims build) (sb_factors build) (seal_rows build) = Ok (rs, fs, fb);
  cp_codes_len : len (sb_codes build) = rs * seal_rows build;
  cp_stride : 0 ≤ rs ≤ u32_max;
  cp_dims : sb_dims build * 4 ≤ u32_max;
  cp_aligned : pc mod 4 = 0 ∧ pf mod 4 = 0;
  cp_codes : vector_payload address r RegionVectorCodes
             = Ok (vector_header (sb_scheme build) (sb_dims build) rs fs (seal_rows build), pc, sb_codes build);
  cp_factor_bytes : vector_payload address r RegionVectorFactors
             = Ok (vector_header (sb_scheme build) (sb_dims build) rs fs (seal_rows build), pf, fb);
}.

Lemma factor_stride_u16 scheme dims factors rows rs fs fb :
  encode_factors scheme dims factors rows = Ok (rs, fs, fb) → is_u16 fs.
Proof using.
  intros Hfac. unfold encode_factors in Hfac. destruct factors; destruct (negb _); try done.
  - ok_inv Hfac x Hx. by injection Hfac as _ <- _.
  - destruct (negb _); [done|]. by injection Hfac as _ <- _.
  - destruct (negb _); [done|]. by injection Hfac as _ <- _.
Qed.

Lemma sealed_payloads : rescore_f32 address r = Ok (sb_rescore build) ∧ ∃ rs fs fb pc pf, coded_payloads rs fs fb pc pf.
Proof using Hr Hb Hrows Himage Haddress.
  destruct (sl_vectors _ _ _ _ _ _ _ _ _ Hr) as (vectors & Hv & Hf).
  apply vector_regions_inv in Hv as (Hs & rs & fs & fb & Hfac & Hcodes & Hresc & Hrs & Hst & ->).
  apply Forall_cons in Hf as [Hfa Hf]. apply Forall_cons in Hf as [Hco Hf]. apply Forall_cons in Hf as [Hre _].
  cbn [rb_kind rb_bytes] in *. split; [by apply sealed_rescore|]. destruct sealed_fields as (Ed & En & Es & Hm).
  pose proof (sealed_header_ok (sb_scheme build) rs fs Hs ltac:(done) (factor_stride_u16 _ _ _ _ _ _ _ Hfac)) as Hh.
  destruct (payload_reads address r _ _ _ Hco Hm Hh) as (ec & Hec & Hpc); [done|done|by right|].
  destruct (payload_reads address r _ _ _ Hfa Hm Hh) as (ef & Hef & Hpf); [done|done|by right|].
  exists rs, fs, fb. do 2 eexists. split; [done|done|done|lia| |exact Hpc|exact Hpf].
  split; [by apply payload_aligned in Hec|by apply payload_aligned in Hef].
Qed.

Lemma sealed_f32 rs fs fb pc pf :
  coded_payloads rs fs fb pc pf → sb_factors build = FactorsF32 →
  f32_codes address r = Ok (map from_le (chunks_exact 4 (sb_codes build))).
Proof using Hr Hb Hrows Himage.
  intros [Hfac Hcodes Hrs Hd4 [Hac _] Hpc _] Hf. destruct sealed_fields as (Ed & En & Es & _).
  destruct (sealed_products Hd4) as (_ & P0 & P4). unfold encode_factors in Hfac. rewrite Hf in Hfac.
  destruct (Z.eqb_spec (sb_scheme build) 0) as [E0|]; [|done]. cbn [negb] in Hfac. ok_inv Hfac x Hx.
  apply checked_mul_Some in Hx as [-> _]. injection Hfac as <- <- <-.
  unfold f32_codes. rewrite Hpc, bind_Ok. unfold f32_codes_from. rewrite Es, E0, Ed, En. cbn [Z.eqb negb].
  assert (len (sb_codes build) = sb_dims build * seal_rows build * 4) as Hl by (rewrite Hcodes; ring).
  rewrite (checked_mul_fits _ (sb_dims build) (seal_rows build)) by lia. cbn [ok_or]. rewrite bind_Ok.
  rewrite (checked_mul_fits _ (sb_dims build * seal_rows build) 4) by lia. cbn [ok_or]. rewrite bind_Ok.
  rewrite checked_mul_fits by (unfold usize_max, u64_max, u32_max in *; lia). cbn [ok_or]. rewrite bind_Ok.
  cbn [vh_row_stride_bytes vector_header]. rewrite Hl, !Z.eqb_refl. cbn [negb orb].
  apply (cast_slice_raw plain_f32); [done|done|done].
Qed.

Lemma sealed_bit4 rs fs fb pc pf factors :
  coded_payloads rs fs fb pc pf → sb_factors build = FactorsBit4 factors →
  bit4_codes address r = Ok (sb_codes build) ∧ bit4_factors address r = Ok factors.
Proof using Hr Hb Hrows Himage.
  intros [Hfac Hcodes Hrs Hd4 [_ Haf] Hpc Hpf] Hf. destruct sealed_fields as (Ed & En & Es & _).
  destruct (sealed_products Hd4) as (P12 & _ & _). pose proof (br_factors _ Hb) as Hrange. rewrite Hf in Hrange.
  unfold encode_factors in Hfac. rewrite Hf in Hfac.
  destruct (Z.eqb_spec (sb_scheme build) 4) as [E0|]; [|done]. cbn [negb] in Hfac.
  destruct (Z.eqb_spec (len factors) (seal_rows build)) as [El|]; [|done]. cbn [negb] in Hfac. injection Hfac as <- <- <-.
  split.
  - unfold bit4_codes. rewrite Hpc, bind_Ok. unfold bit4_codes_from. rewrite Es, E0, Ed, En. cbn [Z.eqb Pos.eqb negb].
    unfold checked_mul. rewrite (proj2 (Z.leb_le _ _)); cycle 1.
    { destruct Hrows as [Hn0 Hn1]. unfold usize_max, u64_max, u32_max in *.
      assert (div_up (sb_dims build) 2 * seal_rows build ≤ 4294967295 * 4294967295) by (apply Z.mul_le_mono_nonneg; lia). lia. }
    cbn [ok_or]. rewrite bind_Ok. cbn [vh_row_stride_bytes vector_header]. by rewrite Hcodes, !Z.eqb_refl.
  - unfold bit4_factors. rewrite Hpf, bind_Ok. unfold bit4_factors_from. rewrite Es, E0, En. cbn [Z.eqb Pos.eqb negb].
    cbn [vh_factor_stride_bytes vector_header Z.eqb Pos.eqb negb]. rewrite <- El.
    apply cast_slice_concat; [done|cbn; lia|done|]. eapply Forall_impl; [exact Hrange|]. apply bit4_record.
Qed.

Lemma sealed_int8 rs fs fb pc pf factors :
  coded_payloads rs fs fb pc pf → sb_factors build = FactorsInt8 factors →
  int8_codes address r = Ok (map from_le (chunks_exact 1 (sb_codes build))) ∧ int8_factors address r = Ok factors.
Proof using Hr Hb Hrows Himage.
  intros [Hfac Hcodes Hrs Hd4 [_ Haf] Hpc Hpf] Hf. destruct sealed_fields as (Ed & En & Es & _).
  destruct (sealed_products Hd4) as (P12 & P0 & P4). pose proof (br_factors _ Hb) as Hrange. rewrite Hf in Hrange.
  unfold encode_factors in Hfac. rewrite Hf in Hfac.
  destruct (Z.eqb_spec (sb_scheme build) 2) as [E0|]; [|done]. cbn [negb] in Hfac.
  destruct (Z.eqb_spec (len factors) (seal_rows build)) as [El|]; [|done]. cbn [negb] in Hfac. injection Hfac as <- <- <-.
  split.
  - unfold int8_codes. rewrite Hpc, bind_Ok. unfold int8_codes_from. rewrite Es, E0, Ed, En. cbn [Z.eqb Pos.eqb negb].
    unfold checked_mul. rewrite (proj2 (Z.leb_le _ _)) by lia. cbn [ok_or]. rewrite bind_Ok.
    cbn [vh_row_stride_bytes vector_header]. rewrite Hcodes, !Z.eqb_refl. cbn [negb orb].
    apply (cast_slice_raw plain_i8); [cbn; lia|cbn; lia|]. apply Z.mod_1_r.
  - unfold int8_factors. rewrite Hpf, bind_Ok. unfold int8_factors_from. rewrite Es, E0, En. cbn [Z.eqb Pos.eqb negb].
    cbn [vh_factor_stride_bytes vector_header Z.eqb Pos.eqb negb]. rewrite <- El.
    apply (cast_slice_concat plain_int8_factors (λ f, u32_le (i8_scale f) ++ u32_le (i8_offset f)));
      [done|cbn; lia|done|]. eapply Forall_impl; [exact Hrange|]. apply int8_record.
Qed.

Lemma sealed_vectors : vectors_read address build r.
Proof using Hr Hb Hrows Himage Haddress.
  destruct sealed_payloads as [Hre (rs & fs & fb & pc & pf & Hp)]. split; [done|].
  destruct (sb_factors build) eqn:Ef; [by eapply sealed_f32|by eapply sealed_bit4|by eapply sealed_int8].
Qed.

(** *** Columns and live rows *)

Definition in_collection (collection : option Schema) (r : SegmentReader) : SegmentReader :=
  match collection with None => r | Some schema => with_collection_schema r schema end.

Lemma sealed_columns schema collection attempts :
  schema_ok schema → schema_encodes schema → collection_ok schema collection → Forall row_in_range attempts →
  finish (push_rows attempts (builder_new (B:=B) schema)).1 = Ok (sb_columns build) →
  ∃ s, reader_columns (in_collection collection r) = Ok s
       ∧ columns_restored schema collection (push_rows attempts (builder_new (B:=B) schema)).2 s.
Proof using Hr Himage RL.
  intros Hs Hse Hc Ha Hfin. pose proof (columns_region_restores schema collection attempts Hs Hse Hc Ha) as H.
  destruct (push_rows attempts _) as [b accepted]. cbn [fst snd] in *.
  destruct H as (s & data & E1 & E2 & E3 & _ & H). assert (s = sb_columns build) as -> by congruence.
  destruct (sl_columns _ _ _ _ _ _ _ _ _ Hr) as (data' & E4 & Hreg). assert (data' = data) as -> by congruence.
  destruct sealed_fields as (_ & En & _ & Hm). pose proof (region_len r _ _ Hreg).
  destruct (H ltac:(lia)) as (s' & Hd & Hres). exists s'. split; [|done]. unfold reader_columns.
  assert (region (in_collection collection r) RegionColumns = Ok data) as -> by (by destruct collection).
  assert (sr_collection_schema (in_collection collection r) = collection) as ->.
  { destruct collection; [done|]. apply (sl_fresh _ _ _ _ _ _ _ _ _ Hr). }
  rewrite bind_Ok, Hd, bind_Ok. destruct Hres as (_ & Hcount & _).
  assert (sm_row_count (sr_meta (in_collection collection r)) = seal_rows build) as -> by (by destruct collection).
  rewrite Hcount. unfold seal_rows. by rewrite E3, Z.eqb_refl.
Qed.

Lemma sealed_alive : ∃ alive, reader_alive r = Ok alive ∧ same_alive alive (sb_alive build).
Proof using Hr Hb Hrows Himage RL.
  destruct (sl_alive _ _ _ _ _ _ _ _ _ Hr) as [Hn Hreg]. destruct sealed_fields as (_ & En & _ & _).
  destruct (alive_region_roundtrip (sb_alive build) (br_alive _ Hb)) as (alive & Hd & _ & Hsame).
  { rewrite Hn. apply Hrows. }
  exists alive. split; [|done]. unfold reader_alive. rewrite Hreg, bind_Ok, Hd, bind_Ok.
  destruct Hsame as [Hc _]. by rewrite Hc, Hn, En, Z.eqb_refl.
Qed.

(** *** Rows *)

Definition documents_read (documents : option SegmentDocumentVersions) (r : SegmentReader) : Prop :=
  match documents with
  | None => ∀ row, document_version row r = (r, Ok None)
  | Some d =>
      ∃ data, documents_ready data r
        ∧ ∀ (k : nat) v, versions_of d !! k = Some v → answers data r (document_version (Z.of_nat k)) (Some v)
  end.

Lemma sealed_documents :
  from_option documents_in_range True documents → documents_read documents r.
Proof using Hr Hrows Himage.
  intros Hd. pose proof (sl_documents _ _ _ _ _ _ _ _ _ Hr) as Ho.
  destruct sealed_fields as (_ & En & _ & _). pose proof (sl_fresh _ _ _ _ _ _ _ _ _ Hr) as (Hv & Hi & _).
  unfold documents_read, optional_read in *. clear Hr. rewrite <- En in Hrows, Ho. destruct documents as [d|].
  - destruct Ho as (data & He & Hreg). exists data.
    assert (documents_ready data r) as Hready by (by eapply documents_ready_fresh).
    split; [done|]. intros k v Hk. destruct (encode_document_versions_inv d _ data He) as (_ & Hl & _).
    rewrite <- (row_version_encoded d _ data k v He Hd ltac:(apply Hrows) Hk).
    apply version_answers; [done|]. apply lookup_lt_Some in Hk. unfold len in Hl. lia.
  - intros row. unfold document_version, with_documents, document_versions_region. by rewrite Ho.
Qed.

Definition metadata_read (metadata : option SegmentStoredMetadata) (r : SegmentReader) : Prop :=
  match metadata with
  | None => stored_metadata r = Ok None
  | Some m =>
      ∃ view, stored_metadata r = Ok (Some view) ∧ sv_row_count view = sm_row_count (sr_meta r)
        ∧ ∀ k : nat, Z.of_nat k < sv_row_count view →
            metadata_row view (Z.of_nat k) = stored_value (sx_end_offsets m) (sx_bytes m) k
  end.

Lemma sealed_metadata : metadata_read metadata r.
Proof using Hr Himage.
  pose proof (sl_metadata _ _ _ _ _ _ _ _ _ Hr) as Ho. unfold metadata_read, optional_read in *.
  destruct sealed_fields as (_ & En & _ & Hm). destruct metadata as [m|].
  - destruct Ho as (data & He & Hreg). pose proof (region_len r _ _ Hreg). rewrite <- En in He.
    destruct (stored_metadata_reads r m data Hreg He ltac:(lia)) as [E Hrow]. eexists. split_and!; [exact E| |].
    + apply encode_stored_metadata_inv in He as (Hl & _). exact Hl.
    + intros k Hk. apply Hrow. cbn in Hk. unfold len in Hk. lia.
  - unfold stored_metadata. by rewrite Ho.
Qed.

Definition text_read (text : option SegmentStoredText) (r : SegmentReader) : Prop :=
  match text with
  | None => stored_text r = Ok None
  | Some t =>
      ∃ view, stored_text r = Ok (Some view) ∧ tv_row_count view = sm_row_count (sr_meta r)
        ∧ ∀ k : nat, Z.of_nat k < tv_row_count view →
            text_row view (Z.of_nat k) = Some (text_value (st_present t) (st_end_offsets t) (st_bytes t) k)
  end.

Lemma sealed_text : text_read text r.
Proof using Hr Himage.
  pose proof (sl_text _ _ _ _ _ _ _ _ _ Hr) as Ho. unfold text_read, optional_read in *.
  destruct sealed_fields as (_ & En & _ & Hm). destruct text as [t|].
  - destruct Ho as (data & He & Hreg). pose proof (region_len r _ _ Hreg). rewrite <- En in He.
    destruct (stored_text_reads r t data Hreg He ltac:(lia)) as [E Hrow]. eexists. split_and!; [exact E| |].
    + apply encode_stored_text_inv in He as (_ & Hl & _). exact Hl.
    + intros k Hk. apply Hrow. cbn in Hk. unfold len in Hk. lia.
  - unfold stored_text. by rewrite Ho.
Qed.

Definition bytes_read (kind : RegionKind) (source : option bytes) (r : SegmentReader) : Prop :=
  match source with
  | None => find_entry r (region_id kind) = None
  | Some b => region r kind = Ok b
  end.

Lemma sealed_bytes : bytes_read RegionGraphNodeBlocks graph r ∧ bytes_read RegionPostings postings r.
Proof using Hr.
  pose proof (sl_graph _ _ _ _ _ _ _ _ _ Hr) as Hg. pose proof (sl_postings _ _ _ _ _ _ _ _ _ Hr) as Hp.
  unfold bytes_read, optional_read in *. split.
  - destruct graph; [|done]. destruct Hg as (data & E & ?). by injection E as ->.
  - destruct postings as [b|]; [|done]. destruct Hp as (data & E & ?). unfold check_postings in E.
    bind_inv E n Hn. destruct (negb _); [done|]. by injection E as ->.
Qed.
End Sealed.

Section ReadBack.
Context {X : Xxh3} {L : Xxh3Laws X} {B : Type} {R : Roaring B} {RL : RoaringLaws B}.

(** C14: A sealed segment reads back whole. Take any build the writer encodes:
    columns of rows the builder accepted, live rows, vectors of any scheme, and any
    of a graph, document versions, stored metadata, stored text and postings. The
    file opens, passes its checksums, and the reader returns what was built: the
    columns (in the segment's schema or in a collection schema that adds nullable
    columns), the live rows, every code, factor and exact vector, the version,
    metadata and text of every row (an absent text as absent), and the graph and
    postings bytes; a region that was not built is absent. *)
Theorem sealed_segment_reads_back (postings_rows : bytes → result SegmentError Z)
    (schema : Schema) (collection : option Schema) (attempts : list Row)
    (build : SegmentBuild B) (graph : option bytes) (documents : option SegmentDocumentVersions)
    (metadata : option SegmentStoredMetadata) (text : option SegmentStoredText) (postings : option bytes)
    (image : bytes) (artifact : string) (address : Z) :
  schema_ok schema → schema_encodes schema → collection_ok schema collection → Forall row_in_range attempts →
  finish (push_rows attempts (builder_new (B:=B) schema)).1 = Ok (sb_columns build) →
  build_in_range build → from_option documents_in_range True documents →
  encode_segment_inner postings_rows build graph documents metadata text postings [] = Ok image →
  len image + REGION_ALIGNMENT ≤ isize_max → address mod 4 = 0 →
  ∃ r, segment_open artifact image (sb_id build) = Ok r
    ∧ sr_meta r = {| sm_id := sb_id build; sm_row_count := cs_row_count (sb_columns build);
                     sm_scheme := sb_scheme build; sm_dims := sb_dims build; sm_file_size := len image;
                     sm_epoch_id := None; sm_clustering_key_range := Unstamped |}
    ∧ validate_all r = Ok tt ∧ gates_sound r
    ∧ (∃ s, reader_columns (in_collection collection r) = Ok s
            ∧ columns_restored schema collection (push_rows attempts (builder_new (B:=B) schema)).2 s)
    ∧ (∃ alive, reader_alive r = Ok alive ∧ same_alive alive (sb_alive build))
    ∧ vectors_read address build r
    ∧ documents_read documents r ∧ metadata_read metadata r ∧ text_read text r
    ∧ bytes_read RegionGraphNodeBlocks graph r ∧ bytes_read RegionPostings postings r.
Proof.
  intros Hs Hse Hc Ha Hfin Hb Hd He Hl Haddr.
  assert (is_u32 (seal_rows build)) as Hrows.
  { pose proof (columns_region_restores schema None attempts Hs Hse I Ha) as H. unfold seal_rows.
    destruct (push_rows attempts _) as [b accepted]. cbn [fst] in Hfin. destruct H as (s & ? & E1 & _ & E3 & E4 & _).
    assert (s = sb_columns build) as -> by congruence. rewrite E3. pose proof (len_nonneg accepted). split; lia. }
  destruct (sealed_reader_opens postings_rows build graph documents metadata text postings image He
    (br_id _ Hb) Hrows (br_dims _ Hb) Hl) as (r & Hr).
  assert (len image ≤ isize_max) as Hi by (unfold REGION_ALIGNMENT in Hl; lia).
  exists r. split_and!.
  - apply Hr.
  - apply Hr.
  - apply Hr.
  - destruct (sl_gates _ _ _ _ _ _ _ _ _ Hr) as [words Hg]. by eapply gates_sound_closed.
  - by eapply sealed_columns.
  - by eapply sealed_alive.
  - by eapply sealed_vectors.
  - by eapply sealed_documents.
  - by eapply sealed_metadata.
  - by eapply sealed_text.
  - by eapply (sealed_bytes postings_rows).
  - by eapply (sealed_bytes postings_rows).
Qed.
End ReadBack.

(** ** A segment of two rows *)

Module SampleSeal.
Import ToyXxh3.

Definition columns : ColumnStore (gset Z) :=
  match finish (push_rows SampleColumns.attempts (builder_new (B:=gset Z) SampleColumns.schema)).1 with
  | Ok s => s
  | Err _ => {| cs_schema := SampleColumns.schema; cs_row_count := 0; cs_columns := [] |}
  end.

Definition build : SegmentBuild (gset Z) :=
  {| sb_id := replicate 16 Byte.x07; sb_scheme := 0; sb_dims := 1;
     sb_codes := u32_le 5 ++ u32_le 6; sb_factors := FactorsF32; sb_rescore := [5; 6];
     sb_columns := columns; sb_alive := alive_new 2 |}.

Definition documents : SegmentDocumentVersions := {| sd_doc_ids := [9; 9]; sd_revisions := [1; 2] |}.
(** The second row has no text. *)
Definition text : SegmentStoredText :=
  {| st_present := [Byte.x01; Byte.x00]; st_end_offsets := [2; 2]; st_bytes := [Byte.x68; Byte.x69] |}.

Definition encoded : result SegmentError bytes :=
  encode_segment_inner (λ _, Err SegmentPostings) build None (Some documents) None (Some text) None [].

(** The bytes of the regions. *)
Definition bytes_of (r : result SegmentError bytes) : bytes := match r with Ok b => b | Err _ => [] end.
Definition vectors : list RegionBytes :=
  match vector_regions build with Ok l => l | Err _ => [] end.
Definition regions : list RegionBytes :=
  sealed_regions build (bytes_of (encode_columns columns)) vectors None
    (Some (bytes_of (encode_document_versions documents 2))) None
    (Some (bytes_of (encode_stored_text text 2))) None.

Lemma regions_ok : image_ok (replicate 16 Byte.x07) 2 0 1 regions [].
Proof.
  split; try by vm_compute.
  - apply (bool_decide_unpack _). by vm_compute.
  - repeat constructor; by vm_compute.
  - intros a off. repeat constructor; by vm_compute.
Qed.

Lemma encoded_image : encoded = Ok (segment_image (replicate 16 Byte.x07) 2 0 1 regions []).
Proof.
  unfold encoded. rewrite <- (encode_regions_image _ _ _ _ _ _ regions_ok).
  apply encode_segment_inner_parts; try by vm_compute.
  - eexists. split; [|reflexivity]. by vm_compute.
  - eexists. split; [|reflexivity]. by vm_compute.
Qed.

Lemma columns_built :
  finish (push_rows SampleColumns.attempts (builder_new (B:=gset Z) SampleColumns.schema)).1 = Ok columns.
Proof. reflexivity. Qed.

Lemma build_ranges : build_in_range build.
Proof. split; [done|done|by repeat constructor|done|by apply alive_new_ok]. Qed.

Lemma encoded_small image : encoded = Ok image → len image + REGION_ALIGNMENT ≤ isize_max.
Proof.
  rewrite encoded_image. intros E. assert (segment_image (replicate 16 Byte.x07) 2 0 1 regions [] = image) as <- by congruence.
  rewrite (len_segment_image _ _ _ _ _ _ regions_ok). apply regions_ok.
Qed.

Lemma encoded_ok : ∃ image, encoded = Ok image ∧ len image + REGION_ALIGNMENT ≤ isize_max.
Proof. eexists. split; [exact encoded_image|]. exact (encoded_small _ encoded_image). Qed.

Lemma documents_ok : from_option documents_in_range True (Some documents).
Proof. split; by repeat constructor. Qed.
End SampleSeal.

Lemma sealed_segment_reads_back_witness :
  ∃ image r view, SampleSeal.encoded = Ok image
    ∧ segment_open (X:=ToyXxh3.toy) "s" image (sb_id SampleSeal.build) = Ok r
    ∧ rescore_f32 (X:=ToyXxh3.toy) 0 r = Ok [5; 6]
    ∧ stored_text (X:=ToyXxh3.toy) r = Ok (Some view)
    ∧ text_row view 0 = Some (Some [Byte.x68; Byte.x69]).
Proof.
  destruct SampleSeal.encoded_ok as (image & E & Hs).
  destruct (sealed_segment_reads_back (X:=ToyXxh3.toy) (L:=ToyXxh3.toy_laws) (B:=gset Z) (λ _, Err SegmentPostings)
    SampleColumns.schema None SampleColumns.attempts SampleSeal.build None (Some SampleSeal.documents) None
    (Some SampleSeal.text) None image "s" 0 SampleColumns.schema_is_ok SampleRegion.schema_fits I
    SampleRegion.attempts_range SampleSeal.columns_built SampleSeal.build_ranges
    SampleSeal.documents_ok E Hs eq_refl)
    as (r & Ho & Hmeta & _ & _ & _ & _ & [Hre _] & _ & _ & (view & Hv & Hn & Hrow) & _).
  exists image, r, view. split_and!; [exact E|exact Ho|exact Hre|exact Hv|].
  etransitivity; [apply (Hrow 0%nat)|reflexivity]. rewrite Hn, Hmeta. reflexivity.
Defined.

(** * Publishing a segment

    [publish_segment] under injected I/O faults and crashes: the name of the
    segment never shows part of a file, and a published segment opens. *)

Lemma temporary_is_not_final id : segment_temporary id ≠ segment_file_name id.
Proof. unfold segment_temporary, segment_file_name. by intros [=]. Qed.

(** What the segment's name can read as after a crash. *)
Abbreviation publish_inv id := (replace_inv (segment_temporary id) (segment_file_name id)).

Section Publish.
Context {B : Type}.

Lemma publish_segment_inv C fs (build : SegmentBuild B) policy b fs' r :
  publish_inv (sb_id build) C fs → data_file_sync policy ≠ SyncSkip →
  publish_segment build policy b fs = (fs', r) →
  publish_inv (sb_id build) (Some b :: C) fs'
  ∧ (∀ meta, r = Ok meta →
       meta = {| sm_id := sb_id build; sm_row_count := cs_row_count (sb_columns build);
                 sm_scheme := sb_scheme build; sm_dims := sb_dims build; sm_file_size := len b;
                 sm_epoch_id := None; sm_clustering_key_range := Unstamped |}
       ∧ v_read (segment_file_name (sb_id build)) fs' = Ok b
       ∧ (directory_sync policy = SyncWith Full → publish_inv (sb_id build) [Some b] fs')).
Proof.
  intros Hi Hd H. unfold publish_segment in H. pose proof (temporary_is_not_final (sb_id build)) as Hne.
  set (temp := segment_temporary (sb_id build)) in *. set (final := segment_file_name (sb_id build)) in *.
  assert (∀ fs1, replace_inv temp final C fs1 → replace_inv temp final (Some b :: C) fs1) as Hw.
  { intros fs1 H1. eapply replace_inv_weaken; [exact H1|]. intros c Hc. by right. }
  destruct (v_write temp b fs) as [fs1 r1] eqn:E1. cbn in E1.
  destruct (replace_inv_write temp final Hne C b fs fs1 r1 Hi E1) as [Hi1 Hput].
  destruct r1 as [[]|k]; [|injection H as <- <-; by split; [apply Hw|]]. specialize (Hput eq_refl).
  rewrite (temp_reads temp b false fs1 Hput), bool_decide_true in H by done. cbn [negb] in H.
  destruct (data_file_sync policy) as [|kind]; [done|]. cbn [sync_if] in H.
  destruct (v_sync (File temp) kind fs1) as [fs2 r2] eqn:E2.
  destruct (replace_inv_sync_temp temp final C fs1 kind fs2 r2 Hi1 E2) as [Hi2 Hready].
  destruct r2 as [[]|k]; [|injection H as <- <-; by split; [apply Hw|]].
  specialize (Hready eq_refl b false Hput). destruct (v_rename temp final fs2) as [fs3 r3] eqn:E3.
  destruct r3 as [[]|k].
  2:{ injection H as <- <-. split; [|done]. by eapply replace_inv_rename. }
  destruct (sync_if (directory_sync policy) Directory fs3) as [fs4 r4] eqn:E4.
  destruct (replace_finish temp final Hne C b fs2 fs3 _ fs4 r4 Hi2 Hready E3 E4) as [Hi4 Hfin].
  destruct r4 as [[]|k]; injection H as <- <-; [|by split]. split; [done|].
  intros meta [= <-]. destruct (Hfin eq_refl). by split_and!.
Qed.
End Publish.

Section Atomic.
Context {X : Xxh3} {L : Xxh3Laws X} {B : Type} {R : Roaring B} {RL : RoaringLaws B}.
Context (postings_rows : bytes → result SegmentError Z).

(** C20: Publishing a segment is crash-atomic under injected I/O faults. When the
    policy orders the data file before the rename (a barrier or a full sync), after
    any crash the segment's name reads as it did before or as the complete encoding.
    Once a write has returned success under full syncs of file and directory, it is
    durable: every crash leaves a file that opens under its id, with the metadata
    the writer returned (the file size included), and passes all its checksums. A
    barrier promises no durability. *)
Theorem publish_segment_atomic (old : list (option bytes)) (fs fs' fs'' : Fs) (build : SegmentBuild B)
    (payloads : SegmentPayloads) (policy : DurabilityPolicy) (res : result SegmentError SegmentMeta) :
  let encoded := encode_segment_inner postings_rows build None (Some (pl_documents payloads))
                   (pl_metadata payloads) (pl_text payloads) (pl_postings payloads) [] in
  build_in_range build → is_u32 (cs_row_count (sb_columns build)) →
  (∀ image, encoded = Ok image → len image + REGION_ALIGNMENT ≤ isize_max) →
  publish_inv (sb_id build) old fs → data_file_sync policy ≠ SyncSkip →
  write_segment_with_documents_payloads postings_rows build payloads policy fs = (fs', res) → crashed fs' fs'' →
  (∃ c, (c ∈ old ∨ ∃ image, encoded = Ok image ∧ c = Some image)
        ∧ v_read (segment_file_name (sb_id build)) fs'' = ok_or c NotFound)
  ∧ (∀ meta, res = Ok meta → full_sync policy →
       ∃ image r, v_read (segment_file_name (sb_id build)) fs'' = Ok image
         ∧ segment_open (segment_file_name (sb_id build)) image (sb_id build) = Ok r
         ∧ sr_meta r = meta ∧ validate_all r = Ok tt).
Proof using L RL.
  intros encoded Hb Hrows Hsize Hi Hd Hw Hcr. unfold write_segment_with_documents_payloads, publish_encoded in Hw.
  fold encoded in Hw. destruct encoded as [image|e] eqn:Ee; cycle 1.
  { injection Hw as <- <-. split; [|done]. destruct (read_after_crash _ _ _ _ _ Hi Hcr) as (c & Hc & Hr).
    exists c. split; [by left|done]. }
  destruct (publish_segment_inv old fs build policy image fs' res Hi Hd Hw) as [Hi' Hok]. split.
  - destruct (read_after_crash _ _ _ _ _ Hi' Hcr) as (c & Hc & Hr). exists c. split; [|done].
    apply elem_of_cons in Hc as [->|Hc]; [right; by exists image|by left].
  - intros meta Hres [_ Hds]. destruct (Hok meta Hres) as (Hm & _ & Hfin). specialize (Hfin Hds).
    destruct (read_after_crash _ _ _ _ _ Hfin Hcr) as (c & ->%list_elem_of_singleton & Hr).
    destruct (sealed_reader_opens _ _ _ _ _ _ _ _ Ee (br_id _ Hb) Hrows (br_dims _ Hb) (Hsize image eq_refl)) as [r Hsr].
    exists image, r. split_and!; [done|apply Hsr|by rewrite Hm; apply Hsr|apply Hsr].
Qed.
End Atomic.

(** ** Publishing the sample into an empty directory *)

Module SamplePublish.
Definition payloads : SegmentPayloads :=
  {| pl_documents := SampleSeal.documents; pl_metadata := None; pl_text := Some SampleSeal.text; pl_postings := None |}.

Lemma nothing_published id : publish_inv id [None] SampleStore.empty.
Proof.
  split; cbn.
  - left.
  - intros d ->%list_elem_of_singleton. rewrite lookup_empty. left.
  - intros i d Hi. by rewrite lookup_empty in Hi.
  - intros d p i ->%list_elem_of_singleton Hi. by rewrite lookup_empty in Hi.
  - constructor.
Qed.

Definition published : Fs * result SegmentError SegmentMeta :=
  write_segment_with_documents_payloads (X:=ToyXxh3.toy) (λ _, Err SegmentPostings) SampleSeal.build payloads
    SampleStore.policy SampleStore.empty.

(** With no faults, any image is published. *)
Lemma publish_ok image : is_ok (publish_segment SampleSeal.build SampleStore.policy image SampleStore.empty).2 = true.
Proof.
  unfold publish_segment. set (temp := segment_temporary _). set (final := segment_file_name _).
  destruct (v_write temp image SampleStore.empty) as [fs1 r1] eqn:E1. assert (r1 = Ok tt) as -> by (injection E1 as _ <-; done).
  destruct (replace_inv_write temp final (temporary_is_not_final _) [None] image _ fs1 _ (nothing_published _) E1) as [_ Hput].
  rewrite (temp_reads temp image false fs1 (Hput eq_refl)), bool_decide_true by done. cbn [negb].
  injection E1 as <-. reflexivity.
Qed.

Lemma published_ok : is_ok published.2 = true.
Proof.
  destruct SampleSeal.encoded_ok as (image & E & _). unfold published, write_segment_with_documents_payloads, publish_encoded.
  change (encode_segment_inner _ _ _ _ _ _ _ _) with SampleSeal.encoded. rewrite E. apply publish_ok.
Qed.

Lemma published_crashed : crashed published.1 published.1.
Proof.
  apply crashed_now. unfold published, write_segment_with_documents_payloads, publish_encoded.
  destruct (encode_segment_inner _ _ _ _ _ _ _ _) as [image|e]; [|by left].
  destruct (publish_segment SampleSeal.build SampleStore.policy image SampleStore.empty) as [fs' r] eqn:E.
  destruct (publish_segment_inv [None] SampleStore.empty SampleSeal.build SampleStore.policy image fs' r
    (nothing_published _) ltac:(discriminate) E) as [Hi _]. exact (ri_current _ _ _ _ Hi).
Qed.

End SamplePublish.

Lemma publish_segment_atomic_witness :
  ∃ meta image r, SamplePublish.published.2 = Ok meta
    ∧ v_read (segment_file_name (sb_id SampleSeal.build)) SamplePublish.published.1 = Ok image
    ∧ segment_open (X:=ToyXxh3.toy) (segment_file_name (sb_id SampleSeal.build)) image (sb_id SampleSeal.build) = Ok r
    ∧ sr_meta r = meta.
Proof.
  pose proof SamplePublish.published_ok as Hok. destruct (SamplePublish.published.2) as [meta|] eqn:E; [|discriminate Hok].
  destruct (publish_segment_atomic (X:=ToyXxh3.toy) (L:=ToyXxh3.toy_laws) (B:=gset Z) (λ _, Err SegmentPostings) [None]
    SampleStore.empty SamplePublish.published.1 SamplePublish.published.1 SampleSeal.build SamplePublish.payloads
    SampleStore.policy SamplePublish.published.2 SampleSeal.build_ranges ltac:(split; by vm_compute) SampleSeal.encoded_small
    (SamplePublish.nothing_published _) ltac:(discriminate) (surjective_pairing SamplePublish.published)
    SamplePublish.published_crashed) as [_ H].
  destruct (H meta E (conj eq_refl eq_refl)) as (image & r & H1 & H2 & H3 & _).
  exists meta, image, r. split_and!; [reflexivity|exact H1|exact H2|exact H3].
Defined.
