(* ===== verification/StoreErrors.v ===== *)
(** * Store and ingest errors

    The variants of [StoreError] (lifecycle/mod.rs), [IngestError]
    (ingest/mod.rs) and [QuantError] (quant.rs) that the modelled parts of ingest,
    recovery and maintenance return. *)

From S2P Require Import Prelude WalReplay WalWriter Schema Epoch Manifest Columns IngestPayload SegmentLayout.

Inductive QuantError : Type :=
| QuantEmptyVector
| QuantDimensionTooLarge (actual maximum : Z)
| QuantNonFinite (index : Z)
| QuantNonUnitNorm (squared_norm_bits tolerance_bits : Z)
| QuantOutputLength (expected actual : Z).

(** [EpochMismatch] of epoch.rs. *)
Record EpochMismatch : Type := {
  em_expected : EpochIdentity;
  em_declared : EpochIdentity;
}.

Inductive StoreError : Type :=
| StoreIo (path : string) (kind : ErrorKind)
| StoreSynchronization (component : string)
| StoreWalRecord (seq : Z) (source : VisibleRecordError)
| StoreWalMutation (seq op : Z) (source : PayloadError)
(** [WalMutation] with source [PayloadError::Columns], before its text is rendered. *)
| StoreWalColumns (seq op : Z) (source : BuildError)
| StoreWal (error : WalReadError)
| StoreWalRecovery (error : WalRecoveryError)
| StoreWalRevisionOrder (seq : Z) (doc_id : DocId) (current attempted : Revision)
| StoreUnsupportedWalMutation (seq op : Z)
| StoreWalVector (seq : Z) (source : QuantError)
| StoreWalWrite (error : WalWriteError)
| StoreWalRetire (error : WalRetireError)
| StoreManifest (error : ManifestError)
| StoreSegment (error : SegmentError)
| StoreStatistics (component : string)
| StoreSealCancelled
| StorePartitionBytesOverflow
| StoreSnapshotViewsOpen
| StoreEpochMismatch (error : EpochMismatch)
| StoreEpochUndeclared
| StoreEpochUnstamped
| StoreAllocationFailed (needed : Z) (component : string)
| StoreDimensionMismatch (expected actual : Z)
| StoreActiveRowOverflow
| StoreGenerationOverflow
| StoreConcurrentActiveMutation (expected_generation actual_generation : Z)
| StoreReadOnly
| StoreClosing
| StoreClosed.

Inductive IngestError : Type :=
| IngestStore (error : StoreError)
| IngestEmptyBatch
| IngestEpochMismatch (error : EpochMismatch)
| IngestEpochUndeclared
| IngestEpochUnstamped
| IngestStaleRevision (doc_id : DocId) (current attempted : Revision)
| IngestRevisionConflict (index : Z) (doc_id : DocId) (expected : ExpectedRevision)
    (current : option Revision)
| IngestVector (error : QuantError)
| IngestColumns (error : BuildError)
| IngestErrorPayload (error : PayloadError).
