(* ===== verification/Accounted.v ===== *)
(** * Accounted buffers and row bytes

    Models [Accounted<Vec<T>>] of [crates/zeppelin-embed/src/lifecycle/stats.rs]
    (a vector that may not grow past the element count reserved for it) and the
    end-offset encoding of variable-length rows of
    [crates/zeppelin-embed/src/ingest/active.rs] ([row_bytes],
    [replace_row_bytes]).  The memory budget a reservation is charged to is not
    modelled: reserving succeeds. *)

From S2P Require Import Prelude WalReplay Schema Epoch Columns IngestPayload StoreErrors.

(** ** Buffers *)

(** [bf_limit] is the smaller of the reserved element count and the capacity of
    the vector; an unaccounted empty vector has capacity zero. *)
Record Buffer (A : Type) : Type := {
  bf_data : list A;
  bf_limit : Z;
}.
Arguments bf_data {A} _.
Arguments bf_limit {A} _.

Definition unaccounted_empty {A} : Buffer A := {| bf_data := []; bf_limit := 0 |}.

Definition try_with_capacity {A} (capacity : Z) : Buffer A :=
  {| bf_data := []; bf_limit := capacity |}.

Definition set_data {A} (data : list A) (b : Buffer A) : Buffer A :=
  {| bf_data := data; bf_limit := bf_limit b |}.

Definition capacity_failed (needed : Z) : StoreError :=
  StoreAllocationFailed needed "accounted vector capacity".

Definition buffer_push {A} (value : A) (b : Buffer A) : result StoreError (Buffer A) :=
  if bf_limit b <=? len (bf_data b)
  then Err (capacity_failed (saturating_add usize_max (len (bf_data b)) 1))
  else Ok (set_data (bf_data b ++ [value]) b).

Definition extend_from_slice {A} (values : list A) (b : Buffer A) : result StoreError (Buffer A) :=
  new_len ← ok_or (checked_add usize_max (len (bf_data b)) (len values)) (capacity_failed u64_max);
  if bf_limit b <? new_len then Err (capacity_failed new_len)
  else Ok (set_data (bf_data b ++ values) b).

Definition replace_range {A} (start end_ : Z) (replacement : list A) (b : Buffer A)
    : result StoreError (Buffer A) :=
  let old_len := len (bf_data b) in
  if (end_ <? start) || (old_len <? end_) then Err StoreActiveRowOverflow
  else
  let removed := saturating_sub end_ start in
  new_len ← ok_or (length ← checked_sub old_len removed;
                   checked_add usize_max length (len replacement)) StoreActiveRowOverflow;
  if bf_limit b <? new_len then Err (capacity_failed new_len)
  else
  _ ← ok_or (checked_add usize_max start (len replacement)) StoreActiveRowOverflow;
  Ok (set_data (take (Z.to_nat start) (bf_data b) ++ replacement
                ++ drop (Z.to_nat end_) (bf_data b)) b).

(** [as_mut_slice().get_mut(row)], assigned. *)
Definition set_at {A} (row : nat) (value : A) (b : Buffer A) : result StoreError (Buffer A) :=
  if (row <? length (bf_data b))%nat then Ok (set_data (<[row := value]> (bf_data b)) b)
  else Err StoreActiveRowOverflow.

Definition copy_accounted {A} (source : list A) (capacity : Z) : result StoreError (Buffer A) :=
  extend_from_slice source (try_with_capacity capacity).

(** ** Rows of bytes *)

Record RowBuffers : Type := {
  rb_offsets : Buffer Z;
  rb_bytes : Buffer byte;
}.

(** The start of row [row]: the end of the row before it. *)
Definition row_start (offsets : list Z) (row : nat) : option Z :=
  match row with
  | O => Some 0
  | S previous => offset ← offsets !! previous; try_from usize_max offset
  end.

Definition row_end (offsets : list Z) (row : nat) : option Z :=
  offset ← offsets !! row; try_from usize_max offset.

Definition row_bytes (offsets : list Z) (b : bytes) (row : nat) : option bytes :=
  end_ ← row_end offsets row;
  start ← row_start offsets row;
  slice_range b start end_.

(** The loop over the offsets from [row] on. *)
Definition shift_offset (grows : bool) (difference offset : Z) : result StoreError Z :=
  ok_or (if grows then checked_add u64_max offset difference else checked_sub offset difference)
    StoreActiveRowOverflow.

Definition replace_row_bytes (row : nat) (replacement : bytes) (rb : RowBuffers)
    : result StoreError RowBuffers :=
  let offsets := bf_data (rb_offsets rb) in
  end_ ← ok_or (row_end offsets row) StoreActiveRowOverflow;
  start ← ok_or (row_start offsets row) StoreActiveRowOverflow;
  current_len ← ok_or (checked_sub end_ start) StoreActiveRowOverflow;
  replaced ← replace_range start end_ replacement (rb_bytes rb);
  let grows := current_len <=? len replacement in
  difference ← ok_or (try_from u64_max (Z.abs (len replacement - current_len)))
                 StoreActiveRowOverflow;
  following ← ok_or (slice_from offsets (Z.of_nat row)) StoreActiveRowOverflow;
  shifted ← mapM (shift_offset grows difference) following;
  Ok {| rb_offsets := set_data (take row offsets ++ shifted) (rb_offsets rb);
        rb_bytes := replaced |}.

(** Appending a row: its bytes, then the new end offset. *)
Definition append_row_bytes (row : bytes) (rb : RowBuffers) : result StoreError RowBuffers :=
  extended ← extend_from_slice row (rb_bytes rb);
  offset ← ok_or (try_from u64_max (len (bf_data extended))) StoreActiveRowOverflow;
  offsets ← buffer_push offset (rb_offsets rb);
  Ok {| rb_offsets := offsets; rb_bytes := extended |}.

(** ** Buffer lemmas *)

Section Buffers.
Context {A : Type}.
Implicit Types (b : Buffer A) (l : list A).

(** What a successful operation did, with the limit unchanged. *)
Definition becomes b' b l : Prop := bf_data b' = l ∧ bf_limit b' = bf_limit b.

Lemma push_inv v b b' : buffer_push v b = Ok b' → becomes b' b (bf_data b ++ [v]).
Proof. unfold buffer_push. destruct (_ <=? _); [done|]. by intros [= <-]. Qed.

Lemma push_total v b : len (bf_data b) < bf_limit b → is_ok (buffer_push v b) = true.
Proof. intros H. unfold buffer_push. by rewrite (proj2 (Z.leb_gt _ _)). Qed.

Lemma extend_inv l b b' : extend_from_slice l b = Ok b' → becomes b' b (bf_data b ++ l).
Proof.
  unfold extend_from_slice. intros H. apply bind_Ok_inv in H as (n & _ & H).
  destruct (_ <? _); [done|]. by injection H as <-.
Qed.

Lemma extend_total l b :
  len (bf_data b) + len l ≤ bf_limit b → bf_limit b ≤ usize_max →
  is_ok (extend_from_slice l b) = true.
Proof.
  intros H Hm. unfold extend_from_slice, checked_add.
  rewrite (proj2 (Z.leb_le _ _)) by lia. cbn. by rewrite (proj2 (Z.ltb_ge _ _)) by lia.
Qed.

Lemma copy_inv l capacity b :
  copy_accounted l capacity = Ok b → bf_data b = l ∧ bf_limit b = capacity.
Proof. intros H. by apply extend_inv in H. Qed.

Lemma copy_total l capacity :
  len l ≤ capacity → capacity ≤ usize_max → is_ok (copy_accounted l capacity) = true.
Proof. intros H Hm. apply extend_total; cbn; [|done]. change (len (@nil A)) with 0. lia. Qed.

Lemma set_at_inv row v b b' :
  set_at row v b = Ok b' → becomes b' b (<[row := v]> (bf_data b)) ∧ (row < length (bf_data b))%nat.
Proof.
  unfold set_at. destruct (Nat.ltb_spec row (length (bf_data b))); [|done]. by intros [= <-].
Qed.

Lemma set_at_total row v b : (row < length (bf_data b))%nat → is_ok (set_at row v b) = true.
Proof. intros H. unfold set_at. by rewrite (proj2 (Nat.ltb_lt _ _)). Qed.

Lemma replace_range_inv start end_ l b b' :
  replace_range start end_ l b = Ok b' →
  becomes b' b (take (Z.to_nat start) (bf_data b) ++ l ++ drop (Z.to_nat end_) (bf_data b)).
Proof.
  unfold replace_range. destruct (_ || _); [done|]. intros H.
  apply bind_Ok_inv in H as (n & _ & H). destruct (_ <? _); [done|].
  apply bind_Ok_inv in H as (m & _ & H). by injection H as <-.
Qed.

Lemma replace_range_total start end_ l b :
  0 ≤ start ≤ end_ → end_ ≤ len (bf_data b) →
  len (bf_data b) - (end_ - start) + len l ≤ bf_limit b → bf_limit b ≤ usize_max →
  is_ok (replace_range start end_ l b) = true.
Proof.
  intros Hs He Hl Hm. unfold replace_range.
  rewrite (proj2 (Z.ltb_ge end_ start)), (proj2 (Z.ltb_ge _ end_)) by lia. cbn [orb].
  unfold saturating_sub, checked_sub, checked_add. rewrite Z.max_r by lia.
  rewrite (proj2 (Z.leb_le _ (len (bf_data b)))) by lia. cbn.
  rewrite !(proj2 (Z.leb_le _ usize_max)) by lia. cbn.
  rewrite (proj2 (Z.ltb_ge _ _)) by lia. done.
Qed.
End Buffers.

(** ** Row bytes: specification *)

Fixpoint end_offsets (start : Z) (rows : list bytes) : list Z :=
  match rows with
  | [] => []
  | row :: rows => (start + len row) :: end_offsets (start + len row) rows
  end.

(** The buffers hold exactly the rows. *)
Record rows_hold (rows : list bytes) (rb : RowBuffers) : Prop := {
  rh_offsets : bf_data (rb_offsets rb) = end_offsets 0 rows;
  rh_bytes : bf_data (rb_bytes rb) = concat rows;
  rh_small : len (concat rows) ≤ usize_max;
}.

Lemma length_end_offsets rows : ∀ start, length (end_offsets start rows) = length rows.
Proof. induction rows as [|r rows IH]; intros start; cbn; [done|]. by rewrite IH. Qed.

Lemma end_offsets_app rows1 rows2 : ∀ start,
  end_offsets start (rows1 ++ rows2)
  = end_offsets start rows1 ++ end_offsets (start + len (concat rows1)) rows2.
Proof.
  induction rows1 as [|r rows1 IH]; intros start; cbn [app end_offsets concat].
  - by rewrite len_nil, Z.add_0_r.
  - by rewrite IH, len_app, Z.add_assoc.
Qed.

Lemma end_offsets_lookup rows : ∀ start i,
  (i < length rows)%nat →
  end_offsets start rows !! i = Some (start + len (concat (take (S i) rows))).
Proof.
  induction rows as [|r rows IH]; intros start i Hi; cbn in Hi; [lia|].
  cbn [take concat]. rewrite len_app. destruct i as [|i]; cbn [end_offsets].
  - change (take 0 rows) with (@nil bytes). cbn. rewrite len_nil. f_equal. lia.
  - change ((?x :: ?l) !! S i) with (l !! i). rewrite IH by lia. f_equal. lia.
Qed.

Lemma end_offsets_shift rows : ∀ start d,
  end_offsets (start + d) rows = map (λ o, o + d) (end_offsets start rows).
Proof.
  induction rows as [|r rows IH]; intros start d; cbn; [done|].
  replace (start + d + len r) with (start + len r + d) by lia. by rewrite IH.
Qed.

Lemma concat_take_le (rows : list bytes) i : len (concat (take i rows)) ≤ len (concat rows).
Proof.
  rewrite <- (take_drop i rows) at 2. rewrite concat_app, len_app.
  pose proof (len_nonneg (concat (drop i rows))). lia.
Qed.

(** Row [i] of the split [rows = take i rows ++ row :: drop (S i) rows]. *)
Lemma row_bounds rows rb i row :
  rows_hold rows rb → rows !! i = Some row →
  row_start (bf_data (rb_offsets rb)) i = Some (len (concat (take i rows)))
  ∧ row_end (bf_data (rb_offsets rb)) i = Some (len (concat (take i rows)) + len row).
Proof.
  intros [Ho Hb Hs] Hi. pose proof (lookup_lt_Some _ _ _ Hi) as Hlt.
  assert (len (concat (take (S i) rows)) = len (concat (take i rows)) + len row) as Hend.
  { rewrite (take_S_r _ _ _ Hi), concat_app, len_app. cbn. by rewrite app_nil_r. }
  unfold row_start, row_end. rewrite Ho. split.
  - destruct i as [|i]; [done|]. rewrite end_offsets_lookup by lia. cbn.
    unfold try_from. pose proof (len_nonneg (concat (take (S i) rows))).
    pose proof (concat_take_le rows (S i)).
    rewrite (proj2 (Z.leb_le 0 _)), (proj2 (Z.leb_le _ usize_max)) by lia. done.
  - rewrite end_offsets_lookup by done. cbn [mbind option_bind]. rewrite Z.add_0_l, Hend.
    unfold try_from. pose proof (len_nonneg (concat (take i rows))). pose proof (len_nonneg row).
    pose proof (concat_take_le rows (S i)).
    rewrite (proj2 (Z.leb_le 0 _)), (proj2 (Z.leb_le _ usize_max)) by lia. done.
Qed.

Lemma row_bytes_hold rows rb i :
  rows_hold rows rb → row_bytes (bf_data (rb_offsets rb)) (bf_data (rb_bytes rb)) i = rows !! i.
Proof.
  intros H. unfold row_bytes. destruct (rows !! i) as [row|] eqn:Hi.
  - destruct (row_bounds _ _ _ _ H Hi) as [-> ->]. cbn [mbind option_bind].
    rewrite (rh_bytes _ _ H). pose proof (take_drop_middle _ _ _ Hi) as E.
    rewrite <- E at 1. rewrite concat_app. cbn [concat].
    rewrite slice_range_app; [done|done|]. lia.
  - unfold row_end. rewrite (rh_offsets _ _ H).
    rewrite (proj2 (lookup_ge_None _ _)); [done|]. rewrite length_end_offsets.
    by apply lookup_ge_None.
Qed.

Lemma extend_small {A} (l : list A) b b' :
  extend_from_slice l b = Ok b' → len (bf_data b) + len l ≤ usize_max.
Proof.
  unfold extend_from_slice, checked_add. intros H. apply bind_Ok_inv in H as (n & H & _).
  destruct (Z.leb_spec (len (bf_data b) + len l) usize_max); [done|discriminate].
Qed.

Definition same_limits (rb' rb : RowBuffers) : Prop :=
  bf_limit (rb_offsets rb') = bf_limit (rb_offsets rb)
  ∧ bf_limit (rb_bytes rb') = bf_limit (rb_bytes rb).

Lemma append_row_inv rows rb v rb' :
  rows_hold rows rb → append_row_bytes v rb = Ok rb' →
  rows_hold (rows ++ [v]) rb' ∧ same_limits rb' rb.
Proof.
  intros [Ho Hb Hs] H. unfold append_row_bytes in H. apply bind_Ok_inv in H as (e & He & H).
  apply bind_Ok_inv in H as (o & Hoff & H). apply bind_Ok_inv in H as (os & Hos & H).
  injection H as <-. pose proof (extend_small _ _ _ He) as Hsm.
  destruct (extend_inv _ _ _ He) as [Ed El]. destruct (push_inv _ _ _ Hos) as [Od Ol].
  assert (len (concat (rows ++ [v])) = len (concat rows) + len v) as Hlen
    by (rewrite concat_app, len_app; cbn; by rewrite app_nil_r).
  split; [|done]. split; cbn.
  - rewrite Od, Ho, end_offsets_app. cbn. unfold try_from in Hoff. rewrite Ed, Hb, len_app in Hoff.
    destruct (_ && _); [|done]. by injection Hoff as <-.
  - by rewrite Ed, Hb, concat_app; cbn; rewrite app_nil_r.
  - rewrite Hlen. by rewrite Hb in Hsm.
Qed.

Lemma append_row_total rows rb v :
  rows_hold rows rb → len rows < bf_limit (rb_offsets rb) →
  len (concat rows) + len v ≤ bf_limit (rb_bytes rb) → bf_limit (rb_bytes rb) ≤ usize_max →
  is_ok (append_row_bytes v rb) = true.
Proof.
  intros [Ho Hb Hs] Hr Hv Hm. unfold append_row_bytes.
  assert (is_ok (extend_from_slice v (rb_bytes rb)) = true) as He by (apply extend_total; rewrite ?Hb; lia).
  destruct (extend_from_slice v (rb_bytes rb)) as [e|] eqn:E; [|done]. rsimpl.
  destruct (extend_inv _ _ _ E) as [Ed El]. unfold try_from. rewrite Ed, Hb, len_app.
  pose proof (len_nonneg (concat rows)). pose proof (len_nonneg v).
  change usize_max with u64_max in Hm.
  rewrite (proj2 (Z.leb_le 0 _)), (proj2 (Z.leb_le _ u64_max)) by lia. rsimpl.
  set (o := len (concat rows) + len v).
  pose proof (push_total o (rb_offsets rb)) as Hp. rewrite Ho in Hp. unfold len in Hp, Hr.
  rewrite length_end_offsets in Hp. specialize (Hp Hr).
  by destruct (buffer_push o (rb_offsets rb)).
Qed.

Lemma shift_offsets_inv grows d l l' :
  mapM (shift_offset grows d) l = Ok l' →
  l' = map (λ o, o + (if grows then d else - d)) l.
Proof.
  revert l'. induction l as [|o l IH]; intros l' H; cbn [mapM] in H; [by injection H as <-|].
  apply bind_Ok_inv in H as (o' & Ho & H). apply bind_Ok_inv in H as (k & Hk & H).
  injection H as <-. rewrite (IH k Hk). cbn [map]. f_equal.
  unfold shift_offset, checked_add, checked_sub in Ho.
  destruct grows; destruct (_ <=? _); try discriminate; by injection Ho as <-.
Qed.

Lemma shift_offsets_total grows d l :
  Forall (λ o, if grows : bool then o + d ≤ u64_max else d ≤ o) l →
  is_ok (mapM (shift_offset grows d) l) = true.
Proof.
  induction 1 as [|o l Ho _ IH]; [done|]. cbn [mapM].
  assert (∃ o', shift_offset grows d o = Ok o') as [o' ->].
  { unfold shift_offset, checked_add, checked_sub.
    destruct grows; rewrite (proj2 (Z.leb_le _ _)) by lia; by eexists. }
  rsimpl. by destruct (mapM (shift_offset grows d) l).
Qed.

Section Replace.
Context (rows : list bytes) (rb : RowBuffers) (i : nat) (old v : bytes).
Context (Hh : rows_hold rows rb) (Hi : rows !! i = Some old).

Let before := len (concat (take i rows)).
Let after := drop (S i) rows.

Local Lemma split_rows : rows = take i rows ++ old :: after.
Proof using Hi. symmetry. by apply take_drop_middle. Qed.

Local Lemma split_bytes : concat rows = concat (take i rows) ++ old ++ concat after.
Proof using Hi. rewrite split_rows at 1. by rewrite concat_app. Qed.

Local Lemma following_offsets :
  slice_from (bf_data (rb_offsets rb)) (Z.of_nat i)
  = Some (end_offsets before (old :: after)).
Proof using Hh Hi.
  pose proof (lookup_lt_Some _ _ _ Hi) as Hlt.
  assert (length (take i rows) = i) as Ht by (rewrite length_take; lia).
  rewrite (rh_offsets _ _ Hh), split_rows, end_offsets_app. apply slice_from_app.
  unfold len. rewrite length_end_offsets. by rewrite Ht.
Qed.

Lemma replace_row_inv rb' :
  replace_row_bytes i v rb = Ok rb' →
  rows_hold (<[i := v]> rows) rb' ∧ same_limits rb' rb.
Proof using Hh Hi.
  intros H. unfold replace_row_bytes in H. destruct (row_bounds _ _ _ _ Hh Hi) as [Hs He].
  rewrite Hs, He, following_offsets in H. cbn [ok_or] in H. rsimpl in H.
  unfold checked_sub in H at 1. pose proof (len_nonneg old). fold before in H.
  rewrite (proj2 (Z.leb_le before _)) in H by lia. rsimpl in H. rewrite Z.add_simpl_l in H.
  apply bind_Ok_inv in H as (rep & Hrep & H). apply bind_Ok_inv in H as (d & Hd & H).
  apply bind_Ok_inv in H as (sh & Hsh & H). injection H as <-.
  unfold try_from in Hd. destruct (_ && _); [|done]. injection Hd as <-.
  pose proof (lookup_lt_Some _ _ _ Hi) as Hlt.
  assert (length (take i rows) = i) as Ht by (rewrite length_take; lia).
  assert (<[i := v]> rows = take i rows ++ v :: after) as Hins by (by apply insert_take_drop).
  destruct (replace_range_inv _ _ _ _ _ Hrep) as [Rd Rl].
  split; [|done]. split; cbn [rb_offsets rb_bytes set_data bf_data].
  - rewrite Hins, end_offsets_app, Z.add_0_l. fold before. f_equal.
    { rewrite (rh_offsets _ _ Hh), split_rows at 1. rewrite end_offsets_app.
      by rewrite take_app_length' by (by rewrite length_end_offsets). }
    apply shift_offsets_inv in Hsh as ->.
    set (delta := if _ : bool then _ else _).
    assert (delta = len v - len old) as -> by (unfold delta; destruct (Z.leb_spec (len old) (len v)); lia).
    cbn [end_offsets map]. f_equal; [lia|]. rewrite <- end_offsets_shift. f_equal. lia.
  - rewrite Rd, (rh_bytes _ _ Hh), Hins, split_bytes, concat_app. cbn [concat].
    assert (Z.to_nat before = length (concat (take i rows))) as Hbn by apply to_nat_len.
    rewrite Hbn, take_app_length. f_equal. f_equal. rewrite app_assoc.
    assert (Z.to_nat (before + len old) = length (concat (take i rows) ++ old)) as ->.
    { rewrite length_app. unfold before, len. lia. }
    by rewrite drop_app_length.
  - unfold replace_range in Hrep. destruct (_ || _); [done|].
    apply bind_Ok_inv in Hrep as (n & Hn & _). rewrite Hins, concat_app. cbn [concat].
    rewrite !len_app. fold before.
    assert (len (bf_data (rb_bytes rb)) = before + len old + len (concat after)) as Hlb
      by (rewrite (rh_bytes _ _ Hh), split_bytes, !len_app; fold before; lia).
    unfold saturating_sub, checked_sub, checked_add in Hn.
    pose proof (len_nonneg (concat after)). pose proof (len_nonneg (concat (take i rows))).
    rewrite Z.max_r in Hn by lia.
    rewrite (proj2 (Z.leb_le _ (len (bf_data (rb_bytes rb))))) in Hn by lia.
    cbn in Hn. rewrite Hlb in Hn.
    destruct (Z.leb_spec (before + len old + len (concat after) - (before + len old - before) + len v)
      usize_max); [lia|discriminate].
Qed.

Lemma replace_row_total :
  len (concat rows) - len old + len v ≤ bf_limit (rb_bytes rb) →
  bf_limit (rb_bytes rb) ≤ usize_max →
  is_ok (replace_row_bytes i v rb) = true.
Proof using Hh Hi.
  intros Hl Hm. unfold replace_row_bytes. destruct (row_bounds _ _ _ _ Hh Hi) as [Hs He].
  rewrite Hs, He, following_offsets. cbn [ok_or]. rsimpl. unfold checked_sub at 1.
  pose proof (len_nonneg old). pose proof (len_nonneg v). fold before.
  rewrite (proj2 (Z.leb_le before _)) by lia. rsimpl. rewrite Z.add_simpl_l.
  pose proof (len_nonneg (concat after)). pose proof (len_nonneg (concat (take i rows))).
  pose proof (rh_small _ _ Hh) as Hsm. rewrite split_bytes, !len_app in Hl, Hsm.
  assert (len (bf_data (rb_bytes rb)) = before + len old + len (concat after)) as Hlb
    by (rewrite (rh_bytes _ _ Hh), split_bytes, !len_app; fold before; lia).
  assert (is_ok (replace_range before (before + len old) v (rb_bytes rb)) = true) as Hr.
  { apply replace_range_total; unfold before in *; lia. }
  destruct (replace_range before (before + len old) v (rb_bytes rb)) as [rep|]; [|done]. rsimpl.
  assert (try_from u64_max (Z.abs (len v - len old)) = Some (Z.abs (len v - len old))) as ->.
  { unfold try_from. change usize_max with u64_max in *. fold before in Hl.
    rewrite (proj2 (Z.leb_le 0 _)), (proj2 (Z.leb_le _ u64_max)) by lia. done. }
  rsimpl.
  assert (is_ok (mapM (shift_offset (len old <=? len v) (Z.abs (len v - len old)))
    (end_offsets before (old :: after))) = true) as Hsh.
  { apply shift_offsets_total, Forall_lookup. intros j o Hj.
    pose proof (lookup_lt_Some _ _ _ Hj) as Hjl. rewrite length_end_offsets in Hjl.
    rewrite end_offsets_lookup in Hj by done. injection Hj as <-.
    cbn [take concat]. rewrite len_app. pose proof (concat_take_le after j).
    pose proof (len_nonneg (concat (take j after))). fold before in Hl, Hsm.
    change usize_max with u64_max in *.
    destruct (Z.leb_spec (len old) (len v)); lia. }
  by destruct (mapM _ _).
Qed.
End Replace.
