(* ===== verification/ActiveSegment.v ===== *)
(** * The active segment

    Models [ActiveSegment] of [crates/zeppelin-embed/src/ingest/active.rs]: the
    documents not yet sealed, stored column-wise in buffers whose room is
    reserved before a batch is applied.  Rows are appended, overwritten in place
    and tombstoned; an id map finds the row of a document.

    The floating-point core of the four-bit quantizer is the class [Quantizer]
    (its input checks are modelled), the capacity a hash map gets from a
    reservation is [HashCapacity].  The lexical index kept beside the rows, the
    sealed-lexical cache and the memory budget are not modelled. *)

From S2P Require Import Prelude WalReplay Cursor Schema Epoch Float Columns Predicate IngestPayload StoreErrors Accounted Bitmap.

(** ** The quantizer *)

(** The code bytes and factors of a vector [quantize_bit4] accepts. *)
Class Quantizer (F : Type) : Type := bit4_code : list Z → bytes * F.

(** One byte holds the codes of two coordinates. *)
Definition div_ceil2 (n : Z) : Z := (n + 1) / 2.

Class QuantizerLaws (F : Type) `{Quantizer F} : Prop := {
  bit4_code_len : ∀ v, len (bit4_code v).1 = div_ceil2 (len v);
}.

Definition MAX_DOT_I8_DIMENSION : Z := 65536.

Definition validate_vector_shape (v : list Z) : result QuantError unit :=
  if bool_decide (v = []) then Err QuantEmptyVector
  else if MAX_DOT_I8_DIMENSION <? len v
       then Err (QuantDimensionTooLarge (len v) MAX_DOT_I8_DIMENSION) else Ok tt.

Definition quant_validate_vector (v : list Z) : result QuantError unit :=
  _ ← validate_vector_shape v;
  match first_non_finite 0 v with
  | Some index => Err (QuantNonFinite index)
  | None => Ok tt
  end.

Definition validate_input (v : list Z) (output_len : Z) : result QuantError unit :=
  _ ← quant_validate_vector v;
  let expected := div_ceil2 (len v) in
  if negb (output_len =? expected) then Err (QuantOutputLength expected output_len) else Ok tt.

(** ** The id map *)

(** The capacity a map has after reserving room for [n] entries. *)
Class HashCapacity : Type := hash_capacity : Z → Z.
Class HashCapacityLaws `{HashCapacity} : Prop := {
  hash_capacity_ge : ∀ n, n ≤ hash_capacity n;
}.

Record ActiveRows : Type := {
  ar_rows : gmap Z nat;
  ar_capacity : Z;
}.

(** [rows.entry(id).or_insert(row)]. *)
Definition or_insert (id : DocId) (row : nat) (rows : gmap Z nat) : gmap Z nat :=
  match rows !! id with
  | Some _ => rows
  | None => <[id := row]> rows
  end.

Fixpoint index_rows (row : nat) (ids : list DocId) (rows : gmap Z nat) : gmap Z nat :=
  match ids with
  | [] => rows
  | id :: ids => index_rows (S row) ids (or_insert id row rows)
  end.

Definition rows_empty : ActiveRows := {| ar_rows := ∅; ar_capacity := 0 |}.

Definition rows_copy `{HashCapacity} (ids : list DocId) (capacity : Z) : ActiveRows :=
  {| ar_rows := index_rows 0 ids ∅; ar_capacity := hash_capacity capacity |}.

Definition rows_get (id : DocId) (r : ActiveRows) : option nat := ar_rows r !! id.

Definition rows_insert (id : DocId) (row : nat) (r : ActiveRows) : result StoreError ActiveRows :=
  if Z.of_nat (size (ar_rows r)) =? ar_capacity r then Err StoreActiveRowOverflow
  else Ok {| ar_rows := or_insert id row (ar_rows r); ar_capacity := ar_capacity r |}.

(** ** The segment *)

Record ActiveSegment (F : Type) : Type := {
  sg_dims : option Z;
  sg_doc_ids : Buffer DocId;
  sg_row_index : ActiveRows;
  sg_revisions : Buffer Revision;
  sg_sequences : Buffer Z;
  sg_timestamps : Buffer Z;
  sg_metadata : RowBuffers;
  sg_text_present : Buffer Z;
  sg_text : RowBuffers;
  sg_columns : RowBuffers;
  sg_vectors : Buffer Z;
  sg_codes : Buffer byte;
  sg_factors : Buffer F;
  sg_tombstones : Buffer Z;
}.
Arguments sg_dims {F} _.
Arguments sg_doc_ids {F} _.
Arguments sg_row_index {F} _.
Arguments sg_revisions {F} _.
Arguments sg_sequences {F} _.
Arguments sg_timestamps {F} _.
Arguments sg_metadata {F} _.
Arguments sg_text_present {F} _.
Arguments sg_text {F} _.
Arguments sg_columns {F} _.
Arguments sg_vectors {F} _.
Arguments sg_codes {F} _.
Arguments sg_factors {F} _.
Arguments sg_tombstones {F} _.

Definition empty_rows : RowBuffers :=
  {| rb_offsets := unaccounted_empty; rb_bytes := unaccounted_empty |}.

Section Active.
Context {F : Type} {Q : Quantizer F} {K : HashCapacity}.
Implicit Types (s : ActiveSegment F) (d : IngestDocument).

(** [quantize_bit4], with its output slice given by length. *)
Definition quantize_bit4 (v : list Z) (output_len : Z) : result QuantError (bytes * F) :=
  _ ← validate_input v output_len; Ok (bit4_code v).

Definition active_empty : ActiveSegment F :=
  {| sg_dims := None; sg_doc_ids := unaccounted_empty; sg_row_index := rows_empty;
     sg_revisions := unaccounted_empty; sg_sequences := unaccounted_empty;
     sg_timestamps := unaccounted_empty; sg_metadata := empty_rows;
     sg_text_present := unaccounted_empty; sg_text := empty_rows; sg_columns := empty_rows;
     sg_vectors := unaccounted_empty; sg_codes := unaccounted_empty;
     sg_factors := unaccounted_empty; sg_tombstones := unaccounted_empty |}.

(** *** Reads *)

Definition row_count s : nat := length (bf_data (sg_doc_ids s)).

Definition tracks_text s : bool := negb (bool_decide (bf_data (sg_text_present s) = [])).

Definition tracks_columns s : bool :=
  negb (bool_decide (bf_data (rb_offsets (sg_columns s)) = [])).

Definition active_document s (row : nat) : option DocumentVersion :=
  doc_id ← bf_data (sg_doc_ids s) !! row;
  revision ← bf_data (sg_revisions s) !! row;
  Some {| dv_doc_id := doc_id; dv_revision := revision |}.

Definition existing s (doc_id : DocId) : option (nat * DocumentVersion * Z) :=
  row ← rows_get doc_id (sg_row_index s);
  version ← active_document s row;
  seq ← bf_data (sg_sequences s) !! row;
  Some (row, version, seq).

Definition is_tombstoned s (row : nat) : bool :=
  match try_from u32_max (Z.of_nat row) with
  | Some row => bool_decide (row ∈ bf_data (sg_tombstones s))
  | None => false
  end.

Definition active_metadata s (row : nat) : option bytes :=
  row_bytes (bf_data (rb_offsets (sg_metadata s))) (bf_data (rb_bytes (sg_metadata s))) row.

Definition active_text s (row : nat) : result StoreError (option bytes) :=
  if (row_count s <=? row)%nat then Err StoreActiveRowOverflow
  else if negb (tracks_text s) then Ok None
  else
  present ← ok_or (bf_data (sg_text_present s) !! row) StoreActiveRowOverflow;
  if 1 <? present then Err StoreActiveRowOverflow
  else
  b ← ok_or (row_bytes (bf_data (rb_offsets (sg_text s))) (bf_data (rb_bytes (sg_text s))) row)
        StoreActiveRowOverflow;
  if present =? 0 then Ok None
  else if utf8_valid b then Ok (Some b) else Err StoreActiveRowOverflow.

Definition column_values s (row : nat) : result StoreError (list (ColumnId * PredicateValue)) :=
  if (row_count s <=? row)%nat then Err StoreActiveRowOverflow
  else if negb (tracks_columns s) then Ok []
  else
  b ← ok_or (row_bytes (bf_data (rb_offsets (sg_columns s))) (bf_data (rb_bytes (sg_columns s))) row)
        StoreActiveRowOverflow;
  map_err (StoreWalMutation (default 0 (bf_data (sg_sequences s) !! row)) UPSERT_V2)
    (decode_column_values b).

Definition indexed_through_seq s : Z := foldr Z.max 0 (bf_data (sg_sequences s)).

(** [alive]: the segment's rows less its tombstones. *)
Fixpoint tombstone_all {B} `{Roaring B} (rows : list Z) (alive : AliveSet B)
    : result StoreError (AliveSet B) :=
  match rows with
  | [] => Ok alive
  | row :: rows =>
      match Bitmap.tombstone row alive with
      | (alive, Ok _) => tombstone_all rows alive
      | (_, Err _) => Err StoreActiveRowOverflow
      end
  end.

Definition active_alive {B} `{Roaring B} s : result StoreError (AliveSet B) :=
  row_count ← ok_or (try_from u32_max (len (bf_data (sg_doc_ids s)))) StoreActiveRowOverflow;
  tombstone_all (bf_data (sg_tombstones s)) (alive_new row_count).

(** *** Appending and overwriting rows *)

Definition lift_store {A} (r : result StoreError A) : result IngestError A := map_err IngestStore r.

Definition refuse_existing s d : result IngestError unit :=
  match existing s (dv_doc_id (id_version d)) with
  | Some _ => Err (IngestStore (StoreSynchronization "revision handling not yet admitted"))
  | None => Ok tt
  end.

(** The new row and its code length. *)
Definition appended_row_capacities s d : result IngestError (nat * Z) :=
  let dims := len (id_vector d) in
  _ ← match sg_dims s with
      | Some expected =>
          if negb (expected =? dims) then Err (IngestStore (StoreDimensionMismatch expected dims))
          else Ok tt
      | None => Ok tt
      end;
  if dims =? 0 then Err (IngestVector QuantEmptyVector)
  else
  row ← ok_or (try_from u32_max (len (bf_data (sg_doc_ids s)))) (IngestStore StoreActiveRowOverflow);
  Ok (Z.to_nat row, div_ceil2 dims).

(** The rows before tracking began: absent texts, empty columns. *)
Fixpoint push_times {A} (n : nat) (value : A) (b : Buffer A) : result StoreError (Buffer A) :=
  match n with
  | O => Ok b
  | S n => b ← buffer_push value b; push_times n value b
  end.

Fixpoint append_rows (n : nat) (row : bytes) (rb : RowBuffers) : result StoreError RowBuffers :=
  match n with
  | O => Ok rb
  | S n => rb ← append_row_bytes row rb; append_rows n row rb
  end.

Definition text_flag (text : option bytes) : Z :=
  match text with Some _ => 1 | None => 0 end.

(** Untracked rows have no text: present 0, end offset 0.  The source pushes the
    flag and the offset of each row in turn; the buffers are independent. *)
Definition backfill_text (n : nat) (present : Buffer Z) (text : RowBuffers)
    : result StoreError (Buffer Z * RowBuffers) :=
  present ← push_times n 0 present;
  offsets ← push_times n 0 (rb_offsets text);
  Ok (present, {| rb_offsets := offsets; rb_bytes := rb_bytes text |}).

Definition append_text_in_place s (previous_rows : nat) (text : option bytes)
    : result StoreError (Buffer Z * RowBuffers) :=
  if negb (tracks_text s) && negb (bool_decide (is_Some text))
  then Ok (sg_text_present s, sg_text s)
  else
  '(present, rows) ← (if negb (tracks_text s)
                      then backfill_text previous_rows (sg_text_present s) (sg_text s)
                      else Ok (sg_text_present s, sg_text s));
  present ← buffer_push (text_flag text) present;
  rows ← append_row_bytes (default [] text) rows;
  Ok (present, rows).

Definition replace_text_in_place s (row : nat) (replacement : option bytes)
    : result StoreError (Buffer Z * RowBuffers) :=
  if (row_count s <=? row)%nat then Err StoreActiveRowOverflow
  else if negb (tracks_text s) && negb (bool_decide (is_Some replacement))
  then Ok (sg_text_present s, sg_text s)
  else
  '(present, rows) ← (if negb (tracks_text s)
                      then backfill_text (row_count s) (sg_text_present s) (sg_text s)
                      else Ok (sg_text_present s, sg_text s));
  rows ← replace_row_bytes row (default [] replacement) rows;
  present ← set_at row (text_flag replacement) present;
  Ok (present, rows).

(** The encoding of no columns, [previous_rows] times. *)
Definition backfill_columns (n : nat) (columns : RowBuffers) : result IngestError RowBuffers :=
  empty ← map_err IngestErrorPayload (encode_column_values []);
  lift_store (append_rows n empty columns).

Definition append_columns_in_place s (previous_rows : nat) (columns_present : bool)
    (columns : list (ColumnId * PredicateValue)) : result IngestError RowBuffers :=
  if negb (tracks_columns s) && negb columns_present then Ok (sg_columns s)
  else
  encoded ← map_err IngestErrorPayload (encode_column_values columns);
  rows ← (if negb (tracks_columns s) then backfill_columns previous_rows (sg_columns s)
          else Ok (sg_columns s));
  lift_store (append_row_bytes encoded rows).

Definition replace_columns_in_place s (row : nat) (columns_present : bool)
    (columns : list (ColumnId * PredicateValue)) : result IngestError RowBuffers :=
  if (row_count s <=? row)%nat then Err (IngestStore StoreActiveRowOverflow)
  else if negb (tracks_columns s) && negb columns_present then Ok (sg_columns s)
  else
  replacement ← map_err IngestErrorPayload (encode_column_values columns);
  rows ← (if negb (tracks_columns s) then backfill_columns (row_count s) (sg_columns s)
          else Ok (sg_columns s));
  lift_store (replace_row_bytes row replacement rows).

(** [insert_row_in_place].  The new codes are pushed as zeros and then written by
    the quantizer. *)
Definition insert_row_in_place s d : result IngestError (ActiveSegment F * nat) :=
  '(row, row_stride) ← appended_row_capacities s d;
  let dims := len (id_vector d) in
  row_index ← lift_store (rows_insert (dv_doc_id (id_version d)) row (sg_row_index s));
  doc_ids ← lift_store (buffer_push (dv_doc_id (id_version d)) (sg_doc_ids s));
  revisions ← lift_store (buffer_push (dv_revision (id_version d)) (sg_revisions s));
  sequences ← lift_store (buffer_push 0 (sg_sequences s));
  timestamps ← lift_store (buffer_push (id_timestamp d) (sg_timestamps s));
  metadata ← lift_store (append_row_bytes (id_metadata d) (sg_metadata s));
  '(text_present, text) ← lift_store (append_text_in_place s row (id_text d));
  columns ← append_columns_in_place s row (id_columns_present d) (id_columns d);
  vectors ← lift_store (extend_from_slice (id_vector d) (sg_vectors s));
  codes ← lift_store (push_times (Z.to_nat row_stride) Byte.x00 (sg_codes s));
  start ← ok_or (checked_mul usize_max (Z.of_nat row) row_stride) (IngestStore StoreActiveRowOverflow);
  encoded ← ok_or (slice_from (bf_data codes) start) (IngestStore StoreActiveRowOverflow);
  '(code, factor) ← map_err IngestVector (quantize_bit4 (id_vector d) (len encoded));
  factors ← lift_store (buffer_push factor (sg_factors s));
  Ok ({| sg_dims := Some dims; sg_doc_ids := doc_ids; sg_row_index := row_index;
         sg_revisions := revisions; sg_sequences := sequences; sg_timestamps := timestamps;
         sg_metadata := metadata; sg_text_present := text_present; sg_text := text;
         sg_columns := columns; sg_vectors := vectors;
         sg_codes := set_data (take (Z.to_nat start) (bf_data codes) ++ code) codes;
         sg_factors := factors; sg_tombstones := sg_tombstones s |}, row).

(** [insert_in_place], less the lexical index. *)
Definition insert_in_place s d : result IngestError (ActiveSegment F * nat) :=
  _ ← refuse_existing s d; insert_row_in_place s d.

(** The id map of a row that changes its document. *)
Definition rebind_row (row : nat) (old_id new_id : DocId) (r : ActiveRows)
    : result IngestError ActiveRows :=
  if old_id =? new_id then Ok r
  else match rows_get new_id r with
       | Some _ => Err (IngestStore (StoreSynchronization "replacement id already exists"))
       | None => lift_store (rows_insert new_id row
                   {| ar_rows := delete old_id (ar_rows r); ar_capacity := ar_capacity r |})
       end.

(** [get_mut(start..end)], overwritten by a slice of the same length. *)
Definition overwrite_range {A} (start end_ : Z) (values : list A) (b : Buffer A)
    : result StoreError (Buffer A) :=
  _ ← ok_or (slice_range (bf_data b) start end_) StoreActiveRowOverflow;
  Ok (set_data (take (Z.to_nat start) (bf_data b) ++ values ++ drop (Z.to_nat end_) (bf_data b)) b).

(** The tombstone of the row, if it has one, is removed. *)
Definition revive (row : Z) (tombstones : Buffer Z) : result StoreError (Buffer Z) :=
  match list_find (λ candidate, candidate = row) (bf_data tombstones) with
  | Some (position, _) =>
      end_ ← ok_or (checked_add usize_max (Z.of_nat position) 1) StoreActiveRowOverflow;
      replace_range (Z.of_nat position) end_ [] tombstones
  | None => Ok tombstones
  end.

Definition replace_row_in_place (row : nat) s d : result IngestError (ActiveSegment F) :=
  dims ← ok_or (sg_dims s) (IngestStore StoreActiveRowOverflow);
  if negb (len (id_vector d) =? dims)
  then Err (IngestStore (StoreDimensionMismatch dims (len (id_vector d))))
  else
  let new_id := dv_doc_id (id_version d) in
  old_id ← ok_or (bf_data (sg_doc_ids s) !! row) (IngestStore StoreActiveRowOverflow);
  row_index ← rebind_row row old_id new_id (sg_row_index s);
  doc_ids ← lift_store (set_at row new_id (sg_doc_ids s));
  revisions ← lift_store (set_at row (dv_revision (id_version d)) (sg_revisions s));
  sequences ← lift_store (set_at row 0 (sg_sequences s));
  timestamps ← lift_store (set_at row (id_timestamp d) (sg_timestamps s));
  metadata ← lift_store (replace_row_bytes row (id_metadata d) (sg_metadata s));
  '(text_present, text) ← lift_store (replace_text_in_place s row (id_text d));
  columns ← replace_columns_in_place s row (id_columns_present d) (id_columns d);
  vector_start ← ok_or (checked_mul usize_max (Z.of_nat row) dims) (IngestStore StoreActiveRowOverflow);
  vector_end ← ok_or (checked_add usize_max vector_start dims) (IngestStore StoreActiveRowOverflow);
  vectors ← lift_store (overwrite_range vector_start vector_end (id_vector d) (sg_vectors s));
  let row_stride := div_ceil2 dims in
  code_start ← ok_or (checked_mul usize_max (Z.of_nat row) row_stride) (IngestStore StoreActiveRowOverflow);
  code_end ← ok_or (checked_add usize_max code_start row_stride) (IngestStore StoreActiveRowOverflow);
  slot ← ok_or (slice_range (bf_data (sg_codes s)) code_start code_end) (IngestStore StoreActiveRowOverflow);
  '(code, factor) ← map_err IngestVector (quantize_bit4 (id_vector d) (len slot));
  codes ← lift_store (overwrite_range code_start code_end code (sg_codes s));
  factors ← lift_store (set_at row factor (sg_factors s));
  row_u32 ← ok_or (try_from u32_max (Z.of_nat row)) (IngestStore StoreActiveRowOverflow);
  tombstones ← lift_store (revive row_u32 (sg_tombstones s));
  Ok {| sg_dims := sg_dims s; sg_doc_ids := doc_ids; sg_row_index := row_index;
        sg_revisions := revisions; sg_sequences := sequences; sg_timestamps := timestamps;
        sg_metadata := metadata; sg_text_present := text_present; sg_text := text;
        sg_columns := columns; sg_vectors := vectors; sg_codes := codes;
        sg_factors := factors; sg_tombstones := tombstones |}.

Definition with_sequences (sequences : Buffer Z) s : ActiveSegment F :=
  {| sg_dims := sg_dims s; sg_doc_ids := sg_doc_ids s; sg_row_index := sg_row_index s;
     sg_revisions := sg_revisions s; sg_sequences := sequences;
     sg_timestamps := sg_timestamps s; sg_metadata := sg_metadata s;
     sg_text_present := sg_text_present s; sg_text := sg_text s; sg_columns := sg_columns s;
     sg_vectors := sg_vectors s; sg_codes := sg_codes s; sg_factors := sg_factors s;
     sg_tombstones := sg_tombstones s |}.

Definition set_sequence (row : nat) (seq : Z) s : result StoreError (ActiveSegment F) :=
  sequences ← set_at row seq (sg_sequences s); Ok (with_sequences sequences s).

Definition with_tombstones (tombstones : Buffer Z) s : ActiveSegment F :=
  {| sg_dims := sg_dims s; sg_doc_ids := sg_doc_ids s; sg_row_index := sg_row_index s;
     sg_revisions := sg_revisions s; sg_sequences := sg_sequences s;
     sg_timestamps := sg_timestamps s; sg_metadata := sg_metadata s;
     sg_text_present := sg_text_present s; sg_text := sg_text s; sg_columns := sg_columns s;
     sg_vectors := sg_vectors s; sg_codes := sg_codes s; sg_factors := sg_factors s;
     sg_tombstones := tombstones |}.

(** *** Copies with room for a batch *)

Record WorkingCapacities : Type := {
  wc_row_count : Z;
  wc_vector_count : Z;
  wc_code_count : Z;
  wc_metadata_capacity : Z;
  wc_text_capacity : option Z;
  wc_column_capacity : option Z;
}.

(** [try_fold] of [checked_add] over the documents. *)
Fixpoint sum_capacity (lengths : list Z) (capacity : Z) : result IngestError Z :=
  match lengths with
  | [] => Ok capacity
  | length :: lengths =>
      capacity ← ok_or (checked_add usize_max capacity length) (IngestStore StoreActiveRowOverflow);
      sum_capacity lengths capacity
  end.

Definition text_len (d : IngestDocument) : Z := len (default [] (id_text d)).

(** The loop that encodes the columns of every document. *)
Fixpoint sum_columns (docs : list IngestDocument) (capacity : Z) : result IngestError Z :=
  match docs with
  | [] => Ok capacity
  | d :: docs =>
      encoded ← map_err IngestErrorPayload (encode_column_values (id_columns d));
      capacity ← ok_or (checked_add usize_max capacity (len encoded)) (IngestStore StoreActiveRowOverflow);
      sum_columns docs capacity
  end.

Definition working_capacities s (first_document : IngestDocument)
    (remaining : list IngestDocument) : result IngestError WorkingCapacities :=
  let overflow := IngestStore StoreActiveRowOverflow in
  let dims := default (len (id_vector first_document)) (sg_dims s) in
  if dims =? 0 then Err (IngestVector QuantEmptyVector)
  else if negb (len (id_vector first_document) =? dims)
  then Err (IngestStore (StoreDimensionMismatch dims (len (id_vector first_document))))
  else
  rows ← ok_or (checked_add usize_max (Z.of_nat (row_count s)) (len remaining)) overflow;
  vector_count ← ok_or (checked_mul usize_max rows dims) overflow;
  code_count ← ok_or (checked_mul usize_max rows (div_ceil2 dims)) overflow;
  metadata_capacity ← sum_capacity (map (λ d, len (id_metadata d)) remaining)
                        (len (bf_data (rb_bytes (sg_metadata s))));
  text_capacity ← (if tracks_text s || existsb (λ d, bool_decide (is_Some (id_text d))) remaining
                   then c ← sum_capacity (map text_len remaining)
                              (len (bf_data (rb_bytes (sg_text s))));
                        Ok (Some c)
                   else Ok None);
  column_capacity ← (if tracks_columns s || existsb id_columns_present remaining
                     then start ← (if tracks_columns s then Ok (len (bf_data (rb_bytes (sg_columns s))))
                                   else empty ← map_err IngestErrorPayload (encode_column_values []);
                                        ok_or (checked_mul usize_max (Z.of_nat (row_count s)) (len empty))
                                          overflow);
                          c ← sum_columns remaining start;
                          Ok (Some c)
                     else Ok None);
  Ok {| wc_row_count := rows; wc_vector_count := vector_count; wc_code_count := code_count;
        wc_metadata_capacity := metadata_capacity; wc_text_capacity := text_capacity;
        wc_column_capacity := column_capacity |}.

Definition copy_rows (rb : RowBuffers) (rows capacity : Z) : result StoreError RowBuffers :=
  offsets ← copy_accounted (bf_data (rb_offsets rb)) rows;
  b ← copy_accounted (bf_data (rb_bytes rb)) capacity;
  Ok {| rb_offsets := offsets; rb_bytes := b |}.

Definition copy_for_batch s (first_document : IngestDocument) (remaining : list IngestDocument)
    : result IngestError (ActiveSegment F) :=
  capacities ← working_capacities s first_document remaining;
  let rows := wc_row_count capacities in
  doc_ids ← lift_store (copy_accounted (bf_data (sg_doc_ids s)) rows);
  let row_index := rows_copy (bf_data (sg_doc_ids s)) rows in
  revisions ← lift_store (copy_accounted (bf_data (sg_revisions s)) rows);
  sequences ← lift_store (copy_accounted (bf_data (sg_sequences s)) rows);
  timestamps ← lift_store (copy_accounted (bf_data (sg_timestamps s)) rows);
  metadata ← lift_store (copy_rows (sg_metadata s) rows (wc_metadata_capacity capacities));
  '(text_present, text) ← match wc_text_capacity capacities with
    | Some text_capacity =>
        present ← lift_store (copy_accounted (bf_data (sg_text_present s)) rows);
        text ← lift_store (copy_rows (sg_text s) rows text_capacity);
        Ok (present, text)
    | None => Ok (unaccounted_empty, empty_rows)
    end;
  columns ← match wc_column_capacity capacities with
    | Some column_capacity => lift_store (copy_rows (sg_columns s) rows column_capacity)
    | None => Ok empty_rows
    end;
  vectors ← lift_store (copy_accounted (bf_data (sg_vectors s)) (wc_vector_count capacities));
  codes ← lift_store (copy_accounted (bf_data (sg_codes s)) (wc_code_count capacities));
  factors ← lift_store (copy_accounted (bf_data (sg_factors s)) rows);
  tombstones ← lift_store (copy_accounted (bf_data (sg_tombstones s)) (len (bf_data (sg_tombstones s))));
  Ok {| sg_dims := sg_dims s; sg_doc_ids := doc_ids; sg_row_index := row_index;
        sg_revisions := revisions; sg_sequences := sequences; sg_timestamps := timestamps;
        sg_metadata := metadata; sg_text_present := text_present; sg_text := text;
        sg_columns := columns; sg_vectors := vectors; sg_codes := codes;
        sg_factors := factors; sg_tombstones := tombstones |}.

(** *** Deletes *)

(** The rows of the requested ids, first request first. *)
Fixpoint requested_rows (seen : gset Z) (doc_ids : list DocId) s : list nat :=
  match doc_ids with
  | [] => []
  | doc_id :: doc_ids =>
      let rest := requested_rows ({[doc_id]} ∪ seen) doc_ids s in
      if bool_decide (doc_id ∈ seen) then rest
      else match rows_get doc_id (sg_row_index s) with
           | Some row => row :: rest
           | None => rest
           end
  end.

Fixpoint push_tombstones (seen : gset Z) (rows : list nat) (tombstones : Buffer Z)
    : result IngestError (Buffer Z) :=
  match rows with
  | [] => Ok tombstones
  | row :: rows =>
      row ← ok_or (try_from u32_max (Z.of_nat row)) (IngestStore StoreActiveRowOverflow);
      if bool_decide (row ∈ seen) then push_tombstones seen rows tombstones
      else tombstones ← lift_store (buffer_push row tombstones);
           push_tombstones ({[row]} ∪ seen) rows tombstones
  end.

Definition exact_copy {A} (b : Buffer A) : result StoreError (Buffer A) :=
  copy_accounted (bf_data b) (len (bf_data b)).

Definition exact_rows (rb : RowBuffers) : result StoreError RowBuffers :=
  copy_rows rb (len (bf_data (rb_offsets rb))) (len (bf_data (rb_bytes rb))).

Definition active_tombstone (doc_ids : list DocId) s
    : result IngestError (ActiveSegment F * list nat) :=
  ids ← lift_store (exact_copy (sg_doc_ids s));
  revisions ← lift_store (exact_copy (sg_revisions s));
  sequences ← lift_store (exact_copy (sg_sequences s));
  timestamps ← lift_store (exact_copy (sg_timestamps s));
  metadata ← lift_store (exact_rows (sg_metadata s));
  text_present ← lift_store (exact_copy (sg_text_present s));
  text ← lift_store (exact_rows (sg_text s));
  columns ← lift_store (exact_rows (sg_columns s));
  vectors ← lift_store (exact_copy (sg_vectors s));
  codes ← lift_store (exact_copy (sg_codes s));
  factors ← lift_store (exact_copy (sg_factors s));
  let row_index := rows_copy (bf_data (sg_doc_ids s)) (Z.of_nat (row_count s)) in
  let rows := requested_rows ∅ doc_ids s in
  tombstone_capacity ← ok_or (checked_add usize_max (len (bf_data (sg_tombstones s))) (len rows))
                         (IngestStore StoreActiveRowOverflow);
  tombstones ← lift_store (copy_accounted (bf_data (sg_tombstones s)) tombstone_capacity);
  tombstones ← push_tombstones (list_to_set (bf_data (sg_tombstones s))) rows tombstones;
  Ok ({| sg_dims := sg_dims s; sg_doc_ids := ids; sg_row_index := row_index;
         sg_revisions := revisions; sg_sequences := sequences; sg_timestamps := timestamps;
         sg_metadata := metadata; sg_text_present := text_present; sg_text := text;
         sg_columns := columns; sg_vectors := vectors; sg_codes := codes;
         sg_factors := factors; sg_tombstones := tombstones |}, rows).
End Active.
