(* ===== verification/ActiveSpec.v ===== *)
(** * What the active segment stores

    The abstract state of an active segment is a list of rows, each the latest
    accepted revision of one document, and the list of tombstoned rows.  Every
    mutation of [ActiveSegment] refines the corresponding change of that list
    ([holds]). *)

From S2P Require Import Prelude Cursor WalReplay Schema Epoch Float Columns Predicate IngestPayload IngestCodec StoreErrors Accounted Bitmap ActiveSegment.

(** ** Rows *)

Record Row : Type := {
  r_id : DocId;
  r_revision : Revision;
  r_seq : Z;
  r_timestamp : Z;
  r_metadata : bytes;
  r_text : option bytes;
  r_columns : list (ColumnId * PredicateValue);
  r_vector : list Z;
}.

Definition row_of (seq : Z) (d : IngestDocument) : Row :=
  {| r_id := dv_doc_id (id_version d); r_revision := dv_revision (id_version d); r_seq := seq;
     r_timestamp := id_timestamp d; r_metadata := id_metadata d; r_text := id_text d;
     r_columns := id_columns d; r_vector := id_vector d |}.

Definition with_seq (seq : Z) (r : Row) : Row :=
  {| r_id := r_id r; r_revision := r_revision r; r_seq := seq; r_timestamp := r_timestamp r;
     r_metadata := r_metadata r; r_text := r_text r; r_columns := r_columns r;
     r_vector := r_vector r |}.

(** The abstract segment.  [v_text] and [v_columns]: some document had a text,
    or columns, since the segment was started. *)
Record View : Type := {
  v_dims : option Z;
  v_rows : list Row;
  v_text : bool;
  v_columns : bool;
  v_dead : list nat;
}.

Definition view_empty : View :=
  {| v_dims := None; v_rows := []; v_text := false; v_columns := false; v_dead := [] |}.

Definition has_text (d : IngestDocument) : bool := bool_decide (is_Some (id_text d)).

Definition view_insert (d : IngestDocument) (v : View) : View :=
  {| v_dims := Some (len (id_vector d)); v_rows := v_rows v ++ [row_of 0 d];
     v_text := v_text v || has_text d; v_columns := v_columns v || id_columns_present d;
     v_dead := v_dead v |}.

Definition view_replace (row : nat) (d : IngestDocument) (v : View) : View :=
  {| v_dims := v_dims v; v_rows := <[row := row_of 0 d]> (v_rows v);
     v_text := v_text v || has_text d; v_columns := v_columns v || id_columns_present d;
     v_dead := filter (λ r, r ≠ row) (v_dead v) |}.

Definition view_sequence (row : nat) (seq : Z) (v : View) : View :=
  {| v_dims := v_dims v; v_rows := alter (with_seq seq) row (v_rows v);
     v_text := v_text v; v_columns := v_columns v; v_dead := v_dead v |}.

Definition view_dead (dead : list nat) (v : View) : View :=
  {| v_dims := v_dims v; v_rows := v_rows v; v_text := v_text v; v_columns := v_columns v;
     v_dead := dead |}.

(** The bytes stored for a row's columns. *)
Definition column_image (columns : list (ColumnId * PredicateValue)) : bytes :=
  match encode_column_values columns with Ok b => b | Err _ => [] end.

Definition columns_encode (columns : list (ColumnId * PredicateValue)) : Prop :=
  encode_column_values columns = Ok (column_image columns).

(** A document whose absent columns are empty. *)
Definition doc_columns_ok (d : IngestDocument) : Prop :=
  id_columns_present d = false → id_columns d = [].

(** ** The representation *)

(** The text and column buffers: empty until tracked, then one entry per row. *)
Definition text_holds (tracked : bool) (rows : list Row) (present : Buffer Z) (text : RowBuffers)
    : Prop :=
  rows_hold (if tracked then map (default [] ∘ r_text) rows else []) text
  ∧ bf_data present = (if tracked then map (text_flag ∘ r_text) rows else [])
  ∧ if tracked then rows ≠ [] else Forall (λ r, r_text r = None) rows.

Definition columns_hold (tracked : bool) (rows : list Row) (columns : RowBuffers) : Prop :=
  rows_hold (if tracked then map (column_image ∘ r_columns) rows else []) columns
  ∧ if tracked then rows ≠ [] ∧ Forall (columns_encode ∘ r_columns) rows
    else Forall (λ r, r_columns r = []) rows.

(** ** Backfilling *)

Lemma push_times_inv {A} n (x : A) : ∀ b b',
  push_times n x b = Ok b' → becomes b' b (bf_data b ++ replicate n x).
Proof.
  induction n as [|n IH]; intros b b' H; cbn [push_times] in H.
  { injection H as <-. split; [|done]. cbn. by rewrite app_nil_r. }
  apply bind_Ok_inv in H as (b1 & H1 & H). destruct (push_inv _ _ _ H1) as [Hd Hl].
  destruct (IH _ _ H) as [Hd' Hl']. split; [|congruence]. rewrite Hd', Hd, <- app_assoc. done.
Qed.

Lemma push_times_total {A} n (x : A) : ∀ b,
  len (bf_data b) + Z.of_nat n ≤ bf_limit b → is_ok (push_times n x b) = true.
Proof.
  induction n as [|n IH]; intros b H; cbn [push_times]; [done|].
  pose proof (push_total x b ltac:(lia)) as Hp.
  destruct (buffer_push x b) as [b1|] eqn:E; [|done]. rsimpl.
  destruct (push_inv _ _ _ E) as [Hd Hl]. apply IH. rewrite Hd, Hl, len_app. cbn.
  change (len [x]) with 1. lia.
Qed.

Lemma append_rows_inv n x : ∀ rows rb rb',
  rows_hold rows rb → append_rows n x rb = Ok rb' →
  rows_hold (rows ++ replicate n x) rb' ∧ same_limits rb' rb.
Proof.
  induction n as [|n IH]; intros rows rb rb' Hr H; cbn [append_rows] in H.
  { injection H as <-. cbn. by rewrite app_nil_r. }
  apply bind_Ok_inv in H as (rb1 & H1 & H). destruct (append_row_inv _ _ _ _ Hr H1) as [Hr1 [L1 L2]].
  destruct (IH _ _ _ Hr1 H) as [Hr2 [L3 L4]]. rewrite <- app_assoc in Hr2.
  split; [done|]. split; congruence.
Qed.

Lemma len_concat_replicate n (x : bytes) : len (concat (replicate n x)) = Z.of_nat n * len x.
Proof. induction n as [|n IH]; [done|]. cbn [replicate concat]. rewrite len_app, IH. lia. Qed.

Lemma append_rows_total n x : ∀ rows rb,
  rows_hold rows rb → len rows + Z.of_nat n ≤ bf_limit (rb_offsets rb) →
  len (concat rows) + Z.of_nat n * len x ≤ bf_limit (rb_bytes rb) →
  bf_limit (rb_bytes rb) ≤ usize_max → is_ok (append_rows n x rb) = true.
Proof.
  induction n as [|n IH]; intros rows rb Hr Ho Hb Hm; cbn [append_rows]; [done|].
  pose proof (len_nonneg x).
  pose proof (append_row_total rows rb x Hr ltac:(lia) ltac:(lia) Hm) as Ha.
  destruct (append_row_bytes x rb) as [rb1|] eqn:E; [|done]. rsimpl.
  destruct (append_row_inv _ _ _ _ Hr E) as [Hr1 [L1 L2]].
  apply (IH _ _ Hr1); rewrite ?L1, ?L2; [| |done].
  - rewrite len_app. change (len [x]) with 1. lia.
  - rewrite concat_app, len_app. cbn. rewrite app_nil_r. lia.
Qed.

Lemma end_offsets_nils n : end_offsets 0 (replicate n []) = replicate n 0.
Proof. induction n as [|n IH]; [done|]. cbn [replicate end_offsets]. rewrite (len_nil (A:=byte)), Z.add_0_r. by rewrite IH. Qed.

Lemma concat_nils n : concat (replicate n (@nil byte)) = [].
Proof. by induction n. Qed.

Lemma map_const {A B} (f : A → B) (x : B) l : Forall (λ a, f a = x) l → map f l = replicate (length l) x.
Proof. induction 1 as [|a l Ha _ IH]; [done|]. cbn. by rewrite Ha, IH. Qed.

Section Spec.
Context {F : Type} {Q : Quantizer F} {K : HashCapacity}.
Implicit Types (s : ActiveSegment F) (v : View) (d : IngestDocument).

Definition row_code (r : Row) : bytes := (bit4_code (r_vector r)).1.
Definition row_factor (r : Row) : F := (bit4_code (r_vector r)).2.


Record holds v s : Prop := {
  ho_dims : sg_dims s = v_dims v;
  ho_lengths : Forall (λ r, v_dims v = Some (len (r_vector r))) (v_rows v);
  ho_ids : bf_data (sg_doc_ids s) = map r_id (v_rows v);
  ho_nodup : NoDup (map r_id (v_rows v));
  ho_index : ar_rows (sg_row_index s) = index_rows 0 (map r_id (v_rows v)) ∅;
  ho_revisions : bf_data (sg_revisions s) = map r_revision (v_rows v);
  ho_sequences : bf_data (sg_sequences s) = map r_seq (v_rows v);
  ho_timestamps : bf_data (sg_timestamps s) = map r_timestamp (v_rows v);
  ho_metadata : rows_hold (map r_metadata (v_rows v)) (sg_metadata s);
  ho_text : text_holds (v_text v) (v_rows v) (sg_text_present s) (sg_text s);
  ho_columns : columns_hold (v_columns v) (v_rows v) (sg_columns s);
  ho_vectors : bf_data (sg_vectors s) = concat (map r_vector (v_rows v));
  ho_codes : bf_data (sg_codes s) = concat (map row_code (v_rows v));
  ho_factors : bf_data (sg_factors s) = map row_factor (v_rows v);
  ho_dead : bf_data (sg_tombstones s) = map Z.of_nat (v_dead v);
  ho_dead_nodup : NoDup (v_dead v);
  ho_dead_rows : Forall (λ r, (r < length (v_rows v))%nat) (v_dead v);
  ho_small : len (v_rows v) ≤ u32_max + 1;
}.

(** The limits of the buffers, in field order. *)
Definition limits s : list Z :=
  [bf_limit (sg_doc_ids s); ar_capacity (sg_row_index s); bf_limit (sg_revisions s);
   bf_limit (sg_sequences s); bf_limit (sg_timestamps s);
   bf_limit (rb_offsets (sg_metadata s)); bf_limit (rb_bytes (sg_metadata s));
   bf_limit (sg_text_present s); bf_limit (rb_offsets (sg_text s)); bf_limit (rb_bytes (sg_text s));
   bf_limit (rb_offsets (sg_columns s)); bf_limit (rb_bytes (sg_columns s));
   bf_limit (sg_vectors s); bf_limit (sg_codes s); bf_limit (sg_factors s);
   bf_limit (sg_tombstones s)].

Lemma holds_row_count v s : holds v s → row_count s = length (v_rows v).
Proof. intros Hh. unfold row_count. by rewrite (ho_ids _ _ Hh), length_map. Qed.

Lemma map_nil_iff {A B} (f : A → B) l : map f l = [] ↔ l = [].
Proof. by destruct l. Qed.

Lemma holds_tracks_text v s : holds v s → tracks_text s = v_text v.
Proof.
  intros Hh. destruct (ho_text _ _ Hh) as (_ & Hp & Hn). unfold tracks_text. rewrite Hp.
  destruct (v_text v); [|done]. rewrite bool_decide_false; [done|]. by rewrite map_nil_iff.
Qed.

Lemma holds_tracks_columns v s : holds v s → tracks_columns s = v_columns v.
Proof.
  intros Hh. destruct (ho_columns _ _ Hh) as (Hr & Hn). unfold tracks_columns.
  rewrite (rh_offsets _ _ Hr). destruct (v_columns v); [|done]. destruct Hn as [Hn _].
  rewrite bool_decide_false; [done|]. by destruct (v_rows v).
Qed.

Lemma holds_empty : holds view_empty active_empty.
Proof.
  split; try done; try apply NoDup_nil_2; try (by constructor).
  all: repeat split; try done; try by constructor.
Qed.

(** The id map after appending a new id. *)
Lemma index_rows_lookup ids : ∀ base m id,
  NoDup ids → (∀ i, i ∈ ids → m !! i = None) →
  index_rows base ids m !! id
  = match list_find (λ i, i = id) ids with Some (n, _) => Some (base + n)%nat | None => m !! id end.
Proof.
  induction ids as [|i ids IH]; intros base m id Hnd Hm; [done|].
  apply NoDup_cons in Hnd as [Hni Hnd]. cbn [index_rows list_find].
  unfold or_insert. rewrite (Hm i) by left.
  rewrite IH; [|done|].
  - destruct (decide (i = id)) as [->|Hne].
    + assert (list_find (λ i, i = id) ids = None) as ->.
      { apply list_find_None, Forall_forall. intros x Hx ->. done. }
      rewrite lookup_insert_eq. f_equal. lia.
    + rewrite lookup_insert_ne by done. destruct (list_find _ ids) as [[n x]|]; cbn; [|done].
      f_equal. lia.
  - intros j Hj. rewrite lookup_insert_ne; [apply Hm; by right|]. intros ->. done.
Qed.

Lemma index_rows_snoc ids id : ∀ base m,
  index_rows base (ids ++ [id]) m = or_insert id (base + length ids) (index_rows base ids m).
Proof.
  induction ids as [|i ids IH]; intros base m; cbn [app index_rows length].
  - by rewrite Nat.add_0_r.
  - rewrite IH. f_equal. lia.
Qed.

Lemma holds_index v s id :
  holds v s →
  rows_get id (sg_row_index s)
  = fst <$> list_find (λ i, i = id) (map r_id (v_rows v)).
Proof.
  intros Hh. unfold rows_get. rewrite (ho_index _ _ Hh), index_rows_lookup;
    [|apply Hh|intros; apply lookup_empty].
  destruct (list_find _ _) as [[n x]|]; done.
Qed.

(** The row of a document is where its id is. *)
Lemma holds_row v s id row :
  holds v s →
  rows_get id (sg_row_index s) = Some row ↔ ∃ r, v_rows v !! row = Some r ∧ r_id r = id.
Proof.
  intros Hh. rewrite (holds_index _ _ _ Hh). split.
  - intros E. destruct (list_find _ _) as [[n x]|] eqn:El; [|done]. injection E as ->.
    apply list_find_Some in El as (Hx & -> & _).
    apply list_lookup_fmap_Some in Hx as (r & E & Hr). by exists r.
  - intros (r & Hr & <-). assert (map r_id (v_rows v) !! row = Some (r_id r)) as Hid
      by (apply list_lookup_fmap_Some; by exists r).
    destruct (list_find (λ i, i = r_id r) (map r_id (v_rows v))) as [[n x]|] eqn:El.
    + cbn. apply list_find_Some in El as (Hx & -> & _). f_equal.
      eapply NoDup_lookup; [apply Hh|exact Hx|exact Hid].
    + apply list_find_None in El. exfalso. by apply (Forall_lookup_1 _ _ _ _ El Hid).
Qed.

Lemma holds_row_None v s id :
  holds v s → rows_get id (sg_row_index s) = None ↔ id ∉ map r_id (v_rows v).
Proof.
  intros Hh. rewrite (holds_index _ _ _ Hh). rewrite fmap_None, list_find_None, Forall_forall. split.
  - intros Hf Hin. by apply (Hf id Hin).
  - intros Hn i Hi ->. done.
Qed.

(** *** Texts *)

Lemma backfill_text_inv rows present text present' text' :
  text_holds false rows present text →
  backfill_text (length rows) present text = Ok (present', text') →
  rows_hold (map (default [] ∘ r_text) rows) text'
  ∧ bf_data present' = map (text_flag ∘ r_text) rows
  ∧ same_limits text' text ∧ bf_limit present' = bf_limit present.
Proof.
  intros (Hr & Hp & Hn) H. unfold backfill_text in H.
  apply bind_Ok_inv in H as (p & H1 & H). apply bind_Ok_inv in H as (o & H2 & H).
  injection H as <- <-. destruct (push_times_inv _ _ _ _ H1) as [D1 L1].
  destruct (push_times_inv _ _ _ _ H2) as [D2 L2]. destruct Hr as [Ro Rb Rs].
  assert (map (default [] ∘ r_text) rows = replicate (length rows) (@nil byte)) as Et.
  { apply map_const. eapply Forall_impl; [exact Hn|]. intros r E. cbn. by rewrite E. }
  assert (map (text_flag ∘ r_text) rows = replicate (length rows) 0) as Ef.
  { apply map_const. eapply Forall_impl; [exact Hn|]. intros r E. cbn. by rewrite E. }
  split_and!; [|by rewrite D1, Hp, Ef|done|done]. split; cbn; rewrite Et.
  - rewrite D2, Ro. cbn. by rewrite end_offsets_nils.
  - by rewrite Rb, concat_nils.
  - by rewrite concat_nils.
Qed.

(** What holds of the text buffers of any segment, ready for one more write. *)
Lemma append_text_inv v s d present text :
  holds v s → append_text_in_place s (length (v_rows v)) (id_text d) = Ok (present, text) →
  text_holds (v_text v || has_text d) (v_rows v ++ [row_of 0 d]) present text
  ∧ same_limits text (sg_text s) ∧ bf_limit present = bf_limit (sg_text_present s).
Proof.
  intros Hh Ha. unfold append_text_in_place in Ha. rewrite (holds_tracks_text _ _ Hh) in Ha.
  pose proof (ho_text _ _ Hh) as Ht. fold (has_text d) in Ha. unfold text_holds.
  destruct (negb (v_text v) && negb (has_text d)) eqn:Eb.
  { injection Ha as <- <-. apply andb_true_iff in Eb as [E1 E2].
    apply negb_true_iff in E1, E2. rewrite E1 in *. rewrite E2. cbn [orb].
    destruct Ht as (Hr & Hp & Hn). split_and!; [done|done| |done|done].
    apply Forall_app_2; [done|]. apply Forall_singleton. cbn. unfold has_text in E2.
    apply bool_decide_eq_false in E2. by apply eq_None_not_Some. }
  assert (v_text v || has_text d = true) as -> by (by destruct (v_text v), (has_text d)).
  apply bind_Ok_inv in Ha as ([p t] & Hpt & Ha). apply bind_Ok_inv in Ha as (p' & Hp' & Ha).
  apply bind_Ok_inv in Ha as (t' & Ht' & Ha). injection Ha as <- <-.
  assert (rows_hold (map (default [] ∘ r_text) (v_rows v)) t
    ∧ bf_data p = map (text_flag ∘ r_text) (v_rows v)
    ∧ same_limits t (sg_text s) ∧ bf_limit p = bf_limit (sg_text_present s)) as (Hr & Hp & Lt & Lp).
  { destruct (v_text v); cbn [negb] in Hpt.
    - injection Hpt as <- <-. by destruct Ht as (? & ? & ?).
    - by eapply backfill_text_inv. }
  destruct (append_row_inv _ _ _ _ Hr Ht') as [Hr' Lt']. destruct (push_inv _ _ _ Hp') as [Dp Lp'].
  split_and!.
  - by rewrite map_app.
  - by rewrite Dp, Hp, map_app.
  - by destruct (v_rows v).
  - destruct Lt, Lt'. split; congruence.
  - congruence.
Qed.

Lemma replace_text_inv v s d row present text :
  holds v s → (row < length (v_rows v))%nat →
  replace_text_in_place s row (id_text d) = Ok (present, text) →
  text_holds (v_text v || has_text d) (<[row := row_of 0 d]> (v_rows v)) present text
  ∧ same_limits text (sg_text s) ∧ bf_limit present = bf_limit (sg_text_present s).
Proof.
  intros Hh Hrow Ha. unfold replace_text_in_place in Ha. rewrite (holds_tracks_text _ _ Hh) in Ha.
  rewrite (holds_row_count _ _ Hh) in Ha. rewrite (proj2 (Nat.leb_gt _ _)) in Ha by done.
  pose proof (ho_text _ _ Hh) as Ht. fold (has_text d) in Ha. unfold text_holds.
  destruct (negb (v_text v) && negb (has_text d)) eqn:Eb.
  { injection Ha as <- <-. apply andb_true_iff in Eb as [E1 E2].
    apply negb_true_iff in E1, E2. rewrite E1 in *. rewrite E2. cbn [orb].
    destruct Ht as (Hr & Hp & Hn). split_and!; [done|done| |done|done].
    apply Forall_insert; [done|]. cbn. unfold has_text in E2.
    apply bool_decide_eq_false in E2. by apply eq_None_not_Some. }
  assert (v_text v || has_text d = true) as -> by (by destruct (v_text v), (has_text d)).
  apply bind_Ok_inv in Ha as ([p t] & Hpt & Ha). apply bind_Ok_inv in Ha as (t' & Ht' & Ha).
  apply bind_Ok_inv in Ha as (p' & Hp' & Ha). injection Ha as <- <-.
  assert (rows_hold (map (default [] ∘ r_text) (v_rows v)) t
    ∧ bf_data p = map (text_flag ∘ r_text) (v_rows v)
    ∧ same_limits t (sg_text s) ∧ bf_limit p = bf_limit (sg_text_present s)) as (Hr & Hp & Lt & Lp).
  { destruct (v_text v); cbn [negb] in Hpt.
    - injection Hpt as <- <-. by destruct Ht as (? & ? & ?).
    - by eapply backfill_text_inv. }
  apply lookup_lt_is_Some_2 in Hrow as [r Hr0].
  assert (map (default [] ∘ r_text) (v_rows v) !! row = Some (default [] (r_text r))) as Hold
    by (apply list_lookup_fmap_Some; by exists r).
  destruct (replace_row_inv _ _ _ _ _ Hr Hold _ Ht') as [Hr' Lt'].
  destruct (set_at_inv _ _ _ _ Hp') as [[Dp Lp'] _].
  split_and!.
  - change (map ?f (<[row := ?x]> ?l)) with (f <$> <[row := x]> l). by rewrite list_fmap_insert.
  - rewrite Dp, Hp. change (map ?f (<[row := ?x]> ?l)) with (f <$> <[row := x]> l).
    by rewrite list_fmap_insert.
  - intros E. apply (f_equal length) in E. rewrite length_insert in E.
    apply lookup_lt_Some in Hr0. cbn in E. lia.
  - destruct Lt, Lt'. split; congruence.
  - congruence.
Qed.

(** *** Columns *)

Lemma lift_store_Ok {A} (r : result StoreError A) a : lift_store r = Ok a → r = Ok a.
Proof. by destruct r; [intros [= <-]|]. Qed.

Lemma map_err_Ok {E E' A} (f : E → E') (r : result E A) a : map_err f r = Ok a → r = Ok a.
Proof. by destruct r; [intros [= <-]|]. Qed.

Lemma encodes_image columns b :
  encode_column_values columns = Ok b → columns_encode columns ∧ column_image columns = b.
Proof. intros E. unfold columns_encode, column_image. by rewrite E. Qed.

(** The buffers once tracked, for rows that had no columns before. *)
Lemma tracked_columns_inv v s columns :
  holds v s →
  (if negb (v_columns v) then backfill_columns (length (v_rows v)) (sg_columns s)
   else Ok (sg_columns s)) = Ok columns →
  rows_hold (map (column_image ∘ r_columns) (v_rows v)) columns
  ∧ Forall (columns_encode ∘ r_columns) (v_rows v) ∧ same_limits columns (sg_columns s).
Proof.
  intros Hh Hc. destruct (ho_columns _ _ Hh) as (Hr & Hn). destruct (v_columns v); cbn [negb] in Hc.
  { injection Hc as <-. by destruct Hn. }
  unfold backfill_columns in Hc. apply bind_Ok_inv in Hc as (empty & He & Hc).
  apply map_err_Ok in He. apply encodes_image in He as [Hee Hei]. apply lift_store_Ok in Hc.
  destruct (append_rows_inv _ _ _ _ _ Hr Hc) as [Hr' Hl]. split_and!; [|clear -Hn Hee|done].
  - rewrite (map_const _ empty); [done|]. eapply Forall_impl; [exact Hn|].
    intros r E. cbn. by rewrite E.
  - eapply Forall_impl; [exact Hn|]. intros r E. cbn. by rewrite E.
Qed.

Lemma append_columns_inv v s d columns :
  holds v s → doc_columns_ok d →
  append_columns_in_place s (length (v_rows v)) (id_columns_present d) (id_columns d) = Ok columns →
  columns_hold (v_columns v || id_columns_present d) (v_rows v ++ [row_of 0 d]) columns
  ∧ same_limits columns (sg_columns s).
Proof.
  intros Hh Hd Ha. unfold append_columns_in_place in Ha. rewrite (holds_tracks_columns _ _ Hh) in Ha.
  destruct (negb (v_columns v) && negb (id_columns_present d)) eqn:Eb.
  { injection Ha as <-. apply andb_true_iff in Eb as [E1 E2]. apply negb_true_iff in E1, E2.
    destruct (ho_columns _ _ Hh) as (Hr & Hn). rewrite E1, E2 in *. split; [|done]. split; [done|].
    apply Forall_app_2; [done|]. apply Forall_singleton. by apply Hd. }
  assert (v_columns v || id_columns_present d = true) as ->
    by (by destruct (v_columns v), (id_columns_present d)).
  apply bind_Ok_inv in Ha as (enc & He & Ha). apply map_err_Ok, encodes_image in He as [Hee Hei].
  apply bind_Ok_inv in Ha as (rows & Hrows & Ha). apply lift_store_Ok in Ha.
  destruct (tracked_columns_inv _ _ _ Hh Hrows) as (Hr & Hall & L1).
  destruct (append_row_inv _ _ _ _ Hr Ha) as [Hr' L2]. split.
  - split; [|split; [by destruct (v_rows v)|]].
    + rewrite map_app. cbn. by rewrite Hei.
    + apply Forall_app_2; [done|]. by apply Forall_singleton.
  - destruct L1, L2. split; congruence.
Qed.

Lemma replace_columns_inv v s d row columns :
  holds v s → doc_columns_ok d → (row < length (v_rows v))%nat →
  replace_columns_in_place s row (id_columns_present d) (id_columns d) = Ok columns →
  columns_hold (v_columns v || id_columns_present d) (<[row := row_of 0 d]> (v_rows v)) columns
  ∧ same_limits columns (sg_columns s).
Proof.
  intros Hh Hd Hrow Ha. unfold replace_columns_in_place in Ha. rewrite (holds_tracks_columns _ _ Hh) in Ha.
  rewrite (holds_row_count _ _ Hh) in Ha. rewrite (proj2 (Nat.leb_gt _ _)) in Ha by done.
  destruct (negb (v_columns v) && negb (id_columns_present d)) eqn:Eb.
  { injection Ha as <-. apply andb_true_iff in Eb as [E1 E2]. apply negb_true_iff in E1, E2.
    destruct (ho_columns _ _ Hh) as (Hr & Hn). rewrite E1, E2 in *. split; [|done]. split; [done|].
    apply Forall_insert; [done|]. by apply Hd. }
  assert (v_columns v || id_columns_present d = true) as ->
    by (by destruct (v_columns v), (id_columns_present d)).
  apply bind_Ok_inv in Ha as (enc & He & Ha). apply map_err_Ok, encodes_image in He as [Hee Hei].
  apply bind_Ok_inv in Ha as (rows & Hrows & Ha). apply lift_store_Ok in Ha.
  destruct (tracked_columns_inv _ _ _ Hh Hrows) as (Hr & Hall & L1).
  apply lookup_lt_is_Some_2 in Hrow as [r Hr0].
  assert (map (column_image ∘ r_columns) (v_rows v) !! row = Some (column_image (r_columns r))) as Hold
    by (apply list_lookup_fmap_Some; by exists r).
  destruct (replace_row_inv _ _ _ _ _ Hr Hold _ Ha) as [Hr' L2]. split.
  - split; [|split].
    + change (map ?f (<[row := ?x]> ?l)) with (f <$> <[row := x]> l).
      rewrite list_fmap_insert. cbn. by rewrite Hei.
    + intros E. apply (f_equal length) in E. rewrite length_insert in E.
      apply lookup_lt_Some in Hr0. cbn in E. lia.
    + by apply Forall_insert.
  - destruct L1, L2. split; congruence.
Qed.

(** *** Rows *)

Context {QL : QuantizerLaws F}.

Lemma len_vectors_uniform n (l : list Row) :
  Forall (λ r, len (r_vector r) = n) l → len (concat (map r_vector l)) = len l * n.
Proof.
  induction 1 as [|a l Ha _ IH]; [done|]. cbn [map concat]. rewrite len_app, len_cons, IH, Ha. lia.
Qed.

Lemma quantize_Ok (x : list Z) n code factor :
  quantize_bit4 x n = Ok (code, factor) →
  code = (bit4_code x).1 ∧ factor = (bit4_code x).2 ∧ quant_validate_vector x = Ok tt.
Proof.
  unfold quantize_bit4, validate_input. intros E. apply bind_Ok_inv in E as (u & Hu & E).
  injection E as E. apply bind_Ok_inv in Hu as ([] & Hv & _). by rewrite E.
Qed.

Lemma appended_row_Ok v s d row stride :
  holds v s → appended_row_capacities s d = Ok (row, stride) →
  row = length (v_rows v) ∧ stride = div_ceil2 (len (id_vector d)) ∧ len (v_rows v) ≤ u32_max
  ∧ len (id_vector d) ≠ 0 ∧ Forall (λ r, len (r_vector r) = len (id_vector d)) (v_rows v).
Proof.
  intros Hh E. unfold appended_row_capacities in E. rewrite (ho_dims _ _ Hh), (ho_ids _ _ Hh), len_map in E.
  apply bind_Ok_inv in E as (u & Hu & E). destruct (Z.eqb_spec (len (id_vector d)) 0); [done|].
  apply bind_Ok_inv in E as (n' & Hn & E). injection E as <- <-. unfold try_from in Hn.
  pose proof (len_nonneg (v_rows v)).
  destruct (Z.leb_spec 0 (len (v_rows v))), (Z.leb_spec (len (v_rows v)) u32_max); try discriminate; try lia.
  injection Hn as <-. split_and!; [by rewrite to_nat_len|done|done|done|].
  eapply Forall_impl; [apply Hh|]. intros r Hr. cbn in Hr. rewrite Hr in Hu.
  destruct (Z.eqb_spec (len (r_vector r)) (len (id_vector d))); [done|discriminate].
Qed.

(** What a successful append did, field by field. *)
Record inserted s d (row : nat) (stride : Z) s' : Prop := {
  in_row : appended_row_capacities s d = Ok (row, stride);
  in_dims : sg_dims s' = Some (len (id_vector d));
  in_index : rows_insert (dv_doc_id (id_version d)) row (sg_row_index s) = Ok (sg_row_index s');
  in_ids : buffer_push (dv_doc_id (id_version d)) (sg_doc_ids s) = Ok (sg_doc_ids s');
  in_revisions : buffer_push (dv_revision (id_version d)) (sg_revisions s) = Ok (sg_revisions s');
  in_sequences : buffer_push 0 (sg_sequences s) = Ok (sg_sequences s');
  in_timestamps : buffer_push (id_timestamp d) (sg_timestamps s) = Ok (sg_timestamps s');
  in_metadata : append_row_bytes (id_metadata d) (sg_metadata s) = Ok (sg_metadata s');
  in_text : append_text_in_place s row (id_text d) = Ok (sg_text_present s', sg_text s');
  in_columns : append_columns_in_place s row (id_columns_present d) (id_columns d)
               = Ok (sg_columns s');
  in_vectors : extend_from_slice (id_vector d) (sg_vectors s) = Ok (sg_vectors s');
  in_codes : ∃ codes, push_times (Z.to_nat stride) Byte.x00 (sg_codes s) = Ok codes
    ∧ sg_codes s' = set_data (take (Z.to_nat (Z.of_nat row * stride)) (bf_data codes)
                              ++ (bit4_code (id_vector d)).1) codes;
  in_factors : buffer_push (bit4_code (id_vector d)).2 (sg_factors s) = Ok (sg_factors s');
  in_dead : sg_tombstones s' = sg_tombstones s;
  in_vector : quant_validate_vector (id_vector d) = Ok tt;
}.

Lemma insert_row_shape s d s' row :
  insert_row_in_place s d = Ok (s', row) → ∃ stride, inserted s d row stride s'.
Proof.
  intros Hi. unfold insert_row_in_place in Hi.
  apply bind_Ok_inv in Hi as ([row0 stride] & Hrow & Hi).
  apply bind_Ok_inv in Hi as (ri & Hri & Hi). apply bind_Ok_inv in Hi as (ids & Hids & Hi).
  apply bind_Ok_inv in Hi as (revs & Hrevs & Hi). apply bind_Ok_inv in Hi as (seqs & Hseqs & Hi).
  apply bind_Ok_inv in Hi as (tss & Htss & Hi). apply bind_Ok_inv in Hi as (md & Hmd & Hi).
  apply bind_Ok_inv in Hi as ([tp tx] & Htx & Hi). apply bind_Ok_inv in Hi as (cols & Hcols & Hi).
  apply bind_Ok_inv in Hi as (vecs & Hvecs & Hi). apply bind_Ok_inv in Hi as (codes & Hcodes & Hi).
  apply bind_Ok_inv in Hi as (start & Hstart & Hi). apply bind_Ok_inv in Hi as (enc & Henc & Hi).
  apply bind_Ok_inv in Hi as ([code factor] & Hq & Hi). apply bind_Ok_inv in Hi as (facs & Hfacs & Hi).
  injection Hi as <- <-.
  apply lift_store_Ok in Hri, Hids, Hrevs, Hseqs, Htss, Hmd, Htx, Hvecs, Hcodes, Hfacs.
  apply map_err_Ok, quantize_Ok in Hq as (-> & -> & Hqv).
  unfold checked_mul in Hstart. destruct (_ <=? _); [|done]. injection Hstart as <-.
  exists stride. split; try done. by exists codes.
Qed.

Lemma insert_limits s d row stride s' :
  inserted s d row stride s' → same_limits (sg_text s') (sg_text s) →
  bf_limit (sg_text_present s') = bf_limit (sg_text_present s) →
  same_limits (sg_columns s') (sg_columns s) → same_limits (sg_metadata s') (sg_metadata s) →
  limits s' = limits s.
Proof.
  intros Hi [T1 T2] T3 [C1 C2] [M1 M2]. destruct (push_inv _ _ _ (in_ids _ _ _ _ _ Hi)) as [_ L1].
  destruct (push_inv _ _ _ (in_revisions _ _ _ _ _ Hi)) as [_ L2].
  destruct (push_inv _ _ _ (in_sequences _ _ _ _ _ Hi)) as [_ L3].
  destruct (push_inv _ _ _ (in_timestamps _ _ _ _ _ Hi)) as [_ L4].
  destruct (extend_inv _ _ _ (in_vectors _ _ _ _ _ Hi)) as [_ L5].
  destruct (push_inv _ _ _ (in_factors _ _ _ _ _ Hi)) as [_ L6].
  destruct (in_codes _ _ _ _ _ Hi) as (codes & Hc & Ec). destruct (push_times_inv _ _ _ _ Hc) as [_ L7].
  pose proof (in_index _ _ _ _ _ Hi) as Hri. unfold rows_insert in Hri.
  destruct (_ =? _); [done|]. injection Hri as Hri. unfold limits.
  rewrite <- Hri, Ec, (in_dead _ _ _ _ _ Hi). cbn.
  by rewrite L1, L2, L3, L4, L5, L6, L7, T1, T2, T3, C1, C2, M1, M2.
Qed.

(** The code bytes: the new code follows the codes of the rows before it. *)
Lemma inserted_codes v s d row stride s' :
  holds v s → inserted s d row stride s' →
  bf_data (sg_codes s') = concat (map row_code (v_rows v ++ [row_of 0 d])).
Proof using QL.
  intros Hh Hi. destruct (appended_row_Ok _ _ _ _ _ Hh (in_row _ _ _ _ _ Hi)) as (-> & -> & _ & _ & Hdims).
  destruct (in_codes _ _ _ _ _ Hi) as (codes & Hc & ->).
  destruct (push_times_inv _ _ _ _ Hc) as [Dc _]. cbn [set_data bf_data].
  rewrite map_app, concat_app. cbn [map concat]. rewrite app_nil_r. f_equal.
  rewrite Dc, (ho_codes _ _ Hh). apply take_app_length'. apply Nat2Z.inj.
  change (Z.of_nat (length ?l)) with (len l).
  rewrite (len_concat_uniform row_code (div_ceil2 (len (id_vector d)))).
  - unfold div_ceil2. pose proof (len_nonneg (id_vector d)). rewrite Z2Nat.id; [done|].
    apply Z.mul_nonneg_nonneg; [apply len_nonneg|]. apply Z.div_pos; lia.
  - eapply Forall_impl; [exact Hdims|]. intros r Hr. cbn. unfold row_code. by rewrite bit4_code_len, Hr.
Qed.

Lemma insert_row_inv v s d s' row :
  holds v s → doc_columns_ok d → dv_doc_id (id_version d) ∉ map r_id (v_rows v) →
  insert_row_in_place s d = Ok (s', row) →
  row = length (v_rows v) ∧ holds (view_insert d v) s' ∧ limits s' = limits s.
Proof using QL.
  intros Hh Hd Hnew Hi. apply insert_row_shape in Hi as (stride & Hi).
  pose proof (inserted_codes _ _ _ _ _ _ Hh Hi) as Hcodes.
  destruct (appended_row_Ok _ _ _ _ _ Hh (in_row _ _ _ _ _ Hi)) as (-> & -> & Hu & Hne & Hdims).
  destruct (append_row_inv _ _ _ _ (ho_metadata _ _ Hh) (in_metadata _ _ _ _ _ Hi)) as [Rm Lm].
  destruct (append_text_inv _ _ _ _ _ Hh (in_text _ _ _ _ _ Hi)) as (Rt & Lt & Lp).
  destruct (append_columns_inv _ _ _ _ Hh Hd (in_columns _ _ _ _ _ Hi)) as (Rc & Lc).
  split; [done|]. split; [|by eapply insert_limits].
  pose proof (in_index _ _ _ _ _ Hi) as Hri. unfold rows_insert in Hri.
  destruct (_ =? _); [done|]. injection Hri as Hri.
  split; cbn -[u32_max]; rewrite ?map_app; cbn [map]; try done.
  - apply Hi.
  - apply Forall_app_2; [|by apply Forall_singleton]. eapply Forall_impl; [exact Hdims|].
    intros r Hr. cbn. by rewrite Hr.
  - rewrite <- (ho_ids _ _ Hh). by apply push_inv, Hi.
  - apply NoDup_app. split_and!; [apply Hh| |apply NoDup_singleton].
    intros x Hx ->%list_elem_of_singleton. done.
  - rewrite index_rows_snoc, length_map, <- Hri. cbn. by rewrite (ho_index _ _ Hh).
  - rewrite <- (ho_revisions _ _ Hh). by apply push_inv, Hi.
  - rewrite <- (ho_sequences _ _ Hh). by apply push_inv, Hi.
  - rewrite <- (ho_timestamps _ _ Hh). by apply push_inv, Hi.
  - rewrite concat_app. cbn. rewrite app_nil_r, <- (ho_vectors _ _ Hh). by apply extend_inv, Hi.
  - by rewrite Hcodes, map_app.
  - rewrite <- (ho_factors _ _ Hh). by apply push_inv, Hi.
  - rewrite (in_dead _ _ _ _ _ Hi). apply Hh.
  - apply Hh.
  - eapply Forall_impl; [apply Hh|]. intros r Hr. cbn in Hr |- *. rewrite length_app. lia.
  - rewrite len_app. change (len [_]) with 1. lia.
Qed.

Lemma overwrite_uniform {A X} (f : A → list X) n l row a x :
  l !! row = Some a → Forall (λ a, len (f a) = n) l →
  take (Z.to_nat (Z.of_nat row * n)) (concat (map f l)) ++ f x
    ++ drop (Z.to_nat (Z.of_nat row * n + n)) (concat (map f l))
  = concat (map f (<[row := x]> l)).
Proof.
  intros Ha Hn. pose proof (lookup_lt_Some _ _ _ Ha) as Hlt.
  assert (len (f a) = n) as Hw by (apply (Forall_lookup_1 _ _ _ _ Hn Ha)).
  assert (len (concat (map f (take row l))) = Z.of_nat row * n) as Hb.
  { pose proof (Forall_take _ row _ Hn) as Ht. clear -Ht Hlt. revert Ht.
    assert (Z.of_nat row = len (take row l)) as -> by (unfold len; rewrite length_take; lia).
    induction 1 as [|b m Hb _ IH]; [done|]. cbn [map concat]. rewrite len_app, len_cons, IH, Hb. lia. }
  rewrite (insert_take_drop _ _ _ Hlt), map_app, concat_app. cbn [map concat].
  pose proof (take_drop_middle _ _ _ Ha) as E. rewrite <- E at 1 2.
  rewrite !map_app, !concat_app. cbn [map concat].
  assert (Z.to_nat (Z.of_nat row * n) = length (concat (map f (take row l)))) as ->
    by (rewrite <- Hb; apply to_nat_len).
  rewrite take_app_length. f_equal. f_equal.
  rewrite app_assoc. apply drop_app_length'. rewrite length_app.
  apply Nat2Z.inj. rewrite Nat2Z.inj_add, Z2Nat.id by (pose proof (len_nonneg (f a)); nia).
  change (Z.of_nat (length ?l)) with (len l). rewrite Hb, Hw. done.
Qed.

Lemma filter_ne_id (l : list nat) x : x ∉ l → filter (λ r, r ≠ x) l = l.
Proof.
  induction l as [|y l IH]; intros Hn; [done|]. apply not_elem_of_cons in Hn as [H1 H2].
  rewrite filter_cons_True by done. by rewrite IH.
Qed.

Lemma revive_inv dead row (t t' : Buffer Z) :
  bf_data t = map Z.of_nat dead → NoDup dead → revive (Z.of_nat row) t = Ok t' →
  bf_data t' = map Z.of_nat (filter (λ r, r ≠ row) dead) ∧ bf_limit t' = bf_limit t.
Proof.
  intros Hd Hnd Hr. unfold revive in Hr.
  destruct (list_find _ (bf_data t)) as [[pos x]|] eqn:El.
  - apply list_find_Some in El as (Hx & -> & _). rewrite Hd in Hx.
    apply list_lookup_fmap_Some in Hx as (r & E & Hx). apply Nat2Z.inj in E as <-.
    apply bind_Ok_inv in Hr as (e & He & Hr). unfold checked_add in He.
    destruct (_ <=? _); [|done]. injection He as <-.
    destruct (replace_range_inv _ _ _ _ _ Hr) as [D L]. split; [|done].
    rewrite D, Hd. replace (Z.to_nat (Z.of_nat pos + 1)) with (S pos) by lia. rewrite Nat2Z.id.
    change (map ?f ?l) with (f <$> l). cbn [app]. rewrite <- fmap_take, <- fmap_drop, <- fmap_app. f_equal.
    pose proof (take_drop_middle _ _ _ Hx) as E. rewrite <- E in Hnd.
    transitivity (filter (λ r, r ≠ row) (take pos dead ++ row :: drop (S pos) dead));
      [|by rewrite E]. apply NoDup_app in Hnd as (_ & Hnin & Hnd).
    apply NoDup_cons in Hnd as [Hnr _].
    rewrite filter_app, filter_cons_False by (by intros []).
    by rewrite !filter_ne_id; [|done|intros Hin; apply (Hnin row Hin); left].
  - injection Hr as <-. split; [|done]. rewrite Hd. f_equal. symmetry. apply filter_ne_id.
    intros Hin. apply list_find_None in El. rewrite Hd in El.
    rewrite Forall_forall in El. apply (El (Z.of_nat row)); [|done].
    apply list_elem_of_fmap. by exists row.
Qed.

Lemma insert_same_id (rows : list Row) row r x :
  rows !! row = Some r → r_id x = r_id r → map r_id (<[row := x]> rows) = map r_id rows.
Proof.
  intros Hr E. change (map ?f ?l) with (f <$> l). rewrite list_fmap_insert, E.
  apply list_insert_id. apply list_lookup_fmap_Some. by exists r.
Qed.

Lemma map_insert {A B} (f : A → B) l i x : map f (<[i := x]> l) = <[i := f x]> (map f l).
Proof. apply (list_fmap_insert f). Qed.

(** What a successful overwrite of a row by its own document did. *)
Record replaced (row : nat) s d s' : Prop := {
  re_dims : sg_dims s' = sg_dims s;
  re_length : sg_dims s = Some (len (id_vector d));
  re_index : sg_row_index s' = sg_row_index s;
  re_ids : set_at row (dv_doc_id (id_version d)) (sg_doc_ids s) = Ok (sg_doc_ids s');
  re_revisions : set_at row (dv_revision (id_version d)) (sg_revisions s) = Ok (sg_revisions s');
  re_sequences : set_at row 0 (sg_sequences s) = Ok (sg_sequences s');
  re_timestamps : set_at row (id_timestamp d) (sg_timestamps s) = Ok (sg_timestamps s');
  re_metadata : replace_row_bytes row (id_metadata d) (sg_metadata s) = Ok (sg_metadata s');
  re_text : replace_text_in_place s row (id_text d) = Ok (sg_text_present s', sg_text s');
  re_columns : replace_columns_in_place s row (id_columns_present d) (id_columns d)
               = Ok (sg_columns s');
  re_vectors : let start := Z.of_nat row * len (id_vector d) in
    overwrite_range start (start + len (id_vector d)) (id_vector d) (sg_vectors s)
    = Ok (sg_vectors s');
  re_codes : let stride := div_ceil2 (len (id_vector d)) in
    overwrite_range (Z.of_nat row * stride) (Z.of_nat row * stride + stride)
      (bit4_code (id_vector d)).1 (sg_codes s) = Ok (sg_codes s');
  re_factors : set_at row (bit4_code (id_vector d)).2 (sg_factors s) = Ok (sg_factors s');
  re_dead : revive (Z.of_nat row) (sg_tombstones s) = Ok (sg_tombstones s');
  re_vector : quant_validate_vector (id_vector d) = Ok tt;
}.

Lemma replace_row_shape s d s' row :
  bf_data (sg_doc_ids s) !! row = Some (dv_doc_id (id_version d)) →
  replace_row_in_place row s d = Ok s' → replaced row s d s'.
Proof.
  intros Hid Hi. unfold replace_row_in_place in Hi.
  apply bind_Ok_inv in Hi as (dims & Hdims & Hi).
  destruct (Z.eqb_spec (len (id_vector d)) dims) as [<-|]; [|done]. cbn [negb] in Hi.
  rewrite Hid in Hi. cbn [ok_or] in Hi. rsimpl in Hi. unfold rebind_row in Hi. rewrite Z.eqb_refl in Hi.
  rsimpl in Hi. apply bind_Ok_inv in Hi as (ids & Hids & Hi).
  apply bind_Ok_inv in Hi as (revs & Hrevs & Hi). apply bind_Ok_inv in Hi as (seqs & Hseqs & Hi).
  apply bind_Ok_inv in Hi as (tss & Htss & Hi). apply bind_Ok_inv in Hi as (md & Hmd & Hi).
  apply bind_Ok_inv in Hi as ([tp tx] & Htx & Hi). apply bind_Ok_inv in Hi as (cols & Hcols & Hi).
  apply bind_Ok_inv in Hi as (vs & Hvs & Hi). apply bind_Ok_inv in Hi as (ve & Hve & Hi).
  apply bind_Ok_inv in Hi as (vecs & Hvecs & Hi).
  apply bind_Ok_inv in Hi as (cs & Hcs & Hi). apply bind_Ok_inv in Hi as (ce & Hce & Hi).
  apply bind_Ok_inv in Hi as (slot & Hslot & Hi).
  apply bind_Ok_inv in Hi as ([code factor] & Hq & Hi). apply bind_Ok_inv in Hi as (codes & Hcodes & Hi).
  apply bind_Ok_inv in Hi as (facs & Hfacs & Hi). apply bind_Ok_inv in Hi as (u & Hu & Hi).
  apply bind_Ok_inv in Hi as (ts & Hts & Hi). injection Hi as <-.
  apply lift_store_Ok in Hids, Hrevs, Hseqs, Htss, Hmd, Htx, Hvecs, Hcodes, Hfacs, Hts.
  apply map_err_Ok, quantize_Ok in Hq as (-> & -> & Hqv). apply ok_or_Ok in Hdims.
  unfold try_from in Hu. destruct (_ && _); [|done]. injection Hu as <-.
  unfold checked_mul, checked_add in *.
  destruct (_ <=? usize_max) in Hvs; [|done]. injection Hvs as <-.
  destruct (_ <=? usize_max) in Hve; [|done]. injection Hve as <-.
  destruct (_ <=? usize_max) in Hcs; [|done]. injection Hcs as <-.
  destruct (_ <=? usize_max) in Hce; [|done]. injection Hce as <-.
  by split.
Qed.

Lemma overwrite_inv {A} start end_ (values : list A) b b' :
  overwrite_range start end_ values b = Ok b' →
  becomes b' b (take (Z.to_nat start) (bf_data b) ++ values ++ drop (Z.to_nat end_) (bf_data b)).
Proof. unfold overwrite_range. intros E. apply bind_Ok_inv in E as (x & _ & E). by injection E as <-. Qed.

Lemma replace_limits row s d s' :
  replaced row s d s' → same_limits (sg_text s') (sg_text s) →
  bf_limit (sg_text_present s') = bf_limit (sg_text_present s) →
  same_limits (sg_columns s') (sg_columns s) → same_limits (sg_metadata s') (sg_metadata s) →
  bf_limit (sg_tombstones s') = bf_limit (sg_tombstones s) →
  limits s' = limits s.
Proof.
  intros Hi [T1 T2] T3 [C1 C2] [M1 M2] TS.
  destruct (set_at_inv _ _ _ _ (re_ids _ _ _ _ Hi)) as [[_ L1] _].
  destruct (set_at_inv _ _ _ _ (re_revisions _ _ _ _ Hi)) as [[_ L2] _].
  destruct (set_at_inv _ _ _ _ (re_sequences _ _ _ _ Hi)) as [[_ L3] _].
  destruct (set_at_inv _ _ _ _ (re_timestamps _ _ _ _ Hi)) as [[_ L4] _].
  destruct (overwrite_inv _ _ _ _ _ (re_vectors _ _ _ _ Hi)) as [_ L5].
  destruct (set_at_inv _ _ _ _ (re_factors _ _ _ _ Hi)) as [[_ L6] _].
  destruct (overwrite_inv _ _ _ _ _ (re_codes _ _ _ _ Hi)) as [_ L7]. unfold limits.
  by rewrite (re_index _ _ _ _ Hi), L1, L2, L3, L4, L5, L6, L7, T1, T2, T3, C1, C2, M1, M2, TS.
Qed.

Lemma replace_row_holds v s d s' row r :
  holds v s → doc_columns_ok d → v_rows v !! row = Some r → r_id r = dv_doc_id (id_version d) →
  replace_row_in_place row s d = Ok s' →
  holds (view_replace row d v) s' ∧ limits s' = limits s.
Proof using QL.
  intros Hh Hd Hr Hid Hi. pose proof (lookup_lt_Some _ _ _ Hr) as Hlt.
  apply replace_row_shape in Hi.
  2:{ rewrite (ho_ids _ _ Hh), <- Hid. apply list_lookup_fmap_Some. by exists r. }
  assert (map r_metadata (v_rows v) !! row = Some (r_metadata r)) as Hm0
    by (apply list_lookup_fmap_Some; by exists r).
  destruct (replace_row_inv _ _ _ _ _ (ho_metadata _ _ Hh) Hm0 _ (re_metadata _ _ _ _ Hi)) as [Rm Lm].
  destruct (replace_text_inv _ _ _ _ _ _ Hh Hlt (re_text _ _ _ _ Hi)) as (Rt & Lt & Lp).
  destruct (replace_columns_inv _ _ _ _ _ Hh Hd Hlt (re_columns _ _ _ _ Hi)) as (Rc & Lc).
  destruct (revive_inv _ _ _ _ (ho_dead _ _ Hh) (ho_dead_nodup _ _ Hh) (re_dead _ _ _ _ Hi)) as [Dd Ld].
  split; [|by eapply replace_limits]. pose proof (re_length _ _ _ _ Hi) as Hdv.
  rewrite (ho_dims _ _ Hh) in Hdv.
  assert (Forall (λ r0, len (r_vector r0) = len (id_vector d)) (v_rows v)) as Hdims.
  { eapply Forall_impl; [apply Hh|]. intros r0 Hr0. cbn in Hr0. congruence. }
  split; cbn -[u32_max]; rewrite ?map_insert; try done.
  - rewrite (re_dims _ _ _ _ Hi). apply Hh.
  - rewrite Hdv. apply Forall_insert; [|done]. eapply Forall_impl; [exact Hdims|].
    intros r0 E. cbn. by rewrite E.
  - rewrite <- (ho_ids _ _ Hh). by apply set_at_inv, Hi.
  - rewrite <- map_insert, (insert_same_id _ _ r) by done. apply Hh.
  - rewrite <- map_insert, (insert_same_id _ _ r), (re_index _ _ _ _ Hi) by done. apply Hh.
  - rewrite <- (ho_revisions _ _ Hh). by apply set_at_inv, Hi.
  - rewrite <- (ho_sequences _ _ Hh). by apply set_at_inv, Hi.
  - rewrite <- (ho_timestamps _ _ Hh). by apply set_at_inv, Hi.
  - rewrite <- map_insert, <- (overwrite_uniform r_vector _ _ _ r _ Hr Hdims), <- (ho_vectors _ _ Hh).
    by apply overwrite_inv, Hi.
  - rewrite <- map_insert, <- (overwrite_uniform row_code (div_ceil2 (len (id_vector d))) _ _ r _ Hr),
      <- (ho_codes _ _ Hh); [by apply overwrite_inv, Hi|].
    eapply Forall_impl; [exact Hdims|]. intros r0 E. unfold row_code. by rewrite bit4_code_len, E.
  - rewrite <- (ho_factors _ _ Hh). by apply set_at_inv, Hi.
  - apply NoDup_filter, Hh.
  - apply Forall_forall. intros r0 Hr0. apply list_elem_of_filter in Hr0 as [_ Hr0].
    rewrite length_insert. pose proof (ho_dead_rows _ _ Hh) as Hall. rewrite Forall_forall in Hall.
    by apply Hall.
  - unfold len. rewrite length_insert. apply Hh.
Qed.

(** *** Sequences, copies, deletes *)

Lemma map_alter_same {A B} (f : A → B) g l i : (∀ a, f (g a) = f a) → map f (alter g i l) = map f l.
Proof.
  intros E. revert i. induction l as [|a l IH]; intros [|i]; cbn; [done..|by rewrite E|].
  by rewrite IH.
Qed.

Lemma map_alter_seq seq row rows :
  map r_seq (alter (with_seq seq) row rows) = <[row := seq]> (map r_seq rows).
Proof. revert row. induction rows as [|r rows IH]; intros [|row]; cbn; [done..|]. by rewrite IH. Qed.

Lemma Forall_alter_same {A} (P : A → Prop) g l i : (∀ a, P a → P (g a)) → Forall P l → Forall P (alter g i l).
Proof.
  intros Hg Hl. revert i. induction Hl as [|a l Ha Hl IH]; intros [|i]; cbn; constructor; auto.
Qed.

Lemma set_sequence_holds v s row seq s' :
  holds v s → set_sequence row seq s = Ok s' →
  holds (view_sequence row seq v) s' ∧ limits s' = limits s ∧ (row < length (v_rows v))%nat.
Proof.
  intros Hh Hi. unfold set_sequence in Hi. apply bind_Ok_inv in Hi as (seqs & Hs & Hi).
  injection Hi as <-. destruct (set_at_inv _ _ _ _ Hs) as [[D L] Hlt].
  rewrite (ho_sequences _ _ Hh), length_map in Hlt.
  split_and!; [|unfold limits; cbn; by rewrite L|done].
  destruct (ho_text _ _ Hh) as (T1 & T2 & T3). destruct (ho_columns _ _ Hh) as (C1 & C2).
  split; cbn -[u32_max]; rewrite ?map_alter_same by done; try apply Hh.
  - by apply Forall_alter_same, Hh.
  - by rewrite D, (ho_sequences _ _ Hh), map_alter_seq.
  - unfold text_holds. destruct (v_text v); rewrite ?map_alter_same by done.
    + split_and!; [done|done|]. by destruct (v_rows v), row.
    + split_and!; [done|done|]. by apply Forall_alter_same.
  - unfold columns_hold. destruct (v_columns v); rewrite ?map_alter_same by done.
    + split; [done|]. destruct C2 as [C2 C3]. split; [by destruct (v_rows v), row|].
      by apply Forall_alter_same.
    + split; [done|]. by apply Forall_alter_same.
  - eapply Forall_impl; [apply Hh|]. intros r Hr. cbn. by rewrite length_alter.
  - unfold len. rewrite length_alter. apply Hh.
Qed.

(** A segment with the same content. *)
Record same_data s' s : Prop := {
  sd_dims : sg_dims s' = sg_dims s;
  sd_index : ar_rows (sg_row_index s') = ar_rows (sg_row_index s);
  sd_ids : bf_data (sg_doc_ids s') = bf_data (sg_doc_ids s);
  sd_revisions : bf_data (sg_revisions s') = bf_data (sg_revisions s);
  sd_sequences : bf_data (sg_sequences s') = bf_data (sg_sequences s);
  sd_timestamps : bf_data (sg_timestamps s') = bf_data (sg_timestamps s);
  sd_metadata : bf_data (rb_offsets (sg_metadata s')) = bf_data (rb_offsets (sg_metadata s))
                ∧ bf_data (rb_bytes (sg_metadata s')) = bf_data (rb_bytes (sg_metadata s));
  sd_present : bf_data (sg_text_present s') = bf_data (sg_text_present s);
  sd_text : bf_data (rb_offsets (sg_text s')) = bf_data (rb_offsets (sg_text s))
            ∧ bf_data (rb_bytes (sg_text s')) = bf_data (rb_bytes (sg_text s));
  sd_columns : bf_data (rb_offsets (sg_columns s')) = bf_data (rb_offsets (sg_columns s))
               ∧ bf_data (rb_bytes (sg_columns s')) = bf_data (rb_bytes (sg_columns s));
  sd_vectors : bf_data (sg_vectors s') = bf_data (sg_vectors s);
  sd_codes : bf_data (sg_codes s') = bf_data (sg_codes s);
  sd_factors : bf_data (sg_factors s') = bf_data (sg_factors s);
  sd_dead : bf_data (sg_tombstones s') = bf_data (sg_tombstones s);
}.

Lemma rows_hold_same rows rb rb' :
  bf_data (rb_offsets rb') = bf_data (rb_offsets rb) → bf_data (rb_bytes rb') = bf_data (rb_bytes rb) →
  rows_hold rows rb → rows_hold rows rb'.
Proof. intros E1 E2 [H1 H2 H3]. split; by rewrite ?E1, ?E2. Qed.

Lemma holds_same_data v s s' : same_data s' s → holds v s → holds v s'.
Proof.
  intros [] []. split; try congruence; try done.
  - by eapply rows_hold_same; [apply sd_metadata0..|].
  - destruct ho_text0 as (T1 & T2 & T3). split_and!; [|congruence|done].
    by eapply rows_hold_same; [apply sd_text0..|].
  - destruct ho_columns0 as (C1 & C2). split; [|done].
    by eapply rows_hold_same; [apply sd_columns0..|].
Qed.

(** Two segments with the same abstract state have the same content. *)
Lemma holds_same v s s' : holds v s → holds v s' → same_data s' s.
Proof.
  intros [] []. destruct ho_text0 as ([] & ? & _), ho_text1 as ([] & ? & _).
  destruct ho_columns0 as ([] & _), ho_columns1 as ([] & _). destruct ho_metadata0, ho_metadata1.
  split; try congruence; split; congruence.
Qed.
End Spec.
