(* ===== verification/ActiveRoom.v ===== *)
(** * Room for a batch

    [copy_for_batch] reserves the buffers of the next version of the active
    segment for a batch of documents.  [room] says that the reserved limits are
    large enough for the documents still to come; every write keeps it, and with
    it no write of the batch fails for want of capacity. *)

From S2P Require Import Prelude Cursor WalReplay Schema Epoch Float Columns Predicate IngestPayload IngestCodec StoreErrors Accounted Bitmap ActiveSegment ActiveSpec.

Section Room.
Context {F : Type} {Q : Quantizer F} {K : HashCapacity}.
Implicit Types (s : ActiveSegment F) (v : View) (d : IngestDocument).

(** ** Room *)

Definition sum_of {A} (f : A → Z) (l : list A) : Z := foldr (λ a n, f a + n) 0 l.

Lemma sum_of_nonneg {A} (f : A → Z) l : (∀ a, 0 ≤ f a) → 0 ≤ sum_of f l.
Proof. intros Hf. induction l as [|a l IH]; [done|]. cbn. specialize (Hf a). unfold sum_of in IH. lia. Qed.

Definition within (used limit : Z) : Prop := used ≤ limit ∧ limit ≤ usize_max.

(** The buffers can take [docs], each appended or written over its row. *)
Record room (dims : Z) (docs : list IngestDocument) v s : Prop := {
  rm_dims : v_dims v = None ∨ v_dims v = Some dims;
  rm_rows : Forall (λ limit, len (v_rows v) + len docs ≤ limit)
    [bf_limit (sg_doc_ids s); ar_capacity (sg_row_index s); bf_limit (sg_revisions s);
     bf_limit (sg_sequences s); bf_limit (sg_timestamps s); bf_limit (rb_offsets (sg_metadata s));
     bf_limit (sg_factors s)];
  rm_metadata : within (len (concat (map r_metadata (v_rows v))) + sum_of (len ∘ id_metadata) docs)
                  (bf_limit (rb_bytes (sg_metadata s)));
  rm_text : v_text v || existsb has_text docs = true →
    len (v_rows v) + len docs ≤ bf_limit (sg_text_present s)
    ∧ len (v_rows v) + len docs ≤ bf_limit (rb_offsets (sg_text s))
    ∧ within (len (concat (map (default [] ∘ r_text) (v_rows v))) + sum_of text_len docs)
        (bf_limit (rb_bytes (sg_text s)));
  rm_columns : v_columns v || existsb id_columns_present docs = true →
    columns_encode [] ∧ Forall (columns_encode ∘ id_columns) docs
    ∧ len (v_rows v) + len docs ≤ bf_limit (rb_offsets (sg_columns s))
    ∧ within (len (concat (map (column_image ∘ r_columns) (v_rows v)))
              + sum_of (len ∘ column_image ∘ id_columns) docs) (bf_limit (rb_bytes (sg_columns s)));
  rm_vectors : within ((len (v_rows v) + len docs) * dims) (bf_limit (sg_vectors s));
  rm_codes : within ((len (v_rows v) + len docs) * div_ceil2 dims) (bf_limit (sg_codes s));
  rm_dead : len (v_dead v) ≤ bf_limit (sg_tombstones s) ∧ bf_limit (sg_tombstones s) ≤ usize_max;
}.

Lemma room_limits dims docs v s s' : limits s' = limits s → room dims docs v s → room dims docs v s'.
Proof.
  unfold limits. intros E []. injection E as E1 E2 E3 E4 E5 E6 E7 E8 E9 E10 E11 E12 E13 E14 E15 E16.
  split; rewrite ?E1, ?E2, ?E3, ?E4, ?E5, ?E6, ?E7, ?E8, ?E9, ?E10, ?E11, ?E12, ?E13, ?E14, ?E15, ?E16;
    done.
Qed.

Lemma existsb_cons_false {A} (f : A → bool) a l b :
  b || (f a || existsb f l) = (b || f a) || existsb f l.
Proof. by rewrite orb_assoc. Qed.

Lemma sum_of_cons {A} (f : A → Z) a l : sum_of f (a :: l) = f a + sum_of f l.
Proof. done. Qed.

(** The bytes of the rows after one of them changed. *)
Lemma len_concat_insert (rows : list Row) (f : Row → bytes) row r x :
  rows !! row = Some r →
  len (concat (map f (<[row := x]> rows))) = len (concat (map f rows)) - len (f r) + len (f x).
Proof.
  intros Hr. rewrite (insert_take_drop _ _ _ (lookup_lt_Some _ _ _ Hr)).
  rewrite <- (take_drop_middle _ _ _ Hr) at 3. rewrite !map_app, !concat_app. cbn [map concat].
  rewrite !len_app. lia.
Qed.

(** One document fewer to come, whichever way it was stored. *)
Lemma room_step dims d docs v v' s :
  room dims (d :: docs) v s →
  v_dims v' = None ∨ v_dims v' = Some dims → len (v_rows v') ≤ len (v_rows v) + 1 → 0 ≤ dims →
  v_text v' = v_text v || has_text d → v_columns v' = v_columns v || id_columns_present d →
  (∀ f : Row → bytes,
     len (concat (map f (v_rows v'))) ≤ len (concat (map f (v_rows v))) + len (f (row_of 0 d))) →
  len (v_dead v') ≤ len (v_dead v) →
  room dims docs v' s.
Proof.
  intros [] Hdims Hrows Hd Ht Hc Hbytes Hdead. unfold within in *. rewrite len_cons in *.
  rewrite ?sum_of_cons in *. cbn [existsb] in *.
  split; rewrite ?Ht, ?Hc; unfold within.
  - done.
  - eapply Forall_impl; [exact rm_rows0|]. intros l Hl. cbn in Hl |- *. lia.
  - specialize (Hbytes r_metadata). unfold compose in *. cbn [row_of r_metadata] in Hbytes. lia.
  - intros E. destruct rm_text0 as (T1 & T2 & T3); [by rewrite orb_assoc|].
    specialize (Hbytes (default [] ∘ r_text)). unfold compose, text_len in *.
    rewrite ?sum_of_cons in T3. cbn [row_of r_text] in Hbytes. lia.
  - intros E. destruct rm_columns0 as (C0 & C1 & C2 & C3); [by rewrite orb_assoc|].
    apply Forall_cons in C1 as [_ C1]. specialize (Hbytes (column_image ∘ r_columns)).
    rewrite ?sum_of_cons in C3. unfold compose in *. cbn [row_of r_columns] in Hbytes.
    split_and!; [done|done|lia|lia|lia].
  - split; [|apply rm_vectors0]. destruct rm_vectors0. nia.
  - assert (0 ≤ div_ceil2 dims) by (unfold div_ceil2; apply Z.div_pos; lia).
    split; [|apply rm_codes0]. destruct rm_codes0. nia.
  - lia.
Qed.

Lemma room_insert dims d docs v s :
  room dims (d :: docs) v s → len (id_vector d) = dims → room dims docs (view_insert d v) s.
Proof.
  intros Hr Hd. pose proof (len_nonneg (id_vector d)).
  eapply room_step; [exact Hr| | |lia|done|done| |done]; cbn.
  - right. by rewrite Hd.
  - rewrite len_app. done.
  - intros f. rewrite map_app, concat_app, len_app. cbn. by rewrite app_nil_r.
Qed.

Lemma room_replace dims d docs v s row r :
  room dims (d :: docs) v s → 0 ≤ dims → v_rows v !! row = Some r →
  room dims docs (view_replace row d v) s.
Proof.
  intros Hr Hd Hrow. eapply room_step; [exact Hr| | |done|done|done| |]; cbn.
  - apply Hr.
  - unfold len. rewrite length_insert. lia.
  - intros f. rewrite (len_concat_insert _ _ _ _ _ Hrow). pose proof (len_nonneg (f r)). lia.
  - unfold len. pose proof (length_filter (λ r, r ≠ row) (v_dead v)). lia.
Qed.

(** *** Enough room is enough *)

Lemma is_ok_bind {E A B} (r : result E A) (k : A → result E B) :
  is_ok r = true → (∀ a, r = Ok a → is_ok (k a) = true) → is_ok (r ≫= k) = true.
Proof. destruct r as [a|]; [|done]. intros _ Hk. by apply Hk. Qed.

Lemma is_ok_lift {A} (r : result StoreError A) : is_ok (lift_store r) = is_ok r.
Proof. by destruct r. Qed.

Lemma is_ok_map_err {E E' A} (f : E → E') (r : result E A) : is_ok (map_err f r) = is_ok r.
Proof. by destruct r. Qed.

(** A vector of the segment's dimension that the quantizer accepts. *)
Definition vector_ok (dims : Z) d : Prop :=
  len (id_vector d) = dims ∧ quant_validate_vector (id_vector d) = Ok tt.

Lemma vector_ok_pos dims d : vector_ok dims d → 1 ≤ dims ≤ MAX_DOT_I8_DIMENSION.
Proof.
  intros [<- Hv]. unfold quant_validate_vector, validate_vector_shape in Hv.
  apply bind_Ok_inv in Hv as (u & Hu & _). pose proof (len_nonneg (id_vector d)).
  destruct (bool_decide_reflect (id_vector d = [])) as [|Hne]; [done|].
  destruct (Z.ltb_spec MAX_DOT_I8_DIMENSION (len (id_vector d))); [done|].
  destruct (id_vector d); [done|]. rewrite len_cons in *. pose proof (len_nonneg l). lia.
Qed.

Lemma quantize_total dims d : vector_ok dims d → is_ok (quantize_bit4 (id_vector d) (div_ceil2 dims)) = true.
Proof.
  intros [<- Hv]. unfold quantize_bit4, validate_input. rewrite Hv. rsimpl.
  by rewrite Z.eqb_refl.
Qed.

Lemma index_rows_size ids : NoDup ids → size (index_rows 0 ids ∅) = length ids.
Proof.
  induction ids as [|id ids IH] using rev_ind; intros Hnd; [done|].
  apply NoDup_app in Hnd as (Hnd & Hnin & _). rewrite index_rows_snoc, length_app.
  unfold or_insert. rewrite index_rows_lookup; [|done|intros; apply lookup_empty].
  assert (list_find (λ i, i = id) ids = None) as ->.
  { apply list_find_None, Forall_forall. intros x Hx ->. apply (Hnin id Hx). left. }
  rewrite lookup_empty, map_size_insert_None; [rewrite IH by done; cbn; lia|].
  rewrite index_rows_lookup; [|done|intros; apply lookup_empty].
  assert (list_find (λ i, i = id) ids = None) as ->; [|apply lookup_empty].
  apply list_find_None, Forall_forall. intros x Hx ->. apply (Hnin id Hx). left.
Qed.

Lemma rows_of_limits dims docs v s limit :
  room dims docs v s →
  limit ∈ [bf_limit (sg_doc_ids s); ar_capacity (sg_row_index s); bf_limit (sg_revisions s);
     bf_limit (sg_sequences s); bf_limit (sg_timestamps s); bf_limit (rb_offsets (sg_metadata s));
     bf_limit (sg_factors s)] →
  len (v_rows v) + len docs ≤ limit.
Proof. intros Hr Hin. pose proof (rm_rows _ _ _ _ Hr) as Ha. rewrite Forall_forall in Ha. by apply Ha. Qed.

(** One entry per row: room for the next one. *)
Lemma row_push_total {A} dims d docs v s (x : A) b :
  room dims (d :: docs) v s → len (bf_data b) = len (v_rows v) →
  bf_limit b ∈ [bf_limit (sg_doc_ids s); ar_capacity (sg_row_index s); bf_limit (sg_revisions s);
     bf_limit (sg_sequences s); bf_limit (sg_timestamps s); bf_limit (rb_offsets (sg_metadata s));
     bf_limit (sg_factors s)] →
  is_ok (lift_store (buffer_push x b)) = true.
Proof.
  intros Hr Hl Hin. pose proof (rows_of_limits _ _ _ _ _ Hr Hin) as Hlim. rewrite len_cons in Hlim.
  pose proof (len_nonneg docs). rewrite is_ok_lift. apply push_total. lia.
Qed.

Lemma rows_insert_total dims d docs v s row :
  holds v s → room dims (d :: docs) v s →
  is_ok (rows_insert (dv_doc_id (id_version d)) row (sg_row_index s)) = true.
Proof.
  intros Hh Hr. pose proof (rows_of_limits _ _ _ _ (ar_capacity (sg_row_index s)) Hr ltac:(set_solver)) as Hc.
  unfold rows_insert. rewrite (ho_index _ _ Hh), index_rows_size, length_map by apply Hh.
  rewrite len_cons in Hc. pose proof (len_nonneg docs). unfold len in Hc at 1.
  rewrite (proj2 (Z.eqb_neq _ _)) by lia. done.
Qed.

(** The text buffers, tracked from now on. *)
Lemma tracked_text_total v s :
  holds v s →
  len (v_rows v) ≤ bf_limit (sg_text_present s) → len (v_rows v) ≤ bf_limit (rb_offsets (sg_text s)) →
  let tracked := if negb (v_text v) then backfill_text (length (v_rows v)) (sg_text_present s) (sg_text s)
                 else Ok (sg_text_present s, sg_text s) in
  is_ok tracked = true
  ∧ ∀ p t, tracked = Ok (p, t) →
      rows_hold (map (default [] ∘ r_text) (v_rows v)) t
      ∧ bf_data p = map (text_flag ∘ r_text) (v_rows v)
      ∧ same_limits t (sg_text s) ∧ bf_limit p = bf_limit (sg_text_present s).
Proof.
  intros Hh T1 T2 tracked. pose proof (ho_text _ _ Hh) as Ht. unfold tracked.
  destruct (v_text v); cbn [negb].
  { split; [done|]. intros p t [= <- <-]. by destruct Ht as (? & ? & ?). }
  split; [|intros p t E; by eapply backfill_text_inv].
  destruct Ht as ([Ro Rb Rs] & Hp & Hn). unfold backfill_text. apply is_ok_bind.
  { apply push_times_total. rewrite Hp. cbn. change (len []) with 0. unfold len in T1 at 1. lia. }
  intros p _. apply is_ok_bind; [|done].
  apply push_times_total. rewrite Ro. cbn. change (len []) with 0. unfold len in T2 at 1. lia.
Qed.

(** The room the next document's text has. *)
Lemma room_text dims d docs v s :
  room dims (d :: docs) v s → v_text v || has_text d = true →
  len (v_rows v) < bf_limit (sg_text_present s) ∧ len (v_rows v) < bf_limit (rb_offsets (sg_text s))
  ∧ within (len (concat (map (default [] ∘ r_text) (v_rows v))) + text_len d)
      (bf_limit (rb_bytes (sg_text s))).
Proof.
  intros Hr E. destruct (rm_text _ _ _ _ Hr) as (T1 & T2 & [T3 T4]).
  { cbn [existsb]. by rewrite orb_assoc, E. }
  rewrite len_cons in *. rewrite sum_of_cons in T3. pose proof (len_nonneg docs).
  assert (0 ≤ sum_of text_len docs) by (apply sum_of_nonneg; intros; apply len_nonneg).
  unfold within. split_and!; lia || done.
Qed.

Lemma tracked_or (a b : bool) : negb a && negb b = false → a || b = true.
Proof. by destruct a, b. Qed.

Lemma append_text_total dims d docs v s :
  holds v s → room dims (d :: docs) v s →
  is_ok (append_text_in_place s (length (v_rows v)) (id_text d)) = true.
Proof.
  intros Hh Hr. unfold append_text_in_place. rewrite (holds_tracks_text _ _ Hh). fold (has_text d).
  destruct (negb (v_text v) && negb (has_text d)) eqn:Eb; [done|]. apply tracked_or in Eb.
  destruct (room_text _ _ _ _ _ Hr Eb) as (T1 & T2 & [T3 T4]).
  destruct (tracked_text_total v s Hh ltac:(lia) ltac:(lia)) as [Hok Hinv].
  apply is_ok_bind; [exact Hok|]. intros [p t] Hpt.
  destruct (Hinv p t Hpt) as (Hr' & Hp & [L1 L2] & Lp).
  apply is_ok_bind; [apply push_total; rewrite Hp, Lp, len_map; lia|]. intros p' _.
  apply is_ok_bind; [|done]. eapply append_row_total; [exact Hr'|..].
  - rewrite len_map, L1. lia.
  - rewrite L2. done.
  - by rewrite L2.
Qed.

Lemma replace_text_total dims d docs v s row r :
  holds v s → room dims (d :: docs) v s → v_rows v !! row = Some r →
  is_ok (replace_text_in_place s row (id_text d)) = true.
Proof.
  intros Hh Hr Hrow. pose proof (lookup_lt_Some _ _ _ Hrow) as Hlt.
  unfold replace_text_in_place. rewrite (holds_tracks_text _ _ Hh), (holds_row_count _ _ Hh).
  rewrite (proj2 (Nat.leb_gt _ _)) by done. fold (has_text d).
  destruct (negb (v_text v) && negb (has_text d)) eqn:Eb; [done|]. apply tracked_or in Eb.
  destruct (room_text _ _ _ _ _ Hr Eb) as (T1 & T2 & [T3 T4]).
  destruct (tracked_text_total v s Hh ltac:(lia) ltac:(lia)) as [Hok Hinv].
  apply is_ok_bind; [exact Hok|]. intros [p t] Hpt.
  destruct (Hinv p t Hpt) as (Hr' & Hp & [L1 L2] & Lp).
  assert (map (default [] ∘ r_text) (v_rows v) !! row = Some (default [] (r_text r))) as Hold
    by (apply list_lookup_fmap_Some; by exists r).
  apply is_ok_bind.
  { eapply replace_row_total; [exact Hr'|exact Hold|..]; rewrite L2; [|done].
    pose proof (len_nonneg (default [] (r_text r))). unfold text_len in T3. lia. }
  intros t' _. apply is_ok_bind; [|done]. apply set_at_total. by rewrite Hp, length_map.
Qed.

Lemma room_columns dims d docs v s :
  room dims (d :: docs) v s → v_columns v || id_columns_present d = true →
  columns_encode [] ∧ columns_encode (id_columns d)
  ∧ len (v_rows v) < bf_limit (rb_offsets (sg_columns s))
  ∧ within (len (concat (map (column_image ∘ r_columns) (v_rows v))) + len (column_image (id_columns d)))
      (bf_limit (rb_bytes (sg_columns s))).
Proof.
  intros Hr E. destruct (rm_columns _ _ _ _ Hr) as (C0 & C1 & C2 & [C3 C4]).
  { cbn [existsb]. by rewrite orb_assoc, E. }
  rewrite len_cons in *. rewrite sum_of_cons in C3. pose proof (len_nonneg docs).
  apply Forall_cons in C1 as [C1 _].
  assert (0 ≤ sum_of (len ∘ column_image ∘ id_columns) docs)
    by (apply sum_of_nonneg; intros; apply len_nonneg).
  unfold compose at 2 3 in C3. unfold within. split_and!; lia || done.
Qed.

(** The column buffers, tracked from now on. *)
Lemma tracked_columns_total v s :
  holds v s → columns_encode [] → len (v_rows v) ≤ bf_limit (rb_offsets (sg_columns s)) →
  within (len (concat (map (column_image ∘ r_columns) (v_rows v)))) (bf_limit (rb_bytes (sg_columns s))) →
  is_ok (if negb (v_columns v) then backfill_columns (length (v_rows v)) (sg_columns s)
         else Ok (sg_columns s)) = true.
Proof.
  intros Hh He Ho [Hb Hm]. destruct (v_columns v) eqn:Ev; cbn [negb]; [done|].
  destruct (ho_columns _ _ Hh) as (Hr & Hn). rewrite Ev in Hr, Hn. unfold backfill_columns.
  apply is_ok_bind; [by rewrite is_ok_map_err, He|]. intros empty Hempty.
  apply map_err_Ok in Hempty. rewrite He in Hempty. injection Hempty as <-.
  rewrite is_ok_lift. eapply append_rows_total; [exact Hr| | |done].
  - change (len []) with 0. unfold len in Ho. lia.
  - rewrite (map_const _ (column_image [])), len_concat_replicate in Hb.
    + cbn. change (len []) with 0. lia.
    + eapply Forall_impl; [exact Hn|]. intros r E. cbn. by rewrite E.
Qed.

Lemma append_columns_total dims d docs v s :
  holds v s → room dims (d :: docs) v s →
  is_ok (append_columns_in_place s (length (v_rows v)) (id_columns_present d) (id_columns d)) = true.
Proof.
  intros Hh Hr. unfold append_columns_in_place. rewrite (holds_tracks_columns _ _ Hh).
  destruct (negb (v_columns v) && negb (id_columns_present d)) eqn:Eb; [done|]. apply tracked_or in Eb.
  destruct (room_columns _ _ _ _ _ Hr Eb) as (C0 & C1 & C2 & [C3 C4]).
  pose proof (len_nonneg (column_image (id_columns d))).
  apply is_ok_bind; [by rewrite is_ok_map_err, C1|]. intros enc He.
  apply map_err_Ok in He. rewrite C1 in He. injection He as <-.
  apply is_ok_bind; [apply tracked_columns_total; [done|done|lia|split; [lia|done]]|].
  intros rows Hrows. destruct (tracked_columns_inv _ _ _ Hh Hrows) as (Hrs & _ & [L1 L2]).
  rewrite is_ok_lift. eapply append_row_total; [exact Hrs|..]; rewrite ?L1, ?L2, ?len_map; done.
Qed.

Lemma replace_columns_total dims d docs v s row r :
  holds v s → room dims (d :: docs) v s → v_rows v !! row = Some r →
  is_ok (replace_columns_in_place s row (id_columns_present d) (id_columns d)) = true.
Proof.
  intros Hh Hr Hrow. pose proof (lookup_lt_Some _ _ _ Hrow) as Hlt.
  unfold replace_columns_in_place. rewrite (holds_tracks_columns _ _ Hh), (holds_row_count _ _ Hh).
  rewrite (proj2 (Nat.leb_gt _ _)) by done.
  destruct (negb (v_columns v) && negb (id_columns_present d)) eqn:Eb; [done|]. apply tracked_or in Eb.
  destruct (room_columns _ _ _ _ _ Hr Eb) as (C0 & C1 & C2 & [C3 C4]).
  pose proof (len_nonneg (column_image (id_columns d))).
  apply is_ok_bind; [by rewrite is_ok_map_err, C1|]. intros enc He.
  apply map_err_Ok in He. rewrite C1 in He. injection He as <-.
  apply is_ok_bind; [apply tracked_columns_total; [done|done|lia|split; [lia|done]]|].
  intros rows Hrows. destruct (tracked_columns_inv _ _ _ Hh Hrows) as (Hrs & _ & [L1 L2]).
  assert (map (column_image ∘ r_columns) (v_rows v) !! row = Some (column_image (r_columns r))) as Hold
    by (apply list_lookup_fmap_Some; by exists r).
  rewrite is_ok_lift. eapply replace_row_total; [exact Hrs|exact Hold|..]; rewrite L2; [|done].
  pose proof (len_nonneg (column_image (r_columns r))). lia.
Qed.

Context {QL : QuantizerLaws F}.

Lemma len_codes v s n :
  holds v s → Forall (λ r, len (r_vector r) = n) (v_rows v) →
  len (bf_data (sg_codes s)) = len (v_rows v) * div_ceil2 n.
Proof using QL.
  intros Hh Hn. rewrite (ho_codes _ _ Hh). apply len_concat_uniform.
  eapply Forall_impl; [exact Hn|]. intros r Hr. cbn. unfold row_code. by rewrite bit4_code_len, Hr.
Qed.

Lemma len_vectors v s n :
  holds v s → Forall (λ r, len (r_vector r) = n) (v_rows v) →
  len (bf_data (sg_vectors s)) = len (v_rows v) * n.
Proof. intros Hh Hn. rewrite (ho_vectors _ _ Hh). by apply len_vectors_uniform. Qed.

Lemma rows_uniform dims docs v s :
  holds v s → room dims docs v s → Forall (λ r, len (r_vector r) = dims) (v_rows v).
Proof.
  intros Hh Hr. eapply Forall_impl; [apply Hh|]. intros r E. cbn in E.
  destruct (rm_dims _ _ _ _ Hr) as [E'|E']; congruence.
Qed.

Lemma appended_row_total dims d docs v s :
  holds v s → room dims (d :: docs) v s → vector_ok dims d → len (v_rows v) ≤ u32_max →
  appended_row_capacities s d = Ok (length (v_rows v), div_ceil2 dims).
Proof.
  intros Hh Hr Hv Hu. pose proof (vector_ok_pos _ _ Hv) as Hpos. destruct Hv as [Hl _].
  unfold appended_row_capacities. rewrite (ho_dims _ _ Hh), (ho_ids _ _ Hh), len_map, Hl.
  assert (match v_dims v with
    | Some expected => if negb (expected =? dims) then Err (IngestStore (StoreDimensionMismatch expected dims)) else Ok tt
    | None => Ok tt end = Ok tt) as ->.
  { destruct (rm_dims _ _ _ _ Hr) as [-> | ->]; [done|]. by rewrite Z.eqb_refl. }
  rsimpl. rewrite (proj2 (Z.eqb_neq _ _)) by lia.
  rewrite try_from_total by (split; [apply len_nonneg|done]). cbn [ok_or]. rsimpl.
  by rewrite to_nat_len.
Qed.

(** With room for it, a new document is appended. *)
Lemma insert_row_total dims d docs v s :
  holds v s → room dims (d :: docs) v s → vector_ok dims d → len (v_rows v) ≤ u32_max →
  is_ok (insert_row_in_place s d) = true.
Proof using QL.
  intros Hh Hr Hv Hu. pose proof (vector_ok_pos _ _ Hv) as Hpos.
  pose proof (rows_uniform _ _ _ _ Hh Hr) as Hun.
  pose proof (len_codes _ _ _ Hh Hun) as Hcodes. pose proof (len_vectors _ _ _ Hh Hun) as Hvecs.
  assert (0 ≤ div_ceil2 dims) as Hstride by (unfold div_ceil2; apply Z.div_pos; lia).
  pose proof (rm_vectors _ _ _ _ Hr) as [V1 V2]. pose proof (rm_codes _ _ _ _ Hr) as [C1 C2].
  pose proof (rm_metadata _ _ _ _ Hr) as [M1 M2]. rewrite len_cons in *. rewrite sum_of_cons in M1.
  pose proof (len_nonneg docs) as Hdocs. pose proof (len_nonneg (v_rows v)) as Hrows.
  assert (0 ≤ sum_of (len ∘ id_metadata) docs) by (apply sum_of_nonneg; intros; apply len_nonneg).
  unfold insert_row_in_place. rewrite (appended_row_total _ _ _ _ _ Hh Hr Hv Hu). rsimpl.
  apply is_ok_bind; [rewrite is_ok_lift; by eapply rows_insert_total|intros ri _].
  apply is_ok_bind; [eapply row_push_total; [exact Hr|by rewrite (ho_ids _ _ Hh), len_map|set_solver]|].
  intros ids _.
  apply is_ok_bind; [eapply row_push_total; [exact Hr|by rewrite (ho_revisions _ _ Hh), len_map|set_solver]|].
  intros revs _.
  apply is_ok_bind; [eapply row_push_total; [exact Hr|by rewrite (ho_sequences _ _ Hh), len_map|set_solver]|].
  intros seqs _.
  apply is_ok_bind; [eapply row_push_total; [exact Hr|by rewrite (ho_timestamps _ _ Hh), len_map|set_solver]|].
  intros tss _.
  apply is_ok_bind.
  { rewrite is_ok_lift. eapply append_row_total; [apply Hh|rewrite len_map| |done].
    - pose proof (rows_of_limits _ _ _ _ (bf_limit (rb_offsets (sg_metadata s))) Hr ltac:(set_solver)).
      rewrite len_cons in *. lia.
    - unfold compose in M1 at 1. lia. }
  intros md _. apply is_ok_bind; [rewrite is_ok_lift; by eapply append_text_total|intros [p t] _].
  apply is_ok_bind; [by eapply append_columns_total|intros cols _].
  apply is_ok_bind; [rewrite is_ok_lift; apply extend_total; [|done];
    rewrite Hvecs; destruct Hv as [-> _]; nia|intros vecs _].
  apply is_ok_bind; [rewrite is_ok_lift; apply push_times_total; rewrite Hcodes, Z2Nat.id by done; nia|].
  intros codes Hc. apply lift_store_Ok in Hc. destruct (push_times_inv _ _ _ _ Hc) as [Dc _].
  unfold checked_mul. change (Z.of_nat (length (v_rows v))) with (len (v_rows v)).
  rewrite (proj2 (Z.leb_le _ usize_max)) by nia. cbn [ok_or]. rsimpl.
  rewrite Dc, slice_from_app by done. cbn [ok_or]. rsimpl.
  replace (len (replicate (Z.to_nat (div_ceil2 dims)) Byte.x00)) with (div_ceil2 dims)
    by (unfold len; rewrite length_replicate; lia).
  apply is_ok_bind; [rewrite is_ok_map_err; by apply quantize_total|intros [code factor] _].
  apply is_ok_bind; [|done].
  eapply row_push_total; [exact Hr|by rewrite (ho_factors _ _ Hh), len_map|set_solver].
Qed.

(** Overwriting a slot of fixed width. *)
Lemma overwrite_total {A} n row (values : list A) b rows :
  0 ≤ n → len (bf_data b) = rows * n → Z.of_nat row < rows →
  is_ok (overwrite_range (Z.of_nat row * n) (Z.of_nat row * n + n) values b) = true
  ∧ ∃ slot, slice_range (bf_data b) (Z.of_nat row * n) (Z.of_nat row * n + n) = Some slot ∧ len slot = n.
Proof.
  intros Hn Hl Hrow. set (start := Z.of_nat row * n). unfold overwrite_range.
  assert (0 ≤ start ∧ start + n ≤ len (bf_data b)) as [H1 H2] by (unfold start; rewrite Hl; nia).
  assert (∃ slot, slice_range (bf_data b) start (start + n) = Some slot ∧ len slot = n) as (slot & Hs & Hsl).
  { unfold slice_range. rewrite (proj2 (Z.leb_le 0 start)), (proj2 (Z.leb_le start _)),
      (proj2 (Z.leb_le _ (len (bf_data b)))) by lia. eexists. split; [done|].
    unfold len in *. rewrite length_take, length_drop. lia. }
  rewrite Hs. split; [done|]. by exists slot.
Qed.

Lemma revive_total dead row (t : Buffer Z) :
  bf_data t = map Z.of_nat dead → len dead ≤ bf_limit t → bf_limit t ≤ usize_max →
  is_ok (revive (Z.of_nat row) t) = true.
Proof.
  intros Hd Hl Hm. unfold revive. destruct (list_find _ (bf_data t)) as [[pos x]|] eqn:E; [|done].
  apply list_find_Some in E as (Hx & _ & _). apply lookup_lt_Some in Hx. rewrite Hd, length_map in Hx.
  unfold checked_add. unfold len in Hl. rewrite (proj2 (Z.leb_le _ _)) by lia. cbn [ok_or]. rsimpl.
  apply replace_range_total; rewrite ?Hd; unfold len; rewrite ?length_map; cbn [length]; lia.
Qed.

(** With room for it, a document is written over its row. *)
Lemma overwrite_row_total dims d docs v s row r :
  holds v s → room dims (d :: docs) v s → vector_ok dims d →
  v_rows v !! row = Some r → r_id r = dv_doc_id (id_version d) →
  is_ok (replace_row_in_place row s d) = true.
Proof using QL.
  intros Hh Hr Hv Hrow Hid. pose proof (vector_ok_pos _ _ Hv) as Hpos.
  pose proof (lookup_lt_Some _ _ _ Hrow) as Hlt. pose proof (rows_uniform _ _ _ _ Hh Hr) as Hun.
  pose proof (len_codes _ _ _ Hh Hun) as Hcodes. pose proof (len_vectors _ _ _ Hh Hun) as Hvecs.
  assert (0 ≤ div_ceil2 dims) as Hstride by (unfold div_ceil2; apply Z.div_pos; lia).
  pose proof (rm_vectors _ _ _ _ Hr) as [V1 V2]. pose proof (rm_codes _ _ _ _ Hr) as [C1 C2].
  pose proof (rm_metadata _ _ _ _ Hr) as [M1 M2]. rewrite len_cons in *. rewrite sum_of_cons in M1.
  pose proof (len_nonneg docs) as Hdocs. assert (Z.of_nat row < len (v_rows v)) as Hltz by (unfold len; lia).
  assert (0 ≤ sum_of (len ∘ id_metadata) docs) by (apply sum_of_nonneg; intros; apply len_nonneg).
  destruct (overwrite_total dims row (id_vector d) (sg_vectors s) _ ltac:(lia) Hvecs Hltz) as [Ov _].
  destruct (overwrite_total (div_ceil2 dims) row (bit4_code (id_vector d)).1 (sg_codes s) _ Hstride Hcodes Hltz)
    as (Oc & slot & Hslot & Hsl).
  assert (v_dims v = Some dims) as Hvd.
  { pose proof (Forall_lookup_1 _ _ _ _ (ho_lengths _ _ Hh) Hrow) as E.
    pose proof (Forall_lookup_1 _ _ _ _ Hun Hrow) as E'. cbn in E, E'. congruence. }
  unfold replace_row_in_place. rewrite (ho_dims _ _ Hh), Hvd. cbn [ok_or]. rsimpl.
  rewrite (proj1 Hv), Z.eqb_refl. cbn [negb].
  assert (bf_data (sg_doc_ids s) !! row = Some (dv_doc_id (id_version d))) as ->.
  { rewrite (ho_ids _ _ Hh), <- Hid. apply list_lookup_fmap_Some. by exists r. }
  cbn [ok_or]. rsimpl. unfold rebind_row. rewrite Z.eqb_refl. rsimpl.
  apply is_ok_bind; [rewrite is_ok_lift; apply set_at_total; by rewrite (ho_ids _ _ Hh), length_map|intros ids _].
  apply is_ok_bind; [rewrite is_ok_lift; apply set_at_total; by rewrite (ho_revisions _ _ Hh), length_map|intros revs _].
  apply is_ok_bind; [rewrite is_ok_lift; apply set_at_total; by rewrite (ho_sequences _ _ Hh), length_map|intros seqs _].
  apply is_ok_bind; [rewrite is_ok_lift; apply set_at_total; by rewrite (ho_timestamps _ _ Hh), length_map|intros tss _].
  apply is_ok_bind.
  { rewrite is_ok_lift. eapply replace_row_total; [apply Hh|by apply list_lookup_fmap_Some; exists r| |done].
    unfold compose in M1 at 1. pose proof (len_nonneg (r_metadata r)). lia. }
  intros md _. apply is_ok_bind; [rewrite is_ok_lift; by eapply replace_text_total|intros [p t] _].
  apply is_ok_bind; [by eapply replace_columns_total|intros cols _].
  unfold checked_mul, checked_add. do 2 (rewrite !(proj2 (Z.leb_le _ usize_max)) by nia; cbn [ok_or]; rsimpl).
  apply is_ok_bind; [by rewrite is_ok_lift|intros vecs _]. rewrite Hslot. cbn [ok_or]. rsimpl. rewrite Hsl.
  apply is_ok_bind; [rewrite is_ok_map_err; by apply quantize_total|intros [code factor] Hq].
  apply map_err_Ok, quantize_Ok in Hq as (-> & -> & _).
  apply is_ok_bind; [by rewrite is_ok_lift|intros codes _].
  apply is_ok_bind; [rewrite is_ok_lift; apply set_at_total; by rewrite (ho_factors _ _ Hh), length_map|intros facs _].
  pose proof (ho_small _ _ Hh). rewrite try_from_total by lia. cbn [ok_or]. rsimpl.
  apply is_ok_bind; [|done]. rewrite is_ok_lift. pose proof (rm_dead _ _ _ _ Hr) as [D1 D2].
  by eapply revive_total; [apply Hh| |].
Qed.

(** ** The reservation *)

Lemma sum_capacity_inv lengths : ∀ c n,
  sum_capacity lengths c = Ok n → c ≤ usize_max → n = c + sum_of id lengths ∧ n ≤ usize_max.
Proof.
  induction lengths as [|l lengths IH]; intros c n E Hc; cbn [sum_capacity] in E.
  - injection E as <-. change (sum_of id []) with 0. lia.
  - apply bind_Ok_inv in E as (c' & Hc' & E). unfold checked_add in Hc'.
    destruct (Z.leb_spec (c + l) usize_max); [|done]. injection Hc' as <-.
    destruct (IH _ _ E ltac:(done)) as [-> ?]. rewrite sum_of_cons. unfold id at 2. lia.
Qed.

Lemma sum_of_map {A} (f : A → Z) l : sum_of id (map f l) = sum_of f l.
Proof. induction l as [|a l IH]; [done|]. cbn [map]. by rewrite !sum_of_cons, IH. Qed.

Lemma sum_columns_inv docs : ∀ c n,
  sum_columns docs c = Ok n → c ≤ usize_max →
  n = c + sum_of (len ∘ column_image ∘ id_columns) docs ∧ n ≤ usize_max
  ∧ Forall (columns_encode ∘ id_columns) docs.
Proof.
  induction docs as [|d docs IH]; intros c n E Hc; cbn [sum_columns] in E.
  - injection E as <-. change (sum_of _ []) with 0. split_and!; [lia|lia|constructor].
  - apply bind_Ok_inv in E as (enc & He & E). apply map_err_Ok, encodes_image in He as [Hee Hei].
    apply bind_Ok_inv in E as (c' & Hc' & E). unfold checked_add in Hc'.
    destruct (Z.leb_spec (c + len enc) usize_max); [|done]. injection Hc' as <-.
    destruct (IH _ _ E ltac:(done)) as (-> & ? & ?). rewrite sum_of_cons. unfold compose in *.
    rewrite Hei. split_and!; [lia|lia|by constructor].
Qed.

(** What the computed capacities cover. *)
Record covers s (dims : Z) (docs : list IngestDocument) v (c : WorkingCapacities) : Prop := {
  cv_rows : wc_row_count c = len (v_rows v) + len docs;
  cv_vectors : within ((len (v_rows v) + len docs) * dims) (wc_vector_count c);
  cv_codes : within ((len (v_rows v) + len docs) * div_ceil2 dims) (wc_code_count c);
  cv_metadata : within (len (concat (map r_metadata (v_rows v))) + sum_of (len ∘ id_metadata) docs)
                  (wc_metadata_capacity c);
  cv_text : match wc_text_capacity c with
            | Some n => within (len (concat (map (default [] ∘ r_text) (v_rows v))) + sum_of text_len docs) n
            | None => v_text v || existsb has_text docs = false
            end;
  cv_columns : match wc_column_capacity c with
               | Some n => within (len (concat (map (column_image ∘ r_columns) (v_rows v)))
                                   + sum_of (len ∘ column_image ∘ id_columns) docs) n
                           ∧ Forall (columns_encode ∘ id_columns) docs
               | None => v_columns v || existsb id_columns_present docs = false
               end;
}.

Lemma columns_encode_nil : columns_encode [].
Proof. reflexivity. Qed.

Lemma text_bytes v s : holds v s →
  len (bf_data (rb_bytes (sg_text s))) = len (concat (map (default [] ∘ r_text) (v_rows v)))
  ∧ len (concat (map (default [] ∘ r_text) (v_rows v))) ≤ usize_max.
Proof.
  intros Hh. destruct (ho_text _ _ Hh) as ([_ Rb Rs] & _ & Hn). rewrite Rb.
  destruct (v_text v); [done|]. rewrite (map_const _ []), concat_nils; [done|].
  eapply Forall_impl; [exact Hn|]. intros r E. cbn. by rewrite E.
Qed.

(** The bytes of the columns before the batch, tracked or about to be. *)
Lemma column_start v s start :
  holds v s →
  (if v_columns v then Ok (len (bf_data (rb_bytes (sg_columns s))))
   else empty ← map_err IngestErrorPayload (encode_column_values []);
        ok_or (checked_mul usize_max (Z.of_nat (row_count s)) (len empty))
          (IngestStore StoreActiveRowOverflow)) = Ok start →
  start = len (concat (map (column_image ∘ r_columns) (v_rows v))) ∧ start ≤ usize_max.
Proof.
  intros Hh Hs. destruct (ho_columns _ _ Hh) as ([_ Rb Rs] & Hn). destruct (v_columns v).
  { injection Hs as <-. by rewrite Rb. }
  apply bind_Ok_inv in Hs as (empty & He & Hs). apply map_err_Ok, encodes_image in He as [Hee Hei].
  unfold checked_mul in Hs. destruct (Z.leb_spec (Z.of_nat (row_count s) * len empty) usize_max); [|done].
  injection Hs as <-. rewrite (holds_row_count _ _ Hh), (map_const _ empty), len_concat_replicate;
    [rewrite (holds_row_count _ _ Hh) in *; done|].
  eapply Forall_impl; [exact Hn|]. intros r E. cbn. by rewrite E.
Qed.

Lemma working_capacities_inv v s first docs c :
  holds v s → working_capacities s first docs = Ok c →
  let dims := len (id_vector first) in
  (v_dims v = None ∨ v_dims v = Some dims) ∧ dims ≠ 0 ∧ covers s dims docs v c.
Proof.
  intros Hh E dims. unfold working_capacities in E. cbn zeta in E.
  rewrite (ho_dims _ _ Hh), (holds_tracks_text _ _ Hh), (holds_tracks_columns _ _ Hh) in E.
  destruct (Z.eqb_spec (default (len (id_vector first)) (v_dims v)) 0) as [|Hnz]; [done|].
  destruct (Z.eqb_spec (len (id_vector first)) (default (len (id_vector first)) (v_dims v))) as [Ed|]; [|done].
  cbn [negb] in E. fold dims in E, Ed, Hnz. rewrite <- Ed in E, Hnz.
  apply bind_Ok_inv in E as (rows & Hrows & E). apply bind_Ok_inv in E as (vc & Hvc & E).
  apply bind_Ok_inv in E as (cc & Hcc & E). apply bind_Ok_inv in E as (mc & Hmc & E).
  apply bind_Ok_inv in E as (tc & Htc & E). apply bind_Ok_inv in E as (kc & Hkc & E). injection E as <-.
  split_and!; [destruct (v_dims v); [right; by rewrite Ed|by left]|done|].
  rewrite (holds_row_count _ _ Hh) in Hrows. unfold checked_add, checked_mul in *.
  destruct (Z.leb_spec (Z.of_nat (length (v_rows v)) + len docs) usize_max); [|done]. injection Hrows as <-.
  destruct (_ <=? usize_max) eqn:Ev in Hvc; [|done]. injection Hvc as <-. apply Z.leb_le in Ev.
  destruct (_ <=? usize_max) eqn:Ec in Hcc; [|done]. injection Hcc as <-. apply Z.leb_le in Ec.
  destruct (ho_metadata _ _ Hh) as [_ Mb Ms]. rewrite Mb in Hmc.
  apply sum_capacity_inv in Hmc as [-> Hm]; [|done]. rewrite sum_of_map in Hm |- *.
  destruct (text_bytes _ _ Hh) as [Tb Ts].
  split; cbn [wc_row_count wc_vector_count wc_code_count wc_metadata_capacity wc_text_capacity
    wc_column_capacity]; unfold within; try done.
  - change (existsb _ docs) with (existsb has_text docs) in Htc.
    destruct (v_text v || existsb has_text docs).
    + apply bind_Ok_inv in Htc as (n & Hn & Htc). injection Htc as <-. rewrite Tb in Hn.
      apply sum_capacity_inv in Hn as [-> Hn]; [|done]. rewrite sum_of_map in Hn |- *. lia.
    + by injection Htc as <-.
  - destruct (v_columns v || existsb id_columns_present docs).
    + apply bind_Ok_inv in Hkc as (start & Hs & Hkc). apply bind_Ok_inv in Hkc as (n & Hn & Hkc).
      injection Hkc as <-. apply (column_start _ _ _ Hh) in Hs as [-> Hs].
      apply sum_columns_inv in Hn as (-> & Hn & Hall); [|done]. split; [lia|done].
    + by injection Hkc as <-.
Qed.

Lemma lift_copy_inv {A} (l : list A) n b :
  lift_store (copy_accounted l n) = Ok b → bf_data b = l ∧ bf_limit b = n.
Proof. intros E. by apply lift_store_Ok, copy_inv in E. Qed.

Lemma copy_rows_inv rb rows n rb' :
  lift_store (copy_rows rb rows n) = Ok rb' →
  (bf_data (rb_offsets rb') = bf_data (rb_offsets rb) ∧ bf_data (rb_bytes rb') = bf_data (rb_bytes rb))
  ∧ bf_limit (rb_offsets rb') = rows ∧ bf_limit (rb_bytes rb') = n.
Proof.
  intros E%lift_store_Ok. unfold copy_rows in E. apply bind_Ok_inv in E as (o & Ho & E).
  apply bind_Ok_inv in E as (b & Hb & E). injection E as <-.
  apply copy_inv in Ho as [? ?]. by apply copy_inv in Hb as [? ?].
Qed.

(** The text buffers of the copy. *)
Lemma copied_text v s dims docs c tp tx :
  holds v s → covers s dims docs v c →
  match wc_text_capacity c with
  | Some text_capacity =>
      present ← lift_store (copy_accounted (bf_data (sg_text_present s)) (wc_row_count c));
      text ← lift_store (copy_rows (sg_text s) (wc_row_count c) text_capacity);
      Ok (present, text)
  | None => Ok (unaccounted_empty, empty_rows)
  end = Ok (tp, tx) →
  bf_data tp = bf_data (sg_text_present s)
  ∧ (bf_data (rb_offsets tx) = bf_data (rb_offsets (sg_text s))
     ∧ bf_data (rb_bytes tx) = bf_data (rb_bytes (sg_text s)))
  ∧ (v_text v || existsb has_text docs = true →
     len (v_rows v) + len docs ≤ bf_limit tp ∧ len (v_rows v) + len docs ≤ bf_limit (rb_offsets tx)
     ∧ within (len (concat (map (default [] ∘ r_text) (v_rows v))) + sum_of text_len docs)
         (bf_limit (rb_bytes tx))).
Proof.
  intros Hh [] Ht. destruct (wc_text_capacity c) as [n|].
  - apply bind_Ok_inv in Ht as (tp' & [T1 T2]%lift_copy_inv & Ht).
    apply bind_Ok_inv in Ht as (tx' & [T3 [T4 T5]]%copy_rows_inv & Ht). injection Ht as <- <-.
    split; [done|]. split; [done|]. intros _. rewrite T2, T4, T5, cv_rows0. done.
  - injection Ht as <- <-. rewrite cv_text0. apply orb_false_iff in cv_text0 as [Ev _].
    destruct (ho_text _ _ Hh) as ([Ro Rb _] & Hp & _). rewrite Ev in Ro, Rb, Hp.
    by rewrite Ro, Rb, Hp.
Qed.

Lemma copied_columns v s dims docs c cols :
  holds v s → covers s dims docs v c →
  match wc_column_capacity c with
  | Some column_capacity => lift_store (copy_rows (sg_columns s) (wc_row_count c) column_capacity)
  | None => Ok empty_rows
  end = Ok cols →
  (bf_data (rb_offsets cols) = bf_data (rb_offsets (sg_columns s))
   ∧ bf_data (rb_bytes cols) = bf_data (rb_bytes (sg_columns s)))
  ∧ (v_columns v || existsb id_columns_present docs = true →
     columns_encode [] ∧ Forall (columns_encode ∘ id_columns) docs
     ∧ len (v_rows v) + len docs ≤ bf_limit (rb_offsets cols)
     ∧ within (len (concat (map (column_image ∘ r_columns) (v_rows v)))
            + sum_of (len ∘ column_image ∘ id_columns) docs) (bf_limit (rb_bytes cols))).
Proof.
  intros Hh [] Hcols. destruct (wc_column_capacity c) as [n|].
  - apply copy_rows_inv in Hcols as [C1 [C2 C3]]. destruct cv_columns0 as [Hw Hall].
    split; [done|]. intros _. rewrite C2, C3, cv_rows0. done.
  - injection Hcols as <-. rewrite cv_columns0. apply orb_false_iff in cv_columns0 as [Ev _].
    destruct (ho_columns _ _ Hh) as ([Ro Rb _] & _). rewrite Ev in Ro, Rb. rewrite Ro, Rb. by split_and!.
Qed.

Context {KL : HashCapacityLaws}.

(** The copy has the same rows, and room for the batch. *)
Lemma copy_for_batch_inv v s first docs s' :
  holds v s → copy_for_batch s first docs = Ok s' → len (bf_data (sg_tombstones s)) ≤ usize_max →
  holds v s' ∧ room (len (id_vector first)) docs v s' ∧ len (id_vector first) ≠ 0.
Proof using KL.
  intros Hh E Hts. unfold copy_for_batch in E. apply bind_Ok_inv in E as (c & Hc & E).
  apply (working_capacities_inv _ _ _ _ _ Hh) in Hc as (Hd & Hnz & Hcv).
  apply bind_Ok_inv in E as (ids & [D1 L1]%lift_copy_inv & E).
  apply bind_Ok_inv in E as (revs & [D2 L2]%lift_copy_inv & E).
  apply bind_Ok_inv in E as (seqs & [D3 L3]%lift_copy_inv & E).
  apply bind_Ok_inv in E as (tss & [D4 L4]%lift_copy_inv & E).
  apply bind_Ok_inv in E as (md & [D5 [L5 L5']]%copy_rows_inv & E).
  apply bind_Ok_inv in E as ([tp tx] & Ht & E). apply bind_Ok_inv in E as (cols & Hcols & E).
  apply bind_Ok_inv in E as (vecs & [D6 L6]%lift_copy_inv & E).
  apply bind_Ok_inv in E as (codes & [D7 L7]%lift_copy_inv & E).
  apply bind_Ok_inv in E as (facs & [D8 L8]%lift_copy_inv & E).
  apply bind_Ok_inv in E as (dead & [D9 L9]%lift_copy_inv & E). injection E as <-.
  destruct (copied_text _ _ _ _ _ _ _ Hh Hcv Ht) as (Dt & Dt' & Rt).
  destruct (copied_columns _ _ _ _ _ _ Hh Hcv Hcols) as (Dc & Rc). destruct Hcv.
  split_and!; [|split; cbn|done].
  - eapply holds_same_data; [|exact Hh]. split; cbn; try done. by rewrite (ho_index _ _ Hh), (ho_ids _ _ Hh).
  - done.
  - rewrite L1, L2, L3, L4, L5, L8, cv_rows0.
    repeat constructor; try done. apply hash_capacity_ge.
  - by rewrite L5'.
  - done.
  - done.
  - by rewrite L6.
  - by rewrite L7.
  - rewrite L9. rewrite (ho_dead _ _ Hh), len_map in Hts |- *. done.
Qed.

(** *** When the reservation succeeds *)

(** The totals after the batch are machine integers. *)
Record fits (dims : Z) (docs : list IngestDocument) v : Prop := {
  ft_dims : v_dims v = None ∨ v_dims v = Some dims;
  ft_pos : 1 ≤ dims;
  ft_vectors : (len (v_rows v) + len docs) * dims ≤ usize_max;
  ft_metadata : len (concat (map r_metadata (v_rows v))) + sum_of (len ∘ id_metadata) docs ≤ usize_max;
  ft_text : len (concat (map (default [] ∘ r_text) (v_rows v))) + sum_of text_len docs ≤ usize_max;
  ft_columns : len (concat (map (column_image ∘ r_columns) (v_rows v)))
               + sum_of (len ∘ column_image ∘ id_columns) docs ≤ usize_max;
  ft_encode : Forall (columns_encode ∘ id_columns) docs;
}.

Lemma sum_capacity_total lengths : ∀ c,
  Forall (λ l, 0 ≤ l) lengths → c + sum_of id lengths ≤ usize_max →
  is_ok (sum_capacity lengths c) = true.
Proof.
  induction lengths as [|l lengths IH]; intros c Hp Hc; [done|]. apply Forall_cons in Hp as [Hl Hp].
  rewrite sum_of_cons in Hc. unfold id at 1 in Hc. cbn [sum_capacity].
  assert (0 ≤ sum_of id lengths) by (clear -Hp; induction Hp; [done|rewrite sum_of_cons; unfold id at 1; lia]).
  unfold checked_add. rewrite (proj2 (Z.leb_le _ _)) by lia. cbn [ok_or]. rsimpl. apply IH; [done|lia].
Qed.

Lemma sum_columns_total docs : ∀ c,
  Forall (columns_encode ∘ id_columns) docs →
  c + sum_of (len ∘ column_image ∘ id_columns) docs ≤ usize_max →
  is_ok (sum_columns docs c) = true.
Proof.
  induction docs as [|d docs IH]; intros c Hp Hc; [done|]. apply Forall_cons in Hp as [Hl Hp].
  rewrite sum_of_cons in Hc. unfold compose at 1 2 in Hc. cbn [sum_columns].
  assert (0 ≤ sum_of (len ∘ column_image ∘ id_columns) docs)
    by (apply sum_of_nonneg; intros; apply len_nonneg).
  unfold compose, columns_encode in Hl. rewrite Hl. cbn [map_err]. rsimpl.
  unfold checked_add. rewrite (proj2 (Z.leb_le _ _)) by lia. cbn [ok_or]. rsimpl. apply IH; [done|lia].
Qed.

Lemma div_ceil2_le n : 1 ≤ n → 0 ≤ div_ceil2 n ≤ n.
Proof. intros H. unfold div_ceil2. split; [apply Z.div_pos; lia|]. apply Z.div_le_upper_bound; lia. Qed.

Lemma lengths_nonneg {A} (f : A → bytes) l : Forall (λ n, 0 ≤ n) (map (len ∘ f) l).
Proof. apply Forall_fmap, Forall_forall. intros x _. apply len_nonneg. Qed.

Lemma column_start_total v s :
  holds v s → len (concat (map (column_image ∘ r_columns) (v_rows v))) ≤ usize_max →
  is_ok (if v_columns v then Ok (len (bf_data (rb_bytes (sg_columns s))))
   else empty ← map_err IngestErrorPayload (encode_column_values []);
        ok_or (checked_mul usize_max (Z.of_nat (row_count s)) (len empty))
          (IngestStore StoreActiveRowOverflow)) = true.
Proof.
  intros Hh Hc. destruct (ho_columns _ _ Hh) as (_ & Hn). destruct (v_columns v); [done|].
  rewrite columns_encode_nil. cbn [map_err]. rsimpl. rewrite (holds_row_count _ _ Hh).
  rewrite (map_const _ (column_image [])), len_concat_replicate in Hc.
  - unfold checked_mul. by rewrite (proj2 (Z.leb_le _ _)).
  - eapply Forall_impl; [exact Hn|]. intros r E. cbn. by rewrite E.
Qed.

Lemma working_capacities_total v s first docs :
  holds v s → fits (len (id_vector first)) docs v → is_ok (working_capacities s first docs) = true.
Proof.
  intros Hh []. unfold working_capacities. cbn zeta. set (dims := len (id_vector first)) in *.
  rewrite (ho_dims _ _ Hh), (holds_tracks_text _ _ Hh), (holds_tracks_columns _ _ Hh).
  assert (default dims (v_dims v) = dims) as -> by (by destruct ft_dims0 as [-> | ->]).
  rewrite (proj2 (Z.eqb_neq dims 0)), Z.eqb_refl by lia. cbn [negb].
  pose proof (len_nonneg (v_rows v)). pose proof (len_nonneg docs). pose proof (div_ceil2_le dims ft_pos0).
  rewrite (holds_row_count _ _ Hh). change (Z.of_nat (length (v_rows v))) with (len (v_rows v)).
  rewrite checked_add_total by nia. cbn [ok_or]. rsimpl.
  do 2 (rewrite checked_mul_total by nia; cbn [ok_or]; rsimpl). apply is_ok_bind.
  { apply sum_capacity_total; [apply (lengths_nonneg id_metadata)|]. rewrite (rh_bytes _ _ (ho_metadata _ _ Hh)).
    by rewrite sum_of_map. }
  intros mc _. apply is_ok_bind.
  { destruct (_ || _); [|done]. apply is_ok_bind; [|done]. apply sum_capacity_total.
    - apply (lengths_nonneg (λ d, default [] (id_text d))).
    - by rewrite (proj1 (text_bytes _ _ Hh)), sum_of_map. }
  intros tc _. apply is_ok_bind; [|done]. destruct (_ || _); [|done].
  assert (0 ≤ sum_of (len ∘ column_image ∘ id_columns) docs)
    by (apply sum_of_nonneg; intros; apply len_nonneg).
  apply is_ok_bind.
  { pose proof (column_start_total _ _ Hh ltac:(lia)) as Hs. by rewrite (holds_row_count _ _ Hh) in Hs. }
  intros start Hs. assert (start = len (concat (map (column_image ∘ r_columns) (v_rows v)))) as ->.
  { apply (column_start _ _ _ Hh). by rewrite (holds_row_count _ _ Hh). }
  apply is_ok_bind; [|done]. by apply sum_columns_total.
Qed.

Lemma lift_copy_total {A} (l : list A) n :
  len l ≤ n → n ≤ usize_max → is_ok (lift_store (copy_accounted l n)) = true.
Proof. intros. rewrite is_ok_lift. by apply copy_total. Qed.

Lemma copy_rows_total rb rows n m :
  rows_hold rows rb → len rows ≤ n → n ≤ usize_max → len (concat rows) ≤ m → m ≤ usize_max →
  is_ok (lift_store (copy_rows rb n m)) = true.
Proof.
  intros [Ho Hb _] Hn Hn' Hm Hm'. rewrite is_ok_lift. unfold copy_rows.
  apply is_ok_bind; [apply copy_total; [|done]; rewrite Ho; unfold len in *; by rewrite length_end_offsets|].
  intros o _. apply is_ok_bind; [|done]. apply copy_total; [|done]. by rewrite Hb.
Qed.

Lemma concat_if_le {A} (f : A → bytes) (b : bool) l :
  len (concat (if b then map f l else [])) ≤ len (concat (map f l)) ∧ len (if b then map f l else []) ≤ len l.
Proof.
  pose proof (len_nonneg (concat (map f l))). pose proof (len_nonneg l).
  destruct b; [by rewrite len_map|]. cbn [concat]. change (len (@nil byte)) with 0.
  change (len (@nil bytes)) with 0. lia.
Qed.

Lemma copy_for_batch_total v s first docs :
  holds v s → fits (len (id_vector first)) docs v → len (v_dead v) ≤ usize_max →
  is_ok (copy_for_batch s first docs) = true.
Proof using QL.
  intros Hh Hf Hdead. unfold copy_for_batch.
  pose proof (working_capacities_total _ _ _ _ Hh Hf) as Hw. apply is_ok_bind; [exact Hw|].
  intros c Hc. apply (working_capacities_inv _ _ _ _ _ Hh) in Hc as (_ & _ & []). destruct Hf.
  pose proof (len_nonneg (v_rows v)). pose proof (len_nonneg docs). pose proof (div_ceil2_le _ ft_pos0).
  assert (wc_row_count c ≤ usize_max ∧ len (v_rows v) ≤ wc_row_count c) as [Hrc Hrc'] by (split; nia).
  assert (0 ≤ sum_of (len ∘ id_metadata) docs) by (apply sum_of_nonneg; intros; apply len_nonneg).
  assert (0 ≤ sum_of text_len docs) by (apply sum_of_nonneg; intros; apply len_nonneg).
  assert (0 ≤ sum_of (len ∘ column_image ∘ id_columns) docs) by (apply sum_of_nonneg; intros; apply len_nonneg).
  assert (Forall (λ r, len (r_vector r) = len (id_vector first)) (v_rows v)) as Hun.
  { eapply Forall_impl; [apply Hh|]. intros r E. cbn in E. destruct ft_dims0; congruence. }
  apply is_ok_bind; [apply lift_copy_total; [by rewrite (ho_ids _ _ Hh), len_map|done]|intros ids _].
  apply is_ok_bind; [apply lift_copy_total; [by rewrite (ho_revisions _ _ Hh), len_map|done]|intros revs _].
  apply is_ok_bind; [apply lift_copy_total; [by rewrite (ho_sequences _ _ Hh), len_map|done]|intros seqs _].
  apply is_ok_bind; [apply lift_copy_total; [by rewrite (ho_timestamps _ _ Hh), len_map|done]|intros tss _].
  apply is_ok_bind.
  { destruct cv_metadata0. eapply copy_rows_total; [apply Hh|by rewrite len_map|done|lia|done]. }
  intros md _. apply is_ok_bind.
  { destruct (ho_text _ _ Hh) as (Rt & Dp & _). destruct (wc_text_capacity c); [|done].
    destruct cv_text0, (concat_if_le (default [] ∘ r_text) (v_text v) (v_rows v)).
    apply is_ok_bind; [apply lift_copy_total; [|done]|intros p _; apply is_ok_bind; [|done]].
    - rewrite Dp. destruct (v_text v); [by rewrite len_map|]. change (len (@nil Z)) with 0. lia.
    - eapply copy_rows_total; [exact Rt|lia|done|lia|done]. }
  intros [p t] _. apply is_ok_bind.
  { destruct (ho_columns _ _ Hh) as (Rc & _). destruct (wc_column_capacity c); [|done].
    destruct cv_columns0 as [[] _], (concat_if_le (column_image ∘ r_columns) (v_columns v) (v_rows v)).
    eapply copy_rows_total; [exact Rc|lia|done|lia|done]. }
  intros cols _. destruct cv_vectors0, cv_codes0.
  apply is_ok_bind; [apply lift_copy_total; [rewrite (len_vectors _ _ _ Hh Hun); nia|done]|intros vecs _].
  apply is_ok_bind; [apply lift_copy_total; [rewrite (len_codes _ _ _ Hh Hun); nia|done]|intros codes _].
  apply is_ok_bind; [apply lift_copy_total; [by rewrite (ho_factors _ _ Hh), len_map|done]|intros facs _].
  apply is_ok_bind; [apply lift_copy_total; [done|by rewrite (ho_dead _ _ Hh), len_map]|done].
Qed.
End Room.
