(* ===== verification/ActiveSteps.v ===== *)
(** * What a logged mutation does to the active segment

    The effect of one logged mutation on the abstract rows ([view_mutation]) and
    the condition under which the code accepts it ([mutation_fits]).  Recovery
    applies the mutations of a batch one at a time, giving each its sequence as
    it goes; ingest applies all of them first and then writes the sequences.
    [sequence_after] and [delete_after] show that the order does not matter. *)

From S2P Require Import Prelude Cursor WalReplay Schema Epoch Float Columns Predicate IngestPayload IngestCodec StoreErrors Accounted Bitmap ActiveSegment ActiveSpec ActiveRoom.

Implicit Types (v : View) (d : IngestDocument).

Definition find_row (id : DocId) v : option nat :=
  fst <$> list_find (λ i, i = id) (map r_id (v_rows v)).

(** The row a document goes to: its own, or a new one. *)
Definition upsert_row d v : nat :=
  default (length (v_rows v)) (find_row (dv_doc_id (id_version d)) v).

Definition view_upsert d v : View :=
  match find_row (dv_doc_id (id_version d)) v with
  | Some row => view_replace row d v
  | None => view_insert d v
  end.

Definition kill (dead : list nat) (row : nat) : list nat :=
  if bool_decide (row ∈ dead) then dead else dead ++ [row].

Definition view_kill (seq : Z) v (id : DocId) : View :=
  match find_row id v with
  | Some row => view_sequence row seq (view_dead (kill (v_dead v) row) v)
  | None => v
  end.

(** One member of a committed batch. *)
Definition view_mutation v (member : Z * Z * MutationPayload) : View :=
  let '(seq, _, mutation) := member in
  match mutation with
  | Upsert d => view_sequence (upsert_row d v) seq (view_upsert d v)
  | Delete ids => foldl (view_kill seq) v ids
  | _ => v
  end.

Definition view_replay (members : list (Z * Z * MutationPayload)) v : View :=
  foldl view_mutation v members.

(** The document has the segment's dimension and a finite vector, a revision
    above the stored one, and a row that a [u32] can number. *)
Definition upsert_fits v d : Prop :=
  vector_ok (len (id_vector d)) d
  ∧ (v_dims v = None ∨ v_dims v = Some (len (id_vector d)))
  ∧ doc_columns_ok d ∧ columns_encode (id_columns d)
  ∧ match find_row (dv_doc_id (id_version d)) v with
    | Some row => v_dims v = Some (len (id_vector d))
                  ∧ ∀ r, v_rows v !! row = Some r → r_revision r < dv_revision (id_version d)
    | None => len (v_rows v) ≤ u32_max
    end.

Definition mutation_fits v (mutation : MutationPayload) : Prop :=
  match mutation with
  | Upsert d => upsert_fits v d
  | Delete _ => True
  | _ => False
  end.

Fixpoint run_fits v (members : list (Z * Z * MutationPayload)) : Prop :=
  match members with
  | [] => True
  | m :: members => mutation_fits v m.2 ∧ run_fits (view_mutation v m) members
  end.

Definition docs_of (members : list (Z * Z * MutationPayload)) : list IngestDocument :=
  omap (λ m, match m.2 with Upsert d => Some d | _ => None end) members.

Definition ids_of (members : list (Z * Z * MutationPayload)) : list DocId :=
  concat (map (λ m, match m.2 with Delete ids => ids | _ => [] end) members).

Lemma run_fits_app v ms1 ms2 :
  run_fits v (ms1 ++ ms2) ↔ run_fits v ms1 ∧ run_fits (view_replay ms1 v) ms2.
Proof.
  revert v. induction ms1 as [|m ms1 IH]; intros v; cbn; [tauto|]. rewrite IH.
  unfold view_replay. cbn. tauto.
Qed.

(** ** Rows found *)

Lemma find_row_lookup id v row :
  find_row id v = Some row → ∃ r, v_rows v !! row = Some r ∧ r_id r = id.
Proof.
  unfold find_row. intros E. destruct (list_find _ _) as [[n x]|] eqn:El; [|done]. injection E as ->.
  apply list_find_Some in El as (Hx & -> & _). apply list_lookup_fmap_Some in Hx as (r & E & Hr).
  by exists r.
Qed.

Lemma find_row_None id v : find_row id v = None ↔ id ∉ map r_id (v_rows v).
Proof.
  unfold find_row. rewrite fmap_None, list_find_None, Forall_forall. split.
  - intros Hf Hin. by apply (Hf id Hin).
  - intros Hn i Hi ->. done.
Qed.

Lemma find_row_ids id v v' : map r_id (v_rows v') = map r_id (v_rows v) → find_row id v' = find_row id v.
Proof. unfold find_row. by intros ->. Qed.

Lemma sequence_ids row seq v : map r_id (v_rows (view_sequence row seq v)) = map r_id (v_rows v).
Proof. cbn. by apply map_alter_same. Qed.

Lemma find_row_sequence id row seq v : find_row id (view_sequence row seq v) = find_row id v.
Proof. apply find_row_ids, sequence_ids. Qed.

Lemma upsert_row_sequence d row seq v : upsert_row d (view_sequence row seq v) = upsert_row d v.
Proof. unfold upsert_row. rewrite find_row_sequence. cbn. by rewrite length_alter. Qed.

(** ** Sequences commute with the rest *)

Lemma sequence_same row q q' v : view_sequence row q (view_sequence row q' v) = view_sequence row q v.
Proof.
  unfold view_sequence. cbn. f_equal. rewrite list_alter_alter_eq. by apply list_alter_ext.
Qed.

Lemma sequence_commute row row' q q' v :
  row ≠ row' → view_sequence row q (view_sequence row' q' v) = view_sequence row' q' (view_sequence row q v).
Proof. intros Hne. unfold view_sequence. cbn. f_equal. by apply list_alter_alter_ne. Qed.

Lemma insert_alter_same {A} (l : list A) i f x : <[i := x]> (alter f i l) = <[i := x]> l.
Proof. revert i. induction l as [|y l IH]; intros [|i]; cbn; [done..|]. by rewrite IH. Qed.

Lemma insert_alter_ne {A} (l : list A) i j f x : i ≠ j → <[i := x]> (alter f j l) = alter f j (<[i := x]> l).
Proof.
  revert i j. induction l as [|y l IH]; intros [|i] [|j] Hne; cbn; try done. rewrite IH; [done|]. lia.
Qed.

Lemma alter_end {A} (l : list A) f : alter f (length l) l = l.
Proof. induction l as [|y l IH]; [done|]. cbn. by rewrite IH. Qed.

Lemma alter_snoc {A} (l : list A) i f x : i ≠ length l → alter f i l ++ [x] = alter f i (l ++ [x]).
Proof.
  revert i. induction l as [|y l IH]; intros [|i] Hne; cbn in *; try done. rewrite IH; [done|]. lia.
Qed.

Lemma upsert_sequence_ne d row q v :
  row ≠ upsert_row d v → view_upsert d (view_sequence row q v) = view_sequence row q (view_upsert d v).
Proof.
  unfold view_upsert, upsert_row. rewrite find_row_sequence. destruct (find_row _ v) as [r|]; cbn [default]; intros Hne.
  - unfold view_replace, view_sequence. cbn. f_equal. apply insert_alter_ne. done.
  - unfold view_insert, view_sequence. cbn. f_equal. by apply alter_snoc.
Qed.

Lemma upsert_sequence_eq d q v : view_upsert d (view_sequence (upsert_row d v) q v) = view_upsert d v.
Proof.
  unfold view_upsert, upsert_row. rewrite find_row_sequence. destruct (find_row _ v) as [r|]; cbn [default].
  - unfold view_replace, view_sequence. cbn. f_equal. apply insert_alter_same.
  - unfold view_insert, view_sequence. cbn. f_equal. by rewrite alter_end.
Qed.

(** ** A batch of upserts *)

Definition sequences (rows : list (nat * Z)) v : View :=
  foldl (λ v r, view_sequence r.1 r.2 v) v rows.

Definition applied (docs : list IngestDocument) v : View := foldl (λ v d, view_upsert d v) v docs.

Lemma upsert_row_sequences d rows : ∀ v, upsert_row d (sequences rows v) = upsert_row d v.
Proof.
  induction rows as [|r rows IH]; intros v; [done|]. unfold sequences in *. cbn [foldl].
  by rewrite IH, upsert_row_sequence.
Qed.

Lemma sequences_absorb rows row q q' : ∀ v,
  view_sequence row q (sequences rows (view_sequence row q' v)) = view_sequence row q (sequences rows v).
Proof.
  induction rows as [|[r1 q1] rows IH]; intros v; unfold sequences in *; cbn [foldl fst snd].
  - apply sequence_same.
  - destruct (decide (r1 = row)) as [->|Hne]; [by rewrite sequence_same|].
    by rewrite (sequence_commute r1 row), IH.
Qed.

(** Writing earlier sequences before or after an upsert that gets its own. *)
Lemma sequences_upsert rows d q : ∀ v,
  let row := upsert_row d v in
  view_sequence row q (view_upsert d (sequences rows v))
  = view_sequence row q (sequences rows (view_upsert d v)).
Proof.
  induction rows as [|[r1 q1] rows IH]; intros v row; [done|].
  unfold sequences in *. cbn [foldl fst snd].
  specialize (IH (view_sequence r1 q1 v)). cbn zeta in IH.
  rewrite upsert_row_sequence in IH. fold row in IH. rewrite IH.
  destruct (decide (r1 = row)) as [->|Hne].
  - pose proof (upsert_sequence_eq d q1 v) as E. fold row in E. rewrite E. symmetry. apply (sequences_absorb rows).
  - by rewrite upsert_sequence_ne.
Qed.

Fixpoint upsert_rows (docs : list IngestDocument) v : list nat :=
  match docs with
  | [] => []
  | d :: docs => upsert_row d v :: upsert_rows docs (view_upsert d v)
  end.

Lemma length_upsert_rows docs : ∀ v, length (upsert_rows docs v) = length docs.
Proof. induction docs as [|d docs IH]; intros v; [done|]. cbn. by rewrite IH. Qed.

Lemma upsert_rows_snoc docs d : ∀ v,
  upsert_rows (docs ++ [d]) v = upsert_rows docs v ++ [upsert_row d (applied docs v)].
Proof. induction docs as [|d' docs IH]; intros v; cbn; [done|]. by rewrite IH. Qed.

(** The members a batch of upserts is logged as, from sequence [first]. *)
Definition upsert_members (op first : Z) (docs : list IngestDocument) : list (Z * Z * MutationPayload) :=
  imap (λ i d, (first + Z.of_nat i, op, Upsert d)) docs.

Lemma upsert_members_snoc op first docs d :
  upsert_members op first (docs ++ [d])
  = upsert_members op first docs ++ [(first + len docs, op, Upsert d)].
Proof. unfold upsert_members. rewrite imap_app. cbn. by rewrite Nat.add_0_r. Qed.

(** Replaying the members one by one is applying the batch and then writing the
    sequences of its rows. *)
Lemma sequence_after op first docs v :
  view_replay (upsert_members op first docs) v
  = sequences (zip (upsert_rows docs v) (map (λ i, first + Z.of_nat i) (seq 0 (length docs))))
      (applied docs v).
Proof.
  induction docs as [|d docs IH] using rev_ind; [done|].
  rewrite upsert_members_snoc, upsert_rows_snoc, length_app. cbn [length].
  rewrite Nat.add_1_r, seq_S, map_app. unfold view_replay, applied in *. rewrite !foldl_app.
  rewrite IH. cbn [foldl view_mutation map].
  rewrite zip_with_app by (rewrite length_upsert_rows, length_map, length_seq; done).
  unfold sequences at 3. rewrite foldl_app. cbn [zip_with foldl fst snd].
  rewrite upsert_row_sequences. apply sequences_upsert.
Qed.

(** The conditions do not depend on sequences either. *)
Lemma upsert_fits_sequence row q v d : upsert_fits (view_sequence row q v) d ↔ upsert_fits v d.
Proof.
  unfold upsert_fits. rewrite find_row_sequence. cbn [view_sequence v_dims v_rows].
  unfold len. rewrite length_alter. destruct (find_row _ v) as [r|]; [|done].
  assert ((∀ r0, alter (with_seq q) row (v_rows v) !! r = Some r0 → r_revision r0 < dv_revision (id_version d))
    ↔ (∀ r0, v_rows v !! r = Some r0 → r_revision r0 < dv_revision (id_version d))) as Hiff; [|tauto].
  destruct (decide (row = r)) as [->|Hne].
  - rewrite list_lookup_alter_eq. destruct (v_rows v !! r) as [x|]; cbn; [|done].
    split; intros H r0 [= <-]; by apply (H _ eq_refl).
  - by rewrite list_lookup_alter_ne.
Qed.

Lemma upsert_fits_sequences rows d : ∀ v, upsert_fits (sequences rows v) d ↔ upsert_fits v d.
Proof.
  induction rows as [|r rows IH]; intros v; [done|]. unfold sequences in *. cbn [foldl].
  by rewrite IH, upsert_fits_sequence.
Qed.

Fixpoint docs_fit v (docs : list IngestDocument) : Prop :=
  match docs with
  | [] => True
  | d :: docs => upsert_fits v d ∧ docs_fit (view_upsert d v) docs
  end.

Lemma docs_fit_snoc docs d : ∀ v,
  docs_fit v (docs ++ [d]) ↔ docs_fit v docs ∧ upsert_fits (applied docs v) d.
Proof. induction docs as [|d' docs IH]; intros v; cbn; [tauto|]. rewrite IH. unfold applied. cbn. tauto. Qed.

Lemma docs_fit_run op first docs v : docs_fit v docs → run_fits v (upsert_members op first docs).
Proof.
  induction docs as [|d docs IH] using rev_ind; [done|]. intros [Hd Hf]%docs_fit_snoc.
  rewrite upsert_members_snoc, run_fits_app. split; [by apply IH|]. cbn. split; [|done].
  rewrite sequence_after. by apply upsert_fits_sequences.
Qed.

(** ** A delete *)

Definition mark (q : Z) (rows : list nat) (l : list Row) : list Row :=
  foldl (λ l row, alter (with_seq q) row l) l rows.

Lemma view_kills q ids : ∀ v,
  let rows := omap (λ id, find_row id v) ids in
  foldl (view_kill q) v ids
  = {| v_dims := v_dims v; v_rows := mark q rows (v_rows v); v_text := v_text v;
       v_columns := v_columns v; v_dead := foldl kill (v_dead v) rows |}.
Proof.
  induction ids as [|id ids IH]; intros v rows; [by destruct v|]. cbn [foldl]. rewrite IH.
  assert (∀ i, find_row i (view_kill q v id) = find_row i v) as Hf.
  { intros i. unfold view_kill. destruct (find_row id v) as [r|]; [|done].
    rewrite find_row_sequence. done. }
  assert (omap (λ id0, find_row id0 (view_kill q v id)) ids = omap (λ id0, find_row id0 v) ids) as ->.
  { clear IH rows. induction ids as [|i ids IH]; [done|]. cbn. by rewrite Hf, IH. }
  unfold rows. cbn [omap list_omap]. unfold view_kill. destruct (find_row id v) as [r|]; done.
Qed.

Lemma mark_done q row (l : list Row) r :
  alter (with_seq q) row l = l → alter (with_seq q) row (alter (with_seq q) r l) = alter (with_seq q) r l.
Proof.
  intros E. destruct (decide (row = r)) as [->|Hne]; [by rewrite !E|].
  rewrite list_alter_alter_ne by done. by rewrite E.
Qed.

Lemma mark_again q row (l : list Row) :
  alter (with_seq q) row (alter (with_seq q) row l) = alter (with_seq q) row l.
Proof. rewrite list_alter_alter_eq. by apply list_alter_ext. Qed.

Lemma elem_of_kill dead r row : row ∈ kill dead r ↔ row = r ∨ row ∈ dead.
Proof.
  unfold kill. case_bool_decide; [|rewrite elem_of_app, list_elem_of_singleton]; naive_solver.
Qed.

(** The rows a delete asks for, each id once. *)
Fixpoint wanted_rows (seen : gset Z) (find : DocId → option nat) (ids : list DocId) : list nat :=
  match ids with
  | [] => []
  | id :: ids =>
      let rest := wanted_rows ({[id]} ∪ seen) find ids in
      if bool_decide (id ∈ seen) then rest
      else match find id with Some row => row :: rest | None => rest end
  end.

Lemma wanted_kills find ids : ∀ seen dead,
  (∀ id row, id ∈ seen → find id = Some row → row ∈ dead) →
  foldl kill dead (wanted_rows seen find ids) = foldl kill dead (omap find ids).
Proof.
  induction ids as [|id ids IH]; intros seen dead Hs; [done|]. cbn [wanted_rows omap list_omap].
  case_bool_decide as Hin.
  - rewrite IH by set_solver. destruct (find id) as [r|] eqn:E; [|done]. cbn [foldl].
    unfold kill at 3. by rewrite bool_decide_true by (by eapply Hs).
  - destruct (find id) as [r|] eqn:E; cbn [foldl]; apply IH.
    + intros i row [->%elem_of_singleton|Hi]%elem_of_union Hr; rewrite elem_of_kill; [left; congruence|right].
      by eapply Hs.
    + intros i row [->%elem_of_singleton|Hi]%elem_of_union Hr; [congruence|]. by eapply Hs.
Qed.

Lemma wanted_marks q find ids : ∀ seen l,
  (∀ id row, id ∈ seen → find id = Some row → alter (with_seq q) row l = l) →
  mark q (wanted_rows seen find ids) l = mark q (omap find ids) l.
Proof.
  induction ids as [|id ids IH]; intros seen l Hs; [done|]. cbn [wanted_rows omap list_omap].
  case_bool_decide as Hin.
  - rewrite IH by set_solver. destruct (find id) as [r|] eqn:E; [|done]. unfold mark. cbn [foldl].
    by rewrite (Hs id r Hin E).
  - destruct (find id) as [r|] eqn:E; unfold mark in *; cbn [foldl]; apply IH.
    + intros i row [->%elem_of_singleton|Hi]%elem_of_union Hr.
      * assert (row = r) as -> by congruence. apply mark_again.
      * apply mark_done. by eapply Hs.
    + intros i row [->%elem_of_singleton|Hi]%elem_of_union Hr; [congruence|]. by eapply Hs.
Qed.

(** Replaying the ids one by one is tombstoning the wanted rows and then
    writing their sequence. *)
Lemma delete_after q ids v :
  let rows := wanted_rows ∅ (λ id, find_row id v) ids in
  foldl (view_kill q) v ids
  = sequences (map (λ row, (row, q)) rows) (view_dead (foldl kill (v_dead v) rows) v).
Proof.
  intros rows. rewrite view_kills. unfold rows. rewrite <- (wanted_kills _ _ ∅) by set_solver.
  rewrite <- (wanted_marks _ _ _ ∅) by set_solver. fold rows.
  assert (∀ rows w, sequences (map (λ row, (row, q)) rows) w
    = {| v_dims := v_dims w; v_rows := mark q rows (v_rows w); v_text := v_text w;
         v_columns := v_columns w; v_dead := v_dead w |}) as Hs; [|by rewrite Hs].
  clear. induction rows as [|r rows IH]; intros w; [by destruct w|].
  unfold sequences in *. cbn [map foldl fst snd]. by rewrite IH.
Qed.
