(* ===== verification/AtomicBatch.v ===== *)
(** * Crash atomicity of a mutation batch

    Models [crates/zeppelin-embed/src/ingest/atomic_batch.rs]: the framing of a
    batch's records as members of one run, the selection of the mutations that
    committed from a recovered log, and the repair that cuts an interrupted
    append off the log before the writer resumes. *)

From S2P Require Import Prelude Format WalRecord WalReplay Durability Cursor Vfs IngestPayload StoreErrors.

(** ** Framing *)

(** The closure of [frame_batch]: one record becomes member [index]. *)
Definition frame_member (count : Z) (item : (Z * Z * bytes) * Z)
    : result IngestError (Z * Z * bytes) :=
  let '((row, op, payload), index) := item in
  if negb (op =? UPSERT_V2) then Err (IngestErrorPayload (PayloadUnknownOperation op))
  else
  member ← map_err IngestErrorPayload (encode_upsert_v2_batch_member index count payload);
  Ok (row, UPSERT_V2_BATCH_MEMBER, member).

Definition frame_batch (records : list (Z * Z * bytes))
    : result IngestError (list (Z * Z * bytes)) :=
  if len records <? 2 then Ok records
  else
  count ← ok_or (try_from u32_max (len records)) (IngestErrorPayload PayloadLengthOverflow);
  mapM (frame_member count) (zip records (Z.of_nat <$> seq 0 (length records))).

(** [mixed_batch_group_bytes] ([wal_payload.rs]). *)
Definition MIXED_BATCH_MEMBER_FRAMED_OVERHEAD : Z := 10 + MIN_RECORD_LEN.

Definition mixed_batch_group_bytes (header_bytes : Z) (inner_payload_bytes : list Z)
    (max_group_bytes : Z) : result WalWriteError Z :=
  let encoded_bytes :=
    foldl (λ sum length,
             sum ← sum; sum ← checked_add usize_max sum length;
             checked_add usize_max sum MIXED_BATCH_MEMBER_FRAMED_OVERHEAD)
      (Some header_bytes) inner_payload_bytes in
  match encoded_bytes with
  | Some encoded =>
      if encoded <=? max_group_bytes then Ok encoded
      else Err (GroupTooLarge encoded max_group_bytes)
  | None => Err (GroupTooLarge usize_max max_group_bytes)
  end.

(** ** Committed batches *)

Record CommittedBatch : Type := {
  cb_last_seq : Z;
  cb_members : list (Z * Z * MutationPayload);
}.

(** The locals of the loop in [committed_batches]. *)
Record RunState : Type := {
  rs_prepared : list (Z * PreparedMutation);
  rs_committed : list CommittedBatch;
  rs_run : list (Z * Z * MutationPayload);
  rs_count : Z;
  rs_op : Z;
}.

Section Committed.
Context {X : Xxh3}.
Variable decision : TransactionBinding → option TransactionBinding.

(** [transaction_decision(b, decision(b)) == TransactionDecision::Committed]. *)
Definition decided (b : TransactionBinding) : bool :=
  bool_decide (transaction_decision b (decision b) = Committed).

(** [prepared_run.first().is_some_and(..Committed)]. *)
Definition prepared_decided (run : list (Z * PreparedMutation)) : bool :=
  match run with
  | (_, prior) :: _ => decided (pm_binding prior)
  | [] => false
  end.

Definition prepared_step (record : VisibleRecord) (payload : bytes) (s : RunState)
    : result StoreError RunState :=
  let mismatch := StoreWalMutation (vr_seq record) (vr_op record) PayloadTransactionBinding in
  member ← map_err (StoreWalMutation (vr_seq record) (vr_op record)) (decode_prepared payload);
  if negb (bool_decide (checked_add u64_max (tb_first_seq (pm_binding member)) (pm_index member)
                        = Some (vr_seq record)))
  then Err mismatch
  else
  prepared ← (if pm_index member =? 0
              then if prepared_decided (rs_prepared s) then Err mismatch else Ok []
              else Ok (rs_prepared s));
  if negb (pm_index member =? len prepared)
     || match prepared with
        | (_, first) :: _ => negb (bool_decide (pm_binding first = pm_binding member))
        | [] => false
        end
  then Err mismatch
  else
  let status := transaction_decision (pm_binding member) (decision (pm_binding member)) in
  if bool_decide (status = Mismatch) then Err mismatch
  else
  let complete := bool_decide (checked_add u32_max (pm_index member) 1 = Some (pm_count member)) in
  let prepared := prepared ++ [(vr_seq record, member)] in
  Ok (if complete
      then {| rs_prepared := [];
              rs_committed :=
                if bool_decide (status = Committed)
                then rs_committed s ++
                     [{| cb_last_seq := vr_seq record;
                         cb_members := map (λ '(seq, m), (seq, pm_op m, pm_mutation m)) prepared |}]
                else rs_committed s;
              rs_run := []; rs_count := rs_count s; rs_op := rs_op s |}
      else {| rs_prepared := prepared; rs_committed := rs_committed s; rs_run := [];
              rs_count := rs_count s; rs_op := rs_op s |}).

(** A member of a local run, after the prepared run was dropped. *)
Definition member_step (record : VisibleRecord) (index count op : Z) (m : MutationPayload)
    (s : RunState) : result StoreError RunState :=
  if negb (index =? 0)
     && (negb (vr_op record =? rs_op s) || negb (count =? rs_count s)
         || negb (index =? len (rs_run s)))
  then Err (StoreWalMutation (vr_seq record) (vr_op record) (PayloadOrphanBatchMember index count))
  else
  let run := if index =? 0 then [] else rs_run s in
  let run_count := if index =? 0 then count else rs_count s in
  let run_op := if index =? 0 then vr_op record else rs_op s in
  let run := run ++ [(vr_seq record, op, m)] in
  Ok (if bool_decide (checked_add u32_max index 1 = Some count)
      then {| rs_prepared := [];
              rs_committed := rs_committed s ++
                              [{| cb_last_seq := vr_seq record; cb_members := run |}];
              rs_run := []; rs_count := run_count; rs_op := run_op |}
      else {| rs_prepared := []; rs_committed := rs_committed s; rs_run := run;
              rs_count := run_count; rs_op := run_op |}).

Definition plain_step (record : VisibleRecord) (payload : bytes) (s : RunState)
    : result StoreError RunState :=
  if prepared_decided (rs_prepared s)
  then Err (StoreWalMutation (vr_seq record) (vr_op record) PayloadTransactionBinding)
  else
  mutation ← map_err (StoreWalMutation (vr_seq record) (vr_op record))
               (decode_mutation (vr_op record) payload);
  match mutation with
  | BatchMember index count document =>
      member_step record index count (vr_op record) (Upsert document) s
  | MixedBatchMember index count op mutation => member_step record index count op mutation s
  | mutation =>
      Ok {| rs_prepared := [];
            rs_committed := rs_committed s ++
              [{| cb_last_seq := vr_seq record;
                  cb_members := [(vr_seq record, vr_op record, mutation)] |}];
            rs_run := []; rs_count := rs_count s; rs_op := rs_op s |}
  end.

(** One turn of the loop. *)
Definition committed_step (absorbed_through : Z) (record : VisibleRecord) (s : RunState)
    : result StoreError RunState :=
  if vr_seq record <=? absorbed_through then Ok s
  else
  payload ← map_err (StoreWalRecord (vr_seq record)) (visible_payload record);
  if vr_op record =? PREPARED_MUTATION_V1 then prepared_step record payload s
  else plain_step record payload s.

Fixpoint committed_loop (absorbed_through : Z) (records : list VisibleRecord) (s : RunState)
    : result StoreError RunState :=
  match records with
  | [] => Ok s
  | record :: records =>
      s ← committed_step absorbed_through record s;
      committed_loop absorbed_through records s
  end.

Definition run_start : RunState :=
  {| rs_prepared := []; rs_committed := []; rs_run := []; rs_count := 0; rs_op := 0 |}.

Definition committed_batches (records : list VisibleRecord) (absorbed_through : Z)
    : result StoreError (list CommittedBatch) :=
  s ← committed_loop absorbed_through records run_start;
  match rs_prepared s with
  | (seq, member) :: _ =>
      if decided (pm_binding member)
      then Err (StoreWalMutation seq PREPARED_MUTATION_V1 PayloadTransactionBinding)
      else Ok (rs_committed s)
  | [] => Ok (rs_committed s)
  end.

Definition committed_mutations_with_decisions (records : list VisibleRecord)
    (absorbed_through : Z) : result StoreError (list (Z * Z * MutationPayload)) :=
  batches ← committed_batches records absorbed_through;
  Ok (concat (map cb_members batches)).
End Committed.

Definition committed_mutations {X : Xxh3} (records : list VisibleRecord) (absorbed_through : Z)
    : result StoreError (list (Z * Z * MutationPayload)) :=
  committed_mutations_with_decisions (λ _, None) records absorbed_through.

(** ** The cut *)

Definition WAL_FILE : string := "wal.ze".
Definition CUT_TEMPORARY : string := ".wal.ze.purge.tmp".

Definition interrupted_append (error : RecordError) : bool :=
  match error with
  | HeaderTruncated _ _ => true
  | BodyTruncated _ needed _ => needed <=? DEFAULT_MAX_GROUP_BYTES_DURABLE
  | LengthOverflow _ | ChecksumMismatch _ _ _ => false
  end.

(** The offset of a final record torn by the end of the log, if that is how its
    replay ends. *)
Definition interrupted_offset {X : Xxh3} (b : bytes) : option Z :=
  match replay b with
  | Some {| rr_terminator := CorruptAt offset (ReasonRecord Tail error) |} =>
      if interrupted_append error then Some offset else None
  | _ => None
  end.

Section Cut.
Context {X : Xxh3} {S : Type} `{Vfs S}.

Definition cut_interrupted_append (policy : DurabilityPolicy) (s : S)
    : S * result StoreError bool :=
  match v_open WAL_FILE s with
  | Err NotFound => (s, Ok false)
  | Err k => (s, Err (StoreIo WAL_FILE k))
  | Ok length =>
    match v_read WAL_FILE s with
    | Err k => (s, Err (StoreIo WAL_FILE k))
    | Ok b =>
      if negb (bool_decide (try_from u64_max (len b) = Some length)) then (s, Ok false)
      else
      match interrupted_offset b with
      | None => (s, Ok false)
      | Some offset =>
        match slice_to b offset with
        | None => (s, Err (StoreSynchronization "interrupted WAL append offset"))
        | Some prefix =>
          match v_write CUT_TEMPORARY prefix s with
          | (s, Err k) => (s, Err (StoreIo CUT_TEMPORARY k))
          | (s, Ok _) =>
            match sync_if (data_file_sync policy) (File CUT_TEMPORARY) s with
            | (s, Err k) => (s, Err (StoreIo CUT_TEMPORARY k))
            | (s, Ok _) =>
              match v_read CUT_TEMPORARY s with
              | Err k => (s, Err (StoreIo CUT_TEMPORARY k))
              | Ok written =>
                if negb (bool_decide (written = prefix)) then (s, Ok false)
                else
                match v_rename CUT_TEMPORARY WAL_FILE s with
                | (s, Err k) => (s, Err (StoreIo WAL_FILE k))
                | (s, Ok _) =>
                  match sync_if (directory_sync policy) Directory s with
                  | (s, Err k) => (s, Err (StoreIo "." k))
                  | (s, Ok _) => (s, Ok true)
                  end
                end
              end
            end
          end
        end
      end
    end
  end.
(** The log part of [ActiveState::recover]: the clean log and its committed
    batches, or nothing when there is no log yet.  [decision] is what the root
    catalog has decided; the outer option is the arithmetic panic of replay. *)
Definition recover_log (decision : TransactionBinding → option TransactionBinding)
    (absorbed_through graph_absorbed_through : Z) (s : S)
    : option (result StoreError (option (CleanWalReader * list CommittedBatch))) :=
  match v_open WAL_FILE s with
  | Ok 0 => Some (Ok None)
  | Ok _ =>
    match reader_open (v_read WAL_FILE s) with
    | None => None
    | Some opened =>
        Some (reader ← map_err StoreWal opened;
              clean ← map_err StoreWalRecovery (into_clean reader);
              batches ← committed_batches decision (cl_records clean)
                          (Z.min absorbed_through graph_absorbed_through);
              Ok (Some (clean, batches)))
    end
  | Err NotFound => Some (Ok None)
  | Err k => Some (Err (StoreWal (ReadIo k)))
  end.
End Cut.
