(* ===== verification/AtomicBatchSpec.v ===== *)
(** * Whole batches only

    The abstract specification of a recovered log is a list of attempts: calls
    that appended the records of one batch, of which a crash may have kept only
    the first few.  [committed_batches] implements it: it returns exactly the
    attempts whose records are all there (and, for a prepared transaction, were
    decided), whatever was interrupted before, between or after them. *)

From S2P Require Import Prelude Format WalRecord WalReplay Durability WalInvariant Cursor Vfs Schema Float Columns Predicate IngestPayload IngestCodec StoreErrors AtomicBatch.

(** ** Attempts *)

(** One record of an attempt: its payload, and the operation and mutation replay
    reports for it. *)
Record Member : Type := {
  mb_payload : bytes;
  mb_op : Z;
  mb_mutation : MutationPayload;
}.

Inductive Attempt : Type :=
| OneRecord (member : Member)
| LocalRun (op : Z) (members : list Member)
| PreparedRun (binding : TransactionBinding) (members : list Member).

Definition attempt_members (a : Attempt) : list Member :=
  match a with
  | OneRecord m => [m]
  | LocalRun _ ms | PreparedRun _ ms => ms
  end.

(** The operation id of each record. *)
Definition attempt_op (a : Attempt) : Z :=
  match a with
  | OneRecord m => mb_op m
  | LocalRun op _ => op
  | PreparedRun _ _ => PREPARED_MUTATION_V1
  end.

Definition attempt_records (a : Attempt) : list (Z * bytes) :=
  map (λ m, (attempt_op a, mb_payload m)) (attempt_members a).

Definition is_member (m : MutationPayload) : bool :=
  match m with
  | MixedBatchMember _ _ _ _ | BatchMember _ _ _ => true
  | Upsert _ | Delete _ | EditMetadata _ => false
  end.

(** Record [i] of an [n]-record local run with record operation [op]. *)
Definition run_member (op n : Z) (i : Z) (m : Member) : Prop :=
  match decode_mutation op (mb_payload m) with
  | Ok (BatchMember i' n' d) => i' = i ∧ n' = n ∧ mb_op m = op ∧ mb_mutation m = Upsert d
  | Ok (MixedBatchMember i' n' o x) => i' = i ∧ n' = n ∧ mb_op m = o ∧ mb_mutation m = x
  | _ => False
  end.

Definition prepared_member (b : TransactionBinding) (n : Z) (i : Z) (m : Member) : Prop :=
  decode_prepared (mb_payload m)
  = Ok {| pm_binding := b; pm_index := i; pm_count := n; pm_op := mb_op m;
          pm_mutation := mb_mutation m |}.

(** The attempt's records carry the positions [0..n). *)
Definition attempt_ok (a : Attempt) : Prop :=
  match a with
  | OneRecord m =>
      decode_mutation (mb_op m) (mb_payload m) = Ok (mb_mutation m)
      ∧ is_member (mb_mutation m) = false ∧ mb_op m ≠ PREPARED_MUTATION_V1
  | LocalRun op ms =>
      op ≠ PREPARED_MUTATION_V1 ∧ ms ≠ [] ∧ len ms ≤ u32_max
      ∧ ∀ i m, ms !! i = Some m → run_member op (len ms) (Z.of_nat i) m
  | PreparedRun b ms =>
      ms ≠ [] ∧ len ms ≤ u32_max
      ∧ ∀ i m, ms !! i = Some m → prepared_member b (len ms) (Z.of_nat i) m
  end.

(** An attempt and how many of its records the log kept. *)
Definition Logged : Type := Attempt * nat.

Definition kept (l : Logged) : list (Z * bytes) := take l.2 (attempt_records l.1).

Definition complete (l : Logged) : bool := (length (attempt_records l.1) <=? l.2)%nat.

Section Spec.
Context {X : Xxh3} (decision : TransactionBinding → option TransactionBinding).

(** An attempt in a log position: a prepared run is bound to its sequence, the
    root either has no decision or the same evidence, and a decided run is whole. *)
Definition logged_ok (first : Z) (l : Logged) : Prop :=
  attempt_ok l.1 ∧
  match l.1 with
  | PreparedRun b ms =>
      tb_first_seq b = first ∧ first + len ms ≤ u64_max
      ∧ is_ok (member_count b) = true
      ∧ (decision b = None ∨ decision b = Some b ∧ complete l = true)
  | _ => True
  end.

Fixpoint log_ok (first : Z) (ls : list Logged) : Prop :=
  match ls with
  | [] => True
  | l :: ls => logged_ok first l ∧ log_ok (first + len (kept l)) ls
  end.

(** The log the attempts leave. *)
Definition log_records (ls : list Logged) : list (Z * bytes) := concat (map kept ls).

(** What an attempt commits when it is whole. *)
Definition run_of (first : Z) (ms : list Member) : list (Z * Z * MutationPayload) :=
  imap (λ i m, (first + Z.of_nat i, mb_op m, mb_mutation m)) ms.

Definition commits (l : Logged) : bool :=
  complete l &&
  match l.1 with
  | PreparedRun b _ => bool_decide (is_Some (decision b))
  | _ => true
  end.

(** The specification: the attempts that were appended whole, in log order. *)
Fixpoint whole_attempts (first : Z) (ls : list Logged) : list CommittedBatch :=
  match ls with
  | [] => []
  | l :: ls =>
      (if commits l
       then [{| cb_last_seq := first + len (attempt_members l.1) - 1;
                cb_members := run_of first (attempt_members l.1) |}] else [])
      ++ whole_attempts (first + len (kept l)) ls
  end.

(** ** One record *)

(** A visible record shows the log record [r]. *)
Definition shows (r : WalRecord) (v : VisibleRecord) : Prop :=
  vr_seq v = wr_seq r ∧ vr_op v = wr_op r ∧ visible_payload v = Ok (wr_payload r).

Lemma committed_step_shows absorbed r v s :
  shows r v → absorbed < wr_seq r →
  committed_step decision absorbed v s
  = (if wr_op r =? PREPARED_MUTATION_V1 then prepared_step decision v (wr_payload r) s
     else plain_step decision v (wr_payload r) s).
Proof.
  intros (Hs & Ho & Hp) Ha. unfold committed_step. rewrite Hs, Ho, Hp.
  rewrite (proj2 (Z.leb_gt _ _)) by lia. done.
Qed.

Lemma committed_loop_app absorbed vs1 vs2 s :
  committed_loop decision absorbed (vs1 ++ vs2) s
  = committed_loop decision absorbed vs1 s ≫= committed_loop decision absorbed vs2.
Proof.
  revert s. induction vs1 as [|v vs1 IH]; intros s; [done|]. cbn [app committed_loop].
  destruct (committed_step decision absorbed v s); [apply IH|done].
Qed.

(** A prepared run that was not decided may be dropped. *)
Definition droppable (s : RunState) : Prop := prepared_decided decision (rs_prepared s) = false.

Lemma plain_step_member op n i m v payload s :
  run_member op n i m → payload = mb_payload m → vr_op v = op → droppable s →
  plain_step decision v payload s = member_step v i n (mb_op m) (mb_mutation m) s.
Proof.
  intros Hm -> Hv Hd. unfold plain_step. rewrite Hd, Hv. unfold run_member in Hm.
  destruct (decode_mutation op (mb_payload m)) as [x|]; [|done]. rsimpl.
  by destruct x; try done; destruct Hm as (-> & -> & -> & ->).
Qed.

(** ** Runs *)

Lemma run_of_snoc first pre m :
  run_of first (pre ++ [m])
  = run_of first pre ++ [(first + len pre, mb_op m, mb_mutation m)].
Proof.
  unfold run_of, len. rewrite imap_app. cbn. by rewrite Nat.add_0_r.
Qed.

Lemma len_run_of first ms : len (run_of first ms) = len ms.
Proof. unfold run_of, len. by rewrite length_imap. Qed.

Lemma next_index_count i n :
  0 ≤ i < n → n ≤ u32_max →
  bool_decide (checked_add u32_max i 1 = Some n) = (i + 1 =? n).
Proof.
  intros Hi Hn. unfold checked_add. rewrite (proj2 (Z.leb_le _ _)) by lia.
  destruct (Z.eqb_spec (i + 1) n) as [->|H]; [by rewrite bool_decide_true|].
  rewrite bool_decide_false; [done|]. by intros [= ?].
Qed.

(** The run collected so far, when it is not empty. *)
Definition collecting (op n first : Z) (pre : list Member) (s : RunState) : Prop :=
  pre ≠ [] → rs_run s = run_of first pre ∧ rs_count s = n ∧ rs_op s = op.

Lemma member_step_ok op n first pre m v s :
  collecting op n first pre s → vr_seq v = first + len pre → vr_op v = op →
  len pre < n → n ≤ u32_max →
  ∃ s', member_step v (len pre) n (mb_op m) (mb_mutation m) s = Ok s'
        ∧ rs_prepared s' = [] ∧ collecting op n first (if len pre + 1 =? n then [] else pre ++ [m]) s'
        ∧ rs_committed s' = rs_committed s ++
            (if len pre + 1 =? n
             then [{| cb_last_seq := first + n - 1; cb_members := run_of first (pre ++ [m]) |}]
             else []).
Proof.
  intros Hc Hs Ho Hlt Hn. unfold member_step. pose proof (len_nonneg pre).
  rewrite next_index_count by lia. rewrite run_of_snoc.
  assert (∃ run, (if len pre =? 0 then [] else rs_run s) = run ∧ run = run_of first pre
    ∧ (if len pre =? 0 then n else rs_count s) = n
    ∧ (if len pre =? 0 then vr_op v else rs_op s) = op
    ∧ negb (len pre =? 0) && (negb (vr_op v =? rs_op s) || negb (n =? rs_count s)
         || negb (len pre =? len (rs_run s))) = false) as (run & -> & -> & -> & -> & ->).
  { destruct (Z.eqb_spec (len pre) 0) as [Hz%len_zero_nil|Hz].
    - subst pre. by exists [].
    - destruct Hc as (-> & -> & ->); [by intros ->|].
      exists (run_of first pre). rewrite len_run_of, Ho, !Z.eqb_refl. done. }
  rewrite Hs. destruct (Z.eqb_spec (len pre + 1) n) as [<-|Hne]; eexists; (split; [reflexivity|]);
    cbn [rs_prepared rs_committed]; split_and!; try done.
  - replace (first + (len pre + 1) - 1) with (first + len pre) by lia. done.
  - intros _. cbn [rs_run rs_count rs_op]. by rewrite run_of_snoc.
  - by rewrite app_nil_r.
Qed.

Lemma member_loop op n first absorbed ms : ∀ pre vs s,
  op ≠ PREPARED_MUTATION_V1 → absorbed < first → n ≤ u32_max → len pre + len ms ≤ n →
  (∀ i m, ms !! i = Some m → run_member op n (len pre + Z.of_nat i) m) →
  collecting op n first pre s → droppable s →
  Forall2 shows (number (first + len pre) (map (λ m, (op, mb_payload m)) ms)) vs →
  ∃ s', committed_loop decision absorbed vs s = Ok s' ∧ droppable s'
        ∧ rs_committed s' = rs_committed s ++
            (if bool_decide (ms ≠ []) && (len pre + len ms =? n)
             then [{| cb_last_seq := first + n - 1; cb_members := run_of first (pre ++ ms) |}]
             else []).
Proof.
  induction ms as [|m ms IH]; intros pre vs s Hop Ha Hn Hl Hms Hc Hd Hvs.
  { apply Forall2_nil_inv_l in Hvs as ->. exists s. by rewrite app_nil_r. }
  cbn [map number] in Hvs. apply Forall2_cons_inv_l in Hvs as (v & vs' & Hv & Hvs & ->).
  rewrite len_cons in Hl. pose proof (len_nonneg ms). pose proof (len_nonneg pre).
  cbn [committed_loop]. rewrite (committed_step_shows _ _ _ _ Hv) by (cbn; lia).
  cbn [wr_op wr_payload]. rewrite (proj2 (Z.eqb_neq op _)) by done.
  destruct Hv as (Hv1 & Hv2 & _). cbn [wr_seq wr_op] in Hv1, Hv2.
  specialize (Hms O m eq_refl) as Hm. rewrite Z.add_0_r in Hm.
  rewrite (plain_step_member op n (len pre) m) by done.
  destruct (member_step_ok op n first pre m v s Hc Hv1 Hv2 ltac:(lia) Hn)
    as (s1 & -> & Hp1 & Hc1 & Hcom1). rsimpl.
  assert (droppable s1) as Hd1 by (unfold droppable; by rewrite Hp1).
  rewrite (bool_decide_true (m :: ms ≠ [])) by done. rewrite len_cons. cbn [andb].
  destruct (Z.eqb_spec (len pre + 1) n) as [Hfull|Hmore].
  - assert (ms = []) as -> by (apply len_zero_nil; lia).
    apply Forall2_nil_inv_l in Hvs as ->. exists s1. rewrite Hcom1, len_nil.
    rewrite (proj2 (Z.eqb_eq _ _)) by lia. done.
  - destruct (IH (pre ++ [m]) vs' s1) as (s' & -> & Hd' & Hcom'); try done.
    + rewrite len_app, len_cons, len_nil. lia.
    + intros i x Hx. specialize (Hms (S i) x Hx). rewrite len_app, len_cons, len_nil.
      by replace (len pre + (1 + 0) + Z.of_nat i) with (len pre + Z.of_nat (S i)) by lia.
    + by rewrite len_app, len_cons, len_nil, Z.add_assoc.
    + exists s'. split_and!; [done..|]. rewrite Hcom', Hcom1, app_nil_r.
      rewrite <- (app_assoc pre), len_app, len_cons, len_nil. cbn [app].
      destruct ms as [|m' ms']; [|by rewrite bool_decide_true by done;
        replace (len pre + (1 + 0) + len (m' :: ms')) with (len pre + (1 + len (m' :: ms'))) by lia].
      rewrite (bool_decide_false ([] ≠ [])) by (intros Hnil; by apply Hnil). cbn [andb].
      rewrite (proj2 (Z.eqb_neq _ n)) by (rewrite len_nil; lia). done.
Qed.

(** ** Prepared runs *)

Definition prepared_of (b : TransactionBinding) (n first : Z) (ms : list Member)
    : list (Z * PreparedMutation) :=
  imap (λ i m, (first + Z.of_nat i,
                {| pm_binding := b; pm_index := Z.of_nat i; pm_count := n; pm_op := mb_op m;
                   pm_mutation := mb_mutation m |})) ms.

Lemma prepared_of_snoc b n first pre m :
  prepared_of b n first (pre ++ [m])
  = prepared_of b n first pre ++
    [(first + len pre, {| pm_binding := b; pm_index := len pre; pm_count := n;
                          pm_op := mb_op m; pm_mutation := mb_mutation m |})].
Proof. unfold prepared_of, len. rewrite imap_app. cbn. by rewrite Nat.add_0_r. Qed.

Lemma prepared_of_run b n first ms :
  map (λ '(seq, m), (seq, pm_op m, pm_mutation m)) (prepared_of b n first ms) = run_of first ms.
Proof.
  unfold prepared_of, run_of. change (map ?f ?l) with (f <$> l). rewrite fmap_imap.
  by apply imap_ext.
Qed.

(** The members of [pre] are prepared; before the first, the earlier run can go. *)
Definition preparing (b : TransactionBinding) (n first : Z) (pre : list Member) (s : RunState)
    : Prop :=
  match pre with
  | [] => droppable s
  | _ => rs_prepared s = prepared_of b n first pre
  end.

Section PreparedRun.
Context (b : TransactionBinding) (n first : Z).
Context (Hfirst : tb_first_seq b = first) (Hcount : is_ok (member_count b) = true).
Context (Hdec : decision b = None ∨ decision b = Some b).
Context (Hn : n ≤ u32_max) (Hseq : first + n ≤ u64_max).

Lemma decision_status :
  transaction_decision b (decision b)
  = if bool_decide (is_Some (decision b)) then Committed else Undecided.
Proof using Hcount Hdec.
  unfold transaction_decision. destruct Hdec as [-> | ->]; rewrite Hcount; [done|].
  cbn [andb]. by rewrite bool_decide_true.
Qed.

Lemma prepared_step_ok pre m v s :
  preparing b n first pre s → vr_seq v = first + len pre → len pre < n →
  prepared_member b n (len pre) m →
  ∃ s', prepared_step decision v (mb_payload m) s = Ok s'
        ∧ (if len pre + 1 =? n then rs_prepared s' = []
           else rs_prepared s' = prepared_of b n first (pre ++ [m]))
        ∧ rs_committed s' = rs_committed s ++
            (if (len pre + 1 =? n) && bool_decide (is_Some (decision b))
             then [{| cb_last_seq := first + n - 1; cb_members := run_of first (pre ++ [m]) |}]
             else []).
Proof using All.
  intros Hp Hs Hlt Hm. pose proof (len_nonneg pre). unfold prepared_step.
  rewrite Hm. rsimpl. cbn [pm_binding pm_index pm_count pm_op pm_mutation].
  rewrite Hfirst, Hs.
  assert (checked_add u64_max first (len pre) = Some (first + len pre)) as ->
    by (unfold checked_add; rewrite (proj2 (Z.leb_le _ u64_max)); [done|lia]).
  rewrite bool_decide_true by done. cbn [negb].
  assert ((if len pre =? 0 then if prepared_decided decision (rs_prepared s)
             then Err (StoreWalMutation (first + len pre) (vr_op v) PayloadTransactionBinding)
             else Ok [] else Ok (rs_prepared s)) = Ok (prepared_of b n first pre)) as Hrun.
  { destruct pre as [|p0 pre]; [cbn [preparing] in Hp; by rewrite Hp|].
    cbn [preparing] in Hp. rewrite Hp, len_cons. pose proof (len_nonneg pre).
    by rewrite (proj2 (Z.eqb_neq _ _)) by lia. }
  rewrite Hrun. rsimpl.
  assert (negb (len pre =? len (prepared_of b n first pre))
    || match prepared_of b n first pre with
       | (_, f) :: _ => negb (bool_decide (pm_binding f = b))
       | [] => false
       end = false) as ->.
  { unfold prepared_of, len. rewrite length_imap, Z.eqb_refl. cbn [negb orb].
    destruct pre; [done|]. cbn. by rewrite bool_decide_true. }
  rewrite decision_status. rewrite next_index_count by lia.
  rewrite <- prepared_of_snoc, prepared_of_run.
  rewrite bool_decide_false by (by case_bool_decide).
  eexists. split; [reflexivity|].
  destruct (Z.eqb_spec (len pre + 1) n) as [<-|]; cbn [rs_prepared rs_committed andb];
    [|by rewrite app_nil_r].
  split; [done|]. destruct (bool_decide (is_Some (decision b)));
    [|rewrite (bool_decide_false (Undecided = Committed)) by done; by rewrite app_nil_r].
  rewrite (bool_decide_true (Committed = Committed)) by done.
  by replace (first + (len pre + 1) - 1) with (first + len pre) by lia.
Qed.

Lemma prepared_loop absorbed ms : ∀ pre vs s,
  absorbed < first → len pre + len ms ≤ n →
  (∀ i m, ms !! i = Some m → prepared_member b n (len pre + Z.of_nat i) m) →
  preparing b n first pre s →
  Forall2 shows (number (first + len pre)
                   (map (λ m, (PREPARED_MUTATION_V1, mb_payload m)) ms)) vs →
  ∃ s', committed_loop decision absorbed vs s = Ok s'
        ∧ (if bool_decide (ms ≠ []) && (len pre + len ms =? n) then rs_prepared s' = []
           else preparing b n first (pre ++ ms) s')
        ∧ rs_committed s' = rs_committed s ++
            (if bool_decide (ms ≠ []) && (len pre + len ms =? n)
                && bool_decide (is_Some (decision b))
             then [{| cb_last_seq := first + n - 1; cb_members := run_of first (pre ++ ms) |}]
             else []).
Proof using All.
  induction ms as [|m ms IH]; intros pre vs s Ha Hl Hms Hp Hvs.
  { apply Forall2_nil_inv_l in Hvs as ->. exists s. by rewrite !app_nil_r. }
  cbn [map number] in Hvs. apply Forall2_cons_inv_l in Hvs as (v & vs' & Hv & Hvs & ->).
  rewrite len_cons in Hl. pose proof (len_nonneg ms). pose proof (len_nonneg pre).
  cbn [committed_loop]. rewrite (committed_step_shows _ _ _ _ Hv) by (cbn; lia).
  cbn [wr_op wr_payload]. rewrite Z.eqb_refl.
  destruct Hv as (Hv1 & _ & _). cbn [wr_seq] in Hv1.
  specialize (Hms O m eq_refl) as Hm. rewrite Z.add_0_r in Hm.
  destruct (prepared_step_ok pre m v s Hp Hv1 ltac:(lia) Hm) as (s1 & -> & Hp1 & Hcom1). rsimpl.
  rewrite (bool_decide_true (m :: ms ≠ [])) by done. rewrite len_cons. cbn [andb].
  destruct (Z.eqb_spec (len pre + 1) n) as [Hfull|Hmore].
  - assert (ms = []) as -> by (apply len_zero_nil; lia).
    apply Forall2_nil_inv_l in Hvs as ->. exists s1. rewrite Hcom1, len_nil.
    rewrite (proj2 (Z.eqb_eq _ _)) by lia. done.
  - destruct (IH (pre ++ [m]) vs' s1) as (s' & -> & Hp' & Hcom'); try done.
    + rewrite len_app, len_cons, len_nil. lia.
    + intros i x Hx. specialize (Hms (S i) x Hx). rewrite len_app, len_cons, len_nil.
      by replace (len pre + (1 + 0) + Z.of_nat i) with (len pre + Z.of_nat (S i)) by lia.
    + unfold preparing. by destruct (pre ++ [m]) eqn:E; [destruct pre|].
    + by rewrite len_app, len_cons, len_nil, Z.add_assoc.
    + exists s'. rewrite Hcom', Hcom1. cbn [andb]. rewrite app_nil_r.
      rewrite <- (app_assoc pre), len_app, len_cons, len_nil in Hp'.
      rewrite <- (app_assoc pre), len_app, len_cons, len_nil. cbn [app] in *.
      replace (len pre + (1 + 0) + len ms) with (len pre + (1 + len ms)) in * by lia.
      destruct ms as [|m' ms']; [|by rewrite bool_decide_true in Hp' |- * by done].
      rewrite (bool_decide_false ([] ≠ [])) in Hp' |- * by (intros Hnil; by apply Hnil).
      rewrite (proj2 (Z.eqb_neq _ n)) by (rewrite len_nil; lia). cbn [andb] in *. done.
Qed.
End PreparedRun.

(** ** One attempt *)

Lemma kept_members l :
  kept l = map (λ m, (attempt_op l.1, mb_payload m)) (take l.2 (attempt_members l.1)).
Proof. unfold kept, attempt_records. by rewrite <- firstn_map. Qed.

Lemma complete_take l : ∀ ms, ms = attempt_members l.1 → ms ≠ [] →
  complete l = bool_decide (take l.2 ms ≠ []) && (len (take l.2 ms) =? len ms)
  ∧ (complete l = true → take l.2 ms = ms).
Proof.
  intros ms Hms Hne. unfold complete, attempt_records. rewrite length_map, <- Hms.
  unfold len. rewrite length_take.
  destruct (Nat.leb_spec (length ms) l.2) as [Hle|Hgt].
  - rewrite take_ge by done. rewrite bool_decide_true by done.
    split; [|done]. cbn [andb]. symmetry. apply Z.eqb_eq. lia.
  - split; [|done]. rewrite (proj2 (Z.eqb_neq _ _)) by lia. by rewrite andb_false_r.
Qed.

Lemma lookup_take_members {A} k (ms : list A) i m :
  take k ms !! i = Some m → ms !! i = Some m.
Proof. intros H. apply lookup_take_Some in H. tauto. Qed.

Lemma undecided_droppable b n first ms s :
  decision b = None → preparing b n first ms s → droppable s.
Proof.
  intros Hd Hp. destruct ms as [|m ms]; [done|]. unfold droppable. rewrite Hp. cbn.
  unfold decided, transaction_decision. rewrite Hd. by destruct (is_ok (member_count b)).
Qed.

Lemma attempt_loop first l absorbed vs s :
  logged_ok first l → absorbed < first → droppable s →
  Forall2 shows (number first (kept l)) vs →
  ∃ s', committed_loop decision absorbed vs s = Ok s' ∧ droppable s'
        ∧ rs_committed s' = rs_committed s ++
            (if commits l
             then [{| cb_last_seq := first + len (attempt_members l.1) - 1;
                      cb_members := run_of first (attempt_members l.1) |}] else []).
Proof.
  intros [Hok Hl] Ha Hd Hvs. rewrite kept_members in Hvs. unfold commits.
  destruct l as [[m|op ms|b ms] k]; cbn [fst snd attempt_members attempt_op] in *.
  - destruct Hok as (Hm & Hmem & Hop). destruct k as [|k].
    { apply Forall2_nil_inv_l in Hvs as ->. exists s. by rewrite app_nil_r. }
    cbn [take map number] in Hvs. rewrite firstn_nil in Hvs.
    apply Forall2_cons_inv_l in Hvs as (v & vs' & Hv & ->%Forall2_nil_inv_l & ->).
    cbn [committed_loop]. rewrite (committed_step_shows _ _ _ _ Hv) by (cbn; lia).
    cbn [wr_op wr_payload]. rewrite (proj2 (Z.eqb_neq _ _)) by done.
    destruct Hv as (Hv1 & Hv2 & _). cbn [wr_seq wr_op] in Hv1, Hv2.
    unfold plain_step. rewrite Hd, Hv2, Hm. rsimpl.
    assert (run_of first [m] = [(vr_seq v, mb_op m, mb_mutation m)]) as Hrun
      by (unfold run_of; cbn; by rewrite Hv1, Z.add_0_r).
    replace (complete (OneRecord m, S k)) with true by done.
    replace (first + len [m] - 1) with (vr_seq v) by (rewrite Hv1, len_cons, len_nil; lia).
    rewrite Hrun. destruct (mb_mutation m) eqn:E; try done;
      (eexists; split; [reflexivity|]; split; done).
  - destruct Hok as (Hop & Hne & Hlen & Hms).
    destruct (complete_take (LocalRun op ms, k) ms eq_refl Hne) as [Hc Hfull].
    cbn [snd] in Hc, Hfull.
    destruct (member_loop op (len ms) first absorbed (take k ms) [] vs s)
      as (s' & Hs' & Hd' & Hcom); try done.
    + unfold len. rewrite length_take. cbn. lia.
    + intros i m Hm. apply Hms. by eapply lookup_take_members.
    + by rewrite len_nil, Z.add_0_r.
    + exists s'. split_and!; [done..|]. rewrite Hcom, len_nil, Z.add_0_l, <- Hc, andb_true_r.
      cbn [app]. destruct (complete _) eqn:E; [|done]. by rewrite Hfull.
  - destruct Hok as (Hne & Hlen & Hms), Hl as (Hf & Hseq & Hcnt & Hdec).
    destruct (complete_take (PreparedRun b ms, k) ms eq_refl Hne) as [Hc Hfull].
    cbn [snd] in Hc, Hfull.
    destruct (prepared_loop b (len ms) first Hf Hcnt ltac:(tauto) Hlen Hseq absorbed
      (take k ms) [] vs s) as (s' & Hs' & Hp & Hcom); try done.
    + unfold len. rewrite length_take. cbn. lia.
    + intros i m Hm. apply Hms. by eapply lookup_take_members.
    + by rewrite len_nil, Z.add_0_r.
    + exists s'. rewrite len_nil, Z.add_0_l, <- Hc in Hp, Hcom. split_and!; [done| |].
      * destruct (complete _) eqn:E; [unfold droppable; by rewrite Hp|].
        destruct Hdec as [Hn|[_ Hdone]]; [|done]. by eapply undecided_droppable.
      * rewrite Hcom. cbn [app]. destruct (complete _) eqn:E; [|done]. by rewrite Hfull.
Qed.

Lemma number_app s rs1 rs2 :
  number s (rs1 ++ rs2) = number s rs1 ++ number (s + len rs1) rs2.
Proof.
  revert s. induction rs1 as [|[op p] rs1 IH]; intros s; cbn [app number].
  - by rewrite len_nil, Z.add_0_r.
  - rewrite IH, len_cons. by rewrite Z.add_assoc.
Qed.

Lemma whole_log_loop ls : ∀ first absorbed vs s,
  log_ok first ls → absorbed < first → droppable s →
  Forall2 shows (number first (log_records ls)) vs →
  ∃ s', committed_loop decision absorbed vs s = Ok s' ∧ droppable s'
        ∧ rs_committed s' = rs_committed s ++ whole_attempts first ls.
Proof.
  induction ls as [|l ls IH]; intros first absorbed vs s Hok Ha Hd Hvs.
  { apply Forall2_nil_inv_l in Hvs as ->. exists s. by rewrite app_nil_r. }
  destruct Hok as [Hl Hok]. unfold log_records in Hvs. cbn [map concat] in Hvs.
  rewrite number_app in Hvs. apply Forall2_app_inv_l in Hvs as (vs1 & vs2 & Hv1 & Hv2 & ->).
  destruct (attempt_loop _ _ _ _ _ Hl Ha Hd Hv1) as (s1 & Hs1 & Hd1 & Hc1).
  rewrite committed_loop_app, Hs1. rsimpl. pose proof (len_nonneg (kept l)).
  destruct (IH _ absorbed vs2 s1 Hok ltac:(lia) Hd1 Hv2) as (s' & Hs' & Hd' & Hc').
  exists s'. split_and!; [done..|]. cbn [whole_attempts]. by rewrite Hc', Hc1, app_assoc.
Qed.

(** Absorbed records are skipped. *)
Lemma absorbed_loop absorbed vs s :
  Forall (λ v, vr_seq v ≤ absorbed) vs → committed_loop decision absorbed vs s = Ok s.
Proof.
  induction 1 as [|v vs Hv _ IH]; [done|]. cbn [committed_loop]. unfold committed_step.
  by rewrite (proj2 (Z.leb_le _ _)) by done.
Qed.

Lemma committed_batches_whole first ls absorbed old vs :
  log_ok first ls → absorbed < first →
  Forall (λ v, vr_seq v ≤ absorbed) old →
  Forall2 shows (number first (log_records ls)) vs →
  committed_batches decision (old ++ vs) absorbed = Ok (whole_attempts first ls).
Proof.
  intros Hok Ha Hold Hvs. unfold committed_batches. rewrite committed_loop_app, absorbed_loop by done.
  rsimpl. destruct (whole_log_loop ls first absorbed vs run_start) as (s & -> & Hd & Hc);
    try done. rsimpl. unfold droppable, prepared_decided in Hd.
  destruct (rs_prepared s) as [|[seq m] rest]; [by rewrite Hc|]. by rewrite Hd, Hc.
Qed.
End Spec.

(** ** The size of a mixed group *)

Section GroupSize.
Context {X : Xxh3}.

(** [payload] frames [inner] as a member of a mixed batch. *)
Definition frames (inner payload : bytes) : Prop :=
  ∃ index count op, encode_mixed_batch_member index count op inner = Ok payload.

(** The group the payloads are appended as. *)
Definition mixed_group (first : Z) (payloads : list bytes) : list WalRecord :=
  number first (map (pair MIXED_BATCH_MEMBER_V1) payloads).

Definition add_member (sum : option Z) (length : Z) : option Z :=
  sum ← sum; sum ← checked_add usize_max sum length;
  checked_add usize_max sum MIXED_BATCH_MEMBER_FRAMED_OVERHEAD.

Lemma frames_len inner payload : frames inner payload → len payload = 10 + len inner.
Proof.
  intros (i & n & op & H). unfold encode_mixed_batch_member in H.
  apply bind_Ok_inv in H as (? & _ & H). apply bind_Ok_inv in H as (? & _ & H).
  apply bind_Ok_inv in H as (? & _ & H). injection H as <-.
  rewrite !len_app, !len_u32_le, len_u16_le. lia.
Qed.

Lemma add_member_none lengths : foldl add_member None lengths = None.
Proof. by induction lengths. Qed.

Lemma add_member_eq start inner payload r :
  0 ≤ start → frames inner payload → wr_payload r = payload →
  add_member (Some start) (len inner)
  = if start + len (record_bytes r) <=? usize_max then Some (start + len (record_bytes r)) else None.
Proof.
  intros Hs Hf <-. rewrite len_record_bytes, (frames_len _ _ Hf).
  unfold add_member, checked_add, MIXED_BATCH_MEMBER_FRAMED_OVERHEAD. cbn.
  pose proof (len_nonneg inner). change MIN_RECORD_LEN with 22.
  destruct (Z.leb_spec (start + len inner) usize_max); cbn.
  - replace (start + len inner + (10 + 22)) with (start + (22 + (10 + len inner))) by lia. done.
  - by rewrite (proj2 (Z.leb_gt _ _)) by lia.
Qed.

Lemma add_members_eq inners payloads : Forall2 frames inners payloads → ∀ first start,
  0 ≤ start ≤ usize_max →
  foldl add_member (Some start) (map len inners)
  = let total := start + len (records_bytes (mixed_group first payloads)) in
    if total <=? usize_max then Some total else None.
Proof.
  induction 1 as [|inner payload inners payloads Hf _ IH]; intros first start Hs.
  { unfold mixed_group. cbn. change (records_bytes []) with (@nil byte). rewrite len_nil, Z.add_0_r.
    by rewrite (proj2 (Z.leb_le _ _)) by lia. }
  unfold mixed_group. cbn [map number foldl]. rewrite records_bytes_cons, len_app.
  set (r := {| wr_seq := _ |}). fold (mixed_group (first + 1) payloads).
  rewrite (add_member_eq start inner payload r) by (done || lia).
  pose proof (len_nonneg (records_bytes (mixed_group (first + 1) payloads))).
  pose proof (len_nonneg (record_bytes r)). cbn zeta. rewrite Z.add_assoc.
  destruct (Z.leb_spec (start + len (record_bytes r)) usize_max).
  - rewrite (IH (first + 1)) by lia. done.
  - rewrite add_member_none. by rewrite (proj2 (Z.leb_gt _ _)) by lia.
Qed.

(** The size check of a mixed batch is exact: for members framed by the
    encoder, it accepts a batch exactly when the bytes already pending plus the
    records it will append fit the group limit, returns that sum, and refuses with
    the sum (or the largest machine integer when the sum does not fit one)
    otherwise. *)
Theorem mixed_group_size_exact (pending first max_group_bytes : Z) (inners payloads : list bytes) :
  Forall2 frames inners payloads →
  0 ≤ pending ≤ usize_max → 0 ≤ max_group_bytes ≤ usize_max →
  let total := pending + len (records_bytes (mixed_group first payloads)) in
  mixed_batch_group_bytes pending (map len inners) max_group_bytes
  = if total <=? max_group_bytes then Ok total
    else Err (GroupTooLarge (Z.min total usize_max) max_group_bytes).
Proof.
  intros Hf Hp Hm total. unfold mixed_batch_group_bytes.
  change (foldl _ _ _) with (foldl add_member (Some pending) (map len inners)).
  rewrite (add_members_eq _ _ Hf first) by done. fold total. cbn zeta.
  destruct (Z.leb_spec total usize_max).
  - by rewrite Z.min_l by done.
  - by rewrite (proj2 (Z.leb_gt _ _)), Z.min_r by lia.
Qed.
End GroupSize.

Lemma mixed_group_size_exact_witness :
  mixed_batch_group_bytes 7 [9] 48 = Ok 48 ∧ mixed_batch_group_bytes 7 [9] 47 = Err (GroupTooLarge 48 47).
Proof.
  assert (Forall2 frames [replicate 9 Byte.x00]
            [u32_le 0 ++ u32_le 2 ++ u16_le DELETE_V1 ++ replicate 9 Byte.x00]) as Hf.
  { constructor; [|constructor]. by exists 0, 2, DELETE_V1. }
  split.
  - exact (mixed_group_size_exact (X:=ToyXxh3.toy) 7 1 48 _ _ Hf ltac:(done) ltac:(done)).
  - exact (mixed_group_size_exact (X:=ToyXxh3.toy) 7 1 47 _ _ Hf ltac:(done) ltac:(done)).
Defined.
