(* ===== verification/CrashRecovery.v ===== *)
(** * Reopening after a crash shows whole batches

    Composes the log ([WalReplay]), the file system ([Vfs]), the
    payload codec ([IngestCodec]) and the batch rules ([AtomicBatchSpec]): a log
    of batches, cut at any byte after its header, is repaired and replayed to
    exactly the batches that were appended whole ([crash_keeps_whole_batches]);
    a log cut inside its header is refused ([torn_header_refuses_reopen]). *)

From S2P Require Import Prelude Format WalRecord WalReplay Durability WalWriter WalConcurrency WalInvariant WalSystem Cursor Vfs Schema Float Columns Predicate IngestPayload IngestCodec StoreErrors AtomicBatch AtomicBatchSpec.

(** ** What the writers append *)

(** One record, a framed batch of upserts, a mixed batch, a prepared run: each
    built by the encoders of the program from well-formed values. *)
Inductive written : Attempt → Prop :=
| written_one op b m :
    encodes op b m → is_member m = false → len b ≤ isize_max →
    written (OneRecord {| mb_payload := b; mb_op := op; mb_mutation := m |})
| written_upserts docs records framed :
    Forall2 (λ d r, document_ok d ∧ encode_persisted_upsert d = Ok (r.1.2, r.2)) docs records →
    2 ≤ len docs → frame_batch records = Ok framed →
    Forall (λ r, len r.2 ≤ isize_max) framed →
    written (LocalRun UPSERT_V2_BATCH_MEMBER
               (zip_with (λ r d, {| mb_payload := r.2; mb_op := r.1.2;
                                    mb_mutation := Upsert (persisted d) |}) framed docs))
| written_mixed ms :
    2 ≤ len ms ≤ u32_max →
    (∀ i m, ms !! i = Some m → ∃ inner,
       encodes (mb_op m) inner (mb_mutation m) ∧ len (mb_payload m) ≤ isize_max
       ∧ encode_mixed_batch_member (Z.of_nat i) (len ms) (mb_op m) inner = Ok (mb_payload m)) →
    written (LocalRun MIXED_BATCH_MEMBER_V1 ms)
| written_prepared b ms :
    binding_ok b → ms ≠ [] → len ms ≤ u32_max →
    (∀ i m, ms !! i = Some m → ∃ body,
       encodes (mb_op m) body (mb_mutation m) ∧ len (mb_payload m) ≤ isize_max
       ∧ encode_prepared b (Z.of_nat i) (len ms) (mb_op m) body = Ok (mb_payload m)) →
    written (PreparedRun b ms).

Lemma encodes_op op b m : encodes op b m → 1 ≤ op ≤ 11 ∧ op ≠ PREPARED_MUTATION_V1.
Proof. by destruct 1. Qed.

Lemma mapM_lookup {E A B} (f : A → result E B) l k i b :
  mapM f l = Ok k → k !! i = Some b → ∃ a, l !! i = Some a ∧ f a = Ok b.
Proof.
  revert k i. induction l as [|a l IH]; intros k i H Hi; cbn [mapM] in H.
  - by injection H as <-.
  - apply bind_Ok_inv in H as (x & Hx & H). apply bind_Ok_inv in H as (xs & Hxs & H).
    injection H as <-. destruct i as [|i]; cbn in Hi.
    + injection Hi as <-. by exists a.
    + by apply (IH xs i).
Qed.

Lemma mapM_Ok_length {E A B} (f : A → result E B) l k : mapM f l = Ok k → length k = length l.
Proof.
  revert k. induction l as [|a l IH]; intros k H; cbn [mapM] in H.
  - by injection H as <-.
  - apply bind_Ok_inv in H as (x & _ & H). apply bind_Ok_inv in H as (xs & Hxs & H).
    injection H as <-. cbn. by rewrite (IH xs).
Qed.

(** The framed records: member [i] of the batch around record [i]. *)
Lemma frame_batch_Ok records framed :
  frame_batch records = Ok framed → 2 ≤ len records →
  len framed = len records ∧ len records ≤ u32_max
  ∧ ∀ i row op payload, framed !! i = Some (row, op, payload) →
    op = UPSERT_V2_BATCH_MEMBER
    ∧ ∃ upsert, records !! i = Some (row, UPSERT_V2, upsert)
      ∧ encode_upsert_v2_batch_member (Z.of_nat i) (len records) upsert = Ok payload.
Proof.
  intros H H2. unfold frame_batch in H. rewrite (proj2 (Z.ltb_ge _ _)) in H by lia.
  apply bind_Ok_inv in H as (count & Hc%ok_or_Ok%try_from_Some & H). destruct Hc as [-> Hc].
  split_and!; [|lia|].
  - apply mapM_Ok_length in H. unfold len. rewrite H, length_zip_with_l_eq; [done|].
    by rewrite length_fmap, length_seq.
  - intros i row op payload Hi. destruct (mapM_lookup _ _ _ _ _ H Hi) as (item & Hitem & Hf).
    apply lookup_zip_with_Some in Hitem as (r & j & -> & Hr & Hj).
    apply list_lookup_fmap_Some in Hj as (j' & -> & Hj). apply lookup_seq in Hj as [-> _].
    destruct r as [[row' op'] payload']. cbn in Hf.
    destruct (Z.eqb_spec op' UPSERT_V2) as [->|]; [|done]. cbn [negb] in Hf.
    apply bind_Ok_inv in Hf as (member & Hm & Hf). injection Hf as <- <- <-. split; [done|].
    exists payload'. split; [done|]. destruct (encode_upsert_v2_batch_member _ _ _); [|done].
    by injection Hm as <-.
Qed.

Lemma run_member_upsert i n d m :
  decode_mutation UPSERT_V2_BATCH_MEMBER (mb_payload m) = Ok (BatchMember i n d) →
  mb_op m = UPSERT_V2_BATCH_MEMBER → mb_mutation m = Upsert d →
  run_member UPSERT_V2_BATCH_MEMBER n i m.
Proof. intros H Ho Hm. unfold run_member. by rewrite H. Qed.

Lemma index_u32 {A} (l : list A) i x : l !! i = Some x → len l ≤ u32_max → is_u32 (Z.of_nat i).
Proof. intros H%lookup_lt_Some Hl. unfold is_u32, len in *. lia. Qed.

Lemma written_ok a : written a → attempt_ok a.
Proof.
  destruct 1 as [op b m He Hm Hl|docs records framed Hd H2 Hf Hl|ms H2 Hms|b ms Hb Hne Hl Hms];
    cbn [attempt_ok].
  - split_and!; [by apply decode_encodes|done|]. cbn. by eapply encodes_op.
  - pose proof (Forall2_length _ _ _ Hd) as Hdr.
    assert (len records = len docs) as Hlr by (unfold len; lia).
    destruct (frame_batch_Ok _ _ Hf ltac:(lia)) as (Hlf & Hmax & Hmem).
    assert (len (zip_with (λ (r : Z * Z * bytes) d, {| mb_payload := r.2; mb_op := r.1.2;
      mb_mutation := Upsert (persisted d) |}) framed docs) = len records) as Hlz
      by (unfold len in *; rewrite length_zip_with_l_eq; lia).
    rewrite Hlz. split_and!; [done| |done|].
    + intros E. rewrite E, len_nil in Hlz. lia.
    + intros i m Hi. apply lookup_zip_with_Some in Hi as (r & d & -> & Hr & Hdi).
      destruct r as [[row op] payload].
      destruct (Hmem i row op payload Hr) as (-> & upsert & Hrec & Henc).
      destruct (Forall2_lookup_lr _ _ _ _ _ _ Hd Hdi Hrec) as [Hok Hup].
      cbn in Hup. unfold encode_persisted_upsert in Hup.
      apply bind_Ok_inv in Hup as (u & Hu & Hup). injection Hup as [= ->].
      apply (run_member_upsert _ _ (persisted d)); [|done..]. cbn [mb_payload].
      apply decode_encodes; [|by apply (Forall_lookup_1 _ _ _ _ Hl Hr)].
      eapply encodes_batch_member; [by eapply index_u32|apply len_u32; lia|done|exact Hu|exact Henc].
  - split_and!; [done|intros ->; rewrite len_nil in H2; lia|lia|].
    intros i m Hi. destruct (Hms i m Hi) as (inner & He & Hl & Henc).
    unfold run_member. rewrite (decode_encodes _ _ _ (encodes_mixed _ _ _ _ _ _
      (index_u32 _ _ _ Hi (proj2 H2)) (len_u32 _ (proj2 H2)) He Henc) Hl). done.
  - split_and!; [done..|]. intros i m Hi. destruct (Hms i m Hi) as (body & He & Hlm & Henc).
    eapply prepared_roundtrip; try done; [by eapply index_u32|by apply len_u32].
Qed.

(** ** Cutting a log of attempts *)

(** The first [m] records of the log. *)
Fixpoint cut_log (m : nat) (ls : list Logged) : list Logged :=
  match ls with
  | [] => []
  | l :: ls => (l.1, Nat.min l.2 m) :: cut_log (m - length (kept l)) ls
  end.

Lemma log_records_cut ls : ∀ m, log_records (cut_log m ls) = take m (log_records ls).
Proof.
  induction ls as [|[a k] ls IH]; intros m; cbn [cut_log]; [by destruct m|].
  unfold log_records in *. cbn [map concat]. rewrite IH, take_app. f_equal.
  unfold kept. cbn [fst snd]. rewrite take_take. f_equal. lia.
Qed.

Section Bound.
Context (decision : TransactionBinding → option TransactionBinding).

(** The prepared runs of a log sit at the sequences they were bound to, the root
    decided for their exact evidence or not at all, and a decided run is whole. *)
Fixpoint log_bound (first : Z) (ls : list Logged) : Prop :=
  match ls with
  | [] => True
  | l :: ls =>
      match l.1 with
      | PreparedRun b ms =>
          tb_first_seq b = first ∧ first + len ms ≤ u64_max ∧ is_ok (member_count b) = true
          ∧ (decision b = None ∨ decision b = Some b ∧ complete l = true)
      | _ => True
      end ∧ log_bound (first + len (kept l)) ls
  end.

Lemma written_log_ok ls : ∀ first,
  Forall (λ l, written l.1) ls → log_bound first ls → log_ok decision first ls.
Proof.
  induction ls as [|l ls IH]; intros first Hw Hb; [done|].
  apply Forall_cons in Hw as [Hl Hw]. destruct Hb as [Hb Hbs]. split; [|by apply IH].
  split; [by apply written_ok|]. done.
Qed.

Lemma attempt_ok_nonempty a : attempt_ok a → attempt_members a ≠ [].
Proof. destruct a; cbn; [done|tauto|tauto]. Qed.

Lemma whole_attempts_none ls : ∀ first,
  Forall (λ l, attempt_ok l.1) ls → Forall (λ l, l.2 = 0%nat) ls →
  whole_attempts decision first ls = [].
Proof.
  induction ls as [|[a k] ls IH]; intros first Hok Hz; [done|].
  apply Forall_cons in Hok as [Ha Hok]. apply Forall_cons in Hz as [Hk Hz]. cbn in Ha, Hk. subst k.
  cbn [whole_attempts]. rewrite IH by done.
  assert (complete (a, 0%nat) = false) as Hc.
  { unfold complete, attempt_records. cbn [fst snd]. rewrite length_map.
    apply attempt_ok_nonempty in Ha. by destruct (attempt_members a). }
  unfold commits. by rewrite Hc.
Qed.

Lemma cut_log_zero ls : Forall (λ l, l.2 = 0%nat) (cut_log 0 ls).
Proof. induction ls as [|l ls IH]; constructor; [cbn; lia|done]. Qed.

Lemma cut_log_attempts ls : ∀ m (P : Attempt → Prop),
  Forall (λ l, P l.1) ls → Forall (λ l, P l.1) (cut_log m ls).
Proof.
  induction ls as [|l ls IH]; intros m P H; [done|]. apply Forall_cons in H as [Hl H].
  cbn [cut_log]. constructor; [done|]. by apply IH.
Qed.

Lemma complete_kept a k : complete (a, k) = true → length (kept (a, k)) = length (attempt_records a).
Proof.
  unfold complete, kept. cbn [fst snd]. intros H%Nat.leb_le. rewrite length_take. lia.
Qed.

(** A cut commits a prefix of the batches. *)
Lemma whole_attempts_cut ls : ∀ first m,
  Forall (λ l, attempt_ok l.1) ls →
  whole_attempts decision first (cut_log m ls) `prefix_of` whole_attempts decision first ls.
Proof.
  induction ls as [|[a k] ls IH]; intros first m Hok; [done|].
  apply Forall_cons in Hok as [Ha Hok]. cbn in Ha. cbn [cut_log whole_attempts fst snd].
  assert (length (kept (a, k)) ≤ m ∨ m < length (kept (a, k)))%nat as [Hm|Hm] by lia.
  - assert (kept (a, Nat.min k m) = kept (a, k) ∧ complete (a, Nat.min k m) = complete (a, k))
      as [Hk Hc].
    { unfold kept, complete in *. cbn [fst snd] in *. rewrite length_take in Hm.
      split; [|destruct (Nat.leb_spec (length (attempt_records a)) k),
        (Nat.leb_spec (length (attempt_records a)) (Nat.min k m)); try done; lia].
      destruct (Nat.le_gt_cases k m); [by rewrite Nat.min_l|].
      rewrite !take_ge; [done|lia..]. }
    unfold commits. cbn [fst]. rewrite Hk, Hc. apply prefix_app. by apply IH.
  - replace (m - length (kept (a, k)))%nat with 0%nat by lia.
    rewrite (whole_attempts_none (cut_log 0 ls)) by (apply cut_log_zero || by apply cut_log_attempts).
    assert (complete (a, Nat.min k m) = false) as Hc.
    { unfold complete, kept in *. cbn [fst snd] in *. rewrite length_take in Hm.
      apply Nat.leb_gt. lia. }
    unfold commits at 1. rewrite Hc. cbn. apply prefix_nil.
Qed.
End Bound.

(** ** The repaired log *)

Section Repair.
Context {X : Xxh3} {L : Xxh3Laws X}.

(** The log content after [cut_interrupted_append]. *)
Definition repaired (b : bytes) : bytes :=
  match interrupted_offset b with
  | Some offset => default b (slice_to b offset)
  | None => b
  end.

(** How replay ends on a cut image: cleanly at a record boundary, or in a torn
    record that the repair recognises. *)
Lemma cut_terminator_spec rs : ∀ off budget,
  0 ≤ budget ≤ len (records_bytes rs) →
  Forall (λ r, len (record_bytes r) ≤ DEFAULT_MAX_GROUP_BYTES_DURABLE) rs →
  let w := whole_records budget rs in
  (cut_terminator off budget rs = CleanEnd ∧ len (records_bytes w) = budget)
  ∨ (∃ e, cut_terminator off budget rs
          = CorruptAt (off + len (records_bytes w)) (ReasonRecord Tail e)
          ∧ interrupted_append e = true ∧ len (records_bytes w) ≤ budget).
Proof.
  induction rs as [|r rs IH]; intros off budget Hb Hmax w.
  { left. split; [done|]. unfold w. cbn [whole_records].
    change (records_bytes []) with (@nil byte) in *. rewrite len_nil in *. lia. }
  apply Forall_cons in Hmax as [Hr Hmax]. unfold w. cbn [cut_terminator whole_records].
  rewrite records_bytes_cons, len_app in Hb.
  pose proof (len_nonneg (records_bytes rs)). pose proof (len_record_bytes_ge r).
  destruct (Z.leb_spec (len (record_bytes r)) budget) as [Hle|Hgt].
  - rewrite records_bytes_cons, len_app.
    assert (0 ≤ budget - len (record_bytes r) ≤ len (records_bytes rs)) as Hb' by lia.
    destruct (IH (off + len (record_bytes r)) (budget - len (record_bytes r)) Hb' Hmax)
      as [[-> Hw]|(e & -> & He & Hw)]; [by left; split; [|lia]|right].
    exists e. split_and!; [by rewrite Z.add_assoc|done|lia].
  - change (len (records_bytes [])) with 0.
    destruct (Z.eqb_spec budget 0) as [->|Hnz]; [by left|right].
    eexists. split; [by rewrite Z.add_0_r|]. split; [|lia].
    destruct (budget <? RECORD_HEADER_LEN); [done|]. cbn. by apply Z.leb_le.
Qed.

Lemma take_image first rs k :
  WAL_HEADER_LEN ≤ Z.of_nat k →
  take k (wal_image first rs)
  = wal_header_bytes first ++ take (k - Z.to_nat WAL_HEADER_LEN) (records_bytes rs).
Proof using Type.
  intros Hk. unfold wal_image. pose proof (len_wal_header_bytes first) as Hh. unfold len in Hh.
  rewrite take_app_ge by lia. do 2 f_equal; lia.
Qed.

Context (first : Z) (log : list WalRecord).
Context (Hfirst : is_u64 first) (Hok : Forall record_ok log).
Context (Hend : sequenced first log) (Hlen : len (wal_image first log) ≤ isize_max).
Context (Hmax : Forall (λ r, len (record_bytes r) ≤ DEFAULT_MAX_GROUP_BYTES_DURABLE) log).

(** The records the repair keeps. *)
Definition survivors (n : nat) : list WalRecord :=
  whole_records (Z.of_nat n - WAL_HEADER_LEN) log.

(** A cut image ends cleanly, or the repair finds where its torn record starts. *)
Lemma interrupted_image n :
  WAL_HEADER_LEN ≤ Z.of_nat n → (n ≤ length (wal_image first log))%nat →
  let cut := take n (wal_image first log) in
  (interrupted_offset cut = None ∧ cut = wal_image first (survivors n))
  ∨ ∃ o, interrupted_offset cut = Some o ∧ slice_to cut o = Some (wal_image first (survivors n)).
Proof using L Hfirst Hok Hend Hlen Hmax.
  intros Hn Hn' cut. unfold cut, interrupted_offset, survivors.
  rewrite replay_cut by done. rewrite (proj2 (Z.ltb_ge _ _)) by lia.
  cbn [rr_terminator].
  assert (len (wal_image first log) = WAL_HEADER_LEN + len (records_bytes log)) as Hl.
  { unfold wal_image. by rewrite len_app, len_wal_header_bytes. }
  set (budget := Z.of_nat n - WAL_HEADER_LEN).
  assert (0 ≤ budget ≤ len (records_bytes log)) as Hbud by (unfold budget, len in *; lia).
  destruct (whole_records_prefix log budget) as [rest Hrest].
  assert (∀ k, k = length (records_bytes (whole_records budget log)) →
    take k (records_bytes log) = records_bytes (whole_records budget log)) as Htake.
  { intros k ->. rewrite Hrest at 2. by rewrite records_bytes_app, take_app_length. }
  destruct (cut_terminator_spec log WAL_HEADER_LEN budget Hbud Hmax)
    as [[-> Hw]|(e & -> & He & Hw)].
  - left. split; [done|]. rewrite take_image by done. unfold wal_image. f_equal. apply Htake.
    apply Nat2Z.inj. fold (len (records_bytes (whole_records budget log))).
    rewrite Hw. change WAL_HEADER_LEN with 40 in *. unfold budget. lia.
  - right. rewrite He. set (o := WAL_HEADER_LEN + _). exists o. split; [done|].
    pose proof (len_nonneg (records_bytes (whole_records budget log))).
    unfold slice_to. assert (len (take n (wal_image first log)) = Z.of_nat n) as ->
      by (unfold len; rewrite length_take; lia).
    rewrite (proj2 (Z.leb_le 0 o)), (proj2 (Z.leb_le o _)) by (unfold o, budget in *; change WAL_HEADER_LEN with 40 in *; lia).
    cbn [andb]. f_equal. rewrite take_take, Nat.min_l by (unfold o, budget in *; change WAL_HEADER_LEN with 40 in *; lia).
    rewrite take_image by (unfold o; lia). unfold wal_image. f_equal. apply Htake.
    unfold o, len. change WAL_HEADER_LEN with 40 in *. lia.
Qed.

Lemma repaired_image n :
  WAL_HEADER_LEN ≤ Z.of_nat n → (n ≤ length (wal_image first log))%nat →
  repaired (take n (wal_image first log)) = wal_image first (survivors n).
Proof using L Hfirst Hok Hend Hlen Hmax.
  intros Hn Hn'. unfold repaired.
  destruct (interrupted_image n Hn Hn') as [[-> ->]|(o & -> & ->)]; done.
Qed.

(** The repaired log is repaired already. *)
Lemma repaired_again n :
  WAL_HEADER_LEN ≤ Z.of_nat n → (n ≤ length (wal_image first log))%nat →
  repaired (wal_image first (survivors n)) = wal_image first (survivors n).
Proof using L Hfirst Hok Hend Hlen.
  intros Hn Hn'. unfold survivors. destruct (whole_records_prefix log
    (Z.of_nat n - WAL_HEADER_LEN)) as [rest Hrest]. set (w := whole_records _ _) in *.
  unfold repaired, interrupted_offset. rewrite replay_image; [done|done| | |].
  - rewrite Hrest in Hok. by apply Forall_app in Hok as [? _].
  - replace w with (take (length w) log) by (rewrite Hrest; by rewrite take_app_length).
    by apply sequenced_take.
  - rewrite Hrest in Hlen. unfold wal_image in *. rewrite records_bytes_app, !len_app in Hlen.
    rewrite len_app. pose proof (len_nonneg (records_bytes rest)). lia.
Qed.
End Repair.

(** ** The repair on the file system *)

Abbreviation cut_inv := (replace_inv CUT_TEMPORARY WAL_FILE).

Section CutProof.
Context {X : Xxh3}.

(** Whatever fails in the repair, the log reads as before or as repaired, and as
    repaired when it succeeds. *)
Lemma cut_interrupted_append_spec policy b fs fs' r :
  cut_inv [Some b] fs → data_file_sync policy ≠ SyncSkip → len b ≤ u64_max →
  cut_interrupted_append policy fs = (fs', r) →
  cut_inv [Some (repaired b); Some b] fs' ∧ (is_ok r = true → v_read WAL_FILE fs' = Ok (repaired b)).
Proof.
  intros Hi Hd Hb H. assert (CUT_TEMPORARY ≠ WAL_FILE) as Hne by done.
  destruct (target_reads _ _ _ _ Hi) as (c & ->%list_elem_of_singleton & Hread). cbn [ok_or] in Hread.
  assert (∀ fs1, cut_inv [Some b] fs1 → cut_inv [Some (repaired b); Some b] fs1) as Hw.
  { intros fs1 H1. eapply replace_inv_weaken; [exact H1|]. intros c Hc. by right. }
  assert (v_open WAL_FILE fs = Ok (len b)) as Hopen.
  { cbn in Hread |- *. destruct (fs_files fs !! WAL_FILE); [|done]. by injection Hread as ->. }
  unfold cut_interrupted_append in H. rewrite Hopen, Hread in H. unfold try_from in H.
  pose proof (len_nonneg b).
  rewrite (proj2 (Z.leb_le 0 _)), (proj2 (Z.leb_le _ u64_max)) in H by done. cbn [andb] in H. rewrite bool_decide_true in H by done. cbn [negb] in H.
  unfold repaired in *. destruct (interrupted_offset b) as [offset|].
  2:{ injection H as <- <-. split; [by apply Hw|done]. }
  destruct (slice_to b offset) as [prefix|]; cbn [default] in *.
  2:{ injection H as <- <-. split; [by apply Hw|done]. }
  destruct (v_write CUT_TEMPORARY prefix fs) as [fs1 r1] eqn:E1. destruct r1 as [[]|k].
  2:{ injection H as <- <-. split; [|done]. apply Hw. by eapply replace_inv_write. }
  destruct (data_file_sync policy) as [|kind]; [done|]. cbn [sync_if] in H.
  destruct (v_sync (File CUT_TEMPORARY) kind fs1) as [fs2 r2] eqn:E2.
  destruct (replace_prepare _ _ Hne _ _ fs fs1 kind fs2 r2 Hi E1 E2) as [Hi2 Hready].
  destruct r2 as [[]|k]; [|injection H as <- <-; split; [by apply Hw|done]].
  specialize (Hready eq_refl). rewrite (temp_reads _ prefix true fs2 Hready) in H.
  rewrite bool_decide_true in H by done. cbn [negb] in H.
  destruct (v_rename CUT_TEMPORARY WAL_FILE fs2) as [fs3 r3] eqn:E3. destruct r3 as [[]|k].
  2:{ injection H as <- <-. split; [|done]. by eapply replace_inv_rename. }
  destruct (sync_if (directory_sync policy) Directory fs3) as [fs4 r4] eqn:E4.
  destruct (replace_finish _ _ Hne _ _ fs2 fs3 _ fs4 r4 Hi2 Hready E3 E4) as [Hi4 Hfin].
  destruct r4 as [[]|k]; injection H as <- <-; [|by split]. split; [done|].
  intros _. by apply (Hfin eq_refl).
Qed.

(** Without I/O faults the repair succeeds. *)
Lemma cut_interrupted_append_total policy b fs :
  v_read WAL_FILE fs = Ok b → fs_faults fs = [] → len b ≤ u64_max →
  (∀ o, interrupted_offset b = Some o → is_Some (slice_to b o)) →
  is_ok (cut_interrupted_append policy fs).2 = true.
Proof.
  intros Hread Hf Hb Ho.
  assert (v_open WAL_FILE fs = Ok (len b)) as Hopen.
  { cbn in Hread |- *. destruct (fs_files fs !! WAL_FILE); [|done]. by injection Hread as ->. }
  unfold cut_interrupted_append. rewrite Hopen, Hread.
  destruct (negb _); [done|]. destruct (interrupted_offset b) as [o|]; [|done].
  destruct (Ho o eq_refl) as [prefix ->].
  assert (∀ fs name, fs_faults fs = [] → fs_write name prefix fs = (put_file name prefix fs, Ok tt)
    ∧ fs_faults (put_file name prefix fs) = []
    ∧ ∃ i, fs_dir (put_file name prefix fs) !! name = Some i
           ∧ is_Some (fs_inodes (put_file name prefix fs) !! i)) as Hput.
  { clear. intros fs name H. unfold fs_write, next_fault. rewrite H. split; [done|].
    unfold put_file. destruct (fs_dir fs !! name) as [i|] eqn:E; cbn; (split; [done|]);
      eexists; (split; [done || by rewrite lookup_insert_eq|]); by rewrite lookup_insert_eq. }
  cbn [v_write fs_vfs]. destruct (Hput fs CUT_TEMPORARY Hf) as (-> & Hf1 & i & Hi & [node Hnode]).
  set (fs1 := put_file _ _ _) in *.
  assert (∃ fs2, sync_if (data_file_sync policy) (File CUT_TEMPORARY) fs1 = (fs2, Ok tt)
    ∧ fs_faults fs2 = [] ∧ ∃ j node, fs_dir fs2 !! CUT_TEMPORARY = Some j
                                     ∧ fs_inodes fs2 !! j = Some node)
    as (fs2 & -> & Hf2 & j & node' & Hj & Hnode').
  { destruct (data_file_sync policy) as [|kind]; cbn [sync_if]; [by eauto 7|]. cbn.
    unfold fs_sync, next_fault. rewrite Hf1, Hi, Hnode. eexists. split; [done|]. cbn.
    split; [done|]. eexists _, _. by rewrite lookup_insert_eq. }
  rewrite (temp_reads CUT_TEMPORARY (in_data node') (in_synced node') fs2)
    by (exists j; by destruct node').
  destruct (negb _); [done|]. cbn [v_rename fs_vfs]. unfold fs_rename, next_fault.
  rewrite Hf2, Hj. destruct (directory_sync policy) as [|kind]; cbn [sync_if]; [done|].
  cbn. unfold fs_sync, next_fault. cbn. by rewrite Hf2.
Qed.
End CutProof.

(** ** Reopening *)

Section Reopen.
Context {X : Xxh3} {L : Xxh3Laws X}.

Lemma whole_records_again rs : ∀ budget,
  0 ≤ budget →
  whole_records (len (records_bytes (whole_records budget rs))) rs = whole_records budget rs.
Proof.
  induction rs as [|r rs IH]; intros budget Hb; [done|]. cbn [whole_records].
  pose proof (len_record_bytes_ge r).
  destruct (Z.leb_spec (len (record_bytes r)) budget).
  - rewrite records_bytes_cons, len_app.
    pose proof (len_nonneg (records_bytes (whole_records (budget - len (record_bytes r)) rs))).
    rewrite (proj2 (Z.leb_le _ _)) by lia. f_equal.
    rewrite Z.add_simpl_l. apply IH. lia.
  - change (len (records_bytes [])) with 0. by rewrite (proj2 (Z.leb_gt _ _)) by lia.
Qed.

Lemma whole_records_bound rs : ∀ budget,
  0 ≤ budget → len (records_bytes (whole_records budget rs)) ≤ budget.
Proof using Type.
  induction rs as [|r rs IH]; intros budget Hb; cbn [whole_records]; [done|].
  destruct (Z.leb_spec (len (record_bytes r)) budget); [|done].
  rewrite records_bytes_cons, len_app. specialize (IH (budget - len (record_bytes r))). lia.
Qed.

Lemma number_take s records : ∀ m, number s (take m records) = take m (number s records).
Proof.
  revert s. induction records as [|[op p] records IH]; intros s [|m]; try done.
  cbn [take number]. by rewrite IH.
Qed.

Lemma written_op a : written a → is_u16 (attempt_op a).
Proof using Type.
  destruct 1 as [op b m He Hm Hl| | |]; [|done..]. apply encodes_op in He. cbn. split; [lia|]. by etrans; [apply He|].
Qed.

Lemma log_ops ls : Forall (λ l, written l.1) ls → Forall (λ r, is_u16 r.1) (log_records ls).
Proof using Type.
  intros H. apply Forall_concat, Forall_map. eapply Forall_impl; [exact H|]. intros l Hl.
  apply Forall_take, Forall_map, Forall_true. intros m. by apply written_op.
Qed.

(** The reader on a clean image. *)
Lemma open_clean first rs :
  is_u64 first → Forall record_ok rs → sequenced first rs → len (wal_image first rs) ≤ isize_max →
  ∃ rd cl, reader_open (Ok (wal_image first rs)) = Some (Ok rd) ∧ into_clean rd = Ok cl
           ∧ Forall2 shows rs (cl_records cl).
Proof using L.
  intros Hf Hok Hs Hl. destruct (reader_open_ok _ Hl) as (res & rd & Hr & Ho & Ht & Hrec & Hp & _).
  rewrite replay_image in Hr by done. injection Hr as <-. cbn [rr_records rr_terminator] in *.
  exists rd. unfold into_clean. rewrite Ht. eexists. split_and!; [done|done|].
  cbn [cl_records]. rewrite Hrec. apply Forall2_fmap_r. clear -Hp.
  induction Hp as [|r rs [H _] _ IH]; constructor; [|done]. by split_and!.
Qed.

Lemma image_length first rs : (40 ≤ length (wal_image first rs))%nat.
Proof using Type.
  unfold wal_image. rewrite length_app. pose proof (len_wal_header_bytes first) as H.
  unfold len in H. change WAL_HEADER_LEN with 40 in H. lia.
Qed.

Lemma recover_log_reads decision a g fs b :
  v_read WAL_FILE fs = Ok b → len b ≠ 0 →
  recover_log decision a g fs
  = match reader_open (Ok b) with
    | None => None
    | Some opened =>
        Some (reader ← map_err StoreWal opened;
              clean ← map_err StoreWalRecovery (into_clean reader);
              batches ← committed_batches decision (cl_records clean) (Z.min a g);
              Ok (Some (clean, batches)))
    end.
Proof using Type.
  intros Hr Hb. unfold recover_log. rewrite Hr.
  assert (v_open WAL_FILE fs = Ok (len b)) as ->; [|by destruct (len b)].
  cbn in Hr |- *. destruct (fs_files fs !! WAL_FILE); [|done]. by injection Hr as ->.
Qed.

(** The facts about a cut log the theorem below uses: what the repair leaves. *)
Lemma survivors_clean first records image n :
  is_u64 first → Forall (λ r, is_u16 r.1) records → encode_wal_image first records = Ok image →
  Forall (λ r, len (record_bytes r) ≤ DEFAULT_MAX_GROUP_BYTES_DURABLE) (number first records) →
  len image ≤ isize_max → WAL_HEADER_LEN ≤ Z.of_nat n → (n ≤ length image)%nat →
  let m := length (survivors (number first records) n) in
  let kept := wal_image first (number first (take m records)) in
  repaired (take n image) = kept
  ∧ (∀ o, interrupted_offset (take n image) = Some o → is_Some (slice_to (take n image) o))
  ∧ (∃ n', kept = take n' image ∧ (n' ≤ n)%nat
           ∧ survivors (number first records) n' = survivors (number first records) n)
  ∧ ∃ rd cl, reader_open (Ok kept) = Some (Ok rd) ∧ into_clean rd = Ok cl
             ∧ Forall2 shows (number first (take m records)) (cl_records cl).
Proof using L.
  intros Hf Hops He Hmax Hlen Hn Hn'. apply encode_wal_image_ok in He as (-> & Hok & Hseq & _); [|done..].
  set (log := number first records) in *. intros m kept.
  destruct (whole_records_prefix log (Z.of_nat n - WAL_HEADER_LEN)) as [rest Hrest].
  fold (survivors log n) in Hrest.
  assert (number first (take m records) = survivors log n) as Hm.
  { rewrite number_take. fold log. unfold m. rewrite Hrest at 2. by rewrite take_app_length. }
  assert (wal_image first (survivors log n) = take (length (wal_image first (survivors log n)))
            (wal_image first log)) as Htake.
  { rewrite Hrest at 3. unfold wal_image. rewrite records_bytes_app, app_assoc.
    by rewrite take_app_length. }
  assert (len (wal_image first (survivors log n)) ≤ isize_max) as Hlen'.
  { rewrite Htake. unfold len in *. rewrite length_take. lia. }
  unfold kept. rewrite Hm. split_and!.
  - by apply repaired_image.
  - intros o Ho. destruct (interrupted_image first log Hf Hok Hseq Hlen Hmax n Hn Hn')
      as [[E _]|(o' & E & Hs)]; rewrite E in Ho; [done|].
    injection Ho as <-. by eexists.
  - exists (length (wal_image first (survivors log n))). split; [done|].
    assert (len (wal_image first (survivors log n))
            = WAL_HEADER_LEN + len (records_bytes (survivors log n))) as Hl
      by (unfold wal_image; by rewrite len_app, len_wal_header_bytes).
    split.
    + pose proof (whole_records_bound log (Z.of_nat n - WAL_HEADER_LEN) ltac:(lia)) as Hb.
      fold (survivors log n) in Hb. unfold len in *. lia.
    + unfold survivors at 1. fold (len (wal_image first (survivors log n))).
      rewrite Hl, Z.add_simpl_l. apply whole_records_again. lia.
  - apply open_clean; [done| | |done].
    + rewrite Hrest in Hok. by apply Forall_app in Hok as [? _].
    + rewrite <- Hm, number_take. by apply sequenced_take.
Qed.


(** C40: A crash that leaves only part of the log header (one to thirty-nine bytes
    of a log image) is not repaired: the cut does nothing, and recovery fails with
    an invalid header, so the store does not open. *)
Theorem torn_header_refuses_reopen (decision : TransactionBinding → option TransactionBinding)
    (first : Z) (records : list (Z * bytes)) (image : bytes) (n : nat)
    (policy : DurabilityPolicy) (fs : Fs) (absorbed graph_absorbed : Z) :
  is_u64 first → Forall (λ r, is_u16 r.1) records → encode_wal_image first records = Ok image →
  len image ≤ isize_max → 0 < Z.of_nat n < WAL_HEADER_LEN →
  v_read WAL_FILE fs = Ok (take n image) →
  cut_interrupted_append policy fs = (fs, Ok false)
  ∧ recover_log decision absorbed graph_absorbed fs
    = Some (Err (StoreWalRecovery (RecoveryInvalidHeader
        (HeaderTruncatedAt WAL_HEADER_LEN (Z.of_nat n))))).
Proof using L.
  intros Hf Hops He Hlen Hn Hread.
  apply encode_wal_image_ok in He as (-> & Hok & Hseq & _); [|done..].
  pose proof (image_length first (number first records)) as H40. change WAL_HEADER_LEN with 40 in Hn.
  pose proof (replay_cut first (number first records) n Hf Hok Hseq Hlen ltac:(lia)) as Hr.
  rewrite (proj2 (Z.ltb_lt _ _)) in Hr by (change WAL_HEADER_LEN with 40; lia).
  rewrite bool_decide_false in Hr by lia. set (cut := take n _) in *.
  assert (len cut = Z.of_nat n) as Hl by (unfold cut, len; rewrite length_take; lia).
  split.
  - unfold cut_interrupted_append, interrupted_offset. rewrite Hread, Hr.
    destruct (v_open WAL_FILE fs) as [k|k] eqn:E; [by destruct (negb _)|].
    cbn in E, Hread. by destruct (fs_files fs !! WAL_FILE).
  - rewrite (recover_log_reads _ _ _ _ _ Hread) by lia. unfold reader_open. by rewrite Hr.
Qed.
End Reopen.

(** ** Batches of any log *)

(** C7: Replay of a log refines its abstract specification: over records already
    absorbed and a log of batches built by the encoders, each kept whole or only in
    its first records, the committed batches are exactly the batches kept whole
    (prepared ones only when decided), each with its last sequence, its operations
    and mutations in order. *)
Theorem committed_batches_refine {X : Xxh3}
    (decision : TransactionBinding → option TransactionBinding) (first absorbed : Z)
    (ls : list Logged) (old vs : list VisibleRecord) :
  Forall (λ l, written l.1) ls → log_bound decision first ls → absorbed < first →
  Forall (λ v, vr_seq v ≤ absorbed) old → Forall2 shows (number first (log_records ls)) vs →
  committed_batches decision (old ++ vs) absorbed = Ok (whole_attempts decision first ls)
  ∧ committed_mutations_with_decisions decision (old ++ vs) absorbed
    = Ok (concat (map cb_members (whole_attempts decision first ls))).
Proof.
  intros Hw Hb Ha Hold Hvs. pose proof (written_log_ok _ ls first Hw Hb) as Hok.
  unfold committed_mutations_with_decisions.
  by rewrite (committed_batches_whole decision first ls absorbed old vs Hok Ha Hold Hvs).
Qed.

(** ** Witnesses *)

Module SampleBatches.
Definition policy : DurabilityPolicy :=
  {| data_file_sync := SyncWith Full; directory_sync := SyncWith Full |}.
Definition undecided : TransactionBinding → option TransactionBinding := λ _, None.

Definition deletion (id : Z) : bytes := match encode_delete [id] with Ok b => b | Err _ => [] end.
Definition member (index id : Z) : Member :=
  {| mb_payload := match encode_mixed_batch_member index 2 DELETE_V1 (deletion id) with
                   | Ok b => b | Err _ => [] end;
     mb_op := DELETE_V1; mb_mutation := Delete [id] |}.

(** A delete, then a batch of two deletes. *)
Definition attempts : list Logged :=
  [(OneRecord {| mb_payload := deletion 4; mb_op := DELETE_V1; mb_mutation := Delete [4] |}, 1%nat);
   (LocalRun MIXED_BATCH_MEMBER_V1 [member 0 5; member 1 6], 2%nat)].

Definition image : bytes :=
  match encode_wal_image (X:=ToyXxh3.toy) 3 (log_records attempts) with Ok b => b | Err _ => [] end.

(** The second member of the batch is torn. *)
Definition cut : nat := 160.

(** A directory whose only file is the log, on media. *)
Definition disk (data : bytes) : Fs :=
  {| fs_inodes := {[ 0%nat := {| in_data := data; in_synced := true |} ]};
     fs_dir := {[ WAL_FILE := 0%nat ]}; fs_dirs := [{[ WAL_FILE := 0%nat ]}]; fs_past := [];
     fs_next := 1; fs_faults := [] |}.

Lemma encodes_deletion id : is_u128 id → encodes DELETE_V1 (deletion id) (Delete [id]).
Proof. intros H. apply encodes_delete; [by apply Forall_singleton|done]. Qed.

Lemma attempts_written : Forall (λ l, written l.1) attempts.
Proof.
  apply Forall_cons; split; [|apply Forall_singleton].
  - apply written_one; [by apply encodes_deletion|done|by vm_compute].
  - apply written_mixed; [done|].
    intros [|[|i]] m [= <-]; [exists (deletion 5)|exists (deletion 6)];
      (split; [by apply encodes_deletion|by vm_compute]).
Qed.

Lemma disk_inv data : cut_inv [Some data] (disk data).
Proof.
  split.
  - left.
  - intros d ->%list_elem_of_singleton. change (_ !! WAL_FILE) with (Some 0%nat).
    eexists. split; [done|]. split; [done|left].
  - intros i d Hi. by vm_compute in Hi.
  - intros d p i ->%list_elem_of_singleton Hi.
    apply lookup_singleton_Some in Hi as [_ <-]. apply Nat.lt_0_succ.
  - constructor.
Qed.

Lemma image_ok : encode_wal_image (X:=ToyXxh3.toy) 3 (log_records attempts) = Ok image.
Proof. by vm_compute. Qed.

Lemma image_small : len image ≤ isize_max.
Proof. by vm_compute. Qed.

Lemma records_small :
  Forall (λ r, len (record_bytes (X:=ToyXxh3.toy) r) ≤ DEFAULT_MAX_GROUP_BYTES_DURABLE)
    (number 3 (log_records attempts)).
Proof. apply (bool_decide_unpack _). by vm_compute. Qed.

Lemma cut_bounds : WAL_HEADER_LEN ≤ Z.of_nat cut ∧ (cut ≤ length image)%nat.
Proof. split; [by vm_compute|]. apply Nat.leb_le. by vm_compute. Qed.

Lemma first_ok : is_u64 3 ∧ Z.min 0 0 < 3 ∧ data_file_sync policy ≠ SyncSkip.
Proof. done. Qed.

Lemma attempts_bound m : log_bound undecided 3 (cut_log m attempts).
Proof. by repeat split. Qed.
End SampleBatches.


Lemma torn_header_refuses_reopen_witness :
  recover_log (X:=ToyXxh3.toy) SampleBatches.undecided 0 0
    (SampleBatches.disk (take 39 SampleBatches.image))
  = Some (Err (StoreWalRecovery (RecoveryInvalidHeader (HeaderTruncatedAt 40 39)))).
Proof.
  apply (torn_header_refuses_reopen (X:=ToyXxh3.toy) (L:=ToyXxh3.toy_laws)
    SampleBatches.undecided 3 (log_records SampleBatches.attempts) SampleBatches.image 39
    SampleBatches.policy); [done|by repeat constructor|by vm_compute..].
Defined.

Lemma committed_batches_refine_witness :
  committed_batches (X:=ToyXxh3.toy) SampleBatches.undecided
    (map (recovered_visible (X:=ToyXxh3.toy)) (number 3 (log_records (take 1 SampleBatches.attempts)))) 2
  = Ok [{| cb_last_seq := 3; cb_members := [(3, DELETE_V1, Delete [4])] |}].
Proof.
  apply (committed_batches_refine (X:=ToyXxh3.toy) SampleBatches.undecided 3 2
    (take 1 SampleBatches.attempts) []).
  - apply Forall_take, SampleBatches.attempts_written.
  - by vm_compute.
  - done.
  - done.
  - repeat constructor.
Defined.
