(* ===== verification/ActiveIngest.v ===== *)
(** * Ingest and delete

    Models the write path of [crates/zeppelin-embed/src/ingest/mod.rs] in the
    build without [graph-cypher]: the revision rule ([revise.rs]), the revision
    conditions, [ingest_attempt] and [delete_attempt] with the validations and
    early returns of the code, and the publication of the next active segment.

    The sealed segments answer through [SealedSegment], the operations of a
    segment reader that the path calls.  Rewriting sealed segments for
    tombstones and appending to the log are the outcomes [WriteEffects]: the
    path depends on whether they succeed and on the sequence the log assigned.
    Poisoned locks are not modelled. *)

From S2P Require Import Prelude WalReplay Cursor Schema Epoch Float Columns Predicate IngestPayload StoreErrors Accounted Bitmap ActiveSegment AtomicBatch.

(** ** The revision rule *)

Inductive RevisionDecision : Type :=
| DecideInsert
| DecideReplay (seq : Z)
| DecideReplace
| DecideReject (current : Revision).

Definition classify_revision (existing : option (DocumentVersion * Z)) (attempted : DocumentVersion)
    : RevisionDecision :=
  match existing with
  | None => DecideInsert
  | Some (current, seq) =>
      match dv_revision attempted ?= dv_revision current with
      | Lt => DecideReject (dv_revision current)
      | Eq => DecideReplay seq
      | Gt => DecideReplace
      end
  end.

(** ** Sealed segments *)

(** What the path asks a [SegmentReader]: the live rows of a document
    ([query_rows_for_doc_id]), all its rows ([query_rows_with_doc_id]) and the
    version stored in a row ([document_version]). *)
Record SealedSegment : Type := {
  ss_rows_for : DocId → result StoreError (list Z);
  ss_rows_with : DocId → result StoreError (list Z);
  ss_version : Z → result StoreError (option DocumentVersion);
}.

Record PublishedSnapshot : Type := {
  ps_segments : list SealedSegment;
  ps_absorbed_through : Z;
}.

Record SealedDocumentMatch : Type := {
  sm_segment_index : nat;
  sm_row : Z;
  sm_version : DocumentVersion;
}.

Fixpoint match_rows (index : nat) (segment : SealedSegment) (rows : list Z)
    : result StoreError (list SealedDocumentMatch) :=
  match rows with
  | [] => Ok []
  | row :: rows =>
      version ← ss_version segment row;
      rest ← match_rows index segment rows;
      Ok (match version with
          | Some version =>
              {| sm_segment_index := index; sm_row := row; sm_version := version |} :: rest
          | None => rest
          end)
  end.

(** [requested] is the set of ids; the rows are sorted, so its order does not
    matter. *)
Fixpoint match_segments (index : nat) (requested : list DocId) (segments : list SealedSegment)
    : result StoreError (list SealedDocumentMatch) :=
  match segments with
  | [] => Ok []
  | segment :: segments =>
      rows ← mapM (ss_rows_with segment) requested;
      matched ← match_rows index segment (merge_sort Z.le (concat rows));
      rest ← match_segments (S index) requested segments;
      Ok (matched ++ rest)
  end.

Definition sealed_document_matches (snapshot : PublishedSnapshot) (ids : list DocId)
    : result StoreError (list SealedDocumentMatch) :=
  match_segments 0 (elements (list_to_set ids : gset Z)) (ps_segments snapshot).

(** The first live sealed row of a document that has a version. *)
Fixpoint first_version (segment : SealedSegment) (rows : list Z) : result StoreError (option Revision) :=
  match rows with
  | [] => Ok None
  | row :: rows =>
      version ← ss_version segment row;
      match version with
      | Some version => Ok (Some (dv_revision version))
      | None => first_version segment rows
      end
  end.

Fixpoint sealed_live_revision (doc_id : DocId) (segments : list SealedSegment)
    : result StoreError (option Revision) :=
  match segments with
  | [] => Ok None
  | segment :: segments =>
      rows ← ss_rows_for segment doc_id;
      revision ← first_version segment rows;
      match revision with
      | Some revision => Ok (Some revision)
      | None => sealed_live_revision doc_id segments
      end
  end.

Inductive StoreState : Type := Open | Closing | Closed.

Record IngestBatch : Type := {
  ib_documents : list IngestDocument;
  ib_epoch : option EpochIdentity;
}.

Record DeleteBatch : Type := {
  db_doc_ids : list DocId;
  db_expected : list (option ExpectedRevision);
}.

Record IngestAck : Type := {
  ack_seq : Z;
  ack_generation : Z;
}.

Definition validate_republish_generation (expected actual : Z) : result StoreError unit :=
  if negb (actual =? expected) then Err (StoreConcurrentActiveMutation expected actual) else Ok tt.

Record ActiveState (F : Type) : Type := {
  as_generation : Z;
  as_segment : ActiveSegment F;
}.
Arguments as_generation {F} _.
Arguments as_segment {F} _.

(** The squared [f64] norm of a finite vector, when it is not 1 within tolerance. *)
Class SquaredNorm : Type := squared_norm : list Z → option Z.

Definition UNIT_NORM_SQUARED_TOLERANCE_BITS : Z := 0x3f50624dd2f1a9fc.

Definition non_unit_squared_norm {N : SquaredNorm} (vector : list Z) : option Z :=
  if bool_decide (vector = []) then None
  else match first_non_finite 0 vector with
       | Some _ => None
       | None => squared_norm vector
       end.

(** The first loop over the documents, for a store of unit vectors. *)
Fixpoint check_norms {N : SquaredNorm} (documents : list IngestDocument) : result IngestError unit :=
  match documents with
  | [] => Ok tt
  | d :: documents =>
      match non_unit_squared_norm (id_vector d) with
      | Some squared_norm_bits =>
          Err (IngestVector (QuantNonUnitNorm squared_norm_bits UNIT_NORM_SQUARED_TOLERANCE_BITS))
      | None => check_norms documents
      end
  end.

Section Columns.
Context {B : Type} {R : Roaring B}.

Definition validate_document_columns (schema : Schema) (d : IngestDocument) : result IngestError unit :=
  map_err IngestColumns
    (_ ← (push_row (id_timestamp d) (column_inputs (id_columns d)) (builder_new (B:=B) schema)).2; Ok tt).

Fixpoint check_columns (schema : Schema) (documents : list IngestDocument) : result IngestError unit :=
  match documents with
  | [] => Ok tt
  | d :: documents => _ ← validate_document_columns schema d; check_columns schema documents
  end.
End Columns.

Section Ingest.
Context {F : Type} {Q : Quantizer F} {K : HashCapacity} {N : SquaredNorm} {B : Type} {R : Roaring B}.
Implicit Types (s : ActiveSegment F) (d : IngestDocument).

(** ** Admission *)

Record ResolvedRevision : Type := {
  rv_version : DocumentVersion;
  rv_seq : Z;
  rv_active_row : option nat;
}.

Definition resolve_revision s (sealed : list SealedDocumentMatch) (doc_id : DocId) (sealed_seq : Z)
    : option ResolvedRevision :=
  let active_existing := existing s doc_id in
  let active_row := (λ e, e.1.1) <$> active_existing in
  let start := (λ '(_, version, seq), {| rv_version := version; rv_seq := seq;
                                         rv_active_row := active_row |}) <$> active_existing in
  foldl (λ resolved m,
           if match resolved with
              | None => true
              | Some current => dv_revision (rv_version current) <? dv_revision (sm_version m)
              end
           then Some {| rv_version := sm_version m; rv_seq := sealed_seq; rv_active_row := active_row |}
           else resolved)
    start (filter (λ m, dv_doc_id (sm_version m) = doc_id) sealed).

Definition live_revision s (snapshot : PublishedSnapshot) (doc_id : DocId)
    : result StoreError (option Revision) :=
  match existing s doc_id with
  | Some (row, version, _) =>
      if negb (is_tombstoned s row) then Ok (Some (dv_revision version))
      else sealed_live_revision doc_id (ps_segments snapshot)
  | None => sealed_live_revision doc_id (ps_segments snapshot)
  end.

Definition condition_holds (expected : ExpectedRevision) (current : option Revision) : bool :=
  match expected with
  | Exactly revision => bool_decide (current = Some revision)
  | Absent => bool_decide (current = None)
  end.

Fixpoint check_revision_conditions s (snapshot : PublishedSnapshot)
    (conditions : list (Z * DocId * option ExpectedRevision)) : result IngestError unit :=
  match conditions with
  | [] => Ok tt
  | (index, doc_id, None) :: conditions => check_revision_conditions s snapshot conditions
  | (index, doc_id, Some expected) :: conditions =>
      current ← lift_store (live_revision s snapshot doc_id);
      if negb (condition_holds expected current)
      then Err (IngestRevisionConflict index doc_id expected current)
      else check_revision_conditions s snapshot conditions
  end.

(** ** Applying a batch *)

Record RevisionProgress : Type := {
  rp_working : option (ActiveSegment F);
  rp_records : list (Z * Z * bytes);
  rp_replay_seq : option Z;
  rp_sealed_tombstones : list DocId;
}.

Definition progress_start : RevisionProgress :=
  {| rp_working := None; rp_records := []; rp_replay_seq := None; rp_sealed_tombstones := [] |}.

(** [replace_in_place], less the lexical index it keeps; the text it replaces is
    read first. *)
Definition replace_in_place (row : nat) s d : result IngestError (ActiveSegment F) :=
  if negb (tracks_text s) && negb (bool_decide (is_Some (id_text d)))
  then replace_row_in_place row s d
  else
  _ ← (if tracks_text s then lift_store (active_text s row) else Ok None);
  s' ← replace_row_in_place row s d;
  _ ← ok_or (try_from u32_max (Z.of_nat row)) (IngestStore StoreActiveRowOverflow);
  Ok s'.

(** The working segment: copied with room for the rest of the batch, once. *)
Definition working_segment s d (remaining : list IngestDocument) (progress : RevisionProgress)
    : result IngestError (ActiveSegment F) :=
  match rp_working progress with
  | Some working => Ok working
  | None => copy_for_batch s d remaining
  end.

(** [encode_persisted_upsert], pushed with the row. *)
Definition push_record (row : nat) d (records : list (Z * Z * bytes))
    : result IngestError (list (Z * Z * bytes)) :=
  '(op, payload) ← map_err IngestErrorPayload (encode_persisted_upsert d);
  Ok (records ++ [(Z.of_nat row, op, payload)]).

Definition apply_revision_decision (current : ActiveSegment F) (sealed : list SealedDocumentMatch)
    (sealed_seq : Z) d (remaining : list IngestDocument) (progress : RevisionProgress)
    : result IngestError RevisionProgress :=
  let segment := default current (rp_working progress) in
  let doc_id := dv_doc_id (id_version d) in
  let resolved := resolve_revision segment sealed doc_id sealed_seq in
  match classify_revision ((λ r, (rv_version r, rv_seq r)) <$> resolved) (id_version d) with
  | DecideReplace =>
      working ← working_segment current d remaining progress;
      '(working, row) ← match (r ← resolved; rv_active_row r) with
                        | Some row => working ← replace_in_place row working d; Ok (working, row)
                        | None => insert_in_place working d
                        end;
      records ← push_record row d (rp_records progress);
      Ok {| rp_working := Some working; rp_records := records;
            rp_replay_seq := rp_replay_seq progress;
            rp_sealed_tombstones :=
              if existsb (λ m, dv_doc_id (sm_version m) =? doc_id) sealed
                 && negb (bool_decide (doc_id ∈ rp_sealed_tombstones progress))
              then rp_sealed_tombstones progress ++ [doc_id]
              else rp_sealed_tombstones progress |}
  | DecideInsert =>
      working ← working_segment current d remaining progress;
      '(working, row) ← insert_in_place working d;
      records ← push_record row d (rp_records progress);
      Ok {| rp_working := Some working; rp_records := records;
            rp_replay_seq := rp_replay_seq progress;
            rp_sealed_tombstones := rp_sealed_tombstones progress |}
  | DecideReplay seq =>
      Ok {| rp_working := rp_working progress; rp_records := rp_records progress;
            rp_replay_seq := Some (match rp_replay_seq progress with
                                   | None => seq
                                   | Some current => Z.max current seq
                                   end);
            rp_sealed_tombstones := rp_sealed_tombstones progress |}
  | DecideReject current =>
      Err (IngestStaleRevision doc_id current (dv_revision (id_version d)))
  end.

(** The loop over the batch; [remaining] starts at the current document. *)
Fixpoint apply_documents (current : ActiveSegment F) (sealed : list SealedDocumentMatch)
    (sealed_seq : Z) (documents : list IngestDocument) (progress : RevisionProgress)
    : result IngestError RevisionProgress :=
  match documents with
  | [] => Ok progress
  | d :: rest =>
      progress ← apply_revision_decision current sealed sealed_seq d (d :: rest) progress;
      apply_documents current sealed sealed_seq rest progress
  end.

(** ** The write path *)

Record Store : Type := {
  st_state : StoreState;
  st_epoch_identity : option EpochIdentity;
  st_epoch : option StoreEpoch;
  st_schema : Schema;
  st_writer : bool;
  st_active : option (ActiveState F);
  st_snapshot : option PublishedSnapshot;
}.

(** The sealed rewrite prepared before the commit, the log append (the first
    sequence it assigned), and the sealed rewrite committed after it. *)
Record WriteEffects : Type := {
  we_prepare : list SealedDocumentMatch → list DocId → result StoreError unit;
  we_commit_many : list (Z * bytes) → result WalWriteError Z;
  we_commit_sealed : result StoreError unit;
}.

Definition check_state (state : StoreState) : result IngestError unit :=
  match state with
  | Open => Ok tt
  | Closing => Err (IngestStore StoreClosing)
  | Closed => Err (IngestStore StoreClosed)
  end.

Definition check_epoch (expected declared : option EpochIdentity) : result IngestError unit :=
  match expected, declared with
  | Some expected, Some declared =>
      if negb (bool_decide (expected = declared))
      then Err (IngestEpochMismatch {| em_expected := expected; em_declared := declared |})
      else Ok tt
  | Some _, None => Err IngestEpochUndeclared
  | None, Some _ => Err IngestEpochUnstamped
  | None, None => Ok tt
  end.

(** No writer: the store is read-only, or is closing. *)
Definition require_writer (st : Store) : result IngestError unit :=
  if st_writer st then Ok tt
  else Err (IngestStore (match st_state st with
                         | Closing => StoreClosing
                         | Closed => StoreClosed
                         | Open => StoreReadOnly
                         end)).

Definition normalized (st : Store) : bool :=
  match st_epoch st with
  | Some epoch => bool_decide (tw_normalization (ee_document (se_embedding epoch)) = L2)
  | None => false
  end.

(** [records.iter().zip(start..end)]: the sequence of each record's row. *)
Fixpoint set_sequences (records : list (Z * Z * bytes)) (first : Z) s
    : result IngestError (ActiveSegment F) :=
  match records with
  | [] => Ok s
  | (row, _, _) :: records =>
      s ← lift_store (set_sequence (Z.to_nat row) first s);
      set_sequences records (first + 1) s
  end.

Definition publish (st : Store) (expected generation : Z) (next : ActiveSegment F)
    : result IngestError (ActiveState F) :=
  active ← ok_or (st_active st) (IngestStore StoreClosed);
  _ ← lift_store (validate_republish_generation expected (as_generation active));
  Ok {| as_generation := generation; as_segment := next |}.

(** What a write did: the log records appended with their first sequence, and
    the next active state; nothing when the batch was a replay. *)
Definition Outcome : Type := option (Z * list (Z * bytes) * ActiveState F) * IngestAck.

(** The document checks that need no lock. *)
Definition admit_batch (st : Store) (batch : IngestBatch) : result IngestError unit :=
  _ ← check_state (st_state st);
  _ ← check_epoch (st_epoch_identity st) (ib_epoch batch);
  if bool_decide (ib_documents batch = []) then Err IngestEmptyBatch
  else
  _ ← (if normalized st then check_norms (ib_documents batch) else Ok tt);
  check_columns (st_schema st) (ib_documents batch).

Definition ingest_conditions (documents : list IngestDocument)
    : list (Z * DocId * option ExpectedRevision) :=
  imap (λ index d, (Z.of_nat index, dv_doc_id (id_version d), id_expected_revision d)) documents.

Definition ingest_attempt (st : Store) (effects : WriteEffects) (batch : IngestBatch)
    : result IngestError Outcome :=
  _ ← admit_batch st batch;
  _ ← require_writer st;
  active ← ok_or (st_active st) (IngestStore StoreClosed);
  snapshot ← ok_or (st_snapshot st) (IngestStore StoreClosed);
  let documents := ib_documents batch in
  _ ← check_revision_conditions (as_segment active) snapshot (ingest_conditions documents);
  sealed ← lift_store (sealed_document_matches snapshot
                         (map (λ d, dv_doc_id (id_version d)) documents));
  progress ← apply_documents (as_segment active) sealed (ps_absorbed_through snapshot) documents
               progress_start;
  match rp_working progress with
  | None =>
      seq ← ok_or (rp_replay_seq progress)
              (IngestStore (StoreSynchronization "nonempty ingest replay sequence"));
      Ok (None, {| ack_seq := seq; ack_generation := as_generation active |})
  | Some next =>
      records ← frame_batch (rp_records progress);
      generation ← ok_or (checked_add u64_max (as_generation active) 1)
                     (IngestStore StoreGenerationOverflow);
      _ ← lift_store (we_prepare effects sealed (rp_sealed_tombstones progress));
      let record_refs := map (λ '(_, op, payload), (op, payload)) records in
      first ← map_err (IngestStore ∘ StoreWalWrite) (we_commit_many effects record_refs);
      next ← set_sequences records first next;
      _ ← lift_store (we_commit_sealed effects);
      state ← publish st (as_generation active) generation next;
      Ok (Some (first, record_refs, state),
          {| ack_seq := saturating_sub (first + len records) 1; ack_generation := generation |})
  end.

Fixpoint set_rows (rows : list nat) (seq : Z) s : result IngestError (ActiveSegment F) :=
  match rows with
  | [] => Ok s
  | row :: rows => s ← lift_store (set_sequence row seq s); set_rows rows seq s
  end.

Definition delete_conditions (doc_ids : list DocId) (expected : list (option ExpectedRevision))
    : list (Z * DocId * option ExpectedRevision) :=
  imap (λ index doc_id, (Z.of_nat index, doc_id, mjoin (expected !! index))) doc_ids.

Definition delete_with_writer (st : Store) (effects : WriteEffects) (doc_ids : list DocId)
    (expected : list (option ExpectedRevision)) : result IngestError Outcome :=
  active ← ok_or (st_active st) (IngestStore StoreClosed);
  snapshot ← ok_or (st_snapshot st) (IngestStore StoreClosed);
  _ ← check_revision_conditions (as_segment active) snapshot (delete_conditions doc_ids expected);
  sealed ← lift_store (sealed_document_matches snapshot doc_ids);
  generation ← ok_or (checked_add u64_max (as_generation active) 1)
                 (IngestStore StoreGenerationOverflow);
  '(next, rows) ← active_tombstone doc_ids (as_segment active);
  _ ← lift_store (we_prepare effects sealed doc_ids);
  payload ← map_err IngestErrorPayload (encode_delete doc_ids);
  seq ← map_err (IngestStore ∘ StoreWalWrite) (we_commit_many effects [(DELETE_V1, payload)]);
  next ← set_rows rows seq next;
  _ ← lift_store (we_commit_sealed effects);
  state ← publish st (as_generation active) generation next;
  Ok (Some (seq, [(DELETE_V1, payload)], state),
      {| ack_seq := seq; ack_generation := generation |}).

Definition delete_attempt (st : Store) (effects : WriteEffects) (batch : DeleteBatch)
    : result IngestError Outcome :=
  if bool_decide (db_doc_ids batch = []) then Err IngestEmptyBatch
  else
  _ ← check_state (st_state st);
  _ ← require_writer st;
  delete_with_writer st effects (db_doc_ids batch) (db_expected batch).
End Ingest.
Arguments Store F : clear implicits.
