(* ===== verification/ActiveRecovery.v ===== *)
(** * Rebuilding the active segment from the log

    Models [ActiveState::recover] and [ActiveState::replay] of
    [crates/zeppelin-embed/src/ingest/active.rs] in the build without
    [graph-cypher], where both watermarks are the manifest's.  The unabsorbed
    tail of the log is decoded first, one segment is sized for all of it, then
    every record is applied in place.  The decisions of the namespace root are
    the parameter [TransactionDecisions]; the lexical index built at the end is
    not modelled. *)

From S2P Require Import Prelude Format WalRecord WalReplay Cursor Vfs Schema Epoch Float Columns Predicate IngestPayload StoreErrors Accounted Bitmap ActiveSegment AtomicBatch ActiveIngest.

Record SealedTombstoneDemand : Type := {
  td_doc_id : DocId;
  td_below : option Revision;
}.

Definition demand_delete (doc_id : DocId) : SealedTombstoneDemand :=
  {| td_doc_id := doc_id; td_below := None |}.

Definition demand_upsert (version : DocumentVersion) : SealedTombstoneDemand :=
  {| td_doc_id := dv_doc_id version; td_below := Some (dv_revision version) |}.

Definition demand_matches (demand : SealedTombstoneDemand) (version : DocumentVersion) : bool :=
  (dv_doc_id version =? td_doc_id demand)
  && match td_below demand with
     | None => true
     | Some revision => dv_revision version <? revision
     end.

(** One decoded record awaiting replay: an index into the decoded documents, or
    the ids of a delete. *)
Inductive ReplayStep : Type :=
| StepUpsert (index : nat)
| StepDelete (doc_ids : list DocId).

Definition recovery_apply_error (seq op : Z) (error : IngestError) : StoreError :=
  match error with
  | IngestStore error => error
  | IngestEmptyBatch | IngestRevisionConflict _ _ _ _ => StoreUnsupportedWalMutation seq op
  | IngestEpochMismatch error => StoreEpochMismatch error
  | IngestEpochUndeclared => StoreEpochUndeclared
  | IngestEpochUnstamped => StoreEpochUnstamped
  | IngestStaleRevision doc_id current attempted => StoreWalRevisionOrder seq doc_id current attempted
  | IngestVector source => StoreWalVector seq source
  | IngestColumns source => StoreWalColumns seq op source
  | IngestErrorPayload source => StoreWalMutation seq op source
  end.

(** The locals of the first loop of [replay]. *)
Record Decoded : Type := {
  dc_generation : Z;
  dc_documents : list IngestDocument;
  dc_steps : list (Z * Z * ReplayStep);
  dc_deleted_ids : Z;
}.

Record RecoveredState (F : Type) : Type := {
  rc_active : ActiveState F;
  rc_wal : option CleanWalReader;
  rc_tombstones : list SealedTombstoneDemand;
}.
Arguments rc_active {F} _.
Arguments rc_wal {F} _.
Arguments rc_tombstones {F} _.

(** [decisions]: a [BTreeMap] by transaction, in key order. *)
Definition Decisions : Type := list (Z * TransactionBinding).

Class TransactionDecisions : Type :=
  transaction_decisions : list VisibleRecord → Z → result StoreError Decisions.

Definition decision_of (decisions : Decisions) (b : TransactionBinding) : option TransactionBinding :=
  snd <$> (snd <$> list_find (λ d, d.1 = tb_transaction b) decisions).

(** [values().max_by_key(last_seq)]: the last of the largest. *)
Definition latest_decision (decisions : Decisions) : option TransactionBinding :=
  foldl (λ best d,
           match best with
           | Some b => if tb_last_seq b <=? tb_last_seq d.2 then Some d.2 else Some b
           | None => Some d.2
           end) None decisions.

Section Recovery.
Context {X : Xxh3} {F : Type} {Q : Quantizer F} {K : HashCapacity} {B : Type} {R : Roaring B}.
Implicit Types (s : ActiveSegment F).

(** ** Decoding the tail *)

Definition decode_member (schema : Schema) (absorbed_through : Z)
    (member : Z * Z * MutationPayload) (d : Decoded) : result StoreError Decoded :=
  let '(seq, op, mutation) := member in
  if seq <=? absorbed_through then Ok d
  else match mutation with
       | Upsert document =>
           _ ← map_err (recovery_apply_error seq op) (validate_document_columns (B:=B) schema document);
           Ok {| dc_generation := dc_generation d;
                 dc_documents := dc_documents d ++ [document];
                 dc_steps := dc_steps d ++ [(seq, op, StepUpsert (length (dc_documents d)))];
                 dc_deleted_ids := dc_deleted_ids d |}
       | Delete doc_ids =>
           deleted_ids ← ok_or (checked_add usize_max (dc_deleted_ids d) (len doc_ids))
                           StoreActiveRowOverflow;
           Ok {| dc_generation := dc_generation d; dc_documents := dc_documents d;
                 dc_steps := dc_steps d ++ [(seq, op, StepDelete doc_ids)];
                 dc_deleted_ids := deleted_ids |}
       | EditMetadata _ | BatchMember _ _ _ | MixedBatchMember _ _ _ _ =>
           Err (StoreUnsupportedWalMutation seq op)
       end.

Fixpoint decode_members (schema : Schema) (absorbed_through : Z)
    (members : list (Z * Z * MutationPayload)) (d : Decoded) : result StoreError Decoded :=
  match members with
  | [] => Ok d
  | member :: members =>
      d ← decode_member schema absorbed_through member d;
      decode_members schema absorbed_through members d
  end.

Fixpoint decode_batches (schema : Schema) (absorbed_through graph_absorbed_through : Z)
    (batches : list CommittedBatch) (d : Decoded) : result StoreError Decoded :=
  match batches with
  | [] => Ok d
  | batch :: batches =>
      generation ← (if Z.max absorbed_through graph_absorbed_through <? cb_last_seq batch
                    then ok_or (checked_add u64_max (dc_generation d) 1) StoreGenerationOverflow
                    else Ok (dc_generation d));
      d ← decode_members schema absorbed_through (cb_members batch)
            {| dc_generation := generation; dc_documents := dc_documents d;
               dc_steps := dc_steps d; dc_deleted_ids := dc_deleted_ids d |};
      decode_batches schema absorbed_through graph_absorbed_through batches d
  end.

Definition decode_start (generation : Z) : Decoded :=
  {| dc_generation := generation; dc_documents := []; dc_steps := []; dc_deleted_ids := 0 |}.

(** ** Applying the steps *)

(** The locals of the second loop. *)
Record Replayed : Type := {
  rd_segment : ActiveSegment F;
  rd_rows : gmap Z nat;
  rd_tombstones : list SealedTombstoneDemand;
}.

(** The row of a replayed document: overwritten when its revision is newer. *)
Definition replay_row (seq op : Z) (d : IngestDocument) (r : Replayed)
    : result StoreError (ActiveSegment F * nat * gmap Z nat) :=
  let doc_id := dv_doc_id (id_version d) in
  let revision := dv_revision (id_version d) in
  match rd_rows r !! doc_id with
  | Some row =>
      current ← ok_or (active_document (rd_segment r) row) StoreActiveRowOverflow;
      if revision <=? dv_revision current
      then Err (StoreWalRevisionOrder seq doc_id (dv_revision current) revision)
      else segment ← map_err (recovery_apply_error seq op)
                       (replace_row_in_place row (rd_segment r) d);
           Ok (segment, row, rd_rows r)
  | None =>
      '(segment, row) ← map_err (recovery_apply_error seq op)
                          (insert_row_in_place (rd_segment r) d);
      Ok (segment, row, <[doc_id := row]> (rd_rows r))
  end.

Definition replay_upsert (seq op : Z) (d : IngestDocument) (r : Replayed) : result StoreError Replayed :=
  '(segment, row, rows) ← replay_row seq op d r;
  segment ← set_sequence row seq segment;
  Ok {| rd_segment := segment; rd_rows := rows;
        rd_tombstones := rd_tombstones r ++ [demand_upsert (id_version d)] |}.

Definition replay_delete_id (seq : Z) (rows : gmap Z nat) (doc_id : DocId) s
    : result StoreError (ActiveSegment F) :=
  match rows !! doc_id with
  | None => Ok s
  | Some row =>
      row_u32 ← ok_or (try_from u32_max (Z.of_nat row)) StoreActiveRowOverflow;
      tombstones ← (if bool_decide (row_u32 ∈ bf_data (sg_tombstones s)) then Ok (sg_tombstones s)
                    else buffer_push row_u32 (sg_tombstones s));
      set_sequence row seq (with_tombstones tombstones s)
  end.

Fixpoint replay_delete_ids (seq : Z) (rows : gmap Z nat) (doc_ids : list DocId) s
    : result StoreError (ActiveSegment F) :=
  match doc_ids with
  | [] => Ok s
  | doc_id :: doc_ids =>
      s ← replay_delete_id seq rows doc_id s; replay_delete_ids seq rows doc_ids s
  end.

Definition replay_step (documents : list IngestDocument) (step : Z * Z * ReplayStep) (r : Replayed)
    : result StoreError Replayed :=
  let '(seq, op, step) := step in
  match step with
  | StepUpsert index =>
      d ← ok_or (documents !! index) StoreActiveRowOverflow;
      replay_upsert seq op d r
  | StepDelete doc_ids =>
      segment ← replay_delete_ids seq (rd_rows r) doc_ids (rd_segment r);
      Ok {| rd_segment := segment; rd_rows := rd_rows r;
            rd_tombstones := rd_tombstones r ++ map demand_delete doc_ids |}
  end.

Fixpoint replay_steps (documents : list IngestDocument) (steps : list (Z * Z * ReplayStep))
    (r : Replayed) : result StoreError Replayed :=
  match steps with
  | [] => Ok r
  | step :: steps => r ← replay_step documents step r; replay_steps documents steps r
  end.

(** The segment sized for the whole tail. *)
Definition replay_segment (d : Decoded) : result StoreError (ActiveSegment F) :=
  segment ← match dc_documents d, dc_steps d with
            | first :: _, (seq, op, _) :: _ =>
                map_err (recovery_apply_error seq op)
                  (copy_for_batch active_empty first (dc_documents d))
            | _, _ => Ok active_empty
            end;
  tombstones ← copy_accounted (bf_data (sg_tombstones segment)) (dc_deleted_ids d);
  Ok (with_tombstones tombstones segment).

Definition replay_active (generation absorbed_through graph_absorbed_through : Z)
    (recovered : CleanWalReader) (schema : Schema) (decisions : Decisions)
    : result StoreError (RecoveredState F) :=
  batches ← committed_batches (decision_of decisions) (cl_records recovered)
              (Z.min absorbed_through graph_absorbed_through);
  d ← decode_batches schema absorbed_through graph_absorbed_through batches (decode_start generation);
  segment ← replay_segment d;
  r ← replay_steps (dc_documents d) (dc_steps d)
        {| rd_segment := segment; rd_rows := ∅; rd_tombstones := [] |};
  Ok {| rc_active := {| as_generation := dc_generation d; as_segment := rd_segment r |};
        rc_wal := None; rc_tombstones := rd_tombstones r |}.

(** ** [ActiveState::recover] *)

Context {T : TransactionDecisions} {S : Type} `{Vfs S}.

Definition recovered_empty (generation : Z) : RecoveredState F :=
  {| rc_active := {| as_generation := generation; as_segment := active_empty |};
     rc_wal := None; rc_tombstones := [] |}.

(** A namespace transaction fixed the generation at its last record. *)
Definition namespace_generation (absorbed_through graph_absorbed_through : Z)
    (clean : CleanWalReader) (decisions : Decisions) (generation : Z) : result StoreError Z :=
  match latest_decision decisions with
  | Some binding =>
      if Z.max absorbed_through graph_absorbed_through <? tb_last_seq binding
      then later ← committed_batches (decision_of decisions) (cl_records clean) (tb_last_seq binding);
           ok_or (checked_add u64_max (tb_final_generation binding) (len later))
             StoreGenerationOverflow
      else Ok generation
  | None => Ok generation
  end.

Definition recover_clean (generation absorbed_through graph_absorbed_through : Z) (schema : Schema)
    (clean : CleanWalReader) : result StoreError (RecoveredState F) :=
  decisions ← transaction_decisions (cl_records clean)
                (Z.min absorbed_through graph_absorbed_through);
  recovered ← replay_active generation absorbed_through graph_absorbed_through clean schema decisions;
  generation ← namespace_generation absorbed_through graph_absorbed_through clean decisions
                 (as_generation (rc_active recovered));
  Ok {| rc_active := {| as_generation := generation;
                        as_segment := as_segment (rc_active recovered) |};
        rc_wal := Some clean; rc_tombstones := rc_tombstones recovered |}.

(** [None]: the arithmetic panic of replay. *)
Definition recover (generation absorbed_through graph_absorbed_through : Z) (schema : Schema) (s : S)
    : option (result StoreError (RecoveredState F)) :=
  match v_open WAL_FILE s with
  | Ok 0 => Some (Ok (recovered_empty generation))
  | Ok _ =>
      match reader_open (v_read WAL_FILE s) with
      | None => None
      | Some opened =>
          Some (reader ← map_err StoreWal opened;
                clean ← map_err StoreWalRecovery (into_clean reader);
                recover_clean generation absorbed_through graph_absorbed_through schema clean)
      end
  | Err NotFound => Some (Ok (recovered_empty generation))
  | Err k => Some (Err (StoreWal (ReadIo k)))
  end.
End Recovery.
