(* ===== verification/ActiveReplaySpec.v ===== *)
(** * Replay applies the logged mutations

    [replay_active] refines [view_replay]: on a tail of accepted mutations whose
    totals are machine integers it succeeds, and the segment it builds holds
    exactly the rows and tombstones the mutations produce ([replay_batches]). *)

From S2P Require Import Prelude Format Cursor WalRecord WalReplay Vfs Schema Epoch Float Columns Predicate IngestPayload IngestCodec StoreErrors Accounted Bitmap ActiveSegment ActiveSpec ActiveRoom ActiveSteps AtomicBatch ActiveIngest ActiveRecovery.

Section ReplaySpec.
Context {X : Xxh3} {F : Type} {Q : Quantizer F} {K : HashCapacity} {B : Type} {R : Roaring B}.
Context {QL : QuantizerLaws F} {KL : HashCapacityLaws}.
Implicit Types (s : ActiveSegment F) (v : View) (d : IngestDocument) (r : Replayed (F:=F)).

(** ** One mutation *)

Lemma holds_find v s id : holds v s → rows_get id (sg_row_index s) = find_row id v.
Proof. apply holds_index. Qed.

Lemma holds_dead v s dead t :
  holds v s → bf_data t = map Z.of_nat dead → NoDup dead →
  Forall (λ row, (row < length (v_rows v))%nat) dead →
  holds (view_dead dead v) (with_tombstones t s).
Proof. intros [] Ht Hn Hr. by split. Qed.

Lemma holds_dead_small v s : holds v s → len (v_dead v) ≤ usize_max.
Proof.
  intros Hh. pose proof (ho_small _ _ Hh). etransitivity; [|instantiate (1 := u32_max + 1); done].
  etransitivity; [|exact H]. unfold len. apply inj_le.
  rewrite <- (length_seq (length (v_rows v)) 0). apply submseteq_length, NoDup_submseteq; [apply Hh|].
  intros row Hrow. apply elem_of_seq. pose proof (ho_dead_rows _ _ Hh) as Hr.
  rewrite Forall_forall in Hr. specialize (Hr row Hrow). lia.
Qed.

Lemma NoDup_kill dead row : NoDup dead → NoDup (kill dead row).
Proof.
  intros Hn. unfold kill. case_bool_decide; [done|]. apply NoDup_app. split_and!; [done| |apply NoDup_singleton].
  intros x Hx ->%list_elem_of_singleton. done.
Qed.

Lemma Forall_kill (P : nat → Prop) dead row : Forall P dead → P row → Forall P (kill dead row).
Proof. intros Hd Hr. unfold kill. case_bool_decide; [done|]. by apply Forall_app; split; [|apply Forall_singleton]. Qed.

Lemma len_kill dead row : len (kill dead row) ≤ len dead + 1.
Proof. unfold kill. case_bool_decide; [lia|]. rewrite len_app. done. Qed.

Lemma elem_of_Z_of_nat row dead : Z.of_nat row ∈ map Z.of_nat dead ↔ row ∈ dead.
Proof.
  rewrite list_elem_of_fmap. split; [intros (y & E & Hy); by apply Nat2Z.inj in E as ->|].
  intros Hr. by exists row.
Qed.

Lemma len_alter {A} f i (l : list A) : len (alter f i l) = len l.
Proof. unfold len. by rewrite length_alter. Qed.

Lemma room_sequence dims docs v s row q :
  room dims docs v s → room dims docs (view_sequence row q v) s.
Proof.
  intros []. split; cbn [view_sequence v_dims v_rows v_text v_columns v_dead];
    rewrite ?len_alter, ?map_alter_same by done; try done.
Qed.

Record replayed v r : Prop := {
  rp_holds : holds v (rd_segment r);
  rp_rows : ∀ id, rd_rows r !! id = find_row id v;
}.

Lemma upsert_fits_room dims d docs v s :
  upsert_fits v d → room dims (d :: docs) v s → len (id_vector d) = dims → vector_ok dims d.
Proof. intros (Hv & _) _ <-. done. Qed.

Lemma map_lookup {A A'} (f : A → A') l i : map f l !! i = f <$> l !! i.
Proof. apply list_lookup_fmap. Qed.

Lemma list_find_snoc (l : list Z) x id :
  list_find (λ i, i = id) (l ++ [x])
  = match list_find (λ i, i = id) l with
    | Some p => Some p
    | None => if decide (x = id) then Some (length l, x) else None
    end.
Proof.
  induction l as [|y l IH]; cbn; [by case_decide|]. rewrite IH. destruct (decide (y = id)); [done|].
  destruct (list_find _ l) as [[k z]|]; [done|]. by case_decide.
Qed.

(** Finding rows after an upsert. *)
Lemma find_row_upsert d v id :
  find_row id (view_upsert d v)
  = if decide (id = dv_doc_id (id_version d)) then Some (upsert_row d v) else find_row id v.
Proof.
  unfold view_upsert, upsert_row. set (i := dv_doc_id (id_version d)).
  destruct (find_row i v) as [row|] eqn:E; cbn [default].
  - destruct (find_row_lookup _ _ _ E) as (r & Hr & Hid).
    assert (find_row id (view_replace row d v) = find_row id v) as ->.
    { apply find_row_ids. cbn. by apply (insert_same_id _ _ r). }
    case_decide as Hd; [by rewrite Hd|done].
  - unfold find_row in *. cbn [view_insert v_rows]. rewrite map_app. cbn [map row_of r_id]. fold i.
    rewrite list_find_snoc, length_map.
    destruct (list_find (λ x, x = id) (map r_id (v_rows v))) as [[n x]|] eqn:El.
    + case_decide as Hd; [|done]. subst id. by rewrite El in E.
    + case_decide as Hd; [subst id; by rewrite decide_True|]. by rewrite decide_False.
Qed.

Lemma replay_row_ok dims seq op d docs v r :
  replayed v r → room dims (d :: docs) v (rd_segment r) → upsert_fits v d → len (id_vector d) = dims →
  ∃ s rows, replay_row seq op d r = Ok (s, upsert_row d v, rows) ∧ holds (view_upsert d v) s
    ∧ limits s = limits (rd_segment r) ∧ room dims docs (view_upsert d v) s
    ∧ (∀ id, rows !! id = find_row id (view_upsert d v)).
Proof using QL.
  intros [Hh Hrows] Hr Hf Hl. pose proof (upsert_fits_room _ _ _ _ _ Hf Hr Hl) as Hv.
  destruct Hf as (_ & _ & Hcols & _ & Hrev). unfold replay_row. rewrite Hrows.
  setoid_rewrite find_row_upsert. unfold view_upsert, upsert_row.
  destruct (find_row (dv_doc_id (id_version d)) v) as [row|] eqn:E; cbn [default].
  - destruct (find_row_lookup _ _ _ E) as (x & Hx & Hid).
    unfold active_document. rewrite (ho_ids _ _ Hh), (ho_revisions _ _ Hh).
    rewrite !map_lookup, Hx. cbn [fmap option_fmap option_map mbind option_bind ok_or]. rsimpl.
    cbn [dv_revision]. rewrite (proj2 (Z.leb_gt _ _)) by (by apply Hrev).
    pose proof (overwrite_row_total _ _ _ _ _ _ _ Hh Hr Hv Hx Hid) as Ht.
    destruct (replace_row_in_place row (rd_segment r) d) as [s|] eqn:Es; [|done]. cbn [map_err]. rsimpl.
    destruct (replace_row_holds _ _ _ _ _ _ Hh Hcols Hx Hid Es) as [Hs Hlim].
    exists s, (rd_rows r). split_and!; try done.
    + eapply room_limits; [exact Hlim|]. eapply room_replace; [exact Hr| |exact Hx].
      rewrite <- Hl. apply len_nonneg.
    + intros id. rewrite Hrows. case_decide as Hd; [by rewrite Hd|done].
  - pose proof (insert_row_total _ _ _ _ _ Hh Hr Hv Hrev) as Ht.
    destruct (insert_row_in_place (rd_segment r) d) as [[s row]|] eqn:Es; [|done]. cbn [map_err]. rsimpl.
    destruct (insert_row_inv _ _ _ _ _ Hh Hcols (proj1 (find_row_None _ _) E) Es) as (-> & Hs & Hlim).
    eexists s, _. split_and!; try done.
    + eapply room_limits; [exact Hlim|]. by apply room_insert.
    + intros id. case_decide as Hd; [subst id; by rewrite lookup_insert_eq|].
      by rewrite lookup_insert_ne.
Qed.

Lemma upsert_row_lt d v : (upsert_row d v < length (v_rows (view_upsert d v)))%nat.
Proof.
  unfold view_upsert, upsert_row. destruct (find_row _ v) as [x|] eqn:E; cbn.
  - rewrite length_insert. destruct (find_row_lookup _ _ _ E) as (y & Hy & _).
    by apply lookup_lt_Some in Hy.
  - rewrite length_app. cbn. lia.
Qed.

Lemma set_sequence_total v s row q :
  holds v s → (row < length (v_rows v))%nat → is_ok (set_sequence row q s) = true.
Proof.
  intros Hs Hlt. unfold set_sequence. apply is_ok_bind; [|done]. apply set_at_total.
  by rewrite (ho_sequences _ _ Hs), length_map.
Qed.

Lemma replay_upsert_ok dims seq op d docs v r :
  replayed v r → room dims (d :: docs) v (rd_segment r) → upsert_fits v d → len (id_vector d) = dims →
  let v' := view_mutation v (seq, op, Upsert d) in
  ∃ r', replay_upsert seq op d r = Ok r' ∧ replayed v' r' ∧ room dims docs v' (rd_segment r')
        ∧ limits (rd_segment r') = limits (rd_segment r)
        ∧ rd_tombstones r' = rd_tombstones r ++ [demand_upsert (id_version d)].
Proof using QL.
  intros Hrep Hr Hf Hl v'.
  destruct (replay_row_ok dims seq op d docs v r Hrep Hr Hf Hl) as (s & rows & E & Hs & Hlim & Hroom & Hrows').
  unfold replay_upsert. rewrite E. rsimpl.
  pose proof (set_sequence_total _ s _ seq Hs (upsert_row_lt d v)) as Hseq.
  destruct (set_sequence (upsert_row d v) seq s) as [s'|] eqn:Es'; [|done]. rsimpl.
  destruct (set_sequence_holds _ _ _ _ _ Hs Es') as (Hs' & Hlim' & _).
  eexists. split; [reflexivity|]. cbn [rd_segment rd_rows]. split_and!.
  - split; [exact Hs'|]. intros id. cbn [rd_rows]. unfold v', view_mutation. by rewrite find_row_sequence.
  - eapply room_limits; [exact Hlim'|]. by apply room_sequence.
  - congruence.
  - done.
Qed.

Lemma find_row_kill q v id i : find_row i (view_kill q v id) = find_row i v.
Proof. unfold view_kill. destruct (find_row id v); [|done]. by rewrite find_row_sequence. Qed.

Lemma len_dead_kill q v id : len (v_dead (view_kill q v id)) ≤ len (v_dead v) + 1.
Proof. unfold view_kill. destruct (find_row id v); [apply len_kill|lia]. Qed.

Lemma last_limit s t :
  bf_limit t = bf_limit (sg_tombstones s) → limits (with_tombstones t s) = limits s.
Proof. intros E. unfold limits. cbn. by rewrite E. Qed.

Lemma limit_of_tombstones s s' : limits s' = limits s → bf_limit (sg_tombstones s') = bf_limit (sg_tombstones s).
Proof. unfold limits. intros E. by injection E. Qed.

Lemma replay_delete_id_ok q rows id v s :
  holds v s → (∀ i, rows !! i = find_row i v) →
  len (v_dead v) + 1 ≤ bf_limit (sg_tombstones s) →
  ∃ s', replay_delete_id q rows id s = Ok s' ∧ holds (view_kill q v id) s' ∧ limits s' = limits s.
Proof.
  intros Hh Hrows Hl. unfold replay_delete_id, view_kill. rewrite Hrows.
  destruct (find_row id v) as [row|] eqn:E; [|by exists s].
  destruct (find_row_lookup _ _ _ E) as (x & Hx%lookup_lt_Some & _).
  pose proof (ho_small _ _ Hh) as Hsm. unfold len in Hsm. rewrite try_from_total by lia. cbn [ok_or]. rsimpl.
  rewrite (ho_dead _ _ Hh), (bool_decide_ext _ _ (elem_of_Z_of_nat row (v_dead v))).
  assert (∃ t, (if bool_decide (row ∈ v_dead v) then Ok (sg_tombstones s)
                else buffer_push (Z.of_nat row) (sg_tombstones s)) = Ok t
    ∧ bf_data t = map Z.of_nat (kill (v_dead v) row) ∧ bf_limit t = bf_limit (sg_tombstones s)) as (t & -> & Hd & Hlim).
  { unfold kill. case_bool_decide; [exists (sg_tombstones s); split_and!; try done; apply Hh|].
    pose proof (push_total (Z.of_nat row) (sg_tombstones s)) as Ht. rewrite (ho_dead _ _ Hh), len_map in Ht.
    destruct (buffer_push (Z.of_nat row) (sg_tombstones s)) as [t|] eqn:Ep; [|discriminate (Ht ltac:(lia))].
    destruct (push_inv _ _ _ Ep) as [Hd Hb]. exists t. split_and!; [done| |done].
    by rewrite Hd, (ho_dead _ _ Hh), map_app. }
  rsimpl.
  assert (holds (view_dead (kill (v_dead v) row) v) (with_tombstones t s)) as Hh'.
  { apply holds_dead; [done..|apply NoDup_kill, Hh|apply Forall_kill; [apply Hh|done]]. }
  pose proof (set_sequence_total _ _ row q Hh' Hx) as Ht.
  destruct (set_sequence row q (with_tombstones t s)) as [s'|] eqn:Es; [|done].
  destruct (set_sequence_holds _ _ _ _ _ Hh' Es) as (Hs' & Hl' & _).
  exists s'. split_and!; [done..|]. rewrite Hl'. by apply last_limit.
Qed.

Lemma replay_delete_ids_ok q rows ids : ∀ v s,
  holds v s → (∀ i, rows !! i = find_row i v) →
  len (v_dead v) + len ids ≤ bf_limit (sg_tombstones s) →
  let v' := foldl (view_kill q) v ids in
  ∃ s', replay_delete_ids q rows ids s = Ok s' ∧ holds v' s' ∧ limits s' = limits s
        ∧ len (v_dead v') ≤ len (v_dead v) + len ids ∧ (∀ i, find_row i v' = find_row i v).
Proof.
  induction ids as [|id ids IH]; intros v s Hh Hrows Hl v'; cbn [replay_delete_ids].
  { exists s. split_and!; try done. rewrite (len_nil (A:=Z)). unfold v'. cbn. lia. }
  rewrite len_cons in *. pose proof (len_nonneg ids). unfold v'. cbn [foldl].
  destruct (replay_delete_id_ok q rows id v s Hh Hrows ltac:(lia)) as (s1 & -> & Hh1 & Hl1). rsimpl.
  pose proof (len_dead_kill q v id). pose proof (limit_of_tombstones _ _ Hl1) as Ht.
  destruct (IH (view_kill q v id) s1 Hh1) as (s2 & -> & Hh2 & Hl2 & Hd2 & Hf2).
  { intros i. by rewrite find_row_kill. }
  { lia. }
  exists s2. split_and!; [done|done|congruence|lia|]. intros i. by rewrite Hf2, find_row_kill.
Qed.

Lemma room_kills dims docs q ids : ∀ v s,
  room dims docs v s → len (v_dead (foldl (view_kill q) v ids)) ≤ bf_limit (sg_tombstones s) →
  room dims docs (foldl (view_kill q) v ids) s.
Proof.
  intros v s [] Hd. rewrite view_kills in *. cbn [v_dead] in Hd.
  set (rows := omap _ ids) in *.
  assert (∀ l, len (mark q rows l) = len l ∧ ∀ A (f : Row → A), (∀ x, f (with_seq q x) = f x) → map f (mark q rows l) = map f l)
    as Hm.
  { clear. unfold mark. induction rows as [|r rows IH]; intros l; [done|]. cbn [foldl].
    destruct (IH (alter (with_seq q) r l)) as [H1 H2]. split; [by rewrite H1, len_alter|].
    intros A f Hf. by rewrite H2, map_alter_same. }
  destruct (Hm (v_rows v)) as [H1 H2].
  split; cbn [v_dims v_rows v_text v_columns v_dead]; rewrite ?H1, ?H2 by done; try done.
  by destruct rm_dead.
Qed.

(** ** A run of mutations *)

Fixpoint index_steps (index : nat) (members : list (Z * Z * MutationPayload)) : list (Z * Z * ReplayStep) :=
  match members with
  | [] => []
  | (seq, op, Upsert _) :: members => (seq, op, StepUpsert index) :: index_steps (S index) members
  | (seq, op, Delete ids) :: members => (seq, op, StepDelete ids) :: index_steps index members
  | _ :: members => index_steps index members
  end.

(** What the sealed segments must tombstone. *)
Definition demands (members : list (Z * Z * MutationPayload)) : list SealedTombstoneDemand :=
  concat (map (λ m, match m.2 with
                    | Upsert d => [demand_upsert (id_version d)]
                    | Delete ids => map demand_delete ids
                    | _ => []
                    end) members).

Lemma replay_steps_ok dims documents members : ∀ index v r,
  drop index documents = docs_of members → replayed v r → run_fits v members →
  room dims (docs_of members) v (rd_segment r) →
  Forall (λ d, len (id_vector d) = dims) (docs_of members) →
  len (v_dead v) + len (ids_of members) ≤ bf_limit (sg_tombstones (rd_segment r)) →
  ∃ r', replay_steps documents (index_steps index members) r = Ok r'
        ∧ holds (view_replay members v) (rd_segment r')
        ∧ rd_tombstones r' = rd_tombstones r ++ demands members.
Proof using QL.
  induction members as [|[[q op] m] members IH]; intros index v r Hdocs Hr Hf Hroom Hall Hdead.
  { exists r. split_and!; [done|apply Hr|by rewrite app_nil_r]. }
  destruct Hf as [Hm Hf]. cbn [snd] in Hm. unfold view_replay, demands in *. cbn [foldl map concat snd].
  destruct m as [|d|ids| |]; try done.
  - change (docs_of ((q, op, Upsert d) :: members)) with (d :: docs_of members) in *.
    change (ids_of ((q, op, Upsert d) :: members)) with (ids_of members) in *.
    apply Forall_cons in Hall as [Hd Hall]. cbn [mutation_fits] in Hm.
    assert (documents !! index = Some d) as Hi.
    { rewrite <- (Nat.add_0_r index), <- lookup_drop, Hdocs. done. }
    cbn [index_steps replay_steps replay_step]. rewrite Hi. cbn [ok_or]. rsimpl.
    destruct (replay_upsert_ok _ q op _ _ _ _ Hr Hroom Hm Hd) as (r1 & -> & Hr1 & Hroom1 & Hl1 & Ht1). rsimpl.
    destruct (IH (S index) (view_mutation v (q, op, Upsert d)) r1) as (r2 & -> & Hh2 & Ht2); try done.
    + by rewrite (drop_S _ _ _ Hi) in Hdocs; injection Hdocs.
    + rewrite (limit_of_tombstones _ _ Hl1). etransitivity; [|exact Hdead].
      assert (len (v_dead (view_mutation v (q, op, Upsert d))) ≤ len (v_dead v)); [|lia].
      cbn. unfold view_upsert. destruct (find_row _ v); cbn; [|done].
      unfold len. pose proof (length_filter (λ x, x ≠ n) (v_dead v)). lia.
    + exists r2. split_and!; [done..|]. by rewrite Ht2, Ht1, <- app_assoc.
  - change (docs_of ((q, op, Delete ids) :: members)) with (docs_of members) in *.
    change (ids_of ((q, op, Delete ids) :: members)) with (ids ++ ids_of members) in *.
    rewrite len_app in Hdead. pose proof (len_nonneg (ids_of members)). destruct Hr as [Hh Hrows].
    cbn [index_steps replay_steps replay_step].
    destruct (replay_delete_ids_ok q (rd_rows r) ids v (rd_segment r) Hh Hrows ltac:(lia))
      as (s1 & -> & Hh1 & Hl1 & Hd1 & Hf1). rsimpl.
    edestruct (IH index (foldl (view_kill q) v ids)) as (r2 & -> & Hh2 & Ht2); try done.
    + split; [exact Hh1|]. intros i. cbn [rd_rows]. by rewrite Hf1.
    + eapply room_limits; [exact Hl1|]. apply room_kills; [done|]. lia.
    + cbn [rd_segment]. rewrite (limit_of_tombstones _ _ Hl1). lia.
    + exists r2. split_and!; [done..|]. rewrite Ht2. cbn [rd_tombstones]. by rewrite <- app_assoc.
Qed.

(** ** Decoding *)

(** A member past the watermark that replay accepts. *)
Definition decodes (schema : Schema) (absorbed : Z) (member : Z * Z * MutationPayload) : Prop :=
  absorbed < member.1.1
  ∧ match member.2 with
    | Upsert d => validate_document_columns (B:=B) schema d = Ok tt
    | Delete _ => True
    | _ => False
    end.

Definition extend_decoded (generation : Z) (x : Decoded) (members : list (Z * Z * MutationPayload)) : Decoded :=
  {| dc_generation := generation;
     dc_documents := dc_documents x ++ docs_of members;
     dc_steps := dc_steps x ++ index_steps (length (dc_documents x)) members;
     dc_deleted_ids := dc_deleted_ids x + len (ids_of members) |}.

Lemma extend_decoded_nil x : extend_decoded (dc_generation x) x [] = x.
Proof. destruct x. unfold extend_decoded. cbn. by rewrite !app_nil_r, Z.add_0_r. Qed.

Lemma index_steps_app ms1 ms2 : ∀ i,
  index_steps i (ms1 ++ ms2) = index_steps i ms1 ++ index_steps (i + length (docs_of ms1)) ms2.
Proof.
  induction ms1 as [|[[q op] m] ms1 IH]; intros i; cbn; [by rewrite Nat.add_0_r|].
  destruct m; cbn; rewrite ?IH; try done. do 3 f_equal. unfold docs_of. cbn. lia.
Qed.

Lemma docs_of_app ms1 ms2 : docs_of (ms1 ++ ms2) = docs_of ms1 ++ docs_of ms2.
Proof. apply omap_app. Qed.

Lemma ids_of_app ms1 ms2 : ids_of (ms1 ++ ms2) = ids_of ms1 ++ ids_of ms2.
Proof. unfold ids_of. by rewrite map_app, concat_app. Qed.

Lemma extend_decoded_app g g' x ms1 ms2 :
  extend_decoded g (extend_decoded g' x ms1) ms2 = extend_decoded g x (ms1 ++ ms2).
Proof.
  unfold extend_decoded. cbn [dc_documents dc_steps dc_deleted_ids].
  rewrite docs_of_app, ids_of_app, index_steps_app, length_app, len_app, <- !app_assoc. f_equal. lia.
Qed.

Lemma decode_members_ok schema absorbed members : ∀ x,
  Forall (decodes schema absorbed) members → dc_deleted_ids x + len (ids_of members) ≤ usize_max →
  decode_members schema absorbed members x = Ok (extend_decoded (dc_generation x) x members).
Proof.
  induction members as [|m members IH]; intros x Hall Hlen; [by rewrite extend_decoded_nil|].
  apply Forall_cons in Hall as [[Hs Hm] Hall]. cbn [decode_members].
  change (m :: members) with ([m] ++ members) in Hlen |- *. rewrite ids_of_app, len_app in Hlen.
  pose proof (len_nonneg (ids_of members)).
  assert (decode_member schema absorbed m x = Ok (extend_decoded (dc_generation x) x [m])) as ->.
  { destruct m as [[q op] m]. cbn [fst snd] in Hs, Hm. unfold decode_member.
    rewrite (proj2 (Z.leb_gt _ _)) by done. destruct m as [|doc|ids| |]; try done.
    - rewrite Hm. unfold extend_decoded. cbn. by rewrite Z.add_0_r.
    - rewrite checked_add_total.
      + unfold extend_decoded, ids_of. cbn. by rewrite !app_nil_r.
      + change (ids_of [(q, op, Delete ids)]) with (ids ++ []) in Hlen. rewrite app_nil_r in Hlen. lia. }
  rsimpl. rewrite IH; [|done|unfold extend_decoded; cbn [dc_deleted_ids]; lia].
  f_equal. apply extend_decoded_app.
Qed.

Lemma decode_batches_ok schema absorbed graph batches : ∀ x,
  Forall (λ b, Z.max absorbed graph < cb_last_seq b) batches →
  let members := concat (map cb_members batches) in
  Forall (decodes schema absorbed) members → dc_deleted_ids x + len (ids_of members) ≤ usize_max →
  dc_generation x + len batches ≤ u64_max →
  decode_batches schema absorbed graph batches x
  = Ok (extend_decoded (dc_generation x + len batches) x members).
Proof.
  induction batches as [|b batches IH]; intros x Hlast members Hall Hlen Hgen; cbn [decode_batches].
  { unfold members. cbn. change (len []) with 0. by rewrite Z.add_0_r, extend_decoded_nil. }
  apply Forall_cons in Hlast as [Hb Hlast]. rewrite len_cons in *. pose proof (len_nonneg batches).
  unfold members in *. cbn [map concat] in *. apply Forall_app in Hall as [Hall1 Hall2].
  rewrite ids_of_app, len_app in Hlen. pose proof (len_nonneg (ids_of (concat (map cb_members batches)))).
  rewrite (proj2 (Z.ltb_lt _ _)) by done. rewrite checked_add_total by lia. cbn [ok_or]. rsimpl.
  rewrite decode_members_ok; [|done|cbn [dc_deleted_ids]; lia]. rsimpl.
  set (x1 := extend_decoded _ _ _).
  rewrite IH; [|done|done|unfold x1, extend_decoded; cbn [dc_deleted_ids]; lia|cbn; lia].
  f_equal. unfold x1 at 1. cbn [extend_decoded dc_generation].
  replace (dc_generation x + 1 + len batches) with (dc_generation x + (1 + len batches)) by lia.
  etransitivity; [apply extend_decoded_app|done].
Qed.

(** ** The whole replay *)

Lemma dims_step v m : mutation_fits v m.2 →
  v_dims (view_mutation v m) = match m.2 with Upsert d => Some (len (id_vector d)) | _ => v_dims v end.
Proof.
  destruct m as [[q op] m]. cbn [snd view_mutation]. destruct m as [|d|ids| |]; try done.
  - intros (_ & _ & _ & _ & Hm). cbn. unfold view_upsert. destruct (find_row _ v) eqn:E; cbn; [|done].
    by destruct Hm as [Hm _].
  - intros _. by rewrite view_kills.
Qed.

Lemma docs_of_cons m ms :
  docs_of (m :: ms) = match m.2 with Upsert d => d :: docs_of ms | _ => docs_of ms end.
Proof. unfold docs_of. cbn. by destruct (m.2). Qed.

(** All documents of an accepted run have one dimension. *)
Lemma run_dims members : ∀ v dims,
  run_fits v members → v_dims v = Some dims → Forall (λ d, len (id_vector d) = dims) (docs_of members).
Proof.
  induction members as [|m members IH]; intros v dims Hf Hd; [constructor|]. destruct Hf as [Hm Hf].
  pose proof (dims_step _ _ Hm) as Hs. rewrite docs_of_cons. destruct (m.2) as [|d| | |]; try done.
  - assert (len (id_vector d) = dims) as <- by (destruct Hm as (_ & [E|E] & _); congruence).
    constructor; [done|]. by eapply IH.
  - eapply IH; [done|]. congruence.
Qed.

Lemma run_first_dims members : ∀ v d docs,
  run_fits v members → v_dims v = None → docs_of members = d :: docs →
  Forall (λ x, len (id_vector x) = len (id_vector d)) (docs_of members).
Proof.
  induction members as [|m members IH]; intros v d docs Hf Hd E; [done|]. destruct Hf as [Hm Hf].
  pose proof (dims_step _ _ Hm) as Hs. rewrite docs_of_cons in *. destruct (m.2) as [|x| | |]; try done.
  - injection E as -> _. constructor; [done|]. by eapply run_dims.
  - eapply IH; [exact Hf|congruence|done].
Qed.

Lemma room_empty dims : room dims [] view_empty (active_empty (F:=F)).
Proof.
  split; cbn; try done; [by left|].
  repeat (apply Forall_cons; split; [done|]). apply Forall_nil_2.
Qed.

Lemma indexed_docs members : ∀ i, index_steps i members = [] → docs_of members = [].
Proof.
  induction members as [|[[q op] m] members IH]; intros i E; [done|]. rewrite docs_of_cons.
  destruct m; try done; by apply (IH i).
Qed.

(** The segment sized for the tail. *)
Lemma replay_segment_ok members x :
  run_fits view_empty members → dc_documents x = docs_of members →
  dc_steps x = index_steps 0 members → dc_deleted_ids x = len (ids_of members) →
  (∀ d docs, docs_of members = d :: docs → fits (len (id_vector d)) (docs_of members) view_empty) →
  len (ids_of members) ≤ usize_max →
  ∃ dims s, replay_segment x = Ok s ∧ holds view_empty s ∧ room dims (docs_of members) view_empty s
    ∧ Forall (λ d, len (id_vector d) = dims) (docs_of members)
    ∧ bf_limit (sg_tombstones s) = len (ids_of members).
Proof using QL KL.
  intros Hrun Hd Hs Hdel Hfit Hids. unfold replay_segment. rewrite Hd, Hs, Hdel.
  assert (∃ dims s, match docs_of members, index_steps 0 members with
    | first :: _, (seq, op, _) :: _ =>
        map_err (recovery_apply_error seq op) (copy_for_batch active_empty first (docs_of members))
    | _, _ => Ok active_empty
    end = Ok s ∧ holds view_empty s ∧ room dims (docs_of members) view_empty s
    ∧ Forall (λ d, len (id_vector d) = dims) (docs_of members)) as (dims & s & -> & Hh & Hr & Hall).
  { destruct (docs_of members) as [|d docs] eqn:E.
    { exists 0, active_empty. split_and!; [done|apply holds_empty|apply room_empty|constructor]. }
    destruct (index_steps 0 members) as [|[[q op] st] steps] eqn:Ei.
    { by rewrite (indexed_docs _ _ Ei) in E. }
    specialize (Hfit d docs eq_refl).
    pose proof (copy_for_batch_total _ _ _ _ holds_empty Hfit ltac:(done)) as Ht.
    destruct (copy_for_batch active_empty d (d :: docs)) as [s|] eqn:Ec; [|done].
    destruct (copy_for_batch_inv _ _ _ _ _ holds_empty Ec ltac:(done)) as (Hh & Hr & _).
    exists (len (id_vector d)), s. split_and!; [done..|]. rewrite <- E. by eapply run_first_dims. }
  rsimpl. rewrite (ho_dead _ _ Hh). cbn [view_empty v_dead map].
  pose proof (copy_total (@nil Z) (len (ids_of members)) (len_nonneg _) Hids) as Ht.
  destruct (copy_accounted [] (len (ids_of members))) as [t|] eqn:Et; [|done]. rsimpl.
  apply copy_inv in Et as [Dt Lt]. exists dims, (with_tombstones t s). split_and!; try done.
  - change view_empty with (view_dead [] view_empty). apply holds_dead; [done|done|apply NoDup_nil_2|constructor].
  - destruct Hr. split; cbn; try done. rewrite Lt. split; [apply len_nonneg|done].
Qed.

(** The tail of a log: its batches, each past the watermarks, accepted in turn. *)
Record tail_ok (schema : Schema) (generation absorbed graph : Z) (batches : list CommittedBatch) : Prop := {
  tl_last : Forall (λ b, Z.max absorbed graph < cb_last_seq b) batches;
  tl_decodes : Forall (decodes schema absorbed) (concat (map cb_members batches));
  tl_generation : generation + len batches ≤ u64_max;
  tl_run : run_fits view_empty (concat (map cb_members batches));
  tl_fits : ∀ d docs, docs_of (concat (map cb_members batches)) = d :: docs →
              fits (len (id_vector d)) (d :: docs) view_empty;
  tl_ids : len (ids_of (concat (map cb_members batches))) ≤ usize_max;
}.

Lemma replay_batches schema generation absorbed graph decisions clean batches :
  committed_batches (decision_of decisions) (cl_records clean) (Z.min absorbed graph) = Ok batches →
  tail_ok schema generation absorbed graph batches →
  let members := concat (map cb_members batches) in
  ∃ recovered, replay_active (B:=B) generation absorbed graph clean schema decisions = Ok recovered
    ∧ as_generation (rc_active recovered) = generation + len batches
    ∧ holds (view_replay members view_empty) (as_segment (rc_active (F:=F) recovered))
    ∧ rc_tombstones recovered = demands members.
Proof using QL KL.
  intros Hb [] members. unfold replay_active. rewrite Hb. rsimpl. fold members in tl_decodes0, tl_run0, tl_fits0, tl_ids0.
  rewrite decode_batches_ok; [|done|done|fold members; cbn [decode_start dc_deleted_ids]; lia|done].
  fold members. rsimpl.
  set (x := extend_decoded _ _ members).
  destruct (replay_segment_ok members x tl_run0 eq_refl eq_refl eq_refl) as (dims & s & -> & Hh & Hr & Hall & Hlim).
  { intros d docs E. rewrite E. by eapply tl_fits0. }
  { done. }
  rsimpl.
  destruct (replay_steps_ok dims (dc_documents x) members 0 view_empty
    {| rd_segment := s; rd_rows := ∅; rd_tombstones := [] |}) as (r & Er & Hh' & Ht); try done.
  { cbn [rd_segment]. rewrite Hlim. change (len (v_dead view_empty)) with 0. lia. }
  change (dc_steps x) with (index_steps 0 members). rewrite Er. rsimpl.
  eexists. split; [reflexivity|]. done.
Qed.

(** ** A reservation is enough for its batch *)

(** Every document of a batch written to the copy, to its own row or a new one. *)
Fixpoint write_documents (docs : list IngestDocument) s : result IngestError (ActiveSegment F) :=
  match docs with
  | [] => Ok s
  | d :: docs =>
      s ← match rows_get (dv_doc_id (id_version d)) (sg_row_index s) with
          | Some row => replace_row_in_place row s d
          | None => '(s, _) ← insert_row_in_place s d; Ok s
          end;
      write_documents docs s
  end.

Lemma write_documents_ok dims docs : ∀ v s,
  holds v s → room dims docs v s → Forall (vector_ok dims) docs → Forall doc_columns_ok docs →
  len (v_rows v) + len docs ≤ u32_max →
  ∃ s', write_documents docs s = Ok s' ∧ holds (applied docs v) s' ∧ limits s' = limits s.
Proof using QL.
  induction docs as [|d docs IH]; intros v s Hh Hr Hv Hc Hu; [by exists s|].
  apply Forall_cons in Hv as [Hd Hv]. apply Forall_cons in Hc as [Hdc Hc]. rewrite len_cons in Hu.
  pose proof (len_nonneg docs). cbn [write_documents]. rewrite (holds_find _ _ _ Hh).
  unfold applied. cbn [foldl].
  assert (∃ s1, match find_row (dv_doc_id (id_version d)) v with
    | Some row => replace_row_in_place row s d
    | None => '(s, _) ← insert_row_in_place s d; Ok s
    end = Ok s1 ∧ holds (view_upsert d v) s1 ∧ limits s1 = limits s ∧ room dims docs (view_upsert d v) s1
    ∧ len (v_rows (view_upsert d v)) ≤ len (v_rows v) + 1) as (s1 & -> & Hh1 & Hl1 & Hr1 & Hlen1).
  { unfold view_upsert. destruct (find_row _ v) as [row|] eqn:E.
    - destruct (find_row_lookup _ _ _ E) as (x & Hx & Hid).
      pose proof (overwrite_row_total _ _ _ _ _ _ _ Hh Hr Hd Hx Hid) as Ht.
      destruct (replace_row_in_place row s d) as [s1|] eqn:Es; [|done].
      destruct (replace_row_holds _ _ _ _ _ _ Hh Hdc Hx Hid Es) as [Hh1 Hl1].
      exists s1. split_and!; try done.
      + eapply room_limits; [exact Hl1|]. eapply room_replace; [exact Hr| |exact Hx].
        pose proof (vector_ok_pos _ _ Hd). lia.
      + cbn. unfold len. rewrite length_insert. lia.
    - pose proof (insert_row_total _ _ _ _ _ Hh Hr Hd ltac:(lia)) as Ht.
      destruct (insert_row_in_place s d) as [[s1 row]|] eqn:Es; [|done]. rsimpl.
      destruct (insert_row_inv _ _ _ _ _ Hh Hdc (proj1 (find_row_None _ _) E) Es) as (-> & Hh1 & Hl1).
      exists s1. split_and!; try done.
      + eapply room_limits; [exact Hl1|]. apply room_insert; [done|apply Hd].
      + cbn. rewrite len_app. done. }
  rsimpl. destruct (IH (view_upsert d v) s1 Hh1 Hr1 Hv Hc ltac:(lia)) as (s' & -> & Hh' & Hl').
  exists s'. split_and!; [done..|congruence].
Qed.

(** C8: The room reserved for a batch is enough. For any segment, the copy made for
    a batch takes every document of the batch in turn (written over the row of its
    id, or appended), provided the quantizer accepts the vectors, they have the
    dimension of the first one and row numbers stay below 2^32: no buffer reaches
    its reserved capacity and no offset overflows, no buffer's capacity changes, and
    the result holds the old rows with the batch applied. *)
Theorem reservation_suffices v s (first : IngestDocument) (docs : list IngestDocument) s' :
  holds v s → copy_for_batch s first docs = Ok s' →
  Forall (vector_ok (len (id_vector first))) docs → Forall doc_columns_ok docs →
  len (v_rows v) + len docs ≤ u32_max →
  ∃ s'', write_documents docs s' = Ok s'' ∧ holds (applied docs v) s'' ∧ limits s'' = limits s'.
Proof using QL KL.
  intros Hh Hc Hv Hd Hu.
  destruct (copy_for_batch_inv _ _ _ _ _ Hh Hc) as (Hh' & Hr & _).
  { rewrite (ho_dead _ _ Hh), len_map. by eapply holds_dead_small. }
  by eapply write_documents_ok.
Qed.
End ReplaySpec.

(** ** Witnesses *)

Module SampleSegment.
(** A quantizer that stores no information and a map with exact capacity. *)
Definition quantizer : Quantizer unit := λ v, (replicate (Z.to_nat (div_ceil2 (len v))) Byte.x00, tt).
Definition capacity : HashCapacity := λ n, n.
#[local] Existing Instances quantizer capacity.

Lemma quantizer_laws : QuantizerLaws unit.
Proof.
  split. intros v. unfold bit4_code, quantizer. cbn [fst]. unfold len at 1. rewrite length_replicate.
  apply Z2Nat.id. unfold div_ceil2. pose proof (len_nonneg v). apply Z.div_pos; lia.
Qed.

Lemma capacity_laws : HashCapacityLaws.
Proof. by split. Qed.

(** A document with two vector components and one byte of metadata. *)
Definition document (id : Z) (text : option bytes) : IngestDocument :=
  {| id_version := {| dv_doc_id := id; dv_revision := 1 |}; id_expected_revision := None;
     id_vector := [0x3f800000; 0]; id_timestamp := 0; id_timestamp_present := false;
     id_metadata := [Byte.x07]; id_metadata_present := true; id_text := text;
     id_columns := []; id_columns_present := false |}.
End SampleSegment.

(** Three documents in an empty segment: the third is written over the first. *)
Lemma reservation_suffices_witness :
  let docs := [SampleSegment.document 4 (Some [Byte.x68; Byte.x69]); SampleSegment.document 5 None;
               SampleSegment.document 4 None] in
  match copy_for_batch (F:=unit) (K:=SampleSegment.capacity) active_empty (SampleSegment.document 4 None) docs with
  | Ok s' => ∃ s'',
      write_documents (Q:=SampleSegment.quantizer) docs s' = Ok s''
      ∧ holds (Q:=SampleSegment.quantizer) (applied docs view_empty) s''
      ∧ limits s'' = limits s'
  | Err _ => False
  end.
Proof.
  intros docs. destruct (copy_for_batch _ _ docs) as [s'|] eqn:E; [|by vm_compute in E].
  apply (reservation_suffices (QL:=SampleSegment.quantizer_laws) (KL:=SampleSegment.capacity_laws)
    view_empty active_empty (SampleSegment.document 4 None)).
  - exact holds_empty.
  - exact E.
  - repeat (apply Forall_cons; split; [by split|]). constructor.
  - repeat (apply Forall_cons; split; [done|]). constructor.
  - by vm_compute.
Defined.
