(* ===== verification/ActiveIngestSpec.v ===== *)
(** * A write is what its log records say

    An accepted ingest or delete appends the records of one attempt and
    publishes exactly the state that replaying those records from the previous
    one gives: [ingest_logged] and [delete_logged]. *)

From S2P Require Import Prelude Format Cursor WalRecord WalReplay Durability Vfs Schema Epoch Float Columns Predicate IngestPayload IngestCodec StoreErrors Accounted Bitmap ActiveSegment ActiveSpec ActiveRoom ActiveSteps AtomicBatch AtomicBatchSpec CrashRecovery ActiveIngest ActiveRecovery ActiveReplaySpec.

Section IngestSpec.
Context {F : Type} {Q : Quantizer F} {K : HashCapacity} {N : SquaredNorm} {B : Type} {R : Roaring B}.
Context {QL : QuantizerLaws F} {KL : HashCapacityLaws}.
Implicit Types (s : ActiveSegment F) (v : View) (d : IngestDocument).

(** ** Resolving a document *)

Lemma existing_find v s id :
  holds v s →
  existing s id = row ← find_row id v; r ← v_rows v !! row;
                  Some (row, {| dv_doc_id := r_id r; dv_revision := r_revision r |}, r_seq r).
Proof.
  intros Hh. unfold existing. rewrite (holds_find _ _ _ Hh). destruct (find_row id v) as [row|]; [|done].
  cbn. unfold active_document. rewrite (ho_ids _ _ Hh), (ho_revisions _ _ Hh), (ho_sequences _ _ Hh), !map_lookup.
  by destruct (v_rows v !! row).
Qed.

Lemma existing_None v s id : holds v s → existing s id = None → find_row id v = None.
Proof.
  intros Hh. rewrite (existing_find _ _ _ Hh). destruct (find_row id v) as [row|] eqn:E; [|done].
  destruct (find_row_lookup _ _ _ E) as (r & Hr & _). cbn. by rewrite Hr.
Qed.

(** The resolved revision is at least the active one, and remembers its row. *)
Lemma resolve_inv s sealed id q :
  match resolve_revision s sealed id q with
  | None => existing s id = None
  | Some rv => rv_active_row rv = (λ e, e.1.1) <$> existing s id
               ∧ ∀ row version seq, existing s id = Some (row, version, seq) →
                   dv_revision version ≤ dv_revision (rv_version rv)
  end.
Proof.
  unfold resolve_revision. set (matches := filter _ sealed). clearbody matches.
  match goal with |- context [foldl _ ?st matches] => set (start := st) end.
  assert (match start with
    | None => existing s id = None
    | Some rv => rv_active_row rv = (λ e, e.1.1) <$> existing s id
               ∧ ∀ row version seq, existing s id = Some (row, version, seq) →
                   dv_revision version ≤ dv_revision (rv_version rv)
    end) as Hs.
  { unfold start. destruct (existing s id) as [[[row version] sq]|] eqn:E; cbn; [|done].
    split; [done|]. by intros ? ? ? [= <- <- <-]. }
  clearbody start. revert start Hs. induction matches as [|m matches IH]; intros start Hs; [done|].
  cbn [foldl]. apply IH. destruct start as [rv|].
  - destruct (Z.ltb_spec (dv_revision (rv_version rv)) (dv_revision (sm_version m))); [|done].
    cbn. split; [done|]. intros row version sq E. destruct Hs as [_ Hs]. specialize (Hs _ _ _ E). lia.
  - cbn. rewrite Hs. split; [done|]. done.
Qed.

(** ** One document *)

Lemma dims_checked s d row stride :
  appended_row_capacities s d = Ok (row, stride) → sg_dims s = None ∨ sg_dims s = Some (len (id_vector d)).
Proof.
  unfold appended_row_capacities. intros E. apply bind_Ok_inv in E as (u & Hu & _).
  destruct (sg_dims s) as [n|]; [|by left]. right.
  destruct (Z.eqb_spec n (len (id_vector d))) as [E|]; [by rewrite E|discriminate].
Qed.

Lemma insert_in_place_inv v s d s' row :
  holds v s → doc_columns_ok d → columns_encode (id_columns d) → insert_in_place s d = Ok (s', row) →
  row = upsert_row d v ∧ holds (view_upsert d v) s' ∧ upsert_fits v d.
Proof using QL.
  intros Hh Hd Hc Hi. unfold insert_in_place in Hi. apply bind_Ok_inv in Hi as (u & Hu & Hi).
  unfold refuse_existing in Hu. destruct (existing s _) eqn:E; [done|].
  apply (existing_None _ _ _ Hh) in E.
  destruct (insert_row_inv _ _ _ _ _ Hh Hd (proj1 (find_row_None _ _) E) Hi) as (-> & Hs & _).
  apply insert_row_shape in Hi as (stride & Hi). pose proof (in_row _ _ _ _ _ Hi) as Hrow.
  destruct (appended_row_Ok _ _ _ _ _ Hh Hrow) as (_ & _ & Hu32 & _ & _).
  pose proof (dims_checked _ _ _ _ Hrow) as Hdims. rewrite (ho_dims _ _ Hh) in Hdims.
  unfold upsert_row, view_upsert, upsert_fits. rewrite E. split_and!; try done.
  split; [done|]. apply Hi.
Qed.

Lemma replace_in_place_inv v s d s' row r :
  holds v s → doc_columns_ok d → columns_encode (id_columns d) →
  find_row (dv_doc_id (id_version d)) v = Some row → v_rows v !! row = Some r →
  r_revision r < dv_revision (id_version d) → replace_in_place row s d = Ok s' →
  holds (view_upsert d v) s' ∧ upsert_fits v d.
Proof using QL.
  intros Hh Hd Hc Hf Hr Hrev Hi.
  assert (replace_row_in_place row s d = Ok s') as Hi'.
  { unfold replace_in_place in Hi. destruct (_ && _); [done|]. apply bind_Ok_inv in Hi as (u & _ & Hi).
    apply bind_Ok_inv in Hi as (s1 & Hs1 & Hi). apply bind_Ok_inv in Hi as (u' & _ & Hi).
    by injection Hi as <-. }
  destruct (find_row_lookup _ _ _ Hf) as (r' & Hr' & Hid). assert (r' = r) as -> by congruence.
  destruct (replace_row_holds _ _ _ _ _ _ Hh Hd Hr Hid Hi') as [Hs _].
  assert (bf_data (sg_doc_ids s) !! row = Some (dv_doc_id (id_version d))) as Hids.
  { rewrite (ho_ids _ _ Hh), map_lookup, Hr. cbn. by rewrite Hid. }
  pose proof (replace_row_shape _ _ _ _ Hids Hi') as Hre.
  pose proof (re_length _ _ _ _ Hre) as Hdims. rewrite (ho_dims _ _ Hh) in Hdims.
  unfold view_upsert, upsert_fits. rewrite Hf. split; [done|]. split_and!; try done; [|by right|].
  - split; [done|]. apply Hre.
  - intros x Hx. assert (x = r) as -> by congruence. done.
Qed.

(** ** The batch *)

(** [acc] are the documents accepted so far. *)
Record progressed v (acc : list IngestDocument) (progress : RevisionProgress (F:=F)) : Prop := {
  pg_working : match rp_working progress with
               | None => acc = []
               | Some working => holds (applied acc v) working ∧ acc ≠ []
               end;
  pg_fit : docs_fit v acc;
  pg_rows : map (λ r, r.1.1) (rp_records progress) = map Z.of_nat (upsert_rows acc v);
  pg_payloads : Forall2 (λ d r, encode_persisted_upsert d = Ok (r.1.2, r.2)) acc (rp_records progress);
}.

(** The bytes columns are encoded as do not depend on what is before them. *)
Lemma append_typed_columns_app l : ∀ o r,
  append_typed_columns l o = Ok r → ∃ enc, r = o ++ enc ∧ ∀ o', append_typed_columns l o' = Ok (o' ++ enc).
Proof.
  induction l as [|[c x] l IH]; intros o r E; cbn [append_typed_columns] in *.
  { injection E as <-. exists []. rewrite app_nil_r. split; [done|]. intros o'. by rewrite app_nil_r. }
  apply bind_Ok_inv in E as ([k b] & Hb & E). apply bind_Ok_inv in E as (o1 & Ho & E).
  unfold append_length_prefixed in *. apply bind_Ok_inv in Ho as (m & Hm & Ho). injection Ho as <-.
  destruct (IH _ _ E) as (enc & -> & Henc).
  exists (((u32_le c ++ [k] ++ replicate 3 Byte.x00) ++ u32_le m ++ b) ++ enc). split; [by rewrite <- !app_assoc|].
  intros o'. rewrite Hb. rsimpl. rewrite Hm. rsimpl. rewrite Henc. by rewrite <- !app_assoc.
Qed.

Lemma encode_typed_columns_app l o r :
  encode_typed_columns l o = Ok r → columns_encode l ∧ r = o ++ column_image l.
Proof.
  unfold columns_encode, column_image, encode_column_values, encode_typed_columns. intros E.
  apply bind_Ok_inv in E as (n & Hn & E). destruct (append_typed_columns_app _ _ _ E) as (enc & -> & Henc).
  rewrite Hn. rsimpl. rewrite Henc. split; [done|]. by rewrite <- app_assoc.
Qed.

Lemma upsert_columns_encode d r : doc_columns_ok d → encode_persisted_upsert d = Ok r → columns_encode (id_columns d).
Proof.
  intros Hd E. unfold encode_persisted_upsert in E. apply bind_Ok_inv in E as (p & E & _).
  unfold encode_upsert_v2 in E. apply bind_Ok_inv in E as (? & _ & E). apply bind_Ok_inv in E as (? & _ & E).
  apply bind_Ok_inv in E as (? & _ & E). apply bind_Ok_inv in E as (p1 & _ & E).
  destruct (id_columns_present d) eqn:Ep; [|rewrite (Hd Ep); reflexivity].
  by apply encode_typed_columns_app in E as [? _].
Qed.

Lemma push_record_inv row d records records' :
  push_record row d records = Ok records' →
  ∃ op payload, encode_persisted_upsert d = Ok (op, payload)
                ∧ records' = records ++ [(Z.of_nat row, op, payload)].
Proof.
  unfold push_record. intros E. apply bind_Ok_inv in E as ([op payload] & He%map_err_Ok & E).
  injection E as <-. by exists op, payload.
Qed.

(** A document that was written extends the accepted documents. *)
Lemma progressed_snoc v acc d progress working op payload q dead :
  progressed v acc progress → holds (view_upsert d (applied acc v)) working →
  upsert_fits (applied acc v) d → encode_persisted_upsert d = Ok (op, payload) →
  progressed v (acc ++ [d])
    {| rp_working := Some working;
       rp_records := rp_records progress ++ [(Z.of_nat (upsert_row d (applied acc v)), op, payload)];
       rp_replay_seq := q; rp_sealed_tombstones := dead |}.
Proof.
  intros [_ Hf Hr Hp] Hw Hfit He. split; cbn.
  - unfold applied. rewrite foldl_app. cbn. split; [exact Hw|]. by destruct acc.
  - by apply docs_fit_snoc.
  - by rewrite upsert_rows_snoc, !map_app, Hr.
  - apply Forall2_app; [done|]. by constructor.
Qed.

Lemma working_segment_inv v current acc d remaining progress working :
  holds v current → progressed v acc progress →
  working_segment current d remaining progress = Ok working → holds (applied acc v) working.
Proof using KL.
  intros Hh [Hw _ _ _] E. unfold working_segment in E. destruct (rp_working progress) as [w|].
  - injection E as <-. apply Hw.
  - subst acc. eapply copy_for_batch_inv; [exact Hh|exact E|]. rewrite (ho_dead _ _ Hh), len_map.
    by eapply holds_dead_small.
Qed.

Lemma segment_holds v current acc progress :
  holds v current → progressed v acc progress →
  holds (applied acc v) (default current (rp_working progress)).
Proof.
  intros Hh [Hw _ _ _]. destruct (rp_working progress); [apply Hw|]. by subst acc.
Qed.

Lemma replay_progressed v acc progress q :
  progressed v acc progress →
  progressed v acc {| rp_working := rp_working progress; rp_records := rp_records progress;
                      rp_replay_seq := q; rp_sealed_tombstones := rp_sealed_tombstones progress |}.
Proof. by intros []. Qed.

(** The insert branch, shared by the two decisions that reach it. *)
Lemma insert_progressed v current acc d remaining progress working working' row records q dead :
  holds v current → doc_columns_ok d → progressed v acc progress →
  working_segment current d remaining progress = Ok working →
  insert_in_place working d = Ok (working', row) → push_record row d (rp_records progress) = Ok records →
  progressed v (acc ++ [d]) {| rp_working := Some working'; rp_records := records;
                               rp_replay_seq := q; rp_sealed_tombstones := dead |}.
Proof using QL KL.
  intros Hh Hd Hp Hw Hi Hr. pose proof (working_segment_inv _ _ _ _ _ _ _ Hh Hp Hw) as Hhw.
  destruct (push_record_inv _ _ _ _ Hr) as (op & payload & He & ->).
  destruct (insert_in_place_inv _ _ _ _ _ Hhw Hd (upsert_columns_encode _ _ Hd He) Hi) as (-> & Hs & Hf).
  by apply progressed_snoc.
Qed.

Lemma apply_decision_inv v current sealed q d remaining acc progress progress' :
  holds v current → doc_columns_ok d → progressed v acc progress →
  apply_revision_decision current sealed q d remaining progress = Ok progress' →
  ∃ acc', progressed v acc' progress' ∧ (acc' = acc ∨ acc' = acc ++ [d]).
Proof using QL KL.
  intros Hh Hd Hp E. unfold apply_revision_decision in E. cbn zeta in E.
  pose proof (segment_holds _ _ _ _ Hh Hp) as Hseg. set (segment := default current _) in *.
  pose proof (resolve_inv segment sealed (dv_doc_id (id_version d)) q) as Hres.
  destruct (resolve_revision _ _ _ _) as [rv|]; cbn [fmap option_fmap option_map mbind option_bind] in E.
  - destruct Hres as [Hrow Hrev]. unfold classify_revision in E.
    destruct (Z.compare_spec (dv_revision (id_version d)) (dv_revision (rv_version rv))) as [Heq|Hlt|Hgt]; [|done|].
    { injection E as <-. exists acc. split; [by apply replay_progressed|by left]. }
    apply bind_Ok_inv in E as (working & Hw & E).
    apply bind_Ok_inv in E as ([working' row] & Hset & E).
    apply bind_Ok_inv in E as (records & Hrec & E). injection E as <-.
    exists (acc ++ [d]). split; [|by right]. rewrite Hrow, (existing_find _ _ _ Hseg) in Hset.
    destruct (find_row _ (applied acc v)) as [row0|] eqn:Ef.
    + destruct (find_row_lookup _ _ _ Ef) as (r & Hr & Hid).
      cbn [mbind option_bind] in Hset. rewrite Hr in Hset.
      cbn [mbind option_bind fmap option_fmap option_map fst] in Hset.
      apply bind_Ok_inv in Hset as (w' & Hset & Hw'). injection Hw' as <- <-.
      destruct (push_record_inv _ _ _ _ Hrec) as (op & payload & He & ->).
      pose proof (working_segment_inv _ _ _ _ _ _ _ Hh Hp Hw) as Hhw.
      assert (r_revision r < dv_revision (id_version d)) as Hlt.
      { eapply Z.le_lt_trans; [|exact Hgt].
        apply (Hrev row0 {| dv_doc_id := r_id r; dv_revision := r_revision r |} (r_seq r)).
        rewrite (existing_find _ _ _ Hseg), Ef. cbn. by rewrite Hr. }
      destruct (replace_in_place_inv _ _ _ _ _ _ Hhw Hd (upsert_columns_encode _ _ Hd He) Ef Hr Hlt Hset) as [Hs Hf].
      replace row0 with (upsert_row d (applied acc v)) by (unfold upsert_row; by rewrite Ef).
      by apply progressed_snoc.
    + cbn [mbind option_bind fmap option_fmap option_map] in Hset. by eapply insert_progressed.
  - apply bind_Ok_inv in E as (working & Hw & E). apply bind_Ok_inv in E as ([working' row] & Hi & E).
    apply bind_Ok_inv in E as (records & Hrec & E). injection E as <-.
    exists (acc ++ [d]). split; [|by right]. by eapply insert_progressed.
Qed.

Lemma apply_documents_inv v current sealed q docs : ∀ acc progress progress' (P : IngestDocument → Prop),
  holds v current → Forall doc_columns_ok docs → progressed v acc progress →
  Forall P acc → Forall P docs →
  apply_documents current sealed q docs progress = Ok progress' →
  ∃ acc', progressed v acc' progress' ∧ Forall P acc'.
Proof using QL KL.
  induction docs as [|d docs IH]; intros acc progress progress' P Hh Hd Hp Ha Hdocs E; cbn [apply_documents] in E.
  { injection E as <-. by exists acc. }
  apply Forall_cons in Hd as [Hd Hds]. apply Forall_cons in Hdocs as [HP Hdocs].
  apply bind_Ok_inv in E as (p1 & H1 & E).
  destruct (apply_decision_inv _ _ _ _ _ _ _ _ _ Hh Hd Hp H1) as (acc1 & Hp1 & Hacc1).
  eapply (IH acc1 p1 progress' P); try done. destruct Hacc1 as [->| ->]; [done|].
  apply Forall_app; split; [done|]. by apply Forall_singleton.
Qed.

(** ** Logging and publishing *)

Lemma set_sequences_holds records : ∀ first v s s',
  holds v s → set_sequences records first s = Ok s' →
  holds (sequences (zip (map (λ r, Z.to_nat r.1.1) records)
                        (map (λ i, first + Z.of_nat i) (seq 0 (length records)))) v) s'.
Proof.
  induction records as [|[[row op] p] records IH]; intros first v s s' Hh E; cbn [set_sequences] in E.
  { by injection E as <-. }
  apply bind_Ok_inv in E as (s1 & H1%lift_store_Ok & E).
  destruct (set_sequence_holds _ _ _ _ _ Hh H1) as (Hh1 & _ & _).
  specialize (IH (first + 1) _ _ _ Hh1 E). unfold sequences in *.
  cbn [map length seq zip_with foldl fst snd]. rewrite Z.add_0_r.
  replace (map (λ i, first + Z.of_nat i) (seq 1 (length records)))
    with (map (λ i, first + 1 + Z.of_nat i) (seq 0 (length records))); [exact IH|].
  rewrite <- seq_shift, map_map. apply map_ext. intros i. lia.
Qed.

(** Framing keeps the rows. *)
Lemma frame_batch_rows records framed :
  frame_batch records = Ok framed → map (λ r, r.1.1) framed = map (λ r, r.1.1) records.
Proof.
  intros E. destruct (Z.ltb_spec (len records) 2) as [Hlt|Hge].
  { unfold frame_batch in E. rewrite (proj2 (Z.ltb_lt _ _)) in E by done. by injection E as <-. }
  destruct (frame_batch_Ok _ _ E Hge) as (Hl & _ & Hm). apply list_eq. intros i. rewrite !map_lookup.
  destruct (framed !! i) as [[[row op] p]|] eqn:Ef.
  - destruct (Hm _ _ _ _ Ef) as (_ & u & -> & _). done.
  - apply lookup_ge_None in Ef. unfold len in Hl.
    by rewrite (proj2 (lookup_ge_None records i)) by lia.
Qed.

(** *** Volumes *)

(** What a mutation contributes to the totals of the segment. *)
Definition volume d : Z :=
  len (id_vector d) + len (id_metadata d) + text_len d + len (column_image (id_columns d)).

Definition mutation_volume (m : MutationPayload) : Z :=
  match m with
  | Upsert d => volume d
  | Delete ids => len ids
  | _ => 0
  end.

Lemma len_prefixed b o r : append_length_prefixed b o = Ok r → len r = len o + 4 + len b.
Proof.
  unfold append_length_prefixed. intros E. apply bind_Ok_inv in E as (n & _ & E). injection E as <-.
  rewrite !len_app, len_u32_le. lia.
Qed.

(** The payload is longer than what it carries. *)
Lemma volume_payload d op payload :
  document_ok d → encode_persisted_upsert d = Ok (op, payload) → volume d ≤ len payload.
Proof.
  intros Hd E. unfold encode_persisted_upsert in E. apply bind_Ok_inv in E as (p & E & Ep). injection Ep as _ <-.
  unfold encode_upsert_v2 in E. cbn zeta in E. apply bind_Ok_inv in E as (? & _ & E).
  apply bind_Ok_inv in E as (dims & _ & E). apply bind_Ok_inv in E as (p1 & H1 & E).
  apply bind_Ok_inv in E as (p2 & H2 & E).
  assert (28 + len (id_vector d) + text_len d ≤ len p1) as L1.
  { pose proof (len_nonneg (id_vector d)).
    assert (28 + 4 * len (id_vector d) ≤ len (append_version (u32_le (upsert_v2_bitmap d)) (id_version d)
      ++ u32_le dims ++ vector_bytes (id_vector d))) as Hp.
    { rewrite append_version_eq, !len_app, !len_u32_le, len_vector_bytes.
      assert (len (version_bytes (id_version d)) = 24) as ->; [|lia].
      unfold version_bytes, append_version. by rewrite !len_app, len_u128_le, len_u64_le. }
    unfold text_len. destruct (id_text d) as [text|].
    - apply len_prefixed in H1. cbn. lia.
    - injection H1 as <-. cbn [default]. rewrite len_nil. lia. }
  assert (len p1 + len (id_metadata d) ≤ len p2) as L2.
  { pose proof (len_nonneg (i64_le (id_timestamp d))).
    destruct (id_metadata_present d) eqn:Em.
    - apply len_prefixed in H2. destruct (id_timestamp_present d); rewrite ?len_app in H2; lia.
    - injection H2 as <-. rewrite (dk_no_metadata _ Hd Em), len_nil.
      destruct (id_timestamp_present d); rewrite ?len_app; lia. }
  unfold volume. destruct (id_columns_present d) eqn:Ec.
  - apply encode_typed_columns_app in E as [_ ->]. rewrite len_app. lia.
  - injection E as <-. rewrite (dk_no_columns _ Hd Ec). change (len (column_image [])) with 4. lia.
Qed.

Lemma delete_volume ids payload : encode_delete ids = Ok payload → len ids ≤ len payload.
Proof.
  unfold encode_delete. case_bool_decide; [done|]. intros E. apply bind_Ok_inv in E as (n & _ & E).
  apply bind_Ok_inv in E as (? & _ & E). apply bind_Ok_inv in E as (? & _ & E). injection E as <-.
  rewrite !len_app. pose proof (len_nonneg (append_header [])). pose proof (len_nonneg (u32_le n)).
  assert (len ids ≤ len (concat (map u128_le ids))); [|lia]. clear.
  induction ids as [|x ids IH]; [done|]. cbn [map concat]. rewrite len_app, len_cons, len_u128_le. lia.
Qed.

(** The attempt that logs the accepted documents. *)
Lemma accepted_docs acc records framed :
  Forall document_ok acc →
  Forall2 (λ d r, encode_persisted_upsert d = Ok (r.1.2, r.2)) acc records →
  frame_batch records = Ok framed → Forall (λ r, len r.2 ≤ isize_max) framed →
  Forall (λ d, volume d ≤ isize_max) acc.
Proof.
  intros Hok He Hf Hlen. apply Forall_lookup. intros i d Hd.
  destruct (Forall2_lookup_l _ _ _ _ _ He Hd) as (rec & Hr & Hup).
  etransitivity; [apply (volume_payload d _ _ (Forall_lookup_1 _ _ _ _ Hok Hd) Hup)|].
  destruct (Z.ltb_spec (len records) 2) as [Hlt|Hge].
  { unfold frame_batch in Hf. rewrite (proj2 (Z.ltb_lt _ _)) in Hf by done. injection Hf as <-.
    by apply (Forall_lookup_1 _ _ _ _ Hlen Hr). }
  destruct (frame_batch_Ok _ _ Hf Hge) as (Hlf & _ & Hm).
  destruct (lookup_lt_is_Some_2 framed i) as [[[row op] p] Hi].
  { apply lookup_lt_Some in Hr. unfold len in Hlf. lia. }
  destruct (Hm _ _ _ _ Hi) as (_ & u & Hu & Henc). assert (rec = (row, UPSERT_V2, u)) as -> by congruence.
  pose proof (Forall_lookup_1 _ _ _ _ Hlen Hi) as Hl. cbn in Hl |- *.
  unfold encode_upsert_v2_batch_member in Henc. apply bind_Ok_inv in Henc as (? & _ & Henc).
  injection Henc as <-. rewrite !len_app, !len_u32_le in Hl. lia.
Qed.

Lemma framed_written acc records framed :
  acc ≠ [] → Forall document_ok acc →
  Forall2 (λ d r, encode_persisted_upsert d = Ok (r.1.2, r.2)) acc records →
  frame_batch records = Ok framed → Forall (λ r, len r.2 ≤ isize_max) framed →
  ∃ a op, written a ∧ attempt_records a = map (λ '(_, op, payload), (op, payload)) framed
    ∧ (∀ first, run_of first (attempt_members a) = upsert_members op first (map persisted acc))
    ∧ (∀ b ms, a ≠ PreparedRun b ms)
    ∧ Forall (λ m, mutation_volume (mb_mutation m) ≤ len (mb_payload m)) (attempt_members a).
Proof.
  intros Hne Hok He Hf Hlen. pose proof (Forall2_length _ _ _ He) as Hl.
  destruct (Z.ltb_spec (len records) 2) as [Hlt|Hge].
  - unfold frame_batch in Hf. rewrite (proj2 (Z.ltb_lt _ _)) in Hf by done. injection Hf as <-.
    destruct acc as [|d [|d' acc]]; [done| |].
    2:{ destruct records as [|r [|r' records]]; try done. rewrite !len_cons in Hlt.
        pose proof (len_nonneg records). lia. }
    destruct records as [|r [|]]; try done. apply Forall2_cons in He as [Hr _].
    apply Forall_cons in Hok as [Hok _], Hlen as [Hlen _]. destruct r as [[row op] payload]. cbn [fst snd] in *.
    pose proof (volume_payload _ _ _ Hok Hr) as Hvol.
    unfold encode_persisted_upsert in Hr. apply bind_Ok_inv in Hr as (b & Hb & Hr). injection Hr as <- <-.
    exists (OneRecord {| mb_payload := b; mb_op := UPSERT_V2; mb_mutation := Upsert (persisted d) |}), UPSERT_V2.
    split_and!; try done; [|by apply Forall_singleton].
    apply written_one; [by apply encodes_upsert_v2|done|done].
  - assert (len acc = len records) as Hl' by (unfold len; lia).
    eexists (LocalRun UPSERT_V2_BATCH_MEMBER _), UPSERT_V2_BATCH_MEMBER. split.
    { eapply (written_upserts acc records framed); [|lia|done|done].
      clear -Hok He. induction He; [constructor|]. apply Forall_cons in Hok as [? ?]. by constructor; [|auto]. }
    destruct (frame_batch_Ok _ _ Hf Hge) as (Hlf & _ & Hm). assert (length framed = length acc) as Hlfa
      by (unfold len in *; lia).
    split_and!; [| |done|].
    + apply list_eq. intros i. unfold attempt_records. cbn [attempt_members attempt_op].
      rewrite !map_lookup, lookup_zip_with.
      destruct (framed !! i) as [[[row op] p]|] eqn:Ei; [|done].
      destruct (lookup_lt_is_Some_2 acc i) as [d Hd]; [apply lookup_lt_Some in Ei; lia|].
      cbn. rewrite Hd. cbn. by destruct (Hm _ _ _ _ Ei) as (-> & _).
    + intros first. apply list_eq. intros i. unfold run_of, upsert_members. cbn [attempt_members].
      rewrite !list_lookup_imap, lookup_zip_with, map_lookup.
      destruct (framed !! i) as [[[row op] p]|] eqn:Ei.
      * cbn. destruct (acc !! i); [|done]. cbn. by destruct (Hm _ _ _ _ Ei) as (-> & _).
      * apply lookup_ge_None in Ei. by rewrite (proj2 (lookup_ge_None acc i)) by lia.
    + apply Forall_lookup. intros i m Hmi. apply lookup_zip_with_Some in Hmi as ([[row op] p] & d & -> & Ei & Hd).
      destruct (Hm _ _ _ _ Ei) as (_ & u & Hu & Henc).
      pose proof (Forall2_lookup_lr _ _ _ _ _ _ He Hd Hu) as Hup. cbn in Hup |- *.
      etransitivity; [apply (volume_payload d _ _ (Forall_lookup_1 _ _ _ _ Hok Hd) Hup)|].
      unfold encode_upsert_v2_batch_member in Henc. apply bind_Ok_inv in Henc as (? & _ & Henc).
      injection Henc as <-. rewrite !len_app, !len_u32_le. lia.
Qed.

(** What an accepted write must show: its records are those of one attempt, and
    the published segment is the previous one after replaying them. *)
Record logged_write (schema : Schema) v (a : ActiveState F) (first : Z) (records : list (Z * bytes))
    (a' : ActiveState F) (attempt : Attempt) : Prop := {
  lw_written : written attempt;
  lw_local : ∀ b ms, attempt ≠ PreparedRun b ms;
  lw_records : attempt_records attempt = records;
  lw_volume : Forall (λ m, mutation_volume (mb_mutation m) ≤ len (mb_payload m)) (attempt_members attempt);
  lw_fits : run_fits v (run_of first (attempt_members attempt));
  lw_decodes : Forall (decodes (B:=B) schema (first - 1)) (run_of first (attempt_members attempt));
  lw_holds : holds (view_replay (run_of first (attempt_members attempt)) v) (as_segment a');
  lw_generation : as_generation a' = as_generation a + 1 ∧ as_generation a + 1 ≤ u64_max;
  lw_docs : Forall (λ d, document_ok d ∧ volume d ≤ isize_max) (docs_of (run_of first (attempt_members attempt)));
}.

Lemma document_ok_persisted d : document_ok d → document_ok (persisted d).
Proof. intros []. by split. Qed.

Lemma docs_of_upserts op first docs : docs_of (upsert_members op first docs) = docs.
Proof.
  induction docs as [|d docs IH] using rev_ind; [done|]. by rewrite upsert_members_snoc, docs_of_app, IH.
Qed.

Lemma applied_persisted docs : ∀ v,
  applied (map persisted docs) v = applied docs v
  ∧ upsert_rows (map persisted docs) v = upsert_rows docs v
  ∧ (docs_fit v docs → docs_fit v (map persisted docs)).
Proof.
  induction docs as [|d docs IH]; intros v; [done|]. destruct (IH (view_upsert d v)) as (E1 & E2 & E3).
  unfold applied in *. cbn. split_and!; [exact E1|by f_equal|]. intros [H1 H2]. split; [exact H1|by apply E3].
Qed.

Lemma check_columns_Forall schema docs :
  check_columns (B:=B) schema docs = Ok tt →
  Forall (λ d, validate_document_columns (B:=B) schema d = Ok tt) docs.
Proof.
  induction docs as [|d docs IH]; intros E; cbn [check_columns] in E; [constructor|].
  apply bind_Ok_inv in E as ([] & Hd & E). constructor; [done|]. by apply IH.
Qed.

Lemma upsert_members_decode schema op first docs :
  Forall (λ d, validate_document_columns (B:=B) schema d = Ok tt) docs →
  Forall (decodes (B:=B) schema (first - 1)) (upsert_members op first (map persisted docs)).
Proof.
  intros Hall. apply Forall_lookup. intros i m Hm. unfold upsert_members in Hm.
  rewrite list_lookup_imap, map_lookup in Hm. destruct (docs !! i) as [d|] eqn:E; [|done].
  injection Hm as <-. split; cbn; [lia|]. by apply (Forall_lookup_1 _ _ _ _ Hall E).
Qed.

Lemma publish_inv (st : Store F) expected generation next a' :
  publish st expected generation next = Ok a' → as_generation a' = generation ∧ as_segment a' = next.
Proof.
  unfold publish. intros E. apply bind_Ok_inv in E as (a & _ & E). apply bind_Ok_inv in E as (u & _ & E).
  by injection E as <-.
Qed.

(** The steps of an ingest that wrote something. *)
Lemma ingest_shape (st : Store F) effects batch first records a a' ack :
  ingest_attempt (B:=B) st effects batch = Ok (Some (first, records, a'), ack) → st_active st = Some a →
  check_columns (B:=B) (st_schema st) (ib_documents batch) = Ok tt
  ∧ (as_generation a' = as_generation a + 1 ∧ as_generation a + 1 ≤ u64_max)
  ∧ ∃ sealed q progress next framed,
      apply_documents (as_segment a) sealed q (ib_documents batch) progress_start = Ok progress
      ∧ rp_working progress = Some next ∧ frame_batch (rp_records progress) = Ok framed
      ∧ records = map (λ '(_, op, payload), (op, payload)) framed
      ∧ set_sequences framed first next = Ok (as_segment a').
Proof.
  intros E Ha. unfold ingest_attempt in E.
  apply bind_Ok_inv in E as ([] & Hadmit & E). apply bind_Ok_inv in E as ([] & _ & E).
  rewrite Ha in E. cbn [ok_or] in E. rsimpl in E. apply bind_Ok_inv in E as (snapshot & _ & E).
  apply bind_Ok_inv in E as (u & _ & E). apply bind_Ok_inv in E as (sealed & _ & E).
  apply bind_Ok_inv in E as (progress & Hp & E).
  destruct (rp_working progress) as [next|] eqn:Hw.
  2:{ by apply bind_Ok_inv in E as (q & _ & E). }
  apply bind_Ok_inv in E as (framed & Hf & E).
  apply bind_Ok_inv in E as (generation & Hg%ok_or_Ok%checked_add_Some & E).
  apply bind_Ok_inv in E as (? & _ & E). apply bind_Ok_inv in E as (first' & _ & E).
  apply bind_Ok_inv in E as (next' & Hseq & E). apply bind_Ok_inv in E as (? & _ & E).
  apply bind_Ok_inv in E as (state & Hpub%publish_inv & E). injection E as <- <- <- _.
  destruct Hg as [-> Hg], Hpub as [Hgen <-]. split_and!; [|done|done|].
  - unfold admit_batch in Hadmit. apply bind_Ok_inv in Hadmit as (? & _ & Hadmit).
    apply bind_Ok_inv in Hadmit as (? & _ & Hadmit). case_bool_decide; [done|].
    by apply bind_Ok_inv in Hadmit as (? & _ & Hadmit).
  - by exists sealed, (ps_absorbed_through snapshot), progress, next, framed.
Qed.

Lemma ingest_logged (st : Store F) effects batch first records a a' ack v :
  ingest_attempt (B:=B) st effects batch = Ok (Some (first, records, a'), ack) →
  st_active st = Some a → holds v (as_segment a) → Forall document_ok (ib_documents batch) →
  Forall (λ r, len r.2 ≤ isize_max) records →
  ∃ attempt, logged_write (st_schema st) v a first records a' attempt.
Proof using QL KL.
  intros E Ha Hh Hok Hlen.
  destruct (ingest_shape _ _ _ _ _ _ _ _ E Ha) as (Hcols%check_columns_Forall & Hgen & sealed & q & progress
    & next & framed & Hp & Hnext & Hf & -> & Hseq).
  destruct (apply_documents_inv v (as_segment a) sealed q (ib_documents batch) [] progress_start progress
    (λ d, document_ok d ∧ validate_document_columns (B:=B) (st_schema st) d = Ok tt) Hh) as (acc & Hacc & HP); try done.
  { eapply Forall_impl; [exact Hok|]. intros d Hd. exact (dk_no_columns _ Hd). }
  { by apply Forall_and. }
  apply Forall_and in HP as [Hdok Hdcols]. destruct Hacc as [Hw Hfit Hrows Hpay].
  rewrite Hnext in Hw. destruct Hw as [Hw Hne].
  assert (Forall (λ r : Z * Z * bytes, len r.2 ≤ isize_max) framed) as Hlen'.
  { rewrite Forall_forall in Hlen. apply Forall_forall. intros [[row op] p] Hin.
    apply (Hlen (op, p)), list_elem_of_fmap. by exists (row, op, p). }
  destruct (framed_written acc (rp_records progress) framed Hne Hdok Hpay Hf Hlen')
    as (attempt & op & Hwr & Hrec & Hrun & Hloc & Hvol).
  destruct (applied_persisted acc v) as (Eapp & Erows & Efit).
  exists attempt. split; try done; rewrite ?Hrun.
  - by apply docs_fit_run, Efit.
  - by apply upsert_members_decode.
  - rewrite sequence_after, Eapp, Erows, length_map.
    pose proof (set_sequences_holds _ _ _ _ _ Hw Hseq) as Hs.
    assert (map (λ r : Z * Z * bytes, Z.to_nat r.1.1) framed = upsert_rows acc v) as Er.
    { rewrite <- (map_map (λ r : Z * Z * bytes, r.1.1) Z.to_nat), (frame_batch_rows _ _ Hf), Hrows, map_map.
      etransitivity; [|apply map_id]. apply map_ext. intros x. apply Nat2Z.id. }
    assert (length framed = length acc) as El.
    { rewrite <- (length_map (λ r : Z * Z * bytes, Z.to_nat r.1.1)), Er. apply length_upsert_rows. }
    by rewrite Er, El in Hs.
  - rewrite docs_of_upserts. pose proof (accepted_docs _ _ _ Hdok Hpay Hf Hlen') as Hvols.
    apply Forall_fmap, Forall_and. split; [|exact Hvols].
    eapply Forall_impl; [exact Hdok|]. apply document_ok_persisted.
Qed.

(** ** Deletes *)

Lemma requested_wanted v s ids : ∀ seen,
  holds v s → requested_rows seen ids s = wanted_rows seen (λ id, find_row id v) ids.
Proof.
  induction ids as [|id ids IH]; intros seen Hh; [done|]. cbn [requested_rows wanted_rows].
  by rewrite (holds_find _ _ _ Hh), IH.
Qed.

Lemma wanted_in_range v ids : ∀ seen,
  Forall (λ row, (row < length (v_rows v))%nat) (wanted_rows seen (λ id, find_row id v) ids).
Proof.
  induction ids as [|id ids IH]; intros seen; [constructor|]. cbn [wanted_rows].
  case_bool_decide; [apply IH|]. destruct (find_row id v) as [row|] eqn:E; [|apply IH].
  constructor; [|apply IH]. destruct (find_row_lookup _ _ _ E) as (r & Hr & _). by apply lookup_lt_Some in Hr.
Qed.

Lemma push_tombstones_inv rows : ∀ (seen : gset Z) dead t t',
  bf_data t = map Z.of_nat dead → (∀ x, x ∈ seen ↔ x ∈ map Z.of_nat dead) →
  push_tombstones seen rows t = Ok t' → bf_data t' = map Z.of_nat (foldl kill dead rows).
Proof.
  induction rows as [|row rows IH]; intros seen dead t t' Hd Hs E; cbn [push_tombstones] in E.
  { by injection E as <-. }
  apply bind_Ok_inv in E as (x & Hx%ok_or_Ok%try_from_Some & E). destruct Hx as [-> _].
  cbn [foldl]. unfold kill at 2. rewrite (bool_decide_ext _ _ (Hs (Z.of_nat row))) in E.
  rewrite (bool_decide_ext _ _ (elem_of_Z_of_nat row dead)) in E. case_bool_decide as Hin.
  - by eapply IH.
  - apply bind_Ok_inv in E as (t1 & Ht1%lift_store_Ok & E). destruct (push_inv _ _ _ Ht1) as [Hd1 _].
    eapply IH; [|..|exact E]; [by rewrite Hd1, Hd, map_app|].
    intros x. rewrite elem_of_union, elem_of_singleton, map_app, elem_of_app, Hs. cbn.
    rewrite list_elem_of_singleton. tauto.
Qed.

Lemma NoDup_kills rows : ∀ dead, NoDup dead → NoDup (foldl kill dead rows).
Proof. induction rows as [|row rows IH]; intros dead Hd; [done|]. cbn. by apply IH, NoDup_kill. Qed.

Lemma Forall_kills (P : nat → Prop) rows : ∀ dead,
  Forall P dead → Forall P rows → Forall P (foldl kill dead rows).
Proof.
  induction rows as [|row rows IH]; intros dead Hd Hr; [done|]. apply Forall_cons in Hr as [H1 H2].
  cbn. apply IH; [|done]. by apply Forall_kill.
Qed.

Lemma exact_copy_inv {A} (b b' : Buffer A) : lift_store (exact_copy b) = Ok b' → bf_data b' = bf_data b.
Proof. intros E. by apply lift_copy_inv in E as [? _]. Qed.

Lemma exact_rows_inv rb rb' : lift_store (exact_rows rb) = Ok rb' →
  bf_data (rb_offsets rb') = bf_data (rb_offsets rb) ∧ bf_data (rb_bytes rb') = bf_data (rb_bytes rb).
Proof. intros E. by apply copy_rows_inv in E as [? _]. Qed.

Lemma active_tombstone_inv v s ids s' rows :
  holds v s → active_tombstone ids s = Ok (s', rows) →
  rows = wanted_rows ∅ (λ id, find_row id v) ids
  ∧ holds (view_dead (foldl kill (v_dead v) rows) v) s'.
Proof.
  intros Hh E. unfold active_tombstone in E.
  apply bind_Ok_inv in E as (ids' & D1%exact_copy_inv & E). apply bind_Ok_inv in E as (revs & D2%exact_copy_inv & E).
  apply bind_Ok_inv in E as (seqs & D3%exact_copy_inv & E). apply bind_Ok_inv in E as (tss & D4%exact_copy_inv & E).
  apply bind_Ok_inv in E as (md & D5%exact_rows_inv & E). apply bind_Ok_inv in E as (tp & D6%exact_copy_inv & E).
  apply bind_Ok_inv in E as (tx & D7%exact_rows_inv & E). apply bind_Ok_inv in E as (cols & D8%exact_rows_inv & E).
  apply bind_Ok_inv in E as (vecs & D9%exact_copy_inv & E). apply bind_Ok_inv in E as (codes & D10%exact_copy_inv & E).
  apply bind_Ok_inv in E as (facs & D11%exact_copy_inv & E).
  apply bind_Ok_inv in E as (cap & _ & E). apply bind_Ok_inv in E as (t0 & [T0 _]%lift_copy_inv & E).
  apply bind_Ok_inv in E as (t & Ht & E). injection E as <- <-.
  rewrite (requested_wanted _ _ _ _ Hh) in *. set (rows := wanted_rows _ _ _) in *. split; [done|].
  apply (push_tombstones_inv _ _ (v_dead v)) in Ht.
  2:{ rewrite T0. apply Hh. }
  2:{ intros x. rewrite elem_of_list_to_set. by rewrite (ho_dead _ _ Hh). }
  set (s0 := {| sg_dims := _ |}).
  change s0 with (with_tombstones t (with_tombstones t0 s0)). apply holds_dead; [|done|..].
  - eapply holds_same_data; [|exact Hh]. split; try done. cbn. by rewrite (ho_index _ _ Hh), (ho_ids _ _ Hh).
  - apply NoDup_kills, Hh.
  - apply Forall_kills; [apply Hh|apply wanted_in_range].
Qed.

Lemma set_rows_holds rows q : ∀ v s s',
  holds v s → set_rows rows q s = Ok s' → holds (sequences (map (λ row, (row, q)) rows) v) s'.
Proof.
  induction rows as [|row rows IH]; intros v s s' Hh E; cbn [set_rows] in E; [by injection E as <-|].
  apply bind_Ok_inv in E as (s1 & H1%lift_store_Ok & E).
  destruct (set_sequence_holds _ _ _ _ _ Hh H1) as (Hh1 & _ & _). by apply (IH _ _ _ Hh1).
Qed.

Lemma delete_logged (st : Store F) effects batch first records a a' ack v :
  delete_attempt st effects batch = Ok (Some (first, records, a'), ack) →
  st_active st = Some a → holds v (as_segment a) → Forall is_u128 (db_doc_ids batch) →
  Forall (λ r, len r.2 ≤ isize_max) records →
  ∃ attempt, logged_write (st_schema st) v a first records a' attempt.
Proof.
  intros E Ha Hh Hok Hlen. unfold delete_attempt in E. case_bool_decide; [done|].
  apply bind_Ok_inv in E as (? & _ & E). apply bind_Ok_inv in E as (? & _ & E).
  unfold delete_with_writer in E. rewrite Ha in E. cbn [ok_or] in E. rsimpl in E.
  apply bind_Ok_inv in E as (snapshot & _ & E). apply bind_Ok_inv in E as (? & _ & E).
  apply bind_Ok_inv in E as (sealed & _ & E).
  apply bind_Ok_inv in E as (generation & Hg%ok_or_Ok%checked_add_Some & E).
  apply bind_Ok_inv in E as ([next rows] & Ht & E). apply bind_Ok_inv in E as (? & _ & E).
  apply bind_Ok_inv in E as (payload & Hp%map_err_Ok & E). apply bind_Ok_inv in E as (q & _ & E).
  apply bind_Ok_inv in E as (next' & Hseq & E). apply bind_Ok_inv in E as (? & _ & E).
  apply bind_Ok_inv in E as (state & Hpub%publish_inv & E). injection E as <- <- <- _.
  destruct Hg as [-> Hg], Hpub as [Hgen Hsegm]. apply Forall_cons in Hlen as [Hlen _].
  destruct (active_tombstone_inv _ _ _ _ _ Hh Ht) as [-> Hh1].
  pose proof (set_rows_holds _ _ _ _ _ Hh1 Hseq) as Hh2. rewrite <- delete_after in Hh2.
  exists (OneRecord {| mb_payload := payload; mb_op := DELETE_V1; mb_mutation := Delete (db_doc_ids batch) |}).
  split; try done.
  - apply written_one; [by apply encodes_delete|done|done].
  - apply Forall_singleton. by apply delete_volume.
  - apply Forall_singleton. split; [|done]. cbn. lia.
  - unfold run_of. cbn. by rewrite Z.add_0_r, Hsegm.
Qed.
End IngestSpec.
