(* ===== verification/ActiveHistory.v ===== *)
(** * Reopening a store restores the writes it accepted

    A [history] is a sequence of accepted ingests and deletes on one store since
    its active segment was empty, with the log records they appended.  The main
    theorem composes the whole write and recovery path: the log of a history,
    cut at any byte by a crash and repaired at reopen, replays to the state the
    store had after the writes whose records the cut left whole. *)

From S2P Require Import Prelude Format Cursor WalRecord WalReplay Durability WalInvariant Vfs Schema Epoch Float Columns Predicate IngestPayload IngestCodec StoreErrors Accounted Bitmap ActiveSegment ActiveSpec ActiveRoom ActiveSteps AtomicBatch AtomicBatchSpec CrashRecovery ActiveIngest ActiveRecovery ActiveReplaySpec ActiveIngestSpec.

(** ** Whole logs *)

(** The attempts of a history, each appended whole. *)
Definition whole_log (attempts : list Attempt) : list Logged :=
  map (λ a, (a, length (attempt_records a))) attempts.

Definition local (a : Attempt) : Prop := ∀ b ms, a ≠ PreparedRun b ms.

Definition no_decision : TransactionBinding → option TransactionBinding := λ _, None.

(** The batches of a whole log: one per attempt. *)
Fixpoint attempt_batches (first : Z) (attempts : list Attempt) : list CommittedBatch :=
  match attempts with
  | [] => []
  | a :: attempts =>
      {| cb_last_seq := first + len (attempt_members a) - 1; cb_members := run_of first (attempt_members a) |}
      :: attempt_batches (first + len (attempt_members a)) attempts
  end.

Lemma len_attempt_records a : len (attempt_records a) = len (attempt_members a).
Proof. unfold attempt_records. by rewrite len_map. Qed.

Lemma kept_whole a : kept (a, length (attempt_records a)) = attempt_records a.
Proof. unfold kept. cbn. by rewrite take_ge. Qed.

Lemma whole_log_records attempts : log_records (whole_log attempts) = concat (map attempt_records attempts).
Proof.
  unfold log_records, whole_log. rewrite map_map. f_equal. apply map_ext. intros a. apply kept_whole.
Qed.

Lemma commits_local a k : local a → commits no_decision (a, k) = complete (a, k).
Proof. intros Hl. unfold commits. cbn [fst]. destruct a; rewrite ?andb_true_r; try done. by destruct (Hl binding members). Qed.

Lemma whole_log_batches attempts : ∀ first,
  Forall local attempts → whole_attempts no_decision first (whole_log attempts) = attempt_batches first attempts.
Proof.
  induction attempts as [|a attempts IH]; intros first Hl; [done|]. apply Forall_cons in Hl as [Ha Hl].
  cbn [whole_log map whole_attempts attempt_batches fst]. rewrite commits_local by done.
  unfold complete. cbn [fst snd]. rewrite Nat.leb_refl. cbn [app]. f_equal.
  rewrite kept_whole, len_attempt_records. by apply IH.
Qed.

Lemma local_log_bound m attempts : ∀ first,
  Forall local attempts → log_bound no_decision first (cut_log m (whole_log attempts)).
Proof.
  revert m. induction attempts as [|a attempts IH]; intros m first Hl; [done|].
  apply Forall_cons in Hl as [Ha Hl]. cbn [whole_log map cut_log log_bound fst].
  split; [|by apply IH]. destruct a; try done. by destruct (Ha binding members).
Qed.

(** The attempts whose records are all among the first [m]. *)
Fixpoint surviving (m : nat) (attempts : list Attempt) : nat :=
  match attempts with
  | [] => 0
  | a :: attempts =>
      let n := length (attempt_records a) in
      if (n <=? m)%nat then S (surviving (m - n) attempts) else 0
  end.

Lemma surviving_spec attempts : ∀ m,
  let k := surviving m attempts in
  (k ≤ length attempts)%nat
  ∧ (length (concat (map attempt_records (take k attempts))) ≤ m)%nat
  ∧ ((k < length attempts)%nat → (m < length (concat (map attempt_records (take (S k) attempts))))%nat).
Proof.
  induction attempts as [|a attempts IH]; intros m k; [cbn; lia|]. unfold k. cbn [surviving].
  destruct (Nat.leb_spec (length (attempt_records a)) m) as [Hle|Hgt].
  - destruct (IH (m - length (attempt_records a))%nat) as (H1 & H2 & H3).
    cbn [length]. rewrite !firstn_cons. cbn [map concat]. rewrite !length_app. split_and!; [lia|lia|].
    intros Hk. specialize (H3 ltac:(lia)). lia.
  - cbn [length]. rewrite firstn_cons. cbn. split_and!; [lia|lia|]. intros _. rewrite length_app. cbn. lia.
Qed.

Lemma take_surviving_all attempts :
  take (surviving (length (concat (map attempt_records attempts))) attempts) attempts = attempts.
Proof.
  induction attempts as [|x attempts IH]; [done|]. cbn [map concat surviving]. rewrite length_app.
  rewrite (proj2 (Nat.leb_le _ _)) by lia. rewrite Nat.add_sub'. cbn [take]. by rewrite IH.
Qed.

Lemma cut_whole_log attempts : ∀ first m,
  Forall attempt_ok attempts → Forall local attempts →
  whole_attempts no_decision first (cut_log m (whole_log attempts))
  = attempt_batches first (take (surviving m attempts) attempts).
Proof.
  induction attempts as [|a attempts IH]; intros first m Hok Hl; [done|].
  apply Forall_cons in Hl as [Ha Hl]. apply Forall_cons in Hok as [Hao Hok].
  cbn [whole_log map cut_log surviving fst snd]. rewrite kept_whole. cbn [whole_attempts fst].
  rewrite commits_local by done. unfold complete. cbn [fst snd].
  destruct (Nat.leb_spec (length (attempt_records a)) m) as [Hle|Hgt].
  - rewrite Nat.min_l by lia. rewrite Nat.leb_refl. cbn [app take attempt_batches]. f_equal.
    rewrite kept_whole, len_attempt_records. by apply IH.
  - rewrite Nat.min_r by lia. rewrite (proj2 (Nat.leb_gt _ _)) by lia. cbn [app take attempt_batches].
    replace (m - length (attempt_records a))%nat with 0%nat by lia.
    apply whole_attempts_none; [|apply cut_log_zero]. apply cut_log_attempts.
    unfold whole_log. apply Forall_fmap. eapply Forall_impl; [exact Hok|]. done.
Qed.

(** ** Histories *)

Section History.
Context {X : Xxh3} {L : Xxh3Laws X} {F : Type} {Q : Quantizer F} {K : HashCapacity} {N : SquaredNorm}.
Context {B : Type} {R : Roaring B} {QL : QuantizerLaws F} {KL : HashCapacityLaws}.
Context (schema : Schema) (generation first : Z).
Implicit Types (a : ActiveState F) (attempts : list Attempt) (groups : list (list (Z * bytes))).

(** The payloads of one append fit memory. *)
Definition payloads_small (records : list (Z * bytes)) : Prop := Forall (λ r, len r.2 ≤ isize_max) records.

(** [history groups next a]: from an empty active segment at [generation], with
    the log starting at sequence [first], the writes that appended [groups]
    left the active state [a] and the log at sequence [next].  Calls that
    returned an error, or acknowledged a replay, changed neither. *)
Inductive history : list (list (Z * bytes)) → Z → ActiveState F → Prop :=
| history_open :
    history [] first {| as_generation := generation; as_segment := active_empty |}
| history_ingest groups next a st effects batch records a' ack :
    history groups next a → st_active st = Some a → st_schema st = schema →
    Forall document_ok (ib_documents batch) → payloads_small records →
    ingest_attempt (B:=B) st effects batch = Ok (Some (next, records, a'), ack) →
    history (groups ++ [records]) (next + len records) a'
| history_delete groups next a st effects batch records a' ack :
    history groups next a → st_active st = Some a → st_schema st = schema →
    Forall is_u128 (db_doc_ids batch) → payloads_small records →
    delete_attempt st effects batch = Ok (Some (next, records, a'), ack) →
    history (groups ++ [records]) (next + len records) a'.

(** A shorter history is a history. *)
Lemma history_prefix groups2 : ∀ groups1 next a,
  history (groups1 ++ groups2) next a → ∃ next1 a1, history groups1 next1 a1.
Proof.
  induction groups2 as [|g groups2 IH] using rev_ind; intros groups1 next a H.
  { rewrite app_nil_r in H. by exists next, a. }
  rewrite app_assoc in H. inversion H as [Hn|gs n a0 ? ? ? recs ? ? Hh ? ? ? ? ? E|gs n a0 ? ? ? recs ? ? Hh ? ? ? ? ? E].
  - by destruct (groups1 ++ groups2).
  - apply app_inj_tail in E as [-> _]. by eapply IH.
  - apply app_inj_tail in E as [-> _]. by eapply IH.
Qed.

Definition members_of (attempts : list Attempt) : list (Z * Z * MutationPayload) :=
  concat (map cb_members (attempt_batches first attempts)).

Lemma attempt_batches_snoc attempts x : ∀ start,
  attempt_batches start (attempts ++ [x])
  = attempt_batches start attempts
    ++ attempt_batches (start + len (concat (map attempt_records attempts))) [x].
Proof.
  induction attempts as [|y attempts IH]; intros start; cbn [app attempt_batches map concat].
  { change (len []) with 0. by rewrite Z.add_0_r. }
  rewrite IH, len_app, len_attempt_records. by rewrite Z.add_assoc.
Qed.

(** What a history left, in terms of the attempts it logged. *)
Record described groups next a attempts : Prop := {
  de_written : Forall written attempts;
  de_local : Forall local attempts;
  de_records : map attempt_records attempts = groups;
  de_next : next = first + len (concat groups);
  de_fits : run_fits view_empty (members_of attempts);
  de_decodes : Forall (decodes (B:=B) schema (first - 1)) (members_of attempts);
  de_holds : holds (view_replay (members_of attempts) view_empty) (as_segment a);
  de_volume : Forall (λ x, Forall (λ m, mutation_volume (mb_mutation m) ≤ len (mb_payload m))
                             (attempt_members x)) attempts;
  de_generation : as_generation a = generation + len groups;
  de_bound : groups ≠ [] → generation + len groups ≤ u64_max;
  de_docs : Forall (λ d, document_ok d ∧ volume d ≤ isize_max) (docs_of (members_of attempts));
}.

Lemma described_snoc groups next a attempts records a' x :
  described groups next a attempts →
  logged_write (B:=B) schema (view_replay (members_of attempts) view_empty) a next records a' x →
  described (groups ++ [records]) (next + len records) a' (attempts ++ [x]).
Proof.
  intros [] [].
  assert (members_of (attempts ++ [x]) = members_of attempts ++ run_of next (attempt_members x)) as Hm.
  { unfold members_of. rewrite attempt_batches_snoc, map_app, concat_app, de_records0, <- de_next0. cbn.
    by rewrite app_nil_r. }
  split; rewrite ?Hm.
  - apply Forall_app; split; [done|]. by apply Forall_singleton.
  - apply Forall_app; split; [done|]. by apply Forall_singleton.
  - rewrite map_app, de_records0. cbn. by rewrite lw_records.
  - rewrite concat_app, len_app, de_next0. cbn. rewrite app_nil_r. lia.
  - by apply run_fits_app.
  - apply Forall_app; split; [done|]. eapply Forall_impl; [exact lw_decodes|].
    intros m [Hs Hd]. split; [|done]. pose proof (len_nonneg (concat groups)). lia.
  - unfold view_replay in *. by rewrite foldl_app.
  - apply Forall_app; split; [done|]. by apply Forall_singleton.
  - rewrite len_app, (proj1 lw_generation), de_generation0. change (len [records]) with 1. lia.
  - intros _. rewrite len_app. change (len [records]) with 1. lia.
  - rewrite docs_of_app. by apply Forall_app.
Qed.

Lemma history_described groups next a : history groups next a → ∃ attempts, described groups next a attempts.
Proof using QL KL.
  induction 1 as [|groups next a st effects batch records a' ack _ [attempts Hd] Ha Hsch Hok Hs E
                 |groups next a st effects batch records a' ack _ [attempts Hd] Ha Hsch Hok Hs E].
  - exists []. split; try done; [unfold len; cbn; lia|apply holds_empty|unfold len; cbn; lia].
  - destruct (ingest_logged _ _ _ _ _ _ _ _ _ E Ha (de_holds _ _ _ _ Hd) Hok Hs) as (x & Hx).
    rewrite Hsch in Hx. exists (attempts ++ [x]). by eapply described_snoc.
  - destruct (delete_logged _ _ _ _ _ _ _ _ _ E Ha (de_holds _ _ _ _ Hd) Hok Hs) as (x & Hx).
    rewrite Hsch in Hx. exists (attempts ++ [x]). by eapply described_snoc.
Qed.

(** ** The log is large enough to bound the segment *)

Definition payload_total (records : list (Z * bytes)) : Z := sum_of (len ∘ snd) records.

Lemma sum_of_app {A} (f : A → Z) l1 l2 : sum_of f (l1 ++ l2) = sum_of f l1 + sum_of f l2.
Proof. induction l1 as [|x l1 IH]; [done|]. cbn [app]. rewrite !sum_of_cons, IH. lia. Qed.

Lemma sum_of_le {A} (f g : A → Z) l : Forall (λ x, f x ≤ g x) l → sum_of f l ≤ sum_of g l.
Proof. induction 1; [done|]. rewrite !sum_of_cons. lia. Qed.

Lemma run_volume start ms :
  Forall (λ m, mutation_volume (mb_mutation m) ≤ len (mb_payload m)) ms →
  sum_of (mutation_volume ∘ snd) (run_of start ms) ≤ sum_of (len ∘ mb_payload) ms.
Proof.
  unfold run_of. revert start. induction ms as [|m ms IH]; intros start Hv; [done|].
  apply Forall_cons in Hv as [Hm Hv]. rewrite imap_cons, !sum_of_cons. specialize (IH (start + 1) Hv).
  replace (imap _ ms) with (imap (λ i m, (start + 1 + Z.of_nat i, mb_op m, mb_mutation m)) ms).
  - unfold compose in *. cbn [snd] in *. lia.
  - apply imap_ext. intros i x _. cbn. do 2 f_equal. lia.
Qed.

Lemma docs_volume ms :
  sum_of volume (docs_of ms) + len (ids_of ms) ≤ sum_of (mutation_volume ∘ snd) ms.
Proof.
  induction ms as [|m ms IH]; [done|]. rewrite docs_of_cons, sum_of_cons. unfold compose at 1.
  change (m :: ms) with ([m] ++ ms). rewrite ids_of_app, len_app. unfold ids_of at 1. cbn [map concat].
  rewrite app_nil_r. destruct (m.2); cbn [mutation_volume]; rewrite ?sum_of_cons, ?(len_nil (A:=Z)); lia.
Qed.

Lemma attempts_volume attempts : ∀ start,
  Forall (λ x, Forall (λ m, mutation_volume (mb_mutation m) ≤ len (mb_payload m)) (attempt_members x)) attempts →
  sum_of (mutation_volume ∘ snd) (concat (map cb_members (attempt_batches start attempts)))
  ≤ payload_total (concat (map attempt_records attempts)).
Proof.
  unfold payload_total. induction attempts as [|x attempts IH]; intros start Hv; [done|].
  apply Forall_cons in Hv as [Hx Hv]. cbn [attempt_batches map concat cb_members].
  rewrite !sum_of_app. specialize (IH (start + len (attempt_members x)) Hv).
  pose proof (run_volume start _ Hx) as Hr.
  assert (sum_of (len ∘ snd) (attempt_records x) = sum_of (len ∘ mb_payload) (attempt_members x)) as ->; [|lia].
  unfold attempt_records. clear. induction (attempt_members x) as [|m ms IHm]; [done|]. cbn [map].
  rewrite !sum_of_cons. by rewrite IHm.
Qed.

Lemma total_image start records : payload_total records ≤ len (wal_image start (number start records)).
Proof.
  unfold wal_image. rewrite len_app, len_wal_header_bytes. change WAL_HEADER_LEN with 40.
  enough (payload_total records ≤ len (records_bytes (number start records))) by lia.
  unfold payload_total. revert start. induction records as [|[op p] records IH]; intros start; [done|].
  cbn [number]. rewrite records_bytes_cons, len_app, sum_of_cons, len_record_bytes. cbn [wr_payload].
  specialize (IH (start + 1)). unfold compose in *. cbn [snd]. change MIN_RECORD_LEN with 22. lia.
Qed.

Lemma total_nonneg records : 0 ≤ payload_total records.
Proof. apply sum_of_nonneg. intros r. apply len_nonneg. Qed.

Lemma run_docs ms : ∀ v, run_fits v ms →
  Forall (λ d, 1 ≤ len (id_vector d) ∧ columns_encode (id_columns d)) (docs_of ms).
Proof.
  induction ms as [|m ms IH]; intros v Hf; [constructor|]. destruct Hf as [Hm Hf].
  rewrite docs_of_cons. destruct (m.2) as [|d| | |] eqn:E; try (by eapply IH).
  constructor; [|by eapply IH]. destruct Hm as (Hv & _ & _ & Hc & _). split; [|done].
  by apply vector_ok_pos in Hv as [? _].
Qed.

(** Documents whose volume is a machine integer fit. *)
Lemma volume_fits d docs :
  sum_of volume (d :: docs) ≤ usize_max →
  Forall (λ x, 1 ≤ len (id_vector x) ∧ columns_encode (id_columns x)) (d :: docs) →
  Forall (λ x, len (id_vector x) = len (id_vector d)) (d :: docs) →
  fits (len (id_vector d)) (d :: docs) view_empty.
Proof.
  intros Hvol Hdocs Hdims.
  assert (∀ f, (∀ x, f x ≤ volume x) → sum_of f (d :: docs) ≤ usize_max) as Hle.
  { intros f Hf. etransitivity; [|exact Hvol]. apply sum_of_le, Forall_forall. intros x _. apply Hf. }
  assert (∀ x, 0 ≤ len (id_vector x) ∧ 0 ≤ len (id_metadata x) ∧ 0 ≤ text_len x
            ∧ 0 ≤ len (column_image (id_columns x))) as Hnn by (intros x; split_and!; apply len_nonneg).
  split; cbn [view_empty v_dims v_rows map concat]; rewrite ?(len_nil (A:=byte)), ?Z.add_0_l.
  - by left.
  - by apply Forall_cons in Hdocs as [[? _] _].
  - replace (len (d :: docs) * len (id_vector d)) with (sum_of (len ∘ id_vector) (d :: docs)).
    + apply Hle. intros x. specialize (Hnn x). unfold volume, compose. lia.
    + clear -Hdims. revert Hdims. generalize (len (id_vector d)) as n. intros n H. induction H as [|x l Hx _ IH]; [done|].
      rewrite sum_of_cons, len_cons, IH. unfold compose. rewrite Hx. lia.
  - apply Hle. intros x. specialize (Hnn x). unfold volume, compose. lia.
  - apply Hle. intros x. specialize (Hnn x). unfold volume, compose. lia.
  - apply Hle. intros x. specialize (Hnn x). unfold volume, compose. lia.
  - eapply Forall_impl; [exact Hdocs|]. by intros x [_ ?].
Qed.

Lemma attempt_batches_last attempts : ∀ start,
  Forall attempt_ok attempts → Forall (λ b, start ≤ cb_last_seq b) (attempt_batches start attempts).
Proof.
  induction attempts as [|x attempts IH]; intros start Hok; [constructor|]. apply Forall_cons in Hok as [Hx Hok].
  assert (1 ≤ len (attempt_members x)) as Hl.
  { apply (attempt_ok_nonempty no_decision) in Hx. destruct (attempt_members x); [done|]. rewrite len_cons.
    pose proof (len_nonneg l). lia. }
  cbn [attempt_batches]. constructor; [cbn; lia|]. eapply Forall_impl; [by apply IH|]. intros b Hb. cbn in Hb. lia.
Qed.

Lemma len_attempt_batches attempts : ∀ start, len (attempt_batches start attempts) = len attempts.
Proof. induction attempts as [|x attempts IH]; intros start; [done|]. cbn [attempt_batches]. by rewrite !len_cons, IH. Qed.

(** The log of a history is one that replay rebuilds. *)
Lemma described_tail groups next a attempts absorbed graph :
  described groups next a attempts → Z.max absorbed graph < first → generation ≤ u64_max →
  payload_total (concat groups) ≤ usize_max →
  tail_ok (B:=B) schema generation absorbed graph (attempt_batches first attempts).
Proof.
  intros [] Ha Hg Htot.
  assert (sum_of volume (docs_of (members_of attempts)) + len (ids_of (members_of attempts)) ≤ usize_max) as Hvol.
  { etransitivity; [apply docs_volume|]. etransitivity; [by apply attempts_volume|]. by rewrite de_records0. }
  assert (0 ≤ sum_of volume (docs_of (members_of attempts))) as Hnn.
  { apply sum_of_nonneg. intros d. unfold volume. pose proof (len_nonneg (id_vector d)).
    pose proof (len_nonneg (id_metadata d)). pose proof (len_nonneg (column_image (id_columns d))).
    assert (0 ≤ text_len d) by apply len_nonneg. lia. }
  pose proof (len_nonneg (ids_of (members_of attempts))).
  split; fold (members_of attempts); try done.
  - eapply Forall_impl; [apply attempt_batches_last|]; [|intros b Hb; cbn in Hb; lia].
    eapply Forall_impl; [exact de_written0|]. intros x. apply written_ok.
  - eapply Forall_impl; [exact de_decodes0|]. intros m [Hs Hd]. split; [lia|done].
  - rewrite len_attempt_batches. assert (len attempts = len groups) as -> by (by rewrite <- de_records0, len_map).
    destruct groups; [|by apply de_bound0]. rewrite len_nil. lia.
  - intros d docs E. apply volume_fits; rewrite <- E.
    + lia.
    + by eapply run_docs.
    + by eapply run_first_dims.
  - lia.
Qed.

(** ** Reopening *)

Context {T : TransactionDecisions}.

Lemma recover_reads absorbed graph (fs : Fs) b rd clean :
  v_read WAL_FILE fs = Ok b → len b ≠ 0 → reader_open (Ok b) = Some (Ok rd) → into_clean rd = Ok clean →
  recover (F:=F) (B:=B) generation absorbed graph schema fs
  = Some (recover_clean (B:=B) generation absorbed graph schema clean).
Proof.
  intros Hr Hb Ho Hc. unfold recover. rewrite Hr.
  assert (v_open WAL_FILE fs = Ok (len b)) as ->.
  { cbn in Hr |- *. destruct (fs_files fs !! WAL_FILE); [|done]. by injection Hr as ->. }
  rewrite Ho. cbn [map_err]. rsimpl. rewrite Hc. cbn [map_err]. rsimpl. by destruct (len b).
Qed.

(** A clean log of whole attempts. *)
Lemma recover_clean_ok groups next a attempts absorbed graph clean :
  described groups next a attempts →
  committed_batches no_decision (cl_records clean) (Z.min absorbed graph) = Ok (attempt_batches first attempts) →
  (∀ records, transaction_decisions records (Z.min absorbed graph) = Ok []) →
  Z.max absorbed graph < first → generation ≤ u64_max → payload_total (concat groups) ≤ usize_max →
  ∃ recovered, recover_clean (B:=B) generation absorbed graph schema clean = Ok recovered
    ∧ as_generation (rc_active recovered) = as_generation a
    ∧ same_data (as_segment (rc_active recovered)) (as_segment a).
Proof using QL KL.
  intros Hd Hb Hdec Ha Hg Htot. unfold recover_clean. rewrite Hdec. rsimpl.
  destruct (replay_batches schema generation absorbed graph [] clean _ Hb
    (described_tail _ _ _ _ _ _ Hd Ha Hg Htot)) as (rec & -> & Hgen & Hh & _). rsimpl.
  eexists. split; [reflexivity|]. cbn [rc_active as_generation as_segment]. split.
  - rewrite Hgen, len_attempt_batches, (de_generation _ _ _ _ Hd).
    by rewrite <- (de_records _ _ _ _ Hd), len_map.
  - eapply holds_same; [apply Hd|]. exact Hh.
Qed.

(** Every prefix of a history is described by a prefix of its attempts. *)
Lemma history_prefixes groups next a :
  history groups next a →
  ∃ attempts, described groups next a attempts
    ∧ ∀ k, (k ≤ length groups)%nat →
        ∃ next1 a1, history (take k groups) next1 a1 ∧ described (take k groups) next1 a1 (take k attempts).
Proof using QL KL.
  assert (∀ groups next a records a' x, history (groups ++ [records]) (next + len records) a' →
    (∃ attempts, described groups next a attempts
      ∧ (∀ k, (k ≤ length groups)%nat →
          ∃ next1 a1, history (take k groups) next1 a1 ∧ described (take k groups) next1 a1 (take k attempts))
      ∧ logged_write (B:=B) schema (view_replay (members_of attempts) view_empty) a next records a' x) →
    ∃ attempts, described (groups ++ [records]) (next + len records) a' attempts
      ∧ ∀ k, (k ≤ length (groups ++ [records]))%nat →
        ∃ next1 a1, history (take k (groups ++ [records])) next1 a1
          ∧ described (take k (groups ++ [records])) next1 a1 (take k attempts)) as Hstep.
  { intros gs n a0 records a' x Hh (attempts & Hd & Hpre & Hx). exists (attempts ++ [x]).
    pose proof (described_snoc _ _ _ _ _ _ _ Hd Hx) as Hd'. split; [exact Hd'|].
    intros k Hk. rewrite length_app in Hk. cbn in Hk.
    assert (length attempts = length gs) as Hl by (by rewrite <- (de_records _ _ _ _ Hd), length_map).
    destruct (decide (k ≤ length gs)%nat) as [Hle|Hgt].
    - rewrite !take_app_le by lia. by apply Hpre.
    - rewrite !take_ge by (rewrite length_app; cbn; lia). eauto. }
  induction 1 as [|gs n a0 st effects batch records a' ack Hh (attempts & Hd & Hpre) Ha Hsch Hok Hs E
                 |gs n a0 st effects batch records a' ack Hh (attempts & Hd & Hpre) Ha Hsch Hok Hs E].
  - destruct (history_described _ _ _ history_open) as (attempts & Hd). exists attempts. split; [done|].
    intros k _. rewrite take_nil. pose proof (de_records _ _ _ _ Hd) as Hr. apply map_eq_nil in Hr as ->.
    rewrite take_nil. eauto using history_open.
  - destruct (ingest_logged _ _ _ _ _ _ _ _ _ E Ha (de_holds _ _ _ _ Hd) Hok Hs) as (x & Hx).
    rewrite Hsch in Hx. eapply (Hstep gs n a0 records a' x); [by eapply history_ingest|]. by exists attempts.
  - destruct (delete_logged _ _ _ _ _ _ _ _ _ E Ha (de_holds _ _ _ _ Hd) Hok Hs) as (x & Hx).
    rewrite Hsch in Hx. eapply (Hstep gs n a0 records a' x); [by eapply history_delete|]. by exists attempts.
Qed.

Lemma take_total k groups : payload_total (concat (take k groups)) ≤ payload_total (concat groups).
Proof.
  rewrite <- (take_drop k groups) at 2. rewrite concat_app. unfold payload_total. rewrite sum_of_app.
  pose proof (total_nonneg (concat (drop k groups))). unfold payload_total in *. lia.
Qed.

(** The batches committed by a log of which only the first records are left. *)
Lemma surviving_batches attempts whole records absorbed :
  Forall written attempts → Forall local attempts → absorbed < first →
  Forall2 shows (number first (take whole (concat (map attempt_records attempts)))) records →
  committed_batches no_decision records absorbed
  = Ok (attempt_batches first (take (surviving whole attempts) attempts)).
Proof.
  intros Hw Hloc Ha Hshow. rewrite <- (app_nil_l records).
  rewrite (committed_batches_whole no_decision first (cut_log whole (whole_log attempts)));
    [|apply written_log_ok; [|by apply local_log_bound]|done|done|by rewrite log_records_cut, whole_log_records].
  - f_equal. apply cut_whole_log; [|done]. eapply Forall_impl; [exact Hw|]. intros x. apply written_ok.
  - apply (cut_log_attempts _ _ written). unfold whole_log. apply Forall_fmap.
    eapply Forall_impl; [exact Hw|]. done.
Qed.

End History.

(** ** Witnesses *)

Module SampleHistory.
#[local] Existing Instance ToyXxh3.toy.
#[local] Existing Instance ToyXxh3.toy_laws.

Import SampleSegment.

(** A store of arbitrary vectors, and a root that decided nothing. *)
Definition norm : SquaredNorm := λ _, None.
Definition decisions : TransactionDecisions := λ _ _, Ok [].
#[local] Existing Instances quantizer capacity quantizer_laws capacity_laws.
#[local] Existing Instance norm.
#[local] Existing Instance decisions.

Definition schema : Schema := timestamp_only.

(** Two documents in one batch, the first with a text; then the first deleted. *)

Definition batch : IngestBatch :=
  {| ib_documents := [document 4 (Some [Byte.x68; Byte.x69]); document 5 None]; ib_epoch := None |}.
Definition removal : DeleteBatch := {| db_doc_ids := [4]; db_expected := [] |}.

Definition store (a : ActiveState unit) : Store unit :=
  {| st_state := Open; st_epoch_identity := None; st_epoch := None; st_schema := schema;
     st_writer := true; st_active := Some a;
     st_snapshot := Some {| ps_segments := []; ps_absorbed_through := 2 |} |}.

Definition effects (next : Z) : WriteEffects :=
  {| we_prepare := λ _ _, Ok tt; we_commit_many := λ _, Ok next; we_commit_sealed := Ok tt |}.

Definition start : ActiveState unit := {| as_generation := 7; as_segment := active_empty |}.

Definition state_of (r : result IngestError (Outcome (F:=unit))) : ActiveState unit :=
  match r with Ok (Some (_, _, a), _) => a | _ => start end.
Definition records_of (r : result IngestError (Outcome (F:=unit))) : list (Z * bytes) :=
  match r with Ok (Some (_, records, _), _) => records | _ => [] end.

Definition ingested := ingest_attempt (B:=gset Z) (store start) (effects 3) batch.
Definition removed := delete_attempt (store (state_of ingested)) (effects 5) removal.
Definition groups : list (list (Z * bytes)) := [records_of ingested; records_of removed].
Definition image : bytes :=
  match encode_wal_image 3 (concat groups) with Ok b => b | Err _ => [] end.

(** The record of the delete is torn. *)
Definition cut : nat := length image - 1.

Lemma sample_document_ok id text :
  is_u128 id → (∀ t, text = Some t → utf8_valid t = true) → document_ok (document id text).
Proof.
  intros Hi Ht. split; cbn; try done.
  - apply Forall_cons; split; [by vm_compute|]. apply Forall_singleton. by vm_compute.
Qed.

Lemma batch_ok : Forall document_ok (ib_documents batch).
Proof.
  apply Forall_cons; split; [|apply Forall_singleton]; (apply sample_document_ok; [by vm_compute|]).
  - by intros t [= <-].
  - done.
Qed.

Lemma ingested_ok : ∃ ack, ingested = Ok (Some (3, records_of ingested, state_of ingested), ack).
Proof. eexists. by vm_compute. Qed.

Lemma removed_ok : ∃ ack, removed = Ok (Some (5, records_of removed, state_of removed), ack).
Proof. eexists. by vm_compute. Qed.

Lemma small (records : list (Z * bytes)) :
  forallb (λ r, len r.2 <=? isize_max) records = true → payloads_small records.
Proof.
  intros H. apply Forall_forall. intros r Hr. apply Z.leb_le.
  rewrite List.forallb_forall in H. by apply H, list_elem_of_In.
Qed.

Lemma lengths :
  len (records_of ingested) = 2 ∧ len (records_of removed) = 1
  ∧ forallb (λ r, len r.2 <=? isize_max) (records_of ingested) = true
  ∧ forallb (λ r, len r.2 <=? isize_max) (records_of removed) = true.
Proof. by vm_compute. Qed.

Lemma removal_ok : Forall is_u128 (db_doc_ids removal).
Proof. apply Forall_singleton. by vm_compute. Qed.

Lemma sample_history :
  history (B:=gset Z) schema 7 3 [records_of ingested] 5 (state_of ingested)
  ∧ history (B:=gset Z) schema 7 3 groups 6 (state_of removed).
Proof.
  destruct lengths as (L1 & L2 & S1 & S2).
  destruct ingested_ok as [ack1 E1]. destruct removed_ok as [ack2 E2].
  assert (history (B:=gset Z) schema 7 3 [records_of ingested] 5 (state_of ingested)) as H1.
  { pose proof (history_ingest (B:=gset Z) schema 7 3 [] 3 start (store start) (effects 3) batch
      (records_of ingested) (state_of ingested) ack1 (history_open schema 7 3) eq_refl eq_refl batch_ok
      (small _ S1) E1) as H. rewrite L1 in H. exact H. }
  split; [exact H1|].
  pose proof (history_delete (B:=gset Z) schema 7 3 _ 5 _ (store (state_of ingested)) (effects 5) removal
    (records_of removed) (state_of removed) ack2 H1 eq_refl eq_refl removal_ok (small _ S2) E2) as H.
  rewrite L2 in H. exact H.
Qed.

Lemma history_image_ok : encode_wal_image 3 (concat groups) = Ok image.
Proof. by vm_compute. Qed.

Lemma image_bounds :
  len image ≤ isize_max ∧ WAL_HEADER_LEN ≤ Z.of_nat cut ∧ (cut ≤ length image)%nat.
Proof. split; [by vm_compute|]. split; [by vm_compute|]. apply Nat.leb_le. by vm_compute. Qed.

Lemma history_records_small :
  Forall (λ r, len (record_bytes r) ≤ DEFAULT_MAX_GROUP_BYTES_DURABLE) (number 3 (concat groups)).
Proof. apply (bool_decide_unpack _). by vm_compute. Qed.

(** The cut leaves the two records of the ingest. *)
Lemma two_survive :
  length (survivors (number 3 (concat groups)) cut) = 2%nat
  ∧ map length groups = [2%nat; 1%nat].
Proof. by vm_compute. Qed.

Lemma k_is_one (k : nat) :
  (length (concat (take k groups)) ≤ 2)%nat →
  ((k < length groups)%nat → (2 < length (concat (take (S k) groups)))%nat) →
  (k ≤ length groups)%nat → k = 1%nat.
Proof.
  assert (length (concat (take 2 groups)) = 3%nat ∧ length (concat (take 1 groups)) = 2%nat
          ∧ length groups = 2%nat) as (H3 & H2 & Hl) by (by vm_compute).
  intros Ha Hb Hk. destruct k as [|[|[|k]]]; [|done| |]; rewrite ?H3, ?H2, ?Hl in *; lia.
Qed.

Definition reopened := cut_interrupted_append SampleBatches.policy (SampleBatches.disk (take cut image)).

Lemma reopened_ok : is_ok reopened.2 = true.
Proof. by vm_compute. Qed.
End SampleHistory.

