(* ===== verification/ActiveTable.v ===== *)
(** * The active segment serves its log as a table

    The contract of the active segment, without rows or buffers: a finite map
    from document id to the last logged document, the sequence of the last
    mutation that touched it, and whether it is alive.  After any history the
    reads of [ActiveSegment] answer exactly what the mutations of its log say. *)

From S2P Require Import Prelude Format Cursor WalRecord WalReplay Durability WalInvariant Vfs Schema Epoch Float Columns Predicate IngestPayload IngestCodec StoreErrors Accounted Bitmap ActiveSegment ActiveSpec ActiveRoom ActiveSteps AtomicBatch AtomicBatchSpec CrashRecovery ActiveIngest ActiveRecovery ActiveReplaySpec ActiveIngestSpec ActiveHistory.

(** ** The table *)

Record Entry : Type := {
  en_seq : Z;
  en_document : IngestDocument;
  en_alive : bool;
}.

Definition deleted (seq : Z) (e : Entry) : Entry :=
  {| en_seq := seq; en_document := en_document e; en_alive := false |}.

Definition table_mutation (t : gmap Z Entry) (member : Z * Z * MutationPayload) : gmap Z Entry :=
  let '(seq, _, mutation) := member in
  match mutation with
  | Upsert d => <[dv_doc_id (id_version d) := {| en_seq := seq; en_document := d; en_alive := true |}]> t
  | Delete ids => foldl (λ t id, alter (deleted seq) id t) t ids
  | _ => t
  end.

Definition table_of (members : list (Z * Z * MutationPayload)) : gmap Z Entry :=
  foldl table_mutation ∅ members.

(** ** The rows implement the table *)

Definition entry_row (v : View) (row : nat) (e : Entry) : Prop :=
  v_rows v !! row = Some (row_of (en_seq e) (en_document e))
  ∧ en_alive e = bool_decide (row ∉ v_dead v).

Record tabled (t : gmap Z Entry) (v : View) : Prop := {
  ta_entry : ∀ id e, t !! id = Some e → ∃ row, find_row id v = Some row ∧ entry_row v row e;
  ta_absent : ∀ id, t !! id = None → find_row id v = None;
  ta_dead : Forall (λ row, (row < length (v_rows v))%nat) (v_dead v);
}.

Lemma tabled_empty : tabled ∅ view_empty.
Proof. split; [intros id e; by rewrite lookup_empty|done|constructor]. Qed.

(** Two ids never share a row. *)
Lemma find_row_inj id id' v row : find_row id v = Some row → find_row id' v = Some row → id = id'.
Proof.
  intros (r & Hr & <-)%find_row_lookup (r' & Hr' & <-)%find_row_lookup. by assert (r = r') as -> by congruence.
Qed.

Lemma upsert_row_new d v : find_row (dv_doc_id (id_version d)) v = None → upsert_row d v = length (v_rows v).
Proof. intros E. unfold upsert_row. by rewrite E. Qed.

Lemma upsert_lookup d v row :
  v_rows (view_upsert d v) !! row = if decide (row = upsert_row d v) then Some (row_of 0 d) else v_rows v !! row.
Proof.
  unfold view_upsert, upsert_row. destruct (find_row _ v) as [x|] eqn:E; cbn.
  - destruct (find_row_lookup _ _ _ E) as (y & Hy%lookup_lt_Some & _).
    case_decide as Hd; [subst; by apply list_lookup_insert_eq|by apply list_lookup_insert_ne].
  - case_decide as Hd; [subst; by rewrite list_lookup_middle|].
    destruct (decide (row < length (v_rows v))%nat) as [Hl|Hl]; [by rewrite lookup_app_l|].
    rewrite (proj2 (lookup_ge_None _ _)); [|rewrite length_app; cbn; lia].
    symmetry. apply lookup_ge_None. lia.
Qed.

Lemma upsert_dead d v row :
  Forall (λ row, (row < length (v_rows v))%nat) (v_dead v) →
  row ∈ v_dead (view_upsert d v) ↔ row ∈ v_dead v ∧ row ≠ upsert_row d v.
Proof.
  intros Hd. unfold view_upsert, upsert_row. destruct (find_row _ v) as [x|] eqn:E; cbn.
  - rewrite list_elem_of_filter. tauto.
  - split; [|by intros [? _]]. intros Hin. split; [done|]. rewrite Forall_forall in Hd.
    specialize (Hd row Hin). lia.
Qed.

Lemma tabled_upsert t v seq op d :
  tabled t v → tabled (table_mutation t (seq, op, Upsert d)) (view_mutation v (seq, op, Upsert d)).
Proof.
  intros [He Ha Hd]. cbn [table_mutation view_mutation]. set (id := dv_doc_id (id_version d)). split.
  - intros i e. rewrite find_row_sequence, find_row_upsert. fold id. unfold entry_row.
    cbn [view_sequence v_rows v_dead]. rewrite lookup_insert_Some. intros [[<- <-]|[Hne Hi]].
    + rewrite decide_True by done. eexists. split; [done|].
      rewrite list_lookup_alter_eq, upsert_lookup, decide_True by done. split; [done|].
      cbn. symmetry. apply bool_decide_eq_true. rewrite upsert_dead by done. tauto.
    + rewrite decide_False by done. destruct (He _ _ Hi) as (row & Hf & Hr & Hal). exists row. split; [done|].
      assert (row ≠ upsert_row d v) as Hrow.
      { unfold upsert_row. fold id. destruct (find_row id v) as [x|] eqn:E; cbn.
        - intros ->. apply Hne. by eapply find_row_inj.
        - apply lookup_lt_Some in Hr. lia. }
      rewrite list_lookup_alter_ne, upsert_lookup, decide_False by done. split; [done|].
      rewrite Hal. apply bool_decide_ext. rewrite upsert_dead by done. tauto.
  - intros i. rewrite find_row_sequence, find_row_upsert. fold id. rewrite lookup_insert_None.
    intros [Hi Hne]. rewrite decide_False by done. by apply Ha.
  - cbn. rewrite length_alter. apply Forall_forall. intros row Hin%upsert_dead; [|done].
    rewrite Forall_forall in Hd. specialize (Hd row (proj1 Hin)).
    unfold view_upsert. destruct (find_row _ v); cbn; [by rewrite length_insert|rewrite length_app; lia].
Qed.

Lemma tabled_kill t v seq id : tabled t v → tabled (alter (deleted seq) id t) (view_kill seq v id).
Proof.
  intros [He Ha Hd]. split.
  - intros i e. rewrite find_row_kill, lookup_alter_Some. intros [(-> & e0 & Hi & ->)|[Hne Hi]].
    + destruct (He _ _ Hi) as (row & Hf & Hr & Hal). exists row. split; [done|].
      unfold view_kill, entry_row. rewrite Hf. cbn [view_sequence view_dead v_rows v_dead].
      rewrite list_lookup_alter_eq, Hr. split; [done|]. cbn. symmetry. apply bool_decide_eq_false.
      rewrite elem_of_kill. intros Hn. apply Hn. by left.
    + destruct (He _ _ Hi) as (row & Hf & Hr & Hal). exists row. split; [done|].
      unfold view_kill, entry_row. destruct (find_row id v) as [x|] eqn:E; [|done].
      cbn [view_sequence view_dead v_rows v_dead].
      assert (row ≠ x) as Hrx by (intros ->; apply Hne; by eapply find_row_inj).
      rewrite list_lookup_alter_ne by done. split; [done|]. rewrite Hal. apply bool_decide_ext.
      rewrite elem_of_kill. tauto.
  - intros i Hi. rewrite find_row_kill. apply Ha. rewrite lookup_alter in Hi. case_decide as E; [|done].
    subst id. by destruct (t !! i).
  - unfold view_kill. destruct (find_row id v) as [x|] eqn:E; [|done]. cbn. rewrite length_alter.
    apply Forall_kill; [done|]. destruct (find_row_lookup _ _ _ E) as (y & Hy & _). by apply lookup_lt_Some in Hy.
Qed.

Lemma tabled_mutation t v m : tabled t v → tabled (table_mutation t m) (view_mutation v m).
Proof.
  destruct m as [[seq op] m]. destruct m as [|d|ids| |]; try done; [apply tabled_upsert|].
  cbn [table_mutation view_mutation]. revert t v. induction ids as [|id ids IH]; intros t v Ht; [done|].
  cbn [foldl]. by apply IH, tabled_kill.
Qed.

Lemma tabled_replay members : ∀ t v,
  tabled t v → tabled (foldl table_mutation t members) (view_replay members v).
Proof.
  unfold view_replay. induction members as [|m members IH]; intros t v Ht; [done|]. cbn [foldl].
  by apply IH, tabled_mutation.
Qed.

(** The documents of the table were logged. *)
Lemma table_documents members : ∀ t (P : IngestDocument → Prop),
  (∀ id e, t !! id = Some e → P (en_document e)) → Forall P (docs_of members) →
  ∀ id e, foldl table_mutation t members !! id = Some e → P (en_document e).
Proof.
  induction members as [|[[seq op] m] members IH]; intros t P Ht Hd; [done|]. cbn [foldl].
  rewrite docs_of_cons in Hd. destruct m as [|d|ids| |]; cbn [snd] in Hd; try (by apply IH).
  - apply Forall_cons in Hd as [Hd Hds]. apply IH; [|done]. intros id e. cbn.
    rewrite lookup_insert_Some. intros [[_ <-]|[_ Hi]]; [done|]. by eapply Ht.
  - apply IH; [|done]. clear IH Hd. cbn. revert t Ht. induction ids as [|i ids IHi]; intros t Ht; [done|].
    cbn [foldl]. apply IHi. intros id e. rewrite lookup_alter_Some.
    intros [(-> & e0 & Hi & ->)|[_ Hi]]; cbn; by eapply Ht.
Qed.

(** ** Reads *)

Section Reads.
Context {F : Type} {Q : Quantizer F} {K : HashCapacity}.
Implicit Types (s : ActiveSegment F) (v : View).

Lemma read_metadata v s row r : holds v s → v_rows v !! row = Some r → active_metadata s row = Some (r_metadata r).
Proof.
  intros Hh Hr. unfold active_metadata. rewrite (row_bytes_hold _ _ _ (ho_metadata _ _ Hh)).
  by rewrite map_lookup, Hr.
Qed.

Lemma in_range v s row r : holds v s → v_rows v !! row = Some r → (row_count s <=? row)%nat = false.
Proof. intros Hh Hr%lookup_lt_Some. rewrite (holds_row_count _ _ Hh). by apply Nat.leb_gt. Qed.

Lemma read_text v s row r :
  holds v s → v_rows v !! row = Some r → (∀ t, r_text r = Some t → utf8_valid t = true) →
  active_text s row = Ok (r_text r).
Proof.
  intros Hh Hr Hu. unfold active_text. rewrite (in_range _ _ _ _ Hh Hr), (holds_tracks_text _ _ Hh).
  destruct (ho_text _ _ Hh) as (Rt & Hp & Hn). destruct (v_text v); cbn [negb].
  - rewrite Hp, map_lookup, Hr. cbn [fmap option_fmap option_map ok_or]. rsimpl.
    rewrite (row_bytes_hold _ _ _ Rt), map_lookup, Hr. cbn [fmap option_fmap option_map ok_or].
    unfold compose. destruct (r_text r) as [t|] eqn:E; cbn [text_flag default]; [|done].
    change (id t) with t. change (1 <? 1) with false. rsimpl. change (1 =? 0) with false.
    by rewrite (Hu t eq_refl).
  - by rewrite (Forall_lookup_1 _ _ _ _ Hn Hr).
Qed.

Lemma column_image_decodes columns :
  columns_encode columns → Forall column_ok columns → len (column_image columns) ≤ isize_max →
  decode_column_values (column_image columns) = Ok columns.
Proof.
  intros He Hok Hl. destruct (encode_typed_columns_Ok _ _ _ He Hok) as (enc & E & Hr). rewrite E in Hl |- *.
  unfold decode_column_values. apply run_reads_end; [|done].
  by apply (reads_end_finish decode_typed_columns id).
Qed.

Lemma read_columns v s row r :
  holds v s → v_rows v !! row = Some r → Forall column_ok (r_columns r) →
  len (column_image (r_columns r)) ≤ isize_max → column_values s row = Ok (r_columns r).
Proof.
  intros Hh Hr Hok Hl. unfold column_values. rewrite (in_range _ _ _ _ Hh Hr), (holds_tracks_columns _ _ Hh).
  destruct (ho_columns _ _ Hh) as (Rc & Hn). destruct (v_columns v); cbn [negb].
  - rewrite (row_bytes_hold _ _ _ Rc), map_lookup, Hr. cbn [fmap option_fmap option_map ok_or]. rsimpl.
    destruct Hn as [_ Hn]. unfold compose. rewrite column_image_decodes; [done|..|done|done].
    by apply (Forall_lookup_1 _ _ _ _ Hn Hr).
  - by rewrite (Forall_lookup_1 _ _ _ _ Hn Hr).
Qed.

Lemma read_tombstone v s row r :
  holds v s → v_rows v !! row = Some r → is_tombstoned s row = bool_decide (row ∈ v_dead v).
Proof.
  intros Hh Hr%lookup_lt_Some. unfold is_tombstoned. pose proof (ho_small _ _ Hh) as Hs. unfold len in Hs.
  rewrite try_from_total by lia. rewrite (ho_dead _ _ Hh). apply bool_decide_ext, elem_of_Z_of_nat.
Qed.

(** What the reads answer for a document of the table. *)
Definition serves s (id : DocId) (e : Entry) : Prop :=
  ∃ row,
    existing s id = Some (row, id_version (en_document e), en_seq e)
    ∧ is_tombstoned s row = negb (en_alive e)
    ∧ active_metadata s row = Some (id_metadata (en_document e))
    ∧ active_text s row = Ok (id_text (en_document e))
    ∧ column_values s row = Ok (id_columns (en_document e)).

Lemma tabled_serves t v s :
  holds v s → tabled t v →
  (∀ id e, t !! id = Some e → document_ok (en_document e) ∧ volume (en_document e) ≤ isize_max) →
  ∀ id, match t !! id with Some e => serves s id e | None => existing s id = None end.
Proof.
  intros Hh [He Ha _] Hok id. destruct (t !! id) as [e|] eqn:E.
  2:{ rewrite (existing_find _ _ _ Hh). by rewrite (Ha _ E). }
  destruct (He _ _ E) as (row & Hf & Hr & Hal). destruct (Hok _ _ E) as [Hd Hvol].
  exists row. split_and!.
  - rewrite (existing_find _ _ _ Hh), Hf. cbn. rewrite Hr. cbn. by destruct (id_version (en_document e)).
  - rewrite (read_tombstone _ _ _ _ Hh Hr), Hal. by rewrite bool_decide_not, negb_involutive.
  - apply (read_metadata _ _ _ _ Hh Hr).
  - apply (read_text _ _ _ _ Hh Hr). apply Hd.
  - apply (read_columns _ _ _ _ Hh Hr); [apply Hd|]. cbn. unfold volume in Hvol.
    pose proof (len_nonneg (id_vector (en_document e))). pose proof (len_nonneg (id_metadata (en_document e))).
    assert (0 ≤ text_len (en_document e)) by apply len_nonneg. lia.
Qed.
End Reads.

Section Contract.
Context {X : Xxh3} {F : Type} {Q : Quantizer F} {K : HashCapacity} {N : SquaredNorm}.
Context {B : Type} {R : Roaring B} {QL : QuantizerLaws F} {KL : HashCapacityLaws}.

(** C3: The active segment implements a table of documents. After any history of
    accepted ingests and deletes, read the mutations back from the log they
    appended: for every document id, the id map, version, sequence, tombstone,
    metadata, text and columns the segment returns are those of the last upsert of
    that id in the log (deleted if a later record deletes it, and then with the
    sequence of that delete), and an id with no upsert is not found. *)
Theorem active_segment_serves_log (schema : Schema) (generation first : Z)
    (groups : list (list (Z * bytes))) (next : Z) (a : ActiveState F) (records : list VisibleRecord)
    (members : list (Z * Z * MutationPayload)) :
  history (B:=B) schema generation first groups next a →
  Forall2 shows (number first (concat groups)) records →
  committed_mutations records (first - 1) = Ok members →
  ∀ id, match table_of members !! id with
        | Some e => serves (as_segment a) id e
        | None => existing (as_segment a) id = None
        end.
Proof using QL KL.
  intros Hh Hshow Hm. destruct (history_described _ _ _ _ _ _ Hh) as (attempts & Hd).
  assert (members = members_of first attempts) as ->.
  { unfold committed_mutations, committed_mutations_with_decisions in Hm.
    rewrite (surviving_batches first attempts (length (concat groups)) records (first - 1)) in Hm.
    - rsimpl in Hm. injection Hm as <-. unfold members_of. by rewrite <- (de_records _ _ _ _ _ _ _ Hd), take_surviving_all.
    - apply Hd.
    - apply Hd.
    - lia.
    - by rewrite (de_records _ _ _ _ _ _ _ Hd), firstn_all. }
  eapply tabled_serves; [apply Hd|apply tabled_replay, tabled_empty|].
  apply (table_documents _ _ (λ d, document_ok d ∧ volume d ≤ isize_max)); [by intros id e; rewrite lookup_empty|].
  apply Hd.
Qed.
End Contract.

(** ** Witnesses *)

Module SampleTable.
Definition records : list VisibleRecord :=
  map (recovered_visible (X:=ToyXxh3.toy)) (number 3 (concat SampleHistory.groups)).
Definition members : list (Z * Z * MutationPayload) :=
  match committed_mutations (X:=ToyXxh3.toy) records 2 with Ok m => m | Err _ => [] end.

Lemma members_ok : committed_mutations (X:=ToyXxh3.toy) records (3 - 1) = Ok members.
Proof. by vm_compute. Qed.

Lemma records_shown : Forall2 (shows (X:=ToyXxh3.toy)) (number 3 (concat SampleHistory.groups)) records.
Proof.
  assert (Forall record_ok (number 3 (concat SampleHistory.groups))) as Hok
    by (apply (bool_decide_unpack _); by vm_compute).
  unfold records. induction Hok as [|r l Hr _ IH]; cbn [map]; constructor; [|exact IH].
  split_and!; [done|done|exact (visible_payload_recovered (L:=ToyXxh3.toy_laws) r Hr)].
Qed.

(** Document 4 was deleted by the record with sequence 5; document 5 is alive. *)
Definition entry (seq id : Z) (text : option bytes) (alive : bool) : Entry :=
  {| en_seq := seq; en_document := SampleSegment.document id text; en_alive := alive |}.

Lemma members_entries :
  table_of members !! 4 = Some (entry 5 4 (Some [Byte.x68; Byte.x69]) false)
  ∧ table_of members !! 5 = Some (entry 4 5 None true)
  ∧ table_of members !! 6 = None.
Proof. split_and!; by vm_compute. Qed.
End SampleTable.

Lemma active_segment_serves_log_witness :
  let s := as_segment (SampleHistory.state_of SampleHistory.removed) in
  serves s 4 (SampleTable.entry 5 4 (Some [Byte.x68; Byte.x69]) false)
  ∧ serves s 5 (SampleTable.entry 4 5 None true)
  ∧ existing s 6 = None.
Proof.
  intros s. destruct SampleTable.members_entries as (E4 & E5 & E6).
  pose proof (active_segment_serves_log (X:=ToyXxh3.toy) (QL:=SampleSegment.quantizer_laws)
    (KL:=SampleSegment.capacity_laws) SampleHistory.schema 7 3 SampleHistory.groups 6
    (SampleHistory.state_of SampleHistory.removed) SampleTable.records SampleTable.members
    (proj2 SampleHistory.sample_history) SampleTable.records_shown SampleTable.members_ok) as H.
  pose proof (H 4) as H4. pose proof (H 5) as H5. pose proof (H 6) as H6.
  rewrite E4 in H4. rewrite E5 in H5. rewrite E6 in H6.
  split; [exact H4|]. split; [exact H5|exact H6].
Defined.
