(* ===== verification/Snapshot.v ===== *)
(** * Published snapshots

    Models the loading part of [crates/zeppelin-embed/src/lifecycle/snapshot.rs]:
    the readers of the segments a manifest names, those of the published epoch
    first; the opening of one of them against its manifest entry
    ([SegmentReader::open_accounted], [validate_header_with_vfs] of
    [segment/reader.rs]); the graph profile of an epoch ([graph/search.rs]); and
    [open_manifest] of [manifest/io.rs].

    Memory budgets and the mapping reservation are not modelled; the readers'
    drain signal belongs to the store lifecycle. *)

From S2P Require Import Prelude Format WalRecord WalReplay Schema Epoch Manifest Vfs ManifestIo SegmentLayout SegmentReader SegmentRows StoreErrors AtomicBatch.

(** ** The graph profile of an epoch *)

Inductive GraphDistanceMetric : Type := SquaredL2.

Inductive EpochGraphProfile : Type := SiftClass | AngularClass.

Record GraphProfileShape : Type := {
  gs_document_dims : Z;
  gs_document_normalization : Normalization;
  gs_query_dims : Z;
  gs_query_normalization : Normalization;
  gs_metric : GraphDistanceMetric;
}.

Inductive GraphProfileError : Type :=
| ProfileEpochUnstamped
| ProfileEpochNotRegistered (epoch : EpochIdentity)
| ProfileUnrecognizedEpochShape (epoch : EpochIdentity) (shape : GraphProfileShape).

Definition select_epoch_graph_profile (epoch : EpochMeta) (metric : GraphDistanceMetric)
    : result GraphProfileError EpochGraphProfile :=
  let identity := {| ei_embedding := em_id epoch; ei_tokenizer := em_tokenizer epoch |} in
  let document := ee_document (em_embedding epoch) in
  let query := ee_query (em_embedding epoch) in
  let shape := {| gs_document_dims := tw_dims document;
                  gs_document_normalization := tw_normalization document;
                  gs_query_dims := tw_dims query;
                  gs_query_normalization := tw_normalization query;
                  gs_metric := metric |} in
  let refused := Err (ProfileUnrecognizedEpochShape identity shape) in
  match metric with
  | SquaredL2 =>
      if gs_document_dims shape =? gs_query_dims shape then
        match gs_document_normalization shape, gs_query_normalization shape with
        | NormalizationNone, NormalizationNone => Ok SiftClass
        | L2, L2 => Ok AngularClass
        | _, _ => refused
        end
      else refused
  end.

(** ** Segments of a manifest *)

Section Open.
Context {X : Xxh3} {S : Type} `{Vfs S}.

(** [MappedFile::open] on the file [open_for_map] opens. *)
Definition map_file (path : string) (s : S) : result SegmentError bytes :=
  mapping ← map_err (SegmentIo path) (v_open_for_map path s);
  if len mapping =? 0 then Err (seg_format path CheckLength) else Ok mapping.

(** [SegmentReader::open]. *)
Definition open_path (path : string) (expected_id : bytes) (s : S) : result SegmentError SegmentReader :=
  mapping ← map_file path s;
  segment_open path mapping expected_id.

(** [SegmentReader::open_accounted], less the budget. *)
Definition open_accounted (path : string) (expected : SegmentMeta) (collection_schema : Schema) (s : S)
    : result StoreError SegmentReader :=
  mapping ← map_err StoreSegment (map_file path s);
  _ ← map_err StoreSegment (preflight_region_count path mapping (len mapping));
  parsed ← map_err StoreSegment (parse_segment_header path mapping (len mapping) (sm_id expected));
  if negb (same_segment_file (ph_meta parsed) expected) then Err (StoreSegment SegmentGeometry)
  else
  words ← map_err StoreSegment (rescore_validation_words (ph_entries parsed));
  Ok {| sr_mapping := mapping; sr_meta := expected; sr_header_length := ph_header_length parsed;
        sr_entries := ph_entries parsed; sr_document_versions_validation := None;
        sr_collection_schema := Some collection_schema; sr_document_version_index_cache := None;
        sr_gates := closed_gates words |}.

(** The header of a segment file, read through the interface without a mapping. *)
Definition validate_header_with_vfs (path : string) (expected : SegmentMeta) (s : S)
    : result SegmentError Z :=
  actual_length ← map_err (SegmentIo path) (v_open path s);
  header_bytes ← map_err (SegmentIo path) (v_read_range path 0 FILE_HEADER_LEN s);
  fixed ← map_err SegmentFormat (decode_header path Segment header_bytes);
  header_length ← ok_or (try_from usize_max (fh_header_length fixed)) SegmentGeometry;
  _ ← validate_bounded_header_length path header_length actual_length;
  let remaining := saturating_sub header_length FILE_HEADER_LEN in
  header_bytes ← (if 0 <? remaining
                  then tail ← map_err (SegmentIo path) (v_read_range path FILE_HEADER_LEN remaining s);
                       Ok (header_bytes ++ tail)
                  else Ok header_bytes);
  parsed ← parse_segment_header path header_bytes actual_length (sm_id expected);
  if negb (same_segment_file (ph_meta parsed) expected) then Err SegmentGeometry
  else Ok header_length.

Definition segment_is_published (alias : option EpochIdentity) (segment : SegmentMeta) : bool :=
  match alias with
  | None => true
  | Some identity => bool_decide (sm_epoch_id segment = Some (ei_embedding identity))
  end.

(** ** Snapshots *)

(** [PublishedSnapshot]. *)
Record LoadedSnapshot : Type := {
  ls_generation : Z;
  ls_absorbed_through : Z;
  ls_graph_absorbed_through : Z;
  ls_epoch_alias : option EpochIdentity;
  ls_graph_profile : result GraphProfileError EpochGraphProfile;
  ls_schema : Schema;
  ls_segments : list SegmentReader;
  ls_query_segment_count : Z;
}.

(** [empty_with_signal]. *)
Definition snapshot_empty (generation : Z) : LoadedSnapshot :=
  {| ls_generation := generation; ls_absorbed_through := 0; ls_graph_absorbed_through := 0;
     ls_epoch_alias := None; ls_graph_profile := Err ProfileEpochUnstamped;
     ls_schema := timestamp_only; ls_segments := []; ls_query_segment_count := 0 |}.

(** [PublishedSnapshot::segments]. *)
Definition query_segments (snapshot : LoadedSnapshot) : list SegmentReader :=
  default [] (slice_to (ls_segments snapshot) (ls_query_segment_count snapshot)).

(** The published entries, then the others. *)
Definition ordered_segments (manifest : Manifest) : list SegmentMeta :=
  List.filter (segment_is_published (mf_epoch_alias manifest)) (mf_segments manifest)
  ++ List.filter (λ segment, negb (segment_is_published (mf_epoch_alias manifest) segment))
       (mf_segments manifest).

Fixpoint open_segments (collection_schema : Schema) (expected : list SegmentMeta) (s : S)
    : result StoreError (list SegmentReader) :=
  match expected with
  | [] => Ok []
  | meta :: expected =>
      reader ← open_accounted (segment_file_name (sm_id meta)) meta collection_schema s;
      _ ← map_err StoreSegment (stored_text reader);
      readers ← open_segments collection_schema expected s;
      Ok (reader :: readers)
  end.

Fixpoint mapped_bytes (total : Z) (segments : list SegmentReader) : result StoreError Z :=
  match segments with
  | [] => Ok total
  | segment :: segments =>
      total ← ok_or (checked_add u64_max total (len (sr_mapping segment))) (StoreStatistics "mapped bytes");
      mapped_bytes total segments
  end.

Definition graph_profile_of (manifest : Manifest) : result GraphProfileError EpochGraphProfile :=
  match mf_epoch_alias manifest with
  | None => Err ProfileEpochUnstamped
  | Some alias =>
      epoch ← ok_or (List.find (λ epoch, bool_decide (em_id epoch = ei_embedding alias)
                                         && bool_decide (em_tokenizer epoch = ei_tokenizer alias))
                       (mf_epochs manifest))
                (ProfileEpochNotRegistered alias);
      select_epoch_graph_profile epoch SquaredL2
  end.

Definition from_manifest (manifest : Manifest) (s : S) : result StoreError LoadedSnapshot :=
  segments ← open_segments (mf_schema manifest) (ordered_segments manifest) s;
  _ ← mapped_bytes 0 segments;
  Ok {| ls_generation := mf_generation manifest; ls_absorbed_through := mf_log_seq manifest;
        ls_graph_absorbed_through := mf_log_seq manifest;
        ls_epoch_alias := mf_epoch_alias manifest; ls_graph_profile := graph_profile_of manifest;
        ls_schema := mf_schema manifest; ls_segments := segments;
        ls_query_segment_count :=
          len (List.filter (segment_is_published (mf_epoch_alias manifest)) (mf_segments manifest)) |}.

(** [WalReader::open] on the store's log; replay always answers
    ([reader_open_ok]). *)
Definition open_log (path : string) (s : S) : result StoreError WalReader :=
  match reader_open (v_read path s) with
  | Some opened => map_err StoreWal opened
  | None => Err (StoreSynchronization "WAL replay")
  end.

Fixpoint probe_headers (expected : list SegmentMeta) (s : S) : result StoreError unit :=
  match expected with
  | [] => Ok tt
  | meta :: expected =>
      _ ← map_err StoreSegment (validate_header_with_vfs (segment_file_name (sm_id meta)) meta s);
      probe_headers expected s
  end.

(** [load_impl], with the manifest at its committed name. *)
Definition load_impl (probe_segment_headers : bool) (s : S) : result StoreError LoadedSnapshot :=
  match v_open MANIFEST_FILE s with
  | Err NotFound => Ok (snapshot_empty 0)
  | Err k => Err (StoreIo MANIFEST_FILE k)
  | Ok _ =>
      wal ← open_log WAL_FILE s;
      _ ← match rd_terminator wal with
          | Some (InvalidHeader HeaderMissing) => Ok tt
          | Some (InvalidHeader reason) => Err (StoreWalRecovery (RecoveryInvalidHeader reason))
          | _ => Ok tt
          end;
      manifest ← map_err StoreManifest (load_manifest MANIFEST_FILE (rd_durable_end wal) s);
      _ ← match rd_terminator wal with
          | None | Some (InvalidHeader HeaderMissing) => Ok tt
          | _ => _ ← map_err StoreWalRecovery (into_clean wal); Ok tt
          end;
      _ ← (if probe_segment_headers then probe_headers (mf_segments manifest) s else Ok tt);
      from_manifest manifest s
  end.

Definition load_on_vfs (s : S) : result StoreError LoadedSnapshot := load_impl false s.

(** ** Opening a store from its manifest *)

Record OpenManifest : Type := {
  om_manifest : Manifest;
  om_bytes_reclaimed : Z;
  om_bytes_read : Z;
}.

Fixpoint touch_headers (expected : list SegmentMeta) (header_bytes : Z) (s : S) : result ManifestError Z :=
  match expected with
  | [] => Ok header_bytes
  | meta :: expected =>
      touched ← map_err (λ _, ManifestSegment)
                  (validate_header_with_vfs (segment_file_name (sm_id meta)) meta s);
      touch_headers expected (saturating_add u64_max header_bytes touched) s
  end.

(** [durable_end] is that of the log the caller supplies. *)
Definition open_manifest (durable_end : Z) (writing_exclusions : list string) (s : S)
    : S * result ManifestError OpenManifest :=
  match manifest_file_length ← map_err (ManifestIo MANIFEST_FILE) (v_open MANIFEST_FILE s);
        manifest ← load_manifest MANIFEST_FILE durable_end s;
        header_bytes ← touch_headers (mf_segments manifest) 0 s;
        Ok (manifest_file_length, manifest, header_bytes) with
  | Err e => (s, Err e)
  | Ok (manifest_file_length, manifest, header_bytes) =>
      match sweep_orphans manifest writing_exclusions s with
      | (s, Err e) => (s, Err e)
      | (s, Ok bytes_reclaimed) =>
          (s, Ok {| om_manifest := manifest; om_bytes_reclaimed := bytes_reclaimed;
                    om_bytes_read := saturating_add u64_max manifest_file_length header_bytes |})
      end
  end.
End Open.
