(* ===== verification/StoreWal.v ===== *)
(** * The store's log and the publication guard

    Models [StoreWal] and [ManifestPublication] of
    [crates/zeppelin-embed/src/ingest/active.rs]: the log writer a store owns, the
    replacement of its file by a shorter image, and the guard that fails the
    writer when a publication is abandoned after it changed files.

    A store calls these holding the mutex every commit of its writer runs under,
    so no commit is in flight; [idle] is that condition.  The byte accounting of
    retained records is not modelled. *)

From S2P Require Import Prelude Format WalRecord WalReplay Durability WalWriter Vfs StoreErrors AtomicBatch Snapshot.

(** ** Errors and state

    The store's operations fail with a [StoreError]. *)
Abbreviation Run S A := (RunE S StoreError A).

(** ** The writer at rest *)

(** Every staged record is durable: [flush] has nothing to wait for. *)
Definition idle (s : WriterState) : bool :=
  match last (ws_visible s) with
  | None => true
  | Some record => match ws_durable_end s with Some d => vr_seq record <=? d | None => false end
  end.

(** [WalWriter::flush] on a writer at rest: it reports a failure and otherwise
    returns.  With a record still pending it would lead or wait, which the
    caller's mutex excludes. *)
Definition flush (s : WriterState) : result StoreError unit :=
  match (flush_begin s).2 with
  | FlushReturn r => map_err StoreWalWrite r
  | FlushWait _ _ => Err (StoreSynchronization "WAL writer")
  end.

(** [durable_end] of the writer. *)
Definition wal_durable_end (w : WalWriter) : Z := ww_durable_progress w.

(** Dropping an armed [ManifestPublication]. *)
Definition fence (w : WalWriter) : WalWriter := with_state (poison OtherKind (ww_state w)) w.

(** What the operations of the log change: the files and the writer. *)
Record LogState (S : Type) : Type := {
  lg_files : S;
  lg_writer : WalWriter;
}.
Arguments lg_files {S} _.
Arguments lg_writer {S} _.

Section Log.
Context {X : Xxh3} {S : Type} `{Vfs S}.

Definition set_files (s : S) (l : LogState S) : LogState S :=
  {| lg_files := s; lg_writer := lg_writer l |}.
Definition set_writer (w : WalWriter) (l : LogState S) : LogState S :=
  {| lg_files := lg_files l; lg_writer := w |}.
Definition fence_log (l : LogState S) : LogState S := set_writer (fence (lg_writer l)) l.

(** An operation of the file system, its error at [path]. *)
Definition on_files {A} (path : string) (f : S → S * result ErrorKind A) : Run (LogState S) A := λ l,
  let '(s, r) := f (lg_files l) in (set_files s l, map_err (StoreIo path) r).

(** [StoreWal::manifest_publication]. *)
Definition manifest_publication : Run (LogState S) unit :=
  run_read (λ l, flush (ww_state (lg_writer l))).

Definition retire_log (absorbed_through : Z) : Run (LogState S) unit := λ l,
  let '(s, r) := WalWriter.retire_visible_through absorbed_through (ww_state (lg_writer l)) in
  (set_writer (with_state s (lg_writer l)) l, map_err StoreWalRetire (_ ← r; Ok tt)).

(** Opening the new log for appending, and the writer that continues it. *)
Definition resume_log (policy : DurabilityPolicy) (b : bytes) (recovered : CleanWalReader)
    : Run (LogState S) unit := λ l,
  let '(s, opened) := v_open_append WAL_FILE (lg_files l) in
  let l := set_files s l in
  let synced := match data_file_sync policy with SyncSkip => 0 | SyncWith _ => len b end in
  match resume recovered opened b synced policy with
  | Ok writer => (set_writer writer l, Ok tt)
  | Err e => (l, Err (StoreWalWrite e))
  end.

(** The last steps of [rewrite], under an armed guard. *)
Definition replace_log (policy : DurabilityPolicy) (b : bytes) (recovered : CleanWalReader)
    : Run (LogState S) unit :=
  (let! _ := on_files WAL_FILE (v_rename CUT_TEMPORARY WAL_FILE) in
   let! _ := resume_log policy b recovered in
   on_files "." (sync_if (directory_sync policy) Directory))%run.

(** [StoreWal::rewrite]; the guard it returns is completed by the caller. *)
Definition rewrite (policy : DurabilityPolicy) (first_seq : Z) (records : list (Z * bytes))
    : Run (LogState S) unit :=
  (let! _ := manifest_publication in
   let! b := run_lift (map_err StoreWalWrite (encode_wal_image first_seq records)) in
   let! _ := on_files CUT_TEMPORARY (v_write CUT_TEMPORARY b) in
   let! _ := on_files CUT_TEMPORARY (sync_if (data_file_sync policy) (File CUT_TEMPORARY)) in
   let! reader := run_read (λ l, open_log CUT_TEMPORARY (lg_files l)) in
   let! recovered := run_lift (map_err StoreWalRecovery (into_clean reader)) in
   let! _ := manifest_publication in
   run_on_error (replace_log policy b recovered) fence_log)%run.

(** [StoreWal::truncate_absorbed]. *)
Definition truncate_absorbed (policy : DurabilityPolicy) (absorbed_through : Z)
    : Run (LogState S) unit :=
  (let! stats := run_get (λ l, stats (ww_state (lg_writer l))) in
   if negb (st_retained_records stats =? 0)
   then run_err (StoreWalRetire (BeyondDurable (default absorbed_through (st_visible_end stats))
                                   (Some absorbed_through)))
   else
   let! first_seq := run_lift (ok_or (checked_add u64_max absorbed_through 1)
                                 (StoreWalWrite SequenceExhausted)) in
   rewrite policy first_seq [])%run.
End Log.
