(* ===== verification/Seal.v ===== *)
(** * Sealing the active segment

    Models [crates/zeppelin-embed/src/ingest/seal.rs] in the build without the
    [graph-cypher] and [test-seams] features: the rows of the active segment are
    written as one immutable segment, a manifest that names it and absorbs the log
    is committed, the snapshot is reloaded, and the log is cut down to a header.

    The encoded lexical index of the segment is the parameter [lexical_region]
    and the check of a postings region by the writer the parameter
    [postings_rows]: both belong to [fts/]. *)

From S2P Require Import Prelude Format WalRecord WalReplay Durability WalWriter Schema Epoch Manifest Vfs ManifestIo Bitmap Columns Predicate IngestPayload SegmentLayout SegmentWriter SegmentReader StoreErrors Accounted ActiveSegment AtomicBatch ActiveIngest Snapshot StoreWal.

(** ** The segment to write *)

(** [u64::to_be_bytes]. *)
Definition u64_be (z : Z) : bytes := rev (u64_le z).

Definition seal_id (generation absorbed_through : Z) : bytes := u64_be generation ++ u64_be absorbed_through.

(** The scheme id of [QuantScheme::Bit4]. *)
Definition BIT4_SCHEME : Z := 4.

Section Build.
Context {B : Type} {R : Roaring B}.
Implicit Types (active : ActiveSegment Bit4Factors).

(** One observation of a cancel token; none means it was not cancelled. *)
Definition observe (cancel : list bool) : bool * list bool :=
  match cancel with
  | [] => (false, [])
  | c :: cancel => (c, cancel)
  end.

(** The loop of [active_columns]: the rows from [row] on.  The token is observed
    at every 64th row. *)
Fixpoint push_active_rows active (row : nat) (timestamps : list Z) (cancel : list bool)
    (builder : ColumnStoreBuilder B) : list bool * result StoreError (ColumnStoreBuilder B) :=
  match timestamps with
  | [] => (cancel, Ok builder)
  | timestamp :: timestamps =>
      let '(cancelled, cancel) := if Z.of_nat row mod 64 =? 0 then observe cancel else (false, cancel) in
      if cancelled then (cancel, Err StoreSealCancelled)
      else
      match column_values active row with
      | Err e => (cancel, Err e)
      | Ok values =>
          match push_row timestamp (column_inputs values) builder with
          | (builder, Ok _) => push_active_rows active (S row) timestamps cancel builder
          | (_, Err _) => (cancel, Err (StoreSegment SegmentColumns))
          end
      end
  end.

Definition active_columns (schema : Schema) active (cancel : list bool)
    : list bool * result StoreError (ColumnStore B) :=
  match push_active_rows active 0 (bf_data (sg_timestamps active)) cancel (builder_new schema) with
  | (cancel, Err e) => (cancel, Err e)
  | (cancel, Ok builder) => (cancel, map_err (λ _, StoreSegment SegmentColumns) (finish builder))
  end.

Definition extend_bounds (bounds : option (Z * Z)) (timestamp : Z) : Z * Z :=
  match bounds with
  | None => (timestamp, timestamp)
  | Some (minimum, maximum) => (Z.min minimum timestamp, Z.max maximum timestamp)
  end.

(** The loop of [clustering_key_range] over the live rows. *)
Fixpoint timestamp_bounds (timestamps : list Z) (rows : list Z) (bounds : option (Z * Z))
    : result StoreError (option (Z * Z)) :=
  match rows with
  | [] => Ok bounds
  | row :: rows =>
      timestamp ← ok_or (timestamps !! Z.to_nat row) StoreActiveRowOverflow;
      timestamp_bounds timestamps rows (Some (extend_bounds bounds timestamp))
  end.

Definition clustering_key_range (timestamps : list Z) (alive : AliveSet B)
    : result StoreError ClusteringKeyRange :=
  bounds ← timestamp_bounds timestamps (iter_alive alive) None;
  Ok (match bounds with
      | Some (min_ts, max_ts) => Bounded min_ts max_ts
      | None => EmptyRange
      end).

(** [has_text]: some row has a text. *)
Definition has_text active : bool := existsb (λ present, present =? 1) (bf_data (sg_text_present active)).

(** [build_seal_payloads], with the document versions written beside them. *)
Definition seal_payloads (lexical_region : ActiveSegment Bit4Factors → result SegmentError bytes) active
    : result StoreError SegmentPayloads :=
  postings ← (if has_text active
              then region ← map_err StoreSegment (lexical_region active); Ok (Some region)
              else Ok None);
  let metadata := bf_data (rb_bytes (sg_metadata active)) in
  Ok {| pl_documents := {| sd_doc_ids := bf_data (sg_doc_ids active);
                           sd_revisions := bf_data (sg_revisions active) |};
        pl_metadata := (if bool_decide (metadata = []) then None
                        else Some {| sx_end_offsets := bf_data (rb_offsets (sg_metadata active));
                                     sx_bytes := metadata |});
        pl_text := (if has_text active
                    then Some {| st_present := map u8_byte (bf_data (sg_text_present active));
                                 st_end_offsets := bf_data (rb_offsets (sg_text active));
                                 st_bytes := bf_data (rb_bytes (sg_text active)) |}
                    else None);
        pl_postings := postings |}.

Definition seal_build active (id : bytes) (dims : Z) (columns : ColumnStore B) (alive : AliveSet B)
    : SegmentBuild B :=
  {| sb_id := id; sb_scheme := BIT4_SCHEME; sb_dims := dims; sb_codes := bf_data (sg_codes active);
     sb_factors := FactorsBit4 (bf_data (sg_factors active)); sb_rescore := bf_data (sg_vectors active);
     sb_columns := columns; sb_alive := alive |}.
End Build.

(** ** Files *)

Section Files.
Context {X : Xxh3} {S : Type} `{Vfs S}.

(** [load_current_manifest]: the committed manifest, or the first one. *)
Definition load_current_manifest (durable_end generation : Z) (schema : Schema) (s : S)
    : result StoreError Manifest :=
  match v_open MANIFEST_FILE s with
  | Ok _ => map_err StoreManifest (load_manifest MANIFEST_FILE durable_end s)
  | Err NotFound =>
      Ok {| mf_generation := generation; mf_log_seq := 0; mf_segments := []; mf_epochs := [];
            mf_epoch_alias := None; mf_schema := schema |}
  | Err k => Err (StoreIo MANIFEST_FILE k)
  end.

(** The loop of [cleanup_uncommitted_segment]. *)
Fixpoint delete_present (paths : list string) (deleted : bool) (s : S) : S * result StoreError bool :=
  match paths with
  | [] => (s, Ok deleted)
  | path :: paths =>
      match v_open path s with
      | Ok _ =>
          match v_delete path s with
          | (s, Ok _) => delete_present paths true s
          | (s, Err k) => (s, Err (StoreIo path k))
          end
      | Err NotFound => delete_present paths deleted s
      | Err k => (s, Err (StoreIo path k))
      end
  end.

Definition cleanup_uncommitted_segment (id : bytes) (policy : DurabilityPolicy) (s : S)
    : S * result StoreError unit :=
  match delete_present [segment_temporary id; segment_file_name id] false s with
  | (s, Err e) => (s, Err e)
  | (s, Ok deleted) =>
      if deleted then
        match sync_if (directory_sync policy) Directory s with
        | (s, Err k) => (s, Err (StoreIo "." k))
        | (s, Ok _) => (s, Ok tt)
        end
      else (s, Ok tt)
  end.
End Files.

(** ** Sealing *)

(** What the store passes to a maintenance operation. *)
Record StoreConfig : Type := {
  sc_schema : Schema;
  sc_epoch : option StoreEpoch;
  sc_policy : DurabilityPolicy;
}.

(** [Store::epoch_registry]. *)
Definition epoch_registry {X : Xxh3} (config : StoreConfig) (prior : list EpochMeta) : list EpochMeta :=
  match prior with
  | [] => match sc_epoch config with
          | Some epoch => [meta_of_store_epoch epoch]
          | None => []
          end
  | _ => prior
  end.

(** The state the operation changes; [sl_cancel] is what the coming observations
    of the cancel token see. *)
Record Sealing (S : Type) : Type := {
  sl_log : LogState S;
  sl_active : option (ActiveState Bit4Factors);
  sl_snapshot : option LoadedSnapshot;
  sl_cancel : list bool;
}.
Arguments sl_log {S} _.
Arguments sl_active {S} _.
Arguments sl_snapshot {S} _.
Arguments sl_cancel {S} _.

Section Seal.
Context {X : Xxh3} {S : Type} `{Vfs S} {B : Type} {R : Roaring B}.
Context (postings_rows : bytes → result SegmentError Z).
Context (lexical_region : ActiveSegment Bit4Factors → result SegmentError bytes).

Definition set_log (l : LogState S) (w : Sealing S) : Sealing S :=
  {| sl_log := l; sl_active := sl_active w; sl_snapshot := sl_snapshot w; sl_cancel := sl_cancel w |}.
Definition set_cancel (cancel : list bool) (w : Sealing S) : Sealing S :=
  {| sl_log := sl_log w; sl_active := sl_active w; sl_snapshot := sl_snapshot w; sl_cancel := cancel |}.
Definition set_published (snapshot : LoadedSnapshot) (active : ActiveState Bit4Factors) (w : Sealing S)
    : Sealing S :=
  {| sl_log := sl_log w; sl_active := Some active; sl_snapshot := Some snapshot; sl_cancel := sl_cancel w |}.

(** An operation of the log, and one of its files. *)
Definition on_log {A} (m : Run (LogState S) A) : Run (Sealing S) A := λ w,
  let '(l, r) := m (sl_log w) in (set_log l w, r).
Definition on_store {A} (f : S → S * result StoreError A) : Run (Sealing S) A :=
  on_log (λ l, let '(s, r) := f (lg_files l) in (set_files s l, r)).
Definition read_store {A} (f : S → result StoreError A) : Run (Sealing S) A :=
  run_read (λ w, f (lg_files (sl_log w))).
Definition fence_store (w : Sealing S) : Sealing S := set_log (fence_log (sl_log w)) w.

(** [check_cancelled]. *)
Definition is_cancelled : Run (Sealing S) bool := λ w,
  let '(cancelled, cancel) := observe (sl_cancel w) in (set_cancel cancel w, Ok cancelled).

(** The rows to write and the manifest they join. *)
Record SealPlan : Type := {
  sp_generation : Z;
  sp_absorbed_through : Z;
  sp_manifest : Manifest;
  sp_range : ClusteringKeyRange;
  sp_build : SegmentBuild B;
  sp_payloads : SegmentPayloads;
}.

(** Everything before the guard is armed. *)
Definition plan_seal (config : StoreConfig) (current : ActiveState Bit4Factors) (absorbed_through : Z)
    : Run (Sealing S) SealPlan :=
  (let active := as_segment current in
   let! generation := run_lift (ok_or (checked_add u64_max (as_generation current) 1) StoreGenerationOverflow) in
   let! manifest := read_store (load_current_manifest absorbed_through (as_generation current) (sc_schema config)) in
   let! columns := (λ w, let '(cancel, r) := active_columns (mf_schema manifest) active (sl_cancel w) in
                         (set_cancel cancel w, r)) in
   let! alive := run_lift (active_alive active) in
   let! range := run_lift (clustering_key_range (bf_data (sg_timestamps active)) alive) in
   let! dims := run_lift (ok_or (sg_dims active) StoreActiveRowOverflow) in
   let! dims := run_lift (ok_or (try_from u32_max dims) StoreActiveRowOverflow) in
   let! payloads := run_lift (seal_payloads lexical_region active) in
   run_ret {| sp_generation := generation; sp_absorbed_through := absorbed_through; sp_manifest := manifest;
              sp_range := range;
              sp_build := seal_build active (seal_id generation absorbed_through) dims columns alive;
              sp_payloads := payloads |})%run.

(** Removing what a failed write left, then its error. *)
Definition remove_failed (config : StoreConfig) (plan : SealPlan) (e : StoreError) : Run (Sealing S) SegmentMeta :=
  (let! _ := on_store (cleanup_uncommitted_segment (sb_id (sp_build plan)) (sc_policy config)) in
   run_err e)%run.

(** Writing the segment file, with the cleanup of a failed write. *)
Definition write_sealed (config : StoreConfig) (plan : SealPlan) : Run (Sealing S) SegmentMeta := λ w,
  match on_store (λ s, let '(s, r) := write_segment_with_documents_payloads postings_rows (sp_build plan)
                                        (sp_payloads plan) (sc_policy config) s in
                       (s, map_err StoreSegment r)) w with
  | (w, Ok meta) => (w, Ok meta)
  | (w, Err e) => remove_failed config plan e w
  end.

Definition sealed_meta (plan : SealPlan) (meta : SegmentMeta) : SegmentMeta :=
  {| sm_id := sm_id meta; sm_row_count := sm_row_count meta; sm_scheme := sm_scheme meta;
     sm_dims := sm_dims meta; sm_file_size := sm_file_size meta;
     sm_epoch_id := ei_embedding <$> mf_epoch_alias (sp_manifest plan);
     sm_clustering_key_range := sp_range plan |}.

Definition sealed_manifest (config : StoreConfig) (plan : SealPlan) (meta : SegmentMeta) : Manifest :=
  {| mf_generation := sp_generation plan; mf_log_seq := sp_absorbed_through plan;
     mf_segments := mf_segments (sp_manifest plan) ++ [sealed_meta plan meta];
     mf_epochs := epoch_registry config (mf_epochs (sp_manifest plan));
     mf_epoch_alias := mf_epoch_alias (sp_manifest plan);
     mf_schema := mf_schema (sp_manifest plan) |}.

(** Committing the manifest and publishing what it names. *)
Definition publish_sealed (config : StoreConfig) (plan : SealPlan) (meta : SegmentMeta)
    : Run (Sealing S) unit :=
  (let! _ := on_store (λ s, let '(s, r) := commit_manifest (sealed_manifest config plan meta)
                                             (sc_policy config) s in (s, map_err StoreManifest r)) in
   let! remapped := read_store load_on_vfs in
   run_put (set_published remapped {| as_generation := sp_generation plan; as_segment := active_empty |}))%run.

(** From the armed guard to its completion: [false] when cancelled. *)
Definition seal_armed (config : StoreConfig) (plan : SealPlan) : Run (Sealing S) bool :=
  (let! meta := write_sealed config plan in
   let! cancelled := is_cancelled in
   if cancelled
   then let! _ := on_store (cleanup_uncommitted_segment (sb_id (sp_build plan)) (sc_policy config)) in
        run_ret false
   else let! _ := publish_sealed config plan meta in run_ret true)%run.

(** [seal_active_locked]: it returns the generation. *)
Definition seal_active_locked (config : StoreConfig) : Run (Sealing S) Z :=
  (let! _ := on_log manifest_publication in
   let! absorbed_through := run_get (λ w, wal_durable_end (lg_writer (sl_log w))) in
   let! current := run_read (λ w, ok_or (sl_active w) StoreClosed) in
   if bool_decide (bf_data (sg_doc_ids (as_segment current)) = []) then run_ret (as_generation current)
   else
   let! plan := plan_seal config current absorbed_through in
   let! published := run_on_error (seal_armed config plan) fence_store in
   if negb published then run_err StoreSealCancelled
   else
   let! _ := on_log (retire_log absorbed_through) in
   let! _ := on_log (truncate_absorbed (sc_policy config) absorbed_through) in
   run_ret (sp_generation plan))%run.

(** [seal_inner]: admission, then the seal. *)
Definition seal_inner (config : StoreConfig) (state : StoreState) (writer_lock : bool)
    : Run (Sealing S) Z :=
  (let! _ := run_lift (match state with
                       | Open => Ok tt
                       | Closing => Err StoreClosing
                       | Closed => Err StoreClosed
                       end) in
   if negb writer_lock then run_err StoreReadOnly
   else
   let! cancelled := is_cancelled in
   if cancelled then run_err StoreSealCancelled else seal_active_locked config)%run.
End Seal.
