(* ===== verification/SealSpec.v ===== *)
(** * A crash during a seal

    Sealing replaces three files in turn: the new segment, the manifest and the
    log.  The lemmas here follow the directory through those steps in the
    file-system model, whatever operations fail, and give the combinations of the
    three a crash can leave. *)

From S2P Require Import Prelude Format WalRecord WalReplay Durability WalWriter Schema Epoch Manifest ManifestCodec Vfs CrashDirectory ManifestIo Bitmap Columns SegmentLayout SegmentWriter SegmentReader StoreErrors Accounted ActiveSegment AtomicBatch ActiveIngest Snapshot StoreWal Seal.

(** ** The three replacements *)

Lemma sync_if_temporary requirement cur P fs temp b fs' r :
  requirement ≠ SyncSkip → hidden temp = true → directory_inv cur P fs → holds_file temp b false fs →
  sync_if requirement (File temp) fs = (fs', r) →
  directory_inv cur P fs' ∧ (r = Ok tt → holds_file temp b true fs').
Proof.
  intros Hr Ht Hi Hh H. destruct requirement as [|kind]; [done|]. by apply (sync_temporary cur P fs temp b kind).
Qed.

Lemma hidden_segment id : hidden (segment_file_name id) = false.
Proof. reflexivity. Qed.

Lemma hidden_temporary id : hidden (segment_temporary id) = true.
Proof. reflexivity. Qed.

Section Replacements.
Context {X : Xxh3}.

Lemma commit_manifest_replaces cur P fs m policy b fs' r :
  directory_inv cur P fs → data_file_sync policy ≠ SyncSkip → encode_manifest m = Ok b →
  commit_manifest m policy fs = (fs', r) →
  replaced MANIFEST_FILE b cur P (directory_sync policy = SyncWith Full) (r = Ok tt) fs'.
Proof.
  intros Hi Hd He H. unfold commit_manifest in H. rewrite He in H.
  destruct (v_write MANIFEST_TEMP_FILE b fs) as [fs1 r1] eqn:E1.
  destruct (write_temporary cur P fs MANIFEST_TEMP_FILE b fs1 r1 eq_refl Hi E1) as [Hi1 Hh1].
  destruct r1 as [[]|k]; [|injection H as <- <-; by apply not_replaced].
  destruct (sync_if _ _ fs1) as [fs2 r2] eqn:E2.
  destruct (sync_if_temporary _ cur P fs1 MANIFEST_TEMP_FILE b fs2 r2 Hd eq_refl Hi1 (Hh1 eq_refl) E2) as [Hi2 Hh2].
  destruct r2 as [[]|k]; [|injection H as <- <-; by apply not_replaced].
  destruct (v_rename _ _ fs2) as [fs3 r3] eqn:E3.
  destruct (replace_target MANIFEST_TEMP_FILE MANIFEST_FILE b cur P fs2 fs3 r3 eq_refl eq_refl Hi2 (Hh2 eq_refl) E3)
    as [Hfail Hok].
  destruct r3 as [[]|k]; [|injection H as <- <-; by apply Hfail].
  destruct (sync_if _ Directory fs3) as [fs4 r4] eqn:E4.
  pose proof (replaced_sync _ _ _ _ _ _ _ _ (Hok eq_refl) E4) as Hrep.
  destruct r4 as [[]|k]; injection H as <- <-; by eapply replaced_success.
Qed.

Context {B : Type} {R : Roaring B}.

Lemma publish_segment_replaces cur P fs (build : SegmentBuild B) policy b fs' r :
  directory_inv cur P fs → data_file_sync policy ≠ SyncSkip →
  publish_segment build policy b fs = (fs', r) →
  replaced (segment_file_name (sb_id build)) b cur P (directory_sync policy = SyncWith Full) (∃ meta, r = Ok meta) fs'.
Proof.
  intros Hi Hd H. unfold publish_segment in H. set (temp := segment_temporary (sb_id build)) in *.
  assert (∀ fs1 e, directory_inv cur P fs1 → r = Err e →
    replaced (segment_file_name (sb_id build)) b cur P (directory_sync policy = SyncWith Full) (∃ meta, r = Ok meta) fs1)
    as Hno by (intros fs1 e Hi1 ->; apply not_replaced; [done|by intros [? ?]]).
  destruct (v_write temp b fs) as [fs1 r1] eqn:E1.
  destruct (write_temporary cur P fs temp b fs1 r1 (hidden_temporary _) Hi E1) as [Hi1 Hh1].
  destruct r1 as [[]|k]; [|injection H as <- <-; by eapply Hno].
  rewrite (file_reads _ _ _ _ (Hh1 eq_refl)), bool_decide_true in H by done. cbn [negb] in H.
  destruct (sync_if _ _ fs1) as [fs2 r2] eqn:E2.
  destruct (sync_if_temporary _ cur P fs1 temp b fs2 r2 Hd (hidden_temporary _) Hi1 (Hh1 eq_refl) E2) as [Hi2 Hh2].
  destruct r2 as [[]|k]; [|injection H as <- <-; by eapply Hno].
  destruct (v_rename _ _ fs2) as [fs3 r3] eqn:E3.
  destruct (replace_target temp (segment_file_name (sb_id build)) b cur P fs2 fs3 r3 (hidden_temporary _)
    (hidden_segment _) Hi2 (Hh2 eq_refl) E3) as [Hfail Hok].
  destruct r3 as [[]|k]; [|injection H as <- <-; apply Hfail; [done|by intros [? ?]]].
  destruct (sync_if _ Directory fs3) as [fs4 r4] eqn:E4.
  pose proof (replaced_sync _ _ _ _ _ _ _ _ (Hok eq_refl) E4) as Hrep.
  destruct r4 as [[]|k]; injection H as <- <-; [by eapply replaced_success|].
  eapply replaced_success; [exact Hrep|]. by intros [? ?].
Qed.

(** *** The log *)

Lemma replace_log_replaces cur P policy b recovered (l l' : LogState Fs) r :
  directory_inv cur P (lg_files l) → holds_file CUT_TEMPORARY b true (lg_files l) →
  replace_log policy b recovered l = (l', r) →
  replaced WAL_FILE b cur P (directory_sync policy = SyncWith Full) (r = Ok tt) (lg_files l').
Proof.
  intros Hi Hh H. unfold replace_log, run_bind, on_files, resume_log in H.
  destruct (v_rename _ _ (lg_files l)) as [fs1 r1] eqn:E1.
  destruct (replace_target CUT_TEMPORARY WAL_FILE b cur P _ fs1 r1 eq_refl eq_refl Hi Hh E1) as [Hfail Hok].
  destruct r1 as [[]|k]; cbn [map_err] in H; [|injection H as <- <-; by apply Hfail].
  cbn [lg_files set_files] in H. destruct (v_open_append WAL_FILE fs1) as [fs2 opened] eqn:E2.
  pose proof (open_append_present _ _ _ WAL_FILE _ _ (Hok eq_refl) eq_refl
    ltac:(eexists; apply put_eq) E2) as Hi2.
  destruct (resume _ _ _ _ _) as [writer|e]; cycle 1.
  { injection H as <- <-. split; [by right|done]. }
  cbn [lg_files set_writer set_files] in H. destruct (sync_if _ Directory fs2) as [fs3 r3] eqn:E3.
  pose proof (replaced_sync _ _ _ _ _ _ _ _ Hi2 E3) as Hrep.
  destruct r3 as [[]|k]; injection H as <- <-; by eapply replaced_success.
Qed.

(** [rewrite]: the old log or the new one, and the new one for good when it
    succeeds under a policy that syncs the directory fully. *)
Lemma rewrite_replaces cur P policy first_seq records (l l' : LogState Fs) r :
  directory_inv cur P (lg_files l) → data_file_sync policy ≠ SyncSkip →
  rewrite policy first_seq records l = (l', r) →
  (directory_inv cur P (lg_files l') ∧ r ≠ Ok tt)
  ∨ ∃ b, encode_wal_image first_seq records = Ok b
         ∧ replaced WAL_FILE b cur P (directory_sync policy = SyncWith Full) (r = Ok tt) (lg_files l').
Proof.
  intros Hi Hd H. unfold rewrite, run_bind, manifest_publication, run_read, run_lift, on_files in H.
  destruct (flush _) as [[]|e]; [|injection H as <- <-; by left].
  destruct (encode_wal_image first_seq records) as [b|e]; [|injection H as <- <-; by left]. cbn [map_err] in H.
  destruct (v_write _ _ _) as [fs1 r1] eqn:E1.
  destruct (write_temporary cur P _ CUT_TEMPORARY b fs1 r1 eq_refl Hi E1) as [Hi1 Hh1].
  destruct r1 as [[]|k]; cbn [map_err] in H; [|injection H as <- <-; by left]. cbn [lg_files set_files] in H.
  destruct (sync_if _ _ fs1) as [fs2 r2] eqn:E2.
  destruct (sync_if_temporary _ cur P fs1 CUT_TEMPORARY b fs2 r2 Hd eq_refl Hi1 (Hh1 eq_refl) E2) as [Hi2 Hh2].
  destruct r2 as [[]|k]; cbn [map_err] in H; [|injection H as <- <-; by left]. cbn [lg_files lg_writer set_files] in H.
  destruct (open_log _ fs2) as [reader|e]; [|injection H as <- <-; by left].
  destruct (into_clean reader) as [recovered|e]; cbn [map_err] in H; [|injection H as <- <-; by left].
  destruct (flush _) as [[]|e]; [|injection H as <- <-; by left]. right. exists b. split; [done|].
  unfold run_on_error in H. destruct (replace_log _ _ _ _) as [l1 r1] eqn:E.
  pose proof (replace_log_replaces cur P _ _ _ (set_files fs2 (set_files fs1 l)) _ _ Hi2 (Hh2 eq_refl) E) as Hrep.
  destruct r1 as [[]|e]; injection H as <- <-; exact Hrep.
Qed.
End Replacements.

(** A directory whose manifest file is the encoding of a manifest loads it. *)
Lemma encoded_manifest_loads {X : Xxh3} {L : Xxh3Laws X} m b durable_end (fs : Fs) :
  manifest_ok m → len (manifest_payload m) + 56 ≤ isize_max → encode_manifest m = Ok b →
  v_read MANIFEST_FILE fs = Ok b → mf_log_seq m ≤ durable_end → load_manifest MANIFEST_FILE durable_end fs = Ok m.
Proof.
  intros Hm Hp He Hr Hle. unfold load_manifest. rewrite Hr. cbn [map_err]. rewrite bind_Ok.
  assert (validate_epoch_references m = Ok tt) as Hv by (unfold encode_manifest in He; by bind_inv He u Hu; destruct u).
  destruct (decode_encode_manifest MANIFEST_FILE m Hm Hv Hp) as (b' & He' & Hd). assert (b' = b) as -> by congruence.
  rewrite Hd, bind_Ok. by rewrite (proj2 (Z.ltb_ge _ _) Hle).
Qed.

Lemma loaded_log_seq {X : Xxh3} m durable_end (fs : Fs) :
  load_manifest MANIFEST_FILE durable_end fs = Ok m → mf_log_seq m ≤ durable_end.
Proof.
  intros H. unfold load_manifest in H. bind_inv H b Hb. bind_inv H m' Hm.
  destruct (Z.ltb_spec durable_end (mf_log_seq m')); [done|]. by injection H as <-.
Qed.

(** ** Before the manifest is committed *)

(** Only the file of the new segment may differ. *)
Definition unsealed (segment : string) (start v : view) : Prop :=
  ∀ name, hidden name = false → name ≠ segment → v name = start name.

(** The directory is as before the seal but for that file. *)
Definition before_commit (segment : string) (start : view) (fs : Fs) : Prop :=
  ∃ cur, directory_inv cur (unsealed segment start) fs ∧ unsealed segment start cur.

Lemma unsealed_put segment start b cur : unsealed segment start cur → unsealed segment start (put segment b cur).
Proof. intros H name Hn Hne. rewrite put_ne by done. by apply H. Qed.

Lemma unsealed_remove segment start cur : unsealed segment start cur → unsealed segment start (remove segment cur).
Proof. intros H name Hn Hne. rewrite remove_ne by done. by apply H. Qed.

Lemma unsealed_agree segment start v w : agree v w → unsealed segment start v → unsealed segment start w.
Proof. intros Ha H name Hn Hne. rewrite <- (Ha name Hn). by apply H. Qed.

Lemma before_commit_inv segment start cur P fs :
  directory_inv cur P fs → (∀ v, P v → unsealed segment start v) → before_commit segment start fs.
Proof.
  intros Hi HP. exists cur. split; [by eapply directory_inv_weaken|].
  destruct (di_exposed _ _ _ Hi _ (di_current _ _ _ Hi)) as (v & Hv & Ha).
  eapply unsealed_agree; [|apply HP, Hv]. rewrite <- (di_view _ _ _ Hi). by symmetry.
Qed.

Lemma before_commit_replaced segment start b synced success fs cur :
  unsealed segment start cur →
  replaced segment b cur (unsealed segment start) synced success fs → before_commit segment start fs.
Proof.
  intros Hc [H _]. destruct H as [H|H]; eapply before_commit_inv; try exact H.
  - intros v [Hv| ->]; [done|by apply unsealed_put].
  - intros v [Hv| ->]; [done|by apply unsealed_put].
Qed.

Lemma delete_hidden cur P fs name fs' r :
  hidden name = true → directory_inv cur P fs → v_delete name fs = (fs', r) → directory_inv cur P fs'.
Proof.
  intros Hn Hi H. assert (agree (remove name cur) cur) as Ha.
  { intros other Ho. apply remove_ne. intros ->. congruence. }
  destruct (di_exposed _ _ _ Hi _ (di_current _ _ _ Hi)) as (v0 & Hv0 & Ha0).
  destruct (delete_name cur P fs name fs' r Hi H) as [[Hi' _]|Hi']; [done|].
  apply (directory_inv_agree _ _ _ _ _ Hi' Ha). intros v [Hv| ->]; [by exists v|].
  exists v0. split; [done|]. by rewrite Ha, <- (di_view _ _ _ Hi).
Qed.

Lemma before_commit_delete segment start fs name fs' r :
  (hidden name = true ∨ name = segment) → before_commit segment start fs → v_delete name fs = (fs', r) →
  before_commit segment start fs'.
Proof.
  intros Hn (cur & Hi & Hc) H. destruct Hn as [Hn| ->].
  - exists cur. split; [by eapply delete_hidden|done].
  - destruct (delete_name cur _ fs segment fs' r Hi H) as [[Hi' _]|Hi']; [by exists cur|].
    eapply before_commit_inv; [exact Hi'|]. intros v [Hv| ->]; [done|by apply unsealed_remove].
Qed.

Lemma before_commit_sync segment start fs requirement fs' r :
  before_commit segment start fs → sync_if requirement Directory fs = (fs', r) → before_commit segment start fs'.
Proof.
  intros (cur & Hi & Hc) H. exists cur. split; [|done]. destruct requirement as [|kind]; cbn [sync_if] in H.
  - by injection H as <- _.
  - by apply (sync_directory _ _ _ _ _ _ Hi H).
Qed.

Lemma cleanup_before_commit id start policy fs fs' r :
  before_commit (segment_file_name id) start fs → cleanup_uncommitted_segment id policy fs = (fs', r) →
  before_commit (segment_file_name id) start fs'.
Proof.
  intros Hb H. unfold cleanup_uncommitted_segment in H.
  assert (∀ paths deleted fs fs' r, Forall (λ p, hidden p = true ∨ p = segment_file_name id) paths →
    before_commit (segment_file_name id) start fs → delete_present paths deleted fs = (fs', r) →
    before_commit (segment_file_name id) start fs') as Hloop.
  { induction paths as [|p paths IH]; intros deleted fs0 fs1 r0 Hp Hb0 H0; cbn [delete_present] in H0;
      [by injection H0 as <- _|]. apply Forall_cons in Hp as [Hp Hps].
    destruct (v_open p fs0) as [n|[]]; [|by eapply IH|by injection H0 as <- _].
    destruct (v_delete p fs0) as [fs2 r2] eqn:Ed. pose proof (before_commit_delete _ _ _ _ _ _ Hp Hb0 Ed) as Hb2.
    destruct r2; [by eapply IH|by injection H0 as <- _]. }
  destruct (delete_present _ _ _) as [fs1 r1] eqn:E1.
  assert (Forall (λ p, hidden p = true ∨ p = segment_file_name id) [segment_temporary id; segment_file_name id])
    as Hp by (apply Forall_cons; split; [by left|by apply Forall_singleton; right]).
  apply (Hloop _ _ _ _ _ Hp Hb) in E1.
  destruct r1 as [[]|e]; [|by injection H as <- _..].
  destruct (sync_if _ _ fs1) as [fs2 r2] eqn:E2. apply (before_commit_sync _ _ _ _ _ _ E1) in E2.
  by destruct r2; injection H as <- _.
Qed.

(** ** Through the seal *)

Section Seal.
Context {X : Xxh3} {B : Type} {R : Roaring B}.
Context (postings_rows : bytes → result SegmentError Z).
Context (lexical_region : ActiveSegment Bit4Factors → result SegmentError bytes).
Implicit Types (w : Sealing Fs) (plan : SealPlan (B:=B)) (config : StoreConfig).

Abbreviation files w := (lg_files (sl_log w)).

(** The image of the planned segment. *)
Definition planned_image plan : result SegmentError bytes :=
  encode_segment_inner postings_rows (sp_build plan) None (Some (pl_documents (sp_payloads plan)))
    (pl_metadata (sp_payloads plan)) (pl_text (sp_payloads plan)) (pl_postings (sp_payloads plan)) [].

Definition planned_file plan : string := segment_file_name (sb_id (sp_build plan)).

(** Planning reads the files only. *)
Lemma plan_seal_files config current absorbed w w' r :
  plan_seal (B:=B) lexical_region config current absorbed w = (w', r) →
  sl_log w' = sl_log w ∧ sl_active w' = sl_active w ∧ sl_snapshot w' = sl_snapshot w.
Proof.
  intros H. unfold plan_seal, run_bind, run_lift, read_store, run_read in H.
  destruct (ok_or (checked_add _ _ _) _); [|by injection H as <- _].
  destruct (load_current_manifest _ _ _ _); [|by injection H as <- _].
  destruct (active_columns _ _ _) as [cancel [columns|e]]; [|by injection H as <- _].
  destruct (active_alive _); [|by injection H as <- _].
  destruct (clustering_key_range _ _); [|by injection H as <- _].
  destruct (ok_or (sg_dims _) _); [|by injection H as <- _].
  destruct (ok_or (try_from _ _) _); [|by injection H as <- _].
  destruct (seal_payloads _ _); by injection H as <- _.
Qed.

Lemma cleanup_store_before_commit start config plan w w' r :
  before_commit (planned_file plan) start (files w) →
  on_store (cleanup_uncommitted_segment (sb_id (sp_build plan)) (sc_policy config)) w = (w', r) →
  before_commit (planned_file plan) start (files w').
Proof.
  intros Hb H. unfold on_store, on_log in H. destruct (cleanup_uncommitted_segment _ _ _) as [fs1 r1] eqn:E.
  apply (cleanup_before_commit _ _ _ _ _ _ Hb) in E. by injection H as <- _.
Qed.

Lemma remove_failed_before_commit start config plan e w w' r :
  before_commit (planned_file plan) start (files w) → remove_failed config plan e w = (w', r) →
  before_commit (planned_file plan) start (files w') ∧ ∀ meta, r ≠ Ok meta.
Proof.
  intros Hb H. unfold remove_failed, run_bind in H. destruct (on_store _ w) as [w1 r1] eqn:E.
  apply (cleanup_store_before_commit _ _ _ _ _ _ Hb) in E. by destruct r1; injection H as <- <-.
Qed.

(** What the writer reports of the image. *)
Definition planned_meta plan (image : bytes) : SegmentMeta :=
  {| sm_id := sb_id (sp_build plan); sm_row_count := cs_row_count (sb_columns (sp_build plan));
     sm_scheme := sb_scheme (sp_build plan); sm_dims := sb_dims (sp_build plan); sm_file_size := len image;
     sm_epoch_id := None; sm_clustering_key_range := Unstamped |}.

Lemma publish_segment_reports (build : SegmentBuild B) policy b (fs fs' : Fs) meta :
  publish_segment build policy b fs = (fs', Ok meta) →
  meta = {| sm_id := sb_id build; sm_row_count := cs_row_count (sb_columns build);
            sm_scheme := sb_scheme build; sm_dims := sb_dims build; sm_file_size := len b;
            sm_epoch_id := None; sm_clustering_key_range := Unstamped |}.
Proof.
  unfold publish_segment. intros H. repeat case_match; simplify_eq; done.
Qed.

(** The outcome of writing the segment file. *)
Lemma write_sealed_outcome start config plan w w' r :
  directory_inv start (λ v, v = start) (files w) →
  data_file_sync (sc_policy config) ≠ SyncSkip → directory_sync (sc_policy config) = SyncWith Full →
  write_sealed postings_rows config plan w = (w', r) →
  before_commit (planned_file plan) start (files w')
  ∧ (∀ meta, r = Ok meta → ∃ image, planned_image plan = Ok image ∧ meta = planned_meta plan image
       ∧ directory_inv (put (planned_file plan) image start) (λ v, v = put (planned_file plan) image start)
           (files w')).
Proof.
  intros Hi Hd Hds H. unfold write_sealed, write_segment_with_documents_payloads, publish_encoded in H.
  fold (planned_image plan) in H.
  destruct (on_store _ w) as [w1 r1] eqn:E. unfold on_store, on_log in E.
  assert (before_commit (planned_file plan) start (files w1)
    ∧ ∀ meta, r1 = Ok meta → ∃ image, planned_image plan = Ok image ∧ meta = planned_meta plan image
       ∧ directory_inv (put (planned_file plan) image start) (λ v, v = put (planned_file plan) image start) (files w1))
    as [Hb Hok].
  { destruct (planned_image plan) as [image|e] eqn:Ei; cycle 1.
    { injection E as <- <-. split; [|done]. eapply before_commit_inv; [exact Hi|]. by intros v ->. }
    destruct (publish_segment _ _ _ _) as [fs2 r2] eqn:E2. injection E as <- <-.
    pose proof (publish_segment_replaces start _ _ _ _ _ _ _ Hi Hd E2) as [Hrep Hok]. split.
    - destruct Hrep as [Hrep|Hrep]; (eapply before_commit_inv; [exact Hrep|]);
        intros v [-> | ->]; try done; by apply unsealed_put.
    - intros meta Hm. exists image. destruct r2 as [meta'|]; [|done]. injection Hm as <-.
      split_and!; [done|by apply publish_segment_reports in E2|]. by apply Hok; [exists meta'|]. }
  destruct r1 as [meta|e]; [by injection H as <- <-|].
  destruct (remove_failed_before_commit _ _ _ _ _ _ _ Hb H) as [H1 H2]. split; [done|].
  intros meta Hm. by destruct (H2 meta).
Qed.

(** The directory once the manifest names the segment, over the old log. *)
Definition committed config plan (start v : view) : Prop :=
  ∃ image b, planned_image plan = Ok image
    ∧ encode_manifest (sealed_manifest config plan (planned_meta plan image)) = Ok b
    ∧ v = put MANIFEST_FILE b (put (planned_file plan) image start).

(** And over the new one. *)
Definition truncated config plan (start v : view) : Prop :=
  ∃ v' log, committed config plan start v' ∧ encode_wal_image (sp_absorbed_through plan + 1) [] = Ok log
    ∧ v = put WAL_FILE log v'.

(** Everything a crash may show of a planned seal. *)
Definition seal_exposed config plan (start v : view) : Prop :=
  unsealed (planned_file plan) start v ∨ committed config plan start v ∨ truncated config plan start v.

Definition seal_leaves config plan (start : view) (fs : Fs) : Prop :=
  ∃ cur, directory_inv cur (seal_exposed config plan start) fs.

Lemma seal_leaves_inv config plan start cur P fs :
  directory_inv cur P fs → (∀ v, P v → seal_exposed config plan start v) → seal_leaves config plan start fs.
Proof. intros Hi HP. exists cur. by eapply directory_inv_weaken. Qed.

Lemma seal_leaves_before config plan start fs :
  before_commit (planned_file plan) start fs → seal_leaves config plan start fs.
Proof. intros (cur & Hi & _). eapply seal_leaves_inv; [exact Hi|]. intros v Hv. by left. Qed.

Lemma publish_sealed_outcome start config plan image w w' r :
  let staged := put (planned_file plan) image start in
  directory_inv staged (λ v, v = staged) (files w) → planned_image plan = Ok image →
  data_file_sync (sc_policy config) ≠ SyncSkip → directory_sync (sc_policy config) = SyncWith Full →
  publish_sealed config plan (planned_meta plan image) w = (w', r) →
  seal_leaves config plan start (files w')
  ∧ (r = Ok tt → sl_active w' = Some {| as_generation := sp_generation plan; as_segment := active_empty |}
       ∧ (∃ snapshot, load_on_vfs (files w') = Ok snapshot ∧ sl_snapshot w' = Some snapshot)
       ∧ lg_writer (sl_log w') = lg_writer (sl_log w)
       ∧ ∃ v, committed config plan start v ∧ directory_inv v (λ u, u = v) (files w')).
Proof.
  intros staged Hi Him Hd Hds H. unfold publish_sealed, run_bind in H.
  destruct (on_store _ w) as [w1 r1] eqn:E. unfold on_store, on_log in E.
  destruct (commit_manifest _ _ _) as [fs1 r2] eqn:Ec. injection E as <- <-.
  assert (unsealed (planned_file plan) start staged) as Hst by by apply unsealed_put.
  assert (seal_leaves config plan start fs1 ∧ (r2 = Ok tt →
    ∃ v, committed config plan start v ∧ directory_inv v (λ u, u = v) fs1)) as [Hl Hok].
  { destruct (encode_manifest (sealed_manifest config plan (planned_meta plan image))) as [b|e] eqn:Ee; cycle 1.
    { unfold commit_manifest in Ec. rewrite Ee in Ec. injection Ec as <- <-. split; [|done].
      eapply seal_leaves_inv; [exact Hi|]. intros v ->. by left. }
    assert (committed config plan start (put MANIFEST_FILE b staged)) as Hc by by exists image, b.
    destruct (commit_manifest_replaces _ _ _ _ _ _ _ _ Hi Hd Ee Ec) as [Hrep Hsync]. split.
    - destruct Hrep as [Hrep|Hrep]; (eapply seal_leaves_inv; [exact Hrep|]);
        (intros v [-> | ->]; [by left|by right; left]).
    - intros ->. exists (put MANIFEST_FILE b staged). split; [done|]. by apply Hsync. }
  destruct r2 as [[]|e]; cbn [map_err] in H; [|injection H as <- <-; by split].
  unfold read_store, run_read in H. cbn [sl_log set_log lg_files set_files] in H.
  destruct (load_on_vfs fs1) as [snapshot|e] eqn:El; [|injection H as <- <-; by split].
  injection H as <- <-. split; [done|]. intros _. split_and!; [done|by exists snapshot|done|by apply Hok].
Qed.

Lemma seal_armed_outcome start config plan w w' r :
  directory_inv start (λ v, v = start) (files w) →
  data_file_sync (sc_policy config) ≠ SyncSkip → directory_sync (sc_policy config) = SyncWith Full →
  seal_armed postings_rows config plan w = (w', r) →
  seal_leaves config plan start (files w')
  ∧ (r = Ok true → sl_active w' = Some {| as_generation := sp_generation plan; as_segment := active_empty |}
       ∧ (∃ snapshot, load_on_vfs (files w') = Ok snapshot ∧ sl_snapshot w' = Some snapshot)
       ∧ ∃ v, committed config plan start v ∧ directory_inv v (λ u, u = v) (files w')).
Proof.
  intros Hi Hd Hds H. unfold seal_armed, run_bind in H.
  destruct (write_sealed _ _ _ _) as [w1 r1] eqn:Ew.
  destruct (write_sealed_outcome _ _ _ _ _ _ Hi Hd Hds Ew) as [Hb Hok].
  destruct r1 as [meta|e]; [|injection H as <- <-; split; [by apply seal_leaves_before|done]].
  destruct (Hok meta eq_refl) as (image & Him & -> & Hi1).
  unfold is_cancelled in H. destruct (observe _) as [[] cancel].
  - destruct (on_store _ _) as [w2 r2] eqn:Ec.
    apply (cleanup_store_before_commit start config plan (set_cancel cancel w1) w2 r2 Hb) in Ec.
    destruct r2; injection H as <- <-; (split; [by apply seal_leaves_before|done]).
  - destruct (publish_sealed _ _ _ _) as [w2 r2] eqn:Ep.
    destruct (publish_sealed_outcome start config plan image (set_cancel cancel w1) w2 r2 Hi1 Him Hd Hds Ep) as [Hl Hp].
    destruct r2 as [[]|e]; injection H as <- <-; (split; [done|]); [|done]. intros _.
    destruct (Hp eq_refl) as (H1 & H2 & _ & H3). by split_and!.
Qed.

(** Retiring records leaves the files alone. *)
Lemma retire_log_files absorbed (l l' : LogState Fs) r :
  retire_log absorbed l = (l', r) → lg_files l' = lg_files l.
Proof. intros H. unfold retire_log in H. destruct (WalWriter.retire_visible_through _ _). by injection H as <- _. Qed.

Lemma truncate_absorbed_outcome cur policy absorbed (l l' : LogState Fs) r :
  directory_inv cur (λ v, v = cur) (lg_files l) → data_file_sync policy ≠ SyncSkip →
  truncate_absorbed policy absorbed l = (l', r) →
  (directory_inv cur (λ v, v = cur) (lg_files l') ∧ r ≠ Ok tt)
  ∨ ∃ b, encode_wal_image (absorbed + 1) [] = Ok b
         ∧ replaced WAL_FILE b cur (λ v, v = cur) (directory_sync policy = SyncWith Full) (r = Ok tt) (lg_files l').
Proof.
  intros Hi Hd H. unfold truncate_absorbed, run_bind, run_get, run_err, run_lift in H. cbn [fst snd] in H.
  destruct (negb _); [injection H as <- <-; by left|].
  destruct (checked_add u64_max absorbed 1) as [first|] eqn:E; cbn [ok_or] in H; [|injection H as <- <-; by left].
  apply checked_add_Some in E as [-> _]. exact (rewrite_replaces cur _ _ _ _ l l' r Hi Hd H).
Qed.

(** After the manifest is committed: the old log or the new one. *)
Lemma truncation_outcome config plan start v w w' r :
  committed config plan start v → directory_inv v (λ u, u = v) (files w) →
  data_file_sync (sc_policy config) ≠ SyncSkip → directory_sync (sc_policy config) = SyncWith Full →
  run_bind (on_log (retire_log (sp_absorbed_through plan))) (λ _,
    on_log (truncate_absorbed (sc_policy config) (sp_absorbed_through plan))) w = (w', r) →
  seal_leaves config plan start (files w')
  ∧ (r = Ok tt → ∃ u, truncated config plan start u ∧ directory_inv u (λ x, x = u) (files w')).
Proof.
  intros Hc Hi Hd Hds H. unfold run_bind, on_log in H.
  destruct (retire_log _ _) as [l1 r1] eqn:E1. apply retire_log_files in E1 as Ef.
  assert (directory_inv v (λ u, u = v) (lg_files l1)) as Hi1 by by rewrite Ef.
  assert (∀ u, u = v → seal_exposed config plan start u) as Hv by (intros u ->; by right; left).
  destruct r1 as [[]|e]; [|injection H as <- <-; split; [by eapply seal_leaves_inv|done]].
  cbn [sl_log set_log] in H. destruct (truncate_absorbed _ _ _) as [l2 r2] eqn:E2. injection H as <- <-.
  destruct (truncate_absorbed_outcome _ _ _ _ _ _ Hi1 Hd E2) as [[Hi2 Hne]|(log & Hlog & Hrep & Hok)].
  - split; [by eapply seal_leaves_inv|done].
  - assert (truncated config plan start (put WAL_FILE log v)) as Ht by by exists v, log. split.
    + destruct Hrep as [Hrep|Hrep]; (eapply seal_leaves_inv; [exact Hrep|]);
        (intros u [-> | ->]; [by apply Hv|by right; right]).
    + intros ->. exists (put WAL_FILE log v). split; [done|]. by apply Hok.
Qed.

(** *** The whole operation *)

(** The plan of a seal, when it gets that far. *)
Definition plans config w plan : Prop :=
  ∃ current w1, sl_active w = Some current ∧ bf_data (sg_doc_ids (as_segment current)) ≠ []
    ∧ plan_seal lexical_region config current (wal_durable_end (lg_writer (sl_log w))) w = (w1, Ok plan).

Lemma plans_absorbed config w plan :
  plans config w plan → sp_absorbed_through plan = wal_durable_end (lg_writer (sl_log w)).
Proof.
  intros (current & w1 & _ & _ & H). unfold plan_seal, run_bind, run_lift, run_ret in H.
  destruct (ok_or (checked_add _ _ _) _); [|done].
  destruct (read_store _ _) as [w2 [manifest|]]; [|done].
  destruct (active_columns _ _ _) as [cancel [columns|]]; [|done].
  destruct (active_alive _); [|done]. destruct (clustering_key_range _ _); [|done].
  destruct (ok_or (sg_dims _) _); [|done]. destruct (ok_or (try_from _ _) _); [|done].
  destruct (seal_payloads _ _); [|done]. by injection H as _ <-.
Qed.

Lemma on_log_reads {A} (f : LogState Fs → result StoreError A) w :
  on_log (run_read f) w = (w, f (sl_log w)).
Proof. by destruct w. Qed.

(** The outcome of a seal: nothing was planned and no file changed, or the
    directory is in one of the states of its plan. *)
Lemma seal_outcome config start w w' r :
  directory_inv start (λ v, v = start) (files w) →
  data_file_sync (sc_policy config) ≠ SyncSkip → directory_sync (sc_policy config) = SyncWith Full →
  seal_active_locked postings_rows lexical_region config w = (w', r) →
  (files w' = files w ∧ (∀ g, r = Ok g → ∃ current, sl_active w = Some current ∧ g = as_generation current
     ∧ bf_data (sg_doc_ids (as_segment current)) = []))
  ∨ ∃ plan, plans config w plan ∧ seal_leaves config plan start (files w')
    ∧ (∀ g, r = Ok g → g = sp_generation plan
         ∧ sl_active w' = Some {| as_generation := g; as_segment := active_empty |}
         ∧ ∃ u, truncated config plan start u ∧ directory_inv u (λ x, x = u) (files w')).
Proof.
  intros Hi Hd Hds H. unfold seal_active_locked in H. unfold run_bind at 1 in H.
  unfold manifest_publication in H. rewrite on_log_reads in H.
  destruct (flush _) as [[]|e]; [|injection H as <- <-; by left].
  unfold run_bind at 1, run_get in H. cbn [fst snd] in H. unfold run_bind at 1, run_read in H.
  destruct (sl_active w) as [current|] eqn:Ea; cbn [ok_or] in H; [|injection H as <- <-; by left].
  destruct (bool_decide_reflect (bf_data (sg_doc_ids (as_segment current)) = [])) as [Hnil|Hrows].
  { injection H as <- <-. left. split; [done|]. intros g [= <-]. by exists current. }
  unfold run_bind at 1 in H. destruct (plan_seal _ _ _ _ w) as [w1 [plan|e]] eqn:Ep;
    pose proof (plan_seal_files _ _ _ _ _ _ Ep) as (El & _ & _); cycle 1.
  { injection H as <- <-. left. split; [by rewrite El|done]. }
  right. exists plan. assert (plans config w plan) as Hplan by by exists current, w1.
  split; [done|]. rewrite <- El in Hi. pose proof (plans_absorbed _ _ _ Hplan) as Habs.
  unfold run_bind at 1, run_on_error in H. destruct (seal_armed _ _ _ _) as [w2 r2] eqn:Es.
  destruct (seal_armed_outcome _ _ _ _ _ _ Hi Hd Hds Es) as [Hl Hok].
  destruct r2 as [[]|e]; cbn [negb] in H; [|injection H as <- <-; by split|injection H as <- <-; by split].
  destruct (Hok eq_refl) as (Hact & _ & v & Hc & Hi2). rewrite <- Habs in H.
  set (finish := run_bind (on_log (retire_log (sp_absorbed_through plan))) (λ _,
    on_log (truncate_absorbed (sc_policy config) (sp_absorbed_through plan)))).
  assert (match finish w2 with (w, Ok _) => (w, Ok (sp_generation plan)) | (w, Err e) => (w, Err e) end = (w', r)) as Hf.
  { rewrite <- H. unfold finish, run_bind, run_ret. destruct (on_log (retire_log _) w2) as [w3 [[]|]]; [|done].
    by destruct (on_log (truncate_absorbed _ _) w3) as [w4 [[]|]]. }
  destruct (finish w2) as [w3 r3] eqn:E3. pose proof E3 as E3'.
  destruct (truncation_outcome _ _ _ _ _ _ _ Hc Hi2 Hd Hds E3) as [Hl3 Hok3].
  assert (sl_active w3 = sl_active w2) as Ha3.
  { revert E3'. unfold finish, run_bind, on_log. destruct (retire_log _ _) as [l [[]|]]; [|by intros [= <- _]].
    destruct (truncate_absorbed _ _ _) as [l2 r4]. by intros [= <- _]. }
  destruct r3 as [[]|e]; injection Hf as <- <-; (split; [done|]); [|done].
  intros g [= <-]. split_and!; [done|by rewrite Ha3|by apply Hok3].
Qed.

(** *** What a crash leaves *)

(** Nothing is pending in the directory: its visible files are on media. *)
Definition settled (fs : Fs) : Prop :=
  ∃ start, directory_inv start (λ v, v = start) fs ∧ ∀ name, hidden name = false → start name ≠ Some None.

Definition same_file (fs fs' : Fs) (name : string) : Prop := v_read name fs' = v_read name fs.

Lemma settled_reads start fs name :
  directory_inv start (λ v, v = start) fs → hidden name = false → start name ≠ Some None →
  v_read name fs = match start name with Some (Some b) => Ok b | _ => Err NotFound end.
Proof.
  intros Hi Hn Hs. destruct (start name) as [[b|]|] eqn:E; [by eapply view_reads| |by eapply view_absent]. done.
Qed.

(** The names of the three files differ. *)
Lemma planned_file_other plan : planned_file plan ≠ MANIFEST_FILE ∧ planned_file plan ≠ WAL_FILE.
Proof. split; discriminate. Qed.

Lemma crash_same_file start fs fs' v name :
  directory_inv start (λ u, u = start) fs → (∀ n, hidden n = false → start n ≠ Some None) →
  (∀ n b, hidden n = false → v n = Some (Some b) → v_read n fs' = Ok b) →
  (∀ n, hidden n = false → v n = None → v_read n fs' = Err NotFound) →
  hidden name = false → v name = start name → same_file fs fs' name.
Proof.
  intros Hi Hs H1 H2 Hn E. unfold same_file. rewrite (settled_reads start fs name Hi Hn (Hs name Hn)).
  specialize (Hs name Hn). rewrite <- E in Hs |- *. destruct (v name) as [[b|]|] eqn:Ev; [by apply H1|done|by apply H2].
Qed.

(** The manifest names the sealed segment, whose file is complete. *)
Definition seal_committed config plan (fs : Fs) : Prop :=
  ∃ image b, planned_image plan = Ok image
    ∧ encode_manifest (sealed_manifest config plan (planned_meta plan image)) = Ok b
    ∧ v_read MANIFEST_FILE fs = Ok b ∧ v_read (planned_file plan) fs = Ok image.

(** The log is an empty one that goes on after the absorbed records. *)
Definition log_truncated plan (fs : Fs) : Prop :=
  ∃ log, encode_wal_image (sp_absorbed_through plan + 1) [] = Ok log ∧ v_read WAL_FILE fs = Ok log.

Section Shown.
Context (config : StoreConfig) (plan : SealPlan (B:=B)) (start v : view) (fs fs' : Fs).
Hypothesis Hi : directory_inv start (λ u, u = start) fs.
Hypothesis Hs : ∀ n, hidden n = false → start n ≠ Some None.
Hypothesis H1 : ∀ n b, hidden n = false → v n = Some (Some b) → v_read n fs' = Ok b.
Hypothesis H2 : ∀ n, hidden n = false → v n = None → v_read n fs' = Err NotFound.

Lemma unsealed_shows :
  unsealed (planned_file plan) start v →
  ∀ name, hidden name = false → name ≠ planned_file plan → same_file fs fs' name.
Proof using Hi Hs H1 H2. intros Hu name Hn Hne. by eapply crash_same_file, Hu. Qed.

Lemma committed_shows :
  committed config plan start v →
  seal_committed config plan fs'
  ∧ ∀ name, hidden name = false → name ≠ planned_file plan → name ≠ MANIFEST_FILE → same_file fs fs' name.
Proof using Hi Hs H1 H2.
  intros (image & b & Hm & He & Ev). destruct (planned_file_other plan) as [Hne _]. split.
  - exists image, b. split_and!; [done|done|apply H1; [done|]|apply H1; [apply hidden_segment|]]; rewrite Ev.
    + apply put_eq.
    + rewrite put_ne by done. apply put_eq.
  - intros name Hn N1 N2. eapply crash_same_file; try done. rewrite Ev, !put_ne by done. done.
Qed.

Lemma truncated_shows :
  truncated config plan start v →
  seal_committed config plan fs' ∧ log_truncated plan fs'
  ∧ ∀ name, hidden name = false → name ≠ planned_file plan → name ≠ MANIFEST_FILE → name ≠ WAL_FILE →
      same_file fs fs' name.
Proof using Hi Hs H1 H2.
  intros (u & log & (image & b & Hm & He & Eu) & Hlog & Ev). destruct (planned_file_other plan) as [Hne Hne2].
  split_and!.
  - exists image, b. split_and!; [done|done|apply H1; [done|]|apply H1; [apply hidden_segment|]];
      rewrite Ev, put_ne, Eu by done; [apply put_eq|]. rewrite put_ne by done. apply put_eq.
  - exists log. split; [done|]. apply H1; [done|]. rewrite Ev. apply put_eq.
  - intros name Hn N1 N2 N3. eapply crash_same_file; try done. rewrite Ev, put_ne, Eu, !put_ne by done. done.
Qed.
End Shown.

(** Sealing is crash-atomic under injected I/O faults and cancellation, when
    the policy syncs files, and the directory fully.  From a directory with nothing pending,
    whatever the seal returns, a crash leaves every file but three as it was, and
    the three in one of these states: manifest and log untouched; or the new
    manifest, the complete segment file it names, and the log either untouched or
    replaced by an empty one that continues after the absorbed records.  Once a
    seal of rows has returned, it is the last of these. *)
Lemma seal_crash_atomic config w w' r fs' :
  settled (files w) → data_file_sync (sc_policy config) ≠ SyncSkip → directory_sync (sc_policy config) = SyncWith Full →
  seal_active_locked postings_rows lexical_region config w = (w', r) → crashed (files w') fs' →
  (∀ name, hidden name = false → name ≠ MANIFEST_FILE → name ≠ WAL_FILE →
     (∀ plan, plans config w plan → name ≠ planned_file plan) → same_file (files w) fs' name)
  ∧ ((same_file (files w) fs' MANIFEST_FILE ∧ same_file (files w) fs' WAL_FILE)
     ∨ ∃ plan, plans config w plan ∧ seal_committed config plan fs'
         ∧ (same_file (files w) fs' WAL_FILE ∨ log_truncated plan fs'))
  ∧ (∀ g current, r = Ok g → sl_active w = Some current → bf_data (sg_doc_ids (as_segment current)) ≠ [] →
       ∃ plan, plans config w plan ∧ g = sp_generation plan ∧ seal_committed config plan fs' ∧ log_truncated plan fs'
         ∧ sl_active w' = Some {| as_generation := g; as_segment := active_empty |}).
Proof.
  intros (start & Hi & Hs) Hd Hds H Hcr.
  destruct (seal_outcome _ _ _ _ _ Hi Hd Hds H) as [[Hf Hok]|(plan & Hp & (cur & Hl) & Hok)].
  - rewrite Hf in Hcr. destruct (crash_shows _ _ _ _ Hi Hcr) as (v & -> & H1 & H2).
    assert (∀ name, hidden name = false → same_file (files w) fs' name) as Hsame.
    { intros name Hn. by eapply crash_same_file. }
    split_and!; [auto|by left; split; apply Hsame|].
    intros g current Hr Ha Hrows. destruct (Hok g Hr) as (current' & Ha' & _ & Hnil). congruence.
  - destruct (crash_shows _ _ _ _ Hl Hcr) as (v & Hv & H1 & H2).
    destruct (planned_file_other plan) as [N1 N2]. split_and!.
    + intros name Hn Hm Hw Hne. specialize (Hne plan Hp). destruct Hv as [Hv|[Hv|Hv]].
      * by eapply unsealed_shows.
      * by eapply committed_shows.
      * by eapply truncated_shows.
    + destruct Hv as [Hv|[Hv|Hv]].
      * left. split; eapply unsealed_shows; done.
      * right. exists plan. destruct (committed_shows config plan start v (files w) fs' Hi Hs H1 H2 Hv) as [Hc Ho].
        split_and!; [done|done|left; by apply Ho].
      * right. exists plan. destruct (truncated_shows config plan start v (files w) fs' Hi Hs H1 H2 Hv) as (Hc & Ht & _).
        by split_and!; [..|right].
    + intros g current Hr _ _. destruct (Hok g Hr) as (-> & Ha & u & Hu & Hiu).
      destruct (crash_shows _ _ _ _ Hiu Hcr) as (u' & -> & U1 & U2).
      destruct (truncated_shows config plan start u (files w) fs' Hi Hs U1 U2 Hu) as (Hc & Ht & _). exists plan. by split_and!.
Qed.
End Seal.
