(* ===== verification/SealServes.v ===== *)
(** * What a sealed segment serves

    The segment file a seal writes from an active segment, opened by the segment
    reader, answers row by row what the active segment held: versions, metadata,
    text, columns, vectors, codes and live rows; and the timestamp range the
    manifest records of it is exact. *)

From S2P Require Import Prelude Format Cursor Schema Epoch Float Manifest Vfs Bitmap Dict Columns ColumnsSpec Predicate IngestPayload IngestCodec SegmentLayout SegmentLayoutSpec SegmentColumnsSpec SegmentRebuild SegmentWriter SegmentReader SegmentRows SegmentVectors SegmentDocuments SegmentRowsSpec SegmentSeal SegmentReadBack StoreErrors Accounted ActiveSegment ActiveSpec ActiveRoom ActiveReplaySpec ActiveIngestSpec ActiveTable ActiveIngest Snapshot StoreWal Seal SealSpec.

(** A row as the column builder gets it. *)
Definition row_input (r : ActiveSpec.Row) : ColumnsSpec.Row := (r_timestamp r, column_inputs (r_columns r)).

(** The widths of the fields of a row; accepted documents have them
    ([document_ok]). *)
Record row_fits (r : ActiveSpec.Row) : Prop := {
  rf_id : is_u128 (r_id r);
  rf_revision : is_u64 (r_revision r);
  rf_timestamp : is_i64 (r_timestamp r);
  rf_vector : Forall is_u32 (r_vector r);
  rf_text : ∀ t, r_text r = Some t → utf8_valid t = true;
  rf_columns : Forall column_ok (r_columns r);
  rf_column_image : len (column_image (r_columns r)) ≤ isize_max;
}.

Lemma document_row_fits seq d :
  document_ok d → volume d ≤ isize_max → row_fits (row_of seq d).
Proof.
  intros Hd Hv. split; cbn; try apply Hd.
  - eapply Forall_impl; [apply Hd|]. by intros x [? _].
  - unfold volume in Hv. pose proof (len_nonneg (id_vector d)). pose proof (len_nonneg (id_metadata d)).
    assert (0 ≤ text_len d) by apply len_nonneg. lia.
Qed.

Lemma row_input_range r : row_fits r → row_in_range (row_input r).
Proof.
  intros Hr. split; [apply Hr|]. apply List.Forall_map. eapply Forall_impl; [apply (rf_columns _ Hr)|].
  by intros [c []] [_ H].
Qed.

Section Columns.
Context {B : Type} {R : Roaring B} {RL : RoaringLaws B} {Q : Quantizer Bit4Factors} {K : HashCapacity}.
Implicit Types (s : ActiveSegment Bit4Factors) (v : View).

(** The loop over the rows pushes them all. *)
Lemma push_active_rows_Ok v s : holds v s → Forall row_fits (v_rows v) →
  ∀ before rest (builder : ColumnStoreBuilder B) cancel cancel' builder',
  v_rows v = before ++ rest →
  push_active_rows s (length before) (map r_timestamp rest) cancel builder = (cancel', Ok builder') →
  push_rows (map row_input rest) builder = (builder', map row_input rest).
Proof.
  intros Hh Hf before rest. revert before. induction rest as [|r rest IH]; intros before builder cancel cancel' builder' E H.
  { cbn in H |- *. by injection H as _ <-. }
  cbn [map push_active_rows] in H. destruct (if _ =? 0 then _ else _) as [[] cancel1]; [done|].
  assert (v_rows v !! length before = Some r) as Hr by (rewrite E, lookup_app_r, Nat.sub_diag; done).
  assert (row_fits r) as Hrf by (by eapply (Forall_lookup_1 _ _ _ _ Hf)).
  rewrite (read_columns _ _ _ _ Hh Hr (rf_columns _ Hrf) (rf_column_image _ Hrf)) in H.
  cbn [map push_rows]. unfold row_input at 1 2. cbn [fst snd].
  destruct (push_row _ _ builder) as [b1 [n|e]]; [|done].
  assert (length (before ++ [r]) = S (length before)) as El by (rewrite length_app; cbn; lia).
  rewrite <- El in H. rewrite (IH (before ++ [r]) b1 cancel1 cancel' builder'); [done|by rewrite <- app_assoc|done].
Qed.

Lemma active_columns_Ok v s schema cancel cancel' columns :
  holds v s → Forall row_fits (v_rows v) →
  active_columns (B:=B) schema s cancel = (cancel', Ok columns) →
  (push_rows (map row_input (v_rows v)) (builder_new (B:=B) schema)).2 = map row_input (v_rows v)
  ∧ finish (push_rows (map row_input (v_rows v)) (builder_new (B:=B) schema)).1 = Ok columns.
Proof.
  intros Hh Hf H. unfold active_columns in H. rewrite (ho_timestamps _ _ Hh) in H.
  destruct (push_active_rows _ _ _ _ _) as [c [b|e]] eqn:E; [|done].
  pose proof (push_active_rows_Ok v s Hh Hf [] (v_rows v) _ _ _ _ eq_refl E) as ->. split; [done|].
  cbn [fst]. destruct (finish b) as [cs|]; [|done]. by injection H as _ <-.
Qed.

(** *** Live rows *)

Lemma tombstone_all_Ok rows : ∀ (alive alive' : AliveSet B),
  alive_ok alive → tombstone_all rows alive = Ok alive' →
  alive_ok alive' ∧ as_row_count alive' = as_row_count alive
  ∧ ∀ x, x ∈ db_set (as_alive alive') ↔ x ∈ db_set (as_alive alive) ∧ x ∉ rows.
Proof.
  induction rows as [|d rows IH]; intros alive alive' Ha H; cbn [tombstone_all] in H.
  { injection H as <-. split_and!; [done|done|]. set_solver. }
  destruct (tombstone_spec d alive Ha) as (a1 & E & Ha1 & Hc & Hs & _). rewrite E in H.
  destruct (d <? as_row_count alive); [|done]. destruct (IH a1 alive' Ha1 H) as (Hok & Hc' & Hx).
  split_and!; [done|by rewrite Hc'|]. intros x. rewrite Hx, Hs, not_elem_of_cons. set_solver.
Qed.

Lemma active_alive_Ok v s (alive : AliveSet B) :
  holds v s → active_alive s = Ok alive →
  alive_ok alive ∧ as_row_count alive = len (v_rows v)
  ∧ ∀ k : nat, (k < length (v_rows v))%nat → Z.of_nat k ∈ db_set (as_alive alive) ↔ k ∉ v_dead v.
Proof.
  intros Hh H. unfold active_alive in H. rewrite (ho_ids _ _ Hh), len_map in H.
  destruct (try_from u32_max (len (v_rows v))) as [n|] eqn:En; [|done]. apply try_from_Some in En as [-> Hn].
  cbn [ok_or] in H. rewrite bind_Ok in H. rewrite (ho_dead _ _ Hh) in H.
  destruct (tombstone_all_Ok _ _ _ (alive_new_ok _ (len_nonneg _)) H) as (Hok & Hc & Hx).
  split_and!; [done|by rewrite Hc|]. intros k Hk. rewrite Hx. rewrite elem_of_Z_of_nat.
  split; [by intros []|]. intros Hd. split; [|done].
  cbn [alive_new as_alive]. rewrite db_set_full, elem_of_list_to_set, row_ids_elem. unfold len. lia.
Qed.
End Columns.

(** ** The timestamp range *)

Lemma timestamp_bounds_Ok timestamps rows : ∀ bounds found,
  timestamp_bounds timestamps rows bounds = Ok found →
  match found with
  | None => rows = [] ∧ bounds = None
  | Some (a, b) =>
      (∀ row, row ∈ rows → ∃ t, timestamps !! Z.to_nat row = Some t ∧ a ≤ t ≤ b)
      ∧ (∀ a0 b0, bounds = Some (a0, b0) → a ≤ a0 ∧ b0 ≤ b)
      ∧ ((∃ b0, bounds = Some (a, b0)) ∨ ∃ row, row ∈ rows ∧ timestamps !! Z.to_nat row = Some a)
      ∧ ((∃ a0, bounds = Some (a0, b)) ∨ ∃ row, row ∈ rows ∧ timestamps !! Z.to_nat row = Some b)
  end.
Proof.
  induction rows as [|row rows IH]; intros bounds found H; cbn [timestamp_bounds] in H.
  { injection H as <-. destruct bounds as [[a b]|]; [|done].
    split_and!; [set_solver|intros a0 b0 [= <- <-]; lia|left; by eexists|left; by eexists]. }
  bind_inv H t Ht. apply ok_or_Ok in Ht. apply IH in H. destruct found as [[a b]|]; [|by destruct H].
  destruct H as (Hin & Hb & Ha & Hb'). unfold extend_bounds in *. split_and!.
  - intros x [->|Hx]%elem_of_cons; [|by apply Hin]. exists t. split; [done|].
    destruct bounds as [[a0 b0]|]; specialize (Hb _ _ eq_refl); lia.
  - intros a0 b0 ->. specialize (Hb _ _ eq_refl). lia.
  - destruct Ha as [[b0 E]|(x & Hx & E)]; [|right; exists x; by split; [right|]].
    destruct bounds as [[a1 b1]|]; [|right; exists row; injection E as -> _; by split; [left|]].
    injection E as E _. destruct (Z.min_spec a1 t) as [[_ Em]|[_ Em]]; rewrite Em in E; subst;
      [left; by eexists|right; exists row; by split; [left|]].
  - destruct Hb' as [[a0 E]|(x & Hx & E)]; [|right; exists x; by split; [right|]].
    destruct bounds as [[a1 b1]|]; [|right; exists row; injection E as _ ->; by split; [left|]].
    injection E as _ E. destruct (Z.max_spec b1 t) as [[_ Em]|[_ Em]]; rewrite Em in E; subst;
      [right; exists row; by split; [left|]|left; by eexists].
Qed.

(** The range is that of the live rows. *)
Definition range_exact (v : View) (range : ClusteringKeyRange) : Prop :=
  let live k r := v_rows v !! k = Some r ∧ k ∉ v_dead v in
  match range with
  | Unstamped => False
  | EmptyRange => ∀ k r, ¬ live k r
  | Bounded min_ts max_ts =>
      (∀ k r, live k r → min_ts ≤ r_timestamp r ≤ max_ts)
      ∧ (∃ k r, live k r ∧ r_timestamp r = min_ts) ∧ (∃ k r, live k r ∧ r_timestamp r = max_ts)
  end.

Section Range.
Context {B : Type} {R : Roaring B} {RL : RoaringLaws B} {Q : Quantizer Bit4Factors} {K : HashCapacity}.

Lemma clustering_range_exact v (s : ActiveSegment Bit4Factors) (alive : AliveSet B) range :
  holds v s → active_alive s = Ok alive →
  clustering_key_range (bf_data (sg_timestamps s)) alive = Ok range → range_exact v range.
Proof.
  intros Hh Ha H. destruct (active_alive_Ok v s alive Hh Ha) as (Hok & Hc & Hx).
  unfold clustering_key_range in H. bind_inv H bounds Hb. injection H as <-. rewrite (ho_timestamps _ _ Hh) in Hb.
  apply timestamp_bounds_Ok in Hb. unfold iter_alive in Hb.
  assert (∀ k r, v_rows v !! k = Some r → k ∉ v_dead v → Z.of_nat k ∈ bitmap_iter (as_alive alive)) as Hlive.
  { intros k r Hr Hd. apply db_iter_elem. apply Hx; [by eapply lookup_lt_Some|done]. }
  assert (∀ x t, x ∈ bitmap_iter (as_alive alive) → map r_timestamp (v_rows v) !! Z.to_nat x = Some t →
    ∃ r, v_rows v !! Z.to_nat x = Some r ∧ (Z.to_nat x ∉ v_dead v) ∧ r_timestamp r = t) as Hback.
  { intros x t Hi Ht. apply db_iter_elem in Hi. pose proof (alive_row _ _ Hok Hi) as Hr.
    rewrite map_lookup in Ht. destruct (v_rows v !! Z.to_nat x) as [r|] eqn:E; [|done]. injection Ht as <-.
    exists r. split_and!; [done| |done]. apply Hx; [by eapply lookup_lt_Some|]. rewrite Z2Nat.id by lia. done. }
  destruct bounds as [[a b]|]; cbn; cycle 1.
  { destruct Hb as [Hnil _]. intros k r [Hr Hd]. specialize (Hlive k r Hr Hd). rewrite Hnil in Hlive. set_solver. }
  destruct Hb as (Hin & _ & Hmin & Hmax). split_and!.
  - intros k r [Hr Hd]. destruct (Hin _ (Hlive k r Hr Hd)) as (t & Ht & Hrange).
    rewrite Nat2Z.id, map_lookup, Hr in Ht. injection Ht as <-. done.
  - destruct Hmin as [[? E]|(x & Hi & Ht)]; [done|]. destruct (Hback x a Hi Ht) as (r & ? & ? & ?).
    by exists (Z.to_nat x), r.
  - destruct Hmax as [[? E]|(x & Hi & Ht)]; [done|]. destruct (Hback x b Hi Ht) as (r & ? & ? & ?).
    by exists (Z.to_nat x), r.
Qed.
End Range.

(** ** Row payloads *)

Lemma stored_value_hold rows rb k x :
  rows_hold rows rb → rows !! k = Some x →
  stored_value (bf_data (rb_offsets rb)) (bf_data (rb_bytes rb)) k = Some x.
Proof.
  intros Hr Hk. pose proof (lookup_lt_Some _ _ _ Hk) as Hlt. unfold stored_value.
  rewrite (rh_offsets _ _ Hr), (rh_bytes _ _ Hr).
  assert ((0 :: end_offsets 0 rows) !! k = Some (len (concat (take k rows)))) as ->.
  { destruct k as [|k]; [done|]. cbn [lookup list_lookup]. rewrite end_offsets_lookup by lia. done. }
  rewrite end_offsets_lookup by done. cbn [mbind option_bind].
  rewrite (take_S_r _ _ _ Hk), concat_app, len_app. cbn [concat]. rewrite app_nil_r.
  assert (concat rows = concat (take k rows) ++ x ++ concat (drop (S k) rows)) as ->
    by (rewrite <- (take_drop_middle _ _ _ Hk) at 1; by rewrite concat_app).
  rewrite slice_range_app; [done|done|]. lia.
Qed.

Lemma byte_value_flag text : byte_value (u8_byte (text_flag text)) = text_flag text.
Proof. by destruct text. Qed.

(** The presence flags and texts of the rows, as the text region reads them. *)
Lemma text_value_hold (rows : list ActiveSpec.Row) present text k r :
  text_holds true rows present text → rows !! k = Some r →
  text_value (map u8_byte (bf_data present)) (bf_data (rb_offsets text)) (bf_data (rb_bytes text)) k = r_text r.
Proof.
  intros (Hr & Hp & _) Hk. unfold text_value. rewrite Hp, map_map, map_lookup, Hk. cbn [fmap option_fmap option_map mbind option_bind].
  unfold compose. rewrite byte_value_flag.
  destruct (r_text r) as [t|] eqn:E; cbn [text_flag]; [|done]. change (1 =? 1) with true. cbv iota.
  apply (stored_value_hold _ _ _ _ Hr). rewrite map_lookup, Hk. cbn. by rewrite E.
Qed.

(** ** The plan of a seal *)

Section Plan.
Context {X : Xxh3} {B : Type} {R : Roaring B}.
Context (lexical_region : ActiveSegment Bit4Factors → result SegmentError bytes).

(** How a plan comes from the store. *)
Record planned config (w : Sealing Fs) (current : ActiveState Bit4Factors) (plan : SealPlan (B:=B)) : Prop := {
  pn_generation : sp_generation plan = as_generation current + 1;
  pn_manifest : load_current_manifest (sp_absorbed_through plan) (as_generation current) (sc_schema config)
                  (lg_files (sl_log w)) = Ok (sp_manifest plan);
  pn_columns : ∃ cancel cancel', active_columns (mf_schema (sp_manifest plan)) (as_segment current) cancel
                 = (cancel', Ok (sb_columns (sp_build plan)));
  pn_alive : active_alive (as_segment current) = Ok (sb_alive (sp_build plan));
  pn_range : clustering_key_range (bf_data (sg_timestamps (as_segment current))) (sb_alive (sp_build plan))
               = Ok (sp_range plan);
  pn_dims : sg_dims (as_segment current) = Some (sb_dims (sp_build plan)) ∧ is_u32 (sb_dims (sp_build plan));
  pn_payloads : seal_payloads lexical_region (as_segment current) = Ok (sp_payloads plan);
  pn_build : sp_build plan = seal_build (as_segment current) (seal_id (sp_generation plan) (sp_absorbed_through plan))
               (sb_dims (sp_build plan)) (sb_columns (sp_build plan)) (sb_alive (sp_build plan));
}.

Lemma plans_planned config w plan :
  plans (B:=B) lexical_region config w plan → ∃ current, sl_active w = Some current ∧ planned config w current plan.
Proof.
  intros Hp. pose proof (plans_absorbed lexical_region config w plan Hp) as Habs.
  destruct Hp as (current & w1 & Ha & _ & H). exists current. split; [done|].
  unfold plan_seal, run_bind, run_lift, run_ret, read_store, run_read in H.
  destruct (checked_add _ _ _) as [g|] eqn:Eg; cbn [ok_or] in H; [|done]. apply checked_add_Some in Eg as [-> _].
  destruct (load_current_manifest _ _ _ _) as [m|] eqn:Em; [|done].
  destruct (active_columns _ _ _) as [cancel' [columns|]] eqn:Ec; [|done].
  destruct (active_alive _) as [alive|] eqn:Eal; [|done].
  destruct (clustering_key_range _ _) as [range|] eqn:Er; [|done].
  destruct (sg_dims _) as [dims|] eqn:Ed; cbn [ok_or] in H; [|done].
  destruct (try_from u32_max dims) as [dims'|] eqn:Et; cbn [ok_or] in H; [|done]. apply try_from_Some in Et as [-> Hd].
  destruct (seal_payloads _ _) as [payloads|] eqn:Ep; [|done]. injection H as _ <-. cbn in Habs.
  split; cbn; try done; [by eexists _, _].
Qed.

Lemma len_seal_id generation absorbed : len (seal_id generation absorbed) = 16.
Proof.
  unfold seal_id, u64_be, len. rewrite length_app, !length_rev.
  pose proof (len_u64_le generation). pose proof (len_u64_le absorbed). unfold len in *. lia.
Qed.
End Plan.

(** ** What the reader serves *)

Section Serves.
Context {X : Xxh3} {L : Xxh3Laws X} {B : Type} {R : Roaring B} {RL : RoaringLaws B}.
Context {Q : Quantizer Bit4Factors} {K : HashCapacity}.
Context (postings_rows : bytes → result SegmentError Z).
Context (lexical_region : ActiveSegment Bit4Factors → result SegmentError bytes).

(** Row [k] of a reader is [row]; [data] is its region of document versions. *)
Record serves_row (data : bytes) (r : SegmentReader) (k : nat) (row : ActiveSpec.Row) : Prop := {
  sv_version : answers data r (document_version (Z.of_nat k))
                 (Some {| dv_doc_id := r_id row; dv_revision := r_revision row |});
  sv_metadata : match stored_metadata r with
                | Ok (Some view) => metadata_row view (Z.of_nat k) = Some (r_metadata row)
                | Ok None => r_metadata row = []
                | Err _ => False
                end;
  sv_text : match stored_text r with
            | Ok (Some view) => text_row view (Z.of_nat k) = Some (r_text row)
            | Ok None => r_text row = None
            | Err _ => False
            end;
}.

(** The reader as a whole serves the rows of [v]. *)
Record serves_view (address : Z) (schema : Schema) (v : View) (r : SegmentReader) : Prop := {
  sw_count : sm_row_count (sr_meta r) = len (v_rows v);
  sw_valid : validate_all r = Ok tt;
  sw_rows : ∃ data, documents_ready data r ∧ ∀ k row, v_rows v !! k = Some row → serves_row data r k row;
  sw_alive : ∃ alive : AliveSet B, reader_alive r = Ok alive ∧ as_row_count alive = len (v_rows v)
    ∧ ∀ k, (k < length (v_rows v))%nat → Z.of_nat k ∈ db_set (as_alive alive) ↔ k ∉ v_dead v;
  sw_columns : ∃ s : ColumnStore B, reader_columns r = Ok s ∧ cs_row_count s = len (v_rows v)
    ∧ store_timestamps s = map r_timestamp (v_rows v)
    ∧ ∀ d, d ∈ sc_columns schema →
        ∃ c, store_column s (cd_id d) = Some c ∧ column_type c = cd_column_type d
          ∧ ∀ k row, v_rows v !! k = Some row →
              column_value c (Z.of_nat k) = row_value (r_timestamp row) (column_inputs (r_columns row)) d;
  sw_vectors : rescore_f32 address r = Ok (concat (map r_vector (v_rows v)));
  sw_codes : bit4_codes address r = Ok (concat (map row_code (v_rows v)));
  sw_factors : bit4_factors address r = Ok (map row_factor (v_rows v));
}.

Lemma has_text_rows v (s : ActiveSegment Bit4Factors) :
  holds v s →
  if Seal.has_text s then text_holds true (v_rows v) (sg_text_present s) (sg_text s)
  else Forall (λ r, r_text r = None) (v_rows v).
Proof.
  intros Hh. pose proof (ho_text _ _ Hh) as Ht. unfold Seal.has_text. destruct (existsb _ _) eqn:E.
  - destruct (v_text v); [done|]. destruct Ht as (_ & Hp & _). by rewrite Hp in E.
  - destruct (v_text v); [|by destruct Ht as (_ & _ & Hn)]. destruct Ht as (_ & Hp & _). rewrite Hp in E.
    apply Forall_forall. intros r Hr. destruct (r_text r) as [t|] eqn:Et; [|done].
    apply not_true_iff_false in E. destruct E. apply existsb_exists. exists 1. split; [|done].
    apply in_map_iff. exists r. split; [unfold compose; by rewrite Et|by apply list_elem_of_In].
Qed.

Section Sealed.
Context (config : StoreConfig) (w : Sealing Fs) (current : ActiveState Bit4Factors) (plan : SealPlan (B:=B)).
Context (v : View) (image : bytes) (r : SegmentReader).
Hypothesis Hp : planned lexical_region config w current plan.
Hypothesis Hh : holds v (as_segment current).
Hypothesis Hf : Forall row_fits (v_rows v).
Hypothesis Hq : Forall (λ row, Forall is_u32 (persisted_fields (row_factor row))) (v_rows v).
Hypothesis Hr : sealed_reader postings_rows (sp_build plan) None (Some (pl_documents (sp_payloads plan)))
  (pl_metadata (sp_payloads plan)) (pl_text (sp_payloads plan)) (pl_postings (sp_payloads plan)) image r.
Hypothesis Himage : len image ≤ isize_max.
Hypothesis Hrows : is_u32 (seal_rows (sp_build plan)).
Hypothesis Hcount : cs_row_count (sb_columns (sp_build plan)) = len (v_rows v).

Lemma planned_payloads :
  pl_documents (sp_payloads plan) = Build_SegmentDocumentVersions (map r_id (v_rows v)) (map r_revision (v_rows v))
  ∧ pl_metadata (sp_payloads plan)
    = (if bool_decide (bf_data (rb_bytes (sg_metadata (as_segment current))) = []) then None
       else Some {| sx_end_offsets := bf_data (rb_offsets (sg_metadata (as_segment current)));
                    sx_bytes := bf_data (rb_bytes (sg_metadata (as_segment current))) |})
  ∧ pl_text (sp_payloads plan)
    = (if Seal.has_text (as_segment current)
       then Some {| st_present := map u8_byte (bf_data (sg_text_present (as_segment current)));
                    st_end_offsets := bf_data (rb_offsets (sg_text (as_segment current)));
                    st_bytes := bf_data (rb_bytes (sg_text (as_segment current))) |}
       else None).
Proof using Hp Hh.
  pose proof (pn_payloads _ _ _ _ _ Hp) as H. unfold seal_payloads in H. bind_inv H postings Hpost. injection H as <-.
  cbn [pl_documents pl_metadata pl_text]. by rewrite (ho_ids _ _ Hh), (ho_revisions _ _ Hh).
Qed.

Lemma sealed_count : sm_row_count (sr_meta r) = len (v_rows v).
Proof using Hr Hcount.
  pose proof (sl_meta _ _ _ _ _ _ _ _ _ Hr) as ->. exact Hcount.
Qed.

Lemma sealed_metadata_row k row :
  v_rows v !! k = Some row →
  match stored_metadata r with
  | Ok (Some view) => metadata_row view (Z.of_nat k) = Some (r_metadata row)
  | Ok None => r_metadata row = []
  | Err _ => False
  end.
Proof using All.
  intros Hk. destruct planned_payloads as (_ & Em & _). pose proof (ho_metadata _ _ Hh) as Hm.
  pose proof (sealed_metadata postings_rows (sp_build plan) _ _ _ _ _ image r Hr Himage) as H. rewrite Em in H.
  destruct (bool_decide_reflect (bf_data (rb_bytes (sg_metadata (as_segment current))) = [])) as [Hnil|_]; cbn in H.
  - rewrite H. rewrite (rh_bytes _ _ Hm) in Hnil. apply concat_nil_Forall in Hnil.
    rewrite Forall_map in Hnil. by apply (Forall_lookup_1 _ _ _ _ Hnil Hk).
  - destruct H as (view & E & Hn & Hrow). rewrite E. rewrite Hrow.
    + apply (stored_value_hold _ _ _ _ Hm). by rewrite map_lookup, Hk.
    + rewrite Hn, sealed_count. apply lookup_lt_Some in Hk. unfold len. lia.
Qed.

Lemma sealed_text_row k row :
  v_rows v !! k = Some row →
  match stored_text r with
  | Ok (Some view) => text_row view (Z.of_nat k) = Some (r_text row)
  | Ok None => r_text row = None
  | Err _ => False
  end.
Proof using All.
  intros Hk. destruct planned_payloads as (_ & _ & Et). pose proof (has_text_rows v _ Hh) as Ht.
  pose proof (sealed_text postings_rows (sp_build plan) _ _ _ _ _ image r Hr Himage) as H. rewrite Et in H.
  destruct (Seal.has_text (as_segment current)); cbn in H.
  - destruct H as (view & E & Hn & Hrow). rewrite E, Hrow.
    + f_equal. by apply (text_value_hold _ _ _ _ _ Ht).
    + rewrite Hn, sealed_count. apply lookup_lt_Some in Hk. unfold len. lia.
  - rewrite H. by apply (Forall_lookup_1 _ _ _ _ Ht Hk).
Qed.

Lemma planned_in_range : build_in_range (sp_build plan).
Proof using Hp Hh Hf Hq RL.
  pose proof (pn_build _ _ _ _ _ Hp) as Eb.
  split.
  - rewrite Eb. apply len_seal_id.
  - apply (pn_dims _ _ _ _ _ Hp).
  - rewrite Eb. cbn [seal_build sb_rescore]. rewrite (ho_vectors _ _ Hh), Forall_concat, Forall_map.
    eapply Forall_impl; [exact Hf|]. intros row Hrow. apply Hrow.
  - rewrite Eb. cbn [seal_build sb_factors factors_in_range]. rewrite (ho_factors _ _ Hh). by apply List.Forall_map.
  - by apply (active_alive_Ok v (as_segment current) _ Hh (pn_alive _ _ _ _ _ Hp)).
Qed.

Lemma sealed_documents_row :
  ∃ data, documents_ready data r
    ∧ ∀ k row, v_rows v !! k = Some row →
        answers data r (document_version (Z.of_nat k)) (Some {| dv_doc_id := r_id row; dv_revision := r_revision row |}).
Proof using All.
  destruct planned_payloads as (Ed & _).
  pose proof (sealed_documents postings_rows (sp_build plan) None (Some (pl_documents (sp_payloads plan)))
    _ _ _ image r Hr Hrows Himage) as H.
  rewrite Ed in H. destruct H as (data & Hready & Hv).
  { cbn. split; cbn; apply List.Forall_map; (eapply Forall_impl; [exact Hf|]); intros row Hrow; apply Hrow. }
  exists data. split; [done|]. intros k row Hk. apply Hv. unfold versions_of. cbn.
  rewrite lookup_zip_with, !map_lookup, Hk. done.
Qed.

Lemma sealed_vectors_read address :
  address mod 4 = 0 →
  rescore_f32 address r = Ok (concat (map r_vector (v_rows v)))
  ∧ bit4_codes address r = Ok (concat (map row_code (v_rows v)))
  ∧ bit4_factors address r = Ok (map row_factor (v_rows v)).
Proof using All.
  intros Ha. pose proof (sealed_vectors postings_rows (sp_build plan) _ _ _ _ _ image r address Hr
    planned_in_range Hrows Himage Ha) as H.
  rewrite (pn_build _ _ _ _ _ Hp) in H. unfold vectors_read in H. cbn [seal_build sb_rescore sb_factors sb_codes] in H.
  rewrite (ho_vectors _ _ Hh), (ho_codes _ _ Hh), (ho_factors _ _ Hh) in H. by destruct H as (H1 & H2 & H3).
Qed.

Lemma sealed_view_served address :
  schema_ok (mf_schema (sp_manifest plan)) → schema_encodes (mf_schema (sp_manifest plan)) → address mod 4 = 0 →
  serves_view address (mf_schema (sp_manifest plan)) v r.
Proof using All.
  intros Hs Hse Ha. destruct (pn_columns _ _ _ _ _ Hp) as (cancel & cancel' & Ec).
  destruct (active_columns_Ok v _ _ _ _ _ Hh Hf Ec) as [Eacc Efin].
  assert (Forall row_in_range (map row_input (v_rows v))) as Hrange.
  { apply List.Forall_map. eapply Forall_impl; [exact Hf|]. intros row. apply row_input_range. }
  destruct (sealed_columns postings_rows (sp_build plan) _ _ _ _ _ image r Hr Himage
    (mf_schema (sp_manifest plan)) None _ Hs Hse I Hrange Efin) as (cs & Ecs & Hres).
  destruct (sealed_alive postings_rows (sp_build plan) _ _ _ _ _ image r Hr planned_in_range Hrows Himage)
    as (alive & Eal & Hsame).
  destruct (active_alive_Ok v _ _ Hh (pn_alive _ _ _ _ _ Hp)) as (_ & Hac & Hax).
  destruct sealed_documents_row as (data & Hready & Hdocs).
  destruct (sealed_vectors_read address Ha) as (Hv1 & Hv2 & Hv3).
  split; try done.
  - apply sealed_count.
  - apply Hr.
  - exists data. split; [done|]. intros k row Hk.
    split; [by apply Hdocs|by apply sealed_metadata_row|by apply sealed_text_row].
  - exists alive. destruct Hsame as [Hc1 Hset]. split_and!; [done|by rewrite Hc1|]. intros k Hk. rewrite Hset. by apply Hax.
  - exists cs. destruct Hres as (Hsch & Hcnt & Hts & Hcols). rewrite Eacc in Hcnt, Hts, Hcols.
    rewrite len_map in Hcnt. rewrite map_map in Hts. split_and!; [done|done|done|].
    intros d Hd. destruct (Hcols d Hd) as (c & E1 & E2 & E3). exists c. split_and!; [done|done|].
    intros k row Hk. rewrite (E3 k (row_input row)) by (by rewrite map_lookup, Hk).
    unfold region_cell. by rewrite decide_True.
Qed.
End Sealed.

(** The image of a plan, opened. *)
Lemma sealed_rows_served (config : StoreConfig) (w : Sealing Fs) (current : ActiveState Bit4Factors)
    (plan : SealPlan (B:=B)) (v : View) (image : bytes) (address : Z) :
  plans lexical_region config w plan → sl_active w = Some current → holds v (as_segment current) →
  Forall row_fits (v_rows v) → Forall (λ row, Forall is_u32 (persisted_fields (row_factor row))) (v_rows v) →
  schema_ok (mf_schema (sp_manifest plan)) → schema_encodes (mf_schema (sp_manifest plan)) →
  planned_image postings_rows plan = Ok image → len image + REGION_ALIGNMENT ≤ isize_max → address mod 4 = 0 →
  ∃ r, segment_open (planned_file plan) image (sb_id (sp_build plan)) = Ok r
       ∧ sr_meta r = planned_meta plan image
       ∧ serves_view address (mf_schema (sp_manifest plan)) v r
       ∧ range_exact v (sp_range plan).
Proof.
  intros Hplans Hact Hh Hf Hq Hs Hse Him Hl Ha.
  destruct (plans_planned lexical_region config w plan Hplans) as (current' & Hact' & Hp).
  assert (current' = current) as -> by congruence.
  destruct (pn_columns _ _ _ _ _ Hp) as (cancel & cancel' & Ec).
  destruct (active_columns_Ok v _ _ _ _ _ Hh Hf Ec) as [Eacc Efin].
  assert (Forall row_in_range (map row_input (v_rows v))) as Hrange.
  { apply List.Forall_map. eapply Forall_impl; [exact Hf|]. intros row. apply row_input_range. }
  assert (cs_row_count (sb_columns (sp_build plan)) = len (v_rows v) ∧ is_u32 (seal_rows (sp_build plan))) as [Hcount Hrows].
  { pose proof (columns_region_restores (B:=B) (mf_schema (sp_manifest plan)) None _ Hs Hse I Hrange) as H.
    destruct (push_rows _ _) as [b accepted]. cbn [fst snd] in Eacc, Efin. subst accepted.
    destruct H as (cs & region & E1 & _ & E3 & E4 & _). assert (cs = sb_columns (sp_build plan)) as -> by congruence.
    unfold seal_rows. rewrite E3, len_map in *. pose proof (len_nonneg (v_rows v)). split; [done|split; lia]. }
  pose proof (planned_in_range config w current plan v Hp Hh Hf Hq) as Hb.
  destruct (sealed_reader_opens postings_rows (sp_build plan) None _ _ _ _ image Him (br_id _ Hb) Hrows (br_dims _ Hb) Hl)
    as (r & Hr).
  assert (len image ≤ isize_max) as Hi by (unfold REGION_ALIGNMENT in Hl; lia).
  exists r. split_and!.
  - apply Hr.
  - apply Hr.
  - by eapply sealed_view_served.
  - by eapply clustering_range_exact; [|apply (pn_alive _ _ _ _ _ Hp)|apply (pn_range _ _ _ _ _ Hp)].
Qed.
End Serves.
