(* ===== verification/SealRecovery.v ===== *)
(** * Reopening after a seal

    A store that crashes during or after a seal reopens either as it was before
    the seal, or with the sealed segment in its manifest and nothing left to
    replay: no row is lost and none is there twice. *)

From S2P Require Import Prelude Format WalRecord WalReplay Durability WalWriter Schema Epoch Float Manifest ManifestCodec Vfs CrashDirectory ManifestIo Bitmap Dict Columns ColumnsSpec Predicate IngestPayload IngestCodec SegmentLayout SegmentColumnsSpec SegmentWriter SegmentReader SegmentVectors SegmentSeal SegmentImage SegmentReadBack StoreErrors Accounted ActiveSegment ActiveSpec AtomicBatch ActiveIngest ActiveRecovery Snapshot StoreWal Seal SealSpec SealServes.

(** ** A log with nothing left to replay *)

Section Absorbed.
Context {X : Xxh3} {F : Type} {Q : Quantizer F} {K : HashCapacity} {B : Type} {R : Roaring B}.
Context {T : TransactionDecisions}.

Lemma committed_loop_absorbed decision absorbed records s :
  Forall (λ record, vr_seq record ≤ absorbed) records → committed_loop decision absorbed records s = Ok s.
Proof.
  induction 1 as [|record records Hr _ IH]; [done|]. cbn [committed_loop]. unfold committed_step.
  rewrite (proj2 (Z.leb_le (vr_seq record) absorbed) Hr). by rewrite bind_Ok.
Qed.

Lemma committed_batches_absorbed decision absorbed records :
  Forall (λ record, vr_seq record ≤ absorbed) records → committed_batches decision records absorbed = Ok [].
Proof. intros H. unfold committed_batches. rewrite committed_loop_absorbed by done. by rewrite bind_Ok. Qed.

(** Records the manifest has absorbed carry no decision that is not. *)
Definition decisions_absorbed : Prop := ∀ records absorbed,
  Forall (λ record, vr_seq record ≤ absorbed) records →
  ∃ decisions, transaction_decisions records absorbed = Ok decisions
    ∧ Forall (λ d, tb_last_seq d.2 ≤ absorbed) decisions.

Lemma latest_decision_in decisions b :
  latest_decision decisions = Some b → b ∈ map snd decisions.
Proof.
  unfold latest_decision. assert (∀ best, foldl (λ best (d : Z * TransactionBinding),
    match best with
    | Some b => if tb_last_seq b <=? tb_last_seq d.2 then Some d.2 else Some b
    | None => Some d.2
    end) best decisions = Some b → best = Some b ∨ b ∈ map snd decisions) as H.
  { induction decisions as [|d ds IH]; intros best; [by left|]. cbn [foldl map].
    intros E. apply IH in E as [E|E]; [|right; by right].
    destruct best as [b0|]; [destruct (tb_last_seq b0 <=? tb_last_seq d.2)|];
      [right; injection E as <-; left|by left|right; injection E as <-; left]. }
  intros E. by destruct (H None E).
Qed.

Lemma recover_absorbed generation absorbed schema clean :
  decisions_absorbed → Forall (λ record, vr_seq record ≤ absorbed) (cl_records clean) →
  recover_clean (F:=F) (B:=B) generation absorbed absorbed schema clean
  = Ok {| rc_active := {| as_generation := generation; as_segment := active_empty |};
          rc_wal := Some clean; rc_tombstones := [] |}.
Proof.
  intros Hd Hr. unfold recover_clean. rewrite Z.min_id. destruct (Hd _ _ Hr) as (decisions & -> & Hb).
  rewrite bind_Ok. unfold replay_active. rewrite Z.min_id, committed_batches_absorbed by done.
  rewrite bind_Ok. cbn [decode_batches]. rewrite bind_Ok. change (replay_segment (decode_start generation)) with (Ok (E:=StoreError) (active_empty (F:=F))).
  rewrite bind_Ok. cbn [decode_start dc_documents dc_steps replay_steps]. rewrite !bind_Ok. unfold namespace_generation.
  cbn [rc_active as_generation decode_start dc_generation].
  destruct (latest_decision decisions) as [b|] eqn:E; [|done]. apply latest_decision_in in E.
  assert (tb_last_seq b ≤ absorbed) as Hle.
  { apply list_elem_of_fmap in E as (d & -> & Hin). by apply (proj1 (Forall_forall _ _) Hb). }
  rewrite Z.max_id, (proj2 (Z.ltb_ge absorbed (tb_last_seq b)) Hle). done.
Qed.
End Absorbed.

(** ** Opening the log *)

Section Log.
Context {X : Xxh3} {L : Xxh3Laws X}.

(** The log replays cleanly, and every record of it is absorbed. *)
Definition log_absorbed (absorbed : Z) (read : result ErrorKind bytes) : Prop :=
  ∃ b rd clean, read = Ok b ∧ b ≠ [] ∧ reader_open (Ok b) = Some (Ok rd) ∧ into_clean rd = Ok clean
    ∧ rd_durable_end rd = absorbed ∧ Forall (λ record, vr_seq record ≤ absorbed) (cl_records clean).

Lemma empty_log_absorbed absorbed log :
  0 ≤ absorbed → is_u64 (absorbed + 1) → encode_wal_image (absorbed + 1) [] = Ok log → log_absorbed absorbed (Ok log).
Proof using L.
  intros H0 H1 He. destruct (encode_wal_image_ok _ _ _ He H1 ltac:(constructor)) as (El & _ & _ & _).
  assert (log = wal_header_bytes (absorbed + 1)) as Eh by (rewrite El; apply app_nil_r).
  assert (len log = WAL_HEADER_LEN) as Hlen by (rewrite Eh; apply len_wal_header_bytes).
  assert (len log ≤ isize_max) as Hl by (rewrite Hlen; done).
  destruct (encode_wal_image_replays _ _ _ He H1 ltac:(constructor) Hl) as [Hr _].
  destruct (reader_open_ok log Hl) as (res & rd & Hr' & Ho & Ht & Hrec & _ & Hh). rewrite Hr in Hr'. injection Hr' as <-.
  cbn [rr_records rr_terminator number map] in *.
  assert (decode_wal_header log = Ok {| wh_first_seq := absorbed + 1 |}) as Hd.
  { rewrite Eh, <- (app_nil_r (wal_header_bytes _)). by apply decode_wal_header_app. }
  destruct (Hh _ Hd) as [_ Hend]. cbn in Hend. eexists log, rd, _. split_and!; [done| |exact Ho| | |].
  - intros ->. done.
  - unfold into_clean. by rewrite Ht.
  - rewrite Hend. unfold saturating_sub. lia.
  - cbn. rewrite Hrec. constructor.
Qed.

Lemma log_absorbed_recovers {F} {Q : Quantizer F} {K : HashCapacity} {B} {R : Roaring B} {T : TransactionDecisions}
    generation absorbed schema (fs : Fs) :
  decisions_absorbed → log_absorbed absorbed (v_read WAL_FILE fs) →
  ∃ clean, recover (F:=F) (B:=B) generation absorbed absorbed schema fs
  = Some (Ok {| rc_active := {| as_generation := generation; as_segment := active_empty |};
                rc_wal := Some clean; rc_tombstones := [] |}).
Proof.
  intros Hd (b & rd & clean & Eb & Hne & Ho & Hc & _ & Hf). exists clean. unfold recover.
  assert (v_open WAL_FILE fs = Ok (len b)) as ->.
  { cbn in Eb |- *. destruct (fs_files fs !! WAL_FILE); [|done]. by injection Eb as ->. }
  rewrite Eb, Ho. cbn [map_err]. rewrite !bind_Ok, Hc. cbn [map_err]. rewrite bind_Ok, recover_absorbed by done.
  destruct (len b) eqn:E; [|done..]. by apply len_zero_nil in E.
Qed.
End Log.

(** ** The store after a crash *)

Section Reopen.
Context {X : Xxh3} {L : Xxh3Laws X} {B : Type} {R : Roaring B} {RL : RoaringLaws B}.
Context {Q : Quantizer Bit4Factors} {K : HashCapacity} {T : TransactionDecisions}.
Context (postings_rows : bytes → result SegmentError Z).
Context (lexical_region : ActiveSegment Bit4Factors → result SegmentError bytes).

(** The sealed manifest and the segment image are within the widths of their
    formats. *)
Record seal_fits config (plan : SealPlan (B:=B)) (image : bytes) : Prop := {
  sf_manifest : manifest_ok (sealed_manifest config plan (planned_meta plan image));
  sf_payload : len (manifest_payload (sealed_manifest config plan (planned_meta plan image))) + 56 ≤ isize_max;
  sf_image : len image + REGION_ALIGNMENT ≤ isize_max;
}.

Lemma sealed_manifest_loads config (plan : SealPlan (B:=B)) image b absorbed (fs : Fs) :
  seal_fits config plan image → encode_manifest (sealed_manifest config plan (planned_meta plan image)) = Ok b →
  v_read MANIFEST_FILE fs = Ok b → sp_absorbed_through plan = absorbed →
  load_manifest MANIFEST_FILE absorbed fs = Ok (sealed_manifest config plan (planned_meta plan image)).
Proof using L.
  intros Hf He Hr <-. eapply encoded_manifest_loads; [apply Hf|apply Hf|done|done|]. cbn [sealed_manifest mf_log_seq]. lia.
Qed.

Lemma sealed_schema config (plan : SealPlan (B:=B)) image :
  seal_fits config plan image →
  schema_ok (mf_schema (sp_manifest plan)) ∧ schema_encodes (mf_schema (sp_manifest plan)).
Proof.
  intros [Hm _ _]. destruct (ma_schema _ Hm) as [cols Hs]. apply schema_new_ok in Hs as [Hok _]. split; [exact Hok|].
  split; [apply (ma_column_count _ Hm)|]. eapply Forall_impl; [apply (ma_columns _ Hm)|]. by intros d [].
Qed.

Lemma open_path_opens path id image (fs : Fs) r :
  v_read path fs = Ok image → segment_open path image id = Ok r → open_path path id fs = Ok r.
Proof.
  intros Hr Ho. unfold open_path, map_file. cbn in Hr |- *. rewrite Hr. cbn [map_err]. rewrite bind_Ok.
  destruct (Z.eqb_spec (len image) 0) as [E|_]; [|by rewrite bind_Ok].
  apply len_zero_nil in E as ->. done.
Qed.

(** What a reopened store has when the seal of [current] took effect: the
    manifest before it, with one entry added for a segment that serves the rows,
    and a log with nothing left to replay. *)
Definition sealed_store config (w : Sealing Fs) (current : ActiveState Bit4Factors) (address : Z) (v : View)
    (fs : Fs) : Prop :=
  let absorbed := wal_durable_end (lg_writer (sl_log w)) in
  let generation := as_generation current + 1 in
  ∃ old entry reader clean,
    load_current_manifest absorbed (as_generation current) (sc_schema config) (lg_files (sl_log w)) = Ok old
    ∧ load_manifest MANIFEST_FILE absorbed fs
      = Ok {| mf_generation := generation; mf_log_seq := absorbed; mf_segments := mf_segments old ++ [entry];
              mf_epochs := epoch_registry config (mf_epochs old); mf_epoch_alias := mf_epoch_alias old;
              mf_schema := mf_schema old |}
    ∧ sm_id entry = seal_id generation absorbed
    ∧ sm_epoch_id entry = ei_embedding <$> mf_epoch_alias old
    ∧ range_exact v (sm_clustering_key_range entry)
    ∧ open_path (segment_file_name (sm_id entry)) (sm_id entry) fs = Ok reader
    ∧ same_segment_file (sr_meta reader) entry = true
    ∧ serves_view (B:=B) address (mf_schema old) v reader
    ∧ recover (F:=Bit4Factors) (B:=B) generation absorbed absorbed (mf_schema old) fs
      = Some (Ok {| rc_active := {| as_generation := generation; as_segment := active_empty |};
                    rc_wal := Some clean; rc_tombstones := [] |}).

Lemma planned_facts config w current (plan : SealPlan (B:=B)) :
  plans lexical_region config w plan → sl_active w = Some current →
  planned lexical_region config w current plan
  ∧ sp_absorbed_through plan = wal_durable_end (lg_writer (sl_log w))
  ∧ sb_id (sp_build plan) = seal_id (as_generation current + 1) (wal_durable_end (lg_writer (sl_log w))).
Proof.
  intros Hp Hact. pose proof (plans_absorbed lexical_region config w plan Hp) as Eabs.
  destruct (plans_planned lexical_region config w plan Hp) as (current' & Hact' & Hpl).
  assert (current' = current) as -> by congruence. split_and!; [done|done|].
  rewrite (pn_build _ _ _ _ _ Hpl). cbn [seal_build sb_id]. by rewrite (pn_generation _ _ _ _ _ Hpl), Eabs.
Qed.

Lemma planned_file_is config w current (plan : SealPlan (B:=B)) :
  plans lexical_region config w plan → sl_active w = Some current →
  planned_file plan = segment_file_name (seal_id (as_generation current + 1) (wal_durable_end (lg_writer (sl_log w)))).
Proof.
  intros Hp Hact. destruct (planned_facts _ _ _ _ Hp Hact) as (_ & _ & E). unfold planned_file. by rewrite E.
Qed.

Lemma committed_store config (w : Sealing Fs) (fs' : Fs) current v address plan :
  let absorbed := wal_durable_end (lg_writer (sl_log w)) in
  sl_active w = Some current → holds v (as_segment current) → Forall row_fits (v_rows v) →
  Forall (λ row, Forall is_u32 (persisted_fields (row_factor row))) (v_rows v) →
  0 ≤ absorbed < u64_max → log_absorbed absorbed (v_read WAL_FILE (lg_files (sl_log w))) → decisions_absorbed →
  (∀ plan image, plans lexical_region config w plan → planned_image postings_rows plan = Ok image →
     seal_fits config plan image) →
  address mod 4 = 0 → plans lexical_region config w plan → seal_committed postings_rows config plan fs' →
  same_file (lg_files (sl_log w)) fs' WAL_FILE ∨ log_truncated plan fs' → sealed_store config w current address v fs'.
Proof.
  intros absorbed Hact Hh Hf Hq Habs Hlog Hdec Hfits Ha Hp (image & b & Him & He & Hm & Hi) Hw.
  destruct (planned_facts _ _ _ _ Hp Hact) as (Hpl & Eabs & Eid).
  pose proof (Hfits plan image Hp Him) as Hfit. destruct (sealed_schema config plan image Hfit) as [Hs Hse].
  destruct (sealed_rows_served postings_rows lexical_region config w current plan v image address Hp Hact Hh Hf Hq
    Hs Hse Him (sf_image _ _ _ Hfit) Ha) as (reader & Ho & Hmeta & Hserve & Hrange).
  assert (log_absorbed absorbed (v_read WAL_FILE fs')) as Hlog'.
  { destruct Hw as [->|(log & Hlog1 & ->)]; [done|]. rewrite Eabs in Hlog1. apply empty_log_absorbed; [lia| |done].
    unfold is_u64. fold absorbed. lia. }
  destruct (log_absorbed_recovers (F:=Bit4Factors) (B:=B) (as_generation current + 1) absorbed
    (mf_schema (sp_manifest plan)) fs' Hdec Hlog') as (clean & Hrec).
  pose proof (sealed_manifest_loads config plan image b absorbed fs' Hfit He Hm Eabs) as Hload.
  unfold sealed_manifest in Hload. rewrite (pn_generation _ _ _ _ _ Hpl), Eabs in Hload. fold absorbed in Hload.
  pose proof (pn_manifest _ _ _ _ _ Hpl) as Hold. rewrite Eabs in Hold.
  exists (sp_manifest plan), (sealed_meta plan (planned_meta plan image)), reader, clean.
  cbn [sealed_meta planned_meta sm_id sm_epoch_id sm_clustering_key_range].
  split_and!; try done.
  - by eapply open_path_opens.
  - rewrite Hmeta. unfold same_segment_file. cbn. by rewrite !bool_decide_true, !Z.eqb_refl.
Qed.

(** C10: Sealing keeps the documents of a store across crashes, I/O faults and
    cancellation. Take a store at rest: its files on media, its log replaying
    cleanly up to the durable end, its active segment holding rows of the widths
    ingest accepts; and a policy of full syncs of files and directory (barriers only
    order, and promise no durability). Crash at any point of a seal or after it.
    Every other file is as it was, and the store reopens in one of two states.
    Either manifest and log are as before the seal, which then did not return
    success; or the manifest is the old one with the sealed segment added and the
    log absorbed, the segment's file serves every row as the active segment did, and
    recovery from whatever log is left rebuilds an empty active segment at the new
    generation with no tombstone to apply. *)
Theorem seal_crash_reopens config (w w' : Sealing Fs) r (fs' : Fs) current v address :
  let files w := lg_files (sl_log w) in
  let absorbed := wal_durable_end (lg_writer (sl_log w)) in
  settled (files w) → full_sync (sc_policy config) →
  sl_active w = Some current → holds v (as_segment current) → v_rows v ≠ [] → Forall row_fits (v_rows v) →
  Forall (λ row, Forall is_u32 (persisted_fields (row_factor row))) (v_rows v) →
  0 ≤ absorbed < u64_max → log_absorbed absorbed (v_read WAL_FILE (files w)) → decisions_absorbed →
  (∀ plan image, plans lexical_region config w plan → planned_image postings_rows plan = Ok image →
     seal_fits config plan image) →
  address mod 4 = 0 →
  seal_active_locked postings_rows lexical_region config w = (w', r) → crashed (files w') fs' →
  (∀ name, hidden name = false → name ≠ MANIFEST_FILE → name ≠ WAL_FILE →
     name ≠ segment_file_name (seal_id (as_generation current + 1) absorbed) → same_file (files w) fs' name)
  ∧ ((is_ok r = false ∧ same_file (files w) fs' MANIFEST_FILE ∧ same_file (files w) fs' WAL_FILE)
     ∨ sealed_store config w current address v fs').
Proof.
  intros files absorbed Hset Hpol Hact Hh Hne Hf Hq Habs Hlog Hdec Hfits Ha Hseal Hcr.
  destruct (seal_crash_atomic postings_rows lexical_region config w w' r fs' Hset (full_sync_data _ Hpol) (proj2 Hpol) Hseal Hcr) as (H1 & H2 & H3).
  split.
  { intros name Hn Hm Hw Hsg. apply H1; try done. intros plan Hp.
    by rewrite (planned_file_is config w current plan Hp Hact). }
  assert (∀ plan, plans lexical_region config w plan → seal_committed postings_rows config plan fs' →
    (same_file (files w) fs' WAL_FILE ∨ log_truncated plan fs') → sealed_store config w current address v fs') as Hstore.
  { intros plan Hp Hc Hw. by eapply committed_store. }
  destruct (is_ok r) eqn:Er.
  - right. destruct r as [g|]; [|done].
    assert (bf_data (sg_doc_ids (as_segment current)) ≠ []) as Hids by (by rewrite (ho_ids _ _ Hh), map_nil_iff).
    destruct (H3 g current eq_refl Hact Hids) as (plan & Hp & _ & Hc & Ht & _). by eapply Hstore; [..|right].
  - destruct H2 as [[Hm Hw]|(plan & Hp & Hc & Hw)]; [by left|right]. by eapply Hstore.
Qed.
End Reopen.

(** ** Sealing a store of one row *)

Module SampleReopen.
Import ToyXxh3.
#[local] Existing Instance toy.

#[export] Instance quantizer : Quantizer Bit4Factors := λ v,
  (replicate (Z.to_nat (div_ceil2 (len v))) Byte.x00,
   {| b4_scale := 0; b4_normalized_norm := 0; b4_normalized_correction := 0 |}).
#[export] Instance capacity : HashCapacity := λ n, n.
#[export] Instance decisions : TransactionDecisions := λ _ _, Ok [].

Definition policy : DurabilityPolicy := SampleStore.policy.
Definition config : StoreConfig := {| sc_schema := timestamp_only; sc_epoch := None; sc_policy := policy |}.

Definition row : ActiveSpec.Row :=
  {| r_id := 4; r_revision := 1; r_seq := 3; r_timestamp := 10; r_metadata := [Byte.x6d];
     r_text := None; r_columns := []; r_vector := [5] |}.
Definition rows : View :=
  {| v_dims := Some 1; v_rows := [row]; v_text := false; v_columns := false; v_dead := [] |}.

Definition one {A} (a : A) : Buffer A := {| bf_data := [a]; bf_limit := 1 |}.
Definition segment : ActiveSegment Bit4Factors :=
  {| sg_dims := Some 1; sg_doc_ids := one 4;
     sg_row_index := {| ar_rows := index_rows 0 [4] ∅; ar_capacity := 1 |};
     sg_revisions := one 1; sg_sequences := one 3; sg_timestamps := one 10;
     sg_metadata := {| rb_offsets := one 1; rb_bytes := one Byte.x6d |};
     sg_text_present := unaccounted_empty; sg_text := empty_rows; sg_columns := empty_rows;
     sg_vectors := one 5; sg_codes := one Byte.x00;
     sg_factors := one (row_factor row); sg_tombstones := unaccounted_empty |}.
Definition active : ActiveState Bit4Factors := {| as_generation := 7; as_segment := segment |}.

Lemma sample_segment_holds : holds rows segment.
Proof.
  split; cbn; try done; try (by repeat constructor).
  apply NoDup_singleton.
Qed.

(** A log whose one record is the row's. *)
Definition log : bytes := match encode_wal_image 3 [(2, [Byte.x00])] with Ok b => b | Err _ => [] end.
Definition fs : Fs :=
  {| fs_inodes := {[0%nat := {| in_data := log; in_synced := true |}]}; fs_dir := {[WAL_FILE := 0%nat]};
     fs_dirs := [{[WAL_FILE := 0%nat]}]; fs_past := []; fs_next := 1; fs_faults := [] |}.

Definition clean : CleanWalReader :=
  match reader_open (Ok log) with
  | Some (Ok rd) => match into_clean rd with
                    | Ok c => c
                    | Err _ => {| cl_records := []; cl_next_seq := 0; cl_durable_end := None |}
                    end
  | _ => {| cl_records := []; cl_next_seq := 0; cl_durable_end := None |}
  end.
Definition writer : WalWriter :=
  match resume clean (Ok tt) log (len log) policy with
  | Ok w => w
  | Err _ => {| ww_state := initial_state 0 []; ww_file := []; ww_synced := 0; ww_created_directory_sync := None;
                ww_sync := SyncSkip; ww_max_group_bytes := 0; ww_durable_progress := 0; ww_io_work := [] |}
  end.

Definition store : Sealing Fs :=
  {| sl_log := {| lg_files := fs; lg_writer := writer |}; sl_active := Some active; sl_snapshot := None;
     sl_cancel := [] |}.

Definition no_postings : bytes → result SegmentError Z := λ _, Err SegmentPostings.
Definition no_region : ActiveSegment Bit4Factors → result SegmentError bytes := λ _, Err SegmentPostings.

Lemma store_settled : settled fs.
Proof.
  exists (shown fs (fs_dir fs)). split.
  - split; cbn; try done.
    + left.
    + intros d ->%list_elem_of_singleton. by exists (shown fs (fs_dir fs)).
    + intros temp i d name Ht Hi. apply lookup_singleton_Some in Hi as [<- _]. done.
    + intros temp i name Ht Hi. apply lookup_singleton_Some in Hi as [<- _]. done.
    + intros d name i ->%list_elem_of_singleton Hi. apply lookup_singleton_Some in Hi as [_ <-]. lia.
  - intros name Hn. unfold shown, shown_in, fs. cbn [fs_dir fs_inodes].
    destruct (decide (name = WAL_FILE)) as [->|Hne].
    + by vm_compute.
    + by rewrite lookup_singleton_ne.
Qed.

Lemma log_clean : log_absorbed 3 (v_read WAL_FILE fs).
Proof.
  exists log, (match reader_open (Ok log) with
               | Some (Ok rd) => rd
               | _ => {| rd_records := []; rd_next_seq := 0; rd_durable_end := 0; rd_terminator := None |}
               end), clean.
  split_and!; try (by vm_compute). by apply (bool_decide_unpack _); vm_compute.
Qed.

Definition planned := plan_seal (B:=gset Z) no_region config active 3 store.
Definition plan : SealPlan (B:=gset Z) :=
  match planned.2 with
  | Ok p => p
  | Err _ => {| sp_generation := 0; sp_absorbed_through := 0;
                sp_manifest := {| mf_generation := 0; mf_log_seq := 0; mf_segments := []; mf_epochs := [];
                                  mf_epoch_alias := None; mf_schema := timestamp_only |};
                sp_range := Unstamped; sp_build := SampleSeal.build;
                sp_payloads := {| pl_documents := SampleSeal.documents; pl_metadata := None; pl_text := None;
                                  pl_postings := None |} |}
  end.

Lemma planned_ok : planned.2 = Ok plan.
Proof.
  unfold plan. assert (is_ok planned.2 = true) as H by by vm_compute. by destruct (planned.2).
Qed.

Lemma plan_only p : plans (B:=gset Z) no_region config store p → p = plan.
Proof.
  intros (current & w1 & Ha & _ & H). injection Ha as <-. pose proof planned_ok as E.
  unfold planned in E. change (wal_durable_end (lg_writer (sl_log store))) with 3 in H. rewrite H in E.
  by injection E.
Qed.

Definition bytes_of (r : result SegmentError bytes) : bytes := match r with Ok b => b | Err _ => [] end.
Definition regions : list RegionBytes :=
  sealed_regions (sp_build plan) (bytes_of (encode_columns (sb_columns (sp_build plan))))
    (match vector_regions (sp_build plan) with Ok l => l | Err _ => [] end) None
    (Some (bytes_of (encode_document_versions (pl_documents (sp_payloads plan)) 1)))
    (Some (bytes_of (match pl_metadata (sp_payloads plan) with
                     | Some m => encode_stored_metadata m 1
                     | None => Ok []
                     end))) None None.

Lemma sealed_regions_ok : image_ok (sb_id (sp_build plan)) 1 4 1 regions [].
Proof.
  split; try by vm_compute.
  - apply (bool_decide_unpack _). by vm_compute.
  - repeat constructor; by vm_compute.
  - intros a off. repeat constructor; by vm_compute.
Qed.
Definition image : bytes := segment_image (sb_id (sp_build plan)) 1 4 1 regions [].

Lemma image_planned : planned_image no_postings plan = Ok image.
Proof.
  unfold planned_image, image. rewrite <- (encode_regions_image _ _ _ _ _ _ sealed_regions_ok).
  apply encode_segment_inner_parts; try by vm_compute.
  - eexists. split; [|reflexivity]. by vm_compute.
  - eexists. split; [|reflexivity]. by vm_compute.
Qed.

Lemma len_image : len image = image_file_length regions [].
Proof. apply (len_segment_image _ _ _ _ _ _ sealed_regions_ok). Qed.

(** The manifest of the sealed store, but for the size of the image. *)
Definition meta (size : Z) : SegmentMeta :=
  {| sm_id := sb_id (sp_build plan); sm_row_count := 1; sm_scheme := 4; sm_dims := 1; sm_file_size := size;
     sm_epoch_id := None; sm_clustering_key_range := Bounded 10 10 |}.
Definition manifest (size : Z) : Manifest :=
  {| mf_generation := 8; mf_log_seq := 3; mf_segments := [meta size]; mf_epochs := []; mf_epoch_alias := None;
     mf_schema := timestamp_only |}.

Lemma sealed_manifest_is : sealed_manifest config plan (planned_meta plan image) = manifest (len image).
Proof.
  generalize image. intros i. unfold sealed_manifest, sealed_meta, planned_meta.
  cbn [sm_id sm_row_count sm_scheme sm_dims sm_file_size]. generalize (len i). intros size. by vm_compute.
Qed.

Lemma image_fits : seal_fits config plan image.
Proof.
  split; rewrite ?sealed_manifest_is, len_image; [| |apply (im_file _ _ _ _ _ _ sealed_regions_ok)].
  - split; try done; [|exists []; reflexivity|repeat constructor; by vm_compute].
    constructor; [|constructor]. split; try done; by vm_compute.
  - by vm_compute.
Qed.

Lemma row_is_fit : Forall row_fits (v_rows rows).
Proof. repeat constructor; try by vm_compute. Qed.

Lemma decisions_are_absorbed : decisions_absorbed (T:=decisions).
Proof. intros records absorbed _. exists []. split; [reflexivity|constructor]. Qed.

Lemma plans_fit p i :
  plans (B:=gset Z) no_region config store p → planned_image no_postings p = Ok i → seal_fits config p i.
Proof.
  intros ->%plan_only Hi. rewrite image_planned in Hi. assert (image = i) as <- by congruence. apply image_fits.
Qed.

Definition sealed := seal_active_locked (B:=gset Z) no_postings no_region config store.

Lemma sealed_crash : crashed (lg_files (sl_log sealed.1)) (lg_files (sl_log sealed.1)).
Proof.
  generalize (surjective_pairing sealed). generalize sealed.1 sealed.2. intros w' r Hs.
  apply crashed_now. destruct store_settled as (start & Hi & _).
  destruct (seal_outcome no_postings no_region config start store w' r Hi (λ H, ltac:(discriminate H))
    eq_refl Hs) as [[-> _]|(p & _ & (cur & [H _ _ _ _ _ _]) & _)]; [left|exact H].
Qed.

Lemma sealed_pair : seal_active_locked (B:=gset Z) no_postings no_region config store = (sealed.1, sealed.2).
Proof. exact (surjective_pairing sealed). Qed.

Lemma factors_fit : Forall (λ row, Forall is_u32 (persisted_fields (row_factor row))) (v_rows rows).
Proof. repeat constructor; by vm_compute. Qed.

Lemma absorbed_bounds : 0 ≤ wal_durable_end (lg_writer (sl_log store)) < u64_max.
Proof. by vm_compute. Qed.
End SampleReopen.

Lemma seal_crash_reopens_witness :
  let fs := lg_files (sl_log SampleReopen.sealed.1) in
  (is_ok SampleReopen.sealed.2 = false ∧ same_file SampleReopen.fs fs MANIFEST_FILE
   ∧ same_file SampleReopen.fs fs WAL_FILE)
  ∨ sealed_store (X:=ToyXxh3.toy) (B:=gset Z) (Q:=SampleReopen.quantizer) (K:=SampleReopen.capacity)
      (T:=SampleReopen.decisions) SampleReopen.config SampleReopen.store SampleReopen.active 0
      SampleReopen.rows fs.
Proof.
  destruct (seal_crash_reopens (X:=ToyXxh3.toy) (L:=ToyXxh3.toy_laws) (B:=gset Z) (Q:=SampleReopen.quantizer)
    (K:=SampleReopen.capacity) (T:=SampleReopen.decisions) SampleReopen.no_postings SampleReopen.no_region
    SampleReopen.config SampleReopen.store SampleReopen.sealed.1 SampleReopen.sealed.2
    (lg_files (sl_log SampleReopen.sealed.1)) SampleReopen.active SampleReopen.rows 0 SampleReopen.store_settled
    (conj eq_refl eq_refl) eq_refl SampleReopen.sample_segment_holds
    (λ H, ltac:(discriminate H)) SampleReopen.row_is_fit SampleReopen.factors_fit SampleReopen.absorbed_bounds
    SampleReopen.log_clean SampleReopen.decisions_are_absorbed SampleReopen.plans_fit eq_refl
    SampleReopen.sealed_pair SampleReopen.sealed_crash) as [_ H]. exact H.
Defined.
