(* ===== verification/Retention.v ===== *)
(** * Whole-segment retention

    Models [crates/zeppelin-embed/src/ingest/retention.rs] in the build without
    the [graph-cypher] and [test-seams] features: the retention window, the choice
    of the segments whose clustering range lies inside a partition, and the drop of
    those segments by committing a manifest without them, publishing its snapshot
    and only then unlinking their files.

    Whether snapshot views are open, which other threads change, is observed from
    an explicit sequence, as a cancel token is when sealing. *)

From S2P Require Import Prelude Format WalReplay Durability WalWriter Schema Epoch Manifest Vfs ManifestIo SegmentLayout SegmentWriter SegmentReader StoreErrors Accounted ActiveSegment ActiveIngest Snapshot StoreWal Seal Cursor ManifestCodec CrashDirectory SegmentDocuments SealSpec SealServes SealRecovery.

(** ** The window *)

Definition i64_min : Z := - 2 ^ 63.
Definition i64_max : Z := 2 ^ 63 - 1.

(** [i64::saturating_sub]. *)
Definition i64_saturating_sub (x y : Z) : Z := i64_min `max` (i64_max `min` (x - y)).

Record RetentionPolicy : Type := { rw_window : Z }.
Record RetentionPolicyError : Type := { re_window : Z }.

Definition retention_new (window : Z) : result RetentionPolicyError RetentionPolicy :=
  if window <=? 0 then Err {| re_window := window |} else Ok {| rw_window := window |}.

(** A half-open range of keys. *)
Definition KeyRange : Type := Z * Z.

Definition partition_to_drop (policy : RetentionPolicy) (now_ts : Z) : KeyRange :=
  (i64_min, i64_saturating_sub now_ts (rw_window policy)).

(** ** The choice of segments *)

Record SegmentSelection : Type := {
  se_retained : list SegmentMeta;
  se_dropped : list SegmentMeta;
  se_straddlers : list bytes;
  se_bytes_reclaimed : Z;
}.

Definition select_drop (segment : SegmentMeta) (sel : SegmentSelection) : result StoreError SegmentSelection :=
  bytes_reclaimed ← ok_or (checked_add u64_max (se_bytes_reclaimed sel) (sm_file_size segment))
                      StorePartitionBytesOverflow;
  Ok {| se_retained := se_retained sel; se_dropped := se_dropped sel ++ [segment];
        se_straddlers := se_straddlers sel; se_bytes_reclaimed := bytes_reclaimed |}.

Definition select_retain (straddles : bool) (segment : SegmentMeta) (sel : SegmentSelection) : SegmentSelection :=
  {| se_retained := se_retained sel ++ [segment]; se_dropped := se_dropped sel;
     se_straddlers := (if straddles then se_straddlers sel ++ [sm_id segment] else se_straddlers sel);
     se_bytes_reclaimed := se_bytes_reclaimed sel |}.

Definition select_segment (requested : KeyRange) (segment : SegmentMeta) (sel : SegmentSelection)
    : result StoreError SegmentSelection :=
  match sm_clustering_key_range segment with
  | EmptyRange => select_drop segment sel
  | Bounded min_ts max_ts =>
      if (requested.1 <=? min_ts) && (max_ts <? requested.2) then select_drop segment sel
      else Ok (select_retain ((requested.1 <=? max_ts) && (min_ts <? requested.2)) segment sel)
  | Unstamped => Ok (select_retain false segment sel)
  end.

Fixpoint select_loop (requested : KeyRange) (segments : list SegmentMeta) (sel : SegmentSelection)
    : result StoreError SegmentSelection :=
  match segments with
  | [] => Ok sel
  | segment :: segments => sel ← select_segment requested segment sel; select_loop requested segments sel
  end.

Definition select_segments (segments : list SegmentMeta) (requested : KeyRange)
    : result StoreError SegmentSelection :=
  select_loop requested segments
    {| se_retained := []; se_dropped := []; se_straddlers := []; se_bytes_reclaimed := 0 |}.

(** ** The drop *)

Record DropPartitionReport : Type := {
  dr_generation : Z;
  dr_manifest_committed : bool;
  dr_segments_dropped : list bytes;
  dr_bytes_reclaimed : Z;
  dr_orphaned_segments : list bytes;
  dr_straddlers_skipped : list bytes;
}.

Definition no_op_report (generation : Z) (straddlers_skipped : list bytes) : DropPartitionReport :=
  {| dr_generation := generation; dr_manifest_committed := false; dr_segments_dropped := [];
     dr_bytes_reclaimed := 0; dr_orphaned_segments := []; dr_straddlers_skipped := straddlers_skipped |}.

(** The state the operation changes; [rt_views] is what the coming looks for open
    snapshot views see, [rt_retained_through] the mark in the health state. *)
Record Retaining (S : Type) : Type := {
  rt_log : LogState S;
  rt_active : option (ActiveState Bit4Factors);
  rt_snapshot : option LoadedSnapshot;
  rt_views : list bool;
  rt_retained_through : option Z;
}.
Arguments rt_log {S} _.
Arguments rt_active {S} _.
Arguments rt_snapshot {S} _.
Arguments rt_views {S} _.
Arguments rt_retained_through {S} _.

Section Drop.
Context {X : Xxh3} {S : Type} `{Vfs S}.
Implicit Types (w : Retaining S).

Definition set_retaining_log (l : LogState S) w : Retaining S :=
  {| rt_log := l; rt_active := rt_active w; rt_snapshot := rt_snapshot w; rt_views := rt_views w;
     rt_retained_through := rt_retained_through w |}.

Definition on_retaining_log {A} (m : Run (LogState S) A) : Run (Retaining S) A := λ w,
  let '(l, r) := m (rt_log w) in (set_retaining_log l w, r).

Definition read_retaining {A} (f : S → result StoreError A) : Run (Retaining S) A :=
  run_read (λ w, f (lg_files (rt_log w))).

(** The committed manifest, if the store has one. *)
Definition committed_manifest (durable_end : Z) (s : S) : result StoreError (option Manifest) :=
  match v_open MANIFEST_FILE s with
  | Ok _ => manifest ← map_err StoreManifest (load_manifest MANIFEST_FILE durable_end s); Ok (Some manifest)
  | Err NotFound => Ok None
  | Err k => Err (StoreIo MANIFEST_FILE k)
  end.

(** The manifest without the dropped segments. *)
Definition retained_manifest (config : StoreConfig) (generation : Z) (manifest : Manifest)
    (sel : SegmentSelection) : Manifest :=
  {| mf_generation := generation; mf_log_seq := mf_log_seq manifest; mf_segments := se_retained sel;
     mf_epochs := epoch_registry config (mf_epochs manifest); mf_epoch_alias := mf_epoch_alias manifest;
     mf_schema := mf_schema manifest |}.

(** [ManifestPublication::commit_manifest]: any failure of it leaves the guard
    armed, and dropping the guard fences the writer. *)
Definition commit_guarded (manifest : Manifest) (policy : DurabilityPolicy) : Run (LogState S) unit :=
  run_on_error (λ l, let '(s, r) := commit_manifest manifest policy (lg_files l) in
                     (set_files s l, map_err StoreManifest r)) fence_log.

Definition set_retained (generation : Z) (current : ActiveState Bit4Factors) (snapshot : LoadedSnapshot) w
    : Retaining S :=
  {| rt_log := rt_log w; rt_active := Some {| as_generation := generation; as_segment := as_segment current |};
     rt_snapshot := Some snapshot; rt_views := rt_views w; rt_retained_through := rt_retained_through w |}.

(** Unlinking the dropped files; a failure only leaves an orphan. *)
Fixpoint unlink_dropped (dropped : list SegmentMeta) (views : list bool) (bytes_reclaimed : Z)
    (orphaned : list bytes) (s : S) : S * (list bool * Z * list bytes) :=
  match dropped with
  | [] => (s, (views, bytes_reclaimed, orphaned))
  | segment :: dropped =>
      let '(open, views) := observe views in
      let '(s, kept) :=
        if open then (s, true)
        else let '(s, r) := v_delete (segment_file_name (sm_id segment)) s in (s, negb (is_ok r)) in
      if kept
      then unlink_dropped dropped views (saturating_sub bytes_reclaimed (sm_file_size segment))
             (orphaned ++ [sm_id segment]) s
      else unlink_dropped dropped views bytes_reclaimed orphaned s
  end.

(** The unlinks and the directory sync after them, whose failure is ignored. *)
Definition unlink_segments (policy : DurabilityPolicy) (sel : SegmentSelection)
    : Run (Retaining S) (Z * list bytes) := λ w,
  let '(s, (views, bytes_reclaimed, orphaned)) :=
    unlink_dropped (se_dropped sel) (rt_views w) (se_bytes_reclaimed sel) [] (lg_files (rt_log w)) in
  let '(s, _) := sync_if (directory_sync policy) Directory s in
  ({| rt_log := set_files s (rt_log w); rt_active := rt_active w; rt_snapshot := rt_snapshot w;
      rt_views := views; rt_retained_through := rt_retained_through w |},
   Ok (bytes_reclaimed, orphaned)).

(** From the selection to the report. *)
Definition drop_selected (config : StoreConfig) (current : ActiveState Bit4Factors) (manifest : Manifest)
    (sel : SegmentSelection) : Run (Retaining S) DropPartitionReport :=
  (let! generation := run_lift (ok_or (checked_add u64_max (as_generation current `max` mf_generation manifest) 1)
                                  StoreGenerationOverflow) in
   let manifest := retained_manifest config generation manifest sel in
   let! remapped := read_retaining (from_manifest manifest) in
   let! _ := on_retaining_log (commit_guarded manifest (sc_policy config)) in
   let! _ := run_put (set_retained generation current remapped) in
   let! (bytes_reclaimed, orphaned) := unlink_segments (sc_policy config) sel in
   run_ret {| dr_generation := generation; dr_manifest_committed := true;
              dr_segments_dropped := map sm_id (se_dropped sel); dr_bytes_reclaimed := bytes_reclaimed;
              dr_orphaned_segments := orphaned; dr_straddlers_skipped := se_straddlers sel |})%run.

Definition drop_partition_attempt (config : StoreConfig) (state : StoreState) (writer_lock : bool)
    (key_range : KeyRange) : Run (Retaining S) DropPartitionReport :=
  (let! _ := run_lift (match state with
                       | Open => Ok tt
                       | Closing => Err StoreClosing
                       | Closed => Err StoreClosed
                       end) in
   if negb writer_lock then run_err StoreReadOnly
   else
   let! _ := on_retaining_log manifest_publication in
   let! durable_end := run_get (λ w, wal_durable_end (lg_writer (rt_log w))) in
   let! current := run_read (λ w, ok_or (rt_active w) StoreClosed) in
   if key_range.2 <=? key_range.1 then run_ret (no_op_report (as_generation current) [])
   else
   let! manifest := read_retaining (committed_manifest durable_end) in
   match manifest with
   | None => run_ret (no_op_report (as_generation current) [])
   | Some manifest =>
       let! sel := run_lift (select_segments (mf_segments manifest) key_range) in
       if bool_decide (se_dropped sel = [])
       then run_ret (no_op_report (as_generation current `max` mf_generation manifest) (se_straddlers sel))
       else drop_selected config current manifest sel
   end)%run.

Definition record_retention (retained_through : Z) w : Retaining S :=
  {| rt_log := rt_log w; rt_active := rt_active w; rt_snapshot := rt_snapshot w; rt_views := rt_views w;
     rt_retained_through := Some retained_through |}.

Definition drop_partition (config : StoreConfig) (state : StoreState) (writer_lock : bool)
    (key_range : KeyRange) : Run (Retaining S) DropPartitionReport :=
  (let! report := drop_partition_attempt config state writer_lock key_range in
   let! _ := run_put (record_retention key_range.2) in
   run_ret report)%run.

Definition apply_retention (config : StoreConfig) (state : StoreState) (writer_lock : bool)
    (policy : RetentionPolicy) (now_ts : Z) : Run (Retaining S) DropPartitionReport :=
  drop_partition config state writer_lock (partition_to_drop policy now_ts).
End Drop.

(** * Retention loses exactly the partition

    A drop removes the segments whose clustering range lies in the requested
    partition and no other, whatever fails and wherever a crash falls: the
    manifest on disk is the old one or the one without them, and the file of every
    segment it names is as it was. *)

(** ** The selection *)

(** The segment lies inside the partition. *)
Definition contained (requested : KeyRange) (segment : SegmentMeta) : bool :=
  match sm_clustering_key_range segment with
  | EmptyRange => true
  | Bounded min_ts max_ts => (requested.1 <=? min_ts) && (max_ts <? requested.2)
  | Unstamped => false
  end.

Definition straddles (requested : KeyRange) (segment : SegmentMeta) : bool :=
  match sm_clustering_key_range segment with
  | Bounded min_ts max_ts =>
      (requested.1 <=? max_ts) && (min_ts <? requested.2) && negb (contained requested segment)
  | _ => false
  end.

Definition total_size (segments : list SegmentMeta) : Z := foldr (λ s n, sm_file_size s + n) 0 segments.

Lemma total_size_app a b : total_size (a ++ b) = total_size a + total_size b.
Proof. induction a as [|s a IH]; [done|]. cbn [app total_size foldr]. fold (total_size (a ++ b)). rewrite IH. cbn. fold (total_size a). lia. Qed.

Record selected (requested : KeyRange) (segments : list SegmentMeta) (sel : SegmentSelection) : Prop := {
  sx_retained : se_retained sel = List.filter (λ s, negb (contained requested s)) segments;
  sx_dropped : se_dropped sel = List.filter (contained requested) segments;
  sx_straddlers : se_straddlers sel = map sm_id (List.filter (straddles requested) segments);
  sx_bytes : se_bytes_reclaimed sel = total_size (List.filter (contained requested) segments);
}.

Lemma select_segment_selected requested segment : ∀ seen sel sel',
  selected requested seen sel → select_segment requested segment sel = Ok sel' →
  selected requested (seen ++ [segment]) sel'.
Proof.
  intros seen sel sel' [E1 E2 E3 E4] H. unfold select_segment in H.
  assert (∀ f : SegmentMeta → bool, List.filter f (seen ++ [segment])
    = List.filter f seen ++ (if f segment then [segment] else [])) as Hf.
  { intros f. rewrite List.filter_app. done. }
  assert (∀ sel', select_drop segment sel = Ok sel' → contained requested segment = true →
    straddles requested segment = false → selected requested (seen ++ [segment]) sel') as Hdrop.
  { clear H sel'. intros sel' H Hc Hs. unfold select_drop in H. ok_inv H n Hn. injection H as <-.
    split; cbn; rewrite Hf; rewrite ?Hc, ?Hs; cbn [negb]; rewrite ?app_nil_r; [done|by rewrite E2|done|].
    apply checked_add_Some in Hn as [-> _]. rewrite total_size_app, E4. cbn. lia. }
  assert (∀ b, contained requested segment = false → straddles requested segment = b →
    selected requested (seen ++ [segment]) (select_retain b segment sel)) as Hkeep.
  { clear H sel'. intros b Hc Hs. split; cbn; rewrite Hf; rewrite ?Hc, ?Hs; cbn [negb]; rewrite ?app_nil_r;
      [by rewrite E1|done| |done]. destruct b; [|by rewrite app_nil_r]. by rewrite map_app, E3. }
  destruct (sm_clustering_key_range segment) as [| |a b] eqn:E.
  - injection H as <-. apply Hkeep; unfold straddles, contained; by rewrite E.
  - apply Hdrop; [done| |]; unfold straddles, contained; by rewrite E.
  - destruct ((requested.1 <=? a) && (b <? requested.2)) eqn:Ec.
    + apply Hdrop; [done| |]; unfold straddles, contained; rewrite E, Ec; [done|apply andb_false_r].
    + injection H as <-. apply Hkeep; unfold straddles, contained; rewrite E, Ec; [done|apply andb_true_r].
Qed.

Lemma select_segments_selected segments requested sel :
  select_segments segments requested = Ok sel → selected requested segments sel.
Proof.
  unfold select_segments. match goal with |- select_loop _ _ ?s = _ → _ => set (none := s) end.
  assert (∀ segments seen sel0, selected requested seen sel0 → select_loop requested segments sel0 = Ok sel →
    selected requested (seen ++ segments) sel) as Hloop.
  { clear segments. induction segments as [|s segments IH]; intros seen sel0 Hs H; cbn [select_loop] in H.
    - injection H as <-. by rewrite app_nil_r.
    - bind_inv H sel1 H1. replace (seen ++ s :: segments) with ((seen ++ [s]) ++ segments) by (by rewrite <- app_assoc).
      eapply IH; [|exact H]. by eapply select_segment_selected. }
  apply (Hloop segments [] none). by split.
Qed.

(** ** File names *)

Definition hex_value (c : Ascii.ascii) : Z :=
  let n := Z.of_N (Ascii.N_of_ascii c) in if n <? 58 then n - 48 else n - 87.

Lemma hex_byte_digits b :
  ∃ c d, hex_byte b = String c (String d EmptyString) ∧ Ascii.N_of_ascii c ≠ 46%N ∧ byte_value b = hex_value c * 16 + hex_value d.
Proof. destruct b; (eexists _, _; split; [reflexivity|]; split; [discriminate|reflexivity]). Qed.

Lemma segment_file_name_inj a b : segment_file_name a = segment_file_name b → a = b.
Proof.
  unfold segment_file_name. intros H. apply (inj (String.append "segment-")) in H. revert b H.
  induction a as [|x a IH]; intros [|y b] H; cbn [foldr] in H; [done| | |].
  - destruct (hex_byte_digits y) as (c & d & E & Hc & _). rewrite E in H. injection H as Hd _. by subst c.
  - destruct (hex_byte_digits x) as (c & d & E & Hc & _). rewrite E in H. injection H as Hd _. by subst c.
  - destruct (hex_byte_digits x) as (c & d & E & _ & Vx), (hex_byte_digits y) as (c' & d' & E' & _ & Vy).
    rewrite E, E' in H. injection H as -> -> H. apply IH in H as ->. f_equal. apply byte_value_inj. by rewrite Vx, Vy.
Qed.

(** ** The directory *)

(** What a crash may show after the commit: the new manifest, and dropped files
    there or gone. *)
Definition dropped_view (start : view) (b : bytes) (names : list string) (v : view) : Prop :=
  v MANIFEST_FILE = Some (Some b)
  ∧ ∀ name, name ≠ MANIFEST_FILE → v name = start name ∨ name ∈ names ∧ v name = None.

Lemma dropped_view_put start b names : dropped_view start b names (put MANIFEST_FILE b start).
Proof. split; [apply put_eq|]. intros name Hn. left. by rewrite put_ne. Qed.

Lemma dropped_view_remove start b names v name :
  dropped_view start b names v → name ∈ names → name ≠ MANIFEST_FILE → dropped_view start b names (remove name v).
Proof.
  intros [H1 H2] Hin Hne. split; [by rewrite remove_ne|]. intros other Ho. unfold remove.
  destruct (decide (other = name)) as [->|]; [by right|by apply H2].
Qed.

Lemma segment_file_not_manifest id : segment_file_name id ≠ MANIFEST_FILE.
Proof. discriminate. Qed.

Section Unlink.
Context (start : view) (b : bytes) (names : list string).
Let P := dropped_view start b names.

Lemma unlink_dropped_view dropped : ∀ views n orphaned cur fs fs' views' n' orphaned',
  (∀ s, s ∈ dropped → segment_file_name (sm_id s) ∈ names) →
  directory_inv cur P fs → P cur →
  unlink_dropped dropped views n orphaned fs = (fs', (views', n', orphaned')) →
  ∃ cur', directory_inv cur' P fs' ∧ P cur' ∧ (∀ name, cur name = None → cur' name = None)
    ∧ (∃ more, orphaned' = orphaned ++ more)
    ∧ ∀ s, s ∈ dropped → (sm_id s ∈ orphaned') ∨ cur' (segment_file_name (sm_id s)) = None.
Proof using.
  induction dropped as [|s dropped IH]; intros views n orphaned cur fs fs' views' n' orphaned' Hn Hi Hc H; cbn [unlink_dropped] in H.
  { injection H as <- <- <- <-. exists cur. split_and!; [done|done|done|exists []; by rewrite app_nil_r|by intros s ?%elem_of_nil]. }
  assert (∀ t, t ∈ dropped → segment_file_name (sm_id t) ∈ names) as Hn' by (intros t Ht; apply Hn; by right).
  destruct (observe views) as [open views1].
  assert (∃ cur1 (kept : bool) fs1, directory_inv cur1 P fs1 ∧ P cur1 ∧ (∀ name, cur name = None → cur1 name = None)
    ∧ (kept = false → cur1 (segment_file_name (sm_id s)) = None)
    ∧ (if kept then unlink_dropped dropped views1 (saturating_sub n (sm_file_size s)) (orphaned ++ [sm_id s]) fs1
       else unlink_dropped dropped views1 n orphaned fs1) = (fs', (views', n', orphaned')))
    as (cur1 & kept & fs1 & Hi1 & Hc1 & Hm1 & Hk & H1).
  { destruct open; [by exists cur, true, fs|]. destruct (v_delete _ fs) as [fs1 r1] eqn:Ed.
    destruct (delete_name cur P fs _ fs1 r1 Hi Ed) as [[Hi1 Hr1]|Hi1].
    - exists cur, (negb (is_ok r1)), fs1. split_and!; try done. by destruct r1 as [[]|].
    - assert (P (remove (segment_file_name (sm_id s)) cur)) as Hp.
      { apply dropped_view_remove; [done|apply Hn; left|apply segment_file_not_manifest]. }
      exists (remove (segment_file_name (sm_id s)) cur), (negb (is_ok r1)), fs1. split_and!; try done.
      + eapply directory_inv_weaken; [exact Hi1|]. by intros v [?| ->].
      + intros name E. unfold remove. by destruct (decide _).
      + intros _. unfold remove. by rewrite decide_True. }
  destruct kept.
  - destruct (IH _ _ _ cur1 fs1 _ _ _ _ Hn' Hi1 Hc1 H1) as (cur' & Hi' & Hc' & Hm' & (more & ->) & Hd).
    exists cur'. split_and!; [done|done|auto|exists (sm_id s :: more); by rewrite <- app_assoc|].
    intros t [->|Ht]%elem_of_cons; [left; set_solver|by apply Hd].
  - destruct (IH _ _ _ cur1 fs1 _ _ _ _ Hn' Hi1 Hc1 H1) as (cur' & Hi' & Hc' & Hm' & Ho & Hd).
    exists cur'. split_and!; [done|done|auto|done|]. intros t [->|Ht]%elem_of_cons; [right; auto|by apply Hd].
Qed.
End Unlink.

(** The bytes reported are those of the files that are gone. *)
Lemma unlink_reports dropped : ∀ views n orphaned (fs fs' : Fs) views' n' orphaned',
  Forall (λ s, 0 ≤ sm_file_size s) dropped → total_size dropped ≤ n →
  unlink_dropped dropped views n orphaned fs = (fs', (views', n', orphaned')) →
  ∃ kept, kept `sublist_of` dropped ∧ orphaned' = orphaned ++ map sm_id kept ∧ n' = n - total_size kept.
Proof.
  induction dropped as [|s dropped IH]; intros views n orphaned fs fs' views' n' orphaned' Hs Hn H; cbn [unlink_dropped] in H.
  { injection H as <- <- <- <-. exists []. split_and!; [constructor|by rewrite app_nil_r|cbn; lia]. }
  apply Forall_cons in Hs as [H0 Hs]. cbn [total_size foldr] in Hn. fold (total_size dropped) in Hn.
  assert (0 ≤ total_size dropped) as Hpos.
  { clear -Hs. induction Hs as [|t dropped Ht _ IH]; [done|]. cbn [total_size foldr]. fold (total_size dropped). lia. }
  destruct (observe views) as [open views1].
  destruct (if open then (fs, true) else let '(s0, r) := v_delete (segment_file_name (sm_id s)) fs in (s0, negb (is_ok r)))
    as [fs1 [|]].
  - unfold saturating_sub in H. rewrite Z.max_r in H by lia.
    destruct (IH _ (n - sm_file_size s) _ _ _ _ _ _ Hs ltac:(lia) H) as (kept & Hk & -> & ->).
    exists (s :: kept). split_and!; [by constructor|by rewrite <- app_assoc|]. cbn [total_size foldr]. fold (total_size kept). lia.
  - destruct (IH _ n _ _ _ _ _ _ Hs ltac:(lia) H) as (kept & Hk & -> & ->). exists kept. split_and!; [by constructor|done|done].
Qed.

(** ** The drop *)

Section Drop.
Context {X : Xxh3}.
Implicit Types (w : Retaining Fs) (config : StoreConfig).

Abbreviation files w := (lg_files (rt_log w)).

Definition dropped_files (sel : SegmentSelection) : list string := map (λ s, segment_file_name (sm_id s)) (se_dropped sel).

(** The new manifest of a drop. *)
Definition drop_manifest config (current : ActiveState Bit4Factors) (m : Manifest) (sel : SegmentSelection) : Manifest :=
  retained_manifest config (as_generation current `max` mf_generation m + 1) m sel.

(** What a successful drop returns and publishes. *)
Record drop_returned config (current : ActiveState Bit4Factors) (m : Manifest) (sel : SegmentSelection)
    (before : Fs) w' (report : DropPartitionReport) : Prop := {
  dp_generation : dr_generation report = as_generation current `max` mf_generation m + 1;
  dp_committed : dr_manifest_committed report = true;
  dp_dropped : dr_segments_dropped report = map sm_id (se_dropped sel);
  dp_straddlers : dr_straddlers_skipped report = se_straddlers sel;
  dp_gone : ∀ s, s ∈ se_dropped sel → (sm_id s ∈ dr_orphaned_segments report)
              ∨ v_read (segment_file_name (sm_id s)) (files w') = Err NotFound;
  dp_bytes : ∃ kept, kept `sublist_of` se_dropped sel ∧ dr_orphaned_segments report = map sm_id kept
               ∧ dr_bytes_reclaimed report = se_bytes_reclaimed sel - total_size kept;
  dp_active : rt_active w' = Some {| as_generation := dr_generation report; as_segment := as_segment current |};
  dp_snapshot : ∃ snapshot, from_manifest (drop_manifest config current m sel) before = Ok snapshot
                  ∧ rt_snapshot w' = Some snapshot;
}.

(** A guarded commit: the old manifest, or the new one for good once it returns. *)
Lemma commit_guarded_outcome start m policy (l l' : LogState Fs) r :
  directory_inv start (λ v, v = start) (lg_files l) →
  data_file_sync policy ≠ SyncSkip → directory_sync policy = SyncWith Full → commit_guarded m policy l = (l', r) →
  (directory_inv start (λ v, v = start) (lg_files l') ∧ is_ok r = false)
  ∨ ∃ b, encode_manifest m = Ok b
      ∧ (∃ cur, directory_inv cur (λ v, v = start ∨ v = put MANIFEST_FILE b start) (lg_files l'))
      ∧ (r = Ok tt → directory_inv (put MANIFEST_FILE b start) (λ v, v = put MANIFEST_FILE b start) (lg_files l')).
Proof using.
  intros Hi Hd Hds H. unfold commit_guarded, run_on_error in H.
  destruct (encode_manifest m) as [b|e] eqn:Ee; cycle 1.
  { unfold commit_manifest in H. rewrite Ee in H. cbn in H. injection H as <- <-. by left. }
  destruct (commit_manifest _ _ _) as [fs1 r1] eqn:Ec.
  destruct (commit_manifest_replaces _ _ _ _ _ _ _ _ Hi Hd Ee Ec) as [Hrep Hok].
  right. exists b. split; [done|].
  assert (lg_files l' = fs1 ∧ (r = Ok tt → r1 = Ok tt)) as [-> Hr].
  { destruct r1 as [[]|e]; cbn [map_err] in H; by injection H as <- <-. }
  split; [destruct Hrep as [Hrep|Hrep]; by eexists|]. intros Hok1. destruct (Hok (Hr Hok1)) as [_ Hs]. by apply Hs.
Qed.

Lemma unlink_segments_outcome start b policy sel w w' r :
  let P := dropped_view start b (dropped_files sel) in
  (∃ cur, directory_inv cur P (files w) ∧ P cur) →
  unlink_segments policy sel w = (w', r) →
  ∃ cur n orphaned, r = Ok (n, orphaned) ∧ directory_inv cur P (files w')
    ∧ (∀ s, s ∈ se_dropped sel → (sm_id s ∈ orphaned) ∨ cur (segment_file_name (sm_id s)) = None)
    ∧ (Forall (λ s, 0 ≤ sm_file_size s) (se_dropped sel) → total_size (se_dropped sel) ≤ se_bytes_reclaimed sel →
       ∃ kept, kept `sublist_of` se_dropped sel ∧ orphaned = map sm_id kept
         ∧ n = se_bytes_reclaimed sel - total_size kept)
    ∧ rt_active w' = rt_active w ∧ rt_snapshot w' = rt_snapshot w.
Proof.
  intros P (cur & Hi & Hc) H. unfold unlink_segments in H.
  destruct (unlink_dropped _ _ _ _ _) as [fs1 [[views n] orphaned]] eqn:E.
  destruct (unlink_dropped_view start b (dropped_files sel) (se_dropped sel) _ _ _ cur _ _ _ _ _
    ltac:(intros s Hs; apply list_elem_of_fmap; by exists s) Hi Hc E) as (cur' & Hi' & Hc' & _ & _ & Hd).
  destruct (sync_if _ _ fs1) as [fs2 r2] eqn:E2. injection H as <- <-. exists cur', n, orphaned. split_and!; try done.
  - destruct (directory_sync policy); cbn [sync_if] in E2; [by injection E2 as <- _|].
    by apply (sync_directory _ _ _ _ _ _ Hi' E2).
  - intros Hs Hb. by apply (unlink_reports _ _ _ _ _ _ _ _ _ Hs Hb E).
Qed.

Lemma drop_selected_outcome start config current m sel w w' r :
  directory_inv start (λ v, v = start) (files w) →
  data_file_sync (sc_policy config) ≠ SyncSkip → directory_sync (sc_policy config) = SyncWith Full →
  Forall (λ s, 0 ≤ sm_file_size s) (se_dropped sel) → total_size (se_dropped sel) ≤ se_bytes_reclaimed sel →
  drop_selected config current m sel w = (w', r) →
  (directory_inv start (λ v, v = start) (files w') ∧ is_ok r = false)
  ∨ ∃ b cur, encode_manifest (drop_manifest config current m sel) = Ok b
      ∧ directory_inv cur (λ v, v = start ∨ dropped_view start b (dropped_files sel) v) (files w')
      ∧ (∀ report, r = Ok report → directory_inv cur (dropped_view start b (dropped_files sel)) (files w')
           ∧ drop_returned config current m sel (files w) w' report).
Proof.
  intros Hi Hd Hds Hsz Htot H. unfold drop_selected in H.
  unfold run_bind at 1, run_lift in H.
  destruct (checked_add u64_max _ 1) as [g|] eqn:Eg; cbn [ok_or] in H; [|injection H as <- <-; by left].
  apply checked_add_Some in Eg as [-> _]. fold (drop_manifest config current m sel) in H.
  unfold run_bind at 1, read_retaining, run_read in H.
  destruct (from_manifest _ (files w)) as [snapshot|e] eqn:Es; [|injection H as <- <-; by left].
  unfold run_bind at 1, on_retaining_log in H.
  destruct (commit_guarded _ _ _) as [l1 r1] eqn:Ec.
  destruct (commit_guarded_outcome start _ _ _ _ _ Hi Hd Hds Ec) as [[Hi1 Hr]|(b & Ee & (cur1 & Hi1) & Hnew)].
  { destruct r1; [done|]. injection H as <- <-. by left. }
  right. exists b. destruct r1 as [[]|e]; cycle 1.
  { injection H as <- <-. exists cur1. split_and!; [done| |done]. eapply directory_inv_weaken; [exact Hi1|].
    intros v [->| ->]; [by left|right; apply dropped_view_put]. }
  specialize (Hnew eq_refl).
  unfold run_bind at 1, run_put in H. unfold run_bind in H.
  match type of H with context [unlink_segments _ _ ?w0] => set (w1 := w0) in H end.
  destruct (unlink_segments (sc_policy config) sel w1) as [w2 r2] eqn:Eu.
  destruct (unlink_segments_outcome start b (sc_policy config) sel w1 w2 r2)
    as (cur & n & orphaned & -> & Hi2 & Hgone & Hb & Ha & Hsn); [|exact Eu|].
  { exists (put MANIFEST_FILE b start). split; [|apply dropped_view_put].
    eapply directory_inv_weaken; [exact Hnew|]. intros v ->. apply dropped_view_put. }
  cbv iota in H. injection H as <- <-. exists cur. split_and!; [done| |].
  - eapply directory_inv_weaken; [exact Hi2|]. intros v Hv. by right.
  - intros report [= <-]. split; [exact Hi2|]. split; cbn; try done.
    + intros s Hs. destruct (Hgone s Hs) as [?|Hn]; [by left|right]. by apply (view_absent _ _ _ _ Hi2 (hidden_segment _) Hn).
    + by apply Hb.
    + exists snapshot. by rewrite Hsn.
Qed.

(** The manifest a drop works on. *)
Definition drops (range : KeyRange) w (current : ActiveState Bit4Factors) (m : Manifest) (sel : SegmentSelection)
    : Prop :=
  rt_active w = Some current
  ∧ load_manifest MANIFEST_FILE (wal_durable_end (lg_writer (rt_log w))) (files w) = Ok m
  ∧ select_segments (mf_segments m) range = Ok sel ∧ se_dropped sel ≠ [].

Lemma drop_partition_outcome config state lock range w w' r :
  drop_partition config state lock range w = (w', r) →
  (files w' = files w ∧ ∀ report, r = Ok report → dr_manifest_committed report = false)
  ∨ ∃ current m sel w1, drops range w current m sel
      ∧ drop_selected config current m sel w = (w1, r) ∧ files w' = files w1
      ∧ rt_active w' = rt_active w1 ∧ rt_snapshot w' = rt_snapshot w1.
Proof.
  intros H. unfold drop_partition, run_bind at 1 in H.
  destruct (drop_partition_attempt config state lock range w) as [w1 r1] eqn:E.
  assert (files w' = files w1 ∧ rt_active w' = rt_active w1 ∧ rt_snapshot w' = rt_snapshot w1 ∧ r = r1)
    as (-> & -> & -> & ->) by (by destruct r1; injection H as <- <-).
  unfold drop_partition_attempt, run_bind at 1, run_lift in E.
  destruct (match state with Open => _ | Closing => _ | Closed => _ end); [|injection E as <- <-; by left].
  destruct lock; cbn [negb] in E; [|injection E as <- <-; by left].
  unfold run_bind at 1, on_retaining_log, manifest_publication, run_read at 1 in E.
  assert (set_retaining_log (rt_log w) w = w) as Ew by (by destruct w). rewrite Ew in E.
  destruct (flush _) as [[]|e]; [|injection E as <- <-; by left].
  unfold run_bind at 1, run_get in E. unfold run_bind at 1, run_read at 1 in E.
  destruct (rt_active w) as [current|] eqn:Ea; cbn [ok_or] in E; [|injection E as <- <-; by left].
  destruct (range.2 <=? range.1); [injection E as <- <-; left; split; [done|by intros report [= <-]]|].
  unfold run_bind at 1, read_retaining, run_read in E.
  destruct (committed_manifest _ _) as [[m|]|e] eqn:Em; [|injection E as <- <-; left; split; [done|by intros report [= <-]]|injection E as <- <-; by left].
  unfold run_bind at 1, run_lift in E.
  destruct (select_segments _ _) as [sel|e] eqn:Es; [|injection E as <- <-; by left].
  destruct (bool_decide_reflect (se_dropped sel = [])) as [Hn|Hn].
  { injection E as <- <-. left. split; [done|by intros report [= <-]]. }
  right. exists current, m, sel, w1. split_and!; try done. unfold drops. split_and!; try done.
  unfold committed_manifest in Em. destruct (v_open _ _) as [|[]]; [|done..].
  destruct (load_manifest _ _ _) as [m'|]; [|done]. by injection Em as ->.
Qed.

(** Both manifests of a drop are within the widths of their format, and the
    segments have different ids. *)
Record drop_fits (m new : Manifest) : Prop := {
  df_old : manifest_ok m;
  df_ids : NoDup (map sm_id (mf_segments m));
  df_new : manifest_ok new;
  df_payload : len (manifest_payload new) + 56 ≤ isize_max;
}.

Lemma retained_file m sel requested s :
  NoDup (map sm_id (mf_segments m)) → selected requested (mf_segments m) sel → s ∈ se_retained sel →
  segment_file_name (sm_id s) ∉ dropped_files sel.
Proof using.
  intros Hn [E1 E2 _ _] Hs (t & Et & Ht)%list_elem_of_fmap. apply segment_file_name_inj in Et.
  rewrite E1 in Hs. rewrite E2 in Ht. apply list_elem_of_In, List.filter_In in Hs as [Hs Cs], Ht as [Ht Ct].
  apply list_elem_of_In in Hs, Ht. assert (s = t) as <-; [by eapply (NoDup_fmap_elem sm_id)|]. by rewrite Ct in Cs.
Qed.

Lemma dropped_sizes m sel requested :
  manifest_ok m → selected requested (mf_segments m) sel →
  Forall (λ s, 0 ≤ sm_file_size s) (se_dropped sel) ∧ total_size (se_dropped sel) ≤ se_bytes_reclaimed sel.
Proof using.
  intros Hm [_ E2 _ E4]. rewrite E4, E2. split; [|done]. apply Forall_forall. intros s Hs.
  apply list_elem_of_In, List.filter_In in Hs as [Hs _]. apply list_elem_of_In in Hs.
  pose proof (proj1 (Forall_forall _ _) (ma_segments _ Hm) s Hs) as Hok. apply (sg_size _ Hok).
Qed.

Lemma drop_manifest_loads {L : Xxh3Laws X} config current m sel b durable (fs fs' : Fs) :
  drop_fits m (drop_manifest config current m sel) → encode_manifest (drop_manifest config current m sel) = Ok b →
  load_manifest MANIFEST_FILE durable fs = Ok m → v_read MANIFEST_FILE fs' = Ok b →
  load_manifest MANIFEST_FILE durable fs' = Ok (drop_manifest config current m sel).
Proof.
  intros [_ _ Hm Hp] He Hold Hr. eapply encoded_manifest_loads; try done. by eapply loaded_log_seq in Hold.
Qed.

(** What a crash after a drop leaves when the drop took effect. *)
Record partition_dropped config w (current : ActiveState Bit4Factors) (m : Manifest)
    (sel : SegmentSelection) (fs' : Fs) : Prop := {
  pd_manifest : load_manifest MANIFEST_FILE (wal_durable_end (lg_writer (rt_log w))) fs'
                = Ok (drop_manifest config current m sel);
  pd_retained : ∀ s, s ∈ se_retained sel → same_file (files w) fs' (segment_file_name (sm_id s));
  pd_other : ∀ name, hidden name = false → name ≠ MANIFEST_FILE → name ∉ dropped_files sel →
               same_file (files w) fs' name;
}.

Lemma dropped_view_shows {L : Xxh3Laws X} config range w current m sel start b v fs' :
  directory_inv start (λ u, u = start) (files w) → (∀ n, hidden n = false → start n ≠ Some None) →
  (∀ n c, hidden n = false → v n = Some (Some c) → v_read n fs' = Ok c) →
  (∀ n, hidden n = false → v n = None → v_read n fs' = Err NotFound) →
  drops range w current m sel → drop_fits m (drop_manifest config current m sel) →
  encode_manifest (drop_manifest config current m sel) = Ok b → dropped_view start b (dropped_files sel) v →
  partition_dropped config w current m sel fs'.
Proof.
  intros Hi Hs H1 H2 (Ha & Hload & Hsel & _) Hf He [Hm Ho].
  assert (∀ name, hidden name = false → name ≠ MANIFEST_FILE → name ∉ dropped_files sel →
    same_file (files w) fs' name) as Hother.
  { intros name Hn Hne Hd. eapply crash_same_file; try done. by destruct (Ho name Hne) as [?|[? _]]. }
  split; [by eapply drop_manifest_loads; [..|apply H1]| |exact Hother].
  intros s Hin. apply Hother; [apply hidden_segment|apply segment_file_not_manifest|].
  apply select_segments_selected in Hsel. by eapply retained_file; [apply Hf| |].
Qed.

(** C11: Retention loses exactly the partition, across I/O faults and crashes. Take
    a store at rest under a policy of full syncs of files and directory (barriers
    promise no durability), drop the segments of a key range and crash at any point
    of the drop or after it. Either every file is as it was and the drop did not
    report a commit; or the store loads the manifest without exactly the segments
    whose clustering range lies inside the key range (or is empty), and the file of
    every segment it still names, and every other file but those of the dropped
    segments, is as it was. A drop that reports success left the second state,
    published its snapshot and generation, and accounts for every dropped file as
    unlinked or orphaned. *)
Theorem retention_drops_partition {L : Xxh3Laws X} config state lock range w w' r (fs' : Fs) :
  settled (files w) → full_sync (sc_policy config) →
  (∀ current m sel, drops range w current m sel → drop_fits m (drop_manifest config current m sel)) →
  drop_partition config state lock range w = (w', r) → crashed (files w') fs' →
  ((∀ name, hidden name = false → same_file (files w) fs' name)
   ∧ ∀ report, r = Ok report → dr_manifest_committed report = false)
  ∨ ∃ current m sel, drops range w current m sel
      ∧ se_dropped sel = List.filter (contained range) (mf_segments m)
      ∧ se_retained sel = List.filter (λ s, negb (contained range s)) (mf_segments m)
      ∧ partition_dropped config w current m sel fs'
      ∧ ∀ report, r = Ok report → drop_returned config current m sel (files w) w' report.
Proof.
  intros (start & Hi & Hs) Hpol Hfits H Hcr.
  destruct (drop_partition_outcome _ _ _ _ _ _ _ H) as [[Ef Hr]|(current & m & sel & w1 & Hdrops & Hsel & Ef & Ea & Es)].
  { left. split; [|done]. rewrite Ef in Hcr. destruct (crash_shows _ _ _ _ Hi Hcr) as (v & -> & H1 & H2).
    intros name Hn. by eapply crash_same_file. }
  pose proof (Hfits _ _ _ Hdrops) as Hf. pose proof Hdrops as (_ & _ & Hss & _). apply select_segments_selected in Hss.
  destruct (dropped_sizes m sel range (df_old _ _ Hf) Hss) as [Hz Ht]. rewrite Ef in Hcr.
  assert (∀ b v, encode_manifest (drop_manifest config current m sel) = Ok b → dropped_view start b (dropped_files sel) v →
    (∀ n c, hidden n = false → v n = Some (Some c) → v_read n fs' = Ok c) →
    (∀ n, hidden n = false → v n = None → v_read n fs' = Err NotFound) →
    partition_dropped config w current m sel fs') as Hshow by (intros b v He Hv H1 H2; by eapply dropped_view_shows).
  assert (∀ report, drop_returned config current m sel (files w) w1 report →
    drop_returned config current m sel (files w) w' report) as Hret.
  { intros report [? ? ? ? Hg ? ? ?]. split; try done; [by rewrite Ef|by rewrite Ea|by rewrite Es]. }
  destruct (drop_selected_outcome start _ _ _ _ _ _ _ Hi (full_sync_data _ Hpol) (proj2 Hpol) Hz Ht Hsel) as [[Hi1 Hr]|(b & cur & He & Hi1 & Hok)].
  { left. destruct (crash_shows _ _ _ _ Hi1 Hcr) as (v & -> & H1 & H2). split; [|by intros report ->].
    intros name Hn. by eapply crash_same_file. }
  destruct r as [report|e].
  - right. exists current, m, sel. destruct (Hok report eq_refl) as [Hi2 Hreport].
    destruct (crash_shows _ _ _ _ Hi2 Hcr) as (v & Hv & H1 & H2).
    split_and!; [done|apply Hss|apply Hss|by eapply Hshow|]. intros report' [= <-]. by apply Hret.
  - destruct (crash_shows _ _ _ _ Hi1 Hcr) as (v & [->|Hv] & H1 & H2).
    + left. split; [|done]. intros name Hn. by eapply crash_same_file.
    + right. exists current, m, sel. split_and!; [done|apply Hss|apply Hss|by eapply Hshow|done].
Qed.
End Drop.

(** ** Dropping the one segment of a store *)

Module SampleRetention.
Import ToyXxh3.
#[local] Existing Instance toy.

Definition meta : SegmentMeta :=
  {| sm_id := zeros 16; sm_row_count := 1; sm_scheme := 4; sm_dims := 1; sm_file_size := 2; sm_epoch_id := None;
     sm_clustering_key_range := Bounded 3 5 |}.
Definition manifest (generation : Z) (segments : list SegmentMeta) : Manifest :=
  {| mf_generation := generation; mf_log_seq := 2; mf_segments := segments; mf_epochs := []; mf_epoch_alias := None;
     mf_schema := timestamp_only |}.
Definition encoded : bytes := match encode_manifest (manifest 7 [meta]) with Ok b => b | Err _ => [] end.
Definition name : string := segment_file_name (zeros 16).
Definition directory : gmap string nat := {[MANIFEST_FILE := 0%nat; name := 1%nat]}.
Definition fs : Fs :=
  {| fs_inodes := {[0%nat := {| in_data := encoded; in_synced := true |};
                    1%nat := {| in_data := [Byte.x01; Byte.x02]; in_synced := true |}]};
     fs_dir := directory; fs_dirs := [directory]; fs_past := []; fs_next := 2; fs_faults := [] |}.

Definition store : Retaining Fs :=
  {| rt_log := {| lg_files := fs; lg_writer := SampleReopen.writer |}; rt_active := Some SampleReopen.active;
     rt_snapshot := None; rt_views := []; rt_retained_through := None |}.
Definition config : StoreConfig := SampleReopen.config.
Definition result := drop_partition config Open true (0, 10) store.

Lemma directory_names n i : directory !! n = Some i → n = MANIFEST_FILE ∨ n = name.
Proof.
  intros H. unfold directory in H. apply lookup_insert_Some in H as [[<- _]|[_ H]]; [by left|].
  apply lookup_singleton_Some in H as [<- _]. by right.
Qed.

Lemma fs_settled : settled fs.
Proof.
  exists (shown fs directory). split.
  - split; cbn; try done.
    + left.
    + intros d ->%list_elem_of_singleton. by exists (shown fs directory).
    + intros temp i d n Ht Hi. by destruct (directory_names _ _ Hi) as [-> | ->].
    + intros temp i n Ht Hi. by destruct (directory_names _ _ Hi) as [-> | ->].
    + intros d n i ->%list_elem_of_singleton Hi. destruct (directory_names _ _ Hi) as [-> | ->]; vm_compute in Hi; injection Hi as <-; lia.
  - intros n Hn. unfold shown, shown_in. destruct (directory !! n) as [i|] eqn:Hi; [|done].
    destruct (directory_names _ _ Hi) as [-> | ->]; vm_compute in Hi; injection Hi as <-; by vm_compute.
Qed.

Definition selection : SegmentSelection :=
  {| se_retained := []; se_dropped := [meta]; se_straddlers := []; se_bytes_reclaimed := 2 |}.

Lemma store_loads :
  load_manifest MANIFEST_FILE (wal_durable_end (lg_writer (rt_log store))) (lg_files (rt_log store))
  = Ok (manifest 7 [meta]).
Proof. by vm_compute. Qed.

Lemma drops_only current m sel :
  drops (0, 10) store current m sel → current = SampleReopen.active ∧ m = manifest 7 [meta] ∧ sel = selection.
Proof.
  intros (Ha & Hm & Hs & _). rewrite store_loads in Hm. injection Ha as <-. injection Hm as <-.
  split_and!; [done|done|]. vm_compute in Hs. by injection Hs as <-.
Qed.

Lemma manifests_ok generation segments :
  is_u64 generation → Forall segment_ok segments → len segments ≤ u32_max → manifest_ok (manifest generation segments).
Proof. intros Hg Hs Hl. split; try done; [by exists []|repeat constructor; by vm_compute]. Qed.

Lemma sample_fits current m sel :
  drops (0, 10) store current m sel → drop_fits m (drop_manifest config current m sel).
Proof.
  intros (-> & -> & ->)%drops_only. split.
  - apply manifests_ok; [done| |by vm_compute]. apply Forall_singleton. split; try done; by vm_compute.
  - apply NoDup_singleton.
  - apply (manifests_ok 8 []); [done|constructor|by vm_compute].
  - by vm_compute.
Qed.

Lemma result_committed : ∃ report, result.2 = Ok report ∧ dr_manifest_committed report = true.
Proof. eexists. split; by vm_compute. Qed.

Lemma sample_crash : crashed (lg_files (rt_log result.1)) (lg_files (rt_log result.1)).
Proof. apply crashed_now, (bool_decide_unpack _). by vm_compute. Qed.
End SampleRetention.

Lemma retention_drops_partition_witness :
  let fs := lg_files (rt_log SampleRetention.result.1) in
  load_manifest (X:=ToyXxh3.toy) MANIFEST_FILE 3 fs = Ok (SampleRetention.manifest 8 []).
Proof.
  destruct SampleRetention.result_committed as (report & Er & Hc).
  destruct (retention_drops_partition (X:=ToyXxh3.toy) (L:=ToyXxh3.toy_laws) SampleRetention.config Open true (0, 10)
    SampleRetention.store SampleRetention.result.1 SampleRetention.result.2 (lg_files (rt_log SampleRetention.result.1))
    SampleRetention.fs_settled (conj eq_refl eq_refl) SampleRetention.sample_fits
    (surjective_pairing SampleRetention.result) SampleRetention.sample_crash)
    as [[_ Hn]|(current & m & sel & Hd & _ & _ & [Hm _ _] & _)].
  - specialize (Hn report Er). congruence.
  - apply SampleRetention.drops_only in Hd as (-> & -> & ->). exact Hm.
Defined.
