(* ===== verification/EpochTransition.v ===== *)
(** * Epoch transitions

    Models [crates/zeppelin-embed/src/epoch/transition.rs] in the build without
    the [graph-cypher] feature: publishing another epoch of a store once it holds
    exactly the live revisions of the published one, and dropping the segments of
    an epoch that is not published.

    The wait for the readers of the previous snapshot is the argument [drain], its
    outcome; whether snapshot views are open is the argument [views]. *)

From stdpp Require Import gmap.
From S2P Require Import Prelude Format WalReplay Durability WalWriter Schema Epoch Manifest Vfs ManifestIo Bitmap IngestPayload SegmentLayout SegmentWriter SegmentReader SegmentRows StoreErrors Accounted ActiveSegment ActiveIngest Snapshot StoreWal Retention.

Inductive EpochTransitionError : Type :=
| TransitionStore (e : StoreError)
| EpochUnavailable (target : EpochIdentity)
| IncompleteEpoch (target : EpochIdentity) (missing_documents unexpected_documents : Z)
| MissingDocumentIdentity (epoch : Z) (segment_id : bytes) (row : Z)
| EmbeddingEpochUnavailable (target : Z)
| PublishedEpoch (target : Z)
| UnsealedWrites (active_rows absorbed_through durable_end : Z)
| ReclaimedBytesOverflow.

Definition require_absorbed (active_rows : Z) (manifest : Manifest) (durable_end : Z)
    : result EpochTransitionError unit :=
  if negb (active_rows =? 0) || negb (mf_log_seq manifest =? durable_end)
  then Err (UnsealedWrites active_rows (mf_log_seq manifest) durable_end)
  else Ok tt.

(** ** The live revisions of an epoch *)

(** How often each revision is live. *)
Abbreviation Documents := (gmap (Z * Z) Z).

Definition count_document (version : DocumentVersion) (documents : Documents) : Documents :=
  let key := (dv_doc_id version, dv_revision version) in
  <[key := saturating_add usize_max (default 0 (documents !! key)) 1]> documents.

Section Live.
Context {X : Xxh3} {B : Type} {R : Roaring B}.

(** The loop over the live rows of a segment. *)
Fixpoint count_rows (epoch : Z) (rows : list Z) (r : SegmentReader) (documents : Documents)
    : SegmentReader * result EpochTransitionError Documents :=
  match rows with
  | [] => (r, Ok documents)
  | row :: rows =>
      match document_version row r with
      | (r, Err e) => (r, Err (TransitionStore (StoreSegment e)))
      | (r, Ok None) => (r, Err (MissingDocumentIdentity epoch (sm_id (sr_meta r)) row))
      | (r, Ok (Some version)) => count_rows epoch rows r (count_document version documents)
      end
  end.

Definition of_epoch (epoch : Z) (r : SegmentReader) : bool := bool_decide (sm_epoch_id (sr_meta r) = Some epoch).

(** The loop over the segments; the readers keep what their reads cached. *)
Fixpoint count_segments (epoch : Z) (readers : list SegmentReader) (documents : Documents)
    : list SegmentReader * result EpochTransitionError Documents :=
  match readers with
  | [] => ([], Ok documents)
  | r :: readers =>
      if negb (of_epoch epoch r) then
        let '(readers, counted) := count_segments epoch readers documents in (r :: readers, counted)
      else
      match reader_alive (B:=B) r with
      | Err e => (r :: readers, Err (TransitionStore (StoreSegment e)))
      | Ok alive =>
          match count_rows epoch (iter_alive alive) r documents with
          | (r, Err e) => (r :: readers, Err e)
          | (r, Ok documents) =>
              let '(readers, counted) := count_segments epoch readers documents in (r :: readers, counted)
          end
      end
  end.

Definition with_segments (segments : list SegmentReader) (snapshot : LoadedSnapshot) : LoadedSnapshot :=
  {| ls_generation := ls_generation snapshot; ls_absorbed_through := ls_absorbed_through snapshot;
     ls_graph_absorbed_through := ls_graph_absorbed_through snapshot;
     ls_epoch_alias := ls_epoch_alias snapshot; ls_graph_profile := ls_graph_profile snapshot;
     ls_schema := ls_schema snapshot; ls_segments := segments;
     ls_query_segment_count := ls_query_segment_count snapshot |}.

Definition live_document_versions (snapshot : LoadedSnapshot) (epoch : Z)
    : LoadedSnapshot * result EpochTransitionError Documents :=
  let '(readers, counted) := count_segments epoch (ls_segments snapshot) ∅ in
  (with_segments readers snapshot, counted).

Definition multiset_difference (left right : Documents) : Z :=
  map_fold (λ document count difference,
    saturating_add usize_max difference (saturating_sub count (default 0 (right !! document)))) 0 left.

(** The comparison of the two epochs before the switch. *)
Definition require_complete (snapshot : LoadedSnapshot) (previous target : EpochIdentity)
    : result EpochTransitionError LoadedSnapshot :=
  let '(snapshot, counted) := live_document_versions snapshot (ei_embedding previous) in
  source_documents ← counted;
  let '(snapshot, counted) := live_document_versions snapshot (ei_embedding target) in
  target_documents ← counted;
  let missing := multiset_difference source_documents target_documents in
  let unexpected := multiset_difference target_documents source_documents in
  if negb (missing =? 0) || negb (unexpected =? 0) then Err (IncompleteEpoch target missing unexpected)
  else Ok snapshot.
End Live.

(** ** The transitions *)

(** The state they change; [tn_alias] is the cell queries read. *)
Record Transitioning (S : Type) : Type := {
  tn_log : LogState S;
  tn_active : option (ActiveState Bit4Factors);
  tn_snapshot : option LoadedSnapshot;
  tn_alias : option EpochIdentity;
}.
Arguments tn_log {S} _.
Arguments tn_active {S} _.
Arguments tn_snapshot {S} _.
Arguments tn_alias {S} _.

Record EpochAliasReport : Type := {
  ea_generation : Z;
  ea_previous : EpochIdentity;
  ea_published : EpochIdentity;
  ea_manifest_committed : bool;
}.

Record DropEpochReport : Type := {
  de_generation : Z;
  de_segments_dropped : list bytes;
  de_bytes_reclaimed : Z;
}.

Section Transition.
Context {X : Xxh3} {S : Type} `{Vfs S} {B : Type} {R : Roaring B}.
Implicit Types (w : Transitioning S) (current : ActiveState Bit4Factors) (policy : DurabilityPolicy).

Abbreviation Step A := (RunE (Transitioning S) EpochTransitionError A).

Definition set_transition_log (l : LogState S) w : Transitioning S :=
  {| tn_log := l; tn_active := tn_active w; tn_snapshot := tn_snapshot w; tn_alias := tn_alias w |}.

(** An operation of the log, and a read of the files. *)
Definition on_transition_log {A} (m : Run (LogState S) A) : Step A :=
  run_map_err TransitionStore (λ w, let '(l, r) := m (tn_log w) in (set_transition_log l w, r)).
Definition read_files {A} (f : S → result StoreError A) : Step A :=
  run_read (λ w, map_err TransitionStore (f (lg_files (tn_log w)))).

(** [admit_epoch_transition]. *)
Definition admit_epoch_transition (state : StoreState) (writer_lock : bool)
    : Step (ActiveState Bit4Factors * Manifest) :=
  (let! _ := run_lift (match state with
                       | Open => Ok tt
                       | Closing => Err (TransitionStore StoreClosing)
                       | Closed => Err (TransitionStore StoreClosed)
                       end) in
   if negb writer_lock then run_err (TransitionStore StoreReadOnly)
   else
   let! _ := on_transition_log manifest_publication in
   let! durable_end := run_get (λ w, wal_durable_end (lg_writer (tn_log w))) in
   let! current := run_read (λ w, ok_or (tn_active w) (TransitionStore StoreClosed)) in
   let! manifest := read_files (λ s, map_err StoreManifest (load_manifest MANIFEST_FILE durable_end s)) in
   let! _ := run_lift (require_absorbed (len (bf_data (sg_doc_ids (as_segment current)))) manifest durable_end) in
   run_ret (current, manifest))%run.

(** The manifest that publishes [target]. *)
Definition switched_manifest (generation : Z) (target : EpochIdentity) (manifest : Manifest) : Manifest :=
  {| mf_generation := generation; mf_log_seq := mf_log_seq manifest; mf_segments := mf_segments manifest;
     mf_epochs := mf_epochs manifest; mf_epoch_alias := Some target; mf_schema := mf_schema manifest |}.

Definition publish_transition (generation : Z) current (snapshot : LoadedSnapshot) (alias : option EpochIdentity) w
    : Transitioning S :=
  {| tn_log := tn_log w; tn_active := Some {| as_generation := generation; as_segment := as_segment current |};
     tn_snapshot := Some snapshot; tn_alias := alias |}.

(** Publication after the commit: the alias is stored even when the readers of
    the previous snapshot did not drain in time, and the writer is then fenced. *)
Definition publish_alias (generation : Z) current (snapshot : LoadedSnapshot) (target : EpochIdentity)
    (drain : result StoreError unit) : Step unit := λ w,
  let prior := tn_snapshot w in
  let w := publish_transition generation current snapshot (Some target) w in
  match prior, drain with
  | Some _, Err e => (set_transition_log (fence_log (tn_log w)) w, Err (TransitionStore e))
  | _, _ => (w, Ok tt)
  end.

Definition is_registered (target : EpochIdentity) (manifest : Manifest) : bool :=
  existsb (λ epoch, (em_id epoch =? ei_embedding target) && (em_tokenizer epoch =? ei_tokenizer target))
    (mf_epochs manifest).

Definition is_retained (target : EpochIdentity) (manifest : Manifest) : bool :=
  existsb (λ segment, bool_decide (sm_epoch_id segment = Some (ei_embedding target))) (mf_segments manifest).

Definition switch_epoch_alias policy (state : StoreState) (writer_lock : bool) (drain : result StoreError unit)
    (target : EpochIdentity) : Step EpochAliasReport :=
  (let! (current, manifest) := admit_epoch_transition state writer_lock in
   let! previous := run_lift (ok_or (mf_epoch_alias manifest) (EpochUnavailable target)) in
   if bool_decide (previous = target)
   then run_ret {| ea_generation := as_generation current `max` mf_generation manifest; ea_previous := previous;
                   ea_published := target; ea_manifest_committed := false |}
   else if negb (is_registered target manifest) || negb (is_retained target manifest)
   then run_err (EpochUnavailable target)
   else
   let! generation := run_lift (ok_or (checked_add u64_max (as_generation current `max` mf_generation manifest) 1)
                                  (TransitionStore StoreGenerationOverflow)) in
   let manifest := switched_manifest generation target manifest in
   let! remapped := read_files (from_manifest manifest) in
   let! remapped := run_lift (require_complete (B:=B) remapped previous target) in
   let! _ := on_transition_log manifest_publication in
   let! _ := on_transition_log (commit_guarded manifest policy) in
   let! _ := publish_alias generation current remapped target drain in
   run_ret {| ea_generation := generation; ea_previous := previous; ea_published := target;
              ea_manifest_committed := true |})%run.

(** ** Dropping an epoch *)

(** The loop that divides the segments: retained, dropped, bytes. *)
Fixpoint divide_segments (target : Z) (segments retained dropped : list SegmentMeta) (bytes_reclaimed : Z)
    : result EpochTransitionError (list SegmentMeta * list SegmentMeta * Z) :=
  match segments with
  | [] => Ok (retained, dropped, bytes_reclaimed)
  | segment :: segments =>
      if bool_decide (sm_epoch_id segment = Some target) then
        bytes_reclaimed ← ok_or (checked_add u64_max bytes_reclaimed (sm_file_size segment)) ReclaimedBytesOverflow;
        divide_segments target segments retained (dropped ++ [segment]) bytes_reclaimed
      else divide_segments target segments (retained ++ [segment]) dropped bytes_reclaimed
  end.

Definition without_epoch (generation : Z) (retained : list SegmentMeta) (manifest : Manifest) : Manifest :=
  {| mf_generation := generation; mf_log_seq := mf_log_seq manifest; mf_segments := retained;
     mf_epochs := mf_epochs manifest; mf_epoch_alias := mf_epoch_alias manifest; mf_schema := mf_schema manifest |}.

Fixpoint delete_segments (segments : list SegmentMeta) (s : S) : S * result StoreError unit :=
  match segments with
  | [] => (s, Ok tt)
  | segment :: segments =>
      let path := segment_file_name (sm_id segment) in
      match v_delete path s with
      | (s, Ok _) => delete_segments segments s
      | (s, Err k) => (s, Err (StoreIo path k))
      end
  end.

(** The unlinks and the sync of the directory. *)
Definition reclaim_segments policy (segments : list SegmentMeta) : Run (LogState S) unit :=
  (let! _ := (λ l, let '(s, r) := delete_segments segments (lg_files l) in (set_files s l, r)) in
   on_files "." (sync_if (directory_sync policy) Directory))%run.

Definition drop_epoch policy (state : StoreState) (writer_lock views : bool) (target : Z) : Step DropEpochReport :=
  (let! (current, manifest) := admit_epoch_transition state writer_lock in
   if views then run_err (TransitionStore StoreSnapshotViewsOpen)
   else if bool_decide (ei_embedding <$> mf_epoch_alias manifest = Some target) then run_err (PublishedEpoch target)
   else
   let! (retained, dropped, bytes_reclaimed) :=
     run_lift (divide_segments target (mf_segments manifest) [] [] 0) in
   if bool_decide (dropped = []) then run_err (EmbeddingEpochUnavailable target)
   else
   let! generation := run_lift (ok_or (checked_add u64_max (as_generation current `max` mf_generation manifest) 1)
                                  (TransitionStore StoreGenerationOverflow)) in
   let manifest := without_epoch generation retained manifest in
   let! remapped := read_files (from_manifest manifest) in
   let! _ := on_transition_log manifest_publication in
   let! _ := on_transition_log (commit_guarded manifest policy) in
   let! _ := run_put (λ w, publish_transition generation current remapped (tn_alias w) w) in
   let! _ := on_transition_log (reclaim_segments policy dropped) in
   run_ret {| de_generation := generation; de_segments_dropped := map sm_id dropped;
              de_bytes_reclaimed := bytes_reclaimed |})%run.
End Transition.
