(* ===== verification/EpochTransitionSpec.v ===== *)
(** * Epoch transitions are complete and atomic

    A switch publishes the target epoch only when its live revisions are those of
    the published one, and a crash leaves the old alias or the new one; a drop
    loses the segments of its epoch and no other. *)

From stdpp Require Import gmap.
From S2P Require Import Prelude Format WalReplay Durability WalWriter Schema Epoch Manifest ManifestCodec Vfs CrashDirectory ManifestIo Bitmap IngestPayload SegmentLayout SegmentWriter SegmentReader SegmentRows StoreErrors Accounted ActiveSegment ActiveIngest Snapshot StoreWal Seal SealSpec SegmentImage SealServes SealRecovery Retention EpochTransition.

(** ** Multisets of revisions *)

Definition version_key (v : DocumentVersion) : Z * Z := (dv_doc_id v, dv_revision v).

Definition counts (versions : list DocumentVersion) (documents : Documents) : Documents :=
  foldl (λ documents v, count_document v documents) documents versions.

Definition occurrences (key : Z * Z) (versions : list DocumentVersion) : nat :=
  count_occ (λ x y : Z * Z, decide (x = y)) (map version_key versions) key.

Lemma counts_lookup versions key :
  default 0 (counts versions ∅ !! key) = usize_max `min` Z.of_nat (occurrences key versions).
Proof.
  induction versions as [|v versions IH] using rev_ind; [done|]. unfold counts. rewrite foldl_app. cbn [foldl].
  fold (counts versions ∅). set (docs := counts versions ∅) in *.
  change (count_document v docs) with (<[version_key v := saturating_add usize_max (default 0 (docs !! version_key v)) 1]> docs).
  unfold occurrences in *. rewrite map_app, count_occ_app. cbn [map count_occ].
  destruct (decide (version_key v = key)) as [->|Hne].
  - rewrite lookup_insert_eq, IH. cbn [from_option]. unfold id, saturating_add. unfold usize_max, u64_max. lia.
  - rewrite lookup_insert_ne by done. rewrite IH. lia.
Qed.

Lemma multiset_difference_zero left right :
  (∀ k, 0 ≤ default 0 (right !! k)) →
  multiset_difference left right = 0 ↔ ∀ k, default 0 (left !! k) ≤ default 0 (right !! k).
Proof.
  intros Hpos. unfold multiset_difference.
  set (P := λ (r : Z) (m : Documents), 0 ≤ r ∧ (r = 0 ↔ ∀ k, default 0 (m !! k) ≤ default 0 (right !! k))).
  cut (P (map_fold (λ document count difference,
    saturating_add usize_max difference (saturating_sub count (default 0 (right !! document)))) 0 left) left); [by intros [_ ?]|].
  apply map_fold_weak_ind; unfold P.
  - split; [done|]. split; [|done]. intros _ k. rewrite lookup_empty. apply Hpos.
  - intros k c m r Hk [H0 Hr]. unfold saturating_add, saturating_sub. split; [unfold usize_max, u64_max; lia|].
    assert (usize_max `min` (r + 0 `max` (c - default 0 (right !! k))) = 0 ↔ r = 0 ∧ c ≤ default 0 (right !! k)) as ->
      by (unfold usize_max, u64_max; lia).
    rewrite Hr. split.
    + intros [Hm Hc] k'. destruct (decide (k' = k)) as [->|Hne]; [by rewrite lookup_insert_eq|].
      rewrite lookup_insert_ne by done. apply Hm.
    + intros Hm. split.
      * intros k'. destruct (decide (k' = k)) as [->|Hne]; [rewrite Hk; apply Hpos|].
        specialize (Hm k'). by rewrite lookup_insert_ne in Hm.
      * specialize (Hm k). by rewrite lookup_insert_eq in Hm.
Qed.

(** No difference either way: the same revisions, each as often. *)
Lemma no_difference source target :
  len source ≤ usize_max → len target ≤ usize_max →
  multiset_difference (counts source ∅) (counts target ∅) = 0 →
  multiset_difference (counts target ∅) (counts source ∅) = 0 → source ≡ₚ target.
Proof.
  intros Hs Ht H1 H2.
  assert (∀ l k, len l ≤ usize_max → default 0 (counts l ∅ !! k) = Z.of_nat (occurrences k l)) as Hc.
  { intros l k Hl. rewrite counts_lookup. unfold occurrences.
    pose proof (count_occ_bound (λ x y : Z * Z, decide (x = y)) k (map version_key l)) as Hb.
    rewrite length_map in Hb. unfold len in Hl. lia. }
  assert (∀ l k, 0 ≤ default 0 (counts l ∅ !! k)) as Hpos.
  { intros l k. rewrite counts_lookup. unfold usize_max, u64_max. lia. }
  rewrite multiset_difference_zero in H1, H2 by apply Hpos.
  assert (map version_key source ≡ₚ map version_key target) as Hp.
  { apply (Permutation_count_occ (λ x y : Z * Z, decide (x = y))). intros k. specialize (H1 k). specialize (H2 k).
    rewrite !Hc in H1, H2 by done. unfold occurrences in *. lia. }
  assert (∀ l, l = map (λ k : Z * Z, {| dv_doc_id := k.1; dv_revision := k.2 |}) (map version_key l)) as Hid.
  { intros l. rewrite map_map. symmetry. rewrite <- (map_id l) at 2. apply map_ext. by intros []. }
  rewrite (Hid source), (Hid target). by apply Permutation_map.
Qed.

(** ** Reading the revisions *)

Section Live.
Context {X : Xxh3} {B : Type} {R : Roaring B}.

(** Reads of one reader give what the reads of the other give. *)
Record reads_same (r r' : SegmentReader) : Prop := {
  rs_meta : sr_meta r' = sr_meta r;
  rs_alive : reader_alive (B:=B) r' = reader_alive r;
  rs_version : ∀ row, (document_version row r').2 = (document_version row r).2;
}.

#[export] Instance reads_same_preorder : PreOrder reads_same.
Proof.
  split; [by intros r|]. intros r1 r2 r3 [A1 A2 A3] [B1 B2 B3].
  split; [congruence|congruence|]. intros row. by rewrite B3, A3.
Qed.

Lemma version_reads_same row r : reads_same r (document_version row r).1.
Proof.
  unfold document_version, with_documents, document_versions_region.
  destruct (find_entry r _) as [entry|] eqn:Ef; [|done].
  set (validation := default _ _). set (r1 := set_validation validation r).
  assert (reads_same r r1) as Hs.
  { split; [done|done|]. intros row'. unfold document_version, with_documents, document_versions_region.
    change (find_entry r1 (region_id RegionDocumentVersions)) with (find_entry r (region_id RegionDocumentVersions)).
    rewrite Ef. cbn zeta. change (sr_document_versions_validation r1) with (Some validation). cbn [default].
    change (set_validation validation r1) with r1.
    change (region_slice r1 entry) with (region_slice r entry). done. }
  repeat case_match; simplify_eq; done.
Qed.

(** The versions of live rows, read from [r]. *)
Definition versions_of_rows (r : SegmentReader) (rows : list Z) (versions : list DocumentVersion) : Prop :=
  Forall2 (λ row v, (document_version row r).2 = Ok (Some v)) rows versions.

(** The live revisions of an epoch in a list of readers, in order. *)
Inductive live_versions (epoch : Z) : list SegmentReader → list DocumentVersion → Prop :=
| live_nil : live_versions epoch [] []
| live_skip r readers versions :
    of_epoch epoch r = false → live_versions epoch readers versions → live_versions epoch (r :: readers) versions
| live_segment r readers alive here versions :
    of_epoch epoch r = true → reader_alive (B:=B) r = Ok alive → versions_of_rows r (iter_alive alive) here →
    live_versions epoch readers versions → live_versions epoch (r :: readers) (here ++ versions).

Lemma count_rows_versions epoch rows : ∀ r documents r' documents',
  count_rows epoch rows r documents = (r', Ok documents') →
  reads_same r r' ∧ ∃ versions, versions_of_rows r rows versions ∧ documents' = counts versions documents.
Proof.
  induction rows as [|row rows IH]; intros r documents r' documents' H; cbn [count_rows] in H.
  { injection H as <- <-. split; [done|]. exists []. by split; [constructor|]. }
  pose proof (version_reads_same row r) as Hs. destruct (document_version row r) as [r1 [[v|]|e]] eqn:Ev; [|done..].
  cbn [fst] in Hs. destruct (IH _ _ _ _ H) as (Hs' & versions & Hv & ->). split; [by etrans|].
  exists (v :: versions). split; [|done]. constructor; [by rewrite Ev|].
  eapply Forall2_impl; [exact Hv|]. intros row' v' E. by rewrite <- (rs_version _ _ Hs).
Qed.

Lemma versions_same r r' rows versions :
  reads_same r r' → versions_of_rows r' rows versions → versions_of_rows r rows versions.
Proof. intros Hs Hv. eapply Forall2_impl; [exact Hv|]. intros row v E. by rewrite <- (rs_version _ _ Hs). Qed.

Lemma of_epoch_same epoch r r' : reads_same r r' → of_epoch epoch r' = of_epoch epoch r.
Proof. intros Hs. unfold of_epoch. by rewrite (rs_meta _ _ Hs). Qed.

Lemma live_same epoch readers readers' versions :
  Forall2 reads_same readers readers' → live_versions epoch readers' versions → live_versions epoch readers versions.
Proof.
  intros Hs. revert versions. induction Hs as [|r r' readers readers' Hr Hs IH]; intros versions Hl; [done|].
  inversion Hl as [|? ? ? E Hl'|? ? alive here vs E Ea Hh Hl']; subst.
  - rewrite (of_epoch_same epoch r r' Hr) in E. apply live_skip; [done|by apply IH].
  - rewrite (of_epoch_same epoch r r' Hr) in E. rewrite (rs_alive _ _ Hr) in Ea.
    eapply live_segment; [done|done| |by apply IH]. by eapply versions_same.
Qed.

Lemma count_segments_versions epoch readers : ∀ documents readers' documents',
  count_segments (B:=B) epoch readers documents = (readers', Ok documents') →
  Forall2 reads_same readers readers'
  ∧ ∃ versions, live_versions epoch readers versions ∧ documents' = counts versions documents.
Proof.
  induction readers as [|r readers IH]; intros documents readers' documents' H; cbn [count_segments] in H.
  { injection H as <- <-. split; [done|]. exists []. by split; [constructor|]. }
  destruct (of_epoch epoch r) eqn:Eo; cbn [negb] in H.
  - destruct (reader_alive r) as [alive|e] eqn:Ea; [|done].
    destruct (count_rows _ _ _ _) as [r1 [documents1|e]] eqn:Er; [|done].
    destruct (count_rows_versions _ _ _ _ _ _ Er) as (Hs & here & Hh & ->).
    destruct (count_segments _ readers _) as [readers1 counted] eqn:Es. injection H as <- ->.
    destruct (IH _ _ _ Es) as (Hss & versions & Hl & ->). split; [by constructor|].
    exists (here ++ versions). split; [by eapply live_segment|]. unfold counts. by rewrite foldl_app.
  - destruct (count_segments _ readers _) as [readers1 counted] eqn:Es. injection H as <- ->.
    destruct (IH _ _ _ Es) as (Hss & versions & Hl & ->). split; [by constructor|].
    exists versions. split; [by apply live_skip|done].
Qed.

(** The check before the switch compares the live revisions of the two epochs. *)
Lemma require_complete_same snapshot previous target snapshot' :
  require_complete (B:=B) snapshot previous target = Ok snapshot' →
  Forall2 reads_same (ls_segments snapshot) (ls_segments snapshot')
  ∧ ∃ source published, live_versions (ei_embedding previous) (ls_segments snapshot) source
      ∧ live_versions (ei_embedding target) (ls_segments snapshot) published
      ∧ (len source ≤ usize_max → len published ≤ usize_max → source ≡ₚ published).
Proof.
  intros H. unfold require_complete, live_document_versions in H.
  destruct (count_segments _ (ls_segments snapshot) ∅) as [readers1 [docs1|]] eqn:E1; [|done]. rewrite bind_Ok in H.
  cbn [ls_segments with_segments] in H.
  destruct (count_segments _ readers1 ∅) as [readers2 [docs2|]] eqn:E2; [|done]. rewrite bind_Ok in H.
  destruct (count_segments_versions _ _ _ _ _ E1) as (Hs1 & source & Hl1 & ->).
  destruct (count_segments_versions _ _ _ _ _ E2) as (Hs2 & published & Hl2 & ->).
  destruct (Z.eqb_spec (multiset_difference (counts source ∅) (counts published ∅)) 0) as [D1|]; [|done].
  destruct (Z.eqb_spec (multiset_difference (counts published ∅) (counts source ∅)) 0) as [D2|]; [|done].
  injection H as <-. split.
  - by transitivity readers1.
  - exists source, published. split_and!; [done|by eapply live_same|]. intros L1 L2. by apply no_difference.
Qed.
End Live.

(** ** Through a transition *)

Section Transition.
Context {X : Xxh3} {L : Xxh3Laws X} {B : Type} {R : Roaring B}.
Implicit Types (w : Transitioning Fs) (current : ActiveState Bit4Factors) (policy : DurabilityPolicy).

Abbreviation files w := (lg_files (tn_log w)).

(** The store a transition works on: nothing is left to seal. *)
Record admitted w current (m : Manifest) : Prop := {
  ad_active : tn_active w = Some current;
  ad_manifest : load_manifest MANIFEST_FILE (wal_durable_end (lg_writer (tn_log w))) (files w) = Ok m;
  ad_empty : bf_data (sg_doc_ids (as_segment current)) = [];
  ad_absorbed : mf_log_seq m = wal_durable_end (lg_writer (tn_log w));
}.

Lemma transition_log_reads {A} (f : LogState Fs → result StoreError A) w :
  on_transition_log (run_read f) w = (w, map_err TransitionStore (f (tn_log w))).
Proof using. by destruct w. Qed.

Lemma admit_outcome state lock w w' r :
  admit_epoch_transition state lock w = (w', r) →
  w' = w ∧ ∀ current m, r = Ok (current, m) → admitted w current m.
Proof using.
  intros H. unfold admit_epoch_transition, run_bind at 1, run_lift in H.
  destruct (match state with Open => _ | Closing => _ | Closed => _ end) as [[]|e]; [|by injection H as <- <-].
  destruct lock; cbn [negb] in H; [|by injection H as <- <-].
  unfold run_bind at 1, manifest_publication in H. rewrite transition_log_reads in H.
  destruct (flush _) as [[]|e]; cbn [map_err] in H; [|by injection H as <- <-].
  unfold run_bind at 1, run_get in H. unfold run_bind at 1, run_read in H.
  destruct (tn_active w) as [current|] eqn:Ea; cbn [ok_or] in H; [|by injection H as <- <-].
  unfold run_bind at 1, read_files, run_read in H.
  destruct (load_manifest _ _ _) as [m|e] eqn:Em; cbn [map_err] in H; [|by injection H as <- <-].
  unfold run_bind, run_lift, require_absorbed, run_ret in H.
  destruct (Z.eqb_spec (len (bf_data (sg_doc_ids (as_segment current)))) 0) as [Ez|]; [|by injection H as <- <-].
  destruct (Z.eqb_spec (mf_log_seq m) (wal_durable_end (lg_writer (tn_log w)))) as [El|]; [|by injection H as <- <-].
  cbn [negb orb] in H. injection H as <- <-. split; [done|]. intros current' m' [= <- <-].
  split; [done|done|by apply len_zero_nil|done].
Qed.

Lemma transition_commit start policy m w w' r :
  directory_inv start (λ v, v = start) (files w) →
  data_file_sync policy ≠ SyncSkip → directory_sync policy = SyncWith Full →
  on_transition_log (commit_guarded m policy) w = (w', r) →
  ((directory_inv start (λ v, v = start) (files w') ∧ is_ok r = false)
   ∨ ∃ b, encode_manifest m = Ok b
       ∧ (∃ cur, directory_inv cur (λ v, v = start ∨ v = put MANIFEST_FILE b start) (files w'))
       ∧ (r = Ok tt → directory_inv (put MANIFEST_FILE b start) (λ v, v = put MANIFEST_FILE b start) (files w'))).
Proof using.
  intros Hi Hd Hds H. unfold on_transition_log, run_map_err in H.
  destruct (commit_guarded m policy (tn_log w)) as [l1 r1] eqn:E. injection H as <- <-.
  destruct (commit_guarded_outcome start _ _ _ _ _ Hi Hd Hds E) as [[H1 H2]|(b & H1 & H2 & H3)]; [left|right].
  - split; [done|]. by destruct r1.
  - exists b. split_and!; [done|done|]. intros Hr. apply H3. by destruct r1 as [[]|].
Qed.

(** *** The switch *)

Definition next_generation current (m : Manifest) : Z := as_generation current `max` mf_generation m + 1.

(** A switch that reaches its commit. *)
Record switches w current (m : Manifest) (previous target : EpochIdentity) (snapshot snapshot' : LoadedSnapshot) : Prop := {
  si_admitted : admitted w current m;
  si_previous : mf_epoch_alias m = Some previous;
  si_registered : is_registered target m = true;
  si_retained : is_retained target m = true;
  si_snapshot : from_manifest (switched_manifest (next_generation current m) target m) (files w) = Ok snapshot;
  si_complete : require_complete (B:=B) snapshot previous target = Ok snapshot';
}.

(** What a switch that returns has published. *)
Record switch_returned current (m : Manifest) (previous target : EpochIdentity) (snapshot' : LoadedSnapshot) w'
    (report : EpochAliasReport) : Prop := {
  sn_report : report = {| ea_generation := next_generation current m; ea_previous := previous;
                          ea_published := target; ea_manifest_committed := true |};
  sn_alias : tn_alias w' = Some target;
  sn_snapshot : tn_snapshot w' = Some snapshot';
  sn_active : tn_active w' = Some {| as_generation := next_generation current m; as_segment := as_segment current |};
}.

Lemma publish_alias_outcome generation current snapshot target drain w w' r :
  publish_alias generation current snapshot target drain w = (w', r) →
  files w' = files w ∧ (r = Ok tt → tn_alias w' = Some target ∧ tn_snapshot w' = Some snapshot
    ∧ tn_active w' = Some {| as_generation := generation; as_segment := as_segment current |}).
Proof using. intros H. unfold publish_alias in H. by destruct (tn_snapshot w), drain; injection H as <- <-. Qed.

Lemma switch_outcome start policy state lock drain target w w' r :
  directory_inv start (λ v, v = start) (files w) →
  data_file_sync policy ≠ SyncSkip → directory_sync policy = SyncWith Full →
  switch_epoch_alias (B:=B) policy state lock drain target w = (w', r) →
  (directory_inv start (λ v, v = start) (files w') ∧ ∀ report, r = Ok report → ea_manifest_committed report = false)
  ∨ ∃ current m previous snapshot snapshot' b, switches w current m previous target snapshot snapshot'
      ∧ encode_manifest (switched_manifest (next_generation current m) target m) = Ok b
      ∧ (∃ cur, directory_inv cur (λ v, v = start ∨ v = put MANIFEST_FILE b start) (files w'))
      ∧ (∀ report, r = Ok report →
           directory_inv (put MANIFEST_FILE b start) (λ v, v = put MANIFEST_FILE b start) (files w')
           ∧ switch_returned current m previous target snapshot' w' report).
Proof using.
  intros Hi Hd Hds H. unfold switch_epoch_alias, run_bind at 1 in H.
  destruct (admit_epoch_transition _ _ w) as [w1 r1] eqn:Ea. apply admit_outcome in Ea as [-> Had].
  destruct r1 as [[current m]|e]; [|injection H as <- <-; by left]. specialize (Had current m eq_refl).
  unfold run_bind at 1, run_lift in H.
  destruct (mf_epoch_alias m) as [previous|] eqn:Ep; cbn [ok_or] in H; [|injection H as <- <-; by left].
  destruct (bool_decide (previous = target)); [injection H as <- <-; left; split; [done|by intros report [= <-]]|].
  destruct (is_registered target m) eqn:E1; [|injection H as <- <-; by left].
  destruct (is_retained target m) eqn:E2; [|injection H as <- <-; by left]. cbn [negb orb] in H.
  unfold run_bind at 1 in H. destruct (checked_add u64_max _ 1) as [g|] eqn:Eg; cbn [ok_or] in H; [|injection H as <- <-; by left].
  apply checked_add_Some in Eg as [-> _]. fold (next_generation current m) in H.
  unfold run_bind at 1, read_files, run_read in H.
  destruct (from_manifest _ _) as [snapshot|e] eqn:Es; cbn [map_err] in H; [|injection H as <- <-; by left].
  unfold run_bind at 1 in H. destruct (require_complete _ _ _) as [snapshot'|e] eqn:Ec; [|injection H as <- <-; by left].
  assert (switches w current m previous target snapshot snapshot') as Hsw by by split.
  unfold run_bind at 1, manifest_publication in H. rewrite transition_log_reads in H.
  destruct (flush _) as [[]|e]; cbn [map_err] in H; [|injection H as <- <-; by left].
  unfold run_bind at 1 in H. destruct (on_transition_log _ w) as [w2 r2] eqn:E3.
  destruct (transition_commit start _ _ _ _ _ Hi Hd Hds E3) as [[Hi2 Hr2]|(b & Hb & Hcur & Hok)].
  { destruct r2; [done|]. injection H as <- <-. by left. }
  right. exists current, m, previous, snapshot, snapshot', b. split; [done|]. split; [done|].
  destruct r2 as [[]|e]; [|injection H as <- <-; by split].
  unfold run_bind, run_ret in H. destruct (publish_alias _ _ _ _ _ w2) as [w3 r3] eqn:E4.
  apply publish_alias_outcome in E4 as [Ef Hp].
  destruct r3 as [[]|e]; injection H as <- <-; (split; [by rewrite Ef|]); [|done].
  intros report [= <-]. split; [rewrite Ef; by apply Hok|]. destruct (Hp eq_refl) as (H1 & H2 & H3). by split.
Qed.

(** The new manifest is within the widths of its format. *)
Definition manifest_fits (m : Manifest) : Prop := manifest_ok m ∧ len (manifest_payload m) + 56 ≤ isize_max.

(** What a crash shows of a directory whose manifest may have been replaced. *)
Lemma replaced_manifest_shows start b cur w fs (fs' : Fs) (success : Prop) `{!Decision success} :
  directory_inv start (λ v, v = start) (files w) → (∀ n, hidden n = false → start n ≠ Some None) →
  directory_inv cur (λ v, v = start ∨ v = put MANIFEST_FILE b start) fs →
  (success → directory_inv (put MANIFEST_FILE b start) (λ v, v = put MANIFEST_FILE b start) fs) → crashed fs fs' →
  (∀ name, hidden name = false → name ≠ MANIFEST_FILE → same_file (files w) fs' name)
  ∧ (v_read MANIFEST_FILE fs' = Ok b ∨ same_file (files w) fs' MANIFEST_FILE ∧ ¬ success).
Proof using.
  intros Hi Hs Hi1 Hok Hcr.
  assert (∃ v, (v = put MANIFEST_FILE b start ∨ v = start ∧ ¬ success)
    ∧ (∀ n c, hidden n = false → v n = Some (Some c) → v_read n fs' = Ok c)
    ∧ (∀ n, hidden n = false → v n = None → v_read n fs' = Err NotFound)) as (v & Hv & H1 & H2).
  { destruct (decide success) as [Hy|Hn].
    - destruct (crash_shows _ _ _ _ (Hok Hy) Hcr) as (v & -> & H1 & H2). exists (put MANIFEST_FILE b start). by split; [left|].
    - destruct (crash_shows _ _ _ _ Hi1 Hcr) as (v & [->|Hv] & H1 & H2); [exists start; by split; [right|]|exists v; by split; [left|]]. }
  split.
  - intros name Hn Hne. eapply crash_same_file; try done. destruct Hv as [->|[-> _]]; [by rewrite put_ne|done].
  - destruct Hv as [->|[-> Hn]]; [left; apply H1; [done|apply put_eq]|right; split; [by eapply crash_same_file|done]].
Qed.

(** C12: Switching the published epoch is complete and crash-atomic. Take a store at
    rest under a policy of full syncs of files and directory (barriers promise no
    durability), switch the alias and crash at any point of the switch or after it.
    Every file but the manifest is as it was. Either the manifest is too, and the
    switch did not report a commit; or the store loads the manifest that publishes
    the target and otherwise only has the next generation, and then nothing was left
    unsealed, the target was a registered epoch with segments, and its live
    revisions are, each as often, those of the epoch published before. A switch that
    reports success left the second state and published alias, snapshot and
    generation. *)
Theorem epoch_switch_complete policy state lock drain target w w' r (fs' : Fs) :
  settled (files w) → full_sync policy →
  (∀ current m, admitted w current m → manifest_fits (switched_manifest (next_generation current m) target m)) →
  switch_epoch_alias (B:=B) policy state lock drain target w = (w', r) → crashed (files w') fs' →
  (∀ name, hidden name = false → name ≠ MANIFEST_FILE → same_file (files w) fs' name)
  ∧ ((same_file (files w) fs' MANIFEST_FILE ∧ ∀ report, r = Ok report → ea_manifest_committed report = false)
     ∨ ∃ current m previous snapshot snapshot' source published,
         switches w current m previous target snapshot snapshot'
         ∧ load_manifest MANIFEST_FILE (wal_durable_end (lg_writer (tn_log w))) fs'
           = Ok (switched_manifest (next_generation current m) target m)
         ∧ live_versions (B:=B) (ei_embedding previous) (ls_segments snapshot) source
         ∧ live_versions (B:=B) (ei_embedding target) (ls_segments snapshot) published
         ∧ (len source ≤ usize_max → len published ≤ usize_max → source ≡ₚ published)
         ∧ ∀ report, r = Ok report → switch_returned current m previous target snapshot' w' report).
Proof.
  intros (start & Hi & Hs) Hpol Hfits H Hcr.
  destruct (switch_outcome start _ _ _ _ _ _ _ _ Hi (full_sync_data _ Hpol) (proj2 Hpol) H)
    as [[Hi1 Hr]|(current & m & previous & snapshot & snapshot' & b & Hsw & He & (cur & Hi1) & Hok)].
  { destruct (crash_shows _ _ _ _ Hi1 Hcr) as (v & -> & H1 & H2).
    split; [intros name Hn _|left; split; [|done]]; by eapply crash_same_file. }
  destruct (replaced_manifest_shows start b cur w _ fs' (is_ok r = true) Hi Hs Hi1) as [Hsame Hman]; [|done|].
  { intros Hr. destruct r as [report|]; [|done]. by apply (Hok report). }
  split; [exact Hsame|]. destruct Hman as [Hread|[Hm Hr]]; [right|left; split; [done|by intros report ->]].
  destruct (require_complete_same _ _ _ _ (si_complete _ _ _ _ _ _ _ Hsw)) as (_ & source & published & Hl1 & Hl2 & Hperm).
  exists current, m, previous, snapshot, snapshot', source, published. split_and!; try done.
  - pose proof (si_admitted _ _ _ _ _ _ _ Hsw) as Ha. destruct (Hfits current m Ha) as [Hm Hp].
    eapply encoded_manifest_loads; try done. cbn [switched_manifest mf_log_seq]. by rewrite (ad_absorbed _ _ _ Ha).
  - intros report Hr. by apply Hok.
Qed.

(** *** The drop *)

Definition in_epoch (target : Z) (segment : SegmentMeta) : bool := bool_decide (sm_epoch_id segment = Some target).

Lemma divide_segments_filter target segments : ∀ retained dropped n retained' dropped' n',
  divide_segments target segments retained dropped n = Ok (retained', dropped', n') →
  retained' = retained ++ List.filter (λ s, negb (in_epoch target s)) segments
  ∧ dropped' = dropped ++ List.filter (in_epoch target) segments
  ∧ n' = n + total_size (List.filter (in_epoch target) segments).
Proof using.
  induction segments as [|s segments IH]; intros retained dropped n retained' dropped' n' H; cbn [divide_segments] in H.
  { injection H as <- <- <-. cbn. by rewrite !app_nil_r, Z.add_0_r. }
  cbn [List.filter]. fold (in_epoch target s) in H. destruct (in_epoch target s); cbn [negb].
  - ok_inv H n1 Hn. apply checked_add_Some in Hn as [-> _]. destruct (IH _ _ _ _ _ _ H) as (-> & -> & ->).
    rewrite <- app_assoc. cbn [total_size foldr]. fold (total_size (List.filter (in_epoch target) segments)).
    split_and!; [done|done|lia].
  - destruct (IH _ _ _ _ _ _ H) as (-> & -> & ->). by rewrite <- app_assoc.
Qed.

Definition segment_files (segments : list SegmentMeta) : list string := map (λ s, segment_file_name (sm_id s)) segments.

Lemma delete_segments_view start b names segments : ∀ cur fs fs' r,
  (∀ s, s ∈ segments → segment_file_name (sm_id s) ∈ names) →
  directory_inv cur (dropped_view start b names) fs → dropped_view start b names cur →
  delete_segments segments fs = (fs', r) →
  ∃ cur', directory_inv cur' (dropped_view start b names) fs' ∧ dropped_view start b names cur'
    ∧ (∀ name, cur name = None → cur' name = None)
    ∧ (r = Ok tt → ∀ s, s ∈ segments → cur' (segment_file_name (sm_id s)) = None).
Proof using.
  induction segments as [|s segments IH]; intros cur fs fs' r Hn Hi Hc H; cbn [delete_segments] in H.
  { injection H as <- <-. exists cur. split_and!; [done|done|done|]. by intros _ s ?%elem_of_nil. }
  destruct (v_delete _ fs) as [fs1 r1] eqn:Ed. set (name := segment_file_name (sm_id s)) in *.
  assert (dropped_view start b names (remove name cur)) as Hp.
  { apply dropped_view_remove; [done|apply Hn; left|apply segment_file_not_manifest]. }
  assert (∀ k, remove name cur name = None ∧ (cur k = None → remove name cur k = None)) as Hrm.
  { intros k. unfold remove. split; [by rewrite decide_True|]. by destruct (decide _). }
  destruct (delete_name cur _ fs name fs1 r1 Hi Ed) as [[Hi1 Hr1]|Hi1].
  { destruct r1 as [[]|]; [done|]. injection H as <- <-. by exists cur. }
  assert (directory_inv (remove name cur) (dropped_view start b names) fs1) as Hi2.
  { eapply directory_inv_weaken; [exact Hi1|]. by intros v [?| ->]. }
  destruct r1 as [[]|k]; cycle 1.
  { injection H as <- <-. exists (remove name cur). split_and!; [done|done|by intros k'; apply Hrm|done]. }
  destruct (IH (remove name cur) fs1 fs' r) as (cur' & Hi' & Hc' & Hm' & Hg'); [|done..|].
  { intros t Ht. apply Hn. by right. }
  exists cur'. split_and!; [done|done|intros k Hk; by apply Hm', Hrm|].
  intros Hr t [->|Ht]%elem_of_cons; [apply (Hm' name), (proj1 (Hrm name))|by apply Hg'].
Qed.

(** A drop that reaches its commit. *)
Record drops_epoch w current (m : Manifest) (target : Z) (retained dropped : list SegmentMeta) (snapshot : LoadedSnapshot)
    : Prop := {
  dx_admitted : admitted w current m;
  dx_unpublished : ei_embedding <$> mf_epoch_alias m ≠ Some target;
  dx_retained : retained = List.filter (λ s, negb (in_epoch target s)) (mf_segments m);
  dx_dropped : dropped = List.filter (in_epoch target) (mf_segments m);
  dx_some : dropped ≠ [];
  dx_snapshot : from_manifest (without_epoch (next_generation current m) retained m) (files w) = Ok snapshot;
}.

(** What a drop that returns has done. *)
Record epoch_dropped current (m : Manifest) (dropped : list SegmentMeta) (snapshot : LoadedSnapshot) w w'
    (report : DropEpochReport) : Prop := {
  ed_report : report = {| de_generation := next_generation current m; de_segments_dropped := map sm_id dropped;
                          de_bytes_reclaimed := total_size dropped |};
  ed_alias : tn_alias w' = tn_alias w;
  ed_snapshot : tn_snapshot w' = Some snapshot;
  ed_active : tn_active w' = Some {| as_generation := next_generation current m; as_segment := as_segment current |};
}.

Lemma reclaim_outcome start b policy segments cur (l l' : LogState Fs) r :
  let P := dropped_view start b (segment_files segments) in
  directory_inv cur P (lg_files l) → P cur → directory_sync policy = SyncWith Full →
  reclaim_segments policy segments l = (l', r) →
  ∃ cur', directory_inv cur' P (lg_files l')
    ∧ (r = Ok tt → directory_inv cur' (λ v, v = cur') (lg_files l')
         ∧ P cur' ∧ ∀ s, s ∈ segments → cur' (segment_file_name (sm_id s)) = None).
Proof using.
  intros P Hi Hc Hds H. unfold reclaim_segments, run_bind, on_files in H.
  destruct (delete_segments _ _) as [fs1 r1] eqn:E1.
  destruct (delete_segments_view start b (segment_files segments) segments cur _ _ _
    ltac:(intros s Hs; apply list_elem_of_fmap; by exists s) Hi Hc E1) as (cur' & Hi' & Hc' & _ & Hg).
  destruct r1 as [[]|e]; [|injection H as <- <-; by exists cur']. cbn [lg_files set_files] in H.
  destruct (sync_if _ Directory fs1) as [fs2 r2] eqn:E2.
  rewrite Hds in E2. cbn [sync_if] in E2.
  destruct (sync_directory _ _ _ _ _ _ Hi' E2) as [Hi2 Hs]. injection H as <- <-. exists cur'. split; [done|].
  intros Hr. destruct r2 as [[]|]; [|done]. split_and!; [by apply Hs|done|by apply Hg].
Qed.

Lemma drop_epoch_outcome start policy state lock views target w w' r :
  directory_inv start (λ v, v = start) (files w) →
  data_file_sync policy ≠ SyncSkip → directory_sync policy = SyncWith Full →
  drop_epoch policy state lock views target w = (w', r) →
  (directory_inv start (λ v, v = start) (files w') ∧ is_ok r = false)
  ∨ ∃ current m retained dropped snapshot b, drops_epoch w current m target retained dropped snapshot
      ∧ encode_manifest (without_epoch (next_generation current m) retained m) = Ok b
      ∧ (∃ cur, directory_inv cur (λ v, v = start ∨ dropped_view start b (segment_files dropped) v) (files w'))
      ∧ (∀ report, r = Ok report → epoch_dropped current m dropped snapshot w w' report
           ∧ ∃ cur, directory_inv cur (λ v, v = cur) (files w') ∧ dropped_view start b (segment_files dropped) cur
             ∧ ∀ s, s ∈ dropped → cur (segment_file_name (sm_id s)) = None).
Proof using.
  intros Hi Hd Hds H. unfold drop_epoch, run_bind at 1 in H.
  destruct (admit_epoch_transition _ _ w) as [w1 r1] eqn:Ea. apply admit_outcome in Ea as [-> Had].
  destruct r1 as [[current m]|e]; [|injection H as <- <-; by left]. specialize (Had current m eq_refl).
  destruct views; [injection H as <- <-; by left|].
  destruct (bool_decide_reflect (ei_embedding <$> mf_epoch_alias m = Some target)) as [|Hu]; [injection H as <- <-; by left|].
  unfold run_bind at 1, run_lift in H.
  destruct (divide_segments _ _ _ _ _) as [[[retained dropped] n]|e] eqn:Es; [|injection H as <- <-; by left].
  apply divide_segments_filter in Es as (Er & Ed & En). cbn [app] in Er, Ed. rewrite Z.add_0_l, <- Ed in En.
  destruct (bool_decide_reflect (dropped = [])) as [|Hne]; [injection H as <- <-; by left|].
  unfold run_bind at 1 in H. destruct (checked_add u64_max _ 1) as [g|] eqn:Eg; cbn [ok_or] in H; [|injection H as <- <-; by left].
  apply checked_add_Some in Eg as [-> _]. fold (next_generation current m) in H.
  unfold run_bind at 1, read_files, run_read in H.
  destruct (from_manifest _ _) as [snapshot|e] eqn:Esn; cbn [map_err] in H; [|injection H as <- <-; by left].
  assert (drops_epoch w current m target retained dropped snapshot) as Hdx by by split.
  unfold run_bind at 1, manifest_publication in H. rewrite transition_log_reads in H.
  destruct (flush _) as [[]|e]; cbn [map_err] in H; [|injection H as <- <-; by left].
  unfold run_bind at 1 in H. destruct (on_transition_log _ w) as [w2 r2] eqn:E3.
  assert (tn_alias w2 = tn_alias w) as Eal.
  { unfold on_transition_log, run_map_err in E3. destruct (commit_guarded _ _ _). by injection E3 as <- _. }
  destruct (transition_commit start _ _ _ _ _ Hi Hd Hds E3) as [[Hi2 Hr2]|(b & Hb & (cur & Hcur) & Hok)].
  { destruct r2; [done|]. injection H as <- <-. by left. }
  right. exists current, m, retained, dropped, snapshot, b. split; [done|]. split; [done|].
  destruct r2 as [[]|e]; cycle 1.
  { injection H as <- <-. split; [|done]. exists cur. eapply directory_inv_weaken; [exact Hcur|].
    intros v [->| ->]; [by left|right; apply dropped_view_put]. }
  specialize (Hok eq_refl). unfold run_bind at 1, run_put in H. unfold run_bind, on_transition_log, run_map_err, run_ret in H.
  set (w3 := publish_transition _ _ _ _ w2) in H. destruct (reclaim_segments _ _ _) as [l4 r4] eqn:E4.
  destruct (reclaim_outcome start b policy dropped (put MANIFEST_FILE b start) _ _ _ ltac:(eapply directory_inv_weaken; [exact Hok|];
    intros v ->; apply dropped_view_put) (dropped_view_put _ _ _) Hds E4) as (cur' & Hi4 & Hdone).
  destruct r4 as [[]|e]; cbn [map_err] in H; injection H as <- <-;
    (split; [exists cur'; eapply directory_inv_weaken; [exact Hi4|]; by right|]); [|done].
  intros report [= <-]. destruct (Hdone eq_refl) as (H1 & H2 & H3). split; [|by exists cur']. split; try done. by rewrite En.
Qed.

Lemma retained_not_dropped target (segments : list SegmentMeta) s :
  NoDup (map sm_id segments) → s ∈ List.filter (λ s, negb (in_epoch target s)) segments →
  segment_file_name (sm_id s) ∉ segment_files (List.filter (in_epoch target) segments).
Proof using.
  intros Hn Hs (t & Et & Ht)%list_elem_of_fmap. apply segment_file_name_inj in Et.
  apply list_elem_of_In, List.filter_In in Hs as [Hs Cs], Ht as [Ht Ct].
  apply list_elem_of_In in Hs, Ht. assert (s = t) as <-; [by eapply (NoDup_fmap_elem sm_id)|]. by rewrite Ct in Cs.
Qed.

(** C13: Dropping an epoch loses its segments and no other, across I/O faults and
    crashes. Take a store at rest under a policy of full syncs of files and
    directory (barriers promise no durability), drop an epoch and crash at any point
    of the drop or after it. Either every file is as it was and the drop failed; or
    the epoch was not the published one and the store loads the manifest without
    exactly its segments, while the file of every segment it still names, and every
    other file but those of the dropped segments, is as it was. A drop that returns
    left the second state with none of the dropped files, and reports their ids and
    bytes. *)
Theorem drop_epoch_keeps_others policy state lock views target w w' r (fs' : Fs) :
  settled (files w) → full_sync policy →
  (∀ current m, admitted w current m → NoDup (map sm_id (mf_segments m))
     ∧ manifest_fits (without_epoch (next_generation current m)
         (List.filter (λ s, negb (in_epoch target s)) (mf_segments m)) m)) →
  drop_epoch policy state lock views target w = (w', r) → crashed (files w') fs' →
  ((∀ name, hidden name = false → same_file (files w) fs' name) ∧ is_ok r = false)
  ∨ ∃ current m retained dropped snapshot,
      drops_epoch w current m target retained dropped snapshot
      ∧ load_manifest MANIFEST_FILE (wal_durable_end (lg_writer (tn_log w))) fs'
        = Ok (without_epoch (next_generation current m) retained m)
      ∧ (∀ s, s ∈ retained → same_file (files w) fs' (segment_file_name (sm_id s)))
      ∧ (∀ name, hidden name = false → name ≠ MANIFEST_FILE → name ∉ segment_files dropped →
           same_file (files w) fs' name)
      ∧ (∀ report, r = Ok report → epoch_dropped current m dropped snapshot w w' report
           ∧ ∀ s, s ∈ dropped → v_read (segment_file_name (sm_id s)) fs' = Err NotFound).
Proof.
  intros (start & Hi & Hs) Hpol Hfits H Hcr.
  destruct (drop_epoch_outcome start _ _ _ _ _ _ _ _ Hi (full_sync_data _ Hpol) (proj2 Hpol) H)
    as [[Hi1 Hr]|(current & m & retained & dropped & snapshot & b & Hdx & He & (cur & Hi1) & Hok)].
  { left. split; [|done]. destruct (crash_shows _ _ _ _ Hi1 Hcr) as (v & -> & H1 & H2).
    intros name Hn. by eapply crash_same_file. }
  pose proof (dx_admitted _ _ _ _ _ _ _ Hdx) as Ha. destruct (Hfits current m Ha) as (Hnd & Hm & Hp).
  rewrite <- (dx_retained _ _ _ _ _ _ _ Hdx) in Hm, Hp.
  assert (∃ v, (v = start ∧ is_ok r = false ∨ dropped_view start b (segment_files dropped) v)
    ∧ (∀ n c, hidden n = false → v n = Some (Some c) → v_read n fs' = Ok c)
    ∧ (∀ n, hidden n = false → v n = None → v_read n fs' = Err NotFound)
    ∧ (is_ok r = true → ∀ s, s ∈ dropped → v (segment_file_name (sm_id s)) = None)) as (v & Hv & H1 & H2 & H3).
  { destruct r as [report|e].
    - destruct (Hok report eq_refl) as (_ & c & Hi2 & Hc & Hg). destruct (crash_shows _ _ _ _ Hi2 Hcr) as (v & -> & H1 & H2).
      exists c. split_and!; [by right|done..].
    - destruct (crash_shows _ _ _ _ Hi1 Hcr) as (v & [Hv|Hv] & H1 & H2); exists v; (split_and!; [|done..]); [by left|by right]. }
  destruct Hv as [[-> Hr]|[Hvm Hvo]]; [left; split; [|done]; intros name Hn; by eapply crash_same_file|right].
  exists current, m, retained, dropped, snapshot.
  assert (∀ name, hidden name = false → name ≠ MANIFEST_FILE → name ∉ segment_files dropped →
    same_file (files w) fs' name) as Hother.
  { intros name Hn Hne Hnd'. eapply crash_same_file; try done. by destruct (Hvo name Hne) as [?|[? _]]. }
  split_and!; [done| | |exact Hother|].
  - eapply encoded_manifest_loads; [exact Hm|exact Hp|done|by apply H1|]. cbn. by rewrite (ad_absorbed _ _ _ Ha).
  - intros s Hin. apply Hother; [apply hidden_segment|apply segment_file_not_manifest|].
    rewrite (dx_dropped _ _ _ _ _ _ _ Hdx). apply retained_not_dropped; [done|]. by rewrite <- (dx_retained _ _ _ _ _ _ _ Hdx).
  - intros report ->. split; [by apply Hok|]. intros s Hin. apply H2; [apply hidden_segment|]. by apply H3.
Qed.
End Transition.

(** ** A store with two epochs *)

Module SampleTransition.
Import ToyXxh3.
#[local] Existing Instance toy.

(** The published epoch and the one that replaces it. *)
Definition next_epoch : EmbeddingEpoch :=
  {| ee_document := sample_tower; ee_query := sample_tower; ee_alignment_digest := [Byte.xab] |}.
Definition epoch_meta (embedding : EmbeddingEpoch) : EpochMeta :=
  {| em_id := epoch_id_of embedding; em_embedding := embedding; em_tokenizer := 11 |}.
Definition identity (embedding : EmbeddingEpoch) : EpochIdentity :=
  {| ei_embedding := epoch_id_of embedding; ei_tokenizer := 11 |}.

Definition old_id : bytes := zeros 16.
Definition new_id : bytes := replicate 16 Byte.x01.
Definition segment (id : bytes) (embedding : EmbeddingEpoch) : SegmentMeta :=
  {| sm_id := id; sm_row_count := 1; sm_scheme := 4; sm_dims := 1; sm_file_size := 131200;
     sm_epoch_id := Some (epoch_id_of embedding); sm_clustering_key_range := Bounded 10 10 |}.
Definition manifest (generation : Z) (segments : list SegmentMeta) (published : EmbeddingEpoch) : Manifest :=
  {| mf_generation := generation; mf_log_seq := 3; mf_segments := segments;
     mf_epochs := [epoch_meta sample_epoch; epoch_meta next_epoch]; mf_epoch_alias := Some (identity published);
     mf_schema := timestamp_only |}.
Definition both : list SegmentMeta := [segment old_id sample_epoch; segment new_id next_epoch].
Definition encoded : bytes := match encode_manifest (manifest 7 both sample_epoch) with Ok b => b | Err _ => [] end.

Definition directory : gmap string nat :=
  {[MANIFEST_FILE := 0%nat; segment_file_name old_id := 1%nat; segment_file_name new_id := 2%nat]}.

(** The directory, with the images of the two segments. *)
Definition fs (old_image new_image : bytes) : Fs :=
  {| fs_inodes := {[0%nat := {| in_data := encoded; in_synced := true |};
                    1%nat := {| in_data := old_image; in_synced := true |};
                    2%nat := {| in_data := new_image; in_synced := true |}]};
     fs_dir := directory; fs_dirs := [directory]; fs_past := []; fs_next := 3; fs_faults := [] |}.

Definition store (old_image new_image : bytes) : Transitioning Fs :=
  {| tn_log := {| lg_files := fs old_image new_image; lg_writer := SampleReopen.writer |};
     tn_active := Some {| as_generation := 7; as_segment := active_empty |};
     tn_snapshot := None; tn_alias := Some (identity sample_epoch) |}.

(** Both segments hold the row of [SampleReopen]. *)
Definition sample : Transitioning Fs :=
  store (segment_image old_id 1 4 1 SampleReopen.regions []) (segment_image new_id 1 4 1 SampleReopen.regions []).

Lemma transition_names n i :
  directory !! n = Some i → n = MANIFEST_FILE ∨ n = segment_file_name old_id ∨ n = segment_file_name new_id.
Proof.
  intros H. unfold directory in H. apply lookup_insert_Some in H as [[<- _]|[_ H]]; [by left|].
  apply lookup_insert_Some in H as [[<- _]|[_ H]]; [by right; left|].
  apply lookup_singleton_Some in H as [<- _]. by right; right.
Qed.

Lemma transition_settled a b : settled (fs a b).
Proof.
  exists (shown (fs a b) directory). split.
  - split; cbn; try done.
    + left.
    + intros d ->%list_elem_of_singleton. by exists (shown (fs a b) directory).
    + intros temp i d n Ht Hi. by destruct (transition_names _ _ Hi) as [-> |[-> | ->]].
    + intros temp i n Ht Hi. by destruct (transition_names _ _ Hi) as [-> |[-> | ->]].
    + intros d n i ->%list_elem_of_singleton Hi.
      destruct (transition_names _ _ Hi) as [-> |[-> | ->]]; vm_compute in Hi; injection Hi as <-; lia.
  - intros n Hn. unfold shown, shown_in. destruct (directory !! n) as [i|] eqn:Hi; [|done].
    destruct (transition_names _ _ Hi) as [-> |[-> | ->]]; vm_compute in Hi; injection Hi as <-; by vm_compute.
Qed.

Lemma transition_loads a b :
  load_manifest MANIFEST_FILE (wal_durable_end (lg_writer (tn_log (store a b)))) (lg_files (tn_log (store a b)))
  = Ok (manifest 7 both sample_epoch).
Proof. by vm_compute. Qed.

Lemma admitted_only a b current m :
  admitted (store a b) current m →
  current = {| as_generation := 7; as_segment := active_empty |} ∧ m = manifest 7 both sample_epoch.
Proof. intros [Ha Hm _ _]. rewrite transition_loads in Hm. injection Ha as <-. by injection Hm as <-. Qed.

Lemma epoch_metas_ok : Forall epoch_meta_ok [epoch_meta sample_epoch; epoch_meta next_epoch].
Proof.
  assert (tower_ok sample_tower ∧ tower_utf8 sample_tower) as [Ht Hu] by (split; [apply sample_tower_ok|apply SampleManifest.tower_is_utf8]).
  repeat apply List.Forall_cons; try apply List.Forall_nil; (split; [by_compute|by_compute| |done|done]);
    (split; [done|done|by_compute]).
Qed.

Lemma segment_is_ok id embedding :
  len id = 16 → is_u64 (epoch_id_of embedding) → segment_ok (segment id embedding).
Proof. intros Hi He. split; try done; try by_compute. intros e [= <-]. done. Qed.

Lemma both_ok : Forall segment_ok both.
Proof. repeat apply List.Forall_cons; try apply List.Forall_nil; apply segment_is_ok; by_compute. Qed.

Lemma transition_manifests_ok generation segments published :
  is_u64 generation → Forall segment_ok segments → len segments ≤ u32_max → is_u64 (epoch_id_of published) →
  manifest_ok (manifest generation segments published).
Proof.
  intros Hg Hs Hl Hp. split; try done; [apply epoch_metas_ok| |by exists []|repeat constructor; by_compute].
  by intros i [= <-].
Qed.

Lemma switched_fits a b current m :
  admitted (store a b) current m →
  manifest_fits (switched_manifest (next_generation current m) (identity next_epoch) m).
Proof.
  intros [-> ->]%admitted_only. split; [|by_compute].
  apply (transition_manifests_ok 8 both next_epoch); [done|apply both_ok|done|by_compute].
Qed.

Lemma dropped_fits a b current m :
  admitted (store a b) current m →
  NoDup (map sm_id (mf_segments m))
  ∧ manifest_fits (without_epoch (next_generation current m)
      (List.filter (λ s, negb (in_epoch (epoch_id_of next_epoch) s)) (mf_segments m)) m).
Proof.
  intros [-> ->]%admitted_only. split; [apply (bool_decide_unpack _); by_compute|]. split; [|by_compute].
  apply (transition_manifests_ok 8 [segment old_id sample_epoch] sample_epoch); [done| |done|by_compute].
  pose proof both_ok as Hb. by apply Forall_cons in Hb as [Hb _]; apply Forall_singleton.
Qed.

Lemma directory_crash cur P (fs : Fs) : directory_inv cur P fs → crashed fs fs.
Proof. intros Hi. apply crashed_now, Hi. Qed.

Definition switched (drain : result StoreError unit) :=
  switch_epoch_alias (B:=gset Z) SampleReopen.policy Open true drain (identity next_epoch) sample.
Definition dropped := drop_epoch SampleReopen.policy Open true false (epoch_id_of next_epoch) sample.

Lemma switched_crash drain : crashed (lg_files (tn_log (switched drain).1)) (lg_files (tn_log (switched drain).1)).
Proof.
  destruct (transition_settled (segment_image old_id 1 4 1 SampleReopen.regions [])
    (segment_image new_id 1 4 1 SampleReopen.regions [])) as (start & Hi & _).
  destruct (switch_outcome (B:=gset Z) start SampleReopen.policy Open true drain (identity next_epoch) sample
    (switched drain).1 (switched drain).2 Hi (λ H, ltac:(discriminate H)) eq_refl
    (surjective_pairing (switched drain))) as [[H _]|(? & ? & ? & ? & ? & ? & _ & _ & (? & H) & _)];
    by eapply directory_crash.
Qed.

Lemma dropped_crash : crashed (lg_files (tn_log dropped.1)) (lg_files (tn_log dropped.1)).
Proof.
  destruct (transition_settled (segment_image old_id 1 4 1 SampleReopen.regions [])
    (segment_image new_id 1 4 1 SampleReopen.regions [])) as (start & Hi & _).
  destruct (drop_epoch_outcome start SampleReopen.policy Open true false (epoch_id_of next_epoch) sample
    dropped.1 dropped.2 Hi (λ H, ltac:(discriminate H)) eq_refl
    (surjective_pairing dropped)) as [[H _]|(? & ? & ? & ? & ? & ? & _ & _ & (? & H) & _)];
    by eapply directory_crash.
Qed.
End SampleTransition.

(** The store that publishes [sample_epoch] switches to [next_epoch]: after a crash
    it loads its old manifest or the switched one. *)
Lemma epoch_switch_complete_witness :
  let fs := lg_files (tn_log (SampleTransition.switched (Ok tt)).1) in
  same_file (lg_files (tn_log SampleTransition.sample)) fs MANIFEST_FILE
  ∨ load_manifest (X:=ToyXxh3.toy) MANIFEST_FILE 3 fs
    = Ok (SampleTransition.manifest 8 SampleTransition.both SampleTransition.next_epoch).
Proof.
  destruct (epoch_switch_complete (X:=ToyXxh3.toy) (L:=ToyXxh3.toy_laws) (B:=gset Z) SampleReopen.policy Open true (Ok tt)
    (SampleTransition.identity SampleTransition.next_epoch) SampleTransition.sample
    (SampleTransition.switched (Ok tt)).1 (SampleTransition.switched (Ok tt)).2
    (lg_files (tn_log (SampleTransition.switched (Ok tt)).1)) (SampleTransition.transition_settled _ _)
    (conj eq_refl eq_refl) (SampleTransition.switched_fits _ _)
    (surjective_pairing _) (SampleTransition.switched_crash (Ok tt)))
    as [_ [[H _]|(current & m & previous & snapshot & snapshot' & source & published & Hs & H & _)]]; [by left|right].
  destruct (SampleTransition.admitted_only _ _ _ _ (si_admitted _ _ _ _ _ _ _ Hs)) as [-> ->]. exact H.
Defined.

Lemma drop_epoch_keeps_others_witness :
  let fs := lg_files (tn_log SampleTransition.dropped.1) in
  same_file (lg_files (tn_log SampleTransition.sample)) fs MANIFEST_FILE
  ∨ load_manifest (X:=ToyXxh3.toy) MANIFEST_FILE 3 fs
    = Ok (SampleTransition.manifest 8 [SampleTransition.segment SampleTransition.old_id sample_epoch] sample_epoch)
    ∧ same_file (lg_files (tn_log SampleTransition.sample)) fs (segment_file_name SampleTransition.old_id).
Proof.
  destruct (drop_epoch_keeps_others (X:=ToyXxh3.toy) (L:=ToyXxh3.toy_laws) SampleReopen.policy Open true false
    (epoch_id_of (X:=ToyXxh3.toy) SampleTransition.next_epoch) SampleTransition.sample SampleTransition.dropped.1
    SampleTransition.dropped.2 (lg_files (tn_log SampleTransition.dropped.1)) (SampleTransition.transition_settled _ _)
    (conj eq_refl eq_refl) (SampleTransition.dropped_fits _ _)
    (surjective_pairing _) SampleTransition.dropped_crash)
    as [[H _]|(current & m & retained & dropped & snapshot & Hd & H & Hk & _)]; [left; by apply H|right].
  destruct (SampleTransition.admitted_only _ _ _ _ (dx_admitted _ _ _ _ _ _ _ Hd)) as [-> ->].
  pose proof (dx_retained _ _ _ _ _ _ _ Hd) as Er.
  assert (retained = [SampleTransition.segment SampleTransition.old_id sample_epoch]) as -> by (rewrite Er; by vm_compute).
  split; [exact H|]. apply (Hk (SampleTransition.segment SampleTransition.old_id sample_epoch)). left.
Defined.
