(* ===== verification/Planner.v ===== *)
(** * Plans of filtered queries

    Models [planner/mod.rs], [planner/choose.rs] and [planner/prune.rs]: the
    check of a predicate against the collection schema, the pruning of a segment
    by the range of its clustering key, the choice of a scan branch, and the
    reports of what a query did. *)

From S2P Require Import Prelude Schema Manifest Bitmap Columns ColumnsSpec Predicate PredicateSpec IngestPayload SegmentLayout StoreErrors.

#[local] Set Warnings "-register-all".

(** ** Addresses ([ingest/mod.rs]) *)

Inductive RowSource : Type := SourceActive | SourceSealed (id : bytes).

Record GlobalRowId : Type := {
  gr_source : RowSource;
  gr_local_row : Z;
}.

#[export] Instance RowSource_eq_dec : EqDecision RowSource.
Proof. solve_decision. Defined.

(** ** The predicate against the schema *)

Inductive PlanError : Type :=
| PlanUnknownColumn (column : ColumnId)
| PlanTypeMismatch (column : ColumnId) (expected actual : ColumnType)
| PlanRangeRequiresNumericColumn (column : ColumnId)
| PlanRowCountMismatch (columns alive : Z).

Definition require_column (column : ColumnId) (schema : Schema) : result PlanError ColumnDefinition :=
  ok_or (schema_column schema column) (PlanUnknownColumn column).

Definition validate_value (column : ColumnId) (value : PredicateValue) (schema : Schema)
    : result PlanError unit :=
  definition ← require_column column schema;
  let expected := cd_column_type definition in
  let actual := predicate_value_type value in
  if bool_decide (expected = actual)
     || match expected, actual with DictionaryString, RawString => true | _, _ => false end
  then Ok tt
  else Err (PlanTypeMismatch column expected actual).

Fixpoint validate_values (column : ColumnId) (values : list PredicateValue) (schema : Schema)
    : result PlanError unit :=
  match values with
  | [] => Ok tt
  | value :: values => _ ← validate_value column value schema; validate_values column values schema
  end.

Definition validate_bound (column : ColumnId) (bound : option RangeBound) (schema : Schema)
    : result PlanError unit :=
  match bound with
  | Some b => validate_value column (rb_value b) schema
  | None => Ok tt
  end.

Fixpoint validate_predicate (predicate : Predicate) (schema : Schema) : result PlanError unit :=
  let validate_children := fix validate_children (children : list Predicate) : result PlanError unit :=
    match children with
    | [] => Ok tt
    | child :: children => _ ← validate_predicate child schema; validate_children children
    end in
  match predicate with
  | PEq column value => validate_value column value schema
  | PIn column values => _ ← require_column column schema; validate_values column values schema
  | PRange range =>
      definition ← require_column (rp_column range) schema;
      if negb (match cd_column_type definition with U64 | I64 | F64 => true | _ => false end)
      then Err (PlanRangeRequiresNumericColumn (rp_column range))
      else
      _ ← validate_bound (rp_column range) (rp_lower range) schema;
      validate_bound (rp_column range) (rp_upper range) schema
  | PExists column | PIsNull column => _ ← require_column column schema; Ok tt
  | PAnd children | POr children => validate_children children
  | PNot child => validate_predicate child schema
  end.

(** ** Pruning *)

(** A timestamp value inside the range. *)
Definition timestamp_within (min_ts max_ts : Z) (value : PredicateValue) : bool :=
  match value with
  | PI64 value => (min_ts <=? value) && (value <=? max_ts)
  | _ => false
  end.

Definition lower_overlaps (max_ts : Z) (bound : option RangeBound) : bool :=
  match bound with
  | None => true
  | Some b => match rb_value b with
              | PI64 value => if rb_inclusive b then value <=? max_ts else value <? max_ts
              | _ => false
              end
  end.

Definition upper_overlaps (min_ts : Z) (bound : option RangeBound) : bool :=
  match bound with
  | None => true
  | Some b => match rb_value b with
              | PI64 value => if rb_inclusive b then min_ts <=? value else min_ts <? value
              | _ => false
              end
  end.

Fixpoint predicate_may_match_timestamp (predicate : Predicate) (min_ts max_ts : Z) : bool :=
  match predicate with
  | PEq column value =>
      if column =? TIMESTAMP_COLUMN then timestamp_within min_ts max_ts value else true
  | PIn column values =>
      if column =? TIMESTAMP_COLUMN then existsb (timestamp_within min_ts max_ts) values else true
  | PRange range =>
      if rp_column range =? TIMESTAMP_COLUMN
      then lower_overlaps max_ts (rp_lower range) && upper_overlaps min_ts (rp_upper range)
      else true
  | PExists _ => true
  | PIsNull column => negb (column =? TIMESTAMP_COLUMN)
  | PAnd children => forallb (λ child, predicate_may_match_timestamp child min_ts max_ts) children
  | POr children => existsb (λ child, predicate_may_match_timestamp child min_ts max_ts) children
  | PNot _ => true
  end.

Definition segment_may_match (range : ClusteringKeyRange) (predicate : Predicate) : bool :=
  match range with
  | Unstamped => true
  | EmptyRange => false
  | Bounded min_ts max_ts => predicate_may_match_timestamp predicate min_ts max_ts
  end.

(** ** Plans *)

Inductive SegmentBranch : Type :=
| BranchPruned | ExactAllowList | MaskedScan | FilteredGraph | GraphExactFallback | BranchGraph.

#[export] Instance SegmentBranch_eq_dec : EqDecision SegmentBranch.
Proof. solve_decision. Defined.

Inductive SegmentTier : Type := ActiveScan | SealedScan | SealedGraph.

Inductive FilterMode : Type := FilterNone | FilterPre | InTraversal | FilterPost.

Inductive PlanFallback : Type := FallbackNone | VisitedBudget | EfWidened | CandidateShortfall.

Inductive ExplicitScanTier : Type := ExplicitExact | ExplicitScan.

Inductive ScanReason : Type :=
| BelowGraphThreshold (rows min_rows : Z)
| GraphPending
| ReasonActiveSegment
| FullMaterialization
| WideningCap (ef rows : Z)
| ExplicitTier (tier : ExplicitScanTier).

(** [GraphSearchProfile] of [graph/search.rs]. *)
Inductive GraphSearchProfile : Type := SearchSiftClass | SearchAngular.

Definition ALLOW_LIST_ROWS_THRESHOLD : Z := 64.

Definition choose_scan_branch (cardinality : Z) : SegmentBranch :=
  if cardinality <=? ALLOW_LIST_ROWS_THRESHOLD then ExactAllowList else MaskedScan.

Inductive PlanNode : Type :=
| NodeScan (source : RowSource) (branch : SegmentBranch)
| NodeLexical (allow_list_driven : bool)
| NodeGraph (source : RowSource) (fallback : option PlanNode)
| NodeBitmapIntersect (predicate : Predicate) (input : PlanNode)
| NodeFusion (inputs : list PlanNode).

Record SegmentPlan : Type := {
  pl_source : RowSource;
  pl_tier : SegmentTier;
  pl_branch : SegmentBranch;
  pl_filter_mode : FilterMode;
  pl_filter_cardinality : Z;
  pl_approximate : bool;
  pl_fallback : PlanFallback;
  pl_scan_reason : option ScanReason;
  pl_ef_requested : option Z;
  pl_ef_effective : option Z;
  pl_graph_profile : option GraphSearchProfile;
  pl_node : PlanNode;
}.

Definition plan_exact (source : RowSource) (tier : SegmentTier) (branch : SegmentBranch) (cardinality : Z)
    (scan_reason : option ScanReason) : SegmentPlan :=
  {| pl_source := source; pl_tier := tier; pl_branch := branch; pl_filter_mode := FilterPre;
     pl_filter_cardinality := cardinality; pl_approximate := false; pl_fallback := FallbackNone;
     pl_scan_reason := scan_reason; pl_ef_requested := None; pl_ef_effective := None;
     pl_graph_profile := None; pl_node := NodeScan source branch |}.

Definition with_predicate (predicate : Predicate) (plan : SegmentPlan) : SegmentPlan :=
  {| pl_source := pl_source plan; pl_tier := pl_tier plan; pl_branch := pl_branch plan;
     pl_filter_mode := pl_filter_mode plan; pl_filter_cardinality := pl_filter_cardinality plan;
     pl_approximate := pl_approximate plan; pl_fallback := pl_fallback plan;
     pl_scan_reason := pl_scan_reason plan; pl_ef_requested := pl_ef_requested plan;
     pl_ef_effective := pl_ef_effective plan; pl_graph_profile := pl_graph_profile plan;
     pl_node := NodeBitmapIntersect predicate (pl_node plan) |}.

(** ** Plan counters ([lifecycle/stats.rs]) *)

(** The slot of a reason: [ScanReason::counter] and its index. *)
Definition reason_counter (reason : ScanReason) : nat :=
  match reason with
  | BelowGraphThreshold _ _ => 0
  | GraphPending => 1
  | ReasonActiveSegment => 2
  | FullMaterialization => 3
  | WideningCap _ _ => 4
  | ExplicitTier ExplicitExact => 5
  | ExplicitTier ExplicitScan => 6
  end.

Record PlanCounters : Type := {
  pc_scans_by_reason : list Z;
  pc_graph_segments_served : Z;
}.

Definition count_reason (scans : list Z) (reason : option ScanReason) : result StoreError (list Z) :=
  match reason with
  | None => Ok scans
  | Some reason =>
      let slot := reason_counter reason in
      counter ← ok_or (scans !! slot) (StoreStatistics "scan reason counter");
      counter ← ok_or (checked_add u64_max counter 1) (StoreStatistics "scan reason counter");
      Ok (<[slot := counter]> scans)
  end.

Definition count_graph (served : Z) (branch : SegmentBranch) : result StoreError Z :=
  match branch with
  | BranchGraph | FilteredGraph => ok_or (checked_add u64_max served 1) (StoreStatistics "graph segment counter")
  | _ => Ok served
  end.

(** The new counters; they are stored only when every plan was counted. *)
Fixpoint record_plans (plans : list SegmentPlan) (counters : PlanCounters) : result StoreError PlanCounters :=
  match plans with
  | [] => Ok counters
  | plan :: plans =>
      scans ← count_reason (pc_scans_by_reason counters) (pl_scan_reason plan);
      served ← count_graph (pc_graph_segments_served counters) (pl_branch plan);
      record_plans plans {| pc_scans_by_reason := scans; pc_graph_segments_served := served |}
  end.

(** The counters have a slot per reason and room for [n] more plans. *)
Record counters_room (n : Z) (counters : PlanCounters) : Prop := {
  cr_slots : length (pc_scans_by_reason counters) = 7%nat;
  cr_scans : Forall (λ x, x + n ≤ u64_max) (pc_scans_by_reason counters);
  cr_graph : pc_graph_segments_served counters + n ≤ u64_max;
}.

Lemma count_reason_total n scans reason :
  1 ≤ n → length scans = 7%nat → Forall (λ x, x + n ≤ u64_max) scans →
  ∃ scans', count_reason scans reason = Ok scans' ∧ length scans' = 7%nat ∧ Forall (λ x, x + (n - 1) ≤ u64_max) scans'.
Proof.
  intros Hn Hl Hf. assert (Forall (λ x, x + (n - 1) ≤ u64_max) scans) as Hf1 by (eapply Forall_impl; [exact Hf|]; cbn; lia).
  destruct reason as [reason|]; [|by exists scans]. cbn [count_reason].
  destruct (lookup_lt_is_Some_2 scans (reason_counter reason)) as [x Hx].
  { rewrite Hl. destruct reason as [| | | | |[]]; cbn; lia. }
  rewrite Hx. cbn [ok_or]. rewrite bind_Ok. pose proof (Forall_lookup_1 _ _ _ _ Hf Hx) as H. cbn in H.
  rewrite checked_add_total by lia. cbn [ok_or]. rewrite bind_Ok. eexists. split_and!; [done| |].
  - by rewrite length_insert.
  - apply Forall_insert; [done|]. lia.
Qed.

Lemma record_plans_total plans : ∀ n counters,
  len plans ≤ n → counters_room n counters → ∃ counters', record_plans plans counters = Ok counters'.
Proof.
  induction plans as [|plan plans IH]; intros n counters Hn [Hl Hf Hg]; [by exists counters|].
  rewrite len_cons in Hn. pose proof (len_nonneg plans). cbn [record_plans].
  destruct (count_reason_total n _ (pl_scan_reason plan) ltac:(lia) Hl Hf) as (scans & -> & Hl' & Hf'). rewrite bind_Ok.
  assert (∃ served, count_graph (pc_graph_segments_served counters) (pl_branch plan) = Ok served
    ∧ served + (n - 1) ≤ u64_max) as (served & -> & Hs).
  { destruct (pl_branch plan); cbn [count_graph]; rewrite ?checked_add_total by lia; eexists; (split; [done|]); lia. }
  rewrite bind_Ok. apply (IH (n - 1)); [lia|]. by split.
Qed.

(** ** Planning is sound *)

Lemma validate_value_compatible column value schema :
  is_ok (validate_value column value schema) = typed_as schema column (λ t, query_compatible t value).
Proof.
  unfold validate_value, require_column, typed_as. destruct (schema_column schema column) as [d|]; [|done].
  cbn [ok_or]. rewrite bind_Ok. cbn. destruct (cd_column_type d), value; reflexivity.
Qed.

Lemma validate_values_compatible column values schema :
  is_ok (_ ← require_column column schema; validate_values column values schema)
  = typed_as schema column (λ t, forallb (query_compatible t) values).
Proof.
  unfold require_column, typed_as. destruct (schema_column schema column) as [d|] eqn:E; [|done].
  cbn [ok_or from_option]. rewrite bind_Ok. induction values as [|value values IH]; [done|].
  cbn [validate_values forallb]. rewrite <- IH. pose proof (validate_value_compatible column value schema) as H.
  unfold typed_as in H. rewrite E in H. cbn in H. rewrite <- H.
  destruct (validate_value column value schema); [by rewrite bind_Ok|done].
Qed.

Lemma validate_bound_compatible column bound schema d :
  schema_column schema column = Some d → numeric_type (cd_column_type d) = true →
  is_ok (validate_bound column bound schema) = from_option (bound_compatible (cd_column_type d)) true bound.
Proof.
  intros E Hn. destruct bound as [b|]; [|done]. cbn [validate_bound from_option].
  rewrite validate_value_compatible. unfold typed_as. rewrite E. cbn. unfold bound_compatible.
  by destruct (cd_column_type d), (rb_value b).
Qed.

(** A predicate passes planning exactly when the evaluator can run it. *)
Lemma validate_predicate_typed schema predicate :
  is_ok (validate_predicate predicate schema) = well_typed schema predicate.
Proof.
  induction predicate as [c q|c qs|r|c|c|l Hl|l Hl|p IH] using Predicate_nested_ind; cbn [validate_predicate well_typed].
  - apply validate_value_compatible.
  - apply validate_values_compatible.
  - unfold require_column, typed_as. destruct (schema_column schema (rp_column r)) as [d|] eqn:E; [|done].
    cbn [ok_or from_option]. rewrite bind_Ok. fold (numeric_type (cd_column_type d)).
    destruct (numeric_type (cd_column_type d)) eqn:En; [|done]. cbn [negb andb].
    rewrite <- !(validate_bound_compatible (rp_column r) _ schema d E En).
    destruct (validate_bound _ (rp_lower r) _); [by rewrite bind_Ok|done].
  - unfold require_column, typed_as. by destruct (schema_column schema c).
  - unfold require_column, typed_as. by destruct (schema_column schema c).
  - induction Hl as [|p l Hp Hl IH]; [done|]. cbn [forallb]. rewrite <- Hp, <- IH.
    destruct (validate_predicate p schema); [by rewrite bind_Ok|done].
  - induction Hl as [|p l Hp Hl IH]; [done|]. cbn [forallb]. rewrite <- Hp, <- IH.
    destruct (validate_predicate p schema); [by rewrite bind_Ok|done].
  - exact IH.
Qed.

(** A row whose timestamp is in the range and which matches keeps its segment. *)
Lemma may_match_timestamp cells predicate min_ts max_ts t :
  cells TIMESTAMP_COLUMN = Some (VI64 t) → min_ts ≤ t ≤ max_ts → matches cells predicate = true →
  predicate_may_match_timestamp predicate min_ts max_ts = true.
Proof.
  intros Hc Ht. induction predicate as [c q|c qs|r|c|c|l Hl|l Hl|p IH] using Predicate_nested_ind;
    cbn [matches predicate_may_match_timestamp]; intros Hm; [| | |done| | | |done].
  - destruct (Z.eqb_spec c TIMESTAMP_COLUMN) as [->|]; [|done]. rewrite Hc in Hm. cbn in Hm.
    destruct q; try done. apply Z.eqb_eq in Hm as ->. cbn. apply andb_true_iff. rewrite !Z.leb_le. lia.
  - destruct (Z.eqb_spec c TIMESTAMP_COLUMN) as [->|]; [|done]. rewrite Hc in Hm. cbn in Hm.
    apply existsb_exists in Hm as (q & Hq & Hm). apply existsb_exists. exists q. split; [done|].
    destruct q; try done. apply Z.eqb_eq in Hm as ->. cbn. apply andb_true_iff. rewrite !Z.leb_le. lia.
  - destruct (Z.eqb_spec (rp_column r) TIMESTAMP_COLUMN) as [E|]; [|done]. rewrite E, Hc in Hm. cbn in Hm.
    unfold in_range in Hm. apply andb_true_iff in Hm as [Hm Hu]. apply andb_true_iff in Hm as [_ Hl].
    apply andb_true_iff. split.
    + destruct (rp_lower r) as [b|]; [|done]. cbn in Hl |- *. unfold above in Hl.
      destruct (rb_value b); try done. destruct (rb_inclusive b); lia.
    + destruct (rp_upper r) as [b|]; [|done]. cbn in Hu |- *. unfold below in Hu.
      destruct (rb_value b); try done. destruct (rb_inclusive b); lia.
  - destruct (Z.eqb_spec c TIMESTAMP_COLUMN) as [->|]; [|done]. by rewrite Hc in Hm.
  - apply forallb_forall. intros p Hp. rewrite forallb_forall in Hm.
    by apply (proj1 (List.Forall_forall _ _) Hl p Hp), Hm.
  - apply existsb_exists. apply existsb_exists in Hm as (p & Hp & Hm). exists p. split; [done|].
    by apply (proj1 (List.Forall_forall _ _) Hl p Hp).
Qed.
