(* ===== verification/FilteredSearch.v ===== *)
(** * Exact filtered search

    Models the exact tier of [planner/exec.rs]: [search_filtered] when the caller
    selected [SearchTier::Exact], which scores the full-precision rows of the
    active segment and of every published sealed segment that the filter selects
    and keeps the best [k].  Selecting a tier clears the rescoring controls, so
    the tier has none; it never traverses a graph.

    A sealed segment is the record [QuerySegment] of the reads the executor makes;
    [Control] lists what the coming checks of the deadline and the tokens see.
    The score of two vectors, an [f64] sum of squares rounded to [f32] and negated,
    is the class [SquaredL2].  Memory reservations and the record of
    diagnostics in the outcome are not modelled. *)

From stdpp Require Import sorting.
From S2P Require Import Prelude Cursor Schema Epoch Float Manifest Bitmap Columns Predicate IngestPayload TopK Tier SegmentLayout SegmentWriter StoreErrors Accounted ActiveSegment ActiveIngest SegmentReader SegmentRows Planner.

(** ** Errors and control *)

(** The errors the exact tier raises; the other variants belong to quantized,
    rescored and graph execution. *)
Inductive ScanError : Type :=
| ScanZeroDimension
| ScanRowDataLength (dimension actual : Z)
| ScanNonFiniteScore (row_id : Z)
| ScanQuant (e : QuantError)
| ScanArithmeticOverflow
| ScanTimeout
| ScanCancelled
| ScanReadCancelled.

Inductive QueryError : Type :=
| QueryStore (e : StoreError)
| QueryScan (e : ScanError)
| QueryCancelled
| QueryTimeout
| QueryReadCancelled.

Inductive FilteredSearchError : Type :=
| FilteredPlan (e : PlanError)
| FilteredQuery (e : QueryError)
| FilteredActiveMetadata
| FilteredPlanReportMismatch (reported executed : SegmentBranch)
| FilteredInvalidPlanNode.

Definition map_scan_error (e : ScanError) : FilteredSearchError :=
  FilteredQuery (match e with
                 | ScanCancelled => QueryCancelled
                 | ScanTimeout => QueryTimeout
                 | ScanReadCancelled => QueryReadCancelled
                 | e => QueryScan e
                 end).

Definition scan_error (e : ScanError) : FilteredSearchError := FilteredQuery (QueryScan e).
Definition store_error (e : StoreError) : FilteredSearchError := FilteredQuery (QueryStore e).

(** What the coming checks of the query's control see; none means it goes on. *)
Definition Control : Type := list (option ScanError).

(** [QueryCancellation::check_graph]. *)
Definition check_graph (control : Control) : Control * result FilteredSearchError unit :=
  match control with
  | [] => ([], Ok tt)
  | None :: control => (control, Ok tt)
  | Some e :: control => (control, Err (map_scan_error e))
  end.

(** Steps that observe the control and may fail. *)
Definition Query (A : Type) : Type := Control → Control * result FilteredSearchError A.

Declare Scope query_scope.
Delimit Scope query_scope with query.
Bind Scope query_scope with Query.

Definition query_ret {A} (a : A) : Query A := λ c, (c, Ok a).
Definition query_lift {A} (r : result FilteredSearchError A) : Query A := λ c, (c, r).
Definition query_bind {A C} (m : Query A) (k : A → Query C) : Query C := λ c,
  match m c with
  | (c, Ok a) => k a c
  | (c, Err e) => (c, Err e)
  end.

Notation "'let?' x ':=' m 'in' k" := (query_bind m%query (λ x, k%query))
  (at level 10, x pattern, m at level 100, k at level 200) : query_scope.

(** ** Scoring the rows of a segment *)

Class SquaredL2 : Type := squared_l2_score : list Z → list Z → Z.

Record ScanStats : Type := {
  st_dims_touched : Z;
  st_bytes_read : Z;
  st_threads_used : Z;
  st_worker_thread_ids : list Z;
}.

(** The candidates of one segment and the rows scored so far. *)
Record Scored : Type := {
  sd_candidates : list ScanCandidate;
  sd_scored_rows : Z;
}.

Section Rows.
Context {D : SquaredL2} {B : Type} {R : Roaring B}.
(** The id of the thread the query runs on. *)
Context (thread : Z).

Definition score_one (vectors : list Z) (row_count : Z) (query : list Z) (row : Z) (acc : Scored)
    : Query Scored :=
  (if row_count <=? row then query_lift (Err (scan_error ScanArithmeticOverflow))
   else
   let? _ := (if row mod 64 =? 0 then check_graph else query_ret tt) in
   let? start := query_lift (ok_or (checked_mul usize_max row (len query)) (scan_error ScanArithmeticOverflow)) in
   let? end_ := query_lift (ok_or (checked_add usize_max start (len query)) (scan_error ScanArithmeticOverflow)) in
   let? vector := query_lift (ok_or (slice_range vectors start end_)
                                (scan_error (ScanRowDataLength (len query) (len vectors)))) in
   let score := squared_l2_score vector query in
   if negb (f32_is_finite score) then query_lift (Err (scan_error (ScanNonFiniteScore row)))
   else
   let? scored_rows := query_lift (ok_or (checked_add u64_max (sd_scored_rows acc) 1)
                                     (scan_error ScanArithmeticOverflow)) in
   query_ret {| sd_candidates := sd_candidates acc ++ [{| sc_row_id := row; sc_score := score |}];
                sd_scored_rows := scored_rows |})%query.

(** The loop over an allow-list. *)
Fixpoint score_allowed (vectors : list Z) (row_count : Z) (query : list Z) (rows : list Z) (acc : Scored)
    : Query Scored :=
  (match rows with
   | [] => query_ret acc
   | row :: rows =>
       let? acc := score_one vectors row_count query row acc in
       score_allowed vectors row_count query rows acc
   end)%query.

(** The loop over every row, masked by the allow-list. *)
Fixpoint score_masked (vectors : list Z) (row_count : Z) (query : list Z) (allow_list : DocBitmap B)
    (rows : list Z) (acc : Scored) : Query Scored :=
  (match rows with
   | [] => query_ret acc
   | row :: rows =>
       let? _ := (if row mod 64 =? 0 then check_graph else query_ret tt) in
       let? local_row := query_lift (ok_or (try_from u32_max row) (scan_error ScanArithmeticOverflow)) in
       let? acc := (if contains local_row allow_list then score_one vectors row_count query row acc
                    else query_ret acc) in
       score_masked vectors row_count query allow_list rows acc
   end)%query.

Definition finish_squared_l2_rows (acc : Scored) (dimensions : Z) (executed : SegmentBranch) (k : Z)
    : result FilteredSearchError (list ScanCandidate * ScanStats * SegmentBranch) :=
  let candidates := truncate_to_k_with_score_ties (sort_candidates (sd_candidates acc)) k in
  dims_touched ← ok_or (checked_mul u64_max (sd_scored_rows acc) dimensions) (scan_error ScanArithmeticOverflow);
  bytes_read ← ok_or (checked_mul u64_max dims_touched 4) (scan_error ScanArithmeticOverflow);
  let worked := negb (sd_scored_rows acc =? 0) in
  Ok (candidates,
      {| st_dims_touched := dims_touched; st_bytes_read := bytes_read;
         st_threads_used := (if worked then 1 else 0);
         st_worker_thread_ids := (if worked then [thread] else []) |},
      executed).

Definition scored_none : Scored := {| sd_candidates := []; sd_scored_rows := 0 |}.

Definition execute_squared_l2_rows (vectors : list Z) (row_count : Z) (query : list Z)
    (allow_list : DocBitmap B) (branch : SegmentBranch) (k : Z)
    : Query (list ScanCandidate * ScanStats * SegmentBranch) :=
  (if bool_decide (query = []) then query_lift (Err (scan_error ScanZeroDimension))
   else
   let? expected := query_lift (ok_or (checked_mul usize_max row_count (len query))
                                  (scan_error ScanArithmeticOverflow)) in
   if negb (len vectors =? expected)
   then query_lift (Err (scan_error (ScanRowDataLength (len query) (len vectors))))
   else
   match branch with
   | FilteredGraph | BranchGraph => query_lift (Err FilteredInvalidPlanNode)
   | BranchPruned => query_lift (finish_squared_l2_rows scored_none (len query) BranchPruned k)
   | ExactAllowList =>
       let? acc := score_allowed vectors row_count query (bitmap_iter allow_list) scored_none in
       query_lift (finish_squared_l2_rows acc (len query) ExactAllowList k)
   | MaskedScan | GraphExactFallback =>
       let? acc := score_masked vectors row_count query allow_list (seqZ 0 row_count) scored_none in
       query_lift (finish_squared_l2_rows acc (len query) branch k)
   end)%query.

Fixpoint execute_squared_l2_plan (node : PlanNode) (vectors : list Z) (row_count : Z) (query : list Z)
    (allow_list : DocBitmap B) (k : Z) : Query (list ScanCandidate * ScanStats * SegmentBranch) :=
  (match node with
   | NodeBitmapIntersect _ input => execute_squared_l2_plan input vectors row_count query allow_list k
   | NodeScan _ branch => execute_squared_l2_rows vectors row_count query allow_list branch k
   | NodeGraph _ (Some fallback) =>
       let? (candidates, stats, _) := execute_squared_l2_plan fallback vectors row_count query allow_list k in
       query_ret (candidates, stats, GraphExactFallback)
   | NodeGraph _ None | NodeLexical _ | NodeFusion _ => query_lift (Err FilteredInvalidPlanNode)
   end)%query.
End Rows.

(** ** Candidates of the store ([ingest/mod.rs]) *)

Record SearchCandidate : Type := {
  ca_row_id : GlobalRowId;
  ca_document : option DocumentVersion;
  ca_score : Z;
  ca_exact_score : bool;
}.

(** [Ordering::then_with]. *)
Definition then_with (c d : comparison) : comparison := match c with Eq => d | c => c end.

Definition source_cmp (a b : RowSource) : comparison :=
  match a, b with
  | SourceActive, SourceActive => Eq
  | SourceActive, SourceSealed _ => Lt
  | SourceSealed _, SourceActive => Gt
  | SourceSealed a, SourceSealed b => bytes_compare a b
  end.

Definition row_id_cmp (a b : GlobalRowId) : comparison :=
  then_with (source_cmp (gr_source a) (gr_source b)) (gr_local_row a ?= gr_local_row b).

Definition compare_search_candidates (left right : SearchCandidate) : comparison :=
  then_with (f32_total_cmp (ca_score right) (ca_score left))
    (then_with
       (match ca_document left, ca_document right with
        | Some l, Some r => then_with (dv_doc_id l ?= dv_doc_id r) (dv_revision r ?= dv_revision l)
        | Some _, None => Lt
        | None, Some _ => Gt
        | None, None => Eq
        end)
       (row_id_cmp (ca_row_id left) (ca_row_id right))).

Definition candidate_before (a b : SearchCandidate) : Prop := compare_search_candidates a b ≠ Gt.

#[export] Instance candidate_before_dec : RelDecision candidate_before.
Proof. intros a b. unfold candidate_before. solve_decision. Defined.

Definition sort_search_candidates (candidates : list SearchCandidate) : list SearchCandidate :=
  merge_sort candidate_before candidates.

Definition retain_global_top_k (candidates : list SearchCandidate) (k : Z) : list SearchCandidate :=
  take (Z.to_nat k) (sort_search_candidates candidates).

Fixpoint append_candidates (local : list ScanCandidate) (source : RowSource)
    (document : Z → result FilteredSearchError (option DocumentVersion)) (candidates : list SearchCandidate)
    (exact_score : bool) : result FilteredSearchError (list SearchCandidate) :=
  match local with
  | [] => Ok candidates
  | candidate :: local =>
      local_row ← ok_or (try_from u32_max (sc_row_id candidate)) (scan_error ScanArithmeticOverflow);
      version ← document (sc_row_id candidate);
      append_candidates local source document
        (candidates ++ [{| ca_row_id := {| gr_source := source; gr_local_row := local_row |};
                           ca_document := version; ca_score := sc_score candidate;
                           ca_exact_score := exact_score |}]) exact_score
  end.

(** ** The executor *)

Definition map_eval_error (e : EvalError) : FilteredSearchError :=
  FilteredPlan (match e with
                | EvalUnknownColumn column => PlanUnknownColumn column
                | EvalTypeMismatch column expected actual => PlanTypeMismatch column expected actual
                | RangeRequiresNumericColumn column => PlanRangeRequiresNumericColumn column
                | RowCountMismatch columns alive => PlanRowCountMismatch columns alive
                end).

Definition verify_execution_branch (reported executed : SegmentBranch) : result FilteredSearchError unit :=
  if bool_decide (reported = executed) then Ok tt
  else Err (FilteredPlanReportMismatch reported executed).

(** [MutableStats]. *)
Record MutableStats : Type := {
  ms_dims_touched : Z;
  ms_bytes_read : Z;
  ms_worker_thread_ids : list Z;
}.

Definition stats_default : MutableStats :=
  {| ms_dims_touched := 0; ms_bytes_read := 0; ms_worker_thread_ids := [] |}.

Definition add_thread (threads : list Z) (thread : Z) : list Z :=
  if bool_decide (thread ∈ threads) then threads else threads ++ [thread].

Definition stats_add (s : MutableStats) (stats : ScanStats) : result FilteredSearchError MutableStats :=
  dims_touched ← ok_or (checked_add u64_max (ms_dims_touched s) (st_dims_touched stats))
                   (scan_error ScanArithmeticOverflow);
  bytes_read ← ok_or (checked_add u64_max (ms_bytes_read s) (st_bytes_read stats))
                 (scan_error ScanArithmeticOverflow);
  Ok {| ms_dims_touched := dims_touched; ms_bytes_read := bytes_read;
        ms_worker_thread_ids := foldl add_thread (ms_worker_thread_ids s) (st_worker_thread_ids stats) |}.

Definition stats_finish (s : MutableStats) : ScanStats :=
  {| st_dims_touched := ms_dims_touched s; st_bytes_read := ms_bytes_read s;
     st_threads_used := len (ms_worker_thread_ids s); st_worker_thread_ids := ms_worker_thread_ids s |}.

(** [SearchTier]; the options of a graph search do not matter here. *)
Inductive SearchTier : Type := TierAuto | TierExact | TierScan | TierGraph.

(** What the executor reads of a sealed segment. *)
Record QuerySegment (B : Type) : Type := {
  qs_meta : SegmentMeta;
  qs_columns : result StoreError (ColumnStore B);
  qs_alive : result StoreError (AliveSet B);
  qs_vectors : result StoreError (list Z);
  qs_document : Z → result StoreError (option DocumentVersion);
}.
Arguments qs_meta {B} _.
Arguments qs_columns {B} _.
Arguments qs_alive {B} _.
Arguments qs_vectors {B} _.
Arguments qs_document {B} _ _.

Definition sealed_scan_reason (meta : SegmentMeta) (requested_tier : option SearchTier) : ScanReason :=
  match requested_tier with
  | Some TierExact => ExplicitTier ExplicitExact
  | Some TierScan => ExplicitTier ExplicitScan
  | _ =>
      let rows := sm_row_count meta in
      let min_rows := tt_graph_min_rows (for_bucket (sm_dims meta) (sm_scheme meta)) in
      if rows <? min_rows then BelowGraphThreshold rows min_rows else GraphPending
  end.

Record FilteredSearchOutcome : Type := {
  fo_candidates : list SearchCandidate;
  fo_stats : ScanStats;
  fo_generation : Z;
  fo_plans : list SegmentPlan;
  (** The plan counters of the store, which the query advances. *)
  fo_counters : PlanCounters;
}.

(** What the loop over the segments accumulates. *)
Record Merged : Type := {
  mg_candidates : list SearchCandidate;
  mg_stats : MutableStats;
  mg_plans : list SegmentPlan;
}.

Section Execute.
Context {D : SquaredL2} {B : Type} {R : Roaring B}.
Context (thread : Z).

Definition evaluate_for_plan (predicate : Predicate) (columns : ColumnStore B) (alive : AliveSet B)
    : result FilteredSearchError (DocBitmap B) :=
  map_err map_eval_error (evaluate predicate columns alive).

(** The loop of [active_columns]. *)
Fixpoint push_filter_rows (active : ActiveSegment Bit4Factors) (row : nat) (timestamps : list Z)
    (builder : ColumnStoreBuilder B) : result FilteredSearchError (ColumnStoreBuilder B) :=
  match timestamps with
  | [] => Ok builder
  | timestamp :: timestamps =>
      values ← map_err store_error (column_values active row);
      match push_row timestamp (column_inputs values) builder with
      | (builder, Ok _) => push_filter_rows active (S row) timestamps builder
      | (_, Err _) => Err FilteredActiveMetadata
      end
  end.

(** [active_columns] of [planner/exec.rs]. *)
Definition active_filter_columns (active : ActiveSegment Bit4Factors) (schema : Schema)
    : result FilteredSearchError (ColumnStore B) :=
  builder ← push_filter_rows active 0 (bf_data (sg_timestamps active)) (builder_new schema);
  map_err (λ _, FilteredActiveMetadata) (finish builder).

(** Scoring the rows an allow-list selects and merging them: what
    [execute_active_filtered] and the loop over the sealed segments share. *)
Definition merge_segment (plan : SegmentPlan) (vectors : list Z) (row_count : Z) (query : list Z)
    (allow_list : DocBitmap B) (document : Z → result FilteredSearchError (option DocumentVersion)) (k : Z)
    (acc : Merged) : Query Merged :=
  (let? (local, local_stats, executed) :=
     execute_squared_l2_plan thread (pl_node plan) vectors row_count query allow_list k in
   let? _ := query_lift (verify_execution_branch (pl_branch plan) executed) in
   let? candidates := query_lift (append_candidates local (pl_source plan) document (mg_candidates acc) true) in
   let? stats := query_lift (stats_add (mg_stats acc) local_stats) in
   query_ret {| mg_candidates := retain_global_top_k candidates k; mg_stats := stats;
                mg_plans := mg_plans acc ++ [plan] |})%query.

Definition execute_active_filtered (active : ActiveSegment Bit4Factors) (schema : Schema) (query : list Z)
    (predicate : Predicate) (k : Z) (acc : Merged) : Query Merged :=
  (let? alive := query_lift (map_err store_error (active_alive active)) in
   let? columns := query_lift (active_filter_columns active schema) in
   let? allow_list := query_lift (evaluate_for_plan predicate columns alive) in
   let branch := choose_scan_branch (cardinality allow_list) in
   let plan := with_predicate predicate
                 (plan_exact SourceActive ActiveScan branch (cardinality allow_list) (Some ReasonActiveSegment)) in
   merge_segment plan (bf_data (sg_vectors active)) (len (bf_data (sg_doc_ids active))) query allow_list
     (λ row, Ok (active_document active (Z.to_nat row))) k acc)%query.

(** One sealed segment of [execute_pinned] at the exact tier. *)
Definition execute_sealed_filtered (segment : QuerySegment B) (query : list Z) (predicate : Predicate) (k : Z)
    (acc : Merged) : Query Merged :=
  (let meta := qs_meta segment in
   let source := SourceSealed (sm_id meta) in
   if negb (segment_may_match (sm_clustering_key_range meta) predicate)
   then query_ret {| mg_candidates := mg_candidates acc; mg_stats := mg_stats acc;
                     mg_plans := mg_plans acc
                       ++ [with_predicate predicate (plan_exact source SealedScan BranchPruned 0 None)] |}
   else
   let? columns := query_lift (map_err store_error (qs_columns segment)) in
   let? alive := query_lift (map_err store_error (qs_alive segment)) in
   let? allow_list := query_lift (evaluate_for_plan predicate columns alive) in
   let branch := choose_scan_branch (cardinality allow_list) in
   let plan := with_predicate predicate
                 (plan_exact source SealedScan branch (cardinality allow_list)
                    (Some (sealed_scan_reason meta (Some TierExact)))) in
   let? vectors := query_lift (map_err store_error (qs_vectors segment)) in
   merge_segment plan vectors (sm_row_count meta) query allow_list
     (λ row, map_err store_error (qs_document segment row)) k acc)%query.

Fixpoint execute_segments (segments : list (QuerySegment B)) (query : list Z) (predicate : Predicate) (k : Z)
    (acc : Merged) : Query Merged :=
  (match segments with
   | [] => query_ret acc
   | segment :: segments =>
       let? acc := execute_sealed_filtered segment query predicate k acc in
       execute_segments segments query predicate k acc
   end)%query.

(** [execute_pinned] at the exact tier; preparing the quantized queries only
    validates the vector there. *)
Definition execute_pinned (segments : list (QuerySegment B)) (active : ActiveSegment Bit4Factors)
    (schema : Schema) (generation : Z) (counters : PlanCounters) (query : list Z) (predicate : Predicate)
    (k : Z) : Query FilteredSearchOutcome :=
  (let? _ := query_lift (map_err (λ e, scan_error (ScanQuant e)) (quant_validate_vector query)) in
   let acc := {| mg_candidates := []; mg_stats := stats_default; mg_plans := [] |} in
   let? acc := (if bool_decide (bf_data (sg_doc_ids active) = []) then query_ret acc
                else execute_active_filtered active schema query predicate k acc) in
   let? acc := execute_segments segments query predicate k acc in
   let candidates := retain_global_top_k (mg_candidates acc) k in
   let? _ := check_graph in
   let? counters := query_lift (map_err store_error (record_plans (mg_plans acc) counters)) in
   query_ret {| fo_candidates := candidates; fo_stats := stats_finish (mg_stats acc);
                fo_generation := generation; fo_plans := mg_plans acc; fo_counters := counters |})%query.

(** [execute_store]: the published state is what the store's locks hand out. *)
Definition execute_store (state : StoreState) (active : option (ActiveState Bit4Factors))
    (snapshot : option (list (QuerySegment B))) (schema : Schema) (counters : PlanCounters) (query : list Z)
    (predicate : Predicate) (k : Z) : Query FilteredSearchOutcome :=
  (let? _ := query_lift (match state with
                         | Open => Ok tt
                         | Closing => Err (store_error StoreClosing)
                         | Closed => Err (store_error StoreClosed)
                         end) in
   let? active := query_lift (ok_or active (store_error StoreClosed)) in
   let? segments := query_lift (ok_or snapshot (store_error StoreClosed)) in
   let? _ := query_lift (map_err FilteredPlan (validate_predicate predicate schema)) in
   let? _ := check_graph in
   execute_pinned segments (as_segment active) schema (as_generation active) counters query predicate k)%query.
End Execute.
