(* ===== verification/FilteredSearchSpec.v ===== *)
(** * Exact filtered search returns the best matching rows

    Every branch of the executor scores the rows the filter selects, keeps the
    best of a segment with the ties of the last, and merges; the result is the
    best of all matching live rows of the active and the sealed segments. *)

From stdpp Require Import sorting.
From S2P Require Import Prelude Cursor Schema Epoch Float Manifest Bitmap Columns ColumnsSpec Predicate PredicateSpec IngestPayload TopK SegmentLayout SegmentWriter StoreErrors Accounted ActiveSegment ActiveSpec ActiveIngest SegmentReader SegmentRows SegmentDocuments Planner FilteredSearch.

(** ** The order of candidates *)

Definition document_key (d : option DocumentVersion) : list Z :=
  match d with
  | Some d => [0; dv_doc_id d; - dv_revision d]
  | None => [1; 0; 0]
  end.

Definition source_key (s : RowSource) : list Z :=
  match s with
  | SourceActive => [0]
  | SourceSealed id => 1 :: map (λ b, byte_value b + 1) id ++ [0]
  end.

Definition candidate_key (c : SearchCandidate) : list Z :=
  - f32_total_key (ca_score c) :: document_key (ca_document c)
  ++ source_key (gr_source (ca_row_id c)) ++ [gr_local_row (ca_row_id c)].

Lemma byte_value_nonneg b : 0 ≤ byte_value b.
Proof. unfold byte_value. lia. Qed.

Lemma then_with_assoc a b c : then_with (then_with a b) c = then_with a (then_with b c).
Proof. by destruct a. Qed.

Lemma then_with_Eq a : then_with a Eq = a.
Proof. by destruct a. Qed.

Lemma lex_cmp_cons x y a b : lex_cmp (x :: a) (y :: b) = then_with (x ?= y) (lex_cmp a b).
Proof. by cbn; destruct (x ?= y). Qed.

Lemma bytes_key a : ∀ b x y,
  lex_cmp ((map (λ b, byte_value b + 1) a ++ [0]) ++ x) ((map (λ b, byte_value b + 1) b ++ [0]) ++ y)
  = then_with (bytes_compare a b) (lex_cmp x y).
Proof.
  induction a as [|u a IH]; intros [|v b] x y; cbn [map app bytes_compare]; rewrite ?lex_cmp_cons; [done| | |].
  - pose proof (byte_value_nonneg v). by rewrite (proj2 (Z.compare_lt_iff 0 (byte_value v + 1))) by lia.
  - pose proof (byte_value_nonneg u). by rewrite (proj2 (Z.compare_gt_iff (byte_value u + 1) 0)) by lia.
  - rewrite IH, !(Z.add_comm _ 1), Z.add_compare_mono_l. by destruct (byte_value u ?= byte_value v).
Qed.

Lemma source_key_cmp a b x y :
  lex_cmp (source_key a ++ x) (source_key b ++ y) = then_with (source_cmp a b) (lex_cmp x y).
Proof.
  destruct a as [|a], b as [|b]; cbn [source_key app source_cmp]; rewrite ?lex_cmp_cons; try done. apply bytes_key.
Qed.

Lemma document_key_cmp a b x y :
  lex_cmp (document_key a ++ x) (document_key b ++ y)
  = then_with (match a, b with
               | Some l, Some r => then_with (dv_doc_id l ?= dv_doc_id r) (dv_revision r ?= dv_revision l)
               | Some _, None => Lt
               | None, Some _ => Gt
               | None, None => Eq
               end) (lex_cmp x y).
Proof.
  destruct a as [a|], b as [b|]; cbn [document_key app]; rewrite !lex_cmp_cons; [|done..].
  rewrite Z.compare_opp. cbn [Z.compare then_with]. by rewrite then_with_assoc.
Qed.

Lemma compare_is_lex a b : compare_search_candidates a b = lex_cmp (candidate_key a) (candidate_key b).
Proof.
  unfold compare_search_candidates, candidate_key, row_id_cmp. rewrite lex_cmp_cons, document_key_cmp, source_key_cmp.
  rewrite lex_cmp_cons. cbn [lex_cmp]. rewrite then_with_Eq, Z.compare_opp. done.
Qed.

#[export] Instance candidate_before_trans : Transitive candidate_before.
Proof. intros a b c. unfold candidate_before. rewrite !compare_is_lex. apply lex_cmp_trans. Qed.

#[export] Instance candidate_before_total : Total candidate_before.
Proof.
  intros a b. unfold candidate_before. rewrite !compare_is_lex, (lex_cmp_antisym (candidate_key a)).
  destruct (lex_cmp (candidate_key a) (candidate_key b)); cbn; naive_solver.
Qed.

Lemma before_antisym_row a b :
  candidate_before a b → candidate_before b a → ca_row_id a = ca_row_id b.
Proof.
  unfold candidate_before. rewrite !compare_is_lex, (lex_cmp_antisym (candidate_key a)), <- compare_is_lex.
  intros H1 H2. assert (compare_search_candidates a b = Eq) as E by (by destruct (compare_search_candidates a b)).
  unfold compare_search_candidates in E. destruct (f32_total_cmp _ _); cbn [then_with] in E; [|done..].
  destruct (match ca_document a with Some _ => _ | None => _ end); cbn [then_with] in E; [|done..].
  unfold row_id_cmp in E. destruct (ca_row_id a) as [s1 r1], (ca_row_id b) as [s2 r2]. cbn in E.
  destruct (source_cmp s1 s2) eqn:Es; cbn [then_with] in E; [|done..]. apply Z.compare_eq_iff in E as ->. f_equal.
  destruct s1, s2; cbn in Es; try done. by apply bytes_compare_Eq in Es as ->.
Qed.

(** Candidates of different rows never tie. *)
Lemma rows_distinct l : NoDup (map ca_row_id l) → distinct candidate_before l.
Proof.
  intros Hn. split; [by eapply NoDup_fmap_1|]. intros a b Ha Hb H1 H2.
  by eapply (NoDup_fmap_elem ca_row_id); [..|apply before_antisym_row].
Qed.

Lemma before_score a b :
  f32_total_key (ca_score b) < f32_total_key (ca_score a) → ¬ candidate_before b a.
Proof.
  intros H Hb. apply Hb. unfold compare_search_candidates, f32_total_cmp.
  by rewrite (proj2 (Z.compare_gt_iff _ _) H).
Qed.

(** ** Merging *)

(** Truncation keeps a prefix of the sorted rows whose scores are above those of
    the rest, and [k] of them unless it keeps everything. *)
Lemma truncate_split k l :
  0 ≤ k → StronglySorted before l →
  ∃ n, truncate_to_k_with_score_ties l k = take n l
       ∧ (∀ a b, a ∈ take n l → b ∈ drop n l → TopK.key b < TopK.key a)
       ∧ (drop n l ≠ [] → (Z.to_nat k ≤ length (take n l))%nat).
Proof.
  intros Hk Hs. unfold truncate_to_k_with_score_ties.
  destruct (Z.eqb_spec k 0) as [->|]; [exists 0%nat; split_and!; [done|set_solver|done]|].
  destruct (Z.leb_spec (len l) k) as [Hle|Hlt].
  { exists (length l). rewrite firstn_all, skipn_all. split_and!; [done|set_solver|done]. }
  unfold saturating_sub. rewrite Z.max_r by lia.
  destruct (l !! Z.to_nat (k - 1)) as [x|] eqn:Ex; [|apply lookup_ge_None in Ex; unfold len in Hlt; lia].
  set (tied := tied_prefix (sc_score x) (drop (Z.to_nat k) l)). exists (Z.to_nat k + tied)%nat.
  destruct (sorted_split _ _ _ Hs Ex) as [Ht _]. replace (S (Z.to_nat (k - 1))) with (Z.to_nat k) in Ht by lia.
  assert (StronglySorted before (x :: drop (Z.to_nat k) l)) as Hx.
  { rewrite <- (take_drop_middle _ _ _ Ex) in Hs. apply StronglySorted_app in Hs as (_ & _ & Hs).
    by replace (S (Z.to_nat (k - 1))) with (Z.to_nat k) in Hs by lia. }
  destruct (tied_prefix_spec x _ Hx) as [Ht1 Ht2]. split_and!; [done| |].
  - intros a b Ha Hb. rewrite <- drop_drop in Hb. specialize (Ht2 b Hb).
    rewrite <- (take_drop (Z.to_nat k) l), take_app_add' in Ha by (rewrite length_take; unfold len in *; lia).
    apply elem_of_app in Ha as [Ha|Ha]; [specialize (Ht a Ha); lia|]. rewrite (Ht1 a Ha). lia.
  - intros _. rewrite length_take. unfold len in Hlt. lia.
Qed.

Lemma rank_all c l : (∀ d, d ∈ l → ¬ candidate_before c d) → rank candidate_before c l = length l.
Proof. intros H. unfold rank. by rewrite keep_all. Qed.

(** Keeping the best [k] before merging. *)
Lemma retain_retain k l rest :
  distinct candidate_before (l ++ rest) →
  retain_global_top_k (retain_global_top_k l k ++ rest) k = retain_global_top_k (l ++ rest) k.
Proof.
  intros Hd. unfold retain_global_top_k, sort_search_candidates. set (s := merge_sort candidate_before l).
  assert (s ≡ₚ l) as Hp by apply merge_sort_Permutation.
  assert (l ++ rest ≡ₚ (take (Z.to_nat k) s ++ drop (Z.to_nat k) s) ++ rest) as Hp' by (by rewrite take_drop, Hp).
  pose proof (distinct_perm _ _ _ Hp' Hd) as Hd'. rewrite (sort_of_perm candidate_before _ _ Hd Hp').
  symmetry. apply (top_drop candidate_before); [exact Hd'|]. intros d Hdr.
  pose proof (sorted_sort candidate_before l) as Hs. fold s in Hs. rewrite <- (take_drop (Z.to_nat k) s) in Hs.
  apply StronglySorted_app in Hs as (Hcross & _ & _). rewrite rank_all.
  - rewrite length_take. assert (Z.to_nat k < length s)%nat; [|lia]. apply Nat.nle_gt. intros Hle.
    rewrite drop_ge in Hdr by done. by apply elem_of_nil in Hdr.
  - intros e He Hb. apply distinct_app_l in Hd' as [Hn Ha]. apply NoDup_app in Hn as (_ & Hn & _).
    apply (Hn e He). rewrite <- (Ha d e); [done|set_solver|set_solver|done|by apply Hcross].
Qed.

(** Dropping from a segment what is beyond its [k]-th score. *)
Lemma retain_local k acc local (g : ScanCandidate → SearchCandidate) :
  0 ≤ k → (∀ c, ca_score (g c) = sc_score c) → distinct candidate_before (acc ++ map g local) →
  retain_global_top_k (acc ++ map g (truncate_to_k_with_score_ties (sort_candidates local) k)) k
  = retain_global_top_k (acc ++ map g local) k.
Proof.
  intros Hk Hg Hd. unfold retain_global_top_k, sort_search_candidates.
  destruct (truncate_split k (sort_candidates local) Hk (sort_sorted local)) as (n & -> & Hcross & Hlen).
  set (s := sort_candidates local) in *.
  assert (acc ++ map g local ≡ₚ (map g (take n s) ++ map g (drop n s)) ++ acc) as Hp.
  { rewrite <- map_app, take_drop. unfold s. rewrite (sort_perm local). by rewrite (Permutation_app_comm acc). }
  assert (distinct candidate_before ((map g (take n s) ++ map g (drop n s)) ++ acc)) as Hd' by (by eapply distinct_perm).
  rewrite (sort_of_perm candidate_before _ _ Hd Hp).
  rewrite (top_drop candidate_before (Z.to_nat k) _ _ _ Hd').
  - f_equal. apply (sort_of_perm candidate_before); [|apply Permutation_app_comm].
    apply (distinct_app_l candidate_before _ (map g (drop n s))). eapply distinct_perm; [|exact Hd']. solve_Permutation.
  - intros d' Hd1. apply list_elem_of_fmap in Hd1 as (d & -> & Hdr). rewrite rank_all, length_map.
    + apply Hlen. intros E. rewrite E in Hdr. by apply elem_of_nil in Hdr.
    + intros e' He. apply list_elem_of_fmap in He as (e & -> & He). apply before_score. rewrite !Hg.
      by apply Hcross.
Qed.

(** Both at once: the running best and the best of a segment. *)
Lemma retain_merge k all local (g : ScanCandidate → SearchCandidate) :
  0 ≤ k → (∀ c, ca_score (g c) = sc_score c) → distinct candidate_before (all ++ map g local) →
  retain_global_top_k (retain_global_top_k all k ++ map g (truncate_to_k_with_score_ties (sort_candidates local) k)) k
  = retain_global_top_k (all ++ map g local) k.
Proof.
  intros Hk Hg Hd. rewrite <- (retain_local k all local g Hk Hg Hd). apply retain_retain.
  destruct (truncate_split k (sort_candidates local) Hk (sort_sorted local)) as (n & -> & _).
  apply (distinct_app_l candidate_before _ (map g (drop n (sort_candidates local)))).
  eapply distinct_perm; [|exact Hd]. by rewrite <- app_assoc, <- map_app, take_drop, (sort_perm local).
Qed.

(** ** Scoring *)

(** A control that lets the query go on. *)
Definition quiet (control : Control) : Prop := Forall (λ o, o = None) control.

(** Under a quiet control, the step returns [a]. *)
Definition runs {A} (m : Query A) (a : A) : Prop :=
  ∀ c, quiet c → ∃ c', m c = (c', Ok a) ∧ quiet c'.

Lemma runs_ret {A} (a : A) : runs (query_ret a) a.
Proof. intros c Hc. by exists c. Qed.

Lemma runs_lift {A} r (a : A) : r = Ok a → runs (query_lift r) a.
Proof. intros -> c Hc. by exists c. Qed.

Lemma runs_bind {A C} (m : Query A) (k : A → Query C) a b :
  runs m a → runs (k a) b → runs (query_bind m k) b.
Proof. intros Hm Hk c Hc. destruct (Hm c Hc) as (c' & E & Hc'). unfold query_bind. rewrite E. by apply Hk. Qed.

Lemma runs_check : runs check_graph tt.
Proof.
  intros [|o c] Hc; [by exists []|]. apply Forall_cons in Hc as [-> Hc]. by exists c.
Qed.

Lemma runs_check_if (b : bool) : runs (if b then check_graph else query_ret tt) tt.
Proof. destruct b; [apply runs_check|apply runs_ret]. Qed.

Section Scoring.
Context {D : SquaredL2} {B : Type} {R : Roaring B} {RL : RoaringLaws B}.
Context (thread : Z) (query : list Z) (vectors : list (list Z)).
Hypothesis Hquery : query ≠ [].
Hypothesis Hdims : Forall (λ v, len v = len query) vectors.
Hypothesis Hsmall : len vectors ≤ u32_max.
Hypothesis Hroom : len vectors * len query * 4 ≤ u64_max.

(** The candidate of a row. *)
Definition scored_row (i : nat) : ScanCandidate :=
  {| sc_row_id := Z.of_nat i; sc_score := squared_l2_score (default [] (vectors !! i)) query |}.

Definition finite_row (i : nat) : Prop :=
  (i < length vectors)%nat ∧ f32_is_finite (sc_score (scored_row i)) = true.

Definition add_scored (rows : list nat) (acc : Scored) : Scored :=
  {| sd_candidates := sd_candidates acc ++ map scored_row rows; sd_scored_rows := sd_scored_rows acc + len rows |}.

Lemma add_scored_nil acc : add_scored [] acc = acc.
Proof. destruct acc. unfold add_scored. cbn. by rewrite app_nil_r, Z.add_0_r. Qed.

Lemma add_scored_cons i rows acc : add_scored rows (add_scored [i] acc) = add_scored (i :: rows) acc.
Proof.
  unfold add_scored. cbn [sd_candidates sd_scored_rows map]. rewrite <- app_assoc, !len_cons, len_nil. f_equal. lia.
Qed.

Lemma row_slice i v :
  vectors !! i = Some v →
  slice_range (concat vectors) (Z.of_nat i * len query) (Z.of_nat i * len query + len query) = Some v.
Proof using Hdims.
  intros Hi. rewrite <- (take_drop_middle _ _ _ Hi), concat_app. cbn [concat].
  assert (Forall (λ v, len v = len query) (take i vectors)) as Ht by (by apply Forall_take).
  pose proof (len_concat_uniform (λ v, v) (len query) _ Ht) as El. rewrite map_id in El.
  apply lookup_lt_Some in Hi as Hlt. unfold len in El at 2. rewrite length_take, Nat.min_l in El by lia.
  apply slice_range_app; [by rewrite El|]. rewrite El. f_equal. symmetry.
  by apply (proj1 (Forall_lookup _ _) Hdims i).
Qed.

Lemma query_pos : 1 ≤ len query.
Proof using Hquery. pose proof (len_nonneg query). assert (len query ≠ 0); [|lia]. by intros E%len_zero_nil. Qed.

Lemma score_one_runs i acc :
  finite_row i → 0 ≤ sd_scored_rows acc → sd_scored_rows acc + 1 ≤ u64_max →
  runs (score_one (concat vectors) (len vectors) query (Z.of_nat i) acc) (add_scored [i] acc).
Proof using Hquery Hdims Hroom.
  intros [Hi Hf] H0 H1. destruct (lookup_lt_is_Some_2 _ _ Hi) as [v Hv]. unfold score_one.
  pose proof query_pos as Hq. pose proof (len_nonneg vectors).
  assert ((Z.of_nat i + 1) * len query ≤ u64_max) as Hb.
  { assert (Z.of_nat i + 1 ≤ len vectors) by (unfold len; lia). nia. }
  change usize_max with u64_max. destruct (Z.leb_spec (len vectors) (Z.of_nat i)); [unfold len in *; lia|].
  eapply runs_bind; [apply runs_check_if|].
  eapply runs_bind; [apply runs_lift; rewrite checked_mul_total by lia; reflexivity|].
  eapply runs_bind; [apply runs_lift; rewrite checked_add_total by lia; reflexivity|].
  eapply runs_bind; [apply runs_lift; rewrite (row_slice i v Hv); reflexivity|].
  unfold finite_row, scored_row in Hf. rewrite Hv in Hf. cbn in Hf. rewrite Hf. cbn [negb].
  eapply runs_bind; [apply runs_lift; rewrite checked_add_total by lia; reflexivity|].
  assert (add_scored [i] acc = {| sd_candidates := sd_candidates acc
    ++ [{| sc_row_id := Z.of_nat i; sc_score := squared_l2_score v query |}]; sd_scored_rows := sd_scored_rows acc + 1 |}) as ->.
  { unfold add_scored. cbn [map]. unfold scored_row. by rewrite Hv. }
  apply runs_ret.
Qed.

Lemma score_allowed_runs rows : ∀ acc,
  Forall finite_row rows → 0 ≤ sd_scored_rows acc → sd_scored_rows acc + len rows ≤ u64_max →
  runs (score_allowed (concat vectors) (len vectors) query (map Z.of_nat rows) acc) (add_scored rows acc).
Proof using Hquery Hdims Hroom.
  induction rows as [|i rows IH]; intros acc Hf H0 H1; cbn [map score_allowed].
  { rewrite add_scored_nil. apply runs_ret. }
  apply Forall_cons in Hf as [Hi Hf]. rewrite len_cons in H1. pose proof (len_nonneg rows).
  rewrite <- add_scored_cons. eapply runs_bind; [apply score_one_runs; [done|done|lia]|].
  apply IH; [done| |]; cbn [add_scored sd_scored_rows]; change (len [i]) with 1; lia.
Qed.

Lemma score_masked_runs (allow : DocBitmap B) rows : ∀ acc,
  let kept := filter (λ i, Z.of_nat i ∈ db_set allow) rows in
  Forall (λ i, (i < length vectors)%nat) rows → Forall finite_row kept →
  0 ≤ sd_scored_rows acc → sd_scored_rows acc + len kept ≤ u64_max →
  runs (score_masked (concat vectors) (len vectors) query allow (map Z.of_nat rows) acc) (add_scored kept acc).
Proof using All.
  induction rows as [|i rows IH]; intros acc kept Hr Hf H0 H1; cbn [map score_masked].
  { rewrite add_scored_nil. apply runs_ret. }
  apply Forall_cons in Hr as [Hi Hr]. subst kept. rewrite filter_cons in Hf, H1 |- *.
  eapply runs_bind; [apply runs_check_if|].
  eapply runs_bind; [apply runs_lift; rewrite try_from_total by (unfold len in Hsmall; lia); reflexivity|].
  rewrite db_contains. revert Hf H1. destruct (decide (Z.of_nat i ∈ db_set allow)) as [Hin|Hout]; intros Hf H1.
  - rewrite bool_decide_true by done. apply Forall_cons in Hf as [Hfi Hf]. rewrite len_cons in H1.
    pose proof (len_nonneg (filter (λ i, Z.of_nat i ∈ db_set allow) rows)).
    rewrite <- add_scored_cons. eapply runs_bind; [apply score_one_runs; [done|done|lia]|].
    apply IH; [done|done| |]; cbn [add_scored sd_scored_rows]; change (len [i]) with 1; lia.
  - rewrite bool_decide_false by done. eapply runs_bind; [apply runs_ret|]. by apply IH.
Qed.
End Scoring.

(** *** A whole segment *)

Section Branches.
Context {D : SquaredL2} {B : Type} {R : Roaring B} {RL : RoaringLaws B}.
Context (thread : Z) (query : list Z) (vectors : list (list Z)) (allow : DocBitmap B).
Hypothesis Hquery : query ≠ [].
Hypothesis Hdims : Forall (λ v, len v = len query) vectors.
Hypothesis Hsmall : len vectors ≤ u32_max.
Hypothesis Hroom : len vectors * len query * 4 ≤ u64_max.
Hypothesis Hallow : ∀ x, x ∈ db_set allow → 0 ≤ x < len vectors.

(** The rows the allow-list selects. *)
Definition allowed : list nat := filter (λ i, Z.of_nat i ∈ db_set allow) (seq 0 (length vectors)).

Hypothesis Hfinite : Forall (finite_row query vectors) allowed.

Lemma seqZ_of_nat n : seqZ 0 (Z.of_nat n) = map Z.of_nat (seq 0 n).
Proof.
  unfold seqZ. rewrite Nat2Z.id. apply list_fmap_ext. intros i x _. lia.
Qed.

Lemma seq_sorted n : ∀ start, StronglySorted Z.lt (map Z.of_nat (seq start n)).
Proof.
  induction n as [|n IH]; intros start; cbn; [constructor|]. constructor; [apply IH|].
  apply Forall_forall. intros x (i & -> & Hi)%list_elem_of_fmap. apply elem_of_seq in Hi. lia.
Qed.

Lemma map_filter_nat (P : Z → Prop) (Q : nat → Prop) {HP : ∀ x, Decision (P x)} {HQ : ∀ i, Decision (Q i)} (l : list nat) :
  (∀ i, Q i ↔ P (Z.of_nat i)) → map Z.of_nat (filter Q l) = filter P (map Z.of_nat l).
Proof.
  intros H. induction l as [|i l IH]; [done|]. cbn [map]. rewrite !filter_cons, <- IH. specialize (H i).
  destruct (decide (Q i)), (decide (P (Z.of_nat i))); (done || tauto).
Qed.

Lemma sorted_lt_NoDup (l : list Z) : StronglySorted Z.lt l → NoDup l.
Proof.
  induction 1 as [|x l _ IH Hx]; constructor; [|done]. intros Hin. rewrite Forall_forall in Hx.
  specialize (Hx x Hin). lia.
Qed.

Lemma iter_allowed : bitmap_iter allow = map Z.of_nat allowed.
Proof using RL Hallow.
  unfold allowed. rewrite (map_filter_nat (λ x, x ∈ db_set allow) _ (HP:=λ x, decide (x ∈ db_set allow))) by done. apply (StronglySorted_unique_strong Z.lt).
  - intros x y _ _ H1 H2. lia.
  - apply db_iter_sorted.
  - apply keep_sorted, seq_sorted.
  - apply NoDup_Permutation.
    + apply sorted_lt_NoDup, db_iter_sorted.
    + apply NoDup_filter. apply NoDup_fmap_2; [apply _|apply NoDup_seq].
    + intros x. rewrite db_iter_elem, list_elem_of_filter, list_elem_of_fmap. split; [|by intros [? _]].
      intros Hx. split; [done|]. pose proof (Hallow x Hx) as Hr. exists (Z.to_nat x). rewrite elem_of_seq. unfold len in Hr. lia.
Qed.

Lemma len_allowed : 0 ≤ len allowed ≤ len vectors.
Proof using.
  unfold allowed, len. pose proof (length_filter (λ i, Z.of_nat i ∈ db_set allow) (seq 0 (length vectors))).
  rewrite length_seq in *. lia.
Qed.

Definition rows_stats : ScanStats :=
  {| st_dims_touched := len allowed * len query; st_bytes_read := len allowed * len query * 4;
     st_threads_used := (if negb (len allowed =? 0) then 1 else 0);
     st_worker_thread_ids := (if negb (len allowed =? 0) then [thread] else []) |}.

Lemma finish_rows branch k :
  finish_squared_l2_rows thread (add_scored query vectors allowed scored_none) (len query) branch k
  = Ok (truncate_to_k_with_score_ties (sort_candidates (map (scored_row query vectors) allowed)) k, rows_stats, branch).
Proof using Hquery Hroom.
  unfold finish_squared_l2_rows. cbn [add_scored scored_none sd_candidates sd_scored_rows app]. rewrite !Z.add_0_l.
  pose proof len_allowed. pose proof (query_pos query Hquery).
  rewrite checked_mul_total by nia. cbn [ok_or]. rewrite bind_Ok, checked_mul_total by nia. cbn [ok_or]. by rewrite bind_Ok.
Qed.

(** Both scan branches score the selected rows. *)
Lemma execute_rows_runs cardinality k :
  runs (execute_squared_l2_rows thread (concat vectors) (len vectors) query allow (choose_scan_branch cardinality) k)
    (truncate_to_k_with_score_ties (sort_candidates (map (scored_row query vectors) allowed)) k, rows_stats,
     choose_scan_branch cardinality).
Proof using All.
  unfold execute_squared_l2_rows. rewrite bool_decide_false by done. pose proof len_allowed as Hla.
  pose proof (query_pos query Hquery) as Hq.
  eapply runs_bind; [apply runs_lift; change usize_max with u64_max; rewrite checked_mul_total by nia; reflexivity|].
  pose proof (len_concat_uniform (λ v, v) (len query) _ Hdims) as El. rewrite map_id in El.
  rewrite El, Z.eqb_refl. cbn [negb].
  assert (len allowed ≤ u64_max) as Hl by (unfold u32_max, u64_max in *; lia).
  unfold choose_scan_branch. destruct (cardinality <=? ALLOW_LIST_ROWS_THRESHOLD); cbv iota.
  - eapply runs_bind; [rewrite iter_allowed; by apply score_allowed_runs|]. apply runs_lift, finish_rows.
  - change (seqZ 0 (len vectors)) with (seqZ 0 (Z.of_nat (length vectors))). rewrite seqZ_of_nat. eapply runs_bind; [|apply runs_lift, finish_rows].
    apply score_masked_runs; try done. apply Forall_forall. intros i Hi%elem_of_seq. lia.
Qed.
End Branches.

(** ** What a query should return *)

(** A row of a segment as a query sees it: its version, the cells of its columns
    and its vector. *)
Record QueryRow : Type := {
  qr_document : option DocumentVersion;
  qr_cells : ColumnsSpec.Row;
  qr_vector : list Z;
}.

Record QueryRows : Type := {
  qv_source : RowSource;
  qv_rows : list QueryRow;
  qv_dead : list nat;
}.

Section Wanted.
Context {D : SquaredL2}.
Context (schema : Schema) (predicate : Predicate) (query : list Z).

Definition wanted (v : QueryRows) (i : nat) : Prop :=
  ∃ row, qv_rows v !! i = Some row ∧ (i ∉ qv_dead v) ∧ matches (cells_of schema (qr_cells row)) predicate = true.

#[export] Instance wanted_dec v i : Decision (wanted v i).
Proof.
  unfold wanted. destruct (qv_rows v !! i) as [row|] eqn:E.
  - destruct (decide ((i ∉ qv_dead v) ∧ matches (cells_of schema (qr_cells row)) predicate = true)) as [H|H].
    + left. by exists row.
    + right. intros (row' & E' & H'). injection E' as <-. done.
  - right. by intros (row' & E' & _).
Defined.

(** The candidate of a row. *)
Definition candidate_of (v : QueryRows) (i : nat) : SearchCandidate :=
  {| ca_row_id := {| gr_source := qv_source v; gr_local_row := Z.of_nat i |};
     ca_document := qv_rows v !! i ≫= qr_document;
     ca_score := squared_l2_score (default [] (qr_vector <$> qv_rows v !! i)) query;
     ca_exact_score := true |}.

(** Every live row of the segment that satisfies the predicate. *)
Definition matching (v : QueryRows) : list SearchCandidate :=
  map (candidate_of v) (filter (wanted v) (seq 0 (length (qv_rows v)))).

(** The widths of a segment, and finite scores for the rows the query wants. *)
Record rows_ok (v : QueryRows) : Prop := {
  ro_dims : Forall (λ row, len (qr_vector row) = len query) (qv_rows v);
  ro_count : len (qv_rows v) ≤ u32_max;
  ro_finite : Forall (λ c, f32_is_finite (ca_score c) = true) (matching v);
}.

(** What the merge of the segments so far holds. *)
Record merged (k : Z) (all : list SearchCandidate) (sources : list RowSource) (acc : Merged) : Prop := {
  me_candidates : mg_candidates acc = retain_global_top_k all k;
  me_dims : ms_dims_touched (mg_stats acc) = len all * len query;
  me_bytes : ms_bytes_read (mg_stats acc) = len all * len query * 4;
  me_sources : map pl_source (mg_plans acc) = sources;
}.

Lemma matching_rows v : NoDup (map ca_row_id (matching v)).
Proof.
  unfold matching. rewrite map_map. cbn. apply NoDup_fmap_2; [|apply NoDup_filter, NoDup_seq].
  intros i j E. injection E. lia.
Qed.

Lemma matching_source v c : c ∈ matching v → gr_source (ca_row_id c) = qv_source v.
Proof. intros (i & -> & _)%list_elem_of_fmap. done. Qed.

Lemma matching_count v : 0 ≤ len (matching v) ≤ len (qv_rows v).
Proof.
  unfold matching, len. rewrite length_map. pose proof (length_filter (wanted v) (seq 0 (length (qv_rows v)))).
  rewrite length_seq in *. lia.
Qed.
End Wanted.

(** The rows of different segments have different addresses. *)
Lemma concat_matching_rows {D : SquaredL2} schema predicate query vs :
  NoDup (map qv_source vs) →
  NoDup (map ca_row_id (concat (map (matching schema predicate query) vs))).
Proof.
  induction vs as [|v vs IH]; intros Hn; [constructor|]. cbn [map concat] in *. apply NoDup_cons in Hn as [Hv Hn].
  rewrite map_app. apply NoDup_app. split_and!; [apply matching_rows| |by apply IH].
  intros r Hr Hr'. apply list_elem_of_fmap in Hr as (c & -> & Hc), Hr' as (c' & E & Hc').
  apply matching_source in Hc. apply list_elem_of_In, in_concat in Hc' as (l & Hl & Hc').
  apply in_map_iff in Hl as (v' & <- & Hv'). apply list_elem_of_In, matching_source in Hc'.
  apply Hv. rewrite <- Hc, E, Hc'. apply list_elem_of_fmap. exists v'. split; [done|]. by apply list_elem_of_In.
Qed.

(** ** Merging a segment *)

Section Merge.
Context {D : SquaredL2} {B : Type} {R : Roaring B} {RL : RoaringLaws B}.
Context (thread : Z) (schema : Schema) (predicate : Predicate) (query : list Z) (k : Z).
Hypothesis Hquery : query ≠ [].
Hypothesis Hk : 0 ≤ k.

(** The store's candidate of a local one. *)
Definition to_candidate source (document : Z → result FilteredSearchError (option DocumentVersion)) (c : ScanCandidate)
    : SearchCandidate :=
  {| ca_row_id := {| gr_source := source; gr_local_row := sc_row_id c |};
     ca_document := match document (sc_row_id c) with Ok d => d | Err _ => None end;
     ca_score := sc_score c; ca_exact_score := true |}.

Lemma append_candidates_ok source document local : ∀ acc,
  (∀ c, c ∈ local → 0 ≤ sc_row_id c ≤ u32_max ∧ ∃ d, document (sc_row_id c) = Ok d) →
  append_candidates local source document acc true = Ok (acc ++ map (to_candidate source document) local).
Proof using.
  induction local as [|c local IH]; intros acc Hd; cbn [append_candidates map]; [by rewrite app_nil_r|].
  destruct (Hd c ltac:(left)) as [Hc [d Ed]]. rewrite try_from_total by done. cbn [ok_or]. rewrite bind_Ok, Ed, bind_Ok.
  rewrite IH by (intros c' Hc'; apply Hd; by right). rewrite <- app_assoc. unfold to_candidate. by rewrite Ed.
Qed.

Lemma truncate_subset l n : ∀ c, c ∈ truncate_to_k_with_score_ties (sort_candidates l) n → c ∈ l.
Proof.
  intros c Hc. rewrite <- (sort_perm l). unfold truncate_to_k_with_score_ties in Hc.
  destruct (n =? 0); [by apply elem_of_nil in Hc|]. destruct (_ <=? n); [done|].
  destruct (_ !! _); by apply elem_of_take in Hc as (i & Hc & _); apply list_elem_of_lookup_2 in Hc.
Qed.

(** The allow-list of a segment is the rows the query wants. *)
Definition allows (v : QueryRows) (allow : DocBitmap B) : Prop :=
  ∀ x, x ∈ db_set allow ↔ 0 ≤ x < len (qv_rows v) ∧ wanted schema predicate v (Z.to_nat x).

Section Segment.
Context (v : QueryRows) (allow : DocBitmap B) (document : Z → result FilteredSearchError (option DocumentVersion)).
Hypothesis Hv : rows_ok schema predicate query v.
Hypothesis Ha : allows v allow.
Hypothesis Hdoc : ∀ i row, qv_rows v !! i = Some row → document (Z.of_nat i) = Ok (qr_document row).

Let vectors := map qr_vector (qv_rows v).

Lemma allowed_wanted : allowed vectors allow = filter (wanted schema predicate v) (seq 0 (length (qv_rows v))).
Proof using Ha.
  unfold allowed, vectors. rewrite length_map. apply keep_same. intros i Hi%elem_of_seq.
  rewrite (Ha (Z.of_nat i)), Nat2Z.id. unfold len. intuition lia.
Qed.

Lemma allowed_row i : i ∈ allowed vectors allow → ∃ row, qv_rows v !! i = Some row.
Proof using Ha.
  rewrite allowed_wanted. intros [(row & Hr & _) _]%list_elem_of_filter. by exists row.
Qed.

Lemma candidates_matching :
  map (to_candidate (qv_source v) document) (map (scored_row query vectors) (allowed vectors allow))
  = matching schema predicate query v.
Proof using Ha Hdoc.
  unfold matching. rewrite map_map, <- allowed_wanted. apply map_ext_in. intros i Hi%list_elem_of_In.
  destruct (allowed_row i Hi) as [row Hr]. unfold to_candidate, candidate_of, scored_row, vectors.
  cbn [sc_row_id sc_score]. rewrite (Hdoc i row Hr), list_lookup_fmap, Hr. done.
Qed.

Lemma allowed_finite : Forall (finite_row query vectors) (allowed vectors allow).
Proof using Ha Hv.
  apply Forall_forall. intros i Hi. destruct (allowed_row i Hi) as [row Hr]. split.
  - unfold vectors. rewrite length_map. by eapply lookup_lt_Some.
  - pose proof (ro_finite _ _ _ _ Hv) as Hf. rewrite Forall_forall in Hf.
    assert (ca_score (candidate_of query v i) = sc_score (scored_row query vectors i)) as <-.
    { unfold candidate_of, scored_row, vectors. cbn. by rewrite list_lookup_fmap. }
    apply Hf. apply list_elem_of_fmap. exists i. split; [done|]. by rewrite <- allowed_wanted.
Qed.

Lemma merge_segment_runs tier reason cardinality all sources acc :
  (len all + len (qv_rows v)) * len query * 4 ≤ u64_max →
  NoDup (map ca_row_id (all ++ matching schema predicate query v)) → merged query k all sources acc →
  let plan := with_predicate predicate
                (plan_exact (qv_source v) tier (choose_scan_branch cardinality) cardinality reason) in
  ∃ acc', runs (merge_segment thread plan (concat vectors) (len (qv_rows v)) query allow document k acc) acc'
    ∧ merged query k (all ++ matching schema predicate query v) (sources ++ [qv_source v]) acc'.
Proof using Hquery Hk RL Hv Ha Hdoc.
  intros Hroom Hn [E1 E2 E3 E4] plan. assert (len (qv_rows v) = len vectors) as El by (symmetry; apply len_map).
  pose proof (matching_count schema predicate query v) as Hcount. pose proof (len_nonneg all).
  pose proof (query_pos query Hquery) as Hq. pose proof (ro_count _ _ _ _ Hv) as Hc32.
  set (local := map (scored_row query vectors) (allowed vectors allow)).
  set (kept := truncate_to_k_with_score_ties (sort_candidates local) k).
  assert (len (allowed vectors allow) = len (matching schema predicate query v)) as Em
    by (rewrite <- candidates_matching, !len_map; done).
  eexists {| mg_candidates := retain_global_top_k (mg_candidates acc ++ map (to_candidate (qv_source v) document) kept) k;
             mg_stats := _; mg_plans := mg_plans acc ++ [plan] |}. split.
  - unfold merge_segment. cbn [with_predicate plan_exact pl_node pl_branch pl_source plan]. cbn [execute_squared_l2_plan].
    rewrite El. eapply runs_bind.
    { apply execute_rows_runs; [done| |lia|nia| |apply allowed_finite].
      - apply List.Forall_map. eapply Forall_impl; [apply (ro_dims _ _ _ _ Hv)|]. done.
      - intros x Hx%Ha. unfold vectors. rewrite len_map. lia. }
    eapply runs_bind; [apply runs_lift; unfold verify_execution_branch; by rewrite bool_decide_true|].
    eapply runs_bind.
    { apply runs_lift, append_candidates_ok. intros c Hc%truncate_subset. unfold local in Hc.
      apply list_elem_of_fmap in Hc as (i & -> & Hi). destruct (allowed_row i Hi) as [row Hr]. cbn.
      split; [|by eexists; apply Hdoc]. apply lookup_lt_Some in Hr. unfold len in Hc32. lia. }
    eapply runs_bind; [|apply runs_ret].
    apply runs_lift. unfold stats_add. rewrite E2, E3. cbn [rows_stats st_dims_touched st_bytes_read].
    rewrite Em, (checked_add_total u64_max (len all * len query)) by nia. cbn [ok_or].
    rewrite bind_Ok, checked_add_total by nia. cbn [ok_or]. rewrite bind_Ok. reflexivity.
  - split; cbn [mg_candidates mg_stats mg_plans ms_dims_touched ms_bytes_read].
    + rewrite E1. assert (distinct candidate_before (all ++ matching schema predicate query v)) as Hd by by apply rows_distinct.
      rewrite <- candidates_matching in Hd |- *. fold local in Hd |- *.
      by apply retain_merge.
    + rewrite len_app. lia.
    + rewrite len_app. lia.
    + by rewrite map_app, E4.
Qed.
End Segment.
End Merge.

(** ** Segments *)

Section Segments.
Context {D : SquaredL2} {B : Type} {R : Roaring B} {RL : RoaringLaws B}.
Context (schema : Schema).

Definition live (v : QueryRows) (i : nat) (row : QueryRow) : Prop :=
  qv_rows v !! i = Some row ∧ (i ∉ qv_dead v).

(** The reads of a sealed segment show the rows [v], and the range of its
    clustering key covers the live ones. *)
Record segment_shows (segment : QuerySegment B) (v : QueryRows) : Prop := {
  se_source : qv_source v = SourceSealed (sm_id (qs_meta segment));
  se_count : sm_row_count (qs_meta segment) = len (qv_rows v);
  se_columns : ∃ s, qs_columns segment = Ok s ∧ store_holds schema (map qr_cells (qv_rows v)) s;
  se_alive : ∃ alive, qs_alive segment = Ok alive ∧ as_row_count alive = len (qv_rows v)
    ∧ ∀ x, x ∈ db_set (as_alive alive) ↔ ∃ i row, x = Z.of_nat i ∧ live v i row;
  se_vectors : qs_vectors segment = Ok (concat (map qr_vector (qv_rows v)));
  se_documents : ∀ i row, qv_rows v !! i = Some row → qs_document segment (Z.of_nat i) = Ok (qr_document row);
  se_range : match sm_clustering_key_range (qs_meta segment) with
             | Unstamped => True
             | EmptyRange => ∀ i row, ¬ live v i row
             | Bounded min_ts max_ts => ∀ i row, live v i row → min_ts ≤ (qr_cells row).1 ≤ max_ts
             end;
}.

Context (predicate : Predicate).
Hypothesis Hschema : schema_ok schema.
Hypothesis Hvalid : validate_predicate predicate schema = Ok tt.

Lemma timestamp_cell r : cells_of schema r TIMESTAMP_COLUMN = Some (VI64 r.1).
Proof using Hschema.
  unfold cells_of. destruct (so_ts _ Hschema) as [cols Hcols].
  assert (schema_column schema TIMESTAMP_COLUMN = Some timestamp_definition) as ->
    by (unfold schema_column; by rewrite Hcols). done.
Qed.

(** A pruned segment has no row the query wants. *)
Lemma pruned_matching query segment v :
  segment_shows segment v → segment_may_match (sm_clustering_key_range (qs_meta segment)) predicate = false →
  matching schema predicate query v = [].
Proof using Hschema.
  intros Hs Hm. unfold matching. rewrite keep_none; [done|]. intros i _ (row & Hr & Hd & Hmt).
  pose proof (se_range _ _ Hs) as Hrange. destruct (sm_clustering_key_range _) as [| |min_ts max_ts]; cbn in Hm; [done| |].
  - by eapply (Hrange i row).
  - assert (live v i row) as Hl by done. specialize (Hrange i row Hl).
    apply not_true_iff_false in Hm. apply Hm.
    eapply may_match_timestamp; [apply timestamp_cell|exact Hrange|exact Hmt].
Qed.

Lemma evaluate_allows v (s : ColumnStore B) (alive : AliveSet B) :
  store_holds schema (map qr_cells (qv_rows v)) s → as_row_count alive = len (qv_rows v) →
  (∀ x, x ∈ db_set (as_alive alive) ↔ ∃ i row, x = Z.of_nat i ∧ live v i row) →
  ∃ allow, evaluate_for_plan predicate s alive = Ok allow ∧ allows schema predicate v allow.
Proof using RL Hvalid.
  intros Hs Hc Ha. unfold evaluate_for_plan, evaluate. rewrite (th_count _ _ _ Hs), len_map, Hc, Z.eqb_refl. cbn [negb].
  assert (in_universe (map qr_cells (qv_rows v)) (as_alive alive)) as Hu.
  { intros x (i & row & -> & Hr & _)%Ha. apply lookup_lt_Some in Hr. rewrite len_map. unfold len. lia. }
  pose proof (evaluate_in_scope_exact schema _ s Hs predicate _ Hu) as He.
  assert (well_typed schema predicate = true) as Hw by (rewrite <- validate_predicate_typed, Hvalid; done).
  destruct (evaluate_in_scope predicate s (as_alive alive)) as [allow|e]; [|congruence].
  exists allow. split; [done|]. intros x. rewrite (He x), Ha. unfold wanted, matches_row, live. split.
  - intros [(i & row & -> & Hr & Hd) Hm]. rewrite Nat2Z.id in *. rewrite list_lookup_fmap, Hr in Hm. cbn in Hm.
    split; [|by exists row]. apply lookup_lt_Some in Hr. unfold len. lia.
  - intros [Hx (row & Hr & Hd & Hm)]. rewrite list_lookup_fmap, Hr. split; [|done].
    exists (Z.to_nat x), row. split_and!; [lia|done|done].
Qed.
End Segments.
