(* ===== verification/FilteredSearchExact.v ===== *)
(** * The exact filtered query

    The theorem about [execute_store]: over the active segment and the published
    sealed segments, an exact filtered search returns the best matching rows. *)

From stdpp Require Import sorting.
From S2P Require Import Prelude Cursor Schema Epoch Float Manifest Bitmap Columns ColumnsSpec Predicate PredicateSpec IngestPayload TopK SegmentLayout SegmentWriter StoreErrors Accounted ActiveSegment ActiveSpec ActiveTable ActiveIngest SegmentReader SealServes SealRecovery Planner FilteredSearch FilteredSearchSpec.

(** ** The active segment *)

Section Active.
Context {B : Type} {R : Roaring B} {RL : RoaringLaws B} {Q : Quantizer Bit4Factors} {K : HashCapacity}.
Implicit Types (s : ActiveSegment Bit4Factors) (v : View).

Definition active_row (r : ActiveSpec.Row) : QueryRow :=
  {| qr_document := Some {| dv_doc_id := r_id r; dv_revision := r_revision r |};
     qr_cells := row_input r; qr_vector := r_vector r |}.

(** The rows of the active segment as a query sees them. *)
Definition active_rows v : QueryRows :=
  {| qv_source := SourceActive; qv_rows := map active_row (v_rows v); qv_dead := v_dead v |}.

(** The schema accepts every row. *)
Definition accepts (schema : Schema) v : Prop :=
  (push_rows (map row_input (v_rows v)) (builder_new (B:=B) schema)).2 = map row_input (v_rows v).

Lemma push_rows_length rows : ∀ b : ColumnStoreBuilder B, (length (push_rows rows b).2 ≤ length rows)%nat.
Proof.
  induction rows as [|r rows IH]; intros b; [done|]. cbn [push_rows length].
  destruct (push_row r.1 r.2 b) as [b' [n|e]]; [|specialize (IH b'); lia].
  specialize (IH b'). destruct (push_rows rows b'). cbn in *. lia.
Qed.

Lemma push_filter_rows_Ok v s : holds v s → Forall row_fits (v_rows v) →
  ∀ before rest (builder : ColumnStoreBuilder B),
  v_rows v = before ++ rest → (push_rows (map row_input rest) builder).2 = map row_input rest →
  push_filter_rows s (length before) (map r_timestamp rest) builder
  = Ok (push_rows (map row_input rest) builder).1.
Proof.
  intros Hh Hf before rest. revert before. induction rest as [|r rest IH]; intros before builder E H; [done|].
  cbn [map push_filter_rows]. assert (v_rows v !! length before = Some r) as Hr by (rewrite E, lookup_app_r, Nat.sub_diag; done).
  assert (row_fits r) as Hrf by (by eapply (Forall_lookup_1 _ _ _ _ Hf)).
  rewrite (read_columns _ _ _ _ Hh Hr (rf_columns _ Hrf) (rf_column_image _ Hrf)). cbn [map_err]. rewrite bind_Ok.
  cbn [map push_rows] in H |- *. unfold row_input at 1 in H. unfold row_input at 1. cbn [fst snd] in H |- *.
  destruct (push_row _ _ builder) as [b1 [n|e]].
  - destruct (push_rows (map row_input rest) b1) as [b2 acc] eqn:Ep. cbn [fst snd] in *.
    assert (length (before ++ [r]) = S (length before)) as El by (rewrite length_app; cbn; lia).
    rewrite <- El. specialize (IH (before ++ [r]) b1). rewrite Ep in IH. apply IH; [by rewrite <- app_assoc|]. by injection H.
  - pose proof (push_rows_length (map row_input rest) b1) as Hl. rewrite H in Hl. cbn in Hl. rewrite length_map in Hl. lia.
Qed.

Lemma active_filter_columns_Ok schema v s :
  schema_ok schema → holds v s → Forall row_fits (v_rows v) → accepts schema v →
  ∃ columns : ColumnStore B, active_filter_columns s schema = Ok columns
    ∧ store_holds schema (map qr_cells (qv_rows (active_rows v))) columns.
Proof.
  intros Hs Hh Hf Ha. unfold active_filter_columns. rewrite (ho_timestamps _ _ Hh).
  pose proof (push_filter_rows_Ok v s Hh Hf [] (v_rows v) _ eq_refl Ha) as Ep. cbn [length] in Ep. rewrite Ep, bind_Ok.
  assert (Forall (λ r, Forall (λ i, value_utf8 (ci_value i)) r.2) (map row_input (v_rows v))) as Hu.
  { apply List.Forall_map. eapply Forall_impl; [exact Hf|]. intros r Hr. apply List.Forall_map.
    eapply Forall_impl; [apply (rf_columns _ Hr)|]. by intros [c []] [_ H]. }
  pose proof (push_rows_spec schema _ [] _ Hs (builder_new_holds schema) Hu) as Hb. unfold accepts in Ha.
  destruct (push_rows _ _) as [b accepted]. cbn [fst snd app] in *. subst accepted.
  destruct (finish_ok _ _ _ Hb) as (cs & -> & Hc). exists cs. split; [done|].
  cbn [active_rows qv_rows]. by rewrite map_map.
Qed.

Lemma tombstone_all_total rows : ∀ alive : AliveSet B,
  alive_ok alive → Forall (λ d, d < as_row_count alive) rows → ∃ alive', tombstone_all rows alive = Ok alive'.
Proof.
  induction rows as [|d rows IH]; intros alive Ha Hr; [by exists alive|]. apply Forall_cons in Hr as [Hd Hr].
  cbn [tombstone_all]. destruct (tombstone_spec d alive Ha) as (a1 & E & Ha1 & Hc & _). rewrite E.
  rewrite (proj2 (Z.ltb_lt _ _) Hd). apply IH; [done|]. by rewrite Hc.
Qed.

Lemma active_alive_total v s :
  holds v s → len (v_rows v) ≤ u32_max →
  ∃ alive : AliveSet B, active_alive s = Ok alive ∧ as_row_count alive = len (qv_rows (active_rows v))
    ∧ ∀ x, x ∈ db_set (as_alive alive) ↔ ∃ i row, x = Z.of_nat i ∧ live (active_rows v) i row.
Proof.
  intros Hh Hl. assert (∃ alive : AliveSet B, active_alive s = Ok alive) as [alive E].
  { unfold active_alive. rewrite (ho_ids _ _ Hh), len_map, try_from_total by (pose proof (len_nonneg (v_rows v)); lia).
    cbn [ok_or]. rewrite bind_Ok, (ho_dead _ _ Hh). apply tombstone_all_total; [apply alive_new_ok, len_nonneg|].
    apply List.Forall_map. eapply Forall_impl; [apply (ho_dead_rows _ _ Hh)|]. intros d Hd.
    change (as_row_count (alive_new (len (v_rows v)))) with (len (v_rows v)). cbn in Hd. unfold len. lia. }
  exists alive. destruct (active_alive_Ok v s alive Hh E) as (Hok & Hc & Hx). split; [done|].
  cbn [active_rows qv_rows]. rewrite len_map. split; [done|]. intros x. unfold live. cbn [active_rows qv_rows qv_dead]. split.
  - intros Hin. pose proof (alive_row _ _ Hok Hin) as Hr. rewrite Hc in Hr. unfold len in Hr.
    destruct (lookup_lt_is_Some_2 (v_rows v) (Z.to_nat x)) as [r Er]; [lia|].
    exists (Z.to_nat x), (active_row r). rewrite list_lookup_fmap, Er. split_and!; [lia|done|].
    apply Hx; [lia|]. by rewrite Z2Nat.id by lia.
  - intros (i & row & -> & Hr & Hd). apply lookup_lt_Some in Hr. rewrite length_map in Hr. by apply Hx.
Qed.
End Active.

(** ** The query *)

Section Query.
Context {D : SquaredL2} {B : Type} {R : Roaring B} {RL : RoaringLaws B} {Q : Quantizer Bit4Factors} {K : HashCapacity}.
Context (thread : Z) (schema : Schema) (predicate : Predicate) (query : list Z) (k : Z).
Hypothesis Hschema : schema_ok schema.
Hypothesis Hvalid : validate_predicate predicate schema = Ok tt.
Hypothesis Hquery : query ≠ [].
Hypothesis Hk : 0 ≤ k.

(** The rows of the segments so far fit the counters of the query. *)
Definition room (all : list SearchCandidate) (vs : list QueryRows) : Prop :=
  (len all + len (concat (map qv_rows vs))) * len query * 4 ≤ u64_max.

Lemma room_le n m : n ≤ m → m * len query * 4 ≤ u64_max → n * len query * 4 ≤ u64_max.
Proof using. intros H Hm. pose proof (len_nonneg query). etrans; [|exact Hm]. apply Z.mul_le_mono_nonneg_r; [lia|]. by apply Z.mul_le_mono_nonneg_r. Qed.

Lemma execute_active_runs (active : ActiveSegment Bit4Factors) v all sources acc :
  holds v active → Forall row_fits (v_rows v) → accepts (B:=B) schema v →
  rows_ok schema predicate query (active_rows v) → room all [active_rows v] →
  NoDup (map ca_row_id (all ++ matching schema predicate query (active_rows v))) → merged query k all sources acc →
  ∃ acc', runs (execute_active_filtered (B:=B) thread active schema query predicate k acc) acc'
    ∧ merged query k (all ++ matching schema predicate query (active_rows v)) (sources ++ [SourceActive]) acc'.
Proof using Hschema Hvalid Hquery Hk RL.
  intros Hh Hf Hacc Hv Hroom Hn Hm. unfold room in Hroom. cbn [map concat] in Hroom. rewrite app_nil_r in Hroom.
  pose proof (ro_count _ _ _ _ Hv) as Hc. cbn [active_rows qv_rows] in Hc. rewrite len_map in Hc.
  destruct (active_alive_total (B:=B) v active Hh Hc) as (alive & Ea & Hac & Hax).
  destruct (active_filter_columns_Ok (B:=B) schema v active Hschema Hh Hf Hacc) as (columns & Ec & Hs).
  destruct (evaluate_allows schema predicate Hvalid (active_rows v) columns alive Hs Hac Hax) as (allow & Eal & Hal).
  assert (∀ i row, qv_rows (active_rows v) !! i = Some row →
    Ok (E:=FilteredSearchError) (active_document active (Z.to_nat (Z.of_nat i))) = Ok (qr_document row)) as Hdoc.
  { intros i row. cbn [active_rows qv_rows]. rewrite list_lookup_fmap, Nat2Z.id. intros Hr.
    destruct (v_rows v !! i) as [r|] eqn:Er; [|done]. injection Hr as <-. unfold active_document.
    rewrite (ho_ids _ _ Hh), (ho_revisions _ _ Hh), !list_lookup_fmap, Er. done. }
  destruct (merge_segment_runs thread schema predicate query k Hquery Hk (active_rows v) allow
    (λ row, Ok (active_document active (Z.to_nat row))) Hv Hal Hdoc ActiveScan (Some ReasonActiveSegment)
    (cardinality allow) all sources acc Hroom Hn Hm) as (acc' & Hr & Hm').
  exists acc'. split; [|exact Hm']. unfold execute_active_filtered.
  eapply runs_bind; [apply runs_lift; by rewrite Ea|]. eapply runs_bind; [by apply runs_lift|].
  eapply runs_bind; [apply runs_lift; exact Eal|].
  rewrite (ho_vectors _ _ Hh), (ho_ids _ _ Hh), len_map. cbn [active_rows qv_rows qv_source] in Hr.
  rewrite map_map, len_map in Hr. exact Hr.
Qed.

Lemma execute_sealed_runs (segment : QuerySegment B) v all sources acc :
  segment_shows schema segment v → rows_ok schema predicate query v → room all [v] →
  NoDup (map ca_row_id (all ++ matching schema predicate query v)) → merged query k all sources acc →
  ∃ acc', runs (execute_sealed_filtered thread segment query predicate k acc) acc'
    ∧ merged query k (all ++ matching schema predicate query v) (sources ++ [qv_source v]) acc'.
Proof using Hschema Hvalid Hquery Hk RL.
  intros Hs Hv Hroom Hn Hm. unfold room in Hroom. cbn [map concat] in Hroom. rewrite app_nil_r in Hroom.
  unfold execute_sealed_filtered. destruct (segment_may_match _ predicate) eqn:Em; cbn [negb]; cycle 1.
  { rewrite (pruned_matching schema predicate Hschema query segment v Hs Em), app_nil_r.
    eexists. split; [apply runs_ret|]. destruct Hm as [E1 E2 E3 E4]. split; try done.
    cbn [mg_plans]. rewrite map_app, E4. cbn. by rewrite (se_source _ _ _ Hs). }
  destruct (se_columns _ _ _ Hs) as (columns & Ec & Hst). destruct (se_alive _ _ _ Hs) as (alive & Ea & Hac & Hax).
  destruct (evaluate_allows schema predicate Hvalid v columns alive Hst Hac Hax) as (allow & Eal & Hal).
  assert (∀ i row, qv_rows v !! i = Some row →
    map_err store_error (qs_document segment (Z.of_nat i)) = Ok (qr_document row)) as Hdoc.
  { intros i row Hr. by rewrite (se_documents _ _ _ Hs i row Hr). }
  destruct (merge_segment_runs thread schema predicate query k Hquery Hk v allow
    (λ row, map_err store_error (qs_document segment row)) Hv Hal Hdoc SealedScan
    (Some (sealed_scan_reason (qs_meta segment) (Some TierExact))) (cardinality allow) all sources acc Hroom Hn Hm)
    as (acc' & Hr & Hm').
  exists acc'. split; [|exact Hm'].
  eapply runs_bind; [apply runs_lift; by rewrite Ec|]. eapply runs_bind; [apply runs_lift; by rewrite Ea|].
  eapply runs_bind; [apply runs_lift; exact Eal|]. eapply runs_bind; [apply runs_lift; by rewrite (se_vectors _ _ _ Hs)|].
  rewrite (se_source _ _ _ Hs) in Hr. rewrite (se_count _ _ _ Hs). exact Hr.
Qed.

Lemma execute_segments_runs segments vs : Forall2 (segment_shows (B:=B) schema) segments vs →
  ∀ all sources acc,
  Forall (rows_ok schema predicate query) vs → room all vs →
  NoDup (map ca_row_id (all ++ concat (map (matching schema predicate query) vs))) → merged query k all sources acc →
  ∃ acc', runs (execute_segments thread segments query predicate k acc) acc'
    ∧ merged query k (all ++ concat (map (matching schema predicate query) vs)) (sources ++ map qv_source vs) acc'.
Proof using Hschema Hvalid Hquery Hk RL.
  induction 1 as [|segment v segments vs Hs Hss IH]; intros all sources acc Hv Hroom Hn Hm; cbn [map concat] in *.
  { rewrite !app_nil_r. exists acc. split; [apply runs_ret|done]. }
  apply Forall_cons in Hv as [Hv Hvs]. rewrite app_assoc in Hn.
  pose proof (query_pos query Hquery). pose proof (len_nonneg (concat (map qv_rows vs))).
  pose proof (matching_count schema predicate query v).
  unfold room in Hroom. cbn [map concat] in Hroom. rewrite len_app in Hroom.
  destruct (execute_sealed_runs segment v all sources acc Hs Hv) as (acc1 & Hr1 & Hm1); [| |exact Hm|].
  { unfold room. cbn [map concat]. rewrite app_nil_r. eapply room_le; [|exact Hroom]. lia. }
  { rewrite map_app in Hn. by apply NoDup_app in Hn as (Hn & _). }
  assert (room (all ++ matching schema predicate query v) vs) as Hroom1.
  { unfold room. rewrite len_app. eapply room_le; [|exact Hroom]. lia. }
  destruct (IH _ _ acc1 Hvs Hroom1 Hn Hm1) as (acc2 & Hr2 & Hm2).
  exists acc2. split; [by eapply runs_bind|]. by rewrite app_assoc, <- !app_assoc in *.
Qed.

Lemma execute_pinned_runs (active : ActiveSegment Bit4Factors) segments v vs generation counters :
  quant_validate_vector query = Ok tt → holds v active → Forall row_fits (v_rows v) → accepts (B:=B) schema v →
  Forall2 (segment_shows (B:=B) schema) segments vs → NoDup (map qv_source (active_rows v :: vs)) →
  Forall (rows_ok schema predicate query) (active_rows v :: vs) → room [] (active_rows v :: vs) →
  counters_room (len (active_rows v :: vs)) counters →
  ∃ out, runs (execute_pinned thread segments active schema generation counters query predicate k) out
    ∧ fo_candidates out = retain_global_top_k (concat (map (matching schema predicate query) (active_rows v :: vs))) k
    ∧ fo_generation out = generation
    ∧ map pl_source (fo_plans out) = (if bool_decide (v_rows v = []) then [] else [SourceActive]) ++ map qv_source vs
    ∧ record_plans (fo_plans out) counters = Ok (fo_counters out).
Proof using Hschema Hvalid Hquery Hk RL.
  intros Hqv Hh Hf Ha Hs Hns Hv Hroom Hcounters. set (all := concat (map _ (active_rows v :: vs))).
  pose proof (concat_matching_rows schema predicate query _ Hns) as Hn. fold all in Hn.
  pose proof (Forall_inv Hv) as Hva. pose proof (Forall_inv_tail Hv) as Hvs.
  pose proof (query_pos query Hquery). pose proof (matching_count schema predicate query (active_rows v)) as Hmc.
  assert (bool_decide (bf_data (sg_doc_ids active) = []) = bool_decide (v_rows v = [])) as Eempty.
  { apply bool_decide_ext. rewrite (ho_ids _ _ Hh). apply map_nil_iff. }
  set (empty := {| mg_candidates := []; mg_stats := stats_default; mg_plans := [] |}).
  assert (merged query k [] [] empty) as Hm0 by (split; [symmetry; apply take_nil|done..]).
  unfold room in Hroom. cbn [map concat] in Hroom. rewrite len_app in Hroom. change (len []) with 0 in Hroom.
  pose proof (len_nonneg (concat (map qv_rows vs))). pose proof (len_nonneg (qv_rows (active_rows v))).
  assert (∃ acc, runs (if bool_decide (v_rows v = []) then query_ret empty
      else execute_active_filtered (B:=B) thread active schema query predicate k empty) acc
    ∧ merged query k (matching schema predicate query (active_rows v))
        (if bool_decide (v_rows v = []) then [] else [SourceActive]) acc) as (acc & Hr & Hm).
  { destruct (bool_decide_reflect (v_rows v = [])) as [E|_].
    - exists empty. split; [apply runs_ret|]. assert (matching schema predicate query (active_rows v) = []) as ->; [|done].
      unfold matching. cbn [active_rows qv_rows]. by rewrite E.
    - apply (execute_active_runs active v [] [] empty); try done.
      + unfold room. cbn [map concat]. rewrite app_nil_r. eapply room_le; [|exact Hroom]. change (len []) with 0. lia.
      + apply matching_rows. }
  assert (room (matching schema predicate query (active_rows v)) vs) as Hroom1.
  { unfold room. eapply room_le; [|exact Hroom]. lia. }
  destruct (execute_segments_runs segments vs Hs _ _ acc Hvs Hroom1 Hn Hm) as (acc2 & Hr2 & Hm2).
  destruct (record_plans_total (mg_plans acc2) (len (active_rows v :: vs)) counters) as (counters' & Ec); [|done|].
  { rewrite <- (len_map pl_source), (me_sources _ _ _ _ _ Hm2), len_app, len_map, len_cons.
    destruct (bool_decide (v_rows v = [])); rewrite ?len_cons, ?len_nil; lia. }
  eexists. split; [|split; [|split; [|split]]].
  - unfold execute_pinned. eapply runs_bind; [apply runs_lift; by rewrite Hqv|]. rewrite Eempty.
    eapply runs_bind; [exact Hr|]. eapply runs_bind; [exact Hr2|]. eapply runs_bind; [apply runs_check|].
    eapply runs_bind; [apply runs_lift; by rewrite Ec|]. apply runs_ret.
  - cbn [fo_candidates]. rewrite (me_candidates _ _ _ _ _ Hm2). fold all.
    pose proof (retain_retain k all []) as Hrr. rewrite !app_nil_r in Hrr. apply Hrr. by apply rows_distinct.
  - done.
  - cbn [fo_plans]. apply Hm2.
  - done.
Qed.
End Query.

(** ** The theorem *)

(** [out] is the best [k] of [all], best first. *)
Definition best (k : Z) (all out : list SearchCandidate) : Prop :=
  len out = k `min` len all ∧ StronglySorted candidate_before out
  ∧ ∃ rest, all ≡ₚ out ++ rest ∧ ∀ c d, c ∈ out → d ∈ rest → candidate_before c d.

Lemma retain_best k all : 0 ≤ k → best k all (retain_global_top_k all k).
Proof.
  intros Hk. unfold retain_global_top_k, sort_search_candidates. set (s := merge_sort candidate_before all).
  assert (s ≡ₚ all) as Hp by apply merge_sort_Permutation.
  pose proof (sorted_sort candidate_before all) as Hs. fold s in Hs. rewrite <- (take_drop (Z.to_nat k) s) in Hs.
  apply StronglySorted_app in Hs as (Hcross & Ht & _). split; [|split; [done|]].
  - unfold len. rewrite length_take, Hp. lia.
  - exists (drop (Z.to_nat k) s). rewrite take_drop. done.
Qed.

Lemma valid_query query : quant_validate_vector query = Ok tt → query ≠ [].
Proof. by intros H ->. Qed.

Section Store.
Context {D : SquaredL2} {B : Type} {R : Roaring B} {RL : RoaringLaws B} {Q : Quantizer Bit4Factors} {K : HashCapacity}.

(** C9: Exact filtered search: an open store refuses a predicate its schema rejects,
    with the error of the validation; for any other it returns, from the active rows
    and every published sealed segment, exactly the best k live rows that satisfy
    the predicate, scored and in order, and counts its plans: pruning by clustering
    range, the allow-list and masked branches and the merge of per-segment tops lose
    nothing. *)
Theorem filtered_search_exact thread (active : ActiveState Bit4Factors) (segments : list (QuerySegment B))
    (schema : Schema) (counters : PlanCounters) (query : list Z) (predicate : Predicate) (k : Z) (control : Control) v vs :
  schema_ok schema → quant_validate_vector query = Ok tt → 0 ≤ k → quiet control →
  holds v (as_segment active) → Forall row_fits (v_rows v) → accepts (B:=B) schema v →
  Forall2 (segment_shows schema) segments vs → NoDup (map qv_source (active_rows v :: vs)) →
  Forall (rows_ok schema predicate query) (active_rows v :: vs) →
  len (concat (map qv_rows (active_rows v :: vs))) * len query * 4 ≤ u64_max →
  counters_room (1 + len vs) counters →
  let all := concat (map (matching schema predicate query) (active_rows v :: vs)) in
  let answer := execute_store thread Open (Some active) (Some segments) schema counters query predicate k control in
  match validate_predicate predicate schema with
  | Err e => answer = (control, Err (FilteredPlan e))
  | Ok _ =>
      ∃ control' out, answer = (control', Ok out)
        ∧ best k all (fo_candidates out) ∧ fo_generation out = as_generation active
        ∧ map pl_source (fo_plans out) = (if bool_decide (v_rows v = []) then [] else [SourceActive]) ++ map qv_source vs
        ∧ record_plans (fo_plans out) counters = Ok (fo_counters out)
  end.
Proof using RL.
  intros Hs Hq Hk Hc Hh Hf Ha Hsv Hn Hv Hroom Hcr all answer. subst answer. destruct (validate_predicate _ _) as [[]|e] eqn:Ev.
  - destruct (execute_pinned_runs thread schema predicate query k Hs Ev (valid_query _ Hq) Hk (as_segment active) segments
      v vs (as_generation active) counters Hq Hh Hf Ha Hsv Hn Hv) as (out & Hr & Eo & Eg & Ep & Ec).
    { exact Hroom. }
    { by rewrite len_cons. }
    assert (runs (execute_store thread Open (Some active) (Some segments) schema counters query predicate k) out) as Hrun.
    { unfold execute_store. do 3 (eapply runs_bind; [by apply runs_lift|]).
      eapply runs_bind; [apply runs_lift; by rewrite Ev|]. eapply runs_bind; [apply runs_check|]. exact Hr. }
    destruct (Hrun control Hc) as (control' & E & _). exists control', out. split_and!; [done| |done..].
    rewrite Eo. by apply retain_best.
  - unfold execute_store. cbn. unfold query_bind, query_lift. cbn. by rewrite Ev.
Qed.
End Store.

(** ** Witness *)

Module SampleFiltered.
Import SampleReopen.
#[local] Existing Instances quantizer capacity.

(** The score of a vector is its first component. *)
#[local] Instance first_component : SquaredL2 := λ v _, default 0 (head v).

(** A sealed segment of two rows, the second deleted. *)
Definition sealed_cells : list ColumnsSpec.Row := [(20, []); (30, [])].
Definition sealed_row (cells : ColumnsSpec.Row) (id score : Z) : QueryRow :=
  {| qr_document := Some {| dv_doc_id := id; dv_revision := 1 |}; qr_cells := cells; qr_vector := [score] |}.
Definition sealed_rows : QueryRows :=
  {| qv_source := SourceSealed [Byte.x01]; qv_rows := [sealed_row (20, []) 8 6; sealed_row (30, []) 9 7];
     qv_dead := [1%nat] |}.
Definition sealed : QuerySegment (gset Z) :=
  {| qs_meta := {| sm_id := [Byte.x01]; sm_row_count := 2; sm_scheme := 4; sm_dims := 1; sm_file_size := 0;
                   sm_epoch_id := None; sm_clustering_key_range := Bounded 20 20 |};
     qs_columns := map_err (λ _, StoreClosed) (finish (push_rows sealed_cells (builder_new timestamp_only)).1);
     qs_alive := Ok (tombstone 1 (alive_new 2)).1;
     qs_vectors := Ok [6; 7];
     qs_document := λ row, Ok (qv_rows sealed_rows !! Z.to_nat row ≫= qr_document) |}.

Definition counters : PlanCounters :=
  {| pc_scans_by_reason := replicate 7 0; pc_graph_segments_served := 0 |}.

(** Rows up to time 25. *)
Definition until (t : Z) : Predicate :=
  PRange {| rp_column := TIMESTAMP_COLUMN; rp_lower := None;
            rp_upper := Some {| rb_value := PI64 t; rb_inclusive := true |} |}.

Lemma timestamp_only_ok : schema_ok timestamp_only.
Proof. apply (schema_new_ok []). reflexivity. Qed.

Lemma sealed_shown : segment_shows timestamp_only sealed sealed_rows.
Proof.
  split; try done.
  - pose proof (push_rows_spec timestamp_only sealed_cells [] _ timestamp_only_ok
      (builder_new_holds (B:=gset Z) timestamp_only) ltac:(by repeat constructor)) as Hb.
    assert ((push_rows sealed_cells (builder_new (B:=gset Z) timestamp_only)).2 = sealed_cells) as Ea by by vm_compute.
    cbn [sealed qs_columns]. destruct (push_rows _ _) as [b accepted]. cbn [fst snd app] in *. subst accepted.
    destruct (finish_ok _ _ _ Hb) as (s & -> & Hs). by exists s.
  - eexists. split; [reflexivity|].
    destruct (tombstone_spec (B:=gset Z) 1 (alive_new 2) (alive_new_ok 2 ltac:(lia))) as (a & -> & Hok & Hc & Hset & _).
    cbn [fst]. split; [by rewrite Hc|]. intros x. rewrite Hset. cbn [alive_new as_alive]. rewrite db_set_full.
    unfold live. rewrite elem_of_difference, elem_of_singleton. split.
    + intros [Hx Hne]. assert (x = 0) as -> by set_solver. exists 0%nat. eexists. split_and!; [done|done|set_solver].
    + intros (i & row & -> & Hr & Hd). destruct i as [|[|i]]; [|set_solver|done]. set_solver.
  - intros i row Hr. by do 2 (destruct i as [|i]; [by injection Hr as <-|]).
  - intros i row [Hr Hd]. destruct i as [|[|i]]; [|set_solver|done]. injection Hr as <-. done.
Qed.
End SampleFiltered.

Lemma filtered_search_exact_witness :
  ∃ control out,
    execute_store (D:=SampleFiltered.first_component) (B:=gset Z) 1 Open (Some SampleReopen.active) (Some [SampleFiltered.sealed]) timestamp_only SampleFiltered.counters [5]
      (SampleFiltered.until 25) 4 [None] = (control, Ok out)
    ∧ map ca_score (fo_candidates out) = [6; 5].
Proof.
  pose proof (filtered_search_exact (D:=SampleFiltered.first_component) (B:=gset Z) (Q:=SampleReopen.quantizer) 1
    SampleReopen.active [SampleFiltered.sealed] timestamp_only SampleFiltered.counters [5] (SampleFiltered.until 25) 4 [None] SampleReopen.rows
    [SampleFiltered.sealed_rows] SampleFiltered.timestamp_only_ok eq_refl ltac:(lia) ltac:(by repeat constructor)
    SampleReopen.sample_segment_holds SampleReopen.row_is_fit ltac:(by vm_compute)) as H.
  destruct H as (control & out & E & (Hl & Hs & rest & Hp & Hc) & _).
  - apply Forall2_cons. split; [apply SampleFiltered.sealed_shown|apply Forall2_nil_2].
  - apply (bool_decide_unpack _). by vm_compute.
  - apply Forall_cons. split; [|apply Forall_singleton]; (split; [by repeat constructor|by vm_compute|]);
      apply (bool_decide_unpack _); by vm_compute.
  - by vm_compute.
  - split; [done|by repeat constructor|done].
  - exists control, out. split; [exact E|]. vm_compute in E. by injection E as <- <-.
Defined.
