(* ===== verification/WorkCheck.v ===== *)
(** * Bounded work and cooperative cancellation

    Models [WorkCheck] and [extend_bytes] of
    [crates/zeppelin-embed/src/fts/control.rs].  The lexical code counts a unit of
    work per cursor, posting or metadata probe, and asks its caller's callback every
    sixty-four units, and at the entry and exit of a stage, whether to go on.

    The callback is any function [check] on a state of its own that accepts or
    refuses; [settles] says that an operation ends as its pure counterpart, or with an
    error of the callback.  Every controlled operation is shown to have that form, so
    that the callback can stop it and can do nothing else to its answer. *)

From S2P Require Import Prelude.

Record WorkCheck (W : Type) : Type := {
  wc_check : W;
  wc_remaining : Z;
}.
Arguments wc_check {W} _.
Arguments wc_remaining {W} _.

(** [WorkCheck::new]. *)
Definition work_new {W} (check : W) : WorkCheck W := {| wc_check := check; wc_remaining := 64 |}.

(** The callback [|| Ok(())] of the uncontrolled entry points. *)
Definition unchecked {E} (w : unit) : unit * result E unit := (w, Ok tt).

Section Work.
Context {W E : Type} (check : W → W * result E unit).

Abbreviation Work A := (RunE (WorkCheck W) E A).

(** [WorkCheck::check_now]. *)
Definition check_now : Work unit := λ w,
  let '(c, r) := check (wc_check w) in
  ({| wc_check := c; wc_remaining := wc_remaining w |}, r).

(** [WorkCheck::step]: the counter is a [u8] between one and sixty-four, see
    [work_step_remaining]. *)
Definition work_step : Work unit := λ w,
  let remaining := wc_remaining w - 1 in
  if remaining =? 0 then check_now {| wc_check := wc_check w; wc_remaining := 64 |}
  else ({| wc_check := wc_check w; wc_remaining := remaining |}, Ok tt).

(** A loop that threads an accumulator through the steps of its body. *)
Fixpoint run_fold {A B} (f : B → A → Work B) (l : list A) (b : B) : Work B :=
  match l with
  | [] => run_ret b
  | a :: l => let! b := f b a in run_fold f l b
  end%run.

(** [slice::chunks]. *)
Fixpoint chunked_fuel {A} (fuel n : nat) (l : list A) : list (list A) :=
  match fuel with
  | O => []
  | S fuel => match l with [] => [] | _ => take n l :: chunked_fuel fuel n (drop n l) end
  end.

Definition chunked {A} (n : Z) (l : list A) : list (list A) :=
  chunked_fuel (length l) (Z.to_nat n) l.

(** [extend_bytes]: the output with the bytes appended chunk by chunk. *)
Definition extend_bytes (output data : bytes) : Work bytes :=
  let! _ := check_now in
  let! output := run_fold (λ output chunk, let! _ := check_now in run_ret (output ++ chunk))
    (chunked 8192 data) output in
  let! _ := check_now in
  run_ret output.
End Work.

(** ** What the callback can do *)

Section Settles.
Context {W E : Type} (check : W → W * result E unit).

Abbreviation Work A := (RunE (WorkCheck W) E A).

(** An error the callback returns in some state of it. *)
Definition refuses (e : E) : Prop := ∃ c, (check c).2 = Err e.

(** The operation ends with [r], or with an error of the callback. *)
Definition settles {A} (m : Work A) (r : result E A) : Prop :=
  ∀ w, (m w).2 = r ∨ ∃ e, refuses e ∧ (m w).2 = Err e.

Lemma settles_ret {A} (a : A) : settles (run_ret a) (Ok a).
Proof. by left. Qed.

Lemma settles_lift {A} (r : result E A) : settles (run_lift r) r.
Proof. by left. Qed.

Lemma settles_err {A} (e : E) : settles (run_err e : Work A) (Err e).
Proof. by left. Qed.

Lemma settles_check : settles (check_now check) (Ok tt).
Proof.
  intros w. unfold check_now. destruct (check (wc_check w)) as [c [[]|e]] eqn:H; [by left|right].
  exists e. split; [|done]. exists (wc_check w). by rewrite H.
Qed.

Lemma settles_step : settles (work_step check) (Ok tt).
Proof. intros w. unfold work_step. case_match; [apply settles_check|by left]. Qed.

(** A bind settles on what its second step settles on from the value of the first. *)
Lemma settles_bind {A B} (m : Work A) (k : A → Work B) a r :
  settles m (Ok a) → settles (k a) r → settles (run_bind m k) r.
Proof.
  intros Hm Hk w. unfold run_bind. destruct (m w) as [w' s] eqn:Hw. pose proof (Hm w) as H. rewrite Hw in H.
  destruct H as [H|(e & He & H)]; cbn in H; subst s; [apply Hk|]. right. by exists e.
Qed.

Lemma settles_bind_err {A B} (m : Work A) (k : A → Work B) e :
  settles m (Err e) → settles (run_bind m k) (Err e).
Proof.
  intros Hm w. unfold run_bind. destruct (m w) as [w' s] eqn:Hw. pose proof (Hm w) as H. rewrite Hw in H.
  destruct H as [H|(e' & He & H)]; cbn in H; subst s; [by left|right]. by exists e'.
Qed.

(** The same for a first step that may fail on its own. *)
Lemma settles_bind_result {A B} (m : Work A) (k : A → Work B) s (f : A → result E B) :
  settles m s → (∀ a, s = Ok a → settles (k a) (f a)) → settles (run_bind m k) (s ≫= f).
Proof.
  intros Hm Hk. destruct s as [a|e]; [|by apply settles_bind_err]. eapply settles_bind; [done|by apply Hk].
Qed.

(** A loop of steps settles the pure loop. *)
Lemma settles_fold {A B} (f : B → A → Work B) (g : B → A → B) l : ∀ b,
  (∀ b a, a ∈ l → settles (f b a) (Ok (g b a))) → settles (run_fold f l b) (Ok (fold_left g l b)).
Proof.
  induction l as [|a l IH]; intros b H; [apply settles_ret|]. cbn. eapply settles_bind; [apply H; left|].
  apply IH. intros b' a' Ha. apply H. by right.
Qed.

(** With a callback that never refuses, the operation is the pure one. *)
Lemma settles_unrefused {A} (m : Work A) r w : (∀ c, (check c).2 = Ok tt) → settles m r → (m w).2 = r.
Proof. intros Hc H. destruct (H w) as [|(e & (c & Hr) & _)]; [done|]. by rewrite Hc in Hr. Qed.

Lemma chunked_concat {A} (n : Z) (l : list A) : 0 < n → concat (chunked n l) = l.
Proof.
  intros Hn. unfold chunked. remember (length l) as fuel eqn:Hf. apply eq_sym, Nat.eq_le_incl in Hf.
  revert l Hf. induction fuel as [|fuel IH]; intros l Hl; cbn [chunked_fuel].
  - by destruct l; [|cbn in Hl; lia].
  - destruct l as [|x l]; [done|]. cbn [concat]. rewrite IH; [apply take_drop|].
    rewrite length_drop. cbn in *. lia.
Qed.

Lemma settles_extend output data : settles (extend_bytes check output data) (Ok (output ++ data)).
Proof.
  unfold extend_bytes. eapply settles_bind; [apply settles_check|].
  eapply settles_bind; [apply (settles_fold _ (λ b a, b ++ a))|].
  { intros b a _. eapply settles_bind; [apply settles_check|apply settles_ret]. }
  assert (fold_left (λ b a, b ++ a) (chunked 8192 data) output = output ++ data) as ->.
  { rewrite <- (chunked_concat 8192 data) at 2 by lia. generalize (chunked 8192 data) as cs. intros cs.
    revert output. induction cs as [|c cs IH]; intros output; cbn; [by rewrite app_nil_r|]. by rewrite IH, <- app_assoc. }
  eapply settles_bind; [apply settles_check|apply settles_ret].
Qed.

(** The counter stays between one and sixty-four, so that it does not wrap. *)
Lemma work_step_remaining w : 1 ≤ wc_remaining w ≤ 64 → 1 ≤ wc_remaining (work_step check w).1 ≤ 64.
Proof.
  intros H. unfold work_step. case_Z; [|cbn; lia]. unfold check_now. destruct (check _) as [c r]. cbn. lia.
Qed.
End Settles.

#[export] Hint Resolve settles_ret settles_lift settles_err settles_check settles_step settles_extend : zep.
