(* ===== verification/Postings.v ===== *)
(** * Posting lists and their persisted form

    Models [crates/zeppelin-embed/src/fts/postings.rs]: the in-memory posting list,
    the bit packing of its streams, the block metadata rows with their impact pairs,
    the encoder, and the reader with its three ways in: opening, decoding blocks, and
    locating the positions of one row without decoding the others.

    Integers are [Z]; a [u32] or a [usize] that the code saturates, checks or
    truncates is written with that operation.  The encoder and the reader run under a
    work check (file [WorkCheck]); [from] is the conversion of a [PostingsError]
    into the error of the caller. *)

From S2P Require Import Prelude WorkCheck.
From coqutil Require Import Byte.

(** ** Constants and errors *)

Definition DEFAULT_POSTINGS_PER_BLOCK : Z := 64.
Definition BLOCK_META_LEN : Z := 32.
(** [b"ZPST"]. *)
Definition POSTINGS_MAGIC : bytes := u8_byte <$> [90; 80; 83; 84].
Definition POSTINGS_VERSION_V1 : Z := 1.
Definition POSTINGS_VERSION : Z := 2.
Definition POSTINGS_HEADER_LEN : Z := 16.

Inductive PostingsError : Type :=
  | PostingsTruncated (needed available : Z)
  | PostingsBadMagic
  | PostingsUnsupportedVersion (found : Z)
  | BitWidthTooLarge (bits : Z)
  | ZeroBlockSize
  | DocidsNotAscending (docid : Z)
  | PositionsNotAscending (position : Z)
  | ZeroTermFrequency
  | InconsistentPostingCount (declared described : Z).

(** ** The list in memory *)

Record Posting : Type := {
  po_docid : Z;
  po_tf : Z;
  po_positions : list Z;
}.

Record PostingList : Type := { pl_postings : list Posting }.

Definition posting_list_new : PostingList := {| pl_postings := [] |}.

Definition document_frequency (l : PostingList) : Z :=
  default u32_max (try_from u32_max (len (pl_postings l))).

(** [validate_positions], from the last position seen. *)
Fixpoint validate_positions (previous : option Z) (positions : list Z) : result PostingsError unit :=
  match positions with
  | [] => Ok tt
  | position :: positions =>
      if match previous with Some earlier => position <=? earlier | None => false end
      then Err (PositionsNotAscending position)
      else validate_positions (Some position) positions
  end.

Definition empty_posting (posting : Posting) : bool :=
  (po_tf posting =? 0) || (len (po_positions posting) =? 0).

Definition push (l : PostingList) (posting : Posting) : result PostingsError PostingList :=
  if empty_posting posting then Err ZeroTermFrequency
  else if match last (pl_postings l) with Some p => po_docid posting <=? po_docid p | None => false end
  then Err (DocidsNotAscending (po_docid posting))
  else
    _ ← validate_positions None (po_positions posting);
    Ok {| pl_postings := pl_postings l ++ [posting] |}.

Definition insert_posting (l : PostingList) (posting : Posting) : result PostingsError PostingList :=
  if empty_posting posting then Err ZeroTermFrequency
  else
    let index := partition_point (λ existing, po_docid existing <? po_docid posting) (pl_postings l) in
    if match pl_postings l !! index with Some p => po_docid p =? po_docid posting | None => false end
    then Err (DocidsNotAscending (po_docid posting))
    else
      _ ← validate_positions None (po_positions posting);
      Ok {| pl_postings := take index (pl_postings l) ++ posting :: drop index (pl_postings l) |}.

(** [remove]: the binary search on strictly ascending keys finds the one entry with
    the key, if there is one. *)
Definition remove_posting (l : PostingList) (docid : Z) : PostingList * bool :=
  let index := partition_point (λ posting, po_docid posting <? docid) (pl_postings l) in
  if match pl_postings l !! index with Some p => po_docid p =? docid | None => false end
  then ({| pl_postings := delete index (pl_postings l) |}, true)
  else (l, false).

(** ** Bit packing *)

(** [u64 << n], for [n < 64]. *)
Definition shl64 (v n : Z) : Z := Z.land (Z.shiftl v n) u64_max.

(** [u32::leading_zeros] of a non-zero value. *)
Definition leading_zeros32 (v : Z) : Z := 31 - Z.log2 v.

(** [packed_len]. *)
Definition packed_len (count bits : Z) : Z :=
  if bits =? 0 then 0 else (count * bits + 7) / 8.

Record PackState : Type := {
  pk_accumulator : Z;
  pk_filled : Z;
  pk_output : bytes;
}.

(** [while filled >= 8]: each turn takes eight bits off, so that as many turns as
    bits are enough. *)
Fixpoint pack_drain (fuel : nat) (s : PackState) : PackState :=
  match fuel with
  | O => s
  | S fuel =>
      if 8 <=? pk_filled s then
        pack_drain fuel {|
          pk_accumulator := Z.shiftr (pk_accumulator s) 8;
          pk_filled := pk_filled s - 8;
          pk_output := pk_output s ++ [u8_byte (Z.land (pk_accumulator s) 255)] |}
      else s
  end.

Definition pack_value (bits : Z) (s : PackState) (value : Z) : PackState :=
  let filled := pk_filled s + bits in
  pack_drain (Z.to_nat filled) {|
    pk_accumulator := Z.lor (pk_accumulator s) (shl64 value (pk_filled s));
    pk_filled := filled;
    pk_output := pk_output s |}.

Record UnpackState : Type := {
  up_accumulator : Z;
  up_filled : Z;
  up_cursor : Z;
}.

(** [while filled < width]: a byte is eight bits, so that as many turns as missing
    bits are enough. *)
Fixpoint unpack_fill (fuel : nat) (input : bytes) (width : Z) (s : UnpackState) : UnpackState :=
  match fuel with
  | O => s
  | S fuel =>
      if up_filled s <? width then
        let byte := match input !! Z.to_nat (up_cursor s) with Some b => byte.unsigned b | None => 0 end in
        unpack_fill fuel input width {|
          up_accumulator := Z.lor (up_accumulator s) (shl64 byte (up_filled s));
          up_filled := up_filled s + 8;
          up_cursor := up_cursor s + 1 |}
      else s
  end.

Fixpoint unpack_slots (input : bytes) (width mask : Z) (slots : list Z) (s : UnpackState) : list Z :=
  match slots with
  | [] => []
  | _ :: slots =>
      let s := unpack_fill (Z.to_nat (width - up_filled s)) input width s in
      Z.land (Z.land (up_accumulator s) u32_max) mask
      :: unpack_slots input width mask slots {|
           up_accumulator := Z.shiftr (up_accumulator s) width;
           up_filled := up_filled s - width;
           up_cursor := up_cursor s |}
  end.

(** [unpack_bits]: the bytes consumed, and the output with its first slots set. *)
Definition unpack_bits (input : bytes) (bits count : Z) (output : list Z)
  : result PostingsError (Z * list Z) :=
  if 32 <? bits then Err (BitWidthTooLarge bits)
  else if bits =? 0 then
    Ok (0, ((λ _, 0) <$> take (Z.to_nat count) output) ++ drop (Z.to_nat count) output)
  else
    let needed := packed_len count bits in
    if len input <? needed then Err (PostingsTruncated needed (len input))
    else
      let mask := if bits =? 32 then u32_max else Z.shiftl 1 bits - 1 in
      Ok (needed, unpack_slots input bits mask (take (Z.to_nat count) output)
                    {| up_accumulator := 0; up_filled := 0; up_cursor := 0 |}
                  ++ drop (Z.to_nat count) output).

(** [packed_value_at]'s word: the selected bytes, at eight bits each. *)
Fixpoint word_from (offset : Z) (word : Z) (selected : bytes) : Z :=
  match selected with
  | [] => word
  | b :: selected => word_from (offset + 1) (Z.lor word (shl64 (byte.unsigned b) (offset * 8))) selected
  end.

Definition packed_value_at (data : bytes) (bits slot : Z) : result PostingsError Z :=
  if 32 <? bits then Err (BitWidthTooLarge bits)
  else if bits =? 0 then Ok 0
  else
    first ← ok_or (checked_mul usize_max slot bits) (PostingsTruncated usize_max (len data));
    sum ← ok_or (checked_add usize_max first bits) (PostingsTruncated usize_max (len data));
    let last := (sum + 7) / 8 in
    selected ← ok_or (slice_range data (first / 8) last) (PostingsTruncated last (len data));
    let mask := shl64 1 bits - 1 in
    Ok (Z.land (Z.land (Z.shiftr (word_from 0 0 selected) (first mod 8)) mask) u32_max).

(** ** Block metadata *)

Record BlockMeta : Type := {
  bm_last_docid : Z;
  bm_docids_offset : Z;
  bm_tfs_offset : Z;
  bm_positions_offset : Z;
  bm_positions_count : Z;
  bm_count : Z;
  bm_docid_bits : Z;
  bm_tf_bits : Z;
  bm_position_bits : Z;
  bm_block_max : Z;
  bm_max_tf : Z;
  bm_min_len : Z;
}.

Definition meta_write (m : BlockMeta) : bytes :=
  u32_le (bm_last_docid m) ++ u32_le (bm_docids_offset m) ++ u32_le (bm_tfs_offset m)
  ++ u32_le (bm_positions_offset m) ++ u32_le (bm_positions_count m) ++ u16_le (bm_count m)
  ++ [u8_byte (bm_docid_bits m)] ++ [u8_byte (bm_tf_bits m)] ++ [u8_byte (bm_position_bits m)]
  ++ [u8_byte (bm_block_max m)] ++ u32_le (bm_max_tf m) ++ u16_le (bm_min_len m).

Definition postings_read_u8 (input : bytes) (at_ : Z) : result PostingsError Z :=
  b ← ok_or (input !! Z.to_nat at_) (PostingsTruncated (at_ + 1) (len input));
  Ok (byte.unsigned b).

Definition postings_read_u16 (input : bytes) (at_ : Z) : result PostingsError Z :=
  b ← ok_or (slice_range input at_ (at_ + 2)) (PostingsTruncated (at_ + 2) (len input));
  Ok (from_le b).

Definition postings_read_u32 (input : bytes) (at_ : Z) : result PostingsError Z :=
  b ← ok_or (slice_range input at_ (at_ + 4)) (PostingsTruncated (at_ + 4) (len input));
  Ok (from_le b).

Definition meta_read (input : bytes) : result PostingsError BlockMeta :=
  row ← ok_or (slice_to input BLOCK_META_LEN) (PostingsTruncated BLOCK_META_LEN (len input));
  last_docid ← postings_read_u32 row 0;
  docids_offset ← postings_read_u32 row 4;
  tfs_offset ← postings_read_u32 row 8;
  positions_offset ← postings_read_u32 row 12;
  positions_count ← postings_read_u32 row 16;
  count ← postings_read_u16 row 20;
  docid_bits ← postings_read_u8 row 22;
  tf_bits ← postings_read_u8 row 23;
  position_bits ← postings_read_u8 row 24;
  block_max ← postings_read_u8 row 25;
  max_tf ← postings_read_u32 row 26;
  min_len ← postings_read_u16 row 30;
  Ok {| bm_last_docid := last_docid; bm_docids_offset := docids_offset; bm_tfs_offset := tfs_offset;
        bm_positions_offset := positions_offset; bm_positions_count := positions_count; bm_count := count;
        bm_docid_bits := docid_bits; bm_tf_bits := tf_bits; bm_position_bits := position_bits;
        bm_block_max := block_max; bm_max_tf := max_tf; bm_min_len := min_len |}.

Record BlockImpact : Type := {
  bi_max_tf : Z;
  bi_min_len : Z;
}.

Definition impact_from_meta (m : BlockMeta) : BlockImpact :=
  {| bi_max_tf := bm_max_tf m; bi_min_len := bm_min_len m |}.

Definition impact_is_absent (i : BlockImpact) : bool := bi_max_tf i =? 0.

(** [EncodedPostings]. *)
Record EncodedPostings : Type := { ep_bytes : bytes }.

(** ** The encoder *)

(** [Iterator::enumerate], from [i]. *)
Fixpoint enumerate_from {A} (i : Z) (l : list A) : list (Z * A) :=
  match l with
  | [] => []
  | x :: l => (i, x) :: enumerate_from (i + 1) l
  end.

(** The streams and rows written so far, and the last document id. *)
Record EncodeState : Type := {
  es_docids : bytes;
  es_tfs : bytes;
  es_positions : bytes;
  es_metadata : list BlockMeta;
  es_previous : Z;
}.

(** The columns of one block, and the last document id. *)
Record BlockColumns : Type := {
  bc_deltas : list Z;
  bc_frequencies : list Z;
  bc_positions : list Z;
  bc_base : Z;
}.

(** The fields of a sealed block that come from the caller. *)
Definition block_max_at (block_maxima : list Z) (index : Z) : Z :=
  default 0 (block_maxima !! Z.to_nat index).
Definition impact_at (impacts : list BlockImpact) (index : Z) : BlockImpact :=
  default {| bi_max_tf := 0; bi_min_len := 0 |} (impacts !! Z.to_nat index).

Definition saturate (m n : Z) : Z := default m (try_from m n).

Section Controlled.
Context {W E : Type} (check : W → W * result E unit) (from : PostingsError → E).

Abbreviation Work A := (RunE (WorkCheck W) E A).

Definition required_bits_controlled (values : list Z) : Work Z :=
  let! maximum := run_fold (λ maximum value, let! _ := work_step check in run_ret (maximum `max` value)) values 0 in
  run_ret (if maximum =? 0 then 0 else default 32 (try_from u8_max (32 - leading_zeros32 maximum))).

Definition pack_bits_controlled (values : list Z) (bits : Z) (output : bytes) : Work bytes :=
  if bits =? 0 then run_ret output
  else
    let! s := run_fold (λ s value, let! _ := work_step check in run_ret (pack_value bits s value)) values
                {| pk_accumulator := 0; pk_filled := 0; pk_output := output |} in
    run_ret (if 0 <? pk_filled s
             then pk_output s ++ [u8_byte (Z.land (pk_accumulator s) 255)]
             else pk_output s).

(** The gaps of one posting's positions, appended to those of the block. *)
Definition encode_positions (gaps : list Z) (positions : list Z) : Work (list Z) :=
  let! s := run_fold (λ '(gaps, previous) '(slot, position),
      let! _ := work_step check in
      run_ret (gaps ++ [if slot =? 0 then position else saturating_sub position previous], position))
    (enumerate_from 0 positions) (gaps, 0) in
  run_ret s.1.

(** One posting of the block [index]. *)
Definition encode_posting (index : Z) (c : BlockColumns) (entry : Z * Posting) : Work BlockColumns :=
  let '(offset, posting) := entry in
  let! _ := work_step check in
  let delta := if (index =? 0) && (offset =? 0) then po_docid posting
               else saturating_sub (po_docid posting) (bc_base c) in
  let! positions := encode_positions (bc_positions c) (po_positions posting) in
  run_ret {| bc_deltas := bc_deltas c ++ [delta];
             bc_frequencies := bc_frequencies c ++ [po_tf posting];
             bc_positions := positions;
             bc_base := po_docid posting |}.

Definition encode_block (block_maxima : list Z) (impacts : list BlockImpact) (s : EncodeState)
    (entry : Z * list Posting) : Work EncodeState :=
  let '(index, chunk) := entry in
  let! _ := work_step check in
  let! c := run_fold (encode_posting index) (enumerate_from 0 chunk)
    {| bc_deltas := []; bc_frequencies := []; bc_positions := []; bc_base := es_previous s |} in
  let! docid_bits := required_bits_controlled (bc_deltas c) in
  let! tf_bits := required_bits_controlled (bc_frequencies c) in
  let! position_bits := required_bits_controlled (bc_positions c) in
  let meta := {|
    bm_last_docid := bc_base c;
    bm_docids_offset := saturate u32_max (len (es_docids s));
    bm_tfs_offset := saturate u32_max (len (es_tfs s));
    bm_positions_offset := saturate u32_max (len (es_positions s));
    bm_positions_count := saturate u32_max (len (bc_positions c));
    bm_count := saturate u16_max (len chunk);
    bm_docid_bits := docid_bits;
    bm_tf_bits := tf_bits;
    bm_position_bits := position_bits;
    bm_block_max := block_max_at block_maxima index;
    bm_max_tf := bi_max_tf (impact_at impacts index);
    bm_min_len := bi_min_len (impact_at impacts index) |} in
  let! docids := pack_bits_controlled (bc_deltas c) docid_bits (es_docids s) in
  let! tfs := pack_bits_controlled (bc_frequencies c) tf_bits (es_tfs s) in
  let! positions := pack_bits_controlled (bc_positions c) position_bits (es_positions s) in
  run_ret {| es_docids := docids; es_tfs := tfs; es_positions := positions;
             es_metadata := es_metadata s ++ [meta]; es_previous := bc_base c |}.

Definition encode_versioned (postings : list Posting) (postings_per_block : Z) (block_maxima : list Z)
    (impacts : list BlockImpact) (version : Z) : Work EncodedPostings :=
  let! _ := check_now check in
  if postings_per_block =? 0 then run_err (from ZeroBlockSize)
  else
    let! s := run_fold (encode_block block_maxima impacts)
      (enumerate_from 0 (chunked postings_per_block postings))
      {| es_docids := []; es_tfs := []; es_positions := []; es_metadata := []; es_previous := 0 |} in
    let header := POSTINGS_MAGIC ++ u16_le version ++ u16_le postings_per_block
      ++ u32_le (saturate u32_max (len postings)) ++ u32_le (saturate u32_max (len (es_metadata s))) in
    let! output := run_fold (λ output meta, let! _ := work_step check in run_ret (output ++ meta_write meta))
      (es_metadata s) header in
    let! output := extend_bytes check output (es_docids s) in
    let! output := extend_bytes check output (es_tfs s) in
    let! output := extend_bytes check output (es_positions s) in
    let! _ := check_now check in
    run_ret {| ep_bytes := output |}.

Definition encode_v2_controlled (l : PostingList) (postings_per_block : Z) (block_maxima : list Z)
    (impacts : list BlockImpact) : Work EncodedPostings :=
  encode_versioned (pl_postings l) postings_per_block block_maxima impacts POSTINGS_VERSION.

(** ** Impact pairs *)

(** The length of a row, one when the array does not reach it. *)
Definition row_length (lengths : list Z) (row : Z) : Z :=
  if row <? len lengths then default 1 (lengths !! Z.to_nat row) else 1.

Definition impact_step (lengths : list Z) (s : Z * Z) (posting : Posting) : Z * Z :=
  (s.1 `max` po_tf posting, s.2 `min` row_length lengths (po_docid posting)).

Definition block_impacts_slice_controlled (postings : list Posting) (postings_per_block : Z)
    (lengths : list Z) : Work (list BlockImpact) :=
  let! _ := check_now check in
  if postings_per_block =? 0 then run_ret []
  else
    let! impacts := run_fold (λ impacts chunk,
        let! s := run_fold (λ s posting, let! _ := work_step check in run_ret (impact_step lengths s posting))
          chunk (0, u32_max) in
        run_ret (impacts ++ [{| bi_max_tf := s.1; bi_min_len := saturate u16_max s.2 |}]))
      (chunked postings_per_block postings) [] in
    let! _ := check_now check in
    run_ret impacts.

Definition block_impacts_controlled (l : PostingList) (postings_per_block : Z) (lengths : list Z)
  : Work (list BlockImpact) :=
  block_impacts_slice_controlled (pl_postings l) postings_per_block lengths.
End Controlled.

(** The entry points without a callback. *)
Definition encode (l : PostingList) (postings_per_block : Z) (block_maxima : list Z)
  : result PostingsError EncodedPostings :=
  (encode_versioned unchecked id (pl_postings l) postings_per_block block_maxima []
     POSTINGS_VERSION_V1 (work_new tt)).2.

Definition encode_v2 (l : PostingList) (postings_per_block : Z) (block_maxima : list Z)
    (impacts : list BlockImpact) : result PostingsError EncodedPostings :=
  (encode_versioned unchecked id (pl_postings l) postings_per_block block_maxima impacts
     POSTINGS_VERSION (work_new tt)).2.

(** [Infallible] has no value: only the success remains. *)
Definition block_impacts (l : PostingList) (postings_per_block : Z) (lengths : list Z) : list BlockImpact :=
  match (block_impacts_controlled (E := Empty_set) unchecked l postings_per_block lengths (work_new tt)).2 with
  | Ok impacts => impacts
  | Err never => match never with end
  end.

(** ** The reader *)

Record PostingsReader : Type := {
  pr_version : Z;
  pr_blocks : list BlockMeta;
  pr_docids : bytes;
  pr_tfs : bytes;
  pr_positions : bytes;
  pr_posting_count : Z;
  pr_postings_per_block : Z;
}.

(** The rows read so far and what they describe. *)
Record OpenState : Type := {
  op_blocks : list BlockMeta;
  op_described : Z;
  op_docid_bytes : Z;
  op_tf_bytes : Z;
  op_position_bytes : Z;
}.

Definition open_new : OpenState :=
  {| op_blocks := []; op_described := 0; op_docid_bytes := 0; op_tf_bytes := 0; op_position_bytes := 0 |}.

(** The first of the three widths above 32. *)
Fixpoint check_widths (widths : list Z) : result PostingsError unit :=
  match widths with
  | [] => Ok tt
  | bits :: widths => if 32 <? bits then Err (BitWidthTooLarge bits) else check_widths widths
  end.

(** One metadata row, after its unit of work.  An offset is a [u32] and a stream at
    most [2^32 * 32 / 8] bytes, so that the sums are below [usize::MAX]. *)
Definition open_row (metadata : bytes) (postings_per_block posting_count : Z) (s : OpenState) (index : Z)
  : result PostingsError OpenState :=
  let start := saturating_mul usize_max index BLOCK_META_LEN in
  row ← ok_or (slice_range metadata start (start + BLOCK_META_LEN))
          (PostingsTruncated (start + BLOCK_META_LEN) (len metadata));
  meta ← meta_read row;
  _ ← check_widths [bm_docid_bits meta; bm_tf_bits meta; bm_position_bits meta];
  if (bm_count meta =? 0) || (postings_per_block <? bm_count meta) then
    Err (InconsistentPostingCount posting_count (saturating_add u32_max (op_described s) (bm_count meta)))
  else
    Ok {| op_blocks := op_blocks s ++ [meta];
          op_described := saturating_add u32_max (op_described s) (bm_count meta);
          op_docid_bytes := op_docid_bytes s
            `max` (bm_docids_offset meta + packed_len (bm_count meta) (bm_docid_bits meta));
          op_tf_bytes := op_tf_bytes s
            `max` (bm_tfs_offset meta + packed_len (bm_count meta) (bm_tf_bits meta));
          op_position_bytes := op_position_bytes s
            `max` (bm_positions_offset meta + packed_len (bm_positions_count meta) (bm_position_bits meta)) |}.

(** The header: version, block size, posting count and block count. *)
Definition open_header (data : bytes) : result PostingsError (Z * Z * Z * Z) :=
  header ← ok_or (slice_to data POSTINGS_HEADER_LEN) (PostingsTruncated POSTINGS_HEADER_LEN (len data));
  if negb (bool_decide (slice_to header 4 = Some POSTINGS_MAGIC)) then Err PostingsBadMagic
  else
    version ← postings_read_u16 header 4;
    if negb (version =? POSTINGS_VERSION_V1) && negb (version =? POSTINGS_VERSION)
    then Err (PostingsUnsupportedVersion version)
    else
      postings_per_block ← postings_read_u16 header 6;
      if postings_per_block =? 0 then Err ZeroBlockSize
      else
        posting_count ← postings_read_u32 header 8;
        block_count ← postings_read_u32 header 12;
        Ok (version, postings_per_block, posting_count, block_count).

(** The metadata bytes and their end. *)
Definition open_metadata (data : bytes) (block_count : Z) : result PostingsError (bytes * Z) :=
  metadata_len ← ok_or (checked_mul usize_max block_count BLOCK_META_LEN)
                   (PostingsTruncated usize_max (len data));
  metadata_end ← ok_or (checked_add usize_max POSTINGS_HEADER_LEN metadata_len)
                   (PostingsTruncated usize_max (len data));
  metadata ← ok_or (slice_range data POSTINGS_HEADER_LEN metadata_end)
               (PostingsTruncated metadata_end (len data));
  Ok (metadata, metadata_end).

(** The three streams after the rows. *)
Definition open_streams (data : bytes) (metadata_end : Z) (s : OpenState)
  : result PostingsError (bytes * bytes * bytes) :=
  streams ← ok_or (slice_from data metadata_end) (PostingsTruncated metadata_end (len data));
  let tf_start := op_docid_bytes s in
  position_start ← ok_or (checked_add usize_max tf_start (op_tf_bytes s))
                     (PostingsTruncated usize_max (len streams));
  position_end ← ok_or (checked_add usize_max position_start (op_position_bytes s))
                   (PostingsTruncated usize_max (len streams));
  if len streams <? position_end then Err (PostingsTruncated position_end (len streams))
  else
    docids ← ok_or (slice_to streams tf_start) (PostingsTruncated tf_start (len streams));
    tfs ← ok_or (slice_range streams tf_start position_start)
            (PostingsTruncated position_start (len streams));
    positions ← ok_or (slice_range streams position_start position_end)
                  (PostingsTruncated position_end (len streams));
    Ok (docids, tfs, positions).

(** [RowPositions]. *)
Record RowPositions : Type := {
  rp_bytes : bytes;
  rp_bits : Z;
  rp_first : Z;
  rp_count : Z;
}.

(** Where the walk over a block's members stands: the document id reached, the
    positions before it, and the answer once it is known. *)
Record MemberWalk : Type := {
  mw_docid : Z;
  mw_first : Z;
  mw_answer : option (option RowPositions);
}.

(** One member of the block, after its unit of work. *)
Definition locate_member (r : PostingsReader) (meta : BlockMeta) (docids tfs : bytes) (row : Z)
    (s : MemberWalk) (slot : Z) : result PostingsError MemberWalk :=
  delta ← packed_value_at docids (bm_docid_bits meta) slot;
  docid ← ok_or (checked_add u32_max (mw_docid s) delta) (DocidsNotAscending (mw_docid s));
  if row <? docid then Ok {| mw_docid := docid; mw_first := mw_first s; mw_answer := Some None |}
  else
    count ← packed_value_at tfs (bm_tf_bits meta) slot;
    if count =? 0 then Err ZeroTermFrequency
    else
      last ← ok_or (checked_add usize_max (mw_first s) count)
               (PostingsTruncated usize_max (bm_positions_count meta));
      if bm_positions_count meta <? last then Err (PostingsTruncated last (bm_positions_count meta))
      else if docid =? row then
        let start := bm_positions_offset meta in
        finish ← ok_or (checked_add usize_max start (packed_len (bm_positions_count meta) (bm_position_bits meta)))
                   (PostingsTruncated usize_max (len (pr_positions r)));
        data ← ok_or (slice_range (pr_positions r) start finish)
                 (PostingsTruncated finish (len (pr_positions r)));
        Ok {| mw_docid := docid; mw_first := mw_first s;
              mw_answer := Some (Some {| rp_bytes := data; rp_bits := bm_position_bits meta;
                                         rp_first := mw_first s; rp_count := count |}) |}
      else Ok {| mw_docid := docid; mw_first := last; mw_answer := None |}.

Section ControlledReader.
Context {W E : Type} (check : W → W * result E unit) (from : PostingsError → E).

Abbreviation Work A := (RunE (WorkCheck W) E A).

(** [open_controlled]. *)
Definition open_controlled (data : bytes) : Work PostingsReader :=
  let! _ := check_now check in
  let! (version, postings_per_block, posting_count, block_count) := run_lift (map_err from (open_header data)) in
  let! (metadata, metadata_end) := run_lift (map_err from (open_metadata data block_count)) in
  let! s := run_fold (λ s index,
      let! _ := work_step check in
      run_lift (map_err from (open_row metadata postings_per_block posting_count s index)))
    (seqZ 0 block_count) open_new in
  if negb (op_described s =? posting_count)
  then run_err (from (InconsistentPostingCount posting_count (op_described s)))
  else
    let! (docids, tfs, positions) := run_lift (map_err from (open_streams data metadata_end s)) in
    let! _ := check_now check in
    run_ret {| pr_version := version; pr_blocks := op_blocks s; pr_docids := docids; pr_tfs := tfs;
               pr_positions := positions; pr_posting_count := posting_count;
               pr_postings_per_block := postings_per_block |}.

(** [for slot in 0..count], left at the first answer. *)
Fixpoint locate_members (r : PostingsReader) (meta : BlockMeta) (docids tfs : bytes) (row : Z)
    (slots : list Z) (s : MemberWalk) : Work (option RowPositions) :=
  match slots with
  | [] => run_ret None
  | slot :: slots =>
      let! _ := work_step check in
      let! s := run_lift (map_err from (locate_member r meta docids tfs row s slot)) in
      match mw_answer s with
      | Some answer => run_ret answer
      | None => locate_members r meta docids tfs row slots s
      end
  end%run.

(** [positions_controlled]. *)
Definition positions_controlled (r : PostingsReader) (row : Z) : Work (option RowPositions) :=
  let! _ := check_now check in
  let block := partition_point (λ meta, bm_last_docid meta <? row) (pr_blocks r) in
  match pr_blocks r !! block with
  | None => run_ret None
  | Some meta =>
      let! docids := run_lift (ok_or (slice_from (pr_docids r) (bm_docids_offset meta))
        (from (PostingsTruncated (bm_docids_offset meta) (len (pr_docids r))))) in
      let! tfs := run_lift (ok_or (slice_from (pr_tfs r) (bm_tfs_offset meta))
        (from (PostingsTruncated (bm_tfs_offset meta) (len (pr_tfs r))))) in
      let docid := match block with
        | O => 0
        | S previous => match pr_blocks r !! previous with Some m => bm_last_docid m | None => 0 end
        end in
      locate_members r meta docids tfs row (seqZ 0 (bm_count meta))
        {| mw_docid := docid; mw_first := 0; mw_answer := None |}
  end.

(** One position of a row, after its unit of work. *)
Definition decode_position (v : RowPositions) (s : list Z * Z) (offset : Z)
  : result PostingsError (list Z * Z) :=
  delta ← packed_value_at (rp_bytes v) (rp_bits v) (rp_first v + offset);
  if (0 <? offset) && (delta =? 0) then Err (PositionsNotAscending s.2)
  else
    position ← ok_or (checked_add u32_max s.2 delta) (PositionsNotAscending s.2);
    Ok (s.1 ++ [position], position).

(** [RowPositions::decode_controlled]. *)
Definition decode_controlled (v : RowPositions) : Work (list Z) :=
  let! _ := check_now check in
  let! s := run_fold (λ s offset,
      let! _ := work_step check in
      run_lift (map_err from (decode_position v s offset)))
    (seqZ 0 (rp_count v)) ([], 0) in
  let! _ := check_now check in
  run_ret s.1.
End ControlledReader.

(** The entry points without a callback. *)
Definition open (data : bytes) : result PostingsError PostingsReader :=
  (open_controlled unchecked id data (work_new tt)).2.
Definition positions (r : PostingsReader) (row : Z) : result PostingsError (option RowPositions) :=
  (positions_controlled unchecked id r row (work_new tt)).2.
Definition decode (v : RowPositions) : result PostingsError (list Z) :=
  (decode_controlled unchecked id v (work_new tt)).2.

(** ** Decoding whole blocks *)

(** The positions of one posting, [tf] of them from [cursor]. *)
Fixpoint decode_gaps (deltas : list Z) (cursor : Z) (steps : list Z) (running : Z)
  : result PostingsError (list Z) :=
  match steps with
  | [] => Ok []
  | step :: steps =>
      gap ← ok_or (deltas !! Z.to_nat (cursor + step)) (PostingsTruncated (cursor + step + 1) (len deltas));
      let running := if step =? 0 then gap else saturating_add u32_max running gap in
      rest ← decode_gaps deltas cursor steps running;
      Ok (running :: rest)
  end.

(** [for slot in 0..count]. *)
Fixpoint decode_slots (index : Z) (deltas frequencies position_deltas : list Z) (slots : list Z)
    (base cursor : Z) : result PostingsError (list Posting) :=
  match slots with
  | [] => Ok []
  | slot :: slots =>
      let delta := default 0 (deltas !! Z.to_nat slot) in
      let docid := if (index =? 0) && (slot =? 0) then delta else saturating_add u32_max base delta in
      let tf := default 0 (frequencies !! Z.to_nat slot) in
      if tf =? 0 then Err ZeroTermFrequency
      else
        positions ← decode_gaps position_deltas cursor (seqZ 0 tf) 0;
        rest ← decode_slots index deltas frequencies position_deltas slots docid
                 (saturating_add usize_max cursor tf);
        Ok ({| po_docid := docid; po_tf := tf; po_positions := positions |} :: rest)
  end.

Definition decode_block (r : PostingsReader) (index : Z) : result PostingsError (list Posting) :=
  match pr_blocks r !! Z.to_nat index with
  | None => Ok []
  | Some meta =>
      let count := bm_count meta in
      docids ← ok_or (slice_from (pr_docids r) (bm_docids_offset meta))
                 (PostingsTruncated (bm_docids_offset meta) (len (pr_docids r)));
      deltas ← unpack_bits docids (bm_docid_bits meta) count (replicate (Z.to_nat count) 0);
      tfs ← ok_or (slice_from (pr_tfs r) (bm_tfs_offset meta))
              (PostingsTruncated (bm_tfs_offset meta) (len (pr_tfs r)));
      frequencies ← unpack_bits tfs (bm_tf_bits meta) count (replicate (Z.to_nat count) 0);
      let position_count := bm_positions_count meta in
      positions ← ok_or (slice_from (pr_positions r) (bm_positions_offset meta))
                    (PostingsTruncated (bm_positions_offset meta) (len (pr_positions r)));
      position_deltas ← unpack_bits positions (bm_position_bits meta) position_count
                          (replicate (Z.to_nat position_count) 0);
      let base := if index =? 0 then 0
                  else match pr_blocks r !! Z.to_nat (saturating_sub index 1) with
                       | Some previous => bm_last_docid previous | None => 0 end in
      decode_slots index deltas.2 frequencies.2 position_deltas.2 (seqZ 0 count) base 0
  end.

Fixpoint push_all (l : PostingList) (postings : list Posting) : result PostingsError PostingList :=
  match postings with
  | [] => Ok l
  | posting :: postings => l ← push l posting; push_all l postings
  end.

Fixpoint decode_blocks (r : PostingsReader) (indices : list Z) (l : PostingList)
  : result PostingsError PostingList :=
  match indices with
  | [] => Ok l
  | index :: indices =>
      postings ← decode_block r index;
      l ← push_all l postings;
      decode_blocks r indices l
  end.

(** [decode_all]. *)
Definition decode_all (r : PostingsReader) : result PostingsError PostingList :=
  decode_blocks r (seqZ 0 (len (pr_blocks r))) posting_list_new.
