(* ===== verification/PostingsBits.v ===== *)
(** * Bit packing reads back what it packed

    Lemmas about the packing of [Postings]: a packed run is the little-endian form of
    one number, [word_of], whose digits in base [2^bits] are the values, and both the
    bulk decoder [unpack_bits] and the bit-addressed [packed_value_at] read those
    digits, [field]. *)

From S2P Require Import Prelude WorkCheck Postings.
From coqutil Require Import Byte Word.LittleEndianList.

(** Divisions by constants, as linear arithmetic. *)
Ltac div_lia := Z.to_euclidean_division_equations; lia.

(** ** Fields of a number *)

(** The [w] bits of [n] from bit [p]. *)
Definition field (n p w : Z) : Z := Z.land (Z.shiftr n p) (Z.ones w).

(** The number whose digits in base [2^bits] are the values. *)
Fixpoint word_of (bits : Z) (values : list Z) : Z :=
  match values with
  | [] => 0
  | v :: values => v + 2 ^ bits * word_of bits values
  end.

Lemma field_spec n p w i : 0 ≤ p → 0 ≤ w → 0 ≤ i → Z.testbit (field n p w) i = Z.testbit n (i + p) && (i <? w).
Proof. intros Hp Hw Hi. unfold field. by rewrite Z.land_spec, Z.shiftr_spec, Z.testbit_ones_nonneg. Qed.

Lemma field_mod n p w : 0 ≤ p → 0 ≤ w → field n p w = (n / 2 ^ p) mod 2 ^ w.
Proof. intros Hp Hw. unfold field. by rewrite Z.land_ones, Z.shiftr_div_pow2. Qed.

Lemma field_bound n p w : 0 ≤ p → 0 ≤ w → 0 ≤ field n p w < 2 ^ w.
Proof. intros Hp Hw. rewrite field_mod by done. apply Z.mod_pos_bound. lia. Qed.

Lemma testbit_high n w i : 0 ≤ w ≤ i → 0 ≤ n < 2 ^ w → Z.testbit n i = false.
Proof.
  intros Hi Hn. rewrite <- (Z.mod_small n (2 ^ w)) by done. apply Z.mod_pow2_bits_high. lia.
Qed.

Lemma field_zero n p : 0 ≤ p → field n p 0 = 0.
Proof. intros Hp. rewrite field_mod by lia. apply Z.mod_1_r. Qed.

(** Equalities of bit patterns, bit by bit. *)
Ltac bit_step :=
  match goal with
  | |- context [Z.testbit ?a ?k] => rewrite (Z.testbit_neg_r a k) by lia
  | |- context [Z.testbit (field ?n ?p ?w) ?k] => rewrite (field_spec n p w k) by lia
  | |- context [Z.testbit (Z.shiftl ?a ?n) ?k] => rewrite (Z.shiftl_spec a n k) by lia
  | |- context [Z.testbit (Z.shiftr ?a ?n) ?k] => rewrite (Z.shiftr_spec a n k) by lia
  | |- context [Z.testbit (Z.ones ?n) ?k] => rewrite (Z.testbit_ones_nonneg n k) by lia
  | |- context [Z.testbit (Z.land ?a ?b) ?k] => rewrite (Z.land_spec a b k)
  | |- context [Z.testbit (Z.lor ?a ?b) ?k] => rewrite (Z.lor_spec a b k)
  | |- _ => case_Z
  end;
  rewrite ?andb_true_r, ?andb_false_r, ?orb_false_r, ?orb_false_l, ?andb_true_l, ?andb_false_l.
Ltac by_bits :=
  apply Z.bits_inj'; intros; repeat bit_step; first [reflexivity | lia | f_equal; lia].

Lemma field_field n p w q v : 0 ≤ p → 0 ≤ q → 0 ≤ v → q + v ≤ w → field (field n p w) q v = field n (p + q) v.
Proof. intros Hp Hq Hv Hw. by_bits. Qed.

Lemma field_shiftr n p w q : 0 ≤ p → 0 ≤ q ≤ w → Z.shiftr (field n p w) q = field n (p + q) (w - q).
Proof. intros Hp Hq. by_bits. Qed.

Lemma field_lor n p w v : 0 ≤ p → 0 ≤ w → 0 ≤ v →
  Z.lor (field n p w) (Z.shiftl (field n (p + w) v) w) = field n p (w + v).
Proof. intros Hp Hw Hv. by_bits. Qed.

Lemma field_whole n w : 0 ≤ w → 0 ≤ n < 2 ^ w → field n 0 w = n.
Proof. intros Hw Hn. rewrite field_mod by lia. rewrite Z.div_1_r. by apply Z.mod_small. Qed.

Lemma shl64_fits v n k : 0 ≤ n → 0 ≤ k → n + k ≤ 64 → 0 ≤ v < 2 ^ k → shl64 v n = Z.shiftl v n.
Proof.
  intros Hn Hk Hnk Hv. unfold shl64. change u64_max with (Z.ones 64). rewrite Z.land_ones, Z.shiftl_mul_pow2 by lia.
  apply Z.mod_small. pose proof (Z.pow_le_mono_r 2 (n + k) 64 ltac:(lia) ltac:(lia)) as Hp.
  rewrite Z.pow_add_r in Hp by lia. nia.
Qed.

(** High bits beside low bits add up. *)
Lemma lor_shiftl_add a v n : 0 ≤ n → 0 ≤ a < 2 ^ n → Z.lor a (Z.shiftl v n) = a + 2 ^ n * v.
Proof.
  intros Hn Ha. rewrite <- Z.add_nocarry_lor; [rewrite Z.shiftl_mul_pow2 by lia; lia|].
  apply Z.bits_inj'. intros i Hi. rewrite Z.land_spec, Z.testbit_0_l, Z.shiftl_spec by lia.
  destruct (Z.lt_ge_cases i n); [by rewrite (Z.testbit_neg_r v), andb_false_r by lia|].
  by rewrite (testbit_high a n) by lia.
Qed.

(** ** The number of a byte string *)

Section Numbers.
#[local] Transparent from_le.

Lemma from_le_nil : from_le [] = 0.
Proof. done. Qed.

Lemma from_le_single b : from_le [b] = byte.unsigned b.
Proof. apply LittleEndianList.le_combine_1. Qed.

Lemma from_le_lor a b : from_le (a ++ b) = Z.lor (from_le a) (Z.shiftl (from_le b) (8 * len a)).
Proof. unfold from_le, len. rewrite LittleEndianList.le_combine_app. f_equal. f_equal. lia. Qed.
End Numbers.

(** Bytes after a window leave its bits as they are. *)
Lemma field_app a b p w : 0 ≤ p → 0 ≤ w → p + w ≤ 8 * len a → field (from_le (a ++ b)) p w = field (from_le a) p w.
Proof.
  intros Hp Hw Hl. rewrite from_le_lor. apply Z.bits_inj'. intros i Hi. rewrite !field_spec, Z.lor_spec by lia.
  case_Z; [|by rewrite !andb_false_r]. rewrite Z.shiftl_spec, (Z.testbit_neg_r (from_le b)) by lia.
  by rewrite orb_false_r.
Qed.

(** Dropping bytes shifts the bits. *)
Lemma field_drop data n p w : 0 ≤ p → 0 ≤ w → 0 ≤ n ≤ len data →
  field (from_le (drop (Z.to_nat n) data)) p w = field (from_le data) (8 * n + p) w.
Proof.
  intros Hp Hw Hn. rewrite <- (take_drop (Z.to_nat n) data) at 2. rewrite from_le_lor.
  assert (len (take (Z.to_nat n) data) = n) as Hl by (unfold len in *; rewrite length_take; lia).
  pose proof (from_le_bound (take (Z.to_nat n) data) n Hl) as Hb. rewrite Hl.
  apply Z.bits_inj'. intros i Hi. rewrite !field_spec, Z.lor_spec by lia. case_Z; [|by rewrite !andb_false_r].
  rewrite Z.shiftl_spec, (testbit_high (from_le (take _ _)) (8 * n)) by lia.
  rewrite orb_false_l. do 2 f_equal. lia.
Qed.

Lemma byte_bound b : 0 ≤ byte.unsigned b < 2 ^ 8.
Proof. apply (byte.unsigned_range b). Qed.

Lemma lookup_field data k : 0 ≤ k →
  match data !! Z.to_nat k with Some b => byte.unsigned b | None => 0 end = field (from_le data) (8 * k) 8.
Proof.
  intros Hk. destruct (data !! Z.to_nat k) as [b|] eqn:Hb.
  - assert (k < len data) by (apply lookup_lt_Some in Hb; unfold len; lia).
    rewrite <- (Z.add_0_r (8 * k)), <- (field_drop data k 0 8) by lia. rewrite (drop_S _ _ _ Hb).
    change (b :: drop _ data) with ([b] ++ drop (S (Z.to_nat k)) data).
    rewrite (field_app [b]) by (try lia; by compute).
    rewrite from_le_single. symmetry. apply field_whole; [lia|apply byte_bound].
  - apply lookup_ge_None in Hb. assert (len data ≤ k) by (unfold len; lia).
    pose proof (from_le_bound data (len data) eq_refl) as Hbd. apply Z.bits_inj'. intros i Hi.
    pose proof (len_nonneg data). rewrite field_spec by lia. rewrite (testbit_high (from_le data) (8 * len data)) by lia. by rewrite Z.testbit_0_l.
Qed.

(** ** Unpacking *)

(** The accumulator holds the bits of [n] from [p] that were read and not used. *)
Record unpacking (n p : Z) (s : UnpackState) : Prop := {
  up_pos : 0 ≤ p;
  up_bits : 0 ≤ up_filled s;
  up_at : 8 * up_cursor s = p + up_filled s;
  up_value : up_accumulator s = field n p (up_filled s);
}.

Lemma unpack_fill_spec input width p : 0 ≤ width ≤ 32 → ∀ fuel s,
  unpacking (from_le input) p s → width - up_filled s ≤ Z.of_nat fuel →
  unpacking (from_le input) p (unpack_fill fuel input width s) ∧ width ≤ up_filled (unpack_fill fuel input width s).
Proof.
  intros Hw. induction fuel as [|fuel IH]; intros s [Hp Hf Ha Hv] Hfuel; cbn [unpack_fill]; [split; [done|lia]|].
  destruct (Z.ltb_spec (up_filled s) width); [|split; [done|lia]].
  apply IH; [|cbn; lia]. split; cbn; [done|lia|lia|]. rewrite lookup_field by lia.
  rewrite (shl64_fits _ _ 8) by (try apply field_bound; lia).
  rewrite Hv, Ha. apply field_lor; lia.
Qed.

Lemma mask_ones bits : 0 ≤ bits ≤ 32 → (if bits =? 32 then u32_max else Z.shiftl 1 bits - 1) = Z.ones bits.
Proof. intros H. case_Z; [by subst|]. unfold Z.ones. lia. Qed.

Lemma unpack_slots_spec input width slots : 0 < width ≤ 32 → ∀ p s,
  unpacking (from_le input) p s →
  unpack_slots input width (Z.ones width) slots s
  = (λ k, field (from_le input) (p + width * Z.of_nat k) width) <$> seq 0 (length slots).
Proof.
  intros Hw. induction slots as [|x slots IH]; intros p s Hs; cbn [unpack_slots]; [done|].
  destruct (unpack_fill_spec input width p ltac:(lia) (Z.to_nat (width - up_filled s)) s Hs ltac:(lia)) as [[Hp Hf Ha Hv] Hge].
  set (s' := unpack_fill _ _ _ _) in *. cbn [length seq fmap list_fmap]. f_equal.
  - rewrite Hv. change u32_max with (Z.ones 32). rewrite Z.mul_0_r, Z.add_0_r. by_bits.
  - rewrite (IH (p + width)).
    + rewrite <- (fmap_S_seq 0), <- list_fmap_compose. apply list_fmap_ext. intros i k _. cbn. f_equal. lia.
    + split; cbn; [lia|lia|lia|]. rewrite Hv. apply field_shiftr; lia.
Qed.

(** The first [count] fields of the input, whatever the slots held. *)
Definition fields (n bits : Z) (count : nat) : list Z := (λ k, field n (bits * Z.of_nat k) bits) <$> seq 0 count.

Lemma unpack_bits_spec input bits count : 0 ≤ bits ≤ 32 → 0 ≤ count → packed_len count bits ≤ len input →
  unpack_bits input bits count (replicate (Z.to_nat count) 0)
  = Ok (packed_len count bits, fields (from_le input) bits (Z.to_nat count)).
Proof.
  intros Hb Hc Hl. unfold unpack_bits, packed_len in *. rewrite take_ge, drop_ge, app_nil_r by (rewrite length_replicate; lia).
  decide_Z. case_Z.
  - subst bits. f_equal. f_equal. apply list_eq. intros i. unfold fields.
    rewrite !list_lookup_fmap. destruct (decide (i < Z.to_nat count)%nat) as [Hi|Hi].
    + rewrite lookup_replicate_2, lookup_seq_lt by lia. cbn. f_equal. by rewrite field_zero by lia.
    + rewrite (proj2 (lookup_ge_None _ i)) by (rewrite length_replicate; lia).
      by rewrite (proj2 (lookup_ge_None _ i)) by (rewrite length_seq; lia).
  - decide_Z. rewrite mask_ones by lia. do 2 f_equal.
    rewrite app_nil_r, (unpack_slots_spec input bits _ ltac:(lia) 0); [by rewrite length_replicate|].
    split; cbn; try lia. by rewrite field_zero.
Qed.

(** ** Reading one value *)

Lemma word_from_spec selected : ∀ offset word, 0 ≤ offset → 8 * (offset + len selected) ≤ 64 →
  word_from offset word selected = Z.lor word (Z.shiftl (from_le selected) (8 * offset)).
Proof.
  induction selected as [|b selected IH]; intros offset word Ho Hl; cbn [word_from].
  - by rewrite from_le_nil, Z.shiftl_0_l, Z.lor_0_r.
  - rewrite len_cons in Hl. pose proof (len_nonneg selected).
    rewrite IH by lia. rewrite (shl64_fits (byte.unsigned b) _ 8) by (try apply byte_bound; lia).
    change (b :: selected) with ([b] ++ selected). rewrite from_le_lor, from_le_single.
    rewrite Z.shiftl_lor, Z.shiftl_shiftl, Z.lor_assoc by (by compute).
    do 2 f_equal; [by rewrite Z.mul_comm|]. change (len [b]) with 1. lia.
Qed.

Lemma packed_value_at_spec data bits slot : 0 ≤ bits ≤ 32 → 0 ≤ slot → slot * bits + bits ≤ 8 * len data →
  8 * len data ≤ usize_max →
  packed_value_at data bits slot = Ok (field (from_le data) (bits * slot) bits).
Proof.
  intros Hb Hs Hl Hu. unfold packed_value_at. decide_Z. case_Z; [subst; by rewrite field_zero|].
  rewrite checked_mul_total by nia. rsimpl. rewrite checked_add_total by lia. rsimpl.
  rewrite (Z.mul_comm bits slot). assert (0 ≤ slot * bits) as H0 by nia. revert Hl H0.
  generalize (slot * bits) as first. intros first Hl H0.
  set (k := first / 8). set (m := (first + bits + 7) / 8).
  assert (0 ≤ k ∧ k ≤ m ∧ m ≤ len data ∧ m - k ≤ 5 ∧ first + bits ≤ 8 * m) as (Hk & Hkm & Hm & Hd & Hf)
    by (unfold k, m; split_and!; div_lia).
  unfold slice_range. decide_Z. rsimpl. set (sel := take _ (drop _ data)).
  assert (len sel = m - k) as Hsel by (unfold sel, len in *; rewrite length_take, length_drop; lia).
  f_equal. rewrite (word_from_spec sel 0 0), Z.lor_0_l, Z.shiftl_0_r by lia.
  rewrite (shl64_fits 1 bits 1) by lia. change u32_max with (Z.ones 32).
  assert (Z.shiftl 1 bits - 1 = Z.ones bits) as -> by (unfold Z.ones; lia).
  pose proof (Z.mod_pos_bound first 8 ltac:(lia)) as Hmod.
  assert (field (from_le data) first bits = field (from_le sel) (first mod 8) bits) as ->.
  { assert (first = 8 * k + first mod 8) as Hfk by (unfold k; div_lia). rewrite Hfk at 1.
    rewrite <- field_drop by lia. rewrite <- (take_drop (Z.to_nat (m - k)) (drop (Z.to_nat k) data)).
    fold sel. apply field_app; unfold k in *; div_lia. }
  by_bits.
Qed.

(** ** Packing *)

Lemma word_of_snoc bits values v : 0 ≤ bits →
  word_of bits (values ++ [v]) = word_of bits values + 2 ^ (bits * len values) * v.
Proof.
  intros Hb. induction values as [|x values IH]; cbn [word_of app].
  - change (len (@nil Z)) with 0. rewrite !Z.mul_0_r. change (2 ^ 0) with 1. lia.
  - rewrite IH, len_cons. pose proof (len_nonneg values).
    replace (bits * (1 + len values)) with (bits + bits * len values) by lia. rewrite Z.pow_add_r by nia. lia.
Qed.

Lemma word_of_bound bits values : 0 ≤ bits → Forall (λ v, 0 ≤ v < 2 ^ bits) values →
  0 ≤ word_of bits values < 2 ^ (bits * len values).
Proof.
  intros Hb. induction 1 as [|v values Hv _ IH]; cbn [word_of].
  - change (len (@nil Z)) with 0. rewrite !Z.mul_0_r. change (2 ^ 0) with 1. lia.
  - rewrite len_cons. pose proof (len_nonneg values).
    replace (bits * (1 + len values)) with (bits + bits * len values) by lia. rewrite Z.pow_add_r by nia. nia.
Qed.

(** The digits of the number are the values. *)
Lemma word_of_field bits values : 0 ≤ bits → Forall (λ v, 0 ≤ v < 2 ^ bits) values → ∀ k v,
  values !! k = Some v → field (word_of bits values) (bits * Z.of_nat k) bits = v.
Proof.
  intros Hb. induction 1 as [|x values Hx Hvs IH]; intros k v Hk; [done|]. cbn [word_of].
  rewrite field_mod by lia. destruct k as [|k]; cbn in Hk.
  - injection Hk as ->. rewrite Z.mul_0_r, Z.div_1_r, (Z.mul_comm (2 ^ bits)), Z.mod_add by lia.
    by apply Z.mod_small.
  - rewrite <- (IH k v Hk), field_mod by lia. f_equal.
    replace (bits * Z.of_nat (S k)) with (bits + bits * Z.of_nat k) by lia. rewrite Z.pow_add_r by lia.
    rewrite <- Z.div_div by lia. f_equal. rewrite Z.mul_comm, Z.div_add, Z.div_small by lia. lia.
Qed.

Lemma word_of_fields bits values : 0 ≤ bits → Forall (λ v, 0 ≤ v < 2 ^ bits) values →
  fields (word_of bits values) bits (length values) = values.
Proof.
  intros Hb Hv. apply list_eq. intros k. unfold fields. rewrite list_lookup_fmap.
  destruct (decide (k < length values)%nat) as [Hk|Hk].
  - rewrite lookup_seq_lt by done. destruct (lookup_lt_is_Some_2 _ _ Hk) as [v Hkv]. rewrite Hkv. cbn. f_equal.
    by apply word_of_field.
  - rewrite (proj2 (lookup_ge_None values k)) by lia.
    by rewrite (proj2 (lookup_ge_None _ k)) by (rewrite length_seq; lia).
Qed.

(** The packed form of a run. *)
Definition packed (values : list Z) (bits : Z) : bytes :=
  le_split (Z.to_nat (packed_len (len values) bits)) (word_of bits values).

Lemma packed_len_nonneg count bits : 0 ≤ count → 0 ≤ bits → 0 ≤ packed_len count bits.
Proof. intros Hc Hb. unfold packed_len. case_Z; [lia|]. apply Z.div_pos; nia. Qed.

Lemma packed_len_covers count bits : count * bits ≤ 8 * packed_len count bits.
Proof. unfold packed_len. case_Z; [subst; lia|]. generalize (count * bits). intros; div_lia. Qed.

Lemma packed_len_le count bits : 0 ≤ count → 0 ≤ bits ≤ 32 → packed_len count bits ≤ 4 * count.
Proof. intros Hc Hb. unfold packed_len. case_Z; [lia|]. assert (count * bits ≤ 32 * count) by nia. div_lia. Qed.

Lemma len_packed values bits : 0 ≤ bits → len (packed values bits) = packed_len (len values) bits.
Proof.
  intros Hb. unfold packed. rewrite len_le_split. pose proof (packed_len_nonneg (len values) bits (len_nonneg _) Hb). lia.
Qed.

Lemma packed_word values bits : 0 ≤ bits → Forall (λ v, 0 ≤ v < 2 ^ bits) values →
  from_le (packed values bits) = word_of bits values.
Proof.
  intros Hb Hv. unfold packed. #[local] Transparent from_le. unfold from_le.
  rewrite LittleEndianList.le_combine_split. apply Z.mod_small.
  pose proof (word_of_bound bits values Hb Hv) as [H0 H1]. split; [done|].
  eapply Z.lt_le_trans; [apply H1|]. apply Z.pow_le_mono_r; [lia|].
  pose proof (packed_len_covers (len values) bits). lia.
Qed.
#[local] Opaque from_le.

Lemma packed_unique b values bits : 0 ≤ bits → Forall (λ v, 0 ≤ v < 2 ^ bits) values →
  len b = packed_len (len values) bits → from_le b = word_of bits values → b = packed values bits.
Proof.
  intros Hb Hv Hl Hw. rewrite <- (packed_word values bits Hb Hv) in Hw.
  apply LittleEndianList.le_combine_inj; [|exact Hw].
  rewrite <- (len_packed values bits Hb) in Hl. unfold len in Hl. lia.
Qed.

(** The bytes a state has written hold the low bits of its number, its accumulator
    the bits that remain. *)
Record packing (bits : Z) (values : list Z) (output : bytes) (s : PackState) (tail : bytes) : Prop := {
  pk_writes : pk_output s = output ++ tail;
  pk_bits : 8 * len tail + pk_filled s = bits * len values;
  pk_some : 0 ≤ pk_filled s;
  pk_fits : 0 ≤ pk_accumulator s < 2 ^ pk_filled s;
  pk_word : from_le tail + 2 ^ (8 * len tail) * pk_accumulator s = word_of bits values;
}.

Lemma from_le_snoc a v : 0 ≤ v < 2 ^ 8 → from_le (a ++ [u8_byte v]) = from_le a + 2 ^ (8 * len a) * v.
Proof.
  intros Hv. rewrite from_le_lor, from_le_single. unfold u8_byte. rewrite byte.unsigned_of_Z. unfold byte.wrap.
  rewrite Z.mod_small by done. pose proof (len_nonneg a).
  apply lor_shiftl_add; [lia|]. by apply from_le_bound.
Qed.

Lemma pack_drain_spec bits values output : ∀ fuel s tail,
  packing bits values output s tail → pk_filled s ≤ Z.of_nat fuel →
  ∃ tail, packing bits values output (pack_drain fuel s) tail ∧ pk_filled (pack_drain fuel s) < 8.
Proof.
  induction fuel as [|fuel IH]; intros s tail Hs Hf; cbn [pack_drain]; [exists tail; split; [done|lia]|].
  destruct Hs as [Hw Hb H0 Ha Hv]. destruct (Z.leb_spec 8 (pk_filled s)); [|by exists tail].
  set (low := Z.land (pk_accumulator s) 255).
  assert (0 ≤ low < 2 ^ 8 ∧ pk_accumulator s = low + 2 ^ 8 * Z.shiftr (pk_accumulator s) 8) as [Hl Hacc].
  { unfold low. change 255 with (Z.ones 8). rewrite Z.land_ones, Z.shiftr_div_pow2 by lia.
    split; [apply Z.mod_pos_bound; lia|]. rewrite Z.add_comm. apply Z.div_mod. lia. }
  apply (IH _ (tail ++ [u8_byte low])); [|cbn; lia]. pose proof (len_nonneg tail). split; cbn.
  - by rewrite Hw, <- app_assoc.
  - rewrite len_app. change (len [u8_byte low]) with 1. lia.
  - lia.
  - rewrite Z.shiftr_div_pow2 by lia. split; [apply Z.div_pos; lia|]. apply Z.div_lt_upper_bound; [lia|].
    rewrite <- Z.pow_add_r by lia. replace (8 + (pk_filled s - 8)) with (pk_filled s) by lia. lia.
  - rewrite from_le_snoc, len_app by done. change (len [u8_byte low]) with 1.
    replace (8 * (len tail + 1)) with (8 * len tail + 8) by lia. rewrite Z.pow_add_r by lia.
    rewrite <- Hv. transitivity (from_le tail + 2 ^ (8 * len tail) * (low + 2 ^ 8 * Z.shiftr (pk_accumulator s) 8)); [lia|].
    by rewrite <- Hacc.
Qed.

Lemma pack_value_spec bits values output s tail v : 0 < bits ≤ 32 → pk_filled s < 8 → 0 ≤ v < 2 ^ bits →
  packing bits values output s tail →
  ∃ tail, packing bits (values ++ [v]) output (pack_value bits s v) tail ∧ pk_filled (pack_value bits s v) < 8.
Proof.
  intros Hb Hf Hv [Hw Hbits H0 Ha Hword]. unfold pack_value.
  apply (pack_drain_spec _ _ _ _ _ tail); [|cbn; lia]. pose proof (len_nonneg tail). pose proof (len_nonneg values).
  rewrite (shl64_fits v _ bits), lor_shiftl_add by lia. split; cbn; [done| |lia| |].
  - rewrite len_app. change (len [v]) with 1. lia.
  - rewrite Z.pow_add_r by lia. nia.
  - rewrite word_of_snoc, <- Hword, <- Hbits, Z.pow_add_r by lia. lia.
Qed.

Lemma pack_fold_spec bits output : 0 < bits ≤ 32 → ∀ values, Forall (λ v, 0 ≤ v < 2 ^ bits) values →
  let s := fold_left (pack_value bits) values {| pk_accumulator := 0; pk_filled := 0; pk_output := output |} in
  ∃ tail, packing bits values output s tail ∧ pk_filled s < 8.
Proof.
  intros Hb values. induction values as [|v values IH] using rev_ind; intros Hv.
  - exists []. split; [|done]. split; cbn; [by rewrite app_nil_r|unfold len; cbn; lia|done|lia|].
    rewrite from_le_nil. lia.
  - apply Forall_app in Hv as [Hvs Hx]. apply (proj1 (Forall_singleton _ _)) in Hx. destruct (IH Hvs) as (tail & Hs & Hf).
    rewrite fold_left_app. cbn [fold_left]. cbv zeta. exact (pack_value_spec bits values output _ tail v Hb Hf Hx Hs).
Qed.

Section Settles.
Context {W E : Type} (check : W → W * result E unit).

(** Packing appends the packed form. *)
Lemma settles_pack values bits output : 0 ≤ bits ≤ 32 → Forall (λ v, 0 ≤ v < 2 ^ bits) values →
  settles check (pack_bits_controlled check values bits output) (Ok (output ++ packed values bits)).
Proof.
  intros Hb Hv. unfold pack_bits_controlled. case_Z.
  { subst. unfold packed, packed_len. cbn. rewrite app_nil_r. apply settles_ret. }
  eapply settles_bind; [apply (settles_fold _ _ (pack_value bits))|].
  { intros b a _. eapply settles_bind; [apply settles_step|apply settles_ret]. }
  destruct (pack_fold_spec bits output ltac:(lia) values Hv) as (tail & [Hw Hbits H0 Ha Hword] & Hf).
  set (s := fold_left _ _ _) in *.
  match goal with |- settles _ (run_ret ?x) _ => assert (x = output ++ packed values bits) as ->; [|apply settles_ret] end.
  rewrite Hw. pose proof (len_nonneg tail). case_Z; [rewrite <- app_assoc|]; f_equal; apply (packed_unique _ _ bits (proj1 Hb) Hv).
  - rewrite len_app. change (len [_]) with 1. unfold packed_len. decide_Z. rewrite Z.mul_comm, <- Hbits. div_lia.
  - assert (2 ^ pk_filled s ≤ 2 ^ 8) by (apply Z.pow_le_mono_r; lia).
    change 255 with (Z.ones 8). rewrite Z.land_ones, Z.mod_small by lia. rewrite from_le_snoc by lia. done.
  - unfold packed_len. decide_Z. rewrite Z.mul_comm, <- Hbits. div_lia.
  - assert (pk_filled s = 0) as H' by lia. rewrite H' in Ha. change (2 ^ 0) with 1 in Ha. nia.
Qed.

(** The width covers every value. *)
Definition width_of (values : list Z) : Z :=
  let maximum := fold_left Z.max values 0 in
  if maximum =? 0 then 0 else default 32 (try_from u8_max (32 - leading_zeros32 maximum)).

Lemma settles_required_bits values : settles check (required_bits_controlled check values) (Ok (width_of values)).
Proof.
  unfold required_bits_controlled. eapply settles_bind; [apply (settles_fold _ _ Z.max)|apply settles_ret].
  intros b a _. eapply settles_bind; [apply settles_step|apply settles_ret].
Qed.
End Settles.

Lemma fold_max_bounds m values : ∀ b, 0 ≤ b ≤ m → Forall (λ v, 0 ≤ v ≤ m) values →
  b ≤ fold_left Z.max values b ≤ m ∧ Forall (λ v, v ≤ fold_left Z.max values b) values.
Proof.
  induction values as [|v values IH]; intros b Hb Hv; cbn [fold_left]; [split; [lia|constructor]|].
  apply Forall_cons in Hv as [Hv Hvs]. destruct (IH (b `max` v) ltac:(lia) Hvs) as [H1 H2].
  split; [lia|]. constructor; [lia|done].
Qed.

Lemma width_of_spec values : Forall is_u32 values →
  0 ≤ width_of values ≤ 32 ∧ Forall (λ v, 0 ≤ v < 2 ^ width_of values) values.
Proof.
  intros Hv. destruct (fold_max_bounds u32_max values 0 ltac:(by_compute) Hv) as [Hm Hall].
  assert (0 ≤ width_of values ≤ 32 ∧ fold_left Z.max values 0 < 2 ^ width_of values) as [Hw Hlt].
  { unfold width_of. cbv zeta. revert Hm. generalize (fold_left Z.max values 0) as m. intros m Hm.
    destruct (Z.eqb_spec m 0) as [->|Hz]; [done|]. pose proof (Z.log2_spec m ltac:(lia)) as [_ Hl].
    assert (Z.log2 m ≤ 31) as Hlog by (change 31 with (Z.log2 u32_max); apply Z.log2_le_mono; lia).
    pose proof (Z.log2_nonneg m). unfold leading_zeros32. rewrite try_from_total by (unfold u8_max; lia). cbn [default from_option id].
    replace (32 - (31 - Z.log2 m)) with (Z.succ (Z.log2 m)) by lia. lia. }
  split; [done|]. rewrite Forall_forall in *. intros v Hin. specialize (Hv v Hin). specialize (Hall v Hin). unfold is_u32 in *. lia.
Qed.
