(* ===== verification/PostingsEncode.v ===== *)
(** * What the posting encoder writes

    The encoder of [Postings] in closed form.  A list is cut into blocks, each with
    the document id it counts from; a block contributes one packed piece to each of
    the three streams and one metadata row that says where its pieces start. *)

From S2P Require Import Prelude WorkCheck Postings PostingsBits.
From coqutil Require Import Byte.

(** ** Well-formed lists *)

Record posting_ok (p : Posting) : Prop := {
  po_docid_ok : is_u32 (po_docid p);
  po_tf_ok : po_tf p = len (po_positions p);
  po_some : po_positions p ≠ [];
  po_positions_ok : Forall is_u32 (po_positions p);
  po_ascending : StronglySorted Z.lt (po_positions p);
}.

Definition ascending (ps : list Posting) : Prop := StronglySorted Z.lt (po_docid <$> ps).

(** The positions of a list, all together. *)
Definition position_total (ps : list Posting) : Z := len (concat (po_positions <$> ps)).

(** The lists an index holds, of a size whose streams a [u32] offset reaches. *)
Record postings_ok (ps : list Posting) : Prop := {
  ps_each : Forall posting_ok ps;
  ps_ascending : ascending ps;
  ps_size : 4 * position_total ps ≤ u32_max;
}.

(** ** Blocks *)

Fixpoint gaps (base : Z) (l : list Z) : list Z :=
  match l with
  | [] => []
  | x :: l => saturating_sub x base :: gaps x l
  end.

(** A chunk and the document id before it. *)
Abbreviation Block := (Z * list Posting)%type.

Definition last_docid (base : Z) (chunk : list Posting) : Z :=
  match last chunk with Some p => po_docid p | None => base end.

Fixpoint with_bases (base : Z) (cs : list (list Posting)) : list Block :=
  match cs with
  | [] => []
  | c :: cs => (base, c) :: with_bases (last_docid base c) cs
  end.

Definition block_deltas (b : Block) : list Z := gaps b.1 (po_docid <$> b.2).
Definition block_tfs (b : Block) : list Z := po_tf <$> b.2.
Definition block_gaps (b : Block) : list Z := concat ((λ p, gaps 0 (po_positions p)) <$> b.2).

(** The packed form of a column at its own width. *)
Definition piece (values : list Z) : bytes := packed values (width_of values).

Definition block_meta (block_maxima : list Z) (impacts : list BlockImpact) (index d t p : Z) (b : Block)
  : BlockMeta := {|
  bm_last_docid := last_docid b.1 b.2;
  bm_docids_offset := d;
  bm_tfs_offset := t;
  bm_positions_offset := p;
  bm_positions_count := len (block_gaps b);
  bm_count := len b.2;
  bm_docid_bits := width_of (block_deltas b);
  bm_tf_bits := width_of (block_tfs b);
  bm_position_bits := width_of (block_gaps b);
  bm_block_max := block_max_at block_maxima index;
  bm_max_tf := bi_max_tf (impact_at impacts index);
  bm_min_len := bi_min_len (impact_at impacts index) |}.

Fixpoint metas (block_maxima : list Z) (impacts : list BlockImpact) (index d t p : Z) (bs : list Block)
  : list BlockMeta :=
  match bs with
  | [] => []
  | b :: bs =>
      block_meta block_maxima impacts index d t p b
      :: metas block_maxima impacts (index + 1) (d + len (piece (block_deltas b)))
           (t + len (piece (block_tfs b))) (p + len (piece (block_gaps b))) bs
  end.

Definition stream (column : Block → list Z) (bs : list Block) : bytes := concat ((λ b, piece (column b)) <$> bs).

(** ** The columns of a block *)

Lemma gaps_length base l : length (gaps base l) = length l.
Proof. revert base. induction l; intros; cbn; [done|]. by f_equal. Qed.

Lemma gaps_app base l k : gaps base (l ++ k) = gaps base l ++ gaps (default base (last l)) k.
Proof.
  revert base. induction l as [|x l IH]; intros base; [done|]. cbn [gaps app]. f_equal. rewrite IH. do 2 f_equal.
  rewrite last_cons. by destruct (last l).
Qed.

Lemma gaps_u32 base l : 0 ≤ base → Forall is_u32 l → Forall is_u32 (gaps base l).
Proof.
  intros Hb Hl. revert base Hb. induction Hl as [|x l Hx _ IH]; intros base Hb; cbn; [constructor|].
  unfold is_u32 in *. constructor; [unfold saturating_sub; lia|]. apply IH. lia.
Qed.

Section Columns.
Context {W E : Type} (check : W → W * result E unit).

(** The innermost loop appends the gaps of one posting. *)
Lemma settles_encode_positions out positions : Forall is_u32 positions →
  settles check (encode_positions check out positions) (Ok (out ++ gaps 0 positions)).
Proof.
  intros Hp. unfold encode_positions.
  eapply settles_bind.
  { apply (settles_fold _ _ (λ '(gaps, previous) '(slot, position),
      (gaps ++ [if slot =? 0 then position else saturating_sub position previous], position))).
    intros [g previous] [slot position] _. eapply settles_bind; [apply settles_step|apply settles_ret]. }
  match goal with |- settles _ (run_ret (?s.1)) _ => assert (s.1 = out ++ gaps 0 positions) as ->; [|apply settles_ret] end.
  assert (∀ i prev g, 0 ≤ i → (i = 0 → prev = 0) →
    (fold_left (λ '(gaps, previous) '(slot, position),
      (gaps ++ [if slot =? 0 then position else saturating_sub position previous], position))
      (enumerate_from i positions) (g, prev)).1 = g ++ gaps prev positions) as H.
  { induction Hp as [|x l Hx _ IH]; intros i prev g Hi H0; cbn [enumerate_from fold_left gaps]; [by rewrite app_nil_r|].
    rewrite IH by lia. rewrite <- app_assoc. cbn [app]. do 2 f_equal. case_Z; [|done].
    unfold is_u32, saturating_sub in *. rewrite H0 by done. lia. }
  by apply H.
Qed.

(** The columns of a block so far, beside those of the postings to come. *)
Definition columns_of (base : Z) (chunk : list Posting) : BlockColumns :=
  {| bc_deltas := block_deltas (base, chunk); bc_frequencies := block_tfs (base, chunk);
     bc_positions := block_gaps (base, chunk); bc_base := last_docid base chunk |}.

Lemma columns_snoc base chunk p :
  columns_of base (chunk ++ [p]) = {|
    bc_deltas := bc_deltas (columns_of base chunk) ++ [saturating_sub (po_docid p) (last_docid base chunk)];
    bc_frequencies := bc_frequencies (columns_of base chunk) ++ [po_tf p];
    bc_positions := bc_positions (columns_of base chunk) ++ gaps 0 (po_positions p);
    bc_base := po_docid p |}.
Proof.
  unfold columns_of, block_deltas, block_tfs, block_gaps, last_docid. cbn.
  rewrite !fmap_app, gaps_app, concat_app, last_snoc, fmap_last. cbn. rewrite app_nil_r.
  by destruct (last chunk).
Qed.

Lemma enumerate_from_app {A} i (l k : list A) :
  enumerate_from i (l ++ k) = enumerate_from i l ++ enumerate_from (i + len l) k.
Proof.
  revert i. induction l as [|x l IH]; intros i; cbn [enumerate_from app]; [by rewrite Z.add_0_r|].
  f_equal. rewrite IH, len_cons. do 2 f_equal. lia.
Qed.

Lemma run_fold_app {A B} (f : B → A → RunE (WorkCheck W) E B) l k b :
  ∀ w, run_fold f (l ++ k) b w = run_bind (run_fold f l b) (run_fold f k) w.
Proof.
  revert b. induction l as [|a l IH]; intros b w; [done|]. cbn [run_fold app]. unfold run_bind at 1 2 3.
  destruct (f b a w) as [w' [b'|e]]; [|done]. by rewrite IH.
Qed.

Lemma settles_ext {A} (m m' : RunE (WorkCheck W) E A) r : (∀ w, m w = m' w) → settles check m' r → settles check m r.
Proof. intros H Hm w. rewrite H. apply Hm. Qed.

(** The loop over a block's postings builds its columns.  The first posting of the
    list is stored absolutely, which is its gap from zero. *)
Lemma settles_columns index base chunk : (index = 0 → base = 0) → Forall posting_ok chunk →
  settles check (run_fold (encode_posting check index) (enumerate_from 0 chunk)
    {| bc_deltas := []; bc_frequencies := []; bc_positions := []; bc_base := base |})
    (Ok (columns_of base chunk)).
Proof.
  intros Hi. induction chunk as [|p chunk IH] using rev_ind; intros Hc; [apply settles_ret|].
  apply Forall_app in Hc as [Hc Hp]. apply (proj1 (Forall_singleton _ _)) in Hp.
  rewrite enumerate_from_app. eapply settles_ext; [apply run_fold_app|]. eapply settles_bind; [by apply IH|].
  cbn [enumerate_from run_fold]. eapply settles_bind; [|apply settles_ret]. unfold encode_posting.
  eapply settles_bind; [apply settles_step|]. eapply settles_bind; [apply settles_encode_positions, Hp|].
  rewrite columns_snoc. cbn. rewrite Z.add_0_l.
  replace (if (index =? 0) && (len chunk =? 0) then po_docid p else saturating_sub (po_docid p) (last_docid base chunk))
    with (saturating_sub (po_docid p) (last_docid base chunk)); [apply settles_ret|].
  destruct Hp as [[Hd _] _ _ _ _].
  destruct (Z.eqb_spec index 0) as [->|], (Z.eqb_spec (len chunk) 0) as [Hl|]; try done. cbn.
  apply len_zero_nil in Hl as ->. unfold last_docid, saturating_sub. cbn. rewrite Hi by done. lia.
Qed.
End Columns.

(** ** The blocks of a list *)

(** A block whose columns fit: its postings are well formed and it counts from a
    [u32]. *)
Definition block_ok (b : Block) : Prop := is_u32 b.1 ∧ Forall posting_ok b.2.

Lemma posting_tf_u32 p : posting_ok p → len (po_positions p) ≤ u32_max → is_u32 (po_tf p).
Proof. intros Hp Hl. rewrite (po_tf_ok p Hp). split; [apply len_nonneg|done]. Qed.

Lemma position_total_app ps qs : position_total (ps ++ qs) = position_total ps + position_total qs.
Proof. unfold position_total. by rewrite fmap_app, concat_app, len_app. Qed.

Lemma position_total_nonneg ps : 0 ≤ position_total ps.
Proof. apply len_nonneg. Qed.

Lemma position_total_cons p ps : position_total (p :: ps) = len (po_positions p) + position_total ps.
Proof. unfold position_total. cbn. by rewrite len_app. Qed.

Lemma position_total_covers ps : Forall posting_ok ps → len ps ≤ position_total ps.
Proof.
  induction 1 as [|p ps Hp _ IH]; [done|]. rewrite len_cons, position_total_cons.
  assert (1 ≤ len (po_positions p)); [|lia]. destruct (po_positions p) eqn:H; [by destruct (po_some p Hp)|].
  rewrite len_cons. pose proof (len_nonneg l). lia.
Qed.

Lemma len_block_gaps b : len (block_gaps b) = position_total b.2.
Proof.
  unfold block_gaps, position_total. induction b.2 as [|p ps IH]; [done|]. cbn. rewrite !len_app, IH.
  f_equal. unfold len. by rewrite gaps_length.
Qed.

Lemma block_deltas_u32 b : block_ok b → Forall is_u32 (block_deltas b).
Proof.
  intros [[Hb _] Hp]. apply gaps_u32; [done|]. apply Forall_fmap. eapply Forall_impl; [exact Hp|]. by intros p [].
Qed.

Lemma block_tfs_u32 b : block_ok b → position_total b.2 ≤ u32_max → Forall is_u32 (block_tfs b).
Proof.
  intros [_ Hp] Ht. unfold block_tfs. apply Forall_fmap. induction Hp as [|p ps Hp _ IH]; [constructor|].
  rewrite position_total_cons in Ht. pose proof (position_total_nonneg ps). pose proof (len_nonneg (po_positions p)).
  constructor; [apply posting_tf_u32; [done|lia]|]. apply IH. lia.
Qed.

Lemma block_gaps_u32 b : block_ok b → Forall is_u32 (block_gaps b).
Proof.
  intros [_ Hp]. unfold block_gaps. induction Hp as [|p ps Hp _ IH]; [constructor|]. cbn.
  apply Forall_app_2; [|done]. apply gaps_u32; [lia|]. apply Hp.
Qed.

Lemma len_piece values : Forall is_u32 values → 0 ≤ len (piece values) ≤ 4 * len values.
Proof.
  intros Hv. destruct (width_of_spec values Hv) as [Hw _]. unfold piece. rewrite len_packed by lia.
  split; [apply packed_len_nonneg; [apply len_nonneg|lia]|]. apply packed_len_le; [apply len_nonneg|lia].
Qed.

Lemma last_docid_u32 b : block_ok b → is_u32 (last_docid b.1 b.2).
Proof.
  intros [Hb Hp]. unfold last_docid. destruct (last b.2) as [p|] eqn:H; [|done].
  rewrite Forall_forall in Hp. by destruct (Hp p (last_Some_elem_of _ _ H)).
Qed.

Section Blocks.
Context {W E : Type} (check : W → W * result E unit) (block_maxima : list Z) (impacts : list BlockImpact).

(** A block appends its pieces and its row. *)
Definition block_step (s : EncodeState) (index : Z) (chunk : list Posting) : EncodeState :=
  let b := (es_previous s, chunk) in
  {| es_docids := es_docids s ++ piece (block_deltas b);
     es_tfs := es_tfs s ++ piece (block_tfs b);
     es_positions := es_positions s ++ piece (block_gaps b);
     es_metadata := es_metadata s ++ [block_meta block_maxima impacts index (len (es_docids s))
                                        (len (es_tfs s)) (len (es_positions s)) b];
     es_previous := last_docid (es_previous s) chunk |}.

Lemma saturate_fits m n : 0 ≤ n ≤ m → saturate m n = n.
Proof. intros H. unfold saturate. by rewrite try_from_total. Qed.

Lemma settles_piece values output : Forall is_u32 values →
  settles check (pack_bits_controlled check values (width_of values) output) (Ok (output ++ piece values)).
Proof. intros Hv. destruct (width_of_spec values Hv). by apply settles_pack. Qed.

Lemma settles_encode_block s index chunk :
  (index = 0 → es_previous s = 0) → block_ok (es_previous s, chunk) → position_total chunk ≤ u32_max →
  len chunk ≤ u16_max → len (es_docids s) ≤ u32_max → len (es_tfs s) ≤ u32_max → len (es_positions s) ≤ u32_max →
  settles check (encode_block check block_maxima impacts s (index, chunk)) (Ok (block_step s index chunk)).
Proof.
  intros Hi Hb Ht Hc Hd Htf Hp. unfold encode_block. pose proof (len_block_gaps (es_previous s, chunk)) as Hg.
  eapply settles_bind; [apply settles_step|]. eapply settles_bind; [apply settles_columns; [done|apply Hb]|].
  do 3 (eapply settles_bind; [apply settles_required_bits|]). cbn [columns_of bc_deltas bc_frequencies bc_positions bc_base].
  eapply settles_bind; [by apply settles_piece, block_deltas_u32|].
  eapply settles_bind; [by apply settles_piece, block_tfs_u32|].
  eapply settles_bind; [by apply settles_piece, block_gaps_u32|].
  rewrite !saturate_fits by (cbn in *; rewrite ?Hg; split; [apply len_nonneg || apply position_total_nonneg|done]).
  apply settles_ret.
Qed.

(** The streams of the blocks still to come, after those already written. *)
Definition blocks_state (s : EncodeState) (index : Z) (cs : list (list Posting)) : EncodeState :=
  let bs := with_bases (es_previous s) cs in
  {| es_docids := es_docids s ++ stream block_deltas bs;
     es_tfs := es_tfs s ++ stream block_tfs bs;
     es_positions := es_positions s ++ stream block_gaps bs;
     es_metadata := es_metadata s ++ metas block_maxima impacts index (len (es_docids s)) (len (es_tfs s))
                      (len (es_positions s)) bs;
     es_previous := last_docid (es_previous s) (concat cs) |}.

Lemma blocks_state_cons s index c cs :
  blocks_state s index (c :: cs) = blocks_state (block_step s index c) (index + 1) cs.
Proof.
  unfold blocks_state, stream. cbn. rewrite !len_app, <- !app_assoc. f_equal.
  unfold last_docid. rewrite last_app. by destruct (last (concat cs)).
Qed.

(** Bytes of the streams are at most four per position. *)
Lemma settles_encode_blocks cs : ∀ s index, 0 ≤ index → (index = 0 → es_previous s = 0) → is_u32 (es_previous s) →
  Forall (λ c, Forall posting_ok c ∧ len c ≤ u16_max) cs →
  len (es_docids s) + 4 * position_total (concat cs) ≤ u32_max →
  len (es_tfs s) + 4 * position_total (concat cs) ≤ u32_max →
  len (es_positions s) + 4 * position_total (concat cs) ≤ u32_max →
  settles check (run_fold (encode_block check block_maxima impacts) (enumerate_from index cs) s)
    (Ok (blocks_state s index cs)).
Proof.
  induction cs as [|c cs IH]; intros s index Hpos Hi Hprev Hcs Hd Ht Hp; cbn [enumerate_from run_fold].
  - unfold blocks_state, stream. cbn. rewrite !app_nil_r. destruct s. apply settles_ret.
  - apply Forall_cons in Hcs as [[Hc Hlen] Hcs]. cbn [concat] in *. rewrite position_total_app in *.
    pose proof (position_total_nonneg c). pose proof (position_total_nonneg (concat cs)).
    assert (block_ok (es_previous s, c)) as Hb by done.
    pose proof (position_total_covers c Hc). pose proof (len_nonneg (es_docids s)).
    eapply settles_bind; [apply settles_encode_block; (done || lia)|].
    rewrite blocks_state_cons.
    pose proof (len_piece _ (block_deltas_u32 _ Hb)) as P1.
    pose proof (len_piece _ (block_tfs_u32 _ Hb ltac:(cbn; lia))) as P2.
    pose proof (len_piece _ (block_gaps_u32 _ Hb)) as P3.
    rewrite len_block_gaps in P3. cbn [snd] in P3.
    assert (len (block_deltas (es_previous s, c)) = len c) as L1
      by (unfold len, block_deltas; rewrite gaps_length, length_fmap; done).
    assert (len (block_tfs (es_previous s, c)) = len c) as L2 by (unfold block_tfs; by rewrite len_fmap).
    rewrite L1 in P1. rewrite L2 in P2.
    apply IH; cbn [block_step es_previous es_docids es_tfs es_positions]; rewrite ?len_app; try (done || lia || (intros; lia)).
    apply (last_docid_u32 _ Hb).
Qed.
End Blocks.

(** ** The whole list *)

Lemma chunked_bound {A} (n : Z) (l : list A) : 0 < n → Forall (λ c, c ≠ [] ∧ len c ≤ n) (chunked n l).
Proof.
  intros Hn. unfold chunked. generalize (length l) as fuel. intros fuel. revert l.
  induction fuel as [|fuel IH]; intros l; cbn; [constructor|]. destruct l as [|x l]; [constructor|].
  constructor; [|apply IH]. split; [|unfold len; rewrite length_take; lia].
  by destruct (Z.to_nat n) as [|k] eqn:H; [lia|].
Qed.

Lemma chunked_Forall {A} (P : A → Prop) n l : 0 < n → Forall P l → Forall (Forall P) (chunked n l).
Proof. intros Hn H. rewrite <- (chunked_concat n l Hn) in H. by apply Forall_concat. Qed.

(** The blocks of a list. *)
Definition blocks_of (per_block : Z) (ps : list Posting) : list Block := with_bases 0 (chunked per_block ps).

Definition encoded_bytes (ps : list Posting) (per_block : Z) (block_maxima : list Z)
    (impacts : list BlockImpact) (version : Z) : bytes :=
  let bs := blocks_of per_block ps in
  POSTINGS_MAGIC ++ u16_le version ++ u16_le per_block ++ u32_le (len ps) ++ u32_le (len bs)
  ++ concat (meta_write <$> metas block_maxima impacts 0 0 0 0 bs)
  ++ stream block_deltas bs ++ stream block_tfs bs ++ stream block_gaps bs.

Lemma len_with_bases base cs : len (with_bases base cs) = len cs.
Proof. revert base. induction cs as [|c cs IH]; intros base; [done|]. cbn [with_bases]. by rewrite !len_cons, IH. Qed.

Lemma len_metas bm im i d t p bs : len (metas bm im i d t p bs) = len bs.
Proof. revert i d t p. induction bs as [|b bs IH]; intros; [done|]. cbn [metas]. by rewrite !len_cons, IH. Qed.

Lemma len_chunked_le {A} n (l : list A) : 0 < n → len (chunked n l) ≤ len l.
Proof.
  intros Hn. rewrite <- (chunked_concat n l Hn) at 2. pose proof (chunked_bound n l Hn) as H.
  induction H as [|c cs [Hc _] _ IH]; [done|]. cbn [concat]. rewrite len_cons, len_app.
  destruct c as [|x c]; [done|]. rewrite len_cons. pose proof (len_nonneg c). lia.
Qed.

Lemma fold_app_concat {A} (f : A → bytes) l out : fold_left (λ b a, b ++ f a) l out = out ++ concat (f <$> l).
Proof. revert out. induction l as [|a l IH]; intros out; cbn; [by rewrite app_nil_r|]. by rewrite IH, <- app_assoc. Qed.

Section Whole.
Context {W E : Type} (check : W → W * result E unit) (from : PostingsError → E).

(** The encoder writes the closed form, unless its callback stops it. *)
Lemma settles_encode_versioned ps per_block block_maxima impacts version :
  postings_ok ps → 0 < per_block ≤ u16_max →
  settles check (encode_versioned check from ps per_block block_maxima impacts version)
    (Ok {| ep_bytes := encoded_bytes ps per_block block_maxima impacts version |}).
Proof.
  intros [Heach Hasc Hsize] Hpb. unfold encode_versioned. eapply settles_bind; [apply settles_check|]. decide_Z.
  pose proof (position_total_nonneg ps). pose proof (position_total_covers ps Heach).
  pose proof (len_nonneg ps). pose proof (len_chunked_le per_block ps ltac:(lia)). pose proof (len_nonneg (chunked per_block ps)).
  eapply settles_bind.
  { apply settles_encode_blocks; cbn [es_previous es_docids es_tfs es_positions];
      rewrite ?(chunked_concat per_block ps) by lia; try (done || (change (len (@nil byte)) with 0; lia)).
    pose proof (chunked_bound per_block ps ltac:(lia)) as Hb.
    pose proof (chunked_Forall _ per_block ps ltac:(lia) Heach) as Hf.
    rewrite Forall_forall in *. intros c Hc. specialize (Hb c Hc). split; [by apply Hf|lia]. }
  cbn [blocks_state es_previous es_docids es_tfs es_positions es_metadata app].
  eapply settles_bind; [apply (settles_fold _ _ (λ b a, b ++ meta_write a))|].
  { intros b a _. eapply settles_bind; [apply settles_step|apply settles_ret]. }
  do 3 (eapply settles_bind; [apply settles_extend|]). eapply settles_bind; [apply settles_check|].
  rewrite fold_app_concat, len_metas, len_with_bases, !saturate_fits by lia.
  unfold encoded_bytes, blocks_of. rewrite len_with_bases, <- !app_assoc. apply settles_ret.
Qed.
End Whole.

(** * The posting reader under a callback, and opening an encoded list

    The controlled operations of the reader in pure form, and [open] on what the
    encoder writes: it accepts the bytes and finds every row and every stream. *)

(** ** The operations without a callback *)

Fixpoint fold_result {A B} (g : B → A → result PostingsError B) (l : list A) (b : B) : result PostingsError B :=
  match l with
  | [] => Ok b
  | a :: l => b ← g b a; fold_result g l b
  end.

Definition open_pure (data : bytes) : result PostingsError PostingsReader :=
  '(version, postings_per_block, posting_count, block_count) ← open_header data;
  '(metadata, metadata_end) ← open_metadata data block_count;
  s ← fold_result (open_row metadata postings_per_block posting_count) (seqZ 0 block_count) open_new;
  if negb (op_described s =? posting_count) then Err (InconsistentPostingCount posting_count (op_described s))
  else
    '(docids, tfs, positions) ← open_streams data metadata_end s;
    Ok {| pr_version := version; pr_blocks := op_blocks s; pr_docids := docids; pr_tfs := tfs;
          pr_positions := positions; pr_posting_count := posting_count;
          pr_postings_per_block := postings_per_block |}.

Fixpoint locate_pure (r : PostingsReader) (meta : BlockMeta) (docids tfs : bytes) (row : Z)
    (slots : list Z) (s : MemberWalk) : result PostingsError (option RowPositions) :=
  match slots with
  | [] => Ok None
  | slot :: slots =>
      s ← locate_member r meta docids tfs row s slot;
      match mw_answer s with
      | Some answer => Ok answer
      | None => locate_pure r meta docids tfs row slots s
      end
  end.

(** The document id a block counts from. *)
Definition base_docid (blocks : list BlockMeta) (block : nat) : Z :=
  match block with
  | O => 0
  | S previous => match blocks !! previous with Some m => bm_last_docid m | None => 0 end
  end.

Definition positions_pure (r : PostingsReader) (row : Z) : result PostingsError (option RowPositions) :=
  let block := partition_point (λ meta, bm_last_docid meta <? row) (pr_blocks r) in
  match pr_blocks r !! block with
  | None => Ok None
  | Some meta =>
      docids ← ok_or (slice_from (pr_docids r) (bm_docids_offset meta))
        (PostingsTruncated (bm_docids_offset meta) (len (pr_docids r)));
      tfs ← ok_or (slice_from (pr_tfs r) (bm_tfs_offset meta))
        (PostingsTruncated (bm_tfs_offset meta) (len (pr_tfs r)));
      locate_pure r meta docids tfs row (seqZ 0 (bm_count meta))
        {| mw_docid := base_docid (pr_blocks r) block; mw_first := 0; mw_answer := None |}
  end.

Definition decode_pure (v : RowPositions) : result PostingsError (list Z) :=
  s ← fold_result (decode_position v) (seqZ 0 (rp_count v)) ([], 0);
  Ok s.1.

Section Pure.
Context {W E : Type} (check : W → W * result E unit) (from : PostingsError → E).

Lemma map_err_ok_or {A} (o : option A) (e : PostingsError) : map_err from (ok_or o e) = ok_or o (from e).
Proof. by destruct o. Qed.

Lemma map_err_bind {A B} (r : result PostingsError A) (f : A → result PostingsError B) :
  map_err from (r ≫= f) = map_err from r ≫= (λ a, map_err from (f a)).
Proof. by destruct r. Qed.

Lemma settles_lift_bind {A B} (r : result PostingsError A) (k : A → RunE (WorkCheck W) E B) f :
  (∀ a, r = Ok a → settles check (k a) (map_err from (f a))) →
  settles check (run_bind (run_lift (map_err from r)) k) (map_err from (r ≫= f)).
Proof.
  intros H. rewrite map_err_bind. apply settles_bind_result; [apply settles_lift|].
  intros a Ha. destruct r as [a'|e]; [|done]. injection Ha as ->. by apply H.
Qed.

Lemma settles_fold_result {A B} (g : B → A → result PostingsError B) l : ∀ b,
  settles check (run_fold (λ b a, let! _ := work_step check in run_lift (map_err from (g b a)))%run l b)
    (map_err from (fold_result g l b)).
Proof.
  induction l as [|a l IH]; intros b; cbn [run_fold fold_result]; [apply settles_ret|].
  rewrite map_err_bind. eapply settles_bind_result.
  - eapply settles_bind; [apply settles_step|apply settles_lift].
  - intros b' Hb. destruct (g b a) as [x|e]; [|done]. cbn in Hb. injection Hb as ->. apply IH.
Qed.

Lemma settles_open data : settles check (open_controlled check from data) (map_err from (open_pure data)).
Proof.
  unfold open_controlled, open_pure. eapply settles_bind; [apply settles_check|].
  apply settles_lift_bind. intros [[[version pb] pc] bc] _.
  apply settles_lift_bind. intros [metadata metadata_end] _. rewrite map_err_bind.
  eapply settles_bind_result; [apply settles_fold_result|]. intros s _. case_match; [apply settles_err|].
  apply settles_lift_bind. intros [[docids tfs] ps] _. eapply settles_bind; [apply settles_check|apply settles_ret].
Qed.

Lemma settles_locate r meta docids tfs row slots : ∀ s,
  settles check (locate_members check from r meta docids tfs row slots s)
    (map_err from (locate_pure r meta docids tfs row slots s)).
Proof.
  induction slots as [|slot slots IH]; intros s; cbn [locate_members locate_pure]; [apply settles_ret|].
  eapply settles_bind; [apply settles_step|]. apply settles_lift_bind. intros s' _.
  case_match; [apply settles_ret|apply IH].
Qed.

Lemma settles_positions r row : settles check (positions_controlled check from r row) (map_err from (positions_pure r row)).
Proof.
  unfold positions_controlled, positions_pure. eapply settles_bind; [apply settles_check|]. cbv zeta.
  set (block := partition_point _ _). fold (base_docid (pr_blocks r) block).
  destruct (pr_blocks r !! block) as [meta|]; [|apply settles_ret].
  do 2 (rewrite <- map_err_ok_or; apply settles_lift_bind; intros ? _). apply settles_locate.
Qed.

Lemma settles_decode v : settles check (decode_controlled check from v) (map_err from (decode_pure v)).
Proof.
  unfold decode_controlled, decode_pure. eapply settles_bind; [apply settles_check|]. rewrite map_err_bind.
  eapply settles_bind_result; [apply settles_fold_result|]. intros s _.
  eapply settles_bind; [apply settles_check|apply settles_ret].
Qed.
End Pure.

Lemma map_err_id {E A} (r : result E A) : map_err id r = r.
Proof. by destruct r. Qed.

Lemma open_is_pure data : open data = open_pure data.
Proof. unfold open. rewrite <- (map_err_id (open_pure data)). by apply (settles_unrefused unchecked), settles_open. Qed.

Lemma positions_is_pure r row : positions r row = positions_pure r row.
Proof.
  unfold positions. rewrite <- (map_err_id (positions_pure r row)).
  by apply (settles_unrefused unchecked), settles_positions.
Qed.

Lemma decode_is_pure v : decode v = decode_pure v.
Proof. unfold decode. rewrite <- (map_err_id (decode_pure v)). by apply (settles_unrefused unchecked), settles_decode. Qed.

(** ** Metadata rows *)

Record meta_ok (m : BlockMeta) : Prop := {
  mk_last : is_u32 (bm_last_docid m);
  mk_docids : is_u32 (bm_docids_offset m);
  mk_tfs : is_u32 (bm_tfs_offset m);
  mk_positions : is_u32 (bm_positions_offset m);
  mk_positions_count : is_u32 (bm_positions_count m);
  mk_count : is_u16 (bm_count m);
  mk_docid_bits : 0 ≤ bm_docid_bits m ≤ 32;
  mk_tf_bits : 0 ≤ bm_tf_bits m ≤ 32;
  mk_position_bits : 0 ≤ bm_position_bits m ≤ 32;
  mk_block_max : 0 ≤ bm_block_max m ≤ u8_max;
  mk_max_tf : is_u32 (bm_max_tf m);
  mk_min_len : is_u16 (bm_min_len m);
}.

Lemma four_bytes z : ∃ a b c d, u32_le z = [a; b; c; d].
Proof.
  pose proof (len_u32_le z) as H. destruct (u32_le z) as [|a [|b [|c [|d [|e l]]]]]; try done; [by exists a, b, c, d|].
  exfalso. rewrite !len_cons in H. pose proof (len_nonneg l). lia.
Qed.

Lemma two_bytes z : ∃ a b, u16_le z = [a; b].
Proof.
  pose proof (len_u16_le z) as H. destruct (u16_le z) as [|a [|b [|e l]]]; try done; [by exists a, b|].
  exfalso. rewrite !len_cons in H. pose proof (len_nonneg l). lia.
Qed.

Lemma unsigned_u8 z : 0 ≤ z ≤ u8_max → byte.unsigned (u8_byte z) = z.
Proof.
  intros Hz. unfold u8_byte. rewrite byte.unsigned_of_Z. unfold byte.wrap. apply Z.mod_small.
  unfold u8_max in Hz. lia.
Qed.

Lemma len_meta_write m : len (meta_write m) = BLOCK_META_LEN.
Proof. unfold meta_write. by autorewrite with zep_len. Qed.

Lemma meta_read_write m : meta_ok m → meta_read (meta_write m) = Ok m.
Proof.
  intros [H1 H2 H3 H4 H5 H6 H7 H8 H9 H10 H11 H12]. unfold meta_write.
  destruct (four_bytes (bm_last_docid m)) as (? & ? & ? & ? & E1).
  destruct (four_bytes (bm_docids_offset m)) as (? & ? & ? & ? & E2).
  destruct (four_bytes (bm_tfs_offset m)) as (? & ? & ? & ? & E3).
  destruct (four_bytes (bm_positions_offset m)) as (? & ? & ? & ? & E4).
  destruct (four_bytes (bm_positions_count m)) as (? & ? & ? & ? & E5).
  destruct (two_bytes (bm_count m)) as (? & ? & E6).
  destruct (four_bytes (bm_max_tf m)) as (? & ? & ? & ? & E11).
  destruct (two_bytes (bm_min_len m)) as (? & ? & E12).
  rewrite E1, E2, E3, E4, E5, E6, E11, E12. lazy -[from_le byte.unsigned u8_byte bm_last_docid bm_docids_offset
    bm_tfs_offset bm_positions_offset bm_positions_count bm_count bm_docid_bits bm_tf_bits bm_position_bits
    bm_block_max bm_max_tf bm_min_len].
  rewrite <- E1, <- E2, <- E3, <- E4, <- E5, <- E6, <- E11, <- E12.
  rewrite !from_u32_le, !from_u16_le, !unsigned_u8 by (done || (unfold u8_max; lia)). by destruct m.
Qed.

(** The sixteen bytes before the rows. *)
Definition header_bytes (version per_block count blocks : Z) : bytes :=
  POSTINGS_MAGIC ++ u16_le version ++ u16_le per_block ++ u32_le count ++ u32_le blocks.

Lemma len_header version per_block count blocks : len (header_bytes version per_block count blocks) = POSTINGS_HEADER_LEN.
Proof. unfold header_bytes. by autorewrite with zep_len. Qed.

Lemma read_header_ok version per_block count blocks rest :
  version = POSTINGS_VERSION_V1 ∨ version = POSTINGS_VERSION → 0 < per_block ≤ u16_max → is_u32 count → is_u32 blocks →
  open_header (header_bytes version per_block count blocks ++ rest) = Ok (version, per_block, count, blocks).
Proof.
  intros Hv Hp Hc Hb. unfold open_header. rewrite slice_to_app by (symmetry; apply len_header). rsimpl.
  unfold header_bytes. rewrite slice_to_app by done. rewrite bool_decide_true by done. cbn [negb].
  assert (postings_read_u16 (header_bytes version per_block count blocks) 4 = Ok version
    ∧ postings_read_u16 (header_bytes version per_block count blocks) 6 = Ok per_block
    ∧ postings_read_u32 (header_bytes version per_block count blocks) 8 = Ok count
    ∧ postings_read_u32 (header_bytes version per_block count blocks) 12 = Ok blocks) as (R1 & R2 & R3 & R4).
  { unfold header_bytes.
    destruct (two_bytes version) as (a & b & E1). destruct (two_bytes per_block) as (c & d & E2).
    destruct (four_bytes count) as (e & f & g & h & E3). destruct (four_bytes blocks) as (i & j & k & l & E4).
    rewrite E1, E2, E3, E4. unfold postings_read_u16, postings_read_u32. lazy -[from_le u16_max].
    rewrite <- E1, <- E2, <- E3, <- E4, !from_u32_le, !from_u16_le; try done; unfold is_u16; [lia|].
    destruct Hv as [-> | ->]; by_compute. }
  unfold header_bytes in *. rewrite R1. rsimpl.
  replace (negb (version =? POSTINGS_VERSION_V1) && negb (version =? POSTINGS_VERSION)) with false
    by (by destruct Hv as [-> | ->]).
  rewrite R2. rsimpl. decide_Z. by rewrite R3; rsimpl; rewrite R4.
Qed.

(** ** Opening *)

Lemma rows_lookup (ms : list BlockMeta) : ∀ (i : nat) m, ms !! i = Some m →
  slice_range (concat (meta_write <$> ms)) (Z.of_nat i * BLOCK_META_LEN) (Z.of_nat i * BLOCK_META_LEN + BLOCK_META_LEN)
  = Some (meta_write m).
Proof.
  intros i m Hi. rewrite <- (take_drop_middle ms i m Hi), fmap_app, concat_app. cbn [fmap list_fmap concat].
  assert (len (concat (meta_write <$> take i ms)) = Z.of_nat i * BLOCK_META_LEN) as Hl.
  { change (meta_write <$> take i ms) with (map meta_write (take i ms)).
    rewrite (len_concat_uniform meta_write BLOCK_META_LEN) by (apply Forall_forall; intros; apply len_meta_write).
    apply lookup_lt_Some in Hi. unfold len. rewrite length_take. lia. }
  apply slice_range_app; [done|]. rewrite len_meta_write. lia.
Qed.

(** A block of an encoded list. *)
Record block_fits (per_block : Z) (b : Block) : Prop := {
  bf_ok : block_ok b;
  bf_some : b.2 ≠ [];
  bf_count : len b.2 ≤ per_block;
  bf_positions : position_total b.2 ≤ u32_max;
}.

Lemma len_block_deltas b : len (block_deltas b) = len b.2.
Proof. unfold len, block_deltas. by rewrite gaps_length, length_fmap. Qed.

Lemma len_block_tfs b : len (block_tfs b) = len b.2.
Proof. apply len_fmap. Qed.

Lemma block_nonempty pb b : block_fits pb b → 0 < len b.2.
Proof.
  intros [_ Hs _ _]. destruct b.2 as [|x l]; [done|]. rewrite len_cons. pose proof (len_nonneg l). lia.
Qed.

(** The three columns of a block are runs of [u32] values. *)
Lemma columns_u32 pb b : block_fits pb b →
  Forall is_u32 (block_deltas b) ∧ Forall is_u32 (block_tfs b) ∧ Forall is_u32 (block_gaps b).
Proof. intros [Hb _ _ Ht]. split; [|split]; [apply block_deltas_u32|apply block_tfs_u32|apply block_gaps_u32]; assumption. Qed.

Lemma len_piece_packed values : Forall is_u32 values → len (piece values) = packed_len (len values) (width_of values).
Proof. intros H. destruct (width_of_spec values H) as [Hw _]. apply len_packed. lia. Qed.

Section Rows.
Context (metadata : bytes) (pb pc : Z) (bm : list Z) (im : list BlockImpact).

(** The state after the rows of [bs]. *)
Definition rows_state (s : OpenState) (i : Z) (bs : list Block) : OpenState := {|
  op_blocks := op_blocks s ++ metas bm im i (op_docid_bytes s) (op_tf_bytes s) (op_position_bytes s) bs;
  op_described := op_described s + len (concat (snd <$> bs));
  op_docid_bytes := op_docid_bytes s + len (stream block_deltas bs);
  op_tf_bytes := op_tf_bytes s + len (stream block_tfs bs);
  op_position_bytes := op_position_bytes s + len (stream block_gaps bs) |}.

Lemma open_row_ok s i b :
  0 ≤ i < u32_max → 0 ≤ op_described s → op_described s + len b.2 ≤ u32_max → block_fits pb b →
  meta_ok (block_meta bm im i (op_docid_bytes s) (op_tf_bytes s) (op_position_bytes s) b) →
  slice_range metadata (i * BLOCK_META_LEN) (i * BLOCK_META_LEN + BLOCK_META_LEN)
  = Some (meta_write (block_meta bm im i (op_docid_bytes s) (op_tf_bytes s) (op_position_bytes s) b)) →
  open_row metadata pb pc s i = Ok (rows_state s i [b]).
Proof.
  intros Hi H0 Hd Hb Hm Hrow. destruct (columns_u32 pb b Hb) as (U1 & U2 & U3). unfold open_row. cbv zeta.
  assert (saturating_mul usize_max i BLOCK_META_LEN = i * BLOCK_META_LEN) as ->.
  { unfold saturating_mul, usize_max, u64_max, BLOCK_META_LEN, u32_max in *. lia. }
  rewrite Hrow. rsimpl. rewrite meta_read_write by done. rsimpl. cbn [check_widths block_meta bm_docid_bits bm_tf_bits
    bm_position_bits bm_count bm_docids_offset bm_tfs_offset bm_positions_offset bm_positions_count].
  destruct (width_of_spec _ U1) as [W1 _], (width_of_spec _ U2) as [W2 _], (width_of_spec _ U3) as [W3 _]. decide_Z. rsimpl.
  pose proof (block_nonempty pb b Hb). destruct Hb as [_ _ Hc _]. decide_Z. cbn [orb]. f_equal.
  unfold rows_state, stream. cbn [metas fmap list_fmap concat]. rewrite !app_nil_r.
  pose proof (len_piece_packed _ U1) as L1. pose proof (len_piece_packed _ U2) as L2. pose proof (len_piece_packed _ U3) as L3.
  rewrite len_block_deltas in L1. rewrite len_block_tfs in L2. rewrite <- L1, <- L2, <- L3.
  pose proof (len_nonneg (piece (block_deltas b))). pose proof (len_nonneg (piece (block_tfs b))).
  pose proof (len_nonneg (piece (block_gaps b))). unfold saturating_add. f_equal; lia.
Qed.

Lemma rows_state_cons s i b bs : rows_state (rows_state s i [b]) (i + 1) bs = rows_state s i (b :: bs).
Proof.
  unfold rows_state, stream. cbn [op_blocks op_described op_docid_bytes op_tf_bytes op_position_bytes metas fmap list_fmap concat].
  rewrite !app_nil_r, !len_app, <- app_assoc. f_equal; lia.
Qed.

Lemma open_rows_ok bs : ∀ s i,
  0 ≤ i → i + len bs ≤ u32_max → 0 ≤ op_described s → op_described s + len (concat (snd <$> bs)) ≤ u32_max →
  Forall (block_fits pb) bs →
  let ms := metas bm im i (op_docid_bytes s) (op_tf_bytes s) (op_position_bytes s) bs in
  Forall meta_ok ms →
  (∀ k m, ms !! k = Some m → slice_range metadata ((i + Z.of_nat k) * BLOCK_META_LEN)
     ((i + Z.of_nat k) * BLOCK_META_LEN + BLOCK_META_LEN) = Some (meta_write m)) →
  fold_result (open_row metadata pb pc) (seqZ i (len bs)) s = Ok (rows_state s i bs).
Proof.
  induction bs as [|b bs IH]; intros s i Hi Hl H0 Hd Hb ms Hm Hrow; subst ms.
  - unfold rows_state, stream. cbn. rewrite app_nil_r, !Z.add_0_r. by destruct s.
  - rewrite len_cons in *. pose proof (len_nonneg bs). cbn [fmap list_fmap concat] in Hd. rewrite len_app in Hd.
    pose proof (len_nonneg (concat (snd <$> bs))). apply Forall_cons in Hb as [Hb Hbs].
    pose proof (len_nonneg b.2). cbn [metas] in Hm, Hrow. apply Forall_cons in Hm as [Hm Hms].
    rewrite seqZ_cons by lia. cbn [fold_result].
    rewrite (open_row_ok s i b); [|lia|done|lia|done|done|by specialize (Hrow O _ eq_refl); rewrite Z.add_0_r in Hrow].
    rsimpl. rewrite <- (rows_state_cons s i b bs). replace (Z.pred (1 + len bs)) with (len bs) by lia. rewrite <- Z.add_1_r.
    apply IH; cbn [rows_state op_described op_docid_bytes op_tf_bytes op_position_bytes fmap list_fmap concat];
      unfold stream in *; cbn [fmap list_fmap concat]; rewrite ?app_nil_r; [lia|lia|lia|lia|done|done|].
    intros k m Hk. replace (i + 1 + Z.of_nat k) with (i + Z.of_nat (S k)) by lia. by apply Hrow.
Qed.
End Rows.

(** ** Opening an encoded list *)

(** Every block counts from a [u32] and its postings are well formed. *)
Lemma with_bases_fit pb cs : ∀ base, is_u32 base →
  Forall (λ c, Forall posting_ok c ∧ c ≠ [] ∧ len c ≤ pb) cs → position_total (concat cs) ≤ u32_max →
  Forall (block_fits pb) (with_bases base cs).
Proof.
  induction cs as [|c cs IH]; intros base Hb Hcs Ht; cbn [with_bases]; [constructor|].
  apply Forall_cons in Hcs as [(Hc & Hs & Hl) Hcs]. cbn [concat] in Ht. rewrite position_total_app in Ht.
  pose proof (position_total_nonneg c). pose proof (position_total_nonneg (concat cs)).
  assert (block_ok (base, c)) as Hok by done. constructor; [split; try done; cbn; lia|].
  apply IH; [apply (last_docid_u32 _ Hok)|done|lia].
Qed.

Lemma with_bases_chunks base cs : snd <$> with_bases base cs = cs.
Proof. revert base. induction cs as [|c cs IH]; intros base; [done|]. cbn. by f_equal. Qed.

Lemma blocks_of_fit pb ps : 0 < pb → postings_ok ps → Forall (block_fits pb) (blocks_of pb ps).
Proof.
  intros Hpb [Heach _ Hsize]. pose proof (position_total_nonneg ps). apply with_bases_fit; [done| |by rewrite chunked_concat by lia; lia].
  pose proof (chunked_bound pb ps Hpb) as Hb. pose proof (chunked_Forall _ pb ps Hpb Heach) as Hf.
  rewrite Forall_forall in *. intros c Hc. destruct (Hb c Hc). split_and!; [by apply Hf|done|done].
Qed.

Lemma blocks_of_concat pb ps : 0 < pb → concat (snd <$> blocks_of pb ps) = ps.
Proof. intros Hpb. unfold blocks_of. rewrite with_bases_chunks. by apply chunked_concat. Qed.

(** The pairs the caller supplies have the widths of their fields. *)
Record impacts_ok (bm : list Z) (im : list BlockImpact) : Prop := {
  ik_maxima : Forall (λ z, 0 ≤ z ≤ u8_max) bm;
  ik_tf : Forall (λ i, is_u32 (bi_max_tf i)) im;
  ik_len : Forall (λ i, is_u16 (bi_min_len i)) im;
}.

Lemma impact_at_ok bm im i : impacts_ok bm im →
  0 ≤ block_max_at bm i ≤ u8_max ∧ is_u32 (bi_max_tf (impact_at im i)) ∧ is_u16 (bi_min_len (impact_at im i)).
Proof.
  intros [H1 H2 H3]. rewrite Forall_lookup in H1. rewrite Forall_lookup in H2. rewrite Forall_lookup in H3. unfold block_max_at, impact_at. split_and!.
  - destruct (bm !! Z.to_nat i) eqn:H; cbn; [by eapply H1|done].
  - destruct (bm !! Z.to_nat i) eqn:H; cbn; [by eapply H1|done].
  - destruct (im !! Z.to_nat i) eqn:H; cbn; [by eapply H2|done].
  - destruct (im !! Z.to_nat i) eqn:H; cbn; [by eapply H3|done].
Qed.

Lemma stream_cons column b bs : len (stream column (b :: bs)) = len (piece (column b)) + len (stream column bs).
Proof. unfold stream. cbn. apply len_app. Qed.

Lemma metas_ok pb bm im bs : pb ≤ u16_max → impacts_ok bm im → Forall (block_fits pb) bs → ∀ i d t p,
  0 ≤ d → 0 ≤ t → 0 ≤ p → d + len (stream block_deltas bs) ≤ u32_max → t + len (stream block_tfs bs) ≤ u32_max →
  p + len (stream block_gaps bs) ≤ u32_max → Forall meta_ok (metas bm im i d t p bs).
Proof.
  intros Hpb Him. induction 1 as [|b bs Hb _ IH]; intros i d t p Hd Ht Hp Ld Lt Lp; cbn [metas]; [constructor|].
  rewrite stream_cons in Ld, Lt, Lp.
  pose proof (len_nonneg (piece (block_deltas b))). pose proof (len_nonneg (piece (block_tfs b))).
  pose proof (len_nonneg (piece (block_gaps b))). pose proof (len_nonneg (stream block_deltas bs)).
  pose proof (len_nonneg (stream block_tfs bs)). pose proof (len_nonneg (stream block_gaps bs)).
  constructor; [|apply IH; lia]. destruct (columns_u32 pb b Hb) as (U1 & U2 & U3).
  destruct (impact_at_ok bm im i Him) as (Hm & Htf & Hl). destruct Hb as [Hb Hs Hc Hpos].
  pose proof (len_nonneg b.2). pose proof (position_total_nonneg b.2).
  split; cbn; rewrite ?len_block_gaps; try apply width_of_spec; try done; unfold is_u32, is_u16; try lia.
  apply (last_docid_u32 b Hb).
Qed.

(** The reader of an encoded list. *)
Definition reader_of (ps : list Posting) (per_block : Z) (bm : list Z) (im : list BlockImpact) (version : Z)
  : PostingsReader :=
  let bs := blocks_of per_block ps in
  {| pr_version := version; pr_blocks := metas bm im 0 0 0 0 bs; pr_docids := stream block_deltas bs;
     pr_tfs := stream block_tfs bs; pr_positions := stream block_gaps bs; pr_posting_count := len ps;
     pr_postings_per_block := per_block |}.

Lemma stream_bound column pb bs : Forall (block_fits pb) bs →
  (∀ b, block_fits pb b → Forall is_u32 (column b) ∧ len (column b) ≤ position_total b.2) →
  len (stream column bs) ≤ 4 * position_total (concat (snd <$> bs)).
Proof.
  intros Hb Hc. induction Hb as [|b bs Hb _ IH]; [done|]. rewrite stream_cons. cbn [fmap list_fmap concat].
  rewrite position_total_app. destruct (Hc b Hb) as [Hu Hl]. pose proof (len_piece _ Hu). lia.
Qed.

(** The streams of a well-formed list are within reach of an offset. *)
Lemma streams_bound pb ps : 0 < pb → postings_ok ps →
  len (stream block_deltas (blocks_of pb ps)) ≤ u32_max ∧ len (stream block_tfs (blocks_of pb ps)) ≤ u32_max
  ∧ len (stream block_gaps (blocks_of pb ps)) ≤ u32_max.
Proof.
  intros Hpb Hps. pose proof (blocks_of_fit pb ps Hpb Hps) as Hfit. pose proof (ps_size ps Hps).
  assert (∀ column, (∀ b, block_fits pb b → Forall is_u32 (column b) ∧ len (column b) ≤ position_total b.2) →
    len (stream column (blocks_of pb ps)) ≤ u32_max) as H'.
  { intros column Hc. pose proof (stream_bound column pb _ Hfit Hc). rewrite blocks_of_concat in * by done. lia. }
  split_and!; apply H'; intros b Hb; destruct (columns_u32 pb b Hb) as (U1 & U2 & U3);
    pose proof (position_total_covers b.2 (proj2 (bf_ok pb b Hb))).
  - split; [done|]. by rewrite len_block_deltas.
  - split; [done|]. by rewrite len_block_tfs.
  - split; [done|]. by rewrite len_block_gaps.
Qed.

Lemma slice_from_end {A} (l k : list A) n : n = len l → slice_from (l ++ k) n = Some k.
Proof. intros ->. by apply slice_from_app. Qed.

Lemma open_streams_ok rows bs s n : n = len rows →
  op_docid_bytes s = len (stream block_deltas bs) → op_tf_bytes s = len (stream block_tfs bs) →
  op_position_bytes s = len (stream block_gaps bs) →
  len (stream block_deltas bs) ≤ u32_max → len (stream block_tfs bs) ≤ u32_max → len (stream block_gaps bs) ≤ u32_max →
  open_streams (rows ++ stream block_deltas bs ++ stream block_tfs bs ++ stream block_gaps bs) n s
  = Ok (stream block_deltas bs, stream block_tfs bs, stream block_gaps bs).
Proof.
  intros Hn Hd Ht Hp B1 B2 B3. unfold open_streams. rewrite slice_from_end by done. rsimpl.
  rewrite Hd, Ht, Hp. set (d := stream block_deltas bs) in *. set (t := stream block_tfs bs) in *. set (p := stream block_gaps bs) in *.
  assert (0 ≤ u32_max ∧ u32_max + u32_max + u32_max ≤ usize_max) as [Hz Hu] by by_compute.
  rewrite checked_add_total by lia. rsimpl. rewrite checked_add_total by lia. rsimpl. rewrite !len_app. decide_Z.
  rewrite slice_to_app by done. rsimpl.
  rewrite (slice_range_app d t p (len d) (len d + len t)) by done. rsimpl.
  assert (d ++ t ++ p = (d ++ t) ++ p ++ []) as -> by (by rewrite app_nil_r, app_assoc).
  by rewrite slice_range_app by (rewrite len_app; lia).
Qed.

Lemma open_encoded ps pb bm im version : postings_ok ps → 0 < pb ≤ u16_max → impacts_ok bm im →
  version = POSTINGS_VERSION_V1 ∨ version = POSTINGS_VERSION →
  open_pure (encoded_bytes ps pb bm im version) = Ok (reader_of ps pb bm im version).
Proof.
  intros Hps Hpb Him Hv. pose proof (blocks_of_fit pb ps ltac:(lia) Hps) as Hfit.
  destruct (streams_bound pb ps ltac:(lia) Hps) as (B1 & B2 & B3).
  pose proof (blocks_of_concat pb ps ltac:(lia)) as Hcat. unfold encoded_bytes, reader_of. cbv zeta.
  assert (len ps ≤ u32_max ∧ len (blocks_of pb ps) ≤ len ps) as [Hlen Hblocks].
  { pose proof (position_total_covers ps (ps_each ps Hps)). pose proof (position_total_nonneg ps).
    pose proof (ps_size ps Hps). split; [lia|]. unfold blocks_of. rewrite len_with_bases. apply len_chunked_le. lia. }
  set (bs := blocks_of pb ps) in *. pose proof (len_nonneg ps). pose proof (len_nonneg bs).
  set (ms := metas bm im 0 0 0 0 bs). set (rows := concat (meta_write <$> ms)).
  assert (len rows = len bs * BLOCK_META_LEN) as Hrows.
  { unfold rows. change (meta_write <$> ms) with (map meta_write ms).
    rewrite (len_concat_uniform meta_write BLOCK_META_LEN) by (apply Forall_forall; intros; apply len_meta_write).
    unfold ms. by rewrite len_metas. }
  set (tail := stream block_deltas bs ++ stream block_tfs bs ++ stream block_gaps bs).
  assert (POSTINGS_MAGIC ++ u16_le version ++ u16_le pb ++ u32_le (len ps) ++ u32_le (len bs) ++ rows ++ tail
    = header_bytes version pb (len ps) (len bs) ++ rows ++ tail) as ->
    by (unfold header_bytes; by rewrite <- !app_assoc).
  set (header := header_bytes version pb (len ps) (len bs)).
  assert (len header = POSTINGS_HEADER_LEN) as Hh by apply len_header.
  pose proof (read_header_ok version pb (len ps) (len bs) (rows ++ tail) Hv Hpb ltac:(unfold is_u32; lia)
    ltac:(unfold is_u32; lia)) as Hhd. fold header in Hhd. unfold open_pure. rewrite Hhd. rsimpl.
  unfold open_metadata. assert (0 ≤ u32_max ∧ POSTINGS_HEADER_LEN + u32_max * BLOCK_META_LEN ≤ usize_max) as [Hz Hu] by by_compute.
  assert (len bs * BLOCK_META_LEN ≤ u32_max * BLOCK_META_LEN) by (unfold BLOCK_META_LEN; lia).
  assert (POSTINGS_HEADER_LEN = 16) as H16 by done.
  rewrite checked_mul_total by lia. rsimpl. rewrite checked_add_total by lia. rsimpl.
  rewrite (slice_range_app header rows tail) by lia. rsimpl.
  rewrite (open_rows_ok rows pb (len ps) bm im bs open_new 0); cbn [open_new op_docid_bytes op_tf_bytes op_position_bytes op_described];
    [|lia|lia|lia|rewrite Hcat; lia|done|apply (metas_ok pb); (done || lia)|intros k m; apply rows_lookup].
  rsimpl. unfold rows_state. cbn [open_new op_docid_bytes op_tf_bytes op_position_bytes op_described op_blocks app].
  rewrite Hcat, !Z.add_0_l. decide_Z. cbn [negb]. unfold tail. rewrite (app_assoc header).
  by rewrite (open_streams_ok (header ++ rows) bs)
    by (cbn [op_docid_bytes op_tf_bytes op_position_bytes]; rewrite ?len_app; (done || lia)).
Qed.
