(* ===== verification/PostingsRead.v ===== *)
(** * Reading an encoded posting list back

    A reader opened on what the encoder wrote decodes every block, and finds the
    positions of any one row: the block by bisection on the last document ids, the
    row by walking the block, and its positions by their bit address. *)

From S2P Require Import Prelude WorkCheck Postings PostingsBits PostingsEncode.

(** ** One column *)

Lemma fields_app a b bits count : 0 ≤ bits → bits * Z.of_nat count ≤ 8 * len a →
  fields (from_le (a ++ b)) bits count = fields (from_le a) bits count.
Proof.
  intros Hb Hl. unfold fields. apply list_fmap_ext. intros k v [-> Hk]%lookup_seq. rewrite Nat.add_0_l.
  apply field_app; nia.
Qed.

Lemma piece_word values : Forall is_u32 values → from_le (piece values) = word_of (width_of values) values.
Proof. intros H. destruct (width_of_spec values H) as [[Hw _] Hv]. by apply packed_word. Qed.

Lemma piece_covers values : Forall is_u32 values → len values * width_of values ≤ 8 * len (piece values).
Proof. intros H. rewrite len_piece_packed by done. apply packed_len_covers. Qed.

(** The bulk decoder reads a column back, whatever follows it. *)
Lemma unpack_piece values rest : Forall is_u32 values →
  unpack_bits (piece values ++ rest) (width_of values) (len values) (replicate (Z.to_nat (len values)) 0)
  = Ok (packed_len (len values) (width_of values), values).
Proof.
  intros H. destruct (width_of_spec values H) as [Hw Hv]. pose proof (len_piece_packed values H) as Hl.
  pose proof (piece_covers values H). pose proof (len_nonneg rest). pose proof (len_nonneg values).
  rewrite unpack_bits_spec by (rewrite ?len_app; lia). f_equal. f_equal.
  rewrite to_nat_len, fields_app by (unfold len in *; lia). rewrite piece_word by done. by apply word_of_fields; [lia|].
Qed.

(** So does the bit-addressed read of one value. *)
Lemma value_at_piece values rest k v : Forall is_u32 values → values !! Z.to_nat k = Some v → 0 ≤ k →
  8 * len (piece values ++ rest) ≤ usize_max →
  packed_value_at (piece values ++ rest) (width_of values) k = Ok v.
Proof.
  intros H Hk H0 Hu. destruct (width_of_spec values H) as [Hw Hv]. pose proof (piece_covers values H).
  pose proof (lookup_lt_Some _ _ _ Hk). assert (k < len values) by (unfold len; lia). pose proof (len_nonneg rest).
  assert (k * width_of values + width_of values ≤ 8 * len (piece values)) by nia.
  rewrite packed_value_at_spec by (rewrite ?len_app in *; lia). f_equal.
  rewrite field_app, piece_word by (done || lia).
  pose proof (word_of_field (width_of values) values ltac:(lia) Hv _ _ Hk) as Hf. by rewrite Z2Nat.id in Hf.
Qed.

(** ** Blocks of a stream *)

Lemma stream_split column bs k b : bs !! k = Some b →
  stream column bs = stream column (take k bs) ++ piece (column b) ++ stream column (drop (S k) bs).
Proof.
  intros Hk. rewrite <- (take_drop_middle bs k b Hk) at 1. unfold stream. rewrite fmap_app, concat_app. done.
Qed.

Lemma stream_from column bs k b : bs !! k = Some b →
  slice_from (stream column bs) (len (stream column (take k bs))) = Some (piece (column b) ++ stream column (drop (S k) bs)).
Proof. intros Hk. rewrite (stream_split column bs k b Hk) at 1. by apply slice_from_end. Qed.

Lemma metas_lookup bm im bs : ∀ i d t p (k : nat) b, bs !! k = Some b →
  metas bm im i d t p bs !! k = Some (block_meta bm im (i + Z.of_nat k) (d + len (stream block_deltas (take k bs)))
    (t + len (stream block_tfs (take k bs))) (p + len (stream block_gaps (take k bs))) b).
Proof.
  induction bs as [|c bs IH]; intros i d t p k b Hk; [done|]. destruct k as [|k].
  - injection Hk as ->. unfold stream. cbn. rewrite !Z.add_0_r. done.
  - cbn [metas]. rewrite firstn_cons, !stream_cons. change (bs !! k = Some b) in Hk.
    etransitivity; [apply (IH _ _ _ _ k b Hk)|]. do 2 f_equal; lia.
Qed.

(** ** Decoding a block *)

(** The positions of one posting. *)
Lemma decode_gaps_ok before after positions : ∀ prev i, 0 ≤ i → (i = 0 → prev = 0) →
  Forall is_u32 positions → StronglySorted Z.le (prev :: positions) →
  decode_gaps (before ++ gaps prev positions ++ after) (len before - i) (seqZ i (len positions)) prev = Ok positions.
Proof.
  induction positions as [|x l IH] in before |- *; intros prev i Hi H0 Hu Hs; [done|].
  rewrite len_cons. pose proof (len_nonneg l). rewrite seqZ_cons by lia. cbn [decode_gaps gaps app].
  replace (Z.to_nat (len before - i + i)) with (length before) by (unfold len; lia).
  rewrite list_lookup_middle by done. rsimpl. apply Forall_cons in Hu as [Hx Hu].
  apply StronglySorted_inv in Hs as [Hs Hp]. apply Forall_cons in Hp as [Hp _]. unfold is_u32 in Hx.
  replace (if i =? 0 then _ else _) with x; [|case_Z; [rewrite H0 by done|]; unfold saturating_add, saturating_sub; lia].
  replace (Z.pred (1 + len l)) with (len l) by lia.
  specialize (IH (before ++ [saturating_sub x prev]) x (Z.succ i) ltac:(lia) ltac:(lia) Hu Hs).
  rewrite len_app in IH. change (len [_]) with 1 in IH. replace (len before + 1 - Z.succ i) with (len before - i) in IH by lia.
  rewrite <- app_assoc in IH. cbn [app] in IH |- *. by rewrite IH.
Qed.

Lemma ascending_le x l : StronglySorted Z.lt l → Forall (λ y, x ≤ y) l → StronglySorted Z.le (x :: l).
Proof.
  intros Hs Hx. constructor; [|done]. clear Hx. induction Hs as [|y l Hs IH Hy]; constructor; [done|].
  eapply Forall_impl; [exact Hy|]. intros z Hz. lia.
Qed.

Lemma u32_sorted l : StronglySorted Z.lt l → Forall is_u32 l → StronglySorted Z.le (0 :: l).
Proof. intros Hs Hu. apply ascending_le; [done|]. eapply Forall_impl; [exact Hu|]. by intros y []. Qed.

(** The columns at the posting [p] in the middle of a block. *)
Lemma delta_at base pre p suf :
  block_deltas (base, pre ++ p :: suf) !! length pre = Some (saturating_sub (po_docid p) (last_docid base pre)).
Proof.
  unfold block_deltas. cbn [fst snd]. rewrite fmap_app, fmap_cons, gaps_app. cbn [gaps].
  rewrite list_lookup_middle by (by rewrite gaps_length, length_fmap). unfold last_docid. rewrite fmap_last.
  by destruct (last pre).
Qed.

Lemma tf_at base pre p suf : block_tfs (base, pre ++ p :: suf) !! length pre = Some (po_tf p).
Proof. unfold block_tfs. cbn [snd]. rewrite fmap_app, fmap_cons. apply list_lookup_middle. by rewrite length_fmap. Qed.

Lemma gaps_at base pre p suf :
  block_gaps (base, pre ++ p :: suf) = block_gaps (base, pre) ++ gaps 0 (po_positions p) ++ block_gaps (base, suf).
Proof. unfold block_gaps. cbn [snd]. by rewrite fmap_app, fmap_cons, concat_app. Qed.

(** A document id is at least the one its block counts from. *)
Lemma last_docid_elem base pre : last_docid base pre ∈ base :: (po_docid <$> pre).
Proof.
  unfold last_docid. destruct (last pre) as [q|] eqn:Hq; [|left]. right.
  apply list_elem_of_fmap. exists q. split; [done|]. by apply last_Some_elem_of.
Qed.

Lemma last_docid_le base pre p suf : StronglySorted Z.le (base :: (po_docid <$> pre ++ p :: suf)) →
  last_docid base pre ≤ po_docid p.
Proof.
  intros Hs. rewrite fmap_app, fmap_cons, app_comm_cons in Hs.
  eapply (StronglySorted_app_1_elem_of _ _ _ _ _ Hs); [apply last_docid_elem|left].
Qed.

Lemma last_docid_snoc base pre p : last_docid base (pre ++ [p]) = po_docid p.
Proof. unfold last_docid. by rewrite last_snoc. Qed.

Lemma position_total_snoc pre p : position_total (pre ++ [p]) = position_total pre + len (po_positions p).
Proof.
  rewrite position_total_app, position_total_cons. change (position_total []) with 0. lia.
Qed.

Lemma positions_some p : posting_ok p → 0 < len (po_positions p).
Proof.
  intros Hp. pose proof (po_some p Hp). destruct (po_positions p) as [|x l]; [done|].
  rewrite len_cons. pose proof (len_nonneg l). lia.
Qed.

(** A gap added to what it counts from, or the absolute id of the first posting. *)
Lemma docid_restored index base pre docid : (index = 0 → base = 0) → last_docid base pre ≤ docid ≤ u32_max →
  (if (index =? 0) && (len pre =? 0) then saturating_sub docid (last_docid base pre)
   else saturating_add u32_max (last_docid base pre) (saturating_sub docid (last_docid base pre))) = docid.
Proof.
  intros Hi Hd. unfold saturating_add, saturating_sub.
  destruct (Z.eqb_spec index 0), (Z.eqb_spec (len pre) 0) as [He|]; cbn [andb]; try lia.
  apply len_zero_nil in He as ->. unfold last_docid in *. cbn in *. lia.
Qed.

(** The slots of a block from the middle of it. *)
Lemma decode_slots_ok index base pre suf : (index = 0 → base = 0) → 0 ≤ base →
  Forall posting_ok (pre ++ suf) → StronglySorted Z.le (base :: (po_docid <$> pre ++ suf)) →
  position_total (pre ++ suf) ≤ u32_max →
  decode_slots index (block_deltas (base, pre ++ suf)) (block_tfs (base, pre ++ suf)) (block_gaps (base, pre ++ suf))
    (seqZ (len pre) (len suf)) (last_docid base pre) (position_total pre) = Ok suf.
Proof.
  intros Hi Hb. revert pre. induction suf as [|p suf IH]; intros pre Hok Hs Ht; [done|].
  rewrite len_cons. pose proof (len_nonneg suf). rewrite seqZ_cons by (pose proof (len_nonneg pre); lia). cbn [decode_slots].
  rewrite to_nat_len, (delta_at base pre p suf), (tf_at base pre p suf). cbn [default from_option id].
  pose proof (last_docid_le base pre p suf Hs) as Hle.
  assert (posting_ok p) as Hp by (rewrite Forall_app, Forall_cons in Hok; tauto).
  pose proof (po_docid_ok p Hp) as [Hd0 Hd1]. rewrite (po_tf_ok p Hp).
  pose proof (positions_some p Hp) as Hpos.
  rewrite (docid_restored index base pre) by (done || lia). decide_Z. rewrite gaps_at at 1.
  pose proof (decode_gaps_ok (block_gaps (base, pre)) (block_gaps (base, suf)) (po_positions p) 0 0 ltac:(done) ltac:(done)
    (po_positions_ok p Hp) (u32_sorted _ (po_ascending p Hp) (po_positions_ok p Hp))) as Hg.
  rewrite len_block_gaps, Z.sub_0_r in Hg. cbn [snd] in Hg. rewrite Hg. rsimpl.
  replace (Z.pred (1 + len suf)) with (len suf) by lia.
  assert (pre ++ p :: suf = (pre ++ [p]) ++ suf) as Happ by (by rewrite <- app_assoc).
  rewrite Happ in *. specialize (IH (pre ++ [p]) Hok Hs Ht).
  rewrite position_total_app in Ht. pose proof (position_total_nonneg suf).
  pose proof (position_total_snoc pre p) as Htot.
  rewrite len_app in IH. change (len [p]) with 1 in IH. rewrite <- Z.add_1_r.
  rewrite last_docid_snoc, Htot in IH.
  assert (u32_max ≤ usize_max) by by_compute.
  replace (saturating_add usize_max (position_total pre) (len (po_positions p)))
    with (position_total pre + len (po_positions p)) by (unfold saturating_add; lia).
  rewrite IH. rsimpl. rewrite <- (po_tf_ok p Hp). by destruct p.
Qed.

Lemma validate_positions_ok l : ∀ prev, StronglySorted Z.lt l → (∀ x, prev = Some x → Forall (Z.lt x) l) →
  validate_positions prev l = Ok tt.
Proof.
  induction l as [|x l IHl]; intros prev Hs Hprev; [done|]. cbn. apply StronglySorted_inv in Hs as [Hs Hx].
  assert (match prev with Some e => x <=? e | None => false end = false) as ->.
  { destruct prev as [e|]; [|done]. specialize (Hprev e eq_refl). apply Forall_cons in Hprev as [? _]. apply Z.leb_gt. lia. }
  apply IHl; [done|]. by intros y [= <-].
Qed.

(** ** Every block of a list *)

Lemma with_bases_lookup cs : ∀ base k b, with_bases base cs !! k = Some b →
  cs !! k = Some b.2 ∧ b.1 = last_docid base (concat (take k cs)).
Proof.
  induction cs as [|c cs IH]; intros base k b Hk; [done|]. destruct k as [|k].
  - by injection Hk as <-.
  - destruct (IH _ _ _ Hk) as [H1 ->]. split; [done|]. rewrite firstn_cons. cbn [concat]. unfold last_docid.
    rewrite last_app. by destruct (last (concat (take k cs))).
Qed.

(** The postings before, of and after a block. *)
Lemma block_split pb ps k b : 0 < pb → blocks_of pb ps !! k = Some b →
  ∃ pre suf, ps = pre ++ b.2 ++ suf ∧ pre = concat (take k (chunked pb ps)) ∧ b.1 = last_docid 0 pre
    ∧ suf = concat (drop (S k) (chunked pb ps)).
Proof.
  intros Hpb Hk. apply with_bases_lookup in Hk as [Hk Hb]. eexists _, _. split_and!; [|done|done|done].
  rewrite <- (chunked_concat pb ps Hpb) at 1. rewrite <- (take_drop_middle _ k _ Hk) at 1. by rewrite concat_app.
Qed.

Lemma ps_sorted ps : postings_ok ps → StronglySorted Z.le (0 :: (po_docid <$> ps)).
Proof.
  intros [Heach Hasc _]. apply u32_sorted; [done|]. apply Forall_fmap. eapply Forall_impl; [exact Heach|]. by intros p [].
Qed.

Lemma block_sorted pb ps k b : 0 < pb → postings_ok ps → blocks_of pb ps !! k = Some b →
  StronglySorted Z.le (b.1 :: (po_docid <$> b.2)) ∧ (k = O → b.1 = 0).
Proof.
  intros Hpb Hps Hk. destruct (block_split pb ps k b Hpb Hk) as (pre & suf & Hcat & Hpre & Hb & _). split; [|by intros ->; rewrite Hb, Hpre].
  pose proof (ps_sorted ps Hps) as Hs. rewrite Hcat, !fmap_app, app_comm_cons in Hs.
  pose proof (StronglySorted_app_1_l _ _ _ (StronglySorted_app_1_r _ _ _ Hs)) as Hs2. constructor; [done|].
  apply Forall_forall. intros x Hx. rewrite Hb. eapply (StronglySorted_app_1_elem_of _ _ _ _ _ Hs); [apply last_docid_elem|].
  apply elem_of_app. by left.
Qed.

(** The last document id of the rows before a block is the one it counts from. *)
Lemma base_docid_ok pb ps bm im k b : 0 < pb → blocks_of pb ps !! k = Some b →
  base_docid (metas bm im 0 0 0 0 (blocks_of pb ps)) k = b.1.
Proof.
  intros Hpb Hk. unfold blocks_of in *. pose proof (with_bases_lookup _ _ _ _ Hk) as [Hc Hb]. destruct k as [|k]; [done|].
  cbn [base_docid]. destruct (lookup_lt_is_Some_2 (with_bases 0 (chunked pb ps)) k) as [b' Hk'];
    [apply lookup_lt_Some in Hk; exact (Nat.lt_trans _ _ _ (Nat.lt_succ_diag_r k) Hk)|].
  rewrite (metas_lookup bm im _ 0 0 0 0 k b' Hk'). cbn. apply with_bases_lookup in Hk' as [Hc' Hb'].
  rewrite Hb, (take_S_r _ _ _ Hc'), concat_app. cbn [concat]. rewrite app_nil_r, Hb'.
  unfold last_docid. rewrite last_app. by destruct (last b'.2).
Qed.

Section Reader.
Context (ps : list Posting) (pb : Z) (bm : list Z) (im : list BlockImpact) (version : Z).
Hypothesis Hps : postings_ok ps.
Hypothesis Hpb : 0 < pb ≤ u16_max.

#[local] Abbreviation r := (reader_of ps pb bm im version).
#[local] Abbreviation bs := (blocks_of pb ps).

Lemma block_facts k b : bs !! k = Some b → block_fits pb b.
Proof using Hps Hpb.
  intros Hk. pose proof (blocks_of_fit pb ps ltac:(lia) Hps) as H. rewrite Forall_lookup in H. by eapply H.
Qed.

Lemma decode_block_ok k b : bs !! k = Some b → decode_block r (Z.of_nat k) = Ok b.2.
Proof using Hps Hpb.
  intros Hk. pose proof (block_facts k b Hk) as Hfit. destruct (columns_u32 pb b Hfit) as (U1 & U2 & U3).
  destruct (block_sorted pb ps k b ltac:(lia) Hps Hk) as [Hs H0]. pose proof (base_docid_ok pb ps bm im k b ltac:(lia) Hk) as Hbase.
  unfold decode_block. cbn [reader_of pr_blocks pr_docids pr_tfs pr_positions].
  rewrite Nat2Z.id, (metas_lookup bm im _ 0 0 0 0 k b Hk).
  cbn [block_meta bm_count bm_docids_offset bm_tfs_offset bm_positions_offset bm_positions_count bm_docid_bits bm_tf_bits bm_position_bits].
  rewrite !Z.add_0_l, (stream_from block_deltas _ _ _ Hk), (stream_from block_tfs _ _ _ Hk), (stream_from block_gaps _ _ _ Hk). rsimpl.
  pose proof (unpack_piece _ (stream block_deltas (drop (S k) bs)) U1) as D1. rewrite len_block_deltas in D1.
  pose proof (unpack_piece _ (stream block_tfs (drop (S k) bs)) U2) as D2. rewrite len_block_tfs in D2.
  rewrite D1. rsimpl. rewrite D2. rsimpl. rewrite unpack_piece by done. rsimpl. cbn [snd].
  assert ((if Z.of_nat k =? 0 then 0 else match metas bm im 0 0 0 0 bs !! Z.to_nat (saturating_sub (Z.of_nat k) 1) with
    | Some previous => bm_last_docid previous | None => 0 end) = b.1) as ->.
  { rewrite <- Hbase. destruct k as [|k]; [done|]. decide_Z. cbn [base_docid].
    by replace (Z.to_nat (saturating_sub (Z.of_nat (S k)) 1)) with k by (unfold saturating_sub; lia). }
  destruct b as [base chunk]. destruct Hfit as [[[Hb0 _] Hok] _ _ Ht]. cbn in *.
  apply (decode_slots_ok (Z.of_nat k) base [] chunk); [|done..]. intros. apply H0. lia.
Qed.

(** Pushing the postings of an ascending list one by one keeps them all. *)
Lemma push_all_ok pre chunk : Forall posting_ok chunk → ascending (pre ++ chunk) →
  push_all {| pl_postings := pre |} chunk = Ok {| pl_postings := pre ++ chunk |}.
Proof using Type.
  intros Hok. revert pre. induction Hok as [|p chunk Hp _ IH]; intros pre Ha; cbn [push_all]; [by rewrite app_nil_r|].
  assert (push {| pl_postings := pre |} p = Ok {| pl_postings := pre ++ [p] |}) as ->.
  { unfold push. unfold empty_posting. rewrite (po_tf_ok p Hp). pose proof (positions_some p Hp). decide_Z. cbn [orb pl_postings].
    replace (match last pre with Some q => po_docid p <=? po_docid q | None => false end) with false.
    - by rewrite (validate_positions_ok _ None (po_ascending p Hp)).
    - destruct (last pre) as [q|] eqn:Hq; [|done]. symmetry. apply Z.leb_gt.
      unfold ascending in Ha. rewrite fmap_app in Ha. eapply (StronglySorted_app_1_elem_of _ _ _ _ _ Ha); [|left].
      apply list_elem_of_fmap. exists q. split; [done|]. by apply last_Some_elem_of. }
  rsimpl. rewrite IH by (by rewrite <- app_assoc). by rewrite <- app_assoc.
Qed.

(** The whole list comes back. *)
Lemma decode_blocks_ok (n k : nat) : length bs = (k + n)%nat →
  decode_blocks r (seqZ (Z.of_nat k) (Z.of_nat n)) {| pl_postings := concat (take k (snd <$> bs)) |} = Ok {| pl_postings := ps |}.
Proof using Hps Hpb.
  revert k. induction n as [|n IH]; intros k Hl.
  - cbn. rewrite take_ge by (rewrite length_fmap; lia). by rewrite blocks_of_concat by lia.
  - destruct (lookup_lt_is_Some_2 bs k ltac:(lia)) as [b Hk]. rewrite seqZ_cons by lia. cbn [decode_blocks].
    rewrite (decode_block_ok k b Hk). rsimpl.
    assert (concat (take (S k) (snd <$> bs)) = concat (take k (snd <$> bs)) ++ b.2) as Hcat.
    { rewrite (take_S_r _ _ b.2) by (by rewrite list_lookup_fmap, Hk). rewrite concat_app. cbn. by rewrite app_nil_r. }
    rewrite push_all_ok; [| |]. 
    + rsimpl. rewrite <- Hcat. replace (Z.succ (Z.of_nat k)) with (Z.of_nat (S k)) by lia.
      replace (Z.pred (Z.of_nat (S n))) with (Z.of_nat n) by lia. apply IH. lia.
    + by destruct (bf_ok pb b (block_facts k b Hk)).
    + rewrite <- Hcat. pose proof (ps_ascending ps Hps) as Ha. rewrite <- (blocks_of_concat pb ps ltac:(lia)) in Ha.
      rewrite <- (take_drop (S k) (snd <$> bs)), concat_app in Ha. unfold ascending in *. rewrite fmap_app in Ha.
      by apply StronglySorted_app_1_l in Ha.
Qed.

Lemma decode_all_ok : decode_all r = Ok {| pl_postings := ps |}.
Proof using Hps Hpb.
  unfold decode_all. cbn [reader_of pr_blocks]. rewrite len_metas. unfold len. by apply (decode_blocks_ok (length bs) 0).
Qed.
End Reader.

(** * Locating one row of an encoded posting list

    The lookup of [Postings]: bisection on the last document id of the blocks, the
    walk over the members of one block, and the positions decoded at their bit
    address. *)

(** ** The block of a row *)

(** Bisection cuts a sorted list where the predicate ends. *)
Lemma partition_point_cut {A} (R : relation A) (pred : A → bool) l :
  StronglySorted R l → (∀ x y, R x y → pred y = true → pred x = true) →
  Forall (λ x, pred x = true) (take (partition_point pred l) l) ∧
  Forall (λ x, pred x = false) (drop (partition_point pred l) l).
Proof.
  intros Hs Hp. rewrite (partition_point_sorted R pred l Hs Hp). pose proof (prefix_split R pred l Hs Hp) as Hl. split.
  - rewrite Hl at 2. rewrite take_app_length. apply List.Forall_forall. by intros x [_ ?]%filter_In.
  - rewrite Hl at 2. rewrite drop_app_length. apply List.Forall_forall. by intros x [_ ?%negb_true_iff]%filter_In.
Qed.

(** The last document ids of the blocks ascend. *)
Lemma lasts_sorted cs : ∀ base, StronglySorted Z.le (base :: (po_docid <$> concat cs)) →
  StronglySorted Z.le ((λ b, last_docid b.1 b.2) <$> with_bases base cs) ∧
  Forall (λ x, x ∈ base :: (po_docid <$> concat cs)) ((λ b, last_docid b.1 b.2) <$> with_bases base cs).
Proof.
  induction cs as [|c cs IH]; intros base Hs; [by split; constructor|]. cbn [with_bases fmap list_fmap concat fst snd] in *.
  rewrite fmap_app, app_comm_cons in Hs. pose proof (last_docid_elem base c) as He.
  assert (StronglySorted Z.le (last_docid base c :: (po_docid <$> concat cs))) as Hc.
  { constructor; [by eapply StronglySorted_app_1_r|]. apply Forall_forall. intros x Hx.
    by eapply (StronglySorted_app_1_elem_of _ _ _ _ _ Hs). }
  destruct (IH _ Hc) as [H1 H2]. split.
  - constructor; [done|]. eapply Forall_impl; [exact H2|]. intros x Hx. apply StronglySorted_inv in Hc as [_ Hc].
    apply elem_of_cons in Hx as [->|Hx]; [lia|]. rewrite Forall_forall in Hc. by apply Hc.
  - rewrite fmap_app, app_comm_cons. constructor; [apply elem_of_app; by left|]. eapply Forall_impl; [exact H2|].
    intros x Hx. apply elem_of_cons in Hx as [->|Hx]; apply elem_of_app; [by left|by right].
Qed.

Lemma metas_lasts bm im bs : ∀ i d t p, bm_last_docid <$> metas bm im i d t p bs = (λ b, last_docid b.1 b.2) <$> bs.
Proof. induction bs as [|b bs IH]; intros; [done|]. cbn [metas fmap list_fmap]. f_equal. apply IH. Qed.

Lemma SS_fmap {A B} (f : A → B) (R : relation B) l :
  StronglySorted R (f <$> l) → StronglySorted (λ x y, R (f x) (f y)) l.
Proof.
  induction l as [|x l IH]; intros Hs; [constructor|]. rewrite fmap_cons in Hs.
  apply StronglySorted_inv in Hs as [Hs Hx]. constructor; [by apply IH|]. by rewrite Forall_fmap in Hx.
Qed.

(** A document id is at most the last of the postings it is among. *)
Lemma docid_le_last base l p : StronglySorted Z.le (po_docid <$> l) → p ∈ l → po_docid p ≤ last_docid base l.
Proof.
  intros Hs Hp. destruct l as [|q l] using rev_ind; [by apply elem_of_nil in Hp|]. rewrite last_docid_snoc.
  apply elem_of_app in Hp as [Hp| ->%list_elem_of_singleton]; [|lia]. rewrite fmap_app in Hs.
  eapply (StronglySorted_app_1_elem_of _ _ _ _ _ Hs); [by apply list_elem_of_fmap_2|left].
Qed.

(** ** The walk over a block *)

Section Walk.
Context (base : Z) (chunk : list Posting) (data : bytes) (bits row : Z).

(** The answer of the walk from a posting on. *)
Fixpoint row_view (first : Z) (suf : list Posting) : option RowPositions :=
  match suf with
  | [] => None
  | p :: suf =>
      if row <? po_docid p then None
      else if po_docid p =? row
      then Some {| rp_bytes := data; rp_bits := bits; rp_first := first; rp_count := len (po_positions p) |}
      else row_view (first + len (po_positions p)) suf
  end.
End Walk.

(** ** Decoding a view *)

Lemma decode_position_ok values first count i s x : Forall is_u32 values → 8 * len (piece values) ≤ usize_max →
  0 ≤ first → 0 ≤ i → values !! Z.to_nat (first + i) = Some (saturating_sub x s.2) → x ≤ u32_max →
  s.2 ≤ x → (0 < i → s.2 < x) →
  decode_position {| rp_bytes := piece values; rp_bits := width_of values; rp_first := first; rp_count := count |} s i
  = Ok (s.1 ++ [x], x).
Proof.
  intros Hv Hu Hf Hi Hd Hx Hle Hlt. unfold decode_position. cbn [rp_bytes rp_bits rp_first].
  pose proof (value_at_piece values [] (first + i) _ Hv Hd ltac:(lia)) as V. rewrite app_nil_r in V. rewrite V by done. rsimpl.
  replace ((0 <? i) && (saturating_sub x s.2 =? 0)) with false
    by (destruct (Z.ltb_spec 0 i); [|done]; symmetry; apply Z.eqb_neq; unfold saturating_sub; lia).
  rewrite checked_add_total by (unfold saturating_sub; lia). rsimpl.
  by replace (s.2 + saturating_sub x s.2) with x by (unfold saturating_sub; lia).
Qed.

Lemma decode_fold_ok values first count l : Forall is_u32 values → 8 * len (piece values) ≤ usize_max → 0 ≤ first →
  ∀ i prev out, 0 ≤ i → (i = 0 → prev = 0) → (0 < i → Forall (Z.lt prev) l) → StronglySorted Z.lt l → Forall is_u32 l →
  (∀ j g, gaps prev l !! j = Some g → values !! Z.to_nat (first + i + Z.of_nat j) = Some g) →
  fold_result (decode_position {| rp_bytes := piece values; rp_bits := width_of values; rp_first := first; rp_count := count |})
    (seqZ i (len l)) (out, prev) = Ok (out ++ l, default prev (last l)).
Proof.
  intros Hv Hu Hf. induction l as [|x l IH]; intros i prev out Hi H0 Hlt Hs Hl Hg; [cbn; by rewrite app_nil_r|].
  rewrite len_cons. pose proof (len_nonneg l). rewrite seqZ_cons by lia. cbn [fold_result].
  apply Forall_cons in Hl as [[Hx0 Hx1] Hl]. apply StronglySorted_inv in Hs as [Hs Hx].
  pose proof (Hg O _ eq_refl) as Hd. rewrite Z.add_0_r in Hd.
  assert (prev ≤ x ∧ (0 < i → prev < x)) as [Hle Hlt'].
  { split; [destruct (Z.eq_dec i 0) as [->|]; [rewrite H0 by done; lia|]|intros Hpos];
      specialize (Hlt ltac:(lia)); apply Forall_cons in Hlt as [? _]; lia. }
  rewrite (decode_position_ok values first count i (out, prev) x); [|done..]. rsimpl.
  replace (Z.pred (1 + len l)) with (len l) by lia. rewrite IH; [|lia|lia|done|done|done|].
  - rewrite <- app_assoc, last_cons. by destruct (last l).
  - intros j g Hj. rewrite <- (Hg (S j) g Hj). f_equal. lia.
Qed.

Section Row.
Context (ps : list Posting) (pb : Z) (bm : list Z) (im : list BlockImpact) (version : Z).
Hypothesis Hps : postings_ok ps.
Hypothesis Hpb : 0 < pb ≤ u16_max.

#[local] Abbreviation r := (reader_of ps pb bm im version).
#[local] Abbreviation bs := (blocks_of pb ps).
#[local] Abbreviation meta_of k b := (block_meta bm im (Z.of_nat k) (len (stream block_deltas (take k bs)))
  (len (stream block_tfs (take k bs))) (len (stream block_gaps (take k bs))) b).

(** Every stream is far below [usize::MAX] bits. *)
Lemma stream_usize column k b : bs !! k = Some b →
  len (stream column bs) ≤ u32_max → 8 * len (piece (column b) ++ stream column (drop (S k) bs)) ≤ usize_max.
Proof using Type.
  intros Hk Hl. rewrite (stream_split column bs k b Hk), len_app in Hl.
  pose proof (len_nonneg (stream column (take k bs))). assert (8 * u32_max ≤ usize_max) by by_compute. lia.
Qed.

(** The bytes a view borrows. *)
Lemma positions_slice k b : bs !! k = Some b →
  slice_range (stream block_gaps bs) (len (stream block_gaps (take k bs)))
    (len (stream block_gaps (take k bs)) + packed_len (len (block_gaps b)) (width_of (block_gaps b)))
  = Some (piece (block_gaps b)).
Proof using Hps Hpb.
  intros Hk. destruct (columns_u32 pb b (block_facts ps pb Hps Hpb k b Hk)) as (_ & _ & U3).
  rewrite <- (len_piece_packed _ U3), (stream_split block_gaps bs k b Hk). by apply slice_range_app.
Qed.

(** The state of the walk at the posting after [pre]. *)
Definition walk_at (b : Block) (pre : list Posting) : MemberWalk :=
  {| mw_docid := last_docid b.1 pre; mw_first := position_total pre; mw_answer := None |}.

(** One posting of the walk. *)
Lemma locate_member_ok k b pre p suf row : bs !! k = Some b → b.2 = pre ++ p :: suf →
  locate_member r (meta_of k b) (piece (block_deltas b) ++ stream block_deltas (drop (S k) bs))
    (piece (block_tfs b) ++ stream block_tfs (drop (S k) bs)) row (walk_at b pre) (len pre)
  = Ok (if row <? po_docid p then {| mw_docid := po_docid p; mw_first := position_total pre; mw_answer := Some None |}
        else if po_docid p =? row then
          {| mw_docid := po_docid p; mw_first := position_total pre;
             mw_answer := Some (Some {| rp_bytes := piece (block_gaps b); rp_bits := width_of (block_gaps b);
               rp_first := position_total pre; rp_count := len (po_positions p) |}) |}
        else walk_at b (pre ++ [p])).
Proof using Hps Hpb.
  intros Hk Hb. pose proof (block_facts ps pb Hps Hpb k b Hk) as Hfit.
  destruct (columns_u32 pb b Hfit) as (U1 & U2 & U3). destruct (block_sorted pb ps k b ltac:(lia) Hps Hk) as [Hs _].
  destruct (streams_bound pb ps ltac:(lia) Hps) as (B1 & B2 & B3). rewrite Hb in Hs. pose proof (last_docid_le _ _ _ _ Hs) as Hle.
  assert (Forall posting_ok b.2) as Hok by apply Hfit. pose proof (bf_positions pb b Hfit) as Ht.
  assert (posting_ok p) as Hp by (rewrite Hb, Forall_app, Forall_cons in Hok; tauto).
  pose proof (po_docid_ok p Hp) as [Hd0 Hd1]. pose proof (positions_some p Hp) as Hpos. pose proof (len_nonneg pre).
  pose proof (positions_slice k b Hk) as Hslice. pose proof (len_block_gaps b) as Hg.
  rewrite Hb, position_total_app, position_total_cons in Ht. rewrite Hb, position_total_app, position_total_cons in Hg.
  pose proof (position_total_nonneg pre). pose proof (position_total_nonneg suf).
  assert (0 ≤ u32_max ∧ 2 * u32_max ≤ usize_max) as [Hz Hu] by by_compute.
  unfold locate_member. cbn [walk_at mw_docid mw_first block_meta bm_docid_bits bm_tf_bits bm_positions_count bm_positions_offset bm_position_bits reader_of pr_positions].
  assert (block_deltas b !! Z.to_nat (len pre) = Some (saturating_sub (po_docid p) (last_docid b.1 pre))
    ∧ block_tfs b !! Z.to_nat (len pre) = Some (po_tf p)) as [L1 L2].
  { rewrite to_nat_len. destruct b as [base chunk]. cbn in Hb. subst chunk. split; [apply delta_at|apply tf_at]. }
  rewrite (value_at_piece _ _ _ _ U1 L1) by (done || by apply stream_usize). rsimpl.
  rewrite (checked_add_total u32_max) by (unfold saturating_sub; lia). rsimpl.
  replace (last_docid b.1 pre + saturating_sub (po_docid p) (last_docid b.1 pre)) with (po_docid p) by (unfold saturating_sub; lia).
  destruct (Z.ltb_spec row (po_docid p)); [done|].
  rewrite (value_at_piece _ _ _ _ U2 L2) by (done || by apply stream_usize). rsimpl. rewrite (po_tf_ok p Hp). decide_Z.
  rewrite (checked_add_total usize_max (position_total pre)) by lia. rsimpl. decide_Z. case_Z.
  - rewrite checked_add_total.
    + rsimpl. by rewrite Hslice.
    + apply slice_range_Some in Hslice as (_ & Hs' & _). lia.
  - do 2 f_equal. unfold walk_at. by rewrite last_docid_snoc, position_total_snoc.
Qed.

Lemma locate_ok k b suf row : bs !! k = Some b → ∀ pre, b.2 = pre ++ suf →
  locate_pure r (meta_of k b) (piece (block_deltas b) ++ stream block_deltas (drop (S k) bs))
    (piece (block_tfs b) ++ stream block_tfs (drop (S k) bs)) row (seqZ (len pre) (len suf)) (walk_at b pre)
  = Ok (row_view (piece (block_gaps b)) (width_of (block_gaps b)) row (position_total pre) suf).
Proof using Hps Hpb.
  intros Hk. induction suf as [|p suf IH]; intros pre Hb; [done|].
  rewrite len_cons. pose proof (len_nonneg suf). pose proof (len_nonneg pre). rewrite seqZ_cons by lia.
  cbn [locate_pure row_view]. rewrite (locate_member_ok k b pre p suf row Hk Hb). rsimpl.
  destruct (row <? po_docid p); [done|]. destruct (po_docid p =? row); [done|].
  cbn [walk_at mw_answer]. rewrite <- position_total_snoc.
  specialize (IH (pre ++ [p])). rewrite len_app in IH. change (len [p]) with 1 in IH.
  replace (Z.pred (1 + len suf)) with (len suf) by lia. rewrite <- Z.add_1_r. apply IH. by rewrite <- app_assoc.
Qed.

(** A view of a posting's positions decodes to them. *)
Lemma decode_view_ok k b pre p suf : bs !! k = Some b → b.2 = pre ++ p :: suf →
  decode_pure {| rp_bytes := piece (block_gaps b); rp_bits := width_of (block_gaps b);
                 rp_first := position_total pre; rp_count := len (po_positions p) |} = Ok (po_positions p).
Proof using Hps Hpb.
  intros Hk Hb. pose proof (block_facts ps pb Hps Hpb k b Hk) as Hfit. destruct (columns_u32 pb b Hfit) as (_ & _ & U3).
  destruct (streams_bound pb ps ltac:(lia) Hps) as (_ & _ & B3). pose proof (stream_usize block_gaps k b Hk B3) as S3.
  assert (Forall posting_ok b.2) as Hok by apply Hfit.
  assert (posting_ok p) as Hp by (rewrite Hb, Forall_app, Forall_cons in Hok; tauto).
  assert (block_gaps b = block_gaps (b.1, pre) ++ gaps 0 (po_positions p) ++ block_gaps (b.1, suf)) as Hg
    by (destruct b as [base chunk]; cbn [fst snd] in *; subst chunk; exact (gaps_at base pre p suf)).
  unfold decode_pure. cbn [rp_count].
  rewrite (decode_fold_ok (block_gaps b) (position_total pre) (len (po_positions p)) (po_positions p) U3);
    [done| |apply position_total_nonneg|done|done|done|apply Hp|apply Hp|].
  - rewrite len_app in S3. pose proof (len_nonneg (stream block_gaps (drop (S k) bs))). lia.
  - intros j g Hj. pose proof (len_block_gaps (b.1, pre)) as Hl. cbn [snd] in Hl. unfold len in Hl.
    rewrite Hg, lookup_app_r by lia. apply lookup_app_l_Some. rewrite <- Hj. f_equal. lia.
Qed.

(** ** The whole lookup *)

(** The posting of a row, by scanning the list. *)
Definition posting_of (row : Z) (l : list Posting) : option Posting := List.find (λ p, po_docid p =? row) l.

Lemma find_none (f : Posting → bool) l : Forall (λ p, f p = false) l → List.find f l = None.
Proof using Type. induction 1 as [|p l Hp _ IH]; [done|]. cbn. by rewrite Hp. Qed.

Lemma find_app (f : Posting → bool) l m :
  List.find f (l ++ m) = match List.find f l with Some p => Some p | None => List.find f m end.
Proof using Type. induction l as [|p l IH]; [done|]. cbn. by destruct (f p). Qed.

(** The walk answers for the posting of the row, with the place of its positions. *)
Lemma row_view_ok data bits row suf : StronglySorted Z.lt (po_docid <$> suf) → ∀ pre,
  match posting_of row suf with
  | None => row_view data bits row (position_total pre) suf = None
  | Some p => ∃ mid rest, suf = mid ++ p :: rest ∧ row_view data bits row (position_total pre) suf
      = Some {| rp_bytes := data; rp_bits := bits; rp_first := position_total (pre ++ mid); rp_count := len (po_positions p) |}
  end.
Proof using Type.
  induction suf as [|q suf IH]; intros Hs pre; [done|]. rewrite fmap_cons in Hs. apply StronglySorted_inv in Hs as [Hs Hq].
  unfold posting_of. cbn [List.find row_view]. destruct (Z.eqb_spec (po_docid q) row) as [E|E].
  - decide_Z. exists [], suf. by rewrite app_nil_r.
  - destruct (Z.ltb_spec row (po_docid q)) as [Hlt|Hge].
    + rewrite find_none; [done|]. rewrite Forall_fmap in Hq. eapply Forall_impl; [exact Hq|].
      intros p Hp. cbn in Hp. apply Z.eqb_neq. lia.
    + specialize (IH Hs (pre ++ [q])). rewrite position_total_snoc in IH. unfold posting_of in IH.
      destruct (List.find _ suf) as [p|]; [|done]. destruct IH as (mid & rest & -> & IH).
      exists (q :: mid), rest. split; [done|]. rewrite IH, <- app_assoc. done.
Qed.
(** Before the block that bisection chooses every document id is below the row,
    after it every one is above. *)
Lemma block_of_row k b row : bs !! k = Some b →
  (∀ m, m ∈ take k (metas bm im 0 0 0 0 bs) → bm_last_docid m < row) → row ≤ last_docid b.1 b.2 →
  posting_of row ps = posting_of row b.2.
Proof using Hps Hpb.
  intros Hk Hbefore Hlast. destruct (block_split pb ps k b ltac:(lia) Hk) as (pre & suf & Hcat & Hpre & Hb1 & _).
  pose proof (ps_ascending ps Hps) as Ha. unfold ascending in Ha. rewrite Hcat, !fmap_app in Ha.
  unfold posting_of. rewrite Hcat, !find_app. rewrite (find_none _ pre), (find_none _ suf); [by destruct (List.find _ b.2)| |].
  - apply Forall_forall. intros p Hp. apply Z.eqb_neq. unfold last_docid in Hlast.
    pose proof (bf_some pb b (block_facts ps pb Hps Hpb k b Hk)) as Hne.
    destruct (last b.2) as [q|] eqn:Hq; [|by apply last_None in Hq].
    apply StronglySorted_app_1_r in Ha. assert (po_docid q < po_docid p); [|lia].
    eapply (StronglySorted_app_1_elem_of _ _ _ _ _ Ha); apply list_elem_of_fmap_2; [by apply last_Some_elem_of|done].
  - apply Forall_forall. intros p Hp. apply Z.eqb_neq.
    pose proof (ps_sorted ps Hps) as Hs.
    apply StronglySorted_inv in Hs as [Hs _]. rewrite Hcat, fmap_app in Hs. apply StronglySorted_app_1_l in Hs.
    pose proof (docid_le_last 0 pre p Hs Hp) as Hle. rewrite <- Hb1 in Hle.
    rewrite <- (base_docid_ok pb ps bm im k b ltac:(lia) Hk) in Hle. destruct k as [|k].
    { rewrite Hpre in Hp. by apply elem_of_nil in Hp. }
    cbn [base_docid] in Hle. destruct (lookup_lt_is_Some_2 bs k) as [b' Hk'].
    { apply lookup_lt_Some in Hk. lia. }
    pose proof (metas_lookup bm im bs 0 0 0 0 k b' Hk') as Hm. rewrite Hm in Hle.
    enough (bm_last_docid (block_meta bm im (0 + Z.of_nat k) (0 + len (stream block_deltas (take k bs)))
      (0 + len (stream block_tfs (take k bs))) (0 + len (stream block_gaps (take k bs))) b') < row) by lia.
    apply Hbefore. apply list_elem_of_lookup_2 with k. rewrite lookup_take_lt by lia. done.
Qed.

(** Past the last block every document id is below the row. *)
Lemma no_block_of_row row : (∀ m, m ∈ metas bm im 0 0 0 0 bs → bm_last_docid m < row) → posting_of row ps = None.
Proof using Hps Hpb.
  intros Hall. apply find_none, Forall_forall. intros p Hp. apply Z.eqb_neq.
  rewrite <- (blocks_of_concat pb ps ltac:(lia)) in Hp. apply list_elem_of_In, in_concat in Hp as (c & Hc & Hp).
  apply list_elem_of_In, list_elem_of_fmap in Hc as (b & -> & [k Hk]%list_elem_of_lookup_1).
  destruct (block_sorted pb ps k b ltac:(lia) Hps Hk) as [Hs _]. apply StronglySorted_inv in Hs as [Hs _].
  pose proof (docid_le_last b.1 b.2 p Hs (proj2 (list_elem_of_In _ _) Hp)) as Hle.
  specialize (Hall _ (list_elem_of_lookup_2 _ _ _ (metas_lookup bm im bs 0 0 0 0 k b Hk))). cbn in Hall. lia.
Qed.

(** What a lookup owes its caller. *)
Definition row_served (row : Z) (l : list Posting) (answer : result PostingsError (option RowPositions)) : Prop :=
  match posting_of row l with
  | None => answer = Ok None
  | Some p => ∃ v, answer = Ok (Some v) ∧ rp_count v = po_tf p ∧ decode_pure v = Ok (po_positions p)
  end.

(** The chosen block answers for its postings. *)
Lemma block_served k b row : bs !! k = Some b →
  row_served row b.2 (
    docids ← ok_or (slice_from (stream block_deltas bs) (len (stream block_deltas (take k bs))))
      (PostingsTruncated (len (stream block_deltas (take k bs))) (len (stream block_deltas bs)));
    tfs ← ok_or (slice_from (stream block_tfs bs) (len (stream block_tfs (take k bs))))
      (PostingsTruncated (len (stream block_tfs (take k bs))) (len (stream block_tfs bs)));
    locate_pure r (meta_of k b) docids tfs row (seqZ 0 (len b.2)) (walk_at b [])).
Proof using Hps Hpb.
  intros Hk. rewrite (stream_from block_deltas _ _ _ Hk), (stream_from block_tfs _ _ _ Hk). rsimpl.
  rewrite (locate_ok k b b.2 row Hk [] eq_refl : locate_pure _ _ _ _ _ (seqZ 0 (len b.2)) _ = _).
  destruct (block_split pb ps k b ltac:(lia) Hk) as (pre & suf & Hcat & _).
  pose proof (ps_ascending ps Hps) as Ha. unfold ascending in Ha. rewrite Hcat, !fmap_app in Ha.
  pose proof (row_view_ok (piece (block_gaps b)) (width_of (block_gaps b)) row b.2
    (StronglySorted_app_1_l _ _ _ (StronglySorted_app_1_r _ _ _ Ha)) []) as Hview.
  unfold row_served. destruct (posting_of row b.2) as [p|]; [|by rewrite Hview].
  destruct Hview as (mid & rest & Hmid & Hview). rewrite Hview.
  eexists. split; [done|]. cbn [rp_count app]. split; [|by apply (decode_view_ok k b mid p rest)].
  symmetry. apply po_tf_ok. pose proof (bf_ok pb b (block_facts ps pb Hps Hpb k b Hk)) as [_ Hok].
  rewrite Hmid, Forall_app, Forall_cons in Hok. tauto.
Qed.

Lemma positions_ok row : row_served row ps (positions_pure r row).
Proof using Hps Hpb.
  set (pred := λ meta, bm_last_docid meta <? row). set (ms := metas bm im 0 0 0 0 bs).
  destruct (partition_point_cut (λ x y, bm_last_docid x ≤ bm_last_docid y) pred ms) as [Hbefore Hafter].
  { apply SS_fmap. unfold ms. rewrite metas_lasts. apply lasts_sorted. rewrite chunked_concat by lia. by apply ps_sorted. }
  { intros x y Hxy Hy%Z.ltb_lt. apply Z.ltb_lt. lia. }
  unfold positions_pure. cbn [reader_of pr_blocks pr_docids pr_tfs]. fold pred. fold ms. set (k := partition_point pred ms) in *.
  assert (∀ m, m ∈ take k ms → bm_last_docid m < row) as Hlt
    by (rewrite Forall_forall in Hbefore; intros m Hm; by apply Z.ltb_lt, Hbefore).
  destruct (ms !! k) as [m|] eqn:Hm.
  - assert (length ms = length bs) as Hlen by (pose proof (len_metas bm im 0 0 0 0 bs) as Hl; unfold len in Hl; fold ms in Hl; lia).
    destruct (lookup_lt_is_Some_2 bs k) as [b Hk]; [apply lookup_lt_Some in Hm; lia|].
    pose proof (metas_lookup bm im bs 0 0 0 0 k b Hk) as Hm'. fold ms in Hm'. rewrite Hm in Hm'. injection Hm' as ->.
    assert (row ≤ last_docid b.1 b.2) as Hge.
    { apply (drop_S _ _ _) in Hm. rewrite Hm in Hafter. apply Forall_cons in Hafter as [H _]. by apply Z.ltb_ge in H. }
    pose proof (base_docid_ok pb ps bm im k b ltac:(lia) Hk) as Hbase. fold ms in Hbase. rewrite Hbase.
    unfold row_served. rewrite (block_of_row k b row Hk Hlt Hge). rewrite !Z.add_0_l. exact (block_served k b row Hk).
  - unfold row_served. rewrite no_block_of_row; [done|]. intros m Hin. apply Hlt.
    rewrite take_ge; [done|]. by apply lookup_ge_None.
Qed.
End Row.

(** ** Impact pairs *)

Section Impacts.
Context {W E : Type} (check : W → W * result E unit).

(** The pair of one chunk. *)
Definition chunk_impact (lengths : list Z) (chunk : list Posting) : BlockImpact :=
  let s := fold_left (impact_step lengths) chunk (0, u32_max) in
  {| bi_max_tf := s.1; bi_min_len := saturate u16_max s.2 |}.

Lemma settles_block_impacts ps pb lengths : 0 < pb →
  settles check (block_impacts_slice_controlled check ps pb lengths) (Ok (chunk_impact lengths <$> chunked pb ps)).
Proof.
  intros Hpb. unfold block_impacts_slice_controlled. eapply settles_bind; [apply settles_check|]. decide_Z.
  eapply settles_bind; [apply (settles_fold _ _ (λ out chunk, out ++ [chunk_impact lengths chunk]))|].
  - intros out chunk _. eapply settles_bind; [apply (settles_fold _ _ (impact_step lengths))|apply settles_ret].
    intros s p _. eapply settles_bind; [apply settles_step|apply settles_ret].
  - assert (∀ cs out, fold_left (λ out chunk, out ++ [chunk_impact lengths chunk]) cs out
      = out ++ (chunk_impact lengths <$> cs)) as ->.
    { induction cs as [|c cs IH]; intros out; cbn; [by rewrite app_nil_r|]. by rewrite IH, <- app_assoc. }
    eapply settles_bind; [apply settles_check|apply settles_ret].
Qed.
End Impacts.

Lemma block_impacts_pure l pb lengths : 0 < pb →
  block_impacts l pb lengths = chunk_impact lengths <$> chunked pb (pl_postings l).
Proof.
  intros Hpb. unfold block_impacts. unfold block_impacts_controlled.
  rewrite (settles_unrefused unchecked _ _ (work_new tt) (λ _, eq_refl) (settles_block_impacts unchecked (pl_postings l) pb lengths Hpb)).
  done.
Qed.

Lemma impact_fold_bounds lengths chunk : ∀ s,
  s.1 ≤ (fold_left (impact_step lengths) chunk s).1 ∧ (fold_left (impact_step lengths) chunk s).2 ≤ s.2 ∧
  Forall (λ p, po_tf p ≤ (fold_left (impact_step lengths) chunk s).1 ∧
               (fold_left (impact_step lengths) chunk s).2 ≤ row_length lengths (po_docid p)) chunk.
Proof.
  induction chunk as [|p chunk IH]; intros s; [by split_and!|]. cbn [fold_left].
  destruct (IH (impact_step lengths s p)) as (H1 & H2 & H3). cbn in H1, H2. split_and!; [lia|lia|].
  constructor; [|done]. cbn in *. lia.
Qed.

Lemma row_length_bounds lengths row : Forall is_u32 lengths → is_u32 (row_length lengths row).
Proof.
  intros Hl. unfold row_length. destruct (row <? len lengths); [|done].
  destruct (lengths !! Z.to_nat row) as [n|] eqn:H; [|done]. cbn. rewrite Forall_lookup in Hl. by eapply Hl.
Qed.

(** The pair of a chunk has the width of its fields and dominates its postings. *)
Lemma chunk_impact_ok lengths chunk : Forall is_u32 lengths → Forall (λ p, is_u32 (po_tf p)) chunk →
  is_u32 (bi_max_tf (chunk_impact lengths chunk)) ∧ is_u16 (bi_min_len (chunk_impact lengths chunk)) ∧
  Forall (λ p, po_tf p ≤ bi_max_tf (chunk_impact lengths chunk) ∧
               bi_min_len (chunk_impact lengths chunk) ≤ row_length lengths (po_docid p)) chunk.
Proof.
  intros Hl Htf. unfold chunk_impact. destruct (impact_fold_bounds lengths chunk (0, u32_max)) as (H1 & H2 & H3).
  set (s := fold_left _ _ _) in *. cbn in H1, H2. cbn [bi_max_tf bi_min_len].
  assert (s.1 ≤ u32_max ∧ 0 ≤ s.2) as [Hs1 Hs2].
  { unfold s. clear s H1 H2 H3. assert (∀ s, s.1 ≤ u32_max → 0 ≤ s.2 →
      (fold_left (impact_step lengths) chunk s).1 ≤ u32_max ∧ 0 ≤ (fold_left (impact_step lengths) chunk s).2) as H;
      [|by apply H].
    induction Htf as [|p chunk [_ Hp] _ IH]; intros s Ha Hb; cbn [fold_left]; [done|]. apply IH; cbn; [lia|].
    pose proof (row_length_bounds lengths (po_docid p) Hl) as [? _]. lia. }
  assert (0 ≤ saturate u16_max s.2 ≤ u16_max ∧ saturate u16_max s.2 ≤ s.2) as [Hm Hle].
  { unfold saturate, try_from. assert (0 ≤ u16_max) by by_compute.
    destruct (Z.leb_spec 0 s.2), (Z.leb_spec s.2 u16_max); cbn; lia. }
  split; [done|]. split; [done|]. eapply Forall_impl; [exact H3|]. intros p [? ?]. split; lia.
Qed.

(** ** The contract of the format *)

Lemma metas_block_lookup bm im bs k m : metas bm im 0 0 0 0 bs !! k = Some m → ∃ b, bs !! k = Some b.
Proof.
  intros Hm. apply lookup_lt_is_Some. apply lookup_lt_Some in Hm. pose proof (len_metas bm im 0 0 0 0 bs) as Hl.
  unfold len in Hl. lia.
Qed.

Lemma impact_from_meta_at bm im bs k m : metas bm im 0 0 0 0 bs !! k = Some m →
  impact_from_meta m = impact_at im (Z.of_nat k).
Proof.
  intros Hm. destruct (metas_block_lookup _ _ _ _ _ Hm) as [b Hb].
  rewrite (metas_lookup bm im bs 0 0 0 0 k b Hb) in Hm. injection Hm as <-. unfold impact_from_meta. cbn. rewrite ?Z.add_0_l.
  by destruct (impact_at im (Z.of_nat k)).
Qed.

Lemma postings_tf_u32 ps : postings_ok ps → Forall (λ p, is_u32 (po_tf p)) ps.
Proof.
  intros [Heach _ Hsize]. assert (block_ok (0, ps)) as Hb by (split; [by_compute|done]).
  pose proof (block_tfs_u32 (0, ps) Hb) as H.
  unfold block_tfs in H. cbn [snd] in H. pose proof (position_total_nonneg ps). specialize (H ltac:(lia)).
  by rewrite Forall_fmap in H.
Qed.

Lemma chunk_impacts_ok lengths cs : Forall is_u32 lengths → Forall (λ c, Forall (λ p, is_u32 (po_tf p)) c) cs →
  impacts_ok [] (chunk_impact lengths <$> cs).
Proof.
  intros Hl Hcs. split; [constructor| |]; apply Forall_fmap; (eapply Forall_impl; [exact Hcs|]); intros c Hc;
    by destruct (chunk_impact_ok lengths c Hl Hc) as (H1 & H2 & _).
Qed.

(** C15: An encoded posting list reads back whole and row by row. For a list of
    strictly ascending document ids, each with its strictly ascending positions, of
    a size whose streams an offset reaches, the encoder ends under any callback with
    the same bytes, unless it ends with an error of the callback. Those bytes open;
    the reader decodes the whole list; and the lookup of any row finds exactly the
    posting a scan of the list finds, with its frequency, and decodes its positions
    without decoding the other rows. *)
Theorem postings_roundtrip l per_block block_maxima impacts version :
  postings_ok (pl_postings l) → 0 < per_block ≤ u16_max → impacts_ok block_maxima impacts →
  version = POSTINGS_VERSION_V1 ∨ version = POSTINGS_VERSION →
  ∃ encoded r,
    (∀ (W E : Type) (check : W → W * result E unit) (from : PostingsError → E) (work : WorkCheck W),
       let outcome := (encode_versioned check from (pl_postings l) per_block block_maxima impacts version work).2 in
       outcome = Ok encoded ∨ ∃ e, refuses check e ∧ outcome = Err e) ∧
    open (ep_bytes encoded) = Ok r ∧
    decode_all r = Ok l ∧
    ∀ row, match posting_of row (pl_postings l) with
           | None => positions r row = Ok None
           | Some p => ∃ v, positions r row = Ok (Some v) ∧ rp_count v = po_tf p ∧ decode v = Ok (po_positions p)
           end.
Proof.
  intros Hl Hpb Him Hv. exists {| ep_bytes := encoded_bytes (pl_postings l) per_block block_maxima impacts version |}.
  exists (reader_of (pl_postings l) per_block block_maxima impacts version). split_and!.
  - intros W E check from work. by apply settles_encode_versioned.
  - rewrite open_is_pure. by apply open_encoded.
  - rewrite decode_all_ok by done. by destruct l.
  - intros row. rewrite positions_is_pure.
    pose proof (positions_ok (pl_postings l) per_block block_maxima impacts version Hl Hpb row) as H. unfold row_served in H.
    destruct (posting_of row (pl_postings l)) as [p|]; [|done]. destruct H as (v & H1 & H2 & H3).
    exists v. by rewrite decode_is_pure.
Qed.

(** C18: The impact pair of a block bounds every posting in it, as the pruning of a
    query relies on. When the list is encoded with the pairs block_impacts computes,
    whichever block a reader of the bytes decodes, the pair in its row is present,
    has at least the frequency of each posting and at most the length of each row. *)
Theorem block_impact_dominates l per_block lengths encoded r index postings meta p :
  postings_ok (pl_postings l) → 0 < per_block ≤ u16_max → Forall is_u32 lengths →
  encode_v2 l per_block [] (block_impacts l per_block lengths) = Ok encoded →
  open (ep_bytes encoded) = Ok r → 0 ≤ index →
  decode_block r index = Ok postings → pr_blocks r !! Z.to_nat index = Some meta → p ∈ postings →
  let impact := impact_from_meta meta in
  impact_is_absent impact = false ∧ po_tf p ≤ bi_max_tf impact ∧ bi_min_len impact ≤ row_length lengths (po_docid p).
Proof.
  intros Hl Hpb Hlen Henc Hopen Hidx Hdec Hmeta Hp impact.
  rewrite block_impacts_pure in Henc by lia. set (im := chunk_impact lengths <$> chunked per_block (pl_postings l)) in *.
  assert (Forall (λ c, Forall (λ p, is_u32 (po_tf p)) c) (chunked per_block (pl_postings l))) as Htf
    by (apply chunked_Forall; [lia|]; by apply postings_tf_u32).
  assert (impacts_ok [] im) as Him by (by apply chunk_impacts_ok).
  unfold encode_v2 in Henc.
  rewrite (settles_unrefused unchecked _ _ (work_new tt) (λ _, eq_refl)
    (settles_encode_versioned unchecked id (pl_postings l) per_block [] im POSTINGS_VERSION Hl Hpb)) in Henc.
  injection Henc as <-. cbn [ep_bytes] in Hopen. rewrite open_is_pure, (open_encoded _ _ _ _ _ Hl Hpb Him ltac:(by right)) in Hopen.
  injection Hopen as <-. cbn [reader_of pr_blocks] in Hmeta.
  destruct (metas_block_lookup _ _ _ _ _ Hmeta) as [b Hb].
  rewrite <- (Z2Nat.id index Hidx) in Hdec. rewrite (decode_block_ok _ _ _ _ _ Hl Hpb _ b Hb) in Hdec. injection Hdec as <-.
  apply with_bases_lookup in Hb as [Hc _]. unfold impact. rewrite (impact_from_meta_at _ _ _ _ _ Hmeta).
  assert (impact_at im (Z.of_nat (Z.to_nat index)) = chunk_impact lengths b.2) as ->.
  { unfold impact_at, im. by rewrite Nat2Z.id, list_lookup_fmap, Hc. }
  rewrite Forall_lookup in Htf. destruct (chunk_impact_ok lengths b.2 Hlen (Htf _ _ Hc)) as (_ & _ & Hall).
  rewrite Forall_forall in Hall. destruct (Hall p Hp) as [H1 H2]. split_and!; [|done|done].
  apply Z.eqb_neq. assert (posting_ok p) as Hok.
  { pose proof (chunked_Forall _ per_block _ ltac:(lia) (ps_each _ Hl)) as Hf. rewrite Forall_lookup in Hf.
    specialize (Hf _ _ Hc). rewrite Forall_forall in Hf. by apply Hf. }
  pose proof (positions_some p Hok). rewrite (po_tf_ok p Hok) in H1. lia.
Qed.

(** A callback can stop a read and do nothing else.  Under any callback, opening
    bytes, locating a row and decoding its positions end as without one, the error
    converted into the caller's, or with an error the callback returned. *)
Theorem reader_callback_transparent {W E : Type} (check : W → W * result E unit) (from : PostingsError → E)
    data r row v (work : WorkCheck W) :
  let ends {A} (controlled : result E A) (plain : result PostingsError A) :=
    controlled = map_err from plain ∨ ∃ e, refuses check e ∧ controlled = Err e in
  ends (open_controlled check from data work).2 (open data) ∧
  ends (positions_controlled check from r row work).2 (positions r row) ∧
  ends (decode_controlled check from v work).2 (decode v).
Proof.
  cbv zeta. rewrite open_is_pure, positions_is_pure, decode_is_pure.
  split_and!; [apply settles_open|apply settles_positions|apply settles_decode].
Qed.

(** ** Updates of a list in memory *)

Lemma validate_positions_sound l : ∀ prev, validate_positions prev l = Ok tt →
  StronglySorted Z.lt l ∧ ∀ x, prev = Some x → Forall (Z.lt x) l.
Proof.
  induction l as [|y l IH]; intros prev H; [by split; [constructor|]|]. cbn in H.
  destruct (match prev with Some e => y <=? e | None => false end) eqn:Hy; [done|].
  destruct (IH _ H) as [Hs Hl]. specialize (Hl y eq_refl). split; [by constructor|]. intros x ->. apply Z.leb_gt in Hy.
  constructor; [lia|]. eapply Forall_impl; [exact Hl|]. intros z Hz. lia.
Qed.

(** Where a document id belongs in an ascending list. *)
Lemma docid_cut l docid : ascending l →
  let k := partition_point (λ p, po_docid p <? docid) l in
  Forall (λ p, po_docid p < docid) (take k l) ∧ Forall (λ p, docid ≤ po_docid p) (drop k l).
Proof.
  intros Ha k. destruct (partition_point_cut (λ x y, po_docid x < po_docid y) (λ p, po_docid p <? docid) l) as [H1 H2].
  { by apply SS_fmap. }
  { intros x y Hxy Hy%Z.ltb_lt. apply Z.ltb_lt. lia. }
  fold k in H1, H2. split; (eapply Forall_impl; [eassumption|]); intros p Hp; [by apply Z.ltb_lt|by apply Z.ltb_ge].
Qed.

(** The entry at the cut is the one with the document id, if there is one. *)
Lemma docid_at_cut l docid : ascending l →
  let k := partition_point (λ p, po_docid p <? docid) l in
  match l !! k with Some p => po_docid p =? docid | None => false end = true ↔ docid ∈ po_docid <$> l.
Proof.
  intros Ha k. destruct (docid_cut l docid Ha) as [H1 H2]. fold k in H1, H2. split.
  - destruct (l !! k) as [p|] eqn:Hp; [|done]. intros <-%Z.eqb_eq. apply list_elem_of_fmap_2. by eapply list_elem_of_lookup_2.
  - intros (p & -> & Hp)%list_elem_of_fmap. rewrite <- (take_drop k l) in Hp. apply elem_of_app in Hp as [Hp|Hp].
    + rewrite Forall_forall in H1. specialize (H1 p Hp). lia.
    + unfold ascending in Ha. rewrite <- (take_drop k l), fmap_app in Ha. apply StronglySorted_app_1_r in Ha.
      destruct (l !! k) as [q|] eqn:Hq.
      * rewrite (drop_S _ _ _ Hq) in *. apply Forall_cons in H2 as [H2 _]. apply Z.eqb_eq.
        apply elem_of_cons in Hp as [->|Hp]; [done|]. rewrite fmap_cons in Ha. apply StronglySorted_inv in Ha as [_ Ha].
        rewrite Forall_fmap, Forall_forall in Ha. specialize (Ha p Hp). cbn in Ha. lia.
      * apply lookup_ge_None in Hq. rewrite drop_ge in Hp by done. by apply elem_of_nil in Hp.
Qed.

Lemma ascending_NoDup_docids l : ascending l → NoDup (po_docid <$> l).
Proof.
  unfold ascending. intros Hs. induction Hs as [|x k Hs IH Hx]; constructor; [|done].
  intros Hin. rewrite Forall_forall in Hx. specialize (Hx x Hin). lia.
Qed.

(** Inserting a posting is refused without occurrences, with a document id the list
    has, or with positions that do not ascend; otherwise the list has it besides the
    others, in order. *)
Lemma insert_posting_spec l p : ascending (pl_postings l) →
  match insert_posting l p with
  | Err ZeroTermFrequency => empty_posting p = true
  | Err (DocidsNotAscending docid) => docid = po_docid p ∧ docid ∈ po_docid <$> pl_postings l
  | Err (PositionsNotAscending _) => ¬ StronglySorted Z.lt (po_positions p)
  | Err _ => False
  | Ok l' => ascending (pl_postings l') ∧ pl_postings l' ≡ₚ p :: pl_postings l ∧ StronglySorted Z.lt (po_positions p)
  end.
Proof.
  intros Ha. unfold insert_posting. destruct (empty_posting p) eqn:He; [done|]. cbv zeta.
  pose proof (docid_at_cut (pl_postings l) (po_docid p) Ha) as Hcut. cbv zeta in Hcut.
  destruct (docid_cut (pl_postings l) (po_docid p) Ha) as [H1 H2]. set (k := partition_point _ _) in *.
  destruct (match pl_postings l !! k with Some q => po_docid q =? po_docid p | None => false end); [split; [done|by apply Hcut]|].
  assert (po_docid p ∉ po_docid <$> pl_postings l) as Hnew by (intros H; by apply Hcut in H).
  destruct (validate_positions None (po_positions p)) as [[]|e] eqn:Hv; rsimpl.
  - split_and!; [| |by apply validate_positions_sound in Hv as [? _]]; cbn.
    + unfold ascending in *. rewrite fmap_app, fmap_cons. rewrite <- (take_drop k (pl_postings l)), fmap_app in Ha, Hnew.
      apply StronglySorted_app in Ha as (Hx & Hs1 & Hs2). apply StronglySorted_app_2; [|done|].
      * intros x y Hx' [->|Hy]%elem_of_cons; [|by apply Hx]. apply list_elem_of_fmap in Hx' as (q & -> & Hq).
        rewrite Forall_forall in H1. by apply H1.
      * constructor; [done|]. apply Forall_fmap, Forall_forall. intros q Hq. rewrite Forall_forall in H2. specialize (H2 q Hq). cbn.
        destruct (Z.eq_dec (po_docid p) (po_docid q)) as [E|]; [|lia]. exfalso. apply Hnew. rewrite E.
        apply elem_of_app. right. by apply list_elem_of_fmap_2.
    + rewrite <- Permutation_middle. by rewrite take_drop.
  - assert (∀ l prev e, validate_positions prev l = Err e → ∃ x, e = PositionsNotAscending x) as Hform.
    { clear. induction l as [|x l IH]; intros prev e H; [done|]. cbn in H. case_match; [injection H as <-; by exists x|by eapply IH]. }
    destruct (Hform _ _ _ Hv) as [x ->]. intros Hs. by rewrite (validate_positions_ok _ None Hs) in Hv.
Qed.

(** Removing a document id takes its posting out and says whether there was one. *)
Lemma remove_posting_spec l docid : ascending (pl_postings l) →
  pl_postings (remove_posting l docid).1 = List.filter (λ p, negb (po_docid p =? docid)) (pl_postings l) ∧
  ((remove_posting l docid).2 = true ↔ docid ∈ po_docid <$> pl_postings l).
Proof.
  intros Ha. pose proof (docid_at_cut (pl_postings l) docid Ha) as Hcut. cbv zeta in Hcut. unfold remove_posting. cbv zeta.
  set (k := partition_point _ _) in *. assert (∀ ps, docid ∉ po_docid <$> ps →
    List.filter (λ p, negb (po_docid p =? docid)) ps = ps) as Hkeep.
  { intros ps Hn. apply forallb_filter_id, forallb_forall. intros p Hp%list_elem_of_In.
    apply negb_true_iff, Z.eqb_neq. intros <-. by apply Hn, list_elem_of_fmap_2. }
  destruct (pl_postings l !! k) as [q|] eqn:Hq; [destruct (Z.eqb_spec (po_docid q) docid) as [<-|]|].
  - split; [|by rewrite <- Hcut]. cbn. pose proof (ascending_NoDup_docids (pl_postings l) Ha) as Hnd.
    rewrite <- (take_drop_middle _ _ _ Hq) in Hnd at 1. rewrite fmap_app, fmap_cons in Hnd.
    apply NoDup_app in Hnd as (_ & Hd1 & [Hd2 _]%NoDup_cons).
    rewrite <- (take_drop_middle _ _ _ Hq) at 2. rewrite List.filter_app. cbn [List.filter]. rewrite Z.eqb_refl. cbn [negb].
    rewrite delete_take_drop, !Hkeep; [done|done|]. intros H. apply (Hd1 _ H). left.
  - split; [cbn; symmetry; apply Hkeep; intros H%Hcut; done|done].
  - split; [cbn; symmetry; apply Hkeep; intros H%Hcut; done|done].
Qed.

(** ** Readers of any bytes *)

(** What opening establishes of a row: widths a value fits, and streams that reach
    the end of its pieces. *)
Record row_in (docids tfs positions : Z) (m : BlockMeta) : Prop := {
  ri_count : 0 ≤ bm_count m;
  ri_positions_count : 0 ≤ bm_positions_count m;
  ri_docid_bits : 0 ≤ bm_docid_bits m ≤ 32;
  ri_tf_bits : 0 ≤ bm_tf_bits m ≤ 32;
  ri_position_bits : 0 ≤ bm_position_bits m ≤ 32;
  ri_docids : 0 ≤ bm_docids_offset m ∧ bm_docids_offset m + packed_len (bm_count m) (bm_docid_bits m) ≤ docids;
  ri_tfs : 0 ≤ bm_tfs_offset m ∧ bm_tfs_offset m + packed_len (bm_count m) (bm_tf_bits m) ≤ tfs;
  ri_positions : 0 ≤ bm_positions_offset m ∧
    bm_positions_offset m + packed_len (bm_positions_count m) (bm_position_bits m) ≤ positions;
}.

Lemma row_in_grows d t p d' t' p' m : d ≤ d' → t ≤ t' → p ≤ p' → row_in d t p m → row_in d' t' p' m.
Proof. intros ? ? ? [? ? ? ? ? [? ?] [? ?] [? ?]]. split; (done || lia). Qed.

Lemma postings_read_u32_nonneg b a z : postings_read_u32 b a = Ok z → 0 ≤ z.
Proof. unfold postings_read_u32. intros H. ok_inv H x Hx. injection H as <-. by apply (from_le_bound x (len x)). Qed.

Lemma postings_read_u16_nonneg b a z : postings_read_u16 b a = Ok z → 0 ≤ z.
Proof. unfold postings_read_u16. intros H. ok_inv H x Hx. injection H as <-. by apply (from_le_bound x (len x)). Qed.

Lemma postings_read_u8_nonneg b a z : postings_read_u8 b a = Ok z → 0 ≤ z.
Proof. unfold postings_read_u8. intros H. ok_inv H x Hx. injection H as <-. by apply byte_bound. Qed.

Lemma check_widths_ok widths : check_widths widths = Ok tt → Forall (λ w, w ≤ 32) widths.
Proof.
  induction widths as [|w widths IH]; cbn; [constructor|]. destruct (Z.ltb_spec 32 w); [done|].
  intros Hw. constructor; [lia|by apply IH].
Qed.

Lemma open_row_in metadata pb pc s i s' : open_row metadata pb pc s i = Ok s' →
  Forall (row_in (op_docid_bytes s) (op_tf_bytes s) (op_position_bytes s)) (op_blocks s) →
  Forall (row_in (op_docid_bytes s') (op_tf_bytes s') (op_position_bytes s')) (op_blocks s').
Proof.
  unfold open_row. cbv zeta. intros H Hs. ok_inv H row Hrow. bind_inv H meta Hmeta. bind_inv H u Hw. destruct u.
  apply check_widths_ok in Hw. rewrite !Forall_cons in Hw. destruct Hw as (W1 & W2 & W3 & _).
  destruct (_ || _); [done|]. injection H as <-. cbn. apply Forall_app. split.
  - eapply Forall_impl; [exact Hs|]. intros m. apply row_in_grows; lia.
  - apply Forall_singleton. unfold meta_read in Hmeta. ok_inv Hmeta r0 Hr0.
    bind_inv Hmeta f1 F1. bind_inv Hmeta f2 F2. bind_inv Hmeta f3 F3. bind_inv Hmeta f4 F4. bind_inv Hmeta f5 F5.
    bind_inv Hmeta f6 F6. bind_inv Hmeta f7 F7. bind_inv Hmeta f8 F8. bind_inv Hmeta f9 F9. bind_inv Hmeta f10 F10.
    bind_inv Hmeta f11 F11. bind_inv Hmeta f12 F12. injection Hmeta as <-. cbn in *.
    apply postings_read_u32_nonneg in F2, F3, F4, F5. apply postings_read_u16_nonneg in F6. apply postings_read_u8_nonneg in F7, F8, F9.
    split; cbn; lia.
Qed.

Lemma open_rows_in metadata pb pc indices : ∀ s s', fold_result (open_row metadata pb pc) indices s = Ok s' →
  Forall (row_in (op_docid_bytes s) (op_tf_bytes s) (op_position_bytes s)) (op_blocks s) →
  Forall (row_in (op_docid_bytes s') (op_tf_bytes s') (op_position_bytes s')) (op_blocks s').
Proof.
  induction indices as [|i indices IH]; intros s s' H Hs; cbn in H; [by injection H as <-|].
  bind_inv H s1 H1. eapply IH; [exact H|]. by eapply open_row_in.
Qed.

Lemma opened_rows data r : open data = Ok r →
  Forall (row_in (len (pr_docids r)) (len (pr_tfs r)) (len (pr_positions r))) (pr_blocks r).
Proof.
  rewrite open_is_pure. unfold open_pure. intros H. bind_inv H x Hx. destruct x as [[[version pb] pc] bc].
  bind_inv H y Hy. destruct y as [metadata metadata_end]. bind_inv H s Hs. destruct (negb _); [done|].
  bind_inv H z Hz. destruct z as [[docids tfs] ps]. injection H as <-. cbn.
  apply open_rows_in in Hs; [|constructor]. unfold open_streams in Hz. ok_inv Hz streams Hstr. ok_inv Hz ps0 Hp0. ok_inv Hz pe Hpe.
  destruct (_ <? _); [done|]. ok_inv Hz d Hd. ok_inv Hz t Ht. ok_inv Hz q Hq. injection Hz as <- <- <-.
  apply checked_add_Some in Hp0 as [-> _]. apply checked_add_Some in Hpe as [-> _].
  apply slice_to_Some in Hd. apply slice_range_Some in Ht, Hq. 
  eapply Forall_impl; [exact Hs|]. intros m. apply row_in_grows; lia.
Qed.

Lemma decode_gaps_outcome deltas cursor : 0 ≤ cursor → ∀ steps running, Forall (Z.le 0) steps →
  (∃ positions, decode_gaps deltas cursor steps running = Ok positions ∧ length positions = length steps) ∨
  ∃ needed, len deltas < needed ∧ decode_gaps deltas cursor steps running = Err (PostingsTruncated needed (len deltas)).
Proof.
  intros Hc steps. induction steps as [|step steps IH]; intros running Hs; [left; by exists []|].
  apply Forall_cons in Hs as [H0 Hs]. cbn [decode_gaps]. destruct (deltas !! Z.to_nat (cursor + step)) as [gap|] eqn:Hg; rsimpl.
  - destruct (IH (if step =? 0 then gap else saturating_add u32_max running gap) Hs) as [(ps & -> & Hl)|(n & Hn & ->)]; rsimpl.
    + left. eexists. split; [done|]. cbn. by f_equal.
    + right. by exists n.
  - right. apply lookup_ge_None in Hg. eexists. split; [|done]. unfold len. lia.
Qed.

Lemma decode_slots_outcome index deltas frequencies gaps slots : Forall (Z.le 0) frequencies → ∀ base cursor, 0 ≤ cursor →
  (∃ ps, decode_slots index deltas frequencies gaps slots base cursor = Ok ps ∧ length ps = length slots ∧
     Forall (λ p, 0 < po_tf p ∧ len (po_positions p) = po_tf p) ps) ∨
  decode_slots index deltas frequencies gaps slots base cursor = Err ZeroTermFrequency ∨
  ∃ needed, len gaps < needed ∧ decode_slots index deltas frequencies gaps slots base cursor
    = Err (PostingsTruncated needed (len gaps)).
Proof.
  intros Hf. induction slots as [|slot slots IH]; intros base cursor Hc; [left; by exists []|]. cbn [decode_slots].
  set (tf := default 0 (frequencies !! Z.to_nat slot)).
  assert (0 ≤ tf) as Htf.
  { unfold tf. destruct (frequencies !! Z.to_nat slot) as [f|] eqn:H; [|done]. rewrite Forall_lookup in Hf. by eapply Hf. }
  destruct (Z.eqb_spec tf 0) as [|Hnz]; [by right; left|].
  destruct (decode_gaps_outcome gaps cursor Hc (seqZ 0 tf) 0) as [(positions & -> & Hl)|(n & Hn & ->)].
  { apply Forall_seqZ. lia. }
  2:{ right; right. by exists n. }
  rsimpl. rewrite length_seqZ in Hl.
  set (docid := if (index =? 0) && (slot =? 0) then _ else _).
  destruct (IH docid (saturating_add usize_max cursor tf)) as [(ps & -> & Hps & Hall)|[->|(n & Hn & ->)]].
  { unfold saturating_add. assert (0 ≤ usize_max) by by_compute. lia. }
  - left. rsimpl. eexists. split; [done|]. split; [cbn; by f_equal|]. constructor; [|done]. cbn. unfold len. lia.
  - right. by left.
  - right. right. by exists n.
Qed.

Lemma fields_nonneg n bits count : 0 ≤ bits → Forall (Z.le 0) (fields n bits count).
Proof. intros Hb. unfold fields. apply Forall_fmap, Forall_forall. intros k _. cbn. apply field_bound; lia. Qed.

(** A stream sliced at an offset still covers the piece of the row. *)
Lemma slice_covers (l : bytes) offset n : 0 ≤ offset → offset + n ≤ len l → 0 ≤ n →
  ∃ rest, slice_from l offset = Some rest ∧ n ≤ len rest.
Proof.
  intros Ho Hn H0. unfold slice_from. decide_Z. eexists. split; [done|]. unfold len in *. rewrite length_drop. lia.
Qed.

(** C19: Decoding a block of any bytes that open. The reader holds every stream the
    block needs, so that decoding it reads inside the bytes: it gives as many
    postings as the row counts, each with as many positions as its frequency, or it
    ends with one of two errors that opening does not rule out, a frequency of zero
    or frequencies that add up to more positions than the row counts. *)
Theorem opened_block_outcome data r index meta :
  open data = Ok r → 0 ≤ index → pr_blocks r !! Z.to_nat index = Some meta →
  (∃ ps, decode_block r index = Ok ps ∧ len ps = bm_count meta ∧
     Forall (λ p, 0 < po_tf p ∧ len (po_positions p) = po_tf p) ps) ∨
  decode_block r index = Err ZeroTermFrequency ∨
  ∃ needed, bm_positions_count meta < needed ∧
    decode_block r index = Err (PostingsTruncated needed (bm_positions_count meta)).
Proof.
  intros Hopen Hi Hm. apply opened_rows in Hopen as Hrows. rewrite Forall_lookup in Hrows.
  destruct (Hrows _ _ Hm) as [Hc Hpc B1 B2 B3 [O1 L1] [O2 L2] [O3 L3]].
  pose proof (packed_len_nonneg (bm_count meta) (bm_docid_bits meta) Hc ltac:(lia)).
  pose proof (packed_len_nonneg (bm_count meta) (bm_tf_bits meta) Hc ltac:(lia)).
  pose proof (packed_len_nonneg (bm_positions_count meta) (bm_position_bits meta) Hpc ltac:(lia)).
  destruct (slice_covers _ _ _ O1 L1) as (d & Hd & Ld); [lia|]. destruct (slice_covers _ _ _ O2 L2) as (t & Ht & Lt); [lia|].
  destruct (slice_covers _ _ _ O3 L3) as (p & Hp & Lp); [lia|].
  unfold decode_block. rewrite Hm, Hd, Ht, Hp. rsimpl. rewrite !unpack_bits_spec by lia. rsimpl. cbn [snd].
  set (base := if index =? 0 then _ else _).
  set (gaps := fields (from_le p) (bm_position_bits meta) (Z.to_nat (bm_positions_count meta))).
  assert (len gaps = bm_positions_count meta) as Hg.
  { unfold gaps, fields. rewrite len_fmap. unfold len. rewrite length_seq. lia. }
  destruct (decode_slots_outcome index (fields (from_le d) (bm_docid_bits meta) (Z.to_nat (bm_count meta)))
    (fields (from_le t) (bm_tf_bits meta) (Z.to_nat (bm_count meta))) gaps (seqZ 0 (bm_count meta))
    (fields_nonneg _ _ _ (proj1 B2)) base 0 ltac:(done)) as [(ps & -> & Hl & Hall)|[->|(n & Hn & ->)]].
  - left. exists ps. split_and!; [done| |done]. rewrite length_seqZ in Hl. unfold len. lia.
  - right. by left.
  - right. right. exists n. by rewrite <- Hg.
Qed.

(** ** A sample *)

Module SamplePostings.

Definition posting (docid : Z) (positions : list Z) : Posting :=
  {| po_docid := docid; po_tf := len positions; po_positions := positions |}.

(** Two blocks of two postings and one of one, with a gap of thirty-two bits. *)
Definition sample : PostingList := {| pl_postings :=
  [posting 3 [0; 5; 9]; posting 4 [2]; posting 9 [1; 100; 70000]; posting 4000000000 [7];
   posting 4000000001 [0; 4294967295]] |}.

Definition lengths : list Z := [12; 7; 9; 30; 11].

Lemma sample_postings_ok : postings_ok (pl_postings sample).
Proof.
  split; [|repeat constructor|by_compute].
  repeat first [apply List.Forall_nil | apply List.Forall_cons]; split; try by_compute; try discriminate; repeat constructor.
Qed.

(** What the encoder and the reader make of it. *)
Definition encoded : EncodedPostings :=
  default {| ep_bytes := [] |} (ok (encode_v2 sample 2 [] (block_impacts sample 2 lengths))).
Definition reader : PostingsReader :=
  default {| pr_version := 0; pr_blocks := []; pr_docids := []; pr_tfs := []; pr_positions := [];
             pr_posting_count := 0; pr_postings_per_block := 0 |} (ok (open (ep_bytes encoded))).
End SamplePostings.

Lemma postings_roundtrip_witness : ∃ encoded r,
  encode_v2 SamplePostings.sample 2 [] [] = Ok encoded ∧ open (ep_bytes encoded) = Ok r ∧
  decode_all r = Ok SamplePostings.sample ∧
  ∃ v, positions r 4000000001 = Ok (Some v) ∧ decode v = Ok [0; 4294967295].
Proof.
  destruct (postings_roundtrip SamplePostings.sample 2 [] [] POSTINGS_VERSION SamplePostings.sample_postings_ok
    ltac:(by_compute) ltac:(repeat constructor) ltac:(by right)) as (encoded & r & Henc & Hopen & Hall & Hrow).
  exists encoded, r. split_and!; [|done|done|].
  - destruct (Henc unit PostingsError unchecked id (work_new tt)) as [H|(e & (c & Hc) & _)]; [exact H|discriminate Hc].
  - destruct (Hrow 4000000001) as (v & Hv & _ & Hd). by exists v.
Defined.

Lemma block_impact_dominates_witness :
  let impact := {| bi_max_tf := 3; bi_min_len := 11 |} in
  (impact_from_meta <$> (pr_blocks SamplePostings.reader !! O)) = Some impact ∧
  1 ≤ bi_max_tf impact ∧ bi_min_len impact ≤ row_length SamplePostings.lengths 4.
Proof.
  intros impact. split; [vm_compute; reflexivity|].
  destruct (pr_blocks SamplePostings.reader !! O) as [meta|] eqn:Hmeta; [|vm_compute in Hmeta; discriminate Hmeta].
  assert (impact_from_meta meta = impact) as <- by (vm_compute in Hmeta; injection Hmeta as <-; reflexivity).
  apply (block_impact_dominates SamplePostings.sample 2 SamplePostings.lengths SamplePostings.encoded SamplePostings.reader 0
    (take 2 (pl_postings SamplePostings.sample)) meta (SamplePostings.posting 4 [2]) SamplePostings.sample_postings_ok).
  - by_compute.
  - by_compute.
  - vm_compute. reflexivity.
  - vm_compute. reflexivity.
  - done.
  - vm_compute. reflexivity.
  - exact Hmeta.
  - right. left.
Defined.

(** The bytes of the sample with its frequencies zeroed open, and their first block
    does not decode. *)
Definition zeroed_sample : bytes :=
  let b := ep_bytes SamplePostings.encoded in
  take 121 b ++ [Byte.x00; Byte.x00; Byte.x00] ++ drop 124 b.

Lemma opened_block_outcome_witness : ∃ r meta,
  open zeroed_sample = Ok r ∧ pr_blocks r !! O = Some meta ∧ decode_block r 0 = Err ZeroTermFrequency ∧
  ((∃ ps, decode_block r 0 = Ok ps ∧ len ps = bm_count meta ∧
      Forall (λ p, 0 < po_tf p ∧ len (po_positions p) = po_tf p) ps) ∨
   decode_block r 0 = Err ZeroTermFrequency ∨
   ∃ needed, bm_positions_count meta < needed ∧
     decode_block r 0 = Err (PostingsTruncated needed (bm_positions_count meta))).
Proof.
  destruct (open zeroed_sample) as [r|e] eqn:Hopen; [|vm_compute in Hopen; discriminate Hopen].
  destruct (pr_blocks r !! O) as [meta|] eqn:Hmeta.
  - exists r, meta. split_and!; [done|done| |exact (opened_block_outcome zeroed_sample r 0 meta Hopen ltac:(done) Hmeta)].
    vm_compute in Hopen. injection Hopen as <-. vm_compute. reflexivity.
  - vm_compute in Hopen. injection Hopen as <-. discriminate Hmeta.
Defined.
