(* ===== verification/Phrase.v ===== *)
(** * Phrase matching

    Models the alignment search of [crates/zeppelin-embed/src/fts/phrase.rs] and the
    phrase scan of one segment, with the lookup of a posting list in
    [crates/zeppelin-embed/src/fts/index.rs].

    A phrase matches a row when its terms occur at non-decreasing positions whose
    total displacement from adjacency is at most the slop.  The code fixes the
    position of the first term and runs a dynamic program over the others; it is
    shown to compute the minimum over every alignment. *)

From S2P Require Import Prelude WorkCheck Postings PostingsEncode PostingsRead.

(** ** The code *)

(** [u32::abs_diff]. *)
Definition abs_diff (a b : Z) : Z := Z.abs (a - b).

(** [Some(best.map_or(cost, |best| best.min(cost)))]. *)
Definition best_min (best : option Z) (cost : Z) : option Z :=
  Some (match best with Some b => b `min` cost | None => cost end).

Section Controlled.
Context {W E : Type} (check : W → W * result E unit).

Abbreviation Work A := (RunE (WorkCheck W) E A).

(** The cheapest predecessor of a candidate. *)
Definition predecessors (candidate : Z) (previous : list (Z * Z)) : Work (option Z) :=
  run_fold (λ best '(position, cost),
    let! _ := work_step check in
    run_ret (if position <=? candidate then best_min best cost else best))%run previous None.

(** One occurrence of a term, kept when it has a predecessor. *)
Definition align_candidate (anchor expected : Z) (previous : list (Z * Z)) (current : list (Z * Z)) (candidate : Z)
  : Work (list (Z * Z)) :=
  let! _ := work_step check in
  let! best := predecessors candidate previous in
  run_ret (match best with
           | None => current
           | Some best =>
               let relative := saturating_sub candidate anchor in
               current ++ [(candidate, saturating_add u32_max best (abs_diff relative expected))]
           end).

(** The terms after the first, left at the first one without a candidate. *)
Fixpoint align_terms (anchor : Z) (terms : list (Z * list Z)) (previous : list (Z * Z)) : Work (list (Z * Z)) :=
  match terms with
  | [] => run_ret previous
  | (offset, stream) :: terms =>
      let! _ := work_step check in
      let expected := saturate u32_max offset in
      let! current := run_fold (align_candidate anchor expected previous) stream [] in
      match current with
      | [] => run_ret []
      | _ => align_terms anchor terms current
      end
  end%run.

(** The first pass: a term without an occurrence ends the search. *)
Fixpoint some_empty (streams : list (list Z)) : Work bool :=
  match streams with
  | [] => run_ret false
  | stream :: streams =>
      let! _ := work_step check in
      if len stream =? 0 then run_ret true else some_empty streams
  end%run.

Definition align_anchor (streams : list (list Z)) (best : option Z) (anchor : Z) : Work (option Z) :=
  let! _ := work_step check in
  let! previous := align_terms anchor (tail (enumerate_from 0 streams)) [(anchor, 0)] in
  run_fold (λ best '(_, cost), let! _ := work_step check in run_ret (best_min best cost)) previous best.

Definition minimum_displacement_controlled (streams : list (list Z)) : Work (option Z) :=
  let! _ := check_now check in
  match streams with
  | [] => run_ret None
  | first :: _ =>
      if len streams =? 1 then run_ret (if len first =? 0 then None else Some 0)
      else
        let! empty := some_empty streams in
        if empty : bool then run_ret None
        else
          let! best := run_fold (align_anchor streams) first None in
          let! _ := check_now check in
          run_ret best
  end.
End Controlled.

(** [Infallible] has no value: only the success remains. *)
Definition minimum_displacement (streams : list (list Z)) : option Z :=
  match (minimum_displacement_controlled (E := Empty_set) unchecked streams (work_new tt)).2 with
  | Ok displacement => displacement
  | Err never => match never with end
  end.

Definition streams_match (streams : list (list Z)) (slop : Z) : bool :=
  match minimum_displacement streams with Some cost => cost <=? slop | None => false end.

(** The part of a segment's index the scan reads: the slot of a term key, and the
    lists by slot. *)
Record SegmentIndex : Type := {
  si_terms : gmap (bytes * Z) nat;
  si_lists : list PostingList;
}.

Definition posting_list (segment : SegmentIndex) (term : bytes) (field : Z) : option PostingList :=
  slot ← si_terms segment !! (term, field);
  si_lists segment !! slot.

Record PhraseQuery : Type := {
  ph_terms : list bytes;
  ph_slop : Z;
  ph_field : Z;
}.

Inductive PhraseError : Type := PhraseEmpty.

(** The positions of every term in one row, or [None] when a term is not in it. *)
Fixpoint row_streams (segment : SegmentIndex) (field docid : Z) (terms : list bytes) : option (list (list Z)) :=
  match terms with
  | [] => Some []
  | term :: terms =>
      list ← posting_list segment term field;
      entry ← List.find (λ candidate, po_docid candidate =? docid) (pl_postings list);
      rest ← row_streams segment field docid terms;
      Some (po_positions entry :: rest)
  end.

Definition search_segment (segment : SegmentIndex) (query : PhraseQuery) : result PhraseError (list Z) :=
  match ph_terms query with
  | [] => Err PhraseEmpty
  | first :: _ =>
      match posting_list segment first (ph_field query) with
      | None => Ok []
      | Some anchor_list =>
          Ok (po_docid <$> List.filter (λ posting,
            match row_streams segment (ph_field query) (po_docid posting) (ph_terms query) with
            | Some streams => streams_match streams (ph_slop query)
            | None => false
            end) (pl_postings anchor_list))
      end
  end.

(** ** Alignments *)

(** The positions [q] of the remaining terms, none before the one at [position]. *)
Fixpoint path (position : Z) (streams : list (list Z)) (q : list Z) : Prop :=
  match streams, q with
  | [], [] => True
  | stream :: streams, x :: q => x ∈ stream ∧ position ≤ x ∧ path x streams q
  | _, _ => False
  end.

(** [SUM |(qi - q0) - i|] over the terms from the [i]th on. *)
Fixpoint path_cost (anchor i : Z) (q : list Z) : Z :=
  match q with
  | [] => 0
  | x :: q => Z.abs (x - anchor - i) + path_cost anchor (i + 1) q
  end.

(** An alignment of a phrase: an occurrence of the first term and a path from it. *)
Definition alignment (streams : list (list Z)) (q : list Z) : Prop :=
  match streams, q with
  | first :: streams, x :: q => x ∈ first ∧ path x streams q
  | _, _ => False
  end.

Definition displacement (q : list Z) : Z :=
  match q with
  | [] => 0
  | x :: q => path_cost x 1 q
  end.

Lemma path_cost_nonneg anchor i q : 0 ≤ path_cost anchor i q.
Proof. revert i. induction q as [|x q IH]; intros i; cbn; [lia|]. specialize (IH (i + 1)). lia. Qed.

(** ** The search without a callback *)

Definition predecessors_pure (candidate : Z) (previous : list (Z * Z)) : option Z :=
  fold_left (λ best '(position, cost), if position <=? candidate then best_min best cost else best) previous None.

Definition candidate_pure (anchor expected : Z) (previous current : list (Z * Z)) (candidate : Z) : list (Z * Z) :=
  match predecessors_pure candidate previous with
  | None => current
  | Some best =>
      current ++ [(candidate, saturating_add u32_max best (abs_diff (saturating_sub candidate anchor) expected))]
  end.

Definition term_pure (anchor expected : Z) (stream : list Z) (previous : list (Z * Z)) : list (Z * Z) :=
  fold_left (candidate_pure anchor expected previous) stream [].

Fixpoint align_pure (anchor : Z) (terms : list (Z * list Z)) (previous : list (Z * Z)) : list (Z * Z) :=
  match terms with
  | [] => previous
  | (offset, stream) :: terms =>
      match term_pure anchor (saturate u32_max offset) stream previous with
      | [] => []
      | current => align_pure anchor terms current
      end
  end.

Definition anchor_pure (streams : list (list Z)) (best : option Z) (anchor : Z) : option Z :=
  fold_left (λ best '(_, cost), best_min best cost)
    (align_pure anchor (tail (enumerate_from 0 streams)) [(anchor, 0)]) best.

Definition minimum_pure (streams : list (list Z)) : option Z :=
  match streams with
  | [] => None
  | first :: _ =>
      if len streams =? 1 then if len first =? 0 then None else Some 0
      else if existsb (λ stream, len stream =? 0) streams then None
      else fold_left (anchor_pure streams) first None
  end.

Section Pure.
Context {W E : Type} (check : W → W * result E unit).

Lemma settles_align terms anchor : ∀ previous,
  settles check (align_terms check anchor terms previous) (Ok (align_pure anchor terms previous)).
Proof.
  induction terms as [|[offset stream] terms IH]; intros previous; cbn [align_terms align_pure]; [apply settles_ret|].
  eapply settles_bind; [apply settles_step|]. eapply settles_bind.
  { apply (settles_fold _ _ (candidate_pure anchor (saturate u32_max offset) previous)). intros current candidate _.
    eapply settles_bind; [apply settles_step|]. eapply settles_bind; [|apply settles_ret].
    apply (settles_fold _ _ (λ best '(position, cost), if position <=? candidate then best_min best cost else best)).
    intros best [position cost] _. eapply settles_bind; [apply settles_step|apply settles_ret]. }
  fold (term_pure anchor (saturate u32_max offset) stream previous). case_match; [apply settles_ret|apply IH].
Qed.

Lemma settles_some_empty streams :
  settles check (some_empty check streams) (Ok (existsb (λ stream, len stream =? 0) streams)).
Proof.
  induction streams as [|stream streams IH]; cbn [some_empty existsb]; [apply settles_ret|].
  eapply settles_bind; [apply settles_step|]. destruct (len stream =? 0); [apply settles_ret|apply IH].
Qed.

Lemma settles_minimum streams : settles check (minimum_displacement_controlled check streams) (Ok (minimum_pure streams)).
Proof.
  unfold minimum_displacement_controlled, minimum_pure. eapply settles_bind; [apply settles_check|].
  destruct streams as [|first streams]; [apply settles_ret|]. destruct (_ =? 1); [apply settles_ret|].
  eapply settles_bind; [apply settles_some_empty|]. destruct (existsb _ _); [apply settles_ret|].
  eapply settles_bind; [apply (settles_fold _ _ (anchor_pure (first :: streams)))|].
  - intros best anchor _. unfold align_anchor. eapply settles_bind; [apply settles_step|].
    eapply settles_bind; [apply settles_align|]. apply (settles_fold _ _ (λ best '(_, cost), best_min best cost)).
    intros b [p c] _. eapply settles_bind; [apply settles_step|apply settles_ret].
  - eapply settles_bind; [apply settles_check|apply settles_ret].
Qed.
End Pure.

Lemma minimum_is_pure streams : minimum_displacement streams = minimum_pure streams.
Proof.
  unfold minimum_displacement.
  by rewrite (settles_unrefused unchecked _ _ (work_new tt) (λ _, eq_refl) (settles_minimum unchecked streams)).
Qed.

(** ** The dynamic program *)

(** A minimum over the elements a predicate keeps. *)
Definition is_minimum {A} (keep : A → Prop) (cost : A → Z) (l : list A) (best : option Z) : Prop :=
  match best with
  | None => ∀ a, a ∈ l → ¬ keep a
  | Some m => (∃ a, a ∈ l ∧ keep a ∧ cost a = m) ∧ ∀ a, a ∈ l → keep a → m ≤ cost a
  end.

Lemma fold_minimum {A} (keep : A → bool) (cost : A → Z) (l pre : list A) best :
  is_minimum (λ a, keep a = true) cost pre best →
  is_minimum (λ a, keep a = true) cost (pre ++ l)
    (fold_left (λ best a, if keep a then best_min best (cost a) else best) l best).
Proof.
  revert pre best. induction l as [|a l IH]; intros pre best H; [by rewrite app_nil_r|]. cbn [fold_left].
  replace (pre ++ a :: l) with ((pre ++ [a]) ++ l) by (by rewrite <- app_assoc). apply IH.
  destruct (keep a) eqn:Hk; cbn.
  - destruct best as [m|]; cbn in H.
    + destruct H as [(b & Hb & Hkb & Hc) Hmin]. split.
      * destruct (Z.le_gt_cases m (cost a)); [exists b|exists a]; rewrite elem_of_app; (split_and!; [set_solver|done|lia]).
      * intros x [Hx| ->%list_elem_of_singleton]%elem_of_app Hkx; [specialize (Hmin x Hx Hkx)|]; lia.
    + split; [exists a; split_and!; [set_solver|done|done]|].
      intros x [Hx| ->%list_elem_of_singleton]%elem_of_app Hkx; [by destruct (H x Hx)|lia].
  - destruct best as [m|]; cbn in *.
    + destruct H as [(b & Hb & Hkb & Hc) Hmin]. split; [exists b; split_and!; [set_solver|done|done]|].
      intros x [Hx| ->%list_elem_of_singleton]%elem_of_app Hkx; [by apply Hmin|congruence].
    + intros x [Hx| ->%list_elem_of_singleton]%elem_of_app Hkx; [by apply (H x)|congruence].
Qed.

Lemma fold_left_ext {A B} (f g : B → A → B) l b : (∀ b a, f b a = g b a) → fold_left f l b = fold_left g l b.
Proof. intros H. revert b. induction l as [|a l IH]; intros b; cbn; [done|]. by rewrite H, IH. Qed.

Lemma predecessors_minimum candidate previous :
  is_minimum (λ a, (a.1 <=? candidate) = true) snd previous (predecessors_pure candidate previous).
Proof.
  unfold predecessors_pure. erewrite fold_left_ext.
  - apply (fold_minimum (λ a : Z * Z, a.1 <=? candidate) snd previous []). by intros a Ha%elem_of_nil.
  - by intros b [p c].
Qed.

(** One term: the candidates with a predecessor, each at the cost of the cheapest. *)
Lemma candidates_fold anchor expected previous stream : ∀ current,
  fold_left (candidate_pure anchor expected previous) stream current
  = current ++ concat ((λ x, candidate_pure anchor expected previous [] x) <$> stream).
Proof.
  induction stream as [|x stream IH]; intros current; cbn [fold_left]; [cbn; by rewrite app_nil_r|].
  rewrite IH. cbn [fmap list_fmap concat]. rewrite app_assoc. f_equal. unfold candidate_pure.
  destruct (predecessors_pure x previous); [done|]. by rewrite app_nil_r.
Qed.

Lemma term_elem anchor expected stream previous x c : (x, c) ∈ term_pure anchor expected stream previous ↔
  x ∈ stream ∧ ∃ best, predecessors_pure x previous = Some best
    ∧ c = saturating_add u32_max best (abs_diff (saturating_sub x anchor) expected).
Proof.
  unfold term_pure. rewrite candidates_fold, app_nil_l, list_elem_of_In, in_concat. split.
  - intros (l & Hl%list_elem_of_In & Hx%list_elem_of_In). apply list_elem_of_fmap in Hl as (y & -> & Hy).
    unfold candidate_pure in Hx. destruct (predecessors_pure y previous) as [best|] eqn:Hb; [|by apply elem_of_nil in Hx].
    cbn in Hx. apply list_elem_of_singleton in Hx. injection Hx as -> ->. split; [done|]. by exists best.
  - intros (Hx & best & Hb & ->). exists (candidate_pure anchor expected previous [] x). split.
    + apply list_elem_of_In, list_elem_of_fmap. by exists x.
    + apply list_elem_of_In. unfold candidate_pure. rewrite Hb. cbn. left.
Qed.

(** The costs a state holds: all within [u32], from [anchor] on. *)
Definition state_ok (anchor : Z) (previous : list (Z * Z)) : Prop :=
  Forall (λ a, anchor ≤ a.1 ∧ 0 ≤ a.2 ≤ u32_max) previous.

Lemma term_ok anchor expected stream previous : 0 ≤ u32_max →
  state_ok anchor previous → state_ok anchor (term_pure anchor expected stream previous).
Proof.
  intros Hz Hp. apply Forall_forall. intros [x c] Hx. apply term_elem in Hx as (Hx & best & Hb & ->).
  pose proof (predecessors_minimum x previous) as Hmin. rewrite Hb in Hmin. destruct Hmin as [(a & Ha & Hle & <-) _].
  unfold state_ok in Hp. rewrite Forall_forall in Hp. destruct (Hp a Ha) as [H1 H2]. apply Z.leb_le in Hle. cbn in *.
  unfold saturating_add, abs_diff. lia.
Qed.

(** Each entry of the next state extends one of this state, at the cost of the
    step; and every extension is covered by an entry that costs no more. *)
Lemma term_sound anchor i stream previous x c : state_ok anchor previous → 0 ≤ i ≤ u32_max →
  (x, c) ∈ term_pure anchor (saturate u32_max i) stream previous →
  x ∈ stream ∧ ∃ p d, (p, d) ∈ previous ∧ p ≤ x ∧ c = u32_max `min` (d + Z.abs (x - anchor - i)).
Proof.
  intros Hp Hi (Hx & best & Hb & ->)%term_elem. split; [done|]. rewrite saturate_fits by done.
  pose proof (predecessors_minimum x previous) as Hmin. rewrite Hb in Hmin. destruct Hmin as [([p d] & Ha & Hle%Z.leb_le & <-) _].
  unfold state_ok in Hp. rewrite Forall_forall in Hp. destruct (Hp _ Ha) as [H1 H2]. cbn in *.
  exists p, d. split_and!; [done|done|]. unfold saturating_add, abs_diff, saturating_sub. lia.
Qed.

Lemma term_complete anchor i stream previous x p d : state_ok anchor previous → 0 ≤ i ≤ u32_max →
  x ∈ stream → (p, d) ∈ previous → p ≤ x →
  ∃ c, (x, c) ∈ term_pure anchor (saturate u32_max i) stream previous ∧ c ≤ u32_max `min` (d + Z.abs (x - anchor - i)).
Proof.
  intros Hp Hi Hx Ha Hle. pose proof (predecessors_minimum x previous) as Hmin.
  unfold state_ok in Hp. rewrite Forall_forall in Hp. destruct (Hp _ Ha) as [H1 H2]. cbn in *.
  destruct (predecessors_pure x previous) as [best|] eqn:Hb.
  - destruct Hmin as [_ Hmin]. specialize (Hmin (p, d) Ha ltac:(apply Z.leb_le; cbn; lia)). cbn in Hmin.
    eexists. split; [apply term_elem; split; [done|]; by exists best|]. rewrite saturate_fits by done.
    unfold saturating_add, abs_diff, saturating_sub. lia.
  - destruct (Hmin (p, d) Ha). apply Z.leb_le. cbn. lia.
Qed.

Lemma align_sound anchor streams : ∀ i previous y c, state_ok anchor previous → 0 ≤ i → i + len streams ≤ u32_max →
  (y, c) ∈ align_pure anchor (enumerate_from i streams) previous →
  ∃ p d q, (p, d) ∈ previous ∧ path p streams q ∧ c = u32_max `min` (d + path_cost anchor i q).
Proof.
  induction streams as [|stream streams IH]; intros i previous y c Hp Hi Hl Hy; cbn [enumerate_from align_pure] in Hy.
  - exists y, c, []. unfold state_ok in Hp. rewrite Forall_forall in Hp. destruct (Hp _ Hy) as [_ ?]. cbn in *.
    split_and!; [done|done|lia].
  - rewrite len_cons in Hl. pose proof (len_nonneg streams). set (current := term_pure _ _ _ _) in Hy.
    assert (state_ok anchor current) as Hc by (apply term_ok; [by_compute|done]).
    assert ((y, c) ∈ align_pure anchor (enumerate_from (i + 1) streams) current) as Hy'
      by (by destruct current; [apply elem_of_nil in Hy|]).
    destruct (IH (i + 1) current y c Hc ltac:(lia) ltac:(lia) Hy') as (p & d & q & Hpd & Hq & ->).
    apply term_sound in Hpd as (Hps & p0 & d0 & H0 & Hle & ->); [|done|lia].
    exists p0, d0, (p :: q). split_and!; [done|done|]. cbn. pose proof (path_cost_nonneg anchor (i + 1) q). lia.
Qed.

Lemma align_complete anchor streams : ∀ i previous p d q, state_ok anchor previous → 0 ≤ i → i + len streams ≤ u32_max →
  (p, d) ∈ previous → path p streams q →
  ∃ y c, (y, c) ∈ align_pure anchor (enumerate_from i streams) previous ∧ c ≤ u32_max `min` (d + path_cost anchor i q).
Proof.
  induction streams as [|stream streams IH]; intros i previous p d q Hp Hi Hl Hpd Hq.
  - destruct q; [|done]. exists p, d. split; [done|]. unfold state_ok in Hp. rewrite Forall_forall in Hp.
    destruct (Hp _ Hpd) as [_ ?]. cbn in *. lia.
  - destruct q as [|x q]; [done|]. destruct Hq as (Hx & Hle & Hq). rewrite len_cons in Hl. pose proof (len_nonneg streams).
    cbn [enumerate_from align_pure].
    destruct (term_complete anchor i stream previous x p d Hp ltac:(lia) Hx Hpd Hle) as (c & Hc & Hcost).
    set (current := term_pure _ _ _ _) in *. assert (state_ok anchor current) as Hok by (apply term_ok; [by_compute|done]).
    destruct (IH (i + 1) current x c q Hok ltac:(lia) ltac:(lia) Hc Hq) as (y & e & Hy & He).
    exists y, e. split; [by destruct current; [apply elem_of_nil in Hc|]|]. cbn.
    pose proof (path_cost_nonneg anchor (i + 1) q). lia.
Qed.

(** ** The minimum *)

Lemma anchors_fold streams l : ∀ best,
  fold_left (anchor_pure streams) l best
  = fold_left (λ best a, if true then best_min best (snd a) else best)
      (concat ((λ anchor, align_pure anchor (tail (enumerate_from 0 streams)) [(anchor, 0)]) <$> l)) best.
Proof.
  induction l as [|anchor l IH]; intros best; [done|]. cbn [fold_left fmap list_fmap concat]. rewrite fold_left_app, IH.
  f_equal. unfold anchor_pure. apply fold_left_ext. by intros b [p c].
Qed.

(** The outcome is the least displacement of an alignment, saturated. *)
Definition least_displacement (streams : list (list Z)) (outcome : option Z) : Prop :=
  match outcome with
  | None => ∀ q, ¬ alignment streams q
  | Some cost =>
      (∃ q, alignment streams q ∧ cost = u32_max `min` displacement q) ∧
      ∀ q, alignment streams q → cost ≤ u32_max `min` displacement q
  end.

(** Every term of an alignment has an occurrence. *)
Lemma path_occurs position streams q stream : path position streams q → stream ∈ streams → stream ≠ [].
Proof.
  revert position q. induction streams as [|s streams IH]; intros position q Hq Hs; [by apply elem_of_nil in Hs|].
  destruct q as [|x q]; [done|]. destruct Hq as (Hx & _ & Hq). apply elem_of_cons in Hs as [->|Hs].
  - by intros ->; apply elem_of_nil in Hx.
  - by eapply IH.
Qed.

Lemma general_minimum first streams : 1 + len streams ≤ u32_max →
  least_displacement (first :: streams) (fold_left (anchor_pure (first :: streams)) first None).
Proof.
  intros Hl. rewrite anchors_fold. cbn [enumerate_from tail]. rewrite Z.add_0_l.
  set (costs := concat _). pose proof (fold_minimum (λ _ : Z * Z, true) snd costs [] None) as Hmin.
  rewrite app_nil_l in Hmin. specialize (Hmin ltac:(by intros a Ha%elem_of_nil)). set (best := fold_left _ _ _) in *.
  assert (∀ anchor, state_ok anchor [(anchor, 0)]) as Hok.
  { intros anchor. apply Forall_singleton. cbn. assert (0 ≤ u32_max) by by_compute. lia. }
  assert (∀ y c, (y, c) ∈ costs → ∃ q, alignment (first :: streams) q ∧ c = u32_max `min` displacement q) as Hsound.
  { intros y c (l & Hl'%list_elem_of_In & Hy%list_elem_of_In)%list_elem_of_In%in_concat.
    apply list_elem_of_fmap in Hl' as (anchor & -> & Ha).
    apply align_sound in Hy as (p & d & q & [= -> ->]%list_elem_of_singleton & Hq & ->); [|done|lia|lia].
    exists (anchor :: q). split; [done|]. cbn. by rewrite Z.add_0_l. }
  assert (∀ q, alignment (first :: streams) q → ∃ y c, (y, c) ∈ costs ∧ c ≤ u32_max `min` displacement q) as Hcomplete.
  { intros [|anchor q] Hq; [done|]. destruct Hq as [Ha Hq].
    destruct (align_complete anchor streams 1 [(anchor, 0)] anchor 0 q (Hok anchor) ltac:(lia) ltac:(lia) ltac:(left) Hq)
      as (y & c & Hy & Hc). exists y, c. split; [|by rewrite Z.add_0_l in Hc].
    apply list_elem_of_In, in_concat. eexists. split; [|by apply list_elem_of_In].
    apply list_elem_of_In, list_elem_of_fmap. by exists anchor. }
  unfold least_displacement. destruct best as [m|]; cbn in Hmin.
  - destruct Hmin as [([y c] & Hy & _ & <-) Hmin]. split; [by apply (Hsound y)|]. intros q Hq.
    destruct (Hcomplete q Hq) as (y' & c' & Hy' & Hc'). specialize (Hmin (y', c') Hy' eq_refl). cbn in *. lia.
  - intros q Hq. destruct (Hcomplete q Hq) as (y & c & Hy & _). by apply (Hmin (y, c) Hy).
Qed.

Lemma minimum_least streams : len streams ≤ u32_max → least_displacement streams (minimum_displacement streams).
Proof.
  intros Hl. rewrite minimum_is_pure. unfold minimum_pure. destruct streams as [|first streams]; [intros q []|].
  rewrite len_cons in *. pose proof (len_nonneg streams). destruct (Z.eqb_spec (1 + len streams) 1) as [H1|H1].
  - assert (streams = []) as -> by (apply len_zero_nil; lia). destruct (Z.eqb_spec (len first) 0) as [H0|H0].
    + apply len_zero_nil in H0 as ->. intros [|x q]; [intros []|]. by intros [Hx%elem_of_nil _].
    + destruct first as [|x first]; [done|]. assert (0 ≤ u32_max) by by_compute. split.
      * exists [x]. split; [split; [left|done]|]. cbn. lia.
      * intros [|y q] Hq; [done|]. cbn. pose proof (path_cost_nonneg y 1 q). lia.
  - destruct (existsb _ _) eqn:He; [|by apply general_minimum].
    apply existsb_exists in He as (stream & Hs%list_elem_of_In & H0%Z.eqb_eq%len_zero_nil). subst stream.
    intros [|x q]; [intros []|]. intros [Hx Hq]. apply elem_of_cons in Hs as [<-|Hs]; [by apply elem_of_nil in Hx|].
    by apply (path_occurs _ _ _ _ Hq Hs).
Qed.

(** ** Phrases of a segment *)

(** The positions of a term in a row. *)
Definition occurs (segment : SegmentIndex) (field row : Z) (term : bytes) (stream : list Z) : Prop :=
  ∃ l p, posting_list segment term field = Some l ∧ p ∈ pl_postings l ∧ po_docid p = row ∧ po_positions p = stream.

(** A list holds each document once. *)
Definition lists_ascend (segment : SegmentIndex) : Prop :=
  ∀ l, l ∈ si_lists segment → ascending (pl_postings l).

Lemma posting_list_elem segment term field l : posting_list segment term field = Some l → l ∈ si_lists segment.
Proof.
  unfold posting_list. intros (slot & _ & Hl)%bind_Some. by eapply list_elem_of_lookup_2.
Qed.

Lemma find_docid l row : ascending l → ∀ p,
  List.find (λ candidate, po_docid candidate =? row) l = Some p ↔ p ∈ l ∧ po_docid p = row.
Proof.
  intros Ha p. split.
  - intros [Hp Hd]%find_some. split; [by apply list_elem_of_In|]. by apply Z.eqb_eq.
  - intros [Hp Hd]. destruct (List.find _ l) as [p'|] eqn:Hf.
    + apply find_some in Hf as [Hp'%list_elem_of_In Hd'%Z.eqb_eq]. f_equal.
      apply (NoDup_fmap_elem po_docid l); [by apply ascending_NoDup_docids|done|done|congruence].
    + apply list_elem_of_In, (List.find_none _ _ Hf) in Hp. by apply Z.eqb_neq in Hp.
Qed.

Lemma row_streams_spec segment field row terms streams : lists_ascend segment →
  row_streams segment field row terms = Some streams ↔ Forall2 (occurs segment field row) terms streams.
Proof.
  intros Ha. revert streams. induction terms as [|term terms IH]; intros streams; cbn [row_streams].
  - split; [intros [= <-]; constructor|]. by intros ->%Forall2_nil_inv_l.
  - split.
    + intros (l & Hl & (p & Hp & (rest & Hrest & [= <-])%bind_Some)%bind_Some)%bind_Some.
      apply find_docid in Hp as [Hp Hd]; [|by eapply Ha, posting_list_elem]. constructor; [|by apply IH]. by exists l, p.
    + intros (stream & rest & (l & p & Hl & Hp & Hd & <-) & Hrest & ->)%Forall2_cons_inv_l.
      rewrite Hl. cbn [mbind option_bind]. rewrite (proj2 (find_docid _ _ (Ha l (posting_list_elem _ _ _ _ Hl)) p) (conj Hp Hd)).
      cbn [mbind option_bind]. by rewrite (proj2 (IH rest) Hrest).
Qed.

Lemma streams_match_spec streams slop : len streams ≤ u32_max →
  streams_match streams slop = true ↔ ∃ q, alignment streams q ∧ u32_max `min` displacement q ≤ slop.
Proof.
  intros Hl. pose proof (minimum_least streams Hl) as H. unfold streams_match.
  destruct (minimum_displacement streams) as [cost|]; cbn in H.
  - destruct H as [(q & Hq & Hcost) Hmin]. rewrite Z.leb_le. split; [intros; exists q; split; [done|lia]|].
    intros (q' & Hq' & Hle). specialize (Hmin q' Hq'). lia.
  - split; [done|]. intros (q & Hq & _). by destruct (H q).
Qed.

(** Neighbours of an alignment do not go back. *)
Lemma path_neighbours streams : ∀ p q i a b,
  path p streams q → streams !! i = Some a → streams !! S i = Some b → ∃ x y, x ∈ a ∧ y ∈ b ∧ x ≤ y.
Proof.
  induction streams as [|s streams IH]; intros p [|x q] i a b Hq Ha Hb; try done. destruct Hq as (Hx & _ & Hq).
  destruct i as [|i]; [|by eapply IH]. injection Ha as <-. destruct streams as [|s' streams], q as [|y q]; try done.
  injection Hb as <-. destruct Hq as (Hy & Hle & _). by exists x, y.
Qed.

Lemma alignment_neighbours streams q i a b :
  alignment streams q → streams !! i = Some a → streams !! S i = Some b → ∃ x y, x ∈ a ∧ y ∈ b ∧ x ≤ y.
Proof.
  destruct streams as [|s streams], q as [|x q]; try done. intros [Hx Hq] Ha Hb.
  destruct i as [|i]; [|by eapply path_neighbours]. injection Ha as <-. destruct streams as [|s' streams], q as [|y q]; try done.
  injection Hb as <-. destruct Hq as (Hy & Hle & _). by exists x, y.
Qed.

(** C17: The alignment search finds the least displacement. Whatever its callback,
    the search ends with the callback's error or with one answer: for a phrase of at
    most u32::MAX terms it is None when the terms have no occurrences at
    non-decreasing positions, and otherwise the least total displacement SUM |(qi -
    q0) - i| over all of them, saturated at u32::MAX. A transposition has no
    displacement: if two consecutive terms occur only in the opposite order, the
    answer is None, where the consequences listed in the module's documentation give
    an adjacent transposition (fox quick for quick fox) the displacement 2. *)
Theorem phrase_displacement_exact streams : len streams ≤ u32_max →
  (∀ (W E : Type) (check : W → W * result E unit) (work : WorkCheck W),
     let outcome := (minimum_displacement_controlled check streams work).2 in
     outcome = Ok (minimum_displacement streams) ∨ ∃ e, refuses check e ∧ outcome = Err e) ∧
  match minimum_displacement streams with
  | None => ∀ q, ¬ alignment streams q
  | Some cost =>
      (∃ q, alignment streams q ∧ cost = u32_max `min` displacement q) ∧
      ∀ q, alignment streams q → cost ≤ u32_max `min` displacement q
  end ∧
  (∀ i a b, streams !! i = Some a → streams !! S i = Some b → (∀ x y, x ∈ a → y ∈ b → y < x) →
     minimum_displacement streams = None).
Proof.
  intros Hl. pose proof (minimum_least streams Hl) as Hm. split_and!; [|exact Hm|].
  - intros W E check work. rewrite minimum_is_pure. apply settles_minimum.
  - intros i a b Ha Hb Hrev. destruct (minimum_displacement streams) as [cost|]; [|done].
    destruct Hm as [(q & Hq & _) _]. destruct (alignment_neighbours _ _ _ _ _ Hq Ha Hb) as (x & y & Hx & Hy & Hle).
    specialize (Hrev x y Hx Hy). lia.
Qed.

Lemma phrase_displacement_exact_witness :
  minimum_displacement [[0; 7]; [3; 8]; [20]] = Some 11 ∧
  (∀ q, alignment [[0; 7]; [3; 8]; [20]] q → 11 ≤ u32_max `min` displacement q) ∧
  minimum_displacement [[1]; [0]] = None.
Proof.
  split; [vm_compute; reflexivity|]. split.
  - pose proof (phrase_displacement_exact [[0; 7]; [3; 8]; [20]] ltac:(by_compute)) as (_ & H & _).
    change (minimum_displacement [[0; 7]; [3; 8]; [20]]) with (Some 11) in H. apply H.
  - pose proof (phrase_displacement_exact [[1]; [0]] ltac:(by_compute)) as (_ & _ & H).
    apply (H 0%nat [1] [0]); [reflexivity|reflexivity|].
    intros x y ->%list_elem_of_singleton ->%list_elem_of_singleton. lia.
Defined.

(** The terms of a row that occur only in the opposite order. *)
Definition transposed (segment : SegmentIndex) (field row : Z) (t u : bytes) : Prop :=
  ∀ a b x y, occurs segment field row t a → occurs segment field row u b → x ∈ a → y ∈ b → y < x.

(** The rows of a search. *)
Lemma search_segment_rows segment query rows row :
  lists_ascend segment → len (ph_terms query) ≤ u32_max → search_segment segment query = Ok rows →
  row ∈ rows ↔ ∃ streams q, Forall2 (occurs segment (ph_field query) row) (ph_terms query) streams ∧
    alignment streams q ∧ u32_max `min` displacement q ≤ ph_slop query.
Proof.
  intros Ha Hl Hs. unfold search_segment in Hs. destruct (ph_terms query) as [|first terms] eqn:Hterms; [done|].
  assert (∀ streams, Forall2 (occurs segment (ph_field query) row) (first :: terms) streams → len streams ≤ u32_max) as Hlen.
  { intros streams H%Forall2_length. unfold len in *. lia. }
  destruct (posting_list segment first (ph_field query)) as [l|] eqn:Hfirst;
    apply (f_equal (λ r, match r with Ok rows => rows | Err _ => [] end)) in Hs; cbv beta iota in Hs; subst rows.
  - rewrite list_elem_of_fmap. split.
    + intros (p & -> & [Hp%list_elem_of_In Hm]%list_elem_of_In%filter_In).
      destruct (row_streams _ _ _ _) as [streams|] eqn:Hr; [|done]. apply row_streams_spec in Hr; [|done].
      apply streams_match_spec in Hm as (q & Hq & Hslop); [|by apply Hlen]. by exists streams, q.
    + intros (streams & q & Hocc & Hq & Hslop). pose proof Hocc as Hocc'.
      apply Forall2_cons_inv_l in Hocc' as (stream & rest & (l' & p & Hl' & Hp & Hd & _) & _ & ->).
      rewrite Hfirst in Hl'. injection Hl' as <-. exists p. split; [done|]. apply list_elem_of_In, filter_In.
      split; [by apply list_elem_of_In|]. rewrite Hd, (proj2 (row_streams_spec _ _ _ _ _ Ha) Hocc).
      apply streams_match_spec; [by apply Hlen|]. by exists q.
  - split; [by intros ?%elem_of_nil|]. intros (streams & q & Hocc & _).
    apply Forall2_cons_inv_l in Hocc as (stream & rest & (l' & p & Hl' & _) & _ & _). congruence.
Qed.

(** C16: The phrase scan returns the matching rows and no others. In a segment whose
    lists hold each document once, a non-empty phrase of at most u32::MAX terms
    gives exactly the rows in which every term occurs and some choice of
    non-decreasing positions, one occurrence per term, has a saturated displacement
    within the slop. In particular a row in which two consecutive terms of the
    phrase occur only in the opposite order is returned at no slop, where the
    consequences listed in the module's documentation say that fox quick matches the
    query quick fox at slop 2. *)
Theorem phrase_search_exact segment query rows row :
  lists_ascend segment → len (ph_terms query) ≤ u32_max → search_segment segment query = Ok rows →
  (row ∈ rows ↔ ∃ streams q, Forall2 (occurs segment (ph_field query) row) (ph_terms query) streams ∧
     alignment streams q ∧ u32_max `min` displacement q ≤ ph_slop query) ∧
  (∀ i t u, ph_terms query !! i = Some t → ph_terms query !! S i = Some u →
     transposed segment (ph_field query) row t u → row ∉ rows).
Proof.
  intros Ha Hl Hs. apply (search_segment_rows _ _ _ row) in Hs as Hrows; [|done..]. split; [exact Hrows|].
  intros i t u Ht Hu Hrev (streams & q & Hocc & Hq & _)%Hrows.
  destruct (Forall2_lookup_l _ _ _ _ _ Hocc Ht) as (a & Hsa & Hoa).
  destruct (Forall2_lookup_l _ _ _ _ _ Hocc Hu) as (b & Hsb & Hob).
  destruct (alignment_neighbours _ _ _ _ _ Hq Hsa Hsb) as (x & y & Hx & Hy & Hle).
  specialize (Hrev a b x y Hoa Hob Hx Hy). lia.
Qed.

Module SamplePhrase.

(** [quick] at 1 and 4 of row 2, [fox] at 0 and 6 of it; row 5 has [quick] alone,
    row 7 is [fox quick]. *)
Definition quick : bytes := u8_byte <$> [113; 117; 105; 99; 107].
Definition fox : bytes := u8_byte <$> [102; 111; 120].
Definition posting (docid : Z) (positions : list Z) : Posting :=
  {| po_docid := docid; po_tf := len positions; po_positions := positions |}.
Definition segment : SegmentIndex := {|
  si_terms := {[ (quick, 0) := 0%nat; (fox, 0) := 1%nat ]};
  si_lists := [{| pl_postings := [posting 2 [1; 4]; posting 5 [3]; posting 7 [1]] |};
               {| pl_postings := [posting 2 [0; 6]; posting 7 [0]] |}] |}.
Definition query : PhraseQuery := {| ph_terms := [quick; fox]; ph_slop := 2; ph_field := 0 |}.

Lemma segment_ascends : lists_ascend segment.
Proof.
  intros l Hl. repeat (apply elem_of_cons in Hl as [->|Hl]; [unfold ascending; repeat constructor|]). by apply elem_of_nil in Hl.
Qed.

Lemma row_transposed : transposed segment 0 7 quick fox.
Proof.
  intros a b x y (l & p & Hl & Hp & Hd & <-) (l' & p' & Hl' & Hp' & Hd' & <-).
  assert (Some l = Some {| pl_postings := [posting 2 [1; 4]; posting 5 [3]; posting 7 [1]] |}) as [= ->]
    by (rewrite <- Hl; by vm_compute).
  assert (Some l' = Some {| pl_postings := [posting 2 [0; 6]; posting 7 [0]] |}) as [= ->]
    by (rewrite <- Hl'; by vm_compute).
  assert (p = posting 7 [1]) as -> by (cbn in Hp; set_unfold; naive_solver).
  assert (p' = posting 7 [0]) as -> by (cbn in Hp'; set_unfold; naive_solver).
  cbn. intros ->%list_elem_of_singleton ->%list_elem_of_singleton. lia.
Qed.
End SamplePhrase.

Lemma phrase_search_exact_witness :
  search_segment SamplePhrase.segment SamplePhrase.query = Ok [2] ∧
  ∃ streams q, Forall2 (occurs SamplePhrase.segment 0 2) [SamplePhrase.quick; SamplePhrase.fox] streams ∧
    alignment streams q ∧ u32_max `min` displacement q ≤ 2 ∧ 7 ∉ [2].
Proof.
  assert (search_segment SamplePhrase.segment SamplePhrase.query = Ok [2]) as H by (vm_compute; reflexivity).
  split; [exact H|].
  destruct (phrase_search_exact SamplePhrase.segment SamplePhrase.query [2] 2 SamplePhrase.segment_ascends
    ltac:(by_compute) H) as [[H2 _] _].
  destruct (phrase_search_exact SamplePhrase.segment SamplePhrase.query [2] 7 SamplePhrase.segment_ascends
    ltac:(by_compute) H) as [_ H7].
  destruct (H2 ltac:(left)) as (streams & q & Ho & Hq & Hd). exists streams, q. split_and!; [exact Ho|exact Hq|exact Hd|].
  apply (H7 0%nat SamplePhrase.quick SamplePhrase.fox); [reflexivity|reflexivity|exact SamplePhrase.row_transposed].
Defined.
